(* ===== verification/_CoqProject ===== *)
-Q . S2P
Prelude.v
GoStrings.v
GoStrconv.v
GoSort.v
GoFloat.v
GoJson.v
GoJsonEncode.v
Domain.v
Store.v
Contract.v
ContractPaths.v
ContractIdent.v
Match.v
MatchConfig.v
MatchRoutes.v
Hits.v
Search.v
SearchMerge.v
SearchFuse.v
Paths.v
Gitignore.v
Walk.v
Services.v
StoreQuery.v
LinkStore.v
SqlDriver.v
SqlEdges.v
SqlEdgesFacts.v
SqlUnits.v
Linker.v
LinkerFacts.v
SqlBatch.v
LinkContracts.v
LinkFacts.v
LinkRefs.v
SqlJobs.v
SqlQueue.v
SqlRepos.v
SqlFiles.v
Commits.v
Queue.v
QueueFacts.v
QueueCommits.v
Watch.v
WatchFacts.v
Progress.v
Indexing.v
IndexingPass.v
IndexingPlan.v
StoreQueryFacts.v
Graph.v
GraphFacts.v
GraphContext.v
GraphListings.v
Trace.v
TraceFacts.v
TraceMatch.v
GoRegexp.v
Intent.v
Callers.v
ContractAnswers.v
ContractUses.v
ContractAnswersFacts.v
Answers.v
Chunks.v
Catalog.v
MetaCodec.v
Extract.v
Detect.v
Wrappers.v
Schemas.v
ExtractGo.v
ExtractPython.v
ExtractJvm.v
ExtractTypeScript.v
ExtractCSharp.v
SchemasFacts.v
DetectFacts.v
WrapperFacts.v
ExtractFacts.v
