(* ===== verification/Prelude.v ===== *)
(** * ragota: a verification library

    ragota indexes repositories into a graph of code units and answers questions
    over it: keyword, semantic and hybrid search, the callers of a function, the
    users of a contract, neighbours and paths across services, and traces of a
    parameter through them.  This library models the deterministic core of that
    program in Rocq and proves what makes each part correct.  The definitions
    follow the Go code under [src/]; the names are the code's.  Where one Go
    function is several definitions here (a loop body, a closure, a group of
    guards), the doc comment of each says which part it is; where two methods of
    the code have one name, the definition has a prefix ([java_walk], [cs_walk]).

    ** The program and the files that model it

    A checkout is walked with its ignore rules; extractors turn its files into units
    and edges, which a pass stores and keeps in step with the tree; the linker
    matches edges to units over join keys; the graph queries and the tracer walk the
    result; the hybrid service searches an index per modality, and the answers of the
    graph are placed ahead of its hits.  Pushed commits and requests to index go
    through a job queue that several instances share.

    - Language.  [GoStrings], [GoStrconv], [GoSort], [GoFloat], [GoJson],
      [GoJsonEncode], [GoRegexp] and [Paths]: what the code uses of the Go standard
      library ([strings], [strconv], [sort], float32 and float64, [encoding/json],
      [regexp], [path]).  [GoFloat] computes with the IEEE formats bit for bit;
      [GoRegexp] compiles a pattern from its text and matches leftmost first.
    - Data.  [Domain]: [internal/domain].  [Contract], [ContractPaths],
      [ContractIdent]: [internal/contract], the keys both sides of a join build, the
      identifier vocabulary, the confidences.  [Hits]: [internal/index/interface.go].
      [MetaCodec]: the metadata of an edge as the JSON text that is stored.
    - Trees.  [Gitignore], [Walk]: [pkg/gitignore], [internal/config/ignore.go] and
      [languages.go], [internal/repos/walk.go] and [discover.go]; the lazily filled
      caches of the rules are explicit state.  [Services]: [svcdetect.go] and
      [manifest.go].  [Chunks]: [internal/index/chunk.go] and [symbols.go].
    - Extraction ([internal/index/ast]).  [Extract]: what every extractor fills, the
      record [fileCtx].  [Detect]: the rules of frameworks and brokers and the
      engine that runs them, generic routes.  [Wrappers]: helpers followed one
      level, [ParseFacts], the linking of a package and the storing of windows.
      [Schemas]: SQL, proto and configuration files.  [ExtractGo], [ExtractPython],
      [ExtractJvm], [ExtractTypeScript], [ExtractCSharp]: the extractors of the
      languages that are read from a syntax tree, each a traversal of [Node] over
      the state of its struct and a [fileCtx].  [SchemasFacts], [DetectFacts],
      [WrapperFacts], [ExtractFacts] hold the theorems.
    - Store.  [Store] and [LinkStore] are interfaces as classes: the reads of the
      graph and the writes of the linker, with the laws their clients rely on.
      [StoreQuery], [StoreQueryFacts]: [internal/store/query.go].  [SqlDriver],
      [SqlEdges], [SqlEdgesFacts], [SqlUnits], [SqlBatch], [SqlJobs], [SqlQueue],
      [SqlRepos], [SqlFiles]: the SQLite backend, a method being the statements it
      runs on tables of rows, any of which may fail ([fault n] is the error of the
      [n]-th call).  [SqlEdgesFacts] discharges the laws of [LinkStore] for it.
    - Linker ([internal/graph/linker.go]).  [Match], [MatchConfig], [MatchRoutes]:
      its indexes and match functions.  [Linker], [LinkerFacts], [LinkContracts],
      [LinkFacts], [LinkRefs]: its passes over the store.
    - Graph ([internal/graph]).  [Graph], [GraphFacts], [GraphContext],
      [GraphListings]: queries as computations over the caches of the loader, and
      the listings of services, links and topics.  [Trace], [TraceFacts],
      [TraceMatch]: the tracer, with the record [tracer] as its state.
    - Search and answers.  [Search], [SearchMerge], [SearchFuse]:
      [internal/search/hybrid.go].  [Intent], [Callers], [ContractAnswers],
      [ContractUses], [ContractAnswersFacts]: [internal/app/promote] and the
      sanitizer of rewritten queries.  [Answers], [Catalog]: the service,
      [internal/app/service.go], [active.go], [context.go], [nav.go], [repos.go].
    - Indexing ([internal/app]).  [Commits], [Queue], [QueueFacts], [QueueCommits]:
      commit batches, the queue worker and its claims; a run is the calls the code
      makes in their order, and a fleet of workers plays the phases of its runs in any
      order.
      [Indexing], [IndexingPass], [IndexingPlan]: the full and the
      incremental pass over the classes [PassStore] and its laws.
    - Server.  [Watch], [WatchFacts]: [internal/server/watch], events and ticks one
      after another.  [Progress]: [internal/server/progress], its publications and
      subscriptions under any interleaving.

    This file holds what the components share: tactics, lemmas on lists, and maps
    of slices ([bucket], [push]), from which the linker's indexes are built.

    ** What the theorems show

    - Extraction: whatever the syntax tree, the edges, requests and pending tables of
      a parsed file name units of that file, coverage adds up and tables and
      constants stay within their bounds, so that every edge reaches the store; a
      call site is counted once a kind; the requests of helpers are linked once; a
      window is stored whole files at a time, and other files lose only their edges
      from and into the units that go; a document whose names do not collide gives
      the same units in whatever order Go visits its maps; chunks lose no line.
    - Indexing: a pass without an error leaves every listed file it can read in step
      with the tree, rows and indexes, but for one whose row it trusts wrongly, which
      takes a failed pass that went for the file before; a file that is not listed
      loses its row, and its place in the indexes if it had a row; an incremental
      pass does what the merged plan of its commits says.
    - Commits and jobs: an accepted path stays inside its repository; the merged plan
      equals the commits one after another; a queued batch is never lost, and a
      polling worker drains a chain of batches in order; whatever the interleaving of
      workers, a cursor moves only to the end of a batch that was applied whole and
      continued the cursor its worker had checked it against; a held job and a
      granted claim are exclusive.
    - Watching: a recorded change reaches the indexer within the longest delay; the
      budget of watches is kept.  A snapshot of the progress bus is a view of all its
      publications, and no wakeup is lost.
    - Linking: after each pass every edge is as linking it by itself leaves it,
      whatever was batched and whatever the store refused; a topic the run touches has
      exactly the flows from its producers to its consumers; a lookup in an index answers what a
      scan of every unit would, with its scores pinned down in float32.
    - Store: one text with holes and one list of arguments for every engine; a batch
      of resolutions reports exactly the rows it lost; removing files leaves no edge
      to a unit that is gone; files, repositories and coverage refine finite maps.
    - Graph: caching is invisible; a path is a shortest valid path, and a query
      reports none only when there is none within its depth; the service graph has one
      link for each way two services call each other, and a topic its producers and
      consumers, in one order; each chain of a trace is a sequence of hops the store
      holds, and the answer is the best discovered.
    - Search and answers: retrieval does not depend on the order searchers finish in
      and fails only when every searcher does; fusion and merging invent no hit and
      lose no line; every stage keeps to the repositories of the request; what is
      promoted for callers, contracts and their users, in which order, and how.
    - Trees: the cached ignore rules answer as the specification of git does; the
      pruning walk finds exactly the files its rules mean; services get the shortest
      names that tell them apart.
    - Keys: every spelling of a path parameter gives one key; keys parse back and
      kinds never collide; the metadata of an edge and a commit batch are read back
      as they were written.

    Where the code falls short of what it promises, the limit is a theorem or an
    example too: [MatchConfig.matchConfigKey_load_order],
    [SearchMerge.mergeSpans_unset_end], [SearchMerge.mergeSpans_overlap_left],
    [Hits.sortHits_same_line], [Hits.ParseFilters_path_order],
    [LinkFacts.removed_consumer_leaves_flow], [SqlQueue.released_force_lost],
    [SqlRepos.late_status_releases], [QueueCommits.first_batches_reordered],
    [QueueCommits.overlapping_batch_dropped],
    [QueueCommits.slow_worker_rewinds], [LinkFacts.stale_confidence_kept],
    [IndexingPlan.forced_failure_not_retried],
    [IndexingPlan.reverted_edit_not_retried],
    [WatchFacts.recreated_directory_deleted], [Progress.cancel_meets_send],
    [Services.root_build_is_ignored], [Services.root_name_is_skipped],
    [Services.chain_collides], [Chunks.short_window_loses_lines],
    [Chunks.republished_goes_first], [Callers.repeated_id_crowds_out],
    [ContractAnswersFacts.test_declaration_promoted],
    [ContractAnswersFacts.failed_read_skips_filters],
    [DetectFacts.resolved_site_counted_as_gap], [DetectFacts.folded_fields],
    [SchemasFacts.keys_past_the_limit], [SchemasFacts.one_key_two_paths],
    [Schemas.contract_file], [Schemas.one_line_table_stays_open] and
    [ExtractFacts.counted_outside_functions].

    ** Fuel and bounds

    Every definition computes.  Recursion that is not structural takes fuel:
    - [Graph.search] (the loop of [Path]) runs with as much fuel as there may be
      units, plus one; [GraphFacts.Path_shortest] takes any fuel above the size of
      the universe of units and shows the answer complete.
    - [Trace.dfs] has the depth limit as fuel, and [TraceFacts.trace_depth_bound]
      shows that more changes nothing.
    - [Gitignore.match_up] and [dirExcluded] climb at most the components of a path.
    - [GoJson.jvalue] has twice the length of its input as fuel, and
      [GoJson.jparse_fuel] shows that more reads the same.
    - [GoRegexp] compiles with fuel linear in the pattern, each call of its parser
      taking a character or an alternative; a repetition goes round at most once more
      than there are runes left, which a body that takes one does not notice.
    - [Chunks.windows] has the number of lines, [Indexing.windows] and
      [Wrappers.windows_of] the number of files, [SqlDriver.path_chunks] and
      [SqlEdges.batch_chunks] the number of rows: each step takes at least one, and
      the theorems about them ([Chunks.ChunkFile_lossless],
      [IndexingPass.windows_concat], [SqlBatch.BatchUpdateEdgeResolutions_rows])
      show nothing left over.
    - [Callers.rounds] takes turns over as many rounds as the longest list of edges;
      [Intent.strip_blocks] and [unwrap_all] shorten the text at each step.
    - [Services.disambiguateNames] makes the rounds the code bounds itself to.
    The traversals of a syntax tree are structural, through combinators over its
    children ([each_named], [on_field]).  Integers that count lines and ids are [Z];
    [StoreQuery.IntOrZero] and [GoStrconv.ParseInt64] keep the 64-bit range, and
    scores keep their format.

    ** What is a parameter, and what is left out

    Code that is not in the repository is an argument: tree-sitter (the syntax tree
    of a file: types, places and children of its nodes), the glob matcher and the
    operating system of the ignore rules, the output of git, the YAML decoder, the
    digest of a text, the searchers and the reranker of the hybrid search, the
    language models, the engine that runs a statement and its LIKE (class
    [SqlLike], with [like_match] as an instance).  The order in which Go visits a map
    is an argument ([visit]) wherever the code lets it show.  Letter case and white
    space are ASCII, except in [GoRegexp], which folds Latin and Cyrillic letters;
    [GoJson] does not limit nesting.  Contexts and their cancellation appear as the
    errors they cause.  A slice expression that panics in Go on a text no parsed
    source holds (a keyword argument that is a single brace in [lang_python.go])
    yields no fields here.

    Not modelled: the bleve, vector and qdrant indexes, the Postgres backend, language
    servers, the HTTP, MCP and terminal interfaces, the loading of configuration,
    git commands, the network clients of language models, metrics and logs, and the
    ingestion of pushed content; each is a driver of code outside the repository, or
    glue over what is modelled here. *)

From Stdlib Require Import Sorting.Sorted Sorting.Permutation.
From stdpp Require Export prelude strings gmap.
From stdpp Require Import list.

Declare Scope ragota_scope.
Delimit Scope ragota_scope with ragota.

(** ** Automation *)

(** [case_if] destructs the innermost test of an [if] of the goal. *)
Ltac case_if :=
  match goal with
  | |- context [if ?b then _ else _] => let E := fresh "E" in destruct b eqn:E
  end.

(** [bool_prop] turns boolean hypotheses built with the boolean connectives
    into propositions. *)
Ltac bool_prop :=
  repeat match goal with
  | H : (_ && _)%bool = true |- _ => apply andb_true_iff in H; destruct H
  | H : (_ || _)%bool = false |- _ => apply orb_false_iff in H; destruct H
  | H : negb _ = true |- _ => apply negb_true_iff in H
  | H : negb _ = false |- _ => apply negb_false_iff in H
  | H : String.eqb _ _ = true |- _ => apply String.eqb_eq in H; subst
  | H : String.eqb _ _ = false |- _ => apply String.eqb_neq in H
  | H : Nat.eqb _ _ = true |- _ => apply Nat.eqb_eq in H
  | H : Nat.eqb _ _ = false |- _ => apply Nat.eqb_neq in H
  | H : Z.eqb _ _ = true |- _ => apply Z.eqb_eq in H
  | H : Z.eqb _ _ = false |- _ => apply Z.eqb_neq in H
  | H : Z.ltb _ _ = true |- _ => apply Z.ltb_lt in H
  | H : Z.ltb _ _ = false |- _ => apply Z.ltb_ge in H
  | H : Z.leb _ _ = true |- _ => apply Z.leb_le in H
  | H : Z.leb _ _ = false |- _ => apply Z.leb_gt in H
  | H : Nat.ltb _ _ = true |- _ => apply Nat.ltb_lt in H
  | H : Nat.ltb _ _ = false |- _ => apply Nat.ltb_ge in H
  | H : Nat.leb _ _ = true |- _ => apply Nat.leb_le in H
  | H : Nat.leb _ _ = false |- _ => apply Nat.leb_gt in H
  end.

(** stdpp keeps [String.append] folded; the proofs here compute with it. *)
#[global] Arguments String.append !s1 s2 : simpl nomatch.

(** ** Lists *)

Lemma forallb_Forall {A} (f : A → bool) l :
  forallb f l = true → Forall (λ x, f x = true) l.
Proof. induction l; simpl; [constructor |]. intros H. bool_prop. constructor; auto. Qed.

(** [by_forallb] evaluates a [Forall] of a boolean test on a concrete list. *)
Ltac by_forallb := apply forallb_Forall; vm_compute; reflexivity.

Lemma filter_impl {A} (P Q : A → Prop) `{!∀ x, Decision (P x), !∀ x, Decision (Q x)} (l : list A) :
  (∀ x, x ∈ l → P x ↔ Q x) → filter P l = filter Q l.
Proof.
  induction l as [|x l IH]; intros Hf; [done |].
  rewrite !filter_cons. pose proof (Hf x (list_elem_of_here _ _)).
  rewrite IH by (intros y Hy; apply Hf; by right).
  repeat case_decide; tauto || done.
Qed.

Lemma filter_true_id {A} (l : list A) : filter (λ _, True) l = l.
Proof. induction l; simpl; [done |]. rewrite filter_cons_True by done. congruence. Qed.

Lemma filter_nothing {A} (P : A → Prop) `{!∀ x, Decision (P x)} (l : list A) : (∀ x, x ∈ l → ¬ P x) → filter P l = [].
Proof.
  induction l as [|x l IH]; intros Hl; [done |]. rewrite filter_cons_False by (apply Hl; by left).
  apply IH. intros y Hy. apply Hl. by right.
Qed.
Lemma filter_everything {A} (P : A → Prop) `{!∀ x, Decision (P x)} (l : list A) : (∀ x, x ∈ l → P x) → filter P l = l.
Proof.
  induction l as [|x l IH]; intros Hl; [done |]. rewrite filter_cons_True by (apply Hl; by left). f_equal.
  apply IH. intros y Hy. apply Hl. by right.
Qed.

(** [l ≫= f] keeps what [f] keeps: a filter when [f] keeps or drops. *)
Lemma bind_filter {A} (f : A → list A) (P : A → Prop) `{!∀ x, Decision (P x)} (l : list A) :
  (∀ x, x ∈ l → f x = if decide (P x) then [x] else []) → l ≫= f = filter P l.
Proof.
  induction l as [|x l IH]; intros Hf; [done |].
  rewrite bind_cons, filter_cons, Hf by (by left).
  rewrite IH by (intros y Hy; apply Hf; by right). by case_decide.
Qed.

(** A fold skips what leaves its state alone. *)
Lemma foldl_filter {A S} (f : S → A → S) (P : A → Prop) `{!∀ x, Decision (P x)} (l : list A) s :
  (∀ s x, x ∈ l → ¬ P x → f s x = s) → foldl f s (filter P l) = foldl f s l.
Proof.
  revert s. induction l as [|x l IH]; intros s Hf; [done |].
  rewrite filter_cons. case_decide as Hx; simpl.
  - apply IH. intros s' y Hy. apply Hf. by right.
  - rewrite (Hf s x) by (done || by left). apply IH. intros s' y Hy. apply Hf. by right.
Qed.

(** ** Lists with keys *)

Lemma NoDup_map_inj {A B} (f : A → B) l x y : NoDup (map f l) → x ∈ l → y ∈ l → f x = f y → x = y.
Proof.
  induction l as [|z l IH]; [by intros _ ?%not_elem_of_nil |].
  simpl. rewrite NoDup_cons, !elem_of_cons. intros [Hz Hnd] [->|Hx] [->|Hy] E; [done | | | by apply IH].
  - exfalso. apply Hz. rewrite E. by apply list_elem_of_fmap_2.
  - exfalso. apply Hz. rewrite <- E. by apply list_elem_of_fmap_2.
Qed.

Lemma map_filter_ext {A B} (f : A → B) (p : A → bool) (q : B → Prop) `{!∀ b, Decision (q b)} l :
  (∀ x, x ∈ l → p x = false ↔ q (f x)) → map f (filter (λ x, p x = false) l) = filter q (map f l).
Proof.
  induction l as [|x l IH]; intros Hl; [done |]. simpl. rewrite !filter_cons.
  pose proof (Hl x (list_elem_of_here _ _)). rewrite <- IH by (intros; apply Hl; by right).
  repeat case_decide; tauto || done.
Qed.

Lemma NoDup_map_filter {A B} (f : A → B) (P : A → Prop) `{!∀ x, Decision (P x)} l :
  NoDup (map f l) → NoDup (map f (filter P l)).
Proof.
  intros Hl. eapply sublist_NoDup; [exact Hl |]. apply (fmap_sublist f). apply sublist_filter.
Qed.

Lemma Forall_filter {A} (Q P : A → Prop) `{!∀ x, Decision (P x)} l : Forall Q l → Forall Q (filter P l).
Proof. rewrite !Forall_forall. intros Hl x [_ Hin]%list_elem_of_filter. by apply Hl. Qed.

(** ** Maps of slices

    Go's [m[k] = append(m[k], x)]: a missing key reads as the empty slice. *)

Section Buckets.
  Context {K} `{Countable K} {A : Type}.
  Implicit Types (m : gmap K (list A)) (k : K) (x : A).

Definition bucket m k : list A := default [] (m !! k).
Definition push k x m : gmap K (list A) := <[k := bucket m k ++ [x]]> m.

Lemma bucket_empty k : bucket ∅ k = [].
Proof. unfold bucket. by rewrite lookup_empty. Qed.

Lemma bucket_push m k x k' :
  bucket (push k x m) k' = bucket m k' ++ (if decide (k = k') then [x] else []).
Proof.
  unfold push, bucket. case_decide as E.
  - subst. by rewrite lookup_insert_eq.
  - by rewrite lookup_insert_ne, app_nil_r.
Qed.

(** An index built by one pass holds, in each bucket, what the elements give it,
    in their order. *)
Lemma bucket_fold {B} (step : gmap K (list A) → B → gmap K (list A)) (f : K → B → list A) (l : list B) m k :
  (∀ m b, bucket (step m b) k = bucket m k ++ f k b) →
  bucket (foldl step m l) k = bucket m k ++ (l ≫= f k).
Proof.
  intros Hs. revert m. induction l as [|b l IH]; intros m; simpl; [by rewrite app_nil_r |].
  by rewrite IH, Hs, app_assoc.
Qed.

End Buckets.
