(* ===== verification/GoStrings.v ===== *)
(** * The Go [strings] package, as far as ragota uses it

    A Go string is a sequence of bytes; it is modelled by [string], whose
    characters are the bytes.  White space and letter case are the ASCII ones:
    the white space and the cased letters outside ASCII that [strings.TrimSpace],
    [strings.ToLower] and [strings.EqualFold] also know are not distinguished,
    which is the vocabulary of the identifiers, paths and keys ragota builds. *)

From S2P Require Import Prelude.
From stdpp Require Import pretty.
From Stdlib Require Import Strings.Ascii.

(** ** Bytes *)

Definition byte_in (lo hi c : ascii) : bool :=
  (nat_of_ascii lo <=? nat_of_ascii c) && (nat_of_ascii c <=? nat_of_ascii hi).

Definition is_lower_byte (c : ascii) : bool := byte_in "a" "z" c.
Definition is_upper_byte (c : ascii) : bool := byte_in "A" "Z" c.
Definition is_digit_byte (c : ascii) : bool := byte_in "0" "9" c.

Definition space_byte (c : ascii) : bool :=
  (Ascii.eqb c " ") || byte_in "009" "013" c.

Definition lower_byte (c : ascii) : ascii :=
  if is_upper_byte c then ascii_of_nat (nat_of_ascii c + 32) else c.
Definition upper_byte (c : ascii) : ascii :=
  if is_lower_byte c then ascii_of_nat (nat_of_ascii c - 32) else c.

(** [byte_cases c] proves a decidable fact about one byte by going through all
    256 of them. *)
Ltac byte_cases c :=
  destruct c as [[] [] [] [] [] [] [] []]; vm_compute;
  try reflexivity; try congruence; try (intros; congruence).

(** ** Operations *)

Fixpoint str_map (f : ascii → ascii) (s : string) : string :=
  match s with
  | "" => ""
  | String c r => String (f c) (str_map f r)
  end.

Fixpoint str_forallb (f : ascii → bool) (s : string) : bool :=
  match s with
  | "" => true
  | String c r => f c && str_forallb f r
  end.

(** [strings.ContainsRune]/[ContainsAny]: some byte of [s] satisfies [f]. *)
Definition ContainsFunc (f : ascii → bool) (s : string) : bool :=
  negb (str_forallb (λ c, negb (f c)) s).
Definition ContainsByte (c : ascii) : string → bool := ContainsFunc (Ascii.eqb c).
Definition ContainsAny (chars : string) : string → bool :=
  ContainsFunc (λ c, ContainsByte c chars).

Definition ToLower : string → string := str_map lower_byte.
Definition ToUpper : string → string := str_map upper_byte.
Definition EqualFold (a b : string) : bool := String.eqb (ToLower a) (ToLower b).

Definition HasPrefix (s p : string) : bool := String.prefix p s.

(** [strings.CutPrefix]: the rest of [s] after [p], [None] when not found. *)
Fixpoint CutPrefix (s p : string) : option string :=
  match p, s with
  | "", _ => Some s
  | String c p', String d s' => if Ascii.eqb c d then CutPrefix s' p' else None
  | String _ _, "" => None
  end.
Definition TrimPrefix (s p : string) : string := default s (CutPrefix s p).

Fixpoint HasSuffix (s p : string) : bool :=
  String.eqb s p || match s with "" => false | String _ r => HasSuffix r p end.
Fixpoint TrimSuffix (s p : string) : string :=
  if String.eqb s p then ""
  else match s with "" => "" | String c r => String c (TrimSuffix r p) end.

(** [strings.Contains] *)
Fixpoint Contains (s sub : string) : bool :=
  String.prefix sub s || match s with "" => false | String _ r => Contains r sub end.

Fixpoint TrimLeftFunc (f : ascii → bool) (s : string) : string :=
  match s with
  | "" => ""
  | String c r => if f c then TrimLeftFunc f r else s
  end.
Fixpoint TrimRightFunc (f : ascii → bool) (s : string) : string :=
  match s with
  | "" => ""
  | String c r =>
      match TrimRightFunc f r with
      | "" => if f c then "" else String c ""
      | r' => String c r'
      end
  end.
Definition TrimFunc (f : ascii → bool) (s : string) : string :=
  TrimRightFunc f (TrimLeftFunc f s).
Definition TrimSpace : string → string := TrimFunc space_byte.
Definition TrimLeft (s cutset : string) : string :=
  TrimLeftFunc (λ c, ContainsByte c cutset) s.
Definition TrimRight (s cutset : string) : string :=
  TrimRightFunc (λ c, ContainsByte c cutset) s.
Definition Trim (s cutset : string) : string :=
  TrimFunc (λ c, ContainsByte c cutset) s.

(** [Cut f s] is [s] around its first byte satisfying [f]: what precedes it and,
    when there is one, what follows it ([strings.IndexAny], [strings.SplitN 2]). *)
Fixpoint Cut (f : ascii → bool) (s : string) : string * option string :=
  match s with
  | "" => ("", None)
  | String c r =>
      if f c then ("", Some r)
      else let '(a, b) := Cut f r in (String c a, b)
  end.

(** [CutLast f s] is [s] around its last byte satisfying [f]
    ([strings.LastIndex]), [None] when there is none. *)
Fixpoint CutLast (f : ascii → bool) (s : string) : option (string * string) :=
  match s with
  | "" => None
  | String c r =>
      match CutLast f r with
      | Some (a, b) => Some (String c a, b)
      | None => if f c then Some ("", r) else None
      end
  end.

(** [strings.Split] on a one-byte separator: never the empty list. *)
Fixpoint Split (f : ascii → bool) (s : string) : list string :=
  match s with
  | "" => [""]
  | String c r =>
      if f c then "" :: Split f r
      else match Split f r with
           | [] => [String c ""]
           | w :: ws => String c w :: ws
           end
  end.
Definition SplitByte (s : string) (c : ascii) : list string := Split (Ascii.eqb c) s.

Definition Join (l : list string) (sep : string) : string := String.concat sep l.

(** [strings.FieldsFunc]: the maximal runs of bytes not satisfying [f]. *)
Definition FieldsFunc (f : ascii → bool) (s : string) : list string :=
  filter (λ w, w ≠ "") (Split f s).
Definition Fields : string → list string := FieldsFunc space_byte.

(** [strings.ReplaceAll s c ""] for a one-byte [c]. *)
Fixpoint RemoveByte (c : ascii) (s : string) : string :=
  match s with
  | "" => ""
  | String d r => if Ascii.eqb c d then RemoveByte c r else String d (RemoveByte c r)
  end.

(** [strings.Cut] at a text: what comes before its first occurrence, and after. *)
Fixpoint CutStr (s sub : string) : option (string * string) :=
  match CutPrefix s sub with
  | Some rest => Some ("", rest)
  | None =>
      match s with
      | "" => None
      | String c r => match CutStr r sub with Some (a, b) => Some (String c a, b) | None => None end
      end
  end.

(** [strings.ReplaceAll] of a text that is not empty: [skip] bytes of an occurrence
    are still to be passed over. *)
Fixpoint replace_all (old new : string) (skip : nat) (s : string) : string :=
  match s with
  | "" => ""
  | String c r =>
      match skip with
      | S skip => replace_all old new skip r
      | O => if HasPrefix s old then new +:+ replace_all old new (pred (String.length old)) r
             else String c (replace_all old new O r)
      end
  end.
Definition ReplaceAll (s old new : string) : string := replace_all old new O s.

(** [strings.Count] of a byte *)
Fixpoint CountByte (c : ascii) (s : string) : nat :=
  match s with "" => 0 | String d r => (if Ascii.eqb c d then 1 else 0) + CountByte c r end.

(** [strconv.Itoa] *)
Definition Itoa (z : Z) : string := pretty.pretty z.

(** ** Concatenation *)

Lemma str_app_nil_r s : s +:+ "" = s.
Proof. induction s; simpl; congruence. Qed.

Lemma str_app_assoc a b c : (a +:+ b) +:+ c = a +:+ (b +:+ c).
Proof. induction a; simpl; congruence. Qed.

(** Concatenations in normal form: nested to the right, with no empty end. *)
Create Rewrite HintDb str.
#[export] Hint Rewrite str_app_nil_r str_app_assoc : str.

Lemma str_app_eq_nil a b : a +:+ b = "" → a = "" ∧ b = "".
Proof. destruct a; simpl; [auto | discriminate]. Qed.

Lemma str_length_app a b : String.length (a +:+ b) = String.length a + String.length b.
Proof. induction a; simpl; congruence. Qed.

(** ** Pointwise maps and tests *)

Lemma str_forallb_app f a b :
  str_forallb f (a +:+ b) = str_forallb f a && str_forallb f b.
Proof. induction a; simpl; [done |]. by rewrite IHa, andb_assoc. Qed.

Lemma str_forallb_impl (f g : ascii → bool) s :
  (∀ c, f c = true → g c = true) → str_forallb f s = true → str_forallb g s = true.
Proof.
  intros H. induction s; simpl; [done |].
  rewrite !andb_true_iff. intros [??]; auto.
Qed.

Lemma str_forallb_ext (f g : ascii → bool) s :
  (∀ c, f c = g c) → str_forallb f s = str_forallb g s.
Proof. intros H. induction s; simpl; [done |]. by rewrite H, IHs. Qed.

Lemma ContainsFunc_app f a b :
  ContainsFunc f (a +:+ b) = ContainsFunc f a || ContainsFunc f b.
Proof. unfold ContainsFunc. by rewrite str_forallb_app, negb_andb. Qed.

Lemma ContainsFunc_cons f c s : ContainsFunc f (String c s) = f c || ContainsFunc f s.
Proof. unfold ContainsFunc. simpl. by rewrite negb_andb, negb_involutive. Qed.

Lemma ContainsFunc_false f s :
  ContainsFunc f s = false ↔ str_forallb (λ c, negb (f c)) s = true.
Proof. unfold ContainsFunc. by rewrite negb_false_iff. Qed.

Lemma ContainsFunc_impl (f g : ascii → bool) s :
  (∀ c, f c = true → g c = true) → ContainsFunc g s = false → ContainsFunc f s = false.
Proof.
  rewrite !ContainsFunc_false. intros H. apply str_forallb_impl. intros c.
  specialize (H c). destruct (f c), (g c); naive_solver.
Qed.

Lemma str_map_app f a b : str_map f (a +:+ b) = str_map f a +:+ str_map f b.
Proof. induction a; simpl; congruence. Qed.

Lemma str_map_map f g s : str_map f (str_map g s) = str_map (λ c, f (g c)) s.
Proof. induction s; simpl; congruence. Qed.

Lemma str_map_ext_in (f g : ascii → ascii) (P : ascii → bool) s :
  str_forallb P s = true → (∀ c, P c = true → f c = g c) → str_map f s = str_map g s.
Proof. intros HP H. induction s; simpl in *; [done |]. bool_prop. f_equal; auto. Qed.

Lemma str_map_ext (f g : ascii → ascii) s : (∀ c, f c = g c) → str_map f s = str_map g s.
Proof. intros H. induction s; simpl; congruence. Qed.

Lemma str_map_id (f : ascii → ascii) (P : ascii → bool) s :
  str_forallb P s = true → (∀ c, P c = true → f c = c) → str_map f s = s.
Proof. intros HP H. induction s; simpl in *; [done |]. bool_prop. f_equal; auto. Qed.

Lemma str_forallb_map p f s : str_forallb p (str_map f s) = str_forallb (λ c, p (f c)) s.
Proof. induction s; simpl; congruence. Qed.

Lemma lower_byte_idemp c : lower_byte (lower_byte c) = lower_byte c.
Proof. byte_cases c. Qed.
Lemma upper_byte_idemp c : upper_byte (upper_byte c) = upper_byte c.
Proof. byte_cases c. Qed.
Lemma lower_upper_byte c : lower_byte (upper_byte c) = lower_byte c.
Proof. byte_cases c. Qed.
Lemma upper_byte_space c : space_byte (upper_byte c) = space_byte c.
Proof. byte_cases c. Qed.

Lemma ToLower_idemp s : ToLower (ToLower s) = ToLower s.
Proof. unfold ToLower. rewrite str_map_map. apply str_map_ext, lower_byte_idemp. Qed.
Lemma ToUpper_idemp s : ToUpper (ToUpper s) = ToUpper s.
Proof. unfold ToUpper. rewrite str_map_map. apply str_map_ext, upper_byte_idemp. Qed.
Lemma ToLower_ToUpper s : ToLower (ToUpper s) = ToLower s.
Proof. unfold ToLower, ToUpper. rewrite str_map_map. apply str_map_ext, lower_upper_byte. Qed.

Lemma EqualFold_sym a b : EqualFold a b = EqualFold b a.
Proof. apply String.eqb_sym. Qed.
Lemma EqualFold_refl a : EqualFold a a = true.
Proof. apply String.eqb_refl. Qed.

(** ** Prefixes and suffixes *)

Lemma HasPrefix_app p s : HasPrefix (p +:+ s) p = true.
Proof.
  unfold HasPrefix. induction p as [|c p IH]; [by destruct s |].
  simpl. destruct (ascii_dec c c); [exact IH | done].
Qed.

Lemma HasPrefix_byte c d s : HasPrefix (String c s) (String d "") = Ascii.eqb d c.
Proof.
  unfold HasPrefix. cbn [String.prefix]. destruct (ascii_dec d c) as [->|H].
  - rewrite Ascii.eqb_refl. by destruct s.
  - symmetry. by apply Ascii.eqb_neq.
Qed.

Lemma HasPrefix_inv s p : HasPrefix s p = true → ∃ r, s = p +:+ r.
Proof.
  unfold HasPrefix. revert s. induction p as [|c p IH]; intros s H; [by exists s |].
  destruct s as [|d s]; [done |]. simpl in H.
  destruct (ascii_dec c d) as [->|]; [|done].
  destruct (IH _ H) as [r ->]. by exists r.
Qed.

Lemma CutPrefix_app p s : CutPrefix (p +:+ s) p = Some s.
Proof. induction p; simpl; [by destruct s |]. by rewrite Ascii.eqb_refl. Qed.

Lemma CutPrefix_Some s p r : CutPrefix s p = Some r → s = p +:+ r.
Proof.
  revert s. induction p as [|c p IH]; intros s H.
  - destruct s; naive_solver.
  - destruct s as [|d s]; [done |]. simpl in H.
    destruct (Ascii.eqb_spec c d); [|done]. subst. simpl. f_equal. auto.
Qed.

Lemma TrimPrefix_app p s : TrimPrefix (p +:+ s) p = s.
Proof. unfold TrimPrefix. by rewrite CutPrefix_app. Qed.

Lemma str_app_not_self c a p : String c a +:+ p ≠ p.
Proof.
  intros H. apply (f_equal String.length) in H.
  rewrite str_length_app in H. simpl in H. lia.
Qed.

Lemma HasSuffix_self p : HasSuffix p p = true.
Proof. destruct p; cbn [HasSuffix]; by rewrite String.eqb_refl. Qed.

Lemma TrimSuffix_self p : TrimSuffix p p = "".
Proof. destruct p; cbn [TrimSuffix]; by rewrite String.eqb_refl. Qed.

Lemma HasSuffix_app a p : HasSuffix (a +:+ p) p = true.
Proof.
  induction a; simpl; [apply HasSuffix_self |].
  rewrite IHa. apply orb_true_r.
Qed.

Lemma HasSuffix_inv s p : HasSuffix s p = true → ∃ a, s = a +:+ p.
Proof.
  induction s as [|c s IH]; cbn [HasSuffix]; rewrite orb_true_iff; intros [H|H];
    bool_prop; [by exists "" | done | by exists "" |].
  - destruct (IH H) as [a ->]. by exists (String c a).
Qed.

Lemma TrimSuffix_app a p : TrimSuffix (a +:+ p) p = a.
Proof.
  induction a as [|c a IH]; [apply TrimSuffix_self |].
  change (String c a +:+ p) with (String c (a +:+ p)). cbn [TrimSuffix].
  destruct (String.eqb_spec (String c (a +:+ p)) p) as [E|]; [|by rewrite IH].
  by apply (str_app_not_self c a p) in E.
Qed.

Lemma Contains_spec s sub : Contains s sub = true ↔ ∃ a b, s = a +:+ sub +:+ b.
Proof.
  split.
  - induction s as [|c s IH]; cbn [Contains]; rewrite orb_true_iff;
      intros [H|H]; try done; try (by apply HasPrefix_inv in H as [b ->]; exists "", b).
    destruct (IH H) as (a & b & ->). by exists (String c a), b.
  - intros (a & b & ->). induction a as [|c a IH]; cbn [String.append Contains].
    + pose proof (HasPrefix_app sub b) as H. unfold HasPrefix in H.
      destruct (sub +:+ b); cbn [Contains]; by rewrite H.
    + rewrite IH. apply orb_true_r.
Qed.

(** ** Cutting at a text *)

Lemma CutStr_Some s sub a b : CutStr s sub = Some (a, b) → s = a +:+ sub +:+ b.
Proof.
  revert a b. induction s as [|c s IH]; intros a b; cbn [CutStr].
  - destruct (CutPrefix "" sub) eqn:E; [|done]. intros [= <- <-]. by apply CutPrefix_Some in E.
  - destruct (CutPrefix _ sub) eqn:E; [intros [= <- <-]; by apply CutPrefix_Some in E |].
    destruct (CutStr s sub) as [[a' b']|]; [|done]. intros [= <- <-]. simpl. f_equal. by apply IH.
Qed.
Lemma CutStr_None s sub : CutStr s sub = None ↔ Contains s sub = false.
Proof.
  assert (∀ s, CutPrefix s sub = None ↔ String.prefix sub s = false) as Hp.
  { intros t. split; intros H.
    - destruct (String.prefix sub t) eqn:E; [|done]. apply HasPrefix_inv in E as [r ->]. by rewrite CutPrefix_app in H.
    - destruct (CutPrefix t sub) eqn:E; [|done]. apply CutPrefix_Some in E as ->. pose proof (HasPrefix_app sub s0) as E. unfold HasPrefix in E. congruence. }
  induction s as [|c s IH]; cbn [CutStr Contains]; rewrite orb_false_iff, <- Hp.
  - destruct (CutPrefix "" sub); split; [done | by intros [] | done | done].
  - destruct (CutPrefix _ sub); [split; [done | by intros []] |]. rewrite <- IH.
    destruct (CutStr s sub) as [[]|]; split; try done; by intros [].
Qed.
(** An occurrence is the first one when its first byte is not before it. *)
Lemma CutStr_app a c sub b : ContainsByte c a = false → CutStr (a +:+ String c sub +:+ b) (String c sub) = Some (a, b).
Proof.
  induction a as [|d a IH]; intros H.
  - cbn [String.append CutStr CutPrefix]. by rewrite Ascii.eqb_refl, CutPrefix_app.
  - unfold ContainsByte in H. rewrite ContainsFunc_cons in H. apply orb_false_iff in H as [Hd H]. cbn [String.append CutStr CutPrefix] in *. rewrite Hd. by rewrite IH.
Qed.

(** ** Cutting at a byte *)

Section Cutting.
  Context (f : ascii → bool).
  Implicit Types s a b : string.

  Abbreviation none s := (str_forallb (λ c, negb (f c)) s = true).

Lemma Cut_none s : none s → Cut f s = (s, None).
Proof.
  induction s as [|c s IH]; simpl; [done |]. intros H. bool_prop.
  by rewrite H, IH.
Qed.

Lemma Cut_app a c b : none a → f c = true → Cut f (a +:+ String c b) = (a, Some b).
Proof.
  intros Ha Hc. induction a as [|d a IH]; simpl in *; [by rewrite Hc |].
  bool_prop. by rewrite H, IH.
Qed.

Lemma Cut_inv s a o :
  Cut f s = (a, o) →
  none a ∧ match o with
           | None => s = a
           | Some b => ∃ c, f c = true ∧ s = a +:+ String c b
           end.
Proof.
  revert a o. induction s as [|c s IH]; intros a o H; simpl in *; [by simplify_eq |].
  destruct (f c) eqn:Ec; [simplify_eq; eauto |].
  destruct (Cut f s) as [a' o'] eqn:E. simplify_eq. simpl. rewrite Ec.
  destruct (IH a' o eq_refl) as [Ha Ho]. split; [done |].
  destruct o; [destruct Ho as (d & ? & ->); eauto | by subst].
Qed.

Lemma CutLast_none s : none s → CutLast f s = None.
Proof.
  induction s as [|c s IH]; simpl; [done |]. intros H. bool_prop.
  by rewrite IH, H.
Qed.

Lemma CutLast_app a c b : f c = true → none b → CutLast f (a +:+ String c b) = Some (a, b).
Proof.
  intros Hc Hb. induction a as [|d a IH]; simpl.
  - by rewrite (CutLast_none b Hb), Hc.
  - by rewrite IH.
Qed.

Lemma CutLast_inv s a b :
  CutLast f s = Some (a, b) → none b ∧ ∃ c, f c = true ∧ s = a +:+ String c b.
Proof.
  revert a. induction s as [|c s IH]; intros a H; simpl in *; [done |].
  destruct (CutLast f s) as [[a' b']|] eqn:E.
  - simplify_eq. destruct (IH a' eq_refl) as (? & d & ? & ->). eauto.
  - destruct (f c) eqn:Ec; [|done]. simplify_eq. split; [|by exists c].
    clear IH. revert E. induction b as [|d b IH]; simpl; [done |].
    destruct (CutLast f b) as [[]|] eqn:E'; [done |].
    destruct (f d); [done |]. intros _. by apply IH.
Qed.

Lemma Split_not_nil s : Split f s ≠ [].
Proof. destruct s; simpl; [done |]. destruct (f a); [done |]. by destruct (Split f s). Qed.

Lemma Split_none s : none s → Split f s = [s].
Proof.
  induction s as [|c s IH]; simpl; [done |]. intros H. bool_prop.
  by rewrite H, IH.
Qed.

Lemma Split_app a c b : none a → f c = true → Split f (a +:+ String c b) = a :: Split f b.
Proof.
  intros Ha Hc. induction a as [|d a IH]; simpl in *; [by rewrite Hc |].
  bool_prop. by rewrite H, IH.
Qed.

(** No piece of a split holds a separator. *)
Lemma Split_pieces s : Forall (λ w, none w) (Split f s).
Proof.
  induction s as [|c s IH]; simpl; [by repeat constructor |].
  destruct (f c) eqn:E; [by constructor |].
  destruct (Split f s) as [|w ws]; [repeat constructor; simpl; by rewrite E |].
  apply Forall_cons in IH as [??]. constructor; [simpl; by rewrite E | done].
Qed.

End Cutting.

Section SplitJoin.
  Context (c : ascii).

Lemma Join_cons w ws sep :
  Join (w :: ws) sep = match ws with [] => w | _ => w +:+ sep +:+ Join ws sep end.
Proof. by destruct ws. Qed.

Lemma Join_Split s : Join (Split (Ascii.eqb c) s) (String c "") = s.
Proof.
  induction s as [|d s IH]; simpl; [done |].
  destruct (Ascii.eqb_spec c d) as [->|].
  - rewrite Join_cons. pose proof (Split_not_nil (Ascii.eqb d) s).
    destruct (Split _ s); [done |]. simpl in *. by f_equal.
  - pose proof (Split_not_nil (Ascii.eqb c) s).
    destruct (Split _ s) as [|w ws]; [done |].
    rewrite Join_cons in *. destruct ws; simpl in *; by f_equal.
Qed.

Lemma Split_Join ws :
  ws ≠ [] → Forall (λ w, ContainsByte c w = false) ws →
  Split (Ascii.eqb c) (Join ws (String c "")) = ws.
Proof.
  intros Hn H. induction ws as [|w ws IH]; [done |]. clear Hn.
  apply Forall_cons in H as [Hw H]. apply ContainsFunc_false in Hw.
  destruct ws as [|w' ws]; [by apply Split_none |].
  rewrite Join_cons. change (String c "" +:+ ?x) with (String c x).
  rewrite Split_app; [|done|apply Ascii.eqb_refl]. f_equal. by apply IH.
Qed.

Lemma SplitByte_pieces s : Forall (λ w, ContainsByte c w = false) (SplitByte s c).
Proof.
  eapply Forall_impl; [apply Split_pieces |].
  intros w Hw. by apply ContainsFunc_false.
Qed.

End SplitJoin.

(** ** Trimming *)

Section Trimming.
  Context (f : ascii → bool).

Lemma TrimLeftFunc_app a s :
  str_forallb f a = true → TrimLeftFunc f (a +:+ s) = TrimLeftFunc f s.
Proof. induction a; simpl; [done |]. intros H. bool_prop. rewrite H. auto. Qed.

Lemma TrimLeftFunc_cons c s : f c = false → TrimLeftFunc f (String c s) = String c s.
Proof. intros H. simpl. by rewrite H. Qed.

Lemma TrimRightFunc_all s : str_forallb f s = true → TrimRightFunc f s = "".
Proof. induction s; simpl; [done |]. intros H. bool_prop. by rewrite IHs, H. Qed.

Lemma TrimRightFunc_last s c : f c = false → TrimRightFunc f (s +:+ String c "") = s +:+ String c "".
Proof.
  intros H. induction s as [|d s IH]; simpl; [by rewrite H |].
  rewrite IH. by destruct s.
Qed.

Lemma TrimRightFunc_app s a :
  str_forallb f a = true → TrimRightFunc f (s +:+ a) = TrimRightFunc f s.
Proof. intros H. induction s; simpl; [by apply TrimRightFunc_all |]. by rewrite IHs. Qed.

(** A trimmed string neither starts nor ends with a trimmed byte. *)
Lemma TrimLeftFunc_head s c r : TrimLeftFunc f s = String c r → f c = false.
Proof. induction s as [|d s IH]; simpl; [done |]. destruct (f d) eqn:E; naive_solver. Qed.

Lemma TrimRightFunc_cons c r :
  TrimRightFunc f (String c r) =
  match TrimRightFunc f r with
  | "" => if f c then "" else String c ""
  | r' => String c r'
  end.
Proof. done. Qed.

Lemma TrimRightFunc_idemp s : TrimRightFunc f (TrimRightFunc f s) = TrimRightFunc f s.
Proof.
  induction s as [|c s IH]; [done |]. rewrite TrimRightFunc_cons.
  destruct (TrimRightFunc f s) as [|d r] eqn:E.
  - destruct (f c) eqn:Ec; simpl; [done | by rewrite Ec].
  - by rewrite TrimRightFunc_cons, IH.
Qed.

Lemma TrimRightFunc_head s c r : TrimRightFunc f s = String c r → ∃ r', s = String c r'.
Proof.
  destruct s as [|d s]; simpl; [done |].
  destruct (TrimRightFunc f s); [destruct (f d) |]; intros H; simplify_eq; eauto.
Qed.

Lemma TrimLeftFunc_id s :
  (∀ c r, s = String c r → f c = false) → TrimLeftFunc f s = s.
Proof. destruct s as [|c s]; [done |]. intros H. simpl. by rewrite (H c s eq_refl). Qed.

Lemma TrimFunc_idemp s : TrimFunc f (TrimFunc f s) = TrimFunc f s.
Proof.
  unfold TrimFunc. rewrite (TrimLeftFunc_id (TrimRightFunc f _)).
  - apply TrimRightFunc_idemp.
  - intros c r H. apply TrimRightFunc_head in H as [r' H]. by eapply TrimLeftFunc_head.
Qed.

(** Trimming keeps a property that all the bytes of a string have. *)
Lemma TrimLeftFunc_forallb p s :
  str_forallb p s = true → str_forallb p (TrimLeftFunc f s) = true.
Proof. induction s; simpl; [done |]. intros H. bool_prop. destruct (f a); simpl; [auto |]. by rewrite H. Qed.

Lemma TrimRightFunc_forallb p s :
  str_forallb p s = true → str_forallb p (TrimRightFunc f s) = true.
Proof.
  induction s as [|c s IH]; simpl; [done |]. intros H. bool_prop.
  specialize (IH H0). destruct (TrimRightFunc f s); [destruct (f c) |]; simpl in *;
    by rewrite ?H.
Qed.

Lemma TrimFunc_forallb p s :
  str_forallb p s = true → str_forallb p (TrimFunc f s) = true.
Proof. intros H. by apply TrimRightFunc_forallb, TrimLeftFunc_forallb. Qed.

(** A string with no byte to trim is left alone. *)
Lemma TrimFunc_none s : str_forallb (λ c, negb (f c)) s = true → TrimFunc f s = s.
Proof.
  intros H. unfold TrimFunc. rewrite TrimLeftFunc_id.
  - induction s as [|c s IH]; simpl in *; [done |]. bool_prop. rewrite IH by done.
    destruct s; [by rewrite H | done].
  - intros c r ->. simpl in H. by bool_prop.
Qed.

(** What surrounds a string and is trimmed anyway does not count. *)
Lemma TrimFunc_around a s b :
  str_forallb f a = true → str_forallb f b = true →
  TrimFunc f (a +:+ s +:+ b) = TrimFunc f s.
Proof.
  intros Ha Hb. unfold TrimFunc. rewrite TrimLeftFunc_app by done.
  induction s as [|c s IH]; simpl.
  - by rewrite <- (str_app_nil_r b), TrimLeftFunc_app.
  - destruct (f c); [done |]. change (String c (s +:+ b)) with (String c s +:+ b).
    by rewrite TrimRightFunc_app.
Qed.

Lemma TrimRightFunc_suffix a b :
  TrimRightFunc f b = b → b ≠ "" → TrimRightFunc f (a +:+ b) = a +:+ b.
Proof.
  intros Hb Hn. induction a as [|c a IH]; simpl; [done |]. rewrite IH.
  destruct (a +:+ b) eqn:E; [|done]. by apply str_app_eq_nil in E as [_ ->].
Qed.

(** The last piece of a right-trimmed string is not empty. *)
Lemma TrimRightFunc_Split_last s :
  TrimRightFunc f s = s → last (Split f s) = Some "" → s = "".
Proof.
  induction s as [|c r IH]; [done |]. rewrite TrimRightFunc_cons. simpl.
  pose proof (Split_not_nil f r) as Hn. destruct (f c) eqn:Ec.
  - destruct (Split f r) as [|w ws] eqn:Es; [done |]. rewrite last_cons_cons.
    destruct (TrimRightFunc f r) eqn:Et; [done |]. intros [= Hr] Hl.
    rewrite Hr in Et. assert (r = "") by (apply IH; congruence || done). congruence.
  - destruct (Split f r) as [|w ws] eqn:Es; [done |].
    destruct ws as [|w' ws]; [done |]. rewrite !last_cons_cons in *.
    destruct (TrimRightFunc f r) eqn:Et; intros [= Hr] Hl.
    + by subst.
    + rewrite Hr in *. assert (r = "") by (apply IH; congruence || done). congruence.
Qed.

End Trimming.

Lemma TrimFunc_ext f g s : (∀ c, f c = g c) → TrimFunc f s = TrimFunc g s.
Proof.
  intros H. unfold TrimFunc.
  assert (∀ s, TrimRightFunc f s = TrimRightFunc g s) as ->.
  { intros t. induction t as [|c t IH]; simpl; [done |]. by rewrite IH, H. }
  f_equal. induction s as [|c s IH]; simpl; [done |]. by rewrite IH, H.
Qed.

Lemma ContainsByte_single c d : ContainsByte d (String c "") = Ascii.eqb c d.
Proof. unfold ContainsByte. rewrite ContainsFunc_cons, orb_false_r. apply Ascii.eqb_sym. Qed.

(** [strings.Trim s "/"] and the like leave a join of pieces alone when the
    first and the last piece are not empty. *)
Lemma Trim_byte c s : Trim s (String c "") = TrimFunc (Ascii.eqb c) s.
Proof. apply TrimFunc_ext. intros d. apply ContainsByte_single. Qed.

Lemma Trim_Join c ws :
  Forall (λ w, ContainsByte c w = false) ws →
  head ws ≠ Some "" → last ws ≠ Some "" →
  Trim (Join ws (String c "")) (String c "") = Join ws (String c "").
Proof.
  intros Hc Hh Hl. rewrite Trim_byte. unfold TrimFunc. rewrite TrimLeftFunc_id.
  - clear Hh. induction ws as [|w ws IH]; [done |].
    apply Forall_cons in Hc as [Hw Hc]. rewrite Join_cons.
    destruct ws as [|w' ws].
    + apply ContainsFunc_false in Hw.
      pose proof (TrimFunc_none (Ascii.eqb c) w Hw) as E. unfold TrimFunc in E.
      rewrite TrimLeftFunc_id in E; [done |].
      intros d r ->. simpl in Hw. by bool_prop.
    + rewrite last_cons_cons in Hl. specialize (IH Hc Hl).
      rewrite <- str_app_assoc. apply TrimRightFunc_suffix; [done |].
      destruct ws; [by rewrite Join_cons; intros -> |].
      rewrite Join_cons. intros [_ E]%str_app_eq_nil. done.
  - intros d r E. destruct ws as [|w ws]; [done |].
    apply Forall_cons in Hc as [Hw _]. apply ContainsFunc_false in Hw.
    destruct w as [|e w]; [done |]. rewrite Join_cons in E.
    simpl in Hw. bool_prop. destruct ws; simpl in E; by simplify_eq.
Qed.

(** The pieces of a string that [Trim] leaves alone: the ends are not empty. *)
Lemma Trim_Split_ends c s :
  Trim s (String c "") = s → s ≠ "" →
  head (SplitByte s c) ≠ Some "" ∧ last (SplitByte s c) ≠ Some "".
Proof.
  rewrite Trim_byte. unfold SplitByte, TrimFunc. intros H Hn. split.
  - destruct s as [|d s]; [done |]. simpl in *.
    destruct (Ascii.eqb c d) eqn:E; [|by destruct (Split _ s)].
    exfalso. destruct (TrimRightFunc_head _ _ _ _ H) as [r Hr].
    apply TrimLeftFunc_head in Hr. congruence.
  - intros Hl. apply Hn. apply (TrimRightFunc_Split_last (Ascii.eqb c)); [|done].
    rewrite <- H at 2. rewrite <- H at 1. apply TrimRightFunc_idemp.
Qed.
