(* ===== verification/GoStrconv.v ===== *)
(** * The Go [strconv] and [unicode/utf8] functions ragota uses

    Decimal integers ([strconv.Itoa] is in [GoStrings]) and the count of the
    runes of a string, which are the units SQL counts characters in. *)

From S2P Require Import Prelude GoStrings.
From stdpp Require Import pretty.
From Stdlib Require Import Strings.Ascii.

Local Open Scope Z_scope.

(** ** [strconv.ParseInt s 10 64] *)

Definition digit_value (c : ascii) : Z := Z.of_nat (nat_of_ascii c) - 48.

(** The value of a run of digits read after [acc], [None] on anything else. *)
Fixpoint read_digits (acc : Z) (s : string) : option Z :=
  match s with
  | "" => Some acc
  | String c r => if is_digit_byte c then read_digits (10 * acc + digit_value c) r else None
  end.

Definition in_int64 (z : Z) : bool := (- 2 ^ 63 <=? z) && (z <? 2 ^ 63).

(** Sums of 64-bit integers wrap around. *)
Definition wrap_int64 (z : Z) : Z := (z + 2 ^ 63) mod 2 ^ 64 - 2 ^ 63.

Lemma wrap_int64_id z : in_int64 z = true → wrap_int64 z = z.
Proof.
  unfold in_int64, wrap_int64. intros [H1%Z.leb_le H2%Z.ltb_lt]%andb_true_iff.
  rewrite Z.mod_small by lia. lia.
Qed.

Lemma wrap_int64_range z : in_int64 (wrap_int64 z) = true.
Proof.
  unfold in_int64, wrap_int64. pose proof (Z.mod_pos_bound (z + 2 ^ 63) (2 ^ 64) ltac:(lia)).
  apply andb_true_iff. rewrite Z.leb_le, Z.ltb_lt. lia.
Qed.

(** The error of a malformed or out-of-range number is [None]. *)
Definition ParseInt64 (s : string) : option Z :=
  let '(neg, digits) :=
    match s with
    | String c r =>
        if Ascii.eqb c "+" then (false, r)
        else if Ascii.eqb c "-" then (true, r)
        else (false, s)
    | "" => (false, s)
    end in
  match digits with
  | "" => None
  | _ =>
      match read_digits 0 digits with
      | Some n => let z := if neg : bool then - n else n in if in_int64 z then Some z else None
      | None => None
      end
  end.

(** ** Printing and parsing back *)

Lemma read_digits_app a b acc :
  read_digits acc (a +:+ b) = read_digits acc a ≫= λ n, read_digits n b.
Proof. revert acc. induction a as [|c a IH]; intros acc; [done |]. simpl. by case_if. Qed.

Lemma read_digit (x : N) acc :
  (x < 10)%N → read_digits acc (String (pretty_N_char x) "") = Some (10 * acc + Z.of_N x).
Proof.
  intros Hx. assert (∃ n, x = N.of_nat n ∧ (n < 10)%nat) as (n & -> & Hn)
    by (exists (N.to_nat x); lia).
  do 10 (destruct n as [|n]; [cbn; f_equal; lia |]). lia.
Qed.

Lemma str_app_cons_assoc c (s : string) : String c s = String c "" +:+ s.
Proof. done. Qed.

Lemma read_digits_pretty (x : N) s acc :
  ∃ k : nat, read_digits acc (pretty_N_go x s) = read_digits (acc * 10 ^ Z.of_nat k + Z.of_N x) s.
Proof.
  revert s acc. induction (N.lt_wf_0 x) as [x _ IH]. intros s acc.
  destruct (decide (0 < x)%N) as [Hx|Hx].
  - rewrite pretty_N_go_step by done.
    destruct (IH (x `div` 10)%N ltac:(apply N.div_lt; lia)
                 (String (pretty_N_char (x `mod` 10)) s) acc) as [k Hk].
    exists (S k). rewrite Hk, str_app_cons_assoc, read_digits_app, read_digit
      by (apply N.mod_lt; lia). simpl. f_equal.
    rewrite Nat2Z.inj_succ, Z.pow_succ_r by lia.
    pose proof (N.div_mod x 10 ltac:(lia)) as E. rewrite E at 3.
    rewrite N2Z.inj_add, N2Z.inj_mul. lia.
  - exists 0%nat. rewrite pretty_N_go_0 || (assert (x = 0%N) as -> by lia; rewrite pretty_N_go_0).
    f_equal. lia.
Qed.

Lemma read_digits_pos (p : positive) : read_digits 0 (pretty (N.pos p)) = Some (Z.pos p).
Proof.
  unfold pretty, pretty_N. rewrite decide_False by done.
  by destruct (read_digits_pretty (N.pos p) "" 0) as [k ->].
Qed.

Lemma ParseInt64_digits s n :
  read_digits 0 s = Some n → s ≠ "" → in_int64 n = true → ParseInt64 s = Some n.
Proof.
  destruct s as [|c r]; intros H Hs Hn; [done |]. unfold ParseInt64.
  assert (is_digit_byte c = true) as Hc by (simpl in H; by case_match).
  destruct (Ascii.eqb_spec c "+"%char) as [->|_]; [done |].
  destruct (Ascii.eqb_spec c "-"%char) as [->|_]; [done |].
  cbv beta iota zeta. by rewrite H, Hn.
Qed.

(** A number printed by [strconv.Itoa] reads back, whatever its sign. *)
Lemma ParseInt64_Itoa z : in_int64 z = true → ParseInt64 (Itoa z) = Some z.
Proof.
  destruct z as [|p|p]; intros Hz; [done | |].
  - pose proof (read_digits_pos p) as H. apply ParseInt64_digits; [done | | done].
    intros E. change (pretty (N.pos p) = "") in E. rewrite E in H. done.
  - pose proof (read_digits_pos p) as H. unfold Itoa.
    change (pretty (Z.neg p)) with (String "-" (pretty (N.pos p))). unfold ParseInt64.
    destruct (pretty (N.pos p)) as [|c r] eqn:E; [done |].
    change (Ascii.eqb "-" "+") with false. change (Ascii.eqb "-" "-") with true.
    cbv beta iota zeta. rewrite H.
    change (- Z.pos p) with (Z.neg p). by rewrite Hz.
Qed.

(** ** [utf8.RuneCountInString] *)



(** How many bytes after the first one belong to the rune a byte opens, and the
    range its second byte is in; an invalid byte is a rune of its own. *)
Definition rune_tail (c : ascii) : nat * (ascii * ascii) :=
  let n := nat_of_ascii c in
  (if n <? 194 then (O, ("128"%char, "191"%char))
  else if n <? 224 then (1, ("128"%char, "191"%char))
  else if n =? 224 then (2, ("160"%char, "191"%char))
  else if n =? 237 then (2, ("128"%char, "159"%char))
  else if n <? 240 then (2, ("128"%char, "191"%char))
  else if n =? 240 then (3, ("144"%char, "191"%char))
  else if n <? 244 then (3, ("128"%char, "191"%char))
  else if n =? 244 then (3, ("128"%char, "143"%char))
  else (O, ("128"%char, "191"%char)))%nat.

(** Are the next [k] bytes of [s] the tail of a rune whose second byte is in
    the given range? *)
Fixpoint tail_ok (k : nat) (range : ascii * ascii) (s : string) : bool :=
  match k, s with
  | O, _ => true
  | S k', String c r => byte_in (fst range) (snd range) c && tail_ok k' ("128"%char, "191"%char) r
  | S _, "" => false
  end.

(** [skip] counts the bytes left of the rune being read. *)
Fixpoint rune_count (skip : nat) (s : string) : nat :=
  match s with
  | "" => O
  | String c r =>
      match skip with
      | S k => rune_count k r
      | O =>
          let '(k, range) := rune_tail c in
          S (rune_count (if tail_ok k range r then k else O) r)
      end
  end.
Definition RuneCountInString : string → nat := rune_count O.

(** [strings.ReplaceAll s c t] for a one-byte [c]. *)
Fixpoint ReplaceByte (c : ascii) (t s : string) : string :=
  match s with
  | "" => ""
  | String d r => (if Ascii.eqb c d then t else String d "") +:+ ReplaceByte c t r
  end.

Example RuneCountInString_runes :
  RuneCountInString "order" = 5%nat ∧ RuneCountInString "日本é" = 3%nat.
Proof. done. Qed.
