(* ===== verification/GoSort.v ===== *)
(** * Go comparators and [sort.Slice]

    A comparator is a boolean [less] function.  The comparators of ragota compare
    one key after another ("[if a.k != b.k { return a.k < b.k }]"), which
    [then_by] and [then_by_desc] write down; the class [SwoOn] states that a
    comparator is a strict weak order on the values it meets, which is what
    [sort.Slice] asks of it.

    [SliceSort] is the insertion sort.  It is what [sort.Slice] runs on short
    slices, it is stable as [sort.SliceStable] is, and [SliceSort_canonical]
    shows that a comparator that separates the elements leaves no choice: every
    sorted rearrangement of the elements is the one [SliceSort] returns. *)

From S2P Require Import Prelude.
From Stdlib Require Import Sorting.Sorted Sorting.Permutation.

(** ** Strict weak orders *)

Class SwoOn {A} (P : A → Prop) (less : A → A → bool) : Prop := {
  swo_irrefl x : P x → less x x = false;
  swo_trans x y z : P x → P y → P z → less x y = true → less y z = true → less x z = true;
  swo_cotrans x y z : P x → P y → P z → less x z = true → less x y = true ∨ less y z = true;
}.

Lemma swo_asym {A} (P : A → Prop) less `{!SwoOn P less} x y :
  P x → P y → less x y = true → less y x = false.
Proof.
  intros Px Py H. destruct (less y x) eqn:E; [|done].
  pose proof (swo_trans x y x Px Py Px H E) as Hxx. by rewrite swo_irrefl in Hxx.
Qed.

(** A comparator of one key, as [ORDER BY] of one column is. *)
Definition order_by {A K} (less : K → K → bool) (key : A → K) (a b : A) : bool := less (key a) (key b).

#[export] Instance order_by_swo {A K} (less : K → K → bool) (key : A → K) :
  SwoOn (λ _, True) less → SwoOn (λ _, True) (order_by less key).
Proof.
  intros [H1 H2 H3]. unfold order_by. split; [intros x _; by apply H1 | |].
  - intros x y z _ _ _. by apply H2.
  - intros x y z _ _ _. by apply H3.
Qed.

(** A key type: equality and order tests that agree on the keys in [P]. *)
Class KeyOps (K : Type) := { key_eqb : K → K → bool; key_ltb : K → K → bool }.
Class LawfulKey {K} (ops : KeyOps K) (P : K → Prop) : Prop := {
  lawful_swo :: SwoOn P key_ltb;
  lawful_eqb x y : P x → P y → key_eqb x y = negb (key_ltb x y) && negb (key_ltb y x);
}.

Section KeyLaws.
  Context {K} {ops : KeyOps K} {P : K → Prop} `{!LawfulKey ops P}.
  Implicit Types x y z : K.

Lemma key_irrefl x : P x → key_ltb x x = false.
Proof. apply (swo_irrefl (less:=key_ltb)). Qed.

Lemma key_eqb_refl x : P x → key_eqb x x = true.
Proof. intros Px. by rewrite lawful_eqb, key_irrefl. Qed.

Lemma key_eqb_sym x y : P x → P y → key_eqb x y = key_eqb y x.
Proof. intros Px Py. by rewrite !lawful_eqb, andb_comm. Qed.

(** Two keys of one class of ties compare alike with any third. *)
Lemma key_eqb_ltb_l x y z :
  P x → P y → P z → key_eqb x y = true → key_ltb x z = key_ltb y z.
Proof.
  intros Px Py Pz H. rewrite lawful_eqb in H by done. bool_prop.
  destruct (key_ltb x z) eqn:E1, (key_ltb y z) eqn:E2; try done.
  - destruct (swo_cotrans x y z Px Py Pz E1); congruence.
  - destruct (swo_cotrans y x z Py Px Pz E2); congruence.
Qed.

Lemma key_eqb_ltb_r x y z :
  P x → P y → P z → key_eqb x y = true → key_ltb z x = key_ltb z y.
Proof.
  intros Px Py Pz H. rewrite lawful_eqb in H by done. bool_prop.
  destruct (key_ltb z x) eqn:E1, (key_ltb z y) eqn:E2; try done.
  - destruct (swo_cotrans z y x Pz Py Px E1); congruence.
  - destruct (swo_cotrans z x y Pz Px Py E2); congruence.
Qed.

Lemma key_eqb_trans_l x y z :
  P x → P y → P z → key_eqb x y = true → key_eqb x z = key_eqb y z.
Proof.
  intros Px Py Pz H.
  by rewrite !lawful_eqb, (key_eqb_ltb_l x y z), (key_eqb_ltb_r x y z).
Qed.

Lemma key_ltb_neqb x y : P x → P y → key_ltb x y = true → key_eqb x y = false.
Proof. intros Px Py H. by rewrite lawful_eqb, H. Qed.

Lemma key_total x y :
  P x → P y → key_eqb x y = false → key_ltb x y = true ∨ key_ltb y x = true.
Proof.
  intros Px Py. rewrite lawful_eqb by done.
  destruct (key_ltb x y), (key_ltb y x); auto.
Qed.

End KeyLaws.

(** ** Comparators *)

Section Comparators.
  Context {A K : Type} `{ops : KeyOps K} (key : A → K) (rest : A → A → bool).

(** [if a.k != b.k { return a.k < b.k }; rest] *)
Definition then_by (a b : A) : bool :=
  if negb (key_eqb (key a) (key b)) then key_ltb (key a) (key b) else rest a b.

(** [if a.k != b.k { return a.k > b.k }; rest] *)
Definition then_by_desc (a b : A) : bool :=
  if negb (key_eqb (key a) (key b)) then key_ltb (key b) (key a) else rest a b.

End Comparators.

(** The end of a comparator: what is left is a tie. *)
Definition tie {A} (a b : A) : bool := false.

Lemma tie_swo {A} (P : A → Prop) : SwoOn P tie.
Proof. by constructor. Qed.

Lemma then_by_swo {A K} `{ops : KeyOps K} (Q : K → Prop) `{!LawfulKey ops Q}
    (P : A → Prop) (key : A → K) rest :
  (∀ a, P a → Q (key a)) → SwoOn P rest → SwoOn P (then_by key rest).
Proof.
  intros HQ Hr. split; unfold then_by.
  - intros x Px. rewrite key_eqb_refl by auto. by apply swo_irrefl.
  - intros x y z Px Py Pz.
    pose proof (HQ x Px) as Qx; pose proof (HQ y Py) as Qy; pose proof (HQ z Pz) as Qz.
    destruct (key_eqb (key x) (key y)) eqn:Exy; simpl.
    + rewrite (key_eqb_trans_l (key x) (key y) (key z)), (key_eqb_ltb_l (key x) (key y) (key z)) by done.
      destruct (key_eqb (key y) (key z)); simpl; [by apply swo_trans | done].
    + destruct (key_eqb (key y) (key z)) eqn:Eyz; simpl; intros Hxy Hyz.
      * rewrite (key_eqb_sym (key x)), <- (key_eqb_trans_l (key y) (key z) (key x)),
          key_eqb_sym, Exy, <- (key_eqb_ltb_r (key y) (key z)) by done. done.
      * pose proof (swo_trans (key x) (key y) (key z) Qx Qy Qz Hxy Hyz) as Hxz.
        by rewrite key_ltb_neqb, Hxz.
  - intros x y z Px Py Pz.
    pose proof (HQ x Px) as Qx; pose proof (HQ y Py) as Qy; pose proof (HQ z Pz) as Qz.
    destruct (key_eqb (key x) (key z)) eqn:Exz; simpl; intros Hxz.
    + rewrite (key_eqb_sym (key y) (key z)), <- (key_eqb_trans_l (key x) (key z) (key y)),
        <- (key_eqb_ltb_r (key x) (key z) (key y)) by done.
      destruct (key_eqb (key x) (key y)) eqn:Exy; simpl;
        [by apply swo_cotrans | by apply key_total].
    + destruct (swo_cotrans (key x) (key y) (key z) Qx Qy Qz Hxz) as [H|H];
        [left | right]; by rewrite key_ltb_neqb, H.
Qed.

(** The order of the keys turned around. *)
Definition flip_ops {K} (ops : KeyOps K) : KeyOps K :=
  {| key_eqb := key_eqb; key_ltb x y := key_ltb y x |}.

Lemma flip_lawful {K} (ops : KeyOps K) (P : K → Prop) :
  LawfulKey ops P → LawfulKey (flip_ops ops) P.
Proof.
  intros H. split; [split |]; simpl.
  - intros x. apply swo_irrefl.
  - intros x y z Px Py Pz H1 H2. by eapply (swo_trans z y x).
  - intros x y z Px Py Pz H1. destruct (swo_cotrans z y x Pz Py Px H1); auto.
  - intros x y Px Py. by rewrite lawful_eqb, andb_comm.
Qed.

Lemma then_by_desc_swo {A K} `{ops : KeyOps K} (Q : K → Prop) `{!LawfulKey ops Q}
    (P : A → Prop) (key : A → K) rest :
  (∀ a, P a → Q (key a)) → SwoOn P rest → SwoOn P (then_by_desc key rest).
Proof.
  intros HQ Hr.
  pose proof (flip_lawful ops Q LawfulKey0) as Hf.
  exact (@then_by_swo A K (flip_ops ops) Q Hf P key rest HQ Hr).
Qed.

(** When a comparator ties two elements, so does each of its keys. *)
Lemma then_by_tie {A K} `{ops : KeyOps K} (Q : K → Prop) `{!LawfulKey ops Q}
    (key : A → K) rest a b :
  Q (key a) → Q (key b) →
  then_by key rest a b = false → then_by key rest b a = false →
  key_eqb (key a) (key b) = true ∧ rest a b = false ∧ rest b a = false.
Proof.
  intros Qa Qb. unfold then_by. rewrite (lawful_eqb (key b) (key a)), andb_comm by done.
  rewrite <- lawful_eqb by done.
  destruct (key_eqb (key a) (key b)) eqn:E; simpl; [done |].
  intros H1 H2. rewrite lawful_eqb, H1, H2 in E by done. done.
Qed.

Lemma then_by_desc_tie {A K} `{ops : KeyOps K} (Q : K → Prop) `{!LawfulKey ops Q}
    (key : A → K) rest a b :
  Q (key a) → Q (key b) →
  then_by_desc key rest a b = false → then_by_desc key rest b a = false →
  key_eqb (key a) (key b) = true ∧ rest a b = false ∧ rest b a = false.
Proof.
  intros Qa Qb.
  pose proof (flip_lawful ops Q LawfulKey0) as Hf.
  exact (@then_by_tie A K (flip_ops ops) Q Hf key rest a b Qa Qb).
Qed.

(** ** Sorting *)

Section SliceSort.
  Context {A : Type} (less : A → A → bool).

Fixpoint insert_by (x : A) (l : list A) : list A :=
  match l with
  | [] => [x]
  | y :: l' => if less y x then y :: insert_by x l' else x :: l
  end.

(** [sort.Slice(l, less)] and [sort.SliceStable(l, less)] *)
Fixpoint SliceSort (l : list A) : list A :=
  match l with
  | [] => []
  | x :: l' => insert_by x (SliceSort l')
  end.

(** In a sorted list no element is to come before one that precedes it. *)
Definition sorted_by : list A → Prop := StronglySorted (λ x y, less y x = false).

(** The comparator has no tie between two different elements of [l]. *)
Definition separates (l : list A) : Prop :=
  ∀ a b, a ∈ l → b ∈ l → less a b = false → less b a = false → a = b.

Lemma insert_by_perm x l : insert_by x l ≡ₚ x :: l.
Proof.
  induction l as [|y l IH]; simpl; [done |].
  destruct (less y x); [|done]. rewrite IH. apply Permutation_swap.
Qed.

Lemma SliceSort_perm l : SliceSort l ≡ₚ l.
Proof. induction l as [|x l IH]; simpl; [done |]. by rewrite insert_by_perm, IH. Qed.

Lemma SliceSort_elem x l : x ∈ SliceSort l ↔ x ∈ l.
Proof. by rewrite SliceSort_perm. Qed.

Lemma SliceSort_length l : length (SliceSort l) = length l.
Proof. apply Permutation_length, SliceSort_perm. Qed.

Lemma SliceSort_nil l : SliceSort l = [] ↔ l = [].
Proof.
  split; [|by intros ->]. intros H. pose proof (SliceSort_length l) as E.
  rewrite H in E. by destruct l.
Qed.

Lemma separates_perm l l' : l ≡ₚ l' → separates l → separates l'.
Proof. intros HP H a b Ha Hb. apply H; by rewrite HP. Qed.

Context (P : A → Prop) `{!SwoOn P less}.

Lemma insert_by_sorted x l :
  P x → Forall P l → sorted_by l → sorted_by (insert_by x l).
Proof.
  intros Px Pl Hs. induction Hs as [|y l Hs IH Hy]; simpl; [by repeat constructor |].
  apply Forall_cons in Pl as [Py Pl].
  destruct (less y x) eqn:E.
  - constructor; [by apply IH |].
    rewrite (insert_by_perm x l). constructor; [by apply (swo_asym P) | done].
  - constructor; [by constructor |]. constructor; [done |].
    rewrite Forall_forall in *. intros z Hz.
    destruct (less z x) eqn:Ezx; [|done].
    destruct (swo_cotrans z y x (Pl z Hz) Py Px Ezx) as [H|H]; [|congruence].
    by rewrite Hy in H.
Qed.

Lemma SliceSort_sorted l : Forall P l → sorted_by (SliceSort l).
Proof.
  intros Pl. induction l as [|x l IH]; simpl; [constructor |].
  apply Forall_cons in Pl as [??]. apply insert_by_sorted; auto.
  by rewrite SliceSort_perm.
Qed.

Lemma sorted_unique l1 l2 :
  separates l1 → l1 ≡ₚ l2 → sorted_by l1 → sorted_by l2 → l1 = l2.
Proof.
  intros Hsep HP H1. revert l2 HP. induction H1 as [|x l1 H1 IH Hx]; intros l2 HP H2.
  - by apply Permutation_nil_l in HP as ->.
  - destruct l2 as [|y l2]; [by apply Permutation_nil_r in HP |].
    inv H2. rewrite Forall_forall in *.
    assert (x = y) as ->.
    { assert (x ∈ y :: l2) as Hxin by (rewrite <- HP; by left).
      assert (y ∈ x :: l1) as Hyin by (rewrite HP; by left).
      apply elem_of_cons in Hxin as [->|Hxin]; [done |].
      apply elem_of_cons in Hyin as [->|Hyin]; [done |].
      apply Hsep; [by left | by right | by auto | by auto]. }
    f_equal. apply IH; [|by eapply Permutation_cons_inv | done].
    intros a b Ha Hb. apply Hsep; by right.
Qed.

(** Sorting forgets the order the elements came in. *)
Theorem SliceSort_canonical l l' :
  Forall P l → separates l → l ≡ₚ l' → sorted_by l' → l' = SliceSort l.
Proof.
  intros Pl Hsep HP Hs. symmetry. apply sorted_unique.
  - eapply separates_perm; [by symmetry; apply SliceSort_perm | done].
  - by rewrite SliceSort_perm.
  - by apply SliceSort_sorted.
  - done.
Qed.

Lemma SliceSort_perm_eq l l' :
  Forall P l → separates l → l ≡ₚ l' → SliceSort l' = SliceSort l.
Proof.
  intros Pl Hsep HP. apply SliceSort_canonical; [done | done | |].
  - by rewrite SliceSort_perm.
  - apply SliceSort_sorted. by rewrite <- HP.
Qed.

Lemma SliceSort_id l : sorted_by l → SliceSort l = l.
Proof.
  induction 1 as [|x l Hs IH Hx]; simpl; [done |]. rewrite IH.
  destruct l as [|y l]; simpl; [done |].
  apply Forall_cons in Hx as [-> _]. done.
Qed.

End SliceSort.

Lemma SliceSort_Forall {A} (Q : A → Prop) less l : Forall Q l → Forall Q (SliceSort less l).
Proof. by rewrite SliceSort_perm. Qed.

(** ** Key types *)

(** Go compares strings byte by byte. *)
#[export] Instance string_ops : KeyOps string :=
  {| key_eqb := String.eqb; key_ltb := String.ltb |}.

Lemma string_ltb_leb a b : String.ltb a b = negb (String.leb b a).
Proof.
  unfold String.ltb, String.leb. rewrite (String.compare_antisym b a).
  by destruct (String.compare a b).
Qed.

#[export] Instance string_lawful : LawfulKey string_ops (λ _, True).
Proof.
  assert (∀ a b : string, String.ltb a b = false ↔ String.le b a) as Hle.
  { intros a b. unfold String.le. rewrite string_ltb_leb, negb_false_iff.
    destruct (String.leb b a); done. }
  assert (∀ a b : string, String.ltb a b = true ↔ ¬ String.le b a) as Hlt.
  { intros a b. rewrite <- Hle. by destruct (String.ltb a b). }
  split; [split |]; simpl.
  - intros x _. apply Hle. done.
  - intros x y z _ _ _. rewrite !Hlt. intros Hxy Hyz Hzx.
    destruct (total String.le x y) as [H|H]; [|done]. apply Hyz. by trans x.
  - intros x y z _ _ _. rewrite !Hlt. intros Hxz.
    destruct (decide (String.le y x)) as [H|H]; [|by left].
    right. intros H'. apply Hxz. by trans y.
  - intros x y _ _. destruct (String.eqb_spec x y) as [->|Hne].
    + assert (String.ltb y y = false) as -> by by apply Hle. done.
    + symmetry. apply andb_false_iff. rewrite !negb_false_iff, !Hlt.
      destruct (decide (String.le y x)) as [H1|H1]; [|by left].
      right. intros H2. apply Hne. by apply (anti_symm String.le).
Qed.

#[export] Instance Z_ops : KeyOps Z := {| key_eqb := Z.eqb; key_ltb := Z.ltb |}.
#[export] Instance Z_lawful : LawfulKey Z_ops (λ _, True).
Proof.
  split; [split |]; simpl; intros.
  - apply Z.ltb_irrefl.
  - bool_prop. apply Z.ltb_lt. lia.
  - bool_prop. rewrite !Z.ltb_lt. lia.
  - destruct (Z.eqb_spec x y), (Z.ltb_spec x y), (Z.ltb_spec y x); simpl; lia || done.
Qed.

(** A boolean key, false first: [if a.f != b.f { return !a.f }]. *)
#[export] Instance bool_ops : KeyOps bool :=
  {| key_eqb := Bool.eqb; key_ltb x y := negb x && y |}.
#[export] Instance bool_lawful : LawfulKey bool_ops (λ _, True).
Proof.
  split; [split |]; simpl; repeat match goal with |- ∀ _ : bool, _ => intros [] end;
    try done; auto.
Qed.

#[export] Instance string_ltb_swo : SwoOn (λ _, True) String.ltb.
Proof. apply (lawful_swo (LawfulKey:=string_lawful)). Qed.

(** [sort.Strings] *)
Definition SortStrings : list string → list string := SliceSort String.ltb.

Lemma SortStrings_perm_eq l l' : l ≡ₚ l' → SortStrings l = SortStrings l'.
Proof.
  intros HP. apply (SliceSort_perm_eq _ (λ _, True)).
  - by apply Forall_true.
  - intros a b _ _ H1 H2. pose proof (lawful_eqb (ops:=string_ops) a b I I) as E.
    simpl in E. rewrite H1, H2 in E. by apply String.eqb_eq in E.
  - by symmetry.
Qed.
