(* ===== verification/GoFloat.v ===== *)
(** * Go [float32] and [float64]

    The IEEE 754 binary formats, computed with the Standard Library's
    specification of floating-point arithmetic ([SpecFloat]): a value is a
    [spec_float], the operations round to nearest even in the format they are
    named after. *)

From S2P Require Import Prelude GoSort.
From Corelib Require Export SpecFloat.

Abbreviation f32 := spec_float.
Abbreviation f64 := spec_float.

(** ** Operations *)

Definition f32_of_Z (z : Z) : f32 := binary_normalize 24 128 z 0 false.
Definition f64_of_Z (z : Z) : f64 := binary_normalize 53 1024 z 0 false.

Definition f32_add : f32 → f32 → f32 := SFadd 24 128.
Definition f32_sub : f32 → f32 → f32 := SFsub 24 128.
Definition f32_mul : f32 → f32 → f32 := SFmul 24 128.
Definition f32_div : f32 → f32 → f32 := SFdiv 24 128.
Definition f64_add : f64 → f64 → f64 := SFadd 53 1024.
Definition f64_sub : f64 → f64 → f64 := SFsub 53 1024.
Definition f64_mul : f64 → f64 → f64 := SFmul 53 1024.
Definition f64_div : f64 → f64 → f64 := SFdiv 53 1024.

(** A decimal literal [n / d] of the source: the nearest [float32]. *)
Definition f32_lit (n d : Z) : f32 := f32_div (f32_of_Z n) (f32_of_Z d).
Definition f64_lit (n d : Z) : f64 := f64_div (f64_of_Z n) (f64_of_Z d).

(** [float64(x)] and [float32(x)] *)
Definition f64_of_f32 (x : f32) : f64 :=
  match x with S754_finite s m e => binary_round 53 1024 s m e | _ => x end.
Definition f32_of_f64 (x : f64) : f32 :=
  match x with S754_finite s m e => binary_round 24 128 s m e | _ => x end.

(** Comparisons; all of them are false on a NaN. *)
Definition flt (x y : spec_float) : bool := SFltb x y.
Definition fle (x y : spec_float) : bool := SFleb x y.
Definition feq (x y : spec_float) : bool := SFeqb x y.

Definition not_nan (x : spec_float) : Prop := x ≠ S754_nan.

(** A finite number or an infinity, greater than zero. *)
Definition fpos (x : spec_float) : bool := flt (S754_zero false) x.

#[export] Instance spec_float_eq_dec : EqDecision spec_float.
Proof. solve_decision. Defined.

(** ** The order of the floats

    Away from NaN the comparison is the lexicographic one of class (infinite,
    negative, zero, positive), exponent and mantissa. *)

Definition fclass (x : spec_float) : Z :=
  match x with
  | S754_infinity true => -2
  | S754_finite true _ _ => -1
  | S754_finite false _ _ => 1
  | S754_infinity false => 2
  | _ => 0
  end.
Definition fexpo (x : spec_float) : Z :=
  match x with S754_finite s _ e => if s then - e else e | _ => 0 end.
Definition fmant (x : spec_float) : Z :=
  match x with S754_finite s m _ => if s then Z.neg m else Z.pos m | _ => 0 end.

Definition frank_less : spec_float → spec_float → bool :=
  then_by fclass (then_by fexpo (then_by fmant tie)).

Lemma frank_swo P : SwoOn P frank_less.
Proof.
  repeat (apply (then_by_swo (λ _, True)); [done |]). apply tie_swo.
Qed.

Lemma SFcompare_swap x y : SFcompare x y = option_map CompOpp (SFcompare y x).
Proof.
  destruct x as [[]|[]| |[] m1 e1], y as [[]|[]| |[] m2 e2]; try reflexivity;
    cbn [SFcompare option_map]; f_equal; rewrite (Z.compare_antisym e2 e1);
    destruct (Z.compare e2 e1); cbn [CompOpp]; try reflexivity;
    change (Pos.compare_cont Eq m1 m2) with (Pos.compare m1 m2);
    change (Pos.compare_cont Eq m2 m1) with (Pos.compare m2 m1);
    rewrite (Pos.compare_antisym m2 m1); by destruct (Pos.compare m2 m1).
Qed.

Lemma flt_rank x y : not_nan x → not_nan y → flt x y = frank_less x y.
Proof.
  unfold not_nan, flt, SFltb, frank_less, then_by, tie.
  destruct x as [[]|[]| |[] m1 e1], y as [[]|[]| |[] m2 e2]; intros Hx Hy; try done;
    cbn [SFcompare fclass fexpo fmant key_eqb key_ltb Z_ops];
    change (Pos.compare_cont Eq m1 m2) with (Pos.compare m1 m2);
    repeat match goal with
    | |- context [Z.eqb ?a ?b] => destruct (Z.eqb_spec a b)
    | |- context [Z.ltb ?a ?b] => destruct (Z.ltb_spec a b)
    | |- context [Z.compare ?a ?b] => destruct (Z.compare_spec a b)
    | |- context [Pos.compare ?a ?b] => destruct (Pos.compare_spec a b)
    end; simpl; try done; try lia.
Qed.

Lemma feq_flt x y : not_nan x → not_nan y → feq x y = negb (flt x y) && negb (flt y x).
Proof.
  intros Hx Hy. unfold feq, flt, SFeqb, SFltb. rewrite (SFcompare_swap y x).
  destruct (SFcompare x y) as [[]|] eqn:E; try done.
  destruct x as [[]|[]| |[] ??], y as [[]|[]| |[] ??]; done.
Qed.

#[export] Instance f32_ops : KeyOps spec_float := {| key_eqb := feq; key_ltb := flt |}.
#[export] Instance f32_lawful : LawfulKey f32_ops not_nan.
Proof.
  pose proof (frank_swo not_nan) as H. split; [split |]; simpl.
  - intros x Px. rewrite flt_rank by done. by apply (swo_irrefl (P:=not_nan)).
  - intros x y z Px Py Pz. rewrite !flt_rank by done.
    by apply (swo_trans (P:=not_nan)).
  - intros x y z Px Py Pz. rewrite !flt_rank by done.
    by apply (swo_cotrans (P:=not_nan)).
  - apply feq_flt.
Qed.

#[export] Instance flt_swo : SwoOn not_nan flt.
Proof. apply (lawful_swo (LawfulKey:=f32_lawful)). Qed.
