(* ===== verification/GoJson.v ===== *)
(** * The Go [encoding/json] decoder

    What [json.Unmarshal] reads: the whole input is checked first, so malformed
    text decodes to nothing; strings are unescaped, and what is not UTF-8 in them
    is replaced.  Only the nesting limit of the scanner (10000 levels) is left
    out. *)

From S2P Require Import Prelude GoStrings GoStrconv GoSort GoFloat.
From Stdlib Require Import Strings.Ascii.

Inductive json :=
  | JNull
  | JBool (b : bool)
  | JNumber (text : string)
  | JString (s : string)
  | JArray (items : list json)
  | JObject (members : list (string * json)).

(** ** Strings *)

Definition byte (n : N) : string := String (ascii_of_N n) "".

(** [utf8.AppendRune] of a code point that is not a surrogate. *)
Definition encode_rune (n : N) : string :=
  (if n <? 128 then byte n
   else if n <? 2048 then byte (192 + n / 64) +:+ byte (128 + n mod 64)
   else if n <? 65536 then
     byte (224 + n / 4096) +:+ byte (128 + n / 64 mod 64) +:+ byte (128 + n mod 64)
   else byte (240 + n / 262144) +:+ byte (128 + n / 4096 mod 64)
        +:+ byte (128 + n / 64 mod 64) +:+ byte (128 + n mod 64))%N.
Definition replacement_char : string := encode_rune 65533.

Definition hex_digit (c : ascii) : option N :=
  let n := N_of_ascii c in
  if byte_in "0" "9" c then Some (n - 48)%N
  else if byte_in "a" "f" c then Some (n - 87)%N
  else if byte_in "A" "F" c then Some (n - 55)%N
  else None.

Definition hex4 (a b c d : ascii) : option N :=
  match hex_digit a, hex_digit b, hex_digit c, hex_digit d with
  | Some a, Some b, Some c, Some d => Some (((a * 16 + b) * 16 + c) * 16 + d)%N
  | _, _, _, _ => None
  end.

(** The escapes of one letter. *)
Definition unescape (c : ascii) : option ascii :=
  if Ascii.eqb c "034" then Some "034"%char
  else if Ascii.eqb c "\" then Some "\"%char
  else if Ascii.eqb c "/" then Some "/"%char
  else if Ascii.eqb c "b" then Some "008"%char
  else if Ascii.eqb c "f" then Some "012"%char
  else if Ascii.eqb c "n" then Some "010"%char
  else if Ascii.eqb c "r" then Some "013"%char
  else if Ascii.eqb c "t" then Some "009"%char
  else None.

Definition high_surrogate (n : N) : bool := ((55296 <=? n) && (n <? 56320))%N.
Definition low_surrogate (n : N) : bool := ((56320 <=? n) && (n <? 57344))%N.
Definition join_surrogates (hi lo : N) : N := ((hi - 55296) * 1024 + (lo - 56320) + 65536)%N.

Definition prepend (p : string) (o : option (string * string)) : option (string * string) :=
  match o with Some (s, r) => Some (p +:+ s, r) | None => None end.

(** The rest of a string after its opening quote, and what follows its closing
    one; [skip] bytes are left of the rune being copied. *)
Fixpoint jstring (skip : nat) (s : string) : option (string * string) :=
  match s with
  | "" => None
  | String c r =>
      match skip with
      | S k => prepend (String c "") (jstring k r)
      | O =>
          if Ascii.eqb c "034" then Some ("", r)
          else if Ascii.eqb c "\" then
            match r with
            | "" => None
            | String e r1 =>
                if Ascii.eqb e "u" then
                  match r1 with
                  | String a (String b (String c1 (String d r2))) =>
                      match hex4 a b c1 d with
                      | None => None
                      | Some n =>
                          if high_surrogate n then
                            match r2 with
                            | String e1 (String e2 (String a' (String b' (String c' (String d' r3))))) =>
                                match hex4 a' b' c' d' with
                                | Some m =>
                                    if Ascii.eqb e1 "\" && Ascii.eqb e2 "u" && low_surrogate m
                                    then prepend (encode_rune (join_surrogates n m)) (jstring O r3)
                                    else prepend replacement_char (jstring O r2)
                                | None => prepend replacement_char (jstring O r2)
                                end
                            | _ => prepend replacement_char (jstring O r2)
                            end
                          else if low_surrogate n then prepend replacement_char (jstring O r2)
                          else prepend (encode_rune n) (jstring O r2)
                      end
                  | _ => None
                  end
                else match unescape e with
                     | Some x => prepend (String x "") (jstring O r1)
                     | None => None
                     end
            end
          else if nat_of_ascii c <? 32 then None
          else if nat_of_ascii c <? 128 then prepend (String c "") (jstring O r)
          else
            let '(k, range) := rune_tail c in
            if (0 <? k) && tail_ok k range r then prepend (String c "") (jstring k r)
            else prepend replacement_char (jstring O r)
      end
  end.

(** ** Numbers *)

Fixpoint span_digits (s : string) : string * string :=
  match s with
  | String c r => if is_digit_byte c then let '(d, r') := span_digits r in (String c d, r') else ("", s)
  | "" => ("", "")
  end.

(** [-]int[.frac][e[+-]exp], where int has no leading zero *)
Definition jnumber (s : string) : option (string * string) :=
  let '(sign, s1) :=
    match s with String c r => if Ascii.eqb c "-" then ("-", r) else ("", s) | "" => ("", s) end in
  let '(int, s2) :=
    match s1 with
    | String c r => if Ascii.eqb c "0" then ("0", r) else span_digits s1
    | "" => ("", s1)
    end in
  if String.eqb int "" then None else
  match (match s2 with
         | String c r => if Ascii.eqb c "." then
             let '(f, r') := span_digits r in
             if String.eqb f "" then None else Some ("." +:+ f, r')
           else Some ("", s2)
         | "" => Some ("", s2)
         end) with
  | None => None
  | Some (frac, s3) =>
      match (match s3 with
             | String c r => if Ascii.eqb c "e" || Ascii.eqb c "E" then
                 let '(sg, r') :=
                   match r with
                   | String d r' => if Ascii.eqb d "+" || Ascii.eqb d "-" then (String d "", r') else ("", r)
                   | "" => ("", r)
                   end in
                 let '(x, r'') := span_digits r' in
                 if String.eqb x "" then None else Some ("e" +:+ sg +:+ x, r'')
               else Some ("", s3)
             | "" => Some ("", s3)
             end) with
      | None => None
      | Some (exp, s4) => Some (sign +:+ int +:+ frac +:+ exp, s4)
      end
  end.

(** ** Values *)

Definition json_space (c : ascii) : bool :=
  Ascii.eqb c " " || Ascii.eqb c "009" || Ascii.eqb c "010" || Ascii.eqb c "013".
Definition skip_space : string → string := TrimLeftFunc json_space.

(** One value off the front of [s], one level of nesting or one element for
    each unit of fuel; the length of the text is enough of it. *)
Fixpoint jvalue (fuel : nat) (s : string) : option (json * string) :=
  match fuel with
  | O => None
  | S fuel =>
      match skip_space s with
      | "" => None
      | String c r =>
          if Ascii.eqb c "{" then
            match skip_space r with
            | String d r' =>
                if Ascii.eqb d "}" then Some (JObject [], r')
                else jmembers fuel r ≫= λ '(ms, r'), Some (JObject ms, r')
            | "" => None
            end
          else if Ascii.eqb c "[" then
            match skip_space r with
            | String d r' =>
                if Ascii.eqb d "]" then Some (JArray [], r')
                else jitems fuel r ≫= λ '(xs, r'), Some (JArray xs, r')
            | "" => None
            end
          else if Ascii.eqb c "034" then jstring O r ≫= λ '(t, r'), Some (JString t, r')
          else match CutPrefix (String c r) "null" with
          | Some r' => Some (JNull, r')
          | None =>
          match CutPrefix (String c r) "true" with
          | Some r' => Some (JBool true, r')
          | None =>
          match CutPrefix (String c r) "false" with
          | Some r' => Some (JBool false, r')
          | None => jnumber (String c r) ≫= λ '(t, r'), Some (JNumber t, r')
          end end end
      end
  end
with jitems (fuel : nat) (s : string) : option (list json * string) :=
  match fuel with
  | O => None
  | S fuel =>
      jvalue fuel s ≫= λ '(v, r),
      match skip_space r with
      | String c r' =>
          if Ascii.eqb c "," then jitems fuel r' ≫= λ '(vs, r''), Some (v :: vs, r'')
          else if Ascii.eqb c "]" then Some ([v], r')
          else None
      | "" => None
      end
  end
with jmembers (fuel : nat) (s : string) : option (list (string * json) * string) :=
  match fuel with
  | O => None
  | S fuel =>
      match skip_space s with
      | String q r =>
          if Ascii.eqb q "034" then
            jstring O r ≫= λ '(k, r1),
            match skip_space r1 with
            | String c r2 =>
                if Ascii.eqb c ":" then
                  jvalue fuel r2 ≫= λ '(v, r3),
                  match skip_space r3 with
                  | String d r4 =>
                      if Ascii.eqb d "," then jmembers fuel r4 ≫= λ '(ms, r5), Some ((k, v) :: ms, r5)
                      else if Ascii.eqb d "}" then Some ([(k, v)], r4)
                      else None
                  | "" => None
                  end
                else None
            | "" => None
            end
          else None
      | "" => None
      end
  end.

(** The value the whole text is, [None] when it is not JSON. *)
Definition jparse (s : string) : option json :=
  match jvalue (2 * String.length s + 2) s with
  | Some (v, r) => if String.eqb (skip_space r) "" then Some v else None
  | None => None
  end.

(** ** The fuel is enough

    What is read is shorter than what it was read from, so twice the length of
    the text bounds the calls that nest. *)

#[local] Abbreviation len := String.length.

Lemma skip_space_len s : len (skip_space s) ≤ len s.
Proof. unfold skip_space. induction s as [|c r IH]; simpl; [done |]. case_if; simpl; lia. Qed.

Lemma prepend_Some p o t r : prepend p o = Some (t, r) → ∃ t', o = Some (t', r).
Proof. destruct o as [[t' r']|]; intros [=]; subst; eauto. Qed.

Lemma jstring_len skip s t r : jstring skip s = Some (t, r) → len r < len s.
Proof.
  remember (len s) as n eqn:En. revert skip s t En.
  induction n as [n IH] using lt_wf_ind. intros skip s t -> H.
  assert (∀ k s' p, len s' < len s → prepend p (jstring k s') = Some (t, r) → len r < len s) as Hrec.
  { intros k s' p Hs' [t' H']%prepend_Some. pose proof (IH _ Hs' _ _ _ eq_refl H'). lia. }
  destruct s as [|c s]; [done |]. cbn [jstring] in H.
  repeat match type of H with
  | context [match ?x with _ => _ end] =>
      lazymatch type of x with option (string * string) => fail | _ => destruct x; try done end
  end; simplify_eq;
  first [eapply Hrec; [|exact H]; simpl; lia | simpl; lia | idtac].
Qed.

Lemma span_digits_len s : len (snd (span_digits s)) ≤ len s.
Proof.
  induction s as [|c r IH]; simpl; [done |].
  case_if; [|done]. destruct (span_digits r). simpl in *. lia.
Qed.

Lemma span_digits_nonempty s d r : span_digits s = (d, r) → d ≠ "" → len r < len s.
Proof.
  destruct s as [|c s]; simpl; [by intros [= <- <-] |].
  pose proof (span_digits_len s). destruct (is_digit_byte c); [|by intros [= <- <-]].
  destruct (span_digits s). intros [= <- <-]. simpl in *. lia.
Qed.

(** A tail of [jnumber]: what is left of [s] after digits that may be refused. *)
Ltac digits :=
  match goal with
  | |- context [span_digits ?s] =>
      let L := fresh in let E := fresh "E" in
      pose proof (span_digits_len s) as L; pose proof (span_digits_nonempty s) as E;
      destruct (span_digits s); specialize (E _ _ eq_refl); cbn [snd] in L
  end.

Lemma jnumber_len s t r : jnumber s = Some (t, r) → len r < len s.
Proof.
  unfold jnumber.
  set (a := match s with String c r => if Ascii.eqb c "-" then ("-", r) else ("", s) | "" => ("", s) end).
  assert (len (snd a) ≤ len s) as Ha by (subst a; destruct s as [|c s']; [done | case_if; simpl; lia]).
  destruct a as [sign s1]. cbn [snd] in Ha.
  set (b := match s1 with String c r => if Ascii.eqb c "0" then ("0", r) else span_digits s1 | "" => ("", s1) end).
  assert (fst b ≠ "" → len (snd b) < len s1) as Hb.
  { subst b. destruct s1 as [|c s1']; [done |]. case_if; [simpl; lia |].
    destruct (span_digits _) eqn:E'. intros. by eapply span_digits_nonempty. }
  destruct b as [int s2]. cbn [fst snd] in Hb.
  destruct (String.eqb_spec int "") as [|Hint]; [done |]. specialize (Hb Hint).
  destruct (match s2 with String c r => _ | "" => Some ("", s2) end) as [[frac s3]|] eqn:Ef; [|done].
  assert (len s3 ≤ len s2) as H3.
  { destruct s2 as [|c r2]; [by simplify_eq |]. revert Ef. case_if; [|by intros [= _ <-]].
    digits. case_if; intros [= _ <-]. simpl. lia. }
  destruct (match s3 with String c r => _ | "" => Some ("", s3) end) as [[exp s4]|] eqn:Ee; [|done].
  intros [= _ <-]. enough (len s4 ≤ len s3) by lia.
  destruct s3 as [|c r3]; [by simplify_eq |]. revert Ee. case_if; [|by intros [= _ <-]].
  destruct r3 as [|d r3]; [done | case_if]; digits; case_if; intros [= _ <-]; simpl in *; lia.
Qed.

Lemma CutPrefix_len s p r : CutPrefix s p = Some r → len r + len p = len s.
Proof. intros ->%CutPrefix_Some. rewrite str_length_app. lia. Qed.

(** What the readers leave of their text is shorter. *)
Definition consumes {A} (f : string → option (A * string)) : Prop := ∀ s x r, f s = Some (x, r) → len r < len s.

Lemma consumes_bind {A B} (f : string → option (A * string)) (k : A * string → option B) s y :
  consumes f → f s ≫= k = Some y → ∃ x r, f s = Some (x, r) ∧ len r < len s ∧ k (x, r) = Some y.
Proof. intros Hf ([x r] & H & Hk)%bind_Some. exists x, r. split_and!; [done | by eapply Hf | done]. Qed.

(** [read_next] opens what a reader does next: white space, a test, a value read. *)
Ltac read_next :=
  match goal with
  | H : context [match skip_space ?s with _ => _ end] |- _ =>
      let L := fresh "L" in pose proof (skip_space_len s) as L; destruct (skip_space s); cbn [len String.length] in L; [done |]
  | H : (if ?b then _ else _) = Some _ |- _ => destruct b; [| try done]
  | H : context [match CutPrefix ?s ?p with _ => _ end] |- _ =>
      let E := fresh "E" in destruct (CutPrefix s p) eqn:E;
      [apply CutPrefix_len in E; cbn [len String.length] in E |]
  | H : (?f _ ≫= _) = Some _, C : consumes ?f |- _ =>
      apply (consumes_bind _ _ _ _ C) in H as (? & ? & _ & ? & H); cbn [len String.length] in *
  | H : Some _ = Some _ |- _ => injection H as _ <-
  end.

Lemma jvalue_consumes fuel : consumes (jvalue fuel) ∧ consumes (jitems fuel) ∧ consumes (jmembers fuel).
Proof.
  pose proof jnumber_len as Hn. pose proof (jstring_len O) as Hs. fold (consumes jnumber) in Hn.
  fold (consumes (jstring O)) in Hs.
  induction fuel as [|fuel (IHv & IHi & IHm)]; [by split_and! |].
  split_and!; intros s x r H; cbn [jvalue jitems jmembers] in H; repeat read_next; lia.
Qed.

Lemma bind_ext {A B} (f f' : string → option (A * string)) (k k' : A * string → option B) s :
  consumes f → f s = f' s → (∀ x r, len r < len s → k (x, r) = k' (x, r)) → f s ≫= k = f' s ≫= k'.
Proof.
  intros Hf <- Hk. destruct (f s) as [[x r]|] eqn:E; [|done]. apply Hk. by eapply Hf.
Qed.

Ltac same_step :=
  match goal with
  | |- context [match skip_space ?s with _ => _ end] =>
      let L := fresh "L" in pose proof (skip_space_len s) as L; destruct (skip_space s); cbn [len String.length] in *; [done |]
  | |- (if ?b then _ else _) = _ => destruct b; [| try done]
  | C : consumes ?f |- ?f _ ≫= _ = _ =>
      apply bind_ext; [done | | intros ? ? ?; cbn [len String.length] in *]
  end.

(** Any fuel above twice the length of the text reads the same. *)
Lemma jvalue_fuel f f' s :
  (2 * len s < f → 2 * len s < f' → jvalue f s = jvalue f' s) ∧
  (2 * len s + 1 < f → 2 * len s + 1 < f' → jitems f s = jitems f' s) ∧
  (2 * len s + 1 < f → 2 * len s + 1 < f' → jmembers f s = jmembers f' s).
Proof.
  revert f' s. induction f as [|f IH]; intros f' s; [split_and!; lia |].
  destruct f' as [|f']; [split_and!; lia |].
  destruct (jvalue_consumes f) as (Cv & Ci & Cm). pose proof (jstring_len O) as Cs. fold (consumes (jstring O)) in Cs.
  split_and!; intros Hf Hf'; cbn [jvalue jitems jmembers]; repeat same_step; try done;
    apply (IH f'); lia.
Qed.

Theorem jparse_fuel f s : 2 * len s < f →
  jparse s = match jvalue f s with
             | Some (v, r) => if String.eqb (skip_space r) "" then Some v else None
             | None => None
             end.
Proof. intros Hf. unfold jparse. by rewrite (proj1 (jvalue_fuel _ f s)) by lia. Qed.

(** ** Decoding into Go values

    A [null] leaves a string or a number alone and empties a slice or a map; a
    value of another type than the field's is reported, and decoding goes on. The
    boolean says that nothing was reported. *)

Definition decode_string (old : string) (v : json) : string * bool :=
  match v with JString s => (s, true) | JNull => (old, true) | _ => (old, false) end.

(** Elements are decoded over those the slice held. *)
Fixpoint decode_strings (old : list string) (items : list json) : list string * bool :=
  match items with
  | [] => ([], true)
  | v :: vs =>
      let '(x, ok) := decode_string (default "" (head old)) v in
      let '(xs, ok') := decode_strings (tail old) vs in
      (x :: xs, ok && ok')
  end.

Definition decode_string_slice (old : list string) (v : json) : list string * bool :=
  match v with
  | JArray items => decode_strings old items
  | JNull => ([], true)
  | _ => (old, false)
  end.

Definition decode_string_map (old : gmap string string) (v : json) : gmap string string * bool :=
  match v with
  | JObject ms =>
      foldl (λ '(m, ok) '(k, v), let '(x, ok') := decode_string "" v in (<[k := x]> m, ok && ok'))
        (old, true) ms
  | JNull => (∅, true)
  | _ => (old, false)
  end.

(** [strconv.ParseFloat] of a JSON number, in the format of [prec] and [emax]: the
    nearest float; an infinity is out of range. *)
Definition float_of_text (prec emax : Z) (text : string) : spec_float :=
  let '(mant, exp) := Cut (λ c, Ascii.eqb c "e" || Ascii.eqb c "E") text in
  let '(int, frac) := Cut (Ascii.eqb ".") (TrimPrefix mant "-") in
  let digits := default 0%Z (read_digits 0 (int +:+ default "" frac)) in
  let x := default "0" exp in
  let e := (default (if HasPrefix x "-" then - 2 ^ 63 else 2 ^ 63) (ParseInt64 x) - Z.of_nat (String.length (default "" frac)))%Z in
  let neg := HasPrefix text "-" in
  if (digits =? 0)%Z then S754_zero neg
  else if (0 <=? e)%Z then
    binary_normalize prec emax (if neg then - (digits * 10 ^ e) else digits * 10 ^ e)%Z 0 neg
  else let '(m, e', l) := SFdiv_core_binary prec emax digits 0 (10 ^ (- e)) 0 in
       binary_round_aux prec emax neg m e' l.
Definition number_value : string → f32 := float_of_text 24 128.

Definition decode_float32 (old : f32) (v : json) : f32 * bool :=
  match v with
  | JNumber text =>
      match number_value text with S754_infinity _ => (old, false) | x => (x, true) end
  | JNull => (old, true)
  | _ => (old, false)
  end.

(** Members of an object in their order, each into the field its key names; keys
    match field names up to letter case.  [null] decodes to nothing, any other
    value that is not an object is reported. *)
Definition decode_struct {S} (field : string → option (S → json → S * bool)) (zero : S) (v : json) : S * bool :=
  match v with
  | JObject ms =>
      foldl (λ '(s, ok) '(k, v),
        match field (ToLower k) with
        | Some f => let '(s', ok') := f s v in (s', ok && ok')
        | None => (s, ok)
        end) (zero, true) ms
  | JNull => (zero, true)
  | _ => (zero, false)
  end.

(** [json.Unmarshal] into the zero value: malformed text decodes nothing. *)
Definition Unmarshal {S} (field : string → option (S → json → S * bool)) (zero : S) (text : string) : S * bool :=
  match jparse text with Some v => decode_struct field zero v | None => (zero, false) end.

Example number_values :
  number_value "0.95" = f32_lit 95 100 ∧ number_value "-12.5e-1" = f32_lit (-5) 4 ∧ number_value "1E2" = f32_of_Z 100.
Proof. vm_compute. done. Qed.
