(* ===== verification/GoJsonEncode.v ===== *)
(** * The Go [encoding/json] encoder, and the way back

    [json.Marshal] of a [map[string]any] that [json.Unmarshal] filled: numbers are
    [float64], written in the fewest digits that read back; members come in the
    order of their keys; text is escaped for HTML.  What is written for text, slices
    and structs is read back: the reader takes exactly the printed value off the
    front of any text, and finds the strings as they were — up to what is not UTF-8
    in them, which the encoder replaces. *)

From S2P Require Import Prelude GoStrings GoStrconv GoSort GoFloat GoJson.
From Stdlib Require Import Strings.Ascii.

(** ** Numbers *)

(** [strconv.FormatFloat x _ -1 64]: the decimal digits [d * 10^k] of a positive
    number [m * 2^e]. *)

(** The power of ten above [num / den], searched for upward from [p]. *)
Fixpoint power_above (fuel : nat) (p num den : Z) : Z :=
  match fuel with
  | O => p
  | S fuel =>
      if (if 0 <=? p then num <? den * 10 ^ p else num * 10 ^ (- p) <? den)%Z then p
      else power_above fuel (p + 1) num den
  end.

(** The float nearest to [d * 10^k]. *)
Definition decimal_float (prec emax d k : Z) : spec_float :=
  if (0 <=? k)%Z then binary_normalize prec emax (d * 10 ^ k) 0 false
  else let '(m, e, l) := SFdiv_core_binary prec emax d 0 (10 ^ (- k)) 0 in
       binary_round_aux prec emax false m e l.

Section Shortest.
  Context (prec emax : Z).

(** The [n]-digit decimal nearest to [num / den] that reads back as [x]. *)
Definition decimal_of_digits (x : spec_float) (num den p : Z) (n : Z) : option (Z * Z) :=
  let k := (p - n)%Z in
  let '(a, b) := (if 0 <=? k then (num, den * 10 ^ k) else (num * 10 ^ (- k), den))%Z in
  let lo := (a / b)%Z in
  let near := (if 2 * (a - lo * b) <=? b then lo else lo + 1)%Z in
  let far := (if near =? lo then lo + 1 else lo)%Z in
  if feq (decimal_float prec emax near k) x then Some (near, k)
  else if feq (decimal_float prec emax far k) x then Some (far, k)
  else None.

Fixpoint shortest_decimal (fuel : nat) (x : spec_float) (num den p n : Z) : Z * Z :=
  match fuel with
  | O => (num, 0)%Z
  | S fuel =>
      match decimal_of_digits x num den p n with
      | Some dk => dk
      | None => shortest_decimal fuel x num den p (n + 1)
      end
  end.
End Shortest.

(** Zeros at the end of the digits belong to the exponent. *)
Fixpoint drop_zeros (fuel : nat) (d k : Z) : Z * Z :=
  match fuel with
  | S fuel => if ((d mod 10 =? 0) && (0 <? d))%Z then drop_zeros fuel (d / 10) (k + 1) else (d, k)
  | O => (d, k)
  end.

Definition zeros (n : Z) : string := Nat.iter (Z.to_nat n) (String "0") "".

(** The format ['f'] for digits [ds] with the point after [p] of them. *)
Definition format_f (ds : string) (p : Z) : string :=
  let n := Z.of_nat (String.length ds) in
  if (p <=? 0)%Z then "0." +:+ zeros (- p) +:+ ds
  else if (n <=? p)%Z then ds +:+ zeros (p - n)
  else String.substring 0 (Z.to_nat p) ds +:+ "." +:+ String.substring (Z.to_nat p) (Z.to_nat (n - p)) ds.

(** The format ['e'], its exponent without a leading zero. *)
Definition format_e (ds : string) (p : Z) : string :=
  let '(d, r) := match ds with String c r => (String c "", r) | "" => ("", "") end in
  d +:+ (if String.eqb r "" then "" else "." +:+ r) +:+ "e" +:+
  (if (p - 1 <? 0)%Z then "-" else "+") +:+ Itoa (Z.abs (p - 1)).

(** [floatEncoder]; a number that is not finite is not encoded.  A float has at most
    [digits] decimal digits that matter. *)
Definition format_float (prec emax : Z) (digits : nat) (x small large : spec_float) : string :=
  match x with
  | S754_zero s => if s then "-0" else "0"
  | S754_finite s m e =>
      let '(num, den) := (if 0 <=? e then (Z.pos m * 2 ^ e, 1) else (Z.pos m, 2 ^ (- e)))%Z in
      let p := power_above 700 (-330) num den in
      let abs := S754_finite false m e in
      let '(d, k) := shortest_decimal prec emax digits abs num den p 1 in
      let '(d, k) := drop_zeros digits d k in
      let ds := Itoa d in
      let p := (Z.of_nat (String.length ds) + k)%Z in
      (if s then "-" else "") +:+
      (if flt abs small || fle large abs then format_e ds p else format_f ds p)
  | _ => ""
  end.
Definition format_number (x : f64) : string := format_float 53 1024 17 x (f64_lit 1 1000000) (f64_of_Z (10 ^ 21)).
Definition format_number32 (x : f32) : string := format_float 24 128 9 x (f32_lit 1 1000000) (f32_of_Z (10 ^ 21)).

Example numbers_printed :
  map (λ t, format_number (float_of_text 53 1024 t))
    ["0.95"; "0.80"; "12"; "1e3"; "1E21"; "0.000001"; "1.5e-7"; "-0.1"; "9007199254740993"; "1e23"; "5e-324"; "-0.0"]
  = ["0.95"; "0.8"; "12"; "1000"; "1e+21"; "0.000001"; "1.5e-7"; "-0.1"; "9007199254740992"; "1e+23"; "5e-324"; "-0"].
Proof. vm_compute. reflexivity. Qed.
Example numbers32_printed :
  map (λ t, format_number32 (float_of_text 24 128 t)) ["0.95"; "0.80"; "0.7"; "16777217"; "1e-7"; "3.4028235e38"]
  = ["0.95"; "0.8"; "0.7"; "16777216"; "1e-7"; "3.4028235e+38"].
Proof. vm_compute. reflexivity. Qed.

(** ** Text *)

Definition hex_char (n : nat) : ascii :=
  ascii_of_nat (if n <? 10 then 48 + n else 87 + n).

(** One byte below 128, as [appendString] writes it when it escapes HTML. *)
Definition escape_byte (c : ascii) : string :=
  let n := nat_of_ascii c in
  if Ascii.eqb c "034" then String "\" (String c "")
  else if Ascii.eqb c "\" then String "\" (String c "")
  else if n =? 8 then "\b" else if n =? 12 then "\f" else if n =? 10 then "\n"
  else if n =? 13 then "\r" else if n =? 9 then "\t"
  else if (n <? 32) || Ascii.eqb c "<" || Ascii.eqb c ">" || Ascii.eqb c "&"
  then "\u00" +:+ String (hex_char (n / 16)) (String (hex_char (n mod 16)) "")
  else String c "".

(** The line and paragraph separators U+2028 and U+2029. *)
Definition separator (s : string) : option string :=
  match s with
  | String a (String b (String c _)) =>
      if (nat_of_ascii a =? 226) && (nat_of_ascii b =? 128) then
        if nat_of_ascii c =? 168 then Some "\u2028"
        else if nat_of_ascii c =? 169 then Some "\u2029" else None
      else None
  | _ => None
  end.

(** [appendString] between the quotes; [skip] bytes are left of the rune being
    read, and [out] says whether they are copied. *)
Fixpoint escape (skip : nat) (out : bool) (s : string) : string :=
  match s with
  | "" => ""
  | String c r =>
      match skip with
      | S k => if out then String c (escape k out r) else escape k out r
      | O =>
          if nat_of_ascii c <? 128 then escape_byte c +:+ escape O true r
          else
            let '(k, range) := rune_tail c in
            if (0 <? k) && tail_ok k range r then
              match separator s with
              | Some t => t +:+ escape k false r
              | None => String c (escape k true r)
              end
            else "\ufffd" +:+ escape O true r
      end
  end.

Definition quote : string := String "034" "".
Definition encode_string (s : string) : string := quote +:+ escape O true s +:+ quote.

(** ** Values *)

(** A map read from an object holds the last member of each key. *)
Fixpoint last_wins {A} (ms : list (string * A)) : list (string * A) :=
  match ms with
  | [] => []
  | (k, v) :: ms =>
      let rest := last_wins ms in
      if existsb (λ kv, String.eqb k (fst kv)) rest then rest else (k, v) :: rest
  end.

Definition member_less {A} (a b : string * A) : bool := String.ltb (fst a) (fst b).
Definition map_members {A} (ms : list (string * A)) : list (string * A) :=
  SliceSort member_less (last_wins ms).

Definition encode_members (ms : list (string * string)) : string :=
  "{" +:+ Join (map (λ '(k, t), encode_string k +:+ ":" +:+ t) (map_members ms)) "," +:+ "}".

(** [json.Marshal] of what [json.Unmarshal] stores in an [any]. *)
Fixpoint encode (v : json) : string :=
  match v with
  | JNull => "null"
  | JBool b => if b then "true" else "false"
  | JNumber t => format_number (float_of_text 53 1024 t)
  | JString s => encode_string s
  | JArray vs => "[" +:+ Join (map encode vs) "," +:+ "]"
  | JObject ms => encode_members (map (λ kv, (fst kv, encode (snd kv))) ms)
  end.

(** Decoding into an [any] reports the numbers a [float64] cannot hold. *)
Definition number_fits (t : string) : bool :=
  match float_of_text 53 1024 t with S754_infinity _ => false | _ => true end.
Fixpoint fits (v : json) : bool :=
  match v with
  | JNumber t => number_fits t
  | JArray vs => forallb fits vs
  | JObject ms => forallb (λ kv, fits (snd kv)) ms
  | _ => true
  end.

(** What [json.Unmarshal] makes of an empty [map[string]any]: an error, the nil
    map of a [null], or the members of an object in the order of the text. *)
Inductive any_map := Malformed | NilMap | Members (ms : list (string * json)).

Definition UnmarshalMap (text : string) : any_map :=
  match jparse text with
  | Some (JObject ms) => if fits (JObject ms) then Members ms else Malformed
  | Some JNull => NilMap
  | _ => Malformed
  end.

(** [m[key].(string)], "" when there is none. *)
Definition member_string (key : string) (ms : list (string * json)) : string :=
  match List.find (λ kv, String.eqb key (fst kv)) (last_wins ms) with
  | Some (_, JString s) => s
  | _ => ""
  end.

Example encoded :
  encode (JObject [("b", JNumber "1.50"); ("a", JArray [JNull; JBool true]); ("b", JString "x<y")])
  = "{" +:+ quote +:+ "a" +:+ quote +:+ ":[null,true]," +:+ quote +:+ "b" +:+ quote +:+ ":" +:+ quote +:+ "x\u003cy" +:+ quote +:+ "}".
Proof. vm_compute. reflexivity. Qed.

(** ** Printing a value in the order of its members *)

(** [json.Marshal] of a value of structs and slices of text: [JObject] is a
    struct, its members the fields that are not left out, in their order. *)
Fixpoint print (v : json) : string :=
  match v with
  | JNull => "null"
  | JBool b => if b then "true" else "false"
  | JNumber t => t
  | JString s => encode_string s
  | JArray vs => "[" +:+ Join (map print vs) "," +:+ "]"
  | JObject ms => "{" +:+ Join (map (λ kv, encode_string (fst kv) +:+ ":" +:+ print (snd kv)) ms) "," +:+ "}"
  end.

(** Values whose numbers are JSON numbers. *)
Definition number_text (t : string) : bool :=
  match t with
  | String c _ => (is_digit_byte c || Ascii.eqb c "-") && bool_decide (jnumber t = Some (t, ""))
  | "" => false
  end.
Fixpoint plain (v : json) : bool :=
  match v with
  | JNumber t => number_text t
  | JArray vs => forallb plain vs
  | JObject ms => forallb (λ kv, plain (snd kv)) ms
  | _ => true
  end.

(** [strings.ToValidUTF8] with the replacement character for each bad byte. *)
Fixpoint to_valid (skip : nat) (s : string) : string :=
  match s with
  | "" => ""
  | String c r =>
      match skip with
      | S k => String c (to_valid k r)
      | O =>
          if nat_of_ascii c <? 128 then String c (to_valid O r)
          else
            let '(k, range) := rune_tail c in
            if (0 <? k) && tail_ok k range r then String c (to_valid k r)
            else replacement_char +:+ to_valid O r
      end
  end.

Fixpoint valid_json (v : json) : json :=
  match v with
  | JString s => JString (to_valid O s)
  | JArray vs => JArray (map valid_json vs)
  | JObject ms => JObject (map (λ kv, (to_valid O (fst kv), valid_json (snd kv))) ms)
  | _ => v
  end.

(** [utf8.ValidString] *)
Definition valid_utf8 (s : string) : bool := String.eqb (to_valid O s) s.

(** ** Strings *)

Lemma str_app_cons c a b : String c a +:+ b = String c (a +:+ b).
Proof. done. Qed.

Lemma prepend_app a b o : prepend a (prepend b o) = prepend (a +:+ b) o.
Proof. destruct o as [[s r]|]; [|done]. simpl. by rewrite str_app_assoc. Qed.

(** One escaped byte reads back. *)
Lemma jstring_escape_byte c rest :
  nat_of_ascii c <? 128 = true → jstring O (escape_byte c +:+ rest) = prepend (String c "") (jstring O rest).
Proof.
  destruct c as [b0 b1 b2 b3 b4 b5 b6 b7].
  destruct b7; [by destruct b0, b1, b2, b3, b4, b5, b6 |]. intros _.
  destruct b0, b1, b2, b3, b4, b5, b6; reflexivity.
Qed.

Lemma jstring_replacement rest :
  jstring O ("\ufffd" +:+ rest) = prepend replacement_char (jstring O rest).
Proof. reflexivity. Qed.

Lemma escape_out o s : escape O o s = escape O true s.
Proof. by destruct s. Qed.

Lemma tail_ok_escape k range r x : tail_ok k range r = true → tail_ok k range (escape k true r +:+ x) = true.
Proof.
  revert range r. induction k as [|k IH]; intros range r H; [done |]. destruct r as [|c r]; [done |].
  cbn [escape]. rewrite str_app_cons. cbn [tail_ok] in *. apply andb_true_iff in H as [-> H]. simpl. by apply IH.
Qed.

Lemma tail_ok_length k range r : tail_ok k range r = true → k ≤ String.length r.
Proof.
  revert range r. induction k as [|k IH]; intros range r H; [lia |]. destruct r as [|c r]; [done |].
  cbn [tail_ok] in H. apply andb_true_iff in H as [_ H]. apply IH in H. simpl. lia.
Qed.

Lemma separator_inv s t :
  separator s = Some t → ∃ c r, s = String "226" (String "128" (String c r)) ∧
    ((c = "168"%char ∧ t = "\u2028") ∨ (c = "169"%char ∧ t = "\u2029")).
Proof.
  destruct s as [|a [|b [|c r]]]; try done. cbn [separator].
  destruct (Nat.eqb_spec (nat_of_ascii a) 226) as [Ea|]; [|done].
  destruct (Nat.eqb_spec (nat_of_ascii b) 128) as [Eb|]; [|done]. cbn [andb].
  rewrite <- (ascii_nat_embedding a), <- (ascii_nat_embedding b), Ea, Eb.
  destruct (Nat.eqb_spec (nat_of_ascii c) 168) as [Ec|]; [|destruct (Nat.eqb_spec (nat_of_ascii c) 169) as [Ec|]; [|done]];
    intros [= <-]; rewrite <- (ascii_nat_embedding c), Ec; eexists _, r; (split; [done |]); [by left | by right].
Qed.

(** The reader takes an escaped string off the front of a text. *)
Lemma jstring_escape k s r :
  k ≤ String.length s → jstring k (escape k true s +:+ quote +:+ r) = Some (to_valid k s, r).
Proof.
  remember (String.length s) as n eqn:En. revert k s En. induction n as [n IH] using lt_wf_ind.
  intros k s -> Hk. destruct s as [|c s].
  { simpl in Hk. by replace k with O by lia. }
  assert (∀ k' s', String.length s' < String.length (String c s) → k' ≤ String.length s' →
    jstring k' (escape k' true s' +:+ quote +:+ r) = Some (to_valid k' s', r)) as Hrec.
  { intros k' s' Hs' Hk'. by apply (IH _ Hs' k' s' eq_refl). }
  clear IH. destruct k as [|k].
  2:{ cbn [escape]. rewrite str_app_cons. cbn [jstring to_valid]. simpl in Hk. rewrite Hrec by (simpl; lia). done. }
  cbn [escape to_valid]. destruct (nat_of_ascii c <? 128) eqn:Ec.
  { rewrite str_app_assoc, jstring_escape_byte by done. rewrite Hrec by (simpl; lia). done. }
  destruct (rune_tail c) as [k range] eqn:Er. destruct ((0 <? k) && tail_ok k range s) eqn:Et.
  2:{ rewrite str_app_assoc, jstring_replacement, Hrec by (simpl; lia). done. }
  apply andb_true_iff in Et as [Hk0 Ht]. destruct (separator (String c s)) as [t|] eqn:Es.
  - apply separator_inv in Es as (d & r' & [= -> ->] & Hd). vm_compute in Er. injection Er as <- <-.
    cbn [escape to_valid]. rewrite escape_out, str_app_assoc.
    specialize (Hrec O r' ltac:(simpl; lia) ltac:(lia)).
    destruct Hd as [[-> ->]|[-> ->]]; (match goal with |- jstring O (?t +:+ ?x) = _ =>
      transitivity (prepend (encode_rune (if String.eqb t "\u2028" then 8232 else 8233)) (jstring O x)); [reflexivity |] end);
      rewrite Hrec; reflexivity.
  - rewrite str_app_cons. cbn [jstring]. assert (nat_of_ascii c <? 32 = false) as E32.
    { apply Nat.ltb_ge. apply Nat.ltb_ge in Ec. lia. }
    assert (Ascii.eqb c "034" = false ∧ Ascii.eqb c "\" = false) as [-> ->].
    { split; [destruct (Ascii.eqb_spec c "034") as [->|] | destruct (Ascii.eqb_spec c "\") as [->|]]; done. }
    rewrite E32, Ec, Er, Hk0, (tail_ok_escape k range s _ Ht). cbn [andb]. apply tail_ok_length in Ht.
    rewrite Hrec by (simpl; lia). done.
Qed.

Lemma jstring_encode s r : ∃ q, encode_string s +:+ r = String "034" q ∧ jstring O q = Some (to_valid O s, r).
Proof.
  exists (escape O true s +:+ quote +:+ r). split; [|apply jstring_escape; lia].
  unfold encode_string. by rewrite !str_app_assoc.
Qed.

(** ** Values *)

Fixpoint json_size (v : json) : nat :=
  match v with
  | JArray vs => S (foldr (λ v n, S (json_size v + n)) O vs)
  | JObject ms => S (foldr (λ kv n, S (json_size (snd kv) + n)) O ms)
  | _ => 1
  end.

(** A printed value opens with a byte that is no white space and closes nothing. *)
Definition opens (c : ascii) : Prop := json_space c = false ∧ Ascii.eqb c "]" = false ∧ Ascii.eqb c "}" = false.

Lemma skip_space_open c r : json_space c = false → skip_space (String c r) = String c r.
Proof. unfold skip_space. simpl. by intros ->. Qed.

(** What may follow a number: nothing that would go on with it. *)
Definition number_byte (c : ascii) : bool :=
  is_digit_byte c || Ascii.eqb c "." || Ascii.eqb c "e" || Ascii.eqb c "E" || Ascii.eqb c "-" || Ascii.eqb c "+".
Definition number_end (r : string) : bool := match r with "" => true | String c _ => negb (number_byte c) end.

Lemma end_byte c r : number_end (String c r) = true →
  is_digit_byte c = false ∧ Ascii.eqb c "." = false ∧ Ascii.eqb c "e" = false ∧ Ascii.eqb c "E" = false ∧ Ascii.eqb c "-" = false ∧ Ascii.eqb c "+" = false.
Proof. unfold number_end, number_byte. rewrite negb_true_iff. intros Hr. repeat (apply orb_false_iff in Hr as [Hr ?]). done. Qed.

Section NumberEnd.
  Context (r : string) (Hr : number_end r = true).

Lemma span_digits_more s : span_digits (s +:+ r) = let '(d, s') := span_digits s in (d, s' +:+ r).
Proof.
  induction s as [|c s IH].
  - cbn. destruct r as [|c r'] eqn:E; [done |]. destruct (end_byte c r' Hr) as (Hd & _). cbn. by rewrite Hd.
  - change (String c s +:+ r) with (String c (s +:+ r)). cbn [span_digits]. destruct (is_digit_byte c); [|done].
    rewrite IH. by destruct (span_digits s).
Qed.

Let sign s := match s with String c r => if Ascii.eqb c "-" then ("-", r) else ("", s) | "" => ("", s) end.
Let int s := match s with String c r => if Ascii.eqb c "0" then ("0", r) else span_digits s | "" => ("", s) end.
Let frac s := match s with
  | String c r => if Ascii.eqb c "." then let '(f, r') := span_digits r in if String.eqb f "" then None else Some ("." +:+ f, r')
                  else Some ("", s)
  | "" => Some ("", s) end.
Let esign s := match s with String d r' => if Ascii.eqb d "+" || Ascii.eqb d "-" then (String d "", r') else ("", s) | "" => ("", s) end.
Let exp s := match s with
  | String c r => if Ascii.eqb c "e" || Ascii.eqb c "E" then
                    let '(sg, r') := esign r in
                    let '(x, r'') := span_digits r' in if String.eqb x "" then None else Some ("e" +:+ sg +:+ x, r'')
                  else Some ("", s)
  | "" => Some ("", s) end.

Lemma sign_more s : sign (s +:+ r) = let '(x, s') := sign s in (x, s' +:+ r).
Proof.
  unfold sign. destruct s as [|c s]; cbn; [|by destruct (Ascii.eqb c "-")].
  destruct r as [|c r'] eqn:E; [done |]. destruct (end_byte c r' Hr) as (_ & _ & _ & _ & -> & _). done.
Qed.
Lemma int_more s : int (s +:+ r) = let '(x, s') := int s in (x, s' +:+ r).
Proof.
  unfold int. destruct s as [|c s].
  - cbn. destruct r as [|c r'] eqn:E; [done |]. destruct (end_byte c r' Hr) as (Hd & _). cbn [span_digits]. rewrite Hd.
    destruct (Ascii.eqb_spec c "0") as [->|]; [done | done].
  - change (String c s +:+ r) with (String c (s +:+ r)). cbn match. destruct (Ascii.eqb c "0"); [done |].
    apply (span_digits_more (String c s)).
Qed.
Lemma frac_more s : frac (s +:+ r) = match frac s with Some (x, s') => Some (x, s' +:+ r) | None => None end.
Proof.
  unfold frac. destruct s as [|c s].
  - cbn. destruct r as [|c r'] eqn:E; [done |]. destruct (end_byte c r' Hr) as (_ & -> & _). done.
  - change (String c s +:+ r) with (String c (s +:+ r)). cbn match. destruct (Ascii.eqb c "."); [|done].
    rewrite span_digits_more. destruct (span_digits s) as [f s']. by destruct (String.eqb f "").
Qed.
Lemma esign_more s : esign (s +:+ r) = let '(x, s') := esign s in (x, s' +:+ r).
Proof.
  unfold esign. destruct s as [|c s]; cbn; [|by destruct (_ || _)].
  destruct r as [|c r'] eqn:E; [done |]. destruct (end_byte c r' Hr) as (_ & _ & _ & _ & -> & ->). done.
Qed.
Lemma exp_more s : exp (s +:+ r) = match exp s with Some (x, s') => Some (x, s' +:+ r) | None => None end.
Proof.
  unfold exp. destruct s as [|c s].
  - cbn. destruct r as [|c r'] eqn:E; [done |]. destruct (end_byte c r' Hr) as (_ & _ & -> & -> & _). done.
  - change (String c s +:+ r) with (String c (s +:+ r)). cbn match. destruct (_ || _); [|done].
    rewrite esign_more. destruct (esign s) as [sg s1]. rewrite span_digits_more. destruct (span_digits s1) as [x s2].
    by destruct (String.eqb x "").
Qed.
Lemma jnumber_more s : jnumber (s +:+ r) = match jnumber s with Some (t, s') => Some (t, s' +:+ r) | None => None end.
Proof.
  change (jnumber (s +:+ r)) with
    (let '(sg, s1) := sign (s +:+ r) in let '(i, s2) := int s1 in if String.eqb i "" then None else
     match frac s2 with None => None | Some (f, s3) => match exp s3 with None => None | Some (e, s4) => Some (sg +:+ i +:+ f +:+ e, s4) end end).
  change (jnumber s) with
    (let '(sg, s1) := sign s in let '(i, s2) := int s1 in if String.eqb i "" then None else
     match frac s2 with None => None | Some (f, s3) => match exp s3 with None => None | Some (e, s4) => Some (sg +:+ i +:+ f +:+ e, s4) end end).
  rewrite sign_more. destruct (sign s) as [sg s1]. rewrite int_more. destruct (int s1) as [i s2]. destruct (String.eqb i ""); [done |].
  rewrite frac_more. destruct (frac s2) as [[f s3]|]; [|done]. rewrite exp_more. by destruct (exp s3) as [[e s4]|].
Qed.
End NumberEnd.

Lemma number_opens c : is_digit_byte c || Ascii.eqb c "-" = true →
  opens c ∧ Ascii.eqb c "{" = false ∧ Ascii.eqb c "[" = false ∧ Ascii.eqb c "034" = false ∧
  Ascii.eqb c "n" = false ∧ Ascii.eqb c "t" = false ∧ Ascii.eqb c "f" = false.
Proof. destruct c as [[] [] [] [] [] [] [] []]; vm_compute; try discriminate; intros _; by split_and!. Qed.

Lemma print_opens v : plain v = true → ∃ c r, print v = String c r ∧ opens c.
Proof.
  destruct v as [|[]|t|s|vs|ms]; intros H; try (eexists _, _; (split; [reflexivity | done])).
  cbn in *. destruct t as [|c t]; [done |]. apply andb_true_iff in H as [H _]. exists c, t. split; [done |]. by apply number_opens.
Qed.

Lemma Join_print (ts : list string) t :
  Join (t :: ts) "," = t +:+ match ts with [] => "" | _ => "," +:+ Join ts "," end.
Proof. rewrite Join_cons. destruct ts; [by rewrite str_app_nil_r | done]. Qed.

Lemma jvalue_print n :
  (∀ v f r, json_size v ≤ n → 2 * json_size v ≤ f → plain v = true → number_end r = true →
    jvalue f (print v +:+ r) = Some (valid_json v, r)) ∧
  (∀ vs f r, foldr (λ v n, S (json_size v + n)) O vs ≤ n → vs ≠ [] → 2 * foldr (λ v n, S (json_size v + n)) O vs ≤ f →
    forallb plain vs = true → jitems f (Join (map print vs) "," +:+ "]" +:+ r) = Some (map valid_json vs, r)) ∧
  (∀ ms f r, foldr (λ kv n, S (json_size (snd kv) + n)) O ms ≤ n → ms ≠ [] →
    2 * foldr (λ kv n, S (json_size (snd kv) + n)) O ms ≤ f →
    forallb (λ kv, plain (snd kv)) ms = true →
    jmembers f (Join (map (λ kv, encode_string (fst kv) +:+ ":" +:+ print (snd kv)) ms) "," +:+ "}" +:+ r) =
    Some (map (λ kv, (to_valid O (fst kv), valid_json (snd kv))) ms, r)).
Proof.
  induction n as [|n (IHv & IHi & IHm)]; (split_and!; [intros v f r Hs Hf Hp Hr | intros vs f r Hs Hne Hf Hp | intros ms f r Hs Hne Hf Hp]).
  - destruct v; simpl in Hs; lia.
  - destruct vs; simpl in Hs; [done | lia].
  - destruct ms; simpl in Hs; [done | lia].
  - destruct f as [|f]; [destruct v; simpl in Hf; lia |].
    destruct v as [|b|t|s|vs|ms].
    + cbn [print]. pose proof (CutPrefix_app "null" r) as Hc. change ("null" +:+ r) with (String "n" ("ull" +:+ r)) in *.
      cbn [jvalue]. rewrite skip_space_open by done. cbn [Ascii.eqb Bool.eqb]. by rewrite Hc.
    + destruct b; cbn [print]; [pose proof (CutPrefix_app "true" r) as Hc | pose proof (CutPrefix_app "false" r) as Hc];
        [change ("true" +:+ r) with (String "t" ("rue" +:+ r)) in * | change ("false" +:+ r) with (String "f" ("alse" +:+ r)) in *];
        cbn [jvalue]; rewrite skip_space_open by done; cbn [Ascii.eqb Bool.eqb CutPrefix] in *; by rewrite Hc.
    + cbn [plain number_text print valid_json] in *. destruct t as [|c t]; [done |]. apply andb_true_iff in Hp as [Hc Ht%bool_decide_eq_true].
      pose proof (jnumber_more r Hr (String c t)) as Hj. rewrite Ht in Hj.
      destruct (number_opens c Hc) as ((Hs1 & _) & H1 & H2 & H3 & H4 & H5 & H6).
      change (String c t +:+ r) with (String c (t +:+ r)) in *. cbn [jvalue]. rewrite skip_space_open by done. rewrite H1, H2, H3.
      cbn [CutPrefix]. rewrite !(Ascii.eqb_sym _ c), H4, H5, H6, Hj. done.
    + destruct (jstring_encode s r) as (q & Eq & Hq). cbn [print]. rewrite Eq. cbn [jvalue].
      rewrite skip_space_open by done. cbn [Ascii.eqb Bool.eqb]. by rewrite Hq.
    + cbn [print]. rewrite str_app_assoc. change ("[" +:+ ?x) with (String "[" x). cbn [jvalue].
      rewrite skip_space_open by done. cbn [Ascii.eqb Bool.eqb]. destruct vs as [|v vs]; [done |].
      rewrite str_app_assoc. change ("[" +:+ ?x) with (String "[" x).
      pose proof Hp as [Hv _]%andb_true_iff. destruct (print_opens v Hv) as (c & q & Ec & Ho & Hc & _).
      assert (∃ q', Join (map print (v :: vs)) "," +:+ "]" +:+ r = String c q') as [q' Eq].
      { cbn [map]. rewrite Join_print, Ec, !str_app_assoc. by eexists. }
      rewrite Eq, skip_space_open, Hc by done. rewrite <- Eq.
      rewrite IHi; [done | simpl in *; lia | done | simpl in *; lia | done].
    + cbn [print]. rewrite str_app_assoc. change ("{" +:+ ?x) with (String "{" x). cbn [jvalue].
      rewrite skip_space_open by done. cbn [Ascii.eqb Bool.eqb]. destruct ms as [|kv ms]; [done |].
      rewrite str_app_assoc. change ("{" +:+ ?x) with (String "{" x).
      assert (∃ q', Join (map (λ kv, encode_string (fst kv) +:+ ":" +:+ print (snd kv)) (kv :: ms)) "," +:+ "}" +:+ r =
                    String "034" q') as [q' Eq].
      { cbn [map]. rewrite Join_print. unfold encode_string. rewrite !str_app_assoc. by eexists. }
      rewrite Eq, skip_space_open by done. cbn [Ascii.eqb Bool.eqb]. rewrite <- Eq.
      rewrite IHm; [done | simpl in *; lia | done | simpl in *; lia | done].
  - destruct f as [|f]; [destruct vs; simpl in Hf; [done | lia] |]. destruct vs as [|v vs]; [done |].
    cbn [forallb] in Hp. apply andb_true_iff in Hp as [Hv Hp]. cbn [map foldr] in *. rewrite Join_print.
    cbn [jitems]. rewrite str_app_assoc, IHv by (done || lia || by destruct vs). cbn [mbind option_bind].
    destruct vs as [|v' vs]; [done |]. cbn [map]. rewrite str_app_assoc.
    change ("," +:+ ?x) with (String "," x). rewrite skip_space_open by done. cbn [Ascii.eqb Bool.eqb].
    change (print v' :: map print vs) with (map print (v' :: vs)). rewrite IHi; [done | simpl in *; lia | done | simpl in *; lia | done].
  - destruct f as [|f]; [destruct ms; simpl in Hf; [done | lia] |]. destruct ms as [|[k v] ms]; [done |].
    cbn [forallb snd] in Hp. apply andb_true_iff in Hp as [Hv Hp]. cbn [map foldr fst snd] in *. rewrite Join_print.
    rewrite !str_app_assoc. set (tail := (match map _ ms with [] => "" | _ => _ end) +:+ "}" +:+ r).
    destruct (jstring_encode k (":" +:+ print v +:+ tail)) as (q & Eq & Hq). rewrite Eq. cbn [jmembers].
    rewrite skip_space_open by done. cbn [Ascii.eqb Bool.eqb]. rewrite Hq. cbn [mbind option_bind].
    change (":" +:+ ?x) with (String ":" x). rewrite skip_space_open by done. cbn [Ascii.eqb Bool.eqb].
    rewrite IHv by (done || lia || by unfold tail; destruct ms). cbn [mbind option_bind]. unfold tail. destruct ms as [|kv ms]; [done |]. cbn [map].
    rewrite str_app_assoc. change ("," +:+ ?x) with (String "," x). rewrite skip_space_open by done. cbn [Ascii.eqb Bool.eqb].
    change ((encode_string (fst kv) +:+ ":" +:+ print (snd kv)) :: map (λ kv, encode_string (fst kv) +:+ ":" +:+ print (snd kv)) ms)
      with (map (λ kv, encode_string (fst kv) +:+ ":" +:+ print (snd kv)) (kv :: ms)).
    rewrite IHm; [done | simpl in *; lia | done | simpl in *; lia | done].
Qed.

Lemma jparse_print v : plain v = true → jparse (print v) = Some (valid_json v).
Proof.
  intros Hp. pose proof (jparse_fuel (2 * String.length (print v) + 2 * json_size v + 1) (print v) ltac:(lia)) as ->.
  pose proof (proj1 (jvalue_print (json_size v)) v (2 * String.length (print v) + 2 * json_size v + 1) "" (le_n _) ltac:(lia) Hp eq_refl) as H.
  rewrite str_app_nil_r in H. by rewrite H.
Qed.

(** One member of an object decoded, and as it is read back from what was printed. *)
Definition struct_step {S} (field : string → option (S → json → S * bool)) : S * bool → string * json → S * bool :=
  λ '(s, ok) '(k, v), match field (ToLower k) with Some f => let '(s', ok') := f s v in (s', ok && ok') | None => (s, ok) end.
Definition valid_member (kv : string * json) : string * json := (to_valid O (fst kv), valid_json (snd kv)).
