(* ===== verification/Domain.v ===== *)
(** * The entity types every layer speaks ([internal/domain])

    AST units, edges and the query shape over them, the unit and edge kinds the
    graph gives a meaning to ([internal/store/types.go]), and the judgment of a
    path as test or generated code ([markers.go]). *)

From S2P Require Import Prelude GoStrings GoFloat.

(** ** Units and edges *)

(** [domain.ASTUnit] *)
Record ASTUnit := {
  u_ID : string;
  u_RepoID : string;
  u_FilePath : string;
  u_Language : string;
  u_Kind : string;
  u_Name : string;
  u_Qualified : string;
  u_ParentID : string;
  u_StartLine : Z;
  u_EndLine : Z;
  u_StartByte : Z;
  u_EndByte : Z;
  u_Signature : string;
  u_Doc : string;
  u_Hash : string;
  u_Meta : string;
}.

(** [domain.Edge] *)
Record Edge := {
  e_ID : string;
  e_RepoID : string;
  e_SrcID : string;
  e_DstID : string;
  e_Kind : string;
  e_DstName : string;
  e_FilePath : string;
  e_Line : Z;
  e_DstRepoID : string;
  e_Confidence : f32;
  e_Meta : string;
}.

#[export] Instance ASTUnit_eq_dec : EqDecision ASTUnit.
Proof. solve_decision. Defined.
#[export] Instance Edge_eq_dec : EqDecision Edge.
Proof. solve_decision. Defined.

(** [domain.QueryOpts] *)
Record QueryOpts := {
  q_RepoID : string;
  q_Repos : list string;
  q_FilePath : string;
  q_Language : string;
  q_Kind : string;
  q_Kinds : list string;
  q_Name : string;
  q_Qualified : string;
  q_QualifiedSuffix : string;
  q_NameOrQualified : string;
  q_Fallback : bool;
  q_SrcID : string;
  q_DstID : string;
  q_Unresolved : bool;
  q_Line : Z;
  q_Limit : Z;
}.

(** The zero value, which restricts nothing. *)
Definition no_opts : QueryOpts := {|
  q_RepoID := ""; q_Repos := []; q_FilePath := ""; q_Language := ""; q_Kind := "";
  q_Kinds := []; q_Name := ""; q_Qualified := ""; q_QualifiedSuffix := "";
  q_NameOrQualified := ""; q_Fallback := false; q_SrcID := ""; q_DstID := "";
  q_Unresolved := false; q_Line := 0; q_Limit := 0
|}.

(** ** Repositories ([repo.go]) *)

Definition SourceTypeLocal : string := "local".
Definition SourceTypeGit : string := "git".

Definition StatusIdle : string := "idle".
Definition StatusIndexing : string := "indexing".
Definition StatusError : string := "error".

(** [domain.Repo] *)
Record Repo := {
  r_ID : string;
  r_Name : string;
  r_Source : string;
  r_URL : string;
  r_Path : string;
  r_Branch : string;
  r_IndexedAt : Z;
  r_Status : string;
  r_CreatedAt : Z;
  r_LastError : string;
  r_LastCommit : string;
  r_PendingCommit : string;
  r_Active : bool
}.
#[export] Instance Repo_eq_dec : EqDecision Repo.
Proof. solve_decision. Defined.

(** ** Contract coverage ([job.go]) *)

(** [domain.CoverageCounts] *)
Record CoverageCounts := { cc_Candidates : Z; cc_Edges : Z }.
#[export] Instance CoverageCounts_eq_dec : EqDecision CoverageCounts.
Proof. solve_decision. Defined.

(** [domain.RepoCoverage] *)
Record RepoCoverage := {
  rc_RepoID : string;
  rc_UpdatedAt : Z;
  rc_Kinds : gmap string CoverageCounts
}.

(** ** Unit and edge kinds ([internal/store/types.go]) *)

Definition KindService : string := "service".
Definition KindHTTPRoute : string := "http_route".
Definition KindRPCMethod : string := "rpc_method".
Definition KindDBTable : string := "db_table".
Definition KindConfigKey : string := "config_key".
Definition KindTopicChannel : string := "topic_channel".
Definition KindSummary : string := "summary".

Definition EdgeCall : string := "call".
Definition EdgeImport : string := "import".
Definition EdgeHTTPCall : string := "http_call".
Definition EdgeRPCCall : string := "rpc_call".
Definition EdgeImplementsRPC : string := "implements_rpc".
Definition EdgeHandledBy : string := "handled_by".
Definition EdgeProduces : string := "produces".
Definition EdgeConsumes : string := "consumes".
Definition EdgeKafkaFlow : string := "kafka_flow".
Definition EdgeWritesTo : string := "writes_to".
Definition EdgeReadsFrom : string := "reads_from".
Definition EdgeRuntimeCall : string := "runtime_call".
Definition EdgeRPCRequest : string := "rpc_request".
Definition EdgeRPCResponse : string := "rpc_response".

(** ** Test and generated paths ([markers.go]) *)

Definition testPathMarkers : list string := [
  "/test/"; "/tests/"; "/testing/"; "/testdata/"; "/__tests__/";
  "/mocks/"; "/mock/"; "/fixtures/"; "/vendor/"; "/node_modules/";
  "_test."; ".test."; ".spec."
].

Definition generatedPathMarkers : list string := [
  "/genproto/"; "/generated/";
  ".pb.go"; ".pb.cc"; ".pb.h";
  "_pb2."; "_pb2_"; "_pb.js"; "_pb.d.ts";
  ".proto"
].

Definition markerPath (path : string) : string := "/" +:+ ToLower path.

Definition matchesMarker (path : string) (markers : list string) : bool :=
  let p := markerPath path in existsb (Contains p) markers.

Definition IsTestPath (path : string) : bool := matchesMarker path testPathMarkers.
Definition IsGeneratedPath (path : string) : bool := matchesMarker path generatedPathMarkers.

(** A path is judged by where it is, at the root of the repository or below
    it: a marked directory keeps its mark wherever the tree that holds it is. *)
Lemma matchesMarker_below dir path ms :
  matchesMarker path ms = true → matchesMarker (dir +:+ "/" +:+ path) ms = true.
Proof.
  unfold matchesMarker. rewrite !existsb_exists. intros (m & Hm & H).
  exists m. split; [done |]. unfold markerPath, ToLower in *. rewrite !str_map_app.
  rewrite !Contains_spec in *. destruct H as (a & b & H).
  exists ("/" +:+ str_map lower_byte dir +:+ a), b.
  rewrite !str_app_assoc, <- H. done.
Qed.
