(* ===== verification/Store.v ===== *)
(** * The store the graph reads

    [internal/store]: the metadata columns of units and edges, decoded from
    JSON, and the part of the [Storage] interface the graph package reads
    through, as a class: the two SQL backends are its implementations in the
    program, [memory_store] the one here. *)

From S2P Require Import Prelude GoStrings GoFloat GoJson Domain.

(** ** Metadata ([types.go]) *)

Record UnitMeta := {
  um_Root : string;
  um_DetectedBy : string;
  um_Scope : string;
  um_Path : string;
  um_Summary : string
}.

Definition no_unit_meta : UnitMeta :=
  {| um_Root := ""; um_DetectedBy := ""; um_Scope := ""; um_Path := ""; um_Summary := "" |}.

(** The fields by their JSON keys. *)
Definition unit_meta_field (key : string) : option (UnitMeta → json → UnitMeta * bool) :=
  let text (get : UnitMeta → string) (set : UnitMeta → string → UnitMeta) :=
    Some (λ m v, let '(s, ok) := decode_string (get m) v in (set m s, ok)) in
  if String.eqb key "root" then
    text um_Root (λ m s, {| um_Root := s; um_DetectedBy := um_DetectedBy m; um_Scope := um_Scope m;
                            um_Path := um_Path m; um_Summary := um_Summary m |})
  else if String.eqb key "detected_by" then
    text um_DetectedBy (λ m s, {| um_Root := um_Root m; um_DetectedBy := s; um_Scope := um_Scope m;
                                  um_Path := um_Path m; um_Summary := um_Summary m |})
  else if String.eqb key "scope" then
    text um_Scope (λ m s, {| um_Root := um_Root m; um_DetectedBy := um_DetectedBy m; um_Scope := s;
                             um_Path := um_Path m; um_Summary := um_Summary m |})
  else if String.eqb key "path" then
    text um_Path (λ m s, {| um_Root := um_Root m; um_DetectedBy := um_DetectedBy m; um_Scope := um_Scope m;
                            um_Path := s; um_Summary := um_Summary m |})
  else if String.eqb key "summary" then
    text um_Summary (λ m s, {| um_Root := um_Root m; um_DetectedBy := um_DetectedBy m; um_Scope := um_Scope m;
                               um_Path := um_Path m; um_Summary := s |})
  else None.

Definition DecodeUnitMeta (s : string) : UnitMeta :=
  if String.eqb s "" then no_unit_meta else fst (Unmarshal unit_meta_field no_unit_meta s).

Record EdgeMeta := {
  em_Args : list string;
  em_Fields : gmap string string;
  em_Aliases : gmap string string;
  em_Topic : string;
  em_Path : string;
  em_Method : string;
  em_Host : string;
  em_Receiver : string;
  em_RecvType : string;
  em_TopicRef : string;
  em_Source : string;
  em_BaseConf : f32
}.

Definition no_edge_meta : EdgeMeta := {|
  em_Args := []; em_Fields := ∅; em_Aliases := ∅; em_Topic := ""; em_Path := ""; em_Method := "";
  em_Host := ""; em_Receiver := ""; em_RecvType := ""; em_TopicRef := ""; em_Source := "";
  em_BaseConf := S754_zero false
|}.

(** The text fields of an edge's metadata, by key. *)
Definition edge_text (key : string) : option (EdgeMeta → string) :=
  if String.eqb key "topic" then Some em_Topic
  else if String.eqb key "path" then Some em_Path
  else if String.eqb key "method" then Some em_Method
  else if String.eqb key "host" then Some em_Host
  else if String.eqb key "receiver" then Some em_Receiver
  else if String.eqb key "recv_type" then Some em_RecvType
  else if String.eqb key "topic_ref" then Some em_TopicRef
  else if String.eqb key "source" then Some em_Source
  else None.

Definition set_edge_text (key : string) (m : EdgeMeta) (s : string) : EdgeMeta :=
  let pick k old := if String.eqb key k then s else old in
  {| em_Args := em_Args m; em_Fields := em_Fields m; em_Aliases := em_Aliases m;
     em_Topic := pick "topic" (em_Topic m); em_Path := pick "path" (em_Path m);
     em_Method := pick "method" (em_Method m); em_Host := pick "host" (em_Host m);
     em_Receiver := pick "receiver" (em_Receiver m); em_RecvType := pick "recv_type" (em_RecvType m);
     em_TopicRef := pick "topic_ref" (em_TopicRef m); em_Source := pick "source" (em_Source m);
     em_BaseConf := em_BaseConf m |}.

Definition set_edge_rest (m : EdgeMeta) (args : list string) (fields aliases : gmap string string) (conf : f32) : EdgeMeta :=
  {| em_Args := args; em_Fields := fields; em_Aliases := aliases;
     em_Topic := em_Topic m; em_Path := em_Path m; em_Method := em_Method m; em_Host := em_Host m;
     em_Receiver := em_Receiver m; em_RecvType := em_RecvType m; em_TopicRef := em_TopicRef m;
     em_Source := em_Source m; em_BaseConf := conf |}.

Definition edge_meta_field (key : string) : option (EdgeMeta → json → EdgeMeta * bool) :=
  if String.eqb key "args" then
    Some (λ m v, let '(x, ok) := decode_string_slice (em_Args m) v in
                 (set_edge_rest m x (em_Fields m) (em_Aliases m) (em_BaseConf m), ok))
  else if String.eqb key "fields" then
    Some (λ m v, let '(x, ok) := decode_string_map (em_Fields m) v in
                 (set_edge_rest m (em_Args m) x (em_Aliases m) (em_BaseConf m), ok))
  else if String.eqb key "aliases" then
    Some (λ m v, let '(x, ok) := decode_string_map (em_Aliases m) v in
                 (set_edge_rest m (em_Args m) (em_Fields m) x (em_BaseConf m), ok))
  else if String.eqb key "base_conf" then
    Some (λ m v, let '(x, ok) := decode_float32 (em_BaseConf m) v in
                 (set_edge_rest m (em_Args m) (em_Fields m) (em_Aliases m) x, ok))
  else match edge_text key with
       | Some get => Some (λ m v, let '(s, ok) := decode_string (get m) v in (set_edge_text key m s, ok))
       | None => None
       end.

Definition DecodeEdgeMeta (s : string) : EdgeMeta :=
  if String.eqb s "" then no_edge_meta else fst (Unmarshal edge_meta_field no_edge_meta s).

(** ** The interface ([interface.go]) *)

Inductive StoreError := ErrNotFound | StoreFailure (text : string).

#[export] Instance StoreError_eq_dec : EqDecision StoreError.
Proof. solve_decision. Defined.

Abbreviation Fallible A := (StoreError + A)%type.

Definition DefaultRepoClaimTTLSeconds : Z := 3600.
Definition RepoResetMessage : string := "indexing interrupted; reset at startup".

(** [store.File] ([types.go]) *)
Record File := {
  f_RepoID : string;
  f_Path : string;
  f_Hash : string;
  f_Language : string;
  f_Size : Z;
  f_ModTime : Z;
  f_Indexed : bool
}.
#[export] Instance File_eq_dec : EqDecision File.
Proof. solve_decision. Defined.

(** The reads of [UnitStore], [EdgeStore] and [GraphStore] the graph makes; a
    read changes nothing, and the graph is read in one state of the store. *)
Class Storage := {
  GetASTUnits : QueryOpts → Fallible (list ASTUnit);
  GetASTUnitsByIDs : list string → Fallible (list ASTUnit);
  GetASTUnitByID : string → Fallible ASTUnit;
  GetEdges : QueryOpts → Fallible (list Edge)
}.

(** What the graph relies on: units have ids and are found under them, the same ones
    by either read, and an id is reported missing only when no unit has it. *)
Class StorageLaws (S : Storage) (unit_of : string → option ASTUnit) : Prop := {
  unit_of_id id u : unit_of id = Some u → u_ID u = id;
  unit_of_empty : unit_of "" = None;
  by_id id u : GetASTUnitByID id = inr u → unit_of id = Some u;
  by_id_missing id : GetASTUnitByID id = inl ErrNotFound → unit_of id = None;
  by_ids ids us : GetASTUnitsByIDs ids = inr us → ∀ u, u ∈ us ↔ ∃ id, id ∈ ids ∧ unit_of id = Some u
}.

(** ** A store in memory

    The filters of [query.go] as predicates, over lists of units and edges held
    in the order the backends return rows in. *)

Definition or_empty (opt v : string) : bool := String.eqb opt "" || String.eqb opt v.
Definition one_of (l : list string) (v : string) : bool :=
  match l with [] => true | _ => existsb (String.eqb v) l end.

Definition unit_matches (o : QueryOpts) (u : ASTUnit) : bool :=
  or_empty (q_RepoID o) (u_RepoID u) && one_of (q_Repos o) (u_RepoID u) &&
  or_empty (q_FilePath o) (u_FilePath u) && or_empty (q_Language o) (u_Language u) &&
  or_empty (q_Kind o) (u_Kind u) && one_of (q_Kinds o) (u_Kind u) &&
  (String.eqb (q_Name o) "" || EqualFold (q_Name o) (u_Name u)) &&
  (String.eqb (q_Qualified o) "" || EqualFold (q_Qualified o) (u_Qualified u)) &&
  (String.eqb (q_NameOrQualified o) "" || EqualFold (q_NameOrQualified o) (u_Name u)
     || EqualFold (q_NameOrQualified o) (u_Qualified u)) &&
  HasSuffix (u_Qualified u) (q_QualifiedSuffix o) &&
  ((q_Line o <=? 0)%Z || ((u_StartLine u <=? q_Line o)%Z && (q_Line o <=? u_EndLine u)%Z)).

Definition edge_matches (o : QueryOpts) (e : Edge) : bool :=
  or_empty (q_RepoID o) (e_RepoID e) && or_empty (q_FilePath o) (e_FilePath e) &&
  or_empty (q_Kind o) (e_Kind e) && one_of (q_Kinds o) (e_Kind e) &&
  or_empty (q_Name o) (e_DstName e) && or_empty (q_SrcID o) (e_SrcID e) &&
  or_empty (q_DstID o) (e_DstID e) && (negb (q_Unresolved o) || String.eqb (e_DstID e) "").

Definition first_n {A} (limit : Z) (l : list A) : list A :=
  if (0 <? limit)%Z then take (Z.to_nat limit) l else l.

Section Memory.
  Context (units : list ASTUnit) (edges : list Edge).

Definition memory_unit (id : string) : option ASTUnit :=
  head (filter (λ u, u_ID u = id) units).

Definition memory_store : Storage := {|
  GetASTUnits o := inr (first_n (q_Limit o) (filter (λ u, unit_matches o u = true) units));
  GetASTUnitsByIDs ids := inr (omap memory_unit ids);
  GetASTUnitByID id := match memory_unit id with Some u => inr u | None => inl ErrNotFound end;
  GetEdges o := inr (first_n (q_Limit o) (filter (λ e, edge_matches o e = true) edges))
|}.

Lemma memory_store_laws : Forall (λ u, u_ID u ≠ "") units → StorageLaws memory_store memory_unit.
Proof.
  intros Hids. split.
  - intros id u H. unfold memory_unit in H. apply head_Some_elem_of in H.
    by apply list_elem_of_filter in H as [H _].
  - unfold memory_unit. destruct (head _) as [u|] eqn:E; [|done]. apply head_Some_elem_of in E.
    apply list_elem_of_filter in E as [E Hu]. rewrite Forall_forall in Hids. by apply Hids in Hu.
  - intros id u. simpl. destruct (memory_unit id); congruence.
  - intros id. simpl. by destruct (memory_unit id).
  - intros ids us [= <-] u. by rewrite list_elem_of_omap.
Qed.

End Memory.
