(* ===== verification/Contract.v ===== *)
(** * Contract join keys ([internal/contract])

    The keys that join services ([contract.go]: "grpc:", "http:", "topic:",
    "db:", "config:"), the identifier vocabulary both sides of a join agree on
    ([ident.go]), and the confidence tiers ([confidence.go]). *)

From S2P Require Import Prelude GoStrings GoFloat.
From Stdlib Require Import Strings.Ascii.

(** ** Kinds *)

(** [contract.Kind] *)
Inductive Kind := KindGRPC | KindHTTP | KindTopic | KindDB | KindConfig.

#[export] Instance Kind_eq_dec : EqDecision Kind.
Proof. solve_decision. Defined.

Definition kind_string (k : Kind) : string :=
  match k with
  | KindGRPC => "grpc" | KindHTTP => "http" | KindTopic => "topic"
  | KindDB => "db" | KindConfig => "config"
  end.

Definition kind_prefix (k : Kind) : string := kind_string k +:+ ":".

Definition topicRefPrefix : string := "topic:${".

(** ** Path parameters *)

Definition TrimQuery (path : string) : string :=
  fst (Cut (λ c, ContainsByte c "?#") path).

(** [IsPathParam] *)
Definition IsPathParam (seg : string) : bool :=
  match seg with
  | "" => false
  | String c _ =>
      ContainsByte c "{:[<" || String.eqb seg "*" || String.eqb seg "**"
  end.

(** The brace scan of [reduceSegment]: what is inside a group is dropped, the
    group itself becomes "{}". *)
Fixpoint reduce_braces (depth : nat) (seg : string) : string :=
  match seg with
  | "" => ""
  | String c r =>
      if Ascii.eqb c "{" then
        match depth with
        | O => "{}" +:+ reduce_braces 1 r
        | S _ => reduce_braces (S depth) r
        end
      else if Ascii.eqb c "}" then reduce_braces (pred depth) r
      else match depth with
           | O => String c (reduce_braces 0 r)
           | S _ => reduce_braces depth r
           end
  end.

(** [reduceSegment] *)
Definition reduceSegment (seg : string) : string :=
  match seg with
  | "" => ""
  | String c _ =>
      if ContainsByte c ":<[" then "{}"
      else if String.eqb seg "*" || String.eqb seg "**" then "{}"
      else if negb (ContainsByte "{" seg) then seg
      else reduce_braces 0 seg
  end.

(** [ReducePath] *)
Definition ReducePath (path : string) : string :=
  if negb (ContainsAny "{:<[*" path) then path
  else Join (map reduceSegment (SplitByte path "/")) "/".

(** ** Constructors *)

Definition GRPC (service method : string) : string :=
  kind_string KindGRPC +:+ ":" +:+ service +:+ "/" +:+ method.

Definition HTTP (method path : string) : string :=
  let method := ToUpper (TrimSpace method) in
  let method := if String.eqb method "" then "ANY" else method in
  let path := "/" +:+ Trim (TrimQuery (TrimSpace path)) "/" in
  kind_string KindHTTP +:+ ":" +:+ method +:+ " " +:+ ReducePath path.

Definition Topic (name : string) : string := kind_string KindTopic +:+ ":" +:+ name.
Definition TopicRef (ref : string) : string := topicRefPrefix +:+ ref +:+ "}".
Definition DB (table : string) : string := kind_string KindDB +:+ ":" +:+ table.
Definition Config (path : string) : string := kind_string KindConfig +:+ ":" +:+ path.

(** ** Parsers *)

Definition cutPrefix (key : string) (k : Kind) : option string :=
  CutPrefix key (kind_prefix k).

(** [ParseGRPC]: service, method, ok. *)
Definition ParseGRPC (key : string) : string * string * bool :=
  match cutPrefix key KindGRPC with
  | None => ("", "", false)
  | Some rest =>
      match CutLast (Ascii.eqb "/") rest with
      | None => ("", rest, negb (String.eqb rest ""))
      | Some (svc, method) => (svc, method, negb (String.eqb method ""))
      end
  end.

Definition ParseHTTP (key : string) : option (string * string) :=
  match cutPrefix key KindHTTP with
  | None => None
  | Some rest =>
      match Cut (Ascii.eqb " ") rest with
      | (_, None) => None
      | (method, Some path) => Some (method, TrimQuery path)
      end
  end.

Definition ParseTopic (key : string) : option string := cutPrefix key KindTopic.

Definition ParseTopicRef (key : string) : option string :=
  if negb (HasPrefix key topicRefPrefix) || negb (HasSuffix key "}") then None
  else Some (TrimSuffix (TrimPrefix key topicRefPrefix) "}").

Definition ParseDB (key : string) : option string := cutPrefix key KindDB.
Definition ParseConfig (key : string) : option string := cutPrefix key KindConfig.
Definition IsKind (key : string) (k : Kind) : bool := HasPrefix key (kind_prefix k).
Definition TrimKind (key : string) (k : Kind) : string := TrimPrefix key (kind_prefix k).

(** ** Identifiers ([ident.go]) *)

Definition NormIdent (s : string) : string := ToLower (RemoveByte "_" (TrimSpace s)).

Definition IsWordByte (b : ascii) : bool :=
  Ascii.eqb b "_" || is_lower_byte b || is_upper_byte b || is_digit_byte b.

Definition IdentTokens (s : string) : list string :=
  FieldsFunc (λ c, negb (IsWordByte c)) s.

Definition LastComponent (s : string) : string :=
  match CutLast (Ascii.eqb ".") s with
  | Some (_, after) => TrimSpace after
  | None => TrimSpace s
  end.

(** The [flush] of [splitComponents]. *)
Definition flush_component (cur : string) : list string :=
  if String.eqb cur "" then [] else [ToLower cur].

Definition next_is_lower (r : string) : bool :=
  match r with "" => false | String c _ => is_lower_byte c end.

(** The loop of [splitComponents]; [prev] is the rune before, [None] at the
    first one. *)
Fixpoint split_components (prev : option ascii) (cur tok : string) : list string :=
  match tok with
  | "" => flush_component cur
  | String r rest =>
      if Ascii.eqb r "_" then flush_component cur ++ split_components (Some r) "" rest
      else
        let opens :=
          match prev with
          | None => false
          | Some p => is_upper_byte r && (negb (is_upper_byte p) || next_is_lower rest)
          end in
        if opens then flush_component cur ++ split_components (Some r) (String r "") rest
        else split_components (Some r) (cur +:+ String r "") rest
  end.

Definition splitComponents (tok : string) : list string := split_components None "" tok.

Definition TokenComponents (s : string) : list (list string) :=
  filter (λ comps, comps ≠ []) (map splitComponents (IdentTokens s)).

Definition WordComponents (s : string) : list string := concat (TokenComponents s).

(** [hasComponentSuffix] ([internal/graph/ident.go]) *)
Definition hasComponentSuffix (seq suffix : list string) : bool :=
  if (length suffix =? 0) || (length seq <? length suffix) then false
  else bool_decide (drop (length seq - length suffix) seq = suffix).

(** ** Signatures *)

(** The loop of [SplitTopLevel]: [prev] is the byte before, [depth] and [angle]
    the nesting counters. *)
Fixpoint split_top (sep : ascii) (prev : option ascii) (depth angle : Z) (s : string)
    : list string :=
  match s with
  | "" => [""]
  | String c r =>
      let keep (depth angle : Z) :=
        match split_top sep (Some c) depth angle r with
        | [] => [String c ""]
        | w :: ws => String c w :: ws
        end in
      if ContainsByte c "([{" then keep (depth + 1)%Z angle
      else if ContainsByte c ")]}" then keep (depth - 1)%Z angle
      else if Ascii.eqb c "<" then
        match prev, r with
        | Some p, String n _ =>
            if IsWordByte p && negb (Ascii.eqb n "=") && negb (Ascii.eqb n "<")
            then keep depth (angle + 1)%Z else keep depth angle
        | _, _ => keep depth angle
        end
      else if Ascii.eqb c ">" then
        keep depth (if (0 <? angle)%Z then (angle - 1)%Z else angle)
      else if Ascii.eqb c sep then
        if (depth =? 0)%Z && (angle =? 0)%Z
        then "" :: split_top sep (Some c) depth angle r
        else keep depth angle
      else keep depth angle
  end.

Definition SplitTopLevel (s : string) (sep : ascii) : list string := split_top sep None 0 0 s.

(** One parameter of a signature, default value dropped: its name, if any. *)
Definition param_name (language part : string) : option string :=
  let part := TrimSpace part in
  if String.eqb part "" then None
  else
    let part := match SplitTopLevel part "=" with
                | p :: _ :: _ => TrimSpace p
                | _ => part
                end in
    if String.eqb part "" then None
    else if String.eqb language "java" || String.eqb language "csharp" then
      match last (Fields part) with
      | Some name => Some (TrimLeft name "*&@.")
      | None => None
      end
    else
      let name := match Cut (λ c, ContainsByte c " :?") part with
                  | (String _ _ as before, Some _) => before
                  | _ => part
                  end in
      Some (TrimLeft name "*&.").

(** [ParamNames] *)
Definition ParamNames (language signature : string) : list string :=
  let sig := TrimSuffix (TrimPrefix (TrimSpace signature) "(") ")" in
  if String.eqb sig "" then []
  else
    let names := omap (param_name language) (SplitTopLevel sig ",") in
    match names with
    | n :: rest =>
        if String.eqb language "python" && (String.eqb n "self" || String.eqb n "cls")
        then rest else names
    | [] => []
    end.

(** ** Tables *)

Definition isVowel (b : ascii) : bool := ContainsByte b "aeiou".

(** The byte before the last one ([s[len(s)-2]]). *)
Fixpoint byte_before_last (s : string) : option ascii :=
  match s with
  | String c (String _ "") => Some c
  | String _ r => byte_before_last r
  | "" => None
  end.

(** [TableName] *)
Definition TableName (entity : string) : string :=
  let name := TrimLeft (TrimSpace entity) "*&" in
  let name := match CutLast (Ascii.eqb ".") name with
              | Some (_, after) => after
              | None => name
              end in
  let s := Join (WordComponents name) "_" in
  if String.eqb s "" then ""
  else if HasSuffix s "s" || HasSuffix s "x" || HasSuffix s "z"
          || HasSuffix s "ch" || HasSuffix s "sh" then s +:+ "es"
  else
    match (if HasSuffix s "y" then byte_before_last s else None) with
    | Some b => if negb (isVowel b) then TrimSuffix s "y" +:+ "ies" else s +:+ "s"
    | None => s +:+ "s"
    end.

(** ** Confidence tiers ([confidence.go]) *)

Definition ConfExact : f32 := f32_lit 95 100.
Definition ConfHigh : f32 := f32_lit 9 10.
Definition ConfCrossFile : f32 := f32_lit 8 10.
Definition ConfHeuristic : f32 := f32_lit 7 10.
Definition ConfWeak : f32 := f32_lit 6 10.

(** ** Examples from the source's own documentation *)

Example ReducePath_pets : ReducePath "/pets/{petId}/visits/:visitId" = "/pets/{}/visits/{}".
Proof. reflexivity. Qed.
Example ReducePath_mixed : ReducePath "/users/{id}N{tenant}/password" = "/users/{}N{}/password".
Proof. reflexivity. Qed.
Example HTTP_query : HTTP "get " "api/orders/?status=new" = "http:GET /api/orders".
Proof. reflexivity. Qed.
Example TableName_examples :
  map TableName ["User_Profile"; "models.User"; "Category"; "Box"; "Key"]
  = ["user_profiles"; "users"; "categories"; "boxes"; "keys"].
Proof. reflexivity. Qed.
Example WordComponents_examples :
  map WordComponents ["OrderItemRepo"; "order_item_repo"; "HTTPServer"; "req.GetUserID()"]
  = [["order"; "item"; "repo"]; ["order"; "item"; "repo"]; ["http"; "server"];
     ["req"; "get"; "user"; "id"]].
Proof. reflexivity. Qed.
Example ParamNames_examples :
  (ParamNames "java" "(Map<String, Int> m, final int x = 5)",
   ParamNames "python" "(self, user_id: int = 3)",
   ParamNames "go" "(ctx context.Context, args ...string)")
  = (["m"; "x"], ["user_id"], ["ctx"; "args"]).
Proof. reflexivity. Qed.
