(* ===== verification/ContractPaths.v ===== *)
(** * HTTP keys: path parameters and canonical form

    What [ReducePath] and [HTTP] ([internal/contract/contract.go]) promise: one
    key for every spelling of a path parameter, reduction done once, and a key
    that re-keying what it parses to gives back. *)

From S2P Require Import Prelude GoStrings Contract.
From Stdlib Require Import Strings.Ascii.

(** ** Reduction of one segment *)

Lemma reduce_braces_idemp d s : reduce_braces 0 (reduce_braces d s) = reduce_braces d s.
Proof.
  revert d. induction s as [|c s IH]; intros d; simpl; [done |].
  destruct (Ascii.eqb c "{") eqn:E1; [destruct d; simpl; by rewrite IH |].
  destruct (Ascii.eqb c "}") eqn:E2; [done |].
  destruct d; simpl; [by rewrite E1, E2, IH | done].
Qed.

(** Reduction keeps or drops the bytes of a segment, and adds braces only. *)
Lemma reduce_braces_bytes p d s :
  p "{"%char = true → p "}"%char = true →
  str_forallb p s = true → str_forallb p (reduce_braces d s) = true.
Proof.
  intros H1 H2. revert d. induction s as [|c s IH]; intros d; simpl; [done |].
  intros H. bool_prop. destruct (Ascii.eqb c "{"), (Ascii.eqb c "}"), d; simpl;
    rewrite ?H1, ?H2, ?H; simpl; auto.
Qed.

Lemma reduceSegment_bytes p s :
  p "{"%char = true → p "}"%char = true →
  str_forallb p s = true → str_forallb p (reduceSegment s) = true.
Proof.
  intros H1 H2 H. destruct s as [|c s]; [done |]. unfold reduceSegment.
  assert (str_forallb p "{}" = true) as Hb by (cbn; by rewrite H1, H2).
  repeat case_if; auto using reduce_braces_bytes.
Qed.

Lemma reduceSegment_no_slash s :
  ContainsByte "/" s = false → ContainsByte "/" (reduceSegment s) = false.
Proof.
  unfold ContainsByte. rewrite !ContainsFunc_false. by apply reduceSegment_bytes.
Qed.

(** A segment that does not open with a stray closing brace; every segment of a
    route template is one. *)
Definition template_segment (s : string) : bool := negb (HasPrefix s "}").

Lemma reduce_braces_open s :
  ContainsByte "{" s = true → ContainsByte "{" (reduce_braces 0 s) = true.
Proof.
  unfold ContainsByte. induction s as [|c s IH]; [done |].
  rewrite ContainsFunc_cons. cbn [reduce_braces].
  rewrite (Ascii.eqb_sym c "{").
  destruct (Ascii.eqb "{" c) eqn:E; [done |]. simpl. intros H.
  destruct (Ascii.eqb c "}"); simpl; [auto |]. rewrite ContainsFunc_cons, E. auto.
Qed.

Lemma reduceSegment_plain c s :
  ContainsByte c ":<[" = false →
  ContainsByte "{" (String c s) = true →
  reduceSegment (String c s) = reduce_braces 0 (String c s).
Proof.
  intros Hc Ho. unfold reduceSegment. rewrite Hc, Ho. simpl negb. cbv iota.
  destruct (String.eqb_spec (String c s) "*") as [E|_]; [by rewrite E in Ho |].
  destruct (String.eqb_spec (String c s) "**") as [E|_]; [by rewrite E in Ho |].
  done.
Qed.

Lemma reduceSegment_idemp s :
  template_segment s = true → reduceSegment (reduceSegment s) = reduceSegment s.
Proof.
  destruct s as [|c s]; [done |]. intros Ht.
  destruct (ContainsByte c ":<[") eqn:Ec; [unfold reduceSegment at 2 3; by rewrite Ec |].
  destruct (ContainsByte "{" (String c s)) eqn:Eo.
  - rewrite (reduceSegment_plain c s Ec Eo).
    pose proof (reduce_braces_open _ Eo) as Eo'. pose proof (reduce_braces_idemp 0 (String c s)) as Ei.
    assert (∃ r, reduce_braces 0 (String c s) = String c r) as [r Er].
    { cbn [reduce_braces]. destruct (Ascii.eqb_spec c "{") as [->|]; [by eexists |].
      destruct (Ascii.eqb_spec c "}") as [->|]; [by destruct s | by eexists]. }
    rewrite Er in *. by rewrite reduceSegment_plain.
  - destruct (String.eqb (String c s) "*" || String.eqb (String c s) "**") eqn:E.
    + unfold reduceSegment at 2 3. by rewrite Ec, E.
    + assert (reduceSegment (String c s) = String c s) as Hr
        by (unfold reduceSegment; by rewrite Ec, E, Eo).
      by rewrite !Hr.
Qed.

Lemma reduceSegment_nonempty s :
  template_segment s = true → s ≠ "" → reduceSegment s ≠ "".
Proof.
  destruct s as [|c s]; [done |]. intros Ht _.
  destruct (ContainsByte c ":<[") eqn:Ec; [unfold reduceSegment; by rewrite Ec |].
  destruct (ContainsByte "{" (String c s)) eqn:Eo.
  - rewrite reduceSegment_plain by done. cbn [reduce_braces].
    destruct (Ascii.eqb_spec c "{"); [done |].
    destruct (Ascii.eqb_spec c "}") as [->|]; [by destruct s | done].
  - unfold reduceSegment. rewrite Ec, Eo. simpl negb. by destruct (_ || _).
Qed.

(** A segment with none of the marks of a parameter is left alone. *)
Lemma reduceSegment_literal s : ContainsAny "{:<[*" s = false → reduceSegment s = s.
Proof.
  intros H. destruct s as [|c s]; [done |]. unfold reduceSegment.
  assert (ContainsByte "{" (String c s) = false) as Eo.
  { revert H. apply ContainsFunc_impl. intros d. byte_cases d. }
  unfold ContainsAny in H. rewrite ContainsFunc_cons in H. bool_prop.
  assert (ContainsByte c ":<[" = false) as -> by (revert H; clear; byte_cases c).
  rewrite Eo. simpl negb.
  destruct (String.eqb_spec (String c s) "*"); [simplify_eq; done |].
  destruct (String.eqb_spec (String c s) "**"); [simplify_eq; done |]. done.
Qed.

(** ** Reduction of a path *)

Lemma ContainsFunc_Split f g s :
  ContainsFunc g s = false → Forall (λ w, ContainsFunc g w = false) (Split f s).
Proof.
  induction s as [|c s IH]; simpl; [by repeat constructor |].
  rewrite ContainsFunc_cons. intros H. bool_prop. specialize (IH H0).
  destruct (f c); [by constructor |].
  destruct (Split f s) as [|w ws]; [repeat constructor; by rewrite ContainsFunc_cons, H |].
  apply Forall_cons in IH as [??]. constructor; [by rewrite ContainsFunc_cons, H | done].
Qed.

Lemma map_id_Forall {A} (f : A → A) l : Forall (λ x, f x = x) l → map f l = l.
Proof. induction 1; simpl; congruence. Qed.

(** Every byte of a reduced path is one of the path, a slash or a brace. *)
Lemma Join_bytes p ws sep :
  str_forallb p sep = true → Forall (λ w, str_forallb p w = true) ws →
  str_forallb p (Join ws sep) = true.
Proof.
  intros Hs. induction 1 as [|w ws Hw H IH]; [done |]. rewrite Join_cons.
  destruct ws; [done |]. by rewrite !str_forallb_app, Hw, Hs, IH.
Qed.

Lemma Split_bytes p f s :
  str_forallb p s = true → Forall (λ w, str_forallb p w = true) (Split f s).
Proof.
  intros H. eapply Forall_impl; [apply (ContainsFunc_Split f (λ c, negb (p c)) s) |].
  - apply ContainsFunc_false. revert H. apply str_forallb_impl. intros c. by destruct (p c).
  - simpl. intros w Hw. apply ContainsFunc_false in Hw. revert Hw.
    apply str_forallb_impl. intros c. by destruct (p c).
Qed.

Lemma ReducePath_Join path :
  ReducePath path = Join (map reduceSegment (SplitByte path "/")) "/".
Proof.
  unfold ReducePath. destruct (ContainsAny "{:<[*" path) eqn:E; [done |]. simpl.
  rewrite map_id_Forall; [symmetry; apply Join_Split |].
  eapply Forall_impl; [by apply ContainsFunc_Split |]. apply reduceSegment_literal.
Qed.

Lemma map_reduceSegment_no_slash ws :
  Forall (λ w, ContainsByte "/" w = false) ws →
  Forall (λ w, ContainsByte "/" w = false) (map reduceSegment ws).
Proof. intros H. apply Forall_map. eapply Forall_impl; [done |]. apply reduceSegment_no_slash. Qed.

Lemma SplitByte_ReducePath path :
  SplitByte (ReducePath path) "/" = map reduceSegment (SplitByte path "/").
Proof.
  rewrite ReducePath_Join. apply Split_Join.
  - intros H%map_eq_nil. by apply Split_not_nil in H.
  - apply map_reduceSegment_no_slash, SplitByte_pieces.
Qed.

Lemma ReducePath_again path :
  Forall (λ w, template_segment w = true) (SplitByte path "/") →
  ReducePath (ReducePath path) = ReducePath path.
Proof.
  intros H. rewrite (ReducePath_Join (ReducePath path)), SplitByte_ReducePath, ReducePath_Join.
  f_equal. rewrite map_map. apply map_ext_in. intros w Hw%list_elem_of_In.
  rewrite Forall_forall in H. by apply reduceSegment_idemp, H.
Qed.

Lemma ReducePath_bytes p path :
  p "{"%char = true → p "}"%char = true → p "/"%char = true →
  str_forallb p path = true → str_forallb p (ReducePath path) = true.
Proof.
  intros H1 H2 H3 H. rewrite ReducePath_Join. apply Join_bytes; [simpl; by rewrite H3 |].
  apply Forall_map. eapply Forall_impl; [by apply Split_bytes |].
  intros w. by apply reduceSegment_bytes.
Qed.

(** A reduced path keeps its ends: no slash is gained or lost at them. *)
Lemma Trim_ReducePath t :
  Forall (λ w, template_segment w = true) (SplitByte t "/") →
  Trim t "/" = t → Trim (ReducePath t) "/" = ReducePath t.
Proof.
  intros Hs Ht. rewrite ReducePath_Join.
  destruct (decide (t = "")) as [->|Hn]; [done |].
  destruct (Trim_Split_ends "/" t Ht Hn) as [Hh Hl].
  apply Trim_Join; [apply map_reduceSegment_no_slash, SplitByte_pieces | |].
  - destruct (SplitByte t "/") as [|w ws]; [done |]. simpl in *. intros [= E].
    apply Forall_cons in Hs as [Hw _]. revert E. apply reduceSegment_nonempty; [done | congruence].
  - intros E.
    destruct (last (SplitByte t "/")) as [w|] eqn:El; [|by apply last_None, Split_not_nil in El].
    assert (last (map reduceSegment (SplitByte t "/")) = Some (reduceSegment w)) as El'
      by (change (map ?f ?l) with (f <$> l); by rewrite fmap_last, El).
    rewrite El' in E. simplify_eq.
    rewrite Forall_forall in Hs. apply (reduceSegment_nonempty w); [|congruence|done].
    apply Hs. by apply last_Some_elem_of.
Qed.

Lemma ReducePath_slash t : ReducePath (String "/" t) = String "/" (ReducePath t).
Proof.
  rewrite !ReducePath_Join. change (String "/" t) with ("" +:+ String "/" t).
  unfold SplitByte. rewrite (Split_app (Ascii.eqb "/")) by done.
  pose proof (Split_not_nil (Ascii.eqb "/") t). by destruct (Split _ t).
Qed.

Lemma IsPathParam_cons c s :
  IsPathParam (String c s) =
  ContainsByte c "{:[<" || (String.eqb (String c s) "*" || String.eqb (String c s) "**").
Proof. unfold IsPathParam. by rewrite orb_assoc. Qed.

(** A reduced segment is a parameter exactly when the segment was one. *)
Lemma reduceSegment_IsPathParam s :
  template_segment s = true → IsPathParam (reduceSegment s) = IsPathParam s.
Proof.
  destruct s as [|c s]; [done |]. intros Ht.
  destruct (ContainsByte c ":<[") eqn:Ec.
  { unfold reduceSegment. rewrite Ec. simpl IsPathParam.
    assert (ContainsByte c "{:[<" = true) as ->; [|done]. revert Ec. clear. byte_cases c. }
  destruct (String.eqb (String c s) "*" || String.eqb (String c s) "**") eqn:E.
  { rewrite IsPathParam_cons, E, orb_true_r. unfold reduceSegment. by rewrite Ec, E. }
  destruct (ContainsByte "{" (String c s)) eqn:Eo.
  2: { unfold reduceSegment. by rewrite Ec, E, Eo. }
  rewrite (reduceSegment_plain c s Ec Eo). cbn [reduce_braces].
  destruct (Ascii.eqb_spec c "{") as [->|Hc]; [done |].
  destruct (Ascii.eqb_spec c "}") as [->|]; [by destruct s |].
  rewrite !IsPathParam_cons, E.
  assert (ContainsByte c "{:[<" = false) as ->.
  { revert Ec Hc. clear. byte_cases c. }
  rewrite orb_false_l. apply orb_false_iff.
  assert (ContainsByte "{" (reduce_braces 0 s) = true) as Hb.
  { apply reduce_braces_open. unfold ContainsByte in *.
    rewrite ContainsFunc_cons in Eo. apply orb_true_iff in Eo as [Eo|]; [|done].
    by apply Ascii.eqb_eq in Eo. }
  split; apply String.eqb_neq; intros [= -> E1]; by rewrite E1 in Hb.
Qed.

(** ** The canonical form of a route *)

(** The spellings of a path parameter the frameworks use. *)
Inductive param_syntax : string → Prop :=
  | param_colon n : param_syntax (String ":" n)
  | param_angle n : param_syntax (String "<" n)
  | param_bracket n : param_syntax (String "[" n)
  | param_brace n :
      ContainsAny "{}" n = false → param_syntax ("{" +:+ n +:+ "}")
  | param_star : param_syntax "*"
  | param_dstar : param_syntax "**".

(** Two spellings of one segment. *)
Definition same_segment (a b : string) : Prop :=
  a = b ∨ (param_syntax a ∧ param_syntax b).

Lemma reduce_braces_inside n r :
  ContainsAny "{}" n = false → reduce_braces 1 (n +:+ "}" +:+ r) = reduce_braces 0 r.
Proof.
  unfold ContainsAny. induction n as [|c n IH]; simpl; [done |].
  rewrite ContainsFunc_cons. intros H. bool_prop.
  assert (Ascii.eqb c "{" = false ∧ Ascii.eqb c "}" = false) as [-> ->].
  { rewrite !(Ascii.eqb_sym c). unfold ContainsByte in H.
    rewrite !ContainsFunc_cons in H. rewrite (Ascii.eqb_sym "{"), (Ascii.eqb_sym "}"). by bool_prop. }
  auto.
Qed.

Lemma reduceSegment_param s : param_syntax s → reduceSegment s = "{}".
Proof.
  destruct 1 as [| | |n Hn| |]; try done.
  simpl "+:+". rewrite reduceSegment_plain; [|done |].
  - change ("{}" +:+ reduce_braces 1 (n +:+ "}" +:+ "") = "{}").
    by rewrite (reduce_braces_inside n "" Hn).
  - unfold ContainsByte. by rewrite ContainsFunc_cons.
Qed.

Lemma reduceSegment_same a b : same_segment a b → reduceSegment a = reduceSegment b.
Proof. intros [->|[Ha Hb]]; [done |]. by rewrite !reduceSegment_param. Qed.

(** A byte a route may hold: no white space, query or fragment mark. *)
Definition route_byte (c : ascii) : bool := negb (space_byte c) && negb (ContainsByte c "?#").

Lemma TrimQuery_route s : str_forallb route_byte s = true → TrimQuery s = s.
Proof.
  intros H. unfold TrimQuery. rewrite Cut_none; [done |]. revert H.
  apply str_forallb_impl. by intros c [_ ?]%andb_true_iff.
Qed.

Lemma TrimSpace_route s : str_forallb route_byte s = true → TrimSpace s = s.
Proof.
  intros H. apply TrimFunc_none. revert H. apply str_forallb_impl.
  by intros c [? _]%andb_true_iff.
Qed.

Definition canonical_method (method : string) : string :=
  let method := ToUpper (TrimSpace method) in
  if String.eqb method "" then "ANY" else method.

Lemma HTTP_route method path :
  str_forallb route_byte path = true →
  HTTP method path
  = "http:" +:+ canonical_method method +:+ " " +:+ ReducePath (String "/" (Trim path "/")).
Proof. intros H. unfold HTTP. by rewrite (TrimSpace_route path H), TrimQuery_route. Qed.

(** A segment of a route: not empty, made of route bytes, none of them a slash. *)
Definition route_segment (w : string) : bool :=
  negb (String.eqb w "") && negb (ContainsByte "/" w) && str_forallb route_byte w.

Lemma route_segments_facts ws :
  Forall (λ w, route_segment w = true) ws →
  Forall (λ w, ContainsByte "/" w = false) ws ∧
  str_forallb route_byte (Join ws "/") = true ∧
  Trim (Join ws "/") "/" = Join ws "/".
Proof.
  intros H.
  assert (Forall (λ w, ContainsByte "/" w = false) ws) as Hs.
  { eapply Forall_impl; [done |]. unfold route_segment. intros w Hw. by bool_prop. }
  split; [done | split].
  - apply Join_bytes; [done |]. eapply Forall_impl; [exact H |].
    unfold route_segment. intros w Hw. by bool_prop.
  - apply Trim_Join; [done | |].
    + intros E. rewrite head_lookup in E. by apply (Forall_lookup_1 _ _ _ _ H) in E.
    + intros E. rewrite last_lookup in E. by apply (Forall_lookup_1 _ _ _ _ H) in E.
Qed.

Lemma HTTP_segments method lead tail ws :
  Forall (λ w, route_segment w = true) ws →
  str_forallb (Ascii.eqb "/") lead = true → str_forallb (Ascii.eqb "/") tail = true →
  HTTP method (lead +:+ Join ws "/" +:+ tail)
  = "http:" +:+ canonical_method method +:+ " /"
    +:+ match ws with [] => "" | _ => Join (map reduceSegment ws) "/" end.
Proof.
  intros Hws Hl Ht. destruct (route_segments_facts ws Hws) as (Hs & Hb & Htrim).
  assert (∀ s, str_forallb (Ascii.eqb "/") s = true → str_forallb route_byte s = true) as Hsl.
  { intros s. apply str_forallb_impl. intros c <-%Ascii.eqb_eq. done. }
  rewrite HTTP_route by (by rewrite !str_forallb_app, Hb, !Hsl).
  rewrite Trim_byte, TrimFunc_around, <- Trim_byte, Htrim by done.
  do 2 f_equal. destruct ws as [|w ws]; [done |].
  rewrite ReducePath_Join. change (String "/" ?s) with ("" +:+ String "/" s).
  unfold SplitByte. rewrite (Split_app (Ascii.eqb "/")) by done.
  rewrite Split_Join by done. simpl map. rewrite Join_cons. done.
Qed.

Lemma canonical_method_eq m m' :
  ToUpper (TrimSpace m) = ToUpper (TrimSpace m') → canonical_method m = canonical_method m'.
Proof. unfold canonical_method. by intros ->. Qed.

Lemma map_reduceSegment_same ws ws' :
  Forall2 same_segment ws ws' → map reduceSegment ws = map reduceSegment ws'.
Proof. induction 1; simpl; [done |]. f_equal; [by apply reduceSegment_same | done]. Qed.

Lemma canonical_method_again m : canonical_method (canonical_method m) = canonical_method m.
Proof.
  unfold canonical_method at 2 3. destruct (String.eqb_spec (ToUpper (TrimSpace m)) "") as [|H]; [done |].
  unfold canonical_method.
  assert (TrimSpace (ToUpper (TrimSpace m)) = ToUpper (TrimSpace m)) as ->.
  { unfold TrimSpace, ToUpper.
    assert (∀ s, TrimFunc space_byte (str_map upper_byte s) = str_map upper_byte (TrimFunc space_byte s)) as E.
    { intros s. unfold TrimFunc.
      assert (∀ s, TrimLeftFunc space_byte (str_map upper_byte s) = str_map upper_byte (TrimLeftFunc space_byte s)) as ->.
      { induction s0 as [|c s0 IH]; simpl; [done |]. rewrite upper_byte_space. by case_if. }
      generalize (TrimLeftFunc space_byte s). intros t. induction t as [|c t IH]; simpl; [done |].
      rewrite IH. destruct (TrimRightFunc space_byte t); simpl; [|done].
      rewrite upper_byte_space. by case_if. }
    by rewrite E, TrimFunc_idemp. }
  rewrite ToUpper_idemp. by destruct (String.eqb_spec (ToUpper (TrimSpace m)) "").
Qed.

(** A route's join key does not depend on how its framework spells path
    parameters, on the case or the spacing of its method, nor on the slashes
    around its path: two routes whose segments are equal, or are both
    parameters in any of the syntaxes [":id"], ["<id>"], ["[id]"], ["{id}"],
    ["*"] and ["**"], get one key. *)
Theorem HTTP_param_syntax m m' ws ws' lead lead' tail tail' :
  ToUpper (TrimSpace m) = ToUpper (TrimSpace m') →
  Forall (λ w, route_segment w = true) ws → Forall (λ w, route_segment w = true) ws' →
  Forall2 same_segment ws ws' →
  Forall (λ s, str_forallb (Ascii.eqb "/") s = true) [lead; lead'; tail; tail'] →
  HTTP m (lead +:+ Join ws "/" +:+ tail) = HTTP m' (lead' +:+ Join ws' "/" +:+ tail').
Proof.
  intros Hm Hw Hw' Hs Hsl. rewrite !Forall_cons in Hsl. destruct Hsl as (?&?&?&?&_).
  rewrite !HTTP_segments by done. do 2 f_equal; [by apply canonical_method_eq |].
  f_equal. rewrite (map_reduceSegment_same _ _ Hs). by destruct Hs.
Qed.

Lemma HTTP_param_syntax_witness :
  HTTP "get " "/pets/{petId}/visits/:visitId/" = HTTP "GET" "pets/<int:id>/visits/*".
Proof.
  apply (HTTP_param_syntax "get " "GET" ["pets"; "{petId}"; "visits"; ":visitId"]
           ["pets"; "<int:id>"; "visits"; "*"] "/" "" "/" "").
  - reflexivity.
  - by_forallb.
  - by_forallb.
  - constructor; [left; reflexivity |].
    constructor; [right; split; [exact (param_brace "petId" eq_refl) | exact (param_angle "int:id>")] |].
    constructor; [left; reflexivity |].
    constructor; [right; split; [exact (param_colon "visitId") | exact param_star] |].
    constructor.
  - by_forallb.
Defined.

(** Reducing a path is done once and for all. On every path whose segments
    do not open with a stray closing brace, a second reduction changes nothing,
    and every segment of the reduced path is judged a parameter exactly where
    the segment it came from is: the routes and calls that are compared segment
    by segment may be raw or reduced. *)
Theorem ReducePath_idempotent path :
  Forall (λ w, template_segment w = true) (SplitByte path "/") →
  ReducePath (ReducePath path) = ReducePath path ∧
  map IsPathParam (SplitByte (ReducePath path) "/") = map IsPathParam (SplitByte path "/").
Proof.
  intros H. split; [by apply ReducePath_again |].
  rewrite SplitByte_ReducePath, map_map. apply map_ext_in. intros w Hw%list_elem_of_In.
  rewrite Forall_forall in H. apply reduceSegment_IsPathParam. auto.
Qed.

Lemma ReducePath_idempotent_witness :
  ReducePath (ReducePath "/users/{id}N{tenant}/*") = ReducePath "/users/{id}N{tenant}/*" ∧
  map IsPathParam (SplitByte (ReducePath "/users/{id}N{tenant}/*") "/")
  = map IsPathParam (SplitByte "/users/{id}N{tenant}/*" "/").
Proof.
  apply ReducePath_idempotent. by_forallb.
Defined.

(** An HTTP key parses back to the route it names: for a one-word method
    and a path without white space, query or stray closing brace, [ParseHTTP] of
    the key gives the canonical method and the reduced path, and keying those
    again gives the same key. *)
Theorem ParseHTTP_HTTP m p :
  str_forallb (λ c, negb (Ascii.eqb " " c)) (canonical_method m) = true →
  str_forallb route_byte p = true →
  Forall (λ w, template_segment w = true) (SplitByte (Trim p "/") "/") →
  let p' := ReducePath (String "/" (Trim p "/")) in
  ParseHTTP (HTTP m p) = Some (canonical_method m, p') ∧
  HTTP (canonical_method m) p' = HTTP m p.
Proof.
  intros Hm Hp Ht. set (t := Trim p "/") in *. simpl.
  assert (Trim t "/" = t) as Htt by apply TrimFunc_idemp.
  assert (str_forallb route_byte t = true) as Htb by by apply TrimFunc_forallb.
  pose proof (ReducePath_slash t) as Hr.
  assert (str_forallb route_byte (ReducePath t) = true) as Hrb by by apply ReducePath_bytes.
  split.
  - rewrite HTTP_route by done. unfold ParseHTTP, cutPrefix.
    change (kind_prefix KindHTTP) with "http:". rewrite CutPrefix_app.
    change (" " +:+ ?s) with (String " " s). rewrite Cut_app by done.
    fold t. rewrite Hr, TrimQuery_route; [done |]. simpl. by rewrite Hrb.
  - rewrite !HTTP_route by (done || (rewrite Hr; simpl; by rewrite Hrb)).
    assert (Trim (String "/" (ReducePath t)) "/" = ReducePath t) as Ht'.
    { rewrite <- (Trim_ReducePath t) at 2 by done. rewrite !Trim_byte.
      pose proof (TrimFunc_around (Ascii.eqb "/") "/" (ReducePath t) "" eq_refl eq_refl) as E.
      by rewrite str_app_nil_r in E. }
    fold t. rewrite canonical_method_again, !Hr, Ht', ReducePath_slash. by rewrite ReducePath_again.
Qed.

Lemma ParseHTTP_HTTP_witness :
  ParseHTTP (HTTP "post" "/api/orders/:id/") = Some ("POST", "/api/orders/{}") ∧
  HTTP "POST" "/api/orders/{}" = HTTP "post" "/api/orders/:id/".
Proof.
  apply (ParseHTTP_HTTP "post" "/api/orders/:id/"); [reflexivity | reflexivity |].
  by_forallb.
Defined.
