(* ===== verification/ContractIdent.v ===== *)
(** * Keys, identifiers and signatures

    What the rest of [internal/contract] promises: keys that parse back
    ([contract.go]), identifier components that do not depend on the casing
    convention ([ident.go]), and signatures split without losing a byte. *)

From S2P Require Import Prelude GoStrings Contract.
From Stdlib Require Import Strings.Ascii.

(** ** Keys *)

Lemma IsKind_key k k' s : IsKind (kind_prefix k' +:+ s) k = bool_decide (k = k').
Proof. destruct k, k', s; reflexivity. Qed.

Lemma TrimKind_key k s : TrimKind (kind_prefix k +:+ s) k = s.
Proof. apply TrimPrefix_app. Qed.

(** ** Component runs *)

(** Bytes that never open a component: what follows the first letter of a word. *)
Definition tail_byte (c : ascii) : bool := is_lower_byte c || is_digit_byte c.

Lemma tail_byte_facts c :
  tail_byte c = true → Ascii.eqb c "_" = false ∧ is_upper_byte c = false ∧
                       lower_byte c = c ∧ IsWordByte c = true.
Proof. byte_cases c; auto. Qed.

Lemma upper_byte_facts c :
  is_upper_byte c = true → Ascii.eqb c "_" = false ∧ is_lower_byte c = false ∧
                           IsWordByte c = true.
Proof. byte_cases c; auto. Qed.

Lemma lower_byte_facts c :
  is_lower_byte c = true → is_upper_byte (upper_byte c) = true ∧
                           lower_byte (upper_byte c) = c ∧ tail_byte c = true.
Proof. byte_cases c; auto. Qed.

Lemma tail_not_upper c : tail_byte c = true → is_upper_byte c = false.
Proof. intros H. by apply tail_byte_facts in H as (_ & -> & _). Qed.

(** A run of tail bytes extends the component being read. *)
Lemma split_components_tail prev cur w rest :
  str_forallb tail_byte w = true →
  ∃ p, split_components prev cur (w +:+ rest) = split_components p (cur +:+ w) rest ∧
       (w = "" → p = prev) ∧ (w ≠ "" → ∃ c, p = Some c ∧ is_upper_byte c = false).
Proof.
  revert prev cur. induction w as [|c w IH]; intros prev cur Hw; simpl.
  - exists prev. by rewrite str_app_nil_r.
  - simpl in Hw. bool_prop. destruct (tail_byte_facts c H) as (-> & Hu & _ & _).
    assert ((match prev with
             | Some p => is_upper_byte c && (negb (is_upper_byte p) || next_is_lower (w +:+ rest))
             | None => false end) = false) as -> by (destruct prev; by rewrite ?Hu).
    destruct (IH (Some c) (cur +:+ String c "") H0) as (p & -> & Hp & Hp').
    exists p. rewrite str_app_assoc. split; [done |]. split; [done |]. intros _.
    destruct (decide (w = "")) as [->|Hw]; [rewrite Hp by done; eauto | auto].
Qed.

(** A run of capitals that ends at no lower-case letter does too. *)
Lemma split_components_upper a p cur rest :
  str_forallb is_upper_byte a = true → is_upper_byte p = true → next_is_lower rest = false →
  ∃ q, split_components (Some p) cur (a +:+ rest) = split_components (Some q) (cur +:+ a) rest ∧
       is_upper_byte q = true.
Proof.
  intros Ha Hp Hr. revert p cur Hp. induction a as [|c a IH]; intros p cur Hp; simpl.
  - exists p. by rewrite str_app_nil_r.
  - simpl in Ha. bool_prop. destruct (upper_byte_facts c H) as (-> & _ & _).
    rewrite Hp, H. simpl.
    assert (next_is_lower (a +:+ rest) = false) as ->.
    { destruct a as [|d a]; [done |]. simpl in *. bool_prop.
      by apply upper_byte_facts in H0 as (_ & -> & _). }
    destruct (IH H0 c (cur +:+ String c "") H) as (q & -> & ?).
    exists q. by rewrite str_app_assoc.
Qed.

(** ** Words and the conventions that spell them *)

(** A word: at least two lower-case letters, then digits. *)
Definition is_word (w : string) : Prop :=
  ∃ a d, w = a +:+ d ∧ str_forallb is_lower_byte a = true ∧ 2 ≤ String.length a ∧
         str_forallb is_digit_byte d = true.

Definition Capital (w : string) : string :=
  match w with "" => "" | String c r => String (upper_byte c) r end.

Definition snake (ws : list string) : string := Join ws "_".
Definition upper_snake (ws : list string) : string := ToUpper (snake ws).
Definition pascal (ws : list string) : string := Join (map Capital ws) "".
Definition camel (ws : list string) : string :=
  match ws with [] => "" | w :: ws => w +:+ pascal ws end.

Lemma is_word_cons w : is_word w → ∃ c r, w = String c r ∧ is_lower_byte c = true ∧ r ≠ "" ∧
  str_forallb tail_byte w = true.
Proof.
  intros (a & d & -> & Ha & Hl & Hd). destruct a as [|c [|c' a]]; simpl in Hl; [lia | lia |].
  simpl in Ha. bool_prop. exists c, (String c' (a +:+ d)).
  assert (str_forallb tail_byte (a +:+ d) = true) as Ht.
  { rewrite str_forallb_app. apply andb_true_iff; split.
    - revert H1. apply str_forallb_impl. unfold tail_byte. by intros e ->.
    - revert Hd. apply str_forallb_impl. unfold tail_byte. intros e ->. apply orb_true_r. }
  repeat split; try done. simpl. rewrite Ht. unfold tail_byte. by rewrite H, H0.
Qed.

Lemma ToLower_tail w : str_forallb tail_byte w = true → ToLower w = w.
Proof. intros H. apply (str_map_id _ tail_byte); [done |]. intros c Hc. by apply tail_byte_facts. Qed.

Lemma ToLower_Capital w : is_word w → ToLower (Capital w) = w.
Proof.
  intros (c & r & -> & Hc & _ & Ht)%is_word_cons. simpl in *. bool_prop.
  apply lower_byte_facts in Hc as (_ & E & _).
  unfold ToLower in *. simpl. rewrite E. f_equal. by apply ToLower_tail.
Qed.

Lemma flush_nonempty cur : cur ≠ "" → flush_component cur = [ToLower cur].
Proof. unfold flush_component. by destruct (String.eqb_spec cur ""). Qed.

Lemma split_components_under p cur rest :
  split_components p cur (String "_" rest)
  = flush_component cur ++ split_components (Some "_"%char) "" rest.
Proof. done. Qed.

Lemma snake_cons w ws : snake (w :: ws) = match ws with [] => w | _ => w +:+ String "_" (snake ws) end.
Proof. by destruct ws. Qed.

Lemma split_components_snake prev ws :
  Forall is_word ws → split_components prev "" (snake ws) = ws.
Proof.
  intros H. revert prev. induction H as [|w ws Hw H IH]; intros prev; [done |].
  apply is_word_cons in Hw as (c & r & -> & Hc & _ & Ht). rewrite snake_cons.
  destruct ws as [|w' ws].
  - rewrite <- (str_app_nil_r (String c r)) at 1.
    destruct (split_components_tail prev "" (String c r) "" Ht) as (p & -> & _).
    simpl split_components. by rewrite flush_nonempty, ToLower_tail.
  - destruct (split_components_tail prev "" (String c r) (String "_" (snake (w' :: ws))) Ht) as (p & -> & _).
    rewrite split_components_under, IH, flush_nonempty, ToLower_tail by done. done.
Qed.

Lemma pascal_cons w ws : pascal (w :: ws) = Capital w +:+ pascal ws.
Proof. unfold pascal. simpl map. rewrite Join_cons. destruct ws; simpl; [by rewrite str_app_nil_r | done]. Qed.

Lemma split_components_pascal_body c r ws rest cur :
  String.eqb r "" = false → str_forallb tail_byte r = true →
  (∀ p cur, is_upper_byte p = false → split_components (Some p) cur rest = flush_component cur ++ ws) →
  split_components (Some c) cur (r +:+ rest) = flush_component (cur +:+ r) ++ ws.
Proof.
  intros Hr Ht IH. bool_prop.
  destruct (split_components_tail (Some c) cur r rest Ht) as (p & -> & _ & Hp).
  destruct (Hp Hr) as (p' & -> & Hp'). by apply IH.
Qed.

Lemma split_components_pascal ws :
  Forall is_word ws → ∀ p cur, is_upper_byte p = false →
  split_components (Some p) cur (pascal ws) = flush_component cur ++ ws.
Proof.
  intros H. induction H as [|w ws Hw H IH]; intros p cur Hp; [simpl; by rewrite app_nil_r |].
  rewrite pascal_cons. pose proof (ToLower_Capital w Hw) as Hl.
  apply is_word_cons in Hw as (c & r & -> & Hc & Hr & Ht). simpl in Ht. bool_prop.
  destruct (lower_byte_facts c Hc) as (Hu & _ & _).
  destruct (upper_byte_facts _ Hu) as (E & _ & _).
  simpl. rewrite E, Hu, Hp. simpl. f_equal.
  apply String.eqb_neq in Hr.
  rewrite (split_components_pascal_body (upper_byte c) r ws (pascal ws) _ Hr) by done.
  rewrite flush_nonempty by done. simpl in *. by rewrite Hl.
Qed.

Lemma splitComponents_pascal ws : Forall is_word ws → splitComponents (pascal ws) = ws.
Proof.
  intros H. destruct H as [|w ws Hw H]; [done |]. rewrite pascal_cons.
  pose proof (ToLower_Capital w Hw) as Hl.
  apply is_word_cons in Hw as (c & r & -> & Hc & Hr & Ht). simpl in Ht. bool_prop.
  destruct (lower_byte_facts c Hc) as (Hu & _ & _).
  destruct (upper_byte_facts _ Hu) as (E & _ & _).
  unfold splitComponents. simpl. rewrite E. apply String.eqb_neq in Hr.
  rewrite (split_components_pascal_body (upper_byte c) r ws (pascal ws) _ Hr); [|done|].
  - rewrite flush_nonempty by done. simpl in *. by rewrite Hl.
  - by apply split_components_pascal.
Qed.

Lemma splitComponents_camel ws : Forall is_word ws → splitComponents (camel ws) = ws.
Proof.
  intros H. destruct H as [|w ws Hw H]; [done |].
  apply is_word_cons in Hw as (c & r & -> & Hc & Hr & Ht).
  unfold splitComponents, camel.
  destruct (split_components_tail None "" (String c r) (pascal ws) Ht) as (p & -> & _ & Hp).
  destruct Hp as (p' & -> & Hp'); [done |].
  rewrite split_components_pascal, flush_nonempty, ToLower_tail by done. done.
Qed.

Lemma ToUpper_digits d : str_forallb is_digit_byte d = true → ToUpper d = d.
Proof. intros H. apply (str_map_id _ is_digit_byte); [done |]. intros c. byte_cases c. Qed.

Lemma ToUpper_letters a : str_forallb is_lower_byte a = true → str_forallb is_upper_byte (ToUpper a) = true.
Proof.
  intros H. unfold ToUpper. rewrite str_forallb_map. revert H. apply str_forallb_impl.
  intros c Hc. by apply lower_byte_facts.
Qed.

Lemma digits_tail d : str_forallb is_digit_byte d = true → str_forallb tail_byte d = true.
Proof. apply str_forallb_impl. unfold tail_byte. intros c ->. apply orb_true_r. Qed.

(** One word in capitals, before the end or an underscore. *)
Lemma split_components_UPPER prev w rest :
  is_word w → (prev = None ∨ prev = Some "_"%char) →
  (rest = "" ∨ ∃ r, rest = String "_" r) →
  ∃ p, split_components prev "" (ToUpper w +:+ rest) = split_components p (ToUpper w) rest.
Proof.
  intros (a & d & -> & Ha & Hl & Hd) Hp Hr. pose proof (ToUpper_letters a Ha) as HA.
  unfold ToUpper in *. rewrite str_map_app. fold (ToUpper d). rewrite (ToUpper_digits d Hd).
  destruct a as [|c a]; [simpl in Hl; lia |]. simpl in HA. bool_prop.
  destruct (upper_byte_facts _ H) as (E & _ & _).
  rewrite str_app_assoc. simpl. rewrite E.
  assert (next_is_lower (d +:+ rest) = false) as Hn.
  { destruct d as [|e d]; simpl in *; [by destruct Hr as [->|[r ->]] |].
    bool_prop. revert H1. clear. byte_cases e. }
  destruct (split_components_upper (str_map upper_byte a) (upper_byte c) (String (upper_byte c) "") (d +:+ rest) H0 H Hn)
    as (q & Hq & _).
  destruct (split_components_tail (Some q) (String (upper_byte c) "" +:+ str_map upper_byte a) d rest (digits_tail d Hd))
    as (p & Hp' & _).
  exists p. rewrite Hq, Hp'. rewrite str_app_assoc. by destruct Hp as [->| ->]; [|case_if].
Qed.

Lemma split_components_upper_snake ws :
  Forall is_word ws → ∀ prev, (prev = None ∨ prev = Some "_"%char) →
  split_components prev "" (upper_snake ws) = ws.
Proof.
  intros H. unfold upper_snake. induction H as [|w ws Hw H IH]; intros prev Hp; [done |].
  assert (ToLower (ToUpper w) = w ∧ ToUpper w ≠ "") as [Hl Hn].
  { apply is_word_cons in Hw as (c & r & -> & Hc & _ & Ht). split; [|done].
    rewrite ToLower_ToUpper. by apply ToLower_tail. }
  rewrite snake_cons. destruct ws as [|w' ws].
  - rewrite <- (str_app_nil_r (ToUpper w)).
    destruct (split_components_UPPER prev w "" Hw Hp) as [p ->]; [by left |].
    simpl. by rewrite flush_nonempty, Hl.
  - unfold ToUpper at 1. rewrite str_map_app. fold (ToUpper w). simpl str_map.
    fold (ToUpper (snake (w' :: ws))). change (upper_byte "_") with "_"%char.
    destruct (split_components_UPPER prev w (String "_" (ToUpper (snake (w' :: ws)))) Hw Hp) as [p ->]; [by eauto |].
    rewrite split_components_under, IH, flush_nonempty, Hl by auto. done.
Qed.

(** ** Conventions as identifiers *)

Lemma IdentTokens_word s :
  s ≠ "" → str_forallb IsWordByte s = true → IdentTokens s = [s].
Proof.
  intros Hn H. unfold IdentTokens, FieldsFunc. rewrite Split_none.
  - by rewrite filter_cons_True.
  - revert H. apply str_forallb_impl. intros c ->. done.
Qed.

Lemma WordComponents_word s :
  s ≠ "" → str_forallb IsWordByte s = true → WordComponents s = splitComponents s.
Proof.
  intros Hn H. unfold WordComponents, TokenComponents. rewrite IdentTokens_word by done.
  simpl. destruct (splitComponents s) as [|c cs] eqn:E; [done |].
  rewrite filter_cons_True by done. simpl. by rewrite app_nil_r.
Qed.

(** The four conventions, each a way to write a list of words as one identifier. *)
Inductive convention := Snake | UpperSnake | Pascal | Camel.

Definition spell (k : convention) : list string → string :=
  match k with Snake => snake | UpperSnake => upper_snake | Pascal => pascal | Camel => camel end.

Lemma splitComponents_spell k ws : Forall is_word ws → splitComponents (spell k ws) = ws.
Proof.
  intros H. destruct k; simpl.
  - by apply split_components_snake.
  - apply split_components_upper_snake; auto.
  - by apply splitComponents_pascal.
  - by apply splitComponents_camel.
Qed.

(** What a word is made of survives every convention. *)
Lemma spell_bytes p k ws :
  p "_"%char = true → (∀ c, p c = true → p (upper_byte c) = true) →
  Forall (λ w, str_forallb p w = true) ws → str_forallb p (spell k ws) = true.
Proof.
  intros Hu Hup H.
  assert (∀ w, str_forallb p w = true → str_forallb p (Capital w) = true) as HC.
  { intros [|c w]; simpl; [done |]. intros Hw. bool_prop. by rewrite Hup, H1. }
  assert (∀ ws, Forall (λ w, str_forallb p w = true) ws → str_forallb p (pascal ws) = true) as HP.
  { induction 1 as [|w l Hw Hl IH]; [done |]. by rewrite pascal_cons, str_forallb_app, HC, IH. }
  assert (str_forallb p (snake ws) = true) as HS.
  { clear HP HC. induction H as [|w l Hw Hl IH]; [done |]. rewrite snake_cons.
    destruct l; [done |]. rewrite str_forallb_app, Hw. simpl. by rewrite Hu, IH. }
  destruct k; simpl; [done | | auto |].
  - unfold upper_snake, ToUpper. rewrite str_forallb_map. revert HS. by apply str_forallb_impl.
  - destruct H; [done |]. simpl. by rewrite str_forallb_app, H, HP.
Qed.

Definition ident_byte (c : ascii) : bool := Ascii.eqb c "_" || is_lower_byte c || is_upper_byte c || is_digit_byte c.

Lemma ident_byte_upper c : ident_byte c = true → ident_byte (upper_byte c) = true.
Proof. byte_cases c. Qed.

Lemma ident_byte_plain c :
  ident_byte c = true →
  IsWordByte c = true ∧ space_byte c = false ∧ ContainsByte c "*&" = false ∧ Ascii.eqb "." c = false.
Proof. byte_cases c; auto. Qed.

Lemma words_bytes ws :
  Forall is_word ws → Forall (λ w, str_forallb ident_byte w = true) ws.
Proof.
  intros H. eapply Forall_impl; [exact H |]. intros w (c & r & _ & _ & _ & Ht)%is_word_cons.
  revert Ht. apply str_forallb_impl. intros e. byte_cases e.
Qed.

Lemma spell_ident k ws : Forall is_word ws → str_forallb ident_byte (spell k ws) = true.
Proof. intros H. apply spell_bytes; [done | apply ident_byte_upper | by apply words_bytes]. Qed.

Lemma spell_empty k ws : Forall is_word ws → spell k ws = "" → ws = [].
Proof. intros H E. pose proof (splitComponents_spell k ws H) as Hs. by rewrite E in Hs. Qed.

Lemma WordComponents_spell k ws : Forall is_word ws → WordComponents (spell k ws) = ws.
Proof.
  intros H. destruct (decide (spell k ws = "")) as [E|E].
  { rewrite E. by apply spell_empty in E as ->. }
  rewrite WordComponents_word, splitComponents_spell; try done.
  pose proof (spell_ident k ws H) as Hb. revert Hb. apply str_forallb_impl.
  intros c Hc. by apply ident_byte_plain.
Qed.

(** The tail of [TableName], once the entity has its components. *)
Definition pluralize (s : string) : string :=
  if String.eqb s "" then ""
  else if HasSuffix s "s" || HasSuffix s "x" || HasSuffix s "z"
          || HasSuffix s "ch" || HasSuffix s "sh" then s +:+ "es"
  else
    match (if HasSuffix s "y" then byte_before_last s else None) with
    | Some b => if negb (isVowel b) then TrimSuffix s "y" +:+ "ies" else s +:+ "s"
    | None => s +:+ "s"
    end.

Lemma TableName_ident s :
  str_forallb ident_byte s = true → TableName s = pluralize (Join (WordComponents s) "_").
Proof.
  intros H. unfold TableName, pluralize.
  assert (TrimLeft (TrimSpace s) "*&" = s) as ->.
  { unfold TrimSpace. rewrite TrimFunc_none.
    - apply TrimLeftFunc_id. intros c r ->. simpl in H. bool_prop. by apply ident_byte_plain.
    - revert H. apply str_forallb_impl. intros c Hc. apply ident_byte_plain in Hc as (_ & -> & _). done. }
  rewrite CutLast_none; [done |]. revert H. apply str_forallb_impl.
  intros c Hc. apply ident_byte_plain in Hc as (_ & _ & _ & ->). done.
Qed.

(** ** Components *)

Lemma flush_component_nonempty cur : Forall (λ w, w ≠ "") (flush_component cur).
Proof.
  unfold flush_component. destruct (String.eqb_spec cur ""); constructor; [|constructor].
  by destruct cur.
Qed.

Lemma split_components_nonempty prev cur s : Forall (λ w, w ≠ "") (split_components prev cur s).
Proof.
  revert prev cur. induction s as [|c s IH]; intros prev cur; simpl.
  - apply flush_component_nonempty.
  - repeat case_if; rewrite ?Forall_app; auto using flush_component_nonempty.
Qed.

(** No component is empty. *)
Lemma WordComponents_nonempty s : Forall (λ w, w ≠ "") (WordComponents s).
Proof.
  unfold WordComponents, TokenComponents. apply Forall_concat.
  apply list.Forall_forall. intros cs Hcs. apply list_elem_of_filter in Hcs as [_ Hcs].
  apply list_elem_of_In, in_map_iff in Hcs as (t & <- & _). apply split_components_nonempty.
Qed.

Lemma hasComponentSuffix_spec seq suffix :
  hasComponentSuffix seq suffix = true ↔ suffix ≠ [] ∧ ∃ p, seq = p ++ suffix.
Proof.
  unfold hasComponentSuffix. destruct suffix as [|c suffix]; simpl; [naive_solver |].
  destruct (Nat.ltb_spec (length seq) (S (length suffix))) as [H|H].
  - split; [done |]. intros (_ & p & ->). rewrite length_app in H. simpl in H. lia.
  - rewrite bool_decide_eq_true. split.
    + intros E. split; [done |]. exists (take (length seq - S (length suffix)) seq).
      by rewrite <- E, take_drop.
    + intros (_ & p & ->). rewrite length_app. simpl.
      rewrite Nat.add_sub. by rewrite drop_app_length.
Qed.

Lemma hasComponentSuffix_last seq suffix :
  hasComponentSuffix seq suffix = true → last seq = last suffix ∧ is_Some (last suffix).
Proof.
  intros [Hn [p ->]]%hasComponentSuffix_spec. rewrite last_app.
  destruct (last suffix) eqn:E; [by eauto |]. by apply last_None in E.
Qed.

(** ** Properties *)

(** The keys of contracts parse back and never collide: each kind's parser
    gives back what its constructor was given, a gRPC key whose method has a
    slash apart, and a key is of exactly one kind. *)
Theorem key_roundtrips service method s :
  ContainsByte "/" method = false → method ≠ "" →
  ParseGRPC (GRPC service method) = (service, method, true) ∧
  ParseTopic (Topic s) = Some s ∧ ParseTopicRef (TopicRef s) = Some s ∧
  ParseDB (DB s) = Some s ∧ ParseConfig (Config s) = Some s ∧
  ∀ k k', IsKind (kind_prefix k +:+ s) k' = bool_decide (k' = k) ∧
          TrimKind (kind_prefix k +:+ s) k = s.
Proof.
  intros Hm Hn. repeat split.
  - unfold ParseGRPC, GRPC, cutPrefix.
    change (kind_string KindGRPC +:+ ":" +:+ ?x) with (kind_prefix KindGRPC +:+ x).
    rewrite CutPrefix_app. change ("/" +:+ method) with (String "/" method).
    rewrite CutLast_app by (done || by apply ContainsFunc_false).
    by destruct (String.eqb_spec method "").
  - apply (CutPrefix_app (kind_prefix KindTopic) s).
  - unfold ParseTopicRef, TopicRef.
    rewrite HasPrefix_app, TrimPrefix_app, TrimSuffix_app, <- str_app_assoc, HasSuffix_app. done.
  - apply (CutPrefix_app (kind_prefix KindDB) s).
  - apply (CutPrefix_app (kind_prefix KindConfig) s).
  - apply IsKind_key.
  - apply TrimKind_key.
Qed.

Lemma key_roundtrips_witness :
  ParseGRPC (GRPC "orders.v1.OrderService" "GetOrder") = ("orders.v1.OrderService", "GetOrder", true)
  ∧ ParseTopicRef (TopicRef "kafka.topic") = Some "kafka.topic".
Proof.
  split.
  - apply (key_roundtrips "orders.v1.OrderService" "GetOrder" ""); [reflexivity | discriminate].
  - apply (key_roundtrips "s" "M" "kafka.topic"); [reflexivity | discriminate].
Defined.

(** The vocabulary both sides of a join agree on: an identifier gives the
    same components in snake_case, UPPER_SNAKE_CASE, PascalCase and camelCase,
    namely its words, so an entity maps to one table name however its language
    spells it. *)
Theorem components_of_any_convention k ws :
  Forall is_word ws →
  WordComponents (spell k ws) = ws ∧
  TableName (spell k ws) = pluralize (snake ws) ∧
  ∀ k', TableName (spell k' ws) = TableName (spell k ws).
Proof.
  intros H.
  assert (∀ k, TableName (spell k ws) = pluralize (snake ws)) as HT.
  { intros k0. by rewrite TableName_ident, WordComponents_spell by (done || by apply spell_ident). }
  split; [by apply WordComponents_spell |]. split; [done |]. intros k'. by rewrite !HT.
Qed.

Lemma components_of_any_convention_witness :
  WordComponents "OrderItem2Repo" = ["order"; "item2"; "repo"] ∧
  TableName "ORDER_ITEM2_REPO" = TableName "OrderItem2Repo".
Proof.
  assert (Forall is_word ["order"; "item2"; "repo"]) as H.
  { repeat constructor; [exists "order", "" | exists "item", "2" | exists "repo", ""]; vm_compute;
      repeat split; repeat constructor. }
  split; [apply (components_of_any_convention Pascal _ H) |].
  apply (components_of_any_convention Pascal _ H) with (k' := UpperSnake).
Defined.

(** ** Splitting a signature *)

(** What reading [c] does to the pieces of what follows: it joins the first one. *)
Definition keep_byte (c : ascii) (ws : list string) : list string :=
  match ws with [] => [String c ""] | w :: l => String c w :: l end.

(** One step of the scan: a byte is kept, or it is a separator at depth zero. *)
Lemma split_top_step sep prev d a c r :
  (∃ d' a', split_top sep prev d a (String c r)
            = keep_byte c (split_top sep (Some c) d' a' r)) ∨
  (c = sep ∧ split_top sep prev d a (String c r) = "" :: split_top sep (Some c) d a r).
Proof.
  cbn [split_top].
  destruct (ContainsByte c "([{"); [left; exists (d + 1)%Z, a; reflexivity |].
  destruct (ContainsByte c ")]}"); [left; exists (d - 1)%Z, a; reflexivity |].
  destruct (Ascii.eqb c "<").
  { left. destruct prev as [p|]; [|exists d, a; reflexivity].
    destruct r as [|n r]; [exists d, a; reflexivity |].
    destruct (_ && _ && _); [exists d, (a + 1)%Z | exists d, a]; reflexivity. }
  destruct (Ascii.eqb c ">");
    [left; eexists d, (if (0 <? a)%Z then (a - 1)%Z else a); reflexivity |].
  destruct (Ascii.eqb_spec c sep); [|left; exists d, a; reflexivity].
  destruct (_ && _); [by right | left; exists d, a; reflexivity].
Qed.

Lemma split_top_not_nil sep prev d a s : split_top sep prev d a s ≠ [].
Proof.
  destruct s as [|c s]; [done |].
  destruct (split_top_step sep prev d a c s) as [(d' & a' & ->)|[_ ->]]; [|done].
  by destruct (split_top _ _ _ _ _).
Qed.

Lemma Join_keep_byte c ws sep : Join (keep_byte c ws) sep = String c (Join ws sep).
Proof. destruct ws as [|w ws]; [done |]. unfold keep_byte. rewrite !Join_cons. by destruct ws. Qed.

Lemma Join_split_top sep prev d a s : Join (split_top sep prev d a s) (String sep "") = s.
Proof.
  revert prev d a. induction s as [|c s IH]; intros prev d a; [done |].
  destruct (split_top_step sep prev d a c s) as [(d' & a' & ->)|[-> ->]].
  - by rewrite Join_keep_byte, IH.
  - rewrite Join_cons. specialize (IH (Some sep) d a).
    pose proof (split_top_not_nil sep (Some sep) d a s).
    destruct (split_top _ _ _ _ s); [done |]. by rewrite IH.
Qed.

(** A text that opens no bracket is split at every separator. *)
Lemma split_top_flat sep prev s :
  ContainsByte sep "([{)]}<>" = false → ContainsAny "([{)]}<>" s = false →
  split_top sep prev 0 0 s = SplitByte s sep.
Proof.
  intros Hsep. unfold SplitByte, ContainsAny. revert prev.
  induction s as [|c s IH]; intros prev; [done |].
  rewrite ContainsFunc_cons. intros H. bool_prop.
  assert (ContainsByte c "([{" = false ∧ ContainsByte c ")]}" = false ∧
          Ascii.eqb c "<" = false ∧ Ascii.eqb c ">" = false) as (E1 & E2 & E3 & E4).
  { revert H. clear. byte_cases c; auto. }
  cbn [split_top Split]. rewrite E1, E2, E3, E4, (Ascii.eqb_sym sep c), !IH by done.
  by destruct (Ascii.eqb c sep).
Qed.

(** A signature split at its top level loses nothing: joining the parts
    with the separator gives back the text, so no parameter is dropped or
    merged silently, and where there is no bracket the parts are exactly those
    of [strings.Split]. *)
Theorem SplitTopLevel_lossless s sep :
  Join (SplitTopLevel s sep) (String sep "") = s ∧ SplitTopLevel s sep ≠ [] ∧
  (ContainsByte sep "([{)]}<>" = false → ContainsAny "([{)]}<>" s = false →
   SplitTopLevel s sep = SplitByte s sep).
Proof.
  split; [apply Join_split_top |]. split; [apply split_top_not_nil |].
  by apply split_top_flat.
Qed.

Lemma SplitTopLevel_lossless_witness : SplitTopLevel "int a, int b" "," = ["int a"; " int b"].
Proof.
  destruct (SplitTopLevel_lossless "int a, int b" ",") as (_ & _ & H).
  rewrite H; [reflexivity | reflexivity | reflexivity].
Defined.
