(* ===== verification/Match.v ===== *)
(** * Matching edges to units ([internal/graph/linker.go])

    The indexes the linker builds once per run and the lookups it makes in them:
    config keys, call receivers, RPC methods, HTTP routes and tables.  Each lookup
    is a bucket of an index plus a scan of the bucket; the theorems say what a
    full scan of the units would have said. *)

From S2P Require Import Prelude GoStrings GoSort GoFloat Domain Contract.
From Stdlib Require Import Strings.Ascii.

(** ** Ordering candidates *)

(** [beforeInFile] *)
Definition beforeInFile : ASTUnit → ASTUnit → bool :=
  then_by u_StartLine (then_by u_StartByte (then_by u_Kind (then_by u_Name tie))).

(** The comparator of [sortUnits]. *)
Definition unit_less : ASTUnit → ASTUnit → bool :=
  then_by u_RepoID (then_by u_Qualified (then_by u_FilePath beforeInFile)).

Definition sortUnits : list ASTUnit → list ASTUnit := SliceSort unit_less.

(** [firstInFile] *)
Definition firstInFile (cands : list ASTUnit) (filePath : string) : option ASTUnit :=
  if String.eqb filePath "" then None
  else List.find (λ c, String.eqb (u_FilePath c) filePath) cands.

(** ** Config keys *)

Definition configNoMatch : Z := 0.
Definition configLeafMatch : Z := 1.
Definition configPathMatch : Z := 2.
Definition minLeafComponents : nat := 2.

Record indexedConfigKey := { k_unit : ASTUnit; k_path : list string; k_leaf : list string }.

(** The components [buildConfigIndex] gives one unit. *)
Definition index_key (u : ASTUnit) : indexedConfigKey := {|
  k_unit := u;
  k_path := WordComponents (TrimKind (u_Qualified u) KindConfig);
  k_leaf := WordComponents (u_Name u)
|}.

Abbreviation configIndex := (gmap string (list indexedConfigKey)).

(** One turn of the loop of [buildConfigIndex]. *)
Definition index_config_unit (idx : configIndex) (u : ASTUnit) : configIndex :=
  let k := index_key u in
  let '(pathLast, idx) :=
    match last (k_path k) with
    | Some l => (l, push l k idx)
    | None => ("", idx)
    end in
  if minLeafComponents <=? length (k_leaf k) then
    match last (k_leaf k) with
    | Some leafLast => if String.eqb leafLast pathLast then idx else push leafLast k idx
    | None => idx
    end
  else idx.

Definition buildConfigIndex (units : list ASTUnit) : configIndex :=
  foldl index_config_unit ∅ units.

(** [configMatchTier] *)
Definition configMatchTier (k : indexedConfigKey) (refComps : list string) : Z :=
  if hasComponentSuffix (k_path k) refComps then configPathMatch
  else if (minLeafComponents <=? length (k_leaf k)) && hasComponentSuffix refComps (k_leaf k)
  then configLeafMatch
  else configNoMatch.

Definition config_score (k : indexedConfigKey) (refComps : list string) (repoID : string) : Z :=
  configMatchTier k refComps * 2 + (if String.eqb (u_RepoID (k_unit k)) repoID then 1 else 0).

(** One turn of the loop of [matchConfigKeyIndexed]: the best unit so far and
    its score. *)
Definition config_step (refComps : list string) (repoID : string)
    (st : option ASTUnit * Z) (k : indexedConfigKey) : option ASTUnit * Z :=
  let '(best, bestScore) := st in
  if (configMatchTier k refComps =? configNoMatch)%Z then st
  else
    let score := config_score k refComps repoID in
    let wins :=
      (bestScore <? score)%Z ||
      ((score =? bestScore)%Z &&
       match best with
       | Some b => String.ltb (u_Qualified (k_unit k)) (u_Qualified b)
       | None => false
       end) in
    if wins then (Some (k_unit k), score) else st.

(** [matchConfigKeyIndexed] *)
Definition matchConfigKeyIndexed (idx : configIndex) (ref repoID : string) : string :=
  let refComps := WordComponents ref in
  match last refComps with
  | None => ""
  | Some l =>
      match fst (foldl (config_step refComps repoID) (None, 0%Z) (bucket idx l)) with
      | None => ""
      | Some best => u_Signature best
      end
  end.

(** [matchConfigKey] *)
Definition matchConfigKey (keys : list ASTUnit) (ref repoID : string) : string :=
  matchConfigKeyIndexed (buildConfigIndex keys) ref repoID.

(** ** Call receivers *)

(** The memo tables of [unitComponents]. *)
Record unitComponents := {
  c_qualified : gmap string (list string);
  c_byTail : gmap string (gmap string (list ASTUnit));
}.
Definition newUnitComponents : unitComponents := {| c_qualified := ∅; c_byTail := ∅ |}.

(** The owner path of a unit, computed. *)
Definition owner_path (u : ASTUnit) : list string :=
  let qual := WordComponents (u_Qualified u) in
  let own := length (WordComponents (u_Name u)) in
  if own <? length qual then take (length qual - own) qual else [].

(** [unitComponents.owner] *)
Definition owner (c : unitComponents) (u : ASTUnit) : unitComponents * list string :=
  match c_qualified c !! u_ID u with
  | Some comps => (c, comps)
  | None =>
      let comps := owner_path u in
      ({| c_qualified := <[u_ID u := comps]> (c_qualified c); c_byTail := c_byTail c |}, comps)
  end.

(** The loop of [ownedBy] that indexes the candidates of a name. *)
Fixpoint index_owners (c : unitComponents) (idx : gmap string (list ASTUnit)) (cands : list ASTUnit)
    : unitComponents * gmap string (list ASTUnit) :=
  match cands with
  | [] => (c, idx)
  | u :: cands =>
      let '(c, o) := owner c u in
      index_owners c (match last o with Some l => push l u idx | None => idx end) cands
  end.

(** The loop of [ownedBy] that keeps what the receiver owns. *)
Fixpoint keep_owned (c : unitComponents) (rc : list string) (us : list ASTUnit)
    : unitComponents * list ASTUnit :=
  match us with
  | [] => (c, [])
  | u :: us =>
      let '(c, o) := owner c u in
      let '(c, owned) := keep_owned c rc us in
      (c, if hasComponentSuffix o rc then u :: owned else owned)
  end.

(** [unitComponents.ownedBy] *)
Definition ownedBy (c : unitComponents) (name : string) (cands : list ASTUnit) (recv : string)
    : unitComponents * list ASTUnit :=
  let rc := WordComponents recv in
  match last rc with
  | None => (c, [])
  | Some l =>
      let '(c, idx) :=
        match c_byTail c !! name with
        | Some idx => (c, idx)
        | None =>
            let '(c, idx) := index_owners c ∅ cands in
            ({| c_qualified := c_qualified c; c_byTail := <[name := idx]> (c_byTail c) |}, idx)
        end in
      keep_owned c rc (bucket idx l)
  end.

(** [receiverMatches], the definition [ownedBy] answers for a whole bucket. *)
Definition receiverMatches (u : ASTUnit) (recv : string) : bool :=
  let rc := WordComponents recv in
  if length rc =? 0 then false
  else
    let qual := WordComponents (u_Qualified u) in
    let own := length (WordComponents (u_Name u)) in
    if length qual <=? own then false
    else hasComponentSuffix (take (length qual - own) qual) rc.

(** [resolveLocalTarget]; [recv] is the receiver [edgeReceiver] reads off the
    edge, "" when it has none.  [cands] is never empty. *)
Definition resolveLocalTarget (comps : unitComponents) (name recv : string) (e : Edge)
    (c0 : ASTUnit) (cands' : list ASTUnit) : unitComponents * (ASTUnit * f32) :=
  let cands := c0 :: cands' in
  let any :=
    match firstInFile cands (e_FilePath e) with
    | Some u => (u, ConfExact)
    | None => (c0, match cands' with [] => ConfCrossFile | _ => ConfHeuristic end)
    end in
  if String.eqb recv "" then (comps, any)
  else
    let '(comps, owned) := ownedBy comps name cands recv in
    match owned with
    | [] => (comps, any)
    | o :: owned' =>
        (comps, match firstInFile owned (e_FilePath e) with
                | Some u => (u, ConfExact)
                | None => (o, match owned' with [] => ConfCrossFile | _ => ConfHeuristic end)
                end)
    end.

(** ** RPC methods *)

Record indexedRPC := { r_unit : ASTUnit; r_svc : string }.

(** [buildRPCIndex] *)
Definition index_rpc_unit (idx : gmap string (list indexedRPC)) (u : ASTUnit)
    : gmap string (list indexedRPC) :=
  match ParseGRPC (u_Qualified u) with
  | (svc, method, true) => push method {| r_unit := u; r_svc := svc |} idx
  | (_, _, false) => idx
  end.
Definition buildRPCIndex (units : list ASTUnit) : gmap string (list indexedRPC) :=
  foldl index_rpc_unit ∅ units.

(** The tiers of [rpcCandidates]: equal services, then services that end in
    [".<service>"]; neither when the key names no service. *)
Definition rpc_exact (svc : string) (c : indexedRPC) : bool :=
  negb (String.eqb svc "") && String.eqb (r_svc c) svc.
Definition rpc_suffix (svc : string) (c : indexedRPC) : bool :=
  negb (String.eqb svc "") && negb (String.eqb (r_svc c) svc) && HasSuffix (r_svc c) ("." +:+ svc).

(** [rpcCandidates] *)
Definition rpcCandidates (idx : gmap string (list indexedRPC)) (key : string) : list ASTUnit * f32 :=
  match ParseGRPC key with
  | (_, _, false) => ([], f32_lit 0 1)
  | (svc, method, true) =>
      let cands := bucket idx method in
      let exact := map r_unit (filter (λ c, rpc_exact svc c = true) cands) in
      let suffix := map r_unit (filter (λ c, rpc_suffix svc c = true) cands) in
      let byMethod := map r_unit cands in
      let conf_of (tier : list ASTUnit) := if length tier =? 1 then ConfExact else ConfHeuristic in
      if negb (length exact =? 0) then (sortUnits exact, conf_of exact)
      else if negb (length suffix =? 0) then (sortUnits suffix, conf_of suffix)
      else if length byMethod =? 0 then ([], f32_lit 0 1)
      else (sortUnits byMethod, ConfHeuristic)
  end.

(** [matchRPCIndexed] and [matchRPC] *)
Definition matchRPCIndexed (idx : gmap string (list indexedRPC)) (key : string) : option ASTUnit * f32 :=
  match rpcCandidates idx key with
  | ([], _) => (None, f32_lit 0 1)
  | (u :: _, conf) => (Some u, conf)
  end.
Definition matchRPC (units : list ASTUnit) (key : string) : option ASTUnit * f32 :=
  matchRPCIndexed (buildRPCIndex units) key.

(** ** HTTP routes *)

(** [splitPath] *)
Definition splitPath (p : string) : list string :=
  let p := Trim p "/" in
  if String.eqb p "" then [] else SplitByte p "/".

Definition routeBaseScore : f32 := ConfExact.
Definition routeMethodAnyFactor : f32 := f32_lit 8 10.
Definition routePathParamFactor : f32 := f32_lit 95 100.
Definition routeAmbiguityDelta : f32 := f32_lit 5 100.

(** The loop of [routeMatchScoreSegs] over the segments; [None] is its early
    return. *)
Fixpoint path_score (pathScore : f32) (callSegs routeSegs : list string) : option f32 :=
  match callSegs, routeSegs with
  | c :: callSegs, r :: routeSegs =>
      if EqualFold c r then path_score pathScore callSegs routeSegs
      else if IsPathParam r || IsPathParam c
      then path_score (f32_mul pathScore routePathParamFactor) callSegs routeSegs
      else None
  | _, _ => Some pathScore
  end.

Definition method_score (callMethod routeMethod : string) : option f32 :=
  if String.eqb callMethod routeMethod then Some (f32_lit 1 1)
  else if String.eqb callMethod "ANY" || String.eqb routeMethod "ANY"
  then Some routeMethodAnyFactor
  else None.

(** [routeMatchScoreSegs] *)
Definition routeMatchScoreSegs (callMethod : string) (callSegs : list string)
    (routeMethod : string) (routeSegs : list string) : f32 :=
  match method_score callMethod routeMethod with
  | None => f32_lit 0 1
  | Some methodScore =>
      if negb (length callSegs =? length routeSegs) then f32_lit 0 1
      else match path_score (f32_lit 1 1) callSegs routeSegs with
           | None => f32_lit 0 1
           | Some pathScore => f32_mul (f32_mul routeBaseScore methodScore) pathScore
           end
  end.

(** [routeMatchScore] *)
Definition routeMatchScore (callMethod callPath routeMethod routePath : string) : f32 :=
  routeMatchScoreSegs callMethod (splitPath callPath) routeMethod (splitPath routePath).

Record indexedRoute := { t_unit : ASTUnit; t_method : string; t_segs : list string }.
Record scoredRoute := { s_unit : ASTUnit; s_score : f32; s_sameRepo : bool }.

(** [buildRouteIndex] *)
Definition index_route_unit (idx : gmap nat (list indexedRoute)) (u : ASTUnit)
    : gmap nat (list indexedRoute) :=
  match ParseHTTP (u_Qualified u) with
  | Some (method, path) =>
      let segs := splitPath path in
      push (length segs) {| t_unit := u; t_method := method; t_segs := segs |} idx
  | None => idx
  end.
Definition buildRouteIndex (units : list ASTUnit) : gmap nat (list indexedRoute) :=
  foldl index_route_unit ∅ units.

(** The comparator of [routeCandidates]: best score first, other repositories
    before the caller's. *)
Definition route_less : scoredRoute → scoredRoute → bool :=
  then_by_desc s_score
    (then_by s_sameRepo
       (then_by (λ r, u_RepoID (s_unit r))
          (then_by (λ r, u_FilePath (s_unit r)) (λ a b, beforeInFile (s_unit a) (s_unit b))))).

Definition score_route (method : string) (callSegs : list string) (srcRepo : string)
    (r : indexedRoute) : option scoredRoute :=
  let score := routeMatchScoreSegs method callSegs (t_method r) (t_segs r) in
  if fle score (f32_lit 0 1) then None
  else Some {| s_unit := t_unit r; s_score := score;
               s_sameRepo := String.eqb (u_RepoID (t_unit r)) srcRepo |}.

(** [routeCandidates] *)
Definition routeCandidates (idx : gmap nat (list indexedRoute)) (key srcRepo : string) : list scoredRoute :=
  match ParseHTTP key with
  | None => []
  | Some (method, path) =>
      let callSegs := splitPath path in
      SliceSort route_less (omap (score_route method callSegs srcRepo) (bucket idx (length callSegs)))
  end.

(** [routesAmbiguous] *)
Definition routesAmbiguous (cands : list scoredRoute) : bool :=
  match cands with
  | a :: b :: _ =>
      fle (f32_sub (s_score a) (s_score b)) routeAmbiguityDelta
      && Bool.eqb (s_sameRepo a) (s_sameRepo b)
  | _ => false
  end.

(** [matchRouteIndexed] and [matchRoute] *)
Definition matchRouteIndexed (idx : gmap nat (list indexedRoute)) (key srcRepo : string)
    : option ASTUnit * f32 :=
  match routeCandidates idx key srcRepo with
  | [] => (None, f32_lit 0 1)
  | c :: _ => (Some (s_unit c), s_score c)
  end.
Definition matchRoute (units : list ASTUnit) (key srcRepo : string) : option ASTUnit * f32 :=
  matchRouteIndexed (buildRouteIndex units) key srcRepo.

(** ** Tables *)

Record tableIndex := {
  byKey : gmap string (list ASTUnit);
  byName : gmap string (list ASTUnit);
  byEntity : gmap string (list ASTUnit);
}.

Definition entitySigPrefix : string := "entity:".

(** [signatureEntity] *)
Definition signatureEntity (sig : string) : string :=
  if negb (HasPrefix sig entitySigPrefix) then ""
  else TrimSpace (TrimPrefix sig entitySigPrefix).

(** One turn of the loop of [buildTableIndex]. *)
Definition index_table_unit (idx : tableIndex) (u : ASTUnit) : tableIndex :=
  let k := push (u_Qualified u) u (byKey idx) in
  let entity := signatureEntity (u_Signature u) in
  let e :=
    if String.eqb entity "" then byEntity idx
    else let key := DB (TableName entity) in
         if String.eqb key (u_Qualified u) then byEntity idx else push key u (byEntity idx) in
  let n :=
    match ParseDB (u_Qualified u) with
    | None => byName idx
    | Some table =>
        match CutLast (Ascii.eqb ".") table with
        | Some (_, name) => push (DB name) u (byName idx)
        | None => byName idx
        end
    end in
  {| byKey := k; byName := n; byEntity := e |}.

Definition buildTableIndex (units : list ASTUnit) : tableIndex :=
  foldl index_table_unit {| byKey := ∅; byName := ∅; byEntity := ∅ |} units.

(** [weakerTier] *)
Definition weakerTier (conf : f32) : f32 :=
  if flt ConfHigh conf then ConfHigh
  else if flt ConfCrossFile conf then ConfCrossFile
  else if flt ConfHeuristic conf then ConfHeuristic
  else ConfWeak.

(** One tier of [tableCandidates]: same-repo tables first, several of them one
    tier weaker. *)
Definition table_tier (srcRepo : string) (units : list ASTUnit) (confSame confCross : f32)
    : option (list ASTUnit * f32) :=
  let same := filter (λ u, String.eqb (u_RepoID u) srcRepo = true) units in
  let cross := filter (λ u, String.eqb (u_RepoID u) srcRepo = false) units in
  let pick group conf :=
    (sortUnits group, if 1 <? length group then weakerTier conf else conf) in
  if negb (length same =? 0) then Some (pick same confSame)
  else if negb (length cross =? 0) then Some (pick cross confCross)
  else None.

Fixpoint first_tier (srcRepo : string) (tiers : list (list ASTUnit)) (confs : list (f32 * f32))
    : list ASTUnit * f32 :=
  match tiers, confs with
  | units :: tiers, (cs, cc) :: confs =>
      match table_tier srcRepo units cs cc with
      | Some r => r
      | None => first_tier srcRepo tiers confs
      end
  | _, _ => ([], f32_lit 0 1)
  end.

Definition table_confs : list (f32 * f32) :=
  [(ConfExact, ConfHigh); (ConfHigh, ConfCrossFile); (ConfCrossFile, ConfHeuristic)].

(** [tableCandidates] *)
Definition tableCandidates (idx : tableIndex) (key srcRepo : string) : list ASTUnit * f32 :=
  if negb (IsKind key KindDB) then ([], f32_lit 0 1)
  else
    let tiers :=
      bucket (byKey idx) key ::
      match ParseDB key with
      | Some table =>
          if Contains table "." then []
          else [bucket (byName idx) key; bucket (byEntity idx) key]
      | None => []
      end in
    first_tier srcRepo tiers table_confs.

(** [matchTableIndexed] and [matchTable] *)
Definition matchTableIndexed (idx : tableIndex) (key srcRepo : string) : option ASTUnit * f32 :=
  match tableCandidates idx key srcRepo with
  | ([], _) => (None, f32_lit 0 1)
  | (u :: _, conf) => (Some u, conf)
  end.
Definition matchTable (units : list ASTUnit) (key srcRepo : string) : option ASTUnit * f32 :=
  matchTableIndexed (buildTableIndex units) key srcRepo.
