(* ===== verification/MatchConfig.v ===== *)
(** * Config keys and call receivers: the indexes are exact

    The two lookups of [Match] that a bucket of an index answers for a whole
    repository: the config key a topic reference names, and the definitions a
    call's receiver owns. *)

From S2P Require Import Prelude GoStrings GoSort GoFloat Domain Contract ContractIdent Match.

(** ** Config keys *)

(** The key of a unit that the bucket [l] of the index holds. *)
Definition in_config_bucket (l : string) (u : ASTUnit) : Prop :=
  last (k_path (index_key u)) = Some l ∨
  (minLeafComponents ≤ length (k_leaf (index_key u)) ∧ last (k_leaf (index_key u)) = Some l).

#[export] Instance in_config_bucket_dec l u : Decision (in_config_bucket l u).
Proof. unfold in_config_bucket. solve_decision. Defined.

Lemma bucket_index_config_unit idx u l :
  l ≠ "" →
  bucket (index_config_unit idx u) l
  = bucket idx l ++ if decide (in_config_bucket l u) then [index_key u] else [].
Proof.
  intros Hl. unfold index_config_unit.
  destruct (decide (in_config_bucket l u)) as [Hb|Hb]; unfold in_config_bucket in Hb;
  destruct (last (k_path (index_key u))) as [p|] eqn:Ep;
    destruct (Nat.leb_spec minLeafComponents (length (k_leaf (index_key u))));
    try (destruct (last (k_leaf (index_key u))) as [f|] eqn:Ef);
    try (destruct (String.eqb_spec f p)); try (destruct (String.eqb_spec f ""));
    rewrite ?bucket_push; repeat case_decide; simplify_eq;
    rewrite ?app_nil_r; try done; exfalso; intuition (congruence || lia).
Qed.

Lemma bucket_buildConfigIndex us l :
  l ≠ "" → bucket (buildConfigIndex us) l = map index_key (filter (in_config_bucket l) us).
Proof.
  intros Hl. unfold buildConfigIndex.
  rewrite (bucket_fold _ (λ l u, if decide (in_config_bucket l u) then [index_key u] else []))
    by (intros; by apply bucket_index_config_unit).
  rewrite bucket_empty. simpl. induction us as [|u us IH]; [done |].
  rewrite bind_cons, filter_cons, IH. by case_decide.
Qed.

Lemma tier_in_bucket u rc l :
  last rc = Some l → configMatchTier (index_key u) rc ≠ configNoMatch → in_config_bucket l u.
Proof.
  intros Hl. unfold configMatchTier, in_config_bucket.
  destruct (hasComponentSuffix _ rc) eqn:E1.
  { intros _. left. apply hasComponentSuffix_last in E1 as [-> _]. done. }
  destruct (Nat.leb_spec minLeafComponents (length (k_leaf (index_key u)))); simpl; [|done].
  destruct (hasComponentSuffix rc _) eqn:E2; [|done].
  intros _. right. apply hasComponentSuffix_last in E2 as [<- _]. done.
Qed.

Lemma foldl_map {A B S} (f : S → B → S) (g : A → B) l s :
  foldl f s (map g l) = foldl (λ s a, f s (g a)) s l.
Proof. revert s. induction l; simpl; auto. Qed.

(** A bucket scan is a scan of every key. *)
Lemma config_bucket_scan keys rc repoID l :
  last rc = Some l → l ≠ "" →
  foldl (config_step rc repoID) (None, 0%Z) (bucket (buildConfigIndex keys) l)
  = foldl (config_step rc repoID) (None, 0%Z) (map index_key keys).
Proof.
  intros Hl Hn. rewrite bucket_buildConfigIndex, !foldl_map by done.
  apply foldl_filter. intros [b s] u _ Hu. unfold config_step.
  destruct (Z.eqb_spec (configMatchTier (index_key u) rc) configNoMatch) as [|Ht]; [done |].
  exfalso. by eapply Hu, tier_in_bucket.
Qed.

(** One key against another, as [matchConfigKeyIndexed] compares them: the
    higher score, then the smaller qualified name. *)
Definition config_beats (rc : list string) (repoID : string) (w u : ASTUnit) : Prop :=
  (config_score (index_key u) rc repoID < config_score (index_key w) rc repoID)%Z ∨
  (config_score (index_key u) rc repoID = config_score (index_key w) rc repoID ∧
   String.ltb (u_Qualified u) (u_Qualified w) = false).

Definition config_matches (rc : list string) (u : ASTUnit) : Prop :=
  configMatchTier (index_key u) rc ≠ configNoMatch.

(** The winner of a set of keys. *)
Definition config_winner rc repoID (keys : list ASTUnit) w : Prop :=
  w ∈ keys ∧ config_matches rc w ∧
  ∀ u, u ∈ keys → config_matches rc u → config_beats rc repoID w u.

Lemma config_score_pos rc repoID u :
  config_matches rc u → (0 < config_score (index_key u) rc repoID)%Z.
Proof.
  unfold config_matches, config_score, configMatchTier, configPathMatch, configLeafMatch.
  repeat case_if; unfold configNoMatch; lia || done.
Qed.

Lemma config_beats_refl rc repoID u : config_beats rc repoID u u.
Proof. right. split; [done |]. apply (swo_irrefl (P:=λ _, True)). done. Qed.

Lemma config_beats_trans rc repoID u v w :
  config_beats rc repoID u v → config_beats rc repoID v w → config_beats rc repoID u w.
Proof.
  intros [H1|[H1 Q1]] [H2|[H2 Q2]]; [left; lia .. |]. right. split; [lia |].
  destruct (String.ltb (u_Qualified w) (u_Qualified u)) eqn:E; [|done].
  destruct (swo_cotrans (P:=λ _, True) (less:=String.ltb) _ (u_Qualified v) _ I I I E); congruence.
Qed.

Lemma config_scan_winner rc repoID keys :
  match foldl (config_step rc repoID) (None, 0%Z) (map index_key keys) with
  | (None, s) => s = 0%Z ∧ Forall (λ u, ¬ config_matches rc u) keys
  | (Some w, s) => config_winner rc repoID keys w ∧ s = config_score (index_key w) rc repoID
  end.
Proof.
  induction keys as [|u keys IH] using rev_ind; [by split; [|constructor] |].
  rewrite map_app, foldl_app. simpl map. cbn [foldl].
  destruct (foldl _ _ (map index_key keys)) as [b s]. unfold config_step.
  destruct (Z.eqb_spec (configMatchTier (index_key u) rc) configNoMatch) as [Ht|Ht].
  { destruct b as [w|].
    - destruct IH as [(Hw & Hm & H) ->]. split; [|done]. split; [set_solver |]. split; [done |].
      intros v [Hv| ->%list_elem_of_singleton]%elem_of_app; [auto | done].
    - destruct IH as [-> H]. split; [done |]. apply Forall_app. split; [done |].
      constructor; [|constructor]. by intros []. }
  pose proof (config_score_pos rc repoID u Ht) as Hpos.
  change (k_unit (index_key u)) with u. destruct b as [w|].
  - destruct IH as [(Hw & Hm & H) ->].
    destruct (_ || _) eqn:E.
    + assert (config_beats rc repoID u w) as Hu.
      { apply orb_true_iff in E as [E|E]; bool_prop; [by left |]. right. split; [done |].
        by apply (swo_asym (λ _, True) String.ltb). }
      split; [|done]. split; [set_solver |]. split; [done |].
      intros v [Hv| ->%list_elem_of_singleton]%elem_of_app Hmv; [|apply config_beats_refl].
      eapply config_beats_trans; eauto.
    + split; [|done]. split; [set_solver |]. split; [done |].
      intros v [Hv| ->%list_elem_of_singleton]%elem_of_app Hmv; [auto |].
      apply orb_false_iff in E as [E1 E2]. bool_prop. unfold config_beats.
      apply andb_false_iff in E2 as [E2|E2]; bool_prop; [left; lia |].
      destruct (Z.eq_dec (config_score (index_key u) rc repoID) (config_score (index_key w) rc repoID));
        [by right | left; lia].
  - destruct IH as [-> H]. rewrite (proj2 (Z.ltb_lt _ _) Hpos). simpl.
    split; [|done]. split; [set_solver |]. split; [done |].
    intros v [Hv| ->%list_elem_of_singleton]%elem_of_app Hmv; [|apply config_beats_refl].
    rewrite Forall_forall in H. by apply H in Hmv.
Qed.

(** ** Receivers *)

Lemma owner_path_receiver u recv :
  hasComponentSuffix (owner_path u) (WordComponents recv) = receiverMatches u recv.
Proof.
  unfold receiverMatches, owner_path.
  destruct (Nat.eqb_spec (length (WordComponents recv)) 0) as [E|E].
  - by destruct (WordComponents recv).
  - destruct (Nat.ltb_spec (length (WordComponents (u_Name u))) (length (WordComponents (u_Qualified u)))),
      (Nat.leb_spec (length (WordComponents (u_Qualified u))) (length (WordComponents (u_Name u))));
      try lia; [done |].
    unfold hasComponentSuffix. simpl. by destruct (length (WordComponents recv)).
Qed.

Section Receivers.
  (** The candidates of each name: what [resolveLocal] loaded. *)
  Context (byName : string → list ASTUnit).
  Context (ids_unique : ∀ n m u v, u ∈ byName n → v ∈ byName m → u_ID u = u_ID v → u = v).

(** The memo tables hold what they memoize. *)
Record memo_ok (c : unitComponents) : Prop := {
  memo_qualified n u comps :
    u ∈ byName n → c_qualified c !! u_ID u = Some comps → comps = owner_path u;
  memo_byTail n idx l :
    c_byTail c !! n = Some idx →
    bucket idx l = filter (λ u, last (owner_path u) = Some l) (byName n);
}.

Lemma memo_new : memo_ok newUnitComponents.
Proof. split; simpl; intros *; rewrite ?lookup_empty; done. Qed.

Lemma owner_spec c n u :
  memo_ok c → u ∈ byName n → memo_ok (fst (owner c u)) ∧ snd (owner c u) = owner_path u.
Proof.
  intros [Hq Ht] Hu. unfold owner.
  destruct (c_qualified c !! u_ID u) as [comps|] eqn:E; simpl.
  - split; [done |]. by eapply Hq.
  - split; [|done]. split; simpl; [|done].
    intros m v comps Hv. destruct (decide (u_ID u = u_ID v)) as [E'|E'].
    + rewrite E', lookup_insert_eq. intros [= <-]. f_equal. by eapply ids_unique.
    + rewrite lookup_insert_ne by done. by apply Hq with m.
Qed.

Lemma owner_byTail c u : c_byTail (fst (owner c u)) = c_byTail c.
Proof. unfold owner. by destruct (c_qualified c !! _). Qed.

Lemma index_owners_spec n c idx us l :
  memo_ok c → (∀ u, u ∈ us → u ∈ byName n) →
  let '(c', idx') := index_owners c idx us in
  memo_ok c' ∧ c_byTail c' = c_byTail c ∧
  bucket idx' l = bucket idx l ++ filter (λ u, last (owner_path u) = Some l) us.
Proof.
  revert c idx. induction us as [|u us IH]; intros c idx Hc Hus; simpl;
    [by rewrite app_nil_r |].
  destruct (owner_spec c n u Hc (Hus u (list_elem_of_here _ _))) as [Hc' Ho].
  pose proof (owner_byTail c u) as Hb.
  destruct (owner c u) as [c1 o]. simpl in *. subst o.
  specialize (IH c1 (match last (owner_path u) with Some l => push l u idx | None => idx end) Hc').
  destruct (index_owners _ _ us) as [c2 idx2]. destruct IH as (H1 & H2 & H3).
  { intros v Hv. apply Hus. by right. }
  split; [done |]. split; [congruence |]. rewrite H3, filter_cons.
  destruct (last (owner_path u)) as [o|]; [|by case_decide].
  rewrite bucket_push, <- app_assoc. repeat case_decide; simplify_eq; done.
Qed.

Lemma keep_owned_spec n c recv us :
  memo_ok c → (∀ u, u ∈ us → u ∈ byName n) →
  let '(c', owned) := keep_owned c (WordComponents recv) us in
  memo_ok c' ∧ owned = filter (λ u, receiverMatches u recv = true) us.
Proof.
  revert c. induction us as [|u us IH]; intros c Hc Hus; simpl; [done |].
  destruct (owner_spec c n u Hc (Hus u (list_elem_of_here _ _))) as [Hc' Ho].
  destruct (owner c u) as [c1 o]. simpl in *. subst o. specialize (IH c1 Hc').
  destruct (keep_owned _ _ us) as [c2 owned]. destruct IH as [H1 ->].
  { intros v Hv. apply Hus. by right. }
  split; [done |]. rewrite owner_path_receiver, filter_cons.
  destruct (receiverMatches u recv); by case_decide.
Qed.

Lemma receiverMatches_last u recv l :
  last (WordComponents recv) = Some l → receiverMatches u recv = true → last (owner_path u) = Some l.
Proof. rewrite <- owner_path_receiver. intros Hl [-> _]%hasComponentSuffix_last. done. Qed.

Lemma receiverMatches_empty u recv :
  last (WordComponents recv) = None → receiverMatches u recv = false.
Proof. intros H%last_None. unfold receiverMatches. by rewrite H. Qed.

Lemma filter_receiver_bucket (us : list ASTUnit) recv l :
  last (WordComponents recv) = Some l →
  filter (λ u, receiverMatches u recv = true) (filter (λ u, last (owner_path u) = Some l) us)
  = filter (λ u, receiverMatches u recv = true) us.
Proof.
  intros Hl. rewrite list_filter_filter. apply filter_impl. intros u _.
  split; [naive_solver |]. intros H. split; [done |]. by eapply receiverMatches_last.
Qed.

Lemma ownedBy_spec c n recv :
  memo_ok c →
  memo_ok (fst (ownedBy c n (byName n) recv)) ∧
  snd (ownedBy c n (byName n) recv) = filter (λ u, receiverMatches u recv = true) (byName n).
Proof.
  intros Hc. unfold ownedBy. destruct (last (WordComponents recv)) as [l|] eqn:El.
  2: { split; [done |]. symmetry. simpl.
       rewrite (filter_impl _ (λ _, False)); [by induction (byName n) |].
       intros u _. by rewrite receiverMatches_empty. }
  assert (∃ c1 idx, match c_byTail c !! n with
    | Some idx => (c, idx)
    | None => let '(c, idx) := index_owners c ∅ (byName n) in
              ({| c_qualified := c_qualified c; c_byTail := <[n := idx]> (c_byTail c) |}, idx)
    end = (c1, idx) ∧ memo_ok c1 ∧
    bucket idx l = filter (λ u, last (owner_path u) = Some l) (byName n)) as (c1 & idx & -> & Hc1 & Hidx).
  { destruct (c_byTail c !! n) as [idx|] eqn:E; [exists c, idx; split; [done |]; split; [done |]; by apply (memo_byTail _ Hc) |].
    pose proof (λ l, index_owners_spec n c ∅ (byName n) l Hc (λ u Hu, Hu)) as Hi.
    destruct (index_owners c ∅ (byName n)) as [c1 idx].
    assert (∀ l, bucket idx l = filter (λ u, last (owner_path u) = Some l) (byName n)) as Hb.
    { intros l'. destruct (Hi l') as (_ & _ & ->). by rewrite bucket_empty. }
    eexists _, idx. split; [done |]. split; [|done]. destruct (Hi l) as ([Hq Ht] & Heq & _).
    split; simpl; [done |]. intros m idx' l'. destruct (decide (n = m)) as [<-|Hn].
    - rewrite lookup_insert_eq. intros [= <-]. apply Hb.
    - rewrite lookup_insert_ne by done. apply Ht. }
  pose proof (keep_owned_spec n c1 recv (bucket idx l) Hc1) as Hk. rewrite Hidx in *.
  destruct (keep_owned _ _ _) as [c2 owned]. destruct Hk as [H1 ->].
  { intros u Hu. by apply list_elem_of_filter in Hu as [_ Hu]. }
  split; [done |]. simpl. by apply filter_receiver_bucket.
Qed.

End Receivers.

Lemma firstInFile_spec cands f u :
  firstInFile cands f = Some u → u ∈ cands ∧ u_FilePath u = f ∧ f ≠ "".
Proof.
  unfold firstInFile. destruct (String.eqb_spec f ""); [done |].
  intros [H1 H2]%find_some. apply list_elem_of_In in H1. by bool_prop.
Qed.

Lemma firstInFile_None cands f :
  firstInFile cands f = None → f = "" ∨ ∀ u, u ∈ cands → u_FilePath u ≠ f.
Proof.
  unfold firstInFile. destruct (String.eqb_spec f ""); [by left |].
  intros H. right. intros u Hu E. apply list_elem_of_In in Hu.
  pose proof (find_none _ _ H u Hu) as E'. simpl in E'. by bool_prop.
Qed.

Lemma matchConfigKey_scan keys ref repoID :
  matchConfigKey keys ref repoID =
  match fst (foldl (config_step (WordComponents ref) repoID) (None, 0%Z) (map index_key keys)) with
  | Some w => u_Signature w
  | None => ""
  end.
Proof.
  unfold matchConfigKey, matchConfigKeyIndexed.
  destruct (last (WordComponents ref)) as [l|] eqn:El.
  - rewrite config_bucket_scan; [done | done |].
    pose proof (WordComponents_nonempty ref) as Hn.
    rewrite last_lookup in El. exact (Forall_lookup_1 _ _ _ _ Hn El).
  - apply last_None in El. pose proof (config_scan_winner (WordComponents ref) repoID keys) as H.
    destruct (foldl _ _ _) as [[w|] s]; [|done]. destruct H as [(_ & Hm & _) _].
    unfold config_matches, configMatchTier in Hm. rewrite El in Hm.
    destruct (hasComponentSuffix _ []) eqn:E; [by apply hasComponentSuffix_spec in E as [? _] |].
    destruct (hasComponentSuffix [] _) eqn:E'; [|by rewrite andb_false_r in Hm].
    by apply hasComponentSuffix_last in E' as [<- [? ?]].
Qed.

(** ** Properties *)

(** The key a topic reference resolves to is the best of all the keys of all
    repositories, though only one bucket of the index is scanned: no key, and the
    empty value, when none aligns with the reference; otherwise the value of a key
    that no other matching key beats — path matches over leaf matches, then keys
    of the referring repository, then the smallest qualified name. *)
Theorem matchConfigKey_best keys ref repoID :
  let rc := WordComponents ref in
  (Forall (λ u, ¬ config_matches rc u) keys ∧ matchConfigKey keys ref repoID = "") ∨
  (∃ w, config_winner rc repoID keys w ∧ matchConfigKey keys ref repoID = u_Signature w).
Proof.
  simpl. rewrite matchConfigKey_scan.
  pose proof (config_scan_winner (WordComponents ref) repoID keys) as H.
  destruct (foldl _ _ _) as [[w|] s]; destruct H as [H1 H2]; simpl; [right; eauto | by left].
Qed.

(** The value a reference gets does not depend on the order keys were loaded
    or bucketed in, as long as the keys that tie on score and on qualified name
    hold one value. *)
Theorem matchConfigKey_order keys keys' ref repoID :
  keys ≡ₚ keys' →
  (∀ u v, u ∈ keys → v ∈ keys → u_Qualified u = u_Qualified v →
    config_score (index_key u) (WordComponents ref) repoID
    = config_score (index_key v) (WordComponents ref) repoID →
    u_Signature u = u_Signature v) →
  matchConfigKey keys ref repoID = matchConfigKey keys' ref repoID.
Proof.
  intros HP Hties. rewrite !matchConfigKey_scan.
  pose proof (config_scan_winner (WordComponents ref) repoID keys) as H.
  pose proof (config_scan_winner (WordComponents ref) repoID keys') as H'.
  destruct (foldl _ _ (map index_key keys)) as [[w|] s],
    (foldl _ _ (map index_key keys')) as [[w'|] s']; simpl; [| | | done].
  - destruct H as [(Hw & Hm & Hb) _], H' as [(Hw' & Hm' & Hb') _].
    rewrite <- HP in Hw'. setoid_rewrite <- HP in Hb'.
    pose proof (Hb w' Hw' Hm') as [E|[E Q]]; pose proof (Hb' w Hw Hm) as [E'|[E' Q']]; try lia.
    apply Hties; try done.
    pose proof (lawful_eqb (u_Qualified w) (u_Qualified w') I I) as Eq. simpl in Eq.
    rewrite Q, Q' in Eq. by apply String.eqb_eq in Eq.
  - destruct H as [(Hw & Hm & _) _], H' as [_ H']. rewrite Forall_forall in H'.
    rewrite HP in Hw. by apply H' in Hw.
  - destruct H as [_ H], H' as [(Hw & Hm & _) _]. rewrite Forall_forall in H.
    rewrite <- HP in Hw. by apply H in Hw.
Qed.

(** A config key of the example below. *)
Definition config_unit (repo qualified name value : string) : ASTUnit := {|
  u_ID := ""; u_RepoID := repo; u_FilePath := ""; u_Language := ""; u_Kind := KindConfigKey;
  u_Name := name; u_Qualified := qualified; u_ParentID := ""; u_StartLine := 0; u_EndLine := 0;
  u_StartByte := 0; u_EndByte := 0; u_Signature := value; u_Doc := ""; u_Hash := ""; u_Meta := ""
|}.

Lemma matchConfigKey_order_witness :
  matchConfigKey [config_unit "a" "config:kafka.orders-topic" "orders-topic" "orders";
                  config_unit "b" "config:app.orders.topic" "topic" "orders-v2"] "ORDERS_TOPIC" "b"
  = matchConfigKey [config_unit "b" "config:app.orders.topic" "topic" "orders-v2";
                    config_unit "a" "config:kafka.orders-topic" "orders-topic" "orders"] "ORDERS_TOPIC" "b".
Proof.
  apply matchConfigKey_order; [constructor |].
  intros u v Hu Hv. rewrite !elem_of_cons, elem_of_nil in Hu, Hv.
  destruct Hu as [->|[->|[]]], Hv as [->|[->|[]]]; vm_compute; congruence.
Defined.

(** Two keys of one qualified name in two other repositories: the first loaded wins. *)
Example matchConfigKey_load_order :
  let k1 := config_unit "a" "config:orders.topic" "topic" "orders" in
  let k2 := config_unit "b" "config:orders.topic" "topic" "orders-v2" in
  matchConfigKey [k1; k2] "ORDERS_TOPIC" "c" = "orders" ∧
  matchConfigKey [k2; k1] "ORDERS_TOPIC" "c" = "orders-v2".
Proof. split; reflexivity. Qed.

(** The definition a local edge refers to, without the memo tables: what the
    receiver owns of the candidates, else all of them; the first in the edge's own
    file, else the first. *)
Definition local_pool (recv : string) (cands : list ASTUnit) : list ASTUnit :=
  let owned := if String.eqb recv "" then [] else filter (λ u, receiverMatches u recv = true) cands in
  match owned with [] => cands | _ => owned end.
Definition local_pick (pool : list ASTUnit) (file : string) : option (ASTUnit * f32) :=
  match pool with
  | [] => None
  | c0 :: cs => Some (match firstInFile pool file with
                      | Some u => (u, ConfExact)
                      | None => (c0, match cs with [] => ConfCrossFile | _ => ConfHeuristic end)
                      end)
  end.

Lemma resolveLocalTarget_pick byName comps name recv e c0 cs :
  (∀ n m u v, u ∈ byName n → v ∈ byName m → u_ID u = u_ID v → u = v) →
  memo_ok byName comps → byName name = c0 :: cs →
  memo_ok byName (fst (resolveLocalTarget comps name recv e c0 cs)) ∧
  local_pick (local_pool recv (c0 :: cs)) (e_FilePath e) = Some (snd (resolveLocalTarget comps name recv e c0 cs)).
Proof.
  intros Hu Hc Hn. unfold resolveLocalTarget, local_pool.
  destruct (String.eqb recv ""); [by split |].
  destruct (ownedBy_spec byName Hu comps name recv Hc) as [Hc' Ho]. rewrite Hn in Hc', Ho.
  destruct (ownedBy comps name (c0 :: cs) recv) as [c' owned]. simpl in Hc', Ho. rewrite <- Ho.
  by destruct owned.
Qed.

(** Resolving a call or handler edge within its repository. The candidates a
    receiver owns are exactly those [receiverMatches] accepts, whatever the memo
    tables hold; when there are some, only they may answer. The answer is one of
    the answering candidates; it scores as exact when, and only when, it is the
    first of them in the edge's own file, as cross-file when it is the only one,
    and as a heuristic guess otherwise. *)
Theorem resolveLocalTarget_tiers byName comps name recv e c0 cs :
  (∀ n m u v, u ∈ byName n → v ∈ byName m → u_ID u = u_ID v → u = v) →
  memo_ok byName comps → byName name = c0 :: cs →
  let owned := if String.eqb recv "" then []
               else filter (λ u, receiverMatches u recv = true) (c0 :: cs) in
  let pool := match owned with [] => c0 :: cs | _ => owned end in
  let '(comps', (u, conf)) := resolveLocalTarget comps name recv e c0 cs in
  memo_ok byName comps' ∧ u ∈ pool ∧
  ((conf = ConfExact ∧ firstInFile pool (e_FilePath e) = Some u ∧ u_FilePath u = e_FilePath e) ∨
   (conf = ConfCrossFile ∧ pool = [u] ∧ firstInFile pool (e_FilePath e) = None) ∨
   (conf = ConfHeuristic ∧ head pool = Some u ∧ 1 < length pool ∧
    firstInFile pool (e_FilePath e) = None)).
Proof.
  intros Hu Hc Hn owned pool.
  assert (∀ x xs, let p := x :: xs in
    let '(u, conf) := match firstInFile p (e_FilePath e) with
                      | Some u => (u, ConfExact)
                      | None => (x, match xs with [] => ConfCrossFile | _ => ConfHeuristic end)
                      end in
    u ∈ p ∧ ((conf = ConfExact ∧ firstInFile p (e_FilePath e) = Some u ∧ u_FilePath u = e_FilePath e) ∨
      (conf = ConfCrossFile ∧ p = [u] ∧ firstInFile p (e_FilePath e) = None) ∨
      (conf = ConfHeuristic ∧ head p = Some u ∧ 1 < length p ∧ firstInFile p (e_FilePath e) = None)))
    as Hpick.
  { intros x xs p. destruct (firstInFile p (e_FilePath e)) as [u|] eqn:E.
    - pose proof (firstInFile_spec _ _ _ E) as (? & ? & ?). auto.
    - split; [by left |]. right. destruct xs; [by left | right].
      simpl. split_and!; done || lia. }
  unfold resolveLocalTarget. subst owned pool. destruct (String.eqb recv "").
  { specialize (Hpick c0 cs). cbv zeta in Hpick. destruct (firstInFile (c0 :: cs) (e_FilePath e)); split; done || exact Hpick. }
  destruct (ownedBy_spec byName Hu comps name recv Hc) as [Hc' Ho]. rewrite Hn in Hc', Ho.
  destruct (ownedBy comps name (c0 :: cs) recv) as [c' owned]. simpl in Hc', Ho. rewrite <- Ho.
  destruct owned as [|o os].
  - specialize (Hpick c0 cs). cbv zeta in Hpick. destruct (firstInFile (c0 :: cs) (e_FilePath e)); split; done || exact Hpick.
  - specialize (Hpick o os). cbv zeta in Hpick. destruct (firstInFile (o :: os) (e_FilePath e)); split; done || exact Hpick.
Qed.

Definition method_unit (id qualified file : string) : ASTUnit := {|
  u_ID := id; u_RepoID := "r"; u_FilePath := file; u_Language := "go"; u_Kind := "method";
  u_Name := "Save"; u_Qualified := qualified; u_ParentID := ""; u_StartLine := 1; u_EndLine := 2;
  u_StartByte := 0; u_EndByte := 0; u_Signature := ""; u_Doc := ""; u_Hash := ""; u_Meta := ""
|}.

Definition call_edge (dst file : string) : Edge := {|
  e_ID := "e"; e_RepoID := "r"; e_SrcID := "s"; e_DstID := ""; e_Kind := EdgeCall; e_DstName := dst;
  e_FilePath := file; e_Line := 3; e_DstRepoID := ""; e_Confidence := ConfHigh; e_Meta := ""
|}.

Definition save_units : list ASTUnit :=
  [method_unit "1" "(*OrderRepo).Save" "order.go"; method_unit "2" "(*UserRepo).Save" "user.go"].
Definition save_by_name (n : string) : list ASTUnit := if String.eqb n "Save" then save_units else [].

Lemma save_ids_unique n m u v :
  u ∈ save_by_name n → v ∈ save_by_name m → u_ID u = u_ID v → u = v.
Proof.
  unfold save_by_name, save_units.
  destruct (String.eqb n "Save"), (String.eqb m "Save"); rewrite ?elem_of_cons, ?elem_of_nil; try tauto.
  intros [->|[->|[]]] [->|[->|[]]]; vm_compute; congruence.
Qed.

Lemma resolveLocalTarget_tiers_witness :
  let '(_, (u, conf)) :=
    resolveLocalTarget newUnitComponents "Save" "userRepo" (call_edge "userRepo.Save" "main.go")
      (method_unit "1" "(*OrderRepo).Save" "order.go") [method_unit "2" "(*UserRepo).Save" "user.go"] in
  u ∈ [method_unit "2" "(*UserRepo).Save" "user.go"].
Proof.
  pose proof (resolveLocalTarget_tiers save_by_name newUnitComponents "Save" "userRepo"
    (call_edge "userRepo.Save" "main.go") (method_unit "1" "(*OrderRepo).Save" "order.go")
    [method_unit "2" "(*UserRepo).Save" "user.go"] save_ids_unique (memo_new _) eq_refl) as H.
  vm_compute in H. vm_compute. exact (proj1 (proj2 H)).
Defined.
