(* ===== verification/MatchRoutes.v ===== *)
(** * Routes, RPC methods and tables: what a lookup answers

    A lookup in the contract index scans one bucket; here each is shown to answer
    what a scan of every unit of every repository would, and the scores and
    confidence tiers that rank the answers are pinned down. *)

From S2P Require Import Prelude GoStrings GoSort GoFloat Domain Contract ContractIdent Match.
From Stdlib Require Import Strings.Ascii.

(** ** Route scores *)

(** Two segments match literally, letter case apart, or when either is a parameter. *)
Definition seg_matches (c r : string) : bool := EqualFold c r || IsPathParam r || IsPathParam c.

Fixpoint segs_match (cs rs : list string) : bool :=
  match cs, rs with
  | [], [] => true
  | c :: cs, r :: rs => seg_matches c r && segs_match cs rs
  | _, _ => false
  end.

(** How many segments match as a parameter only. *)
Fixpoint param_count (cs rs : list string) : nat :=
  match cs, rs with
  | c :: cs, r :: rs => (if EqualFold c r then 0 else 1) + param_count cs rs
  | _, _ => 0
  end.

Definition degrade (x : f32) : f32 := f32_mul x routePathParamFactor.
Definition chain (k : nat) : f32 := Nat.iter k degrade (f32_lit 1 1).

(** The score of a route with [k] segments matched as parameters. *)
Definition route_score (methodScore : f32) (k : nat) : f32 :=
  f32_mul (f32_mul routeBaseScore methodScore) (chain k).

Lemma path_score_spec s cs rs :
  length cs = length rs →
  path_score s cs rs = if segs_match cs rs then Some (Nat.iter (param_count cs rs) degrade s) else None.
Proof.
  revert s rs. induction cs as [|c cs IH]; intros s [|r rs] Hl; try done.
  simpl in *. unfold seg_matches. destruct (EqualFold c r); simpl; [by rewrite IH by lia |].
  destruct (IsPathParam r || IsPathParam c); simpl; [|done].
  rewrite IH by lia. destruct (segs_match cs rs); [|done]. f_equal.
  change (f32_mul s routePathParamFactor) with (degrade s). by rewrite <- Nat.iter_succ_r.
Qed.

Lemma segs_match_length cs rs : segs_match cs rs = true → length cs = length rs.
Proof.
  revert rs. induction cs as [|c cs IH]; intros [|r rs] H; simpl in *; try done.
  bool_prop. f_equal. auto.
Qed.

Definition route_matches (cm : string) (cs : list string) (rm : string) (rs : list string) : bool :=
  (String.eqb cm rm || String.eqb cm "ANY" || String.eqb rm "ANY") && segs_match cs rs.

Definition method_factor (cm rm : string) : f32 :=
  if String.eqb cm rm then f32_lit 1 1 else routeMethodAnyFactor.

Lemma routeMatchScoreSegs_eq cm cs rm rs :
  routeMatchScoreSegs cm cs rm rs =
  if route_matches cm cs rm rs then route_score (method_factor cm rm) (param_count cs rs)
  else f32_lit 0 1.
Proof.
  unfold routeMatchScoreSegs, route_matches, method_score, method_factor.
  destruct (String.eqb cm rm); simpl;
    [|destruct (String.eqb cm "ANY" || String.eqb rm "ANY"); simpl; [|done]].
  all: destruct (Nat.eqb_spec (length cs) (length rs)) as [E|E]; simpl;
    [rewrite path_score_spec by done; by destruct (segs_match cs rs) |].
  all: destruct (segs_match cs rs) eqn:Em; [by apply segs_match_length in Em | done].
Qed.

(** *** The scores, evaluated

    Multiplying by 0.95 reaches a fixed point among the denormal numbers: the
    scores of all route lengths are those of finitely many. *)

Definition route_bound : nat := 2100.
Definition strict_bound : nat := 1000.

Fixpoint check_chain (p : f32 → bool) (n : nat) (x : f32) : bool :=
  p x && match n with
         | O => bool_decide (degrade x = x)
         | S n => check_chain p n (degrade x)
         end.

Lemma check_chain_spec p n x k : check_chain p n x = true → p (Nat.iter k degrade x) = true.
Proof.
  revert n x. induction k as [|k IH]; intros n x H.
  - destruct n; simpl in *; by bool_prop.
  - rewrite Nat.iter_succ_r. destruct n; simpl in H; apply andb_true_iff in H as [Hp H].
    + apply bool_decide_eq_true in H. rewrite H. apply (IH 0). simpl.
      rewrite Hp. by apply bool_decide_eq_true.
    + by apply (IH n).
Qed.

Fixpoint check_prefix (p : f32 → bool) (n : nat) (x : f32) : bool :=
  match n with O => true | S n => p x && check_prefix p n (degrade x) end.

Lemma check_prefix_spec p n x k :
  check_prefix p n x = true → k < n → p (Nat.iter k degrade x) = true.
Proof.
  revert n x. induction k as [|k IH]; intros [|n] x H Hk; try lia; simpl in H; bool_prop; [done |].
  rewrite Nat.iter_succ_r. apply (IH n); [done | lia].
Qed.

Definition of_chain (m x : f32) : f32 := f32_mul (f32_mul routeBaseScore m) x.
Definition method_factors : list f32 := [f32_lit 1 1; routeMethodAnyFactor].
Definition finite_pos (x : f32) : bool := match x with S754_finite false _ _ => true | _ => false end.

Lemma route_scores_positive :
  forallb (λ m, check_chain (λ x, finite_pos (of_chain m x)
                                 && negb (flt (of_chain m x) (of_chain m (degrade x)))) route_bound (f32_lit 1 1))
    method_factors = true.
Proof. vm_compute. reflexivity. Qed.

Lemma route_scores_strict :
  forallb (λ m, check_prefix (λ x, flt (of_chain m (degrade x)) (of_chain m x)) strict_bound (f32_lit 1 1))
    method_factors = true.
Proof. vm_compute. reflexivity. Qed.

Lemma method_factor_in cm rm : method_factor cm rm ∈ method_factors.
Proof. unfold method_factor, method_factors. case_if; set_solver. Qed.

Lemma route_score_step m k :
  m ∈ method_factors →
  finite_pos (route_score m k) = true ∧ flt (route_score m k) (route_score m (S k)) = false.
Proof.
  intros Hm%list_elem_of_In. pose proof route_scores_positive as H.
  rewrite forallb_forall in H. specialize (H m Hm).
  apply (check_chain_spec _ _ _ k) in H. apply andb_true_iff in H as [H1 H2]. by bool_prop.
Qed.

Lemma route_score_strict_step m k :
  m ∈ method_factors → k < strict_bound → flt (route_score m (S k)) (route_score m k) = true.
Proof.
  intros Hm%list_elem_of_In Hk. pose proof route_scores_strict as H.
  rewrite forallb_forall in H. specialize (H m Hm). by apply (check_prefix_spec _ _ _ k) in H.
Qed.

Lemma finite_pos_facts x : finite_pos x = true → not_nan x ∧ fle x (f32_lit 0 1) = false.
Proof. destruct x as [| | |[]]; done. Qed.

Lemma route_score_not_nan m k : m ∈ method_factors → not_nan (route_score m k).
Proof. intros Hm. by apply finite_pos_facts, route_score_step. Qed.

(** More parameters never score better, and score worse on every path that is not
    absurdly long. *)
Lemma route_score_antitone m k k' :
  m ∈ method_factors → k ≤ k' → flt (route_score m k) (route_score m k') = false.
Proof.
  intros Hm Hk. pose proof (λ k, route_score_not_nan m k Hm) as Hn.
  induction Hk as [|k' Hk IH]; [by apply (swo_irrefl (P:=not_nan)) |].
  destruct (flt (route_score m k) (route_score m (S k'))) eqn:E; [|done].
  destruct (swo_cotrans (P:=not_nan) (less:=flt) _ (route_score m k') _ (Hn _) (Hn _) (Hn _) E) as [H|H];
    [congruence |]. by destruct (route_score_step m k' Hm) as [_ ?]; congruence.
Qed.

Lemma route_score_strict m k k' :
  m ∈ method_factors → k < k' → k' ≤ strict_bound → flt (route_score m k') (route_score m k) = true.
Proof.
  intros Hm Hk Hb. pose proof (λ k, route_score_not_nan m k Hm) as Hn.
  induction Hk as [|k' Hk IH]; [apply route_score_strict_step; [done | unfold strict_bound in *; lia] |].
  apply (swo_trans (P:=not_nan) (less:=flt) _ (route_score m k')); try done.
  - apply route_score_strict_step; [done | unfold strict_bound in *; lia].
  - apply IH. unfold strict_bound in *; lia.
Qed.

(** ** Route candidates *)

#[export] Instance unit_less_swo : SwoOn (λ _, True) unit_less.
Proof. unfold unit_less, beforeInFile. repeat (apply (then_by_swo (λ _, True)); [done |]). apply tie_swo. Qed.

Definition scored_ok (r : scoredRoute) : Prop := not_nan (s_score r).

#[export] Instance route_less_swo : SwoOn scored_ok route_less.
Proof.
  unfold route_less, beforeInFile.
  apply (then_by_desc_swo not_nan); [done |].
  do 3 (apply (then_by_swo (λ _, True)); [done |]).
  pose proof (tie_swo scored_ok) as Ht.
  pose proof (then_by_swo (λ _, True) scored_ok (λ r, u_Name (s_unit r)) _ (λ _ _, I) Ht) as H1.
  pose proof (then_by_swo (λ _, True) scored_ok (λ r, u_Kind (s_unit r)) _ (λ _ _, I) H1) as H2.
  pose proof (then_by_swo (λ _, True) scored_ok (λ r, u_StartByte (s_unit r)) _ (λ _ _, I) H2) as H3.
  exact (then_by_swo (λ _, True) scored_ok (λ r, u_StartLine (s_unit r)) _ (λ _ _, I) H3).
Qed.

(** The unit of a route, parsed. *)
Definition parse_route (u : ASTUnit) : option indexedRoute :=
  match ParseHTTP (u_Qualified u) with
  | Some (method, path) => Some {| t_unit := u; t_method := method; t_segs := splitPath path |}
  | None => None
  end.

Lemma bucket_buildRouteIndex us n :
  bucket (buildRouteIndex us) n = filter (λ r, length (t_segs r) = n) (omap parse_route us).
Proof.
  unfold buildRouteIndex.
  rewrite (bucket_fold _ (λ n u, filter (λ r, length (t_segs r) = n) (option_list (parse_route u)))).
  - rewrite bucket_empty. simpl. induction us as [|u us IH]; [done |].
    rewrite bind_cons, IH. simpl. destruct (parse_route u); simpl; [|done].
    rewrite !filter_cons. by case_decide.
  - intros m u. unfold index_route_unit, parse_route.
    destruct (ParseHTTP (u_Qualified u)) as [[method path]|]; [|simpl; by rewrite app_nil_r].
    rewrite bucket_push. simpl. rewrite filter_cons. simpl. by case_decide.
Qed.

Lemma score_route_eq method segs srcRepo r :
  score_route method segs srcRepo r =
  if route_matches method segs (t_method r) (t_segs r)
  then Some {| s_unit := t_unit r;
               s_score := route_score (method_factor method (t_method r)) (param_count segs (t_segs r));
               s_sameRepo := String.eqb (u_RepoID (t_unit r)) srcRepo |}
  else None.
Proof.
  unfold score_route. rewrite routeMatchScoreSegs_eq.
  destruct (route_matches _ _ _ _); [|done].
  destruct (route_score_step (method_factor method (t_method r)) (param_count segs (t_segs r))
              (method_factor_in _ _)) as [Hp _].
  by destruct (finite_pos_facts _ Hp) as [_ ->].
Qed.

Lemma omap_filter_none {A B} (f : A → option B) (P : A → Prop) `{!∀ x, Decision (P x)} (l : list A) :
  (∀ x, ¬ P x → f x = None) → omap f (filter P l) = omap f l.
Proof.
  intros Hf. induction l as [|x l IH]; [done |]. rewrite filter_cons.
  change (omap f (x :: l)) with (match f x with Some y => y :: omap f l | None => omap f l end).
  case_decide as E; [|by rewrite (Hf x E)].
  change (omap f (x :: ?l)) with (match f x with Some y => y :: omap f l | None => omap f l end).
  by rewrite IH.
Qed.

(** A lookup scans one bucket and finds what a scan of all routes would. *)
Lemma routeCandidates_scan us key srcRepo :
  routeCandidates (buildRouteIndex us) key srcRepo =
  match ParseHTTP key with
  | None => []
  | Some (method, path) =>
      SliceSort route_less (omap (score_route method (splitPath path) srcRepo) (omap parse_route us))
  end.
Proof.
  unfold routeCandidates. destruct (ParseHTTP key) as [[method path]|]; [|done].
  f_equal. rewrite bucket_buildRouteIndex. apply omap_filter_none.
  intros r Hr. rewrite score_route_eq. unfold route_matches.
  destruct (segs_match (splitPath path) (t_segs r)) eqn:E; [|by rewrite andb_false_r].
  by apply segs_match_length in E.
Qed.

Lemma score_route_ok method segs srcRepo r c : score_route method segs srcRepo r = Some c → scored_ok c.
Proof.
  rewrite score_route_eq. case_if; [|done]. intros [= <-].
  apply route_score_not_nan, method_factor_in.
Qed.

Lemma scored_all_ok method segs srcRepo rs : Forall scored_ok (omap (score_route method segs srcRepo) rs).
Proof.
  induction rs as [|r rs IH]; simpl; [constructor |].
  destruct (score_route _ _ _ r) eqn:E; [|done]. constructor; [by eapply score_route_ok | done].
Qed.

(** ** RPC candidates *)

Definition parse_rpc (u : ASTUnit) : option (string * indexedRPC) :=
  match ParseGRPC (u_Qualified u) with
  | (svc, method, true) => Some (method, {| r_unit := u; r_svc := svc |})
  | _ => None
  end.

(** The units that expose a method, each with its service. *)
Definition rpc_of (method : string) (us : list ASTUnit) : list indexedRPC :=
  omap (λ u, match parse_rpc u with
             | Some (m, r) => if String.eqb m method then Some r else None
             | None => None
             end) us.

Lemma bucket_buildRPCIndex us method : bucket (buildRPCIndex us) method = rpc_of method us.
Proof.
  unfold buildRPCIndex, rpc_of.
  rewrite (bucket_fold _ (λ method u, option_list
    (match parse_rpc u with
     | Some (m, r) => if String.eqb m method then Some r else None
     | None => None
     end))).
  - rewrite bucket_empty. simpl. induction us as [|u us IH]; [done |].
    rewrite bind_cons, IH. simpl. destruct (parse_rpc u) as [[m r]|]; [by case_if | done].
  - intros idx u. unfold index_rpc_unit, parse_rpc.
    destruct (ParseGRPC (u_Qualified u)) as [[svc m] []]; [|simpl; by rewrite app_nil_r].
    rewrite bucket_push. destruct (String.eqb_spec m method); by case_decide.
Qed.

(** A unit's own key. *)
Lemma elem_of_rpc_of r method us :
  r ∈ rpc_of method us ↔ r_unit r ∈ us ∧ ParseGRPC (u_Qualified (r_unit r)) = (r_svc r, method, true).
Proof.
  unfold rpc_of. rewrite list_elem_of_omap. unfold parse_rpc. split.
  - intros (u & Hu & H). destruct (ParseGRPC (u_Qualified u)) as [[svc m] []] eqn:E; [|done].
    destruct (String.eqb_spec m method); [|done]. by simplify_eq/=.
  - intros [Hu E]. exists (r_unit r). split; [done |]. rewrite E, String.eqb_refl. by destruct r.
Qed.

(** ** Tables *)

(** The key a unit answers to in each of the three tiers of the table index. *)
Definition tier_key (tier : nat) (u : ASTUnit) : option string :=
  match tier with
  | 0 => Some (u_Qualified u)
  | 1 => match ParseDB (u_Qualified u) with
         | Some table => match CutLast (Ascii.eqb ".") table with
                         | Some (_, name) => Some (DB name)
                         | None => None
                         end
         | None => None
         end
  | _ => let entity := signatureEntity (u_Signature u) in
         if String.eqb entity "" then None
         else if String.eqb (DB (TableName entity)) (u_Qualified u) then None
         else Some (DB (TableName entity))
  end.

Definition table_units (tier : nat) (key : string) (us : list ASTUnit) : list ASTUnit :=
  filter (λ u, tier_key tier u = Some key) us.

Definition tier_index (tier : nat) (idx : tableIndex) : gmap string (list ASTUnit) :=
  match tier with 0 => byKey idx | 1 => byName idx | _ => byEntity idx end.

Lemma bucket_tables us idx tier key :
  bucket (tier_index tier (foldl index_table_unit idx us)) key
  = bucket (tier_index tier idx) key ++ table_units tier key us.
Proof.
  revert idx. induction us as [|u us IH]; intros idx; simpl; [by rewrite app_nil_r |].
  rewrite IH. unfold table_units. rewrite filter_cons.
  assert (bucket (tier_index tier (index_table_unit idx u)) key =
          bucket (tier_index tier idx) key ++ if decide (tier_key tier u = Some key) then [u] else []) as ->.
  { unfold index_table_unit. destruct tier as [|[|tier]]; simpl.
    - rewrite bucket_push. repeat case_decide; congruence.
    - destruct (ParseDB _) as [t|]; [destruct (CutLast _ t) as [[a b]|]|];
        rewrite ?bucket_push; repeat case_decide; rewrite ?app_nil_r; congruence.
    - repeat case_if; rewrite ?bucket_push; repeat case_decide; rewrite ?app_nil_r; congruence. }
  rewrite <- app_assoc. by case_decide.
Qed.

Lemma bucket_buildTableIndex us tier key :
  bucket (tier_index tier (buildTableIndex us)) key = table_units tier key us.
Proof.
  unfold buildTableIndex. rewrite bucket_tables.
  destruct tier as [|[|]]; simpl; by rewrite bucket_empty.
Qed.

(** The tiers a key reaches, with the confidence of each: a key that names a schema
    reaches only the first. *)
Definition table_tiers (key : string) : list (nat * (f32 * f32)) :=
  match ParseDB key with
  | None => []
  | Some table =>
      (0, (ConfExact, ConfHigh)) ::
      if Contains table "." then []
      else [(1, (ConfHigh, ConfCrossFile)); (2, (ConfCrossFile, ConfHeuristic))]
  end.

Lemma IsKind_ParseDB key : IsKind key KindDB = match ParseDB key with Some _ => true | None => false end.
Proof.
  unfold IsKind, ParseDB, cutPrefix. destruct (CutPrefix key (kind_prefix KindDB)) as [r|] eqn:E.
  - apply CutPrefix_Some in E as ->. apply HasPrefix_app.
  - destruct (HasPrefix key (kind_prefix KindDB)) eqn:E'; [|done].
    apply HasPrefix_inv in E' as [r ->]. by rewrite CutPrefix_app in E.
Qed.

Fixpoint scan_tiers (us : list ASTUnit) (key srcRepo : string) (tiers : list (nat * (f32 * f32)))
    : list ASTUnit * f32 :=
  match tiers with
  | [] => ([], f32_lit 0 1)
  | (t, (cs, cc)) :: tiers =>
      match table_tier srcRepo (table_units t key us) cs cc with
      | Some r => r
      | None => scan_tiers us key srcRepo tiers
      end
  end.

Lemma tableCandidates_scan us key srcRepo :
  tableCandidates (buildTableIndex us) key srcRepo = scan_tiers us key srcRepo (table_tiers key).
Proof.
  unfold tableCandidates, table_tiers, table_confs. rewrite IsKind_ParseDB.
  destruct (ParseDB key) as [table|]; [|done]. cbn [negb].
  pose proof (bucket_buildTableIndex us 0 key) as E0.
  pose proof (bucket_buildTableIndex us 1 key) as E1.
  pose proof (bucket_buildTableIndex us 2 key) as E2. simpl tier_index in *.
  destruct (Contains table "."); cbn [first_tier scan_tiers]; rewrite E0, ?E1, ?E2; done.
Qed.

Definition table_conf (same : bool) (ambiguous : bool) (confs : f32 * f32) : f32 :=
  let c := if same then fst confs else snd confs in if ambiguous then weakerTier c else c.

(** What a scan of the tiers answers: one tier's units, of one side. *)
Lemma scan_tiers_spec us key srcRepo tiers cands conf :
  scan_tiers us key srcRepo tiers = (cands, conf) → cands ≠ [] →
  ∃ pre t confs post same,
    tiers = pre ++ (t, confs) :: post ∧
    Forall (λ p, table_units (fst p) key us = []) pre ∧
    let group s := filter (λ u, String.eqb (u_RepoID u) srcRepo = s) (table_units t key us) in
    cands = sortUnits (group same) ∧
    (same = false → group true = []) ∧
    conf = table_conf same (1 <? length cands) confs.
Proof.
  induction tiers as [|[t [cs cc]] tiers IH]; simpl; [by intros [= <-] |].
  unfold table_tier at 1.
  set (g s := filter (λ u, String.eqb (u_RepoID u) srcRepo = s) (table_units t key us)).
  fold (g true) (g false).
  destruct (Nat.eqb_spec (length (g true)) 0) as [E1|E1]; simpl.
  2: { intros [= <- <-] _. exists [], t, (cs, cc), tiers, true.
       split_and!; try done. unfold table_conf, sortUnits. by rewrite SliceSort_length. }
  destruct (Nat.eqb_spec (length (g false)) 0) as [E2|E2]; simpl.
  - intros H Hn. destruct (IH H Hn) as (pre & t' & confs & post & same & -> & Hp & Hg).
    exists ((t, (cs, cc)) :: pre), t', confs, post, same. split_and!; try apply Hg; [done |].
    constructor; [|done]. simpl. apply nil_length_inv in E1, E2. unfold g in *. clear -E1 E2.
    induction (table_units t key us) as [|u l IHl]; [done |]. rewrite !filter_cons in *.
    destruct (String.eqb _ _); repeat case_decide; done.
  - intros [= <- <-] _. exists [], t, (cs, cc), tiers, false.
    split_and!; try done; [intros _; by apply nil_length_inv |].
    unfold table_conf, sortUnits. by rewrite SliceSort_length.
Qed.

(** ** Ties *)

(** Two units at one position of one file under one name. *)
Definition same_place (a b : ASTUnit) : Prop :=
  u_RepoID a = u_RepoID b ∧ u_FilePath a = u_FilePath b ∧ u_StartLine a = u_StartLine b ∧
  u_StartByte a = u_StartByte b ∧ u_Kind a = u_Kind b ∧ u_Name a = u_Name b.

(** Where the units of a run are, each has a place of its own. *)
Definition placed (us : list ASTUnit) : Prop := ∀ a b, a ∈ us → b ∈ us → same_place a b → a = b.

Lemma beforeInFile_tie a b :
  beforeInFile a b = false → beforeInFile b a = false →
  u_StartLine a = u_StartLine b ∧ u_StartByte a = u_StartByte b ∧ u_Kind a = u_Kind b ∧ u_Name a = u_Name b.
Proof.
  intros H1 H2. unfold beforeInFile in *.
  apply (then_by_tie (λ _, True)) in H2 as (E1 & H2 & H1'); [|done|done|done].
  apply (then_by_tie (λ _, True)) in H1' as (E2 & H1'' & H2'); [|done|done|done].
  apply (then_by_tie (λ _, True)) in H1'' as (E3 & H1''' & H2''); [|done|done|done].
  apply (then_by_tie (λ _, True)) in H2'' as (E4 & _ & _); [|done|done|done].
  simpl in *. bool_prop. split_and!; congruence.
Qed.

Lemma unit_less_tie a b : unit_less a b = false → unit_less b a = false → same_place a b.
Proof.
  intros H1 H2. unfold unit_less in *.
  apply (then_by_tie (λ _, True)) in H2 as (E1 & H2 & H1'); [|done|done|done].
  apply (then_by_tie (λ _, True)) in H1' as (E2 & H1'' & H2'); [|done|done|done].
  apply (then_by_tie (λ _, True)) in H2' as (E3 & H2'' & H1'''); [|done|done|done].
  destruct (beforeInFile_tie _ _ H1''' H2'') as (?&?&?&?).
  simpl in *. bool_prop. unfold same_place. split_and!; congruence.
Qed.

Lemma placed_incl us us' : (∀ u, u ∈ us' → u ∈ us) → placed us → placed us'.
Proof. intros H Hp a b Ha Hb. apply Hp; auto. Qed.

Lemma placed_separates us : placed us → separates unit_less us.
Proof. intros H a b Ha Hb H1 H2. apply H; [done | done | by apply unit_less_tie]. Qed.

Lemma sortUnits_perm us us' : placed us → us ≡ₚ us' → sortUnits us = sortUnits us'.
Proof.
  intros Hp HP. symmetry. apply (SliceSort_perm_eq unit_less (λ _, True)); [by apply Forall_true | | done].
  by apply placed_separates.
Qed.

Lemma omap_perm {A B} (f : A → option B) (l l' : list A) : l ≡ₚ l' → omap f l ≡ₚ omap f l'.
Proof. intros H. by rewrite H. Qed.

Lemma rpc_of_perm method us us' : us ≡ₚ us' → rpc_of method us ≡ₚ rpc_of method us'.
Proof. apply omap_perm. Qed.

Lemma elem_of_map_r_unit u (P : indexedRPC → Prop) `{!∀ x, Decision (P x)} method us :
  u ∈ map r_unit (filter P (rpc_of method us)) → u ∈ us.
Proof.
  intros (r & <- & Hr)%list_elem_of_In%in_map_iff. apply list_elem_of_In, list_elem_of_filter in Hr as [_ Hr].
  by apply elem_of_rpc_of in Hr as [? _].
Qed.

(** One tier of the RPC lookup, whatever order its units were loaded in. *)
Lemma rpc_tier_perm (P : indexedRPC → Prop) `{!∀ x, Decision (P x)} method us us' :
  placed us → us ≡ₚ us' →
  sortUnits (map r_unit (filter P (rpc_of method us))) = sortUnits (map r_unit (filter P (rpc_of method us'))) ∧
  length (map r_unit (filter P (rpc_of method us))) = length (map r_unit (filter P (rpc_of method us'))).
Proof.
  intros Hp HP.
  assert (map r_unit (filter P (rpc_of method us)) ≡ₚ map r_unit (filter P (rpc_of method us'))) as HP'.
  { apply Permutation_map. by rewrite (rpc_of_perm method us us' HP). }
  split; [|by rewrite HP'].
  apply sortUnits_perm; [|done]. eapply placed_incl; [|done]. intros u. apply elem_of_map_r_unit; done.
Qed.

Lemma rpcCandidates_perm us us' key :
  placed us → us ≡ₚ us' → rpcCandidates (buildRPCIndex us) key = rpcCandidates (buildRPCIndex us') key.
Proof.
  intros Hp HP. unfold rpcCandidates. destruct (ParseGRPC key) as [[svc method] []]; [|done].
  rewrite !bucket_buildRPCIndex.
  pose proof (rpc_tier_perm (λ c, rpc_exact svc c = true) method us us' Hp HP) as [S1 L1].
  pose proof (rpc_tier_perm (λ c, rpc_suffix svc c = true) method us us' Hp HP) as [S2 L2].
  pose proof (rpc_tier_perm (λ _, True) method us us' Hp HP) as [S3 L3].
  rewrite !filter_true_id in S3, L3. by rewrite S1, L1, S2, L2, S3, L3.
Qed.

Lemma table_tier_perm us us' srcRepo cs cc :
  placed us → us ≡ₚ us' → table_tier srcRepo us cs cc = table_tier srcRepo us' cs cc.
Proof.
  intros Hp HP. unfold table_tier.
  assert (∀ b, sortUnits (filter (λ u, String.eqb (u_RepoID u) srcRepo = b) us)
             = sortUnits (filter (λ u, String.eqb (u_RepoID u) srcRepo = b) us') ∧
               length (filter (λ u, String.eqb (u_RepoID u) srcRepo = b) us)
             = length (filter (λ u, String.eqb (u_RepoID u) srcRepo = b) us')) as H.
  { intros b. assert (filter (λ u, String.eqb (u_RepoID u) srcRepo = b) us
                      ≡ₚ filter (λ u, String.eqb (u_RepoID u) srcRepo = b) us') as HP' by by rewrite HP.
    split; [|by rewrite HP']. apply sortUnits_perm; [|done].
    eapply placed_incl; [|done]. intros u. by intros [_ Hu]%list_elem_of_filter. }
  destruct (H true) as [-> ->], (H false) as [-> ->]. done.
Qed.

Lemma tableCandidates_perm us us' key srcRepo :
  placed us → us ≡ₚ us' →
  tableCandidates (buildTableIndex us) key srcRepo = tableCandidates (buildTableIndex us') key srcRepo.
Proof.
  intros Hp HP. rewrite !tableCandidates_scan.
  induction (table_tiers key) as [|[t [cs cc]] tiers IH]; simpl; [done |].
  rewrite IH. unfold table_units.
  rewrite (table_tier_perm (filter (λ u, tier_key t u = Some key) us) (filter (λ u, tier_key t u = Some key) us')); [done | |by rewrite HP].
  eapply placed_incl; [|done]. intros u. by intros [_ Hu]%list_elem_of_filter.
Qed.

(** The routes of a lookup, each with the unit it comes from. *)
Lemma elem_of_scored c method segs srcRepo (us : list ASTUnit) :
  c ∈ omap (score_route method segs srcRepo) (omap parse_route us) ↔
  ∃ u rm rp, u ∈ us ∧ ParseHTTP (u_Qualified u) = Some (rm, rp) ∧
    route_matches method segs rm (splitPath rp) = true ∧
    c = {| s_unit := u;
           s_score := route_score (method_factor method rm) (param_count segs (splitPath rp));
           s_sameRepo := String.eqb (u_RepoID u) srcRepo |}.
Proof.
  rewrite list_elem_of_omap. setoid_rewrite list_elem_of_omap. unfold parse_route. split.
  - intros (r & (u & Hu & Hr) & Hc). destruct (ParseHTTP (u_Qualified u)) as [[rm rp]|] eqn:E; [|done].
    simplify_eq. rewrite score_route_eq in Hc. simpl in Hc.
    destruct (route_matches method segs rm (splitPath rp)) eqn:Em; [|done]. simplify_eq.
    by exists u, rm, rp.
  - intros (u & rm & rp & Hu & E & Hm & ->).
    exists {| t_unit := u; t_method := rm; t_segs := splitPath rp |}. split.
    + exists u. by rewrite E.
    + rewrite score_route_eq. simpl. by rewrite Hm.
Qed.

Lemma route_less_tie a b :
  scored_ok a → scored_ok b → route_less a b = false → route_less b a = false →
  same_place (s_unit a) (s_unit b).
Proof.
  intros Ha Hb H1 H2. unfold route_less in *.
  apply (then_by_desc_tie not_nan) in H2 as (_ & H2 & H1'); [|done|done|done].
  apply (then_by_tie (λ _, True)) in H1' as (_ & H1'' & H2'); [|done|done|done].
  apply (then_by_tie (λ _, True)) in H2' as (E1 & H2'' & H1'''); [|done|done|done].
  apply (then_by_tie (λ _, True)) in H1''' as (E2 & H1'''' & H2'''); [|done|done|done].
  destruct (beforeInFile_tie _ _ H1'''' H2''') as (?&?&?&?).
  simpl in *. bool_prop. unfold same_place. split_and!; congruence.
Qed.

Lemma routeCandidates_perm us us' key srcRepo :
  placed us → us ≡ₚ us' →
  routeCandidates (buildRouteIndex us) key srcRepo = routeCandidates (buildRouteIndex us') key srcRepo.
Proof.
  intros Hp HP. rewrite !routeCandidates_scan. destruct (ParseHTTP key) as [[method path]|]; [|done].
  symmetry. apply (SliceSort_perm_eq route_less scored_ok); [apply scored_all_ok | |].
  - intros a b Ha Hb H1 H2.
    pose proof (scored_all_ok method (splitPath path) srcRepo (omap parse_route us)) as Hok.
    rewrite Forall_forall in Hok.
    pose proof (route_less_tie _ _ (Hok a Ha) (Hok b Hb) H1 H2) as Hs.
    apply elem_of_scored in Ha as (u & rm & rp & Hu & E & _ & ->).
    apply elem_of_scored in Hb as (v & rm' & rp' & Hv & E' & _ & ->).
    simpl in Hs. assert (u = v) as <- by by apply Hp. by simplify_eq.
  - by apply omap_perm, omap_perm.
Qed.

Lemma seg_matches_sym c r : seg_matches c r = seg_matches r c.
Proof. unfold seg_matches. rewrite EqualFold_sym. destruct (EqualFold r c); simpl; [done |]. apply orb_comm. Qed.

Lemma segs_match_sym cs rs : segs_match cs rs = segs_match rs cs ∧ param_count cs rs = param_count rs cs.
Proof.
  revert rs. induction cs as [|c cs IH]; intros [|r rs]; simpl; try done.
  destruct (IH rs) as [-> ->]. by rewrite seg_matches_sym, EqualFold_sym.
Qed.

Lemma route_matches_sym cm cs rm rs : route_matches cm cs rm rs = route_matches rm rs cm cs.
Proof.
  unfold route_matches. rewrite (proj1 (segs_match_sym cs rs)), String.eqb_sym. f_equal.
  by rewrite <- !orb_assoc, (orb_comm (String.eqb cm "ANY")).
Qed.

Lemma method_factor_sym cm rm : method_factor cm rm = method_factor rm cm.
Proof. unfold method_factor. by rewrite String.eqb_sym. Qed.

(** ** What an RPC lookup answers *)

Definition service_declared (svc method : string) (us : list ASTUnit) : Prop :=
  ∃ v, v ∈ us ∧ ParseGRPC (u_Qualified v) = (svc, method, true).

(** A candidate list and its confidence, as the callers of [rpcCandidates] rely on
    them. *)
Record rpc_answer (us : list ASTUnit) (svc method : string) (cands : list ASTUnit) (conf : f32) : Prop := {
  answer_unit u : u ∈ cands → u ∈ us ∧ ∃ s, ParseGRPC (u_Qualified u) = (s, method, true) ∧
    (service_declared svc method us → svc ≠ "" → s = svc);
  answer_empty : cands = [] ↔ rpc_of method us = [];
  answer_exact : conf = ConfExact → ∃ u s, cands = [u] ∧ ParseGRPC (u_Qualified u) = (s, method, true) ∧
    svc ≠ "" ∧ (s = svc ∨ HasSuffix s ("." +:+ svc) = true);
  answer_ambiguous : 1 < length cands → conf = ConfHeuristic;
}.

Section RPCTiers.
  Context (us : list ASTUnit) (svc method : string).

Definition rpc_tier (P : indexedRPC → bool) : list ASTUnit :=
  map r_unit (filter (λ c, P c = true) (rpc_of method us)).

Lemma elem_of_rpc_tier P u :
  u ∈ sortUnits (rpc_tier P) →
  ∃ r, r_unit r = u ∧ P r = true ∧ u ∈ us ∧ ParseGRPC (u_Qualified u) = (r_svc r, method, true).
Proof.
  unfold sortUnits, rpc_tier. rewrite SliceSort_elem.
  intros (r & <- & Hr)%list_elem_of_In%in_map_iff.
  apply list_elem_of_In, list_elem_of_filter in Hr as [HPr Hr].
  apply elem_of_rpc_of in Hr as [Hr E]. by exists r.
Qed.

Lemma length_sorted_tier P : length (sortUnits (rpc_tier P)) = length (rpc_tier P).
Proof. apply SliceSort_length. Qed.

Lemma sorted_tier_nil P : length (rpc_tier P) ≠ 0 → sortUnits (rpc_tier P) = [] ↔ rpc_of method us = [].
Proof.
  intros Hl. split.
  - intros E. rewrite <- length_sorted_tier, E in Hl. done.
  - intros E. unfold rpc_tier in Hl. rewrite E in Hl. done.
Qed.

Lemma exact_tier_nonempty :
  service_declared svc method us → svc ≠ "" → length (rpc_tier (rpc_exact svc)) ≠ 0.
Proof.
  intros (v & Hv & E) Hs Hl%nil_length_inv. unfold rpc_tier in Hl. apply map_eq_nil in Hl.
  apply (not_elem_of_nil {| r_unit := v; r_svc := svc |}). rewrite <- Hl.
  apply list_elem_of_filter. split; [|by apply elem_of_rpc_of].
  unfold rpc_exact. simpl. rewrite String.eqb_refl. by destruct (String.eqb_spec svc "").
Qed.

(** A tier of units that name the service. *)
Lemma rpc_named_tier P :
  length (rpc_tier P) ≠ 0 →
  (∀ r, P r = true → svc ≠ "" ∧ (r_svc r = svc ∨ HasSuffix (r_svc r) ("." +:+ svc) = true)) →
  (∀ r, P r = true → service_declared svc method us → svc ≠ "" → r_svc r = svc) →
  rpc_answer us svc method (sortUnits (rpc_tier P))
    (if length (rpc_tier P) =? 1 then ConfExact else ConfHeuristic).
Proof.
  intros Hn Hnamed Hdecl. split.
  - intros u (r & <- & HP & Hu & E)%elem_of_rpc_tier. split; [done |]. exists (r_svc r). auto.
  - by apply sorted_tier_nil.
  - destruct (Nat.eqb_spec (length (rpc_tier P)) 1) as [E1|]; [|done]. intros _.
    rewrite <- length_sorted_tier in E1.
    destruct (sortUnits (rpc_tier P)) as [|u [|]] eqn:Es; try done.
    assert (u ∈ sortUnits (rpc_tier P)) as Hu by (rewrite Es; by left).
    apply elem_of_rpc_tier in Hu as (r & <- & HP & Hu & E).
    destruct (Hnamed r HP). exists (r_unit r), (r_svc r). auto.
  - rewrite length_sorted_tier. intros H. destruct (Nat.eqb_spec (length (rpc_tier P)) 1); [lia | done].
Qed.

(** The tier of every unit that exposes the method. *)
Lemma rpc_method_tier P :
  (∀ r, P r = true) → length (rpc_tier P) ≠ 0 → length (rpc_tier (rpc_exact svc)) = 0 →
  rpc_answer us svc method (sortUnits (rpc_tier P)) ConfHeuristic.
Proof.
  intros HP Hn He. split.
  - intros u (r & <- & _ & Hu & E)%elem_of_rpc_tier. split; [done |]. exists (r_svc r). split; [done |].
    intros Hd Hs. by destruct (exact_tier_nonempty Hd Hs).
  - by apply sorted_tier_nil.
  - done.
  - done.
Qed.

Lemma rpc_no_tier : rpc_of method us = [] → rpc_answer us svc method [] (f32_lit 0 1).
Proof. intros E. split; [set_solver | done | done | simpl; lia]. Qed.

End RPCTiers.

(** ** Properties *)

(** C13: the score of a call against a route. It is positive exactly when the
    methods agree or one side declares none and the paths have the same segments,
    a parameter on either side standing for any segment; it does not depend on
    which side is the call; and among matches of the same two methods one with
    more parameters never scores better, and strictly worse up to a thousand
    parameters — in float32, rounding and denormal numbers included. *)
Theorem routeMatchScoreSegs_spec cm cs rm rs :
  let score := routeMatchScoreSegs cm cs rm rs in
  flt (f32_lit 0 1) score = route_matches cm cs rm rs ∧
  routeMatchScoreSegs rm rs cm cs = score ∧
  ∀ cs' rs', route_matches cm cs rm rs = true → route_matches cm cs' rm rs' = true →
    let score' := routeMatchScoreSegs cm cs' rm rs' in
    (param_count cs rs ≤ param_count cs' rs' → flt score score' = false) ∧
    (param_count cs rs < param_count cs' rs' ≤ strict_bound → flt score' score = true).
Proof.
  simpl. split_and!.
  - rewrite routeMatchScoreSegs_eq. destruct (route_matches cm cs rm rs); [|done].
    destruct (route_score_step (method_factor cm rm) (param_count cs rs) (method_factor_in _ _)) as [H _].
    by destruct (route_score _ _) as [| | |[]].
  - rewrite !routeMatchScoreSegs_eq, route_matches_sym, method_factor_sym.
    by rewrite (proj2 (segs_match_sym cs rs)).
  - intros cs' rs' H H'. rewrite !routeMatchScoreSegs_eq, H, H'. split.
    + apply route_score_antitone, method_factor_in.
    + intros [H1 H2]. apply route_score_strict; auto using method_factor_in.
Qed.

Lemma routeMatchScoreSegs_spec_witness :
  flt (routeMatchScoreSegs "GET" ["users"; "42"; "posts"] "GET" ["users"; "{}"; "{}"])
      (routeMatchScoreSegs "GET" ["users"; "42"; "posts"] "GET" ["users"; "{}"; "posts"]) = true.
Proof.
  apply (routeMatchScoreSegs_spec "GET" ["users"; "42"; "posts"] "GET" ["users"; "{}"; "posts"]);
    [reflexivity | reflexivity | unfold strict_bound; simpl; lia].
Defined.

(** C34: the candidates of an HTTP call are exactly the routes of all repositories
    that match it, found by scanning the routes of one segment count, and they
    come best first: no candidate scores below one that follows it, and between
    equal scores a route of the caller's own repository never precedes one of
    another. *)
Theorem routeCandidates_exact us key srcRepo :
  let cands := routeCandidates (buildRouteIndex us) key srcRepo in
  (∀ c, c ∈ cands ↔ ∃ method path u rm rp,
     ParseHTTP key = Some (method, path) ∧
     u ∈ us ∧ ParseHTTP (u_Qualified u) = Some (rm, rp) ∧
     route_matches method (splitPath path) rm (splitPath rp) = true ∧
     c = {| s_unit := u; s_score := routeMatchScoreSegs method (splitPath path) rm (splitPath rp);
            s_sameRepo := String.eqb (u_RepoID u) srcRepo |}) ∧
  (∀ l1 a l2 b, cands = l1 ++ a :: l2 → b ∈ l2 →
     flt (s_score a) (s_score b) = false ∧
     (feq (s_score a) (s_score b) = true → s_sameRepo a = true → s_sameRepo b = true)).
Proof.
  simpl. rewrite routeCandidates_scan. split.
  - intros c. destruct (ParseHTTP key) as [[method path]|]; [|set_solver].
    rewrite SliceSort_elem, elem_of_scored. split.
    + intros (u & rm & rp & Hu & E & Hm & ->). exists method, path, u, rm, rp.
      rewrite routeMatchScoreSegs_eq, Hm. done.
    + intros (? & ? & u & rm & rp & [= <- <-] & Hu & E & Hm & ->).
      rewrite routeMatchScoreSegs_eq, Hm. by exists u, rm, rp.
  - intros l1 a l2 b. destruct (ParseHTTP key) as [[method path]|]; [|by destruct l1].
    pose proof (scored_all_ok method (splitPath path) srcRepo (omap parse_route us)) as Hok.
    pose proof (SliceSort_sorted route_less scored_ok _ Hok) as Hs.
    apply (SliceSort_Forall scored_ok route_less) in Hok. intros E Hb. rewrite E in Hs, Hok.
    apply Forall_app in Hok as [_ Hok]. apply Forall_cons in Hok as [Ha Hok].
    rewrite Forall_forall in Hok. specialize (Hok b Hb).
    assert (route_less b a = false) as H.
    { clear E. induction l1 as [|x l1 IH]; simpl in Hs; inversion_clear Hs as [|? ? Hs' Hx].
      - rewrite Forall_forall in Hx. auto.
      - auto. }
    unfold route_less, then_by_desc in H. rewrite lawful_eqb in H by done.
    simpl key_ltb in H. rewrite feq_flt by done.
    destruct (flt (s_score a) (s_score b)) eqn:E1; [by rewrite andb_false_r in H |].
    split; [done |]. destruct (flt (s_score b) (s_score a)) eqn:E2; [done |].
    intros _ Hsame. simpl in H. unfold then_by at 1 in H. simpl in H. rewrite Hsame in H.
    by destruct (s_sameRepo b).
Qed.

(** The candidates of an RPC key are units that expose its method; there is
    one whenever some unit exposes it; where the key's service is declared, only
    units of that very service are candidates; and a lookup is exact only when it
    has a single candidate whose service is the key's or ends in [".<service>"] —
    two versions of a service are never told apart by load order. *)
Theorem rpcCandidates_tiers us svc method key :
  ParseGRPC key = (svc, method, true) →
  let '(cands, conf) := rpcCandidates (buildRPCIndex us) key in rpc_answer us svc method cands conf.
Proof.
  intros Hk. unfold rpcCandidates. rewrite Hk, bucket_buildRPCIndex.
  fold (rpc_tier us method (rpc_exact svc)) (rpc_tier us method (rpc_suffix svc)).
  assert (map r_unit (rpc_of method us) = rpc_tier us method (λ _, true)) as ->.
  { unfold rpc_tier. f_equal. by induction (rpc_of method us) as [|r l IH]; [|rewrite filter_cons_True, <- IH]. }
  destruct (Nat.eqb_spec (length (rpc_tier us method (rpc_exact svc))) 0) as [E1|E1]; simpl.
  2: { apply rpc_named_tier; [done | |]; unfold rpc_exact; intros r H; bool_prop; auto. }
  destruct (Nat.eqb_spec (length (rpc_tier us method (rpc_suffix svc))) 0) as [E2|E2]; simpl.
  2: { apply rpc_named_tier; [done | |]; intros r H.
       - unfold rpc_suffix in H. bool_prop. auto.
       - intros Hd Hs. by destruct (exact_tier_nonempty us svc method Hd Hs). }
  destruct (Nat.eqb_spec (length (rpc_tier us method (λ _, true))) 0) as [E3|E3].
  - apply rpc_no_tier. apply nil_length_inv in E3. unfold rpc_tier in E3. apply map_eq_nil in E3.
    rewrite <- E3. by induction (rpc_of method us) as [|r l IH]; [|rewrite filter_cons_True, <- IH].
  - by apply rpc_method_tier.
Qed.

(** A contract unit of the examples below. *)
Definition contract_unit (repo kind qualified file sig : string) : ASTUnit := {|
  u_ID := repo +:+ ":" +:+ qualified; u_RepoID := repo; u_FilePath := file; u_Language := "go";
  u_Kind := kind; u_Name := qualified; u_Qualified := qualified; u_ParentID := ""; u_StartLine := 1;
  u_EndLine := 2; u_StartByte := 0; u_EndByte := 9; u_Signature := sig; u_Doc := ""; u_Hash := ""; u_Meta := ""
|}.

Definition order_services : list ASTUnit :=
  [contract_unit "a" KindRPCMethod "grpc:orders.v1.OrderService/Get" "a.proto" "";
   contract_unit "a" KindRPCMethod "grpc:orders.v2.OrderService/Get" "b.proto" "";
   contract_unit "b" KindRPCMethod "grpc:users.UserService/Get" "c.proto" ""].

Lemma rpcCandidates_tiers_witness :
  rpc_answer order_services "OrderService" "Get"
    (fst (rpcCandidates (buildRPCIndex order_services) "grpc:OrderService/Get"))
    (snd (rpcCandidates (buildRPCIndex order_services) "grpc:OrderService/Get")).
Proof.
  pose proof (rpcCandidates_tiers order_services "OrderService" "Get" "grpc:OrderService/Get" eq_refl) as H.
  destruct (rpcCandidates _ _). exact H.
Defined.

(** The candidates of a table key are the units of one tier — tables declared
    under that very key, then schema-qualified tables of that name, then tables of
    the entity the key was derived from — on one side, the caller's repository
    before the others. An earlier tier that holds a table always answers, a key
    that names a schema reaches the first tier only, and an ambiguous answer scores
    one tier lower. *)
Theorem tableCandidates_tiers us key srcRepo cands conf :
  tableCandidates (buildTableIndex us) key srcRepo = (cands, conf) → cands ≠ [] →
  ∃ pre t confs post same,
    table_tiers key = pre ++ (t, confs) :: post ∧
    Forall (λ p, table_units (fst p) key us = []) pre ∧
    let group s := filter (λ u, String.eqb (u_RepoID u) srcRepo = s) (table_units t key us) in
    cands = sortUnits (group same) ∧
    (same = false → group true = []) ∧
    conf = table_conf same (1 <? length cands) confs.
Proof. rewrite tableCandidates_scan. apply scan_tiers_spec. Qed.

Definition user_tables : list ASTUnit :=
  [contract_unit "a" KindDBTable "db:analytics.users" "a.sql" "";
   contract_unit "b" KindDBTable "db:public.users" "b.sql" "";
   contract_unit "b" KindDBTable "db:people" "c.cs" "entity:User"].

Lemma tableCandidates_tiers_witness :
  ∃ cands conf, tableCandidates (buildTableIndex user_tables) "db:users" "b" = (cands, conf) ∧
    conf = table_conf true false (ConfHigh, ConfCrossFile) ∧
    ∃ pre t confs post same, table_tiers "db:users" = pre ++ (t, confs) :: post ∧
      cands = sortUnits (filter (λ u, String.eqb (u_RepoID u) "b" = same) (table_units t "db:users" user_tables)).
Proof.
  eexists _, _. split; [reflexivity |]. split; [vm_compute; reflexivity |].
  destruct (tableCandidates_tiers user_tables "db:users" "b" _ _ eq_refl ltac:(vm_compute; discriminate))
    as (pre & t & confs & post & same & H1 & H2 & H3 & _).
  exists pre, t, confs, post, same. split; [exact H1 | exact H3].
Defined.

(** Which destination a contract edge gets never depends on the order the
    units were loaded in, as long as no two of them sit at one place under one
    name: the RPC, route and table candidates are the same lists, in the same
    order, at the same confidence. *)
Theorem contract_candidates_order us us' :
  placed us → us ≡ₚ us' →
  ∀ key srcRepo,
    rpcCandidates (buildRPCIndex us) key = rpcCandidates (buildRPCIndex us') key ∧
    routeCandidates (buildRouteIndex us) key srcRepo = routeCandidates (buildRouteIndex us') key srcRepo ∧
    tableCandidates (buildTableIndex us) key srcRepo = tableCandidates (buildTableIndex us') key srcRepo.
Proof.
  intros Hp HP key srcRepo. split_and!;
    [by apply rpcCandidates_perm | by apply routeCandidates_perm | by apply tableCandidates_perm].
Qed.

Lemma contract_candidates_order_witness :
  rpcCandidates (buildRPCIndex order_services) "grpc:Get"
  = rpcCandidates (buildRPCIndex (reverse order_services)) "grpc:Get".
Proof.
  apply (contract_candidates_order order_services (reverse order_services)); [| |exact ""].
  - intros a b Ha Hb (E1 & E2 & _). unfold order_services in Ha, Hb.
    rewrite !elem_of_cons, elem_of_nil in Ha, Hb. revert E1 E2.
    destruct Ha as [->|[->|[->|[]]]], Hb as [->|[->|[->|[]]]]; vm_compute; congruence.
  - symmetry. apply reverse_Permutation.
Defined.
