(* ===== verification/Hits.v ===== *)
(** * Search hits and filters ([internal/index/interface.go])

    What an index answers with, what a query filters on, and the arithmetic of the
    line ranges that merging and fusion decide with.  The serving order of hits does
    not depend on the order an index returned them in, and the filters of a query do
    not depend on the order of a map, with the exceptions shown last. *)

From S2P Require Import Prelude GoStrings GoSort GoFloat.
From Stdlib Require Import Strings.Ascii.

(** ** Hits *)

(** [index.Hit] *)
Record Hit := {
  h_RepoID : string;
  h_FilePath : string;
  h_Path : string;
  h_Line : Z;
  h_EndLine : Z;
  h_Symbol : string;
  h_Kind : string;
  h_Language : string;
  h_Score : f32;
  h_Snippet : string;
  h_Reason : string;
}.

#[export] Instance Hit_eq_dec : EqDecision Hit.
Proof. solve_decision. Defined.

(** [Hit.Key] *)
Definition Key (h : Hit) : string :=
  h_RepoID h +:+ ":" +:+ h_FilePath h +:+ ":" +:+ Itoa (h_Line h) +:+ ":" +:+ Itoa (h_EndLine h).

(** [Hit.Range] *)
Definition Range (h : Hit) : Z * Z :=
  (h_Line h, if (h_EndLine h <? h_Line h)%Z then h_Line h else h_EndLine h).

(** [Hit.Overlaps] *)
Definition Overlaps (h other : Hit) : bool :=
  if negb (String.eqb (h_RepoID h) (h_RepoID other)) || negb (String.eqb (h_FilePath h) (h_FilePath other))
  then false
  else
    let '(s1, e1) := Range h in
    let '(s2, e2) := Range other in
    (s1 <=? e2)%Z && (s2 <=? e1)%Z.

(** The key of a hit's file in the maps of [internal/search]: the repository and
    the path around a zero byte. *)
Definition zero_byte : ascii := ascii_of_nat 0.
Definition file_key (h : Hit) : string := h_RepoID h +:+ String zero_byte (h_FilePath h).

Definition set_score (h : Hit) (s : f32) : Hit := {|
  h_RepoID := h_RepoID h; h_FilePath := h_FilePath h; h_Path := h_Path h; h_Line := h_Line h;
  h_EndLine := h_EndLine h; h_Symbol := h_Symbol h; h_Kind := h_Kind h; h_Language := h_Language h;
  h_Score := s; h_Snippet := h_Snippet h; h_Reason := h_Reason h |}.
Definition set_reason (h : Hit) (r : string) : Hit := {|
  h_RepoID := h_RepoID h; h_FilePath := h_FilePath h; h_Path := h_Path h; h_Line := h_Line h;
  h_EndLine := h_EndLine h; h_Symbol := h_Symbol h; h_Kind := h_Kind h; h_Language := h_Language h;
  h_Score := h_Score h; h_Snippet := h_Snippet h; h_Reason := r |}.
Definition set_lines (h : Hit) (line endLine : Z) : Hit := {|
  h_RepoID := h_RepoID h; h_FilePath := h_FilePath h; h_Path := h_Path h; h_Line := line;
  h_EndLine := endLine; h_Symbol := h_Symbol h; h_Kind := h_Kind h; h_Language := h_Language h;
  h_Score := h_Score h; h_Snippet := h_Snippet h; h_Reason := h_Reason h |}.

(** The comparator of [sortHits]. *)
Definition hit_less : Hit → Hit → bool :=
  then_by_desc h_Score (then_by h_RepoID (then_by h_FilePath (then_by h_Line tie))).
Definition sortHits : list Hit → list Hit := SliceSort hit_less.

(** ** Filters *)

(** [index.Filters] *)
Record Filters := { f_Languages : list string; f_Kinds : list string; f_PathPrefix : string }.

Definition Filters_Empty (f : Filters) : bool :=
  (length (f_Languages f) =? 0) && (length (f_Kinds f) =? 0) && String.eqb (f_PathPrefix f) "".

Definition containsFold (l : list string) (v : string) : bool :=
  if String.eqb v "" then false else existsb (λ item, EqualFold item v) l.

(** [Filters.Match] *)
Definition Filters_Match (f : Filters) (language kind path : string) : bool :=
  if (0 <? length (f_Languages f)) && negb (containsFold (f_Languages f) language) then false
  else if (0 <? length (f_Kinds f)) && negb (containsFold (f_Kinds f) kind) then false
  else if negb (String.eqb (f_PathPrefix f) "") && negb (HasPrefix path (f_PathPrefix f)) then false
  else true.

(** The dynamic values of a raw filter map: a string, a [[]string], a
    [[]interface{}] or anything else. *)
Inductive RawValue :=
  | RawString (s : string)
  | RawStrings (l : list string)
  | RawList (l : list RawValue)
  | RawOther.

(** [toStrings] *)
Fixpoint toStrings (v : RawValue) : list string :=
  match v with
  | RawString s => let s := TrimSpace s in if String.eqb s "" then [] else [s]
  | RawStrings l => filter (λ s, s ≠ "") (map TrimSpace l)
  | RawList l => concat (map toStrings l)
  | RawOther => []
  end.

(** One turn of the loop of [ParseFilters]. *)
Definition parse_filter (f : Filters) (entry : string * RawValue) : Filters :=
  let '(key, value) := entry in
  let key := ToLower (TrimSpace key) in
  if String.eqb key "language" || String.eqb key "languages" then
    {| f_Languages := f_Languages f ++ toStrings value; f_Kinds := f_Kinds f; f_PathPrefix := f_PathPrefix f |}
  else if String.eqb key "kind" || String.eqb key "kinds" then
    {| f_Languages := f_Languages f; f_Kinds := f_Kinds f ++ toStrings value; f_PathPrefix := f_PathPrefix f |}
  else if String.eqb key "path" || String.eqb key "path_prefix" then
    match toStrings value with
    | v :: _ => {| f_Languages := f_Languages f; f_Kinds := f_Kinds f; f_PathPrefix := v |}
    | [] => f
    end
  else f.

(** [ParseFilters] of a map, its entries in the order the iteration meets them. *)
Definition ParseFilters (raw : list (string * RawValue)) : Filters :=
  let f := foldl parse_filter {| f_Languages := []; f_Kinds := []; f_PathPrefix := "" |} raw in
  {| f_Languages := SortStrings (f_Languages f); f_Kinds := SortStrings (f_Kinds f);
     f_PathPrefix := f_PathPrefix f |}.

(** ** Sorting hits *)

#[export] Instance hit_order_swo : SwoOn (λ h, not_nan (h_Score h)) hit_less.
Proof.
  apply (then_by_desc_swo not_nan); [done |].
  repeat (apply (then_by_swo (λ _, True)); [done |]). apply tie_swo.
Qed.

Lemma hit_less_tie a b :
  not_nan (h_Score a) → not_nan (h_Score b) → hit_less a b = false → hit_less b a = false →
  feq (h_Score a) (h_Score b) = true ∧ h_RepoID a = h_RepoID b ∧ h_FilePath a = h_FilePath b ∧
  h_Line a = h_Line b.
Proof.
  intros Ha Hb H1 H2. unfold hit_less in *.
  apply (then_by_desc_tie not_nan) in H2 as (E1 & H2 & H1'); [|done|done|done].
  apply (then_by_tie (λ _, True)) in H1' as (E2 & H1'' & H2'); [|done|done|done].
  apply (then_by_tie (λ _, True)) in H2' as (E3 & H2'' & H1'''); [|done|done|done].
  apply (then_by_tie (λ _, True)) in H1''' as (E4 & _ & _); [|done|done|done].
  simpl in *. bool_prop.
  split_and!; [exact E1 | done | done | done].
Qed.

(** ** Filters *)

(** Which field of the filters an entry sets. *)
Definition filter_key (entry : string * RawValue) : string := ToLower (TrimSpace (fst entry)).
Definition is_language (e : string * RawValue) : bool :=
  String.eqb (filter_key e) "language" || String.eqb (filter_key e) "languages".
Definition is_kind (e : string * RawValue) : bool :=
  String.eqb (filter_key e) "kind" || String.eqb (filter_key e) "kinds".
(** An entry that sets the path prefix, and to what. *)
Definition path_value (e : string * RawValue) : option string :=
  if String.eqb (filter_key e) "path" || String.eqb (filter_key e) "path_prefix"
  then head (toStrings (snd e)) else None.

Lemma parse_filter_eq f e :
  parse_filter f e =
  {| f_Languages := f_Languages f ++ (if is_language e then toStrings (snd e) else []);
     f_Kinds := f_Kinds f ++ (if is_kind e then toStrings (snd e) else []);
     f_PathPrefix := default (f_PathPrefix f) (path_value e) |}.
Proof.
  unfold parse_filter, is_language, is_kind, path_value. destruct e as [k v].
  change (filter_key (k, v)) with (ToLower (TrimSpace k)). set (key := ToLower (TrimSpace k)). clearbody key.
  destruct (String.eqb_spec key "language") as [->|]; simpl; [by rewrite !app_nil_r |].
  destruct (String.eqb_spec key "languages") as [->|]; simpl; [by rewrite !app_nil_r |].
  destruct (String.eqb_spec key "kind") as [->|]; simpl; [by rewrite !app_nil_r |].
  destruct (String.eqb_spec key "kinds") as [->|]; simpl; [by rewrite !app_nil_r |].
  rewrite !app_nil_r. destruct (_ || _), f; [|done]. simpl. by destruct (toStrings v).
Qed.

Lemma parse_filters_fold raw f :
  foldl parse_filter f raw =
  {| f_Languages := f_Languages f ++ concat (map (λ e, if is_language e then toStrings (snd e) else []) raw);
     f_Kinds := f_Kinds f ++ concat (map (λ e, if is_kind e then toStrings (snd e) else []) raw);
     f_PathPrefix := default (f_PathPrefix f) (last (omap path_value raw)) |}.
Proof.
  revert f. induction raw as [|e raw IH]; intros f; simpl; [rewrite !app_nil_r; by destruct f |].
  rewrite IH, parse_filter_eq. simpl. rewrite !app_assoc. f_equal.
  change (list_omap _ _ path_value raw) with (omap path_value raw).
  destruct (path_value e) as [p|]; [|done].
  destruct (omap path_value raw) as [|q l]; [done |]. rewrite last_cons_cons.
  by destruct (last (q :: l)) eqn:El; [|apply last_None in El].
Qed.

Lemma concat_map_perm {A B} (f : A → list B) l l' : l ≡ₚ l' → concat (map f l) ≡ₚ concat (map f l').
Proof. intros H. rewrite <- !flat_map_concat_map. by apply Permutation_flat_map. Qed.

(** ** Properties *)

(** Hits are served in one order: the result of sorting does not depend on the
    order a searcher returned them in, when no score is NaN and no two hits share
    score, file and start line. *)
Theorem sortHits_order hits hits' :
  hits ≡ₚ hits' → Forall (λ h, not_nan (h_Score h)) hits →
  (∀ a b, a ∈ hits → b ∈ hits → feq (h_Score a) (h_Score b) = true → h_RepoID a = h_RepoID b →
     h_FilePath a = h_FilePath b → h_Line a = h_Line b → a = b) →
  sortHits hits = sortHits hits' ∧ sorted_by hit_less (sortHits hits).
Proof.
  intros HP Hn Hsep. split; [|by apply (SliceSort_sorted hit_less (λ h, not_nan (h_Score h)))].
  symmetry. apply (SliceSort_perm_eq hit_less (λ h, not_nan (h_Score h))); [done | | done].
  intros a b Ha Hb H1 H2. rewrite Forall_forall in Hn.
  destruct (hit_less_tie a b (Hn a Ha) (Hn b Hb) H1 H2) as (?&?&?&?). by apply Hsep.
Qed.

Definition scored_hit (file : string) (line endLine : Z) (score : f32) : Hit := {|
  h_RepoID := "r"; h_FilePath := file; h_Path := file; h_Line := line; h_EndLine := endLine;
  h_Symbol := ""; h_Kind := ""; h_Language := "go"; h_Score := score; h_Snippet := ""; h_Reason := "" |}.

Lemma sortHits_order_witness :
  sortHits [scored_hit "rpc.go" 1 9 (f32_lit 3 10); scored_hit "handlers.go" 1 9 (f32_lit 3 10)]
  = sortHits [scored_hit "handlers.go" 1 9 (f32_lit 3 10); scored_hit "rpc.go" 1 9 (f32_lit 3 10)].
Proof.
  apply sortHits_order.
  - constructor.
  - repeat constructor; discriminate.
  - intros a b Ha Hb _ _. rewrite !elem_of_cons, elem_of_nil in Ha, Hb.
    destruct Ha as [->|[->|[]]], Hb as [->|[->|[]]]; vm_compute; congruence.
Defined.

(** Two chunks that start on one line with one score keep the order they came in. *)
Example sortHits_same_line :
  let card := scored_hit "a.go" 1 30 (f32_lit 3 10) in
  let window := scored_hit "a.go" 1 60 (f32_lit 3 10) in
  sortHits [card; window] = [card; window] ∧ sortHits [window; card] = [window; card].
Proof. split; reflexivity. Qed.

(** A query's filters do not depend on the order its map is iterated in: the
    languages and the kinds never do, and the path prefix does not when at most one
    entry sets it. *)
Theorem ParseFilters_order raw raw' :
  raw ≡ₚ raw' →
  f_Languages (ParseFilters raw) = f_Languages (ParseFilters raw') ∧
  f_Kinds (ParseFilters raw) = f_Kinds (ParseFilters raw') ∧
  (length (omap path_value raw) ≤ 1 → ParseFilters raw = ParseFilters raw').
Proof.
  intros HP. unfold ParseFilters. rewrite !parse_filters_fold. simpl.
  assert (∀ f : string * RawValue → list string,
            SortStrings (concat (map f raw)) = SortStrings (concat (map f raw'))) as E
    by (intros f; by apply SortStrings_perm_eq, concat_map_perm).
  rewrite !E. split_and!; [done | done |]. intros Hl. f_equal.
  assert (omap path_value raw ≡ₚ omap path_value raw') as HP' by by rewrite HP.
  destruct (omap path_value raw) as [|p [|]] eqn:Eo; [| | simpl in Hl; lia].
  - by apply Permutation_nil_l in HP' as ->.
  - by apply Permutation_singleton_l in HP' as ->.
Qed.

Lemma ParseFilters_order_witness :
  ParseFilters [("Language", RawString "go"); ("languages", RawStrings ["java"]); ("path", RawString "src/")]
  = ParseFilters [("path", RawString "src/"); ("languages", RawStrings ["java"]); ("Language", RawString "go")].
Proof.
  apply ParseFilters_order; [|vm_compute; lia].
  apply (Permutation_rev [("Language", RawString "go"); ("languages", RawStrings ["java"]); ("path", RawString "src/")]).
Defined.

(** A query that sets both spellings of the path filter gets whichever the map
    iteration meets last. *)
Example ParseFilters_path_order :
  f_PathPrefix (ParseFilters [("path", RawString "src/"); ("path_prefix", RawString "lib/")]) = "lib/" ∧
  f_PathPrefix (ParseFilters [("path_prefix", RawString "lib/"); ("path", RawString "src/")]) = "src/".
Proof. split; reflexivity. Qed.
