(* ===== verification/Search.v ===== *)
(** * Hybrid search ([internal/search/hybrid.go])

    Retrieval from the searchers, fusion of their lists, the rerank stage, and the
    merging of overlapping spans.  A hit is never nil here: [sortHits] runs on every
    searcher's list before anything else reads it and dereferences each hit.  A hit
    the code shares and edits in place — the representative of a cluster, a kept
    span — is an entry of a list, named by its index, and an edit is an update of
    that entry. *)

From S2P Require Import Prelude GoStrings GoSort GoFloat Hits.
From Stdlib Require Import Strings.Ascii.

(** ** Queries, searchers and configuration *)

Inductive IndexType := IndexTypeAST | IndexTypeVector | IndexTypeBM25 | IndexTypeCustom.

#[export] Instance IndexType_eq_dec : EqDecision IndexType.
Proof. solve_decision. Defined.

Definition index_type_string (t : IndexType) : string :=
  match t with
  | IndexTypeAST => "ast" | IndexTypeVector => "vector" | IndexTypeBM25 => "bm25"
  | IndexTypeCustom => "custom"
  end.

Record SearchQuery := {
  sq_Query : string;
  sq_RepoID : string;
  sq_Repos : list string;
  sq_Limit : Z;
  sq_Filter : list (string * RawValue);
  sq_Intent : string;
}.

(** The metadata values the search service records. *)
Inductive MetaVal :=
  | MBool (b : bool)
  | MInt (z : Z)
  | MString (s : string)
  | MStrings (l : list string)
  | MErrors (m : gmap string string).
Abbreviation Meta := (gmap string MetaVal).

Record SearchResult := { sr_Hits : list Hit; sr_Total : Z; sr_Query : string; sr_Metadata : Meta }.

(** An error: its text, and whether [index.ErrIndexDamaged] is in its chain. *)
Record Err := { err_text : string; err_damaged : bool }.

(** [index.Searcher]: an error, or a result that may be nil. *)
Abbreviation Searcher := (SearchQuery → Err + option SearchResult).

(** [llm.Reranker.Rerank] *)
Abbreviation Reranker := (string → list string → Err + list f64).

Inductive FusionMethod := FusionRRF | FusionConvex.

Definition fusion_string (m : FusionMethod) : string :=
  match m with FusionRRF => "rrf" | FusionConvex => "convex" end.

(** [search.Config]; [cfg_Weights] is the map of weights. *)
Record Config := {
  cfg_Method : FusionMethod;
  cfg_RRFK : f64;
  cfg_Weights : IndexType → option f32;
  cfg_NoMerge : bool;
}.

Definition DefaultConfig : Config := {|
  cfg_Method := FusionRRF;
  cfg_RRFK := f64_lit 60 1;
  cfg_Weights t := match t with
                   | IndexTypeVector | IndexTypeBM25 => Some (f32_lit 1 1)
                   | _ => None
                   end;
  cfg_NoMerge := false
|}.

(** [search.Service] *)
Record Service := {
  sv_searchers : IndexType → option Searcher;
  sv_config : Config;
  sv_reranker : option Reranker;
  sv_rerankTopN : Z;
}.

Definition defaultRerankTopN : Z := 50.
Definition searchOrder : list IndexType := [IndexTypeVector; IndexTypeBM25].

(** [New] *)
Definition New (searchers : IndexType → option Searcher) (cfg : option Config) : Service := {|
  sv_searchers := searchers; sv_config := default DefaultConfig cfg;
  sv_reranker := None; sv_rerankTopN := 0
|}.

(** [Service.SetReranker] *)
Definition SetReranker (s : Service) (r : option Reranker) (topN : Z) : Service := {|
  sv_searchers := sv_searchers s; sv_config := sv_config s; sv_reranker := r;
  sv_rerankTopN := if (topN <=? 0)%Z then defaultRerankTopN else topN
|}.

Definition getWeight (s : Service) (typ : IndexType) : f32 :=
  default (f32_lit 1 1) (cfg_Weights (sv_config s) typ).

(** [Service.topN] *)
Definition topN (s : Service) : Z :=
  match sv_reranker s with
  | None => 0
  | Some _ => if (sv_rerankTopN s <=? 0)%Z then defaultRerankTopN else sv_rerankTopN s
  end.

(** [Service.candidateQuery] *)
Definition candidateQuery (s : Service) (q : SearchQuery) : SearchQuery :=
  let n := topN s in
  if (n <=? sq_Limit q)%Z then q
  else {| sq_Query := sq_Query q; sq_RepoID := sq_RepoID q; sq_Repos := sq_Repos q;
          sq_Limit := n; sq_Filter := sq_Filter q; sq_Intent := sq_Intent q |}.

(** [settleSearcherOrder] *)
Definition settleSearcherOrder (r : SearchResult) : SearchResult :=
  {| sr_Hits := sortHits (sr_Hits r); sr_Total := sr_Total r; sr_Query := sr_Query r;
     sr_Metadata := sr_Metadata r |}.

(** ** Merging spans *)

Definition mergeReason : string := "merged".

Definition appendMergeReason (reason : string) : string :=
  if String.eqb reason "" then mergeReason else reason +:+ "+" +:+ mergeReason.

(** The widening of [into] over [hit]. *)
Definition widen (into hit : Hit) : Hit :=
  let '(start, end_) := Range into in
  let '(otherStart, otherEnd) := Range hit in
  let into := set_lines into (if (otherStart <? start)%Z then otherStart else h_Line into)
                (if (end_ <? otherEnd)%Z then otherEnd else h_EndLine into) in
  if Contains (h_Reason into) mergeReason then into
  else set_reason into (appendMergeReason (h_Reason into)).

(** The state of the loop of [mergeSpans]: the kept hits, the indices of those of
    each file, and how many hits were merged away. *)
Record merge_state := { ms_kept : list Hit; ms_byFile : gmap string (list nat); ms_merged : Z }.

(** The first of [cands] whose kept hit overlaps [hit]. *)
Definition find_overlap (kept : list Hit) (hit : Hit) (cands : list nat) : option (nat * Hit) :=
  head (omap (λ i, match kept !! i with
                   | Some k => if Overlaps k hit then Some (i, k) else None
                   | None => None
                   end) cands).

Definition merge_step (st : merge_state) (hit : Hit) : merge_state :=
  match find_overlap (ms_kept st) hit (bucket (ms_byFile st) (file_key hit)) with
  | None => {| ms_kept := ms_kept st ++ [hit];
               ms_byFile := push (file_key hit) (length (ms_kept st)) (ms_byFile st);
               ms_merged := ms_merged st |}
  | Some (i, into) => {| ms_kept := <[i := widen into hit]> (ms_kept st);
                         ms_byFile := ms_byFile st; ms_merged := ms_merged st + 1 |}
  end.

(** [mergeSpans] *)
Definition mergeSpans (hits : list Hit) (meta : Meta) : list Hit * Meta :=
  if length hits <? 2 then (hits, meta)
  else
    let st := foldl merge_step {| ms_kept := []; ms_byFile := ∅; ms_merged := 0 |} hits in
    (ms_kept st,
     if (0 <? ms_merged st)%Z then <["merged_spans" := MInt (ms_merged st)]> meta else meta).

(** [truncate] *)
Definition truncate (hits : list Hit) (limit : Z) : list Hit :=
  if (0 <? limit)%Z && (limit <? Z.of_nat (length hits))%Z then take (Z.to_nat limit) hits else hits.

(** ** Fusion *)

Record cluster := {
  cl_hit : Hit;
  cl_score : f32;
  cl_bestRank : nat;
  cl_sources : list IndexType;
  cl_reasons : list string;
}.

(** A searcher's hits, with their source ([indexedResult]). *)
Record indexedResult := { ir_result : SearchResult; ir_source : IndexType }.

(** [appendReason] *)
Definition appendReason (reasons : list string) (reason : string) (source : IndexType) : list string :=
  let reason := if String.eqb reason "" then index_type_string source else reason in
  foldl (λ rs part,
           let part := TrimSpace part in
           if String.eqb part "" then rs
           else if existsb (String.eqb part) rs then rs else rs ++ [part])
    reasons (SplitByte reason "+").

(** The state of [fuseBy]: the clusters in first-seen order, and the indices of the
    cluster of each key and of the clusters of each file. *)
Record fuse_state := {
  fs_order : list cluster;
  fs_byKey : gmap string nat;
  fs_byFile : gmap string (list nat);
}.

(** The first of [cands] that may absorb [hit]: another source found it, and it
    overlaps. *)
Definition find_cluster (order : list cluster) (source : IndexType) (hit : Hit) (cands : list nat)
    : option nat :=
  List.find (λ i, match order !! i with
                  | Some c => negb (bool_decide (source ∈ cl_sources c)) && Overlaps (cl_hit c) hit
                  | None => false
                  end) cands.

(** What a hit adds to its cluster. *)
Definition contribute_to (c : cluster) (source : IndexType) (hit : Hit) (contribution : f32) : cluster := {|
  cl_hit := cl_hit c; cl_score := f32_add (cl_score c) contribution; cl_bestRank := cl_bestRank c;
  cl_sources := if decide (source ∈ cl_sources c) then cl_sources c else cl_sources c ++ [source];
  cl_reasons := appendReason (cl_reasons c) (h_Reason hit) source
|}.

(** One turn of the inner loop of [fuseBy]. *)
Definition fuse_step (contribute : IndexType → nat → Hit → f32) (source : IndexType)
    (st : fuse_state) (rank : nat) (hit : Hit) : fuse_state :=
  let contribution := contribute source rank hit in
  let found :=
    match fs_byKey st !! Key hit with
    | Some i => Some i
    | None => find_cluster (fs_order st) source hit (bucket (fs_byFile st) (file_key hit))
    end in
  match found with
  | None =>
      let c := {| cl_hit := hit; cl_score := f32_lit 0 1; cl_bestRank := rank;
                  cl_sources := []; cl_reasons := [] |} in
      {| fs_order := fs_order st ++ [contribute_to c source hit contribution];
         fs_byKey := <[Key hit := length (fs_order st)]> (fs_byKey st);
         fs_byFile := push (file_key hit) (length (fs_order st)) (fs_byFile st) |}
  | Some i =>
      {| fs_order := alter (λ c,
           let c := if rank <? cl_bestRank c
                    then {| cl_hit := hit; cl_score := cl_score c; cl_bestRank := rank;
                            cl_sources := cl_sources c; cl_reasons := cl_reasons c |}
                    else c in
           contribute_to c source hit contribution) i (fs_order st);
         fs_byKey := fs_byKey st; fs_byFile := fs_byFile st |}
  end.

(** The inner loop, over one source's hits from rank [rank] on. *)
Fixpoint fuse_hits (contribute : IndexType → nat → Hit → f32) (source : IndexType)
    (st : fuse_state) (rank : nat) (hits : list Hit) : fuse_state :=
  match hits with
  | [] => st
  | h :: hits => fuse_hits contribute source (fuse_step contribute source st rank h) (S rank) hits
  end.

Definition fuse_clusters (contribute : IndexType → nat → Hit → f32) (results : list indexedResult)
    : fuse_state :=
  foldl (λ st r, fuse_hits contribute (ir_source r) st 0 (sr_Hits (ir_result r)))
    {| fs_order := []; fs_byKey := ∅; fs_byFile := ∅ |} results.

Definition cluster_hit (c : cluster) : Hit :=
  set_reason (set_score (cl_hit c) (cl_score c)) (Join (cl_reasons c) "+").

(** [fuseBy] *)
Definition fuseBy (results : list indexedResult) (contribute : IndexType → nat → Hit → f32) : list Hit :=
  sortHits (map cluster_hit (fs_order (fuse_clusters contribute results))).

(** [fuseRRF] *)
Definition fuseRRF (s : Service) (results : list indexedResult) : list Hit :=
  let k := cfg_RRFK (sv_config s) in
  let k := if feq k (f64_lit 0 1) then f64_lit 60 1 else k in
  fuseBy results (λ source rank _,
    f32_mul (f32_of_f64 (f64_div (f64_lit 1 1) (f64_add k (f64_of_Z (Z.of_nat rank + 1)))))
            (getWeight s source)).

(** The bounds of one source's scores in [fuseConvex]; zero when it has no hit. *)
Definition score_bounds (hits : list Hit) : f32 * f32 :=
  match hits with
  | [] => (f32_lit 0 1, f32_lit 0 1)
  | h :: hits =>
      foldl (λ '(lo, hi) x,
               (if flt (h_Score x) lo then h_Score x else lo,
                if flt hi (h_Score x) then h_Score x else hi))
        (h_Score h, h_Score h) hits
  end.

(** The bounds of a source: those of its last list. *)
Definition span_of (results : list indexedResult) (source : IndexType) : f32 * f32 :=
  match last (filter (λ r, ir_source r = source) results) with
  | Some r => score_bounds (sr_Hits (ir_result r))
  | None => (f32_lit 0 1, f32_lit 0 1)
  end.

(** [fuseConvex] *)
Definition fuseConvex (s : Service) (results : list indexedResult) : list Hit :=
  fuseBy results (λ source _ hit,
    let '(lo, hi) := span_of results source in
    let floor := if flt lo (f32_lit 0 1) then lo else f32_lit 0 1 in
    let normalised :=
      if flt floor hi then f32_div (f32_sub (h_Score hit) floor) (f32_sub hi floor) else f32_lit 1 1 in
    f32_mul normalised (getWeight s source)).

(** [Service.method] and [Service.fuse] *)
Definition method (s : Service) : FusionMethod := cfg_Method (sv_config s).
Definition fuse (s : Service) (results : list indexedResult) : list Hit :=
  match method s with FusionConvex => fuseConvex s results | FusionRRF => fuseRRF s results end.

(** ** Collecting results *)

Record searcherFailure := { fl_source : IndexType; fl_err : Err }.

(** The goroutines of [collectResults]: the one of index [i] writes its outcome at
    [i].  They finish in the order [sched] gives. *)
Definition run_searchers (s : Service) (q : SearchQuery) (sched : list nat)
    : gmap nat (Err + option SearchResult) :=
  foldl (λ outcomes i,
           match searchOrder !! i with
           | Some typ => match sv_searchers s typ with
                         | Some srch => <[i := srch q]> outcomes
                         | None => outcomes
                         end
           | None => outcomes
           end) ∅ sched.

(** The loop that reads the outcomes, once every goroutine is done. *)
Fixpoint read_outcomes (s : Service) (outcomes : gmap nat (Err + option SearchResult)) (i : nat)
    (order : list IndexType) : list indexedResult * list searcherFailure :=
  match order with
  | [] => ([], [])
  | typ :: order =>
      let '(results, failures) := read_outcomes s outcomes (S i) order in
      match sv_searchers s typ with
      | None => (results, failures)
      | Some _ =>
          match outcomes !! i with
          | Some (inl err) => (results, {| fl_source := typ; fl_err := err |} :: failures)
          | Some (inr (Some r)) =>
              ({| ir_result := settleSearcherOrder r; ir_source := typ |} :: results, failures)
          | Some (inr None) | None =>
              (results, {| fl_source := typ;
                           fl_err := {| err_text := "searcher returned nil result"; err_damaged := false |} |}
                        :: failures)
          end
      end
  end.

(** [collectResults], its goroutines finishing in the order [sched] *)
Definition collectResults (s : Service) (query : SearchQuery) (sched : list nat)
    : list indexedResult * list searcherFailure :=
  read_outcomes s (run_searchers s (candidateQuery s query) sched) 0 searchOrder.

(** [primaryFailure] of a non-empty list *)
Definition primaryFailure (f : searcherFailure) (fs : list searcherFailure) : Err :=
  match List.find (λ f, err_damaged (fl_err f)) (f :: fs) with
  | Some f => fl_err f
  | None => fl_err f
  end.

(** [addFailureMetadata] *)
Definition addFailureMetadata (meta : Meta) (results : list indexedResult)
    (failures : list searcherFailure) : Meta :=
  let meta := <["searchers" := MStrings (map (λ r, index_type_string (ir_source r)) results)]> meta in
  if length failures =? 0 then meta
  else
    <["searcher_errors" := MErrors (foldl (λ m f, <[index_type_string (fl_source f) := err_text (fl_err f)]> m)
                                      ∅ failures)]>
      (<["failed_searchers" := MStrings (map (λ f, index_type_string (fl_source f)) failures)]>
        (<["degraded" := MBool true]> meta)).

(** [Service.Candidates] *)
Definition Candidates (s : Service) (query : SearchQuery) (sched : list nat) : Err + (list Hit * Meta) :=
  let '(results, failures) := collectResults s query sched in
  match results, failures with
  | [], f :: fs =>
      let e := primaryFailure f fs in
      inl {| err_text := "all searchers failed: " +:+ err_text e; err_damaged := err_damaged e |}
  | [], [] => inr ([], ∅)
  | _, _ =>
      inr (fuse s results,
           <["fusion" := MString (fusion_string (method s))]> (addFailureMetadata ∅ results failures))
  end.

(** [Service.CandidatesFrom] *)
Definition CandidatesFrom (s : Service) (typ : IndexType) (query : SearchQuery) : Err + (list Hit * Meta) :=
  match sv_searchers s typ with
  | None => inr ([], ∅)
  | Some srch =>
      match srch (candidateQuery s query) with
      | inl e => inl e
      | inr None =>
          inl {| err_text := "searcher " +:+ index_type_string typ +:+ " returned no result"; err_damaged := false |}
      | inr (Some r) => let r := settleSearcherOrder r in inr (sr_Hits r, sr_Metadata r)
      end
  end.

(** ** The rerank stage *)

Definition rerankMaxDocBytes : nat := 4096.

(** [utf8.RuneStart]: not a continuation byte. *)
Definition RuneStart (b : ascii) : bool :=
  negb (Z.land (Z.of_nat (nat_of_ascii b)) 192 =? 128)%Z.

(** The loop of [truncateRerankDoc]. *)
Fixpoint rune_cut (doc : string) (cut : nat) : nat :=
  match cut with
  | O => O
  | S cut' =>
      match String.get cut doc with
      | Some b => if RuneStart b then cut else rune_cut doc cut'
      | None => cut
      end
  end.

(** [truncateRerankDoc] *)
Definition truncateRerankDoc (doc : string) : string :=
  if String.length doc <=? rerankMaxDocBytes then doc
  else String.substring 0 (rune_cut doc rerankMaxDocBytes) doc.

Definition nonEmpty (values : list string) : list string := filter (λ v, v ≠ "") values.

(** The document of a hit that the reranker is given. *)
Definition rerank_doc (h : Hit) : string :=
  let doc := h_Snippet h in
  let doc := if String.eqb doc "" then TrimSpace (Join (nonEmpty [h_Kind h; h_Symbol h; h_Path h]) " ") else doc in
  let doc := if String.eqb doc "" then h_FilePath h else doc in
  truncateRerankDoc doc.

Definition fmax (x y : spec_float) : spec_float := if flt x y then y else x.
Definition fmin (x y : spec_float) : spec_float := if flt y x then y else x.

(** [blendRerankScores] of a non-empty head. *)
Definition blendRerankScores (h0 : Hit) (hs tail : list Hit) (s0 : f64) (ss : list f64) : list f32 :=
  let head := h0 :: hs in
  let scores := s0 :: ss in
  let hi := foldl (λ hi h, fmax hi (h_Score h)) (h_Score h0) head in
  let lo := foldl (λ lo h, fmin lo (h_Score h)) (h_Score h0) head in
  let lo := foldl (λ lo h, fmax lo (h_Score h)) lo tail in
  let hi := if flt hi lo then lo else hi in
  let maxScore := foldl fmax s0 scores in
  let minScore := foldl fmin s0 scores in
  if feq maxScore minScore then map h_Score head
  else
    let hi :=
      if feq hi lo then
        let step := if flt (f32_lit 0 1) hi then f32_mul hi (f32_lit 1 1000) else f32_lit 1 1000000 in
        f32_add lo (f32_mul step (f32_of_Z (Z.of_nat (length head))))
      else hi in
    let span := f64_of_f32 (f32_sub hi lo) in
    map (λ sc, let t := f64_div (f64_sub sc minScore) (f64_sub maxScore minScore) in
               f32_add lo (f32_of_f64 (f64_mul t span))) scores.

(** A reranked hit: the blended score, and the mark in its reason. *)
Definition rerank_hit (h : Hit) (score : f32) : Hit :=
  set_reason (set_score h score)
    (if String.eqb (h_Reason h) "" then "rerank" else h_Reason h +:+ "+rerank").

Definition score_desc : Hit → Hit → bool := then_by_desc h_Score tie.

(** [applyRerank] *)
Definition applyRerank (s : Service) (query : string) (hits : list Hit) (meta : Meta) : list Hit * Meta :=
  match sv_reranker s with
  | None => (hits, meta)
  | Some rerank =>
      if length hits <=? 1 then (hits, meta)
      else
        let n := Z.to_nat (topN s) `min` length hits in
        let head := take n hits in
        let tail := drop n hits in
        let answer :=
          match rerank query (map rerank_doc head) with
          | inl e => inl (err_text e)
          | inr scores =>
              if negb (length scores =? n)
              then inl ("got " +:+ Itoa (Z.of_nat (length scores)) +:+ " scores for "
                        +:+ Itoa (Z.of_nat n) +:+ " documents")
              else inr scores
          end in
        match answer with
        | inl e => (hits, <["rerank_error" := MString e]> (<["reranked" := MBool false]> meta))
        | inr scores =>
            match head, scores with
            | h0 :: hs, s0 :: ss =>
                let blended := blendRerankScores h0 hs tail s0 ss in
                (SliceSort score_desc (zip_with rerank_hit head blended) ++ tail,
                 <["rerank_candidates" := MInt (Z.of_nat n)]> (<["reranked" := MBool true]> meta))
            | _, _ => (hits, meta)
            end
        end
  end.

(** ** Ranking and searching *)

(** [Service.Rank] *)
Definition Rank (s : Service) (query : string) (hits : list Hit) (meta : Meta) (limit : Z)
    : list Hit * Meta :=
  let '(ranked, meta) := applyRerank s query hits meta in
  let '(ranked, meta) := if cfg_NoMerge (sv_config s) then (ranked, meta) else mergeSpans ranked meta in
  (truncate ranked limit, meta).

(** [Service.singleSearch] *)
Definition singleSearch (s : Service) (typ : IndexType) (query : SearchQuery) : Err + SearchResult :=
  match sv_searchers s typ with
  | None => inr {| sr_Hits := []; sr_Total := 0; sr_Query := sq_Query query; sr_Metadata := ∅ |}
  | Some srch =>
      match srch (candidateQuery s query) with
      | inl e => inl e
      | inr None =>
          inl {| err_text := "searcher " +:+ index_type_string typ +:+ " returned no result"; err_damaged := false |}
      | inr (Some r) =>
          let r := settleSearcherOrder r in
          let '(hits, meta) := Rank s (sq_Query query) (sr_Hits r) (sr_Metadata r) (sq_Limit query) in
          inr {| sr_Hits := hits; sr_Total := Z.of_nat (length hits); sr_Query := sr_Query r;
                 sr_Metadata := meta |}
      end
  end.

(** [Service.Search] *)
Definition SearchHybrid (s : Service) (query : SearchQuery) (fusion : bool) (sched : list nat)
    : Err + SearchResult :=
  if negb fusion then singleSearch s IndexTypeVector query
  else
    match Candidates s query sched with
    | inl e => inl e
    | inr (hits, meta) =>
        let '(hits, meta) := Rank s (sq_Query query) hits meta (sq_Limit query) in
        inr {| sr_Hits := hits; sr_Total := Z.of_nat (length hits); sr_Query := sq_Query query;
               sr_Metadata := meta |}
    end.

(** [SemanticSearch] and [KeywordSearch] *)
Definition SemanticSearch (s : Service) : SearchQuery → Err + SearchResult := singleSearch s IndexTypeVector.
Definition KeywordSearch (s : Service) : SearchQuery → Err + SearchResult := singleSearch s IndexTypeBM25.
