(* ===== verification/SearchMerge.v ===== *)
(** * Merging spans, ranking and truncation

    What [mergeSpans], [applyRerank] and [Rank] do to the list they are given: the
    lines it covers, the order it is in, and what is never lost. *)

From S2P Require Import Prelude GoStrings GoSort GoFloat Hits Search.
From Stdlib Require Import Strings.Ascii.

(** ** Lines *)

(** A hit whose end is not before its start: what a searcher that knows both lines
    of a chunk reports. *)
Definition ranged (h : Hit) : Prop := (h_Line h ≤ h_EndLine h)%Z.

(** The hit covers line [l] of the file. *)
Definition covers (repo file : string) (l : Z) (h : Hit) : Prop :=
  h_RepoID h = repo ∧ h_FilePath h = file ∧ (fst (Range h) ≤ l ≤ snd (Range h))%Z.

Definition covered (repo file : string) (l : Z) (hits : list Hit) : Prop :=
  ∃ h, h ∈ hits ∧ covers repo file l h.

Lemma Range_ranged h : ranged h → Range h = (h_Line h, h_EndLine h).
Proof. unfold ranged, Range. intros H. destruct (Z.ltb_spec (h_EndLine h) (h_Line h)); [lia | done]. Qed.

Lemma Overlaps_spec a b :
  Overlaps a b = true ↔
  h_RepoID a = h_RepoID b ∧ h_FilePath a = h_FilePath b ∧
  (fst (Range a) ≤ snd (Range b))%Z ∧ (fst (Range b) ≤ snd (Range a))%Z.
Proof.
  unfold Overlaps. destruct (String.eqb_spec (h_RepoID a) (h_RepoID b)); simpl; [|naive_solver].
  destruct (String.eqb_spec (h_FilePath a) (h_FilePath b)); simpl; [|naive_solver].
  rewrite andb_true_iff, !Z.leb_le. naive_solver.
Qed.

Lemma widen_file a b : h_RepoID (widen a b) = h_RepoID a ∧ h_FilePath (widen a b) = h_FilePath a.
Proof. unfold widen. destruct (Range a), (Range b). by case_if. Qed.

Lemma widen_lines a b :
  ranged a → ranged b →
  h_Line (widen a b) = Z.min (h_Line a) (h_Line b) ∧
  h_EndLine (widen a b) = Z.max (h_EndLine a) (h_EndLine b).
Proof.
  intros Ha Hb. unfold widen. rewrite !Range_ranged by done.
  case_if; simpl; destruct (Z.ltb_spec (h_Line b) (h_Line a)), (Z.ltb_spec (h_EndLine a) (h_EndLine b)); lia.
Qed.

Lemma widen_ranged a b : ranged a → ranged b → ranged (widen a b).
Proof. intros Ha Hb. destruct (widen_lines a b Ha Hb) as [E1 E2]. unfold ranged in *. lia. Qed.

(** Two overlapping spans widen into one that covers the lines of both, and no
    others. *)
Lemma widen_covers repo file l a b :
  ranged a → ranged b → Overlaps a b = true →
  covers repo file l (widen a b) ↔ covers repo file l a ∨ covers repo file l b.
Proof.
  intros Ha Hb (E1 & E2 & H1 & H2)%Overlaps_spec.
  destruct (widen_file a b) as [F1 F2], (widen_lines a b Ha Hb) as [L1 L2].
  unfold covers. rewrite (Range_ranged (widen a b)) by by apply widen_ranged.
  rewrite (Range_ranged a), (Range_ranged b) in * by done. simpl in *.
  rewrite F1, F2, L1, L2, <- E1, <- E2. unfold ranged in *. split.
  - intros (-> & -> & H). destruct (Z.le_gt_cases (h_Line a) l), (Z.le_gt_cases l (h_EndLine a));
      [left | right | right | lia]; repeat split; lia.
  - intros [(-> & -> & H)|(-> & -> & H)]; repeat split; lia.
Qed.

(** ** The loop of [mergeSpans] *)

(** A hit without what merging may change. *)
Definition strip_span (h : Hit) : Hit := set_reason (set_lines h 0 0) "".

Lemma widen_strip a b : strip_span (widen a b) = strip_span a.
Proof. unfold widen. destruct (Range a), (Range b). by case_if. Qed.

Lemma find_overlap_spec kept hit cands i k :
  find_overlap kept hit cands = Some (i, k) → i ∈ cands ∧ kept !! i = Some k ∧ Overlaps k hit = true.
Proof.
  unfold find_overlap. intros H%head_Some_elem_of.
  apply list_elem_of_omap in H as (j & Hj & H). destruct (kept !! j) as [k'|] eqn:E; [|done].
  destruct (Overlaps k' hit) eqn:O; [|done]. by simplify_eq.
Qed.

Lemma elem_of_update (kept : list Hit) i k k' h :
  kept !! i = Some k → h ∈ <[i := k']> kept ↔ h = k' ∨ ∃ j, j ≠ i ∧ kept !! j = Some h.
Proof.
  intros Hi. rewrite list_elem_of_lookup. split.
  - intros [j Hj]. destruct (decide (j = i)) as [->|Hn].
    + rewrite list_lookup_insert_eq in Hj by (by eapply lookup_lt_Some). left. congruence.
    + rewrite list_lookup_insert_ne in Hj by done. right. eauto.
  - intros [->|(j & Hn & Hj)].
    + exists i. apply list_lookup_insert_eq. by eapply lookup_lt_Some.
    + exists j. by rewrite list_lookup_insert_ne.
Qed.

(** What the loop keeps true of the hits it has read. *)
Record merge_inv (read : list Hit) (st : merge_state) : Prop := {
  mi_ranged : Forall ranged (ms_kept st);
  mi_covered repo file l : covered repo file l (ms_kept st) ↔ covered repo file l read;
  mi_order : map strip_span (ms_kept st) `sublist_of` map strip_span read;
  mi_count : (Z.of_nat (length (ms_kept st)) + ms_merged st = Z.of_nat (length read))%Z;
  mi_head : head (map strip_span (ms_kept st)) = head (map strip_span read);
}.

Lemma covered_app repo file l a b :
  covered repo file l (a ++ b) ↔ covered repo file l a ∨ covered repo file l b.
Proof. unfold covered. setoid_rewrite elem_of_app. naive_solver. Qed.

Lemma covered_one repo file l h : covered repo file l [h] ↔ covers repo file l h.
Proof. unfold covered. setoid_rewrite list_elem_of_singleton. naive_solver. Qed.

Lemma merge_step_inv read st hit :
  ranged hit → merge_inv read st → merge_inv (read ++ [hit]) (merge_step st hit).
Proof.
  intros Hr [Hk Hc Ho Hn Hh]. unfold merge_step.
  destruct (find_overlap _ hit _) as [[i into]|] eqn:E.
  - apply find_overlap_spec in E as (_ & Hi & HO).
    assert (ranged into) as Hin by by eapply Forall_lookup_1 in Hi.
    assert (map strip_span (<[i:=widen into hit]> (ms_kept st)) = map strip_span (ms_kept st)) as Hstrip.
    { change (map strip_span) with (fmap (M:=list) strip_span). rewrite list_fmap_insert, widen_strip.
      apply list_insert_id. rewrite list_lookup_fmap, Hi. done. }
    split; simpl.
    + apply Forall_insert; [done | by apply widen_ranged].
    + intros repo file l. rewrite covered_app, covered_one, <- Hc. unfold covered.
      setoid_rewrite (elem_of_update _ i into); [|done]. split.
      * intros (h & [->|(j & Hj & Hl)] & Hcov).
        -- apply widen_covers in Hcov as [?|?]; auto. left. exists into. split; [|done].
           by eapply list_elem_of_lookup_2.
        -- left. exists h. split; [|done]. by eapply list_elem_of_lookup_2.
      * intros [(h & Hl & Hcov)|Hcov].
        -- apply list_elem_of_lookup in Hl as [j Hj]. destruct (decide (j = i)) as [->|Hji].
           ++ simplify_eq. exists (widen into hit). split; [by left |]. apply widen_covers; auto.
           ++ exists h. split; [right; eauto | done].
        -- exists (widen into hit). split; [by left |]. apply widen_covers; auto.
    + rewrite Hstrip, map_app. by apply sublist_inserts_r.
    + rewrite length_insert, length_app. simpl. lia.
    + rewrite Hstrip, Hh, map_app. destruct read as [|r read]; [|done].
      destruct (ms_kept st); [done |]. simpl in Hn. simpl in Hh. done.
  - split; simpl.
    + apply Forall_app. by repeat constructor.
    + intros repo file l. by rewrite !covered_app, Hc.
    + rewrite !map_app. by apply sublist_app.
    + rewrite !length_app. simpl. lia.
    + rewrite !map_app. destruct read as [|r read], (ms_kept st) as [|k kept]; done.
Qed.

Lemma merge_fold_inv hits read st :
  Forall ranged hits → merge_inv read st → merge_inv (read ++ hits) (foldl merge_step st hits).
Proof.
  revert read st. induction hits as [|h hits IH]; intros read st Hr Hi; simpl; [by rewrite app_nil_r |].
  apply Forall_cons in Hr as [Hh Hr]. rewrite (cons_middle h read hits), app_assoc.
  apply IH; [done |]. by apply merge_step_inv.
Qed.

Lemma mergeSpans_inv hits meta :
  Forall ranged hits → let kept := fst (mergeSpans hits meta) in
  Forall ranged kept ∧
  (∀ repo file l, covered repo file l kept ↔ covered repo file l hits) ∧
  map strip_span kept `sublist_of` map strip_span hits ∧
  head (map strip_span kept) = head (map strip_span hits).
Proof.
  intros Hr. simpl. unfold mergeSpans. destruct (length hits <? 2); [done |].
  destruct (merge_fold_inv hits [] {| ms_kept := []; ms_byFile := ∅; ms_merged := 0 |} Hr)
    as [H1 H2 H3 _ H5]; [|done].
  split; simpl; done || constructor.
Qed.

(** ** The rerank stage *)

(** A hit without what reranking may change. *)
Definition strip_rank (h : Hit) : Hit := set_reason (set_score h (f32_lit 0 1)) "".

Lemma rerank_hit_strip h sc : strip_rank (rerank_hit h sc) = strip_rank h.
Proof. unfold rerank_hit. by case_if. Qed.

Lemma zip_rerank_strip hs scores :
  length hs = length scores → map strip_rank (zip_with rerank_hit hs scores) = map strip_rank hs.
Proof.
  revert scores. induction hs as [|h hs IH]; intros [|sc scores] Hl; try done.
  simpl in *. rewrite rerank_hit_strip. f_equal. apply IH. lia.
Qed.

Lemma blendRerankScores_length h0 hs tail s0 ss :
  length (s0 :: ss) = length (h0 :: hs) → length (blendRerankScores h0 hs tail s0 ss) = length (h0 :: hs).
Proof.
  intros Hl. unfold blendRerankScores.
  destruct (feq (foldl fmax s0 (s0 :: ss)) (foldl fmin s0 (s0 :: ss))); rewrite length_map; done.
Qed.

Definition rerank_window (s : Service) (hits : list Hit) : nat := Z.to_nat (topN s) `min` length hits.

(** The reranked head of a list. *)
Definition reranked_head (s : Service) (hits head' : list Hit) : Prop :=
  map strip_rank head' ≡ₚ map strip_rank (take (rerank_window s hits) hits) ∧
  (Forall (λ h, not_nan (h_Score h)) head' → sorted_by score_desc head').

Lemma score_desc_swo : SwoOn (λ h, not_nan (h_Score h)) score_desc.
Proof. apply (then_by_desc_swo not_nan); [done | apply tie_swo]. Qed.

Lemma applyRerank_cases s query hits meta :
  fst (applyRerank s query hits meta) = hits ∨
  ∃ head', fst (applyRerank s query hits meta) = head' ++ drop (rerank_window s hits) hits ∧
           reranked_head s hits head'.
Proof.
  unfold applyRerank, reranked_head, rerank_window. destruct (sv_reranker s) as [rerank|]; [|by left].
  destruct (length hits <=? 1); [by left |]. set (n := Z.to_nat (topN s) `min` length hits).
  destruct (rerank query _) as [e|scores]; [by left |].
  destruct (Nat.eqb_spec (length scores) n) as [Hl|]; simpl; [|by left].
  assert (length (take n hits) = n) as Hn by (rewrite length_take; lia).
  destruct (take n hits) as [|h0 hs] eqn:Et; [by left |]. destruct scores as [|s0 ss]; [by left |].
  right. eexists. split; [reflexivity |].
  assert (length (blendRerankScores h0 hs (drop n hits) s0 ss) = length (h0 :: hs)) as Hb
    by (apply blendRerankScores_length; congruence).
  split.
  - rewrite <- (zip_rerank_strip (h0 :: hs) _ (eq_sym Hb)). apply Permutation_map, SliceSort_perm.
  - intros Hnan. apply (SliceSort_sorted score_desc (λ h, not_nan (h_Score h)) (SwoOn0:=score_desc_swo)).
    by rewrite SliceSort_perm in Hnan.
Qed.

Lemma strip_rank_covers repo file l h : covers repo file l (strip_rank h) ↔ covers repo file l h.
Proof. done. Qed.

Lemma covered_strip repo file l hits : covered repo file l (map strip_rank hits) ↔ covered repo file l hits.
Proof.
  unfold covered. split.
  - intros (h & Hh & Hc). apply list_elem_of_In, in_map_iff in Hh as (x & <- & Hx).
    apply list_elem_of_In in Hx. eauto.
  - intros (h & Hh & Hc). exists (strip_rank h). split; [|done].
    apply list_elem_of_In, in_map, list_elem_of_In. done.
Qed.

Lemma applyRerank_perm s query hits meta :
  map strip_rank (fst (applyRerank s query hits meta)) ≡ₚ map strip_rank hits.
Proof.
  destruct (applyRerank_cases s query hits meta) as [->|(head' & -> & HP & _)]; [done |].
  rewrite map_app, HP, <- map_app, take_drop. done.
Qed.

Lemma applyRerank_covered s query hits meta repo file l :
  covered repo file l (fst (applyRerank s query hits meta)) ↔ covered repo file l hits.
Proof.
  rewrite <- covered_strip, <- (covered_strip _ _ _ hits). unfold covered.
  by setoid_rewrite (applyRerank_perm s query hits meta).
Qed.

Lemma Forall_ranged_strip hits : Forall ranged (map strip_rank hits) ↔ Forall ranged hits.
Proof. rewrite Forall_map. done. Qed.

Lemma applyRerank_ranged s query hits meta :
  Forall ranged hits → Forall ranged (fst (applyRerank s query hits meta)).
Proof.
  rewrite <- Forall_ranged_strip. rewrite <- (applyRerank_perm s query hits meta).
  by rewrite Forall_ranged_strip.
Qed.

(** ** Properties *)

(** Merging spans loses no line and invents none: whatever file and line,
    some kept hit covers it exactly when some hit of the list did. The kept hits
    are hits of the list, in its order, changed in their range and reason only,
    and the best-ranked one stays first. *)
Theorem mergeSpans_lines hits meta :
  Forall ranged hits →
  let kept := fst (mergeSpans hits meta) in
  (∀ repo file l, covered repo file l kept ↔ covered repo file l hits) ∧
  map strip_span kept `sublist_of` map strip_span hits ∧
  head (map strip_span kept) = head (map strip_span hits).
Proof. intros Hr. apply (mergeSpans_inv hits meta Hr). Qed.

(** A hit of the examples. *)
Definition line_hit (file : string) (line endLine : Z) (score : f32) : Hit := {|
  h_RepoID := "r"; h_FilePath := file; h_Path := file; h_Line := line; h_EndLine := endLine;
  h_Symbol := ""; h_Kind := ""; h_Language := "go"; h_Score := score; h_Snippet := ""; h_Reason := "bm25" |}.

Lemma mergeSpans_lines_witness :
  let hits := [line_hit "a.go" 20 40 (f32_lit 9 10); line_hit "b.go" 1 5 (f32_lit 8 10);
               line_hit "a.go" 35 60 (f32_lit 7 10)] in
  covered "r" "a.go" 50 (fst (mergeSpans hits ∅)).
Proof.
  cbv zeta. apply mergeSpans_lines.
  - repeat constructor; unfold ranged; simpl; lia.
  - exists (line_hit "a.go" 35 60 (f32_lit 7 10)). split; [right; right; left |].
    unfold covers. vm_compute. repeat split; discriminate.
Defined.

(** A hit that knows its start line only loses it when an overlapping hit widens it
    upwards: line 10 is no longer in the answer. *)
Example mergeSpans_unset_end :
  let hits := [line_hit "a.go" 10 0 (f32_lit 9 10); line_hit "a.go" 8 10 (f32_lit 8 10)] in
  map Range hits = [(10, 10); (8, 10)]%Z ∧ map Range (fst (mergeSpans hits ∅)) = [(8, 8)]%Z.
Proof. split; reflexivity. Qed.

(** Two kept hits may end up covering the same lines: a span widened later is not
    merged again. *)
Example mergeSpans_overlap_left :
  let hits := [line_hit "a.go" 1 10 (f32_lit 9 10); line_hit "a.go" 20 30 (f32_lit 8 10);
               line_hit "a.go" 8 25 (f32_lit 7 10)] in
  map Range (fst (mergeSpans hits ∅)) = [(1, 25); (20, 30)]%Z.
Proof. reflexivity. Qed.

(** The reranker reorders, it never answers. What it returns — scores, the
    wrong number of them, or an error — the list keeps its hits, up to score and
    reason; those past the window keep their places; an error leaves the list
    exactly as it was; and when no blended score is NaN the window is served best
    score first. *)
Theorem applyRerank_safe s query hits meta :
  let out := fst (applyRerank s query hits meta) in
  map strip_rank out ≡ₚ map strip_rank hits ∧
  drop (rerank_window s hits) out = drop (rerank_window s hits) hits ∧
  (∀ rerank e, sv_reranker s = Some rerank →
     rerank query (map rerank_doc (take (rerank_window s hits) hits)) = inl e → out = hits) ∧
  (out = hits ∨ reranked_head s hits (take (rerank_window s hits) out)).
Proof.
  simpl. split; [apply applyRerank_perm |].
  assert (∀ head', reranked_head s hits head' → length head' = rerank_window s hits) as Hlen.
  { intros head' [HP _]. apply Permutation_length in HP. rewrite !length_map, length_take in HP.
    unfold rerank_window in *. lia. }
  split; [|split].
  - destruct (applyRerank_cases s query hits meta) as [->|(head' & -> & H)]; [done |].
    rewrite <- (Hlen head' H). by rewrite drop_app_length.
  - intros rerank e Hr He. unfold applyRerank, rerank_window in *. rewrite Hr.
    destruct (length hits <=? 1); [done |]. by rewrite He.
  - destruct (applyRerank_cases s query hits meta) as [->|(head' & -> & H)]; [by left | right].
    rewrite <- (Hlen head' H). by rewrite take_app_length.
Qed.

Definition rerank_service (r : Reranker) : Service :=
  SetReranker (New (λ _, None) None) (Some r) 2.

Lemma applyRerank_safe_witness :
  fst (applyRerank (rerank_service (λ _ _, inl {| err_text := "timeout"; err_damaged := false |})) "q"
         [line_hit "a.go" 1 2 (f32_lit 9 10); line_hit "b.go" 1 2 (f32_lit 8 10)] ∅)
  = [line_hit "a.go" 1 2 (f32_lit 9 10); line_hit "b.go" 1 2 (f32_lit 8 10)].
Proof.
  destruct (applyRerank_safe (rerank_service (λ _ _, inl {| err_text := "timeout"; err_damaged := false |})) "q"
              [line_hit "a.go" 1 2 (f32_lit 9 10); line_hit "b.go" 1 2 (f32_lit 8 10)] ∅) as (_ & _ & H & _).
  exact (H _ _ eq_refl eq_refl).
Defined.

(** The rank stage — rerank, merge, cut — answers at most [limit] hits, never
    nothing for something, and covers no line that retrieval did not find; without
    a limit it covers every line that retrieval found. *)
Theorem Rank_bounds s query hits meta limit :
  Forall ranged hits →
  let out := fst (Rank s query hits meta limit) in
  ((0 < limit)%Z → (Z.of_nat (length out) ≤ limit)%Z) ∧
  (hits ≠ [] → out ≠ []) ∧
  (∀ repo file l, covered repo file l out → covered repo file l hits) ∧
  ((limit ≤ 0)%Z → ∀ repo file l, covered repo file l hits → covered repo file l out).
Proof.
  intros Hr. unfold Rank.
  pose proof (applyRerank_covered s query hits meta) as Hc.
  pose proof (applyRerank_ranged s query hits meta Hr) as Hr'.
  pose proof (applyRerank_perm s query hits meta) as HP.
  destruct (applyRerank s query hits meta) as [ranked meta1]. simpl in *.
  assert (∃ kept meta2, (if cfg_NoMerge (sv_config s) then (ranked, meta1) else mergeSpans ranked meta1)
            = (kept, meta2) ∧ (∀ repo file l, covered repo file l kept ↔ covered repo file l hits) ∧
            (hits ≠ [] → kept ≠ [])) as (kept & meta2 & -> & Hk & Hn).
  { assert (hits ≠ [] → ranked ≠ []) as Hn.
    { intros H ->. apply Permutation_nil_l in HP. by apply H, map_eq_nil with (f:=strip_rank). }
    destruct (cfg_NoMerge (sv_config s)); [by exists ranked, meta1 |].
    destruct (mergeSpans_inv ranked meta1 Hr') as (_ & H2 & _ & H4).
    destruct (mergeSpans ranked meta1) as [kept meta2]. exists kept, meta2. split; [done |].
    simpl in *. split; [intros; by rewrite H2, Hc |].
    intros H%Hn. destruct ranked; [done |]. by destruct kept. }
  simpl. unfold truncate. destruct (Z.ltb_spec 0 limit); simpl.
  2: { split_and!; [lia | done | |]; intros; by apply Hk. }
  split_and!; [| | |lia].
  - intros _. destruct (Z.ltb_spec limit (Z.of_nat (length kept))); [rewrite length_take |]; lia.
  - intros H'%Hn. destruct (Z.ltb_spec limit (Z.of_nat (length kept))); [|done].
    destruct kept; [done |]. by destruct (Z.to_nat limit) eqn:E; [lia |].
  - intros repo file l (h & Hh & Hcov). apply Hk. exists h. split; [|done].
    destruct (Z.ltb _ _); [by apply elem_of_take in Hh as (i & ?%list_elem_of_lookup_2 & _) | done].
Qed.

Lemma Rank_bounds_witness :
  (Z.of_nat (length (fst (Rank (New (λ _, None) None) "q"
     [line_hit "a.go" 1 2 (f32_lit 9 10); line_hit "b.go" 1 2 (f32_lit 8 10)] ∅ 1))) ≤ 1)%Z.
Proof.
  apply (Rank_bounds (New (λ _, None) None) "q"
           [line_hit "a.go" 1 2 (f32_lit 9 10); line_hit "b.go" 1 2 (f32_lit 8 10)] ∅ 1).
  - repeat constructor; unfold ranged; simpl; lia.
  - lia.
Defined.
