(* ===== verification/SearchFuse.v ===== *)
(** * Fusion and retrieval

    What [fuseBy] makes of the searchers' lists, whichever fusion function weighs
    them, and what [collectResults] and [Candidates] make of the searchers. *)

From S2P Require Import Prelude GoStrings GoSort GoFloat Hits Search SearchMerge.
From stdpp Require Import pretty.
From Stdlib Require Import Strings.Ascii.

(** ** Keys *)

Lemma pretty_N_char_colon x : Ascii.eqb ":" (pretty.pretty_N_char x) = false.
Proof. unfold pretty.pretty_N_char. by repeat case_match. Qed.

Lemma pretty_N_go_colon x s :
  ContainsByte ":" s = false → ContainsByte ":" (pretty.pretty_N_go x s) = false.
Proof.
  revert s. induction (N.lt_wf_0 x) as [x _ IH]; intros s Hs.
  destruct (decide (0 < x)%N) as [Hx|Hx].
  - rewrite pretty.pretty_N_go_step by done. apply IH; [apply N.div_lt; lia |].
    unfold ContainsByte in *. by rewrite ContainsFunc_cons, pretty_N_char_colon.
  - by replace x with 0%N by lia.
Qed.

Lemma Itoa_colon z : ContainsByte ":" (Itoa z) = false.
Proof.
  unfold Itoa. destruct z as [|p|p]; cbn -[pretty.pretty_N_go ContainsByte].
  - done.
  - unfold pretty.pretty, pretty.pretty_positive, pretty.pretty, pretty.pretty_N.
    case_decide; [done | by apply pretty_N_go_colon].
  - unfold ContainsByte. rewrite ContainsFunc_cons.
    unfold pretty.pretty, pretty.pretty_positive, pretty.pretty, pretty.pretty_N.
    case_decide; [done |]. simpl. by apply pretty_N_go_colon.
Qed.

Lemma CutLast_colon a b : ContainsByte ":" b = false → CutLast (Ascii.eqb ":") (a +:+ ":" +:+ b) = Some (a, b).
Proof. intros H. apply (CutLast_app (Ascii.eqb ":") a ":" b); [done | by apply ContainsFunc_false]. Qed.

(** A key names one span: repository names hold no colon. *)
Lemma Key_inj h h' :
  ContainsByte ":" (h_RepoID h) = false → ContainsByte ":" (h_RepoID h') = false →
  Key h = Key h' → h_RepoID h = h_RepoID h' ∧ h_FilePath h = h_FilePath h'.
Proof.
  unfold Key. intros H H' E. rewrite <- !str_app_assoc in E.
  rewrite (str_app_assoc _ ":" (Itoa (h_EndLine h))), (str_app_assoc _ ":" (Itoa (h_EndLine h'))) in E.
  apply (f_equal (CutLast (Ascii.eqb ":"))) in E. rewrite !CutLast_colon in E by apply Itoa_colon.
  injection E as E _.
  rewrite (str_app_assoc _ ":" (Itoa (h_Line h))), (str_app_assoc _ ":" (Itoa (h_Line h'))) in E.
  apply (f_equal (CutLast (Ascii.eqb ":"))) in E. rewrite !CutLast_colon in E by apply Itoa_colon.
  injection E as E _. rewrite !str_app_assoc in E.
  apply (f_equal (Cut (Ascii.eqb ":"))) in E.
  change (":" +:+ ?s) with (String ":" s) in E.
  rewrite !Cut_app in E by (done || by apply ContainsFunc_false). by injection E.
Qed.

(** ** Clusters *)

Definition same_file (a b : Hit) : Prop := h_RepoID a = h_RepoID b ∧ h_FilePath a = h_FilePath b.

Section Fuse.
  Context (contribute : IndexType → nat → Hit → f32).
  (** The hits of all the sources. *)
  Context (all : list Hit).
  Context (keys : ∀ h h', h ∈ all → h' ∈ all → Key h = Key h' → same_file h h').

(** What the loop keeps true of the hits it has read. *)
Record fuse_inv (read : list Hit) (st : fuse_state) : Prop := {
  fi_from c : c ∈ fs_order st → cl_hit c ∈ read;
  fi_file h : h ∈ read → ∃ c, c ∈ fs_order st ∧ same_file (cl_hit c) h;
  fi_key h i : h ∈ all → fs_byKey st !! Key h = Some i →
    ∃ c, fs_order st !! i = Some c ∧ same_file (cl_hit c) h;
  fi_count : length (fs_order st) ≤ length read;
}.

Lemma find_cluster_spec order source hit cands i :
  find_cluster order source hit cands = Some i →
  ∃ c, order !! i = Some c ∧ (source ∉ cl_sources c) ∧ Overlaps (cl_hit c) hit = true.
Proof.
  unfold find_cluster. intros [_ H]%find_some.
  destruct (order !! i) as [c|] eqn:E; [|done]. exists c. apply andb_true_iff in H as [H1 H2].
  split; [done |]. split; [|done]. apply negb_true_iff in H1. by apply bool_decide_eq_false in H1.
Qed.

Lemma elem_of_alter (l : list cluster) f i c x :
  l !! i = Some c → x ∈ alter f i l ↔ x = f c ∨ ∃ j, j ≠ i ∧ l !! j = Some x.
Proof.
  intros Hi. rewrite list_elem_of_lookup. split.
  - intros [j Hj]. destruct (decide (j = i)) as [->|Hn].
    + rewrite list_lookup_alter_eq, Hi in Hj. left. simpl in Hj. congruence.
    + rewrite list_lookup_alter_ne in Hj by done. right. eauto.
  - intros [->|(j & Hn & Hj)].
    + exists i. by rewrite list_lookup_alter_eq, Hi.
    + exists j. by rewrite list_lookup_alter_ne.
Qed.

(** Which cluster a hit goes to, if any. *)
Lemma fuse_step_cases source st rank hit read :
  fuse_inv read st → hit ∈ all →
  let st' := fuse_step contribute source st rank hit in
  (∃ i c, fs_order st !! i = Some c ∧ same_file (cl_hit c) hit ∧
     (∃ f, fs_order st' = alter f i (fs_order st) ∧ (cl_hit (f c) = cl_hit c ∨ cl_hit (f c) = hit)) ∧
     fs_byKey st' = fs_byKey st) ∨
  (∃ c, cl_hit c = hit ∧ fs_order st' = fs_order st ++ [c] ∧
     fs_byKey st' = <[Key hit := length (fs_order st)]> (fs_byKey st)).
Proof.
  intros Hi Ha. simpl. unfold fuse_step.
  destruct (fs_byKey st !! Key hit) as [i|] eqn:Ek.
  - left. destruct (fi_key _ _ Hi _ _ Ha Ek) as (c & Hc & Hf). exists i, c. split_and!; try done.
    eexists. split; [reflexivity |]. simpl. case_if; auto.
  - destruct (find_cluster _ source hit _) as [i|] eqn:Ef.
    + left. apply find_cluster_spec in Ef as (c & Hc & _ & Ho). exists i, c.
      apply Overlaps_spec in Ho as (? & ? & _). split_and!; try done.
      eexists. split; [reflexivity |]. simpl. case_if; auto.
    + right. eexists. split; [|split; reflexivity]. done.
Qed.

Lemma fuse_step_inv source st rank hit read :
  fuse_inv read st → hit ∈ all → fuse_inv (read ++ [hit]) (fuse_step contribute source st rank hit).
Proof.
  intros Hi Ha.
  destruct (fuse_step_cases source st rank hit read Hi Ha)
    as [(i & c & Hc & Hf & (f & Ho & Hh) & Hk)|(c & Hh & Ho & Hk)].
  - assert (∀ x, x ∈ fs_order (fuse_step contribute source st rank hit) ↔
                 x = f c ∨ ∃ j, j ≠ i ∧ fs_order st !! j = Some x) as Hin.
    { intros x. rewrite Ho. by apply elem_of_alter. }
    assert (same_file (cl_hit (f c)) (cl_hit c)) as Hfc.
    { destruct Hh as [->| ->]; [done |]. destruct Hf. by split. }
    destruct Hi as [H1 H2 H3 H4]. split.
    + intros x. rewrite Hin, elem_of_app, list_elem_of_singleton. intros [->|(j & _ & Hj)].
      * destruct Hh as [->| ->]; [left; by eapply H1, list_elem_of_lookup_2 | by right].
      * left. by eapply H1, list_elem_of_lookup_2.
    + intros h. rewrite elem_of_app, list_elem_of_singleton. setoid_rewrite Hin. intros [Hr| ->].
      * destruct (H2 h Hr) as (x & [j Hj]%list_elem_of_lookup & Hx). destruct (decide (j = i)) as [->|Hn].
        -- rewrite Hc in Hj. injection Hj as <-. exists (f c). split; [by left |]. destruct Hfc, Hx. split; congruence.
        -- exists x. split; [right; eauto | done].
      * exists (f c). split; [by left |]. destruct Hfc, Hf. split; congruence.
    + intros h j Hah. rewrite Hk, Ho. intros Hj. destruct (H3 h j Hah Hj) as (x & Hx & Hfx).
      destruct (decide (j = i)) as [->|Hn].
      * rewrite Hc in Hx. injection Hx as <-. exists (f c). rewrite list_lookup_alter_eq, Hc. split; [done |].
        destruct Hfc, Hfx. split; congruence.
      * exists x. by rewrite list_lookup_alter_ne.
    + rewrite Ho, length_alter, length_app. simpl. lia.
  - destruct Hi as [H1 H2 H3 H4]. split.
    + intros x. rewrite Ho, !elem_of_app, !list_elem_of_singleton. intros [Hx| ->]; [left; auto | by right].
    + intros h. rewrite Ho. setoid_rewrite elem_of_app. rewrite list_elem_of_singleton. intros [Hr| ->].
      * destruct (H2 h Hr) as (x & Hx & Hfx). exists x. split; [by left | done].
      * exists c. split; [right; by apply list_elem_of_singleton | by rewrite Hh].
    + intros h j Hah. rewrite Hk, Ho. destruct (decide (Key hit = Key h)) as [E|E].
      * rewrite E, lookup_insert_eq. intros [= <-]. exists c. split.
        -- rewrite lookup_app_r, Nat.sub_diag by done. done.
        -- rewrite Hh. by apply keys.
      * rewrite lookup_insert_ne by done. intros Hj. destruct (H3 h j Hah Hj) as (x & Hx & Hfx).
        exists x. split; [|done]. by apply lookup_app_l_Some.
    + rewrite Ho, !length_app. simpl. lia.
Qed.

Lemma fuse_hits_inv source st rank hits read :
  fuse_inv read st → (∀ h, h ∈ hits → h ∈ all) →
  fuse_inv (read ++ hits) (fuse_hits contribute source st rank hits).
Proof.
  revert st rank read. induction hits as [|h hits IH]; intros st rank read Hi Ha; simpl;
    [by rewrite app_nil_r |].
  rewrite (cons_middle h read hits), app_assoc. apply IH.
  - apply fuse_step_inv; [done |]. apply Ha. by left.
  - intros x Hx. apply Ha. by right.
Qed.

Lemma fuse_results_inv results st read :
  fuse_inv read st → (∀ r h, r ∈ results → h ∈ sr_Hits (ir_result r) → h ∈ all) →
  fuse_inv (read ++ (results ≫= (λ r, sr_Hits (ir_result r))))
    (foldl (λ st r, fuse_hits contribute (ir_source r) st 0 (sr_Hits (ir_result r))) st results).
Proof.
  revert st read. induction results as [|r results IH]; intros st read Hi Ha; simpl;
    [by rewrite app_nil_r |].
  rewrite app_assoc. apply IH.
  - apply fuse_hits_inv; [done |]. intros h Hh. by apply (Ha r h); [left |].
  - intros r' h Hr. apply Ha. by right.
Qed.

End Fuse.

(** The hits of all the sources. *)
Definition source_hits (results : list indexedResult) : list Hit := results ≫= (λ r, sr_Hits (ir_result r)).

Lemma fuse_clusters_inv contribute results :
  (∀ h h', h ∈ source_hits results → h' ∈ source_hits results → Key h = Key h' → same_file h h') →
  fuse_inv (source_hits results) (source_hits results) (fuse_clusters contribute results).
Proof.
  intros Hk. apply (fuse_results_inv contribute _ Hk results _ []).
  - split; simpl; [set_solver | set_solver | | lia]. intros h i _. by rewrite lookup_empty.
  - intros r h Hr Hh. unfold source_hits. apply list_elem_of_bind. by exists r.
Qed.

Lemma cluster_hit_strip c : strip_rank (cluster_hit c) = strip_rank (cl_hit c).
Proof. done. Qed.

(** ** One source *)

(** The clusters of one source: every hit stays a candidate of its own. *)
Record single_inv (source : IndexType) (read : list Hit) (st : fuse_state) : Prop := {
  si_order : map cl_hit (fs_order st) = read;
  si_sources c : c ∈ fs_order st → source ∈ cl_sources c;
  si_keys k i : fs_byKey st !! k = Some i → k ∈ map Key read;
}.

Lemma fuse_step_single contribute source st rank hit read :
  single_inv source read st → Key hit ∉ map Key read →
  single_inv source (read ++ [hit]) (fuse_step contribute source st rank hit).
Proof.
  intros [H1 H2 H3] Hk. unfold fuse_step.
  destruct (fs_byKey st !! Key hit) as [i|] eqn:E; [by apply H3 in E |].
  destruct (find_cluster _ source hit _) as [i|] eqn:Ef.
  { apply find_cluster_spec in Ef as (c & Hc & Hs & _). destruct Hs.
    by eapply H2, list_elem_of_lookup_2. }
  split; simpl.
  - by rewrite map_app, H1.
  - intros c [Hc| ->%list_elem_of_singleton]%elem_of_app; [auto |]. simpl.
    by apply list_elem_of_singleton.
  - intros k i. rewrite map_app, elem_of_app. destruct (decide (Key hit = k)) as [<-|Hn].
    + intros _. right. by left.
    + rewrite lookup_insert_ne by done. left. eauto.
Qed.

Lemma fuse_hits_single contribute source st rank hits read :
  single_inv source read st → NoDup (map Key (read ++ hits)) →
  single_inv source (read ++ hits) (fuse_hits contribute source st rank hits).
Proof.
  revert st rank read. induction hits as [|h hits IH]; intros st rank read Hi Hd; simpl;
    [by rewrite app_nil_r |].
  rewrite (cons_middle h read hits), app_assoc in *. apply IH; [|done].
  apply fuse_step_single; [done |]. rewrite !map_app in Hd. apply NoDup_app in Hd as [Hd _].
  apply NoDup_app in Hd as (_ & Hd & _). intros Hin. apply (Hd _ Hin). by left.
Qed.

(** ** Collecting *)

(** What the goroutine of index [i] leaves behind. *)
Definition outcome_of (s : Service) (q : SearchQuery) (i : nat) : option (Err + option SearchResult) :=
  match searchOrder !! i with
  | Some typ => match sv_searchers s typ with Some srch => Some (srch q) | None => None end
  | None => None
  end.

Lemma run_searchers_lookup s q sched i :
  run_searchers s q sched !! i = if decide (i ∈ sched) then outcome_of s q i else None.
Proof.
  unfold run_searchers. induction sched as [|j sched IH] using rev_ind; [done |].
  rewrite foldl_app. cbn [foldl]. unfold outcome_of in *.
  destruct (decide (j = i)) as [->|Hn].
  - rewrite decide_True by set_solver. destruct (searchOrder !! i) as [typ|]; [|by rewrite IH; case_decide].
    destruct (sv_searchers s typ); [by rewrite lookup_insert_eq | by rewrite IH; case_decide].
  - transitivity (if decide (i ∈ sched) then match searchOrder !! i with
      | Some typ => match sv_searchers s typ with Some srch => Some (srch q) | None => None end
      | None => None end else None).
    + rewrite <- IH. destruct (searchOrder !! j) as [typ|]; [|done].
      destruct (sv_searchers s typ); [by rewrite lookup_insert_ne | done].
    + destruct (decide (i ∈ sched)), (decide (i ∈ sched ++ [j])); try done; set_solver.
Qed.

Lemma run_searchers_sched s q sched sched' :
  (∀ i, i ∈ sched ↔ i ∈ sched') → run_searchers s q sched = run_searchers s q sched'.
Proof.
  intros H. apply map_eq. intros i. rewrite !run_searchers_lookup.
  destruct (decide (i ∈ sched)), (decide (i ∈ sched')); naive_solver.
Qed.

(** How a searcher answers: a result, a failure, or not configured. *)
Definition searcher_outcome (s : Service) (q : SearchQuery) (typ : IndexType) : option (Err + SearchResult) :=
  match sv_searchers s typ with
  | None => None
  | Some srch => Some (match srch q with
                       | inl e => inl e
                       | inr (Some r) => inr (settleSearcherOrder r)
                       | inr None => inl {| err_text := "searcher returned nil result"; err_damaged := false |}
                       end)
  end.

Lemma collectResults_all s query sched :
  (∀ i, i < length searchOrder → i ∈ sched) →
  collectResults s query sched =
  (omap (λ typ, match searcher_outcome s (candidateQuery s query) typ with
                | Some (inr r) => Some {| ir_result := r; ir_source := typ |}
                | _ => None
                end) searchOrder,
   omap (λ typ, match searcher_outcome s (candidateQuery s query) typ with
                | Some (inl e) => Some {| fl_source := typ; fl_err := e |}
                | _ => None
                end) searchOrder).
Proof.
  intros Hs. unfold collectResults.
  pose proof (run_searchers_lookup s (candidateQuery s query) sched 0) as H0.
  pose proof (run_searchers_lookup s (candidateQuery s query) sched 1) as H1.
  rewrite decide_True in H0 by (apply Hs; simpl; lia).
  rewrite decide_True in H1 by (apply Hs; simpl; lia). unfold outcome_of in H0, H1. simpl in H0, H1.
  cbn [read_outcomes searchOrder]. rewrite H0, H1. unfold searcher_outcome. simpl.
  destruct (sv_searchers s IndexTypeVector) as [v|], (sv_searchers s IndexTypeBM25) as [b|]; simpl; try done.
  - destruct (v (candidateQuery s query)) as [|[]], (b (candidateQuery s query)) as [|[]]; done.
  - by destruct (v (candidateQuery s query)) as [|[]].
  - by destruct (b (candidateQuery s query)) as [|[]].
Qed.

Lemma hit_less_swo : SwoOn (λ h, not_nan (h_Score h)) hit_less.
Proof.
  apply (then_by_desc_swo not_nan); [done |].
  repeat (apply (then_by_swo (λ _, True)); [done |]). apply tie_swo.
Qed.
#[export] Existing Instance hit_less_swo.

Lemma degraded_meta m meta results failures :
  (<["fusion" := m]> (addFailureMetadata meta results failures)) !! "degraded"
  = match failures with [] => meta !! "degraded" | _ => Some (MBool true) end.
Proof.
  unfold addFailureMetadata. rewrite lookup_insert_ne by done.
  destruct failures; simpl; [by rewrite lookup_insert_ne |].
  rewrite !lookup_insert_ne by done. by rewrite lookup_insert_eq.
Qed.

Lemma primaryFailure_damaged f fs :
  err_damaged (primaryFailure f fs) = existsb (λ f, err_damaged (fl_err f)) (f :: fs).
Proof.
  unfold primaryFailure. destruct (List.find _ (f :: fs)) as [g|] eqn:E.
  - apply find_some in E as [Hg E]. rewrite E. symmetry. apply existsb_exists. eauto.
  - pose proof (find_none _ _ E f (or_introl eq_refl)) as Hf. simpl in Hf. rewrite Hf.
    symmetry. apply not_true_iff_false. rewrite existsb_exists. intros (g & Hg & Hd).
    pose proof (find_none _ _ E g Hg). congruence.
Qed.

Lemma in_searchOrder (P : IndexType → Prop) :
  (∃ typ, typ ∈ searchOrder ∧ P typ) ↔ P IndexTypeVector ∨ P IndexTypeBM25.
Proof.
  unfold searchOrder. split.
  - intros (typ & Ht & HPt). rewrite !elem_of_cons, elem_of_nil in Ht. naive_solver.
  - intros [?|?]; eexists; (split; [|done]); set_solver.
Qed.

Lemma all_searchOrder (P : IndexType → Prop) :
  (∀ typ, typ ∈ searchOrder → P typ) ↔ P IndexTypeVector ∧ P IndexTypeBM25.
Proof. unfold searchOrder. setoid_rewrite elem_of_cons. setoid_rewrite list_elem_of_singleton. naive_solver. Qed.

(** ** Properties *)

(** Fusion shuffles evidence, it never loses or invents any. Under every
    weighting of the sources, where keys tell files apart, each fused hit is a hit
    of some source up to score and reason, every file some source found is still
    there, there are no more hits than the sources gave, and when no fused score is
    NaN the list is in serving order. *)
Theorem fuseBy_hits results contribute :
  (∀ h h', h ∈ source_hits results → h' ∈ source_hits results → Key h = Key h' → same_file h h') →
  let out := fuseBy results contribute in
  (∀ o, o ∈ out → ∃ h, h ∈ source_hits results ∧ strip_rank o = strip_rank h) ∧
  (∀ h, h ∈ source_hits results → ∃ o, o ∈ out ∧ same_file o h) ∧
  length out ≤ length (source_hits results) ∧
  (Forall (λ h, not_nan (h_Score h)) out → sorted_by hit_less out).
Proof.
  intros Hk. simpl. destruct (fuse_clusters_inv contribute results Hk) as [H1 H2 _ H4].
  unfold fuseBy, sortHits. split_and!.
  - intros o. rewrite SliceSort_elem. intros (c & <- & Hc)%list_elem_of_In%in_map_iff.
    apply list_elem_of_In in Hc. exists (cl_hit c). auto.
  - intros h Hh. destruct (H2 h Hh) as (c & Hc & Hf). exists (cluster_hit c).
    rewrite SliceSort_elem. split; [|done]. by apply list_elem_of_In, in_map, list_elem_of_In.
  - by rewrite SliceSort_length, length_map.
  - intros Hn. rewrite SliceSort_perm in Hn. by apply (SliceSort_sorted hit_less (λ h, not_nan (h_Score h))).
Qed.

Definition two_sources : list indexedResult :=
  [{| ir_result := {| sr_Hits := [line_hit "a.go" 1 30 (f32_lit 9 10); line_hit "b.go" 5 9 (f32_lit 8 10)];
                      sr_Total := 2; sr_Query := "q"; sr_Metadata := ∅ |}; ir_source := IndexTypeVector |};
   {| ir_result := {| sr_Hits := [line_hit "a.go" 20 50 (f32_lit 7 1)];
                      sr_Total := 1; sr_Query := "q"; sr_Metadata := ∅ |}; ir_source := IndexTypeBM25 |}].

Lemma two_sources_keys h h' :
  h ∈ source_hits two_sources → h' ∈ source_hits two_sources → Key h = Key h' → same_file h h'.
Proof.
  intros Hh Hh'. apply Key_inj; [revert Hh; clear | revert Hh'; clear]; intros H;
    unfold source_hits, two_sources in H; simpl in H; rewrite !elem_of_cons, elem_of_nil in H;
    by destruct H as [->|[->|[->|[]]]].
Qed.

Lemma fuseBy_hits_witness :
  length (fuseBy two_sources (λ _ _ h, h_Score h)) ≤ 3.
Proof. apply (fuseBy_hits two_sources (λ _ _ h, h_Score h) two_sources_keys). Defined.

(** Only hits of different searchers are merged: fusing a single source whose
    hits are distinct spans keeps every one of them as a candidate of its own,
    overlapping or not. *)
Theorem fuseBy_single r contribute :
  NoDup (map Key (sr_Hits (ir_result r))) →
  map strip_rank (fuseBy [r] contribute) ≡ₚ map strip_rank (sr_Hits (ir_result r)).
Proof.
  intros Hd. unfold fuseBy, sortHits.
  assert (single_inv (ir_source r) ([] ++ sr_Hits (ir_result r)) (fuse_clusters contribute [r])) as [H _ _].
  { apply fuse_hits_single; [|done]. split; simpl; [done | set_solver |].
    intros k i. by rewrite lookup_empty. }
  transitivity (map strip_rank (map cluster_hit (fs_order (fuse_clusters contribute [r])))).
  - apply Permutation_map, SliceSort_perm.
  - simpl in H. rewrite <- H, !map_map. done.
Qed.

Lemma fuseBy_single_witness :
  length (fuseBy [{| ir_result := {| sr_Hits := [line_hit "a.go" 1 30 (f32_lit 9 10);
                                                  line_hit "a.go" 20 50 (f32_lit 8 10)];
                                     sr_Total := 2; sr_Query := "q"; sr_Metadata := ∅ |};
                     ir_source := IndexTypeBM25 |}] (λ _ _ h, h_Score h)) = 2.
Proof.
  rewrite <- (length_map strip_rank). erewrite Permutation_length; [|apply fuseBy_single].
  - reflexivity.
  - simpl. apply NoDup_cons. split; [|apply NoDup_singleton].
    intros H%list_elem_of_singleton. vm_compute in H. discriminate.
Defined.

(** C19: retrieval does not depend on how its goroutines are scheduled, and it
    degrades instead of failing. In whatever order the searchers finish, the answer
    is the one of the fixed search order; it is an error exactly when some searcher
    is configured and all configured ones fail, and then a damaged index stays
    visible in the error; otherwise the answer is marked degraded exactly when some
    configured searcher failed. *)
Theorem Candidates_degrade s query sched :
  sched ≡ₚ [0; 1] →
  let out typ := searcher_outcome s (candidateQuery s query) typ in
  Candidates s query sched = Candidates s query [0; 1] ∧
  match Candidates s query sched with
  | inl e =>
      (∃ typ, typ ∈ searchOrder ∧ is_Some (out typ)) ∧
      (∀ typ, typ ∈ searchOrder → ∀ r, out typ ≠ Some (inr r)) ∧
      (err_damaged e = true ↔ ∃ typ, typ ∈ searchOrder ∧ ∃ e', out typ = Some (inl e') ∧ err_damaged e' = true)
  | inr (hits, meta) =>
      ((∃ typ, typ ∈ searchOrder ∧ ∃ r, out typ = Some (inr r)) ∨ ∀ typ, typ ∈ searchOrder → out typ = None) ∧
      (meta !! "degraded" = Some (MBool true) ↔ ∃ typ, typ ∈ searchOrder ∧ ∃ e, out typ = Some (inl e))
  end.
Proof.
  intros HP out.
  assert (∀ i, i < length searchOrder → i ∈ [0; 1]) as Hs'.
  { intros i Hi. destruct i as [|[|]]; simpl in *; [by left | right; by left | lia]. }
  assert (∀ i, i < length searchOrder → i ∈ sched) as Hs.
  { intros i Hi. rewrite HP. auto. }
  unfold Candidates. rewrite (collectResults_all s query sched Hs), (collectResults_all s query [0; 1] Hs').
  split; [done |]. unfold searchOrder at 1 2. cbn [omap list_omap].
  fold (out IndexTypeVector) (out IndexTypeBM25).
  destruct (out IndexTypeVector) as [[e1|r1]|] eqn:E1, (out IndexTypeBM25) as [[e2|r2]|] eqn:E2; cbn match;
    rewrite ?in_searchOrder, ?all_searchOrder, ?E1, ?E2, ?degraded_meta, ?lookup_empty; cbn [err_damaged];
    rewrite ?primaryFailure_damaged; cbn [existsb fl_err]; rewrite ?orb_true_iff, ?orb_false_r;
    unfold searchOrder; cbn [omap list_omap]; fold (out IndexTypeVector) (out IndexTypeBM25);
    rewrite ?E1, ?E2; naive_solver.
Qed.

Definition one_broken : Service :=
  New (λ t, match t with
            | IndexTypeVector => Some (λ _, inl {| err_text := "down"; err_damaged := false |})
            | IndexTypeBM25 => Some (λ _, inr (Some {| sr_Hits := [line_hit "a.go" 1 2 (f32_lit 1 1)];
                                                       sr_Total := 1; sr_Query := "q"; sr_Metadata := ∅ |}))
            | _ => None
            end) None.
Definition plain_query : SearchQuery :=
  {| sq_Query := "q"; sq_RepoID := ""; sq_Repos := []; sq_Limit := 10; sq_Filter := []; sq_Intent := "" |}.

Lemma Candidates_degrade_witness :
  Candidates one_broken plain_query [1; 0] = Candidates one_broken plain_query [0; 1].
Proof. apply (Candidates_degrade one_broken plain_query [1; 0]). apply perm_swap. Defined.
