(* ===== verification/Paths.v ===== *)
(** * Slash-separated paths: Go's [path] and [path/filepath] packages on Unix

    [path.Clean], [path.Dir], [path.Base] and [path.Join] ([filepath] is the same
    package here: the separator of the platforms ragota serves is the slash), and
    what they do to the paths a repository walk produces; then [filepath.Rel],
    [filepath.Base] and [filepath.Ext], and the paths of a tree: the root of a
    repository, what is below it, and when a path is. *)

From S2P Require Import Prelude GoStrings.
From Stdlib Require Import Strings.Ascii.

(** ** Operations *)

(** One component read by [path.Clean]; [stack] holds the ones kept, last first. *)
Definition clean_step (rooted : bool) (stack : list string) (w : string) : list string :=
  if String.eqb w "" || String.eqb w "." then stack
  else if String.eqb w ".." then
    match stack with
    | top :: rest => if String.eqb top ".." then w :: stack else rest
    | [] => if rooted then [] else [w]
    end
  else w :: stack.

(** [path.Clean] *)
Definition Clean (p : string) : string :=
  let rooted := HasPrefix p "/" in
  let body := Join (reverse (foldl (clean_step rooted) [] (SplitByte p "/"))) "/" in
  if rooted then "/" +:+ body else if String.eqb body "" then "." else body.

(** [path.Dir]: what precedes the last slash, cleaned. *)
Definition Dir (p : string) : string :=
  match CutLast (Ascii.eqb "/") p with
  | Some (dir, _) => Clean (dir +:+ "/")
  | None => Clean ""
  end.

(** [path.Join] *)
Definition JoinPath (elems : list string) : string :=
  let elems := filter (λ e, e ≠ "") elems in
  match elems with [] => "" | _ => Clean (Join elems "/") end.

Definition IsAbs (p : string) : bool := HasPrefix p "/".

(** ** The paths of a walk *)

(** A component of a path inside a repository. *)
Definition component (w : string) : Prop :=
  w ≠ "" ∧ w ≠ "." ∧ w ≠ ".." ∧ ContainsByte "/" w = false.

Definition join_components (ws : list string) : string := Join ws "/".

Lemma clean_step_component rooted stack w : component w → clean_step rooted stack w = w :: stack.
Proof.
  intros (H1 & H2 & H3 & _). unfold clean_step.
  destruct (String.eqb_spec w ""), (String.eqb_spec w "."), (String.eqb_spec w ".."); done.
Qed.

Lemma clean_components rooted ws stack :
  Forall component ws → foldl (clean_step rooted) stack ws = reverse ws ++ stack.
Proof.
  intros H. revert stack. induction H as [|w ws Hw H IH]; intros stack; simpl; [done |].
  rewrite clean_step_component, IH, reverse_cons by done. by rewrite <- app_assoc.
Qed.

Lemma component_no_slash ws : Forall component ws → Forall (λ w, ContainsByte "/" w = false) ws.
Proof. intros H. eapply Forall_impl; [exact H |]. by intros w (_ & _ & _ & ?). Qed.

Lemma components_not_rooted ws : Forall component ws → ws ≠ [] → HasPrefix (join_components ws) "/" = false.
Proof.
  intros H Hn. destruct H as [|w ws Hw H]; [done |]. destruct Hw as (H1 & _ & _ & H2).
  destruct (HasPrefix _ "/") eqn:E; [|done]. apply HasPrefix_inv in E as [r E].
  destruct w as [|c w]; [done |]. unfold join_components in E. rewrite Join_cons in E.
  unfold ContainsByte in H2. rewrite ContainsFunc_cons in H2. bool_prop.
  destruct ws; simpl in E; injection E as -> _; by rewrite Ascii.eqb_refl in H0.
Qed.

Lemma Split_trailing ws :
  ws ≠ [] → Forall component ws → SplitByte (join_components ws +:+ "/") "/" = ws ++ [""].
Proof.
  intros Hn H. induction H as [|w ws Hw H IH]; [done |].
  assert (str_forallb (λ c, negb (Ascii.eqb "/" c)) w = true) as Hs
    by (apply ContainsFunc_false, Hw).
  unfold join_components in *. rewrite Join_cons. destruct ws as [|w' ws].
  - unfold SplitByte. by rewrite (Split_app (Ascii.eqb "/") w "/" "").
  - rewrite str_app_assoc. change ("/" +:+ ?x) with (String "/" x).
    change (String "/" ?a +:+ ?b) with (String "/" (a +:+ b)).
    unfold SplitByte in *. rewrite Split_app by done. by rewrite IH.
Qed.

Lemma join_components_nonempty ws : ws ≠ [] → Forall component ws → join_components ws ≠ "".
Proof.
  intros Hn H. destruct H as [|w ws (H1 & _) H]; [done |]. unfold join_components. rewrite Join_cons.
  destruct ws; [done |]. by destruct w.
Qed.

Lemma Clean_components_slash ws :
  ws ≠ [] → Forall component ws → Clean (join_components ws +:+ "/") = join_components ws.
Proof.
  intros Hn H. unfold Clean.
  assert (HasPrefix (join_components ws +:+ "/") "/" = false) as ->.
  { pose proof (components_not_rooted ws H Hn) as Hr.
    pose proof (join_components_nonempty ws Hn H) as He.
    destruct (join_components ws) as [|c s]; [done |].
    change (String c s +:+ "/") with (String c (s +:+ "/")). by rewrite HasPrefix_byte in *. }
  rewrite Split_trailing, foldl_app, (clean_components false ws []), app_nil_r by done. cbn [foldl].
  change (clean_step false (reverse ws) "") with (reverse ws). cbv zeta.
  rewrite reverse_involutive. fold (join_components ws).
  destruct (String.eqb_spec (join_components ws) "") as [E|]; [|done].
  by apply join_components_nonempty in E.
Qed.

Lemma Join_snoc ws w sep :
  Join (ws ++ [w]) sep = match ws with [] => w | _ => Join ws sep +:+ sep +:+ w end.
Proof.
  induction ws as [|v ws IH]; [done |]. change ((v :: ws) ++ [w]) with (v :: (ws ++ [w])).
  rewrite !Join_cons. destruct ws as [|v' ws]; [done |]. simpl app in *. rewrite IH.
  by rewrite !str_app_assoc.
Qed.

(** The directory of a path is the path without its last component. *)
Lemma Dir_components ws w :
  Forall component ws → component w →
  Dir (join_components (ws ++ [w])) = match ws with [] => "." | _ => join_components ws end.
Proof.
  intros H (_ & _ & _ & Hw). unfold Dir, join_components. rewrite Join_snoc.
  assert (str_forallb (λ c, negb (Ascii.eqb "/" c)) w = true) as Hs by by apply ContainsFunc_false.
  destruct ws as [|v ws].
  - by rewrite CutLast_none.
  - change ("/" +:+ w) with (String "/" w). rewrite CutLast_app by done.
    by apply (Clean_components_slash (v :: ws)).
Qed.

Lemma Join_app a b sep : a ≠ [] → b ≠ [] → Join (a ++ b) sep = Join a sep +:+ sep +:+ Join b sep.
Proof.
  intros Ha Hb. induction a as [|w a IH]; [done |]. change ((w :: a) ++ b) with (w :: (a ++ b)).
  rewrite !Join_cons. destruct a as [|w' a].
  - by destruct b.
  - rewrite IH by done. simpl app. cbn match. by rewrite !str_app_assoc.
Qed.

Lemma join_components_inj ws ws' :
  ws ≠ [] → ws' ≠ [] → Forall component ws → Forall component ws' →
  join_components ws = join_components ws' → ws = ws'.
Proof.
  intros Hn Hn' H H' E. unfold join_components in E.
  apply (f_equal (Split (Ascii.eqb "/"))) in E.
  by rewrite !Split_Join in E by (done || by apply component_no_slash).
Qed.

(** The directory of the first [n] components, as [path.Dir] writes it. *)
Definition dir_name (ws : list string) : string :=
  match ws with [] => "." | _ => join_components ws end.

Lemma Dir_take ws n :
  Forall component ws → n < length ws → Dir (join_components (take (S n) ws)) = dir_name (take n ws).
Proof.
  intros H Hn. destruct (lookup_lt_is_Some_2 ws n Hn) as [w Hw].
  rewrite (take_S_r ws n w Hw). rewrite Dir_components; [done | by apply Forall_take |].
  by eapply Forall_lookup_1 in Hw.
Qed.

Lemma dir_name_dot ws : Forall component ws → String.eqb (dir_name ws) "." = bool_decide (ws = []).
Proof.
  intros H. destruct H as [|w ws (H1 & H2 & H3 & H4) H]; [done |].
  rewrite bool_decide_eq_false_2 by done. apply String.eqb_neq. simpl. unfold join_components.
  rewrite Join_cons. destruct ws as [|w' ws]; [done |]. intros E.
  apply (f_equal (ContainsByte "/")) in E. unfold ContainsByte in E at 1.
  rewrite !ContainsFunc_app in E. simpl in E. by rewrite orb_true_r in E.
Qed.

Lemma component_count ws : Forall component ws → length ws ≤ String.length (join_components ws).
Proof.
  intros H. unfold join_components. induction H as [|w ws (H1 & _) H IH]; [done |]. rewrite Join_cons.
  assert (1 ≤ String.length w) as Hw by (destruct w; simpl; [done | lia]).
  destruct ws; [done |]. rewrite !str_length_app. simpl in *. lia.
Qed.

(** ** Operations *)

(** The components of a cleaned path as [filepath.Rel] compares them. *)
Definition rel_words (p : string) : list string :=
  if String.eqb p "" then [] else if String.eqb p "/" then [""] else SplitByte p "/".

(** What is left of two paths after the components they share. *)
Fixpoint strip_common (bs ts : list string) : list string * list string :=
  match bs, ts with
  | b :: bs', t :: ts' => if String.eqb b t then strip_common bs' ts' else (bs, ts)
  | _, _ => (bs, ts)
  end.

(** [filepath.Rel]; [None] for its error. *)
Definition Rel (basePath targPath : string) : option string :=
  let base := Clean basePath in
  let targ := Clean targPath in
  if String.eqb targ base then Some "."
  else
    let base := if String.eqb base "." then "" else base in
    if negb (Bool.eqb (HasPrefix base "/") (HasPrefix targ "/")) then None
    else
      let '(bs, ts) := strip_common (rel_words base) (rel_words targ) in
      match bs, ts with
      | [], _ => Some (Join ts "/")
      | b :: _, _ :: _ => if String.eqb b ".." then None else Some (Join (map (λ _, "..") bs ++ ts) "/")
      | _ :: _, [] => Some (Join (map (λ _, "..") bs) "/")
      end.

(** [filepath.Base] *)
Definition Base (p : string) : string :=
  if String.eqb p "" then "."
  else
    let p := TrimRight p "/" in
    if String.eqb p "" then "/"
    else match CutLast (Ascii.eqb "/") p with Some (_, b) => b | None => p end.

(** [filepath.Ext]: from the last dot of the last component. *)
Definition Ext (p : string) : string :=
  let last := match CutLast (Ascii.eqb "/") p with Some (_, b) => b | None => p end in
  match CutLast (Ascii.eqb ".") last with Some (_, e) => "." +:+ e | None => "" end.

(** ** Below a root *)

Lemma Split_below ws p :
  ws ≠ [] → Forall component ws → SplitByte (join_components ws +:+ String "/" p) "/" = ws ++ SplitByte p "/".
Proof.
  intros Hn H. induction H as [|w ws Hw H IH]; [done |].
  assert (str_forallb (λ c, negb (Ascii.eqb "/" c)) w = true) as Hs by (apply ContainsFunc_false, Hw).
  unfold join_components in *. rewrite Join_cons. destruct ws as [|w' ws].
  - unfold SplitByte. by rewrite (Split_app (Ascii.eqb "/") w "/" p).
  - rewrite str_app_assoc. change ("/" +:+ ?x) with (String "/" x).
    change (String "/" ?a +:+ ?b) with (String "/" (a +:+ b)).
    unfold SplitByte in *. rewrite Split_app by done. by rewrite IH.
Qed.

(** The root of a repository, as an absolute clean path. *)
Definition root_path (rs : list string) : string := "/" +:+ join_components rs.

Lemma JoinPath_root rs p :
  rs ≠ [] → Forall component rs → p ≠ "" →
  JoinPath [root_path rs; p] = "/" +:+ Join (reverse (foldl (clean_step true) (reverse rs) (SplitByte p "/"))) "/".
Proof.
  intros Hn Hr Hp. unfold JoinPath. rewrite filter_everything; [|intros x [->|[->|Hx]%elem_of_cons]%elem_of_cons; [by unfold root_path | done | by apply not_elem_of_nil in Hx]].
  change (Join [root_path rs; p] "/") with (root_path rs +:+ "/" +:+ p). unfold root_path.
  rewrite str_app_assoc. change ("/" +:+ p) with (String "/" p). change ("/" +:+ ?x) with (String "/" x). unfold Clean.
  rewrite HasPrefix_byte. cbn [Ascii.eqb Bool.eqb]. cbv zeta. do 3 f_equal.
  change (String "/" (join_components rs +:+ String "/" p)) with ("" +:+ String "/" (join_components rs +:+ String "/" p)).
  unfold SplitByte at 1. rewrite Split_app by done. fold (SplitByte (join_components rs +:+ String "/" p) "/").
  rewrite Split_below by done. cbn [foldl]. rewrite foldl_app. f_equal.
  rewrite (clean_components true rs) by done. by rewrite app_nil_r.
Qed.

Lemma root_path_abs rs : HasPrefix (root_path rs) "/" = true.
Proof. apply (HasPrefix_app "/"). Qed.

Lemma root_path_split rs : rs ≠ [] → Forall component rs → SplitByte (root_path rs) "/" = "" :: rs.
Proof.
  intros Hn H. unfold root_path. change ("/" +:+ join_components rs) with ("" +:+ String "/" (join_components rs)).
  unfold SplitByte. rewrite Split_app by done. f_equal. apply Split_Join; [done | by apply component_no_slash].
Qed.

Lemma rel_words_root rs : Forall component rs → rel_words (root_path rs) = "" :: rs.
Proof.
  intros H. unfold rel_words. assert (String.eqb (root_path rs) "" = false) as -> by done.
  destruct (String.eqb_spec (root_path rs) "/") as [E|E].
  - destruct rs as [|r rs]; [done |]. exfalso. apply (join_components_nonempty (r :: rs)); [done | done |].
    unfold root_path in E. change ("/" +:+ ?x) with (String "/" x) in E. by injection E.
  - apply root_path_split; [|done]. by intros ->.
Qed.

Lemma Clean_root_path rs : Forall component rs → Clean (root_path rs) = root_path rs.
Proof.
  intros H. destruct (decide (rs = [])) as [->|Hn]; [done |]. unfold Clean. rewrite root_path_split by done.
  rewrite root_path_abs. cbn [foldl].
  change (clean_step true [] "") with (@nil string). rewrite (clean_components true rs []) by done.
  by rewrite app_nil_r, reverse_involutive.
Qed.
Lemma Clean_root rs : rs ≠ [] → Forall component rs → Clean (root_path rs) = root_path rs.
Proof. intros _. apply Clean_root_path. Qed.

Lemma root_path_inj' rs ts : Forall component rs → Forall component ts → root_path rs = root_path ts → rs = ts.
Proof.
  intros Hr Ht E. apply (f_equal rel_words) in E. rewrite !rel_words_root in E by done. congruence.
Qed.
Lemma root_path_inj rs ts : rs ≠ [] → ts ≠ [] → Forall component rs → Forall component ts → root_path rs = root_path ts → rs = ts.
Proof. intros _ _. apply root_path_inj'. Qed.

(** A rooted path is clean once its components are. *)
Lemma Clean_abs p : IsAbs p = true → ∃ rs, Forall component rs ∧ Clean p = root_path rs.
Proof.
  unfold IsAbs, Clean. intros ->. exists (reverse (foldl (clean_step true) [] (SplitByte p "/"))). split; [|done].
  apply Forall_reverse. pose proof (SplitByte_pieces "/" p) as Hp.
  assert (∀ ws st, Forall (λ w, ContainsByte "/" w = false) ws → Forall component st → Forall component (foldl (clean_step true) st ws)) as H;
    [|by apply H].
  induction ws as [|w ws IH]; intros st Hw Hst; simpl; [done |]. apply Forall_cons in Hw as [Hw Hws]. apply IH; [done |].
  unfold clean_step. destruct (String.eqb_spec w ""); [done |]. destruct (String.eqb_spec w "."); [done |]. simpl.
  destruct (String.eqb_spec w ".."); [|by constructor].
  destruct Hst as [|t st Ht Hst]; [done |]. destruct Ht as (_ & _ & Hd & _). by destruct (String.eqb_spec t "..").
Qed.

Lemma strip_common_spec bs ts bs' ts' :
  strip_common bs ts = (bs', ts') →
  ∃ c, bs = c ++ bs' ∧ ts = c ++ ts' ∧ match bs', ts' with b :: _, t :: _ => b ≠ t | _, _ => True end.
Proof.
  revert ts. induction bs as [|b bs IH]; intros ts; simpl; [intros [= <- <-]; by exists [] |].
  destruct ts as [|t ts]; [intros [= <- <-]; by exists [] |]. destruct (String.eqb_spec b t) as [<-|Hne].
  - intros (c & -> & -> & H)%IH. by exists (b :: c).
  - intros [= <- <-]. by exists [].
Qed.

Lemma strip_common_prefix rs ws : strip_common rs (rs ++ ws) = ([], ws).
Proof. induction rs as [|r rs IH]; simpl; [done |]. by rewrite String.eqb_refl. Qed.

(** The relative path between two absolute ones: steps up, then down. *)
Lemma Rel_root_path rs ts :
  Forall component rs → Forall component ts →
  Rel (root_path rs) (root_path ts) =
  Some (if decide (rs = ts) then "." else
        let '(bs, ts') := strip_common rs ts in Join (map (λ _, "..") bs ++ ts') "/").
Proof.
  intros Cr Ct. unfold Rel. rewrite !Clean_root_path by done.
  destruct (String.eqb_spec (root_path ts) (root_path rs)) as [E|E].
  - apply root_path_inj' in E; [|done..]. by rewrite decide_True.
  - rewrite decide_False by congruence.
    assert (∀ l, String.eqb (root_path l) "." = false) as Hd by done. rewrite Hd.
    rewrite !root_path_abs. simpl negb. cbv iota. rewrite !rel_words_root by done.
    simpl. destruct (strip_common rs ts) as [bs ts'] eqn:Es.
    destruct (strip_common_spec _ _ _ _ Es) as (c & E1 & E2 & _).
    destruct bs as [|b bs]; [done |]. destruct ts' as [|t ts']; [by rewrite app_nil_r |].
    subst rs. apply Forall_app in Cr as [_ [Hb _]%Forall_cons].
    destruct Hb as (_ & _ & Hb & _). by destruct (String.eqb_spec b "..").
Qed.
Lemma Rel_root rs ts :
  rs ≠ [] → ts ≠ [] → Forall component rs → Forall component ts →
  Rel (root_path rs) (root_path ts) =
  Some (if decide (rs = ts) then "." else
        let '(bs, ts') := strip_common rs ts in Join (map (λ _, "..") bs ++ ts') "/").
Proof. intros _ _. apply Rel_root_path. Qed.

Lemma Rel_below rs ws :
  rs ≠ [] → ws ≠ [] → Forall component rs → Forall component ws →
  Rel (root_path rs) (root_path (rs ++ ws)) = Some (join_components ws).
Proof.
  intros Hr Hw Cr Cw. rewrite Rel_root; [| done | by destruct rs | done | by apply Forall_app].
  rewrite decide_False.
  - by rewrite strip_common_prefix.
  - intros E. apply (f_equal length) in E. rewrite length_app in E. destruct ws; simpl in *; [done | lia].
Qed.

(** Joining a component to an absolute path. *)
Lemma JoinPath_component rs w :
  rs ≠ [] → Forall component rs → component w → JoinPath [root_path rs; w] = root_path (rs ++ [w]).
Proof.
  intros Hn Hr Hw. rewrite JoinPath_root by (try done; apply Hw).
  assert (SplitByte w "/" = [w]) as -> by (unfold SplitByte; apply Split_none, ContainsFunc_false, Hw).
  cbn [foldl]. rewrite clean_step_component by done. by rewrite reverse_cons, reverse_involutive.
Qed.

Lemma Base_component rs w : Forall component rs → component w → Base (root_path (rs ++ [w])) = w.
Proof.
  intros Hr Hw. unfold Base.
  assert (root_path (rs ++ [w]) = (match rs with [] => "" | _ => root_path rs end) +:+ String "/" w) as E.
  { unfold root_path, join_components. rewrite Join_snoc. destruct rs; [done |].
    change (String "/" w) with ("/" +:+ w). by rewrite str_app_assoc. }
  assert (String.eqb (root_path (rs ++ [w])) "" = false) as -> by done.
  destruct Hw as (H1 & _ & _ & H2). unfold TrimRight.
  assert (TrimRightFunc (λ c, ContainsByte c "/") (root_path (rs ++ [w])) = root_path (rs ++ [w])) as ->.
  { rewrite E. clear E.
    assert (∃ v c, w = v +:+ String c "") as (v & c & ->).
    { clear -H1. induction w as [|c w IH]; [done |]. destruct w as [|c' w]; [by exists "", c |].
      destruct IH as (v & d & E); [done |]. exists (String c v), d. by rewrite E. }
    change (String "/" (v +:+ String c "")) with (String "/" v +:+ String c ""). rewrite <- str_app_assoc.
    apply TrimRightFunc_last. unfold ContainsByte in *. rewrite ContainsFunc_app in H2. apply orb_false_iff in H2 as [_ H2].
    simpl in *. destruct (Ascii.eqb_spec c "/") as [->|]; [done |]. unfold ContainsFunc. simpl.
    destruct (Ascii.eqb_spec c "/"); [done |]. by destruct (Ascii.eqb c "/"). }
  assert (String.eqb (root_path (rs ++ [w])) "" = false) as -> by done.
  rewrite E, CutLast_app; [done | done | by apply ContainsFunc_false].
Qed.

(** ** Being below *)

(** [rel] does not lead out of the root it is relative to. *)
Definition leads_out (rel : string) : bool := String.eqb rel ".." || HasPrefix rel "../".

Lemma leads_out_Join (bs ts : list string) :
  Forall component ts → leads_out (Join (map (λ _, "..") bs ++ ts) "/") = match bs with [] => false | _ => true end.
Proof.
  intros Ht. unfold leads_out. destruct bs as [|b bs].
  - simpl. destruct Ht as [|t ts (H1 & H2 & H3 & H4) Ht]; [done |]. rewrite Join_cons.
    destruct ts as [|t' ts]; [|].
    + destruct (String.eqb_spec t ".."); [done |]. simpl. destruct (HasPrefix t "../") eqn:E; [|done].
      apply HasPrefix_inv in E as [r ->]. simpl in H4. unfold ContainsByte in H4. by rewrite !ContainsFunc_cons in H4.
    + apply orb_false_iff. split.
      * apply String.eqb_neq. intros E. apply (f_equal (ContainsByte "/")) in E. unfold ContainsByte in E.
        rewrite ContainsFunc_app, ContainsFunc_app in E. simpl in E. by rewrite orb_true_r in E.
      * destruct (HasPrefix _ "../") eqn:E; [|done]. apply HasPrefix_inv in E as [r E].
        apply (f_equal (λ s, Cut (Ascii.eqb "/") s)) in E.
        change (t +:+ "/" +:+ ?x) with (t +:+ String "/" x) in E.
        change ("../" +:+ r) with (".." +:+ String "/" r) in E.
        rewrite !Cut_app in E by (done || by apply ContainsFunc_false). injection E as E _. congruence.
  - cbn [map app]. rewrite Join_cons. destruct (map _ bs ++ ts) as [|w ws]; [done |].
    change (".." +:+ "/" +:+ ?x) with ("../" +:+ x). rewrite HasPrefix_app. apply orb_true_r.
Qed.

Lemma strip_common_nil rs ts : fst (strip_common rs ts) = [] ↔ ∃ ws, ts = rs ++ ws.
Proof.
  split.
  - destruct (strip_common rs ts) as [bs ts'] eqn:E. simpl. intros ->.
    destruct (strip_common_spec _ _ _ _ E) as (c & -> & -> & _). exists ts'. by rewrite app_nil_r.
  - intros [ws ->]. by rewrite strip_common_prefix.
Qed.

(** A path is below a root, or the root, exactly when its relative path does not lead out. *)
Lemma Rel_inside_path rs ts rel :
  Forall component rs → Forall component ts →
  Rel (root_path rs) (root_path ts) = Some rel → leads_out rel = false ↔ ∃ ws, ts = rs ++ ws.
Proof.
  intros Cr Ct. rewrite Rel_root_path by done. intros [= <-]. destruct (decide (rs = ts)) as [->|Hne].
  - split; [|done]. intros _. exists []. by rewrite app_nil_r.
  - rewrite <- strip_common_nil. destruct (strip_common rs ts) as [bs ts'] eqn:E.
    destruct (strip_common_spec _ _ _ _ E) as (c & -> & -> & _). apply Forall_app in Ct as [_ Ct].
    rewrite leads_out_Join by done. simpl. by destruct bs.
Qed.
Lemma Rel_inside rs ts rel :
  rs ≠ [] → ts ≠ [] → Forall component rs → Forall component ts →
  Rel (root_path rs) (root_path ts) = Some rel → leads_out rel = false ↔ ∃ ws, ts = rs ++ ws.
Proof. intros _ _. apply Rel_inside_path. Qed.
