(* ===== verification/Gitignore.v ===== *)
(** * Ignore rules of a checkout ([pkg/gitignore/gitignore.go])

    The parser of a .gitignore, the precedence of its patterns, the rule that an
    excluded directory excludes what is below it, and the rescue of tracked paths —
    with the lazily filled caches of [Rules] as explicit state.

    The checkout is read through the operating system: [readFile] and [isDir] are
    the files of one moment, [lsFiles] the output of [git ls-files], and
    [glob_match] and [valid_pattern] stand for the [doublestar] library.

    The caches are transparent, and the verdict is git's: the deepest pattern file
    that has an opinion decides, its last matching line first; a path below an
    excluded directory is excluded; a tracked path never is. *)

From S2P Require Import Prelude GoStrings Paths.
From Stdlib Require Import Strings.Ascii.

(** ** Parsing *)

(** [gitignore.pattern] *)
Record pattern := { glob : string; negate : bool; dirOnly : bool }.

(** How many backslashes a string ends with. *)
Definition trailing_backslashes (s : string) : nat :=
  String.length s - String.length (TrimRightFunc (Ascii.eqb "\") s).

(** [escaped s i]: an odd number of backslashes precede the byte at [i]. *)
Definition escaped (s : string) (i : nat) : bool :=
  Nat.odd (trailing_backslashes (String.substring 0 i s)).

(** The loop of [trimUnescapedTrailingSpace], down from [end_]. *)
Fixpoint trim_spaces (s : string) (end_ : nat) : string :=
  match end_ with
  | O => ""
  | S e =>
      match String.get e s with
      | Some c =>
          if (Ascii.eqb c " " || Ascii.eqb c "009") && negb (escaped s e) then trim_spaces s e
          else String.substring 0 end_ s
      | None => String.substring 0 end_ s
      end
  end.

Definition trimUnescapedTrailingSpace (s : string) : string := trim_spaces s (String.length s).

Section Parsing.
  (** [doublestar.ValidatePattern] *)
  Context (valid_pattern : string → bool).

(** [parseLine]; [None] for a line that leaves no pattern. *)
Definition parseLine (line : string) : option pattern :=
  let line := TrimRight line (String "013" "") in
  let line := trimUnescapedTrailingSpace line in
  if String.eqb line "" || HasPrefix line "#" then None
  else
    let '(neg, line) := match CutPrefix line "!" with Some rest => (true, rest) | None => (false, line) end in
    let '(dir, line) :=
      if HasSuffix line "/" && negb (escaped line (String.length line - 1))
      then (true, TrimSuffix line "/") else (false, line) in
    if String.eqb line "" then None
    else
      let anchored := ContainsByte "/" line in
      let line := TrimPrefix line "/" in
      if String.eqb line "" then None
      else
        let line := if anchored then line else "**/" +:+ line in
        let line := if HasSuffix line "/**" then line +:+ "/*" else line in
        if negb (valid_pattern line) then None
        else Some {| glob := line; negate := neg; dirOnly := dir |}.

(** The lines [bufio.Scanner] hands out with the buffer of [parse]: it stops at a
    line of a megabyte or more. *)
Definition maxLineBytes : nat := 1024 * 1024.

Fixpoint scan_lines (lines : list string) : list string :=
  match lines with
  | [] => []
  | l :: lines => if maxLineBytes <=? String.length l then [] else l :: scan_lines lines
  end.

(** [parse] *)
Definition parse (data : string) : list pattern :=
  omap parseLine (scan_lines (SplitByte data "010")).

End Parsing.

(** ** Rules *)

(** [gitignore.Rules]: the caches, each of which is filled when first read. *)
Record Rules := {
  g_root : string;
  g_dirs : gmap string (list pattern);
  g_verdicts : gmap string bool;
  g_exclude : option (list pattern);          (* excludeLoaded *)
  g_tracked : option (option (gset string));  (* trackedLoaded; None when git failed *)
}.

(** [New] *)
Definition New (root : string) : Rules :=
  {| g_root := Clean root; g_dirs := ∅; g_verdicts := ∅; g_exclude := None; g_tracked := None |}.

(** [relTo] *)
Definition relTo (base rel : string) : string :=
  if String.eqb base "" then rel else TrimPrefix rel (base +:+ "/").

(** The parent chain a tracked path adds: up to a directory already in. [fuel]
    bounds the walk by the length of the path. *)
Fixpoint track_parents (fuel : nat) (tracked : gset string) (dir : string) : gset string :=
  match fuel with
  | O => tracked
  | S fuel =>
      if String.eqb dir "." || String.eqb dir "/" then tracked
      else if bool_decide (dir ∈ tracked) then tracked
      else track_parents fuel ({[dir]} ∪ tracked) (Dir dir)
  end.

(** The loop of [loadTracked] over the NUL-separated output of git. *)
Definition track_paths (out : string) : gset string :=
  foldl (λ tracked p,
           if String.eqb p "" then tracked
           else track_parents (S (String.length p)) ({[p]} ∪ tracked) (Dir p))
    ∅ (SplitByte out "000").

Section Checkout.
  Context (valid_pattern : string → bool) (glob_match : string → string → option bool).
  (** [os.ReadFile] and [os.Stat]: [None] for an error. *)
  Context (readFile : string → option string) (isDir : string → option bool).
  (** [git ls-files -z --cached] *)
  Context (lsFiles : option string).

(** [matchIn]: the verdict of the last matching pattern. *)
Definition pattern_matches (rel : string) (is_dir : bool) (p : pattern) : bool :=
  if dirOnly p && negb is_dir then false
  else match glob_match (glob p) rel with Some b => b | None => false end.

Definition matchIn (pats : list pattern) (rel : string) (is_dir : bool) : option bool :=
  match List.find (pattern_matches rel is_dir) (reverse pats) with
  | Some p => Some (negb (negate p))
  | None => None
  end.

(** [patternsFor] *)
Definition patternsFor (r : Rules) (dir : string) : Rules * list pattern :=
  match g_dirs r !! dir with
  | Some pats => (r, pats)
  | None =>
      let pats := match readFile (JoinPath [g_root r; dir; ".gitignore"]) with
                  | Some data => parse valid_pattern data
                  | None => []
                  end in
      ({| g_root := g_root r; g_dirs := <[dir := pats]> (g_dirs r); g_verdicts := g_verdicts r;
          g_exclude := g_exclude r; g_tracked := g_tracked r |}, pats)
  end.

(** [gitDir] *)
Definition gitDir (root : string) : option string :=
  let dot := JoinPath [root; ".git"] in
  let follow (dir : string) :=
    match readFile (JoinPath [dir; "commondir"]) with
    | Some data =>
        let common := TrimSpace data in
        if String.eqb common "" then dir
        else Clean (if IsAbs common then common else JoinPath [dir; common])
    | None => dir
    end in
  match isDir dot with
  | None => None
  | Some true => Some (follow dot)
  | Some false =>
      match readFile dot with
      | None => None
      | Some data =>
          let ptr := TrimSpace (TrimPrefix (TrimSpace data) "gitdir:") in
          if String.eqb ptr "" then None
          else Some (follow (Clean (if IsAbs ptr then ptr else JoinPath [root; ptr])))
      end
  end.

(** What [infoExclude] loads. *)
Definition exclude_patterns (root : string) : list pattern :=
  match gitDir root with
  | Some dir => match readFile (JoinPath [dir; "info"; "exclude"]) with
                | Some data => parse valid_pattern data
                | None => []
                end
  | None => []
  end.

(** [infoExclude] *)
Definition infoExclude (r : Rules) : Rules * list pattern :=
  match g_exclude r with
  | Some pats => (r, pats)
  | None =>
      let pats := exclude_patterns (g_root r) in
      ({| g_root := g_root r; g_dirs := g_dirs r; g_verdicts := g_verdicts r;
          g_exclude := Some pats; g_tracked := g_tracked r |}, pats)
  end.

(** [loadTracked] *)
Definition loadTracked (r : Rules) : Rules * option (gset string) :=
  match g_tracked r with
  | Some t => (r, t)
  | None =>
      let t := track_paths <$> lsFiles in
      ({| g_root := g_root r; g_dirs := g_dirs r; g_verdicts := g_verdicts r;
          g_exclude := g_exclude r; g_tracked := Some t |}, t)
  end.

(** [isTracked] *)
Definition isTracked (r : Rules) (rel : string) : Rules * bool :=
  let '(r, t) := loadTracked r in
  (r, match t with Some t => bool_decide (rel ∈ t) | None => false end).

(** The loop of [match]: the pattern files from [dir] upward. *)
Fixpoint match_up (fuel : nat) (r : Rules) (rel dir : string) (is_dir : bool) : Rules * option bool :=
  match fuel with
  | O => (r, None)
  | S fuel =>
      let base := if String.eqb dir "." then "" else dir in
      let '(r, pats) := patternsFor r base in
      match matchIn pats (relTo base rel) is_dir with
      | Some v => (r, Some v)
      | None => if String.eqb dir "." then (r, None) else match_up fuel r rel (Dir dir) is_dir
      end
  end.

(** [match]; a path has fewer directories than bytes. *)
Definition match_path (r : Rules) (rel : string) (is_dir : bool) : Rules * bool :=
  let '(r, v) := match_up (S (String.length rel)) r rel (Dir rel) is_dir in
  match v with
  | Some v => (r, v)
  | None =>
      let '(r, pats) := infoExclude r in
      (r, default false (matchIn pats rel is_dir))
  end.

(** [dirExcluded] *)
Fixpoint dirExcluded (fuel : nat) (r : Rules) (dir : string) : Rules * bool :=
  match g_verdicts r !! dir with
  | Some v => (r, v)
  | None =>
      match fuel with
      | O => (r, false)
      | S fuel =>
          let parent := Dir dir in
          let '(r, v) := if String.eqb parent "." then (r, false) else dirExcluded fuel r parent in
          let '(r, v) := if v then (r, v) else match_path r dir true in
          ({| g_root := g_root r; g_dirs := g_dirs r; g_verdicts := <[dir := v]> (g_verdicts r);
              g_exclude := g_exclude r; g_tracked := g_tracked r |}, v)
      end
  end.

(** [Ignored] *)
Definition Ignored (r : Rules) (rel : string) (is_dir : bool) : Rules * bool :=
  let rel := Trim rel "/" in
  if String.eqb rel "" || String.eqb rel "." || String.eqb rel ".." || HasPrefix rel "../" then (r, false)
  else
    let parent := Dir rel in
    let '(r, excluded) :=
      if String.eqb parent "." then (r, false) else dirExcluded (S (String.length rel)) r parent in
    if excluded then
      let '(r, t) := isTracked r rel in (r, negb t)
    else
      let '(r, m) := match_path r rel is_dir in
      if negb m then (r, false)
      else let '(r, t) := isTracked r rel in (r, negb t).

End Checkout.

Section Verdict.
  Context (valid_pattern : string → bool) (glob_match : string → string → option bool).
  Context (readFile : string → option string) (isDir : string → option bool).
  Context (lsFiles : option string).
  Context (root : string).

  Abbreviation Ignored := (Gitignore.Ignored valid_pattern glob_match readFile isDir lsFiles).
  Abbreviation matchIn := (Gitignore.matchIn glob_match).

(** The patterns of a directory's .gitignore. *)
Definition file_patterns (dir : string) : list pattern :=
  match readFile (JoinPath [root; dir; ".gitignore"]) with
  | Some data => parse valid_pattern data
  | None => []
  end.

(** What the .gitignore of the first [n] components says of the path. *)
Definition file_verdict (ws : list string) (is_dir : bool) (n : nat) : option bool :=
  matchIn (file_patterns (join_components (take n ws))) (join_components (drop n ws)) is_dir.

(** The verdict of the deepest file with an opinion, from the [n]th directory up. *)
Fixpoint deepest (ws : list string) (is_dir : bool) (n : nat) : option bool :=
  match file_verdict ws is_dir n with
  | Some v => Some v
  | None => match n with O => None | S n => deepest ws is_dir n end
  end.

Definition matched (ws : list string) (is_dir : bool) : bool :=
  match deepest ws is_dir (length ws - 1) with
  | Some v => v
  | None => default false (matchIn (exclude_patterns valid_pattern readFile isDir root) (join_components ws) is_dir)
  end.

(** One of the first [n] directories of the path is matched. *)
Definition dir_excluded (ws : list string) (n : nat) : bool :=
  existsb (λ k, matched (take k ws) true) (seq 1 n).

Definition tracked (ws : list string) : bool :=
  match lsFiles with Some out => bool_decide (join_components ws ∈ track_paths out) | None => false end.

(** The verdict on a path, without any cache. *)
Definition ignored (ws : list string) (is_dir : bool) : bool :=
  (dir_excluded ws (length ws - 1) || matched ws is_dir) && negb (tracked ws).

(** A path inside the repository, in components. *)
Definition repo_path (ws : list string) : Prop := ws ≠ [] ∧ Forall component ws.

(** The caches hold what they stand for. *)
Record caches_ok (r : Rules) : Prop := {
  co_root : g_root r = root;
  co_dirs dir pats : g_dirs r !! dir = Some pats → pats = file_patterns dir;
  co_verdicts ws v : repo_path ws → g_verdicts r !! join_components ws = Some v →
    v = dir_excluded ws (length ws);
  co_exclude pats : g_exclude r = Some pats → pats = exclude_patterns valid_pattern readFile isDir root;
  co_tracked t : g_tracked r = Some t → t = track_paths <$> lsFiles;
}.

Lemma patternsFor_spec r dir :
  caches_ok r → caches_ok (fst (patternsFor valid_pattern readFile r dir)) ∧
  snd (patternsFor valid_pattern readFile r dir) = file_patterns dir.
Proof.
  intros Hr; pose proof Hr as [H1 H2 H3 H4 H5]. unfold patternsFor. destruct (g_dirs r !! dir) as [pats|] eqn:E; simpl.
  - split; [done | by apply H2].
  - rewrite H1. split; [|done]. split; simpl; try done.
    intros d pats. destruct (decide (dir = d)) as [<-|Hn].
    + rewrite lookup_insert_eq. by intros [= <-].
    + rewrite lookup_insert_ne by done. apply H2.
Qed.

Lemma infoExclude_spec r :
  caches_ok r → caches_ok (fst (infoExclude valid_pattern readFile isDir r)) ∧
  snd (infoExclude valid_pattern readFile isDir r) = exclude_patterns valid_pattern readFile isDir root.
Proof.
  intros Hr; pose proof Hr as [H1 H2 H3 H4 H5]. unfold infoExclude. destruct (g_exclude r) as [pats|] eqn:E; simpl.
  - split; [done | by apply H4].
  - rewrite H1. split; [|done]. split; simpl; try done. by intros pats [= <-].
Qed.

Lemma isTracked_spec r ws :
  caches_ok r → caches_ok (fst (isTracked lsFiles r (join_components ws))) ∧
  snd (isTracked lsFiles r (join_components ws)) = tracked ws.
Proof.
  intros Hr; pose proof Hr as [H1 H2 H3 H4 H5]. unfold isTracked, loadTracked, tracked.
  destruct (g_tracked r) as [t|] eqn:E; simpl.
  - split; [done |]. rewrite (H5 t eq_refl). by destruct lsFiles.
  - split; [|by destruct lsFiles]. split; simpl; try done. by intros t [= <-].
Qed.

Lemma relTo_components ws n :
  repo_path ws → n < length ws →
  relTo (join_components (take n ws)) (join_components ws) = join_components (drop n ws).
Proof.
  intros [Hne H] Hn. unfold relTo.
  destruct n as [|n]; [done |].
  assert (take (S n) ws ≠ []) as Ht by (destruct ws; [simpl in Hn; lia | done]).
  assert (drop (S n) ws ≠ []) as Hd.
  { intros E. apply (f_equal length) in E. rewrite length_drop in E. simpl in E. lia. }
  destruct (String.eqb_spec (join_components (take (S n) ws)) "") as [E|_].
  { by apply join_components_nonempty in E; [| |apply Forall_take]. }
  assert (join_components ws = (join_components (take (S n) ws) +:+ "/") +:+ join_components (drop (S n) ws)) as ->.
  { rewrite str_app_assoc. unfold join_components. rewrite <- Join_app by done. by rewrite take_drop. }
  apply TrimPrefix_app.
Qed.

Lemma match_up_spec fuel r ws n is_dir :
  repo_path ws → caches_ok r → n < length ws → n < fuel →
  let res := match_up valid_pattern glob_match readFile fuel r (join_components ws) (dir_name (take n ws)) is_dir in
  caches_ok (fst res) ∧ snd res = deepest ws is_dir n.
Proof.
  intros Hp. revert r n. induction fuel as [|fuel IH]; intros r n Hr Hn Hf; [lia |]. simpl.
  assert (Forall component (take n ws)) as Ht by apply Forall_take, Hp.
  rewrite dir_name_dot by done.
  assert ((if bool_decide (take n ws = []) then "" else dir_name (take n ws)) = join_components (take n ws)) as ->.
  { case_bool_decide as E; [by rewrite E |]. by destruct (take n ws). }
  destruct (patternsFor_spec r (join_components (take n ws)) Hr) as [Hr' Hpats].
  destruct (patternsFor _ _ r _) as [r1 pats]. simpl in Hr', Hpats. subst pats.
  rewrite relTo_components by done. fold (file_verdict ws is_dir n).
  assert (deepest ws is_dir n = match file_verdict ws is_dir n with
    | Some v => Some v | None => match n with O => None | S n => deepest ws is_dir n end end) as ->
    by by destruct n.
  destruct (file_verdict ws is_dir n) as [v|]; [done |].
  destruct n as [|n]; [done |].
  rewrite bool_decide_eq_false_2 by (destruct ws; [simpl in Hn; lia | done]).
  assert (dir_name (take (S n) ws) = join_components (take (S n) ws)) as ->
    by (destruct ws; [simpl in Hn; lia | done]).
  rewrite Dir_take by (apply Hp || lia). apply IH; [done | lia | lia].
Qed.

Lemma match_path_spec r ws is_dir :
  repo_path ws → caches_ok r →
  let res := match_path valid_pattern glob_match readFile isDir r (join_components ws) is_dir in
  caches_ok (fst res) ∧ snd res = matched ws is_dir.
Proof.
  intros Hp Hr. simpl. unfold match_path, matched.
  assert (length ws ≠ 0) as Hl by (destruct Hp; by destruct ws).
  assert (Dir (join_components ws) = dir_name (take (length ws - 1) ws)) as ->.
  { rewrite <- (take_ge ws (S (length ws - 1))) at 1 by lia. apply Dir_take; [apply Hp | lia]. }
  pose proof (component_count ws (proj2 Hp)) as Hc.
  destruct (match_up_spec (S (String.length (join_components ws))) r ws (length ws - 1) is_dir Hp Hr)
    as [Hr' Hv]; [lia | lia |].
  destruct (match_up _ _ _ _ _ _ _ _) as [r1 v]. simpl in Hr', Hv. subst v.
  destruct (deepest ws is_dir (length ws - 1)) as [v|]; [done |].
  destruct (infoExclude_spec r1 Hr') as [Hr2 He].
  destruct (infoExclude _ _ _ r1) as [r2 pats]. simpl in *. by subst pats.
Qed.

Lemma dir_excluded_S ws n : dir_excluded ws (S n) = dir_excluded ws n || matched (take (S n) ws) true.
Proof. unfold dir_excluded. rewrite seq_S, existsb_app. simpl. by rewrite orb_false_r. Qed.

(** The verdict on a directory only looks at its own components. *)
Lemma dir_excluded_take ws n : n ≤ length ws → dir_excluded (take n ws) n = dir_excluded ws n.
Proof.
  intros Hn. unfold dir_excluded.
  assert (∀ k, In k (seq 1 n) → matched (take k (take n ws)) true = matched (take k ws) true) as H.
  { intros k Hk%in_seq. rewrite take_take. do 2 f_equal. lia. }
  revert H. generalize (seq 1 n). intros l H. induction l as [|k l IH]; [done |].
  simpl. rewrite H by by left. f_equal. apply IH. intros j Hj. apply H. by right.
Qed.

Lemma caches_ok_verdict r ws v :
  caches_ok r → repo_path ws → v = dir_excluded ws (length ws) →
  caches_ok {| g_root := g_root r; g_dirs := g_dirs r; g_verdicts := <[join_components ws := v]> (g_verdicts r);
               g_exclude := g_exclude r; g_tracked := g_tracked r |}.
Proof.
  intros Hr Hp ->; destruct Hr as [H1 H2 H3 H4 H5]. split; simpl; try done.
  intros ws' v Hp'. destruct (decide (join_components ws = join_components ws')) as [E|E].
  - rewrite E, lookup_insert_eq. intros [= <-].
    apply join_components_inj in E as ->; [done | apply Hp | apply Hp' | apply Hp | apply Hp'].
  - rewrite lookup_insert_ne by done. by apply H3.
Qed.

Lemma repo_path_take ws n : repo_path ws → n ≠ 0 → repo_path (take n ws).
Proof. intros [H1 H2] Hn. split; [|by apply Forall_take]. destruct ws, n; done. Qed.

Lemma dirExcluded_spec fuel r ws n :
  repo_path ws → caches_ok r → n < length ws → n < fuel →
  let res := dirExcluded valid_pattern glob_match readFile isDir fuel r (join_components (take (S n) ws)) in
  caches_ok (fst res) ∧ snd res = dir_excluded ws (S n).
Proof.
  intros Hp. revert r n. induction fuel as [|fuel IH]; intros r n Hr Hn Hf; [lia |]. simpl.
  pose proof (repo_path_take ws (S n) Hp ltac:(lia)) as Hp'.
  assert (length (take (S n) ws) = S n) as Hl by (rewrite length_take; lia).
  destruct (g_verdicts r !! join_components (take (S n) ws)) as [v|] eqn:E.
  { simpl. split; [done |]. rewrite (co_verdicts r Hr _ _ Hp' E), Hl. apply dir_excluded_take. lia. }
  rewrite Dir_take by (apply Hp || lia). rewrite dir_name_dot by apply Forall_take, Hp.
  assert (∃ r1, (if bool_decide (take n ws = []) then (r, false)
           else dirExcluded valid_pattern glob_match readFile isDir fuel r (dir_name (take n ws)))
          = (r1, dir_excluded ws n) ∧ caches_ok r1) as (r1 & -> & Hr1).
  { case_bool_decide as E0.
    - exists r. split; [|done]. f_equal. assert (n = 0) as ->; [|done].
      destruct n; [done |]. destruct ws; [simpl in Hn; lia | done].
    - destruct n as [|n]; [done |].
      assert (dir_name (take (S n) ws) = join_components (take (S n) ws)) as -> by by destruct (take (S n) ws).
      destruct (IH r n Hr) as [Hr1 Hv]; [lia | lia |].
      destruct (dirExcluded _ _ _ _ fuel r _) as [r1 v]. simpl in *. exists r1. by subst. }
  rewrite dir_excluded_S. destruct (dir_excluded ws n) eqn:Ed; simpl.
  - split; [|done]. apply caches_ok_verdict; [done | done |].
    rewrite Hl, dir_excluded_take, dir_excluded_S, Ed by lia. done.
  - destruct (match_path_spec r1 (take (S n) ws) true Hp' Hr1) as [Hr2 Hv].
    destruct (match_path _ _ _ _ r1 _ _) as [r2 v]. simpl in *. subst v. split; [|done].
    apply caches_ok_verdict; [done | done |].
    rewrite Hl, dir_excluded_take, dir_excluded_S, Ed by lia. done.
Qed.

Lemma repo_path_plain ws :
  repo_path ws → let rel := join_components ws in
  Trim rel "/" = rel ∧ String.eqb rel "" = false ∧ String.eqb rel "." = false ∧
  String.eqb rel ".." = false ∧ HasPrefix rel "../" = false.
Proof.
  intros [Hn H]. simpl. pose proof (component_no_slash ws H) as Hs. split_and!.
  - apply Trim_Join; [done | |].
    + intros E. rewrite head_lookup in E. apply (Forall_lookup_1 _ _ _ _ H) in E. by destruct E.
    + intros E. rewrite last_lookup in E. apply (Forall_lookup_1 _ _ _ _ H) in E. by destruct E.
  - apply String.eqb_neq. by apply join_components_nonempty.
  - pose proof (dir_name_dot ws H) as E. rewrite bool_decide_eq_false_2 in E by done. by destruct ws.
  - apply String.eqb_neq. intros E. apply (f_equal (Split (Ascii.eqb "/"))) in E.
    unfold join_components in E. rewrite Split_Join in E by done. simpl in E. subst.
    apply Forall_cons in H as [(_ & _ & ? & _) _]. done.
  - destruct (HasPrefix _ "../") eqn:E; [|done]. apply HasPrefix_inv in E as [s E].
    apply (f_equal (Split (Ascii.eqb "/"))) in E.
    unfold join_components in E. rewrite Split_Join in E by done. simpl in E. subst.
    apply Forall_cons in H as [(_ & _ & ? & _) _]. done.
Qed.

(** ** Tracked paths *)

(** The directory above a path of several components. *)
Definition parent_of (ws : list string) : string := join_components (take (length ws - 1) ws).

(** A set of paths that holds the directory of each path in it, the directory
    [except] apart. *)
Definition parents_in (tracked : gset string) (except : string) : Prop :=
  ∀ ws, repo_path ws → 2 ≤ length ws → join_components ws ∈ tracked →
    parent_of ws ∈ tracked ∨ parent_of ws = except.

Lemma parent_not_dot ws : repo_path ws → 2 ≤ length ws → String.eqb (parent_of ws) "." = false.
Proof.
  intros [Hn H] Hl. unfold parent_of.
  pose proof (dir_name_dot (take (length ws - 1) ws) (Forall_take _ _ _ H)) as E.
  assert (take (length ws - 1) ws ≠ []) as Ht.
  { intros E'. apply (f_equal length) in E'. rewrite length_take in E'. simpl in E'. lia. }
  rewrite bool_decide_eq_false_2 in E by done. by destruct (take (length ws - 1) ws).
Qed.

Lemma parent_of_take ws n : n < length ws → parent_of (take (S n) ws) = join_components (take n ws).
Proof. intros Hn. unfold parent_of. rewrite length_take, take_take. do 2 f_equal. lia. Qed.

Lemma dir_name_not_slash ws : Forall component ws → String.eqb (dir_name ws) "/" = false.
Proof.
  intros H. destruct ws as [|w ws]; [done |]. apply String.eqb_neq. intros E.
  pose proof (components_not_rooted (w :: ws) H ltac:(done)) as Hr.
  change (join_components (w :: ws) = "/") in E. by rewrite E in Hr.
Qed.

Lemma track_parents_spec fuel tracked ws n :
  repo_path ws → n < length ws → n < fuel → parents_in tracked (dir_name (take n ws)) →
  let tracked' := track_parents fuel tracked (dir_name (take n ws)) in
  tracked ⊆ tracked' ∧ parents_in tracked' ".".
Proof.
  intros Hp. revert tracked n. induction fuel as [|fuel IH]; intros tracked n Hn Hf Hin; [lia |]. simpl.
  pose proof (Forall_take component n ws (proj2 Hp)) as Ht.
  rewrite dir_name_dot, dir_name_not_slash, orb_false_r by done. case_bool_decide as E.
  { split; [done |]. rewrite E in Hin. exact Hin. }
  assert (dir_name (take n ws) = join_components (take n ws)) as Ed by by destruct (take n ws).
  rewrite Ed in *. destruct n as [|n]; [done |]. case_bool_decide as Hd.
  { split; [done |]. intros vs Hvs Hl Hv. left. destruct (Hin vs Hvs Hl Hv) as [|E']; [done | by rewrite E']. }
  rewrite Dir_take by (apply Hp || lia).
  destruct (IH ({[join_components (take (S n) ws)]} ∪ tracked) n) as [H1 H2]; [lia | lia | |].
  - intros vs Hvs Hl Hv. apply elem_of_union in Hv as [Hv|Hv].
    + apply elem_of_singleton in Hv. right.
      apply join_components_inj in Hv as ->; [| apply Hvs | done | apply Hvs | done].
      rewrite length_take in Hl. rewrite parent_of_take by lia.
      destruct n; [lia |]. by destruct ws.
    + left. apply elem_of_union. destruct (Hin vs Hvs Hl Hv) as [|E']; [by right | left].
      by apply elem_of_singleton.
  - split; [set_solver | done].
Qed.

(** Git lists repository paths. *)
Definition git_paths (out : string) : Prop :=
  Forall (λ p, p = "" ∨ ∃ ws, repo_path ws ∧ p = join_components ws) (SplitByte out "000").

Lemma track_paths_spec out :
  git_paths out →
  parents_in (track_paths out) "." ∧
  ∀ p, p ∈ SplitByte out "000" → p ≠ "" → p ∈ track_paths out.
Proof.
  unfold git_paths, track_paths. induction (SplitByte out "000") as [|p ps IH] using rev_ind.
  { intros _. split; [intros ws _ _; set_solver | set_solver]. }
  rewrite Forall_app, Forall_cons. intros (Hps & Hp & _). destruct (IH Hps) as [H1 H2].
  rewrite foldl_app. cbn [foldl]. set (t := foldl _ ∅ ps) in *. clearbody t.
  destruct Hp as [->|(ws & Hw & ->)]; simpl.
  { split; [done |]. intros q. rewrite elem_of_app, list_elem_of_singleton. naive_solver. }
  assert (length ws ≠ 0) as Hl by (destruct Hw; by destruct ws).
  destruct (repo_path_plain ws Hw) as (_ & -> & _).
  assert (Dir (join_components ws) = dir_name (take (length ws - 1) ws)) as ->.
  { rewrite <- (take_ge ws (S (length ws - 1))) at 1 by lia. apply Dir_take; [apply Hw | lia]. }
  pose proof (component_count ws (proj2 Hw)) as Hc.
  destruct (track_parents_spec (S (String.length (join_components ws))) ({[join_components ws]} ∪ t) ws
              (length ws - 1) Hw) as [H3 H4]; [lia | lia | |].
  - intros vs Hvs Hlv Hv. apply elem_of_union in Hv as [Hv|Hv].
    + apply elem_of_singleton in Hv. right.
      apply join_components_inj in Hv as ->; [| apply Hvs | apply Hw | apply Hvs | apply Hw].
      unfold parent_of. destruct (take (length ws - 1) ws) eqn:E; [|done].
      apply (f_equal length) in E. rewrite length_take in E. simpl in E. lia.
    + left. apply elem_of_union. right. destruct (H1 vs Hvs Hlv Hv) as [|E]; [done |].
      pose proof (parent_not_dot vs Hvs Hlv) as Hd. rewrite E in Hd. done.
  - split; [exact H4 |]. intros q. rewrite elem_of_app, list_elem_of_singleton.
    intros [Hq| ->] Hqn; apply H3; set_solver.
Qed.

Lemma tracked_prefix out ws n :
  git_paths out → repo_path ws → join_components ws ∈ SplitByte out "000" →
  n < length ws → join_components (take (S n) ws) ∈ track_paths out.
Proof.
  intros Hg Hp Hin Hn. destruct (track_paths_spec out Hg) as [Hc Ht].
  assert (∀ k, k < length ws → join_components (take (length ws - k) ws) ∈ track_paths out) as H.
  { induction k as [|k IH]; intros Hk.
    - rewrite Nat.sub_0_r, take_ge by lia. apply Ht; [done |]. apply join_components_nonempty; apply Hp.
    - specialize (IH ltac:(lia)). replace (length ws - k) with (S (length ws - S k)) in IH by lia.
      destruct (Hc (take (S (length ws - S k)) ws)) as [H|H]; [| |done| |].
      + by apply repo_path_take.
      + rewrite length_take. lia.
      + by rewrite parent_of_take in H by lia.
      + pose proof (parent_not_dot (take (S (length ws - S k)) ws) (repo_path_take ws (S (length ws - S k)) Hp ltac:(lia))
                      ltac:(rewrite length_take; lia)) as Hd. by rewrite H in Hd. }
  replace (S n) with (length ws - (length ws - S n)) by lia. apply H. lia.
Qed.

Lemma Ignored_spec r ws is_dir :
  caches_ok r → repo_path ws →
  caches_ok (fst (Ignored r (join_components ws) is_dir)) ∧
  snd (Ignored r (join_components ws) is_dir) = ignored ws is_dir.
Proof.
  intros Hr Hp. unfold Gitignore.Ignored.
  destruct (repo_path_plain ws Hp) as (-> & -> & -> & -> & ->). cbn [orb].
  assert (length ws ≠ 0) as Hl by (destruct Hp; by destruct ws).
  pose proof (component_count ws (proj2 Hp)) as Hc.
  assert (Dir (join_components ws) = dir_name (take (length ws - 1) ws)) as ->.
  { rewrite <- (take_ge ws (S (length ws - 1))) at 1 by lia. apply Dir_take; [apply Hp | lia]. }
  rewrite dir_name_dot by apply Forall_take, Hp. unfold ignored.
  set (n := length ws - 1) in *.
  assert (∃ r1, (if bool_decide (take n ws = []) then (r, false)
           else dirExcluded valid_pattern glob_match readFile isDir (S (String.length (join_components ws))) r
                  (dir_name (take n ws))) = (r1, dir_excluded ws n) ∧ caches_ok r1) as (r1 & -> & Hr1).
  { case_bool_decide as E0.
    - exists r. split; [|done]. f_equal. assert (n = 0) as ->; [|done].
      destruct n; [done |]. destruct ws; [simpl in Hl; lia | done].
    - destruct n as [|m] eqn:En; [done |].
      assert (dir_name (take (S m) ws) = join_components (take (S m) ws)) as -> by by destruct (take (S m) ws).
      destruct (dirExcluded_spec (S (String.length (join_components ws))) r ws m Hp Hr) as [H1 H2]; [lia | lia |].
      destruct (dirExcluded _ _ _ _ _ r _) as [r1 v]. simpl in *. exists r1. by subst. }
  destruct (dir_excluded ws n); simpl.
  - destruct (isTracked_spec r1 ws Hr1) as [Hr2 Ht].
    destruct (isTracked _ r1 _) as [r2 t]. simpl in *. by subst.
  - destruct (match_path_spec r1 ws is_dir Hp Hr1) as [Hr2 Hm].
    destruct (match_path _ _ _ _ r1 _ _) as [r2 m]. simpl in *. subst m.
    destruct (matched ws is_dir); simpl; [|done].
    destruct (isTracked_spec r2 ws Hr2) as [Hr3 Ht].
    destruct (isTracked _ r2 _) as [r3 t]. simpl in *. by subst.
Qed.

Lemma Ignored_snd r ws is_dir :
  caches_ok r → repo_path ws → snd (Ignored r (join_components ws) is_dir) = ignored ws is_dir.
Proof. intros Hr Hp. by destruct (Ignored_spec r ws is_dir Hr Hp). Qed.

(** ** Properties *)

(** C33: the verdict on a path is git's and the caches never change it. For every
    path in a repository and whatever the rules have read before, [Ignored] answers
    as if nothing were cached: excluded when one of its directories is, or when the
    deepest .gitignore with a matching line — its last one — excludes it, the
    per-checkout list coming last; and never when git tracks the path. The caches it
    leaves are again what they stand for. *)
Theorem Ignored_verdict r ws is_dir :
  caches_ok r → repo_path ws →
  caches_ok (fst (Ignored r (join_components ws) is_dir)) ∧
  snd (Ignored r (join_components ws) is_dir) = ignored ws is_dir.
Proof. apply Ignored_spec. Qed.

(** Content git tracks is never hidden. No rule excludes a path git lists, nor
    any of the directories above it, so a walk that prunes excluded directories
    still reaches every tracked file. *)
Theorem tracked_never_ignored r out ws n is_dir :
  caches_ok r → lsFiles = Some out → git_paths out →
  repo_path ws → join_components ws ∈ SplitByte out "000" → n < length ws →
  snd (Ignored r (join_components (take (S n) ws)) is_dir) = false.
Proof.
  intros Hr Hl Hg Hp Hin Hn.
  pose proof (repo_path_take ws (S n) Hp ltac:(lia)) as Hp'.
  rewrite (Ignored_snd r (take (S n) ws) is_dir Hr Hp'). unfold ignored, tracked. rewrite Hl.
  rewrite bool_decide_eq_true_2 by by apply (tracked_prefix out ws n).
  by rewrite andb_false_r.
Qed.

End Verdict.

(** ** A small checkout *)

(** A checkout whose root ignores [build/] and every [*.log] but [keep.log], with a
    matcher of the globs it uses. *)
Definition demo_files (path : string) : option string :=
  if String.eqb path "repo/.gitignore"
  then Some ("# output" +:+ String "010" "build/" +:+ String "010" "*.log" +:+ String "010" "!keep.log") else None.
Definition demo_glob (g s : string) : option bool :=
  match CutPrefix g "**/" with
  | Some g => let base := match CutLast (Ascii.eqb "/") s with Some (_, b) => b | None => s end in
              match CutPrefix g "*" with
              | Some suffix => Some (HasSuffix base suffix)
              | None => Some (String.eqb g base)
              end
  | None => Some (String.eqb g s)
  end.
Definition demo_tracked : option string := Some ("build/gen.go" +:+ String "000" "main.go" +:+ String "000" "").
Definition demo_ignored (rel : string) (d : bool) : bool :=
  snd (Ignored (λ _, true) demo_glob demo_files (λ _, None) demo_tracked (New "repo") rel d).

Example demo_verdicts :
  map (λ '(p, d), demo_ignored p d)
    [("build", true); ("build/x.go", false); ("build/gen.go", false); ("src/a.log", false);
     ("src/keep.log", false); ("main.go", false)]
  = [false; true; false; true; false; false].
Proof. reflexivity. Qed.

Lemma New_caches_ok valid_pattern glob_match readFile isDir lsFiles root :
  caches_ok valid_pattern glob_match readFile isDir lsFiles (Clean root) (New root).
Proof. split; simpl; intros *; rewrite ?lookup_empty; done. Qed.

Lemma Ignored_verdict_witness :
  snd (Ignored (λ _, true) demo_glob demo_files (λ _, None) demo_tracked (New "repo") "build/x.go" false)
  = ignored (λ _, true) demo_glob demo_files (λ _, None) demo_tracked "repo" ["build"; "x.go"] false.
Proof.
  apply (Ignored_verdict (λ _, true) demo_glob demo_files (λ _, None) demo_tracked "repo" (New "repo")
           ["build"; "x.go"] false).
  - apply (New_caches_ok _ _ _ _ _ "repo").
  - split; [done |]. repeat constructor; done.
Defined.

Lemma tracked_never_ignored_witness :
  snd (Ignored (λ _, true) demo_glob demo_files (λ _, None) demo_tracked (New "repo") "build" true) = false.
Proof.
  apply (tracked_never_ignored (λ _, true) demo_glob demo_files (λ _, None) demo_tracked "repo" (New "repo")
           ("build/gen.go" +:+ String "000" "main.go" +:+ String "000" "") ["build"; "gen.go"] 0 true).
  - apply (New_caches_ok _ _ _ _ _ "repo").
  - reflexivity.
  - unfold git_paths. vm_compute.
    constructor; [right; exists ["build"; "gen.go"] | constructor; [right; exists ["main.go"] |]].
    + split; [|reflexivity]. split; [done |]. repeat constructor; done.
    + split; [|reflexivity]. split; [done |]. repeat constructor; done.
    + constructor; [by left | constructor].
  - split; [done |]. repeat constructor; done.
  - vm_compute. left.
  - simpl. lia.
Defined.
