(* ===== verification/Walk.v ===== *)
(** * Walking a checkout ([internal/config/ignore.go], [languages.go], [internal/repos/walk.go], [discover.go])

    What a walk leaves out: the configured patterns, then the rules of the checkout,
    with the verdicts cached per repository and path; and the language a file is
    indexed as.  The globs are matched by [doublestar], the checkout is read as in
    [Gitignore]; [lsFiles root] is the output of [git ls-files] there.

    Then a directory tree as a walk finds it, [filepath.WalkDir] over it, and the
    walks of the repository package: the files to index and the repositories below a
    directory.  What the operating system may refuse is part of the tree: a
    directory that cannot be read (whatever entries were read before the error), a
    file that cannot be stat'ed.

    [WalkFiles] with its caches and pruning finds exactly the files its rules mean
    it to: the recursive [indexable], which knows no cache, no path and no state. *)

From S2P Require Import Prelude GoStrings GoSort Paths Gitignore.
From Stdlib Require Import Strings.Ascii.

(** ** Languages *)

Record langSpec := { ls_name : string; ls_exts : list string; ls_indexable : bool }.
Definition lang (name : string) (exts : list string) (indexable : bool) : langSpec :=
  {| ls_name := name; ls_exts := exts; ls_indexable := indexable |}.

(** [languages] *)
Definition languages : list langSpec := [
  lang "go" [".go"] true; lang "java" [".java"] true; lang "kotlin" [".kt"; ".kts"] true; lang "csharp" [".cs"] true;
  lang "typescript" [".ts"; ".tsx"] true; lang "javascript" [".js"; ".jsx"] true; lang "python" [".py"] true;
  lang "proto" [".proto"] true; lang "sql" [".sql"] true; lang "yaml" [".yaml"; ".yml"] true; lang "json" [".json"] true;
  lang "properties" [".properties"; ".env"] true; lang "toml" [".toml"] false; lang "markdown" [".md"] false;
  lang "rst" [".rst"] false; lang "text" [".txt"] false].

(** [LanguageForFile], which [DetectLanguage] is. *)
Definition LanguageForFile (path : string) : string :=
  let ext := ToLower (Ext path) in
  match List.find (λ l, existsb (λ e, String.eqb e ext) (ls_exts l)) languages with
  | Some l => ls_name l
  | None => ""
  end.
Definition DetectLanguage (path : string) : string := LanguageForFile path.

(** [ASTLanguages] *)
Definition ASTLanguages : list string := map ls_name (filter (λ l, ls_indexable l = true) languages).

(** ** Patterns *)

(** [IgnorePatterns] *)
Record IgnorePatterns := {
  i_patterns : list string;
  i_gitignore : bool;
  i_files : gmap string (gmap string bool);
  i_dirs : gmap string (gmap string bool);
  i_rules : gmap string Rules
}.

(** [NewIgnorePatternsWithGitignore]; [NewIgnorePatterns] passes the setting in force. *)
Definition NewIgnorePatterns (patterns : list string) (useGitignore : bool) : IgnorePatterns :=
  {| i_patterns := patterns; i_gitignore := useGitignore; i_files := ∅; i_dirs := ∅; i_rules := ∅ |}.

Section Ignore.
  Context (valid_pattern : string → bool) (glob_match : string → string → option bool).
  Context (readFile : string → option string) (isDir : string → option bool).
  Context (lsFiles : string → option string).

(** [matchPattern]; an error of the matcher is no match. *)
Definition globbed (pattern path : string) : bool := default false (glob_match pattern path).
Definition matchPattern (pattern path : string) : bool :=
  if HasPrefix pattern "**/" then existsb (globbed (TrimPrefix pattern "**/")) (SplitByte path "/")
  else if HasSuffix pattern "/**" then HasPrefix path (TrimSuffix pattern "/**")
  else if String.eqb pattern "**" || String.eqb pattern "*.*" then true
  else globbed pattern path.

(** [rulesFor] *)
Definition rulesFor (i : IgnorePatterns) (repoPath : string) : Rules := default (New repoPath) (i_rules i !! repoPath).

Definition set_verdict (repoPath relPath : string) (isDir_ ignored : bool) (rules : gmap string Rules) (i : IgnorePatterns)
    : IgnorePatterns :=
  let cache := if isDir_ then i_dirs i else i_files i in
  let cache := <[repoPath := <[relPath := ignored]> (default ∅ (cache !! repoPath))]> cache in
  {| i_patterns := i_patterns i; i_gitignore := i_gitignore i;
     i_files := if isDir_ then i_files i else cache; i_dirs := if isDir_ then cache else i_dirs i; i_rules := rules |}.

(** [shouldIgnore] *)
Definition shouldIgnore (i : IgnorePatterns) (repoPath filePath : string) (isDir_ : bool) : IgnorePatterns * bool :=
  if match i_patterns i with [] => negb (i_gitignore i) | _ => false end then (i, false)
  else
    match Rel repoPath filePath with
    | None => (i, false)
    | Some relPath =>
        match (if isDir_ then i_dirs i else i_files i) !! repoPath ≫= (λ c : gmap string bool, c !! relPath) with
        | Some cached => (i, cached)
        | None =>
            if existsb (λ p, matchPattern p relPath) (i_patterns i)
            then (set_verdict repoPath relPath isDir_ true (i_rules i) i, true)
            else if i_gitignore i then
              let '(r, v) := Ignored valid_pattern glob_match readFile isDir (lsFiles repoPath) (rulesFor i repoPath) relPath isDir_ in
              (set_verdict repoPath relPath isDir_ v (<[repoPath := r]> (i_rules i)) i, v)
            else (set_verdict repoPath relPath isDir_ false (i_rules i) i, false)
        end
    end.

(** [ShouldIgnore], [ShouldIgnoreDir] *)
Definition ShouldIgnore (i : IgnorePatterns) (repoPath filePath : string) := shouldIgnore i repoPath filePath false.
Definition ShouldIgnoreDir (i : IgnorePatterns) (repoPath dirPath : string) := shouldIgnore i repoPath dirPath true.

(** ** The verdict without caches *)

(** The verdict on a path below the root, in components. *)
Definition left_out (patterns : list string) (git : bool) (rs ws : list string) (is_dir : bool) : bool :=
  existsb (λ p, matchPattern p (join_components ws)) patterns ||
  git && ignored valid_pattern glob_match readFile isDir (lsFiles (root_path rs)) (root_path rs) ws is_dir.

(** The caches for one root hold what they stand for. *)
Record verdicts_ok (rs : list string) (i : IgnorePatterns) : Prop := {
  vo_files ws v : repo_path ws → i_files i !! root_path rs ≫= (λ c : gmap string bool, c !! join_components ws) = Some v →
    v = left_out (i_patterns i) (i_gitignore i) rs ws false;
  vo_dirs ws v : repo_path ws → i_dirs i !! root_path rs ≫= (λ c : gmap string bool, c !! join_components ws) = Some v →
    v = left_out (i_patterns i) (i_gitignore i) rs ws true;
  vo_rules : caches_ok valid_pattern glob_match readFile isDir (lsFiles (root_path rs)) (root_path rs) (rulesFor i (root_path rs))
}.

Lemma new_verdicts_ok rs patterns git :
  rs ≠ [] → Forall component rs → verdicts_ok rs (NewIgnorePatterns patterns git).
Proof.
  intros Hn Hr. split; simpl; try (intros ws v _; by rewrite lookup_empty).
  unfold rulesFor. simpl. rewrite lookup_empty. simpl.
  rewrite <- (Clean_root rs) at 2 by done. apply New_caches_ok.
Qed.

Lemma set_verdict_ok rs ws d v rules i :
  repo_path ws → verdicts_ok rs i → v = left_out (i_patterns i) (i_gitignore i) rs ws d →
  caches_ok valid_pattern glob_match readFile isDir (lsFiles (root_path rs)) (root_path rs)
    (default (New (root_path rs)) (rules !! root_path rs)) →
  verdicts_ok rs (set_verdict (root_path rs) (join_components ws) d v rules i).
Proof.
  intros Hws [Hf Hd _] -> Hr.
  assert (∀ (cache : gmap string (gmap string bool)) ws' v' x,
    repo_path ws' →
    <[root_path rs := <[join_components ws := v']> (default ∅ (cache !! root_path rs))]> cache !! root_path rs
      ≫= (λ c : gmap string bool, c !! join_components ws') = Some x →
    (ws' = ws ∧ x = v') ∨ cache !! root_path rs ≫= (λ c : gmap string bool, c !! join_components ws') = Some x) as Hc.
  { intros cache ws' v' x Hws'. rewrite lookup_insert_eq. simpl.
    destruct (decide (join_components ws = join_components ws')) as [E|E].
    - rewrite <- E, lookup_insert_eq. intros [= <-]. left. split; [|done].
      destruct Hws, Hws'. symmetry. by apply join_components_inj.
    - rewrite lookup_insert_ne by done. destruct (cache !! root_path rs); simpl; [by right |].
      by rewrite lookup_empty. }
  split; simpl; [destruct d; [exact Hf |] | destruct d; [|exact Hd] | done].
  - intros ws' v' Hws' [[-> ->]|H]%Hc; [done | by apply Hf | done].
  - intros ws' v' Hws' [[-> ->]|H]%Hc; [done | by apply Hd | done].
Qed.

Lemma shouldIgnore_spec rs ws d i :
  rs ≠ [] → Forall component rs → repo_path ws → verdicts_ok rs i →
  let res := shouldIgnore i (root_path rs) (root_path (rs ++ ws)) d in
  verdicts_ok rs (fst res) ∧ i_patterns (fst res) = i_patterns i ∧ i_gitignore (fst res) = i_gitignore i ∧
  snd res = left_out (i_patterns i) (i_gitignore i) rs ws d.
Proof.
  intros Hn Hr Hws Hi. unfold shouldIgnore.
  destruct (match i_patterns i with [] => _ | _ => _ end) eqn:E0.
  { simpl. split_and!; [done | done | done |]. unfold left_out. destruct (i_patterns i); [|done].
    apply negb_true_iff in E0. by rewrite E0. }
  pose proof Hws as [Hw Cw]. rewrite Rel_below by done.
  destruct ((if d then i_dirs i else i_files i) !! root_path rs ≫= _) as [v|] eqn:Ec.
  { simpl. split_and!; [done | done | done |]. destruct d; [by apply Hi | by apply Hi]. }
  destruct (existsb _ (i_patterns i)) eqn:Ep.
  { simpl. split_and!; [|done|done|unfold left_out; by rewrite Ep].
    apply set_verdict_ok; [done | done | unfold left_out; by rewrite Ep | apply Hi]. }
  destruct (i_gitignore i) eqn:Eg.
  - destruct (Ignored_spec valid_pattern glob_match readFile isDir (lsFiles (root_path rs)) (root_path rs)
                (rulesFor i (root_path rs)) ws d (vo_rules _ _ Hi) Hws) as [H1 H2].
    destruct (Ignored _ _ _ _ _ _ _ _) as [r v]. simpl in *. subst v.
    split_and!; [|done|done|unfold left_out; by rewrite Ep].
    apply set_verdict_ok; [done | done | unfold left_out; by rewrite Ep, Eg |]. by rewrite lookup_insert_eq.
  - simpl. split_and!; [|done|done|unfold left_out; by rewrite Ep].
    apply set_verdict_ok; [done | done | unfold left_out; by rewrite Ep, Eg | apply Hi].
Qed.

End Ignore.

(** ** Trees *)

Inductive node :=
  | FileNode (size : string + Z)
  | DirNode (err : option string) (entries : list (string * node)).

Definition is_dir_node (n : node) : bool := match n with DirNode _ _ => true | FileNode _ => false end.

Section NodeInd.
  Context (P : node → Prop).
  Hypothesis Hfile : ∀ size, P (FileNode size).
  Hypothesis Hdir : ∀ err es, Forall (λ e, P (snd e)) es → P (DirNode err es).

Fixpoint node_rect' (n : node) : P n :=
  match n with
  | FileNode size => Hfile size
  | DirNode err es => Hdir err es ((fix all es : Forall (λ e, P (snd e)) es :=
      match es with [] => Forall_nil_2 _ | e :: es => Forall_cons_2 _ e es (node_rect' (snd e)) (all es) end) es)
  end.
End NodeInd.

(** ** [filepath.WalkDir] *)

(** What the callback answers. *)
Inductive verdict := Continue | SkipRest | Stop (err : string).

Section WalkDir.
  (** The callback: the path, the entry found there — its name and what it is,
      unless it could not be looked up — and the error met. *)
  Context {S : Type} (fn : string → option (string * node) → option string → S → verdict * S).

(** [walkDir] *)
Fixpoint walk_node (path name : string) (n : node) (st : S) : verdict * S :=
  match fn path (Some (name, n)) None st with
  | (Continue, st) =>
      match n with
      | FileNode _ => (Continue, st)
      | DirNode err es =>
          let '(v, st) := match err with None => (Continue, st) | Some e => fn path (Some (name, n)) (Some e) st end in
          match v with
          | Continue =>
              (fix walk_entries (es : list (string * node)) (st : S) : verdict * S :=
                match es with
                | [] => (Continue, st)
                | (w, child) :: es =>
                    match walk_node (JoinPath [path; w]) w child st with
                    | (Continue, st) => walk_entries es st
                    | (SkipRest, st) => (Continue, st)
                    | (Stop e, st) => (Stop e, st)
                    end
                end) es st
          | SkipRest => (Continue, st)
          | Stop e => (Stop e, st)
          end
      end
  | (SkipRest, st) => (if is_dir_node n then Continue else SkipRest, st)
  | (Stop e, st) => (Stop e, st)
  end.

(** The loop over the entries of a directory. *)
Definition walk_entries (path : string) : list (string * node) → S → verdict * S :=
  fix walk_entries (es : list (string * node)) (st : S) : verdict * S :=
    match es with
    | [] => (Continue, st)
    | (w, child) :: es =>
        match walk_node (JoinPath [path; w]) w child st with
        | (Continue, st) => walk_entries es st
        | (SkipRest, st) => (Continue, st)
        | (Stop e, st) => (Stop e, st)
        end
    end.

(** [WalkDir]; [root] is what [os.Lstat] finds. *)
Definition WalkDir (path : string) (root : string + node) (st : S) : option string * S :=
  let '(v, st) := match root with
                  | inl e => fn path None (Some e) st
                  | inr n => walk_node path (Base path) n st
                  end in
  (match v with Stop e => Some e | _ => None end, st).

End WalkDir.

(** ** Walks of a repository *)

(** [domain.RepoFile] *)
Record RepoFile := { wf_Path : string; wf_Hash : string; wf_Language : string; wf_Size : Z }.

Section Walk.
  Context (valid_pattern : string → bool) (glob_match : string → string → option bool).
  Context (readFile : string → option string) (isDir : string → option bool).
  Context (lsFiles : string → option string).
  Abbreviation ShouldIgnore := (ShouldIgnore valid_pattern glob_match readFile isDir lsFiles).
  Abbreviation ShouldIgnoreDir := (ShouldIgnoreDir valid_pattern glob_match readFile isDir lsFiles).

(** [SkipDir] *)
Definition SkipDir (root path name : string) (ignore : IgnorePatterns) : IgnorePatterns * bool :=
  if String.eqb name ".git" then (ignore, true)
  else if String.eqb path root then (ignore, false)
  else ShouldIgnoreDir ignore root path.

(** The callback of [WalkFiles]. *)
Definition walk_file (root : string) (path : string) (d : option (string * node)) (err : option string)
    (st : IgnorePatterns * list RepoFile) : verdict * (IgnorePatterns * list RepoFile) :=
  let '(ignore, files) := st in
  match err, d with
  | Some e, _ => (Stop e, st)
  | None, None => (Continue, st)
  | None, Some (name, DirNode _ _) =>
      let '(ignore, skip) := SkipDir root path name ignore in
      (if skip then SkipRest else Continue, (ignore, files))
  | None, Some (name, FileNode size) =>
      if String.eqb name ".git" then (Continue, st)
      else
        match Rel root path with
        | None => (Continue, st)
        | Some relPath =>
            let '(ignore, ignored) := ShouldIgnore ignore root path in
            if ignored then (Continue, (ignore, files))
            else
              let lang := DetectLanguage relPath in
              if String.eqb lang "" then (Continue, (ignore, files))
              else
                match size with
                | inl e => (Stop e, (ignore, files))
                | inr size =>
                    (Continue, (ignore, files ++ [{| wf_Path := relPath; wf_Hash := ""; wf_Language := lang; wf_Size := size |}]))
                end
        end
  end.

(** [WalkFiles] *)
Definition WalkFiles (root : string) (tree : string + node) (ignorePatterns : list string) (useGitignore : bool)
    : option string * list RepoFile :=
  let '(err, (_, files)) := WalkDir (walk_file root) root tree (NewIgnorePatterns ignorePatterns useGitignore, []) in
  (err, files).

(** ** The files a walk is meant to find *)

(** A directory, by its components below the root, is not descended into. *)
Definition pruned (patterns : list string) (git : bool) (rs ws : list string) : bool :=
  match last ws with
  | None => false
  | Some w => String.eqb w ".git" || left_out valid_pattern glob_match readFile isDir lsFiles patterns git rs ws true
  end.
(** A file is one to index. *)
Definition wanted (patterns : list string) (git : bool) (rs ws : list string) : bool :=
  negb (String.eqb (default "" (last ws)) ".git") &&
  negb (left_out valid_pattern glob_match readFile isDir lsFiles patterns git rs ws false) &&
  negb (String.eqb (DetectLanguage (join_components ws)) "").

(** The files to index in a tree, depth first. *)
Fixpoint indexable (patterns : list string) (git : bool) (rs ws : list string) (n : node) : list (list string * (string + Z)) :=
  match n with
  | FileNode size => if wanted patterns git rs ws then [(ws, size)] else []
  | DirNode _ es =>
      if pruned patterns git rs ws then []
      else (fix all (es : list (string * node)) :=
              match es with [] => [] | (w, child) :: es => indexable patterns git rs (ws ++ [w]) child ++ all es end) es
  end.

End Walk.

(** ** Discovery of repositories ([discover.go]) *)

Definition DefaultDiscoveryDepth : nat := 3.

Definition entries_of (n : node) : list (string * node) := match n with DirNode _ es => es | FileNode _ => [] end.

(** [IsRepoRoot] *)
Definition IsRepoRoot (dir : node) : bool := existsb (λ e, String.eqb (fst e) ".git") (entries_of dir).

(** [scan]; [levels] are those left, [maxDepth - depth + 1]. *)
Fixpoint scan (levels : nat) (dir : string) (n : node) (found : list string) : list string :=
  match levels with
  | O => found
  | Datatypes.S levels =>
      match n with
      | DirNode None es =>
          foldl (λ found '(name, child),
            if negb (is_dir_node child) || HasPrefix name "." then found
            else
              let path := JoinPath [dir; name] in
              if IsRepoRoot child then found ++ [path] else scan levels path child found) found es
      | _ => found
      end
  end.

(** [Discover] from the absolute path on; [root] is what [os.Stat] finds there. *)
Definition Discover (abs : string) (root : string + node) (maxDepth : Z) : string + list string :=
  match root with
  | inl e => inl ("source path: " +:+ e)
  | inr n =>
      if negb (is_dir_node n) then inl ("source path is not a directory: " +:+ abs)
      else if IsRepoRoot n then inr [abs]
      else
        match scan (Z.to_nat (Z.max 0 maxDepth)) abs n [] with
        | [] => inr [abs]
        | found => inr (SortStrings found)
        end
  end.

(** A tree whose every entry can be read, under names of one component. *)
Inductive tree_ok : node → Prop :=
  | ok_file size : tree_ok (FileNode (inr size))
  | ok_dir es : NoDup (map fst es) → Forall (λ e, component (fst e)) es → Forall (λ e, tree_ok (snd e)) es → tree_ok (DirNode None es).

(** What the nodes along a path are. *)
Fixpoint node_at (n : node) (ws : list string) : option node :=
  match ws with
  | [] => Some n
  | w :: ws =>
      match List.find (λ e, String.eqb (fst e) w) (entries_of n) with
      | Some (_, child) => node_at child ws
      | None => None
      end
  end.

Section WalkFacts.
  Context (valid_pattern : string → bool) (glob_match : string → string → option bool).
  Context (readFile : string → option string) (isDir : string → option bool).
  Context (lsFiles : string → option string).
  Context (patterns : list string) (git : bool) (rs : list string).
  Context (Hrs : rs ≠ []) (Crs : Forall component rs).

  Abbreviation SkipDir := (SkipDir valid_pattern glob_match readFile isDir lsFiles (root_path rs)).
  Abbreviation walk_file := (walk_file valid_pattern glob_match readFile isDir lsFiles (root_path rs)).
  Abbreviation pruned := (pruned valid_pattern glob_match readFile isDir lsFiles patterns git rs).
  Abbreviation wanted := (wanted valid_pattern glob_match readFile isDir lsFiles patterns git rs).
  Abbreviation indexable := (indexable valid_pattern glob_match readFile isDir lsFiles patterns git rs).

(** The matcher of this walk: its caches are true. *)
Definition matcher_ok (i : IgnorePatterns) : Prop :=
  verdicts_ok valid_pattern glob_match readFile isDir lsFiles rs i ∧ i_patterns i = patterns ∧ i_gitignore i = git.

Lemma new_matcher_ok : matcher_ok (NewIgnorePatterns patterns git).
Proof. split; [by apply new_verdicts_ok | done]. Qed.

Lemma matcher_spec ws d i :
  repo_path ws → matcher_ok i →
  let res := shouldIgnore valid_pattern glob_match readFile isDir lsFiles i (root_path rs) (root_path (rs ++ ws)) d in
  matcher_ok (fst res) ∧ snd res = left_out valid_pattern glob_match readFile isDir lsFiles patterns git rs ws d.
Proof.
  intros Hws (Hi & E1 & E2). destruct (shouldIgnore_spec valid_pattern glob_match readFile isDir lsFiles rs ws d i Hrs Crs Hws Hi)
    as (H1 & H2 & H3 & H4). rewrite E1, E2 in *. by split_and!.
Qed.

Lemma root_below ws : ws ≠ [] → Forall component ws → String.eqb (root_path (rs ++ ws)) (root_path rs) = false.
Proof.
  intros Hw Cw. apply String.eqb_neq. intros E. apply root_path_inj in E; [|by intros [? _]%app_eq_nil|done|by apply Forall_app|done].
  apply (f_equal length) in E. rewrite length_app in E. destruct ws; simpl in *; [done | lia].
Qed.

Lemma SkipDir_spec ws w i :
  Forall component (ws ++ [w]) → matcher_ok i →
  let res := SkipDir (root_path (rs ++ ws ++ [w])) w i in
  matcher_ok (fst res) ∧ snd res = pruned (ws ++ [w]).
Proof.
  intros C Hi. unfold Walk.SkipDir, Walk.pruned. rewrite last_snoc.
  destruct (String.eqb w ".git") eqn:E; [done |].
  rewrite root_below by (done || by destruct ws).
  apply matcher_spec; [|done]. split; [by destruct ws | done].
Qed.

Definition to_file (f : list string * (string + Z)) : RepoFile := {|
  wf_Path := join_components (fst f); wf_Hash := ""; wf_Language := DetectLanguage (join_components (fst f));
  wf_Size := match snd f with inr n => n | inl _ => 0%Z end |}.

Lemma walk_file_spec ws w size i acc :
  Forall component (ws ++ [w]) → matcher_ok i →
  ∃ i', walk_file (root_path (rs ++ ws ++ [w])) (Some (w, FileNode (inr size))) None (i, acc) =
    (Continue, (i', acc ++ map to_file (indexable (ws ++ [w]) (FileNode (inr size))))) ∧ matcher_ok i'.
Proof.
  intros C Hi. assert (repo_path (ws ++ [w])) as Hp by (split; [by destruct ws | done]).
  simpl. unfold Walk.wanted. rewrite last_snoc. simpl.
  destruct (String.eqb w ".git"); [exists i; by rewrite app_nil_r |]. simpl.
  rewrite Rel_below by (done || by destruct ws). unfold ShouldIgnore.
  destruct (matcher_spec (ws ++ [w]) false i Hp Hi) as [Hi' Hv].
  destruct (shouldIgnore _ _ _ _ _ i _ _ _) as [i' v]. simpl in Hi', Hv. subst v. exists i'.
  destruct (left_out _ _ _ _ _ _ _ _ _ _); [by rewrite app_nil_r |]. simpl.
  destruct (String.eqb (DetectLanguage _) ""); [by rewrite app_nil_r | done].
Qed.

Lemma walk_dir_spec ws w err es i acc :
  Forall component (ws ++ [w]) → matcher_ok i →
  ∃ i', walk_file (root_path (rs ++ ws ++ [w])) (Some (w, DirNode err es)) None (i, acc) =
    (if pruned (ws ++ [w]) then SkipRest else Continue, (i', acc)) ∧ matcher_ok i'.
Proof.
  intros C Hi. simpl. destruct (SkipDir_spec ws w i C Hi) as [Hi1 Hv].
  destruct (SkipDir _ _ i) as [i1 skip]. simpl in Hi1, Hv. subst skip. by exists i1.
Qed.

Definition all_indexable (ws : list string) : list (string * node) → list (list string * (string + Z)) :=
  fix all es := match es with [] => [] | (w, child) :: es => indexable (ws ++ [w]) child ++ all es end.

(** A walk that got through found the files of its subtree. *)
Lemma walk_spec n ws w i acc :
  Forall component (ws ++ [w]) → tree_ok n → matcher_ok i →
  ∃ i', walk_node walk_file (root_path (rs ++ ws ++ [w])) w n (i, acc) =
    (Continue, (i', acc ++ map to_file (indexable (ws ++ [w]) n))) ∧ matcher_ok i'.
Proof.
  revert ws w i acc. induction n as [size|err es IH] using node_rect'; intros ws w i acc C Hok Hi;
    inversion Hok as [size0|es0 Hnd Hc Ht]; subst; clear Hok.
  - cbn [walk_node]. destruct (walk_file_spec ws w size0 i acc C Hi) as (i' & E & Hi'). rewrite E. by exists i'.
  - cbn [walk_node]. destruct (walk_dir_spec ws w None es i acc C Hi) as (i1 & E1 & Hi1). rewrite E1. cbn [Walk.indexable].
    destruct (pruned (ws ++ [w])); [exists i1; by rewrite app_nil_r |].
    fold (all_indexable (ws ++ [w])). clear E1. revert i1 acc Hi1.
    induction es as [|[v child] es IHes]; intros i1 acc Hi1; [exists i1; by rewrite app_nil_r |].
    rewrite !Forall_cons in *. destruct IH as [IH1 IH2], Hc as [Hc1 Hc2], Ht as [Ht1 Ht2]. simpl in *.
    apply NoDup_cons in Hnd as [_ Hnd].
    rewrite JoinPath_component; [|by intros [? _]%app_eq_nil | by apply Forall_app | done].
    rewrite <- !(app_assoc rs).
    destruct (IH1 (ws ++ [w]) v i1 acc) as (i2 & E & Hi2); [by apply Forall_app; split; [|constructor] | done | done |].
    rewrite E. destruct (IHes IH2 Hnd Hc2 Ht2 i2 (acc ++ map to_file (indexable ((ws ++ [w]) ++ [v]) child)) Hi2) as (i3 & E3 & Hi3).
    exists i3. rewrite E3. split; [|done]. do 2 f_equal. by rewrite map_app, app_assoc.
Qed.

(** ** Which files these are *)

Lemma all_indexable_elem ws es x :
  x ∈ all_indexable ws es ↔ ∃ w child, (w, child) ∈ es ∧ x ∈ indexable (ws ++ [w]) child.
Proof.
  induction es as [|[w child] es IH]; simpl.
  - split; [by intros ?%elem_of_nil |]. by intros (w & child & ?%elem_of_nil & _).
  - rewrite elem_of_app, IH. split.
    + intros [H|(v & c & H & Hx)]; [exists w, child | exists v, c]; (split; [|done]); [by left | by right].
    + intros (v & c & [[= -> ->]|H]%elem_of_cons & Hx); [by left | right; eauto].
Qed.

Lemma find_entry (es : list (string * node)) w child :
  NoDup (map fst es) → List.find (λ e, String.eqb (fst e) w) es = Some (w, child) ↔ (w, child) ∈ es.
Proof.
  induction es as [|[v c] es IH]; simpl; [split; [done | by intros ?%elem_of_nil] |].
  intros [Hv Hnd]%NoDup_cons. rewrite elem_of_cons. destruct (String.eqb_spec v w) as [->|Hne].
  - split; [intros [= ->]; by left |]. intros [[= ->]|H]; [done |]. destruct Hv.
    apply list_elem_of_fmap. by exists (w, child).
  - rewrite IH by done. split; [by right |]. by intros [[= -> _]|?].
Qed.

Lemma find_entry_name (es : list (string * node)) w e : List.find (λ e, String.eqb (fst e) w) es = Some e → fst e = w.
Proof. intros [_ H]%find_some. by apply String.eqb_eq. Qed.

(** A file is found when no directory on its way is pruned and it is wanted. *)
Lemma indexable_elem n ws ws' s :
  tree_ok n → (ws', s) ∈ indexable ws n ↔
  ∃ u, ws' = ws ++ u ∧ node_at n u = Some (FileNode s) ∧ wanted ws' = true ∧
       ∀ k, k < length u → pruned (ws ++ take k u) = false.
Proof.
  revert ws. induction n as [size|err es IH] using node_rect'; intros ws Hok; inversion Hok as [size0|es0 Hnd Hc Ht]; subst; clear Hok.
  - cbn [Walk.indexable]. destruct (wanted ws) eqn:E.
    + rewrite list_elem_of_singleton. split.
      * intros [= -> ->]. exists []. rewrite app_nil_r. split_and!; [done | done | done |]. simpl. lia.
      * intros (u & -> & H & _). destruct u; [|done]. rewrite app_nil_r. by injection H as <-.
    + split; [by intros ?%elem_of_nil |]. intros (u & -> & H & Hw & _). destruct u; [|done].
      rewrite app_nil_r in Hw. congruence.
  - cbn [Walk.indexable]. fold (all_indexable ws).
    assert (∀ u, (∀ k, k < length u → pruned (ws ++ take k u) = false) → u ≠ [] → pruned ws = false) as H0.
    { intros u H Hu. specialize (H 0). rewrite take_0, app_nil_r in H. apply H. destruct u; [done | simpl; lia]. }
    destruct (pruned ws) eqn:E.
    + split; [by intros ?%elem_of_nil |]. intros (u & -> & H & _ & Hp). destruct u as [|w u]; [done |].
      by specialize (H0 (w :: u) Hp ltac:(done)).
    + rewrite all_indexable_elem. split.
      * intros (w & child & Hin & Hx). rewrite Forall_forall in IH, Ht.
        apply (IH _ Hin _ (Ht _ Hin)) in Hx as (u & -> & Hu & Hw & Hp). exists (w :: u).
        rewrite <- app_assoc in *. simpl in *. split_and!; [done | | done |].
        -- by apply find_entry in Hin as ->.
        -- intros [|k] Hk; simpl; [by rewrite app_nil_r |]. specialize (Hp k). rewrite <- app_assoc in Hp. apply Hp. lia.
      * intros (u & -> & Hu & Hw & Hp). destruct u as [|w u]; [done |]. simpl in Hu.
        destruct (List.find _ es) as [[v child]|] eqn:Ef; [|done]. pose proof (find_entry_name _ _ _ Ef) as Ev. simpl in Ev. subst v.
        apply find_entry in Ef as Hin; [|done]. exists w, child. split; [done |].
        rewrite Forall_forall in IH, Ht. apply (IH _ Hin _ (Ht _ Hin)). exists u. rewrite <- app_assoc.
        split_and!; [done | done | done |]. intros k Hk. specialize (Hp (S k)). simpl in Hp. rewrite <- app_assoc. apply Hp. lia.
Qed.

Lemma indexable_below n ws ws' s : tree_ok n → (ws', s) ∈ indexable ws n → ∃ u, ws' = ws ++ u.
Proof. intros Hn (u & -> & _)%indexable_elem; [by exists u | done]. Qed.

Lemma indexable_nodup n ws : tree_ok n → NoDup (map fst (indexable ws n)).
Proof.
  revert ws. induction n as [size|err es IH] using node_rect'; intros ws Hok; inversion Hok as [size0|es0 Hnd Hc Ht]; subst; clear Hok.
  - cbn [Walk.indexable]. destruct (wanted ws); simpl; [apply NoDup_singleton | constructor].
  - cbn [Walk.indexable]. fold (all_indexable ws). destruct (pruned ws); [constructor |].
    induction es as [|[w child] es IHes]; simpl; [constructor |].
    rewrite Forall_cons in IH, Hc, Ht. destruct IH as [IH1 IH2], Hc as [Hc1 Hc2], Ht as [Ht1 Ht2].
    simpl in Hnd. apply NoDup_cons in Hnd as [Hw Hnd].
    rewrite map_app. apply NoDup_app. split_and!; [by apply IH1 | | by apply IHes].
    intros x Hx Hx'. apply list_elem_of_fmap in Hx as ([x1 s1] & -> & Hx), Hx' as ([x2 s2] & Ex & Hx'). simpl in Ex. subst x2.
    apply indexable_below in Hx as [u ->]; [|done].
    apply all_indexable_elem in Hx' as (v & c & Hin & Hx').
    apply indexable_below in Hx' as [u' E]; [|rewrite Forall_forall in Ht2; by apply (Ht2 _ Hin)].
    rewrite <- !app_assoc in E. apply app_inv_head in E. injection E as -> _.
    apply Hw, list_elem_of_fmap. by exists (v, c).
Qed.

Lemma node_at_components n u m : tree_ok n → node_at n u = Some m → Forall component u.
Proof.
  revert n. induction u as [|w u IH]; intros n Hok H; [constructor |]. simpl in H.
  destruct (List.find _ _) as [[v c]|] eqn:Ef; [|done]. pose proof (find_entry_name _ _ _ Ef) as Ev. simpl in Ev. subst v.
  apply find_some in Ef as [Hin%list_elem_of_In _].
  inversion Hok as [|es Hnd Hc Ht]; subst; simpl in Hin; [by apply elem_of_nil in Hin |].
  rewrite Forall_forall in Hc, Ht. constructor; [exact (Hc _ Hin) | eapply IH; [exact (Ht _ Hin) | done]].
Qed.

(** The root is not judged: the walk of the tree below it. *)
Lemma walk_root_spec es :
  last rs ≠ Some ".git" → tree_ok (DirNode None es) →
  WalkFiles valid_pattern glob_match readFile isDir lsFiles (root_path rs) (inr (DirNode None es)) patterns git =
  (None, map to_file (indexable [] (DirNode None es))).
Proof.
  intros Hg Hok. inversion Hok as [|es0 Hnd Hc Ht]; subst; clear Hok. unfold WalkFiles, WalkDir. cbn [walk_node].
  assert (String.eqb (Base (root_path rs)) ".git" = false) as Hb.
  { destruct (last rs) as [w|] eqn:El; [|by apply last_None in El]. apply last_Some in El as [l ->].
    apply Forall_app in Crs as [Cl [Cw _]%Forall_cons]. rewrite Base_component by done.
    apply String.eqb_neq. congruence. }
  assert (walk_file (root_path rs) (Some (Base (root_path rs), DirNode None es)) None (NewIgnorePatterns patterns git, []) =
    (Continue, (NewIgnorePatterns patterns git, []))) as ->.
  { simpl. unfold Walk.SkipDir. by rewrite Hb, String.eqb_refl. }
  cbn [Walk.indexable]. change (pruned []) with false. cbv iota. fold (all_indexable []).
  pose proof new_matcher_ok as Hi. revert Hi.
  assert (∀ i acc, matcher_ok i → ∃ i',
    walk_entries walk_file (root_path rs) es (i, acc) = (Continue, (i', acc ++ map to_file (all_indexable [] es))) ∧ matcher_ok i') as H.
  { clear Hb. induction es as [|[w child] es IH]; intros i acc Hi; [exists i; by rewrite app_nil_r |].
    rewrite Forall_cons in Hc, Ht. destruct Hc as [Hc1 Hc2], Ht as [Ht1 Ht2]. simpl in Hnd, Hc1, Ht1.
    apply NoDup_cons in Hnd as [_ Hnd]. cbn [walk_entries]. rewrite JoinPath_component by done.
    destruct (walk_spec child [] w i acc) as (i1 & E1 & Hi1); [by constructor | done | done |].
    simpl in E1. rewrite E1. destruct (IH Hnd Hc2 Ht2 i1 (acc ++ map to_file (indexable [w] child)) Hi1) as (i2 & E2 & Hi2).
    exists i2. rewrite E2. split; [|done]. do 2 f_equal. simpl. by rewrite map_app, app_assoc. }
  intros Hi. destruct (H _ [] Hi) as (i' & E & _). unfold walk_entries in E. rewrite E. done.
Qed.
End WalkFacts.

(** ** Properties *)

(** C25: A walk finds the files it is meant to, each once.  Below a readable root, the
    files are those of a recognized language that neither the configured patterns
    nor the checkout leave out, except below a directory that is left out or named
    [.git] — with their paths relative to the root — although the walk prunes as it
    goes and answers from caches it fills on the way; the root itself is not judged
    by any pattern. *)
Theorem WalkFiles_finds valid_pattern glob_match readFile isDir lsFiles patterns git rs es :
  rs ≠ [] → Forall component rs → last rs ≠ Some ".git" → tree_ok (DirNode None es) →
  let left_out := left_out valid_pattern glob_match readFile isDir lsFiles patterns git rs in
  let '(err, files) := WalkFiles valid_pattern glob_match readFile isDir lsFiles (root_path rs) (inr (DirNode None es)) patterns git in
  err = None ∧ NoDup (map wf_Path files) ∧
  ∀ f, f ∈ files ↔ ∃ ws size,
    node_at (DirNode None es) ws = Some (FileNode (inr size)) ∧
    (∀ k, 0 < k < length ws → last (take k ws) ≠ Some ".git" ∧ left_out (take k ws) true = false) ∧
    last ws ≠ Some ".git" ∧ left_out ws false = false ∧ DetectLanguage (join_components ws) ≠ "" ∧
    f = {| wf_Path := join_components ws; wf_Hash := ""; wf_Language := DetectLanguage (join_components ws); wf_Size := size |}.
Proof.
  intros Hrs Crs Hg Hok lo. rewrite walk_root_spec by done. split; [done |].
  set (n := DirNode None es) in *.
  set (files := indexable valid_pattern glob_match readFile isDir lsFiles patterns git rs [] n).
  assert (∀ x, x ∈ files → Forall component (fst x) ∧ fst x ≠ []) as Hcomp.
  { intros [ws s] (u & -> & Hu & _)%indexable_elem; [|done]. simpl. split; [by eapply node_at_components |].
    by destruct u. }
  split.
  - rewrite map_map. change (map (λ x, wf_Path (to_file x)) files) with (map (λ x, join_components (fst x)) files).
    rewrite <- (map_map fst join_components). apply NoDup_fmap_2_strong; [|by apply indexable_nodup].
    intros x y (p & -> & Hp)%list_elem_of_fmap (q & -> & Hq)%list_elem_of_fmap E.
    destruct (Hcomp _ Hp), (Hcomp _ Hq). by apply join_components_inj.
  - intros f. rewrite list_elem_of_fmap. split.
    + intros ([ws s] & -> & (u & E & Hu & Hw & Hp)%indexable_elem); [|done]. simpl in E. subst u.
      destruct s as [e|size].
      { exfalso. clear -Hu Hok. assert (tree_ok (FileNode (inl e))) as H; [|inversion H].
        revert Hu. generalize dependent n. intros n Hok. revert n Hok. induction ws as [|w ws IH]; intros n Hok Hu; simpl in Hu.
        - by injection Hu as <-.
        - destruct (List.find _ _) as [[v c]|] eqn:Ef; [|done]. apply find_some in Ef as [Hin%list_elem_of_In _].
          inversion Hok as [|es' Hnd Hc Ht]; subst; simpl in Hin; [by apply elem_of_nil in Hin |].
          rewrite Forall_forall in Ht. by apply (IH c (Ht _ Hin)). }
      unfold wanted in Hw. apply andb_true_iff in Hw as [Hw Hl]. apply andb_true_iff in Hw as [Hw1 Hw2].
      apply negb_true_iff in Hw1, Hw2, Hl. exists ws, size. split_and!; try done.
      * intros k [Hk0 Hk]. specialize (Hp k Hk). simpl in Hp. unfold pruned in Hp.
        destruct (last (take k ws)) as [w|] eqn:El.
        -- apply orb_false_iff in Hp as [H1 H2]. apply String.eqb_neq in H1. split; [congruence | done].
        -- apply last_None in El. apply (f_equal length) in El. rewrite length_take in El. simpl in El. lia.
      * intros E. rewrite E in Hw1. done.
      * by apply String.eqb_neq.
    + intros (ws & size & Hu & Hp & Hg' & Hf & Hl & ->). unfold lo in *. exists (ws, inr size). split; [done |].
      apply indexable_elem; [done |]. exists ws. simpl. split_and!; [done | done | |].
      * unfold wanted. rewrite Hf. apply String.eqb_neq in Hl. rewrite Hl. rewrite !andb_true_r. apply negb_true_iff, String.eqb_neq.
        destruct (last ws); simpl; congruence.
      * intros k Hk. unfold pruned. destruct (last (take k ws)) as [w|] eqn:El; [|done].
        assert (0 < k) as Hk0 by (destruct k; [done | lia]). destruct (Hp k ltac:(lia)) as [H1 H2].
        rewrite El in H1. apply orb_false_iff. split; [apply String.eqb_neq; congruence | done].
Qed.

(** A small checkout: [main.go], a dependency, an object of git. *)
Module Demo.
Definition entries : list (string * node) :=
  [(".git", DirNode None [("a.go", FileNode (inr 1%Z))]); ("main.go", FileNode (inr 12%Z));
   ("node_modules", DirNode None [("b.js", FileNode (inr 7%Z))]); ("notes", FileNode (inr 3%Z))].
Definition glob (p s : string) : option bool := Some (String.eqb p s).
Definition main : RepoFile := {| wf_Path := "main.go"; wf_Hash := ""; wf_Language := "go"; wf_Size := 12 |}.
Lemma entries_ok : tree_ok (DirNode None entries).
Proof.
  assert (∀ w s, component w → tree_ok (DirNode None [(w, FileNode (inr s))])) as H.
  { intros w s Hw. constructor; [by apply NoDup_singleton | by constructor | by repeat constructor]. }
  constructor.
  - apply (bool_decide_unpack (NoDup _)). vm_compute. exact I.
  - repeat constructor; vm_compute; done.
  - do 3 (constructor; [by (apply H; repeat constructor; vm_compute; done) || constructor |]). by repeat constructor.
Qed.
End Demo.
Lemma WalkFiles_finds_witness :
  let '(err, files) := WalkFiles (λ _, true) Demo.glob (λ _, None) (λ _, None) (λ _, None) (root_path ["src"; "app"])
    (inr (DirNode None Demo.entries)) ["**/node_modules"] false in
  err = None ∧ files = [Demo.main] ∧ NoDup (map wf_Path files).
Proof.
  pose proof (WalkFiles_finds (λ _, true) Demo.glob (λ _, None) (λ _, None) (λ _, None) ["**/node_modules"] false ["src"; "app"] Demo.entries
    ltac:(done) ltac:(repeat constructor; vm_compute; done) ltac:(done) Demo.entries_ok) as H.
  cbv zeta in H.
  destruct (WalkFiles _ _ _ _ _ _ _ _ _) as [err files] eqn:E. destruct H as (H1 & H2 & _).
  split; [exact H1 |]. split; [|exact H2]. apply (f_equal snd) in E. simpl snd in E at 2. rewrite <- E. vm_compute. reflexivity.
Defined.
