(* ===== verification/Services.v ===== *)
(** * The services of a repository ([internal/repos/svcdetect.go], [manifest.go])

    Which deployable services a checkout holds: those it declares, or those its
    files give away.  The files are read through a [disk]; how YAML is parsed is a
    parameter, and so is the order in which Go ranges over a map.  Services get the
    shortest names that tell them apart. *)

From S2P Require Import Prelude GoStrings GoSort Domain Paths Gitignore Walk.
From Stdlib Require Import Strings.Ascii.

(** ** Reading *)

Inductive read_result := Content (data : string) | NotExist | Unreadable (err : string).
Record disk := {
  os_ReadFile : string → read_result;
  os_ReadDir : string → option (list (string * bool));   (* names, and which are directories *)
  os_Stat : string → bool;                               (* does it answer without an error? *)
  os_Regular : string → bool;                            (* and say that it is a regular file? *)
  os_Lstat : string → string + node
}.

(** A decoded YAML value, as far as the code asks what it is. *)
Inductive any := AnyString (s : string) | AnyMap (m : list (string * any)) | AnyOther.

(** ** The manifest *)

Record ManifestService := { ms_Name : string; ms_Root : string }.
Record Manifest := { mf_Services : list ManifestService; mf_Ignore : list string; mf_File : string }.

Definition ManifestNames : list string := [".ragota.yaml"; ".ragota.yml"].

(** [normalize] *)
Definition normal_service (s : ManifestService) : option ManifestService :=
  let name := TrimSpace (ms_Name s) in
  if String.eqb name "" then None else Some {| ms_Name := name; ms_Root := Trim (TrimSpace (ms_Root s)) "/" |}.
Definition normal_pattern (p : string) : option string :=
  let p := TrimSpace p in if String.eqb p "" then None else Some p.
Definition normalize (m : Manifest) : Manifest :=
  {| mf_Services := omap normal_service (mf_Services m); mf_Ignore := omap normal_pattern (mf_Ignore m); mf_File := mf_File m |}.

Section Manifest.
  (** [yaml.Unmarshal] into a [Manifest]: an error, or the two sections. *)
  Context (unmarshal_manifest : string → string + (list ManifestService * list string)).

(** [LoadManifest] *)
Definition LoadManifest (d : disk) (repoPath : string) : string + option Manifest :=
  (fix try (names : list string) : string + option Manifest :=
    match names with
    | [] => inr None
    | name :: names =>
        match os_ReadFile d (JoinPath [repoPath; name]) with
        | NotExist => try names
        | Unreadable err => inl ("read " +:+ name +:+ ": " +:+ err)
        | Content data =>
            match unmarshal_manifest data with
            | inl err => inl ("parse " +:+ name +:+ ": " +:+ err)
            | inr (services, patterns) => inr (Some (normalize {| mf_Services := services; mf_Ignore := patterns; mf_File := name |}))
            end
        end
    end) ManifestNames.
End Manifest.

(** ** Detection *)

Record Service := { sv_Name : string; sv_Root : string; sv_Manifest : string; sv_DetectedBy : string }.
#[export] Instance Service_eq_dec : EqDecision Service.
Proof. solve_decision. Defined.

Definition set_name (name : string) (s : Service) : Service :=
  {| sv_Name := name; sv_Root := sv_Root s; sv_Manifest := sv_Manifest s; sv_DetectedBy := sv_DetectedBy s |}.
Definition set_root (root : string) (s : Service) : Service :=
  {| sv_Name := sv_Name s; sv_Root := root; sv_Manifest := sv_Manifest s; sv_DetectedBy := sv_DetectedBy s |}.

Definition skipDirs : list string := [".git"; "node_modules"; "vendor"; "target"; "bin"; "obj"; "dist"; ".idea"; ".vscode"].
Definition maxDepth : nat := 6.
Definition maxNameDepth : nat := 4.

(** [rootTail], the last [n] components of a root. *)
Definition rootTail (root : string) (n : nat) : string :=
  let root := Trim root "/" in
  if String.eqb root "" then ""
  else
    let parts := SplitByte root "/" in
    Join (if n <? length parts then drop (length parts - n) parts else parts) "/".

(** [disambiguateNames]: one round, which renames what had a repeated name when it
    began, and the rounds. *)
Definition name_count (svcs : list Service) (name : string) : nat := length (filter (λ s, sv_Name s = name) svcs).
Definition requalified (svcs : list Service) (depth : nat) (s : Service) : option string :=
  if name_count svcs (sv_Name s) <? 2 then None
  else
    let name := rootTail (sv_Root s) depth in
    if String.eqb name "" || String.eqb name (sv_Name s) then None else Some name.
Definition rename_round (depth : nat) (svcs : list Service) : list Service :=
  map (λ s, match requalified svcs depth s with Some name => set_name name s | None => s end) svcs.
Fixpoint rename_rounds (depths : list nat) (svcs : list Service) : list Service :=
  match depths with
  | [] => svcs
  | depth :: depths =>
      if existsb (λ s, match requalified svcs depth s with Some _ => true | None => false end) svcs
      then rename_rounds depths (rename_round depth svcs) else svcs
  end.
Definition disambiguateNames (svcs : list Service) : list Service := rename_rounds (seq 2 (maxNameDepth - 1)) svcs.

(** [cleanRel], [composeBuildContext] *)
Definition cleanRel (p : string) : string :=
  let p := TrimPrefix (Clean p) "./" in
  if String.eqb p "." then "" else Trim p "/".
Definition composeBuildContext (build : any) : string :=
  match build with
  | AnyString b => cleanRel b
  | AnyMap m => match List.find (λ e, String.eqb (fst e) "context") m with Some (_, AnyString ctx) => cleanRel ctx | _ => "" end
  | AnyOther => ""
  end.

Definition manifestNames : list string := ["Dockerfile"; "pom.xml"; "build.gradle"; "build.gradle.kts"; "package.json"; "go.mod"].
(** [isManifest] *)
Definition isManifest (name : string) : bool := existsb (String.eqb name) manifestNames || HasSuffix name ".csproj".

(** [detectManifests]: the callback of its walk, and the walk. *)
Definition count_slashes (s : string) : nat := length (SplitByte s "/") - 1.
Definition manifest_service (rel : string) : Service :=
  let dir := Dir rel in
  let dir := if String.eqb dir "." then "" else dir in
  {| sv_Name := if String.eqb dir "" then "" else Base dir; sv_Root := dir; sv_Manifest := rel; sv_DetectedBy := "manifest" |}.
Definition walk_manifest (repoPath path : string) (d : option (string * node)) (err : option string) (out : list Service)
    : verdict * list Service :=
  match err, d with
  | Some _, _ | None, None => (Continue, out)
  | None, Some (name, n) =>
      match Rel repoPath path with
      | None => (Continue, out)
      | Some rel =>
          if is_dir_node n then
            (if existsb (String.eqb name) skipDirs || (maxDepth <=? count_slashes rel) then SkipRest else Continue, out)
          else if negb (isManifest name) then (Continue, out)
          else (Continue, out ++ [manifest_service rel])
      end
  end.
Definition detectManifests (d : disk) (repoPath : string) : list Service :=
  snd (WalkDir (walk_manifest repoPath) repoPath (os_Lstat d repoPath) []).

(** [detectCmdDirs] *)
Definition cmd_service (name : string) : Service :=
  {| sv_Name := name; sv_Root := "cmd/" +:+ name; sv_Manifest := "cmd/" +:+ name +:+ "/main.go"; sv_DetectedBy := "cmd" |}.
Definition detectCmdDirs (d : disk) (repoPath : string) : list Service :=
  match os_ReadDir d (JoinPath [repoPath; "cmd"]) with
  | None => []
  | Some entries =>
      omap (λ e : string * bool,
        if negb (snd e) then None
        else if os_Stat d (JoinPath [repoPath; "cmd"; fst e; "main.go"]) then Some (cmd_service (fst e)) else None) entries
  end.

Section Services.
  Context (unmarshal_manifest : string → string + (list ManifestService * list string)).
  (** [yaml.Unmarshal] into a [composeFile]: the services and their build fields. *)
  Context (unmarshal_compose : string → string + gmap string any).
  Context (range_builds : gmap string any → list (string * any)) (range_roots : gmap string Service → list (string * Service)).

(** [detectRagotaYAML] *)
Definition detectRagotaYAML (d : disk) (repoPath : string) : list Service :=
  match LoadManifest unmarshal_manifest d repoPath with
  | inl _ | inr None => []
  | inr (Some m) =>
      map (λ s, {| sv_Name := ms_Name s; sv_Root := ms_Root s; sv_Manifest := mf_File m; sv_DetectedBy := "ragota.yaml" |}) (mf_Services m)
  end.

(** [detectCompose] *)
Definition composeNames : list string := ["docker-compose.yml"; "docker-compose.yaml"; "compose.yml"; "compose.yaml"].
Definition compose_service (name : string) (s : string * any) : option Service :=
  let root := composeBuildContext (snd s) in
  if String.eqb root "" then None
  else Some {| sv_Name := fst s; sv_Root := root; sv_Manifest := name; sv_DetectedBy := "docker-compose" |}.
Definition detectCompose (d : disk) (repoPath : string) : list Service :=
  (fix try (names : list string) : list Service :=
    match names with
    | [] => []
    | name :: names =>
        match os_ReadFile d (JoinPath [repoPath; name]) with
        | Content data =>
            match unmarshal_compose data with
            | inl _ => try names
            | inr services =>
                match omap (compose_service name) (range_builds services) with
                | [] => try names
                | out => out
                end
            end
        | _ => try names
        end
    end) composeNames.

(** [DetectServices]; [add] keeps the first service of a root. *)
Definition add_service (byRoot : gmap string Service) (s : Service) : gmap string Service :=
  let root := Trim (sv_Root s) "/" in
  match byRoot !! root with Some _ => byRoot | None => <[root := set_root root s]> byRoot end.
Definition by_root (d : disk) (repoPath : string) : gmap string Service :=
  let found := foldl add_service ∅ (detectCompose d repoPath) in
  let found := foldl add_service found (detectCmdDirs d repoPath) in
  foldl add_service found (filter (λ s, sv_Root s ≠ "") (detectManifests d repoPath)).
Definition DetectServices (d : disk) (repoPath repoName : string) : list Service :=
  match detectRagotaYAML d repoPath with
  | [] =>
      let byRoot := by_root d repoPath in
      let byRoot := if decide (byRoot = ∅)
                    then {[ "" := {| sv_Name := repoName; sv_Root := ""; sv_Manifest := ""; sv_DetectedBy := "root" |} ]} else byRoot in
      SliceSort (order_by String.ltb sv_Name) (disambiguateNames (map snd (range_roots byRoot)))
  | svcs => svcs
  end.
End Services.

(** [MergeServiceHints] *)
Definition hint_step (acc : list Service * gset string) (h : Service) : list Service * gset string :=
  let '(out, taken) := acc in
  if String.eqb (sv_Name h) "" then acc
  else
    let root := Trim (sv_Root h) "/" in
    if bool_decide (root ∈ taken) then acc
    else (out ++ [{| sv_Name := sv_Name h; sv_Root := root; sv_Manifest := sv_Manifest h; sv_DetectedBy := "llm" |}], {[root]} ∪ taken).
Definition MergeServiceHints (detected hints : list Service) : list Service :=
  SliceSort (order_by String.ltb sv_Name)
    (fst (foldl hint_step (detected, list_to_set (map (λ s, Trim (sv_Root s) "/") detected)) hints)).

(** The last [n] components of a path. *)
Definition tail_words (n : nat) (ws : list string) : list string := drop (length ws - n) ws.

Lemma tail_tail a b ws : b ≤ a → tail_words b (tail_words a ws) = tail_words b ws.
Proof.
  intros H. unfold tail_words. rewrite drop_drop, length_drop. f_equal. lia.
Qed.
Lemma tail_all n ws : length ws ≤ n → tail_words n ws = ws.
Proof. intros H. unfold tail_words. by replace (length ws - n) with 0 by lia. Qed.
Lemma tail_nonempty n ws : ws ≠ [] → 0 < n → tail_words n ws ≠ [].
Proof. intros Hw Hn E. apply (f_equal length) in E. unfold tail_words in E. rewrite length_drop in E. destruct ws; simpl in *; [done | lia]. Qed.
Lemma tail_components n ws : Forall component ws → Forall component (tail_words n ws).
Proof. apply Forall_drop. Qed.

(** What a service is named after its root's last components. *)
Definition rooted (ws : list string) (s : Service) : Prop := repo_path ws ∧ sv_Root s = join_components ws.

Lemma find_snoc {A} (f : A → bool) l x :
  List.find f (l ++ [x]) = match List.find f l with Some y => Some y | None => if f x then Some x else None end.
Proof. induction l as [|y l IH]; simpl; [done |]. by destruct (f y). Qed.

Section Names.
  (** The roots, in components. *)
  Context (rs : list (list string)).

(** No other root ends in the same [n] components. *)
Definition alone (n : nat) (ws : list string) : bool :=
  forallb (λ v, bool_decide (v = ws) || negb (bool_decide (tail_words n v = tail_words n ws))) rs.
(** The fewest components that tell a root apart, or [max]. *)
Definition depth_needed (max : nat) (ws : list string) : nat :=
  default max (List.find (λ n, alone n ws) (seq 1 max)).
Definition short_name (max : nat) (ws : list string) : string := join_components (tail_words (depth_needed max ws) ws).

Lemma alone_spec n ws : alone n ws = true ↔ ∀ v, v ∈ rs → v ≠ ws → tail_words n v ≠ tail_words n ws.
Proof.
  unfold alone. rewrite forallb_forall. setoid_rewrite <- list_elem_of_In.
  split; intros H v Hv; specialize (H v Hv); repeat case_bool_decide; naive_solver.
Qed.

Lemma depth_needed_S d ws :
  1 ≤ d → depth_needed (S d) ws = if alone (depth_needed d ws) ws then depth_needed d ws else S d.
Proof.
  intros Hd. unfold depth_needed. rewrite seq_S, find_snoc. simpl.
  destruct (List.find _ (seq 1 d)) as [n|] eqn:E; simpl.
  - apply find_some in E as [_ E]. by rewrite E.
  - assert (alone d ws = false) as Ha.
    { apply (find_none _ _ E). apply in_seq. lia. }
    rewrite Ha. by destruct (alone (S d) ws).
Qed.

Lemma depth_needed_bounds d ws : 1 ≤ d → 1 ≤ depth_needed d ws ≤ d.
Proof.
  intros Hd. unfold depth_needed. destruct (List.find _ _) as [n|] eqn:E; simpl; [|lia].
  apply find_some in E as [E _]. apply in_seq in E. lia.
Qed.

Lemma not_alone_depth d ws : alone (depth_needed d ws) ws = false → depth_needed d ws = d.
Proof.
  unfold depth_needed. destruct (List.find _ _) as [n|] eqn:E; [|done]. apply find_some in E as [_ E]. simpl. congruence.
Qed.

(** Two roots with one name at some depth needed all of it. *)
Lemma same_short_name d v ws :
  1 ≤ d → v ∈ rs → ws ∈ rs → v ≠ ws → repo_path v → repo_path ws →
  short_name d v = short_name d ws → alone (depth_needed d ws) ws = false ∧ tail_words d v = tail_words d ws.
Proof.
  intros Hd Hv Hw Hne [Nv Cv] [Nw Cw] E.
  pose proof (depth_needed_bounds d v Hd) as Bv. pose proof (depth_needed_bounds d ws Hd) as Bw.
  apply join_components_inj in E; try (by apply tail_components); try (apply tail_nonempty; [done | lia]).
  pose proof (not_alone_depth d) as Hall.
  destruct (alone (depth_needed d ws) ws) eqn:Aw.
  - exfalso. destruct (decide (depth_needed d ws ≤ depth_needed d v)) as [L|L].
    + apply (proj1 (alone_spec _ _) Aw v Hv Hne). apply (f_equal (tail_words (depth_needed d ws))) in E.
      by rewrite !tail_tail in E by lia.
    + destruct (alone (depth_needed d v) v) eqn:Av; [|apply Hall in Av; lia].
      apply (proj1 (alone_spec _ _) Av ws Hw (not_eq_sym Hne)). apply (f_equal (tail_words (depth_needed d v))) in E.
      rewrite !tail_tail in E by lia. done.
  - split; [done |]. rewrite (Hall ws Aw) in E. destruct (alone (depth_needed d v) v) eqn:Av.
    + exfalso. apply (proj1 (alone_spec _ _) Av ws Hw (not_eq_sym Hne)).
      apply (f_equal (tail_words (depth_needed d v))) in E. rewrite !tail_tail in E by lia. done.
    + by rewrite (Hall v Av) in E.
Qed.
End Names.

(** ** The rounds *)

Lemma rootTail_words ws n : repo_path ws → rootTail (join_components ws) n = join_components (tail_words n ws).
Proof.
  intros [Hn Hc]. unfold rootTail.
  assert (Trim (join_components ws) "/" = join_components ws) as ->.
  { apply Trim_Join.
    - eapply Forall_impl; [exact Hc |]. by intros w (_ & _ & _ & H).
    - destruct Hc as [|w l (H & _)]; simpl; congruence.
    - intros E. apply last_Some in E as [l ->]. apply Forall_app in Hc as [_ [(H & _) _]%Forall_cons]. done. }
  pose proof (join_components_nonempty ws Hn Hc) as He%String.eqb_neq. rewrite He.
  assert (SplitByte (join_components ws) "/" = ws) as ->.
  { apply Split_Join; [done |]. eapply Forall_impl; [exact Hc |]. by intros w (_ & _ & _ & H). }
  unfold tail_words. destruct (Nat.ltb_spec n (length ws)); [done |]. by replace (length ws - n) with 0 by lia.
Qed.

(** Services on roots of their own, each named as [d] components allow. *)
Definition named_at (d : nat) (rs : list (list string)) (svcs : list Service) : Prop :=
  NoDup rs ∧ Forall2 (λ ws s, rooted ws s ∧ sv_Name s = short_name rs d ws) rs svcs.

Lemma name_count_two svcs s :
  NoDup svcs → s ∈ svcs → (name_count svcs (sv_Name s) <? 2) = false ↔ ∃ s', s' ∈ svcs ∧ s' ≠ s ∧ sv_Name s' = sv_Name s.
Proof.
  intros Hnd Hs. rewrite Nat.ltb_ge. unfold name_count.
  assert (s ∈ filter (λ x, sv_Name x = sv_Name s) svcs) as Hf by by apply (list_elem_of_filter (λ x, sv_Name x = sv_Name s)).
  pose proof (NoDup_filter (λ x, sv_Name x = sv_Name s) svcs Hnd) as Hnd'.
  assert (∀ x, x ∈ filter (λ x, sv_Name x = sv_Name s) svcs ↔ sv_Name x = sv_Name s ∧ x ∈ svcs) as Hin by (intros; rewrite list_elem_of_filter; tauto).
  destruct (filter _ svcs) as [|a [|b l]]; simpl.
  - by apply elem_of_nil in Hf.
  - apply list_elem_of_singleton in Hf as <-. split; [lia |]. intros (s' & H1 & H2 & H3).
    assert (s' ∈ [s]) as Hs'%list_elem_of_singleton by by apply Hin. done.
  - split; [|lia]. intros _. apply NoDup_cons in Hnd' as [Ha Hnd'].
    destruct (decide (a = s)) as [->|Hne].
    + exists b. split_and!; [apply Hin; right; by left | intros ->; apply Ha; by left | apply Hin; right; by left].
    + exists a. split_and!; [apply Hin; by left | done | apply Hin; by left].
Qed.

Lemma named_at_nodup d rs svcs : named_at d rs svcs → NoDup svcs.
Proof.
  intros [Hnd H]. apply (NoDup_fmap_1 sv_Root). replace (sv_Root <$> svcs) with (map join_components rs).
  - apply NoDup_fmap_2_strong; [|done]. intros v ws Hv Hw E.
    apply list_elem_of_lookup in Hv as [i Hv], Hw as [j Hw].
    destruct (Forall2_lookup_l _ _ _ _ _ H Hv) as (? & _ & ([[? ?] _] & _)), (Forall2_lookup_l _ _ _ _ _ H Hw) as (? & _ & ([[? ?] _] & _)).
    by apply join_components_inj.
  - clear Hnd. induction H as [|? ? ? ? [[_ E] _] _ IH]; simpl; [done |]. by rewrite E, IH.
Qed.

(** A root that is not told apart has a twin that is not either. *)
Lemma twin rs d ws :
  1 ≤ d → alone rs (depth_needed rs d ws) ws = false → ws ∈ rs →
  ∃ v, v ∈ rs ∧ v ≠ ws ∧ tail_words d v = tail_words d ws ∧ alone rs (depth_needed rs d v) v = false ∧ short_name rs d v = short_name rs d ws.
Proof.
  intros Hd Ha Hw. pose proof (not_alone_depth _ _ _ Ha) as Ed. pose proof Ha as Ha'. rewrite Ed in Ha'.
  assert (∃ v, v ∈ rs ∧ v ≠ ws ∧ tail_words d v = tail_words d ws) as (v & Hv & Hne & Et).
  { destruct (decide (Exists (λ v, v ≠ ws ∧ tail_words d v = tail_words d ws) rs)) as [H|H]; [by apply Exists_exists in H |].
    apply not_true_iff_false in Ha'. destruct Ha'. apply alone_spec. intros v Hv Hne Et. apply H, Exists_exists. by exists v. }
  exists v. split_and!; [done | done | done | |].
  - apply not_true_iff_false. rewrite alone_spec. intros H. apply (H ws Hw (not_eq_sym Hne)).
    pose proof (depth_needed_bounds rs d v Hd). apply (f_equal (tail_words (depth_needed rs d v))) in Et. by rewrite !tail_tail in Et by lia.
  - assert (alone rs (depth_needed rs d v) v = false) as Hav.
    { apply not_true_iff_false. rewrite alone_spec. intros H. apply (H ws Hw (not_eq_sym Hne)).
      pose proof (depth_needed_bounds rs d v Hd). apply (f_equal (tail_words (depth_needed rs d v))) in Et. by rewrite !tail_tail in Et by lia. }
    unfold short_name. by rewrite Ed, (not_alone_depth _ _ _ Hav), Et.
Qed.

Lemma tail_same d ws : tail_words (S d) ws = tail_words d ws → tail_words d ws = ws.
Proof.
  intros E. apply tail_all. apply (f_equal length) in E. unfold tail_words in E. rewrite !length_drop in E. lia.
Qed.

(** One round takes the names one component further. *)
Lemma requalified_spec d rs svcs i ws s :
  1 ≤ d → named_at d rs svcs → rs !! i = Some ws → svcs !! i = Some s →
  default (sv_Name s) (requalified svcs (S d) s) = short_name rs (S d) ws ∧
  (requalified svcs (S d) s = None → alone rs (depth_needed rs d ws) ws = false → tail_words d ws = ws).
Proof.
  intros Hd Hat Hi Hs. pose proof (named_at_nodup _ _ _ Hat) as Hnd. destruct Hat as [Hr H].
  pose proof (Forall2_lookup_lr _ _ _ _ _ _ H Hi Hs) as [[Hp Hroot] Hn].
  assert (ws ∈ rs) as Hw by by eapply list_elem_of_lookup_2.
  assert (s ∈ svcs) as Hsin by by eapply list_elem_of_lookup_2.
  unfold requalified, short_name at 1. rewrite depth_needed_S by done.
  destruct (alone rs (depth_needed rs d ws) ws) eqn:Ea.
  - assert ((name_count svcs (sv_Name s) <? 2) = true) as ->.
    { apply not_false_iff_true. rewrite (name_count_two svcs s Hnd Hsin). intros (s' & Hin & Hne & E).
      apply list_elem_of_lookup in Hin as [j Hj]. destruct (Forall2_lookup_r _ _ _ _ _ H Hj) as (v & Hv & [Hpv Hrv] & Env).
      destruct (decide (v = ws)) as [->|Hvw].
      - apply Hne. assert (j = i) as -> by exact (NoDup_lookup rs _ _ ws Hr Hv Hi). congruence.
      - rewrite Hn, Env in E. apply same_short_name in E as [E _]; [congruence | done | by eapply list_elem_of_lookup_2 | done..]. }
    simpl. by rewrite Hn.
  - destruct (twin rs d ws Hd Ea Hw) as (v & Hv & Hvw & Et & Eav & Env).
    assert ((name_count svcs (sv_Name s) <? 2) = false) as ->.
    { apply (name_count_two svcs s Hnd Hsin). apply list_elem_of_lookup in Hv as [j Hv].
      destruct (Forall2_lookup_l _ _ _ _ _ H Hv) as (s' & Hs' & [Hpv Hrv] & Ens').
      exists s'. split_and!; [by eapply list_elem_of_lookup_2 | | congruence].
      intros ->. apply Hvw. destruct Hpv, Hp. apply join_components_inj; [done.. | congruence]. }
    rewrite Hroot, rootTail_words, Hn by done. unfold short_name. rewrite (not_alone_depth _ _ _ Ea).
    destruct Hp as [Np Cp].
    assert (String.eqb (join_components (tail_words (S d) ws)) "" = false) as ->.
    { apply String.eqb_neq, join_components_nonempty; [apply tail_nonempty; [done | lia] | by apply tail_components]. }
    simpl. destruct (String.eqb_spec (join_components (tail_words (S d) ws)) (join_components (tail_words d ws))) as [E|E]; simpl; [|done].
    split; [done |]. intros _ _. apply tail_same.
    apply join_components_inj in E; try (by apply tail_components); [done | apply tail_nonempty; [done | lia] ..].
Qed.

Lemma rename_round_at d rs svcs : 1 ≤ d → named_at d rs svcs → named_at (S d) rs (rename_round (S d) svcs).
Proof.
  intros Hd Hat. split; [apply Hat |]. apply Forall2_same_length_lookup. unfold rename_round. split.
  - rewrite length_map. destruct Hat as [_ H]. by apply Forall2_length in H.
  - intros i ws s' Hi Hs'. rewrite list_lookup_fmap in Hs'. destruct (svcs !! i) as [s|] eqn:Hs; [|done]. injection Hs' as <-.
    destruct (requalified_spec d rs svcs i ws s Hd Hat Hi Hs) as [H1 _].
    destruct Hat as [_ H]. pose proof (Forall2_lookup_lr _ _ _ _ _ _ H Hi Hs) as [Hr Hn].
    destruct (requalified svcs (S d) s); simpl in *; split; (done || congruence).
Qed.

Lemma depth_needed_stable rs d k ws : 1 ≤ d → alone rs (depth_needed rs d ws) ws = true → depth_needed rs (d + k) ws = depth_needed rs d ws.
Proof.
  intros Hd Ha. induction k as [|k IH]; [by rewrite Nat.add_0_r |].
  rewrite Nat.add_succ_r, depth_needed_S, IH, Ha by lia. done.
Qed.

(** A round that changes nothing was the last one needed. *)
Lemma settled d k rs svcs :
  1 ≤ d → named_at d rs svcs → Forall (λ s, requalified svcs (S d) s = None) svcs → named_at (d + k) rs svcs.
Proof.
  intros Hd Hat Hq. assert (∀ ws, ws ∈ rs → alone rs (depth_needed rs d ws) ws = false → tail_words d ws = ws) as Hfull.
  { intros ws Hw Ha. apply list_elem_of_lookup in Hw as [i Hi].
    destruct Hat as [Hr H]. destruct (Forall2_lookup_l _ _ _ _ _ H Hi) as (s & Hs & _).
    apply (requalified_spec d rs svcs i ws s Hd (conj Hr H) Hi Hs); [|done].
    rewrite Forall_forall in Hq. apply Hq. by eapply list_elem_of_lookup_2. }
  assert (∀ ws, ws ∈ rs → alone rs (depth_needed rs d ws) ws = true) as Hal.
  { intros ws Hw. apply not_false_iff_true. intros Ha. destruct (twin rs d ws Hd Ha Hw) as (v & Hv & Hne & Et & Eav & _).
    apply Hne. by rewrite <- (Hfull v), <- (Hfull ws), Et by done. }
  destruct Hat as [Hr H]. split; [done |]. apply Forall2_same_length_lookup in H as [Hlen H].
  apply Forall2_same_length_lookup. split; [done |]. intros i ws s Hi Hs. destruct (H i ws s Hi Hs) as [H1 H2].
  split; [done |]. unfold short_name. rewrite depth_needed_stable; [done | done |]. apply Hal. by eapply list_elem_of_lookup_2.
Qed.

Lemma rename_rounds_at k d rs svcs : 1 ≤ d → named_at d rs svcs → named_at (d + k) rs (rename_rounds (seq (S d) k) svcs).
Proof.
  revert d svcs. induction k as [|k IH]; intros d svcs Hd Hat; simpl; [by rewrite Nat.add_0_r |].
  destruct (existsb _ svcs) eqn:E.
  - rewrite <- Nat.add_succ_comm. apply IH; [lia |]. by apply rename_round_at.
  - apply settled; [done | done |]. rewrite Forall_forall. intros s Hs.
    destruct (requalified svcs (S d) s) eqn:Eq; [|done]. apply not_true_iff_false in E. destruct E. apply existsb_exists.
    exists s. rewrite Eq. split; [by apply list_elem_of_In | done].
Qed.

(** Named after the last directory of its root to begin with. *)
Lemma initially_named rs svcs :
  NoDup rs → Forall2 (λ ws s, rooted ws s ∧ last ws = Some (sv_Name s)) rs svcs → named_at 1 rs svcs.
Proof.
  intros Hr H. split; [done |]. apply Forall2_same_length_lookup in H as [Hlen H].
  apply Forall2_same_length_lookup. split; [done |]. intros i ws s Hi Hs. destruct (H i ws s Hi Hs) as [H1 H2].
  split; [done |]. unfold short_name. assert (depth_needed rs 1 ws = 1) as ->.
  { pose proof (depth_needed_bounds rs 1 ws). lia. }
  apply last_Some in H2 as [l ->]. unfold tail_words. rewrite length_app. simpl. replace (length l + 1 - 1) with (length l) by lia.
  rewrite drop_app_length. done.
Qed.

Lemma Forall2_compose {A B C} (P : A → B → Prop) (Q : B → C → Prop) (R : A → C → Prop) la lb lc :
  (∀ x y z, P x y → Q y z → R x z) → Forall2 P la lb → Forall2 Q lb lc → Forall2 R la lc.
Proof.
  intros HR H. revert lc. induction H as [|x y la lb Hxy _ IH]; intros lc H2; inversion H2; subst; constructor; eauto.
Qed.

(** Renaming changes names only. *)
Lemma rename_rounds_names depths svcs : Forall2 (λ s s', s' = set_name (sv_Name s') s) svcs (rename_rounds depths svcs).
Proof.
  assert (∀ l : list Service, Forall2 (λ s s', s' = set_name (sv_Name s') s) l l) as Hrefl.
  { intros l. apply Forall2_same_length_lookup. split; [done |]. intros i s s' H1 H2. rewrite H1 in H2. injection H2 as <-. by destruct s. }
  revert svcs. induction depths as [|d depths IH]; intros svcs; simpl; [apply Hrefl |].
  destruct (existsb _ svcs); [|apply Hrefl].
  eapply (Forall2_compose (λ s s', s' = set_name (sv_Name s') s)); [| |apply IH].
  - intros x y z. simpl. intros -> ->. done.
  - apply Forall2_same_length_lookup. unfold rename_round. split; [by rewrite length_map |].
    intros i s s' H1 H2. rewrite list_lookup_fmap, H1 in H2. injection H2 as <-. destruct (requalified svcs d s); by destruct s.
Qed.

Lemma short_names_inj rs d :
  1 ≤ d → Forall repo_path rs → Forall (λ ws, length ws ≤ d) rs →
  ∀ v ws, v ∈ rs → ws ∈ rs → short_name rs d v = short_name rs d ws → v = ws.
Proof.
  intros Hd Hp Hl v ws Hv Hw E. rewrite Forall_forall in Hp, Hl. destruct (decide (v = ws)) as [|Hne]; [done |].
  apply same_short_name in E as [_ E]; auto. rewrite !tail_all in E by auto. done.
Qed.

(** ** Properties *)

(** Services are named as shortly as their roots allow.  When every service is
    named after the directory it is rooted at, as the directories of [cmd] and of
    build manifests are, and no two share a root, [disambiguateNames] keeps the
    services and their roots and names each by the fewest last components of its
    root, at most four, that no other root ends in; so the names of roots of at
    most four components are different. *)
Theorem disambiguate_shortest rs svcs :
  NoDup rs → Forall2 (λ ws s, rooted ws s ∧ last ws = Some (sv_Name s)) rs svcs →
  disambiguateNames svcs = zip_with (λ ws s, set_name (short_name rs maxNameDepth ws) s) rs svcs ∧
  (Forall (λ ws, length ws ≤ maxNameDepth) rs → NoDup (map sv_Name (disambiguateNames svcs))).
Proof.
  intros Hr H. pose proof (rename_rounds_at 3 1 rs svcs (le_n 1) (initially_named rs svcs Hr H)) as [_ Hat].
  pose proof (rename_rounds_names (seq 2 3) svcs) as Hn.
  change (rename_rounds (seq 2 3) svcs) with (disambiguateNames svcs) in *. change (1 + 3) with maxNameDepth in Hat.
  assert (map sv_Name (disambiguateNames svcs) = map (short_name rs maxNameDepth) rs) as Enames.
  { clear -Hat. revert Hat. generalize (short_name rs maxNameDepth). intros f Hat. induction Hat as [|? ? ? ? [_ E] _ IH]; simpl; [done |]. by rewrite E, IH. }
  split.
  - clear Enames H Hr. revert Hn Hat. generalize (disambiguateNames svcs), (short_name rs maxNameDepth). intros out name Hn Hat.
    revert svcs Hn. induction Hat as [|ws s' rs out [_ E] _ IH]; intros svcs Hn; [done |].
    inversion Hn as [|s ? svcs' ? Es Hn']; subst. simpl. rewrite <- E. f_equal; auto.
  - intros Hl. rewrite Enames. apply NoDup_fmap_2_strong; [|done]. apply short_names_inj; [unfold maxNameDepth; lia | | done].
    apply Forall_forall. intros ws Hws. apply list_elem_of_lookup in Hws as [i Hi].
    by destruct (Forall2_lookup_l _ _ _ _ _ H Hi) as (? & _ & [? _] & _).
Qed.
Definition demo_roots : list (list string) := [["svc"; "orders"; "api"]; ["svc"; "users"; "api"]; ["old"; "users"; "api"]; ["web"]].
Definition demo_services : list Service :=
  map (λ ws, {| sv_Name := default "" (last ws); sv_Root := join_components ws; sv_Manifest := ""; sv_DetectedBy := "manifest" |}) demo_roots.
Lemma disambiguate_shortest_witness :
  map sv_Name (disambiguateNames demo_services) = ["orders/api"; "svc/users/api"; "old/users/api"; "web"] ∧
  NoDup (map sv_Name (disambiguateNames demo_services)).
Proof.
  assert (NoDup demo_roots) as Hr by (apply (bool_decide_unpack (NoDup _)); vm_compute; exact I).
  assert (Forall2 (λ ws s, rooted ws s ∧ last ws = Some (sv_Name s)) demo_roots demo_services) as H.
  { repeat constructor; try done; vm_compute; done. }
  destruct (disambiguate_shortest demo_roots demo_services Hr H) as [_ Hnd].
  split; [vm_compute; reflexivity |]. apply Hnd. repeat constructor; unfold maxNameDepth; simpl; lia.
Defined.

(** ** What detection misses *)

Module Missed.
Definition no_yaml (data : string) : string + (list ManifestService * list string) := inl "no manifest".
(** A compose file with one service, built from the repository's root. *)
Definition compose (data : string) : string + gmap string any := inr {[ "api" := AnyString "." ]}.
Definition only (path : string) (tree : string + node) : disk := {|
  os_ReadFile := λ p, if String.eqb p path then Content "text" else NotExist;
  os_ReadDir := λ _, None; os_Stat := λ _, false; os_Regular := λ _, false; os_Lstat := λ _, tree |}.
Definition nested : node := DirNode None [("orders", DirNode None [("go.mod", FileNode (inr 10%Z))])].
Definition detect (d : disk) (repoPath repoName : string) : list Service :=
  DetectServices no_yaml compose map_to_list map_to_list d repoPath repoName.
End Missed.

(** A compose service built from the root of the repository is taken for one that
    has no source: the repository gets the service of last resort instead. *)
Lemma root_build_is_ignored :
  Missed.detect (Missed.only "/src/shop/compose.yaml" (inl "unreadable")) "/src/shop" "shop" =
  [{| sv_Name := "shop"; sv_Root := ""; sv_Manifest := ""; sv_DetectedBy := "root" |}].
Proof. vm_compute. reflexivity. Qed.

(** The directories left out by name are left out at the root too: in a checkout that
    lives in one called [target] no build manifest is found. *)
Lemma root_name_is_skipped :
  map sv_Name (Missed.detect (Missed.only "" (inr Missed.nested)) "/src/shop" "shop") = ["orders"] ∧
  map sv_Name (Missed.detect (Missed.only "" (inr Missed.nested)) "/src/target" "target") = ["target"].
Proof. vm_compute. done. Qed.

(** Names a compose file gives can outlast the rounds: two services end up with the
    name of one. *)
Definition chain : list Service :=
  map (λ '(name, root), {| sv_Name := name; sv_Root := root; sv_Manifest := ""; sv_DetectedBy := "docker-compose" |})
    [("n", "w"); ("w", "u/w"); ("m", "n"); ("l", "m"); ("l", "cmd/l")].
Lemma chain_collides : map sv_Name (disambiguateNames chain) = ["w"; "w"; "n"; "m"; "cmd/l"].
Proof. vm_compute. reflexivity. Qed.
