(* ===== verification/StoreQuery.v ===== *)
(** * Composing the queries of the SQL stores

    [internal/store/query.go]: the filters, the tiers and the rankings the two
    SQL backends share.  A query is text with placeholders and the arguments
    bound to them; the engine that runs it is the [UnitScanner] argument of
    [QueryUnits]. *)

From S2P Require Import Prelude GoStrings GoStrconv Domain.
From Stdlib Require Import Strings.Ascii.

(** ** Arguments and dialects *)

(** The values bound to placeholders: text, or an integer. *)
Inductive SqlArg := ArgText (s : string) | ArgInt (z : Z).

#[export] Instance SqlArg_eq_dec : EqDecision SqlArg.
Proof. solve_decision. Defined.

Definition UnitColumns : string :=
  "id, repo_id, file_path, language, kind, name, qualified, parent_id, start_line, end_line, start_byte, end_byte, signature, doc, hash, meta".

Definition EdgeOrder : string := " ORDER BY file_path, line, kind, dst_name, meta, repo_id, id".

(** [IntOrZero]; the backends bind its result. *)
Definition IntOrZero (s : string) : Z :=
  if String.eqb s "" then 0%Z else default 0%Z (ParseInt64 s).
Definition idConv (s : string) : SqlArg := ArgInt (IntOrZero s).

(** [Dialect] *)
Record Dialect := {
  Placeholder : nat → string;
  SuffixCond : string → string → nat → string
}.

Definition SQLiteDialect : Dialect := {|
  Placeholder := λ _, "?";
  SuffixCond := λ col ph n, "SUBSTR(" +:+ col +:+ ", -" +:+ Itoa (Z.of_nat n) +:+ ") = " +:+ ph
|}.

Definition PostgresDialect : Dialect := {|
  Placeholder := λ n, "$" +:+ Itoa (Z.of_nat n);
  SuffixCond := λ col ph n, "RIGHT(" +:+ col +:+ ", " +:+ Itoa (Z.of_nat n) +:+ ") = " +:+ ph
|}.

(** ** Builder *)

Record Builder := { b_d : Dialect; b_conds : list string; b_args : list SqlArg }.

Definition NewBuilder (d : Dialect) : Builder := {| b_d := d; b_conds := []; b_args := [] |}.

Definition next (b : Builder) (v : SqlArg) : Builder * string :=
  let args := b_args b ++ [v] in
  ({| b_d := b_d b; b_conds := b_conds b; b_args := args |}, Placeholder (b_d b) (length args)).

Definition add_cond (b : Builder) (cond : string) : Builder :=
  {| b_d := b_d b; b_conds := b_conds b ++ [cond]; b_args := b_args b |}.

Definition Eq (b : Builder) (col : string) (v : SqlArg) : Builder :=
  let '(b, ph) := next b v in add_cond b (col +:+ " = " +:+ ph).

(** The loops that turn a list into placeholders, or columns into conditions. *)
Fixpoint conds_of {A} (cond : Builder → A → Builder * string) (b : Builder) (l : list A)
    : Builder * list string :=
  match l with
  | [] => (b, [])
  | x :: r =>
      let '(b, p) := cond b x in
      let '(b, ps) := conds_of cond b r in
      (b, p :: ps)
  end.

Definition anyOf (b : Builder) (cols : list string) (cond : Builder → string → Builder * string) : Builder :=
  match cols with
  | [] => b
  | _ =>
      let '(b, parts) := conds_of cond b cols in
      match parts with
      | [p] => add_cond b p
      | _ => add_cond b ("(" +:+ Join parts " OR " +:+ ")")
      end
  end.

Definition EqFold (b : Builder) (cols : list string) (v : string) : Builder :=
  anyOf b cols (λ b col,
    let '(b, ph) := next b (ArgText v) in (b, "LOWER(" +:+ col +:+ ") = LOWER(" +:+ ph +:+ ")")).

(** [EscapeLike]: one pass of a replacer over the three special bytes. *)
Fixpoint EscapeLike (s : string) : string :=
  match s with
  | "" => ""
  | String c r =>
      if Ascii.eqb c "\" || Ascii.eqb c "%" || Ascii.eqb c "_"
      then String "\" (String c (EscapeLike r))
      else String c (EscapeLike r)
  end.

Definition like_pattern (v : string) : string := "%" +:+ EscapeLike v +:+ "%".

Definition ContainsFold (b : Builder) (cols : list string) (v : string) : Builder :=
  anyOf b cols (λ b col,
    let '(b, ph) := next b (ArgText (like_pattern v)) in
    (b, "LOWER(" +:+ col +:+ ") LIKE LOWER(" +:+ ph +:+ ") ESCAPE '\'")).

(** [NotIn] and [In] *)
Definition membership (b : Builder) (col op : string) (vals : list SqlArg) : Builder :=
  match vals with
  | [] => b
  | _ => let '(b, ph) := conds_of next b vals in add_cond b (col +:+ op +:+ Join ph "," +:+ ")")
  end.
Definition NotIn (b : Builder) (col : string) (vals : list SqlArg) : Builder :=
  membership b col " NOT IN (" vals.
Definition In (b : Builder) (col : string) (vals : list SqlArg) : Builder :=
  membership b col " IN (" vals.

Definition Suffix (b : Builder) (col suffix : string) : Builder :=
  if String.eqb suffix "" then b
  else let '(b, ph) := next b (ArgText suffix) in
       add_cond b (SuffixCond (b_d b) col ph (RuneCountInString suffix)).

Definition Lte (b : Builder) (col : string) (v : SqlArg) : Builder :=
  let '(b, ph) := next b v in add_cond b (col +:+ " <= " +:+ ph).
Definition Gte (b : Builder) (col : string) (v : SqlArg) : Builder :=
  let '(b, ph) := next b v in add_cond b (col +:+ " >= " +:+ ph).
Definition Raw (b : Builder) (cond : string) : Builder := add_cond b cond.

Definition Limit (b : Builder) (n : Z) : Builder * string :=
  let '(b, ph) := next b (ArgInt n) in (b, " LIMIT " +:+ ph).

Definition Where (b : Builder) : string * list SqlArg :=
  match b_conds b with
  | [] => ("", b_args b)
  | conds => (" AND " +:+ Join conds " AND ", b_args b)
  end.

(** ** Unit queries *)

Inductive UnitTier := TierExact | TierSubstring | TierHandWritten | TierRemainder.

#[export] Instance UnitTier_eq_dec : EqDecision UnitTier.
Proof. solve_decision. Defined.

Definition substring (t : UnitTier) : bool :=
  match t with TierSubstring | TierRemainder => true | _ => false end.

Definition quoteLiteral (s : string) : string := "'" +:+ ReplaceByte "'" "''" s +:+ "'".

Definition penalty_cond (m : string) : string :=
  "LOWER('/' || file_path) LIKE " +:+ quoteLiteral (like_pattern m) +:+ " ESCAPE '\'".

Definition buildPenaltyPath : string :=
  Join (map penalty_cond (generatedPathMarkers ++ testPathMarkers)) " OR ".

Definition penaltyRank : string := "CASE WHEN " +:+ buildPenaltyPath +:+ " THEN 1 ELSE 0 END".

Definition UnitTieBreak : string := "repo_id, file_path, start_line, start_byte, kind, name, qualified, id".

Definition unitOrder : string := " ORDER BY " +:+ penaltyRank +:+ ", LENGTH(name), " +:+ UnitTieBreak.

Definition unitTerm (b : Builder) (tier : UnitTier) (cols : list string) (v : string) : Builder :=
  if substring tier then ContainsFold b cols v else EqFold b cols v.

(** A filter that an empty option does not set. *)
Definition when (c : bool) (f : Builder → Builder) (b : Builder) : Builder := if c then f b else b.
Definition given (s : string) : bool := negb (String.eqb s "").

Definition unitTerms (b : Builder) (opts : QueryOpts) (tier : UnitTier) : Builder :=
  let b := when (given (q_Name opts)) (λ b, unitTerm b tier ["name"] (q_Name opts)) b in
  let b := when (given (q_Qualified opts)) (λ b, unitTerm b tier ["qualified"] (q_Qualified opts)) b in
  when (given (q_NameOrQualified opts))
    (λ b, unitTerm b tier ["name"; "qualified"] (q_NameOrQualified opts)) b.

Definition UnitFilters (b : Builder) (opts : QueryOpts) (tier : UnitTier) : Builder :=
  let b := when (given (q_RepoID opts)) (λ b, Eq b "repo_id" (ArgText (q_RepoID opts))) b in
  let b := In b "repo_id" (map ArgText (q_Repos opts)) in
  let b := when (given (q_FilePath opts)) (λ b, Eq b "file_path" (ArgText (q_FilePath opts))) b in
  let b := when (given (q_Language opts)) (λ b, Eq b "language" (ArgText (q_Language opts))) b in
  let b := when (given (q_Kind opts)) (λ b, Eq b "kind" (ArgText (q_Kind opts))) b in
  let b := In b "kind" (map ArgText (q_Kinds opts)) in
  let b := unitTerms b opts tier in
  let b := when (given (q_QualifiedSuffix opts)) (λ b, Suffix b "qualified" (q_QualifiedSuffix opts)) b in
  let b := when (0 <? q_Line opts)%Z
             (λ b, Gte (Lte b "start_line" (ArgInt (q_Line opts))) "end_line" (ArgInt (q_Line opts))) b in
  when (bool_decide (tier = TierHandWritten)) (λ b, Raw b ("NOT (" +:+ buildPenaltyPath +:+ ")")) b.

(** [unitTermConds] keeps the arguments its terms registered and takes their
    conditions back. *)
Definition unitTermConds (b : Builder) (opts : QueryOpts) (tier : UnitTier) : Builder * list string :=
  let start := length (b_conds b) in
  let b' := unitTerms b opts tier in
  ({| b_d := b_d b'; b_conds := take start (b_conds b'); b_args := b_args b' |},
   drop start (b_conds b')).

Definition unitOrderBy (b : Builder) (opts : QueryOpts) (tier : UnitTier) : Builder * string :=
  if decide (tier = TierRemainder) then
    let '(b, exact) := unitTermConds b opts TierExact in
    match exact with
    | [] => (b, unitOrder)
    | _ => (b, " ORDER BY " +:+ penaltyRank +:+
               ", CASE WHEN " +:+ Join exact " AND " +:+ " THEN 0 ELSE 1 END" +:+
               ", LENGTH(name), " +:+ UnitTieBreak)
    end
  else (b, unitOrder).

Definition UnitQuery (d : Dialect) (opts : QueryOpts) (tier : UnitTier) (limit : Z)
    (exclude : list SqlArg) : string * list SqlArg :=
  let b := UnitFilters (NewBuilder d) opts tier in
  let b := NotIn b "id" exclude in
  let '(b, order) := unitOrderBy b opts tier in
  let '(b, lim) := if (0 <? limit)%Z then Limit b limit else (b, "") in
  let '(cond, args) := Where b in
  ("SELECT " +:+ UnitColumns +:+ " FROM ast_units WHERE 1=1" +:+ cond +:+ order +:+ lim, args).

(** ** The lookup *)

Definition hasUnitTerm (opts : QueryOpts) : bool :=
  given (q_Name opts) || given (q_Qualified opts) || given (q_NameOrQualified opts).

(** [UnitScanner]: an error, or the rows the statement selects. *)
Abbreviation UnitScanner E := (string * list SqlArg → E + list ASTUnit).

Definition QueryUnits {E} (d : Dialect) (opts : QueryOpts) (idConv : string → SqlArg)
    (scan : UnitScanner E) : E + list ASTUnit :=
  let widen := q_Fallback opts && (0 <? q_Limit opts)%Z && hasUnitTerm opts in
  let '(first, second) := if widen then (TierHandWritten, TierRemainder) else (TierExact, TierSubstring) in
  match scan (UnitQuery d opts first (q_Limit opts) []) with
  | inl err => inl err
  | inr units =>
      if negb widen || (q_Limit opts <=? Z.of_nat (length units))%Z then inr units
      else
        let exclude := map (λ u, idConv (u_ID u)) units in
        match scan (UnitQuery d opts second (q_Limit opts - Z.of_nat (length units)) exclude) with
        | inl err => inl err
        | inr more => inr (units ++ more)
        end
  end.

(** ** Edge queries *)

Definition EdgeFilters (b : Builder) (opts : QueryOpts) (idConv : string → SqlArg) : Builder :=
  let b := when (given (q_RepoID opts)) (λ b, Eq b "repo_id" (ArgText (q_RepoID opts))) b in
  let b := when (given (q_FilePath opts)) (λ b, Eq b "file_path" (ArgText (q_FilePath opts))) b in
  let b := when (given (q_Kind opts)) (λ b, Eq b "kind" (ArgText (q_Kind opts))) b in
  let b := In b "kind" (map ArgText (q_Kinds opts)) in
  let b := when (given (q_Name opts)) (λ b, Eq b "dst_name" (ArgText (q_Name opts))) b in
  let b := when (given (q_SrcID opts)) (λ b, Eq b "src_id" (idConv (q_SrcID opts))) b in
  let b := when (given (q_DstID opts)) (λ b, Eq b "dst_id" (idConv (q_DstID opts))) b in
  when (q_Unresolved opts) (λ b, Raw b "dst_id = 0") b.
