(* ===== verification/LinkStore.v ===== *)
(** * The store the linker writes

    [internal/store/interface.go]: the part of [Storage] and of
    [EdgeResolutionBatcher] the linker goes through, as operations on a state of
    the store, and what they promise: a write that reports no error is done, one
    that reports an error has done nothing, and a batch says which of its rows it
    lost. *)

From S2P Require Import Prelude GoStrings GoStrconv GoFloat Domain Store StoreQuery.

(** ** Edge resolutions ([internal/store/types.go]) *)

Record EdgeResolution := {
  er_EdgeID : string;
  er_DstID : string;
  er_DstRepoID : string;
  er_Confidence : f32
}.

Record EdgeResolutionFailure := {
  rf_Index : nat;
  rf_EdgeID : string;
  rf_Err : StoreError
}.

(** ** Edits of an edge *)

Definition with_id (id : string) (e : Edge) : Edge :=
  {| e_ID := id; e_RepoID := e_RepoID e; e_SrcID := e_SrcID e; e_DstID := e_DstID e;
     e_Kind := e_Kind e; e_DstName := e_DstName e; e_FilePath := e_FilePath e; e_Line := e_Line e;
     e_DstRepoID := e_DstRepoID e; e_Confidence := e_Confidence e; e_Meta := e_Meta e |}.

Definition with_dst (dst dstRepo : string) (conf : f32) (e : Edge) : Edge :=
  {| e_ID := e_ID e; e_RepoID := e_RepoID e; e_SrcID := e_SrcID e; e_DstID := dst;
     e_Kind := e_Kind e; e_DstName := e_DstName e; e_FilePath := e_FilePath e; e_Line := e_Line e;
     e_DstRepoID := dstRepo; e_Confidence := conf; e_Meta := e_Meta e |}.

Definition with_meta (meta : string) (e : Edge) : Edge :=
  {| e_ID := e_ID e; e_RepoID := e_RepoID e; e_SrcID := e_SrcID e; e_DstID := e_DstID e;
     e_Kind := e_Kind e; e_DstName := e_DstName e; e_FilePath := e_FilePath e; e_Line := e_Line e;
     e_DstRepoID := e_DstRepoID e; e_Confidence := e_Confidence e; e_Meta := meta |}.

Definition with_name (name : string) (e : Edge) : Edge :=
  {| e_ID := e_ID e; e_RepoID := e_RepoID e; e_SrcID := e_SrcID e; e_DstID := e_DstID e;
     e_Kind := e_Kind e; e_DstName := name; e_FilePath := e_FilePath e; e_Line := e_Line e;
     e_DstRepoID := e_DstRepoID e; e_Confidence := e_Confidence e; e_Meta := e_Meta e |}.

(** ** The operations *)

Class LinkStore (St : Type) := {
  read_units : QueryOpts → St → Fallible (list ASTUnit) * St;
  read_edges : QueryOpts → St → Fallible (list Edge) * St;
  update_resolution : EdgeResolution → St → option StoreError * St;
  (** [BatchUpdateEdgeResolutions], where the store implements it *)
  batch_resolutions :
    option (list EdgeResolution → St → (list EdgeResolutionFailure * option StoreError) * St);
  update_meta : string → string → St → option StoreError * St;
  delete_by_kind : string → string → St → option StoreError * St;
  delete_by_kind_dst : string → string → St → option StoreError * St;
  store_edge : Edge → St → option StoreError * St;
  store_edges : list Edge → St → option StoreError * St
}.

(** ** What they promise *)

(** Ids are integers, and "" is no id. *)
Definition is_id (s : string) : Prop := s = "" ∨ (IntOrZero s ≠ 0%Z ∧ Itoa (IntOrZero s) = s).
Definition storable (e : Edge) : Prop := is_id (e_DstID e) ∧ Itoa (IntOrZero (e_SrcID e)) = e_SrcID e.

(** The queries of the linker: a repository, a kind, kinds. *)
Definition link_query (repoID kind : string) (kinds : list string) : QueryOpts := {|
  q_RepoID := repoID; q_Repos := []; q_FilePath := ""; q_Language := ""; q_Kind := kind;
  q_Kinds := kinds; q_Name := ""; q_Qualified := ""; q_QualifiedSuffix := "";
  q_NameOrQualified := ""; q_Fallback := false; q_SrcID := ""; q_DstID := "";
  q_Unresolved := false; q_Line := 0; q_Limit := 0 |}.

Definition resolve (r : EdgeResolution) (e : Edge) : Edge :=
  if String.eqb (e_ID e) (er_EdgeID r)
  then with_dst (er_DstID r) (er_DstRepoID r) (er_Confidence r) e else e.
Definition resolve_all (rs : list EdgeResolution) (es : list Edge) : list Edge :=
  foldl (λ es r, map (resolve r) es) es rs.

Definition valid_resolution (r : EdgeResolution) : Prop := is_id (er_EdgeID r) ∧ is_id (er_DstID r).

(** [batch_outcome i rs fs wr]: of the rows [rs], the first at index [i], those
    of [wr] were written and those [fs] names were not. *)
Inductive batch_outcome : nat → list EdgeResolution → list EdgeResolutionFailure → list EdgeResolution → Prop :=
  | outcome_nil i : batch_outcome i [] [] []
  | outcome_done i r rs fs wr :
      batch_outcome (Datatypes.S i) rs fs wr → batch_outcome i (r :: rs) fs (r :: wr)
  | outcome_failed i r err rs fs wr :
      batch_outcome (Datatypes.S i) rs fs wr →
      batch_outcome i (r :: rs) ({| rf_Index := i; rf_EdgeID := er_EdgeID r; rf_Err := err |} :: fs) wr.

(** [stays st st' es]: after [st] comes [st'], which holds the edges [es]. *)
Record stays {St} (ok : St → Prop) (edges_of : St → list Edge) (units_of : St → list ASTUnit)
    (st st' : St) (es : list Edge) : Prop := {
  stays_ok : ok st';
  stays_units : units_of st' = units_of st;
  stays_edges : edges_of st' = es
}.

Class LinkStoreLaws {St} (L : LinkStore St) (ok : St → Prop) (edges_of : St → list Edge)
    (units_of : St → list ASTUnit) : Prop := {
  edge_ids st : ok st → NoDup (map e_ID (edges_of st));
  edges_storable st : ok st → Forall (λ e, is_id (e_ID e) ∧ storable e) (edges_of st);
  units_distinct st : ok st → NoDup (map u_ID (units_of st));
  unit_ids st : ok st → Forall (λ u, u_ID u ≠ "" ∧ is_id (u_ID u)) (units_of st);
  read_units_ok st repo kind kinds r st' :
    ok st → read_units (link_query repo kind kinds) st = (r, st') →
    stays ok edges_of units_of st st' (edges_of st) ∧
    ∀ us, r = inr us → us ≡ₚ filter (λ u, unit_matches (link_query repo kind kinds) u = true) (units_of st);
  read_edges_ok st repo kind kinds r st' :
    ok st → read_edges (link_query repo kind kinds) st = (r, st') →
    stays ok edges_of units_of st st' (edges_of st) ∧
    ∀ es, r = inr es → es ≡ₚ filter (λ e, edge_matches (link_query repo kind kinds) e = true) (edges_of st);
  update_resolution_ok st r e st' :
    ok st → valid_resolution r → update_resolution r st = (e, st') →
    stays ok edges_of units_of st st'
      (match e with None => map (resolve r) (edges_of st) | Some _ => edges_of st end);
  batch_resolutions_ok f st rs fs e st' :
    batch_resolutions = Some f → ok st → Forall valid_resolution rs → NoDup (map er_EdgeID rs) →
    f rs st = ((fs, e), st') →
    ∃ part rest wr, rs = part ++ rest ∧ (e = None → rest = []) ∧ batch_outcome 0 part fs wr ∧
      stays ok edges_of units_of st st' (resolve_all wr (edges_of st));
  update_meta_ok st id meta e st' :
    ok st → is_id id → update_meta id meta st = (e, st') →
    stays ok edges_of units_of st st'
      (match e with
       | None => map (λ x, if String.eqb (e_ID x) id then with_meta meta x else x) (edges_of st)
       | Some _ => edges_of st
       end);
  delete_by_kind_ok st repo kind e st' :
    ok st → delete_by_kind repo kind st = (e, st') →
    stays ok edges_of units_of st st'
      (match e with
       | None => filter (λ x, ¬ (or_empty repo (e_RepoID x) = true ∧ e_Kind x = kind)) (edges_of st)
       | Some _ => edges_of st
       end);
  delete_by_kind_dst_ok st kind name e st' :
    ok st → delete_by_kind_dst kind name st = (e, st') →
    stays ok edges_of units_of st st'
      (match e with
       | None => filter (λ x, ¬ (e_Kind x = kind ∧ e_DstName x = name)) (edges_of st)
       | Some _ => edges_of st
       end);
  store_edge_ok st x e st' :
    ok st → storable x → store_edge x st = (e, st') →
    match e with
    | None => ∃ id, stays ok edges_of units_of st st' (edges_of st ++ [with_id id x])
    | Some _ => stays ok edges_of units_of st st' (edges_of st)
    end;
  store_edges_ok st xs e st' :
    ok st → Forall storable xs → store_edges xs st = (e, st') →
    match e with
    | None => ∃ ids, length ids = length xs ∧
        stays ok edges_of units_of st st' (edges_of st ++ zip_with with_id ids xs)
    | Some _ => stays ok edges_of units_of st st' (edges_of st)
    end
}.
