(* ===== verification/SqlDriver.v ===== *)
(** * The driver of the SQLite store ([internal/store/sqlite])

    Tables are a value of some type [T]; a statement is an operation on them that
    answers a value or fails.  What the database may do is part of the model:
    [fault n] is the error of the [n]-th call made on it, if that one fails.  A
    call that fails changes nothing, and a transaction that is not committed
    leaves no trace. *)

From S2P Require Import Prelude Store.

Record conn (T : Type) := { tables : T; calls : nat }.
Arguments tables {_} _.
Arguments calls {_} _.

Definition statement (T A : Type) : Type := T → Fallible (A * T).

(** The database that never fails. *)
Definition no_fault (n : nat) : option StoreError := None.

Section Driver.
  Context {T : Type} (fault : nat → option StoreError).

(** One call on the database. *)
Definition call {A} (s : statement T A) (d : conn T) : Fallible A * conn T :=
  let n := Datatypes.S (calls d) in
  match fault (calls d) with
  | Some e => (inl e, {| tables := tables d; calls := n |})
  | None =>
      match s (tables d) with
      | inr (x, t) => (inr x, {| tables := t; calls := n |})
      | inl e => (inl e, {| tables := tables d; calls := n |})
      end
  end.

(** A call that changes no table: beginning, preparing, committing. *)
Definition nothing : statement T unit := λ t, inr (tt, t).

Definition rollback (d d' : conn T) : conn T := {| tables := tables d; calls := calls d' |}.

(** [BeginTx], [body], [Commit]; an error anywhere rolls back. *)
Definition transaction {A} (body : conn T → Fallible A * conn T) (d : conn T) : Fallible A * conn T :=
  match call nothing d with
  | (inl e, d1) => (inl e, rollback d d1)
  | (inr _, d1) =>
      match body d1 with
      | (inl e, d2) => (inl e, rollback d d2)
      | (inr x, d2) =>
          match call nothing d2 with
          | (inl e, d3) => (inl e, rollback d d3)
          | (inr _, d3) => (inr x, d3)
          end
      end
  end.

(** [PrepareContext] before the statements of [body]. *)
Definition prepared {A} (body : conn T → Fallible A * conn T) (d : conn T) : Fallible A * conn T :=
  match call nothing d with
  | (inl e, d1) => (inl e, d1)
  | (inr _, d1) => body d1
  end.

(** The calls of a loop, one after another until one fails. *)
Fixpoint each {A} (f : A → conn T → Fallible unit * conn T) (xs : list A) (d : conn T) : Fallible unit * conn T :=
  match xs with
  | [] => (inr tt, d)
  | x :: xs =>
      match f x d with
      | (inl e, d1) => (inl e, d1)
      | (inr _, d1) => each f xs d1
      end
  end.

(** The inserts of a batch; every row gets an id. *)
Fixpoint insert_all {A} (ins : A → statement T Z) (xs : list A) (d : conn T) : Fallible (list Z) * conn T :=
  match xs with
  | [] => (inr [], d)
  | x :: xs =>
      match call (ins x) d with
      | (inl e, d1) => (inl e, d1)
      | (inr id, d1) =>
          match insert_all ins xs d1 with
          | (inl e, d2) => (inl e, d2)
          | (inr ids, d2) => (inr (id :: ids), d2)
          end
      end
  end.

(** What a method that only reports an error answers. *)
Definition report {A} (r : Fallible A * conn T) : option StoreError * conn T :=
  match r with (inl err, d) => (Some err, d) | (inr _, d) => (None, d) end.

(** ... and one whose statement must have changed a row. *)
Definition report_rows (r : Fallible nat * conn T) : option StoreError * conn T :=
  match r with
  | (inl err, d) => (Some err, d)
  | (inr n, d) => (if n =? 0 then Some ErrNotFound else None, d)
  end.

(** ** What they do *)

Lemma call_cases {A} (s : statement T A) d r d' :
  call s d = (r, d') →
  (∃ e, r = inl e ∧ tables d' = tables d) ∨ (∃ x, r = inr x ∧ s (tables d) = inr (x, tables d')).
Proof.
  unfold call. destruct (fault _) as [e|]; [intros [= <- <-]; left; eauto |].
  destruct (s _) as [e|[x t]]; intros [= <- <-]; [left | right]; eauto.
Qed.

Lemma nothing_tables d r d' : call nothing d = (r, d') → tables d' = tables d.
Proof. intros [(e & -> & H)|(x & -> & [= <- <-])]%call_cases; done. Qed.

Lemma transaction_cases {A} (body : conn T → Fallible A * conn T) d r d' :
  transaction body d = (r, d') →
  (∃ e, r = inl e ∧ tables d' = tables d) ∨
  (∃ x d1 d2, r = inr x ∧ tables d1 = tables d ∧ body d1 = (inr x, d2) ∧ tables d' = tables d2).
Proof.
  unfold transaction.
  destruct (call nothing d) as [[e|x1] d1] eqn:E1; [intros [= <- <-]; left; by exists e |].
  apply nothing_tables in E1.
  destruct (body d1) as [[e|x] d2] eqn:E2; [intros [= <- <-]; left; by exists e |].
  destruct (call nothing d2) as [[e|x3] d3] eqn:E3; intros [= <- <-]; [left; by exists e |].
  apply nothing_tables in E3. right. by exists x, d1, d2.
Qed.

Lemma transaction_succeeds {A} (body : conn T → Fallible A * conn T) d x d2 :
  (∀ n, fault n = None) → body {| tables := tables d; calls := Datatypes.S (calls d) |} = (inr x, d2) →
  ∃ d', transaction body d = (inr x, d').
Proof. intros Hf Hb. unfold transaction, call. rewrite !Hf. simpl. rewrite Hb, Hf. by eexists. Qed.

Lemma prepared_cases {A} (body : conn T → Fallible A * conn T) d x d' :
  prepared body d = (inr x, d') → ∃ d1, tables d1 = tables d ∧ body d1 = (inr x, d').
Proof.
  unfold prepared. destruct (call nothing d) as [[e|x1] d1] eqn:E1; [done |].
  apply nothing_tables in E1. eauto.
Qed.

(** A loop keeps what each of its rounds keeps. *)
Lemma each_keeps {A} (f : A → conn T → Fallible unit * conn T) (P : T → Prop) xs d r d' :
  (∀ x d r d', P (tables d) → f x d = (r, d') → P (tables d')) → P (tables d) → each f xs d = (r, d') → P (tables d').
Proof.
  intros Hf. revert d. induction xs as [|x xs IH]; intros d HP; simpl; [by intros [= _ <-] |].
  destruct (f x d) as [[e|[]] d1] eqn:E; apply Hf in E; try done.
  - by intros [= _ <-].
  - by apply IH.
Qed.

(** A loop that got through made every one of its rounds. *)
Lemma each_done {A} (f : A → conn T → Fallible unit * conn T) (g : A → T → T) xs d d' :
  (∀ x d d', f x d = (inr tt, d') → tables d' = g x (tables d)) → each f xs d = (inr tt, d') →
  tables d' = foldl (λ t x, g x t) (tables d) xs.
Proof.
  intros Hf. revert d. induction xs as [|x xs IH]; intros d; simpl; [by intros [= <-] |].
  destruct (f x d) as [[e|[]] d1] eqn:E; [done |]. apply Hf in E as <-. apply IH.
Qed.

(** A loop that stopped made the rounds before. *)
Lemma each_partial {A} (f : A → conn T → Fallible unit * conn T) (g : A → T → T) xs d r d' :
  (∀ x d e d', f x d = (inl e, d') → tables d' = tables d) →
  (∀ x d d', f x d = (inr tt, d') → tables d' = g x (tables d)) → each f xs d = (r, d') →
  ∃ done rest, xs = done ++ rest ∧ tables d' = foldl (λ t x, g x t) (tables d) done ∧ (r = inr tt → rest = []).
Proof.
  intros Hf Hg. revert d. induction xs as [|x xs IH]; intros d; simpl; [intros [= <- <-]; by exists [], [] |].
  destruct (f x d) as [[e|[]] d1] eqn:E.
  - intros [= <- <-]. exists [], (x :: xs). by rewrite (Hf _ _ _ _ E).
  - intros (dn & rest & -> & Ht & Hr)%IH. exists (x :: dn), rest. simpl. by rewrite <- (Hg _ _ _ E).
Qed.

(** A call of a statement that cannot fail. *)
Lemma call_done (g : T → T) d d' : call (λ t, inr (tt, g t)) d = (inr tt, d') → tables d' = g (tables d).
Proof. by intros [(e & [=] & _)|(x & _ & [= _ ->])]%call_cases. Qed.

(** A method of one call has its effect, or an error and none. *)
Lemma report_cases {A} (s : statement T A) d e d' :
  report (call s d) = (e, d') →
  match e with
  | None => ∃ x, s (tables d) = inr (x, tables d')
  | Some _ => tables d' = tables d
  end.
Proof.
  destruct (call s d) as [[err|x] d1] eqn:E; intros [= <- <-];
    apply call_cases in E as [(e' & [= <-] & Ht)|(y & [= <-] & Ht)]; eauto.
Qed.

Lemma report_rows_cases (s : statement T nat) d e d' :
  report_rows (call s d) = (e, d') →
  (∃ err, e = Some err ∧ tables d' = tables d) ∨
  (∃ n, s (tables d) = inr (n, tables d') ∧ e = if n =? 0 then Some ErrNotFound else None).
Proof.
  destruct (call s d) as [[err|x] d1] eqn:E; intros [= <- <-];
    apply call_cases in E as [(e' & [= <-] & Ht)|(y & [= <-] & Ht)]; [left | right]; eauto.
Qed.

(** A transaction of one loop did all of it or none. *)
Lemma transaction_each_cases {A} (f : A → conn T → Fallible unit * conn T) (g : A → T → T) xs d e d' :
  (∀ x d d', f x d = (inr tt, d') → tables d' = g x (tables d)) → report (transaction (each f xs) d) = (e, d') →
  tables d' = match e with None => foldl (λ t x, g x t) (tables d) xs | Some _ => tables d end.
Proof.
  intros Hf. destruct (transaction _ d) as [[err|x] d1] eqn:E; intros [= <- <-];
    apply transaction_cases in E as [(e' & [= <-] & Ht)|(y & d2 & d3 & [= <-] & H1 & H2 & H3)]; try done.
  destruct x. apply (each_done f g) in H2; [|done]. by rewrite H3, H2, H1.
Qed.

End Driver.

(** ** Chunks

    A statement binds a bounded number of parameters, so long lists go in chunks. *)

Definition pathChunk : nat := 400.

(** The chunks [eachPathChunk] takes of a list. *)
Fixpoint path_chunks {A} (fuel : nat) (paths : list A) : list (list A) :=
  match fuel, paths with
  | O, _ | _, [] => []
  | Datatypes.S fuel, _ => take pathChunk paths :: path_chunks fuel (drop pathChunk paths)
  end.

(** [eachPathChunk] *)
Definition eachPathChunk {A T} (paths : list A) (fn : list A → conn T → Fallible unit * conn T) : conn T → Fallible unit * conn T :=
  each fn (path_chunks (length paths) paths).

Lemma concat_path_chunks {A} fuel (paths : list A) : length paths ≤ fuel → concat (path_chunks fuel paths) = paths.
Proof.
  revert paths. induction fuel as [|fuel IH]; intros paths Hl; [by destruct paths; simpl in *; [|lia] |].
  destruct paths as [|p paths]; [done |]. simpl path_chunks. simpl concat. rewrite IH; [apply (take_drop pathChunk (p :: paths)) |].
  rewrite length_drop. unfold pathChunk. simpl length in *. lia.
Qed.
