(* ===== verification/SqlEdges.v ===== *)
(** * The graph in the SQLite store ([internal/store/sqlite/edges.go, ast_units.go])

    The tables are lists of rows in the order they were written; a statement is
    an operation on them.  The schema's foreign keys are enforced: an edge has a
    source unit and goes with it, a unit's parent is a unit, or null once it is
    gone.  [fault n] is the error of the [n]-th call on the database, if it
    fails, and [cancelled n] whether the context is cancelled by then. *)

From S2P Require Import Prelude GoStrings GoStrconv GoSort GoFloat Domain Store StoreQuery LinkStore SqlDriver.

(** A row of the table [edges]; [confidence] is a column of doubles, which holds
    every float32. *)
Record EdgeRow := {
  row_id : Z;
  row_repo_id : string;
  row_src_id : Z;
  row_dst_id : Z;
  row_kind : string;
  row_dst_name : string;
  row_file_path : string;
  row_line : Z;
  row_dst_repo_id : string;
  row_confidence : f32;
  row_meta : string
}.

(** A row of the table [ast_units]. *)
Record UnitRow := {
  unit_id : Z;
  unit_repo_id : string;
  unit_file_path : string;
  unit_language : string;
  unit_kind : string;
  unit_name : string;
  unit_qualified : string;
  unit_parent_id : option Z;
  unit_start_line : Z;
  unit_end_line : Z;
  unit_start_byte : Z;
  unit_end_byte : Z;
  unit_signature : string;
  unit_doc : string;
  unit_hash : string;
  unit_meta : string
}.

(** The tables, and what AUTOINCREMENT gives out next in each. *)
Record db := {
  db_units : list UnitRow;
  db_edges : list EdgeRow;
  db_next : Z;
  db_next_unit : Z
}.

(** ** Rows and units *)

(** [scanASTUnit], and [unitFromRow] *)
Definition scanASTUnit (r : UnitRow) : ASTUnit := {|
  u_ID := Itoa (unit_id r); u_RepoID := unit_repo_id r; u_FilePath := unit_file_path r;
  u_Language := unit_language r; u_Kind := unit_kind r; u_Name := unit_name r;
  u_Qualified := unit_qualified r;
  u_ParentID := match unit_parent_id r with Some p => Itoa p | None => "" end;
  u_StartLine := unit_start_line r; u_EndLine := unit_end_line r; u_StartByte := unit_start_byte r;
  u_EndByte := unit_end_byte r; u_Signature := unit_signature r; u_Doc := unit_doc r;
  u_Hash := unit_hash r; u_Meta := unit_meta r |}.

(** [nullInt] *)
Definition nullInt (s : string) : option Z := if String.eqb s "" then None else ParseInt64 s.

(** [unitInsertParams], under the id the row gets *)
Definition unitInsertParams (id : Z) (u : ASTUnit) : UnitRow := {|
  unit_id := id; unit_repo_id := u_RepoID u; unit_file_path := u_FilePath u; unit_language := u_Language u;
  unit_kind := u_Kind u; unit_name := u_Name u; unit_qualified := u_Qualified u;
  unit_parent_id := nullInt (u_ParentID u); unit_start_line := u_StartLine u; unit_end_line := u_EndLine u;
  unit_start_byte := u_StartByte u; unit_end_byte := u_EndByte u; unit_signature := u_Signature u;
  unit_doc := u_Doc u; unit_hash := u_Hash u; unit_meta := u_Meta u |}.

(** ** Rows and edges *)

Definition is_nan (x : f32) : bool := match x with S754_nan => true | _ => false end.

(** [scanEdge] *)
Definition scanEdge (r : EdgeRow) : Edge := {|
  e_ID := Itoa (row_id r); e_RepoID := row_repo_id r; e_SrcID := Itoa (row_src_id r);
  e_DstID := if (row_dst_id r =? 0)%Z then "" else Itoa (row_dst_id r);
  e_Kind := row_kind r; e_DstName := row_dst_name r; e_FilePath := row_file_path r;
  e_Line := row_line r; e_DstRepoID := row_dst_repo_id r; e_Confidence := row_confidence r;
  e_Meta := row_meta r |}.

(** [edgeInsertParams], under the id the row gets *)
Definition edgeInsertParams (id : Z) (e : Edge) : EdgeRow := {|
  row_id := id; row_repo_id := e_RepoID e; row_src_id := IntOrZero (e_SrcID e);
  row_dst_id := IntOrZero (e_DstID e); row_kind := e_Kind e; row_dst_name := e_DstName e;
  row_file_path := e_FilePath e; row_line := e_Line e; row_dst_repo_id := e_DstRepoID e;
  row_confidence := e_Confidence e; row_meta := e_Meta e |}.

Definition set_row_dst (dst : Z) (repo : string) (conf : f32) (r : EdgeRow) : EdgeRow := {|
  row_id := row_id r; row_repo_id := row_repo_id r; row_src_id := row_src_id r; row_dst_id := dst;
  row_kind := row_kind r; row_dst_name := row_dst_name r; row_file_path := row_file_path r;
  row_line := row_line r; row_dst_repo_id := repo; row_confidence := conf; row_meta := row_meta r |}.

Definition set_row_meta (meta : string) (r : EdgeRow) : EdgeRow := {|
  row_id := row_id r; row_repo_id := row_repo_id r; row_src_id := row_src_id r;
  row_dst_id := row_dst_id r; row_kind := row_kind r; row_dst_name := row_dst_name r;
  row_file_path := row_file_path r; row_line := row_line r; row_dst_repo_id := row_dst_repo_id r;
  row_confidence := row_confidence r; row_meta := meta |}.

Definition set_row_name (name : string) (r : EdgeRow) : EdgeRow := {|
  row_id := row_id r; row_repo_id := row_repo_id r; row_src_id := row_src_id r;
  row_dst_id := row_dst_id r; row_kind := row_kind r; row_dst_name := name;
  row_file_path := row_file_path r; row_line := row_line r; row_dst_repo_id := row_dst_repo_id r;
  row_confidence := row_confidence r; row_meta := row_meta r |}.

Definition set_edges (es : list EdgeRow) (d : db) : db :=
  {| db_units := db_units d; db_edges := es; db_next := db_next d; db_next_unit := db_next_unit d |}.

(** The columns of [EdgeOrder], one after another. *)
Definition edge_order_less : EdgeRow → EdgeRow → bool :=
  then_by row_file_path (then_by row_line (then_by row_kind (then_by row_dst_name
    (then_by row_meta (then_by row_repo_id (λ a b, (row_id a <? row_id b)%Z)))))).

(** The conditions of [EdgeFilters], on a row. *)
Definition row_matches (o : QueryOpts) (r : EdgeRow) : bool :=
  or_empty (q_RepoID o) (row_repo_id r) && or_empty (q_FilePath o) (row_file_path r) &&
  or_empty (q_Kind o) (row_kind r) && one_of (q_Kinds o) (row_kind r) &&
  or_empty (q_Name o) (row_dst_name r) &&
  (String.eqb (q_SrcID o) "" || (IntOrZero (q_SrcID o) =? row_src_id r)%Z) &&
  (String.eqb (q_DstID o) "" || (IntOrZero (q_DstID o) =? row_dst_id r)%Z) &&
  (negb (q_Unresolved o) || (row_dst_id r =? 0)%Z).

(** ** Statements *)

Abbreviation stmt := (statement db).

(** [UPDATE edges ... WHERE id = ?] answers the rows it changed. *)
Definition update_where_id (f : EdgeRow → EdgeRow) (id : Z) : stmt nat := λ d,
  let hit r := (row_id r =? id)%Z in
  inr (length (filter (λ r, hit r = true) (db_edges d)),
       set_edges (map (λ r, if hit r then f r else r) (db_edges d)) d).

(** A NaN is stored as null, which the column does not take. *)
Definition updateEdgeResolution (dst : Z) (repo : string) (conf : f32) (id : Z) : stmt nat := λ d,
  if is_nan conf && existsb (λ r, (row_id r =? id)%Z) (db_edges d) then inl (StoreFailure "NOT NULL constraint failed")
  else update_where_id (set_row_dst dst repo conf) id d.
Definition updateEdgeMeta (meta : string) (id : Z) : stmt nat := update_where_id (set_row_meta meta) id.
Definition updateEdgeDstName (name : string) (id : Z) : stmt nat := update_where_id (set_row_name name) id.

(** [UPDATE edges SET dst_id = ? WHERE dst_id = 0 AND ...] *)
Definition resolveEdges (dst : Z) (repo name kind : string) : stmt unit := λ d,
  inr (tt, set_edges (map (λ r,
    if (row_dst_id r =? 0)%Z && String.eqb (row_repo_id r) repo && String.eqb (row_dst_name r) name &&
       String.eqb (row_kind r) kind
    then set_row_dst dst (row_dst_repo_id r) (row_confidence r) r else r) (db_edges d)) d).

(** [DELETE FROM edges WHERE ...] *)
Definition delete_where (test : EdgeRow → bool) : stmt unit := λ d,
  inr (tt, set_edges (filter (λ r, test r = false) (db_edges d)) d).

Definition deleteEdgesByKind (repo kind : string) : stmt unit :=
  delete_where (λ r, String.eqb (row_repo_id r) repo && String.eqb (row_kind r) kind).
Definition deleteEdgesByKindGlobal (kind : string) : stmt unit :=
  delete_where (λ r, String.eqb (row_kind r) kind).
Definition deleteEdgesByKindAndDst (kind name : string) : stmt unit :=
  delete_where (λ r, String.eqb (row_kind r) kind && String.eqb (row_dst_name r) name).

Definition deleteEdgesByFile (repo path : string) : stmt unit :=
  delete_where (λ r, String.eqb (row_repo_id r) repo && String.eqb (row_file_path r) path).
Definition deleteEdgesByRepo (repo : string) : stmt unit := delete_where (λ r, String.eqb (row_repo_id r) repo).
Definition delete_edges_of_files (repo : string) (paths : list string) : stmt unit :=
  delete_where (λ r, String.eqb (row_repo_id r) repo && bool_decide (row_file_path r ∈ paths)).
Definition delete_edges_of_kind_and_files (repo kind : string) (paths : list string) : stmt unit :=
  delete_where (λ r, String.eqb (row_repo_id r) repo && String.eqb (row_kind r) kind &&
                     bool_decide (row_file_path r ∈ paths)).

(** [INSERT INTO edges ... RETURNING id]; the table is full after the last id, and
    the source must be a unit. *)
Definition has_unit (id : Z) (d : db) : bool := existsb (λ u, (unit_id u =? id)%Z) (db_units d).

Definition insertEdge (e : Edge) : stmt Z := λ d,
  if negb (in_int64 (db_next d)) then inl (StoreFailure "database or disk is full")
  else if is_nan (e_Confidence e) then inl (StoreFailure "NOT NULL constraint failed")
  else if negb (has_unit (IntOrZero (e_SrcID e)) d) then inl (StoreFailure "FOREIGN KEY constraint failed")
  else
    inr (db_next d,
         {| db_units := db_units d; db_edges := db_edges d ++ [edgeInsertParams (db_next d) e];
            db_next := db_next d + 1; db_next_unit := db_next_unit d |}).

(** ** Statements on units *)

(** [INSERT INTO ast_units ... RETURNING id]; the parent must be a unit. *)
Definition insertASTUnit (u : ASTUnit) : stmt Z := λ d,
  let id := db_next_unit d in
  if negb (in_int64 id) then inl (StoreFailure "database or disk is full")
  else if match nullInt (u_ParentID u) with Some p => negb (has_unit p d || (p =? id)%Z) | None => false end
  then inl (StoreFailure "FOREIGN KEY constraint failed")
  else
    inr (id, {| db_units := db_units d ++ [unitInsertParams id u]; db_edges := db_edges d;
                db_next := db_next d; db_next_unit := id + 1 |}).

(** [DELETE FROM ast_units WHERE ...]: children lose their parent, and the edges
    out of the units go with them. *)
Definition orphan (gone : list Z) (r : UnitRow) : UnitRow := {|
  unit_id := unit_id r; unit_repo_id := unit_repo_id r; unit_file_path := unit_file_path r;
  unit_language := unit_language r; unit_kind := unit_kind r; unit_name := unit_name r;
  unit_qualified := unit_qualified r;
  unit_parent_id := match unit_parent_id r with
                    | Some p => if bool_decide (p ∈ gone) then None else Some p
                    | None => None
                    end;
  unit_start_line := unit_start_line r; unit_end_line := unit_end_line r; unit_start_byte := unit_start_byte r;
  unit_end_byte := unit_end_byte r; unit_signature := unit_signature r; unit_doc := unit_doc r;
  unit_hash := unit_hash r; unit_meta := unit_meta r |}.

Definition ids_where (test : UnitRow → bool) (d : db) : list Z :=
  map unit_id (filter (λ u, test u = true) (db_units d)).

Definition remove_units (test : UnitRow → bool) (d : db) : db :=
  let gone := ids_where test d in
  {| db_units := map (orphan gone) (filter (λ u, test u = false) (db_units d));
     db_edges := filter (λ r, row_src_id r ∉ gone) (db_edges d);
     db_next := db_next d; db_next_unit := db_next_unit d |}.
Definition delete_units (test : UnitRow → bool) : stmt unit := λ d, inr (tt, remove_units test d).

Definition in_files (repo : string) (paths : list string) (u : UnitRow) : bool :=
  String.eqb (unit_repo_id u) repo && bool_decide (unit_file_path u ∈ paths).
Definition deleteASTUnitsByKind (repo kind : string) : stmt unit :=
  delete_units (λ u, String.eqb (unit_repo_id u) repo && String.eqb (unit_kind u) kind).
Definition deleteASTUnitsByRepo (repo : string) : stmt unit := delete_units (λ u, String.eqb (unit_repo_id u) repo).

(** [UPDATE edges SET dst_id = 0, dst_repo_id = '' WHERE dst_id <> 0 AND dst_id IN
    (SELECT id FROM ast_units WHERE ...)] *)
Definition unresolve (gone : list Z) (r : EdgeRow) : EdgeRow :=
  if negb (row_dst_id r =? 0)%Z && bool_decide (row_dst_id r ∈ gone)
  then set_row_dst 0 "" (row_confidence r) r else r.
Definition unresolve_all (test : UnitRow → bool) (d : db) : db :=
  set_edges (map (unresolve (ids_where test d)) (db_edges d)) d.
Definition unresolve_into (test : UnitRow → bool) : stmt unit := λ d, inr (tt, unresolve_all test d).

(** ** Chunks *)

Section Store.
  Context (fault : nat → option StoreError) (cancelled : nat → bool).
  Abbreviation call := (call fault).
  Abbreviation transaction := (transaction fault).

(** ** Edges *)

(** [GetEdges] *)
Definition GetEdges (o : QueryOpts) (d : conn db) : Fallible (list Edge) * conn db :=
  call (λ d, inr (first_n (q_Limit o)
    (map scanEdge (SliceSort edge_order_less (filter (λ r, row_matches o r = true) (db_edges d)))), d)) d.

(** The options of a query for some edges, and of those of one kind. *)
Definition edge_opts (repoID srcID dstID kind : string) (unresolved : bool) : QueryOpts := {|
  q_RepoID := repoID; q_Repos := []; q_FilePath := ""; q_Language := ""; q_Kind := kind;
  q_Kinds := []; q_Name := ""; q_Qualified := ""; q_QualifiedSuffix := "";
  q_NameOrQualified := ""; q_Fallback := false; q_SrcID := srcID; q_DstID := dstID;
  q_Unresolved := unresolved; q_Line := 0; q_Limit := 0 |}.

(** [GetEdgesBySource], [GetEdgesByDestination], [GetUnresolvedEdges] *)
Definition GetEdgesBySource (repoID srcID kind : string) := GetEdges (edge_opts repoID srcID "" kind false).
Definition GetEdgesByDestination (repoID dstID kind : string) := GetEdges (edge_opts repoID "" dstID kind false).
Definition GetUnresolvedEdges (repoID kind : string) := GetEdges (edge_opts repoID "" "" kind true).

(** A query of one row. *)
Definition first_row {R A} (scan : R → A) (rows : list R) : Fallible A :=
  match rows with r :: _ => inr (scan r) | [] => inl ErrNotFound end.
Definition select_one {R A} (scan : R → A) (rows : db → list R) : stmt A := λ d,
  match first_row scan (rows d) with inr x => inr (x, d) | inl e => inl e end.

(** [GetEdge] *)
Definition GetEdge (id : string) : conn db → Fallible Edge * conn db :=
  call (select_one scanEdge (λ d, filter (λ r, row_id r = IntOrZero id) (db_edges d))).

(** [StoreEdge]; the edge under its id *)
Definition StoreEdge (e : Edge) (d : conn db) : Fallible Edge * conn db :=
  match call (insertEdge e) d with
  | (inl err, d') => (inl err, d')
  | (inr id, d') => (inr (if String.eqb (e_ID e) "" then with_id (Itoa id) e else e), d')
  end.

(** [BatchStoreEdges] *)
Definition BatchStoreEdges (es : list Edge) (d : conn db) : Fallible (list Edge) * conn db :=
  match es with
  | [] => (inr [], d)
  | _ =>
      match transaction (prepared fault (insert_all fault insertEdge es)) d with
      | (inl err, d') => (inl err, d')
      | (inr ids, d') => (inr (zip_with (λ id e, with_id (Itoa id) e) ids es), d')
      end
  end.

(** [DeleteEdgesByFile], [DeleteEdgesByRepo] *)
Definition DeleteEdgesByFile (repo path : string) (d : conn db) := report (call (deleteEdgesByFile repo path) d).
Definition DeleteEdgesByRepo (repo : string) (d : conn db) := report (call (deleteEdgesByRepo repo) d).

(** [DeleteEdgesByFiles] *)
Definition DeleteEdgesByFiles (repo : string) (paths : list string) (d : conn db) : option StoreError * conn db :=
  match paths with
  | [] => (None, d)
  | _ => report (transaction (eachPathChunk paths (λ batch, call (delete_edges_of_files repo batch))) d)
  end.

(** [DeleteEdgesByKindAndFiles] *)
Definition DeleteEdgesByKindAndFiles (repo kind : string) (paths : list string) (d : conn db) :=
  report (eachPathChunk paths (λ batch, call (delete_edges_of_kind_and_files repo kind batch)) d).

(** [DeleteEdgesByKind] *)
Definition DeleteEdgesByKind (repo kind : string) (d : conn db) : option StoreError * conn db :=
  report (call (if String.eqb repo "" then deleteEdgesByKindGlobal kind else deleteEdgesByKind repo kind) d).

(** [DeleteEdgesByKindAndDst] *)
Definition DeleteEdgesByKindAndDst (kind name : string) (d : conn db) : option StoreError * conn db :=
  report (call (deleteEdgesByKindAndDst kind name) d).

(** [UpdateEdgeResolution] *)
Definition UpdateEdgeResolution (r : EdgeResolution) (d : conn db) : option StoreError * conn db :=
  report_rows (call (updateEdgeResolution (IntOrZero (er_DstID r)) (er_DstRepoID r) (er_Confidence r)
                       (IntOrZero (er_EdgeID r))) d).

(** [UpdateEdgeMeta], [UpdateEdgeDstName], [ResolveEdges] *)
Definition UpdateEdgeMeta (id meta : string) (d : conn db) : option StoreError * conn db :=
  report_rows (call (updateEdgeMeta meta (IntOrZero id)) d).
Definition UpdateEdgeDstName (id name : string) (d : conn db) : option StoreError * conn db :=
  report_rows (call (updateEdgeDstName name (IntOrZero id)) d).
Definition ResolveEdges (repo name kind dst : string) (d : conn db) : option StoreError * conn db :=
  report (call (resolveEdges (IntOrZero dst) repo name kind) d).

(** The statements of [resolutionTx]: a row that matches nothing is a failure,
    and the transaction goes on. *)
Fixpoint resolution_stmts (index : nat) (chunk : list EdgeResolution) (d : conn db)
    : Fallible (list EdgeResolutionFailure) * conn db :=
  match chunk with
  | [] => (inr [], d)
  | r :: chunk =>
      match call (updateEdgeResolution (IntOrZero (er_DstID r)) (er_DstRepoID r) (er_Confidence r)
                    (IntOrZero (er_EdgeID r))) d with
      | (inl e, d) => (inl e, d)
      | (inr n, d) =>
          match resolution_stmts (Datatypes.S index) chunk d with
          | (inl e, d) => (inl e, d)
          | (inr fs, d) =>
              (inr (if n =? 0 then {| rf_Index := index; rf_EdgeID := er_EdgeID r; rf_Err := ErrNotFound |} :: fs
                    else fs), d)
          end
      end
  end.

(** [resolutionTx] *)
Definition resolutionTx (offset : nat) (chunk : list EdgeResolution) : conn db → Fallible (list EdgeResolutionFailure) * conn db :=
  transaction (prepared fault (resolution_stmts offset chunk)).

(** [resolutionRows] *)
Fixpoint resolutionRows (index : nat) (chunk : list EdgeResolution) (d : conn db) : list EdgeResolutionFailure * conn db :=
  match chunk with
  | [] => ([], d)
  | r :: chunk =>
      let '(e, d) := UpdateEdgeResolution r d in
      let '(fs, d) := resolutionRows (Datatypes.S index) chunk d in
      (match e with
       | Some err => {| rf_Index := index; rf_EdgeID := er_EdgeID r; rf_Err := err |} :: fs
       | None => fs
       end, d)
  end.

Definition resolutionTxRows : nat := 1000.

(** [BatchUpdateEdgeResolutions]: chunk by chunk, each retried row by row when
    its transaction fails, unless the context is cancelled. *)
Fixpoint batch_chunks (fuel start : nat) (res : list EdgeResolution) (d : conn db)
    : (list EdgeResolutionFailure * option StoreError) * conn db :=
  match fuel, res with
  | O, _ | _, [] => (([], None), d)
  | Datatypes.S fuel, _ =>
      let chunk := take resolutionTxRows res in
      match resolutionTx start chunk d with
      | (inl e, d') =>
          if cancelled (calls d') then (([], Some e), d')
          else
            let '(got, d') := resolutionRows start chunk d' in
            let '((fs, err), d') := batch_chunks fuel (start + resolutionTxRows) (drop resolutionTxRows res) d' in
            ((got ++ fs, err), d')
      | (inr got, d') =>
          let '((fs, err), d') := batch_chunks fuel (start + resolutionTxRows) (drop resolutionTxRows res) d' in
          ((got ++ fs, err), d')
      end
  end.
Definition BatchUpdateEdgeResolutions (res : list EdgeResolution)
    : conn db → (list EdgeResolutionFailure * option StoreError) * conn db :=
  batch_chunks (length res) 0 res.

(** ** Units *)

(** [StoreASTUnit]; the unit under its id *)
Definition with_unit_id (id : string) (u : ASTUnit) : ASTUnit := {|
  u_ID := id; u_RepoID := u_RepoID u; u_FilePath := u_FilePath u; u_Language := u_Language u; u_Kind := u_Kind u;
  u_Name := u_Name u; u_Qualified := u_Qualified u; u_ParentID := u_ParentID u; u_StartLine := u_StartLine u;
  u_EndLine := u_EndLine u; u_StartByte := u_StartByte u; u_EndByte := u_EndByte u; u_Signature := u_Signature u;
  u_Doc := u_Doc u; u_Hash := u_Hash u; u_Meta := u_Meta u |}.
Definition StoreASTUnit (u : ASTUnit) (d : conn db) : Fallible ASTUnit * conn db :=
  match call (insertASTUnit u) d with
  | (inl err, d') => (inl err, d')
  | (inr id, d') => (inr (if String.eqb (u_ID u) "" then with_unit_id (Itoa id) u else u), d')
  end.

(** [BatchStoreASTUnits] *)
Definition BatchStoreASTUnits (us : list ASTUnit) (d : conn db) : Fallible (list ASTUnit) * conn db :=
  match us with
  | [] => (inr [], d)
  | _ =>
      match transaction (prepared fault (insert_all fault insertASTUnit us)) d with
      | (inl err, d') => (inl err, d')
      | (inr ids, d') => (inr (zip_with (λ id u, with_unit_id (Itoa id) u) ids us), d')
      end
  end.

(** [DeleteASTUnitsByFile] *)
Definition unlink_units (test : UnitRow → bool) (d : conn db) : Fallible unit * conn db :=
  match call (unresolve_into test) d with
  | (inl e, d') => (inl e, d')
  | (inr _, d') => call (delete_units test) d'
  end.
Definition DeleteASTUnitsByFile (repo path : string) (d : conn db) : option StoreError * conn db :=
  report (transaction (unlink_units (in_files repo [path])) d).

(** [DeleteASTUnitsByFiles] *)
Definition DeleteASTUnitsByFiles (repo : string) (paths : list string) (d : conn db) : option StoreError * conn db :=
  match paths with
  | [] => (None, d)
  | _ => report (transaction (eachPathChunk paths (λ batch, unlink_units (in_files repo batch))) d)
  end.

(** [DeleteASTUnitsByKind], [DeleteASTUnitsByRepo] *)
Definition DeleteASTUnitsByKind (repo kind : string) (d : conn db) := report (call (deleteASTUnitsByKind repo kind) d).
Definition DeleteASTUnitsByRepo (repo : string) (d : conn db) := report (call (deleteASTUnitsByRepo repo) d).

(** [GetASTUnitByName], [GetASTUnitByQualifiedName], [GetASTUnitByID] *)
Definition GetASTUnitByName (repo name language : string) : conn db → Fallible ASTUnit * conn db :=
  call (select_one scanASTUnit (λ d,
    filter (λ u, String.eqb (unit_name u) name && String.eqb (unit_repo_id u) repo &&
                 or_empty language (unit_language u) = true) (db_units d))).
Definition GetASTUnitByQualifiedName (repo qualified : string) : conn db → Fallible ASTUnit * conn db :=
  call (select_one scanASTUnit (λ d,
    filter (λ u, unit_qualified u = qualified ∧ unit_repo_id u = repo) (db_units d))).
Definition GetASTUnitByID (id : string) : conn db → Fallible ASTUnit * conn db :=
  call (select_one scanASTUnit (λ d, filter (λ u, unit_id u = IntOrZero id) (db_units d))).

(** [CountASTUnits], [CountASTUnitsByRepo] *)
Definition CountASTUnits : conn db → Fallible nat * conn db := call (λ d, inr (length (db_units d), d)).
Definition CountASTUnitsByRepo (repo : string) : conn db → Fallible nat * conn db :=
  call (λ d, inr (length (filter (λ u, unit_repo_id u = repo) (db_units d)), d)).

(** [GetASTUnitsByIDs]; the rows of a chunk come in the order of their ids *)
Fixpoint units_of_chunks (chunks : list (list string)) (d : conn db) : Fallible (list ASTUnit) * conn db :=
  match chunks with
  | [] => (inr [], d)
  | batch :: chunks =>
      match call (λ d, inr (map scanASTUnit (filter (λ u, unit_id u ∈ map IntOrZero batch) (db_units d)), d)) d with
      | (inl e, d1) => (inl e, d1)
      | (inr us, d1) =>
          match units_of_chunks chunks d1 with
          | (inl e, d2) => (inl e, d2)
          | (inr us', d2) => (inr (us ++ us'), d2)
          end
      end
  end.
Definition GetASTUnitsByIDs (ids : list string) : conn db → Fallible (list ASTUnit) * conn db :=
  units_of_chunks (path_chunks (length ids) ids).

(** The SQLite store as the linker sees it; the lookup of units is that of
    [StoreQuery], here by the conditions it composes. *)
#[export] Instance SQLite : LinkStore (conn db) := {|
  read_units o := call (λ d, inr (first_n (q_Limit o) (filter (λ u, unit_matches o u = true) (map scanASTUnit (db_units d))), d));
  read_edges := GetEdges;
  update_resolution := UpdateEdgeResolution;
  batch_resolutions := Some BatchUpdateEdgeResolutions;
  update_meta := UpdateEdgeMeta;
  delete_by_kind := DeleteEdgesByKind;
  delete_by_kind_dst := DeleteEdgesByKindAndDst;
  store_edge e d := report (StoreEdge e d);
  store_edges es d := report (BatchStoreEdges es d)
|}.

End Store.
