(* ===== verification/SqlEdgesFacts.v ===== *)
(** * The SQLite store keeps the promises of the interface

    Whatever calls fail, at whatever point: rows keep their ids, a write reports
    an error exactly when it changed nothing, and a batch of resolutions names
    the rows it lost, whether its transaction went through or was retried row by
    row. *)

From S2P Require Import Prelude GoStrings GoStrconv GoSort GoFloat Domain Store StoreQuery LinkStore SqlDriver SqlEdges.

(** ** Ids *)

Lemma IntOrZero_Itoa z : in_int64 z = true → IntOrZero (Itoa z) = z.
Proof.
  intros Hz. unfold IntOrZero. destruct (String.eqb_spec (Itoa z) "") as [E|_].
  - pose proof (ParseInt64_Itoa z Hz) as H. by rewrite E in H.
  - by rewrite ParseInt64_Itoa.
Qed.

Lemma IntOrZero_range s : in_int64 (IntOrZero s) = true.
Proof.
  unfold IntOrZero. destruct (String.eqb s ""); [done |].
  unfold ParseInt64. repeat (case_match; simpl; try done).
Qed.

Lemma Itoa_inj_int64 a b : in_int64 a = true → in_int64 b = true → Itoa a = Itoa b → a = b.
Proof. intros Ha Hb E. by rewrite <- (IntOrZero_Itoa a), <- (IntOrZero_Itoa b), E. Qed.

Lemma Itoa_nonempty z : in_int64 z = true → Itoa z ≠ "".
Proof. intros Hz E. pose proof (ParseInt64_Itoa z Hz) as H. by rewrite E in H. Qed.

(** ** Well-formed tables *)

Record row_ok (next : Z) (r : EdgeRow) : Prop := {
  id_bounds : (0 < row_id r < next)%Z;
  id_int64 : in_int64 (row_id r) = true;
  src_int64 : in_int64 (row_src_id r) = true;
  dst_int64 : in_int64 (row_dst_id r) = true
}.

Definition unit_row_ok (next : Z) (u : UnitRow) : Prop :=
  (0 < unit_id u < next)%Z ∧ in_int64 (unit_id u) = true.

(** Ids are distinct and of the range the counters gave out, and the foreign keys
    hold. *)
Record db_ok (t : db) : Prop := {
  rows_distinct : NoDup (map row_id (db_edges t));
  rows_ok : Forall (row_ok (db_next t)) (db_edges t);
  next_positive : (0 < db_next t)%Z;
  unit_rows_distinct : NoDup (map unit_id (db_units t));
  unit_rows_ok : Forall (unit_row_ok (db_next_unit t)) (db_units t);
  next_unit_positive : (0 < db_next_unit t)%Z;
  rows_sourced : Forall (λ r, has_unit (row_src_id r) t = true) (db_edges t);
  parents_ok : Forall (λ u, ∀ p, unit_parent_id u = Some p → has_unit p t = true) (db_units t)
}.

Definition edges_of (t : db) : list Edge := map scanEdge (db_edges t).
Definition units_of (t : db) : list ASTUnit := map scanASTUnit (db_units t).

Abbreviation kept := (stays db_ok edges_of units_of).

Lemma kept_refl t : db_ok t → kept t t (edges_of t).
Proof. by split. Qed.

(** One change after another. *)
Lemma kept_after t t' t'' es es' : kept t t' es → kept t' t'' es' → kept t t'' es'.
Proof. intros [H1 H2 H3] [H4 H5 H6]. split; [done | congruence | done]. Qed.

Lemma has_unit_spec id t : has_unit id t = true ↔ id ∈ map unit_id (db_units t).
Proof.
  unfold has_unit. rewrite existsb_exists, list_elem_of_fmap. split.
  - intros (u & Hin & E%Z.eqb_eq). exists u. by rewrite list_elem_of_In.
  - intros (u & -> & Hin%list_elem_of_In). exists u. by rewrite Z.eqb_refl.
Qed.

Lemma scanEdge_storable next r : row_ok next r → is_id (e_ID (scanEdge r)) ∧ storable (scanEdge r).
Proof.
  intros [Hid Hi Hs Hd]. unfold storable, is_id. simpl. split_and!.
  - right. rewrite IntOrZero_Itoa by done. split; [lia | done].
  - destruct (Z.eqb_spec (row_dst_id r) 0); [by left |]. right. by rewrite IntOrZero_Itoa.
  - by rewrite IntOrZero_Itoa.
Qed.

(** An id in a row is the one in the text of a query. *)
Lemma row_hit next r id :
  row_ok next r → is_id id → (row_id r =? IntOrZero id)%Z = String.eqb (e_ID (scanEdge r)) id.
Proof.
  intros [Hb Hi _ _] Hid. simpl.
  destruct (Z.eqb_spec (row_id r) (IntOrZero id)) as [E1|E1], (String.eqb_spec (Itoa (row_id r)) id) as [E2|E2]; try done.
  - destruct Hid as [->|[_ He]]; [|congruence]. change (IntOrZero "") with 0%Z in E1. lia.
  - rewrite <- E2, IntOrZero_Itoa in E1 by done. done.
Qed.

(** ** Statements *)

(** Rows changed in place, one by one, ids and sources left alone. *)
Lemma update_rows_ok t f g :
  db_ok t →
  (∀ r, row_ok (db_next t) r →
     row_ok (db_next t) (f r) ∧ row_id (f r) = row_id r ∧ row_src_id (f r) = row_src_id r ∧ scanEdge (f r) = g (scanEdge r)) →
  kept t (set_edges (map f (db_edges t)) t) (map g (edges_of t)).
Proof.
  intros [Hnd Hr Hn Hud Hu Hun Hs Hp] Hf. split; [|done |].
  - split; simpl; try done.
    + replace (map row_id (map f (db_edges t))) with (map row_id (db_edges t)); [done |].
      rewrite map_map. apply map_ext_Forall. eapply Forall_impl; [exact Hr |]. intros r ?. symmetry. by apply Hf.
    + apply Forall_map. eapply Forall_impl; [exact Hr |]. intros r ?. by apply Hf.
    + apply Forall_map. rewrite Forall_forall in Hr, Hs |- *. intros r Hin.
      destruct (Hf r) as (_ & _ & -> & _); [by apply Hr | by apply Hs].
  - unfold edges_of. simpl. rewrite !map_map. apply map_ext_Forall. eapply Forall_impl; [exact Hr |].
    intros r ?. by apply Hf.
Qed.

Lemma delete_rows_ok t (p : EdgeRow → bool) (q : Edge → Prop) `{!∀ e, Decision (q e)} :
  db_ok t → (∀ r, r ∈ db_edges t → p r = false ↔ q (scanEdge r)) →
  kept t (set_edges (filter (λ r, p r = false) (db_edges t)) t) (filter q (edges_of t)).
Proof.
  intros [Hnd Hr Hn Hud Hu Hun Hs Hp] Hq. split; [split; simpl; try done | done |].
  - by apply NoDup_map_filter.
  - by apply Forall_filter.
  - by apply Forall_filter.
  - by apply map_filter_ext.
Qed.

Lemma insertEdge_ok t e id t' :
  db_ok t → storable e → insertEdge e t = inr (id, t') → kept t t' (edges_of t ++ [with_id (Itoa id) e]).
Proof.
  intros [Hnd Hr Hn Hud Hu Hun Hs Hp] [Hdst Hsrc]. unfold insertEdge.
  destruct (in_int64 (db_next t)) eqn:Ei; [|done]. destruct (is_nan _); [done |].
  destruct (has_unit _ t) eqn:Eu; [|done]. intros [= <- <-]. split; [split; simpl; try done; [| | lia |] | done |].
  - rewrite map_app. apply NoDup_app. split_and!; [done | | apply NoDup_singleton].
    intros z (r & -> & Hin)%list_elem_of_fmap E%list_elem_of_singleton.
    rewrite Forall_forall in Hr. pose proof (id_bounds _ _ (Hr r Hin)) as Hb. simpl in E. lia.
  - apply Forall_app. split.
    + eapply Forall_impl; [exact Hr |]. intros r []. split; simpl; try done. lia.
    + apply Forall_singleton. split; simpl; [lia | done | apply IntOrZero_range | apply IntOrZero_range].
  - apply Forall_app. split; [done | by apply Forall_singleton].
  - unfold edges_of. simpl. rewrite map_app. f_equal. simpl. f_equal. unfold scanEdge, edgeInsertParams, with_id. simpl.
    rewrite Hsrc. f_equal. destruct Hdst as [->|[Hz Hc]]; [done |]. by rewrite (proj2 (Z.eqb_neq _ _) Hz).
Qed.

Definition on_id (id : string) (g : Edge → Edge) (e : Edge) : Edge := if String.eqb (e_ID e) id then g e else e.

(** [UPDATE ... WHERE id = ?] edits the edge of that id, if there is one. *)
Lemma update_where_ok f g id t n t' :
  db_ok t → is_id id →
  (∀ r, row_ok (db_next t) r →
     row_ok (db_next t) (f r) ∧ row_id (f r) = row_id r ∧ row_src_id (f r) = row_src_id r ∧ scanEdge (f r) = g (scanEdge r)) →
  update_where_id f (IntOrZero id) t = inr (n, t') →
  kept t t' (map (on_id id g) (edges_of t)) ∧ (n = 0 → map (on_id id g) (edges_of t) = edges_of t).
Proof.
  intros Ht Hid Hf [= <- <-]. split.
  - apply update_rows_ok; [done |]. intros r Hr. unfold on_id. rewrite <- (row_hit _ r id Hr Hid).
    destruct (_ =? _)%Z; [by apply Hf | done].
  - intros Hn%length_zero_iff_nil. pose proof (rows_ok t Ht) as Hrows. unfold edges_of.
    rewrite map_map. apply map_ext_Forall. rewrite Forall_forall in Hrows |- *. intros r Hin.
    unfold on_id. rewrite <- (row_hit _ r id (Hrows r Hin) Hid). destruct (_ =? _)%Z eqn:E; [|done].
    assert (r ∈ filter (λ r, (row_id r =? IntOrZero id)%Z = true) (db_edges t)) as Hf' by (by apply list_elem_of_filter).
    rewrite Hn in Hf'. by apply not_elem_of_nil in Hf'.
Qed.

Lemma updateEdgeResolution_ok t r n t' :
  db_ok t → valid_resolution r →
  updateEdgeResolution (IntOrZero (er_DstID r)) (er_DstRepoID r) (er_Confidence r) (IntOrZero (er_EdgeID r)) t = inr (n, t') →
  kept t t' (map (resolve r) (edges_of t)) ∧ (n = 0 → map (resolve r) (edges_of t) = edges_of t).
Proof.
  intros Ht [Hid Hdst]. unfold updateEdgeResolution. case_match; [done |].
  apply (update_where_ok _ (with_dst (er_DstID r) (er_DstRepoID r) (er_Confidence r))); [done | done |].
  intros x [Hb Hi Hs Hd]. split_and!; [split; simpl; try done; apply IntOrZero_range | done | done |].
  unfold scanEdge, set_row_dst, with_dst. simpl. f_equal.
  destruct Hdst as [->|[Hz Hc]]; [done |]. by rewrite (proj2 (Z.eqb_neq _ _) Hz).
Qed.

(** ** The methods *)

Section Store.
  Context (fault : nat → option StoreError) (cancelled : nat → bool).

Abbreviation keeps d d' es := (kept (tables d) (tables d') es).

(** An update of one edge. *)
Lemma report_update_ok (s : statement db nat) d e d' es :
  db_ok (tables d) →
  (∀ n t, s (tables d) = inr (n, t) → kept (tables d) t es ∧ (n = 0 → es = edges_of (tables d))) →
  report_rows (call fault s d) = (e, d') →
  keeps d d' (match e with None => es | Some _ => edges_of (tables d) end).
Proof.
  intros Hd Hs [(err & -> & Ht)|(n & H & ->)]%report_rows_cases; [rewrite Ht; by apply kept_refl |].
  apply Hs in H as [K Hn]. destruct (Nat.eqb_spec n 0) as [E|_]; [|done]. by rewrite <- Hn.
Qed.

Lemma UpdateEdgeResolution_ok d r e d' :
  db_ok (tables d) → valid_resolution r → UpdateEdgeResolution fault r d = (e, d') →
  keeps d d' (match e with None => map (resolve r) (edges_of (tables d)) | Some _ => edges_of (tables d) end).
Proof. intros Hd Hr. apply report_update_ok; [done |]. intros n t. by apply updateEdgeResolution_ok. Qed.

Lemma UpdateEdgeMeta_ok d id meta e d' :
  db_ok (tables d) → is_id id → UpdateEdgeMeta fault id meta d = (e, d') →
  keeps d d' (match e with
              | None => map (on_id id (with_meta meta)) (edges_of (tables d))
              | Some _ => edges_of (tables d)
              end).
Proof.
  intros Hd Hid. apply report_update_ok; [done |]. intros n t. apply update_where_ok; [done | done |].
  intros r Hr. split_and!; [destruct Hr; by split | done..].
Qed.

Lemma UpdateEdgeDstName_ok d id name e d' :
  db_ok (tables d) → is_id id → UpdateEdgeDstName fault id name d = (e, d') →
  keeps d d' (match e with
              | None => map (on_id id (with_name name)) (edges_of (tables d))
              | Some _ => edges_of (tables d)
              end).
Proof.
  intros Hd Hid. apply report_update_ok; [done |]. intros n t. apply update_where_ok; [done | done |].
  intros r Hr. split_and!; [destruct Hr; by split | done..].
Qed.

(** A deletion whose condition says the same of a row as of its edge. *)
Lemma delete_call_ok (p : EdgeRow → bool) (q : Edge → Prop) `{!∀ e, Decision (q e)} d e d' :
  db_ok (tables d) → (∀ r, p r = false ↔ q (scanEdge r)) → report (call fault (delete_where p) d) = (e, d') →
  keeps d d' (match e with None => filter q (edges_of (tables d)) | Some _ => edges_of (tables d) end).
Proof.
  intros Hd Hq Hc%report_cases. destruct e as [err|]; [rewrite Hc; by apply kept_refl |].
  destruct Hc as [x [= _ <-]]. apply delete_rows_ok; auto.
Qed.

(** ** Batches *)

Lemma resolution_stmts_ok i chunk d fs d' :
  db_ok (tables d) → Forall valid_resolution chunk → resolution_stmts fault i chunk d = (inr fs, d') →
  ∃ wr, batch_outcome i chunk fs wr ∧ keeps d d' (resolve_all wr (edges_of (tables d))).
Proof.
  intros Hd Hc. revert i d fs d' Hd. induction Hc as [|r chunk Hr Hc IH]; intros i d fs d' Hd; simpl.
  { intros [= <- <-]. exists []. split; [constructor | by apply kept_refl]. }
  destruct (call fault _ d) as [res d1] eqn:E.
  apply call_cases in E as [(err & -> & _)|(n & -> & Hs)]; [done |].
  apply updateEdgeResolution_ok in Hs as [K1 Hn]; [|done | done].
  destruct (resolution_stmts fault (Datatypes.S i) chunk d1) as [[e|fs1] d2] eqn:E2; [done |].
  apply IH in E2 as (wr & Hout & K2); [|apply K1]. rewrite (stays_edges _ _ _ _ _ _ K1) in K2.
  pose proof (kept_after _ _ _ _ _ K1 K2) as K3. intros [= <- <-].
  destruct (Nat.eqb_spec n 0) as [H0|_].
  - exists wr. split; [by constructor |]. by rewrite Hn in K3.
  - exists (r :: wr). by split; [constructor |].
Qed.

Lemma resolutionTx_cases i chunk d r d' :
  db_ok (tables d) → Forall valid_resolution chunk → resolutionTx fault i chunk d = (r, d') →
  match r with
  | inl _ => keeps d d' (edges_of (tables d))
  | inr fs => ∃ wr, batch_outcome i chunk fs wr ∧ keeps d d' (resolve_all wr (edges_of (tables d)))
  end.
Proof.
  intros Hd Hc [(e & -> & Ht)|(fs & d1 & d2 & -> & H1 & Hb & H2)]%transaction_cases;
    [rewrite Ht; by apply kept_refl |].
  apply prepared_cases in Hb as (d3 & H3 & Hb). rewrite H1 in H3.
  apply resolution_stmts_ok in Hb as (wr & Hout & K); [|by rewrite H3 | done].
  exists wr. split; [done |]. by rewrite H2, <- H3.
Qed.

Lemma resolutionRows_ok i chunk d fs d' :
  db_ok (tables d) → Forall valid_resolution chunk → resolutionRows fault i chunk d = (fs, d') →
  ∃ wr, batch_outcome i chunk fs wr ∧ keeps d d' (resolve_all wr (edges_of (tables d))).
Proof.
  intros Hd Hc. revert i d fs d' Hd. induction Hc as [|r chunk Hr Hc IH]; intros i d fs d' Hd; simpl.
  { intros [= <- <-]. exists []. split; [constructor | by apply kept_refl]. }
  destruct (UpdateEdgeResolution fault r d) as [e d1] eqn:E1. apply UpdateEdgeResolution_ok in E1 as K1; [|done | done].
  destruct (resolutionRows fault (Datatypes.S i) chunk d1) as [fs1 d2] eqn:E2.
  apply IH in E2 as (wr & Hout & K2); [|apply K1]. rewrite (stays_edges _ _ _ _ _ _ K1) in K2.
  pose proof (kept_after _ _ _ _ _ K1 K2) as K3. intros [= <- <-].
  destruct e as [err|].
  - exists wr. by split; [constructor |].
  - exists (r :: wr). by split; [constructor |].
Qed.

Lemma batch_outcome_app i rs1 rs2 fs1 fs2 wr1 wr2 :
  batch_outcome i rs1 fs1 wr1 → batch_outcome (i + length rs1) rs2 fs2 wr2 →
  batch_outcome i (rs1 ++ rs2) (fs1 ++ fs2) (wr1 ++ wr2).
Proof.
  induction 1 as [i|i r rs fs wr H IH|i r err rs fs wr H IH]; simpl.
  - by rewrite Nat.add_0_r.
  - rewrite <- Nat.add_succ_comm. intros. constructor. by apply IH.
  - rewrite <- Nat.add_succ_comm. intros. constructor. by apply IH.
Qed.

Lemma batch_chunks_ok fuel start res d fs e d' :
  db_ok (tables d) → Forall valid_resolution res → length res ≤ fuel →
  batch_chunks fault cancelled fuel start res d = ((fs, e), d') →
  ∃ part rest wr, res = part ++ rest ∧ (e = None → rest = []) ∧ batch_outcome start part fs wr ∧
    keeps d d' (resolve_all wr (edges_of (tables d))).
Proof.
  revert start res d fs e d'. induction fuel as [|fuel IH]; intros start res d fs e d' Hd Hres Hlen.
  { destruct res; [|simpl in Hlen; lia]. intros [= <- <- <-].
    exists [], [], []. split_and!; [done | done | constructor | by apply kept_refl]. }
  destruct res as [|r res].
  { intros [= <- <- <-]. exists [], [], []. split_and!; [done | done | constructor | by apply kept_refl]. }
  cbn [batch_chunks]. set (all := r :: res) in *.
  assert (0 < length (take resolutionTxRows all)) as Htake by (rewrite length_take; unfold resolutionTxRows, all; simpl length; lia).
  pose proof (take_drop resolutionTxRows all) as Eall.
  assert (length all = length (take resolutionTxRows all) + length (drop resolutionTxRows all)) as Elen
    by (by rewrite <- length_app, Eall).
  rewrite <- Eall in Hres. apply Forall_app in Hres as [Hhead Htail].
  (** the rest of the chunks, after a chunk that is settled *)
  assert (∀ got d1 wr1, batch_outcome start (take resolutionTxRows all) got wr1 →
    keeps d d1 (resolve_all wr1 (edges_of (tables d))) →
    (let '((fs, err), d') := batch_chunks fault cancelled fuel (start + resolutionTxRows) (drop resolutionTxRows all) d1 in
     ((got ++ fs, err), d')) = ((fs, e), d') →
    ∃ part rest wr, all = part ++ rest ∧ (e = None → rest = []) ∧ batch_outcome start part fs wr ∧
      keeps d d' (resolve_all wr (edges_of (tables d)))) as Hgo.
  { intros got d1 wr1 Hout K1.
    destruct (batch_chunks fault cancelled fuel _ _ d1) as [[fs2 e2] d2] eqn:E2. intros [= <- <- <-].
    apply IH in E2 as (part & rest & wr2 & Hp & He & Hout2 & K2); [|apply K1 | done | lia].
    exists (take resolutionTxRows all ++ part), rest, (wr1 ++ wr2). split_and!; [by rewrite <- app_assoc, <- Hp | done | |].
    - destruct (decide (drop resolutionTxRows all = [])) as [Hnil|Hne].
      + rewrite Hnil in Hp. symmetry in Hp. apply app_nil in Hp as [-> _]. inversion Hout2; subst.
        rewrite !app_nil_r. done.
      + apply batch_outcome_app; [done |]. rewrite length_take_le; [done |].
        destruct (decide (resolutionTxRows ≤ length all)); [done |]. exfalso. apply Hne. apply drop_ge. lia.
    - rewrite (stays_edges _ _ _ _ _ _ K1) in K2. unfold resolve_all. rewrite foldl_app. by eapply kept_after. }
  destruct (resolutionTx fault start (take resolutionTxRows all) d) as [[err|got] d1] eqn:E1;
    pose proof (resolutionTx_cases _ _ _ _ _ Hd Hhead E1) as K1; simpl in K1.
  - destruct (cancelled (calls d1)).
    { intros [= <- <- <-]. exists [], all, []. split_and!; [done | done | constructor | done]. }
    destruct (resolutionRows fault start (take resolutionTxRows all) d1) as [got d2] eqn:E2.
    apply resolutionRows_ok in E2 as (wr1 & Hout & K2); [|apply K1 | done].
    rewrite (stays_edges _ _ _ _ _ _ K1) in K2. apply (Hgo _ _ wr1); [done |]. by eapply kept_after.
  - destruct K1 as (wr1 & Hout & K1). by apply (Hgo _ _ wr1).
Qed.



Lemma insert_all_ok es d ids d' :
  db_ok (tables d) → Forall storable es → insert_all fault insertEdge es d = (inr ids, d') →
  length ids = length es ∧ keeps d d' (edges_of (tables d) ++ zip_with with_id (map Itoa ids) es).
Proof.
  intros Hd Hes. revert d ids d' Hd. induction Hes as [|e es He Hes IH]; intros d ids d' Hd; simpl.
  { intros [= <- <-]. split; [done |]. rewrite app_nil_r. by apply kept_refl. }
  destruct (call fault (insertEdge e) d) as [res d1] eqn:E.
  apply call_cases in E as [(err & -> & _)|(id & -> & Hs)]; [done |].
  apply insertEdge_ok in Hs as K1; [|done | done].
  destruct (insert_all fault insertEdge es d1) as [[err|ids1] d2] eqn:E2; intros [= <- <-].
  apply IH in E2 as [Hlen K2]; [|apply K1]. split; [simpl; lia |].
  rewrite (stays_edges _ _ _ _ _ _ K1), <- app_assoc in K2. simpl. by eapply kept_after.
Qed.

Lemma BatchStoreEdges_ok es d e d' :
  db_ok (tables d) → Forall storable es → report (BatchStoreEdges fault es d) = (e, d') →
  match e with
  | None => ∃ ids, length ids = length es ∧ keeps d d' (edges_of (tables d) ++ zip_with with_id ids es)
  | Some _ => keeps d d' (edges_of (tables d))
  end.
Proof.
  intros Hd Hes. destruct es as [|x es].
  { intros [= <- <-]. exists []. split; [done |]. rewrite app_nil_r. by apply kept_refl. }
  unfold BatchStoreEdges. destruct (transaction fault _ d) as [r d1] eqn:E.
  apply transaction_cases in E as [(err & -> & Ht)|(ids & d0 & d2 & -> & H1 & Hb & H2)].
  { intros [= <- <-]. rewrite Ht. by apply kept_refl. }
  apply prepared_cases in Hb as (d3 & H3 & Hb). rewrite H1 in H3. intros [= <- <-].
  apply insert_all_ok in Hb as [Hlen K]; [|by rewrite H3 | done]. exists (map Itoa ids).
  split; [by rewrite length_map |]. by rewrite H2, <- H3.
Qed.

Lemma StoreEdge_ok x d e d' :
  db_ok (tables d) → storable x → report (StoreEdge fault x d) = (e, d') →
  match e with
  | None => ∃ id, keeps d d' (edges_of (tables d) ++ [with_id id x])
  | Some _ => keeps d d' (edges_of (tables d))
  end.
Proof.
  intros Hd Hx. unfold StoreEdge. destruct (call fault _ d) as [r d1] eqn:E.
  apply call_cases in E as [(err & -> & Ht)|(id & -> & Hs)]; intros [= <- <-]; [rewrite Ht; by apply kept_refl |].
  exists (Itoa id). by eapply insertEdge_ok.
Qed.

(** ** The laws *)

Lemma row_matches_edge repo kind kinds r :
  row_matches (link_query repo kind kinds) r = edge_matches (link_query repo kind kinds) (scanEdge r).
Proof. by destruct r. Qed.

Lemma filter_scan (p : EdgeRow → bool) (q : Edge → bool) l :
  (∀ r, p r = q (scanEdge r)) → map scanEdge (filter (λ r, p r = true) l) = filter (λ e, q e = true) (map scanEdge l).
Proof.
  intros H. induction l as [|r l IH]; [done |]. simpl. rewrite !filter_cons, H.
  case_decide; simpl; [by f_equal | done].
Qed.

(** The same change, of the connection's tables. *)
Lemma of_conn d d' es :
  keeps d d' es → stays (λ d, db_ok (tables d)) (λ d, edges_of (tables d)) (λ d, units_of (tables d)) d d' es.
Proof. by intros [H1 H2 H3]. Qed.

Lemma unit_row_id next u : unit_row_ok next u → Itoa (unit_id u) ≠ "" ∧ is_id (Itoa (unit_id u)).
Proof.
  intros [Hb Hi]. split; [by apply Itoa_nonempty |]. right. rewrite IntOrZero_Itoa by done. split; [lia | done].
Qed.

Lemma NoDup_ids {A} (f : A → Z) l :
  Forall (λ x, in_int64 (f x) = true) l → NoDup (map f l) → NoDup (map (λ x, Itoa (f x)) l).
Proof.
  intros Hi Hnd. rewrite <- map_map with (g := Itoa). apply NoDup_fmap_2_strong; [|done].
  intros a b (x & -> & Hx)%list_elem_of_fmap (y & -> & Hy)%list_elem_of_fmap. rewrite Forall_forall in Hi.
  apply Itoa_inj_int64; auto.
Qed.

#[export] Instance SQLite_laws :
  LinkStoreLaws (SQLite fault cancelled) (λ d, db_ok (tables d)) (λ d, edges_of (tables d)) (λ d, units_of (tables d)).
Proof.
  split.
  - intros d Hd. unfold edges_of. rewrite map_map. apply NoDup_ids; [|apply Hd].
    eapply Forall_impl; [apply (rows_ok _ Hd) |]. by intros r [].
  - intros d Hd. unfold edges_of. apply Forall_map. eapply Forall_impl; [apply (rows_ok _ Hd) |].
    intros r Hr. by eapply scanEdge_storable.
  - intros d Hd. unfold units_of. rewrite map_map. apply NoDup_ids; [|apply Hd].
    eapply Forall_impl; [apply (unit_rows_ok _ Hd) |]. by intros r [].
  - intros d Hd. unfold units_of. apply Forall_map. eapply Forall_impl; [apply (unit_rows_ok _ Hd) |].
    intros u Hu. by eapply unit_row_id.
  - intros d repo kind kinds r d' Hd H. apply call_cases in H as [(e & -> & Ht)|(us & -> & [= <- Ht])].
    + split; [apply of_conn; rewrite Ht; by apply kept_refl | done].
    + split; [apply of_conn; rewrite <- Ht; by apply kept_refl |]. by intros us [= <-].
  - intros d repo kind kinds r d' Hd H. apply call_cases in H as [(e & -> & Ht)|(es & -> & [= <- Ht])].
    + split; [apply of_conn; rewrite Ht; by apply kept_refl | done].
    + split; [apply of_conn; rewrite <- Ht; by apply kept_refl |].
      intros es [= <-]. cbn [link_query q_Limit first_n].
      rewrite SliceSort_perm. unfold edges_of. by rewrite <- (filter_scan _ _ _ (row_matches_edge repo kind kinds)).
  - intros d r e d' Hd Hr H. apply of_conn. by apply UpdateEdgeResolution_ok in H.
  - intros f d rs fs e d' [= <-] Hd Hrs _ (part & rest & wr & H1 & H2 & H3 & K)%batch_chunks_ok; [|done..].
    exists part, rest, wr. split_and!; [done.. | by apply of_conn].
  - intros d id meta e d' Hd Hid H. apply of_conn. by apply UpdateEdgeMeta_ok in H.
  - intros d repo kind e d' Hd. simpl. unfold DeleteEdgesByKind, or_empty.
    destruct (String.eqb_spec repo "") as [->|Hne]; intros H; simpl; apply of_conn.
    + refine (delete_call_ok _ (λ x, ¬ (true = true ∧ e_Kind x = kind)) _ _ _ Hd _ H).
      intros r. cbn [scanEdge e_Kind]. destruct (String.eqb_spec (row_kind r) kind); naive_solver.
    + refine (delete_call_ok _ (λ x, ¬ (String.eqb repo (e_RepoID x) = true ∧ e_Kind x = kind)) _ _ _ Hd _ H).
      intros r. cbn [scanEdge e_Kind e_RepoID]. rewrite (String.eqb_sym repo).
      destruct (String.eqb (row_repo_id r) repo), (String.eqb_spec (row_kind r) kind); simpl; naive_solver.
  - intros d kind name e d' Hd H. simpl in H. unfold DeleteEdgesByKindAndDst in H. apply of_conn.
    refine (delete_call_ok _ (λ x, ¬ (e_Kind x = kind ∧ e_DstName x = name)) _ _ _ Hd _ H).
    intros r. cbn [scanEdge e_Kind e_DstName].
    destruct (String.eqb_spec (row_kind r) kind), (String.eqb_spec (row_dst_name r) name); simpl; naive_solver.
  - intros d x e d' Hd Hx H%StoreEdge_ok; [|done..].
    destruct e; [by apply of_conn |]. destruct H as [id K]. exists id. by apply of_conn.
  - intros d xs e d' Hd Hxs H%BatchStoreEdges_ok; [|done..].
    destruct e; [by apply of_conn |]. destruct H as (ids & Hlen & K). exists ids. split; [done | by apply of_conn].
Qed.

End Store.
