(* ===== verification/SqlUnits.v ===== *)
(** * The units of the SQLite store ([internal/store/sqlite/ast_units.go])

    First a small graph the theorems about the store and the linker are tried on:
    two repositories in a store on which nothing fails; [a] sends to a topic it names
    in its configuration and calls a route, [b] serves the route and receives the
    topic.  Then removing the units of files, which is how a re-index starts: the
    schema cascades along the edges' sources and the units' parents, but not along
    the edges' destinations, so these are cleared first. *)

From S2P Require Import Prelude GoStrings GoStrconv GoFloat Domain Store Contract StoreQuery LinkStore SqlDriver SqlEdges SqlEdgesFacts.

Definition never (n : nat) : bool := false.
#[export] Instance sample_store : LinkStore (conn db) := SQLite no_fault never.
#[export] Instance sample_laws :
  LinkStoreLaws sample_store (λ d, db_ok (tables d)) (λ d, edges_of (tables d)) (λ d, units_of (tables d)) :=
  SQLite_laws no_fault never.

Definition sample_unit (repo file kind name qualified sig : string) (line : Z) : ASTUnit := {|
  u_ID := ""; u_RepoID := repo; u_FilePath := file; u_Language := "go"; u_Kind := kind; u_Name := name;
  u_Qualified := qualified; u_ParentID := ""; u_StartLine := line; u_EndLine := line; u_StartByte := 0; u_EndByte := 0;
  u_Signature := sig; u_Doc := ""; u_Hash := ""; u_Meta := "" |}.
Definition sample_edge (repo src kind name file : string) (line : Z) : Edge := {|
  e_ID := ""; e_RepoID := repo; e_SrcID := src; e_DstID := ""; e_Kind := kind; e_DstName := name; e_FilePath := file;
  e_Line := line; e_DstRepoID := ""; e_Confidence := ConfExact; e_Meta := "" |}.

Definition sample_units : list ASTUnit :=
  [sample_unit "a" "a.go" "function" "Send" "main.Send" "" 3;
   sample_unit "b" "b.go" "function" "Recv" "main.Recv" "" 5;
   sample_unit "a" "app.yml" KindConfigKey "topic" "app.orders.topic" "orders" 1;
   sample_unit "b" "r.go" KindHTTPRoute "GET /x/:id" "http:GET /x/:id" "" 9].
Definition sample_edges : list Edge :=
  [sample_edge "a" "1" EdgeProduces "topic:orders" "a.go" 3;
   sample_edge "b" "2" EdgeConsumes "topic:orders" "b.go" 5;
   sample_edge "a" "1" EdgeHTTPCall "http:GET /x/{}" "a.go" 4;
   sample_edge "a" "1" EdgeCall "Send" "a.go" 5;
   sample_edge "a" "1" EdgeProduces "topic:${orders.topic}" "a.go" 6].

Definition empty_db : conn db :=
  {| tables := {| db_units := []; db_edges := []; db_next := 1; db_next_unit := 1 |}; calls := 0 |}.
Definition sample : conn db := Eval vm_compute in
  snd (BatchStoreEdges no_fault sample_edges (snd (BatchStoreASTUnits no_fault sample_units empty_db))).

Lemma row_ok_check next r :
  (0 <? row_id r)%Z && (row_id r <? next)%Z && in_int64 (row_id r) && in_int64 (row_src_id r) &&
  in_int64 (row_dst_id r) = true → row_ok next r.
Proof. intros H. bool_prop. by split. Qed.

Lemma sample_ok : db_ok (tables sample).
Proof.
  split.
  - apply (bool_decide_unpack _). vm_compute. exact I.
  - eapply Forall_impl; [|apply row_ok_check]. by_forallb.
  - vm_compute. reflexivity.
  - apply (bool_decide_unpack _). vm_compute. exact I.
  - repeat apply Forall_cons_2; try apply Forall_nil_2; split; vm_compute; (split; reflexivity) || reflexivity.
  - vm_compute. reflexivity.
  - by_forallb.
  - repeat apply Forall_cons_2; try apply Forall_nil_2; done.
Qed.

(** Every destination is a unit. *)
Definition closed (t : db) : Prop :=
  Forall (λ r, row_dst_id r = 0%Z ∨ has_unit (row_dst_id r) t = true) (db_edges t).

(** The two statements of [unlink_units], on the tables. *)
Definition unlinked (test : UnitRow → bool) (t : db) : db := remove_units test (unresolve_all test t).

Lemma elem_of_ids_where test t id : id ∈ ids_where test t ↔ ∃ u, u ∈ db_units t ∧ test u = true ∧ unit_id u = id.
Proof. unfold ids_where. rewrite list_elem_of_fmap. setoid_rewrite list_elem_of_filter. naive_solver. Qed.

(** What is left of the units. *)
Lemma has_unit_left test t id :
  db_ok t → has_unit id (unlinked test t) = true ↔ has_unit id t = true ∧ id ∉ ids_where test t.
Proof.
  intros Ht. rewrite !has_unit_spec, elem_of_ids_where. unfold unlinked, remove_units. simpl.
  rewrite map_map, !list_elem_of_fmap. setoid_rewrite list_elem_of_filter. split.
  - intros (u & -> & Hu & Hin). split; [by exists u |]. intros (v & Hv & Htest & E). simpl in E.
    rewrite (NoDup_map_inj unit_id (db_units t) u v) in Hu; [congruence | apply Ht | done..].
  - intros [(u & -> & Hin) Hn]. exists u. split_and!; [done | |done]. destruct (test u) eqn:E; [|done].
    exfalso. apply Hn. eauto.
Qed.

Lemma unresolve_src gone r : row_src_id (unresolve gone r) = row_src_id r.
Proof. unfold unresolve. by destruct (_ && _). Qed.
Lemma unresolve_id gone r : row_id (unresolve gone r) = row_id r.
Proof. unfold unresolve. by destruct (_ && _). Qed.

Lemma unresolve_row_ok next gone r : row_ok next r → row_ok next (unresolve gone r).
Proof. unfold unresolve. destruct (_ && _); [|done]. intros []. by split. Qed.

Lemma unlinked_edges test t :
  db_edges (unlinked test t) =
  map (unresolve (ids_where test t)) (filter (λ r, row_src_id r ∉ ids_where test t) (db_edges t)).
Proof.
  unfold unlinked, remove_units, unresolve_all. simpl. change (ids_where test (set_edges _ t)) with (ids_where test t).
  generalize (ids_where test t) as gone. intros gone. induction (db_edges t) as [|r l IH]; [done |].
  simpl. rewrite !filter_cons, unresolve_src. case_decide; simpl; by rewrite IH.
Qed.

Lemma unlinked_ok test t : db_ok t → db_ok (unlinked test t).
Proof.
  intros Ht. pose proof (λ id, has_unit_left test t id Ht) as Hleft. destruct Ht as [Hnd Hr Hn Hud Hu Hun Hs Hp].
  split; try done.
  - rewrite unlinked_edges, map_map. erewrite map_ext by (intros; apply unresolve_id). by apply NoDup_map_filter.
  - rewrite unlinked_edges. apply Forall_map. apply Forall_filter. eapply Forall_impl; [exact Hr |].
    intros r. apply unresolve_row_ok.
  - simpl. rewrite map_map. by apply NoDup_map_filter.
  - simpl. apply Forall_map. apply Forall_filter. done.
  - rewrite unlinked_edges. apply Forall_map. rewrite Forall_forall in Hs |- *.
    intros r [Hg Hin]%list_elem_of_filter. rewrite unresolve_src. apply Hleft. split; [by apply Hs | done].
  - simpl. apply Forall_map. rewrite Forall_forall in Hp |- *. intros u [_ Hin]%list_elem_of_filter p. simpl.
    destruct (unit_parent_id u) as [q|] eqn:Eq; [|done]. case_bool_decide as Hg; [done |]. intros [= <-].
    apply Hleft. split; [by eapply Hp | done].
Qed.

Lemma unlinked_closed test t : db_ok t → closed t → closed (unlinked test t).
Proof.
  unfold closed. intros Ht Hc. rewrite unlinked_edges. apply Forall_map. rewrite Forall_forall in Hc |- *.
  intros r [_ Hin]%list_elem_of_filter. unfold unresolve. destruct (Z.eqb_spec (row_dst_id r) 0) as [E|E]; [by left |].
  simpl. case_bool_decide as Hg; simpl; [by left |]. right. apply has_unit_left; [done |].
  destruct (Hc r Hin); done.
Qed.

(** ** File by file *)

(** A condition the foreign keys do not change. *)
Definition steady (test : UnitRow → bool) : Prop := ∀ gone u, test (orphan gone u) = test u.

Lemma in_files_steady repo paths : steady (in_files repo paths).
Proof. by intros gone u. Qed.

Lemma ids_where_again a b t id :
  steady b → id ∈ ids_where a t ∨ id ∈ ids_where b (unlinked a t) ↔ id ∈ ids_where (λ u, a u || b u) t.
Proof.
  intros Hb. rewrite !elem_of_ids_where. unfold unlinked, remove_units, unresolve_all. simpl.
  setoid_rewrite list_elem_of_fmap. setoid_rewrite list_elem_of_filter. split.
  - intros [(u & Hin & Ha & <-)|(u & (v & -> & Hv & Hin) & Hbv & <-)].
    + exists u. by rewrite Ha.
    + exists v. rewrite Hb in Hbv. rewrite Hbv. split_and!; [done | by destruct (a v) | done].
  - intros (u & Hin & Hab & <-). destruct (a u) eqn:Ea; [left; by exists u |]. right.
    exists (orphan (ids_where a t) u). split_and!; [exists u; done | by rewrite Hb | done].
Qed.

Lemma orphan_again ga gb g u :
  (∀ id, id ∈ ga ∨ id ∈ gb ↔ id ∈ g) → orphan gb (orphan ga u) = orphan g u.
Proof.
  intros Hg. unfold orphan. simpl. f_equal. destruct (unit_parent_id u) as [p|]; [|done].
  specialize (Hg p). repeat case_bool_decide; tauto || done.
Qed.

Lemma unresolve_again ga gb g r :
  (∀ id, id ∈ ga ∨ id ∈ gb ↔ id ∈ g) → unresolve gb (unresolve ga r) = unresolve g r.
Proof.
  intros Hg. unfold unresolve. specialize (Hg (row_dst_id r)).
  destruct (Z.eqb_spec (row_dst_id r) 0) as [E|E]; simpl.
  - by rewrite E.
  - repeat case_bool_decide; simpl; try tauto; by rewrite ?(proj2 (Z.eqb_neq _ _) E).
Qed.

Lemma db_eq t t' :
  db_units t = db_units t' → db_edges t = db_edges t' → db_next t = db_next t' → db_next_unit t = db_next_unit t' → t = t'.
Proof. destruct t, t'. simpl. by intros -> -> -> ->. Qed.

(** Removing the units of some files and then those of others is removing both. *)
Lemma unlinked_again a b t : steady b → unlinked b (unlinked a t) = unlinked (λ u, a u || b u) t.
Proof.
  intros Hb. pose proof (λ id, ids_where_again a b t id Hb) as Hg. apply db_eq; try done.
  - change (db_units (unlinked b (unlinked a t))) with
      (map (orphan (ids_where b (unlinked a t))) (filter (λ u, b u = false) (db_units (unlinked a t)))).
    change (db_units (unlinked (λ u, a u || b u) t)) with
      (map (orphan (ids_where (λ u, a u || b u) t)) (filter (λ u, a u || b u = false) (db_units t))).
    revert Hg. generalize (ids_where b (unlinked a t)), (ids_where (λ u, a u || b u) t). intros gb g Hg.
    change (db_units (unlinked a t)) with (map (orphan (ids_where a t)) (filter (λ u, a u = false) (db_units t))).
    revert Hg. generalize (ids_where a t). intros ga Hg.
    induction (db_units t) as [|u l IH]; [done |]. rewrite !(filter_cons _ u).
    destruct (a u) eqn:Ea; simpl; [exact IH |]. rewrite filter_cons, Hb.
    destruct (b u) eqn:Eb; simpl; [exact IH |]. rewrite (orphan_again ga gb g) by done. by f_equal.
  - rewrite !unlinked_edges. revert Hg.
    generalize (ids_where b (unlinked a t)), (ids_where (λ u, a u || b u) t), (ids_where a t). intros gb g ga Hg.
    induction (db_edges t) as [|r l IH]; [done |]. rewrite !(filter_cons _ r). specialize (Hg (row_src_id r)) as Hr.
    destruct (decide (row_src_id r ∉ ga)) as [Ha|Ha]; [|by rewrite decide_False by (contradict Ha; tauto)].
    simpl. rewrite filter_cons, unresolve_src.
    destruct (decide (row_src_id r ∉ gb)) as [Hb'|Hb']; [|by rewrite decide_False by (contradict Hb'; tauto)].
    rewrite decide_True by tauto. simpl. rewrite (unresolve_again ga gb g) by done. by f_equal.
Qed.

Lemma unlinked_ext a b t : (∀ u, a u = b u) → unlinked a t = unlinked b t.
Proof.
  intros H. unfold unlinked, remove_units, unresolve_all, ids_where, set_edges. simpl.
  rewrite (list_filter_iff (λ u, a u = true) (λ u, b u = true)), (list_filter_iff (λ u, a u = false) (λ u, b u = false));
    [done | intros u; by rewrite H..].
Qed.

(** Removing no unit changes nothing. *)
Lemma unlinked_nothing test t : db_ok t → (∀ u, test u = false) → unlinked test t = t.
Proof.
  intros _ Hn. assert (ids_where test t = []) as Hg.
  { apply elem_of_nil_inv. intros z (u & _ & Hu & _)%elem_of_ids_where. by rewrite Hn in Hu. }
  apply db_eq; try done.
  - unfold unlinked, remove_units. simpl. change (ids_where _ (unresolve_all _ _)) with (ids_where test t). rewrite Hg.
    induction (db_units t) as [|u l IH]; [done |]. rewrite filter_cons, decide_True by done. simpl. rewrite IH. f_equal.
    unfold orphan. destruct u as [? ? ? ? ? ? ? []]; by simpl.
  - rewrite unlinked_edges, Hg. induction (db_edges t) as [|r l IH]; [done |].
    rewrite filter_cons, decide_True by apply not_elem_of_nil. cbn [map]. rewrite IH. f_equal.
    unfold unresolve. rewrite bool_decide_eq_false_2 by apply not_elem_of_nil. by rewrite andb_false_r.
Qed.

Lemma unlinked_chunks repo chunks first t :
  foldl (λ t batch, unlinked (in_files repo batch) t) (unlinked (in_files repo first) t) chunks =
  unlinked (in_files repo (first ++ concat chunks)) t.
Proof.
  revert first. induction chunks as [|c chunks IH]; intros first; simpl; [by rewrite app_nil_r |].
  rewrite unlinked_again by apply in_files_steady.
  rewrite (unlinked_ext _ (in_files repo (first ++ c))), IH, <- app_assoc; [done |].
  intros u. unfold in_files. destruct (String.eqb _ _); [|done]. simpl.
  rewrite <- bool_decide_or. apply bool_decide_ext. by rewrite elem_of_app.
Qed.

(** ** The method *)

Section Store.
  Context (fault : nat → option StoreError).

Lemma unlink_units_done test d d' :
  unlink_units fault test d = (inr tt, d') → tables d' = unlinked test (tables d).
Proof.
  unfold unlink_units. destruct (call fault _ d) as [[e|[]] d1] eqn:E; [done |].
  intros H. rewrite (call_done _ _ _ _ H). by rewrite (call_done _ _ _ _ E).
Qed.

Lemma DeleteASTUnitsByFiles_tables repo paths d e d' :
  DeleteASTUnitsByFiles fault repo paths d = (e, d') →
  tables d' = match e with
              | None => if decide (paths = []) then tables d else unlinked (in_files repo paths) (tables d)
              | Some _ => tables d
              end.
Proof.
  unfold DeleteASTUnitsByFiles. destruct paths as [|p paths]; [by intros [= <- <-] |].
  intros H. unfold eachPathChunk in H.
  apply (transaction_each_cases _ _ (λ batch, unlinked (in_files repo batch))) in H;
    [|intros; by apply unlink_units_done].
  rewrite H. destruct e; [done |]. rewrite decide_False by done.
  destruct (path_chunks _ _) as [|c chunks] eqn:E; [done |].
  simpl foldl. rewrite unlinked_chunks. change (c ++ concat chunks) with (concat (c :: chunks)). rewrite <- E.
  by rewrite concat_path_chunks.
Qed.

End Store.

(** ** On units and edges *)

Definition without_parent (gone : list string) (u : ASTUnit) : ASTUnit :=
  {| u_ID := u_ID u; u_RepoID := u_RepoID u; u_FilePath := u_FilePath u; u_Language := u_Language u;
     u_Kind := u_Kind u; u_Name := u_Name u; u_Qualified := u_Qualified u;
     u_ParentID := if bool_decide (u_ParentID u ∈ gone) then "" else u_ParentID u;
     u_StartLine := u_StartLine u; u_EndLine := u_EndLine u; u_StartByte := u_StartByte u;
     u_EndByte := u_EndByte u; u_Signature := u_Signature u; u_Doc := u_Doc u; u_Hash := u_Hash u; u_Meta := u_Meta u |}.
Definition without_dst (gone : list string) (e : Edge) : Edge :=
  if bool_decide (e_DstID e ∈ gone) then with_dst "" "" (e_Confidence e) e else e.
Definition in_paths (repo : string) (paths : list string) (u : ASTUnit) : Prop :=
  u_RepoID u = repo ∧ u_FilePath u ∈ paths.
#[export] Instance in_paths_dec repo paths u : Decision (in_paths repo paths u).
Proof. unfold in_paths. apply _. Defined.

Lemma in_files_paths repo paths u : in_files repo paths u = true ↔ in_paths repo paths (scanASTUnit u).
Proof. unfold in_files, in_paths. rewrite andb_true_iff, String.eqb_eq, bool_decide_eq_true. done. Qed.

Lemma gone_units repo paths t :
  map u_ID (filter (in_paths repo paths) (units_of t)) = map Itoa (ids_where (in_files repo paths) t).
Proof.
  unfold units_of, ids_where. rewrite map_map. induction (db_units t) as [|u l IH]; [done |].
  simpl. rewrite !filter_cons. rewrite (decide_ext _ _ _ _ (iff_sym (in_files_paths repo paths u))).
  case_decide; simpl; by rewrite IH.
Qed.

Lemma elem_of_texts z gone :
  in_int64 z = true → Forall (λ x, in_int64 x = true) gone → Itoa z ∈ map Itoa gone ↔ z ∈ gone.
Proof.
  intros Hz Hg. rewrite list_elem_of_fmap. rewrite Forall_forall in Hg. split.
  - intros (x & E & Hx). apply Itoa_inj_int64 in E; [by subst | done | auto].
  - intros Hx. eauto.
Qed.

Lemma has_unit_int64 t id : db_ok t → has_unit id t = true → in_int64 id = true.
Proof.
  intros Ht (u & -> & Hin)%has_unit_spec%list_elem_of_fmap. pose proof (unit_rows_ok t Ht) as H.
  rewrite Forall_forall in H. by apply H.
Qed.

Lemma unlinked_units_of repo paths t :
  db_ok t →
  units_of (unlinked (in_files repo paths) t) =
  map (without_parent (map Itoa (ids_where (in_files repo paths) t)))
    (filter (λ u, ¬ in_paths repo paths u) (units_of t)).
Proof.
  intros Ht. assert (Forall (λ x, in_int64 x = true) (ids_where (in_files repo paths) t)) as Hg.
  { apply Forall_forall. intros z (u & Hu & _ & <-)%elem_of_ids_where. apply (has_unit_int64 t); [done |].
    apply has_unit_spec. by apply list_elem_of_fmap_2. }
  unfold units_of at 1. unfold unlinked, remove_units. simpl.
  change (ids_where _ (unresolve_all _ _)) with (ids_where (in_files repo paths) t).
  rewrite map_map. unfold units_of.
  rewrite <- (map_filter_ext scanASTUnit (in_files repo paths) (λ u, ¬ in_paths repo paths u)).
  2: { intros u _. by rewrite <- in_files_paths, not_true_iff_false. }
  rewrite map_map. apply map_ext_Forall. pose proof (parents_ok t Ht) as Hp. rewrite Forall_forall in Hp |- *.
  intros u [_ Hin]%list_elem_of_filter. unfold without_parent, scanASTUnit. simpl. f_equal.
  destruct (unit_parent_id u) as [p|] eqn:Ep.
  - pose proof (has_unit_int64 t p Ht (Hp u Hin p Ep)) as Hi.
    rewrite (bool_decide_ext _ _ (elem_of_texts p _ Hi Hg)). by case_bool_decide.
  - by case_bool_decide.
Qed.

Lemma unlinked_edges_of repo paths t :
  db_ok t →
  edges_of (unlinked (in_files repo paths) t) =
  map (without_dst (map Itoa (ids_where (in_files repo paths) t)))
    (filter (λ e, e_SrcID e ∉ map Itoa (ids_where (in_files repo paths) t)) (edges_of t)).
Proof.
  intros Ht. assert (Forall (λ x, in_int64 x = true) (ids_where (in_files repo paths) t)) as Hg.
  { apply Forall_forall. intros z (u & Hu & _ & <-)%elem_of_ids_where. apply (has_unit_int64 t); [done |].
    apply has_unit_spec. by apply list_elem_of_fmap_2. }
  unfold edges_of at 1. rewrite unlinked_edges. generalize dependent (ids_where (in_files repo paths) t). intros gone Hg.
  pose proof (rows_ok t Ht) as Hr. unfold edges_of.
  induction (db_edges t) as [|r l IH]; [done |]. apply Forall_cons in Hr as [Hr Hl]. simpl. rewrite !filter_cons.
  assert (row_src_id r ∉ gone ↔ e_SrcID (scanEdge r) ∉ map Itoa gone) as Hs.
  { simpl. by rewrite elem_of_texts by (done || by destruct Hr). }
  rewrite (decide_ext _ _ _ _ Hs). case_decide; simpl; rewrite IH by done; [|done]. f_equal.
  unfold without_dst, unresolve, scanEdge. simpl. destruct (Z.eqb_spec (row_dst_id r) 0) as [E|E]; simpl.
  - rewrite bool_decide_eq_false_2; [by rewrite E |]. intros (x & Ex & Hx)%list_elem_of_fmap.
    rewrite Forall_forall in Hg. by apply (Itoa_nonempty x); [apply Hg |].
  - rewrite (bool_decide_ext _ _ (elem_of_texts (row_dst_id r) gone (dst_int64 _ _ Hr) Hg)).
    case_bool_decide; simpl; [done |]. by rewrite (proj2 (Z.eqb_neq _ _) E).
Qed.

(** C22: removing the units of files keeps the graph whole, whatever calls fail.
    The tables stay well formed — ids distinct, every edge with its source, every
    parent a unit — and no edge is left pointing at a unit that is gone.  Without
    an error the units of the files are gone in one step, however many chunks the
    paths were bound in: the units left lose a parent that is gone, the edges out
    of the removed units are gone, and those into them are unresolved; with an
    error nothing has changed. *)
Theorem DeleteASTUnitsByFiles_integrity fault repo paths d e d' :
  db_ok (tables d) → closed (tables d) → DeleteASTUnitsByFiles fault repo paths d = (e, d') →
  db_ok (tables d') ∧ closed (tables d') ∧
  match e with
  | Some _ => tables d' = tables d
  | None =>
      let gone := map u_ID (filter (in_paths repo paths) (units_of (tables d))) in
      units_of (tables d') = map (without_parent gone) (filter (λ u, ¬ in_paths repo paths u) (units_of (tables d))) ∧
      edges_of (tables d') = map (without_dst gone) (filter (λ e, e_SrcID e ∉ gone) (edges_of (tables d)))
  end.
Proof.
  intros Hok Hc H%DeleteASTUnitsByFiles_tables. destruct e as [err|]; [by rewrite H |].
  assert (tables d' = unlinked (in_files repo paths) (tables d)) as ->.
  { rewrite H. case_decide as Hp; [|done]. subst paths. symmetry. apply unlinked_nothing; [done |].
    intros u. unfold in_files. by rewrite andb_false_r. }
  split_and!; [by apply unlinked_ok | by apply unlinked_closed |]. cbv zeta. rewrite gone_units.
  split; [by apply unlinked_units_of | by apply unlinked_edges_of].
Qed.

Lemma DeleteASTUnitsByFiles_integrity_witness :
  let d := snd (UpdateEdgeResolution no_fault {| er_EdgeID := "3"; er_DstID := "4"; er_DstRepoID := "b"; er_Confidence := ConfExact |}
                  sample) in
  let d' := snd (DeleteASTUnitsByFiles no_fault "b" ["b.go"; "r.go"] d) in
  map e_DstID (edges_of (tables d)) = [""; ""; "4"; ""; ""] ∧
  map e_ID (edges_of (tables d')) = ["1"; "3"; "4"; "5"] ∧ map e_DstID (edges_of (tables d')) = [""; ""; ""; ""] ∧
  db_ok (tables d') ∧ closed (tables d').
Proof.
  cbv zeta. set (r := {| er_EdgeID := _ |}). set (d := snd (UpdateEdgeResolution no_fault r sample)).
  assert (UpdateEdgeResolution no_fault r sample = (None, d)) as E by (vm_compute; reflexivity).
  apply UpdateEdgeResolution_ok in E as [Hd _ _];
    [|exact sample_ok | split; right; (split; [vm_compute; discriminate | vm_compute; reflexivity])].
  assert (closed (tables d)) as Hc.
  { vm_compute tables. repeat apply Forall_cons_2; try apply Forall_nil_2; vm_compute; [left | left | right | left | left]; reflexivity. }
  pose proof (DeleteASTUnitsByFiles_integrity no_fault "b" ["b.go"; "r.go"] d _ _ Hd Hc (surjective_pairing _)) as (H1 & H2 & _).
  split_and!; [vm_compute; reflexivity.. | exact H1 | exact H2].
Defined.
