(* ===== verification/Linker.v ===== *)
(** * The passes of the linker ([internal/graph/linker.go])

    [RunWithStats] and the four passes it makes over the store.  A pass is a
    computation over the store and the counters of the run; an error of the
    store ends it, a failed write of one edge is counted and the pass goes on. *)

From S2P Require Import Prelude GoStrings GoStrconv GoSort GoFloat GoJson GoJsonEncode Domain Store Contract Match.
From S2P Require Import LinkStore.
From Stdlib Require Import Strings.Ascii.

(** ** Edge metadata *)

Definition metaKeySource : string := "source".
Definition metaKeyTopicRef : string := "topic_ref".
Definition metaKeyReceiver : string := "receiver".
Definition metaKeyRecvType : string := "recv_type".

(** [metaField] *)
Definition metaField (meta key : string) : string :=
  if String.eqb meta "" then ""
  else match UnmarshalMap meta with Members ms => member_string key ms | _ => "" end.

(** [metaWithField]; a meta of [null] is a nil map, and writing to it panics,
    which is [None]. *)
Definition metaWithField (meta key value : string) : option string :=
  let m := if String.eqb meta "" then Members [] else UnmarshalMap meta in
  match m with
  | NilMap => None
  | Members ms => Some (encode (JObject (ms ++ [(key, JString value)])))
  | Malformed => Some (encode (JObject [(key, JString value)]))
  end.

(** [metaWithLLMSource] *)
Definition metaWithLLMSource (meta : string) : option string := metaWithField meta metaKeySource "llm".

(** [metaDefaultTopic] *)
Definition metaDefaultTopic (meta : string) : string :=
  if String.eqb meta "" then ""
  else
    let '(m, ok) := Unmarshal edge_meta_field no_edge_meta meta in
    if negb ok || String.eqb (em_Topic m) "" || Contains (em_Topic m) "${" then "" else em_Topic m.

(** The keys [edgeReceiver] looks under, and the qualifier of a dotted name. *)
Definition meta_receiver (meta : string) : string :=
  if String.eqb meta "" then ""
  else match UnmarshalMap meta with
       | Members ms =>
           let r := member_string metaKeyReceiver ms in
           if String.eqb r "" then member_string metaKeyRecvType ms else r
       | _ => ""
       end.

(** [edgeReceiver] *)
Definition edgeReceiver (e : Edge) : string :=
  let r := meta_receiver (e_Meta e) in
  if negb (String.eqb r "") then r
  else match CutLast (Ascii.eqb "."%char) (e_DstName e) with
       | Some (q, _) => q
       | None => ""
       end.

(** [confidenceAfterResolve] *)
Definition confidenceAfterResolve (e : Edge) (conf : f32) : f32 :=
  let base :=
    if String.eqb (e_Meta e) "" then e_Confidence e
    else
      let '(m, ok) := Unmarshal edge_meta_field no_edge_meta (e_Meta e) in
      if ok && fpos (em_BaseConf m) then em_BaseConf m else e_Confidence e in
  f32_mul base conf.

(** ** The state of a run *)

(** [RunStats] *)
Record RunStats := {
  ResolvedLocal : Z;
  ResolvedContracts : Z;
  SkippedValid : Z;
  KafkaFlows : Z;
  Errors : Z
}.
Definition no_stats : RunStats :=
  {| ResolvedLocal := 0; ResolvedContracts := 0; SkippedValid := 0; KafkaFlows := 0; Errors := 0 |}.

Definition plus_stats (local contracts skipped flows errors : Z) (s : RunStats) : RunStats := {|
  ResolvedLocal := ResolvedLocal s + local; ResolvedContracts := ResolvedContracts s + contracts;
  SkippedValid := SkippedValid s + skipped; KafkaFlows := KafkaFlows s + flows; Errors := Errors s + errors |}.

(** How a run fails: an error of the store, in the pass it ended, or the panic of
    [metaWithField]. *)
Inductive LinkError := PassError (pass : string) (e : StoreError) | NilMapPanic.

(** [edgeKey] *)
Abbreviation edgeKey := (string * string)%type.

Definition maxDisambigCalls : nat := 20.
Definition resolutionBuffer : nat := 1000.

(** [disambigRun] *)
Record disambigRun := { ds_cache : gmap string (option ASTUnit); ds_calls : nat }.
Definition newDisambigRun : disambigRun := {| ds_cache := ∅; ds_calls := 0 |}.

(** [resolutionWriter]: what is queued, and how many writes were applied *)
Record resolutionWriter := { w_buf : list EdgeResolution; w_applied : Z }.
Definition newResolutionWriter : resolutionWriter := {| w_buf := []; w_applied := 0 |}.

(** [disambigPrompt] *)
Definition candidate_line (i : nat) (c : ASTUnit) : string :=
  Itoa (Z.of_nat i) +:+ ") " +:+ u_Qualified c +:+ " (repo=" +:+ u_RepoID c +:+ ", file=" +:+ u_FilePath c +:+ ")"
    +:+ String "010" "".
Definition disambigPrompt (e : Edge) (cands : list ASTUnit) : string :=
  "A cross-service code graph edge has several possible destinations." +:+ String "010" "" +:+
  "Call: " +:+ e_DstName e +:+ " (edge kind " +:+ e_Kind e +:+ ") at " +:+ e_FilePath e +:+ ":" +:+ Itoa (e_Line e) +:+
  " in repo " +:+ e_RepoID e +:+ String "010" "" +:+
  "Candidates:" +:+ String "010" "" +:+
  foldr String.append "" (imap candidate_line cands) +:+
  "Which candidate is the actual destination of this call? Reply with the number only, or -1 if unsure.".

Section Linker.
  Context {St : Type} {L : LinkStore St}.
  (** [Linker.disambig]: the answer to the n-th question of a run *)
  Context (disambig : option (nat → string → Z * bool)).
  (** the order in which [range] goes through the keys of a map *)
  Context (range_keys : gset string → list string).

Record world := { w_store : St; w_stats : RunStats }.
Definition count (f : RunStats → RunStats) (w : world) : world :=
  {| w_store := w_store w; w_stats := f (w_stats w) |}.
Definition on_store (st : St) (w : world) : world := {| w_store := st; w_stats := w_stats w |}.

(** A computation of a pass. *)
Definition R (A : Type) : Type := world → (LinkError + A) * world.
#[export] Instance R_ret : MRet R := λ A x w, (inr x, w).
#[export] Instance R_bind : MBind R := λ A B k m w,
  match m w with
  | (inr x, w') => k x w'
  | (inl e, w') => (inl e, w')
  end.

Definition step {A} (f : world → (LinkError + A) * world) : R A := f.

(** A read of the store, named after the pass it would end. *)
Definition reading {A} (pass : string) (read : St → Fallible A * St) : R A := λ w,
  let '(r, st) := read (w_store w) in
  (match r with inr x => inr x | inl e => inl (PassError pass e) end, on_store st w).

(** A write whose failure ends the pass. *)
Definition deleting (pass : string) (write : St → option StoreError * St) : R unit := λ w,
  let '(e, st) := write (w_store w) in
  (match e with Some err => inl (PassError pass err) | None => inr tt end, on_store st w).

(** ** Writing resolutions *)

(** The loop of [resolutionWriter.write] for a store without batches. *)
Fixpoint write_rows (i : nat) (rs : list EdgeResolution) (st : St) : list EdgeResolutionFailure * St :=
  match rs with
  | [] => ([], st)
  | r :: rs =>
      let '(e, st) := update_resolution r st in
      let '(fs, st) := write_rows (Datatypes.S i) rs st in
      (match e with
       | Some err => {| rf_Index := i; rf_EdgeID := er_EdgeID r; rf_Err := err |} :: fs
       | None => fs
       end, st)
  end.

(** [resolutionWriter.write] *)
Definition write (rs : list EdgeResolution) (st : St) : (list EdgeResolutionFailure * option StoreError) * St :=
  match batch_resolutions with
  | Some f => f rs st
  | None => let '(fs, st) := write_rows 0 rs st in ((fs, None), st)
  end.

(** [resolutionWriter.flush] *)
Definition flush (rw : resolutionWriter) (w : world) : resolutionWriter * world :=
  if length (w_buf rw) =? 0 then (rw, w)
  else
    let '((fs, err), st) := write (w_buf rw) (w_store w) in
    let applied := (Z.of_nat (length (w_buf rw)) - Z.of_nat (length fs))%Z in
    let failed := Z.of_nat (length fs) in
    let lost := match err with Some _ => applied | None => 0%Z end in
    ({| w_buf := []; w_applied := w_applied rw + (applied - lost) |},
     count (plus_stats 0 0 0 0 (lost + failed)) (on_store st w)).

(** [resolutionWriter.add] *)
Definition add (r : EdgeResolution) (rw : resolutionWriter) (w : world) : resolutionWriter * world :=
  let rw := {| w_buf := w_buf rw ++ [r]; w_applied := w_applied rw |} in
  if resolutionBuffer <=? length (w_buf rw) then flush rw w else (rw, w).

(** ** Local edges *)

Definition function_kinds : list string := ["function"; "method"].

(** The candidates of each name, sorted. *)
Definition by_name (units : list ASTUnit) : gmap string (list ASTUnit) :=
  sortUnits <$> foldl (λ m u, push (u_Name u) u m) ∅ units.

(** The loop of [resolveLocal]. *)
Definition local_step (repoID : string) (byName : gmap string (list ASTUnit))
    (s : unitComponents * resolutionWriter * world) (e : Edge) : unitComponents * resolutionWriter * world :=
  let '(comps, rw, w) := s in
  let name := LastComponent (e_DstName e) in
  match bucket byName name with
  | [] => s
  | c0 :: cands =>
      let '(comps, (best, conf)) := resolveLocalTarget comps name (edgeReceiver e) e c0 cands in
      if String.eqb (e_DstID e) (u_ID best) && String.eqb (e_DstRepoID e) repoID then (comps, rw, w)
      else
        let '(rw, w) := add {| er_EdgeID := e_ID e; er_DstID := u_ID best; er_DstRepoID := repoID;
                               er_Confidence := confidenceAfterResolve e conf |} rw w in
        (comps, rw, w)
  end.

(** [resolveLocal] *)
Definition resolveLocal (repoID : string) : R unit :=
  units ← reading "resolve local edges" (read_units (link_query repoID "" function_kinds));
  edges ← reading "resolve local edges" (read_edges (link_query repoID "" [EdgeCall; EdgeHandledBy]));
  step (λ w,
    let '(_, rw, w) := foldl (local_step repoID (by_name units)) (newUnitComponents, newResolutionWriter, w) edges in
    let '(rw, w) := flush rw w in
    (inr tt, count (plus_stats (w_applied rw) 0 0 0 0) w)).

(** ** Rewriting edges *)

Definition key_less (a b : edgeKey) : bool :=
  if negb (String.eqb (fst a) (fst b)) then String.ltb (fst a) (fst b) else String.ltb (snd a) (snd b).

(** The first loop of [rewriteEdgeGroups]: the groups whose stored edges are
    gone. *)
Fixpoint delete_groups (keys : list edgeKey) (w : world) : list edgeKey * world :=
  match keys with
  | [] => ([], w)
  | key :: keys =>
      let '(e, st) := delete_by_kind_dst (fst key) (snd key) (w_store w) in
      match e with
      | Some _ => delete_groups keys (count (plus_stats 0 0 0 0 1) (on_store st w))
      | None => let '(pending, w) := delete_groups keys (on_store st w) in (key :: pending, w)
      end
  end.

(** The second: each group stored again, under fresh ids. *)
Fixpoint restore_groups (groups : edgeKey → list Edge) (pending : list edgeKey) (w : world) : world :=
  match pending with
  | [] => w
  | key :: pending =>
      let '(e, st) := store_edges (map (with_id "") (groups key)) (w_store w) in
      let w := on_store st w in
      restore_groups groups pending
        (match e with Some _ => count (plus_stats 0 0 0 0 1) w | None => w end)
  end.

(** [rewriteEdgeGroups]; [keys] are those of the map, [groups] its values *)
Definition rewriteEdgeGroups (keys : list edgeKey) (groups : edgeKey → list Edge) (w : world) : world :=
  let keys := SliceSort key_less (filter (λ k, groups k ≠ []) keys) in
  let '(pending, w) := delete_groups keys w in
  restore_groups groups pending w.

(** ** Config references *)

(** An edge with a reference, [refEdge]: its place in the list of edges, the
    group it is in, the reference. *)
Record refEdge := { re_edge : nat; re_key : edgeKey; re_ref : string }.

Definition edge_key (e : Edge) : edgeKey := (e_Kind e, e_DstName e).
Definition edge_ref (e : Edge) : string :=
  match ParseTopicRef (e_DstName e) with
  | Some ref => ref
  | None => metaField (e_Meta e) metaKeyTopicRef
  end.

(** The first loop of [resolveConfigRefs]. *)
Definition collect_refs (edges : list Edge) : list refEdge :=
  omap id (imap (λ i e, let ref := edge_ref e in
    if String.eqb ref "" then None else Some {| re_edge := i; re_key := edge_key e; re_ref := ref |}) edges).
Definition edge_groups (edges : list Edge) : gmap edgeKey (list nat) :=
  foldl (λ m '(i, e), push (edge_key e) i m) ∅ (imap pair edges).

(** The topic a reference resolves to, "" when it does not. *)
Definition ref_value (idx : configIndex) (e : Edge) (ref : string) : string :=
  let value := matchConfigKeyIndexed idx ref (e_RepoID e) in
  if String.eqb value "" then metaDefaultTopic (e_Meta e) else value.

(** The second loop; the edges are edited where they stand, and the groups see
    it. [None] is the panic of [metaWithField]. *)
Fixpoint rewrite_refs (idx : configIndex) (refs : list refEdge) (edges : list Edge) (touched : gset string)
    (dirty : gset edgeKey) : option (list Edge * gset string * gset edgeKey) :=
  match refs with
  | [] => Some (edges, touched, dirty)
  | r :: refs =>
      match edges !! re_edge r with
      | None => rewrite_refs idx refs edges touched dirty
      | Some e =>
          let value := ref_value idx e (re_ref r) in
          let name := Topic value in
          if String.eqb value "" then rewrite_refs idx refs edges touched dirty
          else if String.eqb name (e_DstName e) && String.eqb (metaField (e_Meta e) metaKeyTopicRef) (re_ref r)
          then rewrite_refs idx refs edges touched dirty
          else match metaWithField (e_Meta e) metaKeyTopicRef (re_ref r) with
               | None => None
               | Some meta =>
                   rewrite_refs idx refs (<[re_edge r := with_meta meta (with_name name e)]> edges)
                     ({[snd (re_key r); name]} ∪ touched) ({[re_key r]} ∪ dirty)
               end
      end
  end.

(** [resolveConfigRefs]; the empty set for the nil map *)
Definition resolveConfigRefs : R (gset string) :=
  edges ← reading "resolve config refs" (read_edges (link_query "" "" [EdgeProduces; EdgeConsumes]));
  let refs := collect_refs edges in
  match refs with
  | [] => mret ∅
  | _ =>
      keys ← reading "resolve config refs" (read_units (link_query "" KindConfigKey []));
      match rewrite_refs (buildConfigIndex keys) refs edges ∅ ∅ with
      | None => step (λ w, (inl NilMapPanic, w))
      | Some (edges', touched, dirty) => step (λ w,
          (inr touched,
           rewriteEdgeGroups (elements dirty) (λ k, omap (λ i, edges' !! i) (bucket (edge_groups edges) k)) w))
      end
  end.

(** ** Contract edges *)

(** [contractIndex] and [newContractIndex] *)
Record contractIndex := {
  ci_rpc : gmap string (list indexedRPC);
  ci_routes : gmap nat (list indexedRoute);
  ci_tables : tableIndex;
  ci_unitIDs : gset string
}.
Definition newContractIndex (rpcUnits routeUnits tableUnits : list ASTUnit) : contractIndex := {|
  ci_rpc := buildRPCIndex rpcUnits;
  ci_routes := buildRouteIndex routeUnits;
  ci_tables := buildTableIndex tableUnits;
  ci_unitIDs := list_to_set (map u_ID (rpcUnits ++ routeUnits ++ tableUnits))
|}.

(** [disambiguate] *)
Definition disambiguate (ask : nat → string → Z * bool) (ds : disambigRun) (e : Edge) (cands : list ASTUnit)
    : disambigRun * option ASTUnit :=
  match ds_cache ds !! e_DstName e with
  | Some None => (ds, None)
  | Some (Some pick) => (ds, if existsb (λ c, String.eqb (u_ID c) (u_ID pick)) cands then Some pick else None)
  | None =>
      if maxDisambigCalls <=? ds_calls ds then (ds, None)
      else
        let '(choice, ok) := ask (ds_calls ds) (disambigPrompt e cands) in
        let pick := if negb ok || (choice <? 0)%Z then None else cands !! Z.to_nat choice in
        ({| ds_cache := <[e_DstName e := pick]> (ds_cache ds); ds_calls := Datatypes.S (ds_calls ds) |}, pick)
  end.

(** The candidates of an edge, their confidence, and whether the match is one
    the disambiguator is asked about. *)
Definition edge_candidates (idx : contractIndex) (e : Edge) : list ASTUnit * f32 * bool :=
  if String.eqb (e_Kind e) EdgeRPCCall || String.eqb (e_Kind e) EdgeImplementsRPC then
    let '(cands, conf) := rpcCandidates (ci_rpc idx) (e_DstName e) in
    (cands, conf, fle conf ConfHeuristic && (1 <? length cands))
  else if String.eqb (e_Kind e) EdgeHTTPCall then
    let cands := routeCandidates (ci_routes idx) (e_DstName e) (e_RepoID e) in
    (map s_unit cands, match cands with c :: _ => s_score c | [] => f32_lit 0 1 end, routesAmbiguous cands)
  else if String.eqb (e_Kind e) EdgeWritesTo || String.eqb (e_Kind e) EdgeReadsFrom then
    let '(cands, conf) := tableCandidates (ci_tables idx) (e_DstName e) (e_RepoID e) in
    (cands, conf, fle conf ConfCrossFile && (1 <? length cands))
  else ([], f32_lit 0 1, false).

(** The destination of an edge, its factor, and whether the disambiguator chose
    it. *)
Definition choose (idx : contractIndex) (ds : disambigRun) (e : Edge) : disambigRun * option (ASTUnit * f32 * bool) :=
  let '(cands, conf, ambiguous) := edge_candidates idx e in
  match cands with
  | [] => (ds, None)
  | dst :: _ =>
      match disambig with
      | Some ask =>
          if ambiguous then
            let '(ds, pick) := disambiguate ask ds e cands in
            (ds, Some (match pick with Some u => (u, ConfHigh, true) | None => (dst, conf, false) end))
          else (ds, Some (dst, conf, false))
      | None => (ds, Some (dst, conf, false))
      end
  end.

(** The state of the loop of [resolveContracts]. *)
Record contractPass := {
  cp_ds : disambigRun;
  cp_link : resolutionWriter;
  cp_clear : resolutionWriter
}.

(** An edge the disambiguator resolved is written on its own, with its meta. *)
Definition write_llm (e : Edge) (dst : ASTUnit) (conf : f32) : R unit := λ w,
  let '(err, st) := update_resolution {| er_EdgeID := e_ID e; er_DstID := u_ID dst; er_DstRepoID := u_RepoID dst;
                                         er_Confidence := conf |} (w_store w) in
  let w := on_store st w in
  match err with
  | Some _ => (inr tt, count (plus_stats 0 0 0 0 1) w)
  | None =>
      match metaWithLLMSource (e_Meta e) with
      | None => (inl NilMapPanic, w)
      | Some meta =>
          let '(err, st) := update_meta (e_ID e) meta (w_store w) in
          (inr tt, count (plus_stats 0 1 0 0 (match err with Some _ => 1 | None => 0 end)) (on_store st w))
      end
  end.

Definition contract_step (idx : contractIndex) (s : contractPass) (e : Edge) : R contractPass := λ w,
  if negb (String.eqb (e_DstID e) "") && bool_decide (e_DstID e ∈ ci_unitIDs idx)
  then (inr s, count (plus_stats 0 0 1 0 0) w)
  else
    let '(ds, choice) := choose idx (cp_ds s) e in
    match choice with
    | None =>
        if String.eqb (e_DstID e) "" then (inr {| cp_ds := ds; cp_link := cp_link s; cp_clear := cp_clear s |}, w)
        else
          let '(rw, w) := add {| er_EdgeID := e_ID e; er_DstID := ""; er_DstRepoID := "";
                                 er_Confidence := e_Confidence e |} (cp_clear s) w in
          (inr {| cp_ds := ds; cp_link := cp_link s; cp_clear := rw |}, w)
    | Some (dst, conf, llm) =>
        if String.eqb (e_DstID e) (u_ID dst) && String.eqb (e_DstRepoID e) (u_RepoID dst)
        then (inr {| cp_ds := ds; cp_link := cp_link s; cp_clear := cp_clear s |}, w)
        else
          let conf := confidenceAfterResolve e conf in
          if llm : bool then
            match write_llm e dst conf w with
            | (inl err, w) => (inl err, w)
            | (inr _, w) => (inr {| cp_ds := ds; cp_link := cp_link s; cp_clear := cp_clear s |}, w)
            end
          else
            let '(rw, w) := add {| er_EdgeID := e_ID e; er_DstID := u_ID dst; er_DstRepoID := u_RepoID dst;
                                   er_Confidence := conf |} (cp_link s) w in
            (inr {| cp_ds := ds; cp_link := rw; cp_clear := cp_clear s |}, w)
    end.

Fixpoint contract_loop (idx : contractIndex) (s : contractPass) (edges : list Edge) : R contractPass :=
  match edges with
  | [] => mret s
  | e :: edges => s ← contract_step idx s e; contract_loop idx s edges
  end.

Definition contract_kinds : list string :=
  [EdgeRPCCall; EdgeImplementsRPC; EdgeHTTPCall; EdgeWritesTo; EdgeReadsFrom].

(** What [resolveContracts] reads. *)
Definition contract_inputs : R (list ASTUnit * list ASTUnit * list ASTUnit * list Edge) :=
  rpcUnits ← reading "resolve contract edges" (read_units (link_query "" "" [KindRPCMethod]));
  routeUnits ← reading "resolve contract edges" (read_units (link_query "" "" [KindHTTPRoute]));
  tableUnits ← reading "resolve contract edges" (read_units (link_query "" "" [KindDBTable]));
  edges ← reading "resolve contract edges" (read_edges (link_query "" "" contract_kinds));
  mret (rpcUnits, routeUnits, tableUnits, edges).

(** [resolveContracts] *)
Definition resolveContracts : R unit :=
  '(rpcUnits, routeUnits, tableUnits, edges) ← contract_inputs;
  s ← contract_loop (newContractIndex rpcUnits routeUnits tableUnits)
        {| cp_ds := newDisambigRun; cp_link := newResolutionWriter; cp_clear := newResolutionWriter |} edges;
  step (λ w,
    let '(link, w) := flush (cp_link s) w in
    let '(_, w) := flush (cp_clear s) w in
    (inr tt, count (plus_stats 0 (w_applied link) 0 0 0) w)).

(** ** Kafka flows *)

(** The topics of a repository's edges, among [edges]. *)
Definition topics_of (repoID : string) (edges : list Edge) : gset string :=
  list_to_set (map e_DstName (filter (λ e, e_RepoID e = repoID) edges)).
Definition flow_topics (repoID : string) (flows : list Edge) : gset string :=
  list_to_set (map e_DstName (filter (λ f, e_RepoID f = repoID ∨ e_DstRepoID f = repoID) flows)).

Fixpoint delete_topics (topics : list string) : R unit :=
  match topics with
  | [] => mret tt
  | t :: topics =>
      _ ← deleting "derive kafka flows" (delete_by_kind_dst EdgeKafkaFlow t);
      delete_topics topics
  end.

(** The flow from a producer to a consumer. *)
Definition kafka_flow (p c : Edge) : Edge := {|
  e_ID := ""; e_RepoID := e_RepoID p; e_SrcID := e_SrcID p; e_DstID := e_SrcID c; e_Kind := EdgeKafkaFlow;
  e_DstName := e_DstName p; e_FilePath := e_FilePath p; e_Line := e_Line p; e_DstRepoID := e_RepoID c;
  e_Confidence := f32_mul (if flt (e_Confidence c) (e_Confidence p) then e_Confidence c else e_Confidence p) ConfExact;
  e_Meta := e_Meta p |}.

Definition consumers_by_topic (consumes : list Edge) : gmap string (list Edge) :=
  foldl (λ m c, push (e_DstName c) c m) ∅ consumes.

(** The flows the nested loops store, in their order; [None] is every topic. *)
Definition is_affected (affected : option (gset string)) (topic : string) : bool :=
  match affected with Some a => bool_decide (topic ∈ a) | None => true end.
Definition derived_flows (affected : option (gset string)) (produces consumes : list Edge) : list Edge :=
  filter (λ p, is_affected affected (e_DstName p) = true) produces ≫= λ p,
    map (kafka_flow p) (bucket (consumers_by_topic consumes) (e_DstName p)).

Fixpoint store_flows (flows : list Edge) (w : world) : world :=
  match flows with
  | [] => w
  | f :: flows =>
      let '(e, st) := store_edge f (w_store w) in
      store_flows flows
        (count (match e with Some _ => plus_stats 0 0 0 0 1 | None => plus_stats 0 0 0 1 0 end) (on_store st w))
  end.

(** [deriveKafkaFlows] *)
Definition deriveKafkaFlows (repoID : string) (rewritten : gset string) : R unit :=
  produces ← reading "derive kafka flows" (read_edges (link_query "" EdgeProduces []));
  consumes ← reading "derive kafka flows" (read_edges (link_query "" EdgeConsumes []));
  if String.eqb repoID "" then
    _ ← deleting "derive kafka flows" (delete_by_kind "" EdgeKafkaFlow);
    step (λ w, (inr tt, store_flows (derived_flows None produces consumes) w))
  else
    flows ← reading "derive kafka flows" (read_edges (link_query "" EdgeKafkaFlow []));
    let affected := rewritten ∪ topics_of repoID produces ∪ topics_of repoID consumes ∪ flow_topics repoID flows in
    if bool_decide (affected = ∅) then mret tt
    else
      _ ← delete_topics (range_keys affected);
      step (λ w, (inr tt, store_flows (derived_flows (Some affected) produces consumes) w)).

(** ** The run *)

(** [RunWithStats]; the counters are in the world it leaves *)
Definition RunWithStats (repoID : string) : R unit :=
  _ ← resolveLocal repoID;
  rewritten ← resolveConfigRefs;
  _ ← resolveContracts;
  deriveKafkaFlows repoID rewritten.

(** [Run] *)
Definition Run (repoID : string) (st : St) : (LinkError + unit) * St :=
  let '(r, w) := RunWithStats repoID {| w_store := st; w_stats := no_stats |} in (r, w_store w).

End Linker.
