(* ===== verification/LinkerFacts.v ===== *)
(** * What a link pass does to the edges

    The writers buffer, batch, retry and count; what they leave behind is, edge by
    edge, the resolution that was asked for or the edge as it was, with an error
    counted.  Contract edges end up resolved to the candidate the matching
    functions name, at the confidence recorded by the parser times the factor of
    the match; and a second run has nothing left to do. *)

From S2P Require Import Prelude GoStrings GoStrconv GoSort GoFloat Domain Store StoreQuery Contract Match MatchRoutes.
From S2P Require Import LinkStore SqlDriver SqlEdges SqlUnits Linker.

(** ** Resolutions applied to a list of edges *)

Definition resolve_edge (rs : list EdgeResolution) (e : Edge) : Edge := foldl (λ e r, resolve r e) e rs.

Lemma resolve_id r e : e_ID (resolve r e) = e_ID e.
Proof. unfold resolve. by case_if. Qed.

Lemma resolve_edge_id rs e : e_ID (resolve_edge rs e) = e_ID e.
Proof. revert e. induction rs as [|r rs IH]; intros e; [done |]. simpl. by rewrite IH, resolve_id. Qed.

Lemma resolve_all_map rs es : resolve_all rs es = map (resolve_edge rs) es.
Proof.
  unfold resolve_all. revert es. induction rs as [|r rs IH]; intros es; simpl; [by rewrite map_id |].
  by rewrite IH, map_map.
Qed.

Lemma resolve_edge_other rs e : e_ID e ∉ map er_EdgeID rs → resolve_edge rs e = e.
Proof.
  revert e. induction rs as [|r rs IH]; intros e He; [done |]. simpl in He |- *.
  apply not_elem_of_cons in He as [Hr He]. unfold resolve at 1.
  rewrite (proj2 (String.eqb_neq _ _)) by done. by apply IH.
Qed.

Definition resolution_of (r : EdgeResolution) (e : Edge) : Edge :=
  with_dst (er_DstID r) (er_DstRepoID r) (er_Confidence r) e.

Lemma resolve_edge_at rs r e :
  NoDup (map er_EdgeID rs) → r ∈ rs → er_EdgeID r = e_ID e → resolve_edge rs e = resolution_of r e.
Proof.
  revert e. induction rs as [|r' rs IH]; intros e Hnd Hin Hid; [by apply elem_of_nil in Hin |].
  simpl in Hnd. apply NoDup_cons in Hnd as [Hr' Hnd]. apply elem_of_cons in Hin as [->|Hin]; simpl.
  - unfold resolve at 1. rewrite Hid, String.eqb_refl. apply resolve_edge_other. simpl. by rewrite <- Hid.
  - unfold resolve at 1. rewrite (proj2 (String.eqb_neq _ _)); [by apply IH |].
    intros E. apply Hr'. rewrite <- E, <- Hid. by apply list_elem_of_fmap_2.
Qed.

(** ** A batch, and what it lost *)

Lemma sublist_distinct {A B} (f : A → B) (l l' : list A) : sublist l l' → NoDup (map f l') → NoDup (map f l).
Proof.
  induction 1 as [|x l l' H IH|x l l' H IH]; simpl; [done | |].
  - intros [Hx Hnd]%NoDup_cons. constructor; [|by apply IH].
    intros (y & E & Hy)%list_elem_of_fmap. apply Hx. rewrite E. apply list_elem_of_fmap_2.
    by eapply elem_of_sublist.
  - intros [_ Hnd]%NoDup_cons. by apply IH.
Qed.

Lemma sublist_whole {A} (l l' : list A) : sublist l l' → length l = length l' → l = l'.
Proof.
  induction 1 as [|x l l' H IH|x l l' H IH]; simpl; intros E; [done | f_equal; apply IH; lia |].
  apply sublist_length in H. lia.
Qed.

Lemma batch_outcome_wrote i rs fs wr :
  batch_outcome i rs fs wr → sublist wr rs ∧ length fs + length wr = length rs.
Proof.
  induction 1 as [|i r rs fs wr H [IH1 IH2]|i r err rs fs wr H [IH1 IH2]]; simpl.
  - by split.
  - split; [by constructor | lia].
  - split; [by constructor | lia].
Qed.

Section Facts.
  Context {St} {L : LinkStore St} {ok : St → Prop} {edges_of : St → list Edge} {units_of : St → list ASTUnit}.
  Context `{!LinkStoreLaws L ok edges_of units_of}.

Abbreviation kept := (stays ok edges_of units_of).

Lemma kept_same st : ok st → kept st st (edges_of st).
Proof. by split. Qed.

Lemma kept_trans st st' st'' es es' : kept st st' es → kept st' st'' es' → kept st st'' es'.
Proof. intros [H1 H2 H3] [H4 H5 H6]. split; [done | congruence | done]. Qed.

Lemma write_rows_ok i rs st fs st' :
  ok st → Forall valid_resolution rs → write_rows i rs st = (fs, st') →
  ∃ wr, batch_outcome i rs fs wr ∧ kept st st' (resolve_all wr (edges_of st)).
Proof.
  intros Hok Hv. revert i st fs st' Hok. induction Hv as [|r rs Hr Hrs IH]; intros i st fs st' Hok; simpl.
  { intros [= <- <-]. exists []. split; [constructor | by apply kept_same]. }
  destruct (update_resolution r st) as [e st1] eqn:E1. apply update_resolution_ok in E1 as K1; [|done | done].
  destruct (write_rows _ rs st1) as [fs1 st2] eqn:E2. apply IH in E2 as (wr & Hout & K2); [|apply K1].
  rewrite (stays_edges _ _ _ _ _ _ K1) in K2. pose proof (kept_trans _ _ _ _ _ K1 K2) as K3.
  intros [= <- <-]. destruct e as [err|].
  - exists wr. by split; [constructor |].
  - exists (r :: wr). by split; [constructor |].
Qed.

(** A buffer written: some of it is applied, and all of it if no failure is
    reported. *)
Lemma write_ok rs st fs err st' :
  ok st → Forall valid_resolution rs → NoDup (map er_EdgeID rs) → write rs st = ((fs, err), st') →
  ∃ wr, sublist wr rs ∧ kept st st' (resolve_all wr (edges_of st)) ∧ length fs + length wr ≤ length rs ∧
    (err = None → length fs + length wr = length rs).
Proof.
  intros Hok Hv Hnd. unfold write. destruct batch_resolutions as [f|] eqn:Ef.
  - intros H. destruct (batch_resolutions_ok f st rs fs err st' Ef Hok Hv Hnd H)
      as (part & rest & wr & -> & Hrest & Hout & K).
    apply batch_outcome_wrote in Hout as [Hsub Hlen]. exists wr. rewrite length_app.
    split_and!; [by apply sublist_inserts_r | done | lia |]. intros He. rewrite (Hrest He). simpl. lia.
  - destruct (write_rows 0 rs st) as [fs1 st1] eqn:E. intros [= <- <- <-].
    apply write_rows_ok in E as (wr & Hout & K); [|done | done].
    apply batch_outcome_wrote in Hout as [Hsub Hlen]. exists wr. split_and!; [done | done | lia | done].
Qed.

(** [stats_le s s']: only counters of [s'] have grown. *)
Lemma flush_ok rw w rw' w' :
  ok (w_store w) → Forall valid_resolution (w_buf rw) → NoDup (map er_EdgeID (w_buf rw)) →
  flush rw w = (rw', w') →
  w_buf rw' = [] ∧ ∃ wr, sublist wr (w_buf rw) ∧
    kept (w_store w) (w_store w') (resolve_all wr (edges_of (w_store w))) ∧
    (Errors (w_stats w) ≤ Errors (w_stats w'))%Z ∧
    (Errors (w_stats w') = Errors (w_stats w) → wr = w_buf rw).
Proof.
  intros Hok Hv Hnd. unfold flush. destruct (Nat.eqb_spec (length (w_buf rw)) 0) as [E|E].
  - intros [= <- <-]. apply length_zero_iff_nil in E. split; [done |]. exists [].
    split_and!; [by rewrite E | by apply kept_same | done | done].
  - destruct (write _ _) as [[fs err] st] eqn:Ew.
    destruct (write_ok _ _ _ _ _ Hok Hv Hnd Ew) as (wr & Hsub & K & Hle & Hlen). intros [= <- <-]. split; [done |].
    exists wr. cbn [w_store w_stats count on_store plus_stats Errors].
    split_and!; [done | done | destruct err; lia |].
    intros Herr. apply sublist_length in Hsub as Hl. destruct err as [err|]; [lia |].
    assert (length wr = length (w_buf rw)) as El by (specialize (Hlen eq_refl); lia).
    by apply sublist_whole.
Qed.

(** ** A pass over the edges

    [target e x]: the pass means to leave [x] where [e] was.  [partial e x]: what a
    failed write may leave instead.  The edges gone through are [seen], and
    [queued] is what the writers hold. *)

Section Pass.
  Context (w0 : world (St := St)) (target partial : Edge → Edge → Prop) (partial_refl : ∀ e, partial e e).

Definition edges0 : list Edge := edges_of (w_store w0).

Definition more_errors (w : world (St := St)) : Prop := (Errors (w_stats w0) < Errors (w_stats w))%Z.

(** The state of an edge: [e] before the pass, [x] now. *)
Definition edge_state (seen : list Edge) (queued : list EdgeResolution) (w : world) (e x : Edge) : Prop :=
  e_ID x = e_ID e ∧
  (e ∉ seen → x = e) ∧
  (e ∈ seen → target e x ∨ (x = e ∧ ∃ r, r ∈ queued ∧ er_EdgeID r = e_ID e) ∨ (partial e x ∧ more_errors w)).

(** A queued resolution is for an edge gone through, still as it was. *)
Definition queued_for (seen : list Edge) (w : world) (r : EdgeResolution) : Prop :=
  valid_resolution r ∧
  ∃ e, e ∈ seen ∧ e ∈ edges0 ∧ e ∈ edges_of (w_store w) ∧ e_ID e = er_EdgeID r ∧ target e (resolution_of r e).

Record pass_inv (seen : list Edge) (queued : list EdgeResolution) (w : world) : Prop := {
  pi_ok0 : ok (w_store w0);
  pi_ok : ok (w_store w);
  pi_units : units_of (w_store w) = units_of (w_store w0);
  pi_errors : (Errors (w_stats w0) ≤ Errors (w_stats w))%Z;
  pi_edges : Forall2 (edge_state seen queued w) edges0 (edges_of (w_store w));
  pi_distinct : NoDup (map er_EdgeID queued);
  pi_queued : Forall (queued_for seen w) queued
}.

Lemma pass_start w :
  ok (w_store w0) → kept (w_store w0) (w_store w) edges0 → w_stats w = w_stats w0 → pass_inv [] [] w.
Proof.
  intros Hok [H1 H2 H3] Hs. split; try done.
  - by rewrite Hs.
  - rewrite H3. clear. unfold edges0. induction (edges_of (w_store w0)) as [|e es IH]; constructor; [|done].
    split_and!; [done | done |]. intros H. by apply elem_of_nil in H.
  - constructor.
Qed.

(** Writing out a part [b1] of what is queued. *)
Lemma pass_write seen b1 b2 w w' wr :
  pass_inv seen (b1 ++ b2) w → sublist wr b1 →
  kept (w_store w) (w_store w') (resolve_all wr (edges_of (w_store w))) →
  (Errors (w_stats w) ≤ Errors (w_stats w'))%Z → (Errors (w_stats w') = Errors (w_stats w) → wr = b1) →
  pass_inv seen b2 w'.
Proof.
  intros [Hok0 Hok Hu He Hes Hnd Hq] Hsub [K1 K2 K3] Herr Hall.
  rewrite map_app in Hnd. apply NoDup_app in Hnd as (Hnd1 & Hdisj & Hnd2).
  apply Forall_app in Hq as [Hq1 Hq2]. rewrite Forall_forall in Hq1.
  assert (∀ r, r ∈ wr → r ∈ b1) as Hin by (intros r Hr; by eapply elem_of_sublist).
  assert (NoDup (map er_EdgeID wr)) as Hndw by (by eapply sublist_distinct).
  assert (NoDup (map e_ID edges0)) as Hnd0 by (by apply edge_ids).
  rewrite resolve_all_map in K3.
  (** an edge one of the written resolutions names *)
  assert (∀ e x, e ∈ edges0 → edge_state seen (b1 ++ b2) w e x → x ∈ edges_of (w_store w) →
            e_ID e ∈ map er_EdgeID wr → target e (resolve_edge wr x) ∧ e ∈ seen) as Hhit.
  { intros e x Hine (Hid & _ & _) Hx (r & Er & Hr)%list_elem_of_fmap.
    destruct (Hq1 r (Hin r Hr)) as (_ & e' & Hs' & H0' & Hc' & E' & Ht).
    assert (e' = e) as -> by (apply (NoDup_map_inj e_ID edges0); congruence).
    assert (x = e) as -> by (apply (NoDup_map_inj e_ID (edges_of (w_store w))); [by apply edge_ids | done | done | done]).
    split; [|done]. by rewrite (resolve_edge_at wr r). }
  split; try done; [congruence | lia | |].
  - rewrite K3. apply Forall2_fmap_r. rewrite Forall2_lookup in Hes |- *. intros i.
    specialize (Hes i). inversion Hes as [e x Hst E1 E2|E1 E2]; constructor.
    assert (e ∈ edges0) as Hine by (eapply list_elem_of_lookup_2; eauto).
    assert (x ∈ edges_of (w_store w)) as Hinx by (eapply list_elem_of_lookup_2; eauto).
    pose proof Hst as (Hid & Hns & Hs). split; [by rewrite resolve_edge_id |].
    destruct (decide (e_ID e ∈ map er_EdgeID wr)) as [Hh|Hh].
    { destruct (Hhit e x Hine Hst Hinx Hh) as [Ht Hse]. split; [done | by left]. }
    rewrite resolve_edge_other by (by rewrite Hid). split; [done |]. intros Hse.
    destruct (Hs Hse) as [Ht|[(-> & r & Hr & Er)|[Hp Hm]]]; [by left | | right; right; split; [done | unfold more_errors in *; lia]].
    apply elem_of_app in Hr as [Hr|Hr]; [|right; left; eauto].
    right. right. split; [done |]. unfold more_errors.
    assert (Errors (w_stats w') ≠ Errors (w_stats w)) as Hne; [|lia].
    intros E. apply Hh. rewrite (Hall E), <- Er. by apply list_elem_of_fmap_2.
  - apply Forall_forall. intros r Hr. rewrite Forall_forall in Hq2.
    destruct (Hq2 r Hr) as (Hv & e & H1 & H2 & H3 & H4 & H5). split; [done |]. exists e. split_and!; try done.
    rewrite K3. apply list_elem_of_fmap. exists e. split; [|done]. symmetry. apply resolve_edge_other. rewrite H4.
    intros (r' & E & Hr')%list_elem_of_fmap. apply (Hdisj (er_EdgeID r)); [rewrite E|];
      apply list_elem_of_fmap_2; auto.
Qed.

Lemma pass_flush seen rw b2 w rw' w' :
  pass_inv seen (w_buf rw ++ b2) w → flush rw w = (rw', w') → w_buf rw' = [] ∧ pass_inv seen b2 w'.
Proof.
  intros Hi Hf. pose proof (pi_distinct _ _ _ Hi) as Hnd. rewrite map_app in Hnd. apply NoDup_app in Hnd as (Hnd & _ & _).
  pose proof (pi_queued _ _ _ Hi) as Hq. apply Forall_app in Hq as [Hq _].
  apply flush_ok in Hf as (Hb & wr & Hsub & K & He & Hall); [|by destruct Hi | | done].
  - split; [done |]. by eapply pass_write.
  - eapply Forall_impl; [exact Hq |]. by intros r [Hv _].
Qed.

(** The queue is a set. *)
Lemma pass_perm seen q q' w : q ≡ₚ q' → pass_inv seen q w → pass_inv seen q' w.
Proof.
  intros HP [H1 H2 H3 H4 H5 H6 H7]. split; try done.
  - eapply Forall2_impl; [exact H5 |]. intros e x (A & B & C). split_and!; [done | done |]. intros Hs.
    destruct (C Hs) as [?|[(? & r & Hr & ?)|?]]; [by left | | by right; right].
    right. left. split; [done |]. exists r. by rewrite <- HP.
  - eapply (NoDup_Permutation_proper _ (map er_EdgeID q)); [|done]. by rewrite HP.
  - by rewrite <- HP.
Qed.

(** One edge gone through: left as it is, or queued. *)
Lemma pass_skip seen q w w' e :
  pass_inv seen q w → target e e → e ∈ edges0 → e ∉ seen → w_store w' = w_store w →
  (Errors (w_stats w) ≤ Errors (w_stats w'))%Z → pass_inv (e :: seen) q w'.
Proof.
  intros [H1 H2 H3 H4 H5 H6 H7] Ht Hin Hns Hst Herr. split; rewrite ?Hst; try done; [lia | |].
  - rewrite Forall2_lookup in H5 |- *. intros i. specialize (H5 i). inversion H5 as [a x Hs E1 E2|E1 E2]; constructor.
    destruct Hs as (A & B & C). split; [done |]. rewrite elem_of_cons. split.
    + intros H. apply B. intros H'. apply H. by right.
    + intros [->|Ha]; [left; by rewrite (B Hns) |].
      destruct (C Ha) as [?|[?|[? ?]]]; [by left | by right; left | right; right; split; [done | unfold more_errors in *; lia]].
  - eapply Forall_impl; [exact H7 |]. intros r (Hv & a & A & B). split; [done |]. exists a.
    rewrite Hst. split; [by right | done].
Qed.

Lemma pass_queue seen q w e r :
  pass_inv seen q w → e ∈ edges0 → e ∉ seen → valid_resolution r → er_EdgeID r = e_ID e →
  target e (resolution_of r e) → pass_inv (e :: seen) (q ++ [r]) w.
Proof.
  intros [H1 H2 H3 H4 H5 H6 H7] Hin Hns Hv Hid Ht. split; try done.
  - rewrite Forall2_lookup in H5 |- *. intros i. specialize (H5 i). inversion H5 as [a x Hs E1 E2|E1 E2]; constructor.
    destruct Hs as (A & B & C). split; [done |]. rewrite elem_of_cons. split.
    + intros H. apply B. intros H'. apply H. by right.
    + intros [->|Ha]; [right; left; split; [by apply B | exists r; split; [set_solver | done]] |].
      destruct (C Ha) as [?|[(? & r' & ? & ?)|?]]; [by left | | by right; right].
      right. left. split; [done |]. exists r'. set_solver.
  - rewrite map_app. apply NoDup_app. split_and!; [done | | apply NoDup_singleton].
    intros id (r' & -> & Hr')%list_elem_of_fmap Hid'%list_elem_of_singleton.
    rewrite Forall_forall in H7. destruct (H7 r' Hr') as (_ & a & A & B & _ & E & _). apply Hns.
    assert (a = e) as <-; [|done]. apply (NoDup_map_inj e_ID edges0); [by apply edge_ids | done | done | congruence].
  - apply Forall_app. split.
    + eapply Forall_impl; [exact H7 |]. intros r' (Hv' & a & A & B). split; [done |]. exists a. split; [by right | done].
    + apply Forall_singleton. split; [done |]. exists e. split_and!; [by left | done | | done | done].
      apply list_elem_of_lookup in Hin as (i & Hi). rewrite Forall2_lookup in H5. specialize (H5 i).
      rewrite Hi in H5. inversion H5 as [a x Hs E1 E2|]; subst. destruct Hs as (_ & B & _).
      rewrite (B Hns) in E2. eapply list_elem_of_lookup_2; eauto.
Qed.

(** A resolution handed to a writer, whether that flushes it or not. *)
Lemma pass_add seen rw b2 w e r rw' w' :
  pass_inv seen (w_buf rw ++ b2) w → e ∈ edges0 → e ∉ seen → valid_resolution r → er_EdgeID r = e_ID e →
  target e (resolution_of r e) → add r rw w = (rw', w') → pass_inv (e :: seen) (w_buf rw' ++ b2) w'.
Proof.
  intros Hi Hin Hns Hv Hid Ht. pose proof (pass_queue _ _ _ _ _ Hi Hin Hns Hv Hid Ht) as Hq.
  apply (pass_perm _ _ ((w_buf rw ++ [r]) ++ b2)) in Hq; [|by rewrite <- !app_assoc, (Permutation_app_comm [r])].
  unfold add. case_if; [|by intros [= <- <-]]. intros Hf.
  by destruct (pass_flush (e :: seen) {| w_buf := w_buf rw ++ [r]; w_applied := w_applied rw |} b2 w rw' w' Hq Hf) as [-> Hi'].
Qed.

(** Counters other than the errors do not matter. *)
Lemma pass_count seen q w n m k l :
  pass_inv seen q w → pass_inv seen q (count (plus_stats n m k l 0) w).
Proof.
  intros [A B C D E F G]. split; simpl; try (done || lia).
  eapply Forall2_impl; [exact E |]. intros e x (H1 & H2 & H3). split_and!; [done | done |]. intros Hs.
  destruct (H3 Hs) as [?|[?|[? ?]]]; [by left | by right; left | right; right; split; [done |]].
  unfold more_errors in *. simpl. lia.
Qed.

(** An edge written on its own, past the writers. *)
Lemma pass_direct seen q w w' e h :
  pass_inv seen q w → e ∈ edges0 → e ∉ seen → (∀ x, e_ID (h x) = e_ID x) →
  kept (w_store w) (w_store w')
    (map (λ x, if String.eqb (e_ID x) (e_ID e) then h x else x) (edges_of (w_store w))) →
  (Errors (w_stats w) ≤ Errors (w_stats w'))%Z → target e (h e) ∨ (partial e (h e) ∧ more_errors w') →
  pass_inv (e :: seen) q w'.
Proof.
  intros [H1 H2 H3 H4 H5 H6 H7] Hin Hns Hh [K1 K2 K3] Herr Ht.
  assert (NoDup (map e_ID edges0)) as Hnd0 by (by apply edge_ids).
  split; try done; [congruence | lia | |].
  - rewrite K3. apply Forall2_fmap_r. rewrite Forall2_lookup in H5 |- *. intros i. specialize (H5 i).
    inversion H5 as [a x Hs E1 E2|E1 E2]; constructor. destruct Hs as (A & B & C).
    assert (a ∈ edges0) as Ha by (eapply list_elem_of_lookup_2; eauto).
    unfold edge_state, compose. cbv beta. rewrite A.
    destruct (String.eqb_spec (e_ID a) (e_ID e)) as [E|E].
    + assert (a = e) as -> by (by apply (NoDup_map_inj e_ID edges0)). rewrite (B Hns). split; [by rewrite Hh |].
      split; [intros []; by left |]. intros _. destruct Ht; [by left | by right; right].
    + split; [done |]. split; [intros H; apply B; intros H'; apply H; by right |].
      intros [->|Hs]%elem_of_cons; [done |].
      destruct (C Hs) as [?|[?|[? ?]]]; [by left | by right; left | right; right; split; [done | unfold more_errors in *; lia]].
  - apply Forall_forall. intros r Hr. rewrite Forall_forall in H7. destruct (H7 r Hr) as (Hv & a & A & B & C & D & F).
    split; [done |]. exists a. split_and!; [by right | done | | done | done].
    rewrite K3. apply list_elem_of_fmap. exists a. split; [|done].
    rewrite (proj2 (String.eqb_neq _ _)); [done |]. intros E. apply Hns.
    by rewrite <- (NoDup_map_inj e_ID edges0 a e Hnd0 B Hin E).
Qed.

(** Nothing left in the writers: each edge gone through is as it should be, or a
    failed write was counted. *)
Lemma pass_end seen w :
  pass_inv seen [] w →
  Forall2 (λ e x, (e ∉ seen → x = e) ∧ (e ∈ seen → target e x ∨ (partial e x ∧ more_errors w))) edges0 (edges_of (w_store w)).
Proof.
  intros Hi. eapply Forall2_impl; [apply (pi_edges _ _ _ Hi) |]. intros e x (_ & A & B). split; [done |].
  intros Hs. destruct (B Hs) as [?|[(_ & r & Hr & _)|?]]; [by left | by apply elem_of_nil in Hr | by right].
Qed.

End Pass.

End Facts.

(** ** On the sample *)

Definition sample_world : world (St := conn db) := {| w_store := sample; w_stats := no_stats |}.

(** A pass that went through, as the theorems take it. *)
Lemma went_through {E A} (p : (E + unit) * A) : fst p = inr tt → p = (inr tt, snd p).
Proof. by destruct p as [r x]; intros [= ->]. Qed.
