(* ===== verification/SqlBatch.v ===== *)
(** * Batches of resolutions ([BatchUpdateEdgeResolutions])

    A thousand rows to a transaction, and a transaction that fails is retried row
    by row: whatever the database refuses along the way, what the method reports
    is what happened. *)

From S2P Require Import Prelude GoStrings GoStrconv GoFloat Domain Store Contract LinkStore SqlDriver SqlEdges.
From S2P Require Import SqlEdgesFacts SqlUnits LinkerFacts.

(** The failures of an outcome are rows that were not written, by their index. *)
Lemma batch_outcome_failed i rs fs wr f :
  batch_outcome i rs fs wr → f ∈ fs →
  ∃ k r, rf_Index f = i + k ∧ rs !! k = Some r ∧ rf_EdgeID f = er_EdgeID r.
Proof.
  induction 1 as [|i r rs fs wr H IH|i r err rs fs wr H IH]; intros Hf; [by apply elem_of_nil in Hf | |].
  - destruct (IH Hf) as (k & r' & E & Hk & Hid). exists (Datatypes.S k), r'. split_and!; [lia | done | done].
  - apply elem_of_cons in Hf as [->|Hf]; [exists 0, r; split_and!; [simpl; lia | done | done] |].
    destruct (IH Hf) as (k & r' & E & Hk & Hid). exists (Datatypes.S k), r'. split_and!; [lia | done | done].
Qed.

(** A row of the part gone through was written, or is among the failures: one of
    the two. *)
Lemma batch_outcome_row i rs fs wr r :
  batch_outcome i rs fs wr → NoDup (map er_EdgeID rs) → r ∈ rs →
  r ∈ wr ↔ er_EdgeID r ∉ map rf_EdgeID fs.
Proof.
  intros H. induction H as [|i r' rs fs wr H IH|i r' err rs fs wr H IH]; intros Hnd Hr; [by apply elem_of_nil in Hr | |];
    simpl in Hnd; apply NoDup_cons in Hnd as [Hr' Hnd]; apply elem_of_cons in Hr as [->|Hr].
  - split; [intros _ | intros _; by left]. intros (f & E & Hf)%list_elem_of_fmap.
    destruct (batch_outcome_failed _ _ _ _ _ H Hf) as (k & r & _ & Hk & Hid). apply Hr'. rewrite E, Hid.
    apply list_elem_of_fmap_2. by eapply list_elem_of_lookup_2.
  - rewrite elem_of_cons, <- IH by done. split; [|by right]. intros [->|?]; [|done].
    exfalso. by apply Hr', list_elem_of_fmap_2.
  - split; [|intros Hn; exfalso; apply Hn; by left]. intros Hw. exfalso. apply Hr'.
    apply list_elem_of_fmap_2. apply batch_outcome_wrote in H as [Hs _]. by eapply elem_of_sublist.
  - simpl. rewrite not_elem_of_cons, <- IH by done. split; [|tauto]. intros Hw. split; [|done].
    intros E. apply Hr'. rewrite <- E. by apply list_elem_of_fmap_2.
Qed.

(** What a batch leaves of an edge: resolved by its row, if the row was written. *)
Definition batch_row (rs : list EdgeResolution) (fs : list EdgeResolutionFailure) (e : Edge) : Edge :=
  match List.find (λ r, String.eqb (e_ID e) (er_EdgeID r)) rs with
  | Some r => if bool_decide (e_ID e ∈ map rf_EdgeID fs) then e else with_dst (er_DstID r) (er_DstRepoID r) (er_Confidence r) e
  | None => e
  end.

Lemma batch_outcome_edge i rs fs wr e :
  batch_outcome i rs fs wr → NoDup (map er_EdgeID rs) → resolve_edge wr e = batch_row rs fs e.
Proof.
  intros H Hnd. pose proof (batch_outcome_wrote _ _ _ _ H) as [Hsub _].
  assert (NoDup (map er_EdgeID wr)) as Hw by (by eapply sublist_distinct).
  unfold batch_row. destruct (List.find _ rs) as [r|] eqn:Ef.
  - apply List.find_some in Ef as [Hr E]. apply list_elem_of_In in Hr. apply String.eqb_eq in E.
    pose proof (batch_outcome_row _ _ _ _ r H Hnd Hr) as Hiff. rewrite E.
    case_bool_decide as Hf.
    + apply resolve_edge_other. rewrite E. intros (r' & E' & Hr')%list_elem_of_fmap.
      assert (r = r') as <- by (apply (NoDup_map_inj er_EdgeID rs); [done | done | by eapply elem_of_sublist | congruence]).
      tauto.
    + apply resolve_edge_at; [done | by apply Hiff | done].
  - apply resolve_edge_other. intros (r & E & Hr)%list_elem_of_fmap.
    assert (r ∈ rs) as Hin by (by eapply elem_of_sublist). apply list_elem_of_In in Hin.
    pose proof (List.find_none _ _ Ef r Hin) as Hn. simpl in Hn. by rewrite E, String.eqb_refl in Hn.
Qed.

(** What [BatchUpdateEdgeResolutions] reports is what happened, whatever calls
    fail and whenever the context is cancelled.  Of the rows it went through —
    all of them, unless it reports an error — an edge is resolved by its row
    unless the failures name it, and then it is as it was; every failure names a
    row by its place in the batch, across chunks and retries; the rows after a
    cancellation, and every edge no row names, are untouched. *)
Theorem BatchUpdateEdgeResolutions_rows fault cancelled rs d fs err d' :
  db_ok (tables d) → Forall valid_resolution rs → NoDup (map er_EdgeID rs) →
  BatchUpdateEdgeResolutions fault cancelled rs d = ((fs, err), d') →
  db_ok (tables d') ∧ units_of (tables d') = units_of (tables d) ∧
  ∃ part rest, rs = part ++ rest ∧ (err = None → rest = []) ∧
    edges_of (tables d') = map (batch_row part fs) (edges_of (tables d)) ∧
    Forall (λ f, ∃ r, part !! rf_Index f = Some r ∧ rf_EdgeID f = er_EdgeID r) fs.
Proof.
  intros Hd Hrs Hnd (part & rest & wr & -> & He & Hout & K)%batch_chunks_ok; [|done..].
  rewrite map_app in Hnd. apply NoDup_app in Hnd as (Hnd & _ & _).
  split_and!; [apply K | apply K |]. exists part, rest. split_and!; [done | done | |].
  - rewrite (stays_edges _ _ _ _ _ _ K), resolve_all_map. apply map_ext. intros e. by eapply batch_outcome_edge.
  - apply Forall_forall. intros f Hf. destruct (batch_outcome_failed _ _ _ _ _ Hout Hf) as (k & r & E & Hk & Hid).
    exists r. by rewrite E.
Qed.

(** The transaction fails on its second row; of the two rows the retry loses the
    one whose edge is not there. *)
Lemma BatchUpdateEdgeResolutions_rows_witness :
  let row id dst := {| er_EdgeID := id; er_DstID := dst; er_DstRepoID := "b"; er_Confidence := ConfHigh |} in
  let busy n := if n =? calls sample + 3 then Some (StoreFailure "database is locked") else None in
  let '((fs, err), d') := BatchUpdateEdgeResolutions busy never [row "9" "2"; row "1" "2"] sample in
  map rf_Index fs = [0] ∧ err = None ∧ map e_DstID (edges_of (tables d')) = ["2"; ""; ""; ""; ""] ∧ db_ok (tables d').
Proof.
  intros row busy.
  destruct (BatchUpdateEdgeResolutions busy never [row "9" "2"; row "1" "2"] sample) as [[fs err] d'] eqn:E.
  pose proof E as E'. apply BatchUpdateEdgeResolutions_rows in E as [H _].
  - vm_compute in E'. injection E' as <- <- <-. split_and!; [vm_compute; reflexivity.. | exact H].
  - exact sample_ok.
  - repeat apply Forall_cons_2; try apply Forall_nil_2; split; right; (split; [vm_compute; discriminate | vm_compute; reflexivity]).
  - apply (bool_decide_unpack _). vm_compute. exact I.
Defined.
