(* ===== verification/LinkContracts.v ===== *)
(** * Linking contract edges

    What [resolveContracts] leaves: a valid resolution untouched, a matched edge
    resolved to its first candidate (or to the disambiguator's choice), a dangling
    one cleared — and, on a store that took every write, nothing for a second run
    to do. *)

From S2P Require Import Prelude GoStrings GoStrconv GoSort GoFloat Domain Store StoreQuery Contract Match MatchRoutes.
From S2P Require Import LinkStore Linker LinkerFacts SqlDriver SqlEdges SqlEdgesFacts SqlUnits.

(** ** Candidates are contract units *)

Lemma rpcCandidates_in us key cands conf u :
  rpcCandidates (buildRPCIndex us) key = (cands, conf) → u ∈ cands → u ∈ us.
Proof.
  unfold rpcCandidates. destruct (ParseGRPC key) as [[svc method] []]; [|intros [= <- _] H; by apply elem_of_nil in H].
  rewrite bucket_buildRPCIndex.
  assert (∀ P `{!∀ x : indexedRPC, Decision (P x)}, u ∈ sortUnits (map r_unit (filter P (rpc_of method us))) → u ∈ us) as Ht.
  { intros P ? H. unfold sortUnits in H. rewrite SliceSort_perm in H. by eapply elem_of_map_r_unit. }
  pose proof (Ht (λ _, True) _) as Hall. rewrite filter_true_id in Hall.
  destruct (negb (length (map r_unit (filter (λ c, rpc_exact svc c = true) _)) =? 0)); [intros [= <- _]; apply Ht |].
  destruct (negb (length (map r_unit (filter (λ c, rpc_suffix svc c = true) _)) =? 0)); [intros [= <- _]; apply Ht |].
  destruct (_ =? 0); intros [= <- _]; [intros H; by apply elem_of_nil in H | done].
Qed.

Lemma routeCandidates_in us key srcRepo c : c ∈ routeCandidates (buildRouteIndex us) key srcRepo → s_unit c ∈ us.
Proof.
  rewrite routeCandidates_scan. destruct (ParseHTTP key) as [[method path]|]; [|intros H; by apply elem_of_nil in H].
  rewrite SliceSort_perm, elem_of_scored. by intros (u & rm & rp & Hu & _ & _ & ->).
Qed.

Lemma tableCandidates_in us key srcRepo cands conf u :
  tableCandidates (buildTableIndex us) key srcRepo = (cands, conf) → u ∈ cands → u ∈ us.
Proof.
  rewrite tableCandidates_scan. intros H Hu. assert (cands ≠ []) as Hne by (by intros ->; apply elem_of_nil in Hu).
  destruct (scan_tiers_spec _ _ _ _ _ _ H Hne) as (pre & t & confs & post & same & _ & _ & Hc & _).
  rewrite Hc in Hu. unfold sortUnits in Hu. rewrite SliceSort_perm in Hu.
  apply list_elem_of_filter in Hu as [_ Hu]. unfold table_units in Hu. by apply list_elem_of_filter in Hu as [_ Hu].
Qed.

Section Index.
  Context (rpcUnits routeUnits tableUnits : list ASTUnit).
Let idx := newContractIndex rpcUnits routeUnits tableUnits.
Let units := rpcUnits ++ routeUnits ++ tableUnits.

Lemma edge_candidates_in e cands conf amb u :
  edge_candidates idx e = (cands, conf, amb) → u ∈ cands → u ∈ units.
Proof.
  unfold edge_candidates, units. rewrite !elem_of_app. cbn [idx newContractIndex ci_rpc ci_routes ci_tables].
  case_if; [|case_if; [|case_if]].
  - destruct (rpcCandidates _ _) as [cs cf] eqn:E'. intros [= <- _ _] Hu. left. by eapply rpcCandidates_in.
  - intros [= <- _ _] (c & -> & Hc)%list_elem_of_fmap. right. left. by eapply routeCandidates_in.
  - destruct (tableCandidates _ _ _) as [cs cf] eqn:E'. intros [= <- _ _] Hu. right. right. by eapply tableCandidates_in.
  - intros [= <- _ _] Hu. by apply elem_of_nil in Hu.
Qed.

Lemma elem_of_unitIDs id : id ∈ ci_unitIDs idx ↔ ∃ u, u ∈ units ∧ u_ID u = id.
Proof.
  cbn [idx newContractIndex ci_unitIDs]. rewrite elem_of_list_to_set, list_elem_of_fmap. naive_solver.
Qed.

End Index.

(** ** What the pass makes of an edge *)

Definition valid_link (idx : contractIndex) (e : Edge) : bool :=
  negb (String.eqb (e_DstID e) "") && bool_decide (e_DstID e ∈ ci_unitIDs idx).

Definition linked_to (u : ASTUnit) (conf : f32) (e : Edge) : Edge :=
  with_dst (u_ID u) (u_RepoID u) (confidenceAfterResolve e conf) e.

(** [linked units idx asked e x]: what linking [e] leaves; [asked] says that there
    is a disambiguator. *)
Inductive linked (units : list ASTUnit) (idx : contractIndex) (asked : bool) (e : Edge) : Edge → Prop :=
  | linked_valid : valid_link idx e = true → linked units idx asked e e
  | linked_nowhere conf amb :
      e_DstID e = "" → edge_candidates idx e = ([], conf, amb) → linked units idx asked e e
  | linked_cleared conf amb :
      e_DstID e ≠ "" → valid_link idx e = false → edge_candidates idx e = ([], conf, amb) →
      linked units idx asked e (with_dst "" "" (e_Confidence e) e)
  | linked_first dst rest conf amb :
      valid_link idx e = false → edge_candidates idx e = (dst :: rest, conf, amb) →
      linked units idx asked e (linked_to dst conf e)
  | linked_chosen cands conf pick meta :
      valid_link idx e = false → asked = true → edge_candidates idx e = (cands, conf, true) →
      pick ∈ units → u_ID pick ∈ map u_ID cands → metaWithLLMSource (e_Meta e) = Some meta →
      linked units idx asked e (with_meta meta (linked_to pick ConfHigh e)).

(** What a failed write leaves: the edge as it was, or, of a chosen destination,
    the resolution without its annotation. *)
Inductive half_linked (units : list ASTUnit) (asked : bool) (e : Edge) : Edge → Prop :=
  | half_unchanged : half_linked units asked e e
  | half_chosen pick : asked = true → pick ∈ units → half_linked units asked e (linked_to pick ConfHigh e).

Section Contracts.
  Context {St} {L : LinkStore St} {ok : St → Prop} {edges_of : St → list Edge} {units_of : St → list ASTUnit}.
  Context `{!LinkStoreLaws L ok edges_of units_of}.
  Context (disambig : option (nat → string → Z * bool)).

Abbreviation kept := (stays ok edges_of units_of).
Abbreviation world := (world (St := St)).

Definition asked : bool := match disambig with Some _ => true | None => false end.

(** ** Reads *)

Lemma reading_edges_ok pass repo kind kinds (w w' : world) r :
  ok (w_store w) → reading pass (read_edges (link_query repo kind kinds)) w = (r, w') →
  kept (w_store w) (w_store w') (edges_of (w_store w)) ∧ w_stats w' = w_stats w ∧
  ∀ es, r = inr es →
    es ≡ₚ filter (λ e, edge_matches (link_query repo kind kinds) e = true) (edges_of (w_store w)).
Proof.
  intros Hok. unfold reading. destruct (read_edges _ _) as [res st] eqn:E.
  apply read_edges_ok in E as [K Hes]; [|done]. intros [= <- <-]. split_and!; [done | done |].
  intros es. destruct res; intros [= <-]. by apply Hes.
Qed.

Lemma reading_units_ok pass repo kind kinds (w w' : world) r :
  ok (w_store w) → reading pass (read_units (link_query repo kind kinds)) w = (r, w') →
  kept (w_store w) (w_store w') (edges_of (w_store w)) ∧ w_stats w' = w_stats w ∧
  ∀ us, r = inr us →
    us ≡ₚ filter (λ u, unit_matches (link_query repo kind kinds) u = true) (units_of (w_store w)).
Proof.
  intros Hok. unfold reading. destruct (read_units _ _) as [res st] eqn:E.
  apply read_units_ok in E as [K Hes]; [|done]. intros [= <- <-]. split_and!; [done | done |].
  intros us. destruct res; intros [= <-]. by apply Hes.
Qed.

Lemma reading_error {A} pass (read : St → Fallible A * St) (w w' : world) err :
  reading pass read w = (inl err, w') → ∃ e, err = PassError pass e.
Proof. unfold reading. destruct (read (w_store w)) as [[e|x] st]; intros [= <- <-]. eauto. Qed.

(** ** One edge *)

Section Loop.
  Context (w0 : world) (rpcUnits routeUnits tableUnits : list ASTUnit).
Let idx := newContractIndex rpcUnits routeUnits tableUnits.
Let units := rpcUnits ++ routeUnits ++ tableUnits.
  Context (units_stored : ∀ u, u ∈ units → u ∈ units_of (w_store w0)).

Abbreviation inv := (pass_inv (ok := ok) (edges_of := edges_of) (units_of := units_of) w0
  (linked units idx asked) (half_linked units asked)).
Abbreviation stored := (edges0 (edges_of := edges_of) w0).

Definition cache_ok (ds : disambigRun) : Prop := ∀ name u, ds_cache ds !! name = Some (Some u) → u ∈ units.

Lemma disambiguate_ok ask ds e cands ds' pick :
  cache_ok ds → (∀ u, u ∈ cands → u ∈ units) → disambiguate ask ds e cands = (ds', pick) →
  cache_ok ds' ∧ ∀ u, pick = Some u → u ∈ units ∧ u_ID u ∈ map u_ID cands.
Proof.
  intros Hc Hin. unfold disambiguate. destruct (ds_cache ds !! e_DstName e) as [[u|]|] eqn:E.
  - intros [= <- <-]. split; [done |]. intros v. case_if; [|done]. intros [= <-]. split; [by eapply Hc |].
    apply existsb_exists in E0 as (c & Hc' & Eq%String.eqb_eq). rewrite <- Eq.
    apply list_elem_of_fmap_2. by apply list_elem_of_In.
  - by intros [= <- <-].
  - case_if; [by intros [= <- <-] |]. destruct (ask _ _) as [choice okk].
    set (p := if _ : bool then None else _). intros [= <- <-].
    assert (∀ u, p = Some u → u ∈ cands) as Hp.
    { intros u. unfold p. case_if; [done |]. intros H. by eapply list_elem_of_lookup_2. }
    split.
    + intros name u. simpl. rewrite lookup_insert_Some. intros [[_ H]|[_ H]]; [apply Hin; by apply Hp | by eapply Hc].
    + intros u H. split; [apply Hin; by apply Hp |]. apply list_elem_of_fmap_2. by apply Hp.
Qed.

(** The choice for an edge: its first candidate, or the disambiguator's pick. *)
Lemma choose_ok ds e ds' choice :
  cache_ok ds → choose disambig idx ds e = (ds', choice) →
  cache_ok ds' ∧
  match choice with
  | None => ∃ conf amb, edge_candidates idx e = ([], conf, amb)
  | Some (dst, conf, false) => ∃ rest amb, edge_candidates idx e = (dst :: rest, conf, amb)
  | Some (dst, conf, true) => conf = ConfHigh ∧ asked = true ∧ dst ∈ units ∧
      ∃ cands conf', edge_candidates idx e = (cands, conf', true) ∧ u_ID dst ∈ map u_ID cands
  end.
Proof.
  intros Hc. unfold choose. destruct (edge_candidates idx e) as [[cands conf] amb] eqn:E.
  destruct cands as [|dst rest]; [intros [= <- <-]; eauto |].
  unfold asked. destruct disambig as [ask|]; [|intros [= <- <-]; eauto].
  destruct amb; [|intros [= <- <-]; eauto].
  destruct (disambiguate ask ds e (dst :: rest)) as [ds1 pick] eqn:Ed.
  apply disambiguate_ok in Ed as [Hc1 Hp]; [|done | intros u; by eapply edge_candidates_in].
  destruct pick as [u|]; intros [= <- <-]; (split; [done |]); [|eauto].
  destruct (Hp u eq_refl) as [H1 H2]. split_and!; eauto.
Qed.

Lemma contract_unit_id u :
  ok (w_store w0) → u ∈ units → u_ID u ≠ "" ∧ is_id (u_ID u) ∧ u_ID u ∈ ci_unitIDs idx.
Proof.
  intros Hok Hu. pose proof (unit_ids (w_store w0) Hok) as H. rewrite Forall_forall in H.
  destruct (H u (units_stored u Hu)) as [H1 H2]. split_and!; [done | done |].
  apply elem_of_unitIDs. eauto.
Qed.

Lemma invalid_dst e u : ok (w_store w0) → valid_link idx e = false → u ∈ units → e_DstID e ≠ u_ID u.
Proof.
  intros Hok Hv Hu E. destruct (contract_unit_id u Hok Hu) as (H1 & _ & H2).
  unfold valid_link in Hv. rewrite E in Hv. rewrite bool_decide_eq_true_2 in Hv by done.
  rewrite (proj2 (String.eqb_neq _ _)) in Hv by done. done.
Qed.

(** The edge a disambiguator's choice is written to, with its annotation. *)
Lemma write_llm_ok seen q (w w' : world) e cands conf' pick r :
  inv seen q w → e ∈ stored → e ∉ seen → is_id (e_ID e) →
  valid_link idx e = false → asked = true → edge_candidates idx e = (cands, conf', true) →
  pick ∈ units → u_ID pick ∈ map u_ID cands →
  write_llm e pick (confidenceAfterResolve e ConfHigh) w = (inr r, w') → inv (e :: seen) q w'.
Proof.
  intros Hi Hin Hns Hid Hv Has Hc Hp Hpc. pose proof (pi_ok0 _ _ _ _ _ _ Hi) as Hok0.
  pose proof (pi_ok _ _ _ _ _ _ Hi) as Hok. destruct (contract_unit_id pick Hok0 Hp) as (_ & Hpid & _).
  unfold write_llm. set (res := {| er_EdgeID := e_ID e; er_DstID := u_ID pick; er_DstRepoID := u_RepoID pick;
    er_Confidence := confidenceAfterResolve e ConfHigh |}).
  destruct (update_resolution res (w_store w)) as [err st] eqn:E1.
  apply update_resolution_ok in E1 as K1; [|done | by split].
  pose proof (pi_errors _ _ _ _ _ _ Hi) as He.
  destruct err as [err|].
  { intros [= <- <-]. eapply (pass_direct w0 _ _ seen q w _ e (λ x, x)); try done.
    - replace (map _ _) with (edges_of (w_store w)); [exact K1 |].
      rewrite <- (map_id (edges_of (w_store w))) at 1. apply map_ext. intros x. by case_if.
    - simpl. lia.
    - right. split; [constructor |]. unfold more_errors. simpl. lia. }
  destruct (metaWithLLMSource (e_Meta e)) as [meta|] eqn:Em; [|done].
  destruct (update_meta (e_ID e) meta st) as [err2 st2] eqn:E2.
  apply update_meta_ok in E2 as K2; [|apply K1 | done]. rewrite (stays_edges _ _ _ _ _ _ K1) in K2.
  pose proof (kept_trans _ _ _ _ _ K1 K2) as K. cbv zeta. cbn [w_store on_store]. rewrite E2.
  intros [= <- <-]. destruct err2 as [err2|].
  - eapply (pass_direct w0 _ _ seen q w _ e (resolution_of res)); try done.
    + simpl. lia.
    + right. split; [by apply half_chosen |]. unfold more_errors. simpl. lia.
  - eapply (pass_direct w0 _ _ seen q w _ e (λ x, with_meta meta (resolution_of res x))); try done.
    + simpl. destruct K as [A B C]. split; [done | done |]. rewrite C, map_map. apply map_ext. intros x.
      unfold resolve. cbn [er_EdgeID res]. destruct (String.eqb (e_ID x) (e_ID e)) eqn:Ex; cbn [e_ID with_dst]; by rewrite Ex.
    + simpl. lia.
    + left. by eapply linked_chosen.
Qed.

Lemma contract_step_ok seen s (w w' : world) e r :
  inv seen (w_buf (cp_link s) ++ w_buf (cp_clear s)) w → cache_ok (cp_ds s) →
  e ∈ stored → e ∉ seen → contract_step disambig idx s e w = (inr r, w') →
  inv (e :: seen) (w_buf (cp_link r) ++ w_buf (cp_clear r)) w' ∧ cache_ok (cp_ds r).
Proof.
  intros Hi Hc Hin Hns. pose proof (pi_ok0 _ _ _ _ _ _ Hi) as Hok0.
  assert (is_id (e_ID e)) as Hid.
  { pose proof (edges_storable (w_store w0) Hok0) as H. rewrite Forall_forall in H. by apply H. }
  unfold contract_step. fold (valid_link idx e). destruct (valid_link idx e) eqn:Hv.
  { intros [= <- <-]. split; [|done]. eapply pass_skip; try done; [by apply linked_valid | simpl; lia]. }
  destruct (choose disambig idx (cp_ds s) e) as [ds choice] eqn:Ech. apply choose_ok in Ech as [Hc' Hch]; [|done].
  destruct choice as [[[dst conf] llm]|].
  2: { destruct Hch as (conf & amb & Hcand). destruct (String.eqb_spec (e_DstID e) "") as [Hd|Hd].
    { intros [= <- <-]. split; [|done]. eapply pass_skip; try done. by eapply linked_nowhere. }
    destruct (add _ (cp_clear s) w) as [rw w1] eqn:Ea. intros [= <- <-]. split; [|done].
    apply (pass_perm w0 _ _ _ (w_buf rw ++ w_buf (cp_link s))); [by rewrite Permutation_app_comm |].
    refine (pass_add w0 _ _ (half_unchanged units asked) seen (cp_clear s) _ w e _ _ _ _ Hin Hns _ _ _ Ea);
      [| split; [done | by left] | done | by eapply linked_cleared].
    eapply pass_perm; [|exact Hi]. by rewrite Permutation_app_comm. }
  assert (dst ∈ units) as Hdst.
  { destruct llm; [by destruct Hch as (_ & _ & ? & _) |]. destruct Hch as (rest & amb & Hcand).
    eapply edge_candidates_in; [exact Hcand | by left]. }
  rewrite (proj2 (String.eqb_neq _ _)) by (by eapply invalid_dst). simpl.
  destruct llm.
  - destruct Hch as (-> & Has & _ & cands & conf' & Hcand & Hpc).
    destruct (write_llm e dst _ w) as [[err|u] w1] eqn:Ew; [done |]. intros [= <- <-]. split; [|done].
    by eapply write_llm_ok.
  - destruct Hch as (rest & amb & Hcand). destruct (add _ (cp_link s) w) as [rw w1] eqn:Ea. intros [= <- <-].
    split; [|done]. destruct (contract_unit_id dst Hok0 Hdst) as (_ & Hdid & _).
    refine (pass_add w0 _ _ (half_unchanged units asked) seen (cp_link s) _ w e _ _ _ Hi Hin Hns _ _ _ Ea); [by split | done |]. by eapply linked_first.
Qed.

Lemma contract_loop_ok es seen s (w w' : world) r :
  inv seen (w_buf (cp_link s) ++ w_buf (cp_clear s)) w → cache_ok (cp_ds s) →
  NoDup es → (∀ e, e ∈ es → e ∈ stored ∧ e ∉ seen) → contract_loop disambig idx s es w = (inr r, w') →
  ∃ seen', (∀ e, e ∈ seen' ↔ e ∈ es ∨ e ∈ seen) ∧ inv seen' (w_buf (cp_link r) ++ w_buf (cp_clear r)) w'.
Proof.
  revert seen s w. induction es as [|e es IH]; intros seen s w Hi Hc Hnd Hes; simpl.
  { intros [= <- <-]. exists seen. split; [set_solver | done]. }
  unfold mbind, R_bind. destruct (contract_step disambig idx s e w) as [[err|s1] w1] eqn:E; [done |].
  destruct (Hes e (list_elem_of_here _ _)) as [Hin Hns].
  destruct (contract_step_ok _ _ _ _ _ _ Hi Hc Hin Hns E) as [Hi1 Hc1]. apply NoDup_cons in Hnd as [Hne Hnd].
  intros H. destruct (IH (e :: seen) s1 w1 Hi1 Hc1 Hnd) as (seen' & Hs & Hi'); [|done|].
  - intros x Hx. split; [apply Hes; by right |]. rewrite elem_of_cons. intros [->|Hx']; [done |].
    destruct (Hes x) as [_ Hxs]; [by right | done].
  - exists seen'. split; [|done]. intros x. rewrite Hs, !elem_of_cons. tauto.
Qed.

End Loop.
(** ** The pass *)

Definition contract_edge (e : Edge) : bool := one_of contract_kinds (e_Kind e).

Lemma link_query_edges repo kind kinds e :
  edge_matches (link_query repo kind kinds) e = or_empty repo (e_RepoID e) && or_empty kind (e_Kind e) && one_of kinds (e_Kind e).
Proof.
  unfold edge_matches. simpl. destruct (or_empty repo (e_RepoID e)), (or_empty kind (e_Kind e)); simpl; try done.
  by rewrite !andb_true_r.
Qed.

(** The units of a kind, as the store holds them. *)
Definition units_of_kind (kind : string) (us : list ASTUnit) : list ASTUnit :=
  filter (λ u, unit_matches (link_query "" "" [kind]) u = true) us.

(** The queried edges of a store: each once, and stored. *)
Lemma queried_edges (w : world) es (q : Edge → bool) :
  ok (w_store w) → es ≡ₚ filter (λ e, q e = true) (edges_of (w_store w)) →
  NoDup es ∧ ∀ e, e ∈ es ↔ e ∈ edges_of (w_store w) ∧ q e = true.
Proof.
  intros Hok HP. split.
  - rewrite HP. apply NoDup_filter. eapply (NoDup_fmap_1 e_ID). by apply edge_ids.
  - intros e. rewrite HP, list_elem_of_filter. tauto.
Qed.

(** What the pass reads: the units of three kinds and the contract edges, once
    each, or the error of a read. *)
Definition inputs_spec (w : world) (r : LinkError + (list ASTUnit * list ASTUnit * list ASTUnit * list Edge)) : Prop :=
  match r with
  | inl err => ∃ e, err = PassError "resolve contract edges" e
  | inr (rpcs, routes, tables, es) =>
      rpcs ≡ₚ units_of_kind KindRPCMethod (units_of (w_store w)) ∧
      routes ≡ₚ units_of_kind KindHTTPRoute (units_of (w_store w)) ∧
      tables ≡ₚ units_of_kind KindDBTable (units_of (w_store w)) ∧
      NoDup es ∧ ∀ e, e ∈ es ↔ e ∈ edges_of (w_store w) ∧ contract_edge e = true
  end.

Lemma contract_inputs_ok (w w' : world) r :
  ok (w_store w) → contract_inputs w = (r, w') →
  kept (w_store w) (w_store w') (edges_of (w_store w)) ∧ w_stats w' = w_stats w ∧ inputs_spec w r.
Proof.
  intros Hok. unfold contract_inputs, mbind, R_bind.
  destruct (reading _ _ w) as [[err|rpcs] w1] eqn:E1; pose proof E1 as (K1 & S1 & U1)%reading_units_ok; try done.
  { intros [= <- <-]. split_and!; [done | done |]. by eapply reading_error. }
  destruct (reading _ _ w1) as [[err|routes] w2] eqn:E2; pose proof E2 as (K2 & S2 & U2)%reading_units_ok; try by destruct K1.
  all: rewrite (stays_edges _ _ _ _ _ _ K1) in K2; pose proof (kept_trans _ _ _ _ _ K1 K2) as K12.
  { intros [= <- <-]. split_and!; [done | congruence |]. by eapply reading_error. }
  destruct (reading _ _ w2) as [[err|tables] w3] eqn:E3; pose proof E3 as (K3 & S3 & U3)%reading_units_ok; try by destruct K2.
  all: rewrite (stays_edges _ _ _ _ _ _ K12) in K3; pose proof (kept_trans _ _ _ _ _ K12 K3) as K123.
  { intros [= <- <-]. split_and!; [done | congruence |]. by eapply reading_error. }
  destruct (reading _ _ w3) as [[err|es] w4] eqn:E4; pose proof E4 as (K4 & S4 & U4)%reading_edges_ok; try by destruct K3.
  all: rewrite (stays_edges _ _ _ _ _ _ K123) in K4; pose proof (kept_trans _ _ _ _ _ K123 K4) as K.
  { intros [= <- <-]. split_and!; [done | congruence |]. by eapply reading_error. }
  intros [= <- <-]. split_and!; [done | congruence |]. specialize (U4 _ eq_refl).
  rewrite (stays_edges _ _ _ _ _ _ K123) in U4. destruct (queried_edges w es _ Hok U4) as [Hnd Hes].
  split_and!; [by apply U1 | | | done |].
  - rewrite (U2 _ eq_refl). by rewrite (stays_units _ _ _ _ _ _ K1).
  - rewrite (U3 _ eq_refl). by rewrite (stays_units _ _ _ _ _ _ K12).
  - intros e. rewrite Hes, link_query_edges. done.
Qed.

Lemma contract_units (w : world) rpcs routes tables es u :
  ok (w_store w) → inputs_spec w (inr (rpcs, routes, tables, es)) → u ∈ rpcs ++ routes ++ tables →
  u ∈ units_of (w_store w) ∧ u_ID u ≠ "".
Proof.
  intros Hok (P1 & P2 & P3 & _). rewrite !elem_of_app, P1, P2, P3. unfold units_of_kind. rewrite !list_elem_of_filter.
  intros Hu. assert (u ∈ units_of (w_store w)) as Hin by tauto. split; [done |].
  pose proof (unit_ids (w_store w) Hok) as H. rewrite Forall_forall in H. by apply H.
Qed.

(** The run of [resolveContracts], opened up to its loop. *)
Lemma resolveContracts_inv (w w' : world) :
  ok (w_store w) → resolveContracts disambig w = (inr tt, w') →
  ∃ rpcUnits routeUnits tableUnits es w4 seen,
    inputs_spec w (inr (rpcUnits, routeUnits, tableUnits, es)) ∧
    kept (w_store w) (w_store w4) (edges_of (w_store w)) ∧ w_stats w4 = w_stats w ∧
    (∀ e, e ∈ seen ↔ e ∈ edges_of (w_store w) ∧ contract_edge e = true) ∧
    pass_inv (ok := ok) (edges_of := edges_of) (units_of := units_of) w4
      (linked (rpcUnits ++ routeUnits ++ tableUnits) (newContractIndex rpcUnits routeUnits tableUnits) asked)
      (half_linked (rpcUnits ++ routeUnits ++ tableUnits) asked) seen [] w'.
Proof.
  intros Hok. unfold resolveContracts, mbind, R_bind.
  destruct (contract_inputs w) as [[err|[[[rpcs routes] tables] es]] w4] eqn:E; [done |].
  apply contract_inputs_ok in E as (K & S & Hin); [|done].
  set (units := rpcs ++ routes ++ tables).
  assert (∀ u, u ∈ units → u ∈ units_of (w_store w4)) as Hus.
  { intros u Hu. rewrite (stays_units _ _ _ _ _ _ K). by eapply contract_units. }
  pose proof Hin as (_ & _ & _ & Hnd & Hes).
  destruct (contract_loop _ _ _ es w4) as [[err|s] w5] eqn:El; [done |].
  assert (edges0 (edges_of := edges_of) w4 = edges_of (w_store w)) as E0 by apply (stays_edges _ _ _ _ _ _ K).
  apply (contract_loop_ok w4 _ _ _ Hus es []) in El as (seen & Hseen & Hi); cbn [cp_link cp_clear cp_ds w_buf newResolutionWriter app].
  - unfold step. destruct (flush (cp_link s) w5) as [lw w6] eqn:F1.
    destruct (pass_flush w4 _ _ (half_unchanged units asked) _ _ _ _ _ _ Hi F1) as [_ Hi1].
    destruct (flush (cp_clear s) w6) as [cw w7] eqn:F2. rewrite <- (app_nil_r (w_buf (cp_clear s))) in Hi1.
    destruct (pass_flush w4 _ _ (half_unchanged units asked) _ _ _ _ _ _ Hi1 F2) as [_ Hi2].
    intros [= <-]. exists rpcs, routes, tables, es, w4, seen. split_and!; try done.
    + intros e. rewrite Hseen, Hes. pose proof (not_elem_of_nil e). tauto.
    + by apply pass_count.
  - apply pass_start; [by destruct K | destruct K; by split | done].
  - by intros name u.
  - done.
  - intros e He. rewrite E0. split; [by apply Hes | apply not_elem_of_nil].
Qed.

(** C1: after [resolveContracts] every contract edge is as linking it leaves it —
    left alone if its destination is a contract unit still, pointed at the first
    of its candidates (or at the candidate the disambiguator picked for an
    ambiguous match) with the parser's confidence times the factor of the match,
    cleared if it dangles and nothing matches — whatever the writers batched, in
    whatever order the store returned edges and units.  An edge that is not is as
    it was, or lacks its annotation, and the run has counted an error.  Nothing
    else in the store has changed. *)
Theorem resolveContracts_links (w w' : world) :
  ok (w_store w) → resolveContracts disambig w = (inr tt, w') →
  units_of (w_store w') = units_of (w_store w) ∧
  ∃ rpcUnits routeUnits tableUnits,
    rpcUnits ≡ₚ units_of_kind KindRPCMethod (units_of (w_store w)) ∧
    routeUnits ≡ₚ units_of_kind KindHTTPRoute (units_of (w_store w)) ∧
    tableUnits ≡ₚ units_of_kind KindDBTable (units_of (w_store w)) ∧
    let units := rpcUnits ++ routeUnits ++ tableUnits in
    let idx := newContractIndex rpcUnits routeUnits tableUnits in
    Forall2 (λ e x, if contract_edge e
        then linked units idx asked e x ∨
             (half_linked units asked e x ∧ (Errors (w_stats w) < Errors (w_stats w'))%Z)
        else x = e)
      (edges_of (w_store w)) (edges_of (w_store w')).
Proof.
  intros Hok H.
  destruct (resolveContracts_inv w w' Hok H) as (rpcs & routes & tables & es & w4 & seen & (H1 & H2 & H3 & _) & K & S & Hs & Hi).
  pose proof (pi_units _ _ _ _ _ _ Hi) as Hu. apply pass_end in Hi as Hf. unfold edges0 in Hf.
  rewrite (stays_edges _ _ _ _ _ _ K) in Hf. split; [by rewrite Hu, (stays_units _ _ _ _ _ _ K) |].
  exists rpcs, routes, tables. split_and!; try done. cbv zeta.
  rewrite Forall2_lookup in Hf |- *. intros i. specialize (Hf i).
  inversion Hf as [e x [Hn Hl] E1 E2|E1 E2]; constructor.
  assert (e ∈ edges_of (w_store w)) as Hin by (eapply list_elem_of_lookup_2; eauto).
  destruct (contract_edge e) eqn:Ec; [|apply Hn; rewrite Hs; intros [_ ?]; congruence].
  unfold more_errors in Hl. rewrite S in Hl. apply Hl. rewrite Hs. done.
Qed.

(** ** A second run *)

(** An edge the pass leaves alone without writing anything. *)
Definition settled (idx : contractIndex) (e : Edge) : Prop :=
  valid_link idx e = true ∨ (e_DstID e = "" ∧ fst (fst (edge_candidates idx e)) = []).

Lemma settled_step idx s e (w : world) :
  settled idx e → ∃ s', contract_step disambig idx s e w = (inr s', count (plus_stats 0 0 (if valid_link idx e then 1 else 0) 0 0) w) ∧
    cp_link s' = cp_link s ∧ cp_clear s' = cp_clear s.
Proof.
  intros Hs. unfold contract_step. fold (valid_link idx e). destruct (valid_link idx e) eqn:Hv; [by exists s |].
  destruct Hs as [?|[Hd Hc]]; [congruence |]. unfold choose.
  destruct (edge_candidates idx e) as [[cands conf] amb]. simpl in Hc. subst cands. rewrite Hd. simpl.
  exists {| cp_ds := cp_ds s; cp_link := cp_link s; cp_clear := cp_clear s |}. split; [|done]. f_equal.
  destruct w as [st []]. unfold count, plus_stats. simpl. by rewrite !Z.add_0_r.
Qed.

Lemma settled_loop idx s es (w : world) :
  Forall (settled idx) es → ∃ s' n, contract_loop disambig idx s es w = (inr s', count (plus_stats 0 0 n 0 0) w) ∧
    cp_link s' = cp_link s ∧ cp_clear s' = cp_clear s.
Proof.
  intros Hes. revert s w. induction Hes as [|e es He Hes IH]; intros s w; simpl.
  - exists s, 0%Z. split; [|done]. unfold mret, R_ret. destruct w as [st []]. unfold count, plus_stats. simpl. by rewrite !Z.add_0_r.
  - unfold mbind, R_bind. destruct (settled_step idx s e w He) as (s1 & -> & <- & <-).
    set (v := if valid_link idx e then 1%Z else 0%Z).
    destruct (IH s1 (count (plus_stats 0 0 v 0 0) w)) as (s2 & n & -> & H1 & H2).
    exists s2, (v + n)%Z. split; [|done]. destruct w as [st []]. unfold count, plus_stats. simpl.
    by rewrite !Z.add_0_r, Z.add_assoc.
Qed.

Section Stable.
  Context (rpcs routes tables rpcs' routes' tables' : list ASTUnit).
  Context (rpcs_perm : rpcs ≡ₚ rpcs') (routes_perm : routes ≡ₚ routes') (tables_perm : tables ≡ₚ tables').
  Context (units_placed : placed (rpcs ++ routes ++ tables)).
Let idx := newContractIndex rpcs routes tables.
Let idx' := newContractIndex rpcs' routes' tables'.

Lemma index_candidates e : edge_candidates idx' e = edge_candidates idx e.
Proof.
  unfold edge_candidates. cbn [idx idx' newContractIndex ci_rpc ci_routes ci_tables].
  rewrite <- (rpcCandidates_perm rpcs rpcs'), <- (routeCandidates_perm routes routes'), <- (tableCandidates_perm tables tables');
    try done; (apply (placed_incl (rpcs ++ routes ++ tables)); [intros u; rewrite !elem_of_app; tauto | done]).
Qed.

Lemma index_valid e : valid_link idx' e = valid_link idx e.
Proof.
  unfold valid_link. f_equal. apply bool_decide_ext. unfold idx, idx'. rewrite !elem_of_unitIDs.
  by setoid_rewrite <- (Permutation_app rpcs_perm (Permutation_app routes_perm tables_perm)).
Qed.

Lemma linked_settled as' e x :
  (∀ u, u ∈ rpcs ++ routes ++ tables → u_ID u ≠ "") →
  linked (rpcs ++ routes ++ tables) idx as' e x → settled idx' x.
Proof.
  intros Hids Hl.
  assert (∀ u e', u ∈ rpcs ++ routes ++ tables → e_DstID e' = u_ID u → settled idx' e') as Hto.
  { intros u e' Hu E. left. rewrite index_valid. unfold valid_link. rewrite E.
    rewrite (proj2 (String.eqb_neq _ _)) by (by apply Hids). simpl. apply bool_decide_eq_true_2.
    apply elem_of_unitIDs. eauto. }
  unfold settled. inversion Hl as [Hv|conf amb Hd Hc|conf amb Hd Hv Hc|dst rest conf amb Hv Hc|cands conf pick meta Hv Ha Hc Hp Hpc Hm]; subst.
  - left. by rewrite index_valid.
  - right. by rewrite index_candidates, Hc.
  - right. rewrite index_candidates. change (edge_candidates idx (with_dst "" "" _ e)) with (edge_candidates idx e). by rewrite Hc.
  - apply (Hto dst); [|done]. eapply edge_candidates_in; [exact Hc | by left].
  - by apply (Hto pick).
Qed.

End Stable.

(** Linking is stable.  After a run that counted no failed write, a second run
    on the store writes nothing — whatever order units and edges come back in, and
    without asking the disambiguator — and counts neither an error nor an edge
    resolved; the only way it can differ is to fail to read the store. *)
Theorem resolveContracts_stable (w w1 w2 : world) r :
  ok (w_store w) → placed (units_of (w_store w)) →
  resolveContracts disambig w = (inr tt, w1) → Errors (w_stats w1) = Errors (w_stats w) →
  resolveContracts disambig w1 = (r, w2) →
  edges_of (w_store w2) = edges_of (w_store w1) ∧
  Errors (w_stats w2) = Errors (w_stats w1) ∧ ResolvedContracts (w_stats w2) = ResolvedContracts (w_stats w1) ∧
  (r = inr tt ∨ ∃ e, r = inl (PassError "resolve contract edges" e)).
Proof.
  intros Hok Hpl H1 He H2.
  destruct (resolveContracts_inv w w1 Hok H1) as (rpcs & routes & tables & es & w4 & seen & Hin & K & Hst & Hs & Hi).
  pose proof (pi_ok _ _ _ _ _ _ Hi) as Hok1. pose proof (pi_units _ _ _ _ _ _ Hi) as Hu.
  rewrite (stays_units _ _ _ _ _ _ K) in Hu. apply pass_end in Hi as Hf. unfold edges0, more_errors in Hf.
  rewrite (stays_edges _ _ _ _ _ _ K), Hst in Hf.
  revert H2. unfold resolveContracts, mbind, R_bind.
  destruct (contract_inputs w1) as [r1 w5] eqn:E1. apply contract_inputs_ok in E1 as (K1 & S1 & Hin1); [|done].
  destruct r1 as [err|[[[rpcs' routes'] tables'] es']].
  { intros [= <- <-]. rewrite (stays_edges _ _ _ _ _ _ K1), S1. destruct Hin1 as [e ->]. split_and!; eauto. }
  pose proof Hin as (P1 & P2 & P3 & _). pose proof Hin1 as (P1' & P2' & P3' & _ & Hes'). rewrite Hu in P1', P2', P3'.
  assert (Forall (settled (newContractIndex rpcs' routes' tables')) es') as Hset.
  { apply Forall_forall. intros x [Hx Hc]%Hes'. apply list_elem_of_lookup in Hx as (i & Hxi).
    rewrite Forall2_lookup in Hf. specialize (Hf i). rewrite Hxi in Hf. inversion Hf as [e y [Hn Hl] E2 E3|]; subst.
    assert (e ∈ edges_of (w_store w)) as Hine by (eapply list_elem_of_lookup_2; eauto).
    destruct (decide (e ∈ seen)) as [Hse|Hse].
    - destruct (Hl Hse) as [Hlk|[_ Hlt]]; [|lia]. eapply (linked_settled rpcs routes tables rpcs' routes' tables'); [by rewrite P1, P1' | by rewrite P2, P2' | by rewrite P3, P3' | | |exact Hlk].
      + eapply placed_incl; [|exact Hpl]. intros u Hu'. by destruct (contract_units w _ _ _ _ u Hok Hin Hu').
      + intros u Hu'. by destruct (contract_units w _ _ _ _ u Hok Hin Hu').
    - rewrite (Hn Hse) in Hc. exfalso. apply Hse. by apply Hs. }
  match goal with |- context [contract_loop disambig ?i ?s0 es' w5] =>
    destruct (settled_loop i s0 es' w5 Hset) as (s & n & -> & B1 & B2) end.
  unfold step, flush. rewrite B1, B2. simpl. intros [= <- <-]. simpl. rewrite S1, (stays_edges _ _ _ _ _ _ K1).
  split_and!; [done | lia | lia | by left].
Qed.

End Contracts.

(** ** On the sample *)

Lemma sample_placed : placed (units_of (tables sample)).
Proof.
  intros a b Ha Hb (_ & _ & _ & _ & _ & Hn). refine (NoDup_map_inj u_Name _ a b _ Ha Hb Hn).
  apply (bool_decide_unpack _). vm_compute. exact I.
Qed.

Lemma resolveContracts_links_witness :
  let w' := snd (resolveContracts None sample_world) in
  units_of (tables (w_store w')) = units_of (tables sample) ∧
  map e_DstID (edges_of (tables (w_store w'))) = [""; ""; "4"; ""; ""].
Proof.
  assert (fst (resolveContracts None sample_world) = inr tt) as E by (vm_compute; reflexivity).
  pose proof (resolveContracts_links None sample_world _ sample_ok (went_through _ E)) as [H _].
  split; [exact H | vm_compute; reflexivity].
Defined.

Lemma resolveContracts_stable_witness :
  let w1 := snd (resolveContracts None sample_world) in
  let w2 := snd (resolveContracts None w1) in
  ResolvedContracts (w_stats w1) = 1%Z ∧ SkippedValid (w_stats w2) = 1%Z ∧
  edges_of (tables (w_store w2)) = edges_of (tables (w_store w1)).
Proof.
  assert (fst (resolveContracts None sample_world) = inr tt) as E1 by (vm_compute; reflexivity).
  assert (Errors (w_stats (snd (resolveContracts None sample_world))) = Errors (w_stats sample_world)) as E2
    by (vm_compute; reflexivity).
  assert (fst (resolveContracts None (snd (resolveContracts None sample_world))) = inr tt) as E3 by (vm_compute; reflexivity).
  pose proof (resolveContracts_stable None sample_world _ _ _ sample_ok sample_placed (went_through _ E1) E2
    (went_through _ E3)) as [H _].
  split; [vm_compute; reflexivity |]. split; [vm_compute; reflexivity | exact H].
Defined.
