(* ===== verification/LinkFacts.v ===== *)
(** * What the linker drivers leave behind

    [resolveLocal] points each call and handler edge of the repository at the
    definition its receiver and its file single out.  [deriveKafkaFlows] rebuilds
    the flows of some topics only: a topic it touches has afterwards exactly the
    flows from each of its producers to each of its consumers, and a topic it leaves
    alone keeps the flows it had, right or wrong ([removed_consumer_leaves_flow]). *)

From S2P Require Import Prelude GoStrings GoStrconv GoSort GoFloat Domain Store Contract Match MatchConfig MatchRoutes StoreQuery LinkStore SqlDriver SqlEdges SqlEdgesFacts SqlUnits Linker LinkerFacts LinkContracts.

Lemma bucket_by_name units n :
  bucket (by_name units) n = sortUnits (filter (λ u, u_Name u = n) units).
Proof.
  unfold by_name, bucket. rewrite lookup_fmap.
  assert (bucket (foldl (λ m u, push (u_Name u) u m) ∅ units) n = filter (λ u, u_Name u = n) units) as E.
  { rewrite (bucket_fold _ (λ n u, if decide (u_Name u = n) then [u] else [])).
    - rewrite bucket_empty. simpl. apply bind_filter. intros u _. done.
    - intros m u. apply bucket_push. }
  unfold bucket in E. destruct (_ !! n) as [us|]; simpl in E |- *; by rewrite <- E.
Qed.

(** What the pass makes of a local edge. *)
Inductive local_linked (repoID : string) (units : list ASTUnit) (e : Edge) : Edge → Prop :=
  | local_no_candidate :
      bucket (by_name units) (LastComponent (e_DstName e)) = [] → local_linked repoID units e e
  | local_already u conf :
      local_pick (local_pool (edgeReceiver e) (bucket (by_name units) (LastComponent (e_DstName e)))) (e_FilePath e) = Some (u, conf) →
      e_DstID e = u_ID u → e_DstRepoID e = repoID → local_linked repoID units e e
  | local_resolved u conf :
      local_pick (local_pool (edgeReceiver e) (bucket (by_name units) (LastComponent (e_DstName e)))) (e_FilePath e) = Some (u, conf) →
      e_DstID e ≠ u_ID u ∨ e_DstRepoID e ≠ repoID →
      local_linked repoID units e (with_dst (u_ID u) repoID (confidenceAfterResolve e conf) e).

Section Local.
  Context {St} {L : LinkStore St} {ok : St → Prop} {edges_of : St → list Edge} {units_of : St → list ASTUnit}.
  Context `{!LinkStoreLaws L ok edges_of units_of}.

Abbreviation kept := (stays ok edges_of units_of).
Abbreviation world := (world (St := St)).

Section Loop.
  Context (w0 : world) (repoID : string) (units : list ASTUnit).
  Context (units_stored : ∀ u, u ∈ units → u ∈ units_of (w_store w0)).

Let byName : string → list ASTUnit := bucket (by_name units).

Abbreviation inv := (pass_inv (ok := ok) (edges_of := edges_of) (units_of := units_of) w0 (local_linked repoID units) eq).

Lemma byName_stored n u : u ∈ byName n → u ∈ units_of (w_store w0).
Proof.
  unfold byName. rewrite bucket_by_name. unfold sortUnits. rewrite SliceSort_perm.
  intros [_ Hu]%list_elem_of_filter. by apply units_stored.
Qed.

Lemma byName_ids : ok (w_store w0) → ∀ n m u v, u ∈ byName n → v ∈ byName m → u_ID u = u_ID v → u = v.
Proof.
  intros Hok n m u v Hu Hv E. pose proof (units_distinct (w_store w0) Hok) as Hnd.
  apply byName_stored, list_elem_of_lookup in Hu as (i & Hi). apply byName_stored, list_elem_of_lookup in Hv as (j & Hj).
  assert (i = j) as ->; [|congruence]. eapply NoDup_lookup; [exact Hnd | |]; change (map u_ID ?l) with (u_ID <$> l).
  - by rewrite list_lookup_fmap, Hi.
  - by rewrite list_lookup_fmap, Hj, E.
Qed.

Lemma local_pick_in pool file u conf : local_pick pool file = Some (u, conf) → u ∈ pool.
Proof.
  destruct pool as [|c0 cs]; [done |]. simpl. destruct (firstInFile _ file) as [v|] eqn:E.
  - intros [= <- _]. by apply firstInFile_spec in E as [? _].
  - intros [= <- _]. by left.
Qed.

Lemma local_pool_in recv cands u : u ∈ local_pool recv cands → u ∈ cands.
Proof.
  unfold local_pool. destruct (String.eqb recv ""); [done |].
  destruct (filter _ cands) as [|o os] eqn:E; [done |]. rewrite <- E. by intros [_ ?]%list_elem_of_filter.
Qed.

Lemma local_step_ok seen comps rw (w w' : world) e comps' rw' :
  inv seen (w_buf rw) w → memo_ok byName comps → e ∈ edges0 (edges_of := edges_of) w0 → e ∉ seen →
  local_step repoID (by_name units) (comps, rw, w) e = (comps', rw', w') →
  inv (e :: seen) (w_buf rw') w' ∧ memo_ok byName comps'.
Proof.
  intros Hi Hm Hin Hns. pose proof (pi_ok0 _ _ _ _ _ _ Hi) as Hok0. unfold local_step.
  destruct (bucket (by_name units) (LastComponent (e_DstName e))) as [|c0 cs] eqn:Eb.
  { intros [= <- <- <-]. split; [|done]. eapply pass_skip; try done. by apply local_no_candidate. }
  destruct (resolveLocalTarget_pick byName comps _ (edgeReceiver e) e c0 cs (byName_ids Hok0) Hm Eb) as [Hm' Hp].
  rewrite <- Eb in Hp. destruct (resolveLocalTarget _ _ _ e c0 cs) as [comps1 [best conf]]. simpl in Hm', Hp.
  assert (is_id (u_ID best)) as Hbest.
  { pose proof (unit_ids (w_store w0) Hok0) as H. rewrite Forall_forall in H. apply H.
    eapply byName_stored, local_pool_in, local_pick_in. exact Hp. }
  destruct (String.eqb (e_DstID e) (u_ID best) && String.eqb (e_DstRepoID e) repoID) eqn:Es.
  { intros [= <- <- <-]. split; [|done]. bool_prop. eapply pass_skip; try done. by eapply local_already. }
  assert (e_DstID e ≠ u_ID best ∨ e_DstRepoID e ≠ repoID) as Hne by (apply andb_false_iff in Es; rewrite !String.eqb_neq in Es; exact Es).
  destruct (add _ rw w) as [rw1 w1] eqn:Ea. intros [= <- <- <-]. split; [|done].
  rewrite <- (app_nil_r (w_buf rw)) in Hi. rewrite <- (app_nil_r (w_buf rw1)).
  refine (pass_add w0 _ _ (λ e, eq_refl) seen rw [] w e _ _ _ Hi Hin Hns _ _ _ Ea); [|done | by eapply local_resolved].
  split; [|done]. pose proof (edges_storable (w_store w0) Hok0) as H. rewrite Forall_forall in H. by apply H.
Qed.

Lemma local_loop_ok es seen comps rw (w w' : world) comps' rw' :
  inv seen (w_buf rw) w → memo_ok byName comps → NoDup es →
  (∀ e, e ∈ es → e ∈ edges0 (edges_of := edges_of) w0 ∧ e ∉ seen) →
  foldl (local_step repoID (by_name units)) (comps, rw, w) es = (comps', rw', w') →
  ∃ seen', (∀ e, e ∈ seen' ↔ e ∈ es ∨ e ∈ seen) ∧ inv seen' (w_buf rw') w'.
Proof.
  revert seen comps rw w. induction es as [|e es IH]; intros seen comps rw w Hi Hm Hnd Hes; cbn [foldl].
  { intros [= <- <- <-]. exists seen. split; [set_solver | done]. }
  destruct (local_step _ _ (comps, rw, w) e) as [[comps1 rw1] w1] eqn:E.
  destruct (Hes e (list_elem_of_here _ _)) as [Hin Hns].
  destruct (local_step_ok _ _ _ _ _ _ _ _ Hi Hm Hin Hns E) as [Hi1 Hm1]. apply NoDup_cons in Hnd as [Hne Hnd].
  intros H. destruct (IH (e :: seen) comps1 rw1 w1 Hi1 Hm1 Hnd) as (seen' & Hs & Hi'); [|done|].
  - intros x Hx. split; [apply Hes; by right |]. rewrite elem_of_cons. intros [->|Hx']; [done |].
    destruct (Hes x) as [_ Hxs]; [by right | done].
  - exists seen'. split; [|done]. intros x. rewrite Hs, !elem_of_cons. tauto.
Qed.

End Loop.

Definition local_edge (repoID : string) (e : Edge) : bool :=
  or_empty repoID (e_RepoID e) && one_of [EdgeCall; EdgeHandledBy] (e_Kind e).


End Local.


(** Another definition of the name turns the choice into a guess, but the edge that
    points at the first one keeps the confidence of the days it was the only one. *)
Definition sample_fn (id path : string) : ASTUnit := {|
  u_ID := id; u_RepoID := "a"; u_FilePath := path; u_Language := "go"; u_Kind := "function"; u_Name := "Save"; u_Qualified := "Save";
  u_ParentID := ""; u_StartLine := 1; u_EndLine := 2; u_StartByte := 0; u_EndByte := 0; u_Signature := ""; u_Doc := ""; u_Hash := "";
  u_Meta := "" |}.
Lemma stale_confidence_kept :
  let e := with_dst "1" "a" ConfCrossFile (sample_edge "a" "9" EdgeCall "Save" "main.go" 3) in
  let pick us := local_pick us (e_FilePath e) in
  let after us := let '(_, rw, _) := local_step "a" (by_name us) (newUnitComponents, newResolutionWriter, sample_world) e in w_buf rw in
  let one := [sample_fn "1" "a.go"] in let two := one ++ [sample_fn "2" "b.go"] in
  snd <$> pick one = Some ConfCrossFile ∧ after one = [] ∧
  (fst <$> pick two = Some (sample_fn "1" "a.go") ∧ snd <$> pick two = Some ConfHeuristic) ∧ after two = [].
Proof. vm_compute. done. Qed.

Abbreviation strip := (with_id "").

Definition on_topic (kind t : string) (es : list Edge) : list Edge :=
  filter (λ e, e_Kind e = kind ∧ e_DstName e = t) es.

(** A flow from a producer to a consumer: it runs from the unit that produces to the
    one that consumes, across their repositories, stands where the producer does, with
    its metadata, and is as sure as the less sure of the two. *)
Record flows (p c f : Edge) : Prop := {
  flows_kind : e_Kind f = EdgeKafkaFlow;
  flows_src : e_SrcID f = e_SrcID p;
  flows_dst : e_DstID f = e_SrcID c;
  flows_repo : e_RepoID f = e_RepoID p;
  flows_dst_repo : e_DstRepoID f = e_RepoID c;
  flows_topic : e_DstName f = e_DstName p;
  flows_place : e_FilePath f = e_FilePath p ∧ e_Line f = e_Line p;
  flows_meta : e_Meta f = e_Meta p;
  flows_confidence : ∃ weaker, (weaker = e_Confidence p ∨ weaker = e_Confidence c) ∧
    flt (e_Confidence p) weaker = false ∧ flt (e_Confidence c) weaker = false ∧ e_Confidence f = f32_mul weaker ConfExact
}.

(** Every producer of a topic flows to every consumer of it, once. *)
Definition topic_pairs (t : string) (es : list Edge) : list (Edge * Edge) :=
  on_topic EdgeProduces t es ≫= λ p, map (pair p) (on_topic EdgeConsumes t es).
Definition topic_exact (t : string) (es : list Edge) : Prop :=
  ∃ fs, map strip (on_topic EdgeKafkaFlow t es) ≡ₚ fs ∧ Forall2 (λ pc, flows (fst pc) (snd pc)) (topic_pairs t es) fs.

(** The flows the code builds are such flows. *)
Definition topic_join (t : string) (es : list Edge) : list Edge :=
  on_topic EdgeProduces t es ≫= λ p, map (kafka_flow p) (on_topic EdgeConsumes t es).

Lemma flt_irrefl x : flt x x = false.
Proof. destruct (decide (x = S754_nan)) as [->|Hx]; [done |]. by apply (swo_irrefl (P:=not_nan)). Qed.
Lemma kafka_flow_flows p c : flows p c (kafka_flow p c).
Proof.
  split; try done.
  destruct (flt (e_Confidence c) (e_Confidence p)) eqn:E.
  - exists (e_Confidence c). cbn [kafka_flow e_Confidence]. rewrite E. split_and!; [by right | | apply flt_irrefl | done].
    destruct (flt (e_Confidence p) (e_Confidence c)) eqn:E'; [|done].
    assert (not_nan (e_Confidence c)) as Hc by (intros H; rewrite H in E; by destruct (e_Confidence p)).
    assert (not_nan (e_Confidence p)) as Hp by (intros H; rewrite H in E'; by destruct (e_Confidence c)).
    pose proof (swo_asym not_nan flt _ _ Hp Hc E'). congruence.
  - exists (e_Confidence p). cbn [kafka_flow e_Confidence]. rewrite E. split_and!; [by left | apply flt_irrefl | done | done].
Qed.
Lemma topic_join_flows t es : Forall2 (λ pc, flows (fst pc) (snd pc)) (topic_pairs t es) (topic_join t es).
Proof.
  unfold topic_pairs, topic_join. induction (on_topic EdgeProduces t es) as [|p ps IH]; [constructor |]. rewrite !bind_cons.
  apply Forall2_app; [|exact IH]. clear. induction (on_topic EdgeConsumes t es) as [|c cs IH]; constructor; [apply kafka_flow_flows | exact IH].
Qed.

(** The topics a run for a repository touches: those that changed name, and those
    the repository has an end on. *)
Definition touches (repoID : string) (rewritten : gset string) (es : list Edge) (t : string) : Prop :=
  repoID = "" ∨ t ∈ rewritten ∨
  ∃ e, e ∈ es ∧ e_DstName e = t ∧
    ((e_Kind e = EdgeProduces ∨ e_Kind e = EdgeConsumes) ∧ e_RepoID e = repoID ∨
     e_Kind e = EdgeKafkaFlow ∧ (e_RepoID e = repoID ∨ e_DstRepoID e = repoID)).

(** ** Lists *)

Lemma bucket_consumers cs t : bucket (consumers_by_topic cs) t = filter (λ c, e_DstName c = t) cs.
Proof.
  unfold consumers_by_topic. rewrite (bucket_fold _ (λ t c, if decide (e_DstName c = t) then [c] else [])).
  - rewrite bucket_empty. simpl. by apply bind_filter.
  - intros m c. apply bucket_push.
Qed.

Lemma bind_perm {A B} (f g : A → list B) (l l' : list A) :
  l ≡ₚ l' → (∀ x, f x ≡ₚ g x) → l ≫= f ≡ₚ l' ≫= g.
Proof.
  intros HP Hfg. trans (l ≫= g); [|by rewrite HP]. clear HP.
  induction l as [|x l IH]; [done |]. rewrite !bind_cons. by rewrite Hfg, IH.
Qed.

Lemma filter_flows t (l : list Edge) p :
  filter (λ f, e_DstName f = t) (map (kafka_flow p) l) = if decide (e_DstName p = t) then map (kafka_flow p) l else [].
Proof.
  induction l as [|c l IH]; simpl; [by case_decide |].
  rewrite filter_cons, IH. simpl. by repeat case_decide.
Qed.

(** The derived flows of one topic. *)
Lemma derived_on_topic affected ps cs t :
  filter (λ f, e_DstName f = t) (derived_flows affected ps cs) =
  if is_affected affected t
  then filter (λ p, e_DstName p = t) ps ≫= λ p, map (kafka_flow p) (filter (λ c, e_DstName c = t) cs)
  else [].
Proof.
  unfold derived_flows. induction ps as [|p ps IH]; [by case_if |].
  rewrite !filter_cons. destruct (decide (e_DstName p = t)) as [<-|Hne].
  - destruct (is_affected affected (e_DstName p)) eqn:Ea.
    + rewrite decide_True by done. rewrite !bind_cons, filter_app, IH, filter_flows, bucket_consumers.
      by rewrite decide_True.
    + by rewrite decide_False.
  - case_decide; [|done]. rewrite bind_cons, filter_app, IH, filter_flows. by rewrite decide_False.
Qed.

Lemma derived_fresh affected ps cs : Forall (λ f, e_Kind f = EdgeKafkaFlow ∧ strip f = f) (derived_flows affected ps cs).
Proof.
  apply Forall_forall. intros f (p & Hf & _)%list_elem_of_bind. by apply list_elem_of_fmap in Hf as (c & -> & _).
Qed.

(** Edges of other kinds do not see flows come and go. *)
Lemma on_topic_app kind t es es' : on_topic kind t (es ++ es') = on_topic kind t es ++ on_topic kind t es'.
Proof. apply filter_app. Qed.

Lemma on_topic_none kind t es : (∀ e, e ∈ es → ¬ (e_Kind e = kind ∧ e_DstName e = t)) → on_topic kind t es = [].
Proof.
  intros H. unfold on_topic. induction es as [|e es IH]; [done |]. rewrite filter_cons_False; [|apply H; by left].
  apply IH. intros x Hx. apply H. by right.
Qed.

Lemma list_nil_filter (P : Edge → Prop) `{!∀ x, Decision (P x)} es : (∀ e, e ∈ es → ¬ P e) → filter P es = [].
Proof.
  intros HP. induction es as [|e es IH]; [done |]. rewrite filter_cons_False by (apply HP; by left).
  apply IH. intros x Hx. apply HP. by right.
Qed.

Lemma on_topic_filter kind t (P : Edge → Prop) `{!∀ x, Decision (P x)} es :
  (∀ e, e ∈ es → e_Kind e = kind → e_DstName e = t → P e) → on_topic kind t (filter P es) = on_topic kind t es.
Proof.
  intros HP. unfold on_topic. rewrite list_filter_filter. apply filter_impl. intros e He. naive_solver.
Qed.

(** ** A rebuild, list by list *)

Lemma stored_flows_on_topic t ids fs :
  length ids = length fs → Forall (λ f, e_Kind f = EdgeKafkaFlow ∧ strip f = f) fs →
  map strip (on_topic EdgeKafkaFlow t (zip_with with_id ids fs)) = filter (λ f, e_DstName f = t) fs.
Proof.
  intros Hlen Hfs. revert ids Hlen. induction Hfs as [|f fs [Hk Hf] Hfs IH]; intros [|id ids] Hlen; try done.
  cbn [zip_with]. unfold on_topic. rewrite !filter_cons. cbn [e_Kind e_DstName with_id].
  assert (strip (with_id id f) = f) as E by exact Hf.
  destruct (decide (e_DstName f = t)); [rewrite decide_True by done | rewrite decide_False by tauto].
  - cbn [map]. rewrite E. f_equal. apply IH. simpl in Hlen. lia.
  - apply IH. simpl in Hlen. lia.
Qed.

Lemma zip_kind ids fs e : Forall (λ f, e_Kind f = EdgeKafkaFlow ∧ strip f = f) fs → e ∈ zip_with with_id ids fs → e_Kind e = EdgeKafkaFlow.
Proof.
  intros Hfs. revert ids. induction Hfs as [|f fs [Hk _] Hfs IH]; intros [|id ids]; simpl; try (intros H; by apply elem_of_nil in H).
  intros [->|He]%elem_of_cons; [done | by eapply IH].
Qed.

Section Rebuild.
  Context (affected : option (gset string)) (es ps cs : list Edge) (ids : list string).
  Context (ps_read : ps ≡ₚ filter (λ e, e_Kind e = EdgeProduces) es).
  Context (cs_read : cs ≡ₚ filter (λ e, e_Kind e = EdgeConsumes) es).
Let derived := derived_flows affected ps cs.
  Context (ids_length : length ids = length derived).
Let rest := filter (λ e, ¬ (e_Kind e = EdgeKafkaFlow ∧ is_affected affected (e_DstName e) = true)) es.
Let rebuilt := rest ++ zip_with with_id ids derived.

Lemma rebuilt_others kind t : kind ≠ EdgeKafkaFlow → on_topic kind t rebuilt = on_topic kind t es.
Proof.
  intros Hk. unfold rebuilt. rewrite on_topic_app, (on_topic_none kind t (zip_with _ _ _)), app_nil_r.
  - apply on_topic_filter. intros e _ E _ [E' _]. congruence.
  - intros e He [E _]. apply zip_kind in He; [congruence | apply derived_fresh].
Qed.

Lemma rebuilt_pairs t : topic_pairs t rebuilt = topic_pairs t es.
Proof. unfold topic_pairs. by rewrite !rebuilt_others. Qed.

Lemma derived_join t :
  filter (λ p, e_DstName p = t) ps ≫= (λ p, map (kafka_flow p) (filter (λ c, e_DstName c = t) cs)) ≡ₚ topic_join t es.
Proof.
  unfold topic_join, on_topic. apply bind_perm.
  - rewrite ps_read, list_filter_filter. erewrite filter_impl; [done |]. intros e _. tauto.
  - intros p. apply Permutation_map. rewrite cs_read, list_filter_filter. erewrite filter_impl; [done |]. intros e _. tauto.
Qed.

Lemma rebuilt_exact t : is_affected affected t = true ∨ topic_exact t es → topic_exact t rebuilt.
Proof.
  intros H. unfold topic_exact. rewrite rebuilt_pairs. unfold rebuilt.
  rewrite on_topic_app, map_app, stored_flows_on_topic by (done || apply derived_fresh). unfold derived.
  rewrite derived_on_topic. destruct (is_affected affected t) eqn:Ea.
  - rewrite (on_topic_none EdgeKafkaFlow t rest); [exists (topic_join t es); split; [apply derived_join | apply topic_join_flows] |].
    intros e [Hn _]%list_elem_of_filter [E1 E2]. apply Hn. by rewrite E2.
  - rewrite app_nil_r. destruct H as [|H]; [done |]. unfold rest.
    rewrite on_topic_filter; [exact H |]. intros e _ E1 E2 [_ E3]. congruence.
Qed.

Lemma rebuilt_rest :
  filter (λ e, e_Kind e ≠ EdgeKafkaFlow) rebuilt = filter (λ e, e_Kind e ≠ EdgeKafkaFlow) es.
Proof.
  unfold rebuilt, rest. rewrite filter_app, list_filter_filter.
  replace (filter _ (zip_with _ _ _)) with (@nil Edge).
  - rewrite app_nil_r. apply filter_impl. intros e _. tauto.
  - symmetry. apply list_nil_filter. intros e He. intros Hk. apply Hk. eapply zip_kind; [apply derived_fresh | exact He].
Qed.

End Rebuild.

Section Flows.
  Context {St} {L : LinkStore St} {ok : St → Prop} {edges_of : St → list Edge} {units_of : St → list ASTUnit}.
  Context `{!LinkStoreLaws L ok edges_of units_of}.
  Context (range_keys : gset string → list string) (range_keys_all : ∀ X, range_keys X ≡ₚ elements X).

Abbreviation kept := (stays ok edges_of units_of).
Abbreviation world := (world (St := St)).

(** ** Deleting and storing *)

Lemma deleting_ok pass (del : St → option StoreError * St) (w w' : world) (P : Edge → Prop) `{!∀ x, Decision (P x)} :
  (∀ e st', del (w_store w) = (e, st') →
     kept (w_store w) st' (match e with None => filter P (edges_of (w_store w)) | Some _ => edges_of (w_store w) end)) →
  deleting pass del w = (inr tt, w') →
  kept (w_store w) (w_store w') (filter P (edges_of (w_store w))) ∧ w_stats w' = w_stats w.
Proof.
  intros Hd. unfold deleting. destruct (del (w_store w)) as [e st] eqn:E. specialize (Hd _ _ eq_refl).
  destruct e; [done |]. by intros [= <-].
Qed.

Lemma delete_topics_ok topics (w w' : world) :
  ok (w_store w) → delete_topics topics w = (inr tt, w') →
  kept (w_store w) (w_store w') (filter (λ e, ¬ (e_Kind e = EdgeKafkaFlow ∧ e_DstName e ∈ topics)) (edges_of (w_store w))) ∧
  w_stats w' = w_stats w.
Proof.
  revert w. induction topics as [|t topics IH]; intros w Hok; simpl.
  { intros [= <-]. split; [|done]. replace (filter _ _) with (edges_of (w_store w)); [by split |].
    rewrite (filter_impl _ (λ _, True)); [by rewrite filter_true_id |].
    intros e _. split; [done |]. intros _ [_ He]. by apply elem_of_nil in He. }
  unfold mbind, R_bind. destruct (deleting _ _ w) as [[err|[]] w1] eqn:E; [done |].
  apply (deleting_ok _ _ _ _ (λ x, ¬ (e_Kind x = EdgeKafkaFlow ∧ e_DstName x = t))) in E as [K1 S1].
  2: { intros e st' H. by apply delete_by_kind_dst_ok. }
  intros [K2 S2]%IH; [|by destruct K1]. split; [|congruence].
  rewrite (stays_edges _ _ _ _ _ _ K1), list_filter_filter in K2. eapply kept_trans; [exact K1 |].
  replace (filter (λ e, ¬ (e_Kind e = EdgeKafkaFlow ∧ e_DstName e ∈ t :: topics)) (edges_of (w_store w)))
    with (filter (λ x, ¬ (e_Kind x = EdgeKafkaFlow ∧ e_DstName x ∈ topics) ∧ ¬ (e_Kind x = EdgeKafkaFlow ∧ e_DstName x = t))
            (edges_of (w_store w))); [done |].
  apply filter_impl. intros e _. rewrite elem_of_cons. tauto.
Qed.

Lemma store_flows_ok flows (w : world) :
  ok (w_store w) → Forall storable flows →
  let w' := store_flows flows w in
  ∃ ids fs, length ids = length fs ∧ sublist fs flows ∧
    kept (w_store w) (w_store w') (edges_of (w_store w) ++ zip_with with_id ids fs) ∧
    Errors (w_stats w') = (Errors (w_stats w) + Z.of_nat (length flows - length fs))%Z ∧
    KafkaFlows (w_stats w') = (KafkaFlows (w_stats w) + Z.of_nat (length fs))%Z.
Proof.
  intros Hok Hf. revert w Hok. induction Hf as [|f flows Hf Hfs IH]; intros w Hok; cbn [store_flows].
  { exists [], []. split_and!; [done | done | rewrite app_nil_r; by split | simpl; lia | simpl; lia]. }
  destruct (store_edge f (w_store w)) as [e st] eqn:E. apply store_edge_ok in E as K; [|done | done].
  destruct e as [err|].
  - destruct (IH (count (plus_stats 0 0 0 0 1) (on_store st w))) as (ids & fs & H1 & H2 & H3 & H4 & H5); [by destruct K |].
    simpl in H3, H4, H5. exists ids, fs. apply sublist_length in H2 as Hl.
    split_and!; [done | by constructor | | simpl; lia | simpl; lia].
    rewrite (stays_edges _ _ _ _ _ _ K) in H3. by eapply kept_trans.
  - destruct K as [id K].
    destruct (IH (count (plus_stats 0 0 0 1 0) (on_store st w))) as (ids & fs & H1 & H2 & H3 & H4 & H5); [by destruct K |].
    simpl in H3, H4, H5. exists (id :: ids), (f :: fs).
    split_and!; [simpl; lia | by constructor | | simpl; lia | simpl; lia].
    rewrite (stays_edges _ _ _ _ _ _ K), <- app_assoc in H3. by eapply kept_trans.
Qed.

(** ** The pass *)

Lemma read_kind_ok pass kind (w w' : world) es :
  ok (w_store w) → kind ≠ "" → reading pass (read_edges (link_query "" kind [])) w = (inr es, w') →
  kept (w_store w) (w_store w') (edges_of (w_store w)) ∧ w_stats w' = w_stats w ∧
  es ≡ₚ filter (λ e, e_Kind e = kind) (edges_of (w_store w)).
Proof.
  intros Hok Hk H. apply reading_edges_ok in H as (K & S & U); [|done]. split_and!; [done | done |].
  rewrite (U _ eq_refl). erewrite filter_impl; [done |]. intros e _. cbv beta. rewrite link_query_edges.
  unfold or_empty. simpl. rewrite (proj2 (String.eqb_neq _ _)) by done. simpl.
  destruct (String.eqb_spec kind (e_Kind e)); naive_solver.
Qed.

(** The topics of the incremental run, as the code collects them. *)
Lemma affected_topics repoID rewritten es ps cs fs t :
  repoID ≠ "" →
  ps ≡ₚ filter (λ e, e_Kind e = EdgeProduces) es → cs ≡ₚ filter (λ e, e_Kind e = EdgeConsumes) es →
  fs ≡ₚ filter (λ e, e_Kind e = EdgeKafkaFlow) es →
  t ∈ rewritten ∪ topics_of repoID ps ∪ topics_of repoID cs ∪ flow_topics repoID fs ↔ touches repoID rewritten es t.
Proof.
  intros Hr Hp Hc Hf. unfold topics_of, flow_topics, touches.
  rewrite !elem_of_union, !elem_of_list_to_set, !list_elem_of_fmap.
  setoid_rewrite list_elem_of_filter. setoid_rewrite Hp. setoid_rewrite Hc. setoid_rewrite Hf.
  setoid_rewrite list_elem_of_filter. naive_solver.
Qed.

Definition sourced (es : list Edge) : Prop := ∀ e, e ∈ es → e_Kind e = EdgeConsumes → is_id (e_SrcID e).

Lemma derived_storable affected (w : world) ps cs :
  ok (w_store w) → sourced (edges_of (w_store w)) →
  ps ≡ₚ filter (λ e, e_Kind e = EdgeProduces) (edges_of (w_store w)) →
  cs ≡ₚ filter (λ e, e_Kind e = EdgeConsumes) (edges_of (w_store w)) →
  Forall storable (derived_flows affected ps cs).
Proof.
  intros Hok Hs Hp Hc. apply Forall_forall. intros f (p & Hf & Hpin)%list_elem_of_bind.
  apply list_elem_of_fmap in Hf as (c & -> & Hcin). rewrite bucket_consumers in Hcin.
  apply list_elem_of_filter in Hcin as [_ Hcin]. rewrite Hc in Hcin. apply list_elem_of_filter in Hcin as [Hk Hcin].
  apply list_elem_of_filter in Hpin as [_ Hpin]. rewrite Hp in Hpin. apply list_elem_of_filter in Hpin as [_ Hpin].
  split; [by apply Hs |]. pose proof (edges_storable (w_store w) Hok) as H. rewrite Forall_forall in H.
  by destruct (H p Hpin) as [_ [_ ?]].
Qed.

(** The end of both branches: the flows stored, the edges are the rebuilt ones. *)
Lemma rebuild_ok affected (w w2 w' : world) ps cs :
  ok (w_store w) → sourced (edges_of (w_store w)) →
  ps ≡ₚ filter (λ e, e_Kind e = EdgeProduces) (edges_of (w_store w)) →
  cs ≡ₚ filter (λ e, e_Kind e = EdgeConsumes) (edges_of (w_store w)) →
  kept (w_store w) (w_store w2)
    (filter (λ e, ¬ (e_Kind e = EdgeKafkaFlow ∧ is_affected affected (e_DstName e) = true)) (edges_of (w_store w))) →
  w_stats w2 = w_stats w → w' = store_flows (derived_flows affected ps cs) w2 →
  Errors (w_stats w') = Errors (w_stats w) →
  (∀ t, is_affected affected t = true ∨ topic_exact t (edges_of (w_store w)) → topic_exact t (edges_of (w_store w'))) ∧
  filter (λ e, e_Kind e ≠ EdgeKafkaFlow) (edges_of (w_store w')) = filter (λ e, e_Kind e ≠ EdgeKafkaFlow) (edges_of (w_store w)).
Proof.
  intros Hok Hs Hp Hc K S -> He.
  destruct (store_flows_ok (derived_flows affected ps cs) w2) as (ids & fs & Hlen & Hsub & K2 & He2 & _);
    [by destruct K | by eapply derived_storable |].
  assert (fs = derived_flows affected ps cs) as ->.
  { apply sublist_whole; [done |]. apply sublist_length in Hsub as Hl. rewrite He2, S in He. lia. }
  rewrite (stays_edges _ _ _ _ _ _ K) in K2. rewrite (stays_edges _ _ _ _ _ _ K2). split.
  - intros t Ht. by apply rebuilt_exact.
  - by apply rebuilt_rest.
Qed.

(** C6: after [deriveKafkaFlows] a topic it touches — all of them on a full run,
    else those renamed in this run and those the repository produces to, consumes
    from, or has a flow on — carries exactly one flow from each producer to each
    consumer: from the unit and repository of the one to those of the other, at the
    place and with the metadata of the producer and at the weaker confidence of the
    two, times the factor of an exact match.  A topic that was exact stays exact, and
    no other edge changes; a topic that was neither touched nor exact is not put
    right.  This is for a run that counts no error, over edges that have a source. *)
Theorem deriveKafkaFlows_exact repoID rewritten (w w' : world) :
  ok (w_store w) → sourced (edges_of (w_store w)) →
  deriveKafkaFlows range_keys repoID rewritten w = (inr tt, w') → Errors (w_stats w') = Errors (w_stats w) →
  (∀ t, touches repoID rewritten (edges_of (w_store w)) t ∨ topic_exact t (edges_of (w_store w)) →
        topic_exact t (edges_of (w_store w'))) ∧
  filter (λ e, e_Kind e ≠ EdgeKafkaFlow) (edges_of (w_store w')) = filter (λ e, e_Kind e ≠ EdgeKafkaFlow) (edges_of (w_store w)).
Proof.
  intros Hok Hs. unfold deriveKafkaFlows, mbind, R_bind.
  destruct (reading _ _ w) as [[err|ps] w1] eqn:E1; [done |]. apply read_kind_ok in E1 as (K1 & S1 & P1); [|done | done].
  destruct (reading _ _ w1) as [[err|cs] w2] eqn:E2; [done |]. apply read_kind_ok in E2 as (K2 & S2 & P2); [|by destruct K1 | done].
  rewrite (stays_edges _ _ _ _ _ _ K1) in K2, P2. pose proof (kept_trans _ _ _ _ _ K1 K2) as K12.
  destruct (String.eqb_spec repoID "") as [->|Hr].
  - destruct (deleting _ _ w2) as [[err|[]] w3] eqn:E3; [done |].
    apply (deleting_ok _ _ _ _ (λ x, ¬ (true = true ∧ e_Kind x = EdgeKafkaFlow))) in E3 as [K3 S3].
    2: { intros e st' H. apply delete_by_kind_ok in H; [done | by destruct K12]. }
    rewrite (stays_edges _ _ _ _ _ _ K12) in K3. pose proof (kept_trans _ _ _ _ _ K12 K3) as K.
    unfold step. intros [= <-] He.
    destruct (rebuild_ok None w w3 (store_flows (derived_flows None ps cs) w3) ps cs Hok Hs P1 P2) as [R1 R2]; [|congruence | done | exact He |].
    { erewrite filter_impl; [exact K |]. intros e _. simpl. tauto. }
    split; [|done]. intros t _. apply R1. by left.
  - destruct (reading _ _ w2) as [[err|fs] w3] eqn:E3; [done |].
    apply read_kind_ok in E3 as (K3 & S3 & P3); [|by destruct K12 | done].
    rewrite (stays_edges _ _ _ _ _ _ K12) in K3, P3. pose proof (kept_trans _ _ _ _ _ K12 K3) as K123.
    pose proof (λ t, affected_topics repoID rewritten _ ps cs fs t Hr P1 P2 P3) as Haff.
    set (affected := rewritten ∪ _ ∪ _ ∪ _) in *. case_bool_decide as Hempty.
    { unfold mret, R_ret. intros [= <-] _. rewrite (stays_edges _ _ _ _ _ _ K123). split; [|done].
      intros t [Ht|Ht]; [|done]. apply Haff in Ht. set_solver. }
    destruct (delete_topics _ w3) as [[err|[]] w4] eqn:E4; [done |].
    apply delete_topics_ok in E4 as [K4 S4]; [|by destruct K123].
    rewrite (stays_edges _ _ _ _ _ _ K123) in K4. pose proof (kept_trans _ _ _ _ _ K123 K4) as K.
    unfold step. intros [= <-] He.
    destruct (rebuild_ok (Some affected) w w4
      (store_flows (derived_flows (Some affected) ps cs) w4) ps cs Hok Hs P1 P2) as [R1 R2]; [|congruence | done | exact He |].
    { erewrite filter_impl; [exact K |]. intros e _. simpl. rewrite range_keys_all, elem_of_elements, bool_decide_eq_true. done. }
    split; [|done]. intros t [Ht|Ht]; apply R1; [|by right]. left. simpl. apply bool_decide_eq_true. by apply Haff.
Qed.

End Flows.

(** ** On the sample *)

(** On SQLite a consumer edge always has a source: the foreign key. *)
Lemma db_sourced t : db_ok t → sourced (edges_of t).
Proof.
  intros Ht e (r & -> & Hin)%list_elem_of_fmap _. pose proof (rows_sourced t Ht) as Hs. pose proof (rows_ok t Ht) as Hr.
  rewrite Forall_forall in Hs, Hr. specialize (Hs r Hin). destruct (Hr r Hin) as [_ _ Hi _].
  apply has_unit_spec, list_elem_of_fmap in Hs as (u & E & Hu). pose proof (unit_rows_ok t Ht) as Hus.
  rewrite Forall_forall in Hus. destruct (Hus u Hu) as [Hb _]. right. simpl. rewrite IntOrZero_Itoa by done.
  split; [lia | done].
Qed.

Lemma deriveKafkaFlows_exact_witness :
  let w' := snd (deriveKafkaFlows elements "b" ∅ sample_world) in
  KafkaFlows (w_stats w') = 1%Z ∧ topic_exact "topic:orders" (edges_of (tables (w_store w'))).
Proof.
  assert (fst (deriveKafkaFlows elements "b" ∅ sample_world) = inr tt) as E1 by (vm_compute; reflexivity).
  assert (Errors (w_stats (snd (deriveKafkaFlows elements "b" ∅ sample_world))) = Errors (w_stats sample_world)) as E2
    by (vm_compute; reflexivity).
  assert (touches "b" ∅ (edges_of (tables (w_store sample_world))) "topic:orders") as Ht.
  { right. right. exists (with_id "2" (sample_edge "b" "2" EdgeConsumes "topic:orders" "b.go" 5)).
    split; [|by split_and!; [| left; split; [right |]]]. apply list_elem_of_lookup. exists 1. vm_compute. reflexivity. }
  pose proof (deriveKafkaFlows_exact elements (λ X, reflexivity _) "b" ∅ sample_world _ sample_ok (db_sourced _ sample_ok)
    (went_through _ E1) E2) as [H _].
  split; [vm_compute; reflexivity | apply H; by left].
Defined.

(** The consumer's file is removed between two runs.  Its units are gone, and
    with them its edge; the flow into it is unresolved, and loses the repository
    [deriveKafkaFlows] would have known it by: the second run leaves it. *)
Definition linked_once : conn db := snd (Run None elements "" sample).
Definition file_removed : conn db :=
  snd (DeleteEdgesByFiles no_fault "b" ["b.go"] (snd (DeleteASTUnitsByFiles no_fault "b" ["b.go"] linked_once))).
Definition linked_again : conn db := snd (Run None elements "b" file_removed).

Lemma removed_consumer_leaves_flow :
  fst (Run None elements "b" file_removed) = inr tt ∧
  topic_pairs "topic:orders" (edges_of (tables linked_again)) = [] ∧
  ¬ topic_exact "topic:orders" (edges_of (tables linked_again)).
Proof.
  split; [vm_compute; reflexivity |]. split; [vm_compute; reflexivity |].
  intros (fs & H%Permutation_length & HF%Forall2_length). rewrite <- H in HF. vm_compute in HF. discriminate.
Qed.
