(* ===== verification/LinkRefs.v ===== *)
(** * Config references ([resolveConfigRefs])

    The pass gathers edges into groups, edits them where they stand, deletes the
    groups that changed and stores them again.  What comes of it is an edit of
    each edge by itself. *)

From S2P Require Import Prelude GoStrings GoStrconv GoSort GoFloat GoJson GoJsonEncode Domain Store StoreQuery Contract.
From S2P Require Import Match MatchConfig MatchRoutes LinkStore Linker LinkerFacts LinkContracts LinkFacts SqlDriver SqlEdges SqlEdgesFacts SqlUnits.

(** ** What the pass means to do to an edge *)

Definition ref_kind (e : Edge) : bool := one_of [EdgeProduces; EdgeConsumes] (e_Kind e).

(** What a reference of an edge resolves to: the value of its configuration key, else
    the default its parser recorded. *)
Definition resolved_value (idx : configIndex) (e : Edge) (ref : string) : string :=
  match matchConfigKeyIndexed idx ref (e_RepoID e) with
  | "" => metaDefaultTopic (e_Meta e)
  | value => value
  end.
Lemma ref_value_resolved idx e ref : ref_value idx e ref = resolved_value idx e ref.
Proof. unfold ref_value, resolved_value. by destruct (matchConfigKeyIndexed idx ref (e_RepoID e)). Qed.

(** The topic an edge moves to. *)
Definition new_name (idx : configIndex) (e : Edge) : option string :=
  let ref := edge_ref e in
  let value := resolved_value idx e ref in
  if String.eqb ref "" || String.eqb value "" then None
  else if String.eqb (Topic value) (e_DstName e) && String.eqb (metaField (e_Meta e) metaKeyTopicRef) ref then None
  else Some (Topic value).

Definition retarget (idx : configIndex) (e : Edge) : Edge :=
  match new_name idx e, metaWithField (e_Meta e) metaKeyTopicRef (edge_ref e) with
  | Some name, Some meta => with_meta meta (with_name name e)
  | _, _ => e
  end.

Lemma retarget_none idx e : new_name idx e = None → retarget idx e = e.
Proof. unfold retarget. by intros ->. Qed.

Lemma retarget_storable idx e : storable e → storable (retarget idx e).
Proof. unfold retarget. repeat case_match; done. Qed.

(** ** The loops of the pass *)

Definition ref_of (p : nat * Edge) : option refEdge :=
  let '(i, e) := p in
  let ref := edge_ref e in
  if String.eqb ref "" then None else Some {| re_edge := i; re_key := edge_key e; re_ref := ref |}.

Lemma omap_map {A B C} (g : B → option C) (h : A → B) l : omap g (map h l) = omap (λ x, g (h x)) l.
Proof. induction l as [|x l IH]; [done |]. csimpl. by rewrite IH. Qed.

Lemma collect_refs_pairs es : collect_refs es = omap ref_of (imap pair es).
Proof.
  unfold collect_refs. rewrite <- (omap_map id ref_of). f_equal.
  change (map ref_of (imap pair es)) with (ref_of <$> imap pair es). by rewrite fmap_imap.
Qed.

Lemma pairs_index (es : list Edge) : map fst (imap pair es) = seq 0 (length es).
Proof.
  change (map fst (imap pair es)) with (fst <$> imap pair es). rewrite fmap_imap.
  etrans; [apply (imap_seq_0 es id)|]. by rewrite list_fmap_id.
Qed.

Lemma elem_of_pairs i (e : Edge) es : (i, e) ∈ imap pair es ↔ es !! i = Some e.
Proof.
  rewrite list_elem_of_lookup. split.
  - intros (j & H). rewrite list_lookup_imap in H. destruct (es !! j) eqn:E; simplify_eq/=. done.
  - intros H. exists i. by rewrite list_lookup_imap, H.
Qed.

Lemma refs_sublist l : sublist (map re_edge (omap ref_of l)) (map fst l).
Proof.
  induction l as [|[i e] l IH]; [done |]. csimpl. case_if; simpl; by constructor.
Qed.

(** The references: each edge that has one, once. *)
Lemma collect_refs_ok es :
  NoDup (map re_edge (collect_refs es)) ∧
  ∀ i r, r ∈ collect_refs es ∧ re_edge r = i ↔
    ∃ e, es !! i = Some e ∧ edge_ref e ≠ "" ∧ r = {| re_edge := i; re_key := edge_key e; re_ref := edge_ref e |}.
Proof.
  rewrite collect_refs_pairs. split.
  - eapply sublist_NoDup; [|apply refs_sublist]. rewrite pairs_index. apply NoDup_seq.
  - intros i r. rewrite list_elem_of_omap. split.
    + intros [([j e] & Hin%elem_of_pairs & H) E]. simpl in H.
      destruct (String.eqb_spec (edge_ref e) ""); simplify_eq/=. eauto.
    + intros (e & He & Hr & ->). split; [|done]. exists (i, e). rewrite elem_of_pairs. split; [done |].
      simpl. by rewrite (proj2 (String.eqb_neq _ _)).
Qed.

Section Rewrite.
  Context (idx : configIndex).

Lemma rewrite_refs_step r refs e edges touched dirty :
  edges !! re_edge r = Some e → re_ref r = edge_ref e → edge_ref e ≠ "" →
  rewrite_refs idx (r :: refs) edges touched dirty =
  match new_name idx e with
  | None => rewrite_refs idx refs edges touched dirty
  | Some name =>
      match metaWithField (e_Meta e) metaKeyTopicRef (edge_ref e) with
      | None => None
      | Some _ => rewrite_refs idx refs (<[re_edge r := retarget idx e]> edges)
                    ({[snd (re_key r); name]} ∪ touched) ({[re_key r]} ∪ dirty)
      end
  end.
Proof.
  intros He Hr Hne. cbn [rewrite_refs]. rewrite He, Hr, ref_value_resolved. unfold retarget, new_name.
  rewrite (proj2 (String.eqb_neq (edge_ref e) "") Hne). cbn [orb].
  destruct (String.eqb (resolved_value idx e (edge_ref e)) ""); [done |].
  destruct (String.eqb (Topic _) _ && _); [done |]. cbn [orb]. by destruct (metaWithField _ _ _).
Qed.

(** The edges gone through are retargeted, and the keys collected. *)
Lemma rewrite_refs_ok refs edges touched dirty edges' touched' dirty' :
  NoDup (map re_edge refs) →
  (∀ r, r ∈ refs → ∃ e, edges !! re_edge r = Some e ∧ re_key r = edge_key e ∧ re_ref r = edge_ref e ∧ edge_ref e ≠ "") →
  rewrite_refs idx refs edges touched dirty = Some (edges', touched', dirty') →
  (∀ i, edges' !! i = if decide (i ∈ map re_edge refs) then retarget idx <$> edges !! i else edges !! i) ∧
  (∀ k, k ∈ dirty' ↔ k ∈ dirty ∨ ∃ r e, r ∈ refs ∧ edges !! re_edge r = Some e ∧ new_name idx e ≠ None ∧ k = edge_key e) ∧
  (∀ t, t ∈ touched' ↔ t ∈ touched ∨
     ∃ r e name, r ∈ refs ∧ edges !! re_edge r = Some e ∧ new_name idx e = Some name ∧ (t = e_DstName e ∨ t = name)).
Proof.
  revert edges touched dirty. induction refs as [|r refs IH]; intros edges touched dirty Hnd Hrefs.
  { intros [= <- <- <-]. split_and!.
    - intros i. by rewrite decide_False by (simpl; by intros ?%elem_of_nil).
    - intros k. split; [by left |]. intros [?|(? & ? & Hin & _)]; [done | by apply elem_of_nil in Hin].
    - intros t. split; [by left |]. intros [?|(? & ? & ? & Hin & _)]; [done | by apply elem_of_nil in Hin]. }
  simpl in Hnd. apply NoDup_cons in Hnd as [Hr Hnd].
  destruct (Hrefs r (list_elem_of_here _ _)) as (e & He & Hk & Href & Hne).
  rewrite (rewrite_refs_step r refs e) by done.
  assert (∀ r' x, r' ∈ refs → <[re_edge r:=x]> edges !! re_edge r' = edges !! re_edge r') as Hother.
  { intros r' x Hin. apply list_lookup_insert_ne. intros E. apply Hr. rewrite E. by apply list_elem_of_fmap_2. }
  destruct (new_name idx e) as [name|] eqn:En.
  - destruct (metaWithField _ _ _) as [meta|]; [|done]. intros H.
    apply IH in H as (H1 & H2 & H3); [|done|].
    2: { intros r' Hin. rewrite Hother by done. apply Hrefs. by right. }
    split_and!.
    + intros i. rewrite H1. cbn [map]. destruct (decide (i = re_edge r)) as [->|Hi].
      * rewrite decide_False by done. rewrite decide_True by (by left). rewrite He. simpl.
        rewrite list_lookup_insert_eq; [done |]. by eapply lookup_lt_Some.
      * rewrite list_lookup_insert_ne by done. destruct (decide (i ∈ map re_edge refs)) as [Hin|Hin].
        { by rewrite decide_True by (by right). }
        { by rewrite decide_False by (by rewrite elem_of_cons; naive_solver). }
    + intros k. rewrite H2, elem_of_union, elem_of_singleton, Hk. split.
      * intros [[->|?]|(r' & e' & Hin & He' & Hn & ->)].
        { right. exists r, e. split_and!; [by left | done | by rewrite En | done]. }
        { by left. }
        { right. exists r', e'. rewrite Hother in He' by done. split_and!; [by right | done..]. }
      * intros [?|(r' & e' & [->|Hin]%elem_of_cons & He' & Hn & ->)].
        { left. by right. }
        { left. left. congruence. }
        { right. exists r', e'. by rewrite Hother. }
    + intros t. rewrite H3, !elem_of_union, !elem_of_singleton, Hk. cbn [edge_key snd]. split.
      * intros [[[-> | ->]|?]|(r' & e' & n & Hin & He' & Hn & Ht)].
        { right. exists r, e, name. split_and!; [by left | done | done | by left]. }
        { right. exists r, e, name. split_and!; [by left | done | done | by right]. }
        { by left. }
        { right. exists r', e', n. rewrite Hother in He' by done. split_and!; [by right | done..]. }
      * intros [?|(r' & e' & n & [->|Hin]%elem_of_cons & He' & Hn & Ht)].
        { left. by right. }
        { left. left. assert (e' = e) as -> by congruence. assert (n = name) as -> by congruence. done. }
        { right. exists r', e', n. by rewrite Hother. }
  - intros H. apply IH in H as (H1 & H2 & H3); [|done | intros r' Hin; apply Hrefs; by right].
    split_and!.
    + intros i. rewrite H1. cbn [map]. destruct (decide (i = re_edge r)) as [->|Hi].
      * rewrite decide_False by done. rewrite decide_True by (by left). rewrite He. simpl. by rewrite retarget_none.
      * destruct (decide (i ∈ map re_edge refs)) as [Hin|Hin].
        { by rewrite decide_True by (by right). }
        { by rewrite decide_False by (by rewrite elem_of_cons; naive_solver). }
    + intros k. rewrite H2. split; (intros [?|(r' & e' & Hin & He' & Hn & ->)]; [by left |]).
      * right. exists r', e'. split_and!; [by right | done..].
      * apply elem_of_cons in Hin as [->|Hin]; [congruence |]. right. by exists r', e'.
    + intros t. rewrite H3. split; (intros [?|(r' & e' & n & Hin & He' & Hn & Ht)]; [by left |]).
      * right. exists r', e', n. split_and!; [by right | done..].
      * apply elem_of_cons in Hin as [->|Hin]; [congruence |]. right. by exists r', e', n.
Qed.

End Rewrite.

(** ** Groups *)

Lemma bucket_groups es k :
  bucket (edge_groups es) k = map fst (filter (λ p, edge_key (snd p) = k) (imap pair es)).
Proof.
  unfold edge_groups.
  rewrite (bucket_fold _ (λ k (p : nat * Edge), if decide (edge_key (snd p) = k) then [fst p] else [])).
  - rewrite bucket_empty. simpl. generalize (imap pair es) as l. induction l as [|p l IH]; [done |].
    rewrite bind_cons, filter_cons. case_decide; simpl; by rewrite IH.
  - intros m [i e]. apply bucket_push.
Qed.

Lemma pairs_edges (es : list Edge) : map snd (imap pair es) = es.
Proof.
  change (map snd (imap pair es)) with (snd <$> imap pair es). rewrite fmap_imap.
  etrans; [apply (imap_const id) | apply list_fmap_id].
Qed.

Lemma filter_pairs (es' : list Edge) (f : Edge → Edge) k (l : list (nat * Edge)) :
  (∀ i e, (i, e) ∈ l → es' !! i = Some (f e)) →
  omap (λ i, es' !! i) (map fst (filter (λ p, edge_key (snd p) = k) l)) = map f (filter (λ e, edge_key e = k) (map snd l)).
Proof.
  induction l as [|[i e] l IH]; intros Hl; [done |]. cbn [map snd]. rewrite !filter_cons. cbn [snd].
  case_decide; [|by apply IH; intros; apply Hl; right]. cbn [map fst]. csimpl.
  rewrite (Hl i e) by (by left). f_equal. apply IH. intros. apply Hl. by right.
Qed.

Lemma group_edges (es es' : list Edge) (f : Edge → Edge) k :
  (∀ i e, es !! i = Some e → es' !! i = Some (f e)) →
  omap (λ i, es' !! i) (bucket (edge_groups es) k) = map f (filter (λ e, edge_key e = k) es).
Proof.
  intros Hf. rewrite bucket_groups, (filter_pairs es' f); [by rewrite pairs_edges |].
  intros i e Hin%elem_of_pairs. by apply Hf.
Qed.

Lemma filter_keys (ks : list edgeKey) es :
  NoDup ks → ks ≫= (λ k, filter (λ e, edge_key e = k) es) ≡ₚ filter (λ e, edge_key e ∈ ks) es.
Proof.
  induction 1 as [|k ks Hk Hnd IH].
  { simpl. rewrite list_nil_filter; [done |]. intros e _. apply not_elem_of_nil. }
  rewrite bind_cons, IH. clear IH. induction es as [|e es IH]; [done |]. rewrite !filter_cons.
  destruct (decide (edge_key e = k)) as [E|E].
  - rewrite decide_False by (by rewrite E). rewrite decide_True by (rewrite E; by left). simpl. by rewrite IH.
  - destruct (decide (edge_key e ∈ ks)) as [Hin|Hin].
    + rewrite decide_True by (by right). rewrite <- IH. by rewrite Permutation_middle.
    + rewrite decide_False by (by rewrite elem_of_cons; intros [?|?]). done.
Qed.

Section Groups.
  Context {St} {L : LinkStore St} {ok : St → Prop} {edges_of : St → list Edge} {units_of : St → list ASTUnit}.
  Context `{!LinkStoreLaws L ok edges_of units_of}.

Abbreviation kept := (stays ok edges_of units_of).
Abbreviation world := (world (St := St)).

Lemma delete_groups_ok keys (w w' : world) pending :
  ok (w_store w) → delete_groups keys w = (pending, w') →
  sublist pending keys ∧
  kept (w_store w) (w_store w') (filter (λ e, edge_key e ∉ pending) (edges_of (w_store w))) ∧
  Errors (w_stats w') = (Errors (w_stats w) + Z.of_nat (length keys - length pending))%Z.
Proof.
  revert w pending. induction keys as [|key keys IH]; intros w pending Hok; cbn [delete_groups].
  { intros [= <- <-]. split_and!; [done | | simpl; lia]. split; [done | done |].
    rewrite (filter_impl _ (λ _, True)); [by rewrite filter_true_id |]. intros e _. split; [done |].
    intros _. apply not_elem_of_nil. }
  destruct (delete_by_kind_dst _ _ (w_store w)) as [e st] eqn:E. apply delete_by_kind_dst_ok in E as K; [|done].
  destruct e as [err|].
  - intros (H1 & H2 & H3)%IH; [|by destruct K]. cbn [w_store w_stats count on_store plus_stats Errors] in H2, H3.
    rewrite (stays_edges _ _ _ _ _ _ K) in H2. apply sublist_length in H1 as Hl.
    split_and!; [by constructor | by eapply kept_trans | simpl length; lia].
  - destruct (delete_groups keys (on_store st w)) as [pend w1] eqn:E1. intros [= <- <-].
    apply IH in E1 as (H1 & H2 & H3); [|by destruct K]. cbn [w_store w_stats on_store] in H2, H3.
    rewrite (stays_edges _ _ _ _ _ _ K), list_filter_filter in H2. apply sublist_length in H1 as Hl.
    split_and!; [by constructor | | simpl length; lia].
    erewrite filter_impl; [by eapply kept_trans |]. intros e _. cbv beta.
    rewrite not_elem_of_cons. unfold edge_key. destruct key. simpl. naive_solver.
Qed.

Lemma zip_stripped ids (es : list Edge) :
  length ids = length es → map strip (zip_with with_id ids (map (with_id "") es)) = map strip es.
Proof.
  revert ids. induction es as [|e es IH]; intros [|id ids] H; simplify_eq/=; [done |]. by rewrite IH.
Qed.

Lemma restore_groups_ok groups pending (w : world) :
  ok (w_store w) → (∀ k, k ∈ pending → Forall storable (groups k)) →
  let w' := restore_groups groups pending w in
  ∃ stored new, sublist stored pending ∧ map strip new = stored ≫= (λ k, map strip (groups k)) ∧
    kept (w_store w) (w_store w') (edges_of (w_store w) ++ new) ∧
    Errors (w_stats w') = (Errors (w_stats w) + Z.of_nat (length pending - length stored))%Z.
Proof.
  intros Hok Hst. revert w Hok. induction pending as [|key pending IH]; intros w Hok; cbn [restore_groups].
  { exists [], []. split_and!; [done | done | rewrite app_nil_r; by split | simpl; lia]. }
  specialize (IH (λ k Hk, Hst k (list_elem_of_further _ _ _ Hk))).
  assert (Forall storable (map (with_id "") (groups key))) as Hg.
  { apply Forall_map. eapply Forall_impl; [apply Hst; by left | done]. }
  destruct (store_edges _ (w_store w)) as [e st] eqn:E. apply store_edges_ok in E as K; [|done | done].
  destruct e as [err|].
  - destruct (IH (count (plus_stats 0 0 0 0 1) (on_store st w))) as (stored & new & H1 & H2 & H3 & H4); [by destruct K |].
    cbn [w_store w_stats count on_store plus_stats Errors] in H3, H4. apply sublist_length in H1 as Hl.
    exists stored, new. rewrite (stays_edges _ _ _ _ _ _ K) in H3.
    split_and!; [by constructor | done | by eapply kept_trans | simpl length; lia].
  - destruct K as (ids & Hlen & K).
    destruct (IH (on_store st w)) as (stored & new & H1 & H2 & H3 & H4); [by destruct K |].
    cbn [w_store w_stats on_store] in H3, H4. apply sublist_length in H1 as Hl.
    rewrite (stays_edges _ _ _ _ _ _ K), <- app_assoc in H3. rewrite length_map in Hlen.
    exists (key :: stored), (zip_with with_id ids (map (with_id "") (groups key)) ++ new).
    split_and!; [by constructor | | by eapply kept_trans | simpl length; lia].
    rewrite map_app, H2, bind_cons, zip_stripped by done. done.
Qed.

End Groups.

(** ** The pass *)

Section Pass.
  Context (idx : configIndex) (es edges' : list Edge) (touched : gset string) (dirty : gset edgeKey).
  Context (rewritten : rewrite_refs idx (collect_refs es) es ∅ ∅ = Some (edges', touched, dirty)).

Lemma pass_refs_ok :
  (∀ i e, es !! i = Some e → edges' !! i = Some (retarget idx e)) ∧
  (∀ k, k ∈ dirty ↔ ∃ e, e ∈ es ∧ new_name idx e ≠ None ∧ k = edge_key e) ∧
  (∀ t, t ∈ touched ↔ ∃ e name, e ∈ es ∧ new_name idx e = Some name ∧ (t = e_DstName e ∨ t = name)).
Proof.
  destruct (collect_refs_ok es) as [Hnd Hc].
  assert (∀ e, new_name idx e ≠ None → edge_ref e ≠ "") as Href by (unfold new_name; intros e H E; by rewrite E in H).
  assert (∀ i e, es !! i = Some e → edge_ref e ≠ "" →
    ∃ r, r ∈ collect_refs es ∧ re_edge r = i) as Hin.
  { intros i e He Hr. exists {| re_edge := i; re_key := edge_key e; re_ref := edge_ref e |}. apply Hc. eauto. }
  apply rewrite_refs_ok in rewritten as (H1 & H2 & H3); [|done |].
  2: { intros r Hr. destruct (proj1 (Hc (re_edge r) r) (conj Hr eq_refl)) as (e & He & Hne & Er).
       exists e. split_and!; [done | by rewrite Er | by rewrite Er | done]. }
  split_and!.
  - intros i e He. rewrite H1. case_decide as Hd; [by rewrite He |]. rewrite He. f_equal. symmetry. apply retarget_none.
    destruct (new_name idx e) eqn:En; [|done]. exfalso. apply Hd.
    destruct (Hin i e He) as (r & Hr & <-); [apply Href; by rewrite En |]. by apply list_elem_of_fmap_2.
  - intros k. rewrite H2. split.
    + intros [?%not_elem_of_empty|(r & e & _ & He & Hn & ->)]; [done |]. exists e.
      split_and!; [by eapply list_elem_of_lookup_2 | done..].
    + intros (e & (i & He)%list_elem_of_lookup & Hn & ->). right.
      destruct (Hin i e He (Href e Hn)) as (r & Hr & <-). by exists r, e.
  - intros t. rewrite H3. split.
    + intros [?%not_elem_of_empty|(r & e & name & _ & He & Hn & Ht)]; [done |]. exists e, name.
      split_and!; [by eapply list_elem_of_lookup_2 | done..].
    + intros (e & name & (i & He)%list_elem_of_lookup & Hn & Ht). right.
      destruct (Hin i e He) as (r & Hr & <-); [apply Href; by rewrite Hn |]. by exists r, e, name.
Qed.

End Pass.

(** What the run means to leave of an edge. *)
Definition moved (idx : configIndex) (e : Edge) : Edge := if ref_kind e then retarget idx e else e.

(** Groups replaced by their edits, the rest as it was: each edge edited. *)
Lemma replaced_edges idx (E es : list Edge) (ks : list edgeKey) :
  NoDup ks → es ≡ₚ filter (λ e, ref_kind e = true) E →
  (∀ k, k ∈ ks ↔ ∃ e, e ∈ es ∧ new_name idx e ≠ None ∧ k = edge_key e) →
  map strip (filter (λ e, edge_key e ∉ ks) E) ++ (ks ≫= λ k, map strip (map (retarget idx) (filter (λ e, edge_key e = k) es))) ≡ₚ
  map strip (map (moved idx) E).
Proof.
  intros Hnd Hes Hks.
  assert (ks ≫= (λ k, map strip (map (retarget idx) (filter (λ e, edge_key e = k) es))) =
          map strip (map (retarget idx) (ks ≫= λ k, filter (λ e, edge_key e = k) es))) as ->.
  { clear. induction ks as [|k ks IH]; [done |]. rewrite !bind_cons, !map_app. by rewrite IH. }
  rewrite (filter_keys ks es Hnd), Hes, <- map_app. apply Permutation_map.
  rewrite <- (filter_app_complement (λ e, edge_key e ∈ ks) E) at 3. rewrite map_app, Permutation_app_comm.
  apply Permutation_app.
  - rewrite list_filter_filter.
    rewrite (filter_impl (λ e, edge_key e ∈ ks ∧ ref_kind e = true) (λ e, edge_key e ∈ ks)).
    + apply reflexive_eq, map_ext_in. intros e [Hk Hin]%list_elem_of_In%list_elem_of_filter. unfold moved.
      replace (ref_kind e) with true; [done |]. apply Hks in Hk as (x & Hx & _ & Ex).
      rewrite Hes in Hx. apply list_elem_of_filter in Hx as [Hx _]. unfold edge_key in Ex. injection Ex as Ek _.
      unfold ref_kind in Hx |- *. by rewrite Ek.
    + intros e _. split; [tauto |]. intros Hk. split; [done |]. apply Hks in Hk as (x & Hx & _ & Ex).
      rewrite Hes in Hx. apply list_elem_of_filter in Hx as [Hx _]. unfold edge_key in Ex. injection Ex as Ek _.
      unfold ref_kind in Hx |- *. by rewrite Ek.
  - rewrite <- (map_id (filter _ E)) at 1. apply reflexive_eq, map_ext_in. intros e [Hk Hin]%list_elem_of_In%list_elem_of_filter.
    unfold moved. destruct (ref_kind e) eqn:Er; [|done]. symmetry. apply retarget_none.
    destruct (new_name idx e) eqn:En; [|done]. exfalso. apply Hk, Hks. exists e. rewrite Hes, list_elem_of_filter.
    by rewrite En.
Qed.

Section Refs.
  Context {St} {L : LinkStore St} {ok : St → Prop} {edges_of : St → list Edge} {units_of : St → list ASTUnit}.
  Context `{!LinkStoreLaws L ok edges_of units_of}.

Abbreviation kept := (stays ok edges_of units_of).
Abbreviation world := (world (St := St)).

Lemma rewriteEdgeGroups_ok keys groups (w w' : world) :
  ok (w_store w) → NoDup keys → (∀ k, k ∈ keys → groups k ≠ [] ∧ Forall storable (groups k)) →
  w' = rewriteEdgeGroups keys groups w →
  ∃ ks gone stored new, ks ≡ₚ keys ∧ sublist gone ks ∧ sublist stored gone ∧
    map strip new = stored ≫= (λ k, map strip (groups k)) ∧
    kept (w_store w) (w_store w') (filter (λ e, edge_key e ∉ gone) (edges_of (w_store w)) ++ new) ∧
    Errors (w_stats w') = (Errors (w_stats w) + Z.of_nat (length ks - length stored))%Z.
Proof.
  intros Hok Hnd Hg ->. unfold rewriteEdgeGroups.
  set (ks := SliceSort key_less _). destruct (delete_groups ks w) as [gone w1] eqn:E1.
  assert (ks ≡ₚ keys) as HP.
  { unfold ks. rewrite SliceSort_perm, (filter_impl _ (λ _, True)); [by rewrite filter_true_id |].
    intros k Hk. split; [done |]. intros _. by apply Hg. }
  apply delete_groups_ok in E1 as (H1 & K1 & S1); [|done].
  destruct (restore_groups_ok groups gone w1) as (stored & new & H2 & H3 & K2 & S2); [by destruct K1 | |].
  { intros k Hk. apply Hg. rewrite <- HP. by eapply elem_of_sublist. }
  rewrite (stays_edges _ _ _ _ _ _ K1) in K2. exists ks, gone, stored, new.
  apply sublist_length in H1 as L1. apply sublist_length in H2 as L2.
  split_and!; [done | done | done | done | by eapply kept_trans | lia].
Qed.

(** C20: [resolveConfigRefs] edits edges one by one, however it groups them.  When
    every write went through, the edges are those of before, ids of rewritten
    groups apart: none lost, none doubled, and each producer and consumer edge
    with a reference that resolves — by a configuration key, else by the default
    its parser recorded — names the topic it resolves to and keeps the reference.
    Whatever fails, a group none of whose edges moves is untouched, and a group
    that is not as meant has counted an error.  The topics returned are the old
    and new names of the edges that move. *)
Theorem resolveConfigRefs_retargets (w w' : world) touched :
  ok (w_store w) → resolveConfigRefs w = (inr touched, w') →
  units_of (w_store w') = units_of (w_store w) ∧ (Errors (w_stats w) ≤ Errors (w_stats w'))%Z ∧
  ∃ keys, keys ≡ₚ filter (λ u, unit_matches (link_query "" KindConfigKey []) u = true) (units_of (w_store w)) ∧
    let idx := buildConfigIndex keys in
    (Errors (w_stats w') = Errors (w_stats w) →
       map strip (edges_of (w_store w')) ≡ₚ map strip (map (moved idx) (edges_of (w_store w)))) ∧
    (∀ e, e ∈ edges_of (w_store w) →
       (∀ x, x ∈ edges_of (w_store w) → edge_key x = edge_key e → ref_kind x = true → new_name idx x = None) →
       e ∈ edges_of (w_store w')) ∧
    (∀ t, t ∈ touched ↔ ∃ e name, e ∈ edges_of (w_store w) ∧ ref_kind e = true ∧ new_name idx e = Some name ∧
       (t = e_DstName e ∨ t = name)).
Proof.
  intros Hok. unfold resolveConfigRefs, mbind, R_bind.
  destruct (reading _ _ w) as [[err|es] w1] eqn:E1; [done |]. apply reading_edges_ok in E1 as (K1 & S1 & P1); [|done].
  specialize (P1 _ eq_refl).
  assert (es ≡ₚ filter (λ e, ref_kind e = true) (edges_of (w_store w))) as Hes.
  { rewrite P1. erewrite filter_impl; [done |]. intros e _. by rewrite link_query_edges. }
  destruct (collect_refs es) as [|r refs] eqn:Er.
  { unfold mret, R_ret. intros [= <- <-]. rewrite (stays_units _ _ _ _ _ _ K1), (stays_edges _ _ _ _ _ _ K1), S1.
    split_and!; [done | lia |]. eexists. split; [done |]. cbv zeta.
    set (idx := buildConfigIndex _).
    assert (∀ e, e ∈ edges_of (w_store w) → ref_kind e = true → new_name idx e = None) as Hnone.
    { intros e He Hk. assert (e ∈ es) as (i & Hi)%list_elem_of_lookup by (by rewrite Hes, list_elem_of_filter).
      unfold new_name. destruct (String.eqb_spec (edge_ref e) "") as [|Hne]; [done |].
      destruct (collect_refs_ok es) as [_ Hc]. rewrite Er in Hc.
      destruct (proj2 (Hc i _) (ex_intro _ e (conj Hi (conj Hne eq_refl)))) as [H _]. by apply elem_of_nil in H. }
    split_and!; [|done |].
    - intros _. rewrite <- (map_id (edges_of (w_store w))) at 1. apply reflexive_eq. f_equal. apply map_ext_in.
      intros e He%list_elem_of_In. unfold moved. destruct (ref_kind e) eqn:Ek; [|done]. by rewrite retarget_none by auto.
    - intros t. split; [by intros ?%not_elem_of_empty |]. intros (e & name & He & Hk & Hn & _). by rewrite Hnone in Hn. }
  rewrite <- Er. clear r refs Er.
  destruct (reading _ _ w1) as [[err|keys] w2] eqn:E2; [done |].
  apply reading_units_ok in E2 as (K2 & S2 & P2); [|by destruct K1]. specialize (P2 _ eq_refl).
  rewrite (stays_edges _ _ _ _ _ _ K1) in K2. rewrite (stays_units _ _ _ _ _ _ K1) in P2.
  pose proof (kept_trans _ _ _ _ _ K1 K2) as K12. set (idx := buildConfigIndex keys).
  destruct (rewrite_refs idx (collect_refs es) es ∅ ∅) as [[[edges' tch] dirty]|] eqn:Erw; [|done].
  destruct (pass_refs_ok idx es edges' tch dirty Erw) as (Hedges & Hdirty & Htouched).
  unfold step. intros [= <- Hw]. symmetry in Hw.
  assert (∀ k, omap (λ i, edges' !! i) (bucket (edge_groups es) k) = map (retarget idx) (filter (λ e, edge_key e = k) es)) as Hgr
    by (intros k; by apply group_edges).
  apply rewriteEdgeGroups_ok in Hw as (ks & gone & stored & new & HP & H1 & H2 & H3 & K & S).
  2: by destruct K12.
  2: apply NoDup_elements.
  2: { intros k Hk%elem_of_elements%Hdirty. rewrite Hgr. destruct Hk as (e & He & _ & ->). split.
       - assert (e ∈ filter (λ x, edge_key x = edge_key e) es) as Hin by (by apply list_elem_of_filter).
         intros Hnil. destruct (filter _ es); [by apply elem_of_nil in Hin | done].
       - apply Forall_map, Forall_filter, Forall_forall. intros x Hx. apply retarget_storable.
         rewrite Hes in Hx. apply list_elem_of_filter in Hx as [_ Hx]. pose proof (edges_storable (w_store w) Hok) as Hst.
         rewrite Forall_forall in Hst. by apply Hst. }
  rewrite (stays_edges _ _ _ _ _ _ K12) in K. pose proof (kept_trans _ _ _ _ _ K12 K) as K3.
  rewrite (stays_units _ _ _ _ _ _ K3), (stays_edges _ _ _ _ _ _ K3). rewrite S, S2, S1.
  split_and!; [done | lia |]. exists keys. cbv zeta. fold idx.
  assert (∀ k, k ∈ ks ↔ ∃ e, e ∈ es ∧ new_name idx e ≠ None ∧ k = edge_key e) as Hks
    by (intros k; rewrite HP, elem_of_elements; apply Hdirty).
  apply sublist_length in H1 as L1. apply sublist_length in H2 as L2.
  split_and!; [done | | |].
  - intros Herr. assert (gone = ks) as -> by (apply sublist_whole; [done | lia]).
    assert (stored = ks) as -> by (apply sublist_whole; [done | lia]).
    rewrite map_app, H3. etrans; [|apply (replaced_edges idx (edges_of (w_store w)) es ks); [|done | done]].
    + apply Permutation_app_head. apply bind_perm; [done |]. intros k. by rewrite Hgr.
    + rewrite HP. apply NoDup_elements.
  - intros e He Hstay. rewrite elem_of_app, list_elem_of_filter. left. split; [|done]. intros Hg.
    assert (edge_key e ∈ ks) as (x & Hx & Hn & Ex)%Hks by (by eapply elem_of_sublist).
    rewrite Hes in Hx. apply list_elem_of_filter in Hx as [Hk Hx]. by apply Hn, Hstay.
  - intros t. rewrite Htouched. setoid_rewrite Hes. setoid_rewrite list_elem_of_filter. naive_solver.
Qed.

End Refs.

Lemma resolveConfigRefs_retargets_witness :
  let w' := snd (resolveConfigRefs sample_world) in
  map (λ e, (e_ID e, e_DstName e)) (filter (λ e, e_Kind e = EdgeProduces) (edges_of (tables (w_store w')))) =
    [("1", "topic:orders"); ("6", "topic:orders")] ∧
  ∃ idx, map strip (edges_of (tables (w_store w'))) ≡ₚ map strip (map (moved idx) (edges_of (tables sample))).
Proof.
  assert (resolveConfigRefs sample_world = (inr {["topic:${orders.topic}"; "topic:orders"]}, snd (resolveConfigRefs sample_world))) as E1
    by (vm_compute; reflexivity).
  assert (Errors (w_stats (snd (resolveConfigRefs sample_world))) = Errors (w_stats sample_world)) as E2
    by (vm_compute; reflexivity).
  pose proof (resolveConfigRefs_retargets sample_world _ _ sample_ok E1) as (_ & _ & keys & _ & H & _).
  split; [vm_compute; reflexivity |]. eexists. exact (H E2).
Defined.
