(* ===== verification/SqlJobs.v ===== *)
(** * The job queue ([internal/store/sqlite/jobs.go], [internal/domain/job.go])

    Indexing jobs of several instances in one table.  A method is one call on
    the database, or two for the requeue; [now] is the time it reads.  The partial
    unique index allows one pending index job to a repository: a statement that
    would leave two fails.

    As a state machine: each method moves each job by a step of its own life —
    pending, running, ended — whatever calls fail; a commit job ends only by the
    hand of the worker that holds it; the queue is served in order; and the sweep of
    stale jobs gives every one of them back. *)

From S2P Require Import Prelude GoStrings GoStrconv GoSort Domain Store StoreQuery SqlDriver SqlEdgesFacts.

Definition JobStatusPending : string := "pending".
Definition JobStatusRunning : string := "running".
Definition JobStatusDone : string := "done".
Definition JobStatusError : string := "error".

Definition JobKindIndex : string := "index".
Definition JobKindCommits : string := "commits".

(** [domain.IndexJob] *)
Record IndexJob := {
  ij_ID : string;
  ij_RepoID : string;
  ij_Kind : string;
  ij_Force : bool;
  ij_Status : string;
  ij_Error : string;
  ij_CreatedAt : Z;
  ij_ClaimedAt : Z;
  ij_HeartbeatAt : Z;
  ij_ClaimedBy : string;
  ij_Payload : string
}.

(** A row of the table [index_jobs]. *)
Record JobRow := {
  job_id : Z;
  job_repo_id : string;
  job_kind : string;
  job_force : bool;
  job_status : string;
  job_error : string;
  job_created_at : Z;
  job_claimed_at : Z;
  job_heartbeat_at : Z;
  job_claimed_by : string;
  job_payload : string
}.

Record jobs_db := { db_jobs : list JobRow; db_next_job : Z }.
Abbreviation jstmt := (statement jobs_db).

(** [scanJobRow], and [jobFromRow] when the payload is left out *)
Definition scanJobRow (withPayload : bool) (r : JobRow) : IndexJob := {|
  ij_ID := Itoa (job_id r); ij_RepoID := job_repo_id r; ij_Kind := job_kind r; ij_Force := job_force r;
  ij_Status := job_status r; ij_Error := job_error r; ij_CreatedAt := job_created_at r;
  ij_ClaimedAt := job_claimed_at r; ij_HeartbeatAt := job_heartbeat_at r; ij_ClaimedBy := job_claimed_by r;
  ij_Payload := if withPayload then job_payload r else "" |}.
Definition jobFromRow : JobRow → IndexJob := scanJobRow false.

(** ** Edits of a row *)

Definition set_force (f : bool) (r : JobRow) : JobRow := {|
  job_id := job_id r; job_repo_id := job_repo_id r; job_kind := job_kind r; job_force := f;
  job_status := job_status r; job_error := job_error r; job_created_at := job_created_at r;
  job_claimed_at := job_claimed_at r; job_heartbeat_at := job_heartbeat_at r; job_claimed_by := job_claimed_by r;
  job_payload := job_payload r |}.
Definition set_claim (status : string) (at_ heartbeat : Z) (by_ : string) (r : JobRow) : JobRow := {|
  job_id := job_id r; job_repo_id := job_repo_id r; job_kind := job_kind r; job_force := job_force r;
  job_status := status; job_error := job_error r; job_created_at := job_created_at r;
  job_claimed_at := at_; job_heartbeat_at := heartbeat; job_claimed_by := by_; job_payload := job_payload r |}.
Definition set_outcome (status error payload : string) (r : JobRow) : JobRow := {|
  job_id := job_id r; job_repo_id := job_repo_id r; job_kind := job_kind r; job_force := job_force r;
  job_status := status; job_error := error; job_created_at := job_created_at r;
  job_claimed_at := job_claimed_at r; job_heartbeat_at := job_heartbeat_at r; job_claimed_by := job_claimed_by r;
  job_payload := payload |}.

(** ** Conditions *)

Definition has_status (s : string) (r : JobRow) : bool := String.eqb (job_status r) s.
Definition is_index (r : JobRow) : bool := String.eqb (job_kind r) JobKindIndex.
Definition pending_index (repo : string) (r : JobRow) : bool :=
  String.eqb (job_repo_id r) repo && has_status JobStatusPending r && is_index r.
Definition held_by (id : Z) (worker : string) (r : JobRow) : bool :=
  (job_id r =? id)%Z && has_status JobStatusRunning r && String.eqb (job_claimed_by r) worker.
Definition stale (cutoff : Z) (r : JobRow) : bool :=
  has_status JobStatusRunning r && (job_heartbeat_at r <? cutoff)%Z.

(** ** Statements *)

(** The partial unique index. *)
Definition one_pending (js : list JobRow) : bool :=
  bool_decide (NoDup (map job_repo_id (filter (λ r, has_status JobStatusPending r && is_index r = true) js))).

(** [UPDATE index_jobs SET ... WHERE ...] answers the rows it changed. *)
Definition update_jobs (p : JobRow → bool) (f : JobRow → JobRow) : jstmt nat := λ t,
  let js := map (λ r, if p r then f r else r) (db_jobs t) in
  if one_pending js
  then inr (length (filter (λ r, p r = true) (db_jobs t)), {| db_jobs := js; db_next_job := db_next_job t |})
  else inl (StoreFailure "UNIQUE constraint failed").

Definition insert_job (r : Z → JobRow) : jstmt JobRow := λ t,
  if negb (in_int64 (db_next_job t)) then inl (StoreFailure "database or disk is full")
  else
    let row := r (db_next_job t) in
    let js := db_jobs t ++ [row] in
    if one_pending js then inr (row, {| db_jobs := js; db_next_job := db_next_job t + 1 |})
    else inl (StoreFailure "UNIQUE constraint failed").

Definition new_job (repo kind payload : string) (force : bool) (now id : Z) : JobRow := {|
  job_id := id; job_repo_id := repo; job_kind := kind; job_force := force; job_status := JobStatusPending;
  job_error := ""; job_created_at := now; job_claimed_at := 0; job_heartbeat_at := 0; job_claimed_by := "";
  job_payload := payload |}.

(** The upsert of [EnqueueIndexJob]: the pending row of the repository takes the
    flag, or a row is added. *)
Definition upsert_index_job (repo : string) (force : bool) (now : Z) : jstmt JobRow := λ t,
  match List.find (pending_index repo) (db_jobs t) with
  | Some r =>
      let r' := set_force (job_force r || force) r in
      inr (r', {| db_jobs := map (λ x, if pending_index repo x then set_force (job_force x || force) x else x) (db_jobs t);
                  db_next_job := db_next_job t |})
  | None => insert_job (new_job repo JobKindIndex "" force now) t
  end.

Definition enqueueCommitJob (repo payload : string) (now : Z) : jstmt JobRow :=
  insert_job (new_job repo JobKindCommits payload false now).

(** The pending job of the smallest id becomes the worker's. *)
Definition by_id (a b : JobRow) : bool := (job_id a <? job_id b)%Z.
Definition oldest_pending (js : list JobRow) : option JobRow :=
  head (SliceSort by_id (filter (λ r, has_status JobStatusPending r = true) js)).
Definition claim_next (worker : string) (now : Z) : jstmt JobRow := λ t,
  match oldest_pending (db_jobs t) with
  | None => inl ErrNotFound
  | Some r =>
      match update_jobs (λ x, (job_id x =? job_id r)%Z) (set_claim JobStatusRunning now now worker) t with
      | inr (_, t') => inr (set_claim JobStatusRunning now now worker r, t')
      | inl e => inl e
      end
  end.

Definition heartbeatIndexJob (now id : Z) (worker : string) : jstmt nat :=
  update_jobs (held_by id worker) (λ r, set_claim (job_status r) (job_claimed_at r) now (job_claimed_by r) r).
Definition completeIndexJob (status error : string) (id : Z) (worker : string) : jstmt nat :=
  update_jobs (held_by id worker) (set_outcome status error "").

Definition superseded : string := "superseded by a pending job for the same repo".

Definition to_pending : JobRow → JobRow := set_claim JobStatusPending 0 0 "".

Definition release_job (id : Z) (worker : string) : jstmt nat := λ t,
  update_jobs (λ r, held_by id worker r && (negb (is_index r) || negb (existsb (pending_index (job_repo_id r)) (db_jobs t))))
    to_pending t.

(** The least id of the stale index jobs of a repository. *)
Definition min_stale (cutoff : Z) (repo : string) (js : list JobRow) : option Z :=
  head (SliceSort Z.ltb (map job_id (filter (λ r, stale cutoff r && is_index r && String.eqb (job_repo_id r) repo = true) js))).
Definition surplus (cutoff : Z) (js : list JobRow) (r : JobRow) : bool :=
  stale cutoff r && is_index r &&
  (existsb (pending_index (job_repo_id r)) js || negb (bool_decide (min_stale cutoff (job_repo_id r) js = Some (job_id r)))).
Definition supersede_stale (cutoff : Z) : jstmt nat := λ t,
  update_jobs (surplus cutoff (db_jobs t)) (λ r, set_outcome JobStatusError superseded (job_payload r) r) t.
Definition requeue_stale (cutoff : Z) : jstmt nat := update_jobs (stale cutoff) to_pending.

Definition hasPendingCommitJobBefore (repo : string) (id : Z) : jstmt bool := λ t,
  inr (existsb (λ r, String.eqb (job_repo_id r) repo && String.eqb (job_kind r) JobKindCommits &&
         (has_status JobStatusPending r || has_status JobStatusRunning r) && (job_id r <? id)%Z) (db_jobs t), t).

Definition getIndexJob (id : Z) : jstmt IndexJob := λ t,
  match filter (λ r, job_id r = id) (db_jobs t) with
  | r :: _ => inr (jobFromRow r, t)
  | [] => inl ErrNotFound
  end.
Definition listIndexJobs (repo : string) (limit : Z) : jstmt (list IndexJob) := λ t,
  inr (map jobFromRow (take (Z.to_nat limit)
    (reverse (SliceSort by_id (filter (λ r, job_repo_id r = repo) (db_jobs t))))), t).

(** ** Methods *)

Section Methods.
  Context (fault : nat → option StoreError).
  Abbreviation call := (call fault).

Definition defaultJobListLimit : Z := 50.

Definition answer {A B} (f : A → B) (r : Fallible A * conn jobs_db) : Fallible B * conn jobs_db :=
  match r with (inl e, d) => (inl e, d) | (inr x, d) => (inr (f x), d) end.

(** [EnqueueIndexJob] *)
Definition EnqueueIndexJob (repo : string) (force : bool) (now : Z) (d : conn jobs_db) :=
  answer jobFromRow (call (upsert_index_job repo force now) d).

(** [EnqueueCommitJob] *)
Definition EnqueueCommitJob (repo payload : string) (now : Z) (d : conn jobs_db) :=
  answer jobFromRow (call (enqueueCommitJob repo payload now) d).

(** [GetIndexJob] *)
Definition GetIndexJob (id : string) (d : conn jobs_db) := call (getIndexJob (IntOrZero id)) d.

(** [ListIndexJobs] *)
Definition ListIndexJobs (repo : string) (limit : Z) (d : conn jobs_db) :=
  call (listIndexJobs repo (if (limit <=? 0)%Z then defaultJobListLimit else limit)) d.

(** [HasPendingCommitJobBefore] *)
Definition HasPendingCommitJobBefore (repo id : string) (d : conn jobs_db) :=
  call (hasPendingCommitJobBefore repo (IntOrZero id)) d.

(** [ClaimNextIndexJob] *)
Definition ClaimNextIndexJob (worker : string) (now : Z) (d : conn jobs_db) :=
  answer (scanJobRow true) (call (claim_next worker now) d).

(** [HeartbeatIndexJob] *)
Definition HeartbeatIndexJob (id worker : string) (now : Z) (d : conn jobs_db) :=
  report_rows (call (heartbeatIndexJob now (IntOrZero id) worker) d).

(** [CompleteIndexJob] *)
Definition CompleteIndexJob (id worker jobErr : string) (d : conn jobs_db) :=
  report_rows (call (completeIndexJob (if String.eqb jobErr "" then JobStatusDone else JobStatusError) jobErr
                       (IntOrZero id) worker) d).

(** [ReleaseIndexJob] *)
Definition ReleaseIndexJob (id worker : string) (d : conn jobs_db) : option StoreError * conn jobs_db :=
  match call (release_job (IntOrZero id) worker) d with
  | (inl e, d) => (Some e, d)
  | (inr n, d) => if 0 <? n then (None, d) else CompleteIndexJob id worker superseded d
  end.

(** [RequeueStaleIndexJobs] *)
Definition RequeueStaleIndexJobs (olderThanSec now : Z) (d : conn jobs_db) : Fallible nat * conn jobs_db :=
  let cutoff := (now - olderThanSec)%Z in
  match call (supersede_stale cutoff) d with
  | (inl e, d) => (inl e, d)
  | (inr _, d) => call (requeue_stale cutoff) d
  end.

End Methods.

(** ** Well-formed tables *)

Definition ended (r : JobRow) : Prop := job_status r = JobStatusDone ∨ job_status r = JobStatusError.
Definition unclaimed (r : JobRow) : Prop := job_claimed_by r = "" ∧ job_claimed_at r = 0%Z ∧ job_heartbeat_at r = 0%Z.

Record job_ok (next : Z) (r : JobRow) : Prop := {
  job_id_bounds : (0 < job_id r < next)%Z;
  job_id_int64 : in_int64 (job_id r) = true;
  job_kinds : job_kind r = JobKindIndex ∨ job_kind r = JobKindCommits;
  job_states : (job_status r = JobStatusPending ∧ unclaimed r) ∨ job_status r = JobStatusRunning ∨ ended r;
  index_no_payload : job_kind r = JobKindIndex → job_payload r = "";
  ended_no_payload : ended r → job_payload r = ""
}.

Record jobs_ok (t : jobs_db) : Prop := {
  jobs_distinct : NoDup (map job_id (db_jobs t));
  jobs_rows : Forall (job_ok (db_next_job t)) (db_jobs t);
  jobs_next : (0 < db_next_job t)%Z;
  jobs_one_pending : one_pending (db_jobs t) = true
}.

Definition empty_jobs : jobs_db := {| db_jobs := []; db_next_job := 1 |}.

Lemma empty_jobs_ok : jobs_ok empty_jobs.
Proof. split; [constructor | constructor | done | done]. Qed.

Lemma has_status_spec s r : has_status s r = true ↔ job_status r = s.
Proof. apply String.eqb_eq. Qed.
Lemma is_index_spec r : is_index r = true ↔ job_kind r = JobKindIndex.
Proof. apply String.eqb_eq. Qed.
Lemma held_by_spec id w r :
  held_by id w r = true ↔ job_id r = id ∧ job_status r = JobStatusRunning ∧ job_claimed_by r = w.
Proof. unfold held_by. rewrite !andb_true_iff, Z.eqb_eq, has_status_spec, String.eqb_eq. tauto. Qed.
Lemma stale_spec c r : stale c r = true ↔ job_status r = JobStatusRunning ∧ (job_heartbeat_at r < c)%Z.
Proof. unfold stale. by rewrite andb_true_iff, has_status_spec, Z.ltb_lt. Qed.
Lemma pending_index_spec repo r :
  pending_index repo r = true ↔ job_repo_id r = repo ∧ job_status r = JobStatusPending ∧ job_kind r = JobKindIndex.
Proof. unfold pending_index. rewrite !andb_true_iff, String.eqb_eq, has_status_spec, is_index_spec. tauto. Qed.

(** ** The life of a job *)

(** The calls on the queue. *)
Inductive job_op :=
  | OpEnqueue (repo : string) (force : bool)
  | OpCommit (repo payload : string)
  | OpClaim (worker : string)
  | OpHeartbeat (id worker : string)
  | OpComplete (id worker jobErr : string)
  | OpRelease (id worker : string)
  | OpRequeue (olderThanSec : Z).

(** What a call may do to a job. *)
Inductive job_step (now : Z) : job_op → JobRow → JobRow → Prop :=
  | job_absorbs repo force r :
      pending_index repo r = true → job_step now (OpEnqueue repo force) r (set_force (job_force r || force) r)
  | job_claimed w r :
      job_status r = JobStatusPending → job_step now (OpClaim w) r (set_claim JobStatusRunning now now w r)
  | job_beats id w r :
      held_by (IntOrZero id) w r = true →
      job_step now (OpHeartbeat id w) r (set_claim JobStatusRunning (job_claimed_at r) now w r)
  | job_completes id w err r :
      held_by (IntOrZero id) w r = true →
      job_step now (OpComplete id w err) r
        (set_outcome (if String.eqb err "" then JobStatusDone else JobStatusError) err "" r)
  | job_released id w r :
      held_by (IntOrZero id) w r = true → job_step now (OpRelease id w) r (to_pending r)
  | job_dropped id w r :
      held_by (IntOrZero id) w r = true → job_kind r = JobKindIndex →
      job_step now (OpRelease id w) r (set_outcome JobStatusError superseded "" r)
  | job_requeued age r :
      stale (now - age) r = true → job_step now (OpRequeue age) r (to_pending r)
  | job_superseded age r :
      stale (now - age) r = true → job_kind r = JobKindIndex →
      job_step now (OpRequeue age) r (set_outcome JobStatusError superseded "" r).

Lemma job_step_keeps now op r r' :
  job_step now op r r' → job_id r' = job_id r ∧ job_repo_id r' = job_repo_id r ∧ job_kind r' = job_kind r.
Proof. by destruct 1. Qed.

Lemma job_step_ok next now op r r' : job_step now op r r' → job_ok next r → job_ok next r'.
Proof.
  intros H [H1 H2 H3 H4 H5 H6]. destruct H; split; try done; unfold unclaimed, ended in *; simpl.
  - by right; left.
  - intros [?|?]; discriminate.
  - by right; left.
  - intros [?|?]; discriminate.
  - right. right. case_if; [by left | by right].
  - by left.
  - intros [?|?]; discriminate.
  - by right; right; right.
  - by left.
  - intros [?|?]; discriminate.
  - by right; right; right.
Qed.

Definition moves (now : Z) (op : job_op) (r r' : JobRow) : Prop := r' = r ∨ job_step now op r r'.

(** A call moves the jobs of a table, in their places, and may add one. *)
Definition new_of (op : job_op) (next now : Z) (r : JobRow) : Prop :=
  match op with
  | OpEnqueue repo force => r = new_job repo JobKindIndex "" force now next
  | OpCommit repo payload => r = new_job repo JobKindCommits payload false now next
  | _ => False
  end.
Definition evolves (now : Z) (op : job_op) (t t' : jobs_db) : Prop :=
  ∃ old new, db_jobs t' = old ++ new ∧ Forall2 (moves now op) (db_jobs t) old ∧
    (new = [] ∨ ∃ r, new = [r] ∧ new_of op (db_next_job t) now r).

Lemma evolves_refl now op t : evolves now op t t.
Proof.
  exists (db_jobs t), []. rewrite app_nil_r. split_and!; [done | | by left].
  induction (db_jobs t); constructor; [by left | done].
Qed.

Lemma moves_ids now op js js' : Forall2 (moves now op) js js' → map job_id js' = map job_id js.
Proof.
  induction 1 as [|r r' js js' Hr H IH]; [done |]. simpl. f_equal; [|done].
  destruct Hr as [->|Hr]; [done | by destruct (job_step_keeps _ _ _ _ Hr)].
Qed.

Lemma moves_rows now op next js js' :
  Forall2 (moves now op) js js' → Forall (job_ok next) js → Forall (job_ok next) js'.
Proof.
  induction 1 as [|r r' js js' Hr H IH]; [done |]. intros [H1 H2]%Forall_cons. constructor; [|by apply IH].
  destruct Hr as [->|Hr]; [done | by eapply job_step_ok].
Qed.

Lemma update_moves now op p f js :
  (∀ r, r ∈ js → p r = true → job_step now op r (f r)) → Forall2 (moves now op) js (map (λ r, if p r then f r else r) js).
Proof.
  induction js as [|r js IH]; intros H; simpl; constructor.
  - destruct (p r) eqn:E; [right; apply H; [by left | done] | by left].
  - apply IH. intros r' Hr'. apply H. by right.
Qed.

Lemma update_jobs_ok now op p f t n t' :
  jobs_ok t → (∀ r, r ∈ db_jobs t → p r = true → job_step now op r (f r)) → update_jobs p f t = inr (n, t') →
  jobs_ok t' ∧ evolves now op t t' ∧ db_jobs t' = map (λ r, if p r then f r else r) (db_jobs t) ∧
  n = length (filter (λ r, p r = true) (db_jobs t)).
Proof.
  intros [H1 H2 H3 H4] Hp. unfold update_jobs. cbv zeta. case_if; [|done]. intros [= <- <-].
  apply update_moves in Hp as Hm. split_and!; [|exists (map (λ r, if p r then f r else r) (db_jobs t)), [] | done | done].
  - split; simpl; [by erewrite moves_ids | by eapply moves_rows | done | done].
  - rewrite app_nil_r. split_and!; [done | done | by left].
Qed.

Lemma insert_job_ok now op f t x t' :
  jobs_ok t → new_of op (db_next_job t) now (f (db_next_job t)) → insert_job f t = inr (x, t') →
  jobs_ok t' ∧ evolves now op t t'.
Proof.
  intros [H1 H2 H3 H4] Hf. unfold insert_job. destruct (in_int64 _) eqn:Ei; [|done]. cbn [negb]. cbv zeta. case_if; [|done]. intros [= <- <-].
  assert (job_ok (db_next_job t + 1) (f (db_next_job t)) ∧ job_id (f (db_next_job t)) = db_next_job t) as [Hok Hid].
  { assert (∀ repo kind payload force, kind = JobKindIndex ∧ payload = "" ∨ kind = JobKindCommits →
      job_ok (db_next_job t + 1) (new_job repo kind payload force now (db_next_job t))) as Hnew.
    { intros repo kind payload force Hk. split; simpl.
      - lia.
      - done.
      - tauto.
      - by left.
      - intros ->. destruct Hk as [[_ ?]|?]; [done | discriminate].
      - intros [?|?]; discriminate. }
    destruct op; try done; simpl in Hf; rewrite Hf; (split; [apply Hnew; tauto | done]). }
  split.
  - split; simpl; [| |lia|done].
    + rewrite map_app. apply NoDup_app. split_and!; [done | | apply NoDup_singleton].
      intros z (r & -> & Hr)%list_elem_of_fmap Hz%list_elem_of_singleton. rewrite Hid in Hz.
      rewrite Forall_forall in H2. destruct (H2 r Hr) as [Hb _ _ _ _ _]. simpl in Hz. lia.
    + apply Forall_app. split; [|by apply Forall_singleton]. eapply Forall_impl; [exact H2 |].
      intros r []. split; try done. lia.
  - exists (db_jobs t), [f (db_next_job t)]. split_and!; [done | | right; by eexists].
    clear. induction (db_jobs t); constructor; [by left | done].
Qed.

(** ** The statements *)

Lemma upsert_ok now repo force t x t' :
  jobs_ok t → upsert_index_job repo force now t = inr (x, t') → jobs_ok t' ∧ evolves now (OpEnqueue repo force) t t'.
Proof.
  intros Ht. unfold upsert_index_job. destruct (List.find _ _) as [r|] eqn:Ef; [|by apply insert_job_ok].
  intros [= _ <-].
  assert (Forall2 (moves now (OpEnqueue repo force)) (db_jobs t)
    (map (λ x, if pending_index repo x then set_force (job_force x || force) x else x) (db_jobs t))) as Hm.
  { apply update_moves. intros y _ Hy. by constructor. }
  destruct Ht as [H1 H2 H3 H4]. split.
  - split; simpl; [by erewrite moves_ids | by eapply moves_rows | done |].
    rewrite <- H4. unfold one_pending.
    match goal with |- bool_decide (NoDup ?a) = bool_decide (NoDup ?b) => assert (a = b) as ->; [|done] end.
    clear. induction (db_jobs t) as [|r js IH]; [done |]. simpl. rewrite !filter_cons.
    destruct (pending_index repo r); repeat case_decide; simpl; try done; by f_equal.
  - eexists _, []. rewrite app_nil_r. split_and!; [done | done | by left].
Qed.

Lemma sorted_head js r : head (SliceSort by_id js) = Some r → r ∈ js.
Proof.
  intros H. apply (SliceSort_elem by_id). destruct (SliceSort by_id js) as [|x l]; [done |].
  injection H as ->. by left.
Qed.

Lemma oldest_pending_in js r : oldest_pending js = Some r → r ∈ js ∧ job_status r = JobStatusPending.
Proof.
  intros [H1 H2]%sorted_head%list_elem_of_filter. split; [done |]. by apply has_status_spec.
Qed.

Lemma claim_next_ok w now t x t' :
  jobs_ok t → claim_next w now t = inr (x, t') →
  jobs_ok t' ∧ evolves now (OpClaim w) t t' ∧
  ∃ r, oldest_pending (db_jobs t) = Some r ∧ x = set_claim JobStatusRunning now now w r ∧
    db_jobs t' = map (λ y, if (job_id y =? job_id r)%Z then set_claim JobStatusRunning now now w y else y) (db_jobs t).
Proof.
  intros Ht. unfold claim_next. destruct (oldest_pending _) as [r|] eqn:Eo; [|done].
  destruct (update_jobs _ _ t) as [e|[n t1]] eqn:Eu; [done |]. intros [= <- <-].
  apply oldest_pending_in in Eo as [Hr Hp].
  apply (update_jobs_ok now (OpClaim w)) in Eu as (H1 & H2 & H3 & _); [|done |].
  - split_and!; [done | done | by exists r].
  - intros y Hy E%Z.eqb_eq. constructor. by rewrite (NoDup_map_inj job_id (db_jobs t) y r (jobs_distinct t Ht) Hy Hr E).
Qed.

(** An update of no row is none. *)
Lemma update_jobs_none p f t t' :
  update_jobs p f t = inr (0, t') → t' = t ∧ ∀ r, r ∈ db_jobs t → p r = false.
Proof.
  unfold update_jobs. cbv zeta. case_if; [|done]. intros [= Hn%length_zero_iff_nil <-].
  assert (∀ r, r ∈ db_jobs t → p r = false) as Hp.
  { intros r Hr. destruct (p r) eqn:Ep; [|done].
    assert (r ∈ filter (λ r, p r = true) (db_jobs t)) as Hf by (by apply list_elem_of_filter).
    rewrite Hn in Hf. by apply elem_of_nil in Hf. }
  split; [|done]. destruct t as [js next]. simpl in *. f_equal.
  rewrite <- (map_id js) at 2. apply map_ext_in. intros r Hr%list_elem_of_In. by rewrite Hp.
Qed.

Lemma evolves_map now op t t' g :
  db_jobs t' = map g (db_jobs t) → (∀ r, r ∈ db_jobs t → moves now op r (g r)) → evolves now op t t'.
Proof.
  intros E Hg. exists (db_jobs t'), []. rewrite app_nil_r. split_and!; [done | | by left]. rewrite E. clear E.
  induction (db_jobs t) as [|r js IH]; constructor; [apply Hg; by left |]. apply IH. intros x Hx. apply Hg. by right.
Qed.

Lemma supersede_stale_ok now age t n t' :
  jobs_ok t → supersede_stale (now - age) t = inr (n, t') →
  jobs_ok t' ∧ evolves now (OpRequeue age) t t' ∧
  db_jobs t' = map (λ r, if surplus (now - age) (db_jobs t) r then set_outcome JobStatusError superseded (job_payload r) r else r) (db_jobs t).
Proof.
  intros Ht H. eapply (update_jobs_ok now (OpRequeue age)) in H as (H1 & H2 & H3 & _); [done | done |].
  intros r Hr. unfold surplus. rewrite !andb_true_iff, is_index_spec. intros [[Hs Hk] _].
  pose proof (jobs_rows t Ht) as Hrows. rewrite Forall_forall in Hrows.
  rewrite (index_no_payload _ _ (Hrows r Hr) Hk). by constructor.
Qed.

Lemma requeue_stale_ok now age t n t' :
  jobs_ok t → requeue_stale (now - age) t = inr (n, t') →
  jobs_ok t' ∧ evolves now (OpRequeue age) t t' ∧
  db_jobs t' = map (λ r, if stale (now - age) r then to_pending r else r) (db_jobs t).
Proof.
  intros Ht H. eapply (update_jobs_ok now (OpRequeue age)) in H as (H1 & H2 & H3 & _); [done | done |].
  intros r Hr Hs. by constructor.
Qed.

(** ** The methods *)

Section Methods.
  Context (fault : nat → option StoreError).

Definition perform (op : job_op) (now : Z) (d : conn jobs_db) : conn jobs_db :=
  match op with
  | OpEnqueue repo force => snd (EnqueueIndexJob fault repo force now d)
  | OpCommit repo payload => snd (EnqueueCommitJob fault repo payload now d)
  | OpClaim w => snd (ClaimNextIndexJob fault w now d)
  | OpHeartbeat id w => snd (HeartbeatIndexJob fault id w now d)
  | OpComplete id w err => snd (CompleteIndexJob fault id w err d)
  | OpRelease id w => snd (ReleaseIndexJob fault id w d)
  | OpRequeue age => snd (RequeueStaleIndexJobs fault age now d)
  end.

Definition advances now op (d d' : conn jobs_db) : Prop :=
  jobs_ok (tables d') ∧ evolves now op (tables d) (tables d').

(** A method of one call. *)
Lemma call_advances {A} now op (s : statement jobs_db A) d r d' :
  jobs_ok (tables d) →
  (∀ x t', s (tables d) = inr (x, t') → jobs_ok t' ∧ evolves now op (tables d) t') →
  call fault s d = (r, d') → advances now op d d'.
Proof.
  unfold advances. intros Hd Hs [(e & _ & ->)|(x & _ & H)]%call_cases; [split; [done | apply evolves_refl] | by eapply Hs].
Qed.

Lemma answer_advances {A B} now op (f : A → B) (s : statement jobs_db A) d :
  jobs_ok (tables d) →
  (∀ x t', s (tables d) = inr (x, t') → jobs_ok t' ∧ evolves now op (tables d) t') →
  advances now op d (snd (answer f (call fault s d))).
Proof.
  intros Hd Hs. destruct (call fault s d) as [r d'] eqn:E. eapply call_advances in E; [|done..]. by destruct r.
Qed.

Lemma rows_advances now op (s : statement jobs_db nat) d :
  jobs_ok (tables d) →
  (∀ x t', s (tables d) = inr (x, t') → jobs_ok t' ∧ evolves now op (tables d) t') →
  advances now op d (snd (report_rows (call fault s d))).
Proof.
  intros Hd Hs. destruct (call fault s d) as [r d'] eqn:E. eapply call_advances in E; [|done..]. by destruct r.
Qed.

Lemma release_advances now id w d : jobs_ok (tables d) → advances now (OpRelease id w) d (snd (ReleaseIndexJob fault id w d)).
Proof.
  intros Hd. unfold ReleaseIndexJob. destruct (call fault (release_job (IntOrZero id) w) d) as [r d1] eqn:E.
  pose proof E as [(e & -> & Ht)|(n & -> & Hs)]%call_cases.
  { simpl. unfold advances. rewrite Ht. split; [done | apply evolves_refl]. }
  destruct (Nat.ltb_spec 0 n) as [Hn|Hn].
  - simpl. eapply (call_advances now (OpRelease id w)) in E; [done | done |]. intros x t' H.
    apply (update_jobs_ok now (OpRelease id w)) in H as (H1 & H2 & _); [done | done |].
    intros r _ Hp. apply andb_true_iff in Hp as [Hp _]. by constructor.
  - assert (n = 0) as -> by lia. apply update_jobs_none in Hs as [Ht Hnone]. unfold CompleteIndexJob, advances. rewrite <- Ht.
    apply rows_advances; [by rewrite Ht |]. intros x t' H.
    apply (update_jobs_ok now (OpRelease id w)) in H as (H1 & H2 & _); [done | by rewrite Ht |].
    intros r Hr Hp. rewrite Ht in Hr. specialize (Hnone r Hr). rewrite Hp in Hnone. simpl in Hnone.
    apply orb_false_iff in Hnone as [Hk%negb_false_iff%is_index_spec _]. by constructor.
Qed.

Lemma requeue_advances now age d : jobs_ok (tables d) → advances now (OpRequeue age) d (snd (RequeueStaleIndexJobs fault age now d)).
Proof.
  intros Hd. unfold RequeueStaleIndexJobs. destruct (call fault _ d) as [r d1] eqn:E1.
  apply call_cases in E1 as [(e & -> & Ht)|(n & -> & Hs)].
  { simpl. unfold advances. rewrite Ht. split; [done | apply evolves_refl]. }
  apply (supersede_stale_ok now age) in Hs as (H1 & H2 & E1); [|done].
  destruct (call fault (requeue_stale _) d1) as [r2 d2] eqn:E2. simpl. unfold advances.
  apply call_cases in E2 as [(e & -> & ->)|(m & -> & Hs)]; [done |].
  apply (requeue_stale_ok now age) in Hs as (H3 & _ & E2); [|done]. split; [done |].
  rewrite E1, map_map in E2. apply (evolves_map _ _ _ _ _ E2). intros r Hr.
  destruct (surplus (now - age) (db_jobs (tables d)) r) eqn:Es.
  - right. change (stale (now - age) (set_outcome JobStatusError superseded (job_payload r) r)) with false. cbv iota.
    unfold surplus in Es. rewrite !andb_true_iff, is_index_spec in Es. destruct Es as [[Hst Hk] _].
    pose proof (jobs_rows _ Hd) as Hrows. rewrite Forall_forall in Hrows.
    rewrite (index_no_payload _ _ (Hrows r Hr) Hk). by constructor.
  - destruct (stale (now - age) r) eqn:Est; [right; by constructor | by left].
Qed.

Lemma perform_advances now op d : jobs_ok (tables d) → advances now op d (perform op now d).
Proof.
  intros Hd. destruct op as [repo force|repo payload|w|id w|id w err|id w|age]; simpl.
  - apply answer_advances; [done |]. intros x t'. by apply upsert_ok.
  - apply answer_advances; [done |]. intros x t'. by apply insert_job_ok.
  - apply answer_advances; [done |]. intros x t' H. apply claim_next_ok in H as (H1 & H2 & _); done.
  - apply rows_advances; [done |]. intros x t' H.
    apply (update_jobs_ok now (OpHeartbeat id w)) in H as (H1 & H2 & _); [done | done |].
    intros r _ Hp. pose proof Hp as (_ & -> & ->)%held_by_spec. by constructor.
  - apply rows_advances; [done |]. intros x t' H.
    apply (update_jobs_ok now (OpComplete id w err)) in H as (H1 & H2 & _); [done | done |]. intros r _ Hp. by constructor.
  - by apply release_advances.
  - by apply requeue_advances.
Qed.

End Methods.
