(* ===== verification/SqlQueue.v ===== *)
(** * The job queue over time

    A schedule is any sequence of calls, by any workers, at any times; a call may
    fail.  What a job can live through, what becomes of commit jobs and of jobs a
    worker holds, and that the queue is served in order. *)

From S2P Require Import Prelude GoStrings GoStrconv GoSort Domain Store StoreQuery SqlDriver SqlEdgesFacts SqlJobs.
From S2P Require Import SqlJobs.

Definition schedule : Type := list (job_op * Z).

Definition run (fault : nat → option StoreError) (ops : schedule) (d : conn jobs_db) : conn jobs_db :=
  foldl (λ d p, perform fault (fst p) (snd p) d) d ops.

(** A job steps through some of the calls of a schedule, in their order. *)
Inductive life : schedule → JobRow → JobRow → Prop :=
  | life_end r : life [] r r
  | life_idle op now ops r r' : life ops r r' → life ((op, now) :: ops) r r'
  | life_step op now ops r r1 r' : job_step now op r r1 → life ops r1 r' → life ((op, now) :: ops) r r'.

Lemma run_lives fault ops d :
  jobs_ok (tables d) →
  jobs_ok (tables (run fault ops d)) ∧
  ∃ old new, db_jobs (tables (run fault ops d)) = old ++ new ∧ Forall2 (life ops) (db_jobs (tables d)) old.
Proof.
  revert d. induction ops as [|[op now] ops IH]; intros d Hd.
  { split; [done |]. exists (db_jobs (tables d)), []. simpl. rewrite app_nil_r. split; [done |].
    induction (db_jobs (tables d)); constructor; [constructor | done]. }
  simpl. destruct (perform_advances fault now op d Hd) as (H1 & old1 & new1 & E1 & F1 & _).
  destruct (IH _ H1) as (H2 & old & new & E2 & F2). split; [done |]. rewrite E1 in F2.
  apply Forall2_app_inv_l in F2 as (old2 & new2 & F2 & F3 & ->). exists old2, (new2 ++ new).
  rewrite E2, <- app_assoc. split; [done |]. clear -F1 F2.
  revert old2 F2. induction F1 as [|r r1 js js1 Hr F1 IH]; intros old2 F2; inversion F2; subst; constructor; [|by apply IH].
  destruct Hr as [->|Hs]; [by constructor | by eapply life_step].
Qed.

(** Where a job of the table is after a schedule. *)
Lemma run_row fault ops d r :
  jobs_ok (tables d) → r ∈ db_jobs (tables d) → ∃ r', r' ∈ db_jobs (tables (run fault ops d)) ∧ life ops r r'.
Proof.
  intros Hd Hr. destruct (run_lives fault ops d Hd) as (_ & old & new & E & F).
  apply list_elem_of_lookup in Hr as (i & Hi). destruct (Forall2_lookup_l _ _ _ _ _ F Hi) as (r' & Hi' & Hl).
  exists r'. split; [|done]. rewrite E. apply elem_of_app. left. by eapply list_elem_of_lookup_2.
Qed.

Lemma life_keeps ops r r' : life ops r r' → job_id r' = job_id r ∧ job_repo_id r' = job_repo_id r ∧ job_kind r' = job_kind r.
Proof.
  induction 1 as [|op now ops r r' H IH|op now ops r r1 r' Hs H IH]; [done | done |].
  apply job_step_keeps in Hs as (<- & <- & <-). done.
Qed.

(** ** Commit jobs *)

Definition in_queue (r : JobRow) : Prop := job_status r = JobStatusPending ∨ job_status r = JobStatusRunning.

Lemma job_step_from now op r r' : job_step now op r r' → in_queue r.
Proof.
  unfold in_queue.
  destruct 1 as [??? H|?? H|??? H|???? H|??? H|??? H _|?? H|?? H _];
    first [by left | apply pending_index_spec in H | apply held_by_spec in H | apply stale_spec in H]; tauto.
Qed.

Lemma in_queue_open r : in_queue r → ¬ ended r.
Proof. unfold in_queue, ended. intros [->| ->] [?|?]; discriminate. Qed.

Lemma ended_stays ops r r' : life ops r r' → ended r → r' = r.
Proof.
  induction 1 as [|op now ops r r' H IH|op now ops r r1 r' Hs H IH]; [done | done |].
  intros He. by apply job_step_from, in_queue_open in Hs.
Qed.

(** A commit job in the queue stays in it, its batch with it, until a worker that
    holds it says how it ended. *)
Definition completed (ops : schedule) (r r' : JobRow) : Prop :=
  ∃ id w err now, (OpComplete id w err, now) ∈ ops ∧ IntOrZero id = job_id r ∧ job_error r' = err ∧
    job_status r' = (if String.eqb err "" then JobStatusDone else JobStatusError).

Lemma commit_life ops r r' :
  life ops r r' → job_kind r = JobKindCommits → in_queue r →
  (in_queue r' ∧ job_payload r' = job_payload r) ∨ completed ops r r'.
Proof.
  induction 1 as [r|op now ops r r' H IH|op now ops r r1 r' Hs H IH]; intros Hk Hq; [by left | |].
  - destruct (IH Hk Hq) as [?|(id & w & err & n & Hin & ?)]; [by left |]. right. exists id, w, err, n.
    split; [by right | done].
  - assert (completed ops r1 r' → completed ((op, now) :: ops) r r') as Hlater.
    { intros (id & w & err & n & Hin & Hid & Hrest). exists id, w, err, n. split; [by right |].
      apply job_step_keeps in Hs as [<- _]. done. }
    destruct Hs; try (destruct IH as [?|?]; [done | exact Hq || by (left + right) | by left | right; by apply Hlater]).
    + right. exists id, w, err, now. apply held_by_spec in H0 as (Hid & _ & _).
      apply ended_stays in H as ->; [|unfold ended; simpl; case_if; [by left | by right]].
      split_and!; [by left | done | done | done].
    + rewrite Hk in H1. discriminate.
    + rewrite Hk in H1. discriminate.
Qed.

(** ** Jobs held by a worker *)

(** Calls that leave a job with its holder: any but its own releasing or
    completing it, and a sweep that finds its heartbeat stale. *)
Definition respects (id : Z) (w : string) (cutoff : Z) (p : job_op * Z) : Prop :=
  match fst p with
  | OpComplete id' w' _ | OpRelease id' w' => ¬ (IntOrZero id' = id ∧ w' = w)
  | OpRequeue age => (snd p - age ≤ cutoff)%Z
  | OpHeartbeat _ _ => (cutoff ≤ snd p)%Z
  | _ => True
  end.

Lemma held_life ops id w cutoff r r' :
  life ops r r' → held_by id w r = true → (cutoff ≤ job_heartbeat_at r)%Z → Forall (respects id w cutoff) ops →
  held_by id w r' = true ∧ (cutoff ≤ job_heartbeat_at r')%Z.
Proof.
  induction 1 as [r|op now ops r r' H IH|op now ops r r1 r' Hs H IH]; intros Hh Hc Hops; [done | |].
  - apply Forall_cons in Hops as [_ Hops]. by apply IH.
  - apply Forall_cons in Hops as [Hop Hops]. unfold respects in Hop. simpl in Hop.
    pose proof Hh as (Hid & Hst & Hw)%held_by_spec.
    destruct Hs as [repo force r Hp|w' r Hp|id' w' r Hp|id' w' err r Hp|id' w' r Hp|id' w' r Hp Hk|age r Hp|age r Hp Hk].
    + apply pending_index_spec in Hp as (_ & Hp & _). rewrite Hst in Hp. discriminate.
    + rewrite Hst in Hp. discriminate.
    + apply IH; [|done|done]. apply held_by_spec in Hp as (Hid' & _ & Hw'). apply held_by_spec.
      split_and!; [done | done | simpl; congruence].
    + exfalso. apply Hop. apply held_by_spec in Hp as (Hid' & _ & Hw'). split; congruence.
    + exfalso. apply Hop. apply held_by_spec in Hp as (Hid' & _ & Hw'). split; congruence.
    + exfalso. apply Hop. apply held_by_spec in Hp as (Hid' & _ & Hw'). split; congruence.
    + apply stale_spec in Hp as [_ Hp]. lia.
    + apply stale_spec in Hp as [_ Hp]. lia.
Qed.

(** C7: no commit batch is lost.  Whatever calls come, from whatever workers, at
    whatever times, and whichever of them fail, the queue stays well formed — ids
    distinct, one pending index job to a repository, pending jobs unclaimed — and
    a queued commit job is found again under its id: in the queue, its batch
    intact, or ended by a completion naming it, with the outcome that gave. *)
Theorem commit_jobs_kept fault ops d r :
  jobs_ok (tables d) → r ∈ db_jobs (tables d) → job_kind r = JobKindCommits → in_queue r →
  jobs_ok (tables (run fault ops d)) ∧
  ∃ r', r' ∈ db_jobs (tables (run fault ops d)) ∧ job_id r' = job_id r ∧ job_repo_id r' = job_repo_id r ∧
    (in_queue r' ∧ job_payload r' = job_payload r ∨ completed ops r r').
Proof.
  intros Hd Hr Hk Hq. split; [by apply run_lives |]. destruct (run_row fault ops d r Hd Hr) as (r' & Hr' & Hl).
  exists r'. pose proof (life_keeps _ _ _ Hl) as (H1 & H2 & _). split_and!; [done.. |]. by apply commit_life.
Qed.

(** A job is one worker's at a time.  As long as the worker that claimed a
    job neither completes nor releases it and no sweep counts its heartbeat as
    stale, nothing any other worker does — claim, complete, release, heartbeat,
    enqueue — takes it away or ends it. *)
Theorem held_job_exclusive fault ops d r id w cutoff :
  jobs_ok (tables d) → r ∈ db_jobs (tables d) → held_by id w r = true → (cutoff ≤ job_heartbeat_at r)%Z →
  Forall (respects id w cutoff) ops →
  ∀ r', r' ∈ db_jobs (tables (run fault ops d)) → job_id r' = id → held_by id w r' = true.
Proof.
  intros Hd Hr Hh Hc Hops r' Hr' Hid'. destruct (run_row fault ops d r Hd Hr) as (r1 & Hr1 & Hl).
  destruct (held_life _ _ _ _ _ _ Hl Hh Hc Hops) as [Hh1 _]. pose proof Hh1 as (Hid1 & _ & _)%held_by_spec.
  rewrite (NoDup_map_inj job_id _ r' r1 (jobs_distinct _ (proj1 (run_lives fault ops d Hd))) Hr' Hr1); [done | congruence].
Qed.

(** ** The queue in order *)

Lemma by_id_swo : SwoOn (λ _, True) by_id.
Proof. unfold by_id. split; intros; [apply Z.ltb_irrefl | |]; rewrite ?Z.ltb_lt in *; lia. Qed.

Definition waiting (js : list JobRow) : list JobRow :=
  SliceSort by_id (filter (λ r, has_status JobStatusPending r = true) js).

Definition takes_slot (r : JobRow) : bool := has_status JobStatusPending r && is_index r.

(** An edit that makes no job pending keeps the unique index. *)
Lemma one_pending_less g js :
  (∀ r, r ∈ js → takes_slot (g r) = true → takes_slot r = true ∧ job_repo_id (g r) = job_repo_id r) →
  one_pending js = true → one_pending (map g js) = true.
Proof.
  unfold one_pending. rewrite !bool_decide_eq_true. fold takes_slot. intros Hg Hnd.
  eapply sublist_NoDup; [exact Hnd |]. clear Hnd. induction js as [|r js IH]; [done |]. simpl. rewrite !filter_cons.
  specialize (IH (λ r Hr, Hg r (list_elem_of_further _ _ _ Hr))).
  specialize (Hg r (list_elem_of_here _ _)). fold (takes_slot r) (takes_slot (g r)).
  destruct (takes_slot (g r)) eqn:E1; simpl.
  - destruct (Hg eq_refl) as [-> ->]. simpl. by constructor.
  - destruct (takes_slot r); simpl; [by constructor | done].
Qed.

Lemma update_jobs_less p f t :
  one_pending (db_jobs t) = true → (∀ r, takes_slot (f r) = true → takes_slot r = true ∧ job_repo_id (f r) = job_repo_id r) →
  update_jobs p f t = inr (length (filter (λ r, p r = true) (db_jobs t)),
    {| db_jobs := map (λ r, if p r then f r else r) (db_jobs t); db_next_job := db_next_job t |}).
Proof.
  intros Ht Hf. unfold update_jobs. cbv zeta. rewrite one_pending_less; [done | |done].
  intros r _. destruct (p r); [apply Hf | done].
Qed.

(** A claim takes the first of the waiting jobs, and leaves the others waiting. *)
Lemma claim_waiting w now t :
  jobs_ok t →
  match waiting (db_jobs t) with
  | [] => claim_next w now t = inl ErrNotFound
  | r :: rest => ∃ t', claim_next w now t = inr (set_claim JobStatusRunning now now w r, t') ∧ jobs_ok t' ∧
      waiting (db_jobs t') = rest
  end.
Proof.
  intros Ht. destruct (waiting (db_jobs t)) as [|r rest] eqn:Ew.
  { unfold claim_next, oldest_pending. fold (waiting (db_jobs t)). by rewrite Ew. }
  assert (oldest_pending (db_jobs t) = Some r) as Eo by (unfold oldest_pending; fold (waiting (db_jobs t)); by rewrite Ew).
  assert (∃ t', claim_next w now t = inr (set_claim JobStatusRunning now now w r, t')) as [t' Ec].
  { unfold claim_next. rewrite Eo, update_jobs_less; [by eexists | apply Ht | by intros x]. }
  exists t'. split; [done |]. apply claim_next_ok in Ec as (Hok & _ & r' & Eo' & _ & Ejs); [|done].
  assert (r' = r) as -> by congruence. split; [done |]. clear Eo'.
  assert (filter (λ x, has_status JobStatusPending x = true) (db_jobs t) ≡ₚ r :: rest) as HP
    by (rewrite <- Ew; unfold waiting; by rewrite SliceSort_perm).
  assert (NoDup (map job_id (r :: rest))) as Hnd.
  { rewrite <- HP. apply NoDup_map_filter, Ht. }
  simpl in Hnd. apply NoDup_cons in Hnd as [Hr Hnd].
  assert (filter (λ x, has_status JobStatusPending x = true) (db_jobs t') =
          filter (λ x, job_id x ≠ job_id r) (filter (λ x, has_status JobStatusPending x = true) (db_jobs t))) as Ef.
  { rewrite Ejs. clear. induction (db_jobs t) as [|x js IH]; [done |]. simpl. rewrite !(filter_cons _ x), filter_cons.
    destruct (Z.eqb_spec (job_id x) (job_id r)) as [E|E].
    - rewrite decide_False by done. rewrite IH. case_decide; [|done]. by rewrite filter_cons_False by (by intros ?).
    - case_decide; [by rewrite filter_cons_True, IH | done]. }
  assert (rest ≡ₚ filter (λ x, has_status JobStatusPending x = true) (db_jobs t')) as HP'.
  { rewrite Ef, HP, filter_cons_False by (by intros ?).
    rewrite (filter_impl _ (λ _, True)); [by rewrite filter_true_id |].
    intros x Hx. split; [done |]. intros _ E. apply Hr. rewrite <- E. by apply list_elem_of_fmap_2. }
  unfold waiting at 1. pose proof by_id_swo.
  rewrite (SliceSort_perm_eq by_id (λ _, True) rest); [| by apply Forall_true | |done].
  - apply SliceSort_id. pose proof (SliceSort_sorted by_id (λ _, True) (filter (λ r, has_status JobStatusPending r = true) (db_jobs t))
      ltac:(by apply Forall_true)) as Hs. fold (waiting (db_jobs t)) in Hs. rewrite Ew in Hs. by inversion Hs.
  - intros x y Hx Hy H1 H2. apply (NoDup_map_inj job_id rest); [done..|]. unfold by_id in H1, H2.
    apply Z.ltb_ge in H1, H2. lia.
Qed.

(** Workers that ask one after another. *)
Fixpoint claim_all (fault : nat → option StoreError) (ws : list (string * Z)) (d : conn jobs_db)
    : list (Fallible IndexJob) * conn jobs_db :=
  match ws with
  | [] => ([], d)
  | (w, now) :: ws =>
      let '(r, d) := ClaimNextIndexJob fault w now d in
      let '(rs, d) := claim_all fault ws d in
      (r :: rs, d)
  end.

Definition claimed_job (p : string * Z) (r : JobRow) : Fallible IndexJob :=
  inr (scanJobRow true (set_claim JobStatusRunning (snd p) (snd p) (fst p) r)).

(** The queue is served in order, and drained: workers that ask in turn get
    the waiting jobs by their ids, each exactly one and no job twice, payload
    included, and once none waits each is told so. *)
Theorem claims_drain fault ws d :
  jobs_ok (tables d) → (∀ n, fault n = None) →
  fst (claim_all fault ws d) =
  zip_with claimed_job ws (waiting (db_jobs (tables d))) ++
  replicate (length ws - length (waiting (db_jobs (tables d)))) (inl ErrNotFound).
Proof.
  intros Hd Hf. revert d Hd. induction ws as [|[w now] ws IH]; intros d Hd; [done |]. cbn [claim_all].
  unfold ClaimNextIndexJob, call. rewrite Hf. pose proof (claim_waiting w now (tables d) Hd) as Hc.
  destruct (waiting (db_jobs (tables d))) as [|r rest] eqn:Ew.
  - rewrite Hc. cbn [answer]. specialize (IH {| tables := tables d; calls := Datatypes.S (calls d) |} Hd).
    cbn [tables] in IH. rewrite Ew in IH. destruct (claim_all fault ws _) as [rs d']. simpl in IH |- *. rewrite IH.
    destruct ws; simpl; by rewrite ?Nat.sub_0_r.
  - destruct Hc as (t' & -> & Hok & Ew'). cbn [answer].
    specialize (IH {| tables := t'; calls := Datatypes.S (calls d) |} Hok). cbn [tables] in IH. rewrite Ew' in IH.
    destruct (claim_all fault ws _) as [rs d']. simpl in IH |- *. by rewrite IH.
Qed.

(** ** The sweep *)

Lemma min_stale_in c repo js m :
  min_stale c repo js = Some m → ∃ r, r ∈ js ∧ stale c r = true ∧ is_index r = true ∧ job_repo_id r = repo ∧ job_id r = m.
Proof.
  unfold min_stale. intros H. assert (m ∈ map job_id (filter (λ r, stale c r && is_index r && String.eqb (job_repo_id r) repo = true) js)) as Hin.
  { apply (SliceSort_elem Z.ltb). destruct (SliceSort _ _) as [|x l]; [done |]. injection H as ->. by left. }
  apply list_elem_of_fmap in Hin as (r & -> & [Hr Hin]%list_elem_of_filter). bool_prop. by exists r.
Qed.

Lemma min_stale_some c r js :
  r ∈ js → stale c r = true → is_index r = true → ∃ m, min_stale c (job_repo_id r) js = Some m.
Proof.
  intros Hr Hs Hi. unfold min_stale. destruct (SliceSort _ _) as [|m l] eqn:E; [|by exists m].
  apply SliceSort_nil in E. assert (r ∈ filter (λ x, stale c x && is_index x && String.eqb (job_repo_id x) (job_repo_id r) = true) js) as Hin
    by (apply list_elem_of_filter; by rewrite Hs, Hi, String.eqb_refl).
  destruct (filter _ js); [by apply elem_of_nil in Hin | done].
Qed.

Section Sweep.
  Context (cutoff : Z) (js : list JobRow).
  Context (distinct : NoDup (map job_id js)) (one : one_pending js = true).

(** What the two statements make of a job. *)
Definition swept (r : JobRow) : JobRow :=
  if surplus cutoff js r then set_outcome JobStatusError superseded (job_payload r) r
  else if stale cutoff r then to_pending r else r.

Lemma swept_slot r : r ∈ js → takes_slot (swept r) = true →
  takes_slot r = true ∨ (stale cutoff r = true ∧ is_index r = true ∧ surplus cutoff js r = false).
Proof.
  unfold swept. destruct (surplus cutoff js r) eqn:E1; [done |]. destruct (stale cutoff r) eqn:E2; [|by left].
  intros _ H. right. unfold takes_slot in H. bool_prop. split_and!; done.
Qed.

Lemma swept_repo r : job_repo_id (swept r) = job_repo_id r.
Proof. unfold swept. by repeat case_if. Qed.

Lemma slot_free r p :
  surplus cutoff js r = false → stale cutoff r = true → is_index r = true → p ∈ js → takes_slot p = true →
  job_repo_id p ≠ job_repo_id r.
Proof.
  intros H1 H2 H3 Hp Hs E. unfold surplus in H1. rewrite H2, H3 in H1. simpl in H1. apply orb_false_iff in H1 as [H1 _].
  assert (existsb (pending_index (job_repo_id r)) js = true) as Hex; [|congruence].
  apply existsb_exists. exists p. split; [by apply list_elem_of_In |]. unfold pending_index, takes_slot in *.
  by rewrite E, String.eqb_refl.
Qed.

Lemma least_stale r : surplus cutoff js r = false → stale cutoff r = true → is_index r = true →
  min_stale cutoff (job_repo_id r) js = Some (job_id r).
Proof.
  intros H1 H2 H3. unfold surplus in H1. rewrite H2, H3 in H1. simpl in H1.
  apply orb_false_iff in H1 as [_ H1%negb_false_iff%bool_decide_eq_true]. done.
Qed.

(** No repository gets two pending index jobs: the sweep cannot fail on the index. *)
Lemma swept_one : one_pending (map swept js) = true.
Proof.
  unfold one_pending in *. rewrite bool_decide_eq_true in one |- *. apply NoDup_fmap_2_strong.
  - intros x y [Hx Hxi]%list_elem_of_filter [Hy Hyi]%list_elem_of_filter E.
    apply list_elem_of_fmap in Hxi as (r & -> & Hr), Hyi as (p & -> & Hp). rewrite !swept_repo in E.
    f_equal. apply swept_slot in Hx, Hy; [|done..].
    destruct Hx as [Hx|(Hx1 & Hx2 & Hx3)], Hy as [Hy|(Hy1 & Hy2 & Hy3)].
    + apply (NoDup_map_inj job_repo_id _ r p one); [by apply list_elem_of_filter.. | done].
    + by destruct (slot_free p r Hy3 Hy1 Hy2 Hr Hx).
    + by destruct (slot_free r p Hx3 Hx1 Hx2 Hp Hy).
    + apply (NoDup_map_inj job_id js); [done..|]. apply least_stale in Hx3; [|done..]. apply least_stale in Hy3; [|done..].
      rewrite E, Hy3 in Hx3. congruence.
  - apply NoDup_filter. apply (NoDup_fmap_1 job_id). change (fmap job_id) with (map job_id). rewrite map_map.
    erewrite map_ext; [exact distinct |]. intros r. unfold swept. by repeat case_if.
Qed.

Lemma swept_count l :
  length (filter (λ r, stale cutoff r = true)
    (map (λ r, if surplus cutoff js r then set_outcome JobStatusError superseded (job_payload r) r else r) l)) =
  length (filter (λ r, stale cutoff r = true ∧ surplus cutoff js r = false) l).
Proof.
  induction l as [|r l IH]; [done |]. simpl. rewrite !filter_cons.
  destruct (surplus cutoff js r) eqn:Es.
  - rewrite decide_False by done. rewrite decide_False by naive_solver. exact IH.
  - destruct (stale cutoff r) eqn:Est; [rewrite !decide_True by done; simpl; by f_equal |].
    rewrite !decide_False by naive_solver. exact IH.
Qed.
End Sweep.

(** The sweep of stale jobs succeeds and leaves none: in one pass every job
    whose holder has gone quiet is out of its hands.  A stale commit job waits
    again, its batch intact; of the stale index jobs of a repository one waits
    again unless one is already waiting, and the others are superseded; every other
    job is untouched.  The count answered is that of the jobs that wait again. *)
Theorem RequeueStaleIndexJobs_sweep fault age now d :
  jobs_ok (tables d) → (∀ n, fault n = None) →
  let cutoff := (now - age)%Z in
  let '(res, d') := RequeueStaleIndexJobs fault age now d in
  let js := db_jobs (tables d) in
  let js' := db_jobs (tables d') in
  js' = map (swept cutoff js) js ∧
  res = inr (length (filter (λ r, stale cutoff r = true ∧ surplus cutoff js r = false) js)) ∧
  (∀ r, r ∈ js' → stale cutoff r = false) ∧
  (∀ r, r ∈ js → stale cutoff r = true → job_kind r = JobKindCommits → to_pending r ∈ js') ∧
  (∀ r, r ∈ js → stale cutoff r = true → is_index r = true → ∃ p, p ∈ js' ∧ pending_index (job_repo_id r) p = true) ∧
  (∀ r, r ∈ js → stale cutoff r = false → r ∈ js').
Proof.
  intros Hd Hf. set (c := (now - age)%Z). cbv zeta. unfold RequeueStaleIndexJobs, call. rewrite Hf. fold c.
  set (js := db_jobs (tables d)).
  pose proof (update_jobs_less (surplus c js) (λ r, set_outcome JobStatusError superseded (job_payload r) r) (tables d)
    (jobs_one_pending _ Hd) ltac:(by intros r)) as E1.
  unfold supersede_stale. fold js. rewrite E1. fold js. cbn [tables calls]. rewrite Hf. unfold requeue_stale, update_jobs. cbv zeta. cbn [db_jobs].
  rewrite map_map.
  assert (map (λ r, if stale c (if surplus c js r then set_outcome JobStatusError superseded (job_payload r) r else r)
                    then to_pending (if surplus c js r then set_outcome JobStatusError superseded (job_payload r) r else r)
                    else if surplus c js r then set_outcome JobStatusError superseded (job_payload r) r else r) js =
          map (swept c js) js) as ->.
  { apply map_ext. intros r. unfold swept. by destruct (surplus c js r). }
  rewrite (swept_one c js (jobs_distinct _ Hd) (jobs_one_pending _ Hd)). cbn [tables db_jobs].
  assert (∀ r, surplus c js r = true → stale c r = true ∧ is_index r = true) as Hsur.
  { intros r. unfold surplus. intros H. by bool_prop. }
  split_and!.
  - done.
  - f_equal. by apply swept_count.
  - intros r' (r & -> & Hr)%list_elem_of_fmap. unfold swept. destruct (surplus c js r); [done |].
    destruct (stale c r) eqn:Est; [done | exact Est].
  - intros r Hr Hs Hk. replace (to_pending r) with (swept c js r) by (unfold swept; rewrite Hs;
      destruct (surplus c js r) eqn:Es; [apply Hsur in Es as [_ Es%is_index_spec]; rewrite Hk in Es; discriminate | done]).
    by apply list_elem_of_fmap_2.
  - intros r Hr Hs Hi. destruct (existsb (pending_index (job_repo_id r)) js) eqn:Ex.
    + apply existsb_exists in Ex as (p & Hp%list_elem_of_In & Hpi). exists p. split; [|done].
      replace p with (swept c js p); [by apply list_elem_of_fmap_2 |]. unfold swept.
      apply pending_index_spec in Hpi as (_ & Hst & _). assert (stale c p = false) as Hps.
      { destruct (stale c p) eqn:E; [|done]. apply stale_spec in E as [E _]. rewrite Hst in E. discriminate. }
      rewrite Hps. destruct (surplus c js p) eqn:Es; [|done]. apply Hsur in Es as [Es _]. congruence.
    + destruct (min_stale_some c r js Hr Hs Hi) as [m Hm]. pose proof Hm as (p & Hp & Hps & Hpi & Hpr & <-)%min_stale_in.
      exists (to_pending p). split; [|unfold pending_index, is_index in *; simpl; by rewrite Hpr, String.eqb_refl, Hpi].
      replace (to_pending p) with (swept c js p); [by apply list_elem_of_fmap_2 |]. unfold swept.
      assert (surplus c js p = false) as ->; [|by rewrite Hps]. unfold surplus. rewrite Hpr, Ex, Hps, Hpi, Hm. simpl.
      by rewrite bool_decide_eq_true_2.
  - intros r Hr Hs. replace r with (swept c js r); [by apply list_elem_of_fmap_2 |]. unfold swept. rewrite Hs.
    destruct (surplus c js r) eqn:Es; [|done]. apply Hsur in Es as [Es _]. congruence.
Qed.

(** ** On a small queue *)

(** Two repositories with an index job each, and two batches for the first. *)
Definition queue : conn jobs_db :=
  run no_fault [(OpEnqueue "a" false, 1%Z); (OpCommit "a" "batch 1", 2%Z); (OpCommit "a" "batch 2", 3%Z); (OpEnqueue "b" true, 4%Z)]
    {| tables := empty_jobs; calls := 0 |}.

Lemma queue_ok : jobs_ok (tables queue).
Proof. by apply run_lives, empty_jobs_ok. Qed.

Definition batch1 : JobRow := new_job "a" JobKindCommits "batch 1" false 2 2.

Lemma batch1_queued : batch1 ∈ db_jobs (tables queue).
Proof. apply list_elem_of_lookup. exists 1. vm_compute. reflexivity. Qed.

Lemma commit_jobs_kept_witness :
  let ops := [(OpClaim "w1", 10%Z); (OpClaim "w2", 11%Z); (OpComplete "2" "w1" "stolen", 12%Z); (OpRequeue 60, 200%Z)] in
  ∃ r', r' ∈ db_jobs (tables (run no_fault ops queue)) ∧ job_id r' = 2%Z ∧ in_queue r' ∧ job_payload r' = "batch 1".
Proof.
  intros ops. pose proof (commit_jobs_kept no_fault ops queue batch1 queue_ok batch1_queued eq_refl (or_introl eq_refl))
    as (_ & r' & Hr' & Hid & _ & Hc).
  exists r'. split_and!; [done | done |..]; vm_compute in Hr';
    (destruct Hc as [Hc|Hc]; [apply Hc |]); exfalso; destruct Hc as (id & w & err & n & _ & _ & _ & Hst);
    repeat (apply elem_of_cons in Hr' as [->|Hr']; [revert Hid Hst; vm_compute; try (intros; discriminate); intros _;
      destruct err; discriminate |]); by apply elem_of_nil in Hr'.
Defined.

Lemma held_job_exclusive_witness :
  let d := run no_fault [(OpClaim "w1", 10%Z)] queue in
  let ops := [(OpClaim "w2", 11%Z); (OpComplete "1" "w2" "", 12%Z); (OpRelease "1" "w2", 13%Z); (OpHeartbeat "1" "w1", 14%Z);
              (OpRequeue 60, 70%Z); (OpEnqueue "a" true, 71%Z)] in
  Forall (λ r', job_id r' = 1%Z → held_by 1 "w1" r' = true) (db_jobs (tables (run no_fault ops d))).
Proof.
  intros d ops. apply Forall_forall.
  assert (jobs_ok (tables d)) as Hd by apply run_lives, queue_ok.
  apply (held_job_exclusive no_fault ops d
    (set_claim JobStatusRunning 10 10 "w1" (new_job "a" JobKindIndex "" false 1 1)) 1 "w1" 10).
  - exact Hd.
  - apply list_elem_of_lookup. exists 0. vm_compute. reflexivity.
  - reflexivity.
  - vm_compute. discriminate.
  - repeat apply Forall_cons_2; try apply Forall_nil_2; vm_compute; try done; intros [? ?]; discriminate.
Defined.

Lemma claims_drain_witness :
  map (λ r, match r with inr j => ij_ID j | inl _ => "none" end)
    (fst (claim_all no_fault [("w1", 10%Z); ("w2", 11%Z); ("w1", 12%Z); ("w2", 13%Z); ("w3", 14%Z)] queue)) =
  ["1"; "2"; "3"; "4"; "none"].
Proof. rewrite (claims_drain no_fault _ queue queue_ok (λ _, eq_refl)). vm_compute. reflexivity. Defined.

Lemma RequeueStaleIndexJobs_sweep_witness :
  let d := run no_fault [(OpClaim "w1", 10%Z); (OpClaim "w1", 11%Z)] queue in
  let '(res, d') := RequeueStaleIndexJobs no_fault 60 100 d in
  res = inr 2 ∧ ∀ r, r ∈ db_jobs (tables d') → stale 40 r = false.
Proof.
  intros d. assert (jobs_ok (tables d)) as Hd by apply run_lives, queue_ok.
  pose proof (RequeueStaleIndexJobs_sweep no_fault 60 100 d Hd (λ _, eq_refl)) as H. cbv zeta in H.
  destruct (RequeueStaleIndexJobs no_fault 60 100 d) as [res d']. destruct H as (_ & H1 & H2 & _).
  split; [rewrite H1; vm_compute; reflexivity | exact H2].
Defined.

(** A forced index job that is claimed and released, its repository being busy,
    while a cheap one has been queued: the request to force is gone. *)
Lemma released_force_lost :
  let d := run no_fault [(OpEnqueue "b" true, 1%Z); (OpClaim "w1", 2%Z); (OpEnqueue "b" false, 3%Z); (OpRelease "1" "w1", 4%Z)]
             {| tables := empty_jobs; calls := 0 |} in
  map (λ r, (job_id r, job_status r, job_force r)) (db_jobs (tables d)) =
    [(1%Z, JobStatusError, true); (2%Z, JobStatusPending, false)].
Proof. vm_compute. reflexivity. Qed.
