(* ===== verification/SqlRepos.v ===== *)
(** * The repositories of the SQLite store ([internal/store/sqlite/repos.go])

    One row to a repository: its definition, the state of its last pass, the claim
    of the instance that is indexing it and its place in the working set.  A method
    is one call on the database, two for a claim that is not granted, and a
    transaction for the working set; [now] is the time it reads.

    Then which claims are granted, that a granted claim keeps every other instance
    out until it is given up, reset or expires, whatever else is called meanwhile;
    what registering a repository again leaves alone; and the working set. *)

From S2P Require Import Prelude GoStrings GoStrconv GoSort Domain Store SqlDriver.

(** A row of the table [repos]. *)
Record RepoRow := {
  repo_id : string;
  repo_name : string;
  repo_source : string;
  repo_url : string;
  repo_path : string;
  repo_branch : string;
  repo_status : string;
  repo_last_error : string;
  repo_created_at : Z;
  repo_indexed_at : Z;
  repo_last_commit : string;
  repo_claimed_by : string;
  repo_claim_expires_at : Z;
  repo_pending_commit : string;
  repo_active : bool
}.
#[export] Instance RepoRow_eq_dec : EqDecision RepoRow.
Proof. solve_decision. Defined.

(** The table, keyed by [repo_id]. *)
Abbreviation repos_db := (list RepoRow).
Abbreviation rstmt := (statement repos_db).

(** [repoFromRow] *)
Definition repoFromRow (r : RepoRow) : Repo := {|
  r_ID := repo_id r; r_Name := repo_name r; r_Source := repo_source r; r_URL := repo_url r; r_Path := repo_path r;
  r_Branch := repo_branch r; r_IndexedAt := repo_indexed_at r; r_Status := repo_status r; r_CreatedAt := repo_created_at r;
  r_LastError := repo_last_error r; r_LastCommit := repo_last_commit r; r_PendingCommit := repo_pending_commit r;
  r_Active := repo_active r |}.

(** ** Edits of a row *)

(** What a pass does to a repository: its claim, its status and its outcome. *)
Definition set_pass (status err : string) (indexedAt : Z) (claimedBy : string) (expires : Z) (pending : string)
    (r : RepoRow) : RepoRow := {|
  repo_id := repo_id r; repo_name := repo_name r; repo_source := repo_source r; repo_url := repo_url r;
  repo_path := repo_path r; repo_branch := repo_branch r; repo_status := status; repo_last_error := err;
  repo_created_at := repo_created_at r; repo_indexed_at := indexedAt; repo_last_commit := repo_last_commit r;
  repo_claimed_by := claimedBy; repo_claim_expires_at := expires; repo_pending_commit := pending;
  repo_active := repo_active r |}.
Definition set_definition (d : Repo) (r : RepoRow) : RepoRow := {|
  repo_id := repo_id r; repo_name := r_Name d; repo_source := r_Source d; repo_url := r_URL d;
  repo_path := r_Path d; repo_branch := r_Branch d; repo_status := repo_status r; repo_last_error := repo_last_error r;
  repo_created_at := repo_created_at r; repo_indexed_at := repo_indexed_at r; repo_last_commit := repo_last_commit r;
  repo_claimed_by := repo_claimed_by r; repo_claim_expires_at := repo_claim_expires_at r;
  repo_pending_commit := repo_pending_commit r; repo_active := repo_active r |}.
Definition set_commits (last pending : string) (r : RepoRow) : RepoRow := {|
  repo_id := repo_id r; repo_name := repo_name r; repo_source := repo_source r; repo_url := repo_url r;
  repo_path := repo_path r; repo_branch := repo_branch r; repo_status := repo_status r; repo_last_error := repo_last_error r;
  repo_created_at := repo_created_at r; repo_indexed_at := repo_indexed_at r; repo_last_commit := last;
  repo_claimed_by := repo_claimed_by r; repo_claim_expires_at := repo_claim_expires_at r;
  repo_pending_commit := pending; repo_active := repo_active r |}.
Definition set_active (a : bool) (r : RepoRow) : RepoRow := {|
  repo_id := repo_id r; repo_name := repo_name r; repo_source := repo_source r; repo_url := repo_url r;
  repo_path := repo_path r; repo_branch := repo_branch r; repo_status := repo_status r; repo_last_error := repo_last_error r;
  repo_created_at := repo_created_at r; repo_indexed_at := repo_indexed_at r; repo_last_commit := repo_last_commit r;
  repo_claimed_by := repo_claimed_by r; repo_claim_expires_at := repo_claim_expires_at r;
  repo_pending_commit := repo_pending_commit r; repo_active := a |}.

(** The row of a repository registered for the first time: unclaimed and active,
    by the defaults of the table. *)
Definition new_repo (d : Repo) : RepoRow := {|
  repo_id := r_ID d; repo_name := r_Name d; repo_source := r_Source d; repo_url := r_URL d; repo_path := r_Path d;
  repo_branch := r_Branch d; repo_status := r_Status d; repo_last_error := r_LastError d;
  repo_created_at := r_CreatedAt d; repo_indexed_at := r_IndexedAt d; repo_last_commit := r_LastCommit d;
  repo_claimed_by := ""; repo_claim_expires_at := 0; repo_pending_commit := ""; repo_active := true |}.

(** ** Statements *)

Definition is_repo (id : string) (r : RepoRow) : bool := String.eqb (repo_id r) id.
Definition indexing (r : RepoRow) : bool := String.eqb (repo_status r) StatusIndexing.
Definition claimable (id : string) (now : Z) (r : RepoRow) : bool :=
  is_repo id r && (negb (indexing r) || (repo_claim_expires_at r <=? now)%Z).

(** [UPDATE repos SET ... WHERE ...] answers the rows it changed. *)
Definition update_repos (p : RepoRow → bool) (f : RepoRow → RepoRow) : rstmt nat := λ t,
  inr (length (filter (λ r, p r = true) t), map (λ r, if p r then f r else r) t).

Definition storeRepo (d : Repo) : rstmt unit := λ t,
  inr (tt, if existsb (is_repo (r_ID d)) t then map (λ r, if is_repo (r_ID d) r then set_definition d r else r) t
           else t ++ [new_repo d]).
Definition getRepo (id : string) : rstmt Repo := λ t,
  match List.find (is_repo id) t with
  | Some r => inr (repoFromRow r, t)
  | None => inl ErrNotFound
  end.
Definition repoExists (id : string) : rstmt bool := λ t, inr (existsb (is_repo id) t, t).
Definition deleteRepo (id : string) : rstmt unit := λ t, inr (tt, filter (λ r, is_repo id r = false) t).

Definition claimed_for (owner : string) (expires : Z) (r : RepoRow) : RepoRow :=
  set_pass StatusIndexing "" (repo_indexed_at r) owner expires (repo_pending_commit r) r.
Definition claimRepoForIndexing (id owner : string) (expires now : Z) : rstmt nat :=
  update_repos (claimable id now) (claimed_for owner expires).

Definition reset_pass (err : string) (r : RepoRow) : RepoRow := set_pass StatusIdle err (repo_indexed_at r) "" 0 "" r.
Definition resetIndexingRepos (err : string) : rstmt nat := update_repos indexing (reset_pass err).
Definition resetExpiredIndexingRepos (err : string) (now : Z) : rstmt nat :=
  update_repos (λ r, indexing r && (repo_claim_expires_at r <=? now)%Z) (reset_pass err).

Definition setRepoPendingCommit (id sha : string) : rstmt nat :=
  update_repos (is_repo id) (λ r, set_commits (repo_last_commit r) sha r).
Definition updateRepoLastCommit (id sha : string) : rstmt nat :=
  update_repos (is_repo id) (λ r, set_commits sha (repo_pending_commit r) r).
Definition updateRepoStatus (id status err : string) (indexedAt : Z) : rstmt nat :=
  update_repos (is_repo id) (set_pass status err indexedAt "" 0 "").

Definition clear_active : rstmt unit := λ t, inr (tt, map (set_active false) t).
Definition raise_active (ids : list string) : rstmt unit := λ t,
  inr (tt, map (λ r, if bool_decide (repo_id r ∈ ids) then set_active true r else r) t).

(** ** Methods *)

Section Methods.
  Context (fault : nat → option StoreError).
  Abbreviation call := (call fault).

(** [StoreRepo] *)
Definition StoreRepo (r : Repo) (d : conn repos_db) := report (call (storeRepo r) d).

(** [GetRepo] *)
Definition GetRepo (id : string) (d : conn repos_db) := call (getRepo id) d.

(** [DeleteRepo] *)
Definition DeleteRepo (id : string) (d : conn repos_db) := report (call (deleteRepo id) d).

(** [SetActiveRepos] *)
Definition SetActiveRepos (ids : list string) (d : conn repos_db) : option StoreError * conn repos_db :=
  report (transaction fault (λ d,
    match call clear_active d with
    | (inl e, d) => (inl e, d)
    | (inr _, d) => eachPathChunk ids (λ batch, call (raise_active batch)) d
    end) d).

(** [ClaimRepoForIndexing] *)
Definition ClaimRepoForIndexing (id owner : string) (ttlSeconds now : Z) (d : conn repos_db)
    : Fallible bool * conn repos_db :=
  let ttl := if (ttlSeconds <=? 0)%Z then DefaultRepoClaimTTLSeconds else ttlSeconds in
  match call (claimRepoForIndexing id owner (wrap_int64 (now + ttl)) now) d with
  | (inl e, d) => (inl e, d)
  | (inr n, d) =>
      if 0 <? n then (inr true, d)
      else
        match call (repoExists id) d with
        | (inl e, d) => (inl e, d)
        | (inr exists_, d) => if (exists_ : bool) then (inr false, d) else (inl ErrNotFound, d)
        end
  end.

(** [ResetStuckRepos] *)
Definition ResetStuckRepos (force : bool) (now : Z) (d : conn repos_db) : Fallible nat * conn repos_db :=
  if force then call (resetIndexingRepos RepoResetMessage) d
  else call (resetExpiredIndexingRepos RepoResetMessage now) d.

(** [SetRepoPendingCommit] *)
Definition SetRepoPendingCommit (id sha : string) (d : conn repos_db) := report_rows (call (setRepoPendingCommit id sha) d).

(** [UpdateRepoLastCommit] *)
Definition UpdateRepoLastCommit (id sha : string) (d : conn repos_db) := report_rows (call (updateRepoLastCommit id sha) d).

(** [UpdateRepoStatus] *)
Definition UpdateRepoStatus (id status lastError : string) (indexedAt : Z) (d : conn repos_db) :=
  report_rows (call (updateRepoStatus id status lastError indexedAt) d).

(** ** Listings

    [ORDER BY created_at] leaves the order of rows of one instant to the engine. *)

Section Listings.
  Context (by_creation : list RepoRow → list RepoRow).

Definition listRepos : rstmt (list Repo) := λ t, inr (map repoFromRow (by_creation t), t).
Definition listActiveRepos : rstmt (list Repo) := λ t,
  inr (map repoFromRow (by_creation (filter (λ r, repo_active r = true) t)), t).

(** [ListRepos], [ListActiveRepos] *)
Definition ListRepos (d : conn repos_db) := call listRepos d.
Definition ListActiveRepos (d : conn repos_db) := call listActiveRepos d.

End Listings.
End Methods.

(** The primary key. *)
Definition repos_ok (t : repos_db) : Prop := NoDup (map repo_id t).

Lemma is_repo_spec id r : is_repo id r = true ↔ repo_id r = id.
Proof. apply String.eqb_eq. Qed.
Lemma indexing_spec r : indexing r = true ↔ repo_status r = StatusIndexing.
Proof. apply String.eqb_eq. Qed.
Lemma existsb_repo id t : existsb (is_repo id) t = true ↔ id ∈ map repo_id t.
Proof.
  rewrite existsb_exists. split.
  - intros (r & Hr%list_elem_of_In & <-%is_repo_spec). by apply list_elem_of_fmap_2.
  - intros (r & -> & Hr)%list_elem_of_fmap. exists r. by rewrite is_repo_spec, <- list_elem_of_In.
Qed.

(** ** What a statement does to the rows *)

(** Every statement changes rows in place, drops some or adds one. *)
Lemma update_repos_ids p f t n t' :
  (∀ r, repo_id (f r) = repo_id r) → update_repos p f t = inr (n, t') → map repo_id t' = map repo_id t.
Proof.
  intros Hf [= <- <-]. rewrite map_map. apply map_ext. intros r. by destruct (p r).
Qed.

Lemma storeRepo_ids d t t' : repos_ok t → storeRepo d t = inr (tt, t') → repos_ok t'.
Proof.
  unfold storeRepo, repos_ok. intros Ht [= <-]. destruct (existsb _ t) eqn:E.
  - rewrite map_map. erewrite map_ext; [exact Ht |]. intros r. simpl. by destruct (is_repo _ r).
  - rewrite map_app. apply NoDup_app. split_and!; [done | | apply NoDup_singleton].
    intros id Hid ->%list_elem_of_singleton. apply existsb_repo in Hid. cbn [new_repo repo_id] in Hid. rewrite Hid in E. discriminate E.
Qed.

(** ** The calls of a schedule *)

Inductive repo_op :=
  | OpStore (r : Repo)
  | OpDelete (id : string)
  | OpActive (ids : list string)
  | OpClaim (id owner : string) (ttl : Z)
  | OpReset (force : bool)
  | OpPending (id sha : string)
  | OpLast (id sha : string)
  | OpStatus (id status err : string) (indexedAt : Z).

Definition perform (fault : nat → option StoreError) (op : repo_op) (now : Z) (d : conn repos_db) : conn repos_db :=
  match op with
  | OpStore r => snd (StoreRepo fault r d)
  | OpDelete id => snd (DeleteRepo fault id d)
  | OpActive ids => snd (SetActiveRepos fault ids d)
  | OpClaim id owner ttl => snd (ClaimRepoForIndexing fault id owner ttl now d)
  | OpReset force => snd (ResetStuckRepos fault force now d)
  | OpPending id sha => snd (SetRepoPendingCommit fault id sha d)
  | OpLast id sha => snd (UpdateRepoLastCommit fault id sha d)
  | OpStatus id status err at_ => snd (UpdateRepoStatus fault id status err at_ d)
  end.

Definition run (fault : nat → option StoreError) (ops : list (repo_op * Z)) (d : conn repos_db) : conn repos_db :=
  foldl (λ d p, perform fault (fst p) (snd p) d) d ops.

(** The statements a call may have made of the tables. *)
Definition claim_ttl (ttl : Z) : Z := if (ttl <=? 0)%Z then DefaultRepoClaimTTLSeconds else ttl.
Definition in_set (ids : list string) (r : RepoRow) : RepoRow := set_active (bool_decide (repo_id r ∈ ids)) r.
Definition active_tables (ids : list string) : repos_db → repos_db := map (in_set ids).

Lemma raise_chunks chunks ids t :
  foldl (λ t batch, map (λ r, if bool_decide (repo_id r ∈ batch) then set_active true r else r) t) (active_tables ids t) chunks =
  active_tables (ids ++ concat chunks) t.
Proof.
  revert ids. induction chunks as [|c chunks IH]; intros ids; simpl; [by rewrite app_nil_r |].
  rewrite app_assoc, <- IH. f_equal. unfold active_tables. rewrite map_map. apply map_ext. intros r. unfold in_set. simpl.
  destruct (bool_decide_reflect (repo_id r ∈ c)) as [Hc|Hc].
  - rewrite (bool_decide_eq_true_2 (repo_id r ∈ ids ++ c)) by (apply elem_of_app; by right). done.
  - unfold in_set. f_equal. apply bool_decide_ext. rewrite elem_of_app. naive_solver.
Qed.

Lemma SetActiveRepos_tables fault ids d e d' :
  SetActiveRepos fault ids d = (e, d') →
  tables d' = match e with None => active_tables ids (tables d) | Some _ => tables d end.
Proof.
  unfold SetActiveRepos. destruct (transaction _ _ d) as [[err|[]] d1] eqn:E; intros [= <- <-];
    apply transaction_cases in E as [(e' & [= <-] & Ht)|(y & d2 & d3 & [= <-] & H1 & H2 & H3)]; try done.
  destruct (call fault clear_active d2) as [[e|[]] d4] eqn:E4; [done |].
  apply (call_done fault (map (set_active false))) in E4. unfold eachPathChunk in H2.
  apply (each_done _ (λ batch t, map (λ r, if bool_decide (repo_id r ∈ batch) then set_active true r else r) t)) in H2.
  - rewrite H3, H2, E4, H1. replace (map (set_active false) (tables d)) with (active_tables [] (tables d)).
    + rewrite raise_chunks. simpl. by rewrite concat_path_chunks.
    + apply map_ext. done.
  - intros batch d5 d6 H. by apply (call_done fault _) in H.
Qed.

Lemma perform_tables fault op now d :
  tables (perform fault op now d) = tables d ∨
  match op with
  | OpStore r => storeRepo r (tables d) = inr (tt, tables (perform fault op now d))
  | OpDelete id => deleteRepo id (tables d) = inr (tt, tables (perform fault op now d))
  | OpActive ids => tables (perform fault op now d) = active_tables ids (tables d)
  | OpClaim id owner ttl => ∃ n,
      claimRepoForIndexing id owner (wrap_int64 (now + claim_ttl ttl)) now (tables d) = inr (n, tables (perform fault op now d))
  | OpReset true => ∃ n, resetIndexingRepos RepoResetMessage (tables d) = inr (n, tables (perform fault op now d))
  | OpReset false => ∃ n,
      resetExpiredIndexingRepos RepoResetMessage now (tables d) = inr (n, tables (perform fault op now d))
  | OpPending id sha => ∃ n, setRepoPendingCommit id sha (tables d) = inr (n, tables (perform fault op now d))
  | OpLast id sha => ∃ n, updateRepoLastCommit id sha (tables d) = inr (n, tables (perform fault op now d))
  | OpStatus id status err at_ => ∃ n,
      updateRepoStatus id status err at_ (tables d) = inr (n, tables (perform fault op now d))
  end.
Proof.
  destruct op as [r|id|ids|id owner ttl|[|]|id sha|id sha|id status err at_]; cbn [perform].
  - unfold StoreRepo. destruct (report _) as [[e|] d'] eqn:E; apply report_cases in E; [by left |].
    right. by destruct E as [[] E].
  - unfold DeleteRepo. destruct (report _) as [[e|] d'] eqn:E; apply report_cases in E; [by left |].
    right. by destruct E as [[] E].
  - destruct (SetActiveRepos fault ids d) as [[e|] d'] eqn:E; apply SetActiveRepos_tables in E; [by left | by right].
  - unfold ClaimRepoForIndexing. fold (claim_ttl ttl). destruct (call fault _ d) as [[e|n] d1] eqn:E1;
      apply call_cases in E1 as [(e' & [= <-] & Ht)|(y & [= <-] & Ht)]; [by left |].
    right. exists n. destruct (0 <? n); [done |]. destruct (call fault (repoExists id) d1) as [[e|x] d2] eqn:E2;
      apply call_cases in E2 as [(e' & [= <-] & Ht2)|(y & [= <-] & Ht2)]; [cbn [snd]; by rewrite Ht2 |].
    injection Ht2 as _ Ht2. destruct x; cbn [snd]; by rewrite <- Ht2.
  - unfold ResetStuckRepos. destruct (call fault _ d) as [[e|n] d1] eqn:E1;
      apply call_cases in E1 as [(e' & [= <-] & Ht)|(y & [= <-] & Ht)]; [by left | right; by exists n].
  - unfold ResetStuckRepos. destruct (call fault _ d) as [[e|n] d1] eqn:E1;
      apply call_cases in E1 as [(e' & [= <-] & Ht)|(y & [= <-] & Ht)]; [by left | right; by exists n].
  - unfold SetRepoPendingCommit. destruct (report_rows _) as [e d'] eqn:E.
    apply report_rows_cases in E as [(? & _ & Ht)|(n & Ht & _)]; [by left | right; by exists n].
  - unfold UpdateRepoLastCommit. destruct (report_rows _) as [e d'] eqn:E.
    apply report_rows_cases in E as [(? & _ & Ht)|(n & Ht & _)]; [by left | right; by exists n].
  - unfold UpdateRepoStatus. destruct (report_rows _) as [e d'] eqn:E.
    apply report_rows_cases in E as [(? & _ & Ht)|(n & Ht & _)]; [by left | right; by exists n].
Qed.

Lemma perform_ok fault op now d : repos_ok (tables d) → repos_ok (tables (perform fault op now d)).
Proof.
  intros Hd. destruct (perform_tables fault op now d) as [->|H]; [done |]. unfold repos_ok in *.
  destruct op as [r|id|ids|id owner ttl|[|]|id sha|id sha|id status err at_];
    try (match type of H with ∃ _, _ => idtac end; destruct H as [n H];
         apply update_repos_ids in H as ->; done).
  - by apply storeRepo_ids in H.
  - unfold deleteRepo in H. injection H as H. cbn [perform]; rewrite <- H. by apply NoDup_map_filter.
  - rewrite H. unfold active_tables. rewrite map_map. exact Hd.
Qed.

Lemma run_ok fault ops d : repos_ok (tables d) → repos_ok (tables (run fault ops d)).
Proof.
  revert d. induction ops as [|[op now] ops IH]; intros d Hd; [done |]. simpl. by apply IH, perform_ok.
Qed.

(** ** Claims *)

(** The claim on a repository: of whom, and until when. *)
Definition held (id owner : string) (expires : Z) (t : repos_db) : Prop :=
  ∃ r, r ∈ t ∧ repo_id r = id ∧ repo_status r = StatusIndexing ∧ repo_claimed_by r = owner ∧
    repo_claim_expires_at r = expires.

(** The calls that take a claim away, whoever holds it. *)
Definition revokes (id : string) (op : repo_op) : Prop :=
  match op with
  | OpDelete i => i = id
  | OpReset force => force = true
  | OpStatus i _ _ _ => i = id
  | _ => False
  end.

Lemma held_update id owner e p f t n t' :
  (∀ r, p r = true → repo_id r = id → repo_status r = StatusIndexing → repo_claim_expires_at r = e →
        repo_id (f r) = id ∧ repo_status (f r) = StatusIndexing ∧ repo_claimed_by (f r) = repo_claimed_by r ∧
        repo_claim_expires_at (f r) = e) →
  update_repos p f t = inr (n, t') → held id owner e t → held id owner e t'.
Proof.
  intros Hf [= _ <-] (r & Hr & H1 & H2 & H3 & H4). exists (if p r then f r else r). split; [by apply (list_elem_of_fmap_2 (λ r, if p r then f r else r)) |].
  destruct (p r) eqn:E; [|done]. destruct (Hf r E H1 H2 H4) as (? & ? & -> & ?). done.
Qed.

Lemma claimable_spec id now r :
  claimable id now r = true ↔ repo_id r = id ∧ (repo_status r ≠ StatusIndexing ∨ (repo_claim_expires_at r <= now)%Z).
Proof.
  unfold claimable. rewrite andb_true_iff, orb_true_iff, negb_true_iff, Z.leb_le, is_repo_spec, <- not_true_iff_false, indexing_spec.
  done.
Qed.

(** One call keeps a live claim, unless it revokes it. *)
Lemma perform_held fault op now d id owner e :
  (now < e)%Z → ¬ revokes id op → held id owner e (tables d) → held id owner e (tables (perform fault op now d)).
Proof.
  intros Hn Hr Hh. destruct (perform_tables fault op now d) as [->|H]; [done |].
  destruct op as [r|i|ids|i o ttl|[|]|i sha|i sha|i status err at_]; cbn [revokes] in Hr.
  - destruct Hh as (x & Hx & H1 & H2 & H3 & H4). unfold storeRepo in H. injection H as H. cbn [perform]. rewrite <- H.
    destruct (existsb _ _); [|exists x; split_and!; [by apply elem_of_app; left | done..]].
    exists (if is_repo (r_ID r) x then set_definition r x else x).
    split; [by apply (list_elem_of_fmap_2 (λ x, if is_repo (r_ID r) x then set_definition r x else x)) |]. by case_if.
  - destruct Hh as (x & Hx & H1 & H2 & H3 & H4). unfold deleteRepo in H. injection H as H. cbn [perform]. rewrite <- H.
    exists x. split_and!; [|done..]. apply list_elem_of_filter. split; [|done].
    apply not_true_iff_false. rewrite is_repo_spec, H1. by intros ->.
  - rewrite H. destruct Hh as (x & Hx & H1 & H2 & H3 & H4). exists (in_set ids x).
    split_and!; [by apply (list_elem_of_fmap_2 (in_set ids)) | done..].
  - destruct H as [n H]. eapply held_update; [|exact H | exact Hh].
    intros x [_ [Hs|He]]%claimable_spec _ H2 H3; [done | lia].
  - done.
  - destruct H as [n H]. eapply held_update; [|exact H | exact Hh].
    intros x [_ He%Z.leb_le]%andb_true_iff _ _ H3. lia.
  - destruct H as [n H]. eapply held_update; [|exact H | exact Hh]. done.
  - destruct H as [n H]. eapply held_update; [|exact H | exact Hh]. done.
  - destruct H as [n H]. eapply held_update; [|exact H | exact Hh].
    intros x ->%is_repo_spec Hx. by rewrite Hx in Hr.
Qed.

Lemma run_held fault ops d id owner e :
  Forall (λ p, snd p < e ∧ ¬ revokes id (fst p))%Z ops → held id owner e (tables d) →
  held id owner e (tables (run fault ops d)).
Proof.
  revert d. induction ops as [|[op now] ops IH]; intros d Ho Hh; [done |].
  apply Forall_cons in Ho as [[H1 H2] Ho]. simpl. apply IH; [done |]. by apply perform_held.
Qed.

(** The rows of a repository that is held by a live claim cannot be claimed. *)
Lemma held_not_claimable id owner e now t :
  repos_ok t → held id owner e t → (now < e)%Z → filter (λ r, claimable id now r = true) t = [].
Proof.
  intros Ht (r & Hr & H1 & H2 & H3 & H4) Hn. destruct (filter _ t) as [|x l] eqn:E; [done |].
  assert (x ∈ filter (λ r, claimable id now r = true) t) as [Hx Hin]%list_elem_of_filter by (rewrite E; by left).
  apply claimable_spec in Hx as [Hx Hc]. assert (x = r) as -> by (apply (NoDup_map_inj repo_id t); [done.. | congruence]).
  destruct Hc as [?|?]; [done | lia].
Qed.

Lemma update_repos_none p f t : (∀ x, x ∈ t → p x = false) → update_repos p f t = inr (0, t).
Proof.
  intros Hp. unfold update_repos. do 2 f_equal.
  - destruct (filter _ t) as [|x l] eqn:E; [done |].
    assert (x ∈ filter (λ r, p r = true) t) as [Hx Hin]%list_elem_of_filter by (rewrite E; by left).
    rewrite (Hp x Hin) in Hx. discriminate Hx.
  - rewrite <- (map_id t) at 2. apply map_ext_in. intros x Hx%list_elem_of_In. by rewrite Hp.
Qed.

Lemma update_repos_some p f t r :
  r ∈ t → p r = true → ∃ n t', update_repos p f t = inr (Datatypes.S n, t') ∧ f r ∈ t'.
Proof.
  intros Hr Hp. unfold update_repos. assert (r ∈ filter (λ r, p r = true) t) as Hin by by apply list_elem_of_filter.
  destruct (filter _ t) as [|x l]; [by apply not_elem_of_nil in Hin |]. eexists (length l), _. split; [done |].
  replace (f r) with ((λ r, if p r then f r else r) r) by (cbv beta; by rewrite Hp). by apply (list_elem_of_fmap_2 (λ r, if p r then f r else r)).
Qed.

Lemma find_repo id t :
  repos_ok t →
  match List.find (is_repo id) t with
  | Some r => r ∈ t ∧ repo_id r = id ∧ (∀ x, x ∈ t → repo_id x = id → x = r)
  | None => id ∉ map repo_id t
  end.
Proof.
  intros Ht. destruct (List.find _ t) as [r|] eqn:E.
  - apply find_some in E as [Hr%list_elem_of_In Hi%is_repo_spec]. split_and!; [done | done |].
    intros x Hx Hxi. apply (NoDup_map_inj repo_id t); [done.. | congruence].
  - intros (x & -> & Hx)%list_elem_of_fmap. pose proof (find_none _ _ E x ltac:(by apply list_elem_of_In)) as Hn.
    unfold is_repo in Hn. by rewrite String.eqb_refl in Hn.
Qed.

(** The verdict on a claim when the database answers. *)
Lemma claim_verdict fault id owner ttl now d :
  (∀ n, fault n = None) → repos_ok (tables d) →
  let '(res, d') := ClaimRepoForIndexing fault id owner ttl now d in
  match List.find (is_repo id) (tables d) with
  | None => res = inl ErrNotFound ∧ tables d' = tables d
  | Some r =>
      if claimable id now r
      then res = inr true ∧ held id owner (wrap_int64 (now + claim_ttl ttl)) (tables d')
      else res = inr false ∧ tables d' = tables d
  end.
Proof.
  intros Hf Ht. unfold ClaimRepoForIndexing, call. rewrite !Hf. fold (claim_ttl ttl).
  unfold claimRepoForIndexing. set (f := claimed_for _ _).
  pose proof (find_repo id _ Ht) as Hfind. destruct (List.find (is_repo id) (tables d)) as [r|].
  - destruct Hfind as (Hr & Hid & Hu). destruct (claimable id now r) eqn:Ec.
    + destruct (update_repos_some _ f _ r Hr Ec) as (n & t' & -> & Hin). cbn. split; [done |]. by exists (f r).
    + rewrite update_repos_none.
      * cbn. rewrite Hf. unfold repoExists. assert (existsb (is_repo id) (tables d) = true) as ->; [|done].
        apply existsb_repo. rewrite <- Hid. by apply list_elem_of_fmap_2.
      * intros x Hx. apply not_true_iff_false. intros Hc. pose proof Hc as [Hxi _]%claimable_spec.
        rewrite (Hu x Hx Hxi) in Hc. congruence.
  - rewrite update_repos_none.
    + cbn. rewrite Hf. unfold repoExists. assert (existsb (is_repo id) (tables d) = false) as ->; [|done].
      apply not_true_iff_false. by rewrite existsb_repo.
    + intros x Hx. apply not_true_iff_false. intros [Hxi _]%claimable_spec. apply Hfind. rewrite <- Hxi.
      by apply list_elem_of_fmap_2.
Qed.

Lemma held_verdict fault id owner e now d other ttl :
  (∀ n, fault n = None) → repos_ok (tables d) → held id owner e (tables d) →
  fst (ClaimRepoForIndexing fault id other ttl now d) = inr (e <=? now)%Z.
Proof.
  intros Hf Ht (r & Hr & H1 & H2 & H3 & H4). pose proof (claim_verdict fault id other ttl now d Hf Ht) as Hv.
  destruct (ClaimRepoForIndexing _ _ _ _ _ _) as [res d'].
  pose proof (find_repo id _ Ht) as Hfind. destruct (List.find _ _) as [x|].
  - destruct Hfind as (_ & _ & Hu). rewrite <- (Hu r Hr H1) in Hv. unfold claimable, indexing in Hv.
    rewrite H2, H4 in Hv. apply is_repo_spec in H1. rewrite H1 in Hv. simpl in Hv.
    destruct (e <=? now)%Z; by destruct Hv as [-> _].
  - destruct Hfind. rewrite <- H1. by apply list_elem_of_fmap_2.
Qed.

Lemma ClaimRepoForIndexing_true fault id owner ttl now d d' :
  ClaimRepoForIndexing fault id owner ttl now d = (inr true, d') →
  held id owner (wrap_int64 (now + claim_ttl ttl)) (tables d') ∧
  filter (λ r, claimable id now r = true) (tables d) ≠ [].
Proof.
  unfold ClaimRepoForIndexing. fold (claim_ttl ttl).
  destruct (call fault (claimRepoForIndexing _ _ _ _) d) as [[e|n] d1] eqn:E1; [done |].
  apply call_cases in E1 as [(e' & [=] & Ht)|(y & [= <-] & Ht)].
  destruct n as [|n]; simpl.
  { by destruct (call fault (repoExists id) d1) as [[e|[|]] d2]. }
  intros [= <-]. unfold claimRepoForIndexing, update_repos in Ht. injection Ht as Hn Ht.
  destruct (filter _ (tables d)) as [|x l] eqn:E; [done |]. split; [|done].
  assert (x ∈ filter (λ r, claimable id now r = true) (tables d)) as [Hx Hin]%list_elem_of_filter by (rewrite E; by left).
  set (f := claimed_for _ _) in Ht.
  exists (f x). pose proof Hx as [Hxi _]%claimable_spec. split_and!; [|done..]. rewrite <- Ht.
  replace (f x) with ((λ r, if claimable id now r then f r else r) x) by (cbv beta; by rewrite Hx).
  by apply (list_elem_of_fmap_2 (λ r, if claimable id now r then f r else r)).
Qed.

(** ** The theorems *)

(** C21: a claim keeps every other instance out for as long as it is live.  Once an
    instance was told it has the repository, then whatever calls are made by
    anyone, in any order, on any repository, and whichever fail, it still holds it
    — the deletion of the repository, a forced reset and a written status are the
    calls that take it away — and no claim is granted before its expiry; from that
    instant on the next claim is, so that a crashed instance blocks nobody. *)
Theorem claim_exclusive fault ops d id owner ttl now d' :
  repos_ok (tables d) → ClaimRepoForIndexing fault id owner ttl now d = (inr true, d') →
  let expiry := (now + claim_ttl ttl)%Z in
  in_int64 expiry = true →
  Forall (λ p, snd p < expiry ∧ ¬ revokes id (fst p))%Z ops →
  let d1 := run fault ops d' in
  held id owner expiry (tables d1) ∧
  (∀ other ttl' t, (t < expiry)%Z → fst (ClaimRepoForIndexing fault id other ttl' t d1) ≠ inr true) ∧
  ((∀ n, fault n = None) → ∀ other ttl' t,
    fst (ClaimRepoForIndexing fault id other ttl' t d1) = inr (expiry <=? t)%Z).
Proof.
  intros Ht Hc expiry Hi Ho d1.
  pose proof (perform_ok fault (OpClaim id owner ttl) now d Ht) as Ht'. cbn [perform] in Ht'. rewrite Hc in Ht'. cbn [snd] in Ht'.
  apply ClaimRepoForIndexing_true in Hc as [Hh _]. rewrite wrap_int64_id in Hh by done. fold expiry in Hh.
  apply (run_held fault ops d' id owner expiry Ho) in Hh. apply (run_ok fault ops) in Ht'. fold d1 in Hh, Ht'.
  split_and!; [done | |].
  - intros other ttl' t Hlt E. destruct (ClaimRepoForIndexing fault id other ttl' t d1) as [res d2] eqn:E2.
    cbn [fst] in E. subst res. apply ClaimRepoForIndexing_true in E2 as [_ Hne]. by destruct Hne; eapply held_not_claimable.
  - intros Hf other ttl' t. by eapply held_verdict.
Qed.

Definition some_repo (id : string) (created : Z) : Repo := {|
  r_ID := id; r_Name := id; r_Source := SourceTypeLocal; r_URL := ""; r_Path := String.append "/src/" id; r_Branch := "";
  r_IndexedAt := 0; r_Status := StatusIdle; r_CreatedAt := created; r_LastError := ""; r_LastCommit := "";
  r_PendingCommit := ""; r_Active := true |}.
Definition sample_repos : conn repos_db :=
  run no_fault [(OpStore (some_repo "api" 100), 100%Z); (OpStore (some_repo "web" 101), 101%Z)]
    {| tables := []; calls := 0 |}.

Lemma sample_repos_ok : repos_ok (tables sample_repos).
Proof. apply run_ok. constructor. Qed.

Lemma claim_exclusive_witness :
  let d1 := run no_fault
    [(OpStore (some_repo "api" 5), 210%Z); (OpClaim "api" "second" 60, 220%Z); (OpReset false, 250%Z);
     (OpStatus "web" StatusIdle "" 230, 230%Z); (OpPending "api" "c0ffee", 260%Z)]
    (snd (ClaimRepoForIndexing no_fault "api" "first" 100 200 sample_repos)) in
  held "api" "first" 300 (tables d1) ∧ fst (ClaimRepoForIndexing no_fault "api" "second" 60 300 d1) = inr true.
Proof.
  intros d1. assert (fst (ClaimRepoForIndexing no_fault "api" "first" 100 200 sample_repos) = inr true) as E by reflexivity.
  assert (Forall (λ p, snd p < 300 ∧ ¬ revokes "api" (fst p))%Z
    [(OpStore (some_repo "api" 5), 210%Z); (OpClaim "api" "second" 60, 220%Z); (OpReset false, 250%Z);
     (OpStatus "web" StatusIdle "" 230, 230%Z); (OpPending "api" "c0ffee", 260%Z)]) as Ho.
  { repeat (apply Forall_cons; split; [split; [cbn; lia | intros Hr; discriminate Hr || exact Hr] |]). constructor. }
  pose proof (claim_exclusive no_fault _ sample_repos "api" "first" 100 200 _ sample_repos_ok
    (surjective_pairing _) eq_refl Ho) as (H1 & _ & H3).
  split; [exact H1 | exact (H3 (λ _, eq_refl) "second" 60 300)%Z].
Defined.

(** A status is written whoever holds the claim: an instance whose claim ran out
    and was taken over releases, when it ends, the claim of the instance that took
    over, and a third one is let in while the second is still at work. *)
Lemma late_status_releases :
  let d1 := snd (ClaimRepoForIndexing no_fault "api" "first" 100 200 sample_repos) in
  let d2 := snd (ClaimRepoForIndexing no_fault "api" "second" 1000 300 d1) in
  let d3 := snd (UpdateRepoStatus no_fault "api" StatusIdle "" 310 d2) in
  held "api" "second" 1300 (tables d2) ∧
  fst (ClaimRepoForIndexing no_fault "api" "third" 100 320 d3) = inr true.
Proof.
  set (d0 := snd (ClaimRepoForIndexing no_fault "api" "second" 1000 300
    (snd (ClaimRepoForIndexing no_fault "api" "first" 100 200 sample_repos)))).
  assert (held "api" "second" 1300 (tables d0)) as Hh.
  { eexists. split; [vm_compute; by left | done]. }
  intros d1 d2 d3. split; [exact Hh | reflexivity].
Qed.

(** The calls that decide the working set, and those that drop a row of it. *)
Definition sets_active (op : repo_op) : bool :=
  match op with OpActive _ | OpDelete _ => true | _ => false end.

Definition active_as (ids known : list string) (t : repos_db) : Prop :=
  (∀ id, id ∈ known → id ∈ map repo_id t) ∧
  (∀ r, r ∈ t → repo_active r = true ↔ repo_id r ∈ ids ∨ repo_id r ∉ known).

Lemma active_as_update ids known p f t n t' :
  (∀ r, repo_id (f r) = repo_id r ∧ repo_active (f r) = repo_active r) → update_repos p f t = inr (n, t') →
  active_as ids known t → active_as ids known t'.
Proof.
  intros Hf H [H1 H2]. split.
  - erewrite update_repos_ids; [exact H1 | | exact H]. intros r. apply Hf.
  - injection H as _ <-. intros x (r & -> & Hr)%list_elem_of_fmap. specialize (H2 r Hr).
    destruct (p r); [|done]. destruct (Hf r) as [-> ->]. done.
Qed.

Lemma perform_active fault op now d ids known :
  sets_active op = false → active_as ids known (tables d) → active_as ids known (tables (perform fault op now d)).
Proof.
  intros Hs Hd. destruct (perform_tables fault op now d) as [->|H]; [done |].
  destruct op as [r|id|l|id owner ttl|[|]|id sha|id sha|id status err at_]; try done;
    try (match type of H with ∃ _, _ => idtac end; destruct H as [n H]; eapply active_as_update; [|exact H | exact Hd]; done).
  unfold storeRepo in H. injection H as H. cbn [perform]. rewrite <- H. destruct Hd as [H1 H2]. split.
  - intros id Hid. apply H1 in Hid. destruct (existsb _ _); [|rewrite map_app; by apply elem_of_app; left].
    rewrite map_map. erewrite map_ext; [exact Hid |]. intros x. simpl. by destruct (is_repo _ x).
  - destruct (existsb _ _) eqn:E.
    + intros x (y & -> & Hy)%list_elem_of_fmap. specialize (H2 y Hy). by destruct (is_repo _ y).
    + intros x [Hx| ->%list_elem_of_singleton]%elem_of_app; [by apply H2 |]. simpl. split; [|done]. intros _. right.
      intros Hk%H1%existsb_repo. congruence.
Qed.

Lemma run_active fault ops d ids known :
  Forall (λ p, sets_active (fst p) = false) ops → active_as ids known (tables d) →
  active_as ids known (tables (run fault ops d)).
Proof.
  revert d. induction ops as [|[op now] ops IH]; intros d Ho Hd; [done |].
  apply Forall_cons in Ho as [H1 Ho]. simpl. apply IH; [done |]. by apply perform_active.
Qed.

(** A switch of the working set is all or nothing and lasts.  When the switch
    fails nothing has changed.  When it succeeds the active repositories are exactly
    the named ones, nothing else of any repository is touched, and they still are
    after whatever indexing, claims, commits and registrations follow: a
    registration brings no repository back in and leaves none out, only a new one
    joins.  The listing shows exactly the active ones. *)
Theorem working_set fault by_creation ids ops d e d' :
  SetActiveRepos fault ids d = (e, d') → (∀ l, by_creation l ≡ₚ l) →
  match e with
  | Some _ => tables d' = tables d
  | None =>
      tables d' = map (λ r, set_active (bool_decide (repo_id r ∈ ids)) r) (tables d) ∧
      (Forall (λ p, sets_active (fst p) = false) ops →
       let d1 := run fault ops d' in
       ∀ listed d2, ListActiveRepos fault by_creation d1 = (inr listed, d2) →
       ∀ id, id ∈ map r_ID listed ↔
         id ∈ map repo_id (tables d1) ∧ (id ∈ ids ∨ id ∉ map repo_id (tables d)))
  end.
Proof.
  intros H Hb. apply SetActiveRepos_tables in H. destruct e as [e|]; [done |]. split; [done |].
  intros Ho d1 listed d2 Hl id.
  assert (active_as ids (map repo_id (tables d)) (tables d1)) as [H1 H2].
  { apply run_active; [done |]. rewrite H. split.
    - intros i Hi. unfold active_tables. by rewrite map_map.
    - intros x (r & -> & Hr)%list_elem_of_fmap. simpl. rewrite bool_decide_eq_true.
      assert (repo_id r ∈ map repo_id (tables d)) by by apply list_elem_of_fmap_2. naive_solver. }
  unfold ListActiveRepos in Hl. apply call_cases in Hl as [(e & [=] & _)|(x & [= <-] & [= Hl _])]. rewrite <- Hl.
  rewrite map_map. rewrite (Hb (filter _ _)). split.
  - intros (r & -> & [Hr Hin]%list_elem_of_filter)%list_elem_of_fmap. cbn [repoFromRow r_ID].
    split; [by apply list_elem_of_fmap_2 | by apply H2].
  - intros [(r & -> & Hr)%list_elem_of_fmap Hc]. apply list_elem_of_fmap. exists r. split; [done |].
    apply list_elem_of_filter. split; [by apply H2 | done].
Qed.

Lemma working_set_witness :
  let by_creation := SliceSort (order_by Z.ltb repo_created_at) in
  let d := snd (SetActiveRepos no_fault ["web"; "gone"] sample_repos) in
  let d1 := run no_fault [(OpStore (some_repo "api" 300), 300%Z); (OpStore (some_repo "new" 301), 301%Z)] d in
  map r_ID (match fst (ListActiveRepos no_fault by_creation d1) with inr l => l | inl _ => [] end) = ["web"; "new"] ∧
  "api" ∉ ["web"; "new"].
Proof.
  intros by_creation d d1.
  pose proof (working_set no_fault by_creation ["web"; "gone"]
    [(OpStore (some_repo "api" 300), 300%Z); (OpStore (some_repo "new" 301), 301%Z)] sample_repos None d eq_refl
    (λ l, SliceSort_perm _ l)) as [_ H].
  specialize (H ltac:(by repeat constructor) _ _ eq_refl "api").
  split; [reflexivity |]. intros Hin. apply H in Hin as [_ [Hin|Hin]].
  - by apply elem_of_cons in Hin as [[=]|Hin%elem_of_cons]; destruct Hin as [[=]|Hin%not_elem_of_nil].
  - apply Hin. by left.
Defined.
