(* ===== verification/SqlFiles.v ===== *)
(** * Files and coverage of the SQLite store ([internal/store/sqlite/files.go], [coverage.go])

    The file table is a list of rows with one row to a repository and path.  The
    coverage of a repository is a group of rows, one to a contract kind, written and
    read as a whole: a stored summary reads back, and no other one changes.  Then
    what every write makes of the map from repositories and paths to files, and that
    every read answers it. *)

From S2P Require Import Prelude GoStrings GoStrconv GoSort Domain Store SqlDriver.

(** ** Files *)

(** The table [files]; a row holds what a [File] does. *)
Abbreviation files_db := (list File).
Abbreviation fstmt := (statement files_db).

Definition is_file (repo path : string) (f : File) : bool := String.eqb (f_RepoID f) repo && String.eqb (f_Path f) path.
Definition in_paths (repo : string) (paths : list string) (f : File) : bool :=
  String.eqb (f_RepoID f) repo && bool_decide (f_Path f ∈ paths).
Definition set_indexed (f : File) : File := {|
  f_RepoID := f_RepoID f; f_Path := f_Path f; f_Hash := f_Hash f; f_Language := f_Language f;
  f_Size := f_Size f; f_ModTime := f_ModTime f; f_Indexed := true |}.

(** The upsert: the row of the repository and path takes the values, or a row is added. *)
Definition upsert_file (f : File) (t : files_db) : files_db :=
  if existsb (is_file (f_RepoID f) (f_Path f)) t
  then map (λ x, if is_file (f_RepoID f) (f_Path f) x then f else x) t
  else t ++ [f].
Definition storeFile (f : File) : fstmt unit := λ t, inr (tt, upsert_file f t).
Definition getFile (repo path : string) : fstmt File := λ t,
  match List.find (is_file repo path) t with Some f => inr (f, t) | None => inl ErrNotFound end.
Definition getFilesByRepo (repo : string) : fstmt (list File) := λ t,
  inr (SliceSort (order_by String.ltb f_Path) (filter (λ f, f_RepoID f = repo) t), t).
Definition getFilesByHash (repo hash : string) : fstmt (list File) := λ t,
  inr (filter (λ f, f_RepoID f = repo ∧ f_Hash f = hash) t, t).
Definition delete_files (p : File → bool) : fstmt unit := λ t, inr (tt, filter (λ f, p f = false) t).
Definition deleteFile (repo path : string) : fstmt unit := delete_files (is_file repo path).
Definition deleteFilesByRepo (repo : string) : fstmt unit := delete_files (λ f, String.eqb (f_RepoID f) repo).
Definition mark_files (repo : string) (paths : list string) : fstmt unit := λ t,
  inr (tt, map (λ f, if in_paths repo paths f then set_indexed f else f) t).

Section Files.
  Context (fault : nat → option StoreError).
  Abbreviation call := (call fault).

(** [StoreFile] *)
Definition StoreFile (f : File) (d : conn files_db) := report (call (storeFile f) d).

(** [BatchStoreFiles] *)
Definition BatchStoreFiles (fs : list File) (d : conn files_db) : option StoreError * conn files_db :=
  match fs with
  | [] => (None, d)
  | _ => report (transaction fault (prepared fault (each (λ f, call (storeFile f)) fs)) d)
  end.

(** [DeleteFilesByPaths] *)
Definition DeleteFilesByPaths (repo : string) (paths : list string) (d : conn files_db) :=
  report (eachPathChunk paths (λ batch, call (delete_files (in_paths repo batch))) d).

(** [GetFile], [GetFilesByRepo], [GetFilesByHash] *)
Definition GetFile (repo path : string) (d : conn files_db) := call (getFile repo path) d.
Definition GetFilesByRepo (repo : string) (d : conn files_db) := call (getFilesByRepo repo) d.
Definition GetFilesByHash (repo hash : string) (d : conn files_db) := call (getFilesByHash repo hash) d.

(** [DeleteFile], [DeleteFilesByRepo] *)
Definition DeleteFile (repo path : string) (d : conn files_db) := report (call (deleteFile repo path) d).
Definition DeleteFilesByRepo (repo : string) (d : conn files_db) := report (call (deleteFilesByRepo repo) d).

(** [MarkFilesIndexed] *)
Definition MarkFilesIndexed (repo : string) (paths : list string) (d : conn files_db) : option StoreError * conn files_db :=
  match paths with
  | [] => (None, d)
  | _ => report (eachPathChunk paths (λ batch, call (mark_files repo batch)) d)
  end.

End Files.

(** ** Coverage *)

(** A row of the table [repo_coverage], keyed by its repository and kind. *)
Record CoverageRow := {
  cov_repo_id : string;
  cov_kind : string;
  cov_candidates : Z;
  cov_edges : Z;
  cov_updated_at : Z
}.
Abbreviation coverage_db := (list CoverageRow).
Abbreviation cstmt := (statement coverage_db).

Definition deleteRepoCoverage (repo : string) : cstmt unit := λ t, inr (tt, filter (λ r, cov_repo_id r ≠ repo) t).
Definition insertRepoCoverage (row : CoverageRow) : cstmt unit := λ t,
  if existsb (λ r, String.eqb (cov_repo_id r) (cov_repo_id row) && String.eqb (cov_kind r) (cov_kind row)) t
  then inl (StoreFailure "UNIQUE constraint failed")
  else inr (tt, t ++ [row]).
Definition getRepoCoverage (repo : string) : cstmt (list CoverageRow) := λ t,
  inr (SliceSort (order_by String.ltb cov_kind) (filter (λ r, cov_repo_id r = repo) t), t).

Section Coverage.
  Context (fault : nat → option StoreError).
  Abbreviation call := (call fault).

(** [StoreRepoCoverage]; [kinds] is the map of the summary in the order it is
    ranged over. *)
Definition coverage_row (c : RepoCoverage) (k : string * CoverageCounts) : CoverageRow := {|
  cov_repo_id := rc_RepoID c; cov_kind := fst k; cov_candidates := cc_Candidates (snd k); cov_edges := cc_Edges (snd k);
  cov_updated_at := rc_UpdatedAt c |}.
Definition StoreRepoCoverage (c : option RepoCoverage) (kinds : list (string * CoverageCounts)) (d : conn coverage_db)
    : option StoreError * conn coverage_db :=
  match c with
  | None => (Some (StoreFailure "store coverage: repo id is required"), d)
  | Some c =>
      if String.eqb (rc_RepoID c) "" then (Some (StoreFailure "store coverage: repo id is required"), d)
      else report (transaction fault (λ d,
        match call (deleteRepoCoverage (rc_RepoID c)) d with
        | (inl e, d) => (inl e, d)
        | (inr _, d) => each (λ k, call (insertRepoCoverage (coverage_row c k))) kinds d
        end) d)
  end.

(** [GetRepoCoverage] *)
Definition no_coverage (repo : string) : RepoCoverage := {| rc_RepoID := repo; rc_UpdatedAt := 0; rc_Kinds := ∅ |}.
Definition coverage_step (c : RepoCoverage) (r : CoverageRow) : RepoCoverage := {|
  rc_RepoID := rc_RepoID c;
  rc_UpdatedAt := if (rc_UpdatedAt c <? cov_updated_at r)%Z then cov_updated_at r else rc_UpdatedAt c;
  rc_Kinds := <[cov_kind r := {| cc_Candidates := cov_candidates r; cc_Edges := cov_edges r |}]> (rc_Kinds c) |}.
Definition GetRepoCoverage (repo : string) (d : conn coverage_db) : Fallible RepoCoverage * conn coverage_db :=
  match call (getRepoCoverage repo) d with
  | (inl e, d) => (inl e, d)
  | (inr rows, d) =>
      let cov := foldl coverage_step (no_coverage repo) rows in
      (if decide (rc_Kinds cov = ∅) then inl ErrNotFound else inr cov, d)
  end.

(** [DeleteRepoCoverage] *)
Definition DeleteRepoCoverage (repo : string) (d : conn coverage_db) := report (call (deleteRepoCoverage repo) d).

End Coverage.

(** ** The coverage of a repository *)

Definition kind_counts (r : CoverageRow) : string * CoverageCounts :=
  (cov_kind r, {| cc_Candidates := cov_candidates r; cc_Edges := cov_edges r |}).

Lemma coverage_fold rows c :
  NoDup (map cov_kind rows) →
  rc_RepoID (foldl coverage_step c rows) = rc_RepoID c ∧
  rc_Kinds (foldl coverage_step c rows) = list_to_map (map kind_counts rows) ∪ rc_Kinds c.
Proof.
  revert c. induction rows as [|r rows IH]; intros c Hnd; simpl; [by rewrite (left_id_L ∅ (∪)) |].
  apply NoDup_cons in Hnd as [Hr Hnd]. destruct (IH (coverage_step c r) Hnd) as [-> ->]. split; [done |].
  simpl. rewrite <- insert_union_l, insert_union_r; [done |].
  apply not_elem_of_list_to_map_1. rewrite <- list_fmap_compose. exact Hr.
Qed.

Lemma coverage_time rows c u :
  Forall (λ r, cov_updated_at r = u) rows → rows ≠ [] →
  rc_UpdatedAt (foldl coverage_step c rows) = Z.max (rc_UpdatedAt c) u.
Proof.
  revert c. induction rows as [|r rows IH]; intros c Hu Hne; [done |]. apply Forall_cons in Hu as [Hr Hu]. simpl.
  destruct rows as [|r' rows].
  - simpl. rewrite Hr. destruct (Z.ltb_spec (rc_UpdatedAt c) u); lia.
  - rewrite IH by done. simpl. rewrite Hr. destruct (Z.ltb_spec (rc_UpdatedAt c) u); lia.
Qed.

Definition own_rows (repo : string) (t : coverage_db) : list CoverageRow := filter (λ r, cov_repo_id r = repo) t.

Lemma GetRepoCoverage_rows repo n t :
  fst (GetRepoCoverage no_fault repo {| tables := t; calls := n |}) =
  let cov := foldl coverage_step (no_coverage repo) (SliceSort (order_by String.ltb cov_kind) (own_rows repo t)) in
  if decide (rc_Kinds cov = ∅) then inl ErrNotFound else inr cov.
Proof. done. Qed.

(** What a read finds of rows written by one pass. *)
Lemma coverage_read c kinds n t :
  kinds ≡ₚ map_to_list (rc_Kinds c) → own_rows (rc_RepoID c) t = map (coverage_row c) kinds →
  fst (GetRepoCoverage no_fault (rc_RepoID c) {| tables := t; calls := n |}) =
  if decide (rc_Kinds c = ∅) then inl ErrNotFound
  else inr {| rc_RepoID := rc_RepoID c; rc_UpdatedAt := Z.max 0 (rc_UpdatedAt c); rc_Kinds := rc_Kinds c |}.
Proof.
  intros Hk Ht. rewrite GetRepoCoverage_rows. cbv zeta. rewrite Ht.
  set (rows := SliceSort _ (map (coverage_row c) kinds)).
  assert (rows ≡ₚ map (coverage_row c) kinds) as Hp by apply SliceSort_perm.
  assert (map kind_counts rows ≡ₚ map_to_list (rc_Kinds c)) as Hm.
  { rewrite Hp, map_map, <- Hk. rewrite <- (map_id kinds) at 2. erewrite map_ext; [done |]. by intros [k []]. }
  assert (NoDup (map fst (map kind_counts rows))) as Hn by (rewrite Hm; apply NoDup_fst_map_to_list).
  assert (list_to_map (map kind_counts rows) = rc_Kinds c) as E.
  { rewrite (list_to_map_proper _ _ Hn Hm). apply list_to_map_to_list. }
  rewrite map_map in Hn. destruct (coverage_fold rows (no_coverage (rc_RepoID c)) Hn) as [H1 H2].
  rewrite E in H2. simpl in H1, H2. rewrite (right_id_L ∅ (∪)) in H2. rewrite H2.
  case_decide as Hd; [done |]. do 2 f_equal.
  assert (rows ≠ []) as Hne by (intros ->; by rewrite <- E in Hd).
  assert (Forall (λ r, cov_updated_at r = rc_UpdatedAt c) rows) as Hu.
  { rewrite Hp. apply Forall_forall. by intros x (k & -> & _)%list_elem_of_fmap. }
  pose proof (coverage_time rows (no_coverage (rc_RepoID c)) _ Hu Hne) as H3. simpl in H3.
  destruct (foldl _ _ rows) as [a b m]. simpl in *. by subst.
Qed.

Lemma insert_coverage_done fault c k d d' :
  call fault (insertRepoCoverage (coverage_row c k)) d = (inr tt, d') → tables d' = tables d ++ [coverage_row c k].
Proof.
  intros [(? & [=] & _)|(x & _ & Hx)]%call_cases. unfold insertRepoCoverage in Hx. destruct (existsb _ _); [done |]. by injection Hx.
Qed.

Lemma insert_coverage_all c kinds t :
  foldl (λ t k, t ++ [coverage_row c k]) t kinds = t ++ map (coverage_row c) kinds.
Proof. revert t. induction kinds as [|k kinds IH]; intros t; simpl; [by rewrite app_nil_r | by rewrite IH, <- app_assoc]. Qed.

(** The inserts of a summary over no rows of its repository do not collide. *)
Lemma insert_coverage_succeeds fault c kinds d :
  (∀ n, fault n = None) → NoDup (map fst kinds) →
  (∀ r, r ∈ tables d → cov_repo_id r = rc_RepoID c → cov_kind r ∉ map fst kinds) →
  ∃ d', each (λ k, call fault (insertRepoCoverage (coverage_row c k))) kinds d = (inr tt, d').
Proof.
  intros Hf. revert d. induction kinds as [|k kinds IH]; intros d Hn Hd; [by exists d |].
  apply NoDup_cons in Hn as [Hk Hn]. simpl. unfold call at 1. rewrite Hf. unfold insertRepoCoverage at 1.
  assert (existsb (λ r, String.eqb (cov_repo_id r) (cov_repo_id (coverage_row c k)) &&
                        String.eqb (cov_kind r) (cov_kind (coverage_row c k))) (tables d) = false) as ->.
  { apply not_true_iff_false. rewrite existsb_exists. intros (r & Hr%list_elem_of_In & Hb).
    apply andb_true_iff in Hb as [H1%String.eqb_eq H2%String.eqb_eq]. apply (Hd r Hr H1). rewrite H2. by left. }
  apply IH; [done |]. simpl. intros r [Hr| ->%list_elem_of_singleton]%elem_of_app Hid; [|done].
  intros Hin. apply (Hd r Hr Hid). by right.
Qed.

(** The coverage of a repository is written and read as one value.  A summary
    that was stored is read back — its time, if that is not negative, and the counts
    of exactly its kinds, whatever was stored before and in whatever order the map is
    ranged over; a summary of no kinds reads as none at all; the summaries of
    other repositories are untouched.  A failed write leaves the last summary in
    force, and a write fails only when the database does. *)
Theorem coverage_roundtrip fault c kinds d e d' :
  kinds ≡ₚ map_to_list (rc_Kinds c) → StoreRepoCoverage fault (Some c) kinds d = (e, d') →
  let read repo d := fst (GetRepoCoverage no_fault repo d) in
  match e with
  | Some _ => tables d' = tables d
  | None =>
      read (rc_RepoID c) d' =
        (if decide (rc_Kinds c = ∅) then inl ErrNotFound
         else inr {| rc_RepoID := rc_RepoID c; rc_UpdatedAt := Z.max 0 (rc_UpdatedAt c); rc_Kinds := rc_Kinds c |}) ∧
      (∀ repo, repo ≠ rc_RepoID c → read repo d' = read repo d)
  end ∧
  (rc_RepoID c ≠ "" → (∀ n, fault n = None) → e = None).
Proof.
  intros Hk H read. assert (NoDup (map fst kinds)) as Hn by (rewrite Hk; apply NoDup_fst_map_to_list).
  unfold StoreRepoCoverage in H. destruct (String.eqb_spec (rc_RepoID c) "") as [Hid|Hid]; [by injection H as <- <- |].
  set (body := λ d, match call fault (deleteRepoCoverage (rc_RepoID c)) d with _ => _ end) in H.
  split.
  - destruct (transaction fault body d) as [[err|x] d1] eqn:E; injection H as <- <-;
      apply transaction_cases in E as [(e' & [= <-] & E)|(y & d2 & d3 & [= <-] & E1 & E2 & E3)]; try done.
    unfold body in E2. destruct (call fault (deleteRepoCoverage _) d2) as [[err|[]] d4] eqn:E4; [done |].
    apply (call_done fault (filter (λ r, cov_repo_id r ≠ rc_RepoID c))) in E4. destruct x.
    apply (each_done _ (λ k t, t ++ [coverage_row c k])) in E2; [|intros; by eapply insert_coverage_done].
    rewrite insert_coverage_all, E4, E1, <- E3 in E2. unfold read.
    assert (∀ repo, own_rows repo (tables d1) =
      if decide (repo = rc_RepoID c) then map (coverage_row c) kinds else own_rows repo (tables d)) as Ho.
    { intros repo. rewrite E2. unfold own_rows. rewrite filter_app, list_filter_filter. case_decide as Hr.
      - subst repo. rewrite filter_nothing by naive_solver. apply filter_everything.
        by intros r (k & -> & _)%list_elem_of_fmap.
      - rewrite (filter_nothing _ (map _ _)), app_nil_r; [apply filter_impl; naive_solver |].
        intros r (k & -> & _)%list_elem_of_fmap. by intros <-. }
    split.
    + destruct d1 as [t n]. apply (coverage_read c kinds); [done |].
      pose proof (Ho (rc_RepoID c)) as Hor. by rewrite decide_True in Hor.
    + intros repo Hr. destruct d1 as [t n], d as [t0 n0]. rewrite !GetRepoCoverage_rows. cbv zeta.
      pose proof (Ho repo) as Hor. rewrite decide_False in Hor by done. cbn [tables] in Hor. by rewrite Hor.
  - intros _ Hf. assert (∃ d1, transaction fault body d = (inr tt, d1)) as [d1 E]; [|rewrite E in H; by injection H].
    edestruct (insert_coverage_succeeds fault c kinds) as [d2 Hd2]; [done | done | |eapply transaction_succeeds; [done |];
      unfold body, call at 1; rewrite Hf; exact Hd2].
    intros r [Hr _]%list_elem_of_filter. done.
Qed.

Lemma coverage_roundtrip_witness :
  let c t k := {| rc_RepoID := "api"; rc_UpdatedAt := t;
                  rc_Kinds := {[k := {| cc_Candidates := 42; cc_Edges := 40 |}]} |} in
  let d := snd (StoreRepoCoverage no_fault (Some (c 100 "http")%Z) (map_to_list (rc_Kinds (c 100 "http")%Z))
                 {| tables := []; calls := 0 |}) in
  let d' := snd (StoreRepoCoverage no_fault (Some (c 200 "rpc")%Z) (map_to_list (rc_Kinds (c 200 "rpc")%Z)) d) in
  fst (GetRepoCoverage no_fault "api" d') = inr (c 200 "rpc")%Z.
Proof.
  intros c d d'. pose proof (coverage_roundtrip no_fault (c 200 "rpc")%Z _ d None d' (Permutation_refl _) eq_refl) as [[H _] _].
  exact H.
Defined.

(** ** The file table as a map *)

Definition file_key (f : File) : string * string := (f_RepoID f, f_Path f).
Definition files_ok (t : files_db) : Prop := NoDup (map file_key t).
Definition files_map (t : files_db) : gmap (string * string) File := list_to_map (map (λ f, (file_key f, f)) t).

Lemma is_file_spec repo path f : is_file repo path f = true ↔ file_key f = (repo, path).
Proof. unfold is_file, file_key. rewrite andb_true_iff, !String.eqb_eq. naive_solver. Qed.

Lemma files_map_lookup t k f : files_ok t → files_map t !! k = Some f ↔ f ∈ t ∧ file_key f = k.
Proof.
  intros Ht. unfold files_map. rewrite <- elem_of_list_to_map.
  - rewrite list_elem_of_fmap. split; [intros (x & [= -> ->] & Hx); done | intros [Hf <-]; by exists f].
  - rewrite <- list_fmap_compose. exact Ht.
Qed.

(** Two tables of the same rows are the same map. *)
Lemma files_map_ext t m :
  files_ok t → (∀ f, m !! file_key f = Some f ↔ f ∈ t) → (∀ k f, m !! k = Some f → file_key f = k) → files_map t = m.
Proof.
  intros Ht H1 H2. apply map_eq. intros k. apply option_eq. intros f. rewrite files_map_lookup by done. split.
  - intros [Hf <-]. by apply H1.
  - intros Hk. pose proof (H2 k f Hk) as <-. by rewrite <- H1.
Qed.

Lemma files_map_key t k f : files_ok t → files_map t !! k = Some f → file_key f = k.
Proof. intros Ht. rewrite files_map_lookup by done. by intros [_ ?]. Qed.

Lemma existsb_file repo path t : existsb (is_file repo path) t = true ↔ (repo, path) ∈ map file_key t.
Proof.
  rewrite existsb_exists. split.
  - intros (f & Hf%list_elem_of_In & <-%is_file_spec). by apply list_elem_of_fmap_2.
  - intros (f & E & Hf)%list_elem_of_fmap. exists f. by rewrite is_file_spec, <- list_elem_of_In, E.
Qed.

Lemma upsert_file_ok f t : files_ok t → files_ok (upsert_file f t).
Proof.
  unfold files_ok, upsert_file. intros Ht. destruct (existsb _ t) eqn:E.
  - rewrite map_map. erewrite map_ext; [exact Ht |]. intros x. simpl.
    destruct (is_file _ _ x) eqn:Ex; [|done]. by apply is_file_spec in Ex as ->.
  - rewrite map_app. apply NoDup_app. split_and!; [done | | apply NoDup_singleton].
    intros k Hk ->%list_elem_of_singleton. apply (existsb_file (f_RepoID f) (f_Path f)) in Hk. congruence.
Qed.

Lemma upsert_file_elem f t x : x ∈ upsert_file f t ↔ x = f ∨ (x ∈ t ∧ file_key x ≠ file_key f).
Proof.
  unfold upsert_file. destruct (existsb _ t) eqn:E.
  - rewrite list_elem_of_fmap. split.
    + intros (y & -> & Hy). destruct (is_file _ _ y) eqn:Ey; [by left |]. right. split; [done |].
      intros Hk%is_file_spec. congruence.
    + intros [-> |[Hx Hk]].
      * apply existsb_exists in E as (y & Hy%list_elem_of_In & Ey). exists y. by rewrite Ey.
      * exists x. destruct (is_file _ _ x) eqn:Ex; [|done]. by apply is_file_spec in Ex.
  - rewrite elem_of_app, list_elem_of_singleton. split; [|tauto]. intros [Hx| ->]; [|by left]. right. split; [done |].
    intros Hk. apply not_true_iff_false in E. apply E, existsb_file. change (f_RepoID f, f_Path f) with (file_key f). rewrite <- Hk. by apply list_elem_of_fmap_2.
Qed.

Lemma upsert_file_map f t : files_ok t → files_map (upsert_file f t) = <[file_key f := f]> (files_map t).
Proof.
  intros Ht. apply files_map_ext; [by apply upsert_file_ok | |].
  - intros x. rewrite upsert_file_elem, lookup_insert_Some, files_map_lookup by done. naive_solver.
  - intros k x. rewrite lookup_insert_Some, files_map_lookup by done. naive_solver.
Qed.

Lemma drop_files_map (p : File → bool) t :
  files_ok t → files_map (filter (λ f, p f = false) t) = filter (λ kf, p (snd kf) = false) (files_map t).
Proof.
  intros Ht. apply files_map_ext; [by apply NoDup_map_filter | |].
  - intros x. rewrite map_lookup_filter_Some, files_map_lookup, list_elem_of_filter by done. naive_solver.
  - intros k x. rewrite map_lookup_filter_Some, files_map_lookup by done. naive_solver.
Qed.

Lemma mark_map repo paths t :
  files_ok t →
  files_ok (map (λ f, if in_paths repo paths f then set_indexed f else f) t) ∧
  files_map (map (λ f, if in_paths repo paths f then set_indexed f else f) t) =
  (λ f, if in_paths repo paths f then set_indexed f else f) <$> files_map t.
Proof.
  set (g := λ f, if in_paths repo paths f then set_indexed f else f).
  assert (∀ f, file_key (g f) = file_key f) as Hg by (intros f; unfold g; by case_if).
  intros Ht. assert (files_ok (map g t)) as Ht'.
  { unfold files_ok. rewrite map_map. erewrite map_ext; [exact Ht | done]. }
  split; [done |]. apply map_eq. intros k. apply option_eq. intros f.
  rewrite files_map_lookup, lookup_fmap_Some by done. setoid_rewrite files_map_lookup; [|done].
  rewrite list_elem_of_fmap. split.
  - intros [(x & -> & Hx) <-]. exists x. by rewrite Hg.
  - intros (x & <- & Hx & <-). split; [by exists x | done].
Qed.

(** ** The writes as operations on the map *)

Inductive file_op :=
  | FStore (f : File)
  | FBatch (fs : list File)
  | FDelete (repo path : string)
  | FDeletePaths (repo : string) (paths : list string)
  | FDeleteRepo (repo : string)
  | FMark (repo : string) (paths : list string).

Definition perform_file (fault : nat → option StoreError) (op : file_op) (d : conn files_db) : option StoreError * conn files_db :=
  match op with
  | FStore f => StoreFile fault f d
  | FBatch fs => BatchStoreFiles fault fs d
  | FDelete repo path => DeleteFile fault repo path d
  | FDeletePaths repo paths => DeleteFilesByPaths fault repo paths d
  | FDeleteRepo repo => DeleteFilesByRepo fault repo d
  | FMark repo paths => MarkFilesIndexed fault repo paths d
  end.

Definition named (repo : string) (paths : list string) (k : string * string) : Prop := fst k = repo ∧ snd k ∈ paths.
#[export] Instance named_dec repo paths k : Decision (named repo paths k).
Proof. unfold named. apply _. Defined.

Definition put_file (m : gmap (string * string) File) (f : File) : gmap (string * string) File := <[file_key f := f]> m.
Definition file_spec (op : file_op) (m : gmap (string * string) File) : gmap (string * string) File :=
  match op with
  | FStore f => put_file m f
  | FBatch fs => foldl put_file m fs
  | FDelete repo path => delete (repo, path) m
  | FDeletePaths repo paths => filter (λ kf, ¬ named repo paths (fst kf)) m
  | FDeleteRepo repo => filter (λ kf, fst (fst kf) ≠ repo) m
  | FMark repo paths => map_imap (λ k f, Some (if decide (named repo paths k) then set_indexed f else f)) m
  end.

(** What a failed write may leave behind: nothing, or, of a list of paths, the
    work on its first ones. *)
Definition file_partial (op : file_op) (m m' : gmap (string * string) File) : Prop :=
  match op with
  | FDeletePaths repo paths => ∃ done rest, paths = done ++ rest ∧ m' = file_spec (FDeletePaths repo done) m
  | FMark repo paths => ∃ done rest, paths = done ++ rest ∧ m' = file_spec (FMark repo done) m
  | _ => m' = m
  end.

Lemma in_paths_named repo paths f : in_paths repo paths f = true ↔ named repo paths (file_key f).
Proof. unfold in_paths, named. by rewrite andb_true_iff, String.eqb_eq, bool_decide_eq_true. Qed.

Lemma delete_paths_step repo paths t :
  files_ok t → files_ok (filter (λ f, in_paths repo paths f = false) t) ∧
  files_map (filter (λ f, in_paths repo paths f = false) t) = file_spec (FDeletePaths repo paths) (files_map t).
Proof.
  intros Ht. split; [by apply NoDup_map_filter |]. rewrite drop_files_map by done. cbn [file_spec].
  apply fin_maps.map_filter_ext. intros k f Hk. apply files_map_key in Hk; [|done]. simpl. subst k.
  rewrite <- not_true_iff_false, in_paths_named. done.
Qed.

Lemma mark_step repo paths t :
  files_ok t → files_ok (map (λ f, if in_paths repo paths f then set_indexed f else f) t) ∧
  files_map (map (λ f, if in_paths repo paths f then set_indexed f else f) t) = file_spec (FMark repo paths) (files_map t).
Proof.
  intros Ht. destruct (mark_map repo paths t Ht) as [H1 ->]. split; [done |]. cbn [file_spec].
  apply map_eq. intros k. rewrite lookup_fmap, map_lookup_imap.
  destruct (files_map t !! k) as [f|] eqn:E; [|done]. apply files_map_key in E; [|done]. subst k. simpl. f_equal.
  destruct (in_paths repo paths f) eqn:Ei; [apply in_paths_named in Ei; by rewrite decide_True |].
  apply not_true_iff_false in Ei. rewrite in_paths_named in Ei. by rewrite decide_False.
Qed.

Lemma delete_paths_app repo a b m :
  file_spec (FDeletePaths repo (a ++ b)) m = file_spec (FDeletePaths repo b) (file_spec (FDeletePaths repo a) m).
Proof.
  cbn [file_spec]. rewrite map_filter_filter. apply fin_maps.map_filter_ext. intros k f _. simpl. unfold named.
  rewrite elem_of_app. tauto.
Qed.

Lemma mark_app repo a b m :
  file_spec (FMark repo (a ++ b)) m = file_spec (FMark repo b) (file_spec (FMark repo a) m).
Proof.
  cbn [file_spec]. apply map_eq. intros k. rewrite !map_lookup_imap. destruct (m !! k) as [f|]; [|done]. simpl.
  f_equal. unfold named. rewrite (decide_ext _ _ _ _ (and_iff_compat_l _ (elem_of_app a b (snd k)))).
  repeat case_decide; naive_solver.
Qed.

Lemma delete_paths_nil repo m : file_spec (FDeletePaths repo []) m = m.
Proof.
  cbn [file_spec]. apply map_filter_id. intros k f _ [_ H]. by apply not_elem_of_nil in H.
Qed.

Lemma mark_nil repo m : file_spec (FMark repo []) m = m.
Proof.
  cbn [file_spec]. apply map_eq. intros k. rewrite map_lookup_imap. destruct (m !! k); [|done]. simpl.
  rewrite decide_False; [done |]. intros [_ H]. by apply not_elem_of_nil in H.
Qed.

(** A write that goes over its paths in chunks. *)
Section Chunked.
  Context (mk : list string → file_op) (g : list string → files_db → files_db).
  Context (mk_nil : ∀ m, file_spec (mk []) m = m).
  Context (mk_app : ∀ a b m, file_spec (mk (a ++ b)) m = file_spec (mk b) (file_spec (mk a) m)).
  Context (g_spec : ∀ c t, files_ok t → files_ok (g c t) ∧ files_map (g c t) = file_spec (mk c) (files_map t)).

Lemma chunks_spec chunks t :
  files_ok t →
  files_ok (foldl (λ t c, g c t) t chunks) ∧
  files_map (foldl (λ t c, g c t) t chunks) = file_spec (mk (concat chunks)) (files_map t).
Proof.
  revert t. induction chunks as [|c chunks IH]; intros t Ht; simpl; [by rewrite mk_nil |].
  destruct (g_spec c t Ht) as [H1 H2]. destruct (IH _ H1) as [H3 H4]. by rewrite H4, H2, mk_app.
Qed.

Lemma chunked_write fault paths d e d' :
  files_ok (tables d) →
  report (eachPathChunk paths (λ batch, call fault (λ t, inr (tt, g batch t))) d) = (e, d') →
  files_ok (tables d') ∧
  match e with
  | None => files_map (tables d') = file_spec (mk paths) (files_map (tables d))
  | Some _ => ∃ done rest, paths = done ++ rest ∧ files_map (tables d') = file_spec (mk done) (files_map (tables d))
  end.
Proof.
  intros Ht. unfold eachPathChunk. destruct (each _ _ _) as [r d1] eqn:E. intros H.
  apply (each_partial _ g) in E as (dn & rest & Ec & Et & Er).
  - destruct (chunks_spec dn _ Ht) as [H1 H2]. rewrite <- Et in H1, H2.
    pose proof (concat_path_chunks (length paths) paths (le_n _)) as Ep. rewrite Ec, concat_app in Ep.
    destruct r as [err|[]]; injection H as <- <-.
    + split; [done |]. by exists (concat dn), (concat rest).
    + rewrite (Er eq_refl), app_nil_r in Ep. by rewrite <- Ep.
  - intros c d2 err d3 [(x & _ & ?)|(x & [=] & _)]%call_cases; done.
  - intros c d2 d3 H3. by apply (call_done fault (g c)) in H3.
Qed.
End Chunked.

Lemma batch_files fs t :
  files_ok t → files_ok (foldl (λ t f, upsert_file f t) t fs) ∧
  files_map (foldl (λ t f, upsert_file f t) t fs) = foldl put_file (files_map t) fs.
Proof.
  revert t. induction fs as [|f fs IH]; intros t Ht; [done |]. simpl.
  change (put_file (files_map t) f) with (<[file_key f := f]> (files_map t)). rewrite <- (upsert_file_map f t Ht).
  by apply IH, upsert_file_ok.
Qed.

(** A write does what it says of the map, or fails and leaves part of it. *)
Lemma perform_file_spec fault op d e d' :
  files_ok (tables d) → perform_file fault op d = (e, d') →
  files_ok (tables d') ∧
  match e with
  | None => files_map (tables d') = file_spec op (files_map (tables d))
  | Some _ => file_partial op (files_map (tables d)) (files_map (tables d'))
  end.
Proof.
  intros Ht H. destruct op as [f|fs|repo path|repo paths|repo|repo paths]; cbn [perform_file] in H.
  - apply report_cases in H. destruct e as [e|]; [by rewrite H |]. destruct H as [[] [= H]]. rewrite <- H.
    split; [by apply upsert_file_ok | by apply upsert_file_map].
  - unfold BatchStoreFiles in H. destruct fs as [|f fs]; [by injection H as <- <- |].
    destruct (transaction _ _ _) as [[err|[]] d1] eqn:E; injection H as <- <-;
      apply transaction_cases in E as [(e' & [= <-] & E)|(y & d2 & d3 & [= <-] & E1 & E2 & E3)]; try (by rewrite E).
    apply prepared_cases in E2 as (d4 & E4 & E2).
    apply (each_done _ upsert_file) in E2; [|intros x ? ? Hx; by apply (call_done fault (upsert_file x)) in Hx].
    rewrite E3, E2, E4, E1. by apply batch_files.
  - apply report_cases in H. destruct e as [e|]; [by rewrite H |]. destruct H as [[] [= H]]. rewrite <- H.
    split; [by apply NoDup_map_filter |]. rewrite drop_files_map by done. apply map_eq. intros k. apply option_eq.
    intros f. cbn [file_spec]. rewrite map_lookup_filter_Some, lookup_delete_Some. simpl.
    rewrite <- not_true_iff_false, is_file_spec. split; intros [H1 H2]; split; try done.
    + intros E. apply H2. rewrite (files_map_key _ _ _ Ht H1). done.
    + intros E. apply H1. by rewrite <- E, (files_map_key _ _ _ Ht H2).
  - unfold DeleteFilesByPaths in H.
    apply (chunked_write (FDeletePaths repo) (λ c, filter (λ f, in_paths repo c f = false))) in H as [H1 H2];
      [by split | apply delete_paths_nil | apply delete_paths_app | apply delete_paths_step | done].
  - apply report_cases in H. destruct e as [e|]; [by rewrite H |]. destruct H as [[] [= H]]. rewrite <- H.
    split; [by apply NoDup_map_filter |]. rewrite drop_files_map by done. apply fin_maps.map_filter_ext. intros k f Hk.
    apply files_map_key in Hk as <-; [|done]. simpl. by rewrite String.eqb_neq.
  - unfold MarkFilesIndexed in H. destruct paths as [|p paths]; [injection H as <- <-; by rewrite mark_nil |].
    apply (chunked_write (FMark repo) (λ c, map (λ f, if in_paths repo c f then set_indexed f else f))) in H as [H1 H2];
      [by split | apply mark_nil | apply mark_app | apply mark_step | done].
Qed.

(** The file table is a finite map.  Under the rows a repository and path have
    at most one value; each write is the corresponding operation on the map — a
    batch stores its files in order, the deletions and the marking go over lists of
    any length in chunks — or fails: then a single write and a batch leave the map
    as it was, and a list of paths is done up to some point.  Reads answer the map:
    a file by its key, the files of a repository by path, the files of a content. *)
Theorem files_refine fault op d e d' :
  files_ok (tables d) → perform_file fault op d = (e, d') →
  let m := files_map (tables d) in
  let m' := files_map (tables d') in
  files_ok (tables d') ∧
  match e with None => m' = file_spec op m | Some _ => file_partial op m m' end ∧
  (∀ k f, m' !! k = Some f → file_key f = k) ∧
  (∀ repo path f d1, GetFile fault repo path d' = (inr f, d1) → m' !! (repo, path) = Some f) ∧
  (∀ repo path, (∀ n, fault n = None) → m' !! (repo, path) = None → fst (GetFile fault repo path d') = inl ErrNotFound) ∧
  (∀ repo fs d1, GetFilesByRepo fault repo d' = (inr fs, d1) →
    NoDup fs ∧ sorted_by (order_by String.ltb f_Path) fs ∧
    ∀ f, f ∈ fs ↔ f_RepoID f = repo ∧ m' !! file_key f = Some f) ∧
  (∀ repo hash fs d1, GetFilesByHash fault repo hash d' = (inr fs, d1) →
    ∀ f, f ∈ fs ↔ f_RepoID f = repo ∧ f_Hash f = hash ∧ m' !! file_key f = Some f).
Proof.
  intros Ht H m m'.
  destruct (perform_file_spec fault op d e d' Ht H) as [Ht' Hs].
  assert (∀ f, m' !! file_key f = Some f ↔ f ∈ tables d') as Hm.
  { intros f. unfold m'. rewrite files_map_lookup by done. tauto. }
  split_and!; [done | done | | | | |].
  - intros k f. by apply files_map_key.
  - intros repo path f d1. unfold GetFile, getFile.
    intros [(? & [=] & _)|(x & [= <-] & Hx)]%call_cases. destruct (List.find _ _) as [y|] eqn:E; [|done].
    injection Hx as -> _. apply find_some in E as [Hf%list_elem_of_In <-%is_file_spec]. by apply Hm.
  - intros repo path Hf Hn. unfold GetFile, call, getFile. rewrite Hf.
    destruct (List.find _ _) as [y|] eqn:E; [|done]. apply find_some in E as [Hy%list_elem_of_In Hk%is_file_spec].
    apply Hm in Hy. rewrite Hk in Hy. congruence.
  - intros repo fs d1. unfold GetFilesByRepo, getFilesByRepo.
    intros [(? & [=] & _)|(x & [= <-] & [= Hx _])]%call_cases. rewrite <- Hx. split_and!.
    + rewrite SliceSort_perm. apply NoDup_filter. by apply (NoDup_fmap_1 file_key).
    + apply (SliceSort_sorted _ (λ _, True)). by apply Forall_true.
    + intros f. rewrite SliceSort_elem, list_elem_of_filter, Hm. done.
  - intros repo hash fs d1. unfold GetFilesByHash, getFilesByHash.
    intros [(? & [=] & _)|(x & [= <-] & [= Hx _])]%call_cases. rewrite <- Hx. intros f.
    rewrite list_elem_of_filter, Hm. tauto.
Qed.

Definition some_file (path hash : string) (indexed : bool) : File := {|
  f_RepoID := "api"; f_Path := path; f_Hash := hash; f_Language := "go"; f_Size := 10; f_ModTime := 5; f_Indexed := indexed |}.
Lemma files_refine_witness :
  let d := snd (perform_file no_fault (FBatch [some_file "b.go" "1" false; some_file "a.go" "2" false; some_file "b.go" "3" false])
                 {| tables := []; calls := 0 |}) in
  let d' := snd (perform_file no_fault (FMark "api" ["b.go"]) d) in
  GetFilesByRepo no_fault "api" d' = (inr [some_file "a.go" "2" false; some_file "b.go" "3" true], snd (GetFilesByRepo no_fault "api" d')) ∧
  files_map (tables d') !! ("api", "b.go") = Some (some_file "b.go" "3" true).
Proof.
  intros d d'. split; [vm_compute; reflexivity |].
  assert (files_ok (tables d)) as Hd.
  { apply (files_refine no_fault (FBatch [some_file "b.go" "1" false; some_file "a.go" "2" false; some_file "b.go" "3" false])
      {| tables := []; calls := 0 |} None d); [constructor | reflexivity]. }
  pose proof (files_refine no_fault (FMark "api" ["b.go"]) d None d' Hd eq_refl) as (_ & _ & _ & H & _).
  exact (H "api" "b.go" (some_file "b.go" "3" true) _ eq_refl).
Defined.
