(* ===== verification/Commits.v ===== *)
(** * Commit batches ([internal/app/commits.go])

    What a client pushes: commits with their file changes.  The checks a batch has
    to pass, its text in the job queue, the plan it merges into and its place
    relative to the cursor of the repository.  The batch a worker decodes from a job
    is the batch that was pushed; what the checks and the plan guarantee follows. *)

From S2P Require Import Prelude GoStrings GoStrconv GoSort GoFloat GoJson GoJsonEncode Domain Store Paths.
From Stdlib Require Import Strings.Ascii.

(** ** Data *)

Record CommitFile := {
  cf_Path : string;
  cf_OldPath : string;
  cf_Content : string;
  cf_Status : string
}.
#[export] Instance CommitFile_eq_dec : EqDecision CommitFile.
Proof. solve_decision. Defined.

Record CommitEvent := {
  ce_SHA : string;
  ce_Parents : list string;
  ce_Files : list CommitFile
}.
#[export] Instance CommitEvent_eq_dec : EqDecision CommitEvent.
Proof. solve_decision. Defined.

(** The errors of the service; [text] is what follows the fixed message. *)
Inductive AppError :=
  | ErrBadRequest (text : string)
  | ErrInvalidPath (text : string)
  | ErrRepoBusy (text : string)
  | FromStore (op : string) (e : StoreError)
  | OtherError (text : string).

Definition store_error_text (e : StoreError) : string :=
  match e with ErrNotFound => "not found" | StoreFailure t => t end.
Definition error_text (e : AppError) : string :=
  match e with
  | ErrBadRequest t => "bad request: " +:+ t
  | ErrInvalidPath t => "bad request: invalid path: " +:+ t
  | ErrRepoBusy t => "repo is already indexing: " +:+ t
  | FromStore op e => op +:+ store_error_text e
  | OtherError t => t
  end.

(** ** The text of a batch *)

Definition text_field (key value : string) (omit_empty : bool) : list (string * json) :=
  if omit_empty && String.eqb value "" then [] else [(key, JString value)].
Definition list_field (key : string) (items : list json) : list (string * json) :=
  match items with [] => [] | _ => [(key, JArray items)] end.

Definition file_json (f : CommitFile) : json := JObject
  (text_field "path" (cf_Path f) false ++ text_field "old_path" (cf_OldPath f) true ++
   text_field "content" (cf_Content f) true ++ text_field "status" (cf_Status f) false).
Definition event_json (c : CommitEvent) : json := JObject
  (text_field "sha" (ce_SHA c) false ++ list_field "parents" (map JString (ce_Parents c)) ++
   list_field "files" (map file_json (ce_Files c))).

(** [encodeCommitBatch]; a batch has no value [json.Marshal] refuses. *)
Definition encodeCommitBatch (commits : list CommitEvent) : string := print (JArray (map event_json commits)).

(** Elements are decoded over those the slice held, into zero values beyond them. *)
Fixpoint decode_list {S} (f : S → json → S * bool) (zero : S) (old : list S) (items : list json) : list S * bool :=
  match items with
  | [] => ([], true)
  | v :: vs =>
      let '(x, ok) := f (default zero (head old)) v in
      let '(xs, ok') := decode_list f zero (tail old) vs in
      (x :: xs, ok && ok')
  end.
Definition decode_slice {S} (f : S → json → S * bool) (zero : S) (old : list S) (v : json) : list S * bool :=
  match v with JArray items => decode_list f zero old items | JNull => ([], true) | _ => (old, false) end.

Definition no_file : CommitFile := {| cf_Path := ""; cf_OldPath := ""; cf_Content := ""; cf_Status := "" |}.
Definition commit_file_field (key : string) : option (CommitFile → json → CommitFile * bool) :=
  if String.eqb key "path" then Some (λ f v, let '(s, ok) := decode_string (cf_Path f) v in
    ({| cf_Path := s; cf_OldPath := cf_OldPath f; cf_Content := cf_Content f; cf_Status := cf_Status f |}, ok))
  else if String.eqb key "old_path" then Some (λ f v, let '(s, ok) := decode_string (cf_OldPath f) v in
    ({| cf_Path := cf_Path f; cf_OldPath := s; cf_Content := cf_Content f; cf_Status := cf_Status f |}, ok))
  else if String.eqb key "content" then Some (λ f v, let '(s, ok) := decode_string (cf_Content f) v in
    ({| cf_Path := cf_Path f; cf_OldPath := cf_OldPath f; cf_Content := s; cf_Status := cf_Status f |}, ok))
  else if String.eqb key "status" then Some (λ f v, let '(s, ok) := decode_string (cf_Status f) v in
    ({| cf_Path := cf_Path f; cf_OldPath := cf_OldPath f; cf_Content := cf_Content f; cf_Status := s |}, ok))
  else None.
Definition decode_file : CommitFile → json → CommitFile * bool := decode_struct commit_file_field.

Definition no_event : CommitEvent := {| ce_SHA := ""; ce_Parents := []; ce_Files := [] |}.
Definition decode_sha (c : CommitEvent) (v : json) : CommitEvent * bool :=
  let '(s, ok) := decode_string (ce_SHA c) v in ({| ce_SHA := s; ce_Parents := ce_Parents c; ce_Files := ce_Files c |}, ok).
Definition decode_parents (c : CommitEvent) (v : json) : CommitEvent * bool :=
  let '(l, ok) := decode_slice decode_string "" (ce_Parents c) v in
  ({| ce_SHA := ce_SHA c; ce_Parents := l; ce_Files := ce_Files c |}, ok).
Definition decode_files (c : CommitEvent) (v : json) : CommitEvent * bool :=
  let '(l, ok) := decode_slice decode_file no_file (ce_Files c) v in
  ({| ce_SHA := ce_SHA c; ce_Parents := ce_Parents c; ce_Files := l |}, ok).
Definition commit_event_field (key : string) : option (CommitEvent → json → CommitEvent * bool) :=
  if String.eqb key "sha" then Some decode_sha
  else if String.eqb key "parents" then Some decode_parents
  else if String.eqb key "files" then Some decode_files
  else None.
Definition decode_event : CommitEvent → json → CommitEvent * bool := decode_struct commit_event_field.

(** [decodeCommitBatch]; [json_error] is what [encoding/json] says of a payload. *)
Definition decodeCommitBatch (json_error : string → string) (payload : string) : AppError + list CommitEvent :=
  match jparse payload with
  | Some v =>
      let '(commits, ok) := decode_slice decode_event no_event [] v in
      if negb ok then inl (OtherError ("decode commit batch: " +:+ json_error payload))
      else match commits with [] => inl (OtherError "decode commit batch: empty batch") | _ => inr commits end
  | None => inl (OtherError ("decode commit batch: " +:+ json_error payload))
  end.

(** ** Checks *)

(** [validateCommitPath] *)
Definition validateCommitPath (path : string) : option AppError :=
  if String.eqb path "" then Some (ErrInvalidPath "commit file path is required")
  else if IsAbs path || HasPrefix path "/" || HasPrefix path "\" then
    Some (ErrInvalidPath ("commit file path must be relative to the repo root: " +:+ path))
  else
    let clean := Clean path in
    if String.eqb clean ".." || HasPrefix clean "../" then
      Some (ErrInvalidPath ("commit file path escapes the repo root: " +:+ path))
    else None.

(** The checks of [ApplyCommits] and [ApplyLocalChanges] on one change. *)
Definition validate_file (f : CommitFile) : option AppError :=
  match validateCommitPath (cf_Path f) with
  | Some e => Some e
  | None => if String.eqb (cf_OldPath f) "" then None else validateCommitPath (cf_OldPath f)
  end.
Fixpoint first_error {A} (check : A → option AppError) (l : list A) : option AppError :=
  match l with
  | [] => None
  | x :: l => match check x with Some e => Some e | None => first_error check l end
  end.
Definition validate_commit (c : CommitEvent) : option AppError :=
  if String.eqb (ce_SHA c) "" then Some (ErrBadRequest "commit sha is required")
  else first_error validate_file (ce_Files c).
Definition validate_commits (commits : list CommitEvent) : option AppError :=
  match commits with
  | [] => Some (ErrBadRequest "commits are required")
  | _ => first_error validate_commit commits
  end.

(** ** The plan *)

Record commitPlanEntry := { pe_delete : bool; pe_content : string }.
#[export] Instance commitPlanEntry_eq_dec : EqDecision commitPlanEntry.
Proof. solve_decision. Defined.
Abbreviation plan := (gmap string commitPlanEntry).

Definition delete_entry : commitPlanEntry := {| pe_delete := true; pe_content := "" |}.
Definition upsert_entry (content : string) : commitPlanEntry := {| pe_delete := false; pe_content := content |}.

Definition plan_file (p : plan) (f : CommitFile) : plan :=
  if String.eqb (cf_Status f) "D" then <[cf_Path f := delete_entry]> p
  else if String.eqb (cf_Status f) "R" then
    let p := if negb (String.eqb (cf_OldPath f) "") && negb (String.eqb (cf_OldPath f) (cf_Path f))
             then <[cf_OldPath f := delete_entry]> p else p in
    <[cf_Path f := upsert_entry (cf_Content f)]> p
  else <[cf_Path f := upsert_entry (cf_Content f)]> p.

(** [mergeCommitPlan] *)
Definition mergeCommitPlan (commits : list CommitEvent) : plan :=
  foldl (λ p c, foldl plan_file p (ce_Files c)) ∅ commits.

(** ** The chain *)

(** [hasParent] *)
Definition hasParent (parents : list string) (sha : string) : bool := existsb (String.eqb sha) parents.

Definition first_parents (commits : list CommitEvent) : list string :=
  match commits with c :: _ => ce_Parents c | [] => [] end.
Definition target_sha (commits : list CommitEvent) : string :=
  match last commits with Some c => ce_SHA c | None => "" end.

Inductive commitBatchOrder := commitBatchNext | commitBatchApplied | commitBatchTooEarly.

(** [commitJobOrder] *)
Definition commitJobOrder (r : Repo) (commits : list CommitEvent) : commitBatchOrder :=
  if String.eqb (r_LastCommit r) "" || hasParent (first_parents commits) (r_LastCommit r) then commitBatchNext
  else if existsb (λ c, String.eqb (ce_SHA c) (r_LastCommit r)) commits then commitBatchApplied
  else commitBatchTooEarly.

Definition valid_file (f : CommitFile) : CommitFile := {|
  cf_Path := to_valid O (cf_Path f); cf_OldPath := to_valid O (cf_OldPath f);
  cf_Content := to_valid O (cf_Content f); cf_Status := to_valid O (cf_Status f) |}.
Definition valid_event (c : CommitEvent) : CommitEvent := {|
  ce_SHA := to_valid O (ce_SHA c); ce_Parents := map (to_valid O) (ce_Parents c); ce_Files := map valid_file (ce_Files c) |}.

(** A batch of text that is UTF-8, as one that came over HTTP is. *)
Definition utf8_file (f : CommitFile) : bool :=
  valid_utf8 (cf_Path f) && valid_utf8 (cf_OldPath f) && valid_utf8 (cf_Content f) && valid_utf8 (cf_Status f).
Definition utf8_event (c : CommitEvent) : bool :=
  valid_utf8 (ce_SHA c) && forallb valid_utf8 (ce_Parents c) && forallb utf8_file (ce_Files c).

Lemma map_id_when {A} (f : A → A) (test : A → bool) l :
  (∀ x, test x = true → f x = x) → forallb test l = true → map f l = l.
Proof.
  intros Hf. induction l as [|x l IH]; simpl; [done |]. intros [H1 H2]%andb_true_iff. by rewrite Hf, IH.
Qed.

Lemma valid_utf8_id s : valid_utf8 s = true → to_valid O s = s.
Proof. apply String.eqb_eq. Qed.

Lemma utf8_file_id f : utf8_file f = true → valid_file f = f.
Proof.
  unfold utf8_file, valid_file. destruct f. cbn. rewrite !andb_true_iff. intros (((H1 & H2) & H3) & H4).
  by rewrite !valid_utf8_id.
Qed.

Lemma utf8_event_id c : utf8_event c = true → valid_event c = c.
Proof.
  unfold utf8_event, valid_event. destruct c as [sha ps fs]. cbn. rewrite !andb_true_iff. intros ((H1 & H2) & H3).
  rewrite valid_utf8_id, (map_id_when _ _ ps valid_utf8_id H2) by done. f_equal.
  by apply (map_id_when _ utf8_file); [apply utf8_file_id |].
Qed.

(** ** Decoding what was printed *)

Lemma plain_file f : plain (file_json f) = true.
Proof.
  unfold file_json, text_field. cbn [plain andb]. rewrite !forallb_app. simpl.
  by destruct (String.eqb (cf_OldPath f) ""), (String.eqb (cf_Content f) "").
Qed.

Lemma plain_field key (items : list json) :
  forallb plain items = true → forallb (λ kv, plain (snd kv)) (list_field key items) = true.
Proof. intros H. destruct items; [done |]. unfold list_field. cbn [forallb snd]. by rewrite andb_true_r. Qed.

Lemma plain_event c : plain (event_json c) = true.
Proof.
  change (forallb (λ kv, plain (snd kv)) (text_field "sha" (ce_SHA c) false ++ list_field "parents" (map JString (ce_Parents c)) ++
    list_field "files" (map file_json (ce_Files c))) = true).
  rewrite !forallb_app, !plain_field; [done | |].
  - induction (ce_Files c) as [|f fs IH]; [done |]. cbn [map forallb]. by rewrite plain_file.
  - by induction (ce_Parents c).
Qed.

Lemma decode_file_json f : decode_file no_file (valid_json (file_json f)) = (valid_file f, true).
Proof.
  destruct f as [path old content status]. unfold file_json, text_field. cbn [cf_Path cf_OldPath cf_Content cf_Status].
  destruct (String.eqb_spec old "") as [->|], (String.eqb_spec content "") as [->|]; reflexivity.
Qed.

Lemma decode_list_map {A S} (f : S → json → S * bool) (zero : S) (j : A → json) (g : A → S) l :
  (∀ x, f zero (j x) = (g x, true)) → decode_list f zero [] (map j l) = (map g l, true).
Proof. intros Hf. induction l as [|x l IH]; [done |]. simpl. by rewrite Hf, IH. Qed.

Lemma decode_event_json c : decode_event no_event (valid_json (event_json c)) = (valid_event c, true).
Proof.
  destruct c as [sha ps fs].
  change (foldl (struct_step commit_event_field) (no_event, true)
    (map valid_member (text_field "sha" sha false ++ list_field "parents" (map JString ps) ++ list_field "files" (map file_json fs))) =
    (valid_event {| ce_SHA := sha; ce_Parents := ps; ce_Files := fs |}, true)).
  rewrite !map_app, !foldl_app.
  assert (foldl (struct_step commit_event_field) (no_event, true) (map valid_member (text_field "sha" sha false)) =
    ({| ce_SHA := to_valid O sha; ce_Parents := []; ce_Files := [] |}, true)) as -> by reflexivity.
  assert (foldl (struct_step commit_event_field) ({| ce_SHA := to_valid O sha; ce_Parents := []; ce_Files := [] |}, true)
    (map valid_member (list_field "parents" (map JString ps))) =
    ({| ce_SHA := to_valid O sha; ce_Parents := map (to_valid O) ps; ce_Files := [] |}, true)) as ->.
  { destruct ps as [|p ps]; [done |].
    change ((let '(s, ok) := decode_parents {| ce_SHA := to_valid O sha; ce_Parents := []; ce_Files := [] |}
      (JArray (map valid_json (map JString (p :: ps)))) in (s, true && ok)) =
      ({| ce_SHA := to_valid O sha; ce_Parents := map (to_valid O) (p :: ps); ce_Files := [] |}, true)).
    unfold decode_parents, decode_slice. cbn [ce_Parents]. by rewrite map_map, (decode_list_map _ _ _ (to_valid O)). }
  destruct fs as [|f fs]; [done |].
  change ((let '(s, ok) := decode_files {| ce_SHA := to_valid O sha; ce_Parents := map (to_valid O) ps; ce_Files := [] |}
    (JArray (map valid_json (map file_json (f :: fs)))) in (s, true && ok)) =
    (valid_event {| ce_SHA := sha; ce_Parents := ps; ce_Files := f :: fs |}, true)).
  unfold decode_files, decode_slice. cbn [ce_Files]. rewrite map_map, (decode_list_map _ _ _ valid_file) by apply decode_file_json.
  done.
Qed.

Lemma decode_batch json_error commits :
  commits ≠ [] → decodeCommitBatch json_error (encodeCommitBatch commits) = inr (map valid_event commits).
Proof.
  intros Hne. unfold decodeCommitBatch, encodeCommitBatch. rewrite jparse_print.
  - cbn [valid_json decode_slice]. rewrite map_map, (decode_list_map _ _ _ valid_event) by apply decode_event_json.
    by destruct commits.
  - change (forallb plain (map event_json commits) = true). clear Hne.
    induction commits as [|c l IH]; [done |]. cbn [map forallb]. by rewrite plain_event.
Qed.

(** The batch a worker decodes from a queued job is the batch that was pushed:
    the same commits in the same order, with the same parents and the same
    changes, whatever their texts hold — quotes, control characters, separators,
    nothing at all.  Text that is not UTF-8 comes back with the replacement
    character for each bad byte, and only that. *)
Theorem commit_batch_roundtrip json_error commits :
  commits ≠ [] →
  decodeCommitBatch json_error (encodeCommitBatch commits) = inr (map valid_event commits) ∧
  (forallb utf8_event commits = true → decodeCommitBatch json_error (encodeCommitBatch commits) = inr commits).
Proof.
  intros Hne. pose proof (decode_batch json_error commits Hne) as H. split; [done |]. intros Hu.
  rewrite H. f_equal. by apply (map_id_when _ utf8_event); [apply utf8_event_id |].
Qed.

Definition some_commits : list CommitEvent := [
  {| ce_SHA := "b2"; ce_Parents := ["a1"]; ce_Files := [
    {| cf_Path := "src/a.go"; cf_OldPath := ""; cf_Content := "package a // <&> é" +:+ quote; cf_Status := "M" |};
    {| cf_Path := "new.go"; cf_OldPath := "old.go"; cf_Content := ""; cf_Status := "R" |}] |};
  {| ce_SHA := "c3"; ce_Parents := []; ce_Files := [] |}].

Lemma commit_batch_roundtrip_witness :
  decodeCommitBatch (λ _, "") (encodeCommitBatch some_commits) = inr some_commits.
Proof.
  assert (some_commits ≠ []) as Hne by discriminate.
  exact (proj2 (commit_batch_roundtrip (λ _, "") some_commits Hne) eq_refl).
Defined.

(** ** Paths stay inside the repository *)

(** A step up is never taken back: [..] stays where it is. *)
Lemma clean_step_dots w st : ".." ∈ st → ".." ∈ clean_step false st w.
Proof.
  intros H. unfold clean_step. destruct (_ || _); [done |]. destruct (String.eqb w ".."); [|by right].
  destruct st as [|top rest]; [by apply not_elem_of_nil in H |]. destruct (String.eqb_spec top "..") as [->|Ht]; [by right |].
  apply elem_of_cons in H as [H|H]; congruence.
Qed.

Lemma clean_dots ws st : ".." ∈ st → ".." ∈ foldl (clean_step false) st ws.
Proof. revert st. induction ws as [|w ws IH]; intros st H; [done |]. simpl. by apply IH, clean_step_dots. Qed.

(** Without one, cleaning below a base never touches the base. *)
Lemma clean_below base ws st :
  ".." ∉ foldl (clean_step false) st ws →
  foldl (clean_step true) (st ++ base) ws = foldl (clean_step false) st ws ++ base.
Proof.
  revert st. induction ws as [|w ws IH]; intros st H; [done |]. simpl in *.
  rewrite <- IH by done. f_equal. assert (".." ∉ clean_step false st w) as Hst by (intros Hd; by apply H, clean_dots).
  revert Hst. unfold clean_step. destruct (_ || _); [done |]. destruct (String.eqb_spec w "..") as [->|]; [|done].
  destruct st as [|top rest]; simpl; [|by destruct (String.eqb top "..")]. intros Hd. destruct Hd. by left.
Qed.

(** The one that leads is at the bottom. *)
Lemma clean_bottom ws st :
  (".." ∈ st → last st = Some "..") → ".." ∈ foldl (clean_step false) st ws → last (foldl (clean_step false) st ws) = Some "..".
Proof.
  revert st. induction ws as [|w ws IH]; intros st Hst H; [by apply Hst |]. simpl in *. apply IH; [|done]. clear IH H.
  unfold clean_step. destruct (_ || _); [done |]. destruct (String.eqb_spec w "..") as [->|Hw].
  - destruct st as [|top rest]; [done |]. destruct (String.eqb_spec top "..") as [->|Ht].
    + intros _. rewrite last_cons. by rewrite (Hst (list_elem_of_here _ _)).
    + intros Hr. destruct rest as [|y rest]; [by apply not_elem_of_nil in Hr |]. by apply Hst; right.
  - intros [<-|Hin]%elem_of_cons; [done |]. rewrite last_cons. by rewrite (Hst Hin).
Qed.

Lemma clean_step_components w st :
  ContainsByte "/" w = false → Forall (λ v, v = ".." ∨ component v) st → Forall (λ v, v = ".." ∨ component v) (clean_step false st w).
Proof.
  intros Hw Hst. unfold clean_step. destruct (String.eqb_spec w "") as [|H1]; [done |].
  destruct (String.eqb_spec w ".") as [|H2]; [done |]. simpl. destruct (String.eqb_spec w "..") as [->|H3].
  - destruct st as [|top rest]; [by constructor; [left |] |]. destruct (String.eqb top ".."); [by constructor; [left |] |].
    by apply Forall_cons in Hst as [_ ?].
  - constructor; [by right |done].
Qed.

Lemma clean_components_all ws st :
  Forall (λ w, ContainsByte "/" w = false) ws → Forall (λ v, v = ".." ∨ component v) st →
  Forall (λ v, v = ".." ∨ component v) (foldl (clean_step false) st ws).
Proof.
  intros H. revert st. induction H as [|w ws Hw H IH]; intros st Hst; [done |]. simpl. by apply IH, clean_step_components.
Qed.

Lemma relative_no_prefix p : HasPrefix p "/" = false → Clean p =
  let body := Join (reverse (foldl (clean_step false) [] (SplitByte p "/"))) "/" in if String.eqb body "" then "." else body.
Proof. unfold Clean. by intros ->. Qed.

Lemma validate_no_dots p :
  validateCommitPath p = None → p ≠ "" ∧ ".." ∉ foldl (clean_step false) [] (SplitByte p "/").
Proof.
  unfold validateCommitPath. destruct (String.eqb_spec p "") as [|Hp]; [done |].
  destruct (IsAbs p || HasPrefix p "/" || HasPrefix p "\") eqn:Ea; [done |].
  apply orb_false_iff in Ea as [Ea _]. apply orb_false_iff in Ea as [_ Ea].
  rewrite relative_no_prefix by done. cbv zeta. set (st := foldl (clean_step false) [] (SplitByte p "/")).
  intros H. split; [done |]. intros Hd. pose proof (clean_bottom (SplitByte p "/") [] ltac:(by intros ?%not_elem_of_nil) Hd) as Hl. fold st in Hl.
  assert (∃ rest, reverse st = ".." :: rest) as [rest Er].
  { apply last_Some in Hl as [l' ->]. exists (reverse l'). by rewrite reverse_app. }
  rewrite Er, Join_cons in H. destruct rest as [|w rest]; [done |].
  change (".." +:+ "/" +:+ ?x) with (String "." (String "." (String "/" x))) in H.
  pose proof (HasPrefix_app "../" (Join (w :: rest) "/")) as E. cbn -[HasPrefix Join] in H, E. rewrite E in H. discriminate H.
Qed.

(** A pushed path cannot leave the repository.  A path the check accepts, joined
    to the root of any repository, names the root or something below it, whatever
    dots, slashes and steps up it holds; an absolute path is refused; and every
    plain relative path that does not start with a backslash is accepted. *)
Theorem validateCommitPath_inside path :
  (validateCommitPath path = None → ∀ rs, rs ≠ [] → Forall component rs →
    ∃ ws, Forall component ws ∧ JoinPath [root_path rs; path] = root_path (rs ++ ws)) ∧
  (IsAbs path = true → validateCommitPath path ≠ None) ∧
  (∀ ws, ws ≠ [] → Forall component ws → path = join_components ws → HasPrefix path "\" = false →
    validateCommitPath path = None).
Proof.
  split_and!.
  - intros [Hp Hd]%validate_no_dots rs Hn Hr. exists (reverse (foldl (clean_step false) [] (SplitByte path "/"))).
    rewrite JoinPath_root by done. pose proof (clean_below (reverse rs) (SplitByte path "/") [] Hd) as E. simpl in E. rewrite E.
    rewrite reverse_app, reverse_involutive. split; [|done].
    assert (Forall (λ v, v = ".." ∨ component v) (foldl (clean_step false) [] (SplitByte path "/"))) as Hc
      by (apply clean_components_all; [apply SplitByte_pieces | constructor]).
    apply Forall_reverse. rewrite Forall_forall in Hc |- *. intros v Hv. destruct (Hc v Hv) as [->|]; done.
  - unfold validateCommitPath. intros Ha. destruct (String.eqb path ""); [done |]. by rewrite Ha.
  - intros ws Hn Hw -> Hb. unfold validateCommitPath.
    destruct (String.eqb_spec (join_components ws) "") as [E|_]; [by apply join_components_nonempty in E |].
    unfold IsAbs. rewrite (components_not_rooted ws) by done. rewrite Hb. cbn [orb].
    rewrite relative_no_prefix by by apply components_not_rooted. cbv zeta.
    assert (SplitByte (join_components ws) "/" = ws) as Es by (apply Split_Join; [done | by apply component_no_slash]).
    rewrite Es.
    rewrite (clean_components false ws) by done. rewrite app_nil_r, reverse_involutive. fold (join_components ws).
    destruct (String.eqb_spec (join_components ws) "") as [E|_]; [by apply join_components_nonempty in E |].
    destruct (_ || _) eqn:E; [|done]. exfalso. assert (∃ r, ws = ".." :: r) as [r ->].
    { apply orb_true_iff in E as [E%String.eqb_eq|[r E]%HasPrefix_inv];
        rewrite E in Es; [by exists [] |]. exists (Split (Ascii.eqb "/") r). rewrite <- Es.
      change ("../" +:+ r) with (".." +:+ String "/" r). unfold SplitByte. by rewrite Split_app. }
    apply Forall_cons in Hw as [(_ & _ & Hw & _) _]. done.
Qed.

Lemma validateCommitPath_inside_witness :
  validateCommitPath "./a//b/../c.go" = None ∧ validateCommitPath "a/../../etc/passwd" ≠ None ∧
  ∃ ws, Forall component ws ∧ JoinPath ["/srv/repo"; "./a//b/../c.go"] = root_path (["srv"; "repo"] ++ ws).
Proof.
  assert (validateCommitPath "./a//b/../c.go" = None) as E by reflexivity.
  assert (Forall component ["srv"; "repo"]) as Hr by (repeat (constructor; [by split_and! |]); constructor).
  assert (["srv"; "repo"] ≠ []) as Hn by discriminate.
  split; [exact E | split; [discriminate |]].
  exact (proj1 (validateCommitPath_inside "./a//b/../c.go") E ["srv"; "repo"] Hn Hr).
Defined.

(** ** The plan does what the commits do *)

(** A working tree as far as pushes tell: the content of each path, [""] where the
    push leaves it to the disk. *)
Abbreviation tree := (gmap string string).

(** One change after another, as the client made them. *)
Definition apply_file (t : tree) (f : CommitFile) : tree :=
  if String.eqb (cf_Status f) "D" then delete (cf_Path f) t
  else if String.eqb (cf_Status f) "R" then
    <[cf_Path f := cf_Content f]> (if String.eqb (cf_OldPath f) "" then t else delete (cf_OldPath f) t)
  else <[cf_Path f := cf_Content f]> t.
Definition apply_commits (commits : list CommitEvent) (t : tree) : tree :=
  foldl (λ t c, foldl apply_file t (ce_Files c)) t commits.

(** The final action of each path. *)
Definition apply_entry (t : tree) (pe : string * commitPlanEntry) : tree :=
  if pe_delete (snd pe) then delete (fst pe) t else <[fst pe := pe_content (snd pe)]> t.

Definition entry_value (e : commitPlanEntry) : option string := if pe_delete e then None else Some (pe_content e).
Definition planned (p : plan) (t : tree) (k : string) : option string :=
  match p !! k with Some e => entry_value e | None => t !! k end.

Lemma apply_entry_lookup t pe k :
  apply_entry t pe !! k = if decide (fst pe = k) then entry_value (snd pe) else t !! k.
Proof.
  unfold apply_entry, entry_value. destruct (pe_delete _); case_decide as E; subst;
    by rewrite ?lookup_delete_eq, ?lookup_delete_ne, ?lookup_insert_eq, ?lookup_insert_ne.
Qed.

Lemma apply_entries_lookup es t k :
  NoDup (map fst es) →
  foldl apply_entry t es !! k = match (list_to_map es : plan) !! k with Some e => entry_value e | None => t !! k end.
Proof.
  revert t. induction es as [|[p e] es IH]; intros t Hnd; [done |]. simpl. apply NoDup_cons in Hnd as [Hp Hnd].
  rewrite IH by done. destruct (decide (p = k)) as [->|Hk].
  - rewrite lookup_insert_eq, not_elem_of_list_to_map_1 by exact Hp. rewrite apply_entry_lookup. by rewrite decide_True.
  - rewrite lookup_insert_ne by done. destruct (_ !! k); [done |]. rewrite apply_entry_lookup. by rewrite decide_False.
Qed.

Lemma plan_file_step p f t t' :
  (∀ k, t' !! k = planned p t k) → ∀ k, apply_file t' f !! k = planned (plan_file p f) t k.
Proof.
  intros Ht k. unfold planned, apply_file, plan_file. specialize (Ht k). unfold planned in Ht.
  destruct (String.eqb (cf_Status f) "D"); [|destruct (String.eqb (cf_Status f) "R")].
  - destruct (decide (cf_Path f = k)) as [->|Hk];
      [by rewrite lookup_delete_eq, lookup_insert_eq | by rewrite lookup_delete_ne, lookup_insert_ne].
  - destruct (decide (cf_Path f = k)) as [->|Hk]; [by rewrite !lookup_insert_eq |]. rewrite !lookup_insert_ne by done.
    destruct (String.eqb (cf_OldPath f) ""); [done |]. simpl. destruct (String.eqb_spec (cf_OldPath f) (cf_Path f)) as [->|Ho]; simpl.
    + by rewrite lookup_delete_ne.
    + destruct (decide (cf_OldPath f = k)) as [->|Hok];
        [by rewrite lookup_delete_eq, lookup_insert_eq | by rewrite lookup_delete_ne, lookup_insert_ne].
  - destruct (decide (cf_Path f = k)) as [->|Hk]; [by rewrite !lookup_insert_eq | by rewrite !lookup_insert_ne].
Qed.

Lemma plan_files_step fs p t t' :
  (∀ k, t' !! k = planned p t k) → ∀ k, foldl apply_file t' fs !! k = planned (foldl plan_file p fs) t k.
Proof. revert p t'. induction fs as [|f fs IH]; intros p t' Ht; [done |]. simpl. by apply IH, plan_file_step. Qed.

Lemma merge_planned commits t k : apply_commits commits t !! k = planned (mergeCommitPlan commits) t k.
Proof.
  unfold apply_commits, mergeCommitPlan.
  assert (∀ k, t !! k = planned ∅ t k) as Ht by (intros k'; unfold planned; by rewrite lookup_empty).
  revert Ht. generalize (∅ : plan) as p. generalize t at 1 3 as t'. revert k.
  induction commits as [|c l IH]; intros k t' p Ht; [apply Ht |]. simpl. apply IH. by apply plan_files_step.
Qed.

(** C40: one pass over the merged plan leaves every path as the commits do one after
    another: the last change of a path wins, a rename takes the old path away and
    brings the new one, whatever was added, deleted, renamed away and added
    again in between — and whatever order the plan is ranged over in, which Go
    leaves open. *)
Theorem mergeCommitPlan_sequential commits t entries :
  entries ≡ₚ map_to_list (mergeCommitPlan commits) →
  foldl apply_entry t entries = apply_commits commits t.
Proof.
  intros He. assert (NoDup (map fst entries)) as Hnd by (rewrite He; apply NoDup_fst_map_to_list).
  apply map_eq. intros k. rewrite apply_entries_lookup by done. rewrite (list_to_map_proper _ _ Hnd He), list_to_map_to_list.
  symmetry. apply merge_planned.
Qed.

Lemma mergeCommitPlan_sequential_witness :
  let change p o c s := {| cf_Path := p; cf_OldPath := o; cf_Content := c; cf_Status := s |} in
  let commits := [
    {| ce_SHA := "1"; ce_Parents := []; ce_Files := [change "a" "" "new a" "M"; change "c" "b" "was b" "R"] |};
    {| ce_SHA := "2"; ce_Parents := ["1"]; ce_Files := [change "a" "" "" "D"; change "b" "" "b again" "A"] |}] in
  let t : tree := {["a" := "a"; "b" := "b"; "d" := "d"]} in
  foldl apply_entry t (reverse (map_to_list (mergeCommitPlan commits))) = {["b" := "b again"; "c" := "was b"; "d" := "d"]}.
Proof.
  intros change commits t.
  assert (reverse (map_to_list (mergeCommitPlan commits)) ≡ₚ map_to_list (mergeCommitPlan commits)) as H by apply reverse_Permutation.
  rewrite (mergeCommitPlan_sequential commits t _ H). vm_compute. reflexivity.
Defined.
