(* ===== verification/Queue.v ===== *)
(** * Pushing commits and running queued jobs ([internal/app/commits.go], [jobs.go], [indexing.go])

    The service over the two tables it coordinates instances with: the repositories
    and the job queue.  The index pass itself is an argument, its outcome: which
    paths it could not apply, or the error it ended in; it writes neither table.
    A run is the calls the code makes, in their order; the phases of a queued job
    are kept apart because other instances act between them. *)

From S2P Require Import Prelude GoStrings GoStrconv GoSort Domain Store SqlDriver SqlJobs SqlRepos Commits.

Record app_db := { app_repos : repos_db; app_jobs : jobs_db }.

(** A method of one table, on the database that holds both. *)
Definition zoom {A} (d : conn app_db) (on_repos : conn repos_db → A * conn repos_db) : A * conn app_db :=
  let '(x, d') := on_repos {| tables := app_repos (tables d); calls := calls d |} in
  (x, {| tables := {| app_repos := tables d'; app_jobs := app_jobs (tables d) |}; calls := calls d' |}).
Definition zoom_jobs {A} (d : conn app_db) (on_jobs : conn jobs_db → A * conn jobs_db) : A * conn app_db :=
  let '(x, d') := on_jobs {| tables := app_jobs (tables d); calls := calls d |} in
  (x, {| tables := {| app_repos := app_repos (tables d); app_jobs := tables d' |}; calls := calls d' |}).

Record CommitAck := {
  ca_Accepted : bool;
  ca_Status : string;
  ca_Queued : bool;
  ca_JobID : string;
  ca_Target : string;
  ca_Before : string
}.

Record IndexAck := {
  ia_Status : string;
  ia_Queued : bool;
  ia_JobID : string;
  ia_JobStatus : string;
  ia_Force : bool;
  ia_QueuedAt : Z;
  ia_ClaimedBy : string;
  ia_RepoStatus : string
}.

(** How a full pass ended: well, stopped with the server, or with an error. *)
Inductive index_outcome := IndexDone | IndexCancelled (text : string) | IndexFailed (text : string).
(** How an incremental pass ended: with an error, or with the paths it left out. *)
Abbreviation commit_outcome := (string + list string)%type.

Section Service.
  (** [json_error] is the error text of [encoding/json] for a payload, [Quote] is [strconv.Quote]. *)
  Context (fault : nat → option StoreError) (json_error Quote : string → string).

(** ** Terminal writes: what fails here is logged and no more *)

Definition write_status (id status err : string) (indexedAt : Z) (d : conn app_db) : conn app_db :=
  snd (zoom d (UpdateRepoStatus fault id status err indexedAt)).
Definition write_pending (id sha : string) (d : conn app_db) : conn app_db :=
  snd (zoom d (SetRepoPendingCommit fault id sha)).
Definition write_cursor (id sha : string) (d : conn app_db) : conn app_db :=
  snd (zoom d (UpdateRepoLastCommit fault id sha)).

(** [runApplyCommits] *)
Definition partially_applied (unapplied : list string) : string :=
  "commit batch partially applied; " +:+ Itoa (Z.of_nat (length unapplied)) +:+ " path(s) left unindexed: " +:+
  Join unapplied ", ".
Definition runApplyCommits (r : Repo) (commits : list CommitEvent) (outcome : commit_outcome) (now : Z) (d : conn app_db)
    : option string * conn app_db :=
  match outcome with
  | inl err => (Some err, write_status (r_ID r) StatusError err (r_IndexedAt r) d)
  | inr (_ :: _ as unapplied) =>
      (Some (partially_applied unapplied), write_status (r_ID r) StatusError (partially_applied unapplied) (r_IndexedAt r) d)
  | inr [] => (None, write_status (r_ID r) StatusIdle "" now (write_cursor (r_ID r) (target_sha commits) d))
  end.

(** [runIndex] *)
Definition runIndex (r : Repo) (outcome : index_outcome) (now : Z) (d : conn app_db) : option string * conn app_db :=
  match outcome with
  | IndexCancelled err => (Some err, write_status (r_ID r) StatusIdle "" (r_IndexedAt r) d)
  | IndexFailed err => (Some err, write_status (r_ID r) StatusError err (r_IndexedAt r) d)
  | IndexDone => (None, write_status (r_ID r) StatusIdle "" now d)
  end.

(** ** Requests *)

Definition repoClaimTTLSeconds : Z := DefaultRepoClaimTTLSeconds.

Definition no_ack (before : string) : CommitAck :=
  {| ca_Accepted := false; ca_Status := ""; ca_Queued := false; ca_JobID := ""; ca_Target := ""; ca_Before := before |}.

(** [ApplyCommits]; the repository comes back when a run of it was started here. *)
Definition ApplyCommits (distributed : bool) (owner repoID : string) (commits : list CommitEvent) (now : Z) (d : conn app_db)
    : (AppError + CommitAck) * option Repo * conn app_db :=
  match validate_commits commits with
  | Some e => (inl e, None, d)
  | None =>
      match zoom d (GetRepo fault repoID) with
      | (inl e, d) => (inl (FromStore "" e), None, d)
      | (inr r, d) =>
          if negb (String.eqb (r_LastCommit r) "") && negb (hasParent (first_parents commits) (r_LastCommit r)) then
            if negb (String.eqb (r_PendingCommit r) "") && hasParent (first_parents commits) (r_PendingCommit r)
            then (inl (ErrRepoBusy (repoID +:+ " is applying " +:+ r_PendingCommit r)), None, d)
            else (inr (no_ack (r_LastCommit r)), None, d)
          else
            let lastSHA := target_sha commits in
            if distributed then
              match zoom_jobs d (EnqueueCommitJob fault repoID (encodeCommitBatch commits) now) with
              | (inl e, d) => (inl (FromStore "enqueue commit job: " e), None, d)
              | (inr job, d) =>
                  (inr {| ca_Accepted := true; ca_Status := "queued"; ca_Queued := true; ca_JobID := ij_ID job;
                          ca_Target := lastSHA; ca_Before := r_LastCommit r |}, None, write_pending repoID lastSHA d)
              end
            else
              match zoom d (ClaimRepoForIndexing fault repoID owner repoClaimTTLSeconds now) with
              | (inl e, d) => (inl (FromStore "" e), None, d)
              | (inr false, d) => (inl (ErrRepoBusy repoID), None, d)
              | (inr true, d) =>
                  (inr {| ca_Accepted := true; ca_Status := "indexing"; ca_Queued := false; ca_JobID := "";
                          ca_Target := lastSHA; ca_Before := r_LastCommit r |}, Some r, write_pending repoID lastSHA d)
              end
      end
  end.

(** [StartIndex] *)
Definition StartIndex (distributed : bool) (owner repoID : string) (force : bool) (now : Z) (d : conn app_db)
    : (AppError + IndexAck) * option Repo * conn app_db :=
  match zoom d (GetRepo fault repoID) with
  | (inl e, d) => (inl (FromStore "" e), None, d)
  | (inr r, d) =>
      if distributed then
        match zoom_jobs d (EnqueueIndexJob fault repoID force now) with
        | (inl e, d) => (inl (FromStore "enqueue index job: " e), None, d)
        | (inr job, d) =>
            (inr {| ia_Status := "queued"; ia_Queued := true; ia_JobID := ij_ID job; ia_JobStatus := ij_Status job;
                    ia_Force := ij_Force job; ia_QueuedAt := ij_CreatedAt job; ia_ClaimedBy := ij_ClaimedBy job;
                    ia_RepoStatus := r_Status r |}, None, d)
        end
      else
        match zoom d (ClaimRepoForIndexing fault repoID owner repoClaimTTLSeconds now) with
        | (inl e, d) => (inl (FromStore "" e), None, d)
        | (inr false, d) => (inl (ErrRepoBusy repoID), None, d)
        | (inr true, d) =>
            (inr {| ia_Status := "indexing"; ia_Queued := false; ia_JobID := ""; ia_JobStatus := ""; ia_Force := force;
                    ia_QueuedAt := 0; ia_ClaimedBy := ""; ia_RepoStatus := StatusIndexing |}, Some r, d)
        end
  end.

(** [IndexRepoSync] *)
Definition IndexRepoSync (owner repoID : string) (outcome : index_outcome) (now ended : Z) (d : conn app_db)
    : option AppError * conn app_db :=
  match zoom d (GetRepo fault repoID) with
  | (inl e, d) => (Some (FromStore "" e), d)
  | (inr r, d) =>
      match zoom d (ClaimRepoForIndexing fault repoID owner repoClaimTTLSeconds now) with
      | (inl e, d) => (Some (FromStore "" e), d)
      | (inr false, d) => (Some (ErrRepoBusy repoID), d)
      | (inr true, d) => let '(err, d) := runIndex r outcome ended d in (option_map OtherError err, d)
      end
  end.

(** [ApplyLocalChanges] *)
Definition left_unindexed (unapplied : list string) : string :=
  Itoa (Z.of_nat (length unapplied)) +:+ " path(s) left unindexed: " +:+ Join unapplied ", ".
Definition ApplyLocalChanges (owner repoID : string) (files : list CommitFile) (outcome : commit_outcome) (now ended : Z)
    (d : conn app_db) : option AppError * conn app_db :=
  match files with
  | [] => (None, d)
  | _ =>
      match first_error validate_file files with
      | Some e => (Some e, d)
      | None =>
          match zoom d (GetRepo fault repoID) with
          | (inl e, d) => (Some (FromStore "" e), d)
          | (inr r, d) =>
              match zoom d (ClaimRepoForIndexing fault repoID owner repoClaimTTLSeconds now) with
              | (inl e, d) => (Some (FromStore "" e), d)
              | (inr false, d) => (Some (ErrRepoBusy repoID), d)
              | (inr true, d) =>
                  match (match outcome with inl err => Some err | inr [] => None | inr l => Some (left_unindexed l) end) with
                  | Some err => (Some (OtherError err), write_status (r_ID r) StatusError err (r_IndexedAt r) d)
                  | None => (None, write_status (r_ID r) StatusIdle "" ended d)
                  end
              end
          end
      end
  end.

(** ** The queue as clients see it *)

Definition maxJobListLimit : Z := 200.

(** [RepoJobs] *)
Definition RepoJobs (repoID : string) (limit : Z) (d : conn app_db) : Fallible (list IndexJob) * conn app_db :=
  match zoom d (GetRepo fault repoID) with
  | (inl e, d) => (inl e, d)
  | (inr _, d) => zoom_jobs d (ListIndexJobs fault repoID (if (maxJobListLimit <? limit)%Z then maxJobListLimit else limit))
  end.

(** [IndexJobState], [RepoJob] *)
Definition IndexJobState (jobID : string) (d : conn app_db) : Fallible IndexJob * conn app_db :=
  zoom_jobs d (GetIndexJob fault jobID).
Definition RepoJob (repoID jobID : string) (d : conn app_db) : Fallible IndexJob * conn app_db :=
  match IndexJobState jobID d with
  | (inl e, d) => (inl e, d)
  | (inr job, d) => (if String.eqb (ij_RepoID job) repoID then inr job else inl ErrNotFound, d)
  end.

(** ** The worker *)

(** [jobBookkeeper.complete], [jobBookkeeper.release] *)
Definition complete (job : IndexJob) (worker jobErr : string) (d : conn app_db) : conn app_db :=
  snd (zoom_jobs d (CompleteIndexJob fault (ij_ID job) worker jobErr)).
Definition release (job : IndexJob) (worker : string) (d : conn app_db) : conn app_db :=
  snd (zoom_jobs d (ReleaseIndexJob fault (ij_ID job) worker)).

(** [clearPendingCommit] *)
Definition clearPendingCommit (r : Repo) (target : string) (d : conn app_db) : conn app_db :=
  if String.eqb (r_PendingCommit r) target then write_pending (r_ID r) "" d else d.

Definition is_commit_job (job : IndexJob) : bool := String.eqb (ij_Kind job) JobKindCommits.

Definition commit_gap (r : Repo) (commits : list CommitEvent) : string :=
  "commit gap: batch " +:+ match commits with c :: _ => ce_SHA c | [] => "" end +:+ ".." +:+ target_sha commits +:+
  " does not continue cursor " +:+ Quote (r_LastCommit r) +:+
  " and no preceding batch is queued; resend from the cursor or reindex".

(** [runQueuedJob] up to the claim of the repository: what there is to run, unless
    the job ends or goes back here. *)
Definition check_job (job : IndexJob) (worker : string) (d : conn app_db) : option (Repo * list CommitEvent) * conn app_db :=
  match (if is_commit_job job then decodeCommitBatch json_error (ij_Payload job) else inr []) with
  | inl e => (None, complete job worker (error_text e) d)
  | inr commits =>
      match zoom d (GetRepo fault (ij_RepoID job)) with
      | (inl e, d) => (None, complete job worker ("get repo " +:+ ij_RepoID job +:+ ": " +:+ store_error_text e) d)
      | (inr r, d) =>
          if is_commit_job job then
            match commitJobOrder r commits with
            | commitBatchNext => (Some (r, commits), d)
            | commitBatchApplied => (None, complete job worker "" (clearPendingCommit r (target_sha commits) d))
            | commitBatchTooEarly =>
                match zoom_jobs d (HasPendingCommitJobBefore fault (ij_RepoID job) (ij_ID job)) with
                | (inl _, d) => (None, release job worker d)
                | (inr true, d) => (None, release job worker d)
                | (inr false, d) =>
                    (None, complete job worker (commit_gap r commits) (clearPendingCommit r (target_sha commits) d))
                end
            end
          else (Some (r, commits), d)
      end
  end.

(** ... the claim, and the batch published under the worker: is there a run? *)
Definition claim_job (job : IndexJob) (worker : string) (commits : list CommitEvent) (now : Z) (d : conn app_db)
    : bool * conn app_db :=
  match zoom d (ClaimRepoForIndexing fault (ij_RepoID job) worker repoClaimTTLSeconds now) with
  | (inl e, d) => (false, complete job worker ("claim repo " +:+ ij_RepoID job +:+ ": " +:+ store_error_text e) d)
  | (inr false, d) => (false, release job worker d)
  | (inr true, d) => (true, if is_commit_job job then write_pending (ij_RepoID job) (target_sha commits) d else d)
  end.

(** ... the beats while the pass runs *)
Definition beat (job : IndexJob) (worker : string) (d : conn app_db) (now : Z) : conn app_db :=
  snd (zoom_jobs d (HeartbeatIndexJob fault (ij_ID job) worker now)).

(** ... and its end. *)
Record run_end := { end_commits : commit_outcome; end_index : index_outcome; end_time : Z; end_beats : list Z }.
Definition finish_job (job : IndexJob) (worker : string) (r : Repo) (commits : list CommitEvent) (e : run_end)
    (d : conn app_db) : conn app_db :=
  let '(err, d) := if is_commit_job job then runApplyCommits r commits (end_commits e) (end_time e) d
                   else runIndex r (end_index e) (end_time e) d in
  complete job worker (default "" err) d.

(** [runQueuedJob] *)
Definition runQueuedJob (job : IndexJob) (worker : string) (now : Z) (e : run_end) (d : conn app_db) : conn app_db :=
  match check_job job worker d with
  | (None, d) => d
  | (Some (r, commits), d) =>
      match claim_job job worker commits now d with
      | (false, d) => d
      | (true, d) => finish_job job worker r commits e (foldl (beat job worker) d (end_beats e))
      end
  end.

(** [pollIndexJobs] *)
Definition pollIndexJobs (worker : string) (staleSec now : Z) (e : run_end) (d : conn app_db) : conn app_db :=
  let '(_, d) := zoom_jobs d (RequeueStaleIndexJobs fault staleSec now) in
  match zoom_jobs d (ClaimNextIndexJob fault worker now) with
  | (inl _, d) => d
  | (inr job, d) => runQueuedJob job worker now e d
  end.

(** [recoverStuckRepos] *)
Definition recoverStuckRepos (distributed : bool) (now : Z) (d : conn app_db) : conn app_db :=
  snd (zoom d (ResetStuckRepos fault (negb distributed) now)).

End Service.
