(* ===== verification/QueueFacts.v ===== *)
(** * What becomes of pushed commits

    The queue and the repositories together: an accepted batch is durable, a run
    moves the cursor along the chain or not at all, and a worker that keeps polling
    applies a chain of batches in order to its end. *)

From S2P Require Import Prelude GoStrings GoStrconv GoSort GoFloat GoJson GoJsonEncode Domain Store StoreQuery.
From S2P Require Import SqlDriver SqlEdgesFacts SqlJobs SqlQueue SqlRepos Commits Queue.

(** ** The row of a repository *)

Definition repo_row (id : string) (d : conn app_db) : option RepoRow := List.find (is_repo id) (app_repos (tables d)).
Abbreviation jobs_of d := (app_jobs (tables d)).

Lemma find_map (g : RepoRow → RepoRow) id t :
  (∀ r, repo_id (g r) = repo_id r) → List.find (is_repo id) (map g t) = option_map g (List.find (is_repo id) t).
Proof.
  intros Hg. induction t as [|r t IH]; [done |]. simpl. unfold is_repo at 1 3. rewrite Hg. by destruct (String.eqb _ _).
Qed.

Lemma find_id id t r : List.find (is_repo id) t = Some r → repo_id r = id ∧ r ∈ t.
Proof. intros [Hr Hi%is_repo_spec]%find_some. split; [done |]. by apply list_elem_of_In. Qed.

Section NoFault.
  Context (fault : nat → option StoreError) (no_faults : ∀ n, fault n = None).

(** The writes of a terminal status, a cursor, a pending commit. *)
Lemma zoom_update (s : statement repos_db nat) p f d :
  (∀ r, repo_id (f r) = repo_id r) → s = update_repos p f →
  let d' := snd (zoom d (λ d, report_rows (call fault s d))) in
  jobs_of d' = jobs_of d ∧ (∀ id, repo_row id d' = option_map (λ r, if p r then f r else r) (repo_row id d)).
Proof.
  intros Hf ->. unfold zoom, call. rewrite no_faults. cbn. split; [done |]. intros id. unfold repo_row. cbn.
  rewrite (find_map (λ r, if p r then f r else r)); [done |]. intros r. by destruct (p r).
Qed.

Lemma write_status_row id status err at_ d :
  jobs_of (write_status fault id status err at_ d) = jobs_of d ∧
  repo_row id (write_status fault id status err at_ d) = option_map (set_pass status err at_ "" 0 "") (repo_row id d).
Proof.
  destruct (zoom_update (updateRepoStatus id status err at_) _ (set_pass status err at_ "" 0 "") d (λ _, eq_refl) eq_refl) as [H1 H2].
  split; [exact H1 |]. etransitivity; [apply H2 |]. unfold repo_row. destruct (List.find _ _) as [r|] eqn:E; [|done].
  apply find_id in E as [E _]. simpl. by rewrite (proj2 (is_repo_spec id r) E).
Qed.

Lemma write_cursor_row id sha d :
  jobs_of (write_cursor fault id sha d) = jobs_of d ∧
  repo_row id (write_cursor fault id sha d) = option_map (λ r, set_commits sha (repo_pending_commit r) r) (repo_row id d).
Proof.
  destruct (zoom_update (updateRepoLastCommit id sha) _ (λ r, set_commits sha (repo_pending_commit r) r) d (λ _, eq_refl) eq_refl) as [H1 H2].
  split; [exact H1 |]. etransitivity; [apply H2 |]. unfold repo_row. destruct (List.find _ _) as [r|] eqn:E; [|done].
  apply find_id in E as [E _]. simpl. by rewrite (proj2 (is_repo_spec id r) E).
Qed.

Lemma write_pending_row id sha d :
  jobs_of (write_pending fault id sha d) = jobs_of d ∧
  repo_row id (write_pending fault id sha d) = option_map (λ r, set_commits (repo_last_commit r) sha r) (repo_row id d).
Proof.
  destruct (zoom_update (setRepoPendingCommit id sha) _ (λ r, set_commits (repo_last_commit r) sha r) d (λ _, eq_refl) eq_refl) as [H1 H2].
  split; [exact H1 |]. etransitivity; [apply H2 |]. unfold repo_row. destruct (List.find _ _) as [r|] eqn:E; [|done].
  apply find_id in E as [E _]. simpl. by rewrite (proj2 (is_repo_spec id r) E).
Qed.

Lemma get_repo_row id d r :
  repo_row id d = Some r → ∃ d1, zoom d (GetRepo fault id) = (inr (repoFromRow r), d1) ∧ tables d1 = tables d.
Proof.
  intros H. unfold zoom, GetRepo, call. rewrite no_faults. cbn. unfold getRepo. unfold repo_row in H. rewrite H.
  eexists. split; [done |]. cbn. by destruct (tables d).
Qed.

(** A repository that is not being indexed is claimed. *)
Lemma claim_repo_row id owner ttl now d r :
  repo_row id d = Some r → repo_status r ≠ StatusIndexing →
  ∃ d1, zoom d (ClaimRepoForIndexing fault id owner ttl now) = (inr true, d1) ∧ jobs_of d1 = jobs_of d ∧
    repo_row id d1 = Some (claimed_for owner (wrap_int64 (now + claim_ttl ttl)) r).
Proof.
  intros Hr Hs. assert (claimable id now r = true) as Hc.
  { apply claimable_spec. split; [by apply find_id in Hr as [? _] | by left]. }
  unfold zoom, ClaimRepoForIndexing, call. rewrite no_faults. fold (claim_ttl ttl). unfold claimRepoForIndexing.
  set (f := claimed_for owner _). pose proof (find_id id _ r Hr) as [_ Hin]. cbn [tables calls].
  destruct (update_repos_some (claimable id now) f _ r Hin Hc) as (n & t' & E & _). rewrite E. cbn.
  eexists. split_and!; [done | done |]. unfold repo_row. cbn. injection E as _ <-.
  rewrite (find_map (λ r, if claimable id now r then f r else r)) by (intros x; by destruct (claimable id now x)).
  unfold repo_row in Hr. rewrite Hr. simpl. by rewrite Hc.
Qed.
End NoFault.

(** ** The jobs *)

Definition running (r : JobRow) : Prop := job_status r = JobStatusRunning.

(** A table in which nothing but one job has changed. *)
Definition only (id : Z) : list JobRow → list JobRow → Prop :=
  Forall2 (λ x y, job_id y = job_id x ∧ (job_id x ≠ id → y = x)).

Lemma only_trans id a b c : only id a b → only id b c → only id a c.
Proof.
  intros H. revert c. induction H as [|x y a b [H1 H2] H IH]; intros c Hc; inversion Hc as [|? z ? c' [H3 H4] Hc']; subst; constructor.
  - split; [congruence |]. intros Hx. rewrite H4, H2; congruence.
  - by apply IH.
Qed.

Lemma only_map id (p : JobRow → bool) f js :
  (∀ x, p x = true → job_id x = id ∧ job_id (f x) = id) → only id js (map (λ x, if p x then f x else x) js).
Proof.
  intros Hf. induction js as [|x js IH]; [constructor |]. simpl. constructor; [|done].
  destruct (p x) eqn:E; [|done]. destruct (Hf x E) as [-> ->]. done.
Qed.

Lemma only_elem id js js' x : only id js js' → x ∈ js → job_id x ≠ id → x ∈ js'.
Proof.
  intros H Hx Hid. apply list_elem_of_lookup in Hx as (i & Hi). destruct (Forall2_lookup_l _ _ _ _ _ H Hi) as (y & Hy & _ & E).
  rewrite <- (E Hid). by eapply list_elem_of_lookup_2.
Qed.

Lemma waiting_update (p : JobRow → bool) f js :
  (∀ x, p x = true → running x ∧ job_status (f x) ≠ JobStatusPending) →
  waiting (map (λ x, if p x then f x else x) js) = waiting js.
Proof.
  intros Hf. unfold waiting. f_equal. induction js as [|x js IH]; [done |]. simpl. rewrite !filter_cons, IH.
  destruct (p x) eqn:E; [|done]. destruct (Hf x E) as [Hr Hs]. rewrite !decide_False; [done | |].
  - rewrite has_status_spec, Hr. discriminate.
  - by rewrite has_status_spec.
Qed.

Section Jobs.
  Context (fault : nat → option StoreError) (no_faults : ∀ n, fault n = None).

Lemma requeue_idle age now d :
  jobs_ok (tables d) → (∀ x, x ∈ db_jobs (tables d) → ¬ running x) →
  tables (snd (RequeueStaleIndexJobs fault age now d)) = tables d.
Proof.
  intros Ht Hi. assert (∀ p f, (∀ x, x ∈ db_jobs (tables d) → p x = false) → update_jobs p f (tables d) = inr (0, tables d)) as Hu.
  { intros p f Hp. unfold update_jobs. cbv zeta. rewrite (filter_nothing _ (db_jobs (tables d))) by (intros x Hx; by rewrite Hp).
    assert (map (λ r, if p r then f r else r) (db_jobs (tables d)) = db_jobs (tables d)) as ->.
    { rewrite <- (map_id (db_jobs (tables d))) at 2. apply map_ext_in. intros x Hx%list_elem_of_In. by rewrite Hp. }
    rewrite (jobs_one_pending _ Ht). by destruct (tables d). }
  assert (∀ c x, x ∈ db_jobs (tables d) → stale c x = false) as Hst.
  { intros c x Hx. apply not_true_iff_false. intros [Hs _]%stale_spec. by apply (Hi x). }
  unfold RequeueStaleIndexJobs, call. rewrite no_faults. unfold supersede_stale. rewrite Hu; [|intros x Hx; unfold surplus; by rewrite Hst].
  cbn [tables calls]. rewrite no_faults. unfold requeue_stale. rewrite Hu; [done | by apply Hst].
Qed.

(** A call about the one job a worker holds. *)
Definition working (id : Z) (w : string) (js : list JobRow) : Prop := ∀ x, x ∈ js → running x → held_by id w x = true.

Lemma held_call (s : statement jobs_db nat) id w f d :
  jobs_ok (tables d) → s = update_jobs (held_by id w) f →
  (∀ r, held_by id w r = true → job_id (f r) = job_id r ∧ job_status (f r) ≠ JobStatusPending) →
  (∀ r, takes_slot (f r) = true → takes_slot r = true ∧ job_repo_id (f r) = job_repo_id r) →
  db_jobs (tables (snd (report_rows (call fault s d)))) = map (λ x, if held_by id w x then f x else x) (db_jobs (tables d)) ∧
  waiting (db_jobs (tables (snd (report_rows (call fault s d))))) = waiting (db_jobs (tables d)) ∧
  only id (db_jobs (tables d)) (db_jobs (tables (snd (report_rows (call fault s d))))).
Proof.
  intros Ht -> Hf Hs. unfold call. rewrite no_faults. rewrite update_jobs_less; [|apply Ht | done]. cbn. split_and!; [done | |].
  - apply waiting_update. intros x Hx. split; [by apply held_by_spec in Hx as (_ & ? & _) | by apply Hf].
  - apply only_map. intros x Hx. pose proof Hx as (Hid & _ & _)%held_by_spec. split; [done |]. destruct (Hf x Hx) as [-> _]. done.
Qed.

Lemma beat_call id w now d :
  jobs_ok (tables d) → in_int64 id = true → working id w (db_jobs (tables d)) →
  let d' := snd (HeartbeatIndexJob fault (Itoa id) w now d) in
  jobs_ok (tables d') ∧ working id w (db_jobs (tables d')) ∧
  waiting (db_jobs (tables d')) = waiting (db_jobs (tables d)) ∧ only id (db_jobs (tables d)) (db_jobs (tables d')) ∧
  ∀ x, x ∈ db_jobs (tables d) → held_by id w x = true →
    ∃ y, y ∈ db_jobs (tables d') ∧ held_by id w y = true.
Proof.
  intros Ht Hi Hw d'. pose proof (perform_advances fault now (OpHeartbeat (Itoa id) w) d Ht) as [Hok _]. cbn [perform] in Hok. fold d' in Hok.
  set (f := λ r, set_claim (job_status r) (job_claimed_at r) now (job_claimed_by r) r).
  assert (d' = snd (report_rows (call fault (update_jobs (held_by id w) f) d))) as Ed.
  { unfold d', HeartbeatIndexJob, heartbeatIndexJob. by rewrite IntOrZero_Itoa. }
  destruct (held_call (update_jobs (held_by id w) f) id w f d Ht eq_refl) as (E & H1 & H2).
  { intros r (_ & Hr & _)%held_by_spec. split; [done |]. simpl. rewrite Hr. discriminate. }
  { intros r Hr. exact (conj Hr eq_refl). }
  rewrite <- Ed in E, H1, H2. split_and!; [done | | done | done |].
  - intros y. rewrite E. intros (x & -> & Hx)%list_elem_of_fmap. destruct (held_by id w x) eqn:Eh; [done |].
    intros Hr. rewrite (Hw x Hx Hr) in Eh. discriminate.
  - intros x Hx Hh. exists (f x). rewrite E. split; [|done].
    replace (f x) with ((λ x, if held_by id w x then f x else x) x) by (cbv beta; by rewrite Hh).
    by apply (list_elem_of_fmap_2 (λ x, if held_by id w x then f x else x)).
Qed.

Lemma complete_call id w err d :
  jobs_ok (tables d) → in_int64 id = true → working id w (db_jobs (tables d)) →
  let d' := snd (CompleteIndexJob fault (Itoa id) w err d) in
  jobs_ok (tables d') ∧ (∀ x, x ∈ db_jobs (tables d') → ¬ running x) ∧
  waiting (db_jobs (tables d')) = waiting (db_jobs (tables d)) ∧ only id (db_jobs (tables d)) (db_jobs (tables d')) ∧
  ∀ x, x ∈ db_jobs (tables d) → held_by id w x = true →
    ∃ y, y ∈ db_jobs (tables d') ∧ job_id y = id ∧ job_error y = err ∧
      job_status y = (if String.eqb err "" then JobStatusDone else JobStatusError).
Proof.
  intros Ht Hi Hw d'. pose proof (perform_advances fault 0 (OpComplete (Itoa id) w err) d Ht) as [Hok _]. cbn [perform] in Hok. fold d' in Hok.
  set (f := set_outcome (if String.eqb err "" then JobStatusDone else JobStatusError) err "").
  assert (d' = snd (report_rows (call fault (update_jobs (held_by id w) f) d))) as Ed.
  { unfold d', CompleteIndexJob, completeIndexJob. by rewrite IntOrZero_Itoa. }
  assert (∀ r, job_status (f r) ≠ JobStatusPending ∧ ¬ running (f r)) as Hf.
  { intros r. unfold running. simpl. destruct (String.eqb err ""); split; discriminate. }
  destruct (held_call (update_jobs (held_by id w) f) id w f d Ht eq_refl) as (E & H1 & H2).
  { intros r _. split; [done | apply Hf]. }
  { intros r. unfold takes_slot. intros [Hs _]%andb_true_iff. apply has_status_spec in Hs. by destruct (Hf r) as [? _]. }
  rewrite <- Ed in E, H1, H2. split_and!; [done | | done | done |].
  - intros y. rewrite E. intros (x & -> & Hx)%list_elem_of_fmap. destruct (held_by id w x) eqn:Eh; [apply Hf |].
    intros Hr. rewrite (Hw x Hx Hr) in Eh. discriminate.
  - intros x Hx Hh. exists (f x). rewrite E. split_and!; [|by apply held_by_spec in Hh as (? & _) | done | done].
    replace (f x) with ((λ x, if held_by id w x then f x else x) x) by (cbv beta; by rewrite Hh).
    by apply (list_elem_of_fmap_2 (λ x, if held_by id w x then f x else x)).
Qed.
End Jobs.

(** ** One poll *)

Lemma zoom_jobs_view {A} (m : conn jobs_db → A * conn jobs_db) d :
  let '(x, d1) := m {| tables := jobs_of d; calls := calls d |} in
  ∃ d', zoom_jobs d m = (x, d') ∧ jobs_of d' = tables d1 ∧ (∀ id, repo_row id d' = repo_row id d).
Proof. unfold zoom_jobs. destruct (m _) as [x d1]. by eexists. Qed.

Lemma zoom_jobs_snd {A} (m : conn jobs_db → A * conn jobs_db) d :
  jobs_of (snd (zoom_jobs d m)) = tables (snd (m {| tables := jobs_of d; calls := calls d |})) ∧
  ∀ id, repo_row id (snd (zoom_jobs d m)) = repo_row id d.
Proof. unfold zoom_jobs. by destruct (m _) as [x d1]. Qed.

Section Poll.
  Context (fault : nat → option StoreError) (no_faults : ∀ n, fault n = None) (json_error Quote : string → string).

(** The job a worker holds and nothing else is running. *)
Record holding (id : Z) (w : string) (d : conn app_db) : Prop := {
  hold_ok : jobs_ok (jobs_of d);
  hold_only : working id w (db_jobs (jobs_of d));
  hold_it : ∃ x, x ∈ db_jobs (jobs_of d) ∧ held_by id w x = true
}.

Lemma beats_hold job id w beats d :
  ij_ID job = Itoa id → in_int64 id = true → holding id w d →
  let d' := foldl (beat fault job w) d beats in
  holding id w d' ∧ (∀ i, repo_row i d' = repo_row i d) ∧ waiting (db_jobs (jobs_of d')) = waiting (db_jobs (jobs_of d)) ∧
  only id (db_jobs (jobs_of d)) (db_jobs (jobs_of d')).
Proof.
  intros Hj Hi. revert d. induction beats as [|now beats IH]; intros d Hd; cbn [foldl].
  { split_and!; [done..|]. induction (db_jobs (jobs_of d)); by constructor. }
  destruct (zoom_jobs_snd (HeartbeatIndexJob fault (ij_ID job) w now) d) as [E1 E2]. fold (beat fault job w d now) in E1, E2.
  destruct Hd as [H1 H2 (x & Hx & Hh)]. rewrite Hj in E1.
  destruct (beat_call fault no_faults id w now {| tables := jobs_of d; calls := calls d |} H1 Hi H2) as (H3 & H4 & H5 & H6 & H7).
  rewrite <- E1 in H3, H4, H5, H6, H7. destruct (H7 x Hx Hh) as (y & Hy & Hhy).
  destruct (IH (beat fault job w d now)) as (I1 & I2 & I3 & I4); [split; [done | done | by exists y] |].
  split_and!; [done | intros i; by rewrite I2, E2 | by rewrite I3 | by eapply only_trans].
Qed.

(** The sweep finds nothing, and the first waiting job becomes the worker's. *)
Lemma poll_claims worker age now e d j rest :
  jobs_ok (jobs_of d) → (∀ x, x ∈ db_jobs (jobs_of d) → ¬ running x) → waiting (db_jobs (jobs_of d)) = j :: rest →
  let job := scanJobRow true (set_claim JobStatusRunning now now worker j) in
  ∃ d2, pollIndexJobs fault json_error Quote worker age now e d = runQueuedJob fault json_error Quote job worker now e d2 ∧
    holding (job_id j) worker d2 ∧ waiting (db_jobs (jobs_of d2)) = rest ∧
    only (job_id j) (db_jobs (jobs_of d)) (db_jobs (jobs_of d2)) ∧ (∀ id, repo_row id d2 = repo_row id d) ∧
    in_int64 (job_id j) = true.
Proof.
  intros Hok Hrun Hw job. unfold pollIndexJobs.
  destruct (zoom_jobs_snd (RequeueStaleIndexJobs fault age now) d) as [E1 R1].
  rewrite requeue_idle in E1 by done. cbn [tables] in E1.
  destruct (zoom_jobs d (RequeueStaleIndexJobs fault age now)) as [x0 d1]. cbn [snd] in E1, R1.
  pose proof (claim_waiting worker now (jobs_of d) Hok) as Hcl. rewrite Hw in Hcl. destruct Hcl as (t' & Hcl & Hok' & Hw').
  pose proof (claim_next_ok _ _ _ _ _ Hok Hcl) as (_ & _ & j0 & Ho & _ & Et).
  assert (j0 = j) as -> by (unfold oldest_pending in Ho; fold (waiting (db_jobs (jobs_of d))) in Ho; rewrite Hw in Ho; by injection Ho).
  pose proof (zoom_jobs_view (ClaimNextIndexJob fault worker now) d1) as Hz.
  assert (ClaimNextIndexJob fault worker now {| tables := jobs_of d1; calls := calls d1 |} =
    (inr job, {| tables := t'; calls := Datatypes.S (calls d1) |})) as Ec.
  { unfold ClaimNextIndexJob, call. rewrite no_faults. cbn [tables calls]. rewrite E1, Hcl. done. }
  rewrite Ec in Hz. destruct Hz as (d2 & -> & E2 & R2). cbn [tables] in E2.
  apply oldest_pending_in in Ho as [Hj _]. pose proof (proj1 (Forall_forall _ _) (jobs_rows _ Hok) j Hj) as Hjok.
  set (f := λ y, if (job_id y =? job_id j)%Z then set_claim JobStatusRunning now now worker y else y) in Et.
  exists d2. split_and!; [done | | by rewrite E2 | | intros id; by rewrite R2, R1 | apply (job_id_int64 _ _ Hjok)].
  - split; rewrite E2; [done | |].
    + intros y. rewrite Et. intros (x & -> & Hx)%list_elem_of_fmap. unfold f. destruct (Z.eqb_spec (job_id x) (job_id j)) as [E|E].
      * intros _. by apply held_by_spec.
      * intros Hy. by destruct (Hrun x Hx).
    + exists (f j). rewrite Et. split; [by apply list_elem_of_fmap_2 |]. unfold f. rewrite Z.eqb_refl. by apply held_by_spec.
  - rewrite E2, Et. apply only_map. intros x E%Z.eqb_eq. done.
Qed.

(** A batch that continues the cursor, applied whole: the cursor moves to its end
    and the job is done. *)
Lemma run_applies id worker now e d r job jid b :
  ij_ID job = Itoa jid → in_int64 jid = true → is_commit_job job = true → ij_RepoID job = id →
  decodeCommitBatch json_error (ij_Payload job) = inr b → holding jid worker d →
  repo_row id d = Some r → repo_status r ≠ StatusIndexing →
  repo_last_commit r = "" ∨ hasParent (first_parents b) (repo_last_commit r) = true → end_commits e = inr [] →
  let d' := runQueuedJob fault json_error Quote job worker now e d in
  jobs_ok (jobs_of d') ∧ (∀ x, x ∈ db_jobs (jobs_of d') → ¬ running x) ∧
  waiting (db_jobs (jobs_of d')) = waiting (db_jobs (jobs_of d)) ∧ only jid (db_jobs (jobs_of d)) (db_jobs (jobs_of d')) ∧
  (∃ y, y ∈ db_jobs (jobs_of d') ∧ job_id y = jid ∧ job_status y = JobStatusDone ∧ job_error y = "") ∧
  ∃ r', repo_row id d' = Some r' ∧ repo_status r' = StatusIdle ∧ repo_last_commit r' = target_sha b.
Proof.
  intros Hjid Hi Hcj Hid Hb Hh Hr Hs Hc He. unfold runQueuedJob, check_job. rewrite Hcj, Hb, Hid.
  destruct (get_repo_row fault no_faults id d r Hr) as (d3 & -> & E3).
  assert (commitJobOrder (repoFromRow r) b = commitBatchNext) as ->.
  { unfold commitJobOrder. cbn [repoFromRow r_LastCommit]. destruct Hc as [-> | ->]; [done | by rewrite orb_true_r]. }
  assert (repo_row id d3 = Some r) as Hr3 by (unfold repo_row in *; by rewrite E3).
  unfold claim_job. rewrite Hid.
  destruct (claim_repo_row fault no_faults id worker repoClaimTTLSeconds now d3 r Hr3 Hs) as (d4 & -> & E4 & R4).
  rewrite Hcj. destruct (write_pending_row fault no_faults id (target_sha b) d4) as [E5 R5].
  set (d5 := write_pending fault id (target_sha b) d4) in *.
  assert (jobs_of d5 = jobs_of d) as E5d by (rewrite E5, E4, E3; done).
  assert (holding jid worker d5) as Hh5 by (destruct Hh; split; by rewrite E5d).
  destruct (beats_hold job jid worker (end_beats e) d5 Hjid Hi Hh5) as ([G1 G2 (y & Gy & Gh)] & R6 & W6 & O6).
  set (d6 := foldl _ d5 _) in *. unfold finish_job. rewrite Hcj, He. unfold runApplyCommits.
  cbn [repoFromRow r_ID]. rewrite (proj1 (find_id id _ r Hr3)).
  destruct (write_cursor_row fault no_faults id (target_sha b) d6) as [E7 R7].
  set (d7 := write_cursor fault id (target_sha b) d6) in *.
  destruct (write_status_row fault no_faults id StatusIdle "" (end_time e) d7) as [E8 R8].
  set (d8 := write_status fault id StatusIdle "" (end_time e) d7) in *.
  cbn [default]. unfold complete. destruct (zoom_jobs_snd (CompleteIndexJob fault (ij_ID job) worker "") d8) as [E9 R9].
  set (d9 := snd (zoom_jobs d8 _)) in *. assert (jobs_of d8 = jobs_of d6) as E86 by congruence. rewrite Hjid in E9.
  destruct (complete_call fault no_faults jid worker "" {| tables := jobs_of d8; calls := calls d8 |}) as (F1 & F2 & F3 & F4 & F5);
    [cbn [tables]; by rewrite E86 | done | cbn [tables]; by rewrite E86 |].
  rewrite <- E9 in F1, F2, F3, F4, F5. cbn [tables] in F3, F4, F5. rewrite E86 in F3, F4, F5.
  split_and!; [done | done | by rewrite F3, W6, E5d | | |].
  - rewrite <- E5d. by eapply only_trans.
  - destruct (F5 y Gy Gh) as (z & Hz & Hzi & Hze & Hzs). by exists z.
  - rewrite R9, R8, R7, R6, R5, R4. eexists. split; [reflexivity | done].
Qed.
End Poll.

(** ** A chain of batches *)

(** Each batch continues the cursor the one before it left. *)
Fixpoint chain (cursor : string) (batches : list (list CommitEvent)) : Prop :=
  match batches with
  | [] => True
  | b :: batches => (cursor = "" ∨ hasParent (first_parents b) cursor = true) ∧ chain (target_sha b) batches
  end.
Definition last_target (cursor : string) (batches : list (list CommitEvent)) : string :=
  foldl (λ _ b, target_sha b) cursor batches.

(** A job that holds a batch for a repository. *)
Definition carries (json_error : string → string) (id : string) (j : JobRow) (b : list CommitEvent) : Prop :=
  job_kind j = JobKindCommits ∧ job_repo_id j = id ∧ decodeCommitBatch json_error (job_payload j) = inr b.

Definition poll_all (fault : nat → option StoreError) (json_error Quote : string → string) (worker : string)
    (polls : list (Z * Z * run_end)) (d : conn app_db) : conn app_db :=
  foldl (λ d '(age, now, e), pollIndexJobs fault json_error Quote worker age now e d) d polls.

Lemma ended_not_waiting t j rest x :
  jobs_ok t → waiting (db_jobs t) = j :: rest → x ∈ db_jobs t → ended x → job_id x ≠ job_id j.
Proof.
  intros Ht Hw Hx He E. assert (j ∈ waiting (db_jobs t)) as Hj by (rewrite Hw; by left). unfold waiting in Hj.
  apply SliceSort_elem, list_elem_of_filter in Hj as [Hp%has_status_spec Hj].
  rewrite (NoDup_map_inj job_id _ x j (jobs_distinct _ Ht) Hx Hj E) in He. unfold ended in He. rewrite Hp in He.
  by destruct He.
Qed.

Lemma poll_all_drains fault json_error Quote worker id polls d r batches :
  (∀ n, fault n = None) → jobs_ok (jobs_of d) → (∀ x, x ∈ db_jobs (jobs_of d) → ¬ running x) →
  repo_row id d = Some r → repo_status r ≠ StatusIndexing →
  Forall2 (carries json_error id) (waiting (db_jobs (jobs_of d))) batches → chain (repo_last_commit r) batches →
  length polls = length batches → Forall (λ p, end_commits (snd p) = inr []) polls →
  let d' := poll_all fault json_error Quote worker polls d in
  (∃ r', repo_row id d' = Some r' ∧ repo_status r' ≠ StatusIndexing ∧
         repo_last_commit r' = last_target (repo_last_commit r) batches) ∧
  waiting (db_jobs (jobs_of d')) = [] ∧
  (∀ j, j ∈ waiting (db_jobs (jobs_of d)) →
    ∃ y, y ∈ db_jobs (jobs_of d') ∧ job_id y = job_id j ∧ job_status y = JobStatusDone ∧ job_error y = "") ∧
  (∀ x, x ∈ db_jobs (jobs_of d) → ended x → x ∈ db_jobs (jobs_of d')).
Proof.
  intros Hf. revert d r batches. induction polls as [|[[age now] e] polls IH]; intros d r batches Hok Hrun Hr Hs Hc Hch Hlen He.
  { destruct batches; [|done]. inversion Hc as [Hn|]. split_and!; [by exists r | done | intros j; by intros ?%not_elem_of_nil | done]. }
  destruct batches as [|b batches]; [done |]. apply Forall_cons in He as [He1 He]. cbn [snd] in He1.
  destruct (waiting (db_jobs (jobs_of d))) as [|j rest] eqn:Hw; [by inversion Hc |].
  apply Forall2_cons in Hc as [(Hk & Hid & Hb) Hc]. destruct Hch as [Hc1 Hch].
  destruct (poll_claims fault Hf json_error Quote worker age now e d j rest Hok Hrun Hw) as (d2 & Ep & Hh & Hw2 & O2 & R2 & Hi).
  assert (repo_row id d2 = Some r) as Hr2 by (by rewrite R2).
  destruct (run_applies fault Hf json_error Quote id worker now e d2 r
    (scanJobRow true (set_claim JobStatusRunning now now worker j)) (job_id j) b) as (G1 & G2 & G3 & G4 & (y & Hy & Hyi & Hyd) & r' & G5 & G6 & G7);
    try done; [unfold is_commit_job; simpl; by rewrite Hk |].
  rewrite <- Ep in *. cbn [poll_all foldl] in *. unfold poll_all. cbn [foldl]. fold (poll_all fault json_error Quote worker polls).
  set (d1 := pollIndexJobs fault json_error Quote worker age now e d) in *. rewrite Hw2 in G3.
  destruct (IH d1 r' batches G1 G2 G5) as (I1 & I2 & I3 & I4);
    [rewrite G6; discriminate | by rewrite G3 | by rewrite G7 | simpl in Hlen; lia | done |].
  rewrite G7 in I1. split_and!; [done | done | |].
  - intros j' [->|Hj']%elem_of_cons; [|apply I3; by rewrite G3].
    destruct Hyd as [Hyd Hye]. exists y. split_and!; [apply I4; [done | by left] | done..].
  - intros x Hx He'. apply I4; [|done]. apply (only_elem (job_id j) (db_jobs (jobs_of d2))); [done | |].
    + eapply only_elem; [exact O2 | done |]. by apply (ended_not_waiting (jobs_of d) j rest).
    + by apply (ended_not_waiting (jobs_of d) j rest).
Qed.

(** C4: what was queued is applied, in order and to the end.  A worker that polls
    while batches of one repository wait, each continuing where the one before it
    ends, brings the cursor to the end of the last one, one batch to a poll,
    whatever its clock and heartbeats: each job ends done, in the order of the
    queue, none is lost or applied out of turn, and the repository is free again. *)
Theorem chain_drains fault json_error Quote worker id polls d r batches :
  (∀ n, fault n = None) → jobs_ok (jobs_of d) → (∀ x, x ∈ db_jobs (jobs_of d) → ¬ running x) →
  repo_row id d = Some r → repo_status r ≠ StatusIndexing →
  Forall2 (carries json_error id) (waiting (db_jobs (jobs_of d))) batches → chain (repo_last_commit r) batches →
  length polls = length batches → Forall (λ p, end_commits (snd p) = inr []) polls →
  let d' := poll_all fault json_error Quote worker polls d in
  (∃ r', repo_row id d' = Some r' ∧ repo_status r' ≠ StatusIndexing ∧
         repo_last_commit r' = last_target (repo_last_commit r) batches) ∧
  waiting (db_jobs (jobs_of d')) = [] ∧
  (∀ j, j ∈ waiting (db_jobs (jobs_of d)) →
    ∃ y, y ∈ db_jobs (jobs_of d') ∧ job_id y = job_id j ∧ job_status y = JobStatusDone ∧ job_error y = "").
Proof.
  intros Hf Hok Hrun Hr Hs Hc Hch Hlen He d'.
  by destruct (poll_all_drains fault json_error Quote worker id polls d r batches Hf Hok Hrun Hr Hs Hc Hch Hlen He) as (? & ? & ? & _).
Qed.
