(* ===== verification/QueueCommits.v ===== *)
(** * Pushing a batch, and the runs of queued batches

    What [ApplyCommits] answers and leaves behind on every branch, what a fleet of
    workers over one database may do to the cursor of a repository, and the chain of
    batches at work. *)

From S2P Require Import Prelude GoStrings GoStrconv GoSort GoFloat GoJson GoJsonEncode Domain Store StoreQuery.
From S2P Require Import SqlDriver SqlEdgesFacts SqlJobs SqlQueue SqlRepos Commits Queue QueueFacts.

Lemma GetRepo_cases fault id d res d' :
  zoom d (GetRepo fault id) = (res, d') →
  tables d' = tables d ∧ ∀ r, res = inr r → ∃ row, repo_row id d = Some row ∧ r = repoFromRow row.
Proof.
  unfold zoom, GetRepo. destruct (call fault (getRepo id) _) as [x d1] eqn:E. intros [= <- <-].
  apply call_cases in E as [(e & -> & Ht)|(r & -> & Ht)]; cbn [tables] in *.
  - rewrite Ht. split; [by destruct (tables d) | done].
  - unfold getRepo in Ht. destruct (List.find _ _) as [row|] eqn:Ef; [|done]. injection Ht as <- <-.
    split; [by destruct (tables d) |]. intros r [= <-]. by exists row.
Qed.

(** A claim that is not granted changes nothing. *)
Lemma ClaimRepoForIndexing_denied fault id owner ttl now d res d' :
  ClaimRepoForIndexing fault id owner ttl now d = (res, d') → res ≠ inr true → tables d' = tables d.
Proof.
  unfold ClaimRepoForIndexing. fold (claim_ttl ttl). destruct (call fault (claimRepoForIndexing _ _ _ _) d) as [[e|n] d1] eqn:E1;
    apply call_cases in E1 as [(e' & [= <-] & Ht)|(y & [= <-] & Ht)]; [by intros [= <- <-] |].
  destruct n as [|n]; [|by intros [= <- <-]]. simpl. intros H _. unfold claimRepoForIndexing in Ht.
  rewrite update_repos_none in Ht.
  - injection Ht as Ht. destruct (call fault (repoExists id) d1) as [[e|x] d2] eqn:E2;
      apply call_cases in E2 as [(e' & [= <-] & Ht2)|(y & [= <-] & Ht2)]; [injection H as <- <-; congruence |].
    injection Ht2 as _ Ht2. destruct x; injection H as <- <-; congruence.
  - intros x Hx. injection Ht as Hn _. destruct (claimable id now x) eqn:E; [|done].
    assert (x ∈ filter (λ r, claimable id now r = true) (tables d)) as Hin by by apply list_elem_of_filter.
    destruct (filter _ (tables d)); [by apply not_elem_of_nil in Hin | done].
Qed.

Lemma zoom_denied fault id owner ttl now d res d' :
  zoom d (ClaimRepoForIndexing fault id owner ttl now) = (res, d') → res ≠ inr true → tables d' = tables d.
Proof.
  unfold zoom. destruct (ClaimRepoForIndexing _ _ _ _ _ _) as [x d1] eqn:E. intros [= <- <-] Hn.
  apply ClaimRepoForIndexing_denied in E; [|done]. cbn in *. rewrite E. by destruct (tables d).
Qed.

Lemma write_pending_keeps fault id sha d :
  jobs_of (write_pending fault id sha d) = jobs_of d ∧
  ∀ i owner e, held i owner e (app_repos (tables d)) → held i owner e (app_repos (tables (write_pending fault id sha d))).
Proof.
  unfold write_pending, zoom. destruct (SetRepoPendingCommit _ _ _ _) as [x d1] eqn:E. split; [done |]. cbn. intros i owner e Hh.
  pose proof (perform_held fault (OpPending id sha) (e - 1) {| tables := app_repos (tables d); calls := calls d |} i owner e
    ltac:(lia) (λ H, H) Hh) as H. cbn [perform] in H. by rewrite E in H.
Qed.

Lemma EnqueueCommitJob_cases fault id payload now d res d' :
  zoom_jobs d (EnqueueCommitJob fault id payload now) = (res, d') →
  match res with
  | inl _ => tables d' = tables d
  | inr job => let j := new_job id JobKindCommits payload false now (db_next_job (jobs_of d)) in
      db_jobs (jobs_of d') = db_jobs (jobs_of d) ++ [j] ∧ job = jobFromRow j
  end.
Proof.
  unfold zoom_jobs, EnqueueCommitJob, answer. destruct (call fault _ _) as [[e|r] d1] eqn:E; intros [= <- <-];
    apply call_cases in E as [(e' & [= <-] & Ht)|(y & [= <-] & Ht)]; cbn [tables] in *.
  - rewrite Ht. by destruct (tables d).
  - unfold enqueueCommitJob, insert_job in Ht. destruct (negb _); [done |]. cbv zeta in Ht.
    destruct (one_pending _); [|done]. injection Ht as <- <-. done.
Qed.

(** C23: a pushed batch is refused, answered with the gap, or durable.  An error or a
    gap leaves the repositories and the queue as they were, and a malformed batch
    is named before anything is read.  An accepted batch continues the cursor of the
    repository, or there is no cursor yet; in the distributed mode it is by then a
    waiting job of its own, with the id of the answer, from which any worker decodes
    what was pushed; otherwise the repository is claimed for the run started here.
    This holds whichever calls on the database fail. *)
Theorem ApplyCommits_verdict fault distributed owner repoID commits now d :
  let '(res, started, d') := ApplyCommits fault distributed owner repoID commits now d in
  match res with
  | inl e => started = None ∧ tables d' = tables d ∧ (∀ e0, validate_commits commits = Some e0 → e = e0)
  | inr ack =>
      validate_commits commits = None ∧ ∃ r, repo_row repoID d = Some r ∧ ca_Before ack = repo_last_commit r ∧
      if ca_Accepted ack then
        (repo_last_commit r = "" ∨ hasParent (first_parents commits) (repo_last_commit r) = true) ∧
        ca_Target ack = target_sha commits ∧
        if distributed then
          started = None ∧ ∃ j, db_jobs (jobs_of d') = db_jobs (jobs_of d) ++ [j] ∧ ca_JobID ack = Itoa (job_id j) ∧
            job_status j = JobStatusPending ∧ ∀ json_error, carries json_error repoID j (map valid_event commits)
        else
          started = Some (repoFromRow r) ∧ jobs_of d' = jobs_of d ∧
          held repoID owner (wrap_int64 (now + repoClaimTTLSeconds)) (app_repos (tables d'))
      else started = None ∧ tables d' = tables d ∧ repo_last_commit r ≠ "" ∧
           hasParent (first_parents commits) (repo_last_commit r) = false
  end.
Proof.
  unfold ApplyCommits. destruct (validate_commits commits) as [e|] eqn:Ev.
  { split_and!; [done | done |]. by intros e0 [= ->]. }
  destruct (zoom d (GetRepo fault repoID)) as [[e|r] d1] eqn:Eg; apply GetRepo_cases in Eg as [Et Hr]; [done |].
  destruct (Hr r eq_refl) as (row & Hrow & ->). clear Hr. cbn [repoFromRow r_LastCommit r_PendingCommit].
  destruct (negb (String.eqb (repo_last_commit row) "") && negb (hasParent (first_parents commits) (repo_last_commit row))) eqn:Egap.
  { apply andb_true_iff in Egap as [H1%negb_true_iff%String.eqb_neq H2%negb_true_iff].
    destruct (_ && _); [done |]. split; [done |]. by exists row. }
  assert (repo_last_commit row = "" ∨ hasParent (first_parents commits) (repo_last_commit row) = true) as Hc.
  { apply andb_false_iff in Egap as [H%negb_false_iff|H%negb_false_iff]; [left; by apply String.eqb_eq | by right]. }
  destruct distributed.
  - destruct (zoom_jobs d1 _) as [[e|job] d2] eqn:Ej; apply EnqueueCommitJob_cases in Ej.
    + by rewrite Ej.
    + destruct Ej as [Ej ->]. cbv zeta. split; [done |]. exists row. split_and!; [done..|]. cbn [ca_Accepted ca_Target ca_JobID].
      split_and!; [done..|]. eexists. rewrite (proj1 (write_pending_keeps fault repoID (target_sha commits) d2)), Ej, Et.
      split_and!; [done | done | done |]. intros json_error. split_and!; [done | done |]. simpl. apply decode_batch.
      by destruct commits.
  - destruct (zoom d1 (ClaimRepoForIndexing _ _ _ _ _)) as [res d2] eqn:Ec.
    destruct res as [e|[|]].
    + apply zoom_denied in Ec; [|done]. split_and!; [done | congruence | done].
    + split; [done |]. exists row. split_and!; [done..|]. cbn [ca_Accepted ca_Target]. split_and!; [done..| |].
      * rewrite (proj1 (write_pending_keeps fault repoID (target_sha commits) d2)). unfold zoom in Ec.
        destruct (ClaimRepoForIndexing _ _ _ _ _ _). injection Ec as _ <-. cbn. by rewrite Et.
      * apply write_pending_keeps. unfold zoom in Ec.
        destruct (ClaimRepoForIndexing _ _ _ _ _ _) as [x d3] eqn:Ec'. injection Ec as -> <-.
        apply ClaimRepoForIndexing_true in Ec' as [Hh _]. exact Hh.
    + apply zoom_denied in Ec; [|done]. split_and!; [done | congruence | done].
Qed.

(** ** What a run does to cursors *)

Definition cursor (id : string) (d : conn app_db) : option string := option_map repo_last_commit (repo_row id d).

(** A call on the repositories that writes no cursor. *)
Lemma update_cursor p f t n t' id :
  (∀ r, repo_id (f r) = repo_id r ∧ repo_last_commit (f r) = repo_last_commit r) → update_repos p f t = inr (n, t') →
  option_map repo_last_commit (List.find (is_repo id) t') = option_map repo_last_commit (List.find (is_repo id) t).
Proof.
  intros Hf [= _ <-]. rewrite (find_map (λ r, if p r then f r else r)) by (intros r; destruct (p r); [apply Hf | done]).
  destruct (List.find _ t) as [r|]; [|done]. simpl. destruct (p r); [|done]. by destruct (Hf r) as [_ ->].
Qed.

Lemma zoom_cursor op fault now id d (m : conn repos_db → conn repos_db) :
  m {| tables := app_repos (tables d); calls := calls d |} = SqlRepos.perform fault op now {| tables := app_repos (tables d); calls := calls d |} →
  match op with SqlRepos.OpPending _ _ | SqlRepos.OpStatus _ _ _ _ | SqlRepos.OpClaim _ _ _ | SqlRepos.OpReset _ => True | _ => False end →
  option_map repo_last_commit (List.find (is_repo id) (tables (m {| tables := app_repos (tables d); calls := calls d |}))) = cursor id d.
Proof.
  intros -> Hop. unfold cursor, repo_row. destruct (perform_tables fault op now {| tables := app_repos (tables d); calls := calls d |}) as [->|H]; [done |].
  destruct op as [r|i|l|i owner ttl|[|]|i sha|i sha|i status err at_]; try done; destruct H as [n H];
    (eapply update_cursor; [|exact H]; done).
Qed.

Section Cursor.
  Context (fault : nat → option StoreError) (json_error Quote : string → string).

Lemma write_status_cursor i status err at_ d id : cursor id (write_status fault i status err at_ d) = cursor id d.
Proof.
  unfold write_status, zoom.
  pose proof (zoom_cursor (SqlRepos.OpStatus i status err at_) fault 0 id d (λ d, snd (UpdateRepoStatus fault i status err at_ d)) eq_refl I) as H.
  cbv beta in H. destruct (UpdateRepoStatus _ _ _ _ _ _) as [x d1]. exact H.
Qed.
Lemma write_pending_cursor i sha d id : cursor id (write_pending fault i sha d) = cursor id d.
Proof.
  unfold write_pending, zoom.
  pose proof (zoom_cursor (SqlRepos.OpPending i sha) fault 0 id d (λ d, snd (SetRepoPendingCommit fault i sha d)) eq_refl I) as H.
  cbv beta in H. destruct (SetRepoPendingCommit _ _ _ _) as [x d1]. exact H.
Qed.
Lemma claim_cursor i owner ttl now d res d' id :
  zoom d (ClaimRepoForIndexing fault i owner ttl now) = (res, d') → cursor id d' = cursor id d.
Proof.
  unfold zoom.
  pose proof (zoom_cursor (SqlRepos.OpClaim i owner ttl) fault now id d (λ d, snd (ClaimRepoForIndexing fault i owner ttl now d)) eq_refl I) as H.
  cbv beta in H. destruct (ClaimRepoForIndexing _ _ _ _ _ _) as [x d1]. intros [= <- <-]. exact H.
Qed.
Lemma jobs_cursor {A} (m : conn jobs_db → A * conn jobs_db) d id : cursor id (snd (zoom_jobs d m)) = cursor id d.
Proof. unfold cursor. by rewrite (proj2 (zoom_jobs_snd m d)). Qed.
Lemma same_cursor d d' id : tables d' = tables d → cursor id d' = cursor id d.
Proof. intros E. unfold cursor, repo_row. by rewrite E. Qed.

Lemma write_cursor_cursor i sha d id :
  cursor id (write_cursor fault i sha d) = cursor id d ∨ (id = i ∧ cursor id (write_cursor fault i sha d) = Some sha).
Proof.
  unfold write_cursor, zoom, cursor, repo_row.
  pose proof (perform_tables fault (SqlRepos.OpLast i sha) 0 {| tables := app_repos (tables d); calls := calls d |}) as H.
  cbn [SqlRepos.perform] in H. destruct (UpdateRepoLastCommit _ _ _ _) as [x d1]. cbn [snd tables app_repos] in *.
  destruct H as [->|[n [= _ <-]]]; [by left |].
  rewrite (find_map (λ r, if is_repo i r then set_commits sha (repo_pending_commit r) r else r)) by (intros r; by destruct (is_repo i r)).
  destruct (List.find _ _) as [r|] eqn:E; [|by left]. simpl. destruct (is_repo i r) eqn:Ei; [|by left]. right.
  apply find_id in E as [<- _]. apply is_repo_spec in Ei. done.
Qed.

Lemma check_job_cursor job worker d res d' id :
  check_job fault json_error Quote job worker d = (res, d') →
  cursor id d' = cursor id d ∧
  ∀ r commits, res = Some (r, commits) → ∃ row, repo_row (ij_RepoID job) d = Some row ∧ r = repoFromRow row ∧
    (is_commit_job job = true → decodeCommitBatch json_error (ij_Payload job) = inr commits ∧
      (repo_last_commit row = "" ∨ hasParent (first_parents commits) (repo_last_commit row) = true)).
Proof.
  unfold check_job. destruct (if is_commit_job job then _ else _) as [e|commits] eqn:Eb.
  { intros [= <- <-]. unfold complete. by rewrite jobs_cursor. }
  destruct (zoom d (GetRepo fault (ij_RepoID job))) as [[e|r] d1] eqn:Eg; apply GetRepo_cases in Eg as [Et Hr].
  { intros [= <- <-]. unfold complete. by rewrite jobs_cursor, (same_cursor d d1). }
  destruct (Hr r eq_refl) as (row & Hrow & ->). apply (same_cursor d d1 id) in Et.
  assert (∀ x, cursor id (complete fault job worker x d1) = cursor id d) as Hcomp by (intros x; unfold complete; by rewrite jobs_cursor).
  assert (∀ t, cursor id (clearPendingCommit fault (repoFromRow row) t d1) = cursor id d) as Hclear.
  { intros t. unfold clearPendingCommit. destruct (String.eqb _ _); [by rewrite write_pending_cursor | done]. }
  destruct (is_commit_job job) eqn:Ec.
  - destruct (commitJobOrder (repoFromRow row) commits) eqn:Eo.
    + intros [= <- <-]. split; [done |]. intros r cs [= <- <-]. exists row. split_and!; [done | done |]. intros _. split; [done |].
      unfold commitJobOrder in Eo. cbn [repoFromRow r_LastCommit] in Eo.
      destruct (String.eqb_spec (repo_last_commit row) ""); [by left |]. right. by destruct (hasParent _ _); [|destruct (existsb _ _)].
    + intros [= <- <-]. split; [|done]. unfold complete. by rewrite jobs_cursor, Hclear.
    + pose proof (jobs_cursor (HasPendingCommitJobBefore fault (ij_RepoID job) (ij_ID job)) d1 id) as Hp.
      destruct (zoom_jobs d1 _) as [[e|[|]] d2]; cbn [snd] in Hp; intros [= <- <-]; (split; [|done]); unfold release, complete.
      * by rewrite jobs_cursor, Hp.
      * by rewrite jobs_cursor, Hp.
      * rewrite jobs_cursor. unfold clearPendingCommit. destruct (String.eqb _ _); [by rewrite write_pending_cursor, Hp | by rewrite Hp].
  - intros [= <- <-]. split; [done |]. intros r cs [= <- <-]. by exists row.
Qed.
End Cursor.

(** ** A fleet of workers

    The instances that share a database run queued jobs one at a time each, and
    everything else on it happens between the phases of a run: its poll, its check,
    its claim, the beats of the pass and its end. *)

(** How far a worker is with the job it has taken. *)
Inductive phase :=
| Taken (job : IndexJob)
| Checked (job : IndexJob) (r : Repo) (commits : list CommitEvent)
| Claimed (job : IndexJob) (r : Repo) (commits : list CommitEvent).
Record fleet := { fl_db : conn app_db; fl_workers : gmap string phase }.

(** What happens next: a worker's phase, the death of a worker, or a request to
    some instance. *)
Inductive move :=
| Polls (worker : string) (staleSec now : Z)
| Checks (worker : string)
| Claims (worker : string) (now : Z)
| Beats (worker : string) (now : Z)
| Finishes (worker : string) (e : run_end)
| Dies (worker : string)
| Pushes (owner repoID : string) (commits : list CommitEvent) (now : Z)
| Asks (owner repoID : string) (force : bool) (now : Z)
| Syncs (owner repoID : string) (outcome : index_outcome) (now ended : Z)
| Edits (owner repoID : string) (files : list CommitFile) (outcome : commit_outcome) (now ended : Z)
| Recovers (now : Z).

Section Fleet.
  Context (fault : nat → option StoreError) (json_error Quote : string → string).

Definition at_phase (w : string) (ph : option phase) (d : conn app_db) (s : fleet) : fleet :=
  {| fl_db := d; fl_workers := match ph with Some ph => <[w := ph]> (fl_workers s) | None => delete w (fl_workers s) end |}.
Definition on_db (d : conn app_db) (s : fleet) : fleet := {| fl_db := d; fl_workers := fl_workers s |}.

(** A move that is not a worker's turn does nothing. *)
Definition play (s : fleet) (m : move) : fleet :=
  let d := fl_db s in
  match m with
  | Polls w staleSec now =>
      match fl_workers s !! w with
      | Some _ => s
      | None =>
          match zoom_jobs (snd (zoom_jobs d (RequeueStaleIndexJobs fault staleSec now))) (ClaimNextIndexJob fault w now) with
          | (inl _, d) => on_db d s
          | (inr job, d) => at_phase w (Some (Taken job)) d s
          end
      end
  | Checks w =>
      match fl_workers s !! w with
      | Some (Taken job) =>
          let '(go, d) := check_job fault json_error Quote job w d in at_phase w ((λ p, Checked job (fst p) (snd p)) <$> go) d s
      | _ => s
      end
  | Claims w now =>
      match fl_workers s !! w with
      | Some (Checked job r commits) =>
          let '(go, d) := claim_job fault job w commits now d in at_phase w (if go then Some (Claimed job r commits) else None) d s
      | _ => s
      end
  | Beats w now => match fl_workers s !! w with Some (Claimed job _ _) => on_db (beat fault job w d now) s | _ => s end
  | Finishes w e =>
      match fl_workers s !! w with
      | Some (Claimed job r commits) => at_phase w None (finish_job fault job w r commits e d) s
      | _ => s
      end
  | Dies w => at_phase w None d s
  | Pushes owner repoID commits now => on_db (snd (ApplyCommits fault true owner repoID commits now d)) s
  | Asks owner repoID force now => on_db (snd (StartIndex fault true owner repoID force now d)) s
  | Syncs owner repoID outcome now ended => on_db (snd (IndexRepoSync fault owner repoID outcome now ended d)) s
  | Edits owner repoID files outcome now ended => on_db (snd (ApplyLocalChanges fault owner repoID files outcome now ended d)) s
  | Recovers now => on_db (recoverStuckRepos fault true now d) s
  end.
Definition plays : fleet → list move → fleet := foldl play.

(** A worker left alone does what [pollIndexJobs] does. *)
Definition alone (w : string) (staleSec now : Z) (e : run_end) : list move :=
  [Polls w staleSec now; Checks w; Claims w now] ++ map (Beats w) (end_beats e) ++ [Finishes w e].

Lemma acts_app s ms1 ms2 : plays s (ms1 ++ ms2) = plays (plays s ms1) ms2.
Proof. apply foldl_app. Qed.
(** The turns of a worker that has no job. *)
Definition turn (w : string) (m : move) : Prop :=
  match m with Checks w' | Claims w' _ | Beats w' _ | Finishes w' _ => w' = w | _ => False end.
Lemma idle_turns w ms s : fl_workers s !! w = None → Forall (turn w) ms → plays s ms = s.
Proof.
  intros Hw Hms. induction Hms as [|m ms Hm _ IH]; [done |]. cbn [plays foldl].
  replace (play s m) with s; [exact IH |]. destruct m; try done; cbn in Hm; subst; cbn [play]; by rewrite Hw.
Qed.
Lemma beats_turns w times : Forall (turn w) (map (Beats w) times).
Proof. apply Forall_forall. by intros m (t & -> & _)%list_elem_of_fmap. Qed.
Lemma beats_run w job r commits times s :
  fl_workers s !! w = Some (Claimed job r commits) →
  plays s (map (Beats w) times) = on_db (foldl (beat fault job w) (fl_db s) times) s.
Proof.
  revert s. induction times as [|t times IH]; intros s Hw; [by destruct s |]. cbn [map plays foldl play]. rewrite Hw.
  etrans; [by apply IH |]. done.
Qed.

(** The phases after the poll, from a job that was taken. *)
Lemma taken_runs w job now e s d :
  fl_workers s !! w = None →
  plays (at_phase w (Some (Taken job)) d s) ([Checks w; Claims w now] ++ map (Beats w) (end_beats e) ++ [Finishes w e]) =
  on_db (runQueuedJob fault json_error Quote job w now e d) s.
Proof.
  intros Hw. assert (Forall (turn w) (map (Beats w) (end_beats e) ++ [Finishes w e])) as Hrest.
  { apply Forall_app_2; [apply beats_turns | by repeat constructor]. }
  assert (∀ ph d d', at_phase w None d' (at_phase w (Some ph) d s) = on_db d' s) as Hdel.
  { intros ph d0 d'. unfold at_phase, on_db. cbn [fl_workers]. by rewrite delete_insert_eq, delete_id. }
  assert (∀ ph ph' d d', at_phase w (Some ph') d' (at_phase w (Some ph) d s) = at_phase w (Some ph') d' s) as Hset.
  { intros ph ph' d0 d'. unfold at_phase. cbn [fl_workers]. by rewrite insert_insert_eq. }
  assert (∀ ph d, fl_workers (at_phase w (Some ph) d s) !! w = Some ph) as Hat by (intros; apply lookup_insert_eq).
  rewrite acts_app. unfold runQueuedJob.
  assert (play (at_phase w (Some (Taken job)) d s) (Checks w) =
    let '(go, d) := check_job fault json_error Quote job w d in
    match go with Some (r, commits) => at_phase w (Some (Checked job r commits)) d s | None => on_db d s end) as Hchk.
  { cbn [play]. rewrite Hat. cbn [at_phase fl_db]. destruct (check_job _ _ _ _ _ d) as [[[r commits]|] d1]; [apply Hset | apply Hdel]. }
  change (plays ?x [?a; ?b]) with (play (play x a) b). rewrite Hchk.
  destruct (check_job _ _ _ _ _ d) as [[[r commits]|] d1].
  2: { replace (play (on_db d1 s) (Claims w now)) with (on_db d1 s) by (cbn [play on_db fl_workers]; by rewrite Hw).
    by apply (idle_turns w). }
  cbn [play]. rewrite Hat. cbn [at_phase fl_db]. destruct (claim_job _ _ _ _ _ d1) as [[|] d2].
  - change {| fl_db := d2; fl_workers := ?m |} with (at_phase w (Some (Claimed job r commits)) d2 (at_phase w (Some (Checked job r commits)) d1 s)).
    rewrite Hset, acts_app. rewrite (beats_run w job r commits) by apply Hat. cbn [plays foldl play on_db at_phase fl_workers fl_db].
    rewrite lookup_insert_eq. apply Hdel.
  - change {| fl_db := d2; fl_workers := ?m |} with (at_phase w None d2 (at_phase w (Some (Checked job r commits)) d1 s)).
    rewrite Hdel. by apply (idle_turns w).
Qed.
Lemma alone_polls w staleSec now e s :
  fl_workers s !! w = None → plays s (alone w staleSec now e) = on_db (pollIndexJobs fault json_error Quote w staleSec now e (fl_db s)) s.
Proof.
  intros Hw. unfold alone, pollIndexJobs. change (plays s ([Polls w staleSec now; ?a; ?b] ++ ?t)) with (plays (play s (Polls w staleSec now)) ([a; b] ++ t)).
  cbn [play]. rewrite Hw. destruct (zoom_jobs (fl_db s) _) as [n d1]. cbn [snd].
  destruct (zoom_jobs d1 _) as [[err|job] d2]; [|by apply taken_runs]. apply (idle_turns w); [done |].
  apply Forall_app_2; [by repeat constructor |]. apply Forall_app_2; [apply beats_turns | by repeat constructor].
Qed.

(** *** Moves and cursors *)

Lemma reset_cursor now d id : cursor id (recoverStuckRepos fault true now d) = cursor id d.
Proof.
  unfold recoverStuckRepos, zoom. cbn [negb].
  pose proof (zoom_cursor (SqlRepos.OpReset false) fault now id d (λ d, snd (ResetStuckRepos fault false now d)) eq_refl I) as H.
  cbv beta in H. destruct (ResetStuckRepos _ _ _ _) as [x d1]. exact H.
Qed.
Lemma get_cursor i d res d' id : zoom d (GetRepo fault i) = (res, d') → cursor id d' = cursor id d.
Proof. intros [Et _]%GetRepo_cases. by apply same_cursor. Qed.
Lemma claim_jobs_cursor {A} (m : conn jobs_db → A * conn jobs_db) d id x d' : zoom_jobs d m = (x, d') → cursor id d' = cursor id d.
Proof. intros E. pose proof (jobs_cursor m d id) as H. by rewrite E in H. Qed.

Lemma push_cursor owner i commits now d id : cursor id (snd (ApplyCommits fault true owner i commits now d)) = cursor id d.
Proof.
  unfold ApplyCommits. destruct (validate_commits commits); [done |].
  destruct (zoom d _) as [[e|r] d1] eqn:Eg; pose proof (get_cursor _ _ _ _ id Eg) as E1; [done |].
  destruct (_ && _); [by destruct (_ && _) |].
  destruct (zoom_jobs d1 _) as [[e|job] d2] eqn:Ej; apply (claim_jobs_cursor _ _ id) in Ej; cbn [snd]; [congruence |].
  rewrite write_pending_cursor. congruence.
Qed.
Lemma ask_cursor owner i force now d id : cursor id (snd (StartIndex fault true owner i force now d)) = cursor id d.
Proof.
  unfold StartIndex. destruct (zoom d _) as [[e|r] d1] eqn:Eg; pose proof (get_cursor _ _ _ _ id Eg) as E1; [done |].
  destruct (zoom_jobs d1 _) as [[e|job] d2] eqn:Ej; apply (claim_jobs_cursor _ _ id) in Ej; cbn [snd]; congruence.
Qed.
Lemma sync_cursor owner i outcome now ended d id : cursor id (snd (IndexRepoSync fault owner i outcome now ended d)) = cursor id d.
Proof.
  unfold IndexRepoSync. destruct (zoom d _) as [[e|r] d1] eqn:Eg; pose proof (get_cursor _ _ _ _ id Eg) as E1; [done |].
  destruct (zoom d1 _) as [[e|[|]] d2] eqn:Ec; apply (claim_cursor _ _ _ _ _ _ _ _ id) in Ec; cbn [snd]; try congruence.
  unfold runIndex. destruct outcome; cbn [snd]; rewrite write_status_cursor; congruence.
Qed.
Lemma edit_cursor owner i files outcome now ended d id :
  cursor id (snd (ApplyLocalChanges fault owner i files outcome now ended d)) = cursor id d.
Proof.
  unfold ApplyLocalChanges. destruct files as [|f fs]; [done |]. destruct (first_error _ _); [done |].
  destruct (zoom d _) as [[e|r] d1] eqn:Eg; pose proof (get_cursor _ _ _ _ id Eg) as E1; [done |].
  destruct (zoom d1 _) as [[e|[|]] d2] eqn:Ec; apply (claim_cursor _ _ _ _ _ _ _ _ id) in Ec; cbn [snd]; try congruence.
  destruct outcome as [err|[|p l]]; cbn [snd]; rewrite write_status_cursor; congruence.
Qed.
Lemma claim_job_cursor job w commits now d go d' id : claim_job fault job w commits now d = (go, d') → cursor id d' = cursor id d.
Proof.
  unfold claim_job. destruct (zoom d _) as [[e|[|]] d1] eqn:Ec; apply (claim_cursor _ _ _ _ _ _ _ _ id) in Ec; intros [= <- <-].
  - unfold complete. by rewrite jobs_cursor.
  - destruct (is_commit_job job); rewrite ?write_pending_cursor; done.
  - unfold release. by rewrite jobs_cursor.
Qed.
Lemma finish_job_cursor job w r commits e d id :
  cursor id (finish_job fault job w r commits e d) ≠ cursor id d →
  id = r_ID r ∧ is_commit_job job = true ∧ end_commits e = inr [] ∧
  cursor id (finish_job fault job w r commits e d) = Some (target_sha commits).
Proof.
  unfold finish_job. destruct (is_commit_job job).
  - unfold runApplyCommits. destruct (end_commits e) as [err|[|p l]]; unfold complete; rewrite jobs_cursor, write_status_cursor; try done.
    destruct (write_cursor_cursor fault (r_ID r) (target_sha commits) d id) as [->|[-> ->]]; done.
  - unfold runIndex. destruct (end_index e); unfold complete; by rewrite jobs_cursor, write_status_cursor.
Qed.

(** Only the end of a commit job applied whole moves a cursor. *)
Lemma act_cursor s m id :
  cursor id (fl_db (play s m)) ≠ cursor id (fl_db s) →
  ∃ w e job r commits, m = Finishes w e ∧ fl_workers s !! w = Some (Claimed job r commits) ∧ id = r_ID r ∧ is_commit_job job = true ∧
    end_commits e = inr [] ∧ cursor id (fl_db (play s m)) = Some (target_sha commits).
Proof.
  destruct m as [w staleSec now|w|w now|w now|w e|w|owner i commits now|owner i force now|owner i o now en|owner i fs o now en|now]; cbn [play].
  - destruct (fl_workers s !! w); [done |]. pose proof (jobs_cursor (RequeueStaleIndexJobs fault staleSec now) (fl_db s) id) as E1.
    destruct (zoom_jobs (snd _) _) as [[err|job] d2] eqn:E; apply (claim_jobs_cursor _ _ id) in E; cbn [on_db at_phase fl_db]; congruence.
  - destruct (fl_workers s !! w) as [[job|job r cs|job r cs]|]; try done.
    destruct (check_job _ _ _ _ _ _) as [go d] eqn:E. apply (check_job_cursor _ _ _ _ _ _ _ _ id) in E as [E _]. done.
  - destruct (fl_workers s !! w) as [[job|job r cs|job r cs]|]; try done.
    destruct (claim_job _ _ _ _ _ _) as [go d] eqn:E. apply (claim_job_cursor _ _ _ _ _ _ _ id) in E. done.
  - destruct (fl_workers s !! w) as [[job|job r cs|job r cs]|]; try done. cbn [on_db fl_db]. unfold beat. by rewrite jobs_cursor.
  - destruct (fl_workers s !! w) as [[job|job r cs|job r cs]|] eqn:Ew; try done. cbn [at_phase fl_db].
    intros (-> & H1 & H2 & H3)%finish_job_cursor. by exists w, e, job, r, cs.
  - done.
  - cbn [on_db fl_db]. by rewrite push_cursor.
  - cbn [on_db fl_db]. by rewrite ask_cursor.
  - cbn [on_db fl_db]. by rewrite sync_cursor.
  - cbn [on_db fl_db]. by rewrite edit_cursor.
  - cbn [on_db fl_db]. by rewrite reset_cursor.
Qed.

(** Where a cursor differs, some move moved it. *)
Lemma acts_moved s ms id :
  cursor id (fl_db (plays s ms)) ≠ cursor id (fl_db s) →
  ∃ ms1 m ms2, ms = ms1 ++ m :: ms2 ∧ cursor id (fl_db (play (plays s ms1) m)) ≠ cursor id (fl_db (plays s ms1)).
Proof.
  induction ms as [|m ms IH] using rev_ind; [done |]. rewrite acts_app. intros Hne.
  destruct (decide (cursor id (fl_db (plays s ms)) = cursor id (fl_db s))) as [E|E].
  - exists ms, m, []. split; [done |]. rewrite <- E in Hne. exact Hne.
  - destruct (IH E) as (ms1 & m' & ms2 & -> & Hm). exists ms1, m', (ms2 ++ [m]). by rewrite <- app_assoc.
Qed.

(** A worker past its check: when that was, and what it read. *)
Definition begun (s0 : fleet) (ms : list move) (w : string) (job : IndexJob) (r : Repo) (commits : list CommitEvent) : Prop :=
  ∃ before since, ms = before ++ Checks w :: since ∧
    (∀ since1 e since2, since = since1 ++ Finishes w e :: since2 →
       let t := plays s0 (before ++ Checks w :: since1) in play t (Finishes w e) = t) ∧
    fl_workers (plays s0 before) !! w = Some (Taken job) ∧ r_ID r = ij_RepoID job ∧
    cursor (ij_RepoID job) (fl_db (plays s0 before)) = Some (r_LastCommit r) ∧
    (is_commit_job job = true → decodeCommitBatch json_error (ij_Payload job) = inr commits ∧
      (r_LastCommit r = "" ∨ hasParent (first_parents commits) (r_LastCommit r) = true)).

Lemma begun_on s0 ms w job r commits m :
  begun s0 ms w job r commits → (∀ e, m = Finishes w e → play (plays s0 ms) m = plays s0 ms) → begun s0 (ms ++ [m]) w job r commits.
Proof.
  intros (before & since & -> & Hs & H) Hm. exists before, (since ++ [m]). split; [by rewrite <- app_assoc |]. split; [|done].
  intros since1 e since2 E. destruct since2 as [|m' since2 _] using rev_ind.
  - apply app_inj_tail in E as [-> ->]. by eapply Hm.
  - rewrite app_comm_cons, app_assoc in E. apply app_inj_tail in E as [E _]. by apply (Hs since1 e since2).
Qed.

Lemma phases_begun s0 ms w job r commits :
  fl_workers s0 = ∅ →
  fl_workers (plays s0 ms) !! w = Some (Checked job r commits) ∨ fl_workers (plays s0 ms) !! w = Some (Claimed job r commits) →
  begun s0 ms w job r commits.
Proof.
  intros H0. induction ms as [|m ms IH] using rev_ind; [cbn; rewrite H0; intros [H|H]; by rewrite lookup_empty in H |].
  rewrite acts_app. set (s := plays s0 ms) in *. change (plays s [m]) with (play s m). intros Hw.
  assert (fl_workers (play s m) !! w = fl_workers s !! w → (∀ e, m = Finishes w e → play s m = s) → begun s0 (ms ++ [m]) w job r commits) as Hkeep.
  { intros E Hm. apply begun_on; [|done]. apply IH. by rewrite <- E. }
  assert (∀ w' ph d, w' ≠ w → fl_workers (at_phase w' ph d s) !! w = fl_workers s !! w) as Hother.
  { intros w' [ph|] d Hne; cbn [at_phase fl_workers]; [by rewrite lookup_insert_ne | by rewrite lookup_delete_ne]. }
  assert (∀ w' now, fl_workers (play s (Beats w' now)) = fl_workers s) as Hbeat.
  { intros w' now. cbn [play]. by destruct (fl_workers s !! w') as [[job'|job' r' cs|job' r' cs]|]. }
  destruct m as [w' staleSec now|w'|w' now|w' now|w' e|w'|? ? ? ?|? ? ? ?|? ? ? ? ?|? ? ? ? ? ?|?]; try by apply Hkeep.
  all: destruct (decide (w' = w)) as [->|Hne].
  - cbn [play] in *. destruct (fl_workers s !! w) eqn:Ew; [by apply Hkeep |]. destruct (zoom_jobs (snd _) _) as [[err|job'] d2]; [by apply Hkeep |].
    cbn [at_phase fl_workers] in Hw. rewrite lookup_insert_eq in Hw. by destruct Hw.
  - apply Hkeep; [|done]. cbn [play]. destruct (fl_workers s !! w'); [done |]. destruct (zoom_jobs (snd _) _) as [[err|job'] d2]; [done | by apply Hother].
  - cbn [play] in *. destruct (fl_workers s !! w) as [[job'|job' r' cs|job' r' cs]|] eqn:Ew; try by apply Hkeep.
    destruct (check_job _ _ _ _ _ _) as [go d] eqn:E. pose proof (check_job_cursor _ _ _ _ _ _ _ _ (ij_RepoID job') E) as [_ Hr].
    cbn [at_phase fl_workers] in Hw. destruct go as [[r1 cs1]|]; cbn [fmap option_fmap option_map fst snd] in Hw;
      [rewrite lookup_insert_eq in Hw | rewrite lookup_delete_eq in Hw; by destruct Hw].
    destruct Hw as [[= -> -> ->]|[=]]. destruct (Hr r commits eq_refl) as (row & Hrow & -> & Hc).
    pose proof (find_id _ _ _ Hrow) as [Hid _]. exists ms, []. split; [done |]. split; [by intros [|? ?] ? ? ?|]. do 2 (split; [done |]).
    split; [|done]. unfold cursor. fold s. by rewrite Hrow.
  - apply Hkeep; [|done]. cbn [play]. destruct (fl_workers s !! w') as [[job'|job' r' cs|job' r' cs]|]; try done.
    destruct (check_job _ _ _ _ _ _) as [go d]. by apply Hother.
  - cbn [play] in *. destruct (fl_workers s !! w) as [[job'|job' r' cs|job' r' cs]|] eqn:Ew; try by apply Hkeep.
    destruct (claim_job _ _ _ _ _ _) as [[|] d]; cbn [at_phase fl_workers] in Hw;
      [rewrite lookup_insert_eq in Hw | rewrite lookup_delete_eq in Hw; by destruct Hw].
    destruct Hw as [[=]|[= -> -> ->]]. apply begun_on; [|done]. apply IH. by left.
  - apply Hkeep; [|done]. cbn [play]. destruct (fl_workers s !! w') as [[job'|job' r' cs|job' r' cs]|]; try done.
    destruct (claim_job _ _ _ _ _ _) as [go d]. by apply Hother.
  - apply Hkeep; [|done]. by rewrite Hbeat.
  - apply Hkeep; [|done]. by rewrite Hbeat.
  - cbn [play] in Hw. destruct (fl_workers s !! w) as [[job'|job' r' cs|job' r' cs]|] eqn:Ew; try by rewrite Ew in Hw; destruct Hw.
    all: try (cbn [at_phase fl_workers] in Hw; rewrite lookup_delete_eq in Hw; by destruct Hw).
    apply Hkeep; cbn [play]; by rewrite Ew.
  - apply Hkeep; [|by intros e' [= ->]]. cbn [play]. destruct (fl_workers s !! w') as [[job'|job' r' cs|job' r' cs]|]; try done. by apply Hother.
  - cbn [play at_phase fl_workers] in Hw. rewrite lookup_delete_eq in Hw. by destruct Hw.
  - apply Hkeep; [|done]. by apply Hother.
Qed.

(** C37: what moves a cursor, however the phases of any number of workers over one
    queue interleave with each other and with pushes and other requests, whichever
    calls fail and whoever dies.  From a start with nobody at work, a move after
    which the cursor of a repository is another is the end of a commit job of that
    repository that was applied whole, with nothing left out, and takes the cursor to
    the last commit of the job's batch.  The worker checked the job before, and the
    batch continues the cursor of that moment, or there was none.  That is still the
    cursor, so that the chain is followed, unless since the check another worker
    finished a run of the same repository and moved it: the order is not looked at
    again once the repository is claimed. *)
Theorem fleet_cursor s0 ms m id :
  fl_workers s0 = ∅ → let s := plays s0 ms in cursor id (fl_db (play s m)) ≠ cursor id (fl_db s) →
  ∃ w e job r commits c before since, m = Finishes w e ∧ fl_workers s !! w = Some (Claimed job r commits) ∧
    ij_RepoID job = id ∧ is_commit_job job = true ∧ end_commits e = inr [] ∧
    decodeCommitBatch json_error (ij_Payload job) = inr commits ∧ cursor id (fl_db (play s m)) = Some (target_sha commits) ∧
    ms = before ++ Checks w :: since ∧ fl_workers (plays s0 before) !! w = Some (Taken job) ∧ cursor id (fl_db (plays s0 before)) = Some c ∧
    (c = "" ∨ hasParent (first_parents commits) c = true) ∧
    (cursor id (fl_db s) = Some c ∨
     ∃ since1 w' e' since2, since = since1 ++ Finishes w' e' :: since2 ∧ w' ≠ w ∧
       let t := plays s0 (before ++ Checks w :: since1) in cursor id (fl_db (play t (Finishes w' e'))) ≠ cursor id (fl_db t)).
Proof.
  intros H0 s Hne. destruct (act_cursor s m id Hne) as (w & e & job & r & commits & -> & Hw & Hid & Hk & He & Hto).
  destruct (phases_begun s0 ms w job r commits H0 (or_intror Hw)) as (before & since & Ems & Hs & Ht & Hr & Hc & Hb).
  destruct (Hb Hk) as [Hd Hch]. exists w, e, job, r, commits, (r_LastCommit r), before, since.
  assert (ij_RepoID job = id) as Hj by congruence. rewrite Hj in Hc. do 11 (split; [done |]).
  destruct (decide (cursor id (fl_db s) = Some (r_LastCommit r))) as [|Hmoved]; [by left | right].
  assert (s = plays (play (plays s0 before) (Checks w)) since) as Es by (unfold s; rewrite Ems; by rewrite acts_app).
  destruct (decide (cursor id (fl_db (play (plays s0 before) (Checks w))) = cursor id (fl_db (plays s0 before)))) as [E1|E1];
    [|by destruct (act_cursor _ _ _ E1) as (? & ? & ? & ? & ? & [=] & _)].
  destruct (acts_moved (play (plays s0 before) (Checks w)) since id) as (ms1 & m & ms2 & -> & Hm); [congruence |].
  destruct (act_cursor _ _ _ Hm) as (w' & e' & _ & _ & _ & -> & _). exists ms1, w', e', ms2. split; [done |]. split.
  - intros ->. apply Hm. change (plays ?x ms1) with (plays x ms1). pose proof (Hs ms1 e' ms2 eq_refl) as Hno. cbv zeta in Hno.
    rewrite acts_app in Hno. change (plays ?x (Checks w :: ms1)) with (plays (play x (Checks w)) ms1) in Hno. by rewrite Hno.
  - rewrite acts_app. exact Hm.
Qed.
End Fleet.

(** ** At work *)

Definition commit (sha : string) (parents : list string) : CommitEvent := {|
  ce_SHA := sha; ce_Parents := parents;
  ce_Files := [{| cf_Path := "main.go"; cf_OldPath := ""; cf_Content := "package main // " +:+ sha; cf_Status := "M" |}] |}.

(** A repository and the batches pushed to it, in the distributed mode. *)
Definition pushed (last_commit : string) (batches : list (list CommitEvent)) : conn app_db :=
  foldl (λ d b, snd (ApplyCommits no_fault true "first" "api" b 200 d))
    {| tables := {| app_repos := [set_commits last_commit "" (new_repo (some_repo "api" 100))]; app_jobs := empty_jobs |}; calls := 0 |}
    batches.
Definition job_numbered (n : nat) (worker : string) (d : conn app_db) : Fallible IndexJob * conn app_db :=
  zoom_jobs d (ClaimNextIndexJob no_fault worker (Z.of_nat n)).
Definition clean_end : run_end := {| end_commits := inr []; end_index := IndexDone; end_time := 300; end_beats := [250; 260]%Z |}.
Definition outcomes (d : conn app_db) : list (string * string) := map (λ j, (job_status j, job_error j)) (db_jobs (jobs_of d)).

Lemma chain_drains_witness :
  let batches := [[commit "s1" []; commit "s2" ["s1"]]; [commit "s3" ["s2"]]] in
  let d := pushed "" batches in
  let d' := poll_all no_fault (λ _, "") (λ s, s) "w" [(120, 250, clean_end); (120, 400, clean_end)]%Z d in
  (∃ r', repo_row "api" d' = Some r' ∧ repo_last_commit r' = "s3") ∧ waiting (db_jobs (jobs_of d')) = [].
Proof.
  intros batches d d'.
  assert (jobs_ok (jobs_of d)) as Hok.
  { replace (jobs_of d) with (tables (SqlQueue.run no_fault
      [(OpCommit "api" (encodeCommitBatch [commit "s1" []; commit "s2" ["s1"]]), 200%Z); (OpCommit "api" (encodeCommitBatch [commit "s3" ["s2"]]), 200%Z)]
      {| tables := empty_jobs; calls := 0 |})) by (vm_compute; reflexivity).
    apply (run_lives no_fault _ {| tables := empty_jobs; calls := 0 |}). apply empty_jobs_ok. }
  assert (∀ x, x ∈ db_jobs (jobs_of d) → ¬ running x) as Hrun.
  { assert (forallb (λ x, negb (has_status JobStatusRunning x)) (db_jobs (jobs_of d)) = true) as Hb by (vm_compute; reflexivity).
    rewrite forallb_forall in Hb. intros x Hx%list_elem_of_In Hr%has_status_spec. specialize (Hb x Hx). by rewrite Hr in Hb. }
  pose proof (chain_drains no_fault (λ _, "") (λ s, s) "w" "api" [(120, 250, clean_end); (120, 400, clean_end)]%Z d
    (set_commits "" "s3" (new_repo (some_repo "api" 100))) batches (λ _, eq_refl) Hok Hrun) as H.
  assert (repo_row "api" d = Some (set_commits "" "s3" (new_repo (some_repo "api" 100)))) as Hrow by (vm_compute; reflexivity).
  assert (Forall2 (carries (λ _, "") "api") (waiting (db_jobs (jobs_of d))) batches) as Hc.
  { let l := eval vm_compute in (waiting (db_jobs (jobs_of d))) in assert (waiting (db_jobs (jobs_of d)) = l) as -> by (vm_compute; reflexivity).
    repeat (constructor; [split_and!; [reflexivity | reflexivity | vm_compute; reflexivity] |]). constructor. }
  destruct (H Hrow) as ((r' & Hr' & _ & Hl) & Hw & _);
    [discriminate | exact Hc | vm_compute; tauto | reflexivity | repeat constructor |].
  split; [exists r'; split; [exact Hr' | exact Hl] | exact Hw].
Defined.

(** With no cursor yet every queued batch counts as the next one: when two workers
    take the first two batches and the second gets to the repository first, the
    cursor starts at the end of the second batch, and the first one — accepted,
    and waiting all along — ends as a gap. *)
Lemma first_batches_reordered :
  let d := pushed "" [[commit "s1" []]; [commit "s2" ["s1"]]] in
  let '(job1, d) := job_numbered 210 "a" d in
  let '(job2, d) := job_numbered 211 "b" d in
  match job1, job2 with
  | inr job1, inr job2 =>
      let d := runQueuedJob no_fault (λ _, "") (λ s, s) job2 "b" 220 clean_end d in
      let d := runQueuedJob no_fault (λ _, "") (λ s, s) job1 "a" 400 clean_end d in
      cursor "api" d = Some "s2" ∧
      outcomes d = [(JobStatusError, "commit gap: batch s1..s1 does not continue cursor s2 and no preceding batch is queued; resend from the cursor or reindex");
                    (JobStatusDone, "")]
  | _, _ => False
  end.
Proof. vm_compute. split; reflexivity. Qed.

(** A batch with the cursor in its middle counts as applied: of two overlapping
    pushes accepted at the same cursor, the second is recorded as done without its
    later commits having been applied. *)
Lemma overlapping_batch_dropped :
  let d := pushed "s1" [[commit "s2" ["s1"]]; [commit "s2" ["s1"]; commit "s3" ["s2"]]] in
  let d := poll_all no_fault (λ _, "") (λ s, s) "w" [(120, 250, clean_end); (120, 400, clean_end)]%Z d in
  cursor "api" d = Some "s2" ∧ outcomes d = [(JobStatusDone, ""); (JobStatusDone, "")].
Proof. vm_compute. split; reflexivity. Qed.

(** Two workers: [a] takes a batch and checks it, and stops for so long that the job
    goes back to the queue; [b] runs it, and the next one that is pushed; then [a]
    goes on. *)
Definition slow_worker : list move :=
  [Polls "a" 120 210; Checks "a"] ++ alone "b" 120 400 clean_end ++ [Pushes "first" "api" [commit "s2" ["s1"]] 405] ++
  alone "b" 120 410 clean_end ++ [Claims "a" 420].
Definition idle : fleet := {| fl_db := pushed "s0" [[commit "s1" ["s0"]]]; fl_workers := ∅ |}.
Abbreviation played := (plays no_fault (λ _, "") (λ s, s) idle).
Lemma slow_worker_moves :
  cursor "api" (fl_db (played slow_worker)) = Some "s2" ∧
  cursor "api" (fl_db (play no_fault (λ _, "") (λ s, s) (played slow_worker) (Finishes "a" clean_end))) = Some "s1".
Proof. split; vm_compute; reflexivity. Qed.
Lemma moved_by (x y : option string) a b : x = Some a ∧ y = Some b → a ≠ b → y ≠ x.
Proof. intros [-> ->] Hne [=]. congruence. Qed.
Lemma fleet_cursor_witness :
  ∃ w e commits c before since, Finishes "a" clean_end = Finishes w e ∧ slow_worker = before ++ Checks w :: since ∧
    cursor "api" (fl_db (played before)) = Some c ∧ (c = "" ∨ hasParent (first_parents commits) c = true) ∧
    (cursor "api" (fl_db (played slow_worker)) = Some c ∨ ∃ since1 w' e' since2, since = since1 ++ Finishes w' e' :: since2 ∧ w' ≠ w).
Proof.
  destruct (fleet_cursor no_fault (λ _, "") (λ s, s) idle slow_worker (Finishes "a" clean_end) "api" eq_refl
    (moved_by _ _ "s2" "s1" slow_worker_moves ltac:(discriminate)))
    as (w & e & job & r & commits & c & before & since & Hm & _ & _ & _ & _ & _ & _ & Hms & _ & Hc & Hch & Hlast).
  exists w, e, commits, c, before, since.
  refine (conj Hm (conj Hms (conj Hc (conj Hch _)))).
  destruct Hlast as [Hl|(since1 & w' & e' & since2 & Hsince & Hne & _)]; [left; exact Hl | right].
  exists since1, w', e', since2. exact (conj Hsince Hne).
Defined.

(** The batch that took the cursor from [s2] back to [s1] does not continue [s2], and
    both jobs are done. *)
Lemma slow_worker_rewinds :
  let d := fl_db (played (slow_worker ++ [Finishes "a" clean_end])) in
  cursor "api" d = Some "s1" ∧ outcomes d = [(JobStatusDone, ""); (JobStatusDone, "")].
Proof. vm_compute. split; reflexivity. Qed.
