(* ===== verification/Watch.v ===== *)
(** * Following working trees ([internal/server/watch])

    The watcher turns file system events into the batches of changes the indexer
    takes.  Its methods are functions on its state; what it learns from outside
    while one runs — the tree and the checkout as they are at that moment, the
    clock, the descriptors in use, the answers of the indexer — is the record
    [moment].  Events and ticks are handled by one goroutine, one after another.
    The budget of watches is kept, whatever the descriptor counts read. *)

From S2P Require Import Prelude GoStrings GoSort Domain Store Paths Gitignore Walk Commits.

(** ** The budget ([budget.go]) *)

Definition reserveFDs : Z := 8192.
Definition defaultMaxWatchedDirs : Z := 8192.
Definition checkEvery : Z := 64.
Definition minWatchBudget : Z := 64.

(** [budget]; [bg_samples] counts the samples taken so far. *)
Record budget := {
  bg_ceiling : Z;
  bg_hardMax : Z;
  bg_granted : Z;
  bg_skipped : Z;
  bg_exhausted : bool;
  bg_warned : bool;
  bg_sinceCheck : Z;
  bg_samples : nat
}.

(** [descriptorLimit]; [None] when the limit cannot be read. *)
Definition descriptorLimit (soft : option Z) : Z :=
  match soft with
  | None => minWatchBudget + reserveFDs
  | Some cur => if 2 ^ 31 <? cur then 2 ^ 31 else cur
  end%Z.

(** [newBudget] *)
Definition newBudget (soft : option Z) (hardMax : Z) : budget := {|
  bg_ceiling := Z.max minWatchBudget (descriptorLimit soft - reserveFDs);
  bg_hardMax := if (hardMax <=? 0)%Z then defaultMaxWatchedDirs else hardMax;
  bg_granted := 0; bg_skipped := 0; bg_exhausted := false; bg_warned := false; bg_sinceCheck := 0; bg_samples := 0 |}.

Definition refuse (exhausted : bool) (since : Z) (samples : nat) (b : budget) : budget := {|
  bg_ceiling := bg_ceiling b; bg_hardMax := bg_hardMax b; bg_granted := bg_granted b; bg_skipped := bg_skipped b + 1;
  bg_exhausted := exhausted; bg_warned := bg_warned b; bg_sinceCheck := since; bg_samples := samples |}.
Definition grant (since : Z) (samples : nat) (b : budget) : budget := {|
  bg_ceiling := bg_ceiling b; bg_hardMax := bg_hardMax b; bg_granted := bg_granted b + 1; bg_skipped := bg_skipped b;
  bg_exhausted := bg_exhausted b; bg_warned := bg_warned b; bg_sinceCheck := since - 1; bg_samples := samples |}.

(** [take]; [open n] is what the [n]-th sample of [openDescriptors] reads. *)
Definition take_watch (open : nat → Z) (b : budget) : bool * budget :=
  if ((0 <? bg_hardMax b) && (bg_hardMax b <=? bg_granted b))%Z
  then (false, refuse (bg_exhausted b) (bg_sinceCheck b) (bg_samples b) b)
  else if bg_exhausted b then (false, refuse true (bg_sinceCheck b) (bg_samples b) b)
  else if (bg_sinceCheck b <=? 0)%Z then
    let n := open (bg_samples b) in
    if ((0 <? n) && (bg_ceiling b <=? n))%Z then (false, refuse true checkEvery (Datatypes.S (bg_samples b)) b)
    else (true, grant checkEvery (Datatypes.S (bg_samples b)) b)
  else (true, grant (bg_sinceCheck b) (bg_samples b) b).

(** [release] *)
Definition release_watch (b : budget) : budget := {|
  bg_ceiling := bg_ceiling b; bg_hardMax := bg_hardMax b;
  bg_granted := if (0 <? bg_granted b)%Z then (bg_granted b - 1)%Z else bg_granted b; bg_skipped := bg_skipped b;
  bg_exhausted := false; bg_warned := bg_warned b; bg_sinceCheck := 0; bg_samples := bg_samples b |}.

(** [report]: is the shortfall logged now? *)
Definition report_budget (b : budget) : bool * budget :=
  ((0 <? bg_skipped b)%Z && negb (bg_warned b), {|
    bg_ceiling := bg_ceiling b; bg_hardMax := bg_hardMax b; bg_granted := bg_granted b; bg_skipped := bg_skipped b;
    bg_exhausted := bg_exhausted b; bg_warned := bg_warned b || (0 <? bg_skipped b)%Z; bg_sinceCheck := bg_sinceCheck b;
    bg_samples := bg_samples b |}).

(** [stats] *)
Definition stats_budget (b : budget) : Z * Z * Z := (bg_granted b, bg_skipped b, bg_ceiling b).

(** ** The watcher ([watch.go]) *)

Definition millisecond : Z := 1000000.
Definition DefaultDebounce : Z := 400 * millisecond.
Definition DefaultMaxDelay : Z := 5000 * millisecond.
Definition busyRetry : Z := 2000 * millisecond.

(** [tree], [batch], [Watcher]; the zero time is before every other. *)
Record tree := { t_repo : Repo; t_ignore : IgnorePatterns; t_dirs : gset string }.
Record batch := { bt_files : gset string; bt_dirs : gset string; bt_first : Z; bt_last : Z; bt_after : option Z }.
Record Watcher := {
  w_debounce : Z;
  w_maxDelay : Z;
  w_budget : budget;
  w_trees : list tree;
  w_pending : gmap string batch
}.

(** [New] *)
Definition NewWatcher (soft : option Z) (debounce maxDelay maxDirs : Z) : Watcher :=
  let debounce := if (debounce <=? 0)%Z then DefaultDebounce else debounce in {|
  w_debounce := debounce;
  w_maxDelay := if (maxDelay <? debounce)%Z then Z.max DefaultMaxDelay debounce else maxDelay;
  w_budget := newBudget soft maxDirs; w_trees := []; w_pending := ∅ |}.

(** How the indexer took a batch. *)
Inductive apply_result := Applied | RefusedBusy | ApplyFailed (err : string).

(** What the watcher sees of the outside while it handles one event or tick. *)
Record moment := {
  now : Z;
  readFile : string → option string;       (* os.ReadFile, os.Stat and git, for the rules of a checkout *)
  isDir : string → option bool;
  lsFiles : string → option string;
  lstat : string → string + node;          (* what is at a path, and below it *)
  watchable : string → bool;               (* fsnotify accepts the directory *)
  openFDs : nat → Z;
  useGitignore : bool;
  IgnorePatternsFor : Repo → list string;  (* the Indexer *)
  IndexedPathsUnder : string → string → string + list string;
  ApplyLocalChanges : string → list CommitFile → apply_result
}.

Section Watch.
  Context (valid_pattern : string → bool) (glob_match : string → string → option bool).
  (** The order in which Go ranges over a set. *)
  Context (range_set : gset string → list string).

Definition matcher_for (m : moment) (r : Repo) : IgnorePatterns := NewIgnorePatterns (IgnorePatternsFor m r) (useGitignore m).

(** [relIndexable] *)
Definition relIndexable (m : moment) (repoPath abs : string) (i : IgnorePatterns) : option string * IgnorePatterns :=
  match Rel repoPath abs with
  | None => (None, i)
  | Some rel =>
      if String.eqb rel "." || String.eqb rel ".." then (None, i)
      else
        let '(i, ignored) := ShouldIgnore valid_pattern glob_match (readFile m) (isDir m) (lsFiles m) i repoPath abs in
        if ignored then (None, i)
        else if String.eqb (DetectLanguage rel) "" then (None, i)
        else (Some rel, i)
  end.

(** The state of [walkTree]: what it changes of the watcher and its tree, the files
    collected, and how many directories are now watched. *)
Record walking := { wk_budget : budget; wk_ignore : IgnorePatterns; wk_dirs : gset string; wk_files : list string; wk_n : Z }.

Definition walk_watch (m : moment) (repoPath dir : string) (collect : bool) (path : string) (d : option (string * node))
    (err : option string) (st : walking) : verdict * walking :=
  match err, d with
  | Some _, Some (_, DirNode _ _) => (SkipRest, st)
  | Some _, _ => (Continue, st)
  | None, None => (Continue, st)
  | None, Some (name, DirNode _ _) =>
      let '(i, skip) :=
        if negb (String.eqb path repoPath) && negb (String.eqb path dir)
        then SkipDir valid_pattern glob_match (readFile m) (isDir m) (lsFiles m) repoPath path name (wk_ignore st)
        else (wk_ignore st, false) in
      if skip then
        (SkipRest, {| wk_budget := wk_budget st; wk_ignore := i; wk_dirs := wk_dirs st; wk_files := wk_files st; wk_n := wk_n st |})
      else
        let '(granted, b) := take_watch (openFDs m) (wk_budget st) in
        if negb granted then
          (SkipRest, {| wk_budget := b; wk_ignore := i; wk_dirs := wk_dirs st; wk_files := wk_files st; wk_n := wk_n st |})
        else if negb (watchable m path) then
          (Continue, {| wk_budget := release_watch b; wk_ignore := i; wk_dirs := wk_dirs st; wk_files := wk_files st;
                        wk_n := wk_n st |})
        else
          (Continue, {| wk_budget := b; wk_ignore := i; wk_dirs := {[path]} ∪ wk_dirs st; wk_files := wk_files st;
                        wk_n := wk_n st + 1 |})
  | None, Some (_, FileNode _) =>
      if negb collect then (Continue, st)
      else
        let '(rel, i) := relIndexable m repoPath path (wk_ignore st) in
        (Continue, {| wk_budget := wk_budget st; wk_ignore := i; wk_dirs := wk_dirs st;
                      wk_files := match rel with Some rel => wk_files st ++ [rel] | None => wk_files st end; wk_n := wk_n st |})
  end.

(** [walkTree] *)
Definition walkTree (m : moment) (t : tree) (dir : string) (collect : bool) (b : budget) : tree * budget * list string * Z :=
  let '(_, st) := WalkDir (walk_watch m (r_Path (t_repo t)) dir collect) dir (lstat m dir)
    {| wk_budget := b; wk_ignore := t_ignore t; wk_dirs := t_dirs t; wk_files := []; wk_n := 0 |} in
  ({| t_repo := t_repo t; t_ignore := wk_ignore st; t_dirs := wk_dirs st |}, wk_budget st, wk_files st, wk_n st).

Definition with_trees (ts : list tree) (b : budget) (w : Watcher) : Watcher := {|
  w_debounce := w_debounce w; w_maxDelay := w_maxDelay w; w_budget := b; w_trees := ts; w_pending := w_pending w |}.
Definition with_pending (p : gmap string batch) (w : Watcher) : Watcher := {|
  w_debounce := w_debounce w; w_maxDelay := w_maxDelay w; w_budget := w_budget w; w_trees := w_trees w; w_pending := p |}.

(** [Add]; is the repository taken? *)
Definition Add (m : moment) (r : Repo) (w : Watcher) : bool * Watcher :=
  if String.eqb (r_Path r) "" then (false, w)
  else
    let '(t, b, _, _) := walkTree m {| t_repo := r; t_ignore := matcher_for m r; t_dirs := ∅ |} (r_Path r) false (w_budget w) in
    (true, with_trees (w_trees w ++ [t]) (snd (report_budget b)) w).

(** [within] *)
Definition hasDotDotPrefix (rel : string) : bool := HasPrefix rel "../".
Definition within (root path : string) : bool :=
  if String.eqb path root then true
  else match Rel root path with
       | None => false
       | Some rel => negb (String.eqb rel "..") && negb (hasDotDotPrefix rel)
       end.

(** [treeFor]: the index of the tree with the longest root around the path. *)
Definition tree_step (path : string) (best : option (nat * tree)) (it : nat * tree) : option (nat * tree) :=
  if negb (within (r_Path (t_repo (snd it))) path) then best
  else match best with
       | None => Some it
       | Some b => if String.length (r_Path (t_repo (snd b))) <? String.length (r_Path (t_repo (snd it))) then Some it else best
       end.
Definition treeFor (w : Watcher) (path : string) : option (nat * tree) :=
  foldl (tree_step path) None (imap (λ i t, (i, t)) (w_trees w)).

(** [treeByID] *)
Definition treeByID (w : Watcher) (repoID : string) : option tree :=
  List.find (λ t, String.eqb (r_ID (t_repo t)) repoID) (w_trees w).

(** [forgetDir] *)
Definition forgetDir (t : tree) (dir : string) : tree :=
  {| t_repo := t_repo t; t_ignore := t_ignore t; t_dirs := filter (λ path, within dir path = false) (t_dirs t) |}.

(** [batchFor] *)
Definition batchFor (m : moment) (repoID : string) (w : Watcher) : batch :=
  match w_pending w !! repoID with
  | Some b => {| bt_files := bt_files b; bt_dirs := bt_dirs b; bt_first := bt_first b; bt_last := now m; bt_after := bt_after b |}
  | None => {| bt_files := ∅; bt_dirs := ∅; bt_first := now m; bt_last := now m; bt_after := None |}
  end.

(** [enqueueFile], [enqueueDir] *)
Definition enqueueFile (m : moment) (repoID : string) (w : Watcher) (rel : string) : Watcher :=
  let b := batchFor m repoID w in
  with_pending (<[repoID := {| bt_files := {[rel]} ∪ bt_files b; bt_dirs := bt_dirs b; bt_first := bt_first b;
                               bt_last := bt_last b; bt_after := bt_after b |}]> (w_pending w)) w.
Definition enqueueDir (m : moment) (repoID : string) (w : Watcher) (rel : string) : Watcher :=
  let b := batchFor m repoID w in
  with_pending (<[repoID := {| bt_files := bt_files b; bt_dirs := {[rel]} ∪ bt_dirs b; bt_first := bt_first b;
                               bt_last := bt_last b; bt_after := bt_after b |}]> (w_pending w)) w.

(** An event of [fsnotify], with the operations it reports. *)
Record Event := { ev_Name : string; ev_Create : bool; ev_Write : bool; ev_Remove : bool; ev_Rename : bool }.

Definition set_tree (i : nat) (t : tree) (b : budget) (w : Watcher) : Watcher := with_trees (<[i := t]> (w_trees w)) b w.

(** The end of [record] on a path that is a file as far as it is known. *)
Definition record_file (m : moment) (i : nat) (t : tree) (path : string) (w : Watcher) : Watcher :=
  let '(rel, ignore) := relIndexable m (r_Path (t_repo t)) path (t_ignore t) in
  let w := set_tree i {| t_repo := t_repo t; t_ignore := ignore; t_dirs := t_dirs t |} (w_budget w) w in
  match rel with Some rel => enqueueFile m (r_ID (t_repo t)) w rel | None => w end.

(** [record] *)
Definition record (m : moment) (ev : Event) (w : Watcher) : Watcher :=
  if negb (ev_Create ev) && negb (ev_Write ev) && negb (ev_Remove ev) && negb (ev_Rename ev) then w
  else
    match treeFor w (ev_Name ev) with
    | None => w
    | Some (i, t) =>
        let t := if String.eqb (Base (ev_Name ev)) ".gitignore"
                 then {| t_repo := t_repo t; t_ignore := matcher_for m (t_repo t); t_dirs := t_dirs t |} else t in
        let w := set_tree i t (w_budget w) w in
        let repo := t_repo t in
        if ev_Remove ev || ev_Rename ev then
          if bool_decide (ev_Name ev ∈ t_dirs t) then
            let w := set_tree i (forgetDir t (ev_Name ev)) (w_budget w) w in
            match Rel (r_Path repo) (ev_Name ev) with
            | Some rel => enqueueDir m (r_ID repo) w rel
            | None => w
            end
          else record_file m i t (ev_Name ev) w
        else
          match lstat m (ev_Name ev) with
          | inr (DirNode _ _) =>
              let '(ignore, skip) :=
                if String.eqb (ev_Name ev) (r_Path repo) then (t_ignore t, false)
                else SkipDir valid_pattern glob_match (readFile m) (isDir m) (lsFiles m) (r_Path repo) (ev_Name ev)
                       (Base (ev_Name ev)) (t_ignore t) in
              let t := {| t_repo := repo; t_ignore := ignore; t_dirs := t_dirs t |} in
              if skip then set_tree i t (w_budget w) w
              else
                let '(t, b, found, _) := walkTree m t (ev_Name ev) true (w_budget w) in
                foldl (enqueueFile m (r_ID repo)) (set_tree i t b w) found
          | _ => record_file m i t (ev_Name ev) w
          end
    end.

(** ** Handing batches over *)

(** [changeSet] *)
Definition deleted_path (path : string) : CommitFile :=
  {| cf_Path := path; cf_OldPath := ""; cf_Content := ""; cf_Status := "D" |}.
Definition modified_path (path : string) : CommitFile :=
  {| cf_Path := path; cf_OldPath := ""; cf_Content := ""; cf_Status := "M" |}.
Definition dir_changes (m : moment) (repoID dir : string) : list CommitFile :=
  match IndexedPathsUnder m repoID dir with inl _ => [] | inr paths => map deleted_path paths end.
Definition file_change (m : moment) (repoPath rel : string) : CommitFile :=
  match lstat m (JoinPath [repoPath; rel]) with inl _ => deleted_path rel | inr _ => modified_path rel end.
Definition changeSet (m : moment) (t : tree) (b : batch) : list CommitFile :=
  (range_set (bt_dirs b) ≫= dir_changes m (r_ID (t_repo t))) ++ map (file_change m (r_Path (t_repo t))) (range_set (bt_files b)).

(** [requeue] *)
Definition requeue (m : moment) (repoID : string) (b : batch) (w : Watcher) : Watcher :=
  let after := Some (now m + busyRetry)%Z in
  with_pending (<[repoID :=
    match w_pending w !! repoID with
    | None => {| bt_files := bt_files b; bt_dirs := bt_dirs b; bt_first := bt_first b; bt_last := bt_last b; bt_after := after |}
    | Some cur => {|
        bt_files := bt_files b ∪ bt_files cur; bt_dirs := bt_dirs b ∪ bt_dirs cur;
        bt_first := if (bt_first b <? bt_first cur)%Z then bt_first b else bt_first cur;
        bt_last := bt_last cur; bt_after := after |}
    end]> (w_pending w)) w.

(** A batch that was offered to the indexer. *)
Record delivery := { dl_repo : string; dl_batch : batch; dl_changes : list CommitFile; dl_result : apply_result }.

(** [apply]; what the bus is told is left to [Progress]. *)
Definition apply_batch (m : moment) (repoID : string) (b : batch) (w : Watcher) : option delivery * Watcher :=
  match treeByID w repoID with
  | None => (None, w)
  | Some t =>
      match changeSet m t b with
      | [] => (None, w)
      | changes =>
          let res := ApplyLocalChanges m repoID changes in
          (Some {| dl_repo := repoID; dl_batch := b; dl_changes := changes; dl_result := res |},
           match res with RefusedBusy => requeue m repoID b w | _ => w end)
      end
  end.

(** A batch is due at a tick. *)
Definition due (w : Watcher) (t : Z) (b : batch) : bool :=
  negb (match bt_after b with Some after => (t <? after)%Z | None => false end) &&
  negb ((t - bt_last b <? w_debounce w)%Z && (t - bt_first b <? w_maxDelay w)%Z).

(** [flush]; [ready] are the due batches, in the order they are ranged over. *)
Fixpoint apply_all (m : moment) (ready : list (string * batch)) (w : Watcher) : list delivery * Watcher :=
  match ready with
  | [] => ([], w)
  | (id, b) :: ready =>
      let '(d, w) := apply_batch m id b w in
      let '(ds, w) := apply_all m ready w in
      (option_list d ++ ds, w)
  end.
Definition ready_batches (m : moment) (w : Watcher) : gmap string batch :=
  filter (λ p, due w (now m) (snd p) = true) (w_pending w).
Definition flush (m : moment) (order : gmap string batch → list (string * batch)) (w : Watcher) : list delivery * Watcher :=
  let ready := ready_batches m w in
  apply_all m (order ready) (with_pending (filter (λ p, due w (now m) (snd p) = false) (w_pending w)) w).

(** What the watcher goes through: repositories added, events and ticks. *)
Inductive happening := Added (r : Repo) | Happened (ev : Event) | Ticked.
Definition handle (order : gmap string batch → list (string * batch)) (h : moment * happening) (w : Watcher)
    : list delivery * Watcher :=
  match snd h with
  | Added r => ([], snd (Add (fst h) r w))
  | Happened ev => ([], record (fst h) ev w)
  | Ticked => flush (fst h) order w
  end.
Fixpoint follow (order : gmap string batch → list (string * batch)) (hs : list (moment * happening)) (w : Watcher)
    : list delivery * Watcher :=
  match hs with
  | [] => ([], w)
  | h :: hs =>
      let '(ds, w) := handle order h w in
      let '(ds', w) := follow order hs w in
      (ds ++ ds', w)
  end.

End Watch.

Inductive budget_op := OpTake | OpRelease | OpReport.

(** What a [take] answered, and the count it read if it took a sample. *)
Record taken := { tk_granted : bool; tk_sample : option Z }.

Section Budget.
  Context (open : nat → Z).

Definition budget_step (op : budget_op) (b : budget) : option taken * budget :=
  match op with
  | OpTake =>
      let '(ok, b') := take_watch open b in
      (Some {| tk_granted := ok; tk_sample := if bg_samples b' =? bg_samples b then None else Some (open (bg_samples b)) |}, b')
  | OpRelease => (None, release_watch b)
  | OpReport => (None, snd (report_budget b))
  end.
Fixpoint budget_run (ops : list budget_op) (b : budget) : list taken * budget :=
  match ops with
  | [] => ([], b)
  | op :: ops =>
      let '(o, b) := budget_step op b in
      let '(l, b) := budget_run ops b in
      (option_list o ++ l, b)
  end.

Definition grants (l : list taken) : nat := length (filter (λ t, tk_granted t = true) l).
Definition unsampled (l : list taken) : Prop := Forall (λ t, tk_sample t = None) l.

Record budget_ok (b : budget) : Prop := {
  bk_cap : (0 < bg_hardMax b)%Z;
  bk_granted : (0 ≤ bg_granted b ≤ bg_hardMax b)%Z;
  bk_since : (0 ≤ bg_sinceCheck b ≤ checkEvery)%Z;
  bk_next : bg_exhausted b = false → (bg_sinceCheck b < checkEvery)%Z
}.

Lemma newBudget_ok soft hardMax : budget_ok (newBudget soft hardMax).
Proof. split; simpl; unfold defaultMaxWatchedDirs, checkEvery; try lia; destruct (Z.leb_spec hardMax 0); lia. Qed.

(** One step, and how many more grants the counter allows without a sample. *)
Lemma budget_step_ok op b o b' :
  budget_ok b → budget_step op b = (o, b') →
  budget_ok b' ∧ bg_hardMax b' = bg_hardMax b ∧ bg_ceiling b' = bg_ceiling b ∧
  match o with
  | None => True
  | Some t =>
      match tk_sample t with
      | None => op = OpTake ∧ (tk_granted t = true → (0 < bg_sinceCheck b)%Z ∧ bg_sinceCheck b' = (bg_sinceCheck b - 1)%Z ∧ bg_exhausted b = false ∧ bg_exhausted b' = false) ∧
                (tk_granted t = false → bg_sinceCheck b' = bg_sinceCheck b ∧ bg_exhausted b' = bg_exhausted b)
      | Some n => tk_granted t = true → ¬ (0 < n ∧ bg_ceiling b ≤ n)%Z
      end
  end.
Proof.
  intros [Hc Hg Hs Hn]. unfold budget_step. destruct op.
  - unfold take_watch.
    destruct ((0 <? bg_hardMax b) && (bg_hardMax b <=? bg_granted b))%Z eqn:E1; simpl.
    { rewrite Nat.eqb_refl. intros [= <- <-]. split_and!; [by split | done | done |]. by simpl. }
    apply andb_false_iff in E1. rewrite Z.ltb_ge, Z.leb_gt in E1.
    destruct (bg_exhausted b) eqn:E2; simpl.
    { rewrite Nat.eqb_refl. intros [= <- <-]. split_and!; [by split | done | done |]. by simpl. }
    destruct (Z.leb_spec (bg_sinceCheck b) 0).
    + assert ((Datatypes.S (bg_samples b) =? bg_samples b) = false) as E by (apply Nat.eqb_neq; lia).
      destruct ((0 <? open (bg_samples b)) && (bg_ceiling b <=? open (bg_samples b)))%Z eqn:E3; cbn [bg_samples refuse grant]; rewrite E; intros [= <- <-].
      * split_and!; [split; simpl; unfold checkEvery in *; (done || lia) | done | done | done].
      * split_and!; [split; simpl; unfold checkEvery in *; (done || lia) | done | done |]. simpl. intros _ [H1 H2].
        apply andb_false_iff in E3. rewrite Z.ltb_ge, Z.leb_gt in E3. lia.
    + simpl. rewrite Nat.eqb_refl. intros [= <- <-].
      split_and!; [split; simpl; unfold checkEvery in *; (lia || (intros _; specialize (Hn eq_refl); lia)) | done | done |].
      simpl. split_and!; [done | by intros _; split_and! | done].
  - intros [= <- <-]. split_and!; [|done|done|done].
    split; simpl; unfold checkEvery in *; destruct (Z.ltb_spec 0 (bg_granted b)); lia.
  - intros [= <- <-]. split_and!; [|done|done|done]. by split.
Qed.

(** Grants made without a sample are bounded by the counter they start from. *)
Lemma unsampled_grants ops b l b' :
  budget_ok b → budget_run ops b = (l, b') → unsampled l → Forall (λ op, op ≠ OpRelease) ops →
  (Z.of_nat (grants l) ≤ (if bg_exhausted b then 0 else bg_sinceCheck b))%Z.
Proof.
  revert b l. induction ops as [|op ops IH]; intros b l Hb; simpl; [intros [= <- <-] _ _; change (grants []) with 0; destruct Hb, (bg_exhausted b); lia |].
  destruct (budget_step op b) as [o b1] eqn:E1. destruct (budget_run ops b1) as [l1 b2] eqn:E2.
  intros [= <- <-] Hu [Hop Hops]%Forall_cons.
  destruct (budget_step_ok _ _ _ _ Hb E1) as (Hb1 & _ & _ & Ho).
  destruct o as [t|]; simpl in *.
  - apply Forall_cons in Hu as [Ht Hu]. rewrite Ht in Ho. destruct Ho as (-> & Hyes & Hno).
    specialize (IH _ _ Hb1 E2 Hu Hops). unfold grants in *. rewrite filter_cons.
    destruct (tk_granted t); simpl.
    + destruct Hyes as (H1 & H2 & H3 & H4); [done |]. rewrite H4, H2 in IH. rewrite H3. lia.
    + destruct Hno as [H1 H2]; [done |]. rewrite H1, H2 in IH. exact IH.
  - destruct op; [| done |].
    + unfold budget_step in E1. destruct (take_watch open b); discriminate.
    + injection E1 as <-. by apply (IH _ _ Hb1 E2 Hu Hops).
Qed.
End Budget.

(** Whole runs. *)
Lemma budget_run_ok open ops b l b' :
  budget_ok b → budget_run open ops b = (l, b') →
  budget_ok b' ∧ bg_hardMax b' = bg_hardMax b ∧ bg_ceiling b' = bg_ceiling b ∧
  Forall (λ t, tk_granted t = true → ∀ n, tk_sample t = Some n → (n ≤ 0 ∨ n < bg_ceiling b)%Z) l.
Proof.
  revert b l. induction ops as [|op ops IH]; intros b l Hb; simpl; [by intros [= <- <-] |].
  destruct (budget_step open op b) as [o b1] eqn:E1. destruct (budget_run open ops b1) as [l1 b2] eqn:E2.
  intros [= <- <-]. destruct (budget_step_ok _ _ _ _ _ Hb E1) as (Hb1 & Hh & Hc & Ho).
  destruct (IH _ _ Hb1 E2) as (Hb2 & Hh2 & Hc2 & Hl). rewrite Hc in Hl.
  split_and!; [done | congruence | congruence |].
  destruct o as [t|]; simpl; [| done]. constructor; [| done].
  intros Hg n Hn. rewrite Hn in Ho. specialize (Ho Hg). lia.
Qed.

(** C38: Whatever directories were taken and given back before, over any further
    takes, releases and reports the watches granted stay between zero and the cap
    the watcher was built with; a watch granted on a fresh count of descriptors was
    granted on one below the ceiling (or one that could not be read); and as long
    as nothing is released, at most 63 watches are granted between two counts. *)
Theorem budget_bounds open soft hardMax pre ops :
  let b := snd (budget_run open pre (newBudget soft hardMax)) in
  let '(l, b') := budget_run open ops b in
  bg_hardMax b' = (if hardMax <=? 0 then 8192 else hardMax)%Z ∧
  (0 ≤ bg_granted b' ≤ bg_hardMax b')%Z ∧
  Forall (λ t, tk_granted t = true →
    ∀ n, tk_sample t = Some n → (n ≤ 0 ∨ n < Z.max 64 (descriptorLimit soft - 8192))%Z) l ∧
  (unsampled l → Forall (λ op, op ≠ OpRelease) ops → grants l ≤ 63).
Proof.
  intros b. destruct (budget_run open pre (newBudget soft hardMax)) as [l0 b0] eqn:E0. subst b; simpl.
  destruct (budget_run_ok _ _ _ _ _ (newBudget_ok soft hardMax) E0) as (H0 & Hh0 & Hc0 & _).
  destruct (budget_run open ops b0) as [l b'] eqn:E1.
  destruct (budget_run_ok _ _ _ _ _ H0 E1) as (H1 & Hh1 & Hc1 & Hl).
  split; [by rewrite Hh1, Hh0 |]. split; [by destruct H1 |]. split; [by rewrite Hc0 in Hl |].
  intros Hu Hr. pose proof (unsampled_grants _ _ _ _ _ H0 E1 Hu Hr) as Hg.
  destruct H0 as [_ _ _ Hn]. destruct (bg_exhausted b0); [lia |]. specialize (Hn eq_refl).
  unfold checkEvery in Hn. lia.
Qed.
Lemma budget_bounds_witness :
  let '(l, _) := budget_run (λ _, 100%Z) (repeat OpTake 63) (snd (budget_run (λ _, 100%Z) [OpTake] (newBudget (Some 8500%Z) 0))) in
  unsampled l ∧ grants l = 63 ∧ grants l ≤ 63.
Proof.
  assert (Forall (λ op, op ≠ OpRelease) (repeat OpTake 63)) as Hr.
  { apply Forall_forall. intros op Hop%list_elem_of_In%repeat_spec. by subst. }
  pose proof (budget_bounds (λ _, 100%Z) (Some 8500%Z) 0 [OpTake] (repeat OpTake 63)) as H.
  destruct (budget_run _ (repeat OpTake 63) _) as [l b'] eqn:E; cbn zeta in H; rewrite E in H; destruct H as (_ & _ & _ & H).
  assert (unsampled l) as Hu by (vm_compute in E; injection E as <- _; by repeat constructor).
  split; [exact Hu |]. split; [by vm_compute in E; injection E as <- _ | exact (H Hu Hr)].
Defined.
