(* ===== verification/WatchFacts.v ===== *)
(** * The watcher loses no change

    What one tick does to every pending batch, and what that adds up to over a run:
    a file that was recorded is in a batch the indexer took, or it is still pending
    and will be offered within the delay. *)

From S2P Require Import Prelude GoStrings GoSort Domain Store Commits Paths Walk Watch.

Section Events.
  Context (valid_pattern : string → bool) (glob_match : string → string → option bool).
  Abbreviation record := (record valid_pattern glob_match).

(** ** Events *)

(** A recorded file that is still pending, in a batch begun no later than [t0]. *)
Definition waits (w : Watcher) (id rel : string) (t0 : Z) (after : option Z) : Prop :=
  ∃ b, w_pending w !! id = Some b ∧ rel ∈ bt_files b ∧ (bt_first b ≤ t0)%Z ∧ bt_after b = after.

Definition repos_of (w : Watcher) : list Repo := map t_repo (w_trees w).

(** What no event takes back. *)
Record grows (w w' : Watcher) : Prop := {
  gr_repos : repos_of w `prefix_of` repos_of w';
  gr_debounce : w_debounce w' = w_debounce w;
  gr_maxDelay : w_maxDelay w' = w_maxDelay w;
  gr_waits id rel t0 after : waits w id rel t0 after → waits w' id rel t0 after
}.

Lemma grows_refl w : grows w w.
Proof. by split. Qed.
Lemma grows_trans w1 w2 w3 : grows w1 w2 → grows w2 w3 → grows w1 w3.
Proof. intros [] []. split; [by etrans | congruence | congruence | auto]. Qed.

Lemma with_trees_grows ts b w : repos_of w `prefix_of` map t_repo ts → grows w (with_trees ts b w).
Proof. by split. Qed.

Lemma set_tree_grows i t0 t b w : w_trees w !! i = Some t0 → t_repo t = t_repo t0 → grows w (set_tree i t b w).
Proof.
  intros Hi E. apply with_trees_grows. unfold repos_of.
  rewrite (list_fmap_insert t_repo), E, <- (list_fmap_insert t_repo), list_insert_id by done. done.
Qed.

Lemma enqueueFile_grows m id w rel : grows w (enqueueFile m id w rel).
Proof.
  split; [done.. |]. intros id' rel' t0 after (b & Hb & Hrel & Hf & Ha). unfold waits. simpl.
  destruct (decide (id = id')) as [->|Hne]; [|exists b; by rewrite lookup_insert_ne].
  rewrite lookup_insert_eq. eexists. split; [done |]. unfold batchFor. rewrite Hb. simpl. set_solver.
Qed.
Lemma enqueueDir_grows m id w rel : grows w (enqueueDir m id w rel).
Proof.
  split; [done.. |]. intros id' rel' t0 after (b & Hb & Hrel & Hf & Ha). unfold waits. simpl.
  destruct (decide (id = id')) as [->|Hne]; [|exists b; by rewrite lookup_insert_ne].
  rewrite lookup_insert_eq. eexists. split; [done |]. unfold batchFor. by rewrite Hb.
Qed.
Lemma enqueueFiles_grows m id rels w : grows w (foldl (enqueueFile m id) w rels).
Proof.
  revert w. induction rels as [|rel rels IH]; intros w; simpl; [apply grows_refl |].
  eapply grows_trans; [apply enqueueFile_grows | apply IH].
Qed.

Lemma tree_fold_lookup path (ts : list tree) its best i t :
  foldl (tree_step path) best its = Some (i, t) →
  (∀ i t, best = Some (i, t) → ts !! i = Some t) → (∀ i t, (i, t) ∈ its → ts !! i = Some t) → ts !! i = Some t.
Proof.
  revert best. induction its as [|[j u] its IH]; intros best; simpl; [auto |].
  intros H Hb Hits. eapply IH; [exact H | | intros; apply Hits; by right].
  intros j' u'. unfold tree_step. simpl. destruct (within _ _); simpl; [|apply Hb].
  assert (ts !! j = Some u) as Hj by (apply Hits; by left).
  destruct best as [[k v]|]; [destruct (_ <? _); [|apply Hb] |]; by intros [= <- <-].
Qed.
Lemma treeFor_lookup w path i t : treeFor w path = Some (i, t) → w_trees w !! i = Some t.
Proof.
  intros H. eapply tree_fold_lookup; [exact H | done |].
  intros j u (k & v & [= -> ->] & Hk)%elem_of_lookup_imap. done.
Qed.

Lemma walkTree_repo m t dir collect b : t_repo (fst (fst (fst (walkTree valid_pattern glob_match m t dir collect b)))) = t_repo t.
Proof. unfold walkTree. by destruct (WalkDir _ _ _ _) as [e st]. Qed.

Lemma record_file_grows m i t path w t0 :
  w_trees w !! i = Some t0 → t_repo t = t_repo t0 → grows w (record_file valid_pattern glob_match m i t path w).
Proof.
  intros Hi E. unfold record_file. destruct (relIndexable _ _ _ _ _ _) as [[rel|] ig].
  - eapply grows_trans; [|apply enqueueFile_grows]. by eapply set_tree_grows.
  - by eapply set_tree_grows.
Qed.

Lemma set_tree_lookup i t0 t b w : w_trees w !! i = Some t0 → w_trees (set_tree i t b w) !! i = Some t.
Proof. intros H. simpl. apply list_lookup_insert_eq. by eapply lookup_lt_Some. Qed.

Lemma record_grows m ev w : grows w (record m ev w).
Proof.
  unfold Watch.record. destruct (_ && _); [apply grows_refl |].
  destruct (treeFor w (ev_Name ev)) as [[i t0]|] eqn:Et; [|apply grows_refl].
  apply treeFor_lookup in Et. set (t := if String.eqb (Base (ev_Name ev)) ".gitignore" then _ else t0).
  assert (t_repo t = t_repo t0) as E by (unfold t; by destruct (String.eqb _ _)).
  set (w1 := set_tree i t (w_budget w) w). assert (grows w w1) as G by by eapply set_tree_grows.
  assert (w_trees w1 !! i = Some t) as L by by eapply set_tree_lookup.
  eapply grows_trans; [exact G |]. clearbody w1. clear G.
  destruct (ev_Remove ev || ev_Rename ev).
  - destruct (bool_decide _); [|by eapply record_file_grows].
    assert (grows w1 (set_tree i (forgetDir t (ev_Name ev)) (w_budget w1) w1)) as G by by eapply set_tree_grows.
    destruct (Rel _ _); [|done]. eapply grows_trans; [exact G | apply enqueueDir_grows].
  - destruct (lstat m (ev_Name ev)) as [e|[size|err es]]; [by eapply record_file_grows.. |].
    destruct (if String.eqb (ev_Name ev) (r_Path (t_repo t)) then _ else _) as [ig [|]]; [by eapply set_tree_grows |].
    destruct (walkTree _ _ _ _ _ _ _) as [[[t' b] found] n] eqn:Ew.
    eapply grows_trans; [|apply enqueueFiles_grows].
    eapply set_tree_grows; [exact L |]. apply (f_equal (λ x, t_repo (fst (fst (fst x))))) in Ew.
    rewrite walkTree_repo in Ew. by simpl in Ew.
Qed.

Lemma Add_grows m r w : grows w (snd (Add valid_pattern glob_match m r w)).
Proof.
  unfold Add. destruct (String.eqb _ _); [apply grows_refl |].
  destruct (walkTree _ _ _ _ _ _ _) as [[[t b] found] n]. apply with_trees_grows. rewrite map_app. by eexists.
Qed.

(** An event about a file the tree's rules accept: it is pending from then on. *)
Lemma record_waits m ev w i t rel :
  ev_Create ev || ev_Write ev || ev_Remove ev || ev_Rename ev = true →
  treeFor w (ev_Name ev) = Some (i, t) → Base (ev_Name ev) ≠ ".gitignore" → ev_Name ev ∉ t_dirs t →
  (ev_Remove ev || ev_Rename ev = true ∨ ∀ err es, lstat m (ev_Name ev) ≠ inr (DirNode err es)) →
  fst (relIndexable valid_pattern glob_match m (r_Path (t_repo t)) (ev_Name ev) (t_ignore t)) = Some rel →
  let id := r_ID (t_repo t) in
  waits (record m ev w) id rel (default (now m) (bt_first <$> w_pending w !! id)) (w_pending w !! id ≫= bt_after).
Proof.
  intros Hop Ht Hg%String.eqb_neq Hd Hl Hrel id.
  assert (waits (record_file valid_pattern glob_match m i t (ev_Name ev) (set_tree i t (w_budget w) w)) id rel
            (default (now m) (bt_first <$> w_pending w !! id)) (w_pending w !! id ≫= bt_after)) as H.
  { unfold record_file. destruct (relIndexable _ _ _ _ _ _) as [o ig]. simpl in Hrel. subst o. fold id.
    eexists. simpl. rewrite lookup_insert_eq. split; [done |]. unfold batchFor. simpl.
    destruct (w_pending w !! id); simpl; split_and!; (done || set_solver || lia). }
  unfold Watch.record. rewrite Ht, Hg.
  destruct (negb (ev_Create ev) && _ && _ && _) eqn:E.
  { destruct (ev_Create ev), (ev_Write ev), (ev_Remove ev), (ev_Rename ev); done. }
  destruct (ev_Remove ev || ev_Rename ev).
  - by rewrite bool_decide_eq_false_2 by done.
  - destruct Hl as [Hl|Hl]; [done |]. destruct (lstat m (ev_Name ev)) as [e|[size|err es]]; [done.. |].
    by destruct (Hl err es).
Qed.
End Events.

Section WatchFacts.
  Context (valid_pattern : string → bool) (glob_match : string → string → option bool).
  Context (range_set : gset string → list string) (order : gmap string batch → list (string * batch)).
  (** Ranging over a set or a map visits every element once. *)
  Hypothesis range_set_all : ∀ s, range_set s ≡ₚ elements s.
  Hypothesis order_all : ∀ p, order p ≡ₚ map_to_list p.

  Abbreviation changeSet := (changeSet range_set).
  Abbreviation flush := (flush range_set).
  Abbreviation apply_all := (apply_all range_set).
  Abbreviation apply_batch := (apply_batch range_set).
  Abbreviation record := (record valid_pattern glob_match).
  Abbreviation handle := (handle valid_pattern glob_match range_set order).
  Abbreviation follow := (follow valid_pattern glob_match range_set order).

(** ** One tick *)

(** A batch that has to wait before it is offered again. *)
Definition put_off (m : moment) (b : batch) : batch :=
  {| bt_files := bt_files b; bt_dirs := bt_dirs b; bt_first := bt_first b; bt_last := bt_last b;
     bt_after := Some (now m + busyRetry)%Z |}.

(** What becomes of a batch that is due: what the indexer is offered, and what stays
    pending. *)
Definition offer (m : moment) (w : Watcher) (id : string) (b : batch) : option delivery * option batch :=
  match treeByID w id with
  | None => (None, None)
  | Some t =>
      match changeSet m t b with
      | [] => (None, None)
      | changes =>
          let res := ApplyLocalChanges m id changes in
          (Some {| dl_repo := id; dl_batch := b; dl_changes := changes; dl_result := res |},
           match res with RefusedBusy => Some (put_off m b) | _ => None end)
      end
  end.

(** What a tick does about one repository. *)
Definition outcome (m : moment) (w : Watcher) (id : string) : option delivery * option batch :=
  match w_pending w !! id with
  | None => (None, None)
  | Some b => if due w (now m) b then offer m w id b else (None, Some b)
  end.

Definition of_repo (id : string) (d : delivery) : bool := String.eqb (dl_repo d) id.
Definition deliveries (id : string) (ds : list delivery) : list delivery := filter (λ d, of_repo id d = true) ds.

(** Two watchers that follow the same trees in the same way. *)
Definition same_but_pending (w w' : Watcher) : Prop := w' = with_pending (w_pending w') w.

Lemma same_offer m w w' id b : same_but_pending w w' → offer m w' id b = offer m w id b.
Proof. intros ->. done. Qed.

Lemma same_refl w : same_but_pending w w.
Proof. by destruct w. Qed.
Lemma same_trans w1 w2 w3 : same_but_pending w1 w2 → same_but_pending w2 w3 → same_but_pending w1 w3.
Proof. unfold same_but_pending. intros -> ->. done. Qed.

Lemma apply_batch_spec m id b w :
  w_pending w !! id = None →
  let '(d, w') := apply_batch m id b w in
  d = fst (offer m w id b) ∧ same_but_pending w w' ∧
  w_pending w' = match snd (offer m w id b) with Some b' => <[id := b']> (w_pending w) | None => w_pending w end.
Proof.
  intros Hn. unfold Watch.apply_batch, offer. destruct (treeByID w id) as [t|]; [|split_and!; [done | apply same_refl | done]].
  destruct (changeSet m t b) as [|c cs]; [split_and!; [done | apply same_refl | done] |]. simpl.
  destruct (ApplyLocalChanges m id (c :: cs)); simpl; [split_and!; [done | apply same_refl | done] | | split_and!; [done | apply same_refl | done]].
  unfold requeue. by rewrite Hn.
Qed.

Lemma deliveries_app id ds1 ds2 : deliveries id (ds1 ++ ds2) = deliveries id ds1 ++ deliveries id ds2.
Proof. apply filter_app. Qed.

Lemma deliveries_offer m w id b id' :
  deliveries id' (option_list (fst (offer m w id b))) = if String.eqb id id' then option_list (fst (offer m w id b)) else [].
Proof.
  unfold offer. destruct (treeByID w id); simpl; [|by destruct (String.eqb id id')].
  destruct (changeSet _ _ _) as [|c cs]; simpl; [by destruct (String.eqb id id') |].
  unfold deliveries, of_repo. rewrite filter_cons. simpl. by destruct (String.eqb id id').
Qed.

Lemma apply_all_spec m ready w :
  NoDup (map fst ready) → (∀ id b, (id, b) ∈ ready → w_pending w !! id = None) →
  let '(ds, w') := apply_all m ready w in
  same_but_pending w w' ∧
  (∀ id b, (id, b) ∈ ready → deliveries id ds = option_list (fst (offer m w id b)) ∧ w_pending w' !! id = snd (offer m w id b)) ∧
  (∀ id, id ∉ map fst ready → deliveries id ds = [] ∧ w_pending w' !! id = w_pending w !! id).
Proof.
  revert w. induction ready as [|[id b] ready IH]; intros w Hnd Hn; simpl.
  { split_and!; [apply same_refl | by intros id b ?%elem_of_nil | done]. }
  apply NoDup_cons in Hnd as [Hid Hnd]. simpl in Hid.
  assert (w_pending w !! id = None) as H0 by (apply (Hn id b); by left).
  pose proof (apply_batch_spec m id b w H0) as H1.
  destruct (apply_batch m id b w) as [d w1]. destruct H1 as (Hd & Hs & Hp).
  assert (∀ id', id' ≠ id → w_pending w1 !! id' = w_pending w !! id') as Hother.
  { intros id' Hne. rewrite Hp. destruct (snd (offer m w id b)); [by rewrite lookup_insert_ne | done]. }
  assert (w_pending w1 !! id = snd (offer m w id b)) as Hself.
  { rewrite Hp. destruct (snd (offer m w id b)); [by rewrite lookup_insert_eq | done]. }
  assert (∀ id' b', (id', b') ∈ ready → id' ≠ id) as Hne.
  { intros id' b' Hin ->. apply Hid, list_elem_of_fmap. by exists (id, b'). }
  specialize (IH w1 Hnd). destruct (apply_all m ready w1) as [ds w2].
  destruct IH as (Hs2 & Hin2 & Hout2).
  { intros id' b' Hin. rewrite Hother by by eapply Hne. apply (Hn id' b'). by right. }
  split_and!; [by eapply same_trans | |].
  - intros id' b' [[= -> ->]|Hin]%elem_of_cons.
    + destruct (Hout2 id Hid) as [E1 E2]. rewrite deliveries_app, E1, E2, app_nil_r, Hd, deliveries_offer, String.eqb_refl.
      done.
    + destruct (Hin2 _ _ Hin) as [E1 E2]. rewrite deliveries_app, E1, E2, Hd, deliveries_offer, (same_offer _ _ _ _ _ Hs).
      pose proof (Hne _ _ Hin) as Hx. by rewrite (proj2 (String.eqb_neq id id')).
  - intros id' [Hx Hout]%not_elem_of_cons. destruct (Hout2 id' Hout) as [E1 E2].
    rewrite deliveries_app, E1, E2, Hother, Hd, deliveries_offer, (proj2 (String.eqb_neq id id')) by done. done.
Qed.

(** A tick settles every batch on its own. *)
Lemma flush_outcome m w id :
  let '(ds, w') := flush m order w in
  same_but_pending w w' ∧ deliveries id ds = option_list (fst (outcome m w id)) ∧ w_pending w' !! id = snd (outcome m w id).
Proof.
  unfold Watch.flush. set (ready := ready_batches m w).
  set (w0 := with_pending _ w).
  pose proof (order_all ready) as Hperm.
  assert (∀ id b, (id, b) ∈ order ready ↔ w_pending w !! id = Some b ∧ due w (now m) b = true) as Hready.
  { intros id' b. rewrite Hperm, elem_of_map_to_list. unfold ready, ready_batches. by rewrite map_lookup_filter_Some. }
  assert (NoDup (map fst (order ready))) as Hnd.
  { rewrite (Permutation_map fst Hperm). apply NoDup_fst_map_to_list. }
  pose proof (apply_all_spec m (order ready) w0 Hnd) as H.
  destruct (apply_all m (order ready) w0) as [ds w']. destruct H as (Hs & Hin & Hout).
  { intros id' b [H1 H2]%Hready. simpl. apply map_lookup_filter_None. right. intros b' H3. simpl. congruence. }
  assert (same_but_pending w w') as Hs' by (eapply same_trans; [|exact Hs]; by destruct w).
  split; [done |]. unfold outcome. destruct (w_pending w !! id) as [b|] eqn:Eb.
  - destruct (due w (now m) b) eqn:Ed.
    + apply (Hin id b). by apply Hready.
    + destruct (Hout id) as [E1 E2].
      { intros ([id' b'] & E & Hx)%list_elem_of_fmap. simpl in E. subst id'. apply Hready in Hx as [? ?]. congruence. }
      rewrite E1, E2. split; [done |]. simpl. apply map_lookup_filter_Some. done.
  - destruct (Hout id) as [E1 E2].
    { intros ([id' b'] & E & Hx)%list_elem_of_fmap. simpl in E. subst id'. apply Hready in Hx as [? ?]. congruence. }
    rewrite E1, E2. split; [done |]. simpl. apply map_lookup_filter_None. by left.
Qed.

(** ** Runs *)

Lemma treeByID_repos w id : t_repo <$> treeByID w id = List.find (λ r, String.eqb (r_ID r) id) (repos_of w).
Proof.
  unfold treeByID, repos_of. induction (w_trees w) as [|t ts IH]; simpl; [done |]. by destruct (String.eqb _ _).
Qed.
Lemma find_prefix {A} (f : A → bool) l1 l2 x : l1 `prefix_of` l2 → List.find f l1 = Some x → List.find f l2 = Some x.
Proof. intros [k ->]. induction l1 as [|y l1 IH]; simpl; [done |]. by destruct (f y). Qed.
Lemma grows_tree w w' id r : grows w w' → t_repo <$> treeByID w id = Some r → t_repo <$> treeByID w' id = Some r.
Proof. intros [Hp _ _ _]. rewrite !treeByID_repos. by apply find_prefix. Qed.

(** The indexer was offered, at [m], what the file is on disk then. *)
Definition offered (m : moment) (repoPath id rel : string) (d : delivery) : Prop :=
  dl_repo d = id ∧ file_change m repoPath rel ∈ dl_changes d ∧ dl_result d = ApplyLocalChanges m id (dl_changes d).

Lemma changeSet_file m t b rel : rel ∈ bt_files b → file_change m (r_Path (t_repo t)) rel ∈ changeSet m t b.
Proof.
  intros H. unfold Watch.changeSet. apply elem_of_app. right. apply list_elem_of_fmap. exists rel.
  split; [done |]. rewrite range_set_all. by apply elem_of_elements.
Qed.

Lemma deliveries_elem id ds d : d ∈ deliveries id ds → d ∈ ds.
Proof. intros [_ H]%list_elem_of_filter. done. Qed.

(** A tick offers a waiting file, or lets it wait. *)
Lemma flush_waits m w id rel t0 after r :
  t_repo <$> treeByID w id = Some r → waits w id rel t0 after →
  let '(ds, w') := flush m order w in
  (∃ d, d ∈ ds ∧ offered m (r_Path r) id rel d ∧
        (dl_result d ≠ RefusedBusy ∨ waits w' id rel t0 (Some (now m + busyRetry)%Z))) ∨
  (waits w' id rel t0 after ∧
   ¬ (t0 + w_maxDelay w ≤ now m ∧ match after with Some a => a ≤ now m | None => True end)%Z).
Proof.
  intros Hr (b & Hb & Hrel & Hf & Ha). pose proof (flush_outcome m w id) as H.
  destruct (flush m order w) as [ds w']. destruct H as (Hs & Hd & Hp).
  destruct (treeByID w id) as [t|] eqn:Et; [|done]. injection Hr as <-.
  unfold outcome in Hd, Hp. rewrite Hb in Hd, Hp.
  destruct (due w (now m) b) eqn:Edue.
  - left. unfold offer in Hd, Hp. rewrite Et in Hd, Hp. pose proof (changeSet_file m t b rel Hrel) as Hc.
    destruct (changeSet m t b) as [|c cs] eqn:Ec; [by apply elem_of_nil in Hc |]. simpl in Hd, Hp.
    eexists. split; [apply (deliveries_elem id); rewrite Hd; by left |]. split; [by split_and! |]. simpl.
    destruct (ApplyLocalChanges m id (c :: cs)); [by left | right; by eexists | by left].
  - right. split; [by exists b |]. intros [H1 H2]. unfold due in Edue. rewrite Ha in Edue.
    apply andb_false_iff in Edue as [E|E]; apply negb_false_iff in E.
    + destruct after; [apply Z.ltb_lt in E; lia | done].
    + apply andb_true_iff in E as [_ E%Z.ltb_lt]. lia.
Qed.

Lemma same_grows_repos w w' : same_but_pending w w' → repos_of w' = repos_of w ∧ w_maxDelay w' = w_maxDelay w ∧ w_debounce w' = w_debounce w.
Proof. by intros ->. Qed.

Lemma follow_waits hs w id rel t0 after r :
  t_repo <$> treeByID w id = Some r → waits w id rel t0 after →
  let '(ds, w') := follow hs w in
  (∃ m d, (m, Ticked) ∈ hs ∧ d ∈ ds ∧ offered m (r_Path r) id rel d ∧ dl_result d ≠ RefusedBusy) ∨
  (t_repo <$> treeByID w' id = Some r ∧ w_maxDelay w' = w_maxDelay w ∧
   ∃ after', waits w' id rel t0 after' ∧
     (after' = after ∨ ∃ m, (m, Ticked) ∈ hs ∧ after' = Some (now m + busyRetry)%Z)).
Proof.
  revert w after. induction hs as [|[m h] hs IH]; intros w after Hr Hw; simpl.
  { right. split_and!; [done | done | exists after; auto]. }
  assert (∀ ds1 w1, handle (m, h) w = (ds1, w1) →
    (∃ d, h = Ticked ∧ d ∈ ds1 ∧ offered m (r_Path r) id rel d ∧ dl_result d ≠ RefusedBusy) ∨
    (t_repo <$> treeByID w1 id = Some r ∧ w_maxDelay w1 = w_maxDelay w ∧
     ∃ after', waits w1 id rel t0 after' ∧ (after' = after ∨ h = Ticked ∧ after' = Some (now m + busyRetry)%Z))) as Hstep.
  { intros ds1 w1. unfold Watch.handle. simpl. destruct h as [r'|ev|].
    - intros [= <- <-]. right. pose proof (Add_grows valid_pattern glob_match m r' w) as G.
      split_and!; [by eapply grows_tree | by destruct G | exists after; split; [by apply G | by left]].
    - intros [= <- <-]. right. pose proof (record_grows valid_pattern glob_match m ev w) as G.
      split_and!; [by eapply grows_tree | by destruct G | exists after; split; [by apply G | by left]].
    - intros E. pose proof (flush_waits m w id rel t0 after r Hr Hw) as H.
      pose proof (flush_outcome m w id) as Hs. rewrite E in H, Hs. destruct Hs as (Hs & _ & _).
      apply same_grows_repos in Hs as (Hs1 & Hs2 & _).
      assert (t_repo <$> treeByID w1 id = Some r) as Hr1 by (rewrite treeByID_repos, Hs1, <- treeByID_repos; done).
      destruct H as [(d & Hd & Ho & [Hb|Hb])|[H _]]; [by left; exists d | |]; right.
      + split_and!; [done | done |]. eexists. split; [exact Hb |]. by right.
      + split_and!; [done | done |]. exists after. split; [done |]. by left. }
  destruct (handle (m, h) w) as [ds1 w1]. specialize (Hstep _ _ eq_refl).
  destruct Hstep as [(d & -> & Hd & Ho & Hb)|(Hr1 & Hm1 & after1 & Hw1 & Ha1)].
  - destruct (follow hs w1) as [ds2 w2]. left. exists m, d. split_and!; [by left | apply elem_of_app; by left | done | done].
  - specialize (IH w1 after1 Hr1 Hw1). destruct (follow hs w1) as [ds2 w2].
    destruct IH as [(m2 & d & Hin & Hd & Ho)|(Hr2 & Hm2 & after2 & Hw2 & Ha2)].
    + left. exists m2, d. split_and!; [by right | apply elem_of_app; by right | by destruct Ho | by destruct Ho].
    + right. split_and!; [done | congruence |]. exists after2. split; [done |].
      destruct Ha2 as [->|(m2 & Hin & ->)]; [|right; exists m2; split; [by right | done]].
      destruct Ha1 as [->|[-> ->]]; [by left |]. right. exists m. split; [by left | done].
Qed.
End WatchFacts.

(** ** Properties *)

(** C5: No change is lost.  Once an event is recorded about a file that the rules
    of its repository accept, then after any further events, additions and ticks
    either the indexer has been told, at some tick, what the file was on disk then
    and did not answer that it was busy; or the file is still pending, and a tick
    that comes the longest delay after the first change of the batch, and not within
    the retry pause of a busy indexer, tells it. *)
Theorem no_change_lost valid_pattern glob_match range_set order m ev w i t rel hs :
  (∀ s, range_set s ≡ₚ elements s) → (∀ p, order p ≡ₚ map_to_list p) →
  ev_Create ev || ev_Write ev || ev_Remove ev || ev_Rename ev = true →
  treeFor w (ev_Name ev) = Some (i, t) → Base (ev_Name ev) ≠ ".gitignore" → ev_Name ev ∉ t_dirs t →
  (ev_Remove ev || ev_Rename ev = true ∨ ∀ err es, lstat m (ev_Name ev) ≠ inr (DirNode err es)) →
  fst (relIndexable valid_pattern glob_match m (r_Path (t_repo t)) (ev_Name ev) (t_ignore t)) = Some rel →
  let id := r_ID (t_repo t) in
  t_repo <$> treeByID w id = Some (t_repo t) →
  let first := default (now m) (bt_first <$> w_pending w !! id) in
  let '(ds, w') := follow valid_pattern glob_match range_set order ((m, Happened ev) :: hs) w in
  (∃ m' d, (m', Ticked) ∈ hs ∧ d ∈ ds ∧ offered m' (r_Path (t_repo t)) id rel d ∧ dl_result d ≠ RefusedBusy) ∨
  (∃ after, (after = w_pending w !! id ≫= bt_after ∨ ∃ m', (m', Ticked) ∈ hs ∧ after = Some (now m' + busyRetry)%Z) ∧
    ∀ m', (first + w_maxDelay w ≤ now m' ∧ match after with Some a => a ≤ now m' | None => True end)%Z →
      ∃ d, d ∈ fst (flush range_set m' order w') ∧ offered m' (r_Path (t_repo t)) id rel d).
Proof.
  intros Hs Ho Hop Ht Hg Hd Hl Hrel id Hid first. simpl.
  pose proof (record_waits valid_pattern glob_match m ev w i t rel Hop Ht Hg Hd Hl Hrel) as Hw.
  pose proof (record_grows valid_pattern glob_match m ev w) as G.
  set (w0 := record valid_pattern glob_match m ev w) in *.
  pose proof (grows_tree _ _ _ _ G Hid) as Hid0.
  pose proof (follow_waits valid_pattern glob_match range_set order Hs Ho hs w0 id rel _ _ _ Hid0 Hw) as H.
  destruct (follow _ _ _ _ hs w0) as [ds w']. destruct H as [(m' & d & H)|(Hid' & Hm & after & Hw' & Ha)].
  - left. by exists m', d.
  - right. exists after. split; [done |]. intros m' Hdue.
    pose proof (flush_waits range_set order Hs Ho m' w' id rel _ _ _ Hid' Hw') as H.
    destruct (flush range_set m' order w') as [ds' w'']. destruct H as [(d & Hd' & Hof & _)|[_ H]]; [by exists d |].
    destruct H. destruct G as [_ _ Gm _]. rewrite Hm, Gm. exact Hdue.
Qed.

(** A tick settles every repository on its own.  Whatever the order in which
    the batches are handed over, for each repository: a batch that is not due stays
    as it is and is not offered; one that is due is offered with its change set,
    once, and is gone — or, when the indexer is busy, pending again with the same
    files, directories and times, put off by the pause; and one whose repository is
    not followed or that amounts to nothing is dropped. *)
Theorem flush_settles range_set order m w id :
  (∀ p, order p ≡ₚ map_to_list p) →
  let '(ds, w') := flush range_set m order w in
  w_trees w' = w_trees w ∧ w_budget w' = w_budget w ∧
  deliveries id ds = option_list (fst (outcome range_set m w id)) ∧
  w_pending w' !! id = snd (outcome range_set m w id).
Proof.
  intros Ho. pose proof (flush_outcome range_set order Ho m w id) as H.
  destruct (flush range_set m order w) as [ds w']. destruct H as (-> & H1 & H2). done.
Qed.

(** A run: a save in a followed repository, a busy indexer, a second save. *)
Module Demo.
Definition repo : Repo :=
  {| r_ID := "r1"; r_Name := "app"; r_Source := ""; r_URL := ""; r_Path := "/src/app"; r_Branch := ""; r_IndexedAt := 0;
     r_Status := ""; r_CreatedAt := 0; r_LastError := ""; r_LastCommit := ""; r_PendingCommit := ""; r_Active := true |}.
Definition tree0 : node := DirNode None [("main.go", FileNode (inr 10%Z))].
Definition at_ (t : Z) (busy : bool) : moment :=
  {| now := t; readFile := λ _, None; isDir := λ _, None; lsFiles := λ _, None;
     lstat := λ p, if String.eqb p "/src/app" then inr tree0 else if String.eqb p "/src/app/main.go" then inr (FileNode (inr 10%Z)) else inl "no such file";
     watchable := λ _, true; openFDs := λ _, 0%Z; useGitignore := false; IgnorePatternsFor := λ _, [];
     IndexedPathsUnder := λ _ _, inr []; ApplyLocalChanges := λ _ _, if busy then RefusedBusy else Applied |}.
Definition any (s : string) : bool := true.
Definition glob (p s : string) : option bool := Some (String.eqb p s).
Definition save : Event := {| ev_Name := "/src/app/main.go"; ev_Create := false; ev_Write := true; ev_Remove := false; ev_Rename := false |}.
Definition w0 : Watcher := snd (Add any glob (at_ 0 false) repo (NewWatcher None 0 0 0)).
Definition later : list (moment * happening) := [(at_ 500000000 true, Ticked); (at_ 900000000 false, Ticked)].
End Demo.
Lemma no_change_lost_witness :
  ∃ i t, treeFor Demo.w0 "/src/app/main.go" = Some (i, t) ∧
  let '(ds, w') := follow Demo.any Demo.glob elements map_to_list ((Demo.at_ 0 false, Happened Demo.save) :: Demo.later) Demo.w0 in
  map dl_result ds = [RefusedBusy] ∧
  ((∃ m' d, (m', Ticked) ∈ Demo.later ∧ d ∈ ds ∧ offered m' "/src/app" "r1" "main.go" d ∧ dl_result d ≠ RefusedBusy) ∨
   (∃ after, (after = None ∨ ∃ m', (m', Ticked) ∈ Demo.later ∧ after = Some (now m' + busyRetry)%Z) ∧
    ∀ m', (0 + w_maxDelay Demo.w0 ≤ now m' ∧ match after with Some a => a ≤ now m' | None => True end)%Z →
      ∃ d, d ∈ fst (flush elements m' map_to_list w') ∧ offered m' "/src/app" "r1" "main.go" d)).
Proof.
  eexists _, _. split; [vm_compute; reflexivity |].
  pose proof (no_change_lost Demo.any Demo.glob elements map_to_list (Demo.at_ 0 false) Demo.save Demo.w0 0
    (default {| t_repo := Demo.repo; t_ignore := NewIgnorePatterns [] false; t_dirs := ∅ |} (w_trees Demo.w0 !! 0)) "main.go" Demo.later
    (λ s, reflexivity _) (λ p, reflexivity _) eq_refl) as H.
  assert (∀ ds w', follow Demo.any Demo.glob elements map_to_list ((Demo.at_ 0 false, Happened Demo.save) :: Demo.later) Demo.w0 = (ds, w') →
    map dl_result ds = [RefusedBusy]) as E.
  { intros ds w' E. apply (f_equal (λ x, map dl_result (fst x))) in E. simpl in E. rewrite <- E. vm_compute. reflexivity. }
  destruct (follow _ _ _ _ _ _) as [ds w']. split; [by eapply E |]. apply H.
  - vm_compute. reflexivity.
  - vm_compute. discriminate.
  - apply (bool_decide_unpack (_ ∉ _)). vm_compute. exact I.
  - right. vm_compute. discriminate.
  - vm_compute. reflexivity.
  - vm_compute. reflexivity.
Defined.
Lemma flush_settles_witness :
  let w := snd (handle Demo.any Demo.glob elements map_to_list (Demo.at_ 0 false, Happened Demo.save) Demo.w0) in
  let '(ds, w') := flush elements (Demo.at_ 500000000 true) map_to_list w in
  bt_after <$> w_pending w' !! "r1" = Some (Some 2500000000%Z) ∧ deliveries "r1" ds = option_list (fst (outcome elements (Demo.at_ 500000000 true) w "r1")).
Proof.
  intros w. pose proof (flush_settles elements map_to_list (Demo.at_ 500000000 true) w "r1" (λ p, reflexivity _)) as H.
  destruct (flush elements (Demo.at_ 500000000 true) map_to_list w) as [ds w']. destruct H as (_ & _ & H1 & H2).
  split; [rewrite H2; vm_compute; reflexivity | exact H1].
Defined.

(** ** A watch that is not given back *)

(** No event about a removed path gives anything back to the budget. *)
Lemma removal_keeps_budget valid_pattern glob_match m ev w :
  ev_Remove ev || ev_Rename ev = true → w_budget (record valid_pattern glob_match m ev w) = w_budget w.
Proof.
  intros H. unfold record. destruct (_ && _ && _ && _); [done |].
  destruct (treeFor w (ev_Name ev)) as [[i t]|]; [|done]. rewrite H.
  destruct (bool_decide _).
  - by destruct (Rel _ _).
  - unfold record_file. by destruct (relIndexable _ _ _ _ _ _) as [[rel|] ig].
Qed.

(** A directory that is removed and comes back, under a cap of two directories: only
    one is watched by then, but the second is refused, so its file is not recorded
    — and the removal, recorded before, deletes from the index the file that is
    there. *)
Module Recreated.
Definition lib : node := DirNode None [("a.go", FileNode (inr 10%Z))].
Definition at_ (t : Z) (there : bool) : moment :=
  {| now := t; readFile := λ _, None; isDir := λ _, None; lsFiles := λ _, None;
     lstat := λ p,
       if String.eqb p "/src/app" then inr (DirNode None (if there then [("lib", lib)] else []))
       else if String.eqb p "/src/app/lib" && there then inr lib
       else if String.eqb p "/src/app/lib/a.go" && there then inr (FileNode (inr 10%Z)) else inl "no such file";
     watchable := λ _, true; openFDs := λ _, 0%Z; useGitignore := false; IgnorePatternsFor := λ _, [];
     IndexedPathsUnder := λ _ dir, inr (if String.eqb dir "lib" then ["lib/a.go"] else []); ApplyLocalChanges := λ _ _, Applied |}.
Definition event (create remove : bool) : Event :=
  {| ev_Name := "/src/app/lib"; ev_Create := create; ev_Write := false; ev_Remove := remove; ev_Rename := false |}.
Definition w0 : Watcher := snd (Add Demo.any Demo.glob (at_ 0 true) Demo.repo (NewWatcher None 0 0 2)).
Definition run : list (moment * happening) :=
  [(at_ 100000000 false, Happened (event false true)); (at_ 200000000 true, Happened (event true false)); (at_ 900000000 true, Ticked)].
End Recreated.
Lemma recreated_directory_deleted :
  let '(ds, w') := follow Demo.any Demo.glob elements map_to_list Recreated.run Recreated.w0 in
  map (λ t, elements (t_dirs t)) (w_trees w') = [["/src/app"]] ∧ bg_granted (w_budget w') = 2%Z ∧ bg_skipped (w_budget w') = 1%Z ∧
  map dl_changes ds = [[deleted_path "lib/a.go"]].
Proof. vm_compute. done. Qed.
