(* ===== verification/Progress.v ===== *)
(** * The progress of a run ([internal/server/progress/progress.go])

    What an interactive front end reads: a bus that collects the state of every
    repository, counters and a bounded log, and hands them out as snapshots.  A
    method of the bus is a function on its state, made under its lock; the clock is
    an argument of the methods that read it.  A nil [*Bus] is [None].

    A snapshot is a view of the whole history of publications: the log is its last
    entries, the table has one state per repository ever mentioned, the one its own
    publications leave it in.  And no change is slept through: a subscriber that
    has not read since a change has a wakeup waiting, or one is on its way. *)

From S2P Require Import Prelude GoStrings GoSort.
From Stdlib Require Import Strings.Ascii.
From stdpp Require Import pretty.
From Stdlib Require Import Sorting.Permutation.

(** ** Data *)

Definition DefaultLogCapacity : nat := 512.

Inductive Phase := PhaseQueued | PhaseIndexing | PhaseIdle | PhaseError.
#[export] Instance Phase_eq_dec : EqDecision Phase.
Proof. solve_decision. Defined.

(** The levels of [log/slog]. *)
Definition LevelInfo : Z := 0.
Definition LevelWarn : Z := 4.
Definition LevelError : Z := 8.

(** A [time.Time]; [None] is the zero value. *)
Abbreviation time := (option Z).

Record RepoState := {
  rs_ID : string;
  rs_Name : string;
  rs_Path : string;
  rs_Phase : Phase;
  rs_Watched : bool;
  rs_Files : Z;
  rs_Total : Z;
  rs_Indexed : Z;
  rs_Failed : Z;
  rs_StartedAt : time;
  rs_FinishedAt : time;
  rs_Err : string
}.

Record Entry := { le_At : time; le_Level : Z; le_Msg : string; le_RepoID : string }.
#[export] Instance Entry_eq_dec : EqDecision Entry.
Proof. solve_decision. Defined.

Record Metrics := {
  m_Repos : Z;
  m_Passes : Z;
  m_FilesIndexed : Z;
  m_WatchBatches : Z;
  m_WatchChanged : Z;
  m_WatchDeleted : Z;
  m_Warnings : Z;
  m_Errors : Z
}.

Record Snapshot := {
  sn_StartedAt : time;
  sn_Repos : list RepoState;
  sn_Dormant : Z;
  sn_Log : list Entry;
  sn_Metrics : Metrics
}.

(** The slice [log] is as long as its capacity; [subs] holds the ids of the live
    subscriptions, each of which has a channel of its own. *)
Record Bus := {
  b_startedAt : time;
  b_repos : gmap string RepoState;
  b_order : list string;
  b_dormant : Z;
  b_log : list Entry;
  b_logNext : nat;
  b_logLen : nat;
  b_metrics : Metrics;
  b_subs : gset nat;
  b_nextSub : nat
}.

Definition no_entry : Entry := {| le_At := None; le_Level := 0; le_Msg := ""; le_RepoID := "" |}.
Definition no_metrics : Metrics := {|
  m_Repos := 0; m_Passes := 0; m_FilesIndexed := 0; m_WatchBatches := 0; m_WatchChanged := 0; m_WatchDeleted := 0;
  m_Warnings := 0; m_Errors := 0 |}.

(** [NewBus] *)
Definition NewBus (logCapacity : Z) (now : Z) : Bus := {|
  b_startedAt := Some now; b_repos := ∅; b_order := []; b_dormant := 0;
  b_log := replicate (if (logCapacity <=? 0)%Z then DefaultLogCapacity else Z.to_nat logCapacity) no_entry;
  b_logNext := 0; b_logLen := 0; b_metrics := no_metrics; b_subs := ∅; b_nextSub := 0 |}.

(** ** Under the lock *)

Definition set_repos (repos : gmap string RepoState) (order : list string) (b : Bus) : Bus := {|
  b_startedAt := b_startedAt b; b_repos := repos; b_order := order; b_dormant := b_dormant b; b_log := b_log b;
  b_logNext := b_logNext b; b_logLen := b_logLen b; b_metrics := b_metrics b; b_subs := b_subs b; b_nextSub := b_nextSub b |}.
Definition set_metrics (m : Metrics) (b : Bus) : Bus := {|
  b_startedAt := b_startedAt b; b_repos := b_repos b; b_order := b_order b; b_dormant := b_dormant b; b_log := b_log b;
  b_logNext := b_logNext b; b_logLen := b_logLen b; b_metrics := m; b_subs := b_subs b; b_nextSub := b_nextSub b |}.
Definition set_subs (subs : gset nat) (next : nat) (b : Bus) : Bus := {|
  b_startedAt := b_startedAt b; b_repos := b_repos b; b_order := b_order b; b_dormant := b_dormant b; b_log := b_log b;
  b_logNext := b_logNext b; b_logLen := b_logLen b; b_metrics := b_metrics b; b_subs := subs; b_nextSub := next |}.

Definition plus_metrics (passes files batches changed deleted warnings errors : Z) (m : Metrics) : Metrics := {|
  m_Repos := m_Repos m; m_Passes := m_Passes m + passes; m_FilesIndexed := m_FilesIndexed m + files;
  m_WatchBatches := m_WatchBatches m + batches; m_WatchChanged := m_WatchChanged m + changed;
  m_WatchDeleted := m_WatchDeleted m + deleted; m_Warnings := m_Warnings m + warnings; m_Errors := m_Errors m + errors |}.

(** [state]: the entry of a repository, made on first mention. *)
Definition new_state (id : string) : RepoState := {|
  rs_ID := id; rs_Name := id; rs_Path := ""; rs_Phase := PhaseIdle; rs_Watched := false; rs_Files := 0; rs_Total := 0;
  rs_Indexed := 0; rs_Failed := 0; rs_StartedAt := None; rs_FinishedAt := None; rs_Err := "" |}.
Definition state (id : string) (b : Bus) : RepoState * Bus :=
  match b_repos b !! id with
  | Some st => (st, b)
  | None => (new_state id, set_repos (<[id := new_state id]> (b_repos b)) (b_order b ++ [id]) b)
  end.

(** The entry is a pointer into the map: what is written to it is in the table. *)
Definition write_state (id : string) (f : RepoState → RepoState) (b : Bus) : RepoState * Bus :=
  let '(st, b) := state id b in
  (f st, set_repos (<[id := f st]> (b_repos b)) (b_order b) b).

(** [appendLog] *)
Definition count_entry (e : Entry) (m : Metrics) : Metrics :=
  if (LevelError <=? le_Level e)%Z then plus_metrics 0 0 0 0 0 0 1 m
  else if (LevelWarn <=? le_Level e)%Z then plus_metrics 0 0 0 0 0 1 0 m
  else m.
Definition appendLog (e : Entry) (b : Bus) : Bus := {|
  b_startedAt := b_startedAt b; b_repos := b_repos b; b_order := b_order b; b_dormant := b_dormant b;
  b_log := <[b_logNext b := e]> (b_log b);
  b_logNext := (b_logNext b + 1) mod length (b_log b);
  b_logLen := if b_logLen b <? length (b_log b) then b_logLen b + 1 else b_logLen b;
  b_metrics := count_entry e (b_metrics b); b_subs := b_subs b; b_nextSub := b_nextSub b |}.

(** ** What is published: the locked part of each method *)

(** [RepoRegistered] *)
Definition named (name path : string) (st : RepoState) : RepoState := {|
  rs_ID := rs_ID st; rs_Name := name; rs_Path := path; rs_Phase := rs_Phase st; rs_Watched := rs_Watched st;
  rs_Files := rs_Files st; rs_Total := rs_Total st; rs_Indexed := rs_Indexed st; rs_Failed := rs_Failed st;
  rs_StartedAt := rs_StartedAt st; rs_FinishedAt := rs_FinishedAt st; rs_Err := rs_Err st |}.
Definition RepoRegistered (id name path : string) (b : Bus) : Bus := snd (write_state id (named name path) b).

(** [ReposDormant] *)
Definition ReposDormant (n : Z) (b : Bus) : Bus := {|
  b_startedAt := b_startedAt b; b_repos := b_repos b; b_order := b_order b; b_dormant := n; b_log := b_log b;
  b_logNext := b_logNext b; b_logLen := b_logLen b; b_metrics := b_metrics b; b_subs := b_subs b; b_nextSub := b_nextSub b |}.

(** [IndexQueued] *)
Definition in_phase (p : Phase) (err : string) (finished : time) (st : RepoState) : RepoState := {|
  rs_ID := rs_ID st; rs_Name := rs_Name st; rs_Path := rs_Path st; rs_Phase := p; rs_Watched := rs_Watched st;
  rs_Files := rs_Files st; rs_Total := rs_Total st; rs_Indexed := rs_Indexed st; rs_Failed := rs_Failed st;
  rs_StartedAt := rs_StartedAt st; rs_FinishedAt := finished; rs_Err := err |}.
Definition queued (st : RepoState) : RepoState := in_phase PhaseQueued (rs_Err st) (rs_FinishedAt st) st.
Definition IndexQueued (id : string) (b : Bus) : Bus := snd (write_state id queued b).

(** [IndexStarted]; the clock is read for the state and for the log. *)
Definition started (total now : Z) (st : RepoState) : RepoState := {|
  rs_ID := rs_ID st; rs_Name := rs_Name st; rs_Path := rs_Path st; rs_Phase := PhaseIndexing; rs_Watched := rs_Watched st;
  rs_Files := 0; rs_Total := total; rs_Indexed := rs_Indexed st; rs_Failed := rs_Failed st;
  rs_StartedAt := Some now; rs_FinishedAt := None; rs_Err := "" |}.
Definition IndexStarted (id : string) (total now logged : Z) (b : Bus) : Bus :=
  let '(st, b) := write_state id (started total now) b in
  appendLog {| le_At := Some logged; le_Level := LevelInfo; le_Msg := "indexing " +:+ rs_Name st; le_RepoID := id |} b.

(** [IndexProgress] *)
Definition progressed (files total : Z) (st : RepoState) : RepoState := {|
  rs_ID := rs_ID st; rs_Name := rs_Name st; rs_Path := rs_Path st; rs_Phase := rs_Phase st; rs_Watched := rs_Watched st;
  rs_Files := files; rs_Total := if (0 <? total)%Z then total else rs_Total st;
  rs_Indexed := rs_Indexed st; rs_Failed := rs_Failed st;
  rs_StartedAt := rs_StartedAt st; rs_FinishedAt := rs_FinishedAt st; rs_Err := rs_Err st |}.
Definition IndexProgress (id : string) (files total : Z) (b : Bus) : Bus := snd (write_state id (progressed files total) b).

(** [IndexFinished] *)
Definition finished (indexed failed : Z) (err : option string) (now : Z) (st : RepoState) : RepoState :=
  let total := if (rs_Total st =? 0)%Z then (indexed + failed)%Z else rs_Total st in {|
  rs_ID := rs_ID st; rs_Name := rs_Name st; rs_Path := rs_Path st;
  rs_Phase := match err with Some _ => PhaseError | None => PhaseIdle end; rs_Watched := rs_Watched st;
  rs_Files := total; rs_Total := total; rs_Indexed := indexed; rs_Failed := failed;
  rs_StartedAt := rs_StartedAt st; rs_FinishedAt := Some now; rs_Err := default "" err |}.
Definition IndexFinished (id : string) (indexed failed : Z) (err : option string) (now : Z) (b : Bus) : Bus :=
  let '(st, b) := write_state id (finished indexed failed err now) b in
  let b := set_metrics (plus_metrics 1 indexed 0 0 0 0 0 (b_metrics b)) b in
  appendLog {| le_At := Some now; le_RepoID := id;
               le_Level := match err with Some _ => LevelError | None => LevelInfo end;
               le_Msg := match err with Some e => "index failed: " +:+ e | None => "indexed " +:+ rs_Name st end |} b.

(** [Watching] *)
Definition watching (on : bool) (st : RepoState) : RepoState := {|
  rs_ID := rs_ID st; rs_Name := rs_Name st; rs_Path := rs_Path st; rs_Phase := rs_Phase st; rs_Watched := on;
  rs_Files := rs_Files st; rs_Total := rs_Total st; rs_Indexed := rs_Indexed st; rs_Failed := rs_Failed st;
  rs_StartedAt := rs_StartedAt st; rs_FinishedAt := rs_FinishedAt st; rs_Err := rs_Err st |}.
Definition Watching (id : string) (on : bool) (b : Bus) : Bus := snd (write_state id (watching on) b).

(** [itoa]: digits from the last, into a buffer of 20 bytes. *)
Definition digit_byte (d : Z) : ascii := ascii_of_nat (48 + Z.to_nat d).
Fixpoint itoa_digits (room : nat) (n : Z) (acc : string) : string :=
  match room with
  | O => acc
  | S room => if (0 <? n)%Z then itoa_digits room (n / 10) (String (digit_byte (n mod 10)) acc) else acc
  end.
Definition itoa (n : Z) : string := if (n =? 0)%Z then "0" else itoa_digits 20 n "".

Definition watchMsg (name : string) (changed deleted : Z) : string :=
  "watch " +:+ name +:+ ": " +:+ itoa changed +:+ " changed, " +:+ itoa deleted +:+ " deleted".

(** [WatchApplied] *)
Definition applied (err : option string) (now : Z) (st : RepoState) : RepoState :=
  match err with
  | Some e => in_phase PhaseError e (rs_FinishedAt st) st
  | None => in_phase PhaseIdle "" (Some now) st
  end.
Definition WatchApplied (id : string) (changed deleted : Z) (err : option string) (now : Z) (b : Bus) : Bus :=
  let '(st, b) := write_state id (applied err now) b in
  let b := set_metrics (plus_metrics 0 0 1 changed deleted 0 0 (b_metrics b)) b in
  appendLog {| le_At := Some now; le_RepoID := id;
               le_Level := match err with Some _ => LevelError | None => LevelInfo end;
               le_Msg := match err with Some e => "watch: " +:+ e | None => watchMsg (rs_Name st) changed deleted end |} b.

(** [Log] *)
Definition Log (level : Z) (repoID msg : string) (now : Z) (b : Bus) : Bus :=
  appendLog {| le_At := Some now; le_Level := level; le_Msg := msg; le_RepoID := repoID |} b.

(** ** What is read *)

(** [Snapshot] *)
Definition log_entries (b : Bus) : list Entry :=
  let start := (b_logNext b + length (b_log b) - b_logLen b) mod length (b_log b) in
  map (λ i, default no_entry (b_log b !! ((start + i) mod length (b_log b)))) (seq 0 (b_logLen b)).
Definition Bus_Snapshot (bus : option Bus) : Snapshot :=
  match bus with
  | None => {| sn_StartedAt := None; sn_Repos := []; sn_Dormant := 0; sn_Log := []; sn_Metrics := no_metrics |}
  | Some b => {|
      sn_StartedAt := b_startedAt b;
      sn_Repos := SliceSort (order_by String.ltb rs_Name) (omap (λ id, b_repos b !! id) (b_order b));
      sn_Dormant := b_dormant b;
      sn_Log := log_entries b;
      sn_Metrics := let m := b_metrics b in {|
        m_Repos := Z.of_nat (size (b_repos b)); m_Passes := m_Passes m; m_FilesIndexed := m_FilesIndexed m;
        m_WatchBatches := m_WatchBatches m; m_WatchChanged := m_WatchChanged m; m_WatchDeleted := m_WatchDeleted m;
        m_Warnings := m_Warnings m; m_Errors := m_Errors m |} |}
  end.

(** ** A run of publishers *)

Inductive publish :=
  | PubRegistered (id name path : string)
  | PubDormant (n : Z)
  | PubQueued (id : string)
  | PubStarted (id : string) (total now logged : Z)
  | PubProgress (id : string) (files total : Z)
  | PubFinished (id : string) (indexed failed : Z) (err : option string) (now : Z)
  | PubWatching (id : string) (on : bool)
  | PubApplied (id : string) (changed deleted : Z) (err : option string) (now : Z)
  | PubLog (level : Z) (repoID msg : string) (now : Z).

Definition perform (p : publish) : Bus → Bus :=
  match p with
  | PubRegistered id name path => RepoRegistered id name path
  | PubDormant n => ReposDormant n
  | PubQueued id => IndexQueued id
  | PubStarted id total now logged => IndexStarted id total now logged
  | PubProgress id files total => IndexProgress id files total
  | PubFinished id indexed failed err now => IndexFinished id indexed failed err now
  | PubWatching id on => Watching id on
  | PubApplied id changed deleted err now => WatchApplied id changed deleted err now
  | PubLog level repoID msg now => Log level repoID msg now
  end.

(** ** Waking subscribers

    A publisher changes the surface under the lock, then copies the channels of the
    live subscriptions under the lock again, then sends to them without it; a
    subscription is cancelled and its channel closed under the lock.  Each of these
    is one action, and actions of different goroutines interleave. *)

Record chan := { ch_full : bool; ch_closed : bool }.

Record world := {
  w_bus : Bus;
  w_chans : gmap nat chan;
  w_owed : nat;       (* publishers yet to copy the channels *)
  w_sends : list nat; (* channels copied and yet to be sent to *)
  w_panicked : bool   (* a send met a closed channel *)
}.

Inductive action :=
  | Publish (p : publish)
  | CopySubs
  | Send (c : nat)
  | Subscribe (c : nat)
  | Cancel (c : nat)
  | Receive (c : nat).

Fixpoint remove_one (c : nat) (l : list nat) : list nat :=
  match l with [] => [] | x :: l => if Nat.eqb x c then l else x :: remove_one c l end.

(** One action, where it is enabled. *)
Definition act (a : action) (w : world) : option world :=
  if w_panicked w then None else
  match a with
  | Publish p => Some {| w_bus := perform p (w_bus w); w_chans := w_chans w; w_owed := Datatypes.S (w_owed w);
                         w_sends := w_sends w; w_panicked := false |}
  | CopySubs =>
      match w_owed w with
      | O => None
      | Datatypes.S owed => Some {| w_bus := w_bus w; w_chans := w_chans w; w_owed := owed;
                          w_sends := w_sends w ++ elements (b_subs (w_bus w)); w_panicked := false |}
      end
  | Send c =>
      if negb (bool_decide (c ∈ w_sends w)) then None else
      match w_chans w !! c with
      | None => None
      | Some ch => Some {|
          w_bus := w_bus w;
          w_chans := if ch_closed ch then w_chans w else <[c := {| ch_full := true; ch_closed := false |}]> (w_chans w);
          w_owed := w_owed w; w_sends := remove_one c (w_sends w); w_panicked := ch_closed ch |}
      end
  | Subscribe c =>
      if negb (Nat.eqb c (b_nextSub (w_bus w))) then None else
      Some {| w_bus := set_subs ({[c]} ∪ b_subs (w_bus w)) (Datatypes.S c) (w_bus w);
              w_chans := <[c := {| ch_full := false; ch_closed := false |}]> (w_chans w);
              w_owed := w_owed w; w_sends := w_sends w; w_panicked := false |}
  | Cancel c =>
      if bool_decide (c ∈ b_subs (w_bus w)) then
        match w_chans w !! c with
        | None => None
        | Some ch => Some {|
            w_bus := set_subs (b_subs (w_bus w) ∖ {[c]}) (b_nextSub (w_bus w)) (w_bus w);
            w_chans := <[c := {| ch_full := ch_full ch; ch_closed := true |}]> (w_chans w);
            w_owed := w_owed w; w_sends := w_sends w; w_panicked := false |}
        end
      else Some w
  | Receive c =>
      match w_chans w !! c with
      | Some {| ch_full := true; ch_closed := closed |} => Some {|
          w_bus := w_bus w; w_chans := <[c := {| ch_full := false; ch_closed := closed |}]> (w_chans w);
          w_owed := w_owed w; w_sends := w_sends w; w_panicked := false |}
      | _ => None
      end
  end.

Fixpoint acts (l : list action) (w : world) : option world :=
  match l with [] => Some w | a :: l => match act a w with Some w => acts l w | None => None end end.

Definition start (b : Bus) : world :=
  {| w_bus := b; w_chans := ∅; w_owed := 0; w_sends := []; w_panicked := false |}.

(** ** The digits of a count *)

Lemma digit_byte_char d : (0 ≤ d < 10)%Z → digit_byte d = pretty_N_char (Z.to_N d).
Proof.
  intros H.
  assert (d = 0 ∨ d = 1 ∨ d = 2 ∨ d = 3 ∨ d = 4 ∨ d = 5 ∨ d = 6 ∨ d = 7 ∨ d = 8 ∨ d = 9)%Z as Hd by lia.
  by repeat destruct Hd as [->|Hd]; try subst d.
Qed.

Lemma itoa_digits_go room n acc : (0 ≤ n < 10 ^ Z.of_nat room)%Z → itoa_digits room n acc = pretty_N_go (Z.to_N n) acc.
Proof.
  revert n acc. induction room as [|room IH]; intros n acc Hn.
  - assert (n = 0)%Z as -> by (simpl in Hn; lia). done.
  - simpl. destruct (Z.ltb_spec 0 n).
    + rewrite Nat2Z.inj_succ, Z.pow_succ_r in Hn by lia.
      rewrite pretty_N_go_step by lia. rewrite IH; [|split; [apply Z.div_pos; lia | apply Z.div_lt_upper_bound; lia]].
      rewrite digit_byte_char by (apply Z.mod_pos_bound; lia). by rewrite Z2N.inj_div, Z2N.inj_mod by lia.
    + assert (n = 0)%Z as -> by lia. done.
Qed.

(** The counts the bus prints are those [strconv.Itoa] would. *)
Lemma itoa_Itoa n : (0 ≤ n < 10 ^ 20)%Z → itoa n = Itoa n.
Proof.
  intros Hn. unfold itoa. destruct (Z.eqb_spec n 0) as [->|Hne]; [done |].
  rewrite itoa_digits_go by done. destruct n as [|p|p]; [lia | | lia]. done.
Qed.

(** ** The ring *)

(** The ring [log] of [cap] slots holds the last of the entries [es]. *)
Record ring (cap : nat) (b : Bus) (es : list Entry) : Prop := {
  ring_cap : length (b_log b) = cap;
  ring_next : b_logNext b = length es mod cap;
  ring_len : b_logLen b = length es `min` cap;
  ring_slots i e : es !! i = Some e → length es ≤ i + cap → b_log b !! (i mod cap) = Some e
}.

Lemma mod_differ cap i n : i < n → n < i + cap → i mod cap ≠ n mod cap.
Proof.
  intros H1 H2 E. assert (cap ≠ 0) as Hc by lia.
  pose proof (Nat.div_mod_eq i cap). pose proof (Nat.div_mod_eq n cap).
  assert (n - i = cap * (n / cap - i / cap)) as Hd by nia.
  destruct (n / cap - i / cap) as [|k]; nia.
Qed.

Lemma appendLog_ring cap b es e : 0 < cap → ring cap b es → ring cap (appendLog e b) (es ++ [e]).
Proof.
  intros Hcap [Hc Hn Hl Hs].
  assert (length es mod cap < cap) as Hb by (apply Nat.mod_upper_bound; lia).
  split; simpl; rewrite ?length_insert, ?length_app, ?Hc; simpl.
  - done.
  - by rewrite Hn, Nat.Div0.add_mod_idemp_l.
  - rewrite Hl. destruct (Nat.ltb_spec (length es `min` cap) cap); lia.
  - intros i x Hi Hr. rewrite Hn. apply lookup_app_Some in Hi as [Hi|[Hge Hi]].
    + pose proof (lookup_lt_Some _ _ _ Hi). rewrite list_lookup_insert_ne; [|apply not_eq_sym, mod_differ; lia].
      apply Hs; [done | lia].
    + apply list_lookup_singleton_Some in Hi as [Hi <-].
      assert (i = length es) as -> by lia. apply list_lookup_insert_eq. lia.
Qed.

Lemma ring_entries cap b es : 0 < cap → ring cap b es → log_entries b = drop (length es - cap) es.
Proof.
  intros Hcap [Hc Hn Hl Hs]. unfold log_entries. rewrite Hc, Hn, Hl.
  apply list_eq. intros j. rewrite list_lookup_fmap, lookup_drop.
  destruct (decide (j < length es `min` cap)) as [Hj|Hj].
  - rewrite (proj2 (lookup_seq _ _ j j)) by lia. simpl.
    destruct (lookup_lt_is_Some_2 es (length es - cap + j)) as [e He]; [lia |]. rewrite He. f_equal.
    enough (((length es mod cap + cap - length es `min` cap) mod cap + j) mod cap = (length es - cap + j) mod cap) as E.
    { by rewrite E, (Hs _ e He) by lia. }
    rewrite Nat.Div0.add_mod_idemp_l.
    destruct (decide (length es < cap)) as [H|H].
    + rewrite (Nat.mod_small (length es)) by lia.
      replace (length es + cap - length es `min` cap + j) with (length es - cap + j + 1 * cap) by lia.
      by rewrite Nat.Div0.mod_add.
    + replace (length es mod cap + cap - length es `min` cap + j) with (length es mod cap + j) by lia.
      rewrite Nat.Div0.add_mod_idemp_l. replace (length es + j) with (length es - cap + j + 1 * cap) by lia.
      by rewrite Nat.Div0.mod_add.
  - rewrite !lookup_ge_None_2; [done | lia | rewrite length_seq; lia].
Qed.

(** ** The history *)

(** The repository a publication is about, and what it does to its state. *)
Definition touched (p : publish) : option string :=
  match p with
  | PubRegistered id _ _ | PubQueued id | PubStarted id _ _ _ | PubProgress id _ _ | PubFinished id _ _ _ _
  | PubWatching id _ | PubApplied id _ _ _ _ => Some id
  | PubDormant _ | PubLog _ _ _ _ => None
  end.
Definition effect (p : publish) : RepoState → RepoState :=
  match p with
  | PubRegistered _ name path => named name path
  | PubQueued _ => queued
  | PubStarted _ total now _ => started total now
  | PubProgress _ files total => progressed files total
  | PubFinished _ indexed failed err now => finished indexed failed err now
  | PubWatching _ on => watching on
  | PubApplied _ _ _ err now => applied err now
  | PubDormant _ | PubLog _ _ _ _ => id
  end.

(** The state of one repository, from its own publications alone. *)
Definition view_step (id : string) (o : option RepoState) (p : publish) : option RepoState :=
  if decide (touched p = Some id) then Some (effect p (default (new_state id) o)) else o.
Definition repo_view (id : string) (ps : list publish) : option RepoState := foldl (view_step id) None ps.

(** The line a publication logs; [name] is that of its repository. *)
Definition entry_of (p : publish) (name : string) : list Entry :=
  match p with
  | PubStarted id _ _ logged =>
      [{| le_At := Some logged; le_Level := LevelInfo; le_Msg := "indexing " +:+ name; le_RepoID := id |}]
  | PubFinished id _ _ (Some e) now =>
      [{| le_At := Some now; le_Level := LevelError; le_Msg := "index failed: " +:+ e; le_RepoID := id |}]
  | PubFinished id _ _ None now =>
      [{| le_At := Some now; le_Level := LevelInfo; le_Msg := "indexed " +:+ name; le_RepoID := id |}]
  | PubApplied id _ _ (Some e) now =>
      [{| le_At := Some now; le_Level := LevelError; le_Msg := "watch: " +:+ e; le_RepoID := id |}]
  | PubApplied id changed deleted None now =>
      [{| le_At := Some now; le_Level := LevelInfo; le_Msg := watchMsg name changed deleted; le_RepoID := id |}]
  | PubLog level repoID msg now =>
      [{| le_At := Some now; le_Level := level; le_Msg := msg; le_RepoID := repoID |}]
  | _ => []
  end.
Definition name_after (ps : list publish) (p : publish) : string :=
  match touched p with
  | Some id => match repo_view id (ps ++ [p]) with Some st => rs_Name st | None => "" end
  | None => ""
  end.

(** All lines logged by [ps], after those of [seen]. *)
Fixpoint logged (seen ps : list publish) : list Entry :=
  match ps with
  | [] => []
  | p :: ps => entry_of p (name_after seen p) ++ logged (seen ++ [p]) ps
  end.

Lemma logged_snoc seen ps p : logged seen (ps ++ [p]) = logged seen ps ++ entry_of p (name_after (seen ++ ps) p).
Proof.
  revert seen. induction ps as [|q ps IH]; intros seen; simpl; [by rewrite !app_nil_r |].
  by rewrite IH, <- !app_assoc.
Qed.

Definition is_finish (p : publish) : bool := match p with PubFinished _ _ _ _ _ => true | _ => false end.
Definition passes (ps : list publish) : nat := length (filter (λ p, is_finish p = true) ps).
Definition indexed_by (p : publish) : Z := match p with PubFinished _ i _ _ _ => i | _ => 0 end.
Definition indexed_files (ps : list publish) : Z := foldl (λ n p, n + indexed_by p)%Z 0%Z ps.
Definition is_error (e : Entry) : bool := (LevelError <=? le_Level e)%Z.
Definition is_warning (e : Entry) : bool := (LevelWarn <=? le_Level e)%Z && (le_Level e <? LevelError)%Z.

Record history (cap : nat) (ps : list publish) (b : Bus) : Prop := {
  h_ring : ring cap b (logged [] ps);
  h_view id : b_repos b !! id = repo_view id ps;
  h_order : NoDup (b_order b);
  h_ids id : id ∈ b_order b ↔ is_Some (b_repos b !! id);
  h_passes : m_Passes (b_metrics b) = Z.of_nat (passes ps);
  h_files : m_FilesIndexed (b_metrics b) = indexed_files ps;
  h_errors : m_Errors (b_metrics b) = Z.of_nat (length (filter (λ e, is_error e = true) (logged [] ps)));
  h_warnings : m_Warnings (b_metrics b) = Z.of_nat (length (filter (λ e, is_warning e = true) (logged [] ps)))
}.

Lemma write_state_repos id f b : b_repos (snd (write_state id f b)) = <[id := f (default (new_state id) (b_repos b !! id))]> (b_repos b).
Proof.
  unfold write_state, state. destruct (b_repos b !! id) as [st|] eqn:E; simpl; [done |].
  by rewrite insert_insert_eq.
Qed.
Lemma write_state_name id f b : rs_Name (fst (write_state id f b)) = rs_Name (f (default (new_state id) (b_repos b !! id))).
Proof. unfold write_state, state. by destruct (b_repos b !! id). Qed.
Lemma write_state_order id f b :
  b_order (snd (write_state id f b)) = match b_repos b !! id with Some _ => b_order b | None => b_order b ++ [id] end.
Proof. unfold write_state, state. by destruct (b_repos b !! id). Qed.
Lemma write_state_log id f b : ∀ cap es, ring cap b es → ring cap (snd (write_state id f b)) es.
Proof. intros cap es []. unfold write_state, state. by destruct (b_repos b !! id). Qed.
Lemma write_state_metrics id f b : b_metrics (snd (write_state id f b)) = b_metrics b.
Proof. unfold write_state, state. by destruct (b_repos b !! id). Qed.

Lemma set_metrics_ring cap b es m : ring cap b es → ring cap (set_metrics m b) es.
Proof. by intros []. Qed.

(** Every method writes the state of its repository, then counts, then logs. *)
Definition counted (p : publish) : Metrics → Metrics :=
  match p with
  | PubFinished _ indexed _ _ _ => plus_metrics 1 indexed 0 0 0 0 0
  | PubApplied _ changed deleted _ _ => plus_metrics 0 0 1 changed deleted 0 0
  | _ => id
  end.
Definition written (p : publish) (b : Bus) : Bus :=
  match touched p with Some id => snd (write_state id (effect p) b) | None => b end.
Definition own_name (p : publish) (b : Bus) : string :=
  match touched p with
  | Some id => rs_Name (effect p (default (new_state id) (b_repos b !! id)))
  | None => ""
  end.

Lemma perform_parts p b :
  let b1 := written p b in
  let b' := perform p b in
  b_repos b' = b_repos b1 ∧ b_order b' = b_order b1 ∧
  b_metrics b' = foldl (λ m e, count_entry e m) (counted p (b_metrics b)) (entry_of p (own_name p b)) ∧
  (∀ cap es, 0 < cap → ring cap b es → ring cap b' (es ++ entry_of p (own_name p b))).
Proof.
  assert (∀ id f, write_state id f b = (fst (write_state id f b), snd (write_state id f b))) as Hpair
    by (intros; by destruct (write_state id f b)).
  destruct p; simpl; unfold written, own_name; simpl;
    unfold RepoRegistered, IndexQueued, IndexStarted, IndexProgress, IndexFinished, Watching, WatchApplied, Log;
    try rewrite Hpair; simpl; rewrite ?write_state_metrics, ?write_state_name; simpl;
    (split_and!; [done | done | | intros cap es Hcap Hr]);
    try (destruct err; done); try done;
    try (rewrite app_nil_r; by apply write_state_log).
  - rewrite app_nil_r. by destruct Hr.
  - apply appendLog_ring; [done |]. by apply write_state_log.
  - destruct err; (apply appendLog_ring; [done |]); by apply set_metrics_ring, write_state_log.
  - destruct err; (apply appendLog_ring; [done |]); by apply set_metrics_ring, write_state_log.
  - by apply appendLog_ring.
Qed.

Lemma written_parts p b :
  m_Repos (b_metrics (written p b)) = m_Repos (b_metrics b) ∧
  ∀ ps, history (length (b_log b)) ps b →
    (∀ id, b_repos (written p b) !! id = repo_view id (ps ++ [p])) ∧ NoDup (b_order (written p b)) ∧
    (∀ id, id ∈ b_order (written p b) ↔ is_Some (b_repos (written p b) !! id)) ∧
    own_name p b = name_after ps p.
Proof.
  unfold written, own_name, name_after, repo_view. split; [destruct (touched p); [by rewrite write_state_metrics | done] |].
  intros ps [Hr Hv Ho Hi _ _ _ _].
  assert (∀ id, touched p = Some id →
    foldl (view_step id) None (ps ++ [p]) = Some (effect p (default (new_state id) (b_repos b !! id)))) as Hlast.
  { intros id E. rewrite foldl_app. simpl. unfold view_step at 1. rewrite E. rewrite decide_True by done.
    rewrite Hv. done. }
  assert (∀ id, touched p ≠ Some id → foldl (view_step id) None (ps ++ [p]) = b_repos b !! id) as Hrest.
  { intros id E. rewrite foldl_app. simpl. unfold view_step at 1. by rewrite decide_False, Hv. }
  destruct (touched p) as [id|] eqn:Et; [|split_and!; [intros; by rewrite Hrest | done | done | done]].
  rewrite write_state_order, write_state_repos, Hlast by done. split_and!.
  - intros id'. destruct (decide (id = id')) as [<-|Hne]; [by rewrite lookup_insert_eq, Hlast |].
    rewrite lookup_insert_ne by done. rewrite Hrest; [done |]. congruence.
  - destruct (b_repos b !! id) as [st|] eqn:E; [done |]. apply NoDup_app. split_and!; [done | |].
    + intros x Hx ->%list_elem_of_singleton. apply Hi in Hx as [st Hx]. congruence.
    + apply NoDup_singleton.
  - intros id'. destruct (decide (id = id')) as [<-|Hne].
    + rewrite lookup_insert_eq. split; [by eexists |]. intros _. destruct (b_repos b !! id) as [st|] eqn:E.
      * apply Hi. by exists st.
      * apply elem_of_app. right. by left.
    + rewrite lookup_insert_ne, <- Hi by done. destruct (b_repos b !! id) as [st|] eqn:E; [done |].
      rewrite elem_of_app, list_elem_of_singleton. split; [intros [?|?]; congruence | by left].
  - done.
Qed.

Lemma count_entries es m :
  let m' := foldl (λ m e, count_entry e m) m es in
  m_Passes m' = m_Passes m ∧ m_FilesIndexed m' = m_FilesIndexed m ∧
  m_Errors m' = (m_Errors m + Z.of_nat (length (filter (λ e, is_error e = true) es)))%Z ∧
  m_Warnings m' = (m_Warnings m + Z.of_nat (length (filter (λ e, is_warning e = true) es)))%Z.
Proof.
  revert m. induction es as [|e es IH]; intros m; simpl; [split_and!; lia |].
  destruct (IH (count_entry e m)) as (H1 & H2 & H3 & H4). rewrite H1, H2, H3, H4, !filter_cons.
  unfold count_entry, is_error, is_warning, LevelError, LevelWarn.
  destruct (Z.leb_spec 8 (le_Level e)), (Z.leb_spec 4 (le_Level e)), (Z.ltb_spec (le_Level e) 8); simpl; lia || (split_and!; lia).
Qed.

Lemma perform_history cap ps p b : 0 < cap → history cap ps b → history cap (ps ++ [p]) (perform p b).
Proof.
  intros Hcap Hh. pose proof (perform_parts p b) as (Hrepos & Horder & Hm & Hlog).
  assert (length (b_log b) = cap) as Hlen by apply Hh.
  destruct (written_parts p b) as (_ & Hw). rewrite Hlen in Hw.
  destruct (Hw ps Hh) as (Hv & Ho & Hi & Hname). rewrite Hname in *.
  destruct Hh as [Hring _ _ _ Hp Hf He Hwn].
  destruct (count_entries (entry_of p (name_after ps p)) (counted p (b_metrics b))) as (Hm1 & Hm2 & Hm3 & Hm4).
  rewrite <- Hm in *.
  split; rewrite ?Hrepos, ?Horder, ?logged_snoc, ?Hm1, ?Hm2, ?Hm3, ?Hm4, ?filter_app, ?length_app; try done.
  - by apply Hlog.
  - unfold passes in *. rewrite filter_app, length_app, Nat2Z.inj_add, <- Hp.
    destruct p; simpl; rewrite ?Z.add_0_r; done.
  - unfold indexed_files in *. rewrite foldl_app. simpl. rewrite <- Hf.
    destruct p; simpl; rewrite ?Z.add_0_r; done.
  - rewrite Nat2Z.inj_add, <- He. f_equal. destruct p; simpl; rewrite ?Z.add_0_r; done.
  - rewrite Nat2Z.inj_add, <- Hwn. f_equal. destruct p; simpl; rewrite ?Z.add_0_r; done.
Qed.

Lemma new_history logCapacity now :
  history (if (logCapacity <=? 0)%Z then DefaultLogCapacity else Z.to_nat logCapacity) [] (NewBus logCapacity now).
Proof.
  split; try done.
  - split; simpl; [by rewrite length_replicate | by rewrite Nat.Div0.mod_0_l | done | done].
  - constructor.
  - intros id. simpl. rewrite lookup_empty, elem_of_nil. split; [done |]. by intros [].
Qed.

Lemma run_history logCapacity now ps :
  let cap := if (logCapacity <=? 0)%Z then DefaultLogCapacity else Z.to_nat logCapacity in
  history cap ps (foldl (λ b p, perform p b) (NewBus logCapacity now) ps).
Proof.
  intros cap. assert (0 < cap) as Hcap by (unfold cap, DefaultLogCapacity; destruct (Z.leb_spec logCapacity 0); lia).
  induction ps as [|p ps IH] using rev_ind; [apply new_history |].
  rewrite foldl_app. by apply perform_history.
Qed.

Lemma repo_view_id id ps st : repo_view id ps = Some st → rs_ID st = id.
Proof.
  revert st. induction ps as [|p ps IH] using rev_ind; intros st; unfold repo_view in *; [done |].
  rewrite foldl_app. simpl. unfold view_step at 1. destruct (decide (touched p = Some id)) as [E|]; [|by apply IH].
  intros [= <-].
  assert (rs_ID (default (new_state id) (foldl (view_step id) None ps)) = id) as Hd.
  { destruct (foldl (view_step id) None ps) as [st'|]; [by apply IH | done]. }
  destruct p; try done. simpl. unfold applied. by destruct err.
Qed.

(** ** What a snapshot shows *)

(** C28: A snapshot shows the history of all publications.  Its log is the last lines
    published, oldest first, as many as the capacity allows; the counters of
    errors, warnings, passes and files count the whole history, the lines already
    dropped included; and there is exactly one state for each repository ever
    mentioned, sorted by name, which is what the publications about that repository
    alone, in their order, leave it in. *)
Theorem snapshot_history logCapacity now ps :
  let cap := if (logCapacity <=? 0)%Z then DefaultLogCapacity else Z.to_nat logCapacity in
  let s := Bus_Snapshot (Some (foldl (λ b p, perform p b) (NewBus logCapacity now) ps)) in
  let lines := logged [] ps in
  sn_Log s = drop (length lines - cap) lines ∧
  m_Errors (sn_Metrics s) = Z.of_nat (length (filter (λ e, is_error e = true) lines)) ∧
  m_Warnings (sn_Metrics s) = Z.of_nat (length (filter (λ e, is_warning e = true) lines)) ∧
  m_Passes (sn_Metrics s) = Z.of_nat (passes ps) ∧ m_FilesIndexed (sn_Metrics s) = indexed_files ps ∧
  NoDup (map rs_ID (sn_Repos s)) ∧ sorted_by (order_by String.ltb rs_Name) (sn_Repos s) ∧
  (∀ st, st ∈ sn_Repos s ↔ repo_view (rs_ID st) ps = Some st).
Proof.
  intros cap s lines. pose proof (run_history logCapacity now ps) as Hh. cbv zeta in Hh. fold cap in Hh.
  assert (0 < cap) as Hcap by (unfold cap, DefaultLogCapacity; destruct (Z.leb_spec logCapacity 0); lia).
  set (b := foldl _ _ _) in *.
  assert (∀ st, st ∈ sn_Repos s ↔ repo_view (rs_ID st) ps = Some st) as Hin.
  { intros st. unfold s. simpl. rewrite SliceSort_elem, list_elem_of_omap. split.
    - intros (id & _ & E). rewrite (h_view _ _ _ Hh) in E. by rewrite (repo_view_id id ps st E).
    - intros E. exists (rs_ID st). rewrite (h_view _ _ _ Hh). split; [|done].
      apply (h_ids _ _ _ Hh). rewrite (h_view _ _ _ Hh), E. by eexists. }
  split_and!; [| apply Hh | apply Hh | apply Hh | apply Hh | | | exact Hin].
  - simpl. apply ring_entries; [done | apply Hh].
  - unfold s. simpl. rewrite (Permutation_map rs_ID (SliceSort_perm _ _)).
    assert (map rs_ID (omap (λ id, b_repos b !! id) (b_order b)) = b_order b) as ->; [|apply Hh].
    assert (∀ id, id ∈ b_order b → ∃ st, b_repos b !! id = Some st ∧ rs_ID st = id) as Hall.
    { intros id Hid. apply (h_ids _ _ _ Hh) in Hid as [st E]. exists st. split; [done |].
      rewrite (h_view _ _ _ Hh) in E. by eapply repo_view_id. }
    clear -Hall. induction (b_order b) as [|id l IH]; [done |]. simpl.
    destruct (Hall id) as (st & E & Hid); [by left |]. simpl. rewrite E. simpl. rewrite Hid. f_equal. apply IH.
    intros id' H. apply Hall. by right.
  - apply (SliceSort_sorted _ (λ _, True)). by apply Forall_true.
Qed.

(** ** Wakeups *)

(** The subscription [c] has not read since a change. *)
Definition miss_step (c : nat) (missed : bool) (a : action) : bool :=
  match a with
  | Publish _ => true
  | Subscribe c' | Receive c' => if Nat.eqb c' c then false else missed
  | _ => missed
  end.
Definition missed (c : nat) (l : list action) : bool := foldl (miss_step c) false l.

Record wakes (w : world) (miss : nat → bool) : Prop := {
  wakes_live c : c ∈ b_subs (w_bus w) → ∃ full, w_chans w !! c = Some {| ch_full := full; ch_closed := false |} ∧
    (miss c = true → full = true ∨ 0 < w_owed w ∨ c ∈ w_sends w);
  wakes_sends c : c ∈ w_sends w → is_Some (w_chans w !! c);
  wakes_next c : b_nextSub (w_bus w) ≤ c → w_chans w !! c = None
}.

Lemma perform_subs p b : b_subs (perform p b) = b_subs b ∧ b_nextSub (perform p b) = b_nextSub b.
Proof.
  assert (∀ id f, b_subs (snd (write_state id f b)) = b_subs b ∧ b_nextSub (snd (write_state id f b)) = b_nextSub b) as Hw
    by (intros; unfold write_state, state; by destruct (b_repos b !! id)).
  destruct p; simpl; try done; try apply Hw;
    unfold IndexStarted, IndexFinished, WatchApplied;
    match goal with |- context [write_state ?id ?f b] => specialize (Hw id f); by destruct (write_state id f b) end.
Qed.

Lemma remove_one_elem c x l : x ∈ remove_one c l → x ∈ l.
Proof.
  induction l as [|y l IH]; simpl; [done |]. destruct (Nat.eqb y c); [by right |].
  intros [->|H]%elem_of_cons; [by left | right; auto].
Qed.
Lemma remove_one_other c x l : x ∈ l → x ≠ c → x ∈ remove_one c l.
Proof.
  induction l as [|y l IH]; simpl; [done |]. intros [->|H]%elem_of_cons Hne.
  - destruct (Nat.eqb_spec y c); [done | by left].
  - destruct (Nat.eqb_spec y c); [done | right; auto].
Qed.

Lemma act_wakes a w w' miss :
  wakes w miss → act a w = Some w' → w_panicked w' = false → wakes w' (λ c, miss_step c (miss c) a).
Proof.
  intros [Hl Hs Hn]. unfold act. destruct (w_panicked w); [done |]. destruct a as [p| |c0|c0|c0|c0].
  - intros [= <-] _. destruct (perform_subs p (w_bus w)) as [E1 E2]. split; simpl; rewrite ?E1, ?E2; [|done|done].
    intros c Hc. destruct (Hl c Hc) as (full & E & _). exists full. split; [done |]. intros _. right. left. lia.
  - destruct (w_owed w) as [|owed]; [done |]. intros [= <-] _. split; simpl; [| |done].
    + intros c Hc. destruct (Hl c Hc) as (full & E & _). exists full. split; [done |]. intros _. right. right.
      apply elem_of_app. right. by apply elem_of_elements.
    + intros c [Hc|Hc]%elem_of_app; [by apply Hs |]. apply elem_of_elements in Hc.
      destruct (Hl c Hc) as (full & E & _). by eexists.
  - case_bool_decide as Hin; [|done]. simpl. destruct (w_chans w !! c0) as [ch|] eqn:Ech; [|done].
    intros [= <-] Hp. simpl in Hp. rewrite Hp. split; simpl.
    + intros c Hc. destruct (Hl c Hc) as (full & E & Hm).
      destruct (decide (c0 = c)) as [<-|Hne].
      * exists true. rewrite lookup_insert_eq. split; [done | by left].
      * exists full. rewrite lookup_insert_ne by done. split; [done |]. intros H.
        destruct (Hm H) as [?|[?|?]]; auto. right. right. apply remove_one_other; auto.
    + intros c Hc%remove_one_elem. destruct (decide (c0 = c)) as [<-|Hne]; [rewrite lookup_insert_eq; by eexists |].
      rewrite lookup_insert_ne by done. by apply Hs.
    + intros c Hc. rewrite lookup_insert_ne; [by apply Hn |]. intros ->. rewrite Hn in Ech; [done | lia].
  - destruct (Nat.eqb_spec c0 (b_nextSub (w_bus w))) as [->|]; [|done]. intros [= <-] _. split; simpl.
    + intros c [->%elem_of_singleton|Hc]%elem_of_union.
      * exists false. rewrite lookup_insert_eq, Nat.eqb_refl. by split.
      * destruct (Hl c Hc) as (full & E & Hm). exists full.
        assert (b_nextSub (w_bus w) ≠ c) as Hne by (intros <-; rewrite Hn in E; [done | lia]).
        rewrite lookup_insert_ne by done. split; [done |]. by rewrite (proj2 (Nat.eqb_neq _ _) Hne).
    + intros c Hc. apply Hs in Hc as [ch Hc]. destruct (decide (b_nextSub (w_bus w) = c)) as [<-|Hne].
      * rewrite lookup_insert_eq. by eexists.
      * rewrite lookup_insert_ne by done. by eexists.
    + intros c Hc. rewrite lookup_insert_ne by lia. apply Hn. lia.
  - case_bool_decide as Hin; [|intros [= <-] _; by split].
    destruct (w_chans w !! c0) as [ch|] eqn:Ech; [|done]. intros [= <-] _. split; simpl.
    + intros c [Hc Hne%not_elem_of_singleton]%elem_of_difference. destruct (Hl c Hc) as (full & E & Hm). exists full.
      by rewrite lookup_insert_ne.
    + intros c Hc. apply Hs in Hc as [x Hc]. destruct (decide (c0 = c)) as [<-|Hne].
      * rewrite lookup_insert_eq. by eexists.
      * rewrite lookup_insert_ne by done. by eexists.
    + intros c Hc. rewrite lookup_insert_ne; [by apply Hn |]. intros ->. rewrite Hn in Ech; done.
  - destruct (w_chans w !! c0) as [[[] closed]|] eqn:Ech; [|done|done]. intros [= <-] _. split; simpl.
    + intros c Hc. destruct (Hl c Hc) as (full & E & Hm). destruct (decide (c0 = c)) as [<-|Hne].
      * exists false. rewrite lookup_insert_eq, Nat.eqb_refl. rewrite E in Ech. injection Ech as _ <-. by split.
      * exists full. rewrite lookup_insert_ne by done. by rewrite (proj2 (Nat.eqb_neq _ _) Hne).
    + intros c Hc. apply Hs in Hc as [x Hc]. destruct (decide (c0 = c)) as [<-|Hne].
      * rewrite lookup_insert_eq. by eexists.
      * rewrite lookup_insert_ne by done. by eexists.
    + intros c Hc. rewrite lookup_insert_ne; [by apply Hn |]. intros ->. rewrite Hn in Ech; done.
Qed.

Lemma acts_snoc l a w w' : acts (l ++ [a]) w = Some w' → ∃ w1, acts l w = Some w1 ∧ act a w1 = Some w'.
Proof.
  revert w. induction l as [|x l IH]; intros w; simpl.
  - destruct (act a w) as [w2|] eqn:E; [|done]. intros [= <-]. by exists w.
  - destruct (act x w) as [w2|]; [apply IH | done].
Qed.

Lemma act_running a w w' : act a w = Some w' → w_panicked w = false.
Proof. unfold act. by destruct (w_panicked w). Qed.

(** A channel is closed by the cancellation of its subscription only. *)
Lemma act_closed a w w' c ch :
  act a w = Some w' → w_chans w' !! c = Some ch → ch_closed ch = true →
  a = Cancel c ∨ ∃ ch0, w_chans w !! c = Some ch0 ∧ ch_closed ch0 = true.
Proof.
  unfold act. destruct (w_panicked w); [done |].
  destruct a as [p| |c0|c0|c0|c0]; repeat case_match; try done; intros [= <-] Hch Hcl; simpl in *; eauto;
    (destruct (decide (c0 = c)) as [->|Hne];
     [rewrite lookup_insert_eq in Hch; injection Hch as <-; simplify_eq; simpl in *; eauto
     | rewrite lookup_insert_ne in Hch by done; eauto]).
Qed.

Lemma acts_closed l w0 w c ch :
  w_chans w0 = ∅ → acts l w0 = Some w → w_chans w !! c = Some ch → ch_closed ch = true → Cancel c ∈ l.
Proof.
  intros H0. revert w ch. induction l as [|a l IH] using rev_ind; intros w ch Ha Hc Hcl.
  - injection Ha as <-. by rewrite H0 in Hc.
  - apply acts_snoc in Ha as (w1 & Ha1 & Ha2). apply elem_of_app.
    destruct (act_closed _ _ _ _ _ Ha2 Hc Hcl) as [->|(ch0 & Hc0 & Hcl0)]; [right; by left | left; eauto].
Qed.

Lemma acts_panicked l w0 w :
  w_chans w0 = ∅ → w_panicked w0 = false → acts l w0 = Some w → w_panicked w = true → ∃ c, Cancel c ∈ l.
Proof.
  intros H0 Hp0. destruct l as [|a l _] using rev_ind; [intros [= <-] ?; congruence |].
  intros (w1 & Ha1 & Ha2)%acts_snoc Hp. unfold act in Ha2. destruct (w_panicked w1) eqn:Ep; [done |].
  destruct a as [p| |c0|c0|c0|c0]; repeat case_match; try done; injection Ha2 as <-; try done; try (simpl in Hp; congruence).
  exists c0. apply elem_of_app. left. by eapply acts_closed.
Qed.

Lemma acts_wakes l b w :
  b_subs b = ∅ → acts l (start b) = Some w → w_panicked w = false → wakes w (λ c, missed c l).
Proof.
  intros Hb. revert w. induction l as [|a l IH] using rev_ind; intros w Ha Hp.
  - injection Ha as <-. split; simpl; [| by intros ? ?%elem_of_nil | done]. intros c. rewrite Hb. by intros ?%elem_of_empty.
  - apply acts_snoc in Ha as (w1 & Ha1 & Ha2).
    pose proof (act_wakes _ _ _ _ (IH _ Ha1 (act_running _ _ _ Ha2)) Ha2 Hp) as [H1 H2 H3].
    split; [|done|done]. intros c Hc. unfold missed. rewrite foldl_app. by apply H1.
Qed.

(** C39: A subscriber misses no change, and a publisher never waits for one.  Whatever
    publishers, subscribers and cancellations interleave: when a live subscriber
    has not read since a change, a wakeup is in its channel, or a publisher that
    has yet to copy the channels or to send to this one will put it there — so
    once publishers are done, the subscriber can read; every send that is due can
    be made at once, whether or not the subscriber is listening; and nothing
    panics unless a subscription is cancelled. *)
Theorem no_wakeup_lost logCapacity now l w :
  acts l (start (NewBus logCapacity now)) = Some w →
  (w_panicked w = true → ∃ c, Cancel c ∈ l) ∧
  (w_panicked w = false →
    (∀ c, c ∈ b_subs (w_bus w) → missed c l = true →
       is_Some (act (Receive c) w) ∨ 0 < w_owed w ∨ c ∈ w_sends w) ∧
    (∀ c, c ∈ w_sends w → is_Some (act (Send c) w))).
Proof.
  intros Ha. split; [intros Hp; eapply acts_panicked; [| |done|done]; done |].
  intros Hp. destruct (acts_wakes _ _ _ (eq_refl : b_subs (NewBus logCapacity now) = ∅) Ha Hp) as [Hl Hs _].
  unfold act. rewrite Hp. split.
  - intros c Hc Hm. destruct (Hl c Hc) as (full & -> & H). destruct (H Hm) as [->|?]; [left; by eexists | by right].
  - intros c Hc. rewrite bool_decide_eq_true_2 by done. simpl. destruct (Hs c Hc) as [ch ->]. by eexists.
Qed.

Lemma no_wakeup_lost_witness :
  match acts [Subscribe 0; Publish (PubDormant 1); CopySubs; Publish (PubDormant 2); Send 0; CopySubs; Send 0]
             (start (NewBus 4 100)) with
  | Some w => is_Some (act (Receive 0) w) ∨ 0 < w_owed w ∨ 0 ∈ w_sends w
  | None => False
  end.
Proof.
  remember (acts _ _) as r eqn:E. vm_compute in E. subst r.
  assert (acts [Subscribe 0; Publish (PubDormant 1); CopySubs; Publish (PubDormant 2); Send 0; CopySubs; Send 0]
             (start (NewBus 4 100)) = Some ltac:(
    let r := eval vm_compute in (acts [Subscribe 0; Publish (PubDormant 1); CopySubs; Publish (PubDormant 2); Send 0; CopySubs; Send 0]
             (start (NewBus 4 100))) in match r with Some ?w => exact w end)) as H by (vm_compute; reflexivity).
  destruct (no_wakeup_lost _ _ _ _ H) as [_ [H1 _]]; [reflexivity |].
  apply H1; [vm_compute; reflexivity | reflexivity].
Defined.

(** A send may meet a channel that was closed after the publisher copied it: a
    cancellation between the two makes the publisher panic. *)
Lemma cancel_meets_send :
  option_map w_panicked
    (acts [Subscribe 0; Publish (PubDormant 1); CopySubs; Cancel 0; Send 0] (start (NewBus 4 100))) = Some true.
Proof. vm_compute. reflexivity. Qed.
