(* ===== verification/Indexing.v ===== *)
(** * Indexing passes ([internal/app/indexing.go], [coverage.go], the pass of [commits.go])

    A full pass brings the index of a repository in step with its working tree, and
    an incremental one with a plan of changes.  A pass runs over a world [X] — the
    store and the backends of the indexers — through the operations of the store
    ([PassStore]), of the indexers and of the sources; what the language models add
    is in [Enrichment].  The tree is a [disk] that does not change while a pass
    reads it.  Time spent, metrics and log lines are left out. *)

From S2P Require Import Prelude GoStrings GoStrconv GoSort GoFloat GoJson GoJsonEncode.
From S2P Require Import Domain Store Paths Gitignore Walk Services Commits Progress.

(** ** Coverage ([coverage.go]) *)

(** [coverageAccumulator] *)
Record coverageAccumulator := { ca_kinds : gmap string CoverageCounts; ca_reported : bool }.
Definition no_tally : coverageAccumulator := {| ca_kinds := ∅; ca_reported := false |}.
Definition no_counts : CoverageCounts := {| cc_Candidates := 0; cc_Edges := 0 |}.

(** [add] *)
Definition plus_counts (a b : CoverageCounts) : CoverageCounts :=
  {| cc_Candidates := cc_Candidates a + cc_Candidates b; cc_Edges := cc_Edges a + cc_Edges b |}.
Definition add_counts (counts : gmap string CoverageCounts) (a : coverageAccumulator) : coverageAccumulator :=
  {| ca_reported := true;
     ca_kinds := union_with (λ acc c, Some (plus_counts acc c)) (ca_kinds a) counts |}.

(** [summary] *)
Definition coverage_summary (repoID : string) (at_ : Z) (a : coverageAccumulator) : option RepoCoverage :=
  if ca_reported a then Some {| rc_RepoID := repoID; rc_UpdatedAt := at_; rc_Kinds := ca_kinds a |} else None.

(** [CoverageKind], [CoverageReport] *)
Record CoverageKind := { ck_Kind : string; ck_Candidates : Z; ck_Edges : Z; ck_Ratio : f64 }.
Record CoverageReport := {
  cr_RepoID : string; cr_Reported : bool; cr_UpdatedAt : Z; cr_IndexedAt : Z; cr_Kinds : list CoverageKind; cr_Totals : CoverageKind }.

Definition ContractKinds : list string := ["http"; "rpc"; "messaging"; "db"].

(** [coverageRatio], [coverageKind] *)
Definition coverageRatio (candidates edges : Z) : f64 :=
  if (candidates <=? 0)%Z then f64_of_Z 1 else f64_div (f64_of_Z edges) (f64_of_Z candidates).
Definition coverageKind (kind : string) (c : CoverageCounts) : CoverageKind :=
  {| ck_Kind := kind; ck_Candidates := cc_Candidates c; ck_Edges := cc_Edges c; ck_Ratio := coverageRatio (cc_Candidates c) (cc_Edges c) |}.

(** [RepoCoverage] on what the store answers; [range] is the order its map is
    ranged over. *)
Definition no_kind : CoverageKind := {| ck_Kind := ""; ck_Candidates := 0; ck_Edges := 0; ck_Ratio := f64_of_Z 0 |}.
Definition RepoCoverageReport (range : gmap string CoverageCounts → list (string * CoverageCounts))
    (repo : Fallible Repo) (coverage : Fallible RepoCoverage) : Fallible CoverageReport :=
  match repo with
  | inl e => inl e
  | inr repo =>
      match coverage with
      | inl ErrNotFound =>
          inr {| cr_RepoID := r_ID repo; cr_Reported := false; cr_UpdatedAt := 0; cr_IndexedAt := r_IndexedAt repo;
                 cr_Kinds := []; cr_Totals := no_kind |}
      | inl e => inl e
      | inr cov =>
          let known := map (λ kind, coverageKind kind (default no_counts (rc_Kinds cov !! kind))) ContractKinds in
          let others := omap (λ '(kind, counts), if bool_decide (kind ∈ ContractKinds) then None else Some (coverageKind kind counts))
                          (range (rc_Kinds cov)) in
          let total := foldl (λ acc kc, plus_counts acc (snd kc)) no_counts (range (rc_Kinds cov)) in
          inr {| cr_RepoID := r_ID repo; cr_Reported := true; cr_UpdatedAt := rc_UpdatedAt cov; cr_IndexedAt := r_IndexedAt repo;
                 cr_Kinds := SliceSort (order_by String.ltb ck_Kind) (known ++ others); cr_Totals := coverageKind "all" total |}
      end
  end.

(** ** Indexers ([internal/index/interface.go]) *)

(** [FileToIndex], [IndexRequest], [IndexResult] *)
Record FileToIndex := { fi_Path : string; fi_Hash : string; fi_Language : string; fi_Content : string }.
Record IndexRequest := { rq_RepoID : string; rq_RepoPath : string; rq_RepoName : string; rq_Files : list FileToIndex; rq_Force : bool }.
Record IndexResult := {
  ir_FilesIndexed : Z; ir_FilesSkipped : Z; ir_FilesFailed : Z; ir_Errors : list string;
  ir_Coverage : option (gmap string CoverageCounts) }.

(** An [Indexer] with the optional interfaces it satisfies: [Compactor],
    [AutoCompact] and [CoverageReporter]. *)
Record Indexer (X : Type) := {
  ix_Type : string;
  ix_Name : string;
  ix_Index : IndexRequest → X → (option IndexResult * option string) * X;
  ix_Remove : string → list string → X → option string * X;
  ix_Compact : option (X → option string * X);
  ix_AutoCompact : option bool;
  ix_Coverage : option (X → option (gmap string CoverageCounts))
}.
Arguments ix_Type {X}. Arguments ix_Name {X}. Arguments ix_Index {X}. Arguments ix_Remove {X}.
Arguments ix_Compact {X}. Arguments ix_AutoCompact {X}. Arguments ix_Coverage {X}.

(** What a pass does to the store. *)
Class PassStore (X : Type) := {
  GetFilesByRepo : string → X → Fallible (list File) * X;
  BatchStoreFiles : list File → X → option StoreError * X;
  DeleteFilesByPaths : string → list string → X → option StoreError * X;
  DeleteASTUnitsByFiles : string → list string → X → option StoreError * X;
  DeleteEdgesByFiles : string → list string → X → option StoreError * X;
  DeleteASTUnitsByKind : string → string → X → option StoreError * X;
  StoreASTUnit : ASTUnit → X → option StoreError * X;
  StoreRepoCoverage : RepoCoverage → X → option StoreError * X
}.

(** [RepoSource], the methods a pass calls. *)
Record RepoSource (X : Type) := {
  src_Update : Repo → X → option string * X;
  src_GetFiles : Repo → list string → X → (string + list RepoFile) * X
}.
Arguments src_Update {X}. Arguments src_GetFiles {X}.

(** What language models add to a pass. *)
Record Enrichment (X : Type) := {
  ReconEnabled : bool;
  ReconRepo : Repo → X → option string * X;
  ReconHints : Repo → X → list Service * X;
  SummaryFileBudget : Z;
  SummarizeRepo : Repo → list FileToIndex → X → option string * X;
  SummarizeSymbols : Repo → X → option string * X
}.
Arguments ReconEnabled {X}. Arguments ReconRepo {X}. Arguments ReconHints {X}.
Arguments SummaryFileBudget {X}. Arguments SummarizeRepo {X}. Arguments SummarizeSymbols {X}.

Section Pass.
  Context {X : Type} `{PassStore X}.
  (** The map of indexers in the order it is ranged over, and the order in which the
      runs of one batch, which go on at once, take effect. *)
  Context (indexers : list (Indexer X)) (schedule : list (Indexer X) → list (Indexer X)).
  Context (sources : string → option (RepoSource X)).
  Context (HashContent : string → string).                 (* SHA-256, in hexadecimal *)
  Context (unmarshal_manifest : string → string + (list ManifestService * list string)).
  Context (unmarshal_compose : string → string + gmap string any).
  Context (range_builds : gmap string any → list (string * any)) (range_roots : gmap string Service → list (string * Service)).
  Context (server_patterns : list string).                 (* cfg.Repos.Ignore *)
  Context (enrich : Enrichment X).
  Context (link : Repo → X → option string * X) (refine : Repo → X → X).

(** [IgnorePatternsFor] *)
Definition IgnorePatternsFor (d : disk) (repo : Repo) : list string :=
  match LoadManifest unmarshal_manifest d (r_Path repo) with
  | inl _ | inr None => server_patterns
  | inr (Some m) => match mf_Ignore m with [] => server_patterns | ps => server_patterns ++ ps end
  end.

(** ** Scanning *)

Inductive scannedFile := ScanIndex (toIndex : FileToIndex) (processed : File) | ScanSkipped | ScanUnreadable.

(** The row of a file that was indexed. *)
Definition file_row (repoID path hash lang : string) (size : Z) : File := {|
  f_RepoID := repoID; f_Path := path; f_Hash := hash; f_Language := lang; f_Size := size; f_ModTime := 0; f_Indexed := true |}.

(** [scanFile]; [known] is the snapshot of the rows, [None] in a forced pass. *)
Definition unchanged (known : option (gmap string File)) (path hash : string) : bool :=
  match known ≫= (λ k, k !! path) with
  | Some stored => f_Indexed stored && String.eqb (f_Hash stored) hash
  | None => false
  end.
Definition scanFile (d : disk) (repo : Repo) (f : RepoFile) (known : option (gmap string File)) : scannedFile :=
  let full := JoinPath [r_Path repo; wf_Path f] in
  if negb (os_Stat d full) || negb (os_Regular d full) then ScanUnreadable
  else
    match os_ReadFile d full with
    | Content content =>
        let hash := HashContent content in
        if unchanged known (wf_Path f) hash then ScanSkipped
        else ScanIndex {| fi_Path := wf_Path f; fi_Hash := hash; fi_Language := wf_Language f; fi_Content := content |}
                       (file_row (r_ID repo) (wf_Path f) hash (wf_Language f) (wf_Size f))
    | _ => ScanUnreadable
    end.

(** ** Running the indexers *)

(** [strings.Cut] at a colon and a space. *)
Fixpoint cut_colon (s : string) : option string :=
  match s with
  | "" => None
  | String c r => if HasPrefix s ": " then Some "" else String c <$> cut_colon r
  end.

(** [attributeFailures] *)
Definition attribute (batch : list FileToIndex) (acc : nat * gset string) (e : string) : nat * gset string :=
  match cut_colon e with
  | Some path => if bool_decide (path ∈ map fi_Path batch) then (Datatypes.S (fst acc), {[path]} ∪ snd acc) else acc
  | None => acc
  end.
Definition attributeFailures (errs : list string) (batch : list FileToIndex) (failed : gset string) : nat * gset string :=
  foldl (attribute batch) (0, failed) errs.

(** [indexerRuns], and what the runs of one batch come back with. *)
Definition by_type {B} (runs : list (Indexer X * B)) : list (Indexer X * B) :=
  SliceSort (order_by String.ltb (λ r, ix_Type (fst r))) runs.
Fixpoint run_all (req : IndexRequest) (ixs : list (Indexer X)) (x : X)
    : list (Indexer X * (option IndexResult * option string)) * X :=
  match ixs with
  | [] => ([], x)
  | ix :: ixs =>
      let '(res, x) := ix_Index ix req x in
      let '(runs, x) := run_all req ixs x in
      ((ix, res) :: runs, x)
  end.

(** [collect] *)
Definition collect (ix : Indexer X) (res : option IndexResult) (x : X) (a : coverageAccumulator) : coverageAccumulator :=
  match res ≫= ir_Coverage with
  | Some counts => add_counts counts a
  | None => match ix_Coverage ix ≫= (λ f, f x) with Some counts => add_counts counts a | None => a end
  end.

(** The loop over the runs; [cov] is [None] where no summary is kept. *)
Definition run_failures (res : IndexResult) (toIndex : list FileToIndex) (failed : gset string) : gset string :=
  let '(attributed, failed) := attributeFailures (ir_Errors res) toIndex failed in
  if (Z.of_nat attributed <? ir_FilesFailed res)%Z then list_to_set (map fi_Path toIndex) ∪ failed else failed.
Fixpoint judge (runs : list (Indexer X * (option IndexResult * option string))) (toIndex : list FileToIndex) (x : X)
    (cov : option coverageAccumulator) (failed : gset string) : string + (option coverageAccumulator * gset string) :=
  match runs with
  | [] => inr (cov, failed)
  | (ix, (_, Some err)) :: _ => inl (ix_Type ix +:+ " indexer: " +:+ err)
  | (ix, (res, None)) :: runs =>
      let cov := collect ix res x <$> cov in
      match res with
      | Some r => judge runs toIndex x cov (if (ir_FilesFailed r =? 0)%Z then failed else run_failures r toIndex failed)
      | None => judge runs toIndex x cov failed
      end
  end.

(** [indexFileSet] *)
Definition store_err (op : string) (e : StoreError) : string := op +:+ store_error_text e.
Definition indexFileSet (repo : Repo) (toIndex : list FileToIndex) (processed : list File) (force : bool)
    (cov : option coverageAccumulator) (x : X) : (string + (option coverageAccumulator * gset string)) * X :=
  match toIndex with
  | [] => (inr (cov, ∅), x)
  | _ =>
      let req := {| rq_RepoID := r_ID repo; rq_RepoPath := r_Path repo; rq_RepoName := r_Name repo; rq_Files := toIndex; rq_Force := force |} in
      let '(runs, x) := run_all req (schedule indexers) x in
      match judge (by_type runs) toIndex x cov ∅ with
      | inl err => (inl err, x)
      | inr (cov, failed) =>
          let '(err, x) := BatchStoreFiles (filter (λ f, f_Path f ∉ failed) processed) x in
          match err with
          | Some e => (inl (store_err "store files: " e), x)
          | None => (inr (cov, failed), x)
          end
      end
  end.

(** ** Removing *)

(** [removeIndexedPaths] *)
Fixpoint remove_from (ixs : list (Indexer X)) (repoID : string) (paths : list string) (x : X) : option string * X :=
  match ixs with
  | [] => (None, x)
  | ix :: ixs =>
      let '(err, x) := ix_Remove ix repoID paths x in
      match err with
      | Some e => (Some ("remove from indexer " +:+ ix_Name ix +:+ ": " +:+ e), x)
      | None => remove_from ixs repoID paths x
      end
  end.
Definition after_store (r : option StoreError * X) (next : X → option string * X) : option string * X :=
  let '(err, x) := r in match err with Some e => (Some (store_error_text e), x) | None => next x end.
Definition removeIndexedPaths (repoID : string) (paths : list string) (x : X) : option string * X :=
  match paths with
  | [] => (None, x)
  | _ =>
      let '(err, x) := remove_from indexers repoID paths x in
      match err with
      | Some e => (Some e, x)
      | None =>
          after_store (DeleteASTUnitsByFiles repoID paths x) (λ x,
          after_store (DeleteEdgesByFiles repoID paths x) (λ x,
          after_store (DeleteFilesByPaths repoID paths x) (λ x, (None, x))))
      end
  end.

(** [removeStaleFiles] *)
Definition stale_paths (stored : list File) (current : list RepoFile) : list string :=
  map f_Path (filter (λ f, f_Path f ∉ map wf_Path current) stored).
Definition removeStaleFiles (repoID : string) (stored : list File) (current : list RepoFile) (x : X) : option string * X :=
  removeIndexedPaths repoID (stale_paths stored current) x.

(** [IndexedPathsUnder] *)
Definition IndexedPathsUnder (repoID dir : string) (x : X) : Fallible (list string) * X :=
  let '(files, x) := GetFilesByRepo repoID x in
  match files with
  | inl e => (inl e, x)
  | inr files =>
      let prefix := if negb (String.eqb dir "") && negb (String.eqb dir ".") then Clean dir +:+ "/" else "" in
      (inr (omap (λ f, if String.eqb prefix "" || HasPrefix (f_Path f) prefix then Some (f_Path f) else None) files), x)
  end.

(** [compactIndexes], at the end of a pass, and [CompactIndexes], on demand: the
    types of the indexers it settled. *)
Definition compactIndexes (x : X) : X :=
  foldl (λ x r, match ix_Compact (fst r) with
                | Some compact => match ix_AutoCompact (fst r) with Some false => x | _ => snd (compact x) end
                | None => x
                end) x (by_type (map (λ ix, (ix, tt)) indexers)).
Definition CompactIndexes (x : X) : list string * X :=
  foldl (λ '(took, x) r, match ix_Compact (fst r) with
                         | Some compact => let '(err, x) := compact x in
                             (match err with Some _ => took | None => took ++ [ix_Type (fst r)] end, x)
                         | None => (took, x)
                         end) ([], x) (by_type (map (λ ix, (ix, tt)) indexers)).

(** ** Services and links *)

(** [EncodeUnitMeta]; the keys it is called with here. *)
Definition EncodeUnitMeta (m : UnitMeta) : string :=
  print (JObject (text_field "root" (um_Root m) true ++ text_field "detected_by" (um_DetectedBy m) true ++
                  text_field "scope" (um_Scope m) true ++ text_field "path" (um_Path m) true ++ text_field "summary" (um_Summary m) true)).

(** [detectServices] *)
Definition service_unit (repo : Repo) (s : Service) : ASTUnit := {|
  u_ID := ""; u_RepoID := r_ID repo; u_FilePath := sv_Manifest s; u_Language := ""; u_Kind := KindService; u_Name := sv_Name s;
  u_Qualified := "service:" +:+ r_Name repo +:+ "/" +:+ sv_Name s; u_ParentID := ""; u_StartLine := 1; u_EndLine := 1;
  u_StartByte := 0; u_EndByte := 0; u_Hash := "";
  u_Signature := "root:" +:+ sv_Root s; u_Doc := sv_DetectedBy s;
  u_Meta := EncodeUnitMeta {| um_Root := sv_Root s; um_DetectedBy := sv_DetectedBy s; um_Scope := ""; um_Path := ""; um_Summary := "" |} |}.
Fixpoint store_units (us : list ASTUnit) (x : X) : option string * X :=
  match us with
  | [] => (None, x)
  | u :: us => after_store (StoreASTUnit u x) (store_units us)
  end.
Definition detectServices (d : disk) (repo : Repo) (x : X) : option string * X :=
  let services := DetectServices unmarshal_manifest unmarshal_compose range_builds range_roots d (r_Path repo) (r_Name repo) in
  let '(hints, x) := ReconHints enrich repo x in
  let services := match hints with [] => services | _ => MergeServiceHints services hints end in
  after_store (DeleteASTUnitsByKind (r_ID repo) KindService x) (store_units (map (service_unit repo) services)).

(** [linkRepo]; [link] is the run of the linker, [refine] the pass of the language
    servers, whose failure is only logged. *)
Definition linkRepo (repo : Repo) (x : X) : option string * X :=
  let '(err, x) := link repo x in
  match err with Some e => (Some ("link edges: " +:+ e), x) | None => (None, refine repo x) end.

(** ** The full pass *)

(** [collectSummaryFiles] *)
Definition collectSummaryFiles (acc batch : list FileToIndex) (failed : gset string) : list FileToIndex :=
  let limit := SummaryFileBudget enrich in
  if (limit <=? 0)%Z then []
  else foldl (λ acc f, if (limit <=? Z.of_nat (length acc))%Z then acc
                       else if bool_decide (fi_Path f ∈ failed) then acc else acc ++ [f]) acc batch.

(** The windows of a pass, and how far each reaches. *)
Definition indexBatchFiles : nat := 512.
Fixpoint windows (fuel done : nat) (files : list RepoFile) : list (nat * list RepoFile) :=
  match fuel, files with
  | O, _ | _, [] => []
  | Datatypes.S fuel, _ =>
      let w := take indexBatchFiles files in
      (done + length w, w) :: windows fuel (done + length w) (drop indexBatchFiles files)
  end.

(** The state of the loop over the windows. *)
Record indexing := {
  in_failed : gset string; in_indexed : Z; in_skipped : Z; in_coverage : coverageAccumulator; in_summary : list FileToIndex }.
Definition not_begun : indexing :=
  {| in_failed := ∅; in_indexed := 0; in_skipped := 0; in_coverage := no_tally; in_summary := [] |}.

Definition scan_index (s : scannedFile) : option (FileToIndex * File) :=
  match s with ScanIndex f row => Some (f, row) | _ => None end.
Definition is_skipped (s : scannedFile) : bool := match s with ScanSkipped => true | _ => false end.
Definition index_window (d : disk) (repo : Repo) (known : option (gmap string File)) (force : bool) (window : list RepoFile)
    (st : indexing) (x : X) : (string + indexing) * X :=
  let scanned := map (λ f, scanFile d repo f known) window in
  let toIndex := omap (λ s, fst <$> scan_index s) scanned in
  let processed := omap (λ s, snd <$> scan_index s) scanned in
  match indexFileSet repo toIndex processed force (Some (in_coverage st)) x with
  | (inl err, x) => (inl err, x)
  | (inr (cov, failed), x) =>
      (inr {| in_failed := failed ∪ in_failed st; in_indexed := in_indexed st + Z.of_nat (length toIndex);
              in_skipped := in_skipped st + Z.of_nat (length (filter (λ s, is_skipped s = true) scanned));
              in_coverage := default (in_coverage st) cov;
              in_summary := collectSummaryFiles (in_summary st) toIndex failed |}, x)
  end.
Fixpoint index_windows (d : disk) (repo : Repo) (known : option (gmap string File)) (force : bool) (total : nat)
    (ws : list (nat * list RepoFile)) (st : indexing) (x : X) (b : Bus) : option string * indexing * X * Bus :=
  match ws with
  | [] => (None, st, x, b)
  | (reached, window) :: ws =>
      match index_window d repo known force window st x with
      | (inl err, x) => (Some err, st, x, b)
      | (inr st, x) =>
          index_windows d repo known force total ws st x (IndexProgress (r_ID repo) (Z.of_nat reached) (Z.of_nat total) b)
      end
  end.

(** [storeCoverage]; a summary that cannot be written is only logged. *)
Definition storeCoverage (repoID : string) (a : coverageAccumulator) (complete : bool) (at_ : Z) (x : X) : X :=
  match coverage_summary repoID at_ a with
  | Some summary => if complete then snd (StoreRepoCoverage summary x) else x
  | None => x
  end.

(** The end of a pass that indexed what it could. *)
Definition unfinished (failed : gset string) (indexed : Z) : option string :=
  if decide (failed = ∅) then None
  else Some (Itoa (Z.of_nat (size failed)) +:+ " of " +:+ Itoa indexed +:+
             " files could not be indexed (see logs); they stay unindexed and will be retried").
Definition settle_pass (d : disk) (repo : Repo) (at_ : Z) (st : indexing) (x : X) : option string * X :=
  let x := if (0 <? in_indexed st)%Z then compactIndexes x else x in
  let x := storeCoverage (r_ID repo) (in_coverage st) (in_skipped st =? 0)%Z at_ x in
  let x := if ReconEnabled enrich then snd (ReconRepo enrich repo x) else x in
  let '(err, x) := detectServices d repo x in
  match err with
  | Some e => (Some ("detect services: " +:+ e), x)
  | None =>
      let x := snd (SummarizeRepo enrich repo (in_summary st) x) in
      let x := snd (SummarizeSymbols enrich repo x) in
      let '(err, x) := linkRepo repo x in
      match err with Some e => (Some e, x) | None => (unfinished (in_failed st) (in_indexed st), x) end
  end.

(** [doIndex]; [started], [logged], [stored] and [ended] are the times it reads. *)
Definition known_files (force : bool) (stored : list File) : option (gmap string File) :=
  if force then None else Some (list_to_map (reverse (map (λ f, (f_Path f, f)) stored))).
Definition index_tree (d : disk) (repo : Repo) (force : bool) (started logged stored_at : Z) (x : X) (b : Bus)
    : option string * indexing * X * Bus :=
  match sources (r_Source repo) with
  | None => (Some ("source not available for repo " +:+ r_ID repo), not_begun, x, b)
  | Some source =>
      let '(files, x) := src_GetFiles source repo (IgnorePatternsFor d repo) x in
      match files with
      | inl e => (Some ("get files: " +:+ e), not_begun, x, b)
      | inr files =>
          let b := IndexStarted (r_ID repo) (Z.of_nat (length files)) started logged b in
          let '(stored, x) := GetFilesByRepo (r_ID repo) x in
          match stored with
          | inl e => (Some (store_err "get indexed files: " e), not_begun, x, b)
          | inr stored =>
              let '(err, x) := removeStaleFiles (r_ID repo) stored files x in
              match err with
              | Some e => (Some ("remove stale files: " +:+ e), not_begun, x, b)
              | None =>
                  let '(err, st, x, b) := index_windows d repo (known_files force stored) force (length files)
                                            (windows (length files) 0 files) not_begun x b in
                  match err with
                  | Some e => (Some e, st, x, b)
                  | None => let '(err, x) := settle_pass d repo stored_at st x in (err, st, x, b)
                  end
              end
          end
      end
  end.
Definition doIndex (d : disk) (repo : Repo) (force : bool) (started logged stored ended : Z) (x : X) (b : Bus)
    : option string * X * Bus :=
  let '(err, st, x, b) := index_tree d repo force started logged stored x b in
  let failed := Z.of_nat (size (in_failed st)) in
  (err, x, IndexFinished (r_ID repo) (in_indexed st - failed) failed err ended b).

(** ** The incremental pass ([commits.go]) *)

(** [applyPlan]; [entries] is the plan in the order it is ranged over, and [ignored]
    what [ShouldIgnore] answers in its matcher. *)
Definition needs_source (ignored : string → bool) (entries : list (string * commitPlanEntry)) : bool :=
  existsb (λ '(path, entry), negb (pe_delete entry) && negb (ignored path) && String.eqb (pe_content entry) "") entries.
Definition plan_deletes (ignored : string → bool) (entries : list (string * commitPlanEntry)) : list string :=
  omap (λ '(path, entry), if pe_delete entry || ignored path then Some path else None) entries.
Inductive planned := PlanNothing | PlanUnreadable (path : string) | PlanIndex (f : FileToIndex) (row : File).
Definition plan_entry (d : disk) (repo : Repo) (ignored : string → bool) (e : string * commitPlanEntry) : planned :=
  let '(path, entry) := e in
  if pe_delete entry || ignored path then PlanNothing
  else
    let lang := DetectLanguage path in
    if String.eqb lang "" then PlanNothing
    else
      let index content :=
        let hash := HashContent content in
        PlanIndex {| fi_Path := path; fi_Hash := hash; fi_Language := lang; fi_Content := content |}
                  (file_row (r_ID repo) path hash lang (Z.of_nat (String.length content))) in
      if String.eqb (pe_content entry) "" then
        match os_ReadFile d (JoinPath [r_Path repo; path]) with Content data => index data | _ => PlanUnreadable path end
      else index (pe_content entry).
Definition index_of (p : planned) : option FileToIndex := match p with PlanIndex f _ => Some f | _ => None end.
Definition row_of (p : planned) : option File := match p with PlanIndex _ row => Some row | _ => None end.
Definition unreadable_of (p : planned) : option string := match p with PlanUnreadable path => Some path | _ => None end.
Definition applyPlan (d : disk) (ignored : string → bool) (repo : Repo) (entries : list (string * commitPlanEntry)) (x : X)
    : (string + list string) * X :=
  let deletes := plan_deletes ignored entries in
  let '(err, x) := if needs_source ignored entries
                   then match sources (r_Source repo) with Some source => src_Update source repo x | None => (None, x) end
                   else (None, x) in
  match err with
  | Some e => (inl ("update source: " +:+ e), x)
  | None =>
      let plans := map (plan_entry d repo ignored) entries in
      let toIndex := omap index_of plans in
      let processed := omap row_of plans in
      let unreadable := omap unreadable_of plans in
      let '(err, x) := removeIndexedPaths (r_ID repo) deletes x in
      match err with
      | Some e => (inl e, x)
      | None =>
          match indexFileSet repo toIndex processed true None x with
          | (inl e, x) => (inl e, x)
          | (inr (_, failed), x) =>
              let unapplied := SortStrings (unreadable ++ elements failed) in
              let '(err, x) := detectServices d repo x in
              match err with
              | Some e => (inl ("detect services: " +:+ e), x)
              | None =>
                  let '(err, x) := linkRepo repo x in
                  match err with Some e => (inl e, x) | None => (inr unapplied, x) end
              end
          end
      end
  end.

End Pass.

(** The verdicts [applyPlan] asks its matcher for, about paths below the root. *)
Definition plan_ignored (valid_pattern : string → bool) (glob_match : string → string → option bool)
    (readFile : string → option string) (isDir : string → option bool) (lsFiles : string → option string)
    (patterns : list string) (useGitignore : bool) (repoPath path : string) : bool :=
  snd (ShouldIgnore valid_pattern glob_match readFile isDir lsFiles (NewIgnorePatterns patterns useGitignore)
         repoPath (JoinPath [repoPath; path])).
