(* ===== verification/IndexingPass.v ===== *)
(** * What a full pass leaves behind

    The rows of files are what later passes trust.  Over backends that do what their
    interfaces say, a pass never marks a file as indexed that an indexer failed on,
    and a pass without an error leaves the index in step with the tree: window by
    window, then the pass as a whole. *)

From S2P Require Import Prelude GoStrings GoSort Domain Store Paths Walk Services SqlDriver SqlFiles Commits Progress Indexing.

Abbreviation named := SqlFiles.named.

(** ** Failures told by indexers *)

(** A path an error entry can be attributed to. *)
Definition plain_path (p : string) : Prop := Contains p ": " = false.
Definition entry (p msg : string) : string := p +:+ ": " +:+ msg.

Lemma cut_colon_entry p msg : plain_path p → cut_colon (entry p msg) = Some p.
Proof.
  unfold entry, plain_path. induction p as [|c p IH]; intros Hp; [destruct msg; reflexivity |].
  pose proof Hp as H2. cbn [Contains] in H2. apply orb_false_iff in H2 as [_ H2].
  change (String c p +:+ ": " +:+ msg) with (String c (p +:+ ": " +:+ msg)). cbn [cut_colon].
  assert (HasPrefix (String c (p +:+ ": " +:+ msg)) ": " = false) as ->; [|by rewrite IH].
  apply not_true_iff_false. intros [r [= -> E]]%HasPrefix_inv. destruct p as [|d p]; [done |]. injection E as -> _.
  apply not_true_iff_false in Hp. apply Hp, Contains_spec. by exists "", p.
Qed.

(** What an indexer's result says about the files it failed on: how many, and an
    entry for some of them. *)
Definition reports (res : option IndexResult) (bad : list string) : Prop :=
  match res with
  | None => bad = []
  | Some r => NoDup bad ∧ ir_FilesFailed r = Z.of_nat (length bad) ∧
              ∃ told msg, told `sublist_of` bad ∧ ir_Errors r = map (λ p, entry p (msg p)) told
  end.

Lemma attribute_told told msg batch acc :
  Forall plain_path told → (∀ p, p ∈ told → p ∈ map fi_Path batch) →
  foldl (attribute batch) acc (map (λ p, entry p (msg p)) told) = (fst acc + length told, list_to_set told ∪ snd acc).
Proof.
  revert acc. induction told as [|p told IH]; intros [n failed] Hp Hin; simpl.
  { rewrite Nat.add_0_r. f_equal. set_solver. }
  apply Forall_cons in Hp as [Hp1 Hp]. unfold attribute at 2. rewrite cut_colon_entry by done.
  rewrite bool_decide_eq_true_2, IH; simpl; [f_equal; [lia | set_solver] | done | | ].
  - intros q Hq. apply Hin. by right.
  - apply Hin. by left.
Qed.

Lemma attribute_bounds errs batch acc :
  let out := foldl (attribute batch) acc errs in
  snd acc ⊆ snd out ∧ (∀ p, p ∈ snd out → p ∈ snd acc ∨ p ∈ map fi_Path batch).
Proof.
  revert acc. induction errs as [|e errs IH]; intros acc; simpl; [set_solver |].
  destruct (IH (attribute batch acc e)) as [H1 H2].
  assert (snd acc ⊆ snd (attribute batch acc e) ∧ ∀ p, p ∈ snd (attribute batch acc e) → p ∈ snd acc ∨ p ∈ map fi_Path batch) as [H3 H4].
  { unfold attribute. destruct (cut_colon e); [case_bool_decide |]; set_solver. }
  split; [by etrans |]. intros p Hp. destruct (H2 p Hp); [by apply H4 | by right].
Qed.

Lemma run_failures_bounds r toIndex failed :
  failed ⊆ run_failures r toIndex failed ∧ (∀ p, p ∈ run_failures r toIndex failed → p ∈ failed ∨ p ∈ map fi_Path toIndex).
Proof.
  unfold run_failures. pose proof (attribute_bounds (ir_Errors r) toIndex (0, failed)) as [H1 H2].
  change (foldl (attribute toIndex) (0, failed) (ir_Errors r)) with (attributeFailures (ir_Errors r) toIndex failed) in *.
  destruct (attributeFailures _ _ _) as [n out]. simpl in *. destruct (_ <? _)%Z; [|done].
  split; [set_solver |]. intros p. rewrite elem_of_union, elem_of_list_to_set. intros [|]; [by right | by apply H2].
Qed.

(** Every file an indexer failed on ends up among the failed, whatever it told. *)
Lemma run_failures_all r bad toIndex failed :
  reports (Some r) bad → Forall plain_path bad → (∀ p, p ∈ bad → p ∈ map fi_Path toIndex) →
  ∀ p, p ∈ bad → p ∈ run_failures r toIndex failed.
Proof.
  intros (Hnd & Hn & told & msg & Hsub & He) Hp Hb p Hpb. unfold run_failures, attributeFailures. rewrite He.
  rewrite attribute_told; simpl.
  - destruct (Z.ltb_spec (Z.of_nat (length told)) (ir_FilesFailed r)) as [Hlt|Hle].
    + apply elem_of_union_l, elem_of_list_to_set. by apply Hb.
    + assert (told ≡ₚ bad) as Hperm.
      { apply submseteq_length_Permutation; [by apply sublist_submseteq | lia]. }
      apply elem_of_union_l, elem_of_list_to_set. by rewrite Hperm.
  - rewrite Forall_forall in *. intros q Hin. apply Hp. by eapply sublist_subseteq.
  - intros q Hin. apply Hb. by eapply sublist_subseteq.
Qed.

(** ** Backends that do what their interfaces say *)

Section Laws.
  Context {X : Type} `{PassStore X} (indexers : list (Indexer X)).
  (** The rows of files in a world, and the hash at which the index of a type holds
      a file of a repository. *)
  Context (files_of : X → gmap (string * string) File) (held : X → string → string * string → option string).

(** A step that touches neither. *)
Definition same (x x' : X) : Prop := files_of x' = files_of x ∧ ∀ t k, held x' t k = held x t k.

Class PassLaws : Prop := {
  pl_types : NoDup (map ix_Type indexers);
  pl_rows x k f : files_of x !! k = Some f → file_key f = k;
  pl_get repo x : let '(r, x') := GetFilesByRepo repo x in
    same x x' ∧ match r with inr fs => ∀ f, f ∈ fs ↔ f_RepoID f = repo ∧ files_of x !! file_key f = Some f | inl _ => True end;
  pl_batch fs x : let '(e, x') := BatchStoreFiles fs x in
    (∀ t k, held x' t k = held x t k) ∧ files_of x' = match e with None => foldl put_file (files_of x) fs | Some _ => files_of x end;
  pl_delete repo paths x : let '(e, x') := DeleteFilesByPaths repo paths x in
    (∀ t k, held x' t k = held x t k) ∧
    ∃ gone, (∀ p, p ∈ gone → p ∈ paths) ∧ (e = None → gone = paths) ∧ files_of x' = file_spec (FDeletePaths repo gone) (files_of x);
  pl_units_by_files repo paths x : same x (snd (DeleteASTUnitsByFiles repo paths x));
  pl_edges_by_files repo paths x : same x (snd (DeleteEdgesByFiles repo paths x));
  pl_units_by_kind repo kind x : same x (snd (DeleteASTUnitsByKind repo kind x));
  pl_store_unit u x : same x (snd (StoreASTUnit u x));
  pl_store_coverage c x : same x (snd (StoreRepoCoverage c x));
  (** A run indexes what it is given, but for the files it reports. *)
  pl_index ix req x : ix ∈ indexers → let '((res, err), x') := ix_Index ix req x in
    files_of x' = files_of x ∧
    (∀ t k, t ≠ ix_Type ix ∨ ¬ named (rq_RepoID req) (map fi_Path (rq_Files req)) k → held x' t k = held x t k) ∧
    (err = None → NoDup (map fi_Path (rq_Files req)) → ∃ bad, reports res bad ∧ (∀ p, p ∈ bad → p ∈ map fi_Path (rq_Files req)) ∧
       ∀ f, f ∈ rq_Files req → fi_Path f ∉ bad → held x' (ix_Type ix) (rq_RepoID req, fi_Path f) = Some (fi_Hash f));
  pl_remove ix repo paths x : ix ∈ indexers → let '(err, x') := ix_Remove ix repo paths x in
    files_of x' = files_of x ∧
    (∀ t k, t ≠ ix_Type ix ∨ ¬ named repo paths k → held x' t k = held x t k) ∧
    (err = None → ∀ p, p ∈ paths → held x' (ix_Type ix) (repo, p) = None);
  pl_compact ix f x : ix ∈ indexers → ix_Compact ix = Some f → same x (snd (f x))
}.

Context `{!PassLaws}.

Lemma same_rows_refl x : same x x.
Proof. done. Qed.
Lemma same_rows_trans x y z : same x y → same y z → same x z.
Proof. intros [E1 H1] [E2 H2]. split; [congruence |]. intros t k. by rewrite H2. Qed.

(** All indexes hold a file at a hash. *)
Definition all_hold (x : X) (k : string * string) (hash : string) : Prop :=
  ∀ ix, ix ∈ indexers → held x (ix_Type ix) k = Some hash.

Lemma type_inj ix ix' : ix ∈ indexers → ix' ∈ indexers → ix_Type ix = ix_Type ix' → ix = ix'.
Proof.
  intros [i Hi]%list_elem_of_lookup [j Hj]%list_elem_of_lookup E.
  assert (i = j) as ->; [|congruence]. eapply (NoDup_lookup (map ix_Type indexers)); [apply pl_types | |]; by rewrite list_lookup_fmap, ?Hi, ?Hj; simpl; rewrite ?E.
Qed.

(** ** The runs of a batch *)

(** What a run came to, seen from a later world. *)
Definition run_ok (req : IndexRequest) (x : X) (run : Indexer X * (option IndexResult * option string)) : Prop :=
  let '(ix, (res, err)) := run in
  err = None → ∃ bad, reports res bad ∧ (∀ p, p ∈ bad → p ∈ map fi_Path (rq_Files req)) ∧
    ∀ f, f ∈ rq_Files req → fi_Path f ∉ bad → held x (ix_Type ix) (rq_RepoID req, fi_Path f) = Some (fi_Hash f).

Lemma run_all_spec req ixs x :
  (∀ ix, ix ∈ ixs → ix ∈ indexers) → NoDup (map ix_Type ixs) → NoDup (map fi_Path (rq_Files req)) →
  let '(runs, x') := run_all req ixs x in
  map fst runs = ixs ∧ files_of x' = files_of x ∧
  (∀ t k, t ∉ map ix_Type ixs ∨ ¬ named (rq_RepoID req) (map fi_Path (rq_Files req)) k → held x' t k = held x t k) ∧
  Forall (run_ok req x') runs.
Proof.
  intros Hin Hnd Hfs. revert x Hin Hnd. induction ixs as [|ix ixs IH]; intros x Hin Hnd; simpl; [by split_and! |].
  apply NoDup_cons in Hnd as [Hix Hnd].
  pose proof (pl_index ix req x (Hin ix ltac:(by left))) as H1. destruct (ix_Index ix req x) as [[res err] x1].
  destruct H1 as (Ef & Eh & Hok).
  specialize (IH x1 ltac:(intros; apply Hin; by right) Hnd). destruct (run_all req ixs x1) as [runs x2].
  destruct IH as (E1 & E2 & E3 & E4). split_and!; [by rewrite <- E1 | congruence | |].
  - intros t k Hk. rewrite E3, Eh; [done | |]; set_solver.
  - constructor; [|done]. intros ->. destruct (Hok eq_refl Hfs) as (bad & H1 & H2 & H3). exists bad. split_and!; [done | done |].
    intros f Hf Hb. rewrite E3; [by apply H3 | by left].
Qed.

Lemma judge_spec (runs : list (Indexer X * (option IndexResult * option string))) toIndex (x : X) cov failed cov' failed' :
  Forall (λ f, plain_path (fi_Path f)) toIndex →
  judge runs toIndex x cov failed = inr (cov', failed') →
  failed ⊆ failed' ∧ (∀ p, p ∈ failed' → p ∈ failed ∨ p ∈ map fi_Path toIndex) ∧
  Forall (λ run, snd (snd run) = None ∧
    ∀ bad, reports (fst (snd run)) bad → (∀ p, p ∈ bad → p ∈ map fi_Path toIndex) → ∀ p, p ∈ bad → p ∈ failed') runs.
Proof.
  intros Hp. revert cov failed. induction runs as [|[ix [res err]] runs IH]; intros cov failed; simpl.
  { intros [= <- <-]. split_and!; [done | by left | constructor]. }
  destruct err as [e|]; [done |].
  assert (∀ bad, (∀ p, p ∈ bad → p ∈ map fi_Path toIndex) → Forall plain_path bad) as Hplain.
  { intros bad Hb. apply Forall_forall. intros p Hin%Hb. apply list_elem_of_fmap in Hin as (f & -> & Hf).
    rewrite Forall_forall in Hp. by apply Hp. }
  destruct res as [r|].
  - intros Hj. apply IH in Hj as (H1 & H2 & H3).
    destruct (Z.eqb_spec (ir_FilesFailed r) 0) as [E0|_].
    + split_and!; [done | done |]. constructor; [|done]. split; [done |]. simpl. intros bad (_ & Hn & _).
      rewrite E0 in Hn. destruct bad; [by intros _ p ?%elem_of_nil | simpl in Hn; lia].
    + split_and!.
      * etrans; [apply (run_failures_bounds r toIndex) | exact H1].
      * intros p Hpf. destruct (H2 p Hpf) as [Hf|]; [|by right]. by eapply run_failures_bounds.
      * constructor; [|done]. split; [done |]. simpl. intros bad Hrep Hb p Hpb.
        apply H1. by eapply run_failures_all; eauto.
  - intros Hj. apply IH in Hj as (H1 & H2 & H3). split_and!; [done | done |].
    constructor; [|done]. split; [done |]. simpl. intros bad -> _ p ?%elem_of_nil. done.
Qed.

(** ** One batch *)

Lemma put_files_other fs m k : k ∉ map file_key fs → foldl put_file m fs !! k = m !! k.
Proof.
  revert m. induction fs as [|f fs IH]; intros m; simpl; [done |]. intros [Hk Hfs]%not_elem_of_cons.
  rewrite IH by done. unfold put_file. by rewrite lookup_insert_ne.
Qed.
Lemma put_files_elem fs m f : NoDup (map file_key fs) → f ∈ fs → foldl put_file m fs !! file_key f = Some f.
Proof.
  revert m. induction fs as [|g fs IH]; intros m; simpl; [by intros _ ?%elem_of_nil |].
  intros [Hg Hnd]%NoDup_cons [->|Hf]%elem_of_cons; [|by apply IH].
  rewrite put_files_other by done. unfold put_file. by rewrite lookup_insert_eq.
Qed.

(** The files of a batch and the rows they are to get. *)
Definition batch_ok (repo : Repo) (toIndex : list FileToIndex) (processed : list File) : Prop :=
  NoDup (map fi_Path toIndex) ∧ Forall (λ f, plain_path (fi_Path f)) toIndex ∧
  Forall2 (λ f row, file_key row = (r_ID repo, fi_Path f) ∧ f_Hash row = fi_Hash f ∧ f_Indexed row = true) toIndex processed.

(** A file is marked: its row says that it is indexed at the hash.  It is in step
    when every index does hold it there. *)
Definition marked (x : X) (k : string * string) (hash : string) : Prop :=
  ∃ row, files_of x !! k = Some row ∧ f_Hash row = hash ∧ f_Indexed row = true.
Definition in_step (x : X) (k : string * string) (hash : string) : Prop := marked x k hash ∧ all_hold x k hash.

Definition untouched (x x' : X) (k : string * string) : Prop :=
  files_of x' !! k = files_of x !! k ∧ ∀ t, held x' t k = held x t k.

Lemma batch_keys repo toIndex processed :
  batch_ok repo toIndex processed → map file_key processed = map (λ f, (r_ID repo, fi_Path f)) toIndex.
Proof. intros (_ & _ & Hb). induction Hb as [|f row fs rows [E _] _ IH]; simpl; [done |]. by rewrite E, IH. Qed.

Lemma filter_file_keys (P : File → Prop) `{∀ f, Decision (P f)} fs k : k ∈ map file_key (filter P fs) → k ∈ map file_key fs.
Proof. intros (f & -> & [_ Hf]%list_elem_of_filter)%list_elem_of_fmap. by apply list_elem_of_fmap_2. Qed.

Lemma NoDup_filter_keys (P : File → Prop) `{∀ f, Decision (P f)} fs : NoDup (map file_key fs) → NoDup (map file_key (filter P fs)).
Proof.
  induction fs as [|f fs IH]; simpl; [done |]. intros [Hf Hnd]%NoDup_cons. rewrite filter_cons.
  destruct (decide (P f)); [|by apply IH]. simpl. constructor; [|by apply IH]. intros Hk%filter_file_keys. done.
Qed.

Lemma indexFileSet_spec schedule repo toIndex processed force cov x :
  schedule indexers ≡ₚ indexers → batch_ok repo toIndex processed →
  let '(r, x') := indexFileSet indexers schedule repo toIndex processed force cov x in
  (∀ k, ¬ named (r_ID repo) (map fi_Path toIndex) k → untouched x x' k) ∧
  match r with
  | inl _ => files_of x' = files_of x
  | inr (_, failed) =>
      (∀ p, p ∈ failed → p ∈ map fi_Path toIndex ∧ files_of x' !! (r_ID repo, p) = files_of x !! (r_ID repo, p)) ∧
      ∀ f, f ∈ toIndex → fi_Path f ∉ failed → in_step x' (r_ID repo, fi_Path f) (fi_Hash f)
  end.
Proof.
  intros Hs Hb. pose proof (batch_keys _ _ _ Hb) as Hkeys. pose proof Hb as (Hnd & Hplain & Hrows).
  unfold indexFileSet. destruct toIndex as [|f0 fs0] eqn:Et.
  { split; [done |]. split; [intros p ?%elem_of_empty; done | by intros f ?%elem_of_nil]. }
  rewrite <- Et in *. clear f0 fs0 Et. set (req := Build_IndexRequest _ _ _ _ _).
  pose proof (run_all_spec req (schedule indexers) x) as Hrun.
  destruct (run_all req (schedule indexers) x) as [runs x1]. destruct Hrun as (Hr1 & Hr2 & Hr3 & Hr4).
  { intros ix. by rewrite Hs. } { rewrite (Permutation_map ix_Type Hs). apply pl_types. } { done. }
  assert (∀ k, ¬ named (r_ID repo) (map fi_Path toIndex) k → ∀ t, held x1 t k = held x t k) as Hheld1.
  { intros k Hk t. apply Hr3. by right. }
  assert (by_type runs ≡ₚ runs) as Hperm by apply SliceSort_perm.
  destruct (judge (by_type runs) toIndex x1 cov ∅) as [err|[cov' failed]] eqn:Ej.
  { split; [|done]. intros k Hk. split; [by rewrite Hr2 | by apply Hheld1]. }
  apply judge_spec in Ej as (_ & Hfailed & Hall); [|done].
  pose proof (pl_batch (filter (λ f, f_Path f ∉ failed) processed) x1) as Hst.
  destruct (BatchStoreFiles _ x1) as [[e|] x2]; destruct Hst as (Hh2 & Hf2).
  { split; [|congruence]. intros k Hk. split; [by rewrite Hf2, Hr2 | intros t; rewrite Hh2; by apply Hheld1]. }
  split; [|split].
  - intros k Hk. split; [|intros t; rewrite Hh2; by apply Hheld1].
    rewrite Hf2, put_files_other, Hr2; [done |]. intros Hin%filter_file_keys. rewrite Hkeys in Hin.
    apply list_elem_of_fmap in Hin as (f & -> & Hf). apply Hk. split; [done |]. apply list_elem_of_fmap. by exists f.
  - intros p Hp. destruct (Hfailed p Hp) as [?%elem_of_empty|Hin]; [done |]. split; [done |].
    rewrite Hf2, put_files_other, Hr2; [done |]. intros (f & E & [Hnf Hf]%list_elem_of_filter)%list_elem_of_fmap.
    unfold file_key in E. injection E as _ Ep. rewrite Ep in Hp. done.
  - intros f Hf Hnf. apply list_elem_of_lookup in Hf as Hi. destruct Hi as [i Hi].
    destruct (Forall2_lookup_l _ _ _ _ _ Hrows Hi) as (row & Hrow & Ek & Eh & Ei). split.
    + exists row. split; [|done]. rewrite Hf2, <- Ek. apply put_files_elem.
      * apply NoDup_filter_keys. rewrite Hkeys. rewrite <- (map_map fi_Path (λ p, (r_ID repo, p))).
        apply NoDup_fmap_2_strong; [by intros ? ? _ _ [= ->] | done].
      * apply list_elem_of_filter. split; [|by eapply list_elem_of_lookup_2].
        unfold file_key in Ek. injection Ek as _ ->. done.
    + intros ix Hix. rewrite Hh2.
      assert (ix ∈ map fst runs) as Hin by by rewrite Hr1, Hs.
      apply list_elem_of_fmap in Hin as ([ix' [res err]] & -> & Hin).
      rewrite Forall_forall in Hr4, Hall. pose proof (Hr4 _ Hin) as Hok.
      rewrite <- Hperm in Hin. destruct (Hall _ Hin) as [He Hbad]. simpl in He. subst err.
      destruct (Hok eq_refl) as (bad & H1 & H2 & H3). apply (H3 f Hf). intros Hfb. apply Hnf. by apply (Hbad bad).
Qed.

Lemma untouched_refl x k : untouched x x k.
Proof. done. Qed.
Lemma untouched_trans x y z k : untouched x y k → untouched y z k → untouched x z k.
Proof. intros [E1 H1] [E2 H2]. split; [congruence |]. intros t. by rewrite H2. Qed.
Lemma same_untouched x x' k : same x x' → untouched x x' k.
Proof. intros [E Hh]. split; [by rewrite E | intros t; apply Hh]. Qed.
Lemma untouched_in_step x x' k hash : untouched x x' k → in_step x k hash → in_step x' k hash.
Proof. intros [E Hh] [Hr Ha]. split; [by unfold marked; rewrite E |]. intros ix Hix. rewrite Hh. by apply Ha. Qed.

(** ** Removing *)

Lemma remove_from_spec ixs repoID paths x :
  (∀ ix, ix ∈ ixs → ix ∈ indexers) → NoDup (map ix_Type ixs) →
  let '(err, x') := remove_from ixs repoID paths x in
  files_of x' = files_of x ∧
  (∀ t k, ¬ named repoID paths k → held x' t k = held x t k) ∧
  (∀ t k, t ∉ map ix_Type ixs → held x' t k = held x t k) ∧
  (err = None → ∀ ix p, ix ∈ ixs → p ∈ paths → held x' (ix_Type ix) (repoID, p) = None).
Proof.
  revert x. induction ixs as [|ix ixs IH]; intros x Hin Hnd; simpl; [by split_and!; try (intros _ ? ? ?%elem_of_nil) |].
  apply NoDup_cons in Hnd as [Hix Hnd].
  pose proof (pl_remove ix repoID paths x (Hin ix ltac:(by left))) as H1. destruct (ix_Remove ix repoID paths x) as [[e|] x1];
    destruct H1 as (Ef & Eh & Hok).
  { split_and!; [done | intros t k Hk; apply Eh; by right | | done]. intros t k [Ht _]%not_elem_of_cons. apply Eh. by left. }
  specialize (IH x1 ltac:(intros; apply Hin; by right) Hnd). destruct (remove_from ixs repoID paths x1) as [err x2].
  destruct IH as (E1 & E2 & E3 & E4). split_and!; [congruence | | |].
  - intros t k Hk. rewrite E2, Eh; [done | by right | done].
  - intros t k [Ht Hts]%not_elem_of_cons. rewrite E3, Eh; [done | by left | done].
  - intros He ix' p [->|Hix']%elem_of_cons Hp; [|by apply E4]. rewrite E3 by done. by apply Hok.
Qed.

Lemma removeIndexedPaths_spec repoID paths x :
  let '(err, x') := removeIndexedPaths indexers repoID paths x in
  (∀ k, ¬ named repoID paths k → untouched x x' k) ∧
  (∀ k f, files_of x' !! k = Some f → files_of x !! k = Some f) ∧
  (err = None → ∀ p, p ∈ paths → files_of x' !! (repoID, p) = None ∧ ∀ ix, ix ∈ indexers → held x' (ix_Type ix) (repoID, p) = None).
Proof.
  unfold removeIndexedPaths. destruct paths as [|p0 ps] eqn:Ep.
  { split_and!; [done | done | by intros _ p ?%elem_of_nil]. }
  rewrite <- Ep. clear p0 ps Ep.
  pose proof (remove_from_spec indexers repoID paths x (λ _ H, H) pl_types) as H1.
  destruct (remove_from indexers repoID paths x) as [[e|] x1]; destruct H1 as (E1 & E2 & _ & E4).
  { split_and!; [intros k Hk; split; [by rewrite E1 | intros t; by apply E2] | by rewrite E1 | done]. }
  assert (∀ k, ¬ named repoID paths k → untouched x x1 k) as U1 by (intros k Hk; split; [by rewrite E1 | intros t; by apply E2]).
  pose proof (pl_units_by_files repoID paths x1) as S2. unfold after_store.
  destruct (DeleteASTUnitsByFiles repoID paths x1) as [[e|] x2]; simpl in S2.
  { split_and!; [|by rewrite (proj1 S2), E1 | done]. intros k Hk. eapply untouched_trans; [by apply U1 | by apply same_untouched]. }
  pose proof (pl_edges_by_files repoID paths x2) as S3.
  destruct (DeleteEdgesByFiles repoID paths x2) as [[e|] x3]; simpl in S3; pose proof (same_rows_trans _ _ _ S2 S3) as S.
  { split_and!; [|by rewrite (proj1 S), E1 | done]. intros k Hk. eapply untouched_trans; [by apply U1 | by apply same_untouched]. }
  pose proof (pl_delete repoID paths x3) as S4. destruct (DeleteFilesByPaths repoID paths x3) as [e x4].
  destruct S4 as (Hh & gone & Hg1 & Hg2 & Hf). rewrite (proj1 S), E1 in Hf. simpl in Hf.
  assert (∀ k f, files_of x4 !! k = Some f → files_of x !! k = Some f) as Hold.
  { intros k f. rewrite Hf, map_lookup_filter_Some. tauto. }
  assert (∀ t k, held x4 t k = held x1 t k) as Hheld by (intros t k; by rewrite Hh, (proj2 S)).
  assert (∀ k, ¬ named repoID paths k → untouched x x4 k) as U4.
  { intros k Hk. split; [|intros t; rewrite Hheld; by apply E2]. rewrite Hf. apply option_eq. intros f.
    rewrite map_lookup_filter_Some. split; [tauto |]. intros Hx. split; [done |]. simpl. intros [H1 H2%Hg1]. by apply Hk. }
  destruct e as [e|]; split_and!; [done | done | done | done | done |].
  intros _ p Hp. split; [|intros ix Hix; rewrite Hheld; by apply E4].
  rewrite Hf. apply map_lookup_filter_None. right. intros f _ Hn. apply Hn. simpl. split; [done |]. by rewrite Hg2.
Qed.
End Laws.

Section Pass.
  Context {X : Type} `{PassStore X} (indexers : list (Indexer X)).
  Context (files_of : X → gmap (string * string) File) (held : X → string → string * string → option string).
  Context `{!PassLaws indexers files_of held}.
  Context (schedule : list (Indexer X) → list (Indexer X)) (Hsched : schedule indexers ≡ₚ indexers).
  Context (sources : string → option (RepoSource X)) (HashContent : string → string).
  Context (unmarshal_manifest : string → string + (list ManifestService * list string)).
  Context (unmarshal_compose : string → string + gmap string any).
  Context (range_builds : gmap string any → list (string * any)) (range_roots : gmap string Service → list (string * Service)).
  Context (server_patterns : list string) (enrich : Enrichment X).
  Context (link : Repo → X → option string * X) (refine : Repo → X → X).

  Abbreviation same := (same files_of held).
  Abbreviation untouched := (untouched files_of held).
  Abbreviation in_step := (in_step indexers files_of held).
  Abbreviation scanFile := (scanFile HashContent).
  Abbreviation index_window := (index_window indexers schedule HashContent enrich).
  Abbreviation index_windows := (index_windows indexers schedule HashContent enrich).

(** ** Scanning *)

Section Tree.
  Context (d : disk) (repo : Repo) (known : option (gmap string File)).

(** A file of the tree can be read, and what it holds. *)
Definition readable (path content : string) : Prop :=
  os_Stat d (JoinPath [r_Path repo; path]) = true ∧ os_Regular d (JoinPath [r_Path repo; path]) = true ∧
  os_ReadFile d (JoinPath [r_Path repo; path]) = Content content.

Lemma scanFile_index rf f row :
  scanFile d repo rf known = ScanIndex f row →
  fi_Path f = wf_Path rf ∧ file_key row = (r_ID repo, wf_Path rf) ∧ f_Hash row = fi_Hash f ∧ f_Indexed row = true ∧
  ∃ content, readable (wf_Path rf) content ∧ fi_Hash f = HashContent content ∧ unchanged known (wf_Path rf) (fi_Hash f) = false.
Proof.
  unfold Indexing.scanFile, readable. destruct (os_Stat _ _), (os_Regular _ _); simpl; try done.
  destruct (os_ReadFile _ _) as [content| |] eqn:Er; try done. destruct (unchanged _ _ _) eqn:Eu; [done |].
  intros [= <- <-]. split_and!; try done. by exists content.
Qed.

Lemma scanFile_readable rf content :
  readable (wf_Path rf) content →
  (unchanged known (wf_Path rf) (HashContent content) = true ∧ scanFile d repo rf known = ScanSkipped) ∨
  (unchanged known (wf_Path rf) (HashContent content) = false ∧
   ∃ f row, scanFile d repo rf known = ScanIndex f row ∧ fi_Path f = wf_Path rf ∧ fi_Hash f = HashContent content).
Proof.
  intros (E1 & E2 & E3). unfold Indexing.scanFile. rewrite E1, E2, E3. simpl.
  destruct (unchanged _ _ _); [by left | right]. split; [done |]. by eexists _, _.
Qed.

(** The files a list of listed files gives the indexers. *)
Definition attempted (fs : list RepoFile) : list FileToIndex := omap (λ rf, fst <$> scan_index (scanFile d repo rf known)) fs.
Definition rows (fs : list RepoFile) : list File := omap (λ rf, snd <$> scan_index (scanFile d repo rf known)) fs.

Lemma attempted_elem fs f :
  f ∈ attempted fs ↔ ∃ rf row, rf ∈ fs ∧ scanFile d repo rf known = ScanIndex f row.
Proof.
  unfold attempted. rewrite list_elem_of_omap. split.
  - intros (rf & Hin & E). exists rf. destruct (scanFile _ _ _ _) as [f' row| |]; simpl in E; try done. injection E as ->. by exists row.
  - intros (rf & row & Hin & E). exists rf. split; [done |]. by rewrite E.
Qed.
Lemma attempted_path fs f : f ∈ attempted fs → fi_Path f ∈ map wf_Path fs.
Proof.
  intros (rf & row & Hin & E)%attempted_elem. apply scanFile_index in E as (-> & _). apply list_elem_of_fmap. by exists rf.
Qed.

Lemma window_batch fs :
  NoDup (map wf_Path fs) → Forall (λ rf, plain_path (wf_Path rf)) fs → batch_ok repo (attempted fs) (rows fs).
Proof.
  intros Hnd Hp. unfold batch_ok. induction fs as [|rf fs IH]; simpl; [split_and!; constructor |].
  apply NoDup_cons in Hnd as [Hrf Hnd]. apply Forall_cons in Hp as [Hp1 Hp]. destruct (IH Hnd Hp) as (H1 & H2 & H3).
  destruct (scanFile d repo rf known) as [f row| |] eqn:E; simpl; [|by split_and!..].
  apply scanFile_index in E as (Ef & Ek & Eh & Ei & _). split_and!.
  - constructor; [|done]. rewrite Ef. intros (f' & E & Hin%attempted_path)%list_elem_of_fmap. apply Hrf. by rewrite E.
  - constructor; [by rewrite Ef | done].
  - constructor; [by rewrite Ef | done].
Qed.

(** ** The windows *)

Lemma index_window_spec force fs st x :
  NoDup (map wf_Path fs) → Forall (λ rf, plain_path (wf_Path rf)) fs →
  let '(r, x') := index_window d repo known force fs st x in
  (∀ k, ¬ SqlFiles.named (r_ID repo) (map fi_Path (attempted fs)) k → untouched x x' k) ∧
  match r with
  | inl _ => files_of x' = files_of x
  | inr st' => ∃ failed, in_failed st' = failed ∪ in_failed st ∧
      (∀ p, p ∈ failed → p ∈ map fi_Path (attempted fs) ∧ files_of x' !! (r_ID repo, p) = files_of x !! (r_ID repo, p)) ∧
      ∀ f, f ∈ attempted fs → fi_Path f ∉ failed → in_step x' (r_ID repo, fi_Path f) (fi_Hash f)
  end.
Proof.
  intros Hnd Hp. pose proof (window_batch fs Hnd Hp) as Hb. unfold Indexing.index_window.
  assert (∀ {B} (g : scannedFile → option B), omap g (map (λ f, scanFile d repo f known) fs) = omap (λ f, g (scanFile d repo f known)) fs) as Ho.
  { intros B g. clear. induction fs as [|f fs IH]; simpl; [done |]. destruct (g _); [f_equal |]; exact IH. }
  rewrite !Ho. fold (attempted fs) (rows fs).
  pose proof (indexFileSet_spec indexers files_of held schedule repo (attempted fs) (rows fs) force (Some (in_coverage st)) x Hsched Hb) as Hs.
  destruct (indexFileSet _ _ _ _ _ _ _ _) as [[err|[cov failed]] x']; [done |].
  destruct Hs as (H1 & H2 & H3). split; [done |]. simpl. by exists failed.
Qed.

(** What a file attempted by a pass comes to: its row is the old one, or it is in
    step with the tree. *)
Definition settled (x x' : X) (f : FileToIndex) : Prop :=
  files_of x' !! (r_ID repo, fi_Path f) = files_of x !! (r_ID repo, fi_Path f) ∨ in_step x' (r_ID repo, fi_Path f) (fi_Hash f).

Lemma index_windows_spec force total ws st x b :
  let fs := concat (map snd ws) in
  NoDup (map wf_Path fs) → Forall (λ rf, plain_path (wf_Path rf)) fs →
  let '(err, st', x', b') := index_windows d repo known force total ws st x b in
  (∀ k, ¬ SqlFiles.named (r_ID repo) (map fi_Path (attempted fs)) k → untouched x x' k) ∧
  (∀ f, f ∈ attempted fs → settled x x' f) ∧
  in_failed st ⊆ in_failed st' ∧
  (err = None → ∀ f, f ∈ attempted fs → fi_Path f ∉ in_failed st' → in_step x' (r_ID repo, fi_Path f) (fi_Hash f)).
Proof.
  revert st x b. induction ws as [|[n w] ws IH]; intros st x b fs Hnd Hp; simpl.
  { split_and!; [done | by intros f ?%elem_of_nil | done | by intros _ f ?%elem_of_nil]. }
  subst fs. simpl in Hnd, Hp. rewrite map_app in Hnd. apply NoDup_app in Hnd as (Hnd1 & Hdis & Hnd2). apply Forall_app in Hp as [Hp1 Hp2].
  assert (∀ g, attempted (w ++ g) = attempted w ++ attempted g) as Happ by (intros; apply omap_app).
  simpl. rewrite Happ, map_app.
  assert (∀ f, f ∈ attempted w → ¬ SqlFiles.named (r_ID repo) (map fi_Path (attempted (concat (map snd ws)))) (r_ID repo, fi_Path f)) as Hout.
  { intros f Hf [_ Hin]. simpl in Hin. apply list_elem_of_fmap in Hin as (g & E & Hg).
    apply (Hdis (fi_Path f)); [by apply attempted_path | rewrite E; by apply attempted_path]. }
  assert (∀ f, f ∈ attempted (concat (map snd ws)) → ¬ SqlFiles.named (r_ID repo) (map fi_Path (attempted w)) (r_ID repo, fi_Path f)) as Hout'.
  { intros f Hf [_ Hin]. simpl in Hin. apply list_elem_of_fmap in Hin as (g & E & Hg).
    apply (Hdis (fi_Path g)); [by apply attempted_path | rewrite <- E; by apply attempted_path]. }
  pose proof (index_window_spec force w st x Hnd1 Hp1) as Hw.
  destruct (index_window d repo known force w st x) as [[err|st1] x1]; destruct Hw as [U1 Hw].
  { split_and!; [| |done|done].
    - intros k Hk. apply U1. intros [E Hin]. apply Hk. split; [done |]. apply elem_of_app. by left.
    - intros f Hf. left. by rewrite Hw. }
  destruct Hw as (failed & Ef & Hfailed & Hstep).
  specialize (IH st1 x1 (IndexProgress (r_ID repo) (Z.of_nat n) (Z.of_nat total) b) Hnd2 Hp2).
  destruct (index_windows _ _ _ _ _ _ _ _ _) as [[[err st2] x2] b2]. destruct IH as (U2 & S2 & F2 & C2).
  split_and!.
  - intros k Hk. eapply untouched_trans; [apply U1 | apply U2]; intros [E Hin]; apply Hk; (split; [done |]); apply elem_of_app; auto.
  - intros f [Hf|Hf]%elem_of_app.
    + pose proof (U2 _ (Hout f Hf)) as U. destruct (decide (fi_Path f ∈ failed)) as [Hin|Hin].
      * left. rewrite (proj1 U). by apply Hfailed.
      * right. eapply untouched_in_step; [exact U | by apply Hstep].
    + destruct (S2 f Hf) as [E|E]; [left | by right]. rewrite E. apply U1. by apply Hout'.
  - rewrite Ef in F2. set_solver.
  - intros He f [Hf|Hf]%elem_of_app Hnf; [|by apply C2].
    eapply untouched_in_step; [by apply U2, Hout |]. apply Hstep; [done |]. rewrite Ef in F2. set_solver.
Qed.

Lemma windows_concat fuel n fs : length fs ≤ fuel → concat (map snd (windows fuel n fs)) = fs.
Proof.
  revert n fs. induction fuel as [|fuel IH]; intros n fs Hl; [by destruct fs; simpl in *; [|lia] |].
  destruct fs as [|f fs]; [done |]. cbn [windows]. simpl map. simpl concat. rewrite IH; [apply (take_drop indexBatchFiles (f :: fs)) |].
  rewrite length_drop. unfold indexBatchFiles. simpl in *. lia.
Qed.
End Tree.

(** ** The rest of a pass *)

(** What the other parts of the program do to the rows and indexes: nothing. *)
Class Quiet : Prop := {
  q_files name source repo ps x : sources name = Some source → same x (snd (src_GetFiles source repo ps x));
  q_update name source repo x : sources name = Some source → same x (snd (src_Update source repo x));
  q_recon repo x : same x (snd (ReconRepo enrich repo x));
  q_hints repo x : same x (snd (ReconHints enrich repo x));
  q_summarize repo fs x : same x (snd (SummarizeRepo enrich repo fs x));
  q_symbols repo x : same x (snd (SummarizeSymbols enrich repo x));
  q_link repo x : same x (snd (link repo x));
  q_refine repo x : same x (refine repo x)
}.
Context `{!Quiet}.

Lemma compactIndexes_same x : same x (compactIndexes indexers x).
Proof.
  unfold compactIndexes.
  assert (∀ r, r ∈ by_type (map (λ ix : Indexer X, (ix, tt)) indexers) → fst r ∈ indexers) as Hin.
  { intros r. unfold by_type. rewrite (SliceSort_perm _ _). intros (ix & -> & Hix)%list_elem_of_fmap. done. }
  revert x Hin. induction (by_type _) as [|[ix []] rs IH]; intros x Hin; simpl; [done |].
  eapply same_rows_trans; [|apply IH; intros; apply Hin; by right].
  destruct (ix_Compact ix) as [f|] eqn:Ef; [|done].
  pose proof (pl_compact _ files_of held ix f x (Hin (ix, tt) ltac:(by left)) Ef) as Hs. by destruct (ix_AutoCompact ix) as [[]|].
Qed.

Abbreviation detectServices := (detectServices unmarshal_manifest unmarshal_compose range_builds range_roots enrich).
Lemma store_units_same us x : same x (snd (store_units us x)).
Proof.
  revert x. induction us as [|u us IH]; intros x; simpl; [done |]. pose proof (pl_store_unit indexers files_of held u x) as Hs. unfold after_store.
  destruct (StoreASTUnit u x) as [[e|] x1]; simpl in *; [done |]. eapply same_rows_trans; [exact Hs | apply IH].
Qed.
Lemma detectServices_same d repo x : same x (snd (detectServices d repo x)).
Proof.
  unfold Indexing.detectServices. pose proof (q_hints repo x) as H1. destruct (ReconHints enrich repo x) as [hints x1]. simpl in H1.
  pose proof (pl_units_by_kind indexers files_of held (r_ID repo) KindService x1) as H2. unfold after_store.
  destruct (DeleteASTUnitsByKind _ _ x1) as [[e|] x2]; simpl in *; [by eapply same_rows_trans |].
  eapply same_rows_trans; [exact H1 |]. eapply same_rows_trans; [exact H2 | apply store_units_same].
Qed.
Lemma linkRepo_same repo x : same x (snd (linkRepo link refine repo x)).
Proof.
  unfold linkRepo. pose proof (q_link repo x) as H1. destruct (link repo x) as [[e|] x1]; simpl in *; [done |].
  eapply same_rows_trans; [exact H1 | apply q_refine].
Qed.
Lemma storeCoverage_same repoID a complete at_ x : same x (storeCoverage repoID a complete at_ x).
Proof.
  unfold storeCoverage. destruct (coverage_summary repoID at_ a) as [c|]; [|done]. destruct complete; [apply (pl_store_coverage indexers files_of held) | done].
Qed.

Abbreviation settle_pass := (settle_pass indexers unmarshal_manifest unmarshal_compose range_builds range_roots enrich link refine).
Lemma settle_pass_same d repo at_ st x :
  let '(err, x') := settle_pass d repo at_ st x in same x x' ∧ (err = None → in_failed st = ∅).
Proof.
  unfold Indexing.settle_pass.
  set (x1 := if (0 <? in_indexed st)%Z then _ else x). set (x2 := storeCoverage _ _ _ _ x1).
  set (x3 := if ReconEnabled enrich then _ else x2).
  assert (same x x3) as H3.
  { eapply same_rows_trans; [|unfold x3; destruct (ReconEnabled enrich); [apply q_recon | done]].
    eapply same_rows_trans; [|apply storeCoverage_same]. unfold x1. destruct (_ <? _)%Z; [apply compactIndexes_same | done]. }
  clearbody x3. pose proof (detectServices_same d repo x3) as H4. destruct (detectServices d repo x3) as [[e|] x4]; simpl in H4.
  { split; [by eapply same_rows_trans | done]. }
  set (x5 := snd (SummarizeSymbols _ _ _)). assert (same x4 x5) as H5 by (eapply same_rows_trans; [apply q_summarize | apply q_symbols]).
  clearbody x5. pose proof (linkRepo_same repo x5) as H6.
  assert (∀ y, same x5 y → same x y) as Hall by (intros y Hy; do 2 (eapply same_rows_trans; [eassumption |]); by eapply same_rows_trans).
  destruct (linkRepo _ _ repo x5) as [[e|] x6]; simpl in H6; (split; [by apply Hall |]); [done |].
  unfold unfinished. by destruct (decide (in_failed st = ∅)).
Qed.

(** ** The pass *)

(** The rows of a repository say what every index holds. *)
Definition rows_true (repoID : string) (x : X) : Prop :=
  ∀ p row, files_of x !! (repoID, p) = Some row → f_Indexed row = true → all_hold indexers held x (repoID, p) (f_Hash row).

Lemma stored_rows repoID x stored p row :
  (∀ f, f ∈ stored ↔ f_RepoID f = repoID ∧ files_of x !! file_key f = Some f) →
  (list_to_map (reverse (map (λ f, (f_Path f, f)) stored)) : gmap string File) !! p = Some row ↔ files_of x !! (repoID, p) = Some row.
Proof.
  intros Hs.
  assert (∀ f, (p, f) ∈ reverse (map (λ f, (f_Path f, f)) stored) ↔ files_of x !! (repoID, p) = Some f) as Hin.
  { intros f. rewrite elem_of_reverse, list_elem_of_fmap. split.
    - intros (g & [= -> ->] & [<- Hg]%Hs). exact Hg.
    - intros Hf. pose proof (pl_rows indexers files_of held _ _ _ Hf) as Hk. unfold file_key in Hk. injection Hk as E1 E2.
      exists f. split; [by rewrite E2 |]. apply Hs. unfold file_key. by rewrite E1, E2. }
  split.
  - intros H1%elem_of_list_to_map_2. by apply Hin.
  - intros Hf. destruct (_ !! p) as [g|] eqn:Eg.
    + apply elem_of_list_to_map_2, Hin in Eg. congruence.
    + apply not_elem_of_list_to_map in Eg. destruct Eg. apply list_elem_of_fmap. exists (p, row). split; [done |]. by apply Hin.
Qed.

Lemma known_unchanged force repoID x stored p hash :
  (∀ f, f ∈ stored ↔ f_RepoID f = repoID ∧ files_of x !! file_key f = Some f) →
  unchanged (known_files force stored) p hash = true ↔
  force = false ∧ ∃ row, files_of x !! (repoID, p) = Some row ∧ f_Indexed row = true ∧ f_Hash row = hash.
Proof.
  intros Hs. unfold unchanged, known_files. destruct force; simpl; [split; [done | by intros [? _]] |].
  destruct (_ !! p) as [row|] eqn:E.
  - apply (stored_rows repoID x stored p row Hs) in E. rewrite andb_true_iff, String.eqb_eq. split.
    + intros [H1 H2]. split; [done |]. by exists row.
    + intros (_ & row' & H1 & H2 & H3). by simplify_eq.
  - split; [done |]. intros (_ & row & H1 & _). apply (stored_rows repoID x stored p row Hs) in H1. congruence.
Qed.

Abbreviation index_tree := (index_tree indexers schedule sources HashContent unmarshal_manifest unmarshal_compose range_builds
  range_roots server_patterns enrich link refine).
Abbreviation doIndex := (doIndex indexers schedule sources HashContent unmarshal_manifest unmarshal_compose range_builds
  range_roots server_patterns enrich link refine).
Abbreviation IgnorePatternsFor := (IgnorePatternsFor unmarshal_manifest server_patterns).

(** The listing of a tree: every file once, under a path error entries can name. *)
Definition listing_ok (files : list RepoFile) : Prop :=
  NoDup (map wf_Path files) ∧ Forall (λ rf, plain_path (wf_Path rf)) files.

(** What a pass does about one path, listed or not. *)
Record path_after (d : disk) (repo : Repo) (force : bool) (files : list RepoFile) (x x' : X) (err : option string) (p : string) : Prop := {
  (** A row that is new is in step; one that stays was not asked for, or was and
      failed. *)
  pa_row row : files_of x' !! (r_ID repo, p) = Some row →
    files_of x !! (r_ID repo, p) = Some row ∨ all_hold indexers held x' (r_ID repo, p) (f_Hash row);
  (** What nobody asked to change is untouched. *)
  pa_kept row content : p ∈ map wf_Path files → readable d repo p content → force = false →
    files_of x !! (r_ID repo, p) = Some row → f_Indexed row = true → f_Hash row = HashContent content → untouched x x' (r_ID repo, p);
  pa_unreadable : p ∈ map wf_Path files → (∀ content, ¬ readable d repo p content) → untouched x x' (r_ID repo, p);
  (** What is not listed loses its row, and what the indexes hold of it when it had
      one: removal goes by the rows. *)
  pa_stale : err = None → p ∉ map wf_Path files → files_of x' !! (r_ID repo, p) = None ∧
    ((∃ row, files_of x !! (r_ID repo, p) = Some row) → ∀ ix, ix ∈ indexers → held x' (ix_Type ix) (r_ID repo, p) = None) ∧
    (files_of x !! (r_ID repo, p) = None → untouched x x' (r_ID repo, p));
  pa_done content : err = None → p ∈ map wf_Path files → readable d repo p content →
    untouched x x' (r_ID repo, p) ∧ force = false ∧
      (∃ row, files_of x !! (r_ID repo, p) = Some row ∧ f_Indexed row = true ∧ f_Hash row = HashContent content) ∨
    in_step x' (r_ID repo, p) (HashContent content)
}.

Lemma index_tree_spec d repo force t1 t2 t3 x b source files x1 :
  sources (r_Source repo) = Some source →
  src_GetFiles source repo (IgnorePatternsFor d repo) x = (inr files, x1) → listing_ok files →
  let '(err, st, x', b') := index_tree d repo force t1 t2 t3 x b in
  (∀ k, fst k ≠ r_ID repo → untouched x x' k) ∧ ∀ p, path_after d repo force files x x' err p.
Proof.
  intros Hsrc Hfiles [Hnd Hplain]. unfold Indexing.index_tree. rewrite Hsrc, Hfiles.
  pose proof (q_files _ source repo (IgnorePatternsFor d repo) x Hsrc) as S1. rewrite Hfiles in S1. simpl in S1.
  pose proof (pl_get indexers files_of held (r_ID repo) x1) as H2.
  destruct (GetFilesByRepo (r_ID repo) x1) as [[e|stored] x2]; destruct H2 as [S2 Hst]; pose proof (same_rows_trans _ _ _ _ _ S1 S2) as S12.
  { split; [intros k _; by apply same_untouched |]. intros p. split; try done.
    - intros row. rewrite (proj1 S12). by left.
    - intros. by apply same_untouched.
    - intros. by apply same_untouched. }
  assert (∀ f, f ∈ stored ↔ f_RepoID f = r_ID repo ∧ files_of x !! file_key f = Some f) as Hst0.
  { intros f. rewrite Hst. by rewrite (proj1 S1). }
  clear Hst. unfold removeStaleFiles.
  pose proof (removeIndexedPaths_spec indexers files_of held (r_ID repo) (stale_paths stored files) x2) as H3.
  destruct (removeIndexedPaths indexers (r_ID repo) (stale_paths stored files) x2) as [err3 x3]. destruct H3 as (U3 & O3 & C3).
  assert (∀ p, p ∈ map wf_Path files → untouched x x3 (r_ID repo, p)) as U3'.
  { intros p Hp. eapply untouched_trans; [by apply same_untouched |]. apply U3. intros [_ Hin]. simpl in Hin.
    unfold stale_paths in Hin. apply list_elem_of_fmap in Hin as (f & -> & [Hf _]%list_elem_of_filter). done. }
  assert (∀ k, fst k ≠ r_ID repo → untouched x x3 k) as O3'.
  { intros k Hk. eapply untouched_trans; [by apply same_untouched |]. apply U3. by intros [? _]. }
  assert (∀ k f, files_of x3 !! k = Some f → files_of x !! k = Some f) as Old3.
  { intros k f Hk. apply O3 in Hk. by rewrite (proj1 S12) in Hk. }
  assert (err3 = None → ∀ p, p ∉ map wf_Path files → files_of x3 !! (r_ID repo, p) = None ∧
    ((∃ row, files_of x !! (r_ID repo, p) = Some row) → ∀ ix, ix ∈ indexers → held x3 (ix_Type ix) (r_ID repo, p) = None) ∧
    (files_of x !! (r_ID repo, p) = None → untouched x x3 (r_ID repo, p))) as Gone3.
  { intros He p Hp. destruct (files_of x !! (r_ID repo, p)) as [f|] eqn:Ef.
    - pose proof (pl_rows indexers files_of held _ _ _ Ef) as Hk. unfold file_key in Hk. injection Hk as E1 E2.
      destruct (C3 He p) as [H4 H5]; [|split_and!; try done]. unfold stale_paths. apply list_elem_of_fmap. exists f. split; [done |].
      apply list_elem_of_filter. rewrite E2. split; [done |]. apply Hst0. unfold file_key. by rewrite E1, E2.
    - split_and!; [|by intros [? ?] |].
      + destruct (files_of x3 !! (r_ID repo, p)) as [f|] eqn:Ef3; [|done]. apply Old3 in Ef3. congruence.
      + intros _. eapply untouched_trans; [by apply same_untouched |]. apply U3. intros [_ Hin]. simpl in Hin.
        unfold stale_paths in Hin. apply list_elem_of_fmap in Hin as (f & E & [_ Hf]%list_elem_of_filter).
        apply Hst0 in Hf as [H4 H5]. unfold file_key in H5. rewrite H4, <- E in H5. congruence. }
  destruct err3 as [e|].
  { split; [done |]. intros p. split; try done.
    - intros row Hrow. left. by apply Old3.
    - intros row content Hp _ _ _ _ _. by apply U3'.
    - intros Hp _. by apply U3'. }
  specialize (Gone3 eq_refl).
  pose proof (index_windows_spec d repo (known_files force stored) force
    (length files) (windows (length files) 0 files) not_begun x3 (IndexStarted (r_ID repo) (Z.of_nat (length files)) t1 t2 b)) as H4.
  rewrite windows_concat in H4 by done. specialize (H4 Hnd Hplain).
  destruct (index_windows _ _ _ _ _ _ _ _ _) as [[[err4 st4] x4] b4]. destruct H4 as (U4 & A4 & _ & C4).
  set (out := match err4 with Some e => _ | None => _ end).
  assert (∃ err st x' b', out = (err, st, x', b') ∧ same x4 x' ∧ (err = None → err4 = None ∧ in_failed st4 = ∅)) as (err & st & x' & b' & -> & S5 & Herr).
  { unfold out. destruct err4 as [e|]; [by eexists _, _, _, _ |]. pose proof (settle_pass_same d repo t3 st4 x4) as H5.
    destruct (settle_pass d repo t3 st4 x4) as [err x5]. destruct H5 as [S5 H5]. eexists _, _, _, _. split; [done |]. split; [done |]. auto. }
  split.
  { intros k Hk. eapply untouched_trans; [by apply O3' |]. eapply untouched_trans; [|by apply same_untouched]. apply U4. by intros [? _]. }
  intros p. pose proof (known_unchanged force (r_ID repo) x stored p) as Hknown.
  (* a path that was not attempted, and one that was *)
  assert (p ∉ map fi_Path (attempted d repo (known_files force stored) files) → untouched x3 x' (r_ID repo, p)) as Unot.
  { intros Hp. eapply untouched_trans; [apply U4; by intros [_ ?] | by apply same_untouched]. }
  assert (∀ f, f ∈ attempted d repo (known_files force stored) files → fi_Path f = p →
    ∃ content, readable d repo p content ∧ fi_Hash f = HashContent content ∧
      ¬ (force = false ∧ ∃ row, files_of x !! (r_ID repo, p) = Some row ∧ f_Indexed row = true ∧ f_Hash row = fi_Hash f)) as Hatt.
  { intros f (rf & row & Hin & E)%attempted_elem Efp. apply scanFile_index in E as (Ef & _ & _ & _ & content & H1 & H2 & H3).
    rewrite <- Ef, Efp in H1, H3. exists content. split_and!; [done | done |]. intros Hcon. apply (Hknown _ Hst0) in Hcon. congruence. }
  assert (∀ content, readable d repo p content → ∀ c, readable d repo p c → c = content) as Hfun.
  { intros c (_ & _ & E1) c' (_ & _ & E2). congruence. }
  split.
  - intros row Hrow. destruct (decide (p ∈ map fi_Path (attempted d repo (known_files force stored) files))) as [Hp|Hp].
    + apply list_elem_of_fmap in Hp as (f & -> & Hf). rewrite (proj1 S5) in Hrow. destruct (A4 f Hf) as [E|E].
      * left. apply Old3. by rewrite <- E.
      * right. assert (in_step x' (r_ID repo, fi_Path f) (fi_Hash f)) as [(row' & H1 & H2 & _) H3].
        { eapply untouched_in_step; [by apply same_untouched | exact E]. }
        rewrite (proj1 S5) in H1. assert (row' = row) as -> by congruence. by rewrite H2.
    + left. apply Old3. by rewrite <- (proj1 (Unot Hp)).
  - intros row content Hp Hr Hf H1 H2 H3. eapply untouched_trans; [by apply U3' |]. apply Unot.
    intros (f & Ef & Hin)%list_elem_of_fmap. destruct (Hatt f Hin (eq_sym Ef)) as (c & Hc & Eh & Hno).
    apply Hno. split; [done |]. exists row. split_and!; [done | done |]. rewrite Eh, H3. by rewrite (Hfun content Hr c Hc).
  - intros Hp Hr. eapply untouched_trans; [by apply U3' |]. apply Unot.
    intros (f & Ef & Hin)%list_elem_of_fmap. destruct (Hatt f Hin (eq_sym Ef)) as (c & Hc & _). by apply (Hr c).
  - intros _ Hp. assert (p ∉ map fi_Path (attempted d repo (known_files force stored) files)) as Hp'.
    { intros (f & -> & Hin%attempted_path)%list_elem_of_fmap. done. }
    destruct (Gone3 p Hp) as (G1 & G2 & G3). pose proof (Unot Hp') as [V1 V2]. split_and!.
    + by rewrite V1.
    + intros Hrow ix Hix. rewrite V2. by apply G2.
    + intros Hno. eapply untouched_trans; [by apply G3 | by apply Unot].
  - intros content He Hp Hr. destruct (Herr He) as [He4 Hf4].
    apply list_elem_of_fmap in Hp as Hrf. destruct Hrf as (rf & -> & Hrf).
    destruct (scanFile_readable d repo (known_files force stored) rf content Hr) as [[Hu Hs]|(Hu & f & row & Hs & Ef & Eh)].
    + left. apply (Hknown _ Hst0) in Hu as (Hforce & row & H1 & H2 & H3). split; [|split; [done | by exists row]].
      eapply untouched_trans; [by apply U3' |]. apply Unot.
      intros (f & Ef & Hin)%list_elem_of_fmap. destruct (Hatt f Hin (eq_sym Ef)) as (c & Hc & Eh & Hno).
      apply Hno. split; [done |]. exists row. split_and!; [done | done |]. rewrite Eh, H3. by rewrite (Hfun content Hr c Hc).
    + right. rewrite <- Ef, <- Eh. eapply untouched_in_step; [by apply same_untouched |]. apply C4; [done | | by rewrite Hf4; apply not_elem_of_empty].
      apply attempted_elem. by exists rf, row.
Qed.

(** A pass whose tree cannot be listed touches nothing. *)
Lemma unlisted_pass d repo force t1 t2 t3 t4 x b :
  (∀ source, sources (r_Source repo) = Some source → ∃ e, fst (src_GetFiles source repo (IgnorePatternsFor d repo) x) = inl e) →
  ∀ k, untouched x (snd (fst (doIndex d repo force t1 t2 t3 t4 x b))) k.
Proof.
  intros Hno k. unfold Indexing.doIndex, Indexing.index_tree. destruct (sources (r_Source repo)) as [source|] eqn:Es; [|done].
  destruct (Hno source eq_refl) as [e He]. pose proof (q_files _ source repo (IgnorePatternsFor d repo) x Es) as S1.
  destruct (src_GetFiles source repo (IgnorePatternsFor d repo) x) as [r x1]. simpl in He, S1. subst r. by apply same_untouched.
Qed.

(** What is marked at the hash of what it holds is left as it is. *)
Lemma marked_dec x k h : marked files_of x k h ∨ ¬ marked files_of x k h.
Proof.
  unfold marked. destruct (files_of x !! k) as [row|] eqn:E; [|right; by intros (? & ? & _)].
  destruct (decide (f_Hash row = h ∧ f_Indexed row = true)) as [[? ?]|Hno]; [left; by exists row |].
  right. intros (row' & [= <-] & ? & ?). by apply Hno.
Qed.
Lemma path_after_marked d repo force files x x' err p content :
  path_after d repo force files x x' err p → p ∈ map wf_Path files → readable d repo p content →
  force = false → marked files_of x (r_ID repo, p) (HashContent content) → untouched x x' (r_ID repo, p).
Proof. intros Ha Hp Hr Hf (row & H1 & H2 & H3). by eapply (pa_kept _ _ _ _ _ _ _ _ Ha row content). Qed.

(** ** Histories of passes *)

(** A pass that has run: over which tree, how, and to which end. *)
Record run := { rn_repo : Repo; rn_disk : disk; rn_force : bool; rn_files : list RepoFile; rn_err : option string }.

(** What is reached from a world by passes over a repository, the latest first, and
    by whatever leaves its rows and index entries alone in between, such as a pass
    whose tree cannot be listed or passes over other repositories. *)
Inductive passes (id : string) (x0 : X) : list run → X → Prop :=
| passes_none : passes id x0 [] x0
| passes_pass rs x d repo force t1 t2 t3 t4 b source files x1 err x' b' :
    passes id x0 rs x → r_ID repo = id →
    sources (r_Source repo) = Some source →
    src_GetFiles source repo (IgnorePatternsFor d repo) x = (inr files, x1) → listing_ok files →
    doIndex d repo force t1 t2 t3 t4 x b = (err, x', b') →
    passes id x0 ({| rn_repo := repo; rn_disk := d; rn_force := force; rn_files := files; rn_err := err |} :: rs) x'
| passes_other rs x x' :
    passes id x0 rs x → (∀ p, untouched x x' (id, p)) → passes id x0 rs x'.

(** A pass sets out to replace a row at a hash. *)
Definition goes_for (r : run) (p h : string) : Prop :=
  p ∉ map wf_Path (rn_files r) ∨
  ∃ content, readable (rn_disk r) (rn_repo r) p content ∧ (rn_force r = true ∨ HashContent content ≠ h).
(** A row that a failed pass went for and no pass without an error since. *)
Definition doubtful (rs : list run) (p h : string) : Prop :=
  ∃ later r earlier, rs = later ++ r :: earlier ∧ rn_err r ≠ None ∧ goes_for r p h ∧
    ∀ r', r' ∈ later → rn_err r' = None → ¬ goes_for r' p h.

Lemma readable_dec d repo p : (∃ content, readable d repo p content) ∨ ∀ content, ¬ readable d repo p content.
Proof.
  unfold readable. destruct (os_Stat _ _), (os_Regular _ _), (os_ReadFile _ _) as [c| |]; try (right; intros ? (? & ? & ?); congruence).
  left. by exists c.
Qed.
Lemma readable_fun d repo p c c' : readable d repo p c → readable d repo p c' → c = c'.
Proof. intros (_ & _ & E1) (_ & _ & E2). congruence. Qed.

Lemma goes_for_dec r p h : goes_for r p h ∨ ¬ goes_for r p h.
Proof.
  unfold goes_for. destruct (decide (p ∈ map wf_Path (rn_files r))) as [Hp|Hp]; [|by left; left].
  destruct (readable_dec (rn_disk r) (rn_repo r) p) as [[c Hc]|Hno]; [|right; intros [|(c & Hc & _)]; [done | by apply (Hno c)]].
  destruct (decide (rn_force r = true ∨ HashContent c ≠ h)) as [Hy|Hn]; [left; right; by exists c | right].
  intros [|(c' & Hc' & Hy)]; [done |]. by rewrite (readable_fun _ _ _ _ _ Hc' Hc) in Hy.
Qed.
Lemma doubtful_cons r rs p h :
  doubtful rs p h → (rn_err r = None → ¬ goes_for r p h) → doubtful (r :: rs) p h.
Proof.
  intros (later & f & earlier & -> & H1 & H2 & H3) Hr. exists (r :: later), f, earlier. split_and!; [done.. |].
  intros r' [->|Hin]%elem_of_cons; [done | by apply H3].
Qed.
Lemma doubtful_failed r rs p h : rn_err r ≠ None → goes_for r p h → doubtful (r :: rs) p h.
Proof. intros. exists [], r, rs. split_and!; [done.. |]. by intros r' ?%elem_of_nil. Qed.
Lemma doubtful_uncons r rs p h : rn_err r = None → doubtful (r :: rs) p h → doubtful rs p h.
Proof.
  intros Hr (later & f & earlier & E & H1 & H2 & H3). destruct later as [|r' later]; injection E as <- E; [by rewrite Hr in H1 |].
  exists later, f, earlier. split_and!; [done.. |]. intros r' Hin. apply H3. by right.
Qed.

(** A pass keeps an old row it does not go for, with what the indexes hold of it; one
    without an error leaves a row it goes for only in step. *)
Lemma pass_row r x x' p row :
  path_after (rn_disk r) (rn_repo r) (rn_force r) (rn_files r) x x' (rn_err r) p →
  files_of x' !! (r_ID (rn_repo r), p) = Some row → f_Indexed row = true →
  all_hold indexers held x' (r_ID (rn_repo r), p) (f_Hash row) ∨
  files_of x !! (r_ID (rn_repo r), p) = Some row ∧
    (¬ goes_for r p (f_Hash row) ∧ untouched x x' (r_ID (rn_repo r), p) ∨ rn_err r ≠ None ∧ goes_for r p (f_Hash row)).
Proof.
  intros Ha Hrow Hi. destruct (pa_row _ _ _ _ _ _ _ _ Ha row Hrow) as [Hold|]; [|by left].
  destruct (goes_for_dec r p (f_Hash row)) as [Hg|Hg].
  - destruct (rn_err r) as [e|] eqn:Ee; [right; split; [done |]; by right | left].
    destruct (decide (p ∈ map wf_Path (rn_files r))) as [Hp|Hp].
    + destruct Hg as [|(content & Hr & Hwhy)]; [done |].
      destruct (pa_done _ _ _ _ _ _ _ _ Ha content eq_refl Hp Hr) as [(_ & Hf & row' & H1 & _ & H3)|[(row' & H1 & H2 & _) Hall]].
      * exfalso. assert (row' = row) as -> by congruence. destruct Hwhy; congruence.
      * assert (row' = row) as -> by congruence. by rewrite H2.
    + destruct (pa_stale _ _ _ _ _ _ _ _ Ha eq_refl Hp) as [H1 _]. congruence.
  - right. split; [done |]. left. split; [done |].
    destruct (decide (p ∈ map wf_Path (rn_files r))) as [Hp|Hp]; [|by destruct Hg; left].
    destruct (readable_dec (rn_disk r) (rn_repo r) p) as [[c Hc]|Hno]; [|by apply (pa_unreadable _ _ _ _ _ _ _ _ Ha)].
    assert (rn_force r = false ∧ HashContent c = f_Hash row) as [Hf Hh].
    { destruct (decide (rn_force r = false ∧ HashContent c = f_Hash row)) as [|Hn]; [done |]. destruct Hg. right. exists c. split; [done |].
      destruct (rn_force r); [by left | right]. intros ?. by apply Hn. }
    by apply (pa_kept _ _ _ _ _ _ _ _ Ha row c).
Qed.

Lemma passes_row id x0 rs x p row :
  passes id x0 rs x → rows_true id x0 → files_of x !! (id, p) = Some row → f_Indexed row = true →
  all_hold indexers held x (id, p) (f_Hash row) ∨ doubtful rs p (f_Hash row).
Proof.
  intros Hps Htrue. revert row. induction Hps as [|rs x d repo force t1 t2 t3 t4 b source files x1 err x' b' _ IH <- Hs Hf Hok E|rs x x' _ IH U];
    intros row Hrow Hi.
  - left. by apply Htrue.
  - unfold Indexing.doIndex in E. pose proof (index_tree_spec d repo force t1 t2 t3 x b source files x1 Hs Hf Hok) as H1.
    destruct (index_tree d repo force t1 t2 t3 x b) as [[[err1 st] x2] b1]. injection E as -> -> _. destruct H1 as [_ Hpath].
    set (r := {| rn_repo := repo; rn_disk := d; rn_force := force; rn_files := files; rn_err := err |}).
    destruct (pass_row r x x' p row (Hpath p) Hrow Hi) as [|[Hold [[Hg U]|[He Hg]]]]; [by left | | right; by apply doubtful_failed].
    destruct (IH row Hold Hi) as [Hall|Hd]; [left | right; by apply doubtful_cons]. intros ix Hix. rewrite (proj2 U). by apply Hall.
  - specialize (U p) as [U1 U2]. rewrite U1 in Hrow. destruct (IH row Hrow Hi) as [Hall|]; [left | by right].
    intros ix Hix. rewrite U2. by apply Hall.
Qed.

Lemma passes_last id x0 rs x :
  passes id x0 rs x → rows_true id x0 →
  ∀ r earlier, rs = r :: earlier → rn_err r = None → ∀ p content, p ∈ map wf_Path (rn_files r) → readable (rn_disk r) (rn_repo r) p content →
    in_step x (id, p) (HashContent content) ∨ (rn_force r = false ∧ doubtful earlier p (HashContent content)).
Proof.
  intros Hps Htrue. induction Hps as [|rs x d repo force t1 t2 t3 t4 b source files x1 err x' b' Hps IH <- Hs Hf Hok E|rs x x' _ IH U];
    intros r earlier Er He p content Hp Hr; [done | |].
  - injection Er as <- <-. simpl in *. subst err.
    unfold Indexing.doIndex in E. pose proof (index_tree_spec d repo force t1 t2 t3 x b source files x1 Hs Hf Hok) as H1.
    destruct (index_tree d repo force t1 t2 t3 x b) as [[[err1 st] x2] b1]. injection E as -> -> _. destruct H1 as [_ Hpath].
    destruct (pa_done _ _ _ _ _ _ _ _ (Hpath p) content eq_refl Hp Hr) as [(U & Hforce & row & H1 & H2 & H3)|]; [|by left].
    destruct (passes_row _ _ _ _ p row Hps Htrue H1 H2) as [Hall|Hd]; [left | right; by rewrite <- H3].
    rewrite <- H3. eapply untouched_in_step; [exact U |]. split; [by exists row | done].
  - destruct (IH r earlier Er He p content Hp Hr) as [Hin|]; [left | by right]. by eapply untouched_in_step.
Qed.

(** ** Properties *)

(** C3: What a full pass that reports no error leaves.  A listed file that can be read
    is in step with the tree — it has a row, marked as indexed at the hash of what it
    holds now, and every index holds it at that hash — exactly when the pass was
    forced, or the file was not marked at that hash before, or every index held it
    there already: what a row marks at the right hash an unforced pass takes on trust
    and does not touch.  A file that is not listed has no row; every index has let go
    of it if it had a row before, and an index entry that no row spoke for stays.  A
    listed file that cannot be read keeps what it had.  Whether there was an error or
    not, other repositories are not touched.  All this whatever the indexers failed on
    in between, in however many windows the files came and in whatever order the runs
    of a batch took effect. *)
Theorem pass_in_step d repo force t1 t2 t3 t4 x b source files x1 :
  sources (r_Source repo) = Some source →
  src_GetFiles source repo (IgnorePatternsFor d repo) x = (inr files, x1) → listing_ok files →
  let '(err, x', b') := doIndex d repo force t1 t2 t3 t4 x b in
  (∀ k, fst k ≠ r_ID repo → untouched x x' k) ∧
  (err = None → ∀ p, let k := (r_ID repo, p) in
    (p ∈ map wf_Path files →
      (∀ content, readable d repo p content → let h := HashContent content in
         (in_step x' k h ↔ force = true ∨ ¬ marked files_of x k h ∨ all_hold indexers held x k h) ∧
         (force = false → marked files_of x k h → untouched x x' k)) ∧
      ((∀ content, ¬ readable d repo p content) → untouched x x' k)) ∧
    (p ∉ map wf_Path files → files_of x' !! k = None ∧
      ((∃ row, files_of x !! k = Some row) → ∀ ix, ix ∈ indexers → held x' (ix_Type ix) k = None) ∧
      (files_of x !! k = None → untouched x x' k))).
Proof.
  intros Hsrc Hfiles Hok. unfold Indexing.doIndex.
  pose proof (index_tree_spec d repo force t1 t2 t3 x b source files x1 Hsrc Hfiles Hok) as H1.
  destruct (index_tree d repo force t1 t2 t3 x b) as [[[err st] x'] b']. destruct H1 as [Hother Hpath].
  split; [done |]. intros He p. specialize (Hpath p). split; [|by apply Hpath]. intros Hp. split; [|by apply Hpath].
  intros content Hr. pose proof (path_after_marked _ _ _ _ _ _ _ _ content Hpath Hp Hr) as Hkept. split; [|done]. split.
  - intros [_ Hall]. destruct force; [by left | right]. destruct (marked_dec x (r_ID repo, p) (HashContent content)) as [Hm|]; [right | by left].
    intros ix Hix. rewrite <- (proj2 (Hkept eq_refl Hm)). by apply Hall.
  - intros Hwhy. destruct (pa_done _ _ _ _ _ _ _ _ Hpath content He Hp Hr) as [(U & Hf & row & H1 & H2 & H3)|]; [|done].
    assert (marked files_of x (r_ID repo, p) (HashContent content)) as Hm by by exists row.
    eapply untouched_in_step; [exact U |]. split; [done |]. by destruct Hwhy as [|[|]]; [congruence | |].
Qed.

(** C24: What the rows of a repository say after any history of full passes, forced or
    not, over whatever trees and with whatever failures, from a store whose rows were
    true.  A row marked as indexed is true — every index holds the file at its hash —
    unless a pass that ended in an error set out to replace it and no pass without an
    error has since: a pass sets out to replace the row of a file that it does not
    list, that holds something else, or that it can read when it is forced.  So when
    the last pass reports no error, every listed file that can be read is in step with
    the tree, except, for a pass that was not forced, a file that holds just what its
    row says where that row is in such doubt. *)
Theorem passes_keep_truth id x0 rs x :
  passes id x0 rs x → rows_true id x0 →
  (∀ p row, files_of x !! (id, p) = Some row → f_Indexed row = true →
     all_hold indexers held x (id, p) (f_Hash row) ∨ doubtful rs p (f_Hash row)) ∧
  (∀ r earlier, rs = r :: earlier → rn_err r = None → ∀ p content, p ∈ map wf_Path (rn_files r) → readable (rn_disk r) (rn_repo r) p content →
     in_step x (id, p) (HashContent content) ∨ (rn_force r = false ∧ doubtful earlier p (HashContent content))).
Proof.
  intros Hps Htrue. split.
  - intros p row. by apply (passes_row id x0 rs x p row).
  - by apply (passes_last id x0).
Qed.
End Pass.
