(* ===== verification/IndexingPlan.v ===== *)
(** * Incremental passes, and a small set of backends

    First a world of plain maps that keeps the promises asked of the backends of a
    pass: the properties of passes are tried on it, and so is what they leave open.
    Then what an incremental pass leaves behind. *)

From S2P Require Import Prelude GoStrings GoSort Domain Store Paths Walk Services SqlDriver SqlFiles Commits Progress Indexing IndexingPass.

(** The rows of files, and what the indexes hold. *)
Record maps := { m_rows : gmap (string * string) File; m_held : gmap (string * (string * string)) string }.
Definition with_rows (r : gmap (string * string) File) (x : maps) : maps := {| m_rows := r; m_held := m_held x |}.
Definition with_held (h : gmap (string * (string * string)) string) (x : maps) : maps := {| m_rows := m_rows x; m_held := h |}.
Definition held_in (x : maps) (t : string) (k : string * string) : option string := m_held x !! (t, k).
(** The rows under their own keys. *)
Definition rows_of (x : maps) : gmap (string * string) File := filter (λ kf, file_key (snd kf) = fst kf) (m_rows x).

#[export] Instance maps_store : PassStore maps := {|
  GetFilesByRepo repo x := (inr (filter (λ f, f_RepoID f = repo) (map snd (map_to_list (rows_of x)))), x);
  BatchStoreFiles fs x := (None, with_rows (foldl put_file (m_rows x) fs) x);
  DeleteFilesByPaths repo paths x := (None, with_rows (file_spec (FDeletePaths repo paths) (m_rows x)) x);
  DeleteASTUnitsByFiles _ _ x := (None, x);
  DeleteEdgesByFiles _ _ x := (None, x);
  DeleteASTUnitsByKind _ _ x := (None, x);
  StoreASTUnit _ x := (None, x);
  StoreRepoCoverage _ x := (None, x)
|}.

(** An indexer of a type that fails on some paths and on some contents, and says so. *)
Definition fails_on (bad : gset string) (f : FileToIndex) : bool := bool_decide (fi_Path f ∈ bad ∨ fi_Content f ∈ bad).
Definition hold_file (t : string) (bad : gset string) (repo : string) (h : gmap (string * (string * string)) string) (f : FileToIndex)
    : gmap (string * (string * string)) string :=
  if fails_on bad f then delete (t, (repo, fi_Path f)) h else <[(t, (repo, fi_Path f)) := fi_Hash f]> h.
Definition drop_file (t repo : string) (h : gmap (string * (string * string)) string) (p : string) : gmap (string * (string * string)) string :=
  delete (t, (repo, p)) h.
Definition refused (bad : gset string) (fs : list FileToIndex) : list string := map fi_Path (filter (fails_on bad) fs).
Definition failing (t : string) (bad : gset string) : Indexer maps := {|
  ix_Type := t; ix_Name := t;
  ix_Index req x :=
    let failed := refused bad (rq_Files req) in
    ((Some {| ir_FilesIndexed := Z.of_nat (length (rq_Files req) - length failed); ir_FilesSkipped := 0;
              ir_FilesFailed := Z.of_nat (length failed); ir_Errors := map (λ p, entry p "cannot parse") failed; ir_Coverage := None |}, None),
     with_held (foldl (hold_file t bad (rq_RepoID req)) (m_held x) (rq_Files req)) x);
  ix_Remove repo paths x := (None, with_held (foldl (drop_file t repo) (m_held x) paths) x);
  ix_Compact := None; ix_AutoCompact := None; ix_Coverage := None |}.

Lemma rows_of_lookup x k f : rows_of x !! k = Some f ↔ m_rows x !! k = Some f ∧ file_key f = k.
Proof. unfold rows_of. rewrite map_lookup_filter_Some. done. Qed.

Lemma hold_other t bad repo fs h t' k :
  t' ≠ t ∨ ¬ SqlFiles.named repo (map fi_Path fs) k → foldl (hold_file t bad repo) h fs !! (t', k) = h !! (t', k).
Proof.
  revert h. induction fs as [|f fs IH]; intros h Hk; simpl; [done |].
  assert ((t', k) ≠ (t, (repo, fi_Path f))) as Hne.
  { intros [= -> ->]. destruct Hk as [|Hk]; [done |]. apply Hk. split; [done |]. by left. }
  rewrite IH.
  - unfold hold_file. destruct (fails_on bad f); [by rewrite lookup_delete_ne | by rewrite lookup_insert_ne].
  - destruct Hk as [|Hk]; [by left | right]. intros [E Hin]. apply Hk. split; [done |]. by right.
Qed.
Lemma hold_in t (bad : gset string) repo fs h f :
  NoDup (map fi_Path fs) → f ∈ fs → fails_on bad f = false → foldl (hold_file t bad repo) h fs !! (t, (repo, fi_Path f)) = Some (fi_Hash f).
Proof.
  revert h. induction fs as [|g fs IH]; intros h; simpl; [by intros _ ?%elem_of_nil |].
  intros [Hg Hnd]%NoDup_cons [->|Hf]%elem_of_cons Hb; [|by apply IH].
  rewrite hold_other; [|right; by intros [_ ?]]. unfold hold_file. rewrite Hb. by rewrite lookup_insert_eq.
Qed.
Lemma drop_held (t repo : string) (paths : list string) (h : gmap (string * (string * string)) string) (t' : string) (k : string * string) :
  foldl (drop_file t repo) h paths !! (t', k) = if decide (t' = t ∧ SqlFiles.named repo paths k) then None else h !! (t', k).
Proof.
  revert h. induction paths as [|p paths IH]; intros h; simpl.
  { rewrite decide_False; [done |]. by intros [_ [_ ?%elem_of_nil]]. }
  rewrite IH. unfold drop_file at 1. destruct (decide (t' = t ∧ SqlFiles.named repo paths k)) as [[Ht [E Hk]]|Hno].
  - rewrite decide_True; [done |]. split; [done |]. split; [done |]. by right.
  - destruct (decide ((t', k) = (t, (repo, p)))) as [[= -> ->]|Hne].
    + rewrite lookup_delete_eq, decide_True; [done |]. split; [done |]. split; [done |]. by left.
    + rewrite lookup_delete_ne by done. rewrite decide_False; [done |]. intros [-> [E Hin]]. apply elem_of_cons in Hin as [Hin|Hin].
      * destruct k as [r q]. simpl in *. by subst.
      * apply Hno. by split.
Qed.

(** The map after writes, read under its own keys. *)
Lemma rows_of_put x fs : rows_of (with_rows (foldl put_file (m_rows x) fs) x) = foldl put_file (rows_of x) fs.
Proof.
  destruct x as [rows h]. unfold rows_of. simpl. revert rows. induction fs as [|f fs IH]; intros rows; simpl; [done |].
  rewrite IH. f_equal. unfold put_file. by rewrite map_filter_insert_True.
Qed.

#[export] Instance demo_laws t1 t2 bad1 bad2 :
  t1 ≠ t2 → PassLaws [failing t1 bad1; failing t2 bad2] rows_of held_in.
Proof.
  intros Ht. split; simpl.
  - constructor; [by intros ->%list_elem_of_singleton | apply NoDup_singleton].
  - intros x k f [_ ?]%rows_of_lookup. done.
  - intros repo x. split; [done |]. intros f. rewrite list_elem_of_filter, list_elem_of_fmap. split.
    + intros [Hr ([k f'] & -> & Hin)]. split; [done |]. apply elem_of_map_to_list in Hin. simpl.
      by pose proof (proj1 (rows_of_lookup _ _ _) Hin) as [_ ->].
    + intros [Hr Hf]. split; [done |]. exists (file_key f, f). split; [done |]. by apply elem_of_map_to_list.
  - intros fs x. split; [done |]. apply rows_of_put.
  - intros repo paths x. split; [done |]. exists paths. split_and!; [done | done |].
    apply map_eq. intros k. apply option_eq. intros f. unfold rows_of. simpl. rewrite !map_lookup_filter_Some. simpl. tauto.
  - done.
  - done.
  - done.
  - done.
  - done.
  - intros ix req x Hix.
    assert (∃ t bad, ix = failing t bad) as (t & bad & ->) by (set_unfold; naive_solver).
    simpl. split_and!; [done | intros t' k Hk; by apply hold_other |]. intros _ Hnd. exists (refused bad (rq_Files req)). split; [|split].
    + split; [by apply (NoDup_map_filter fi_Path (fails_on bad)) |]. split; [done |]. exists (refused bad (rq_Files req)), (λ _, "cannot parse"). done.
    + intros p (f & -> & [_ Hf]%list_elem_of_filter)%list_elem_of_fmap. by apply list_elem_of_fmap_2.
    + intros f Hf Hb. unfold held_in. simpl. apply hold_in; [done | done |]. apply not_true_iff_false. intros Hbad.
      apply Hb, list_elem_of_fmap. exists f. split; [done |]. apply list_elem_of_filter. split; [by rewrite Hbad | done].
  - intros ix repo paths x Hix.
    assert (∃ t bad, ix = failing t bad) as (t & bad & ->) by (set_unfold; naive_solver).
    simpl. split_and!; [done | |].
    + intros t' k Hk. unfold held_in. simpl. rewrite drop_held, decide_False; [done |]. tauto.
    + intros _ p Hp. unfold held_in. simpl. rewrite drop_held, decide_True; [done |]. by split.
  - intros ix f x Hix Hf.
    assert (∃ t bad, ix = failing t bad) as (t & bad & ->) by (set_unfold; naive_solver). done.
Qed.

(** ** A repository of two files *)

Module Demo.
Definition repo : Repo :=
  {| r_ID := "app-1"; r_Name := "app"; r_Source := "local"; r_URL := ""; r_Path := "/src/app"; r_Branch := ""; r_IndexedAt := 0;
     r_Status := ""; r_CreatedAt := 0; r_LastError := ""; r_LastCommit := ""; r_PendingCommit := ""; r_Active := true |}.
Definition listed (path : string) : RepoFile := {| wf_Path := path; wf_Hash := ""; wf_Language := "go"; wf_Size := 9 |}.
Definition listing : list RepoFile := [listed "a.go"; listed "b.go"].
(** [b.go] is listed, but cannot be read. *)
Definition tree : disk := {|
  os_ReadFile := λ p, if String.eqb p "/src/app/a.go" then Content "package a" else NotExist;
  os_ReadDir := λ _, None; os_Stat := λ p, String.eqb p "/src/app/a.go"; os_Regular := λ _, true; os_Lstat := λ _, inl "unreadable" |}.
Definition source : RepoSource maps := {| src_Update := λ _ x, (None, x); src_GetFiles := λ _ _ x, (inr listing, x) |}.
Definition sources (name : string) : option (RepoSource maps) := if String.eqb name "local" then Some source else None.
Definition enrich : Enrichment maps := {|
  ReconEnabled := false; ReconRepo := λ _ x, (None, x); ReconHints := λ _ x, ([], x); SummaryFileBudget := 0;
  SummarizeRepo := λ _ _ x, (None, x); SummarizeSymbols := λ _ x, (None, x) |}.
Definition no_manifest (data : string) : string + (list ManifestService * list string) := inl "no manifest".
Definition no_compose (data : string) : string + gmap string any := inl "no services".
Definition hash (content : string) : string := "#" +:+ content.
Definition link (r : Repo) (x : maps) : option string * maps := (None, x).
Definition refine (r : Repo) (x : maps) : maps := x.

Definition indexers (bad : gset string) : list (Indexer maps) := [failing "bm25" ∅; failing "ast" bad].
(** A pass over a tree in which the index of syntax trees fails on [bad]. *)
Definition pass_over (d : disk) (bad : gset string) (force : bool) (x : maps) : option string * maps * Bus :=
  doIndex (indexers bad) reverse sources hash no_manifest no_compose map_to_list map_to_list [] enrich link refine
    d repo force 1 1 2 3 x (NewBus 0 0).
Definition pass := pass_over tree.
(** The tree with [a.go] edited. *)
Definition edited : disk := {|
  os_ReadFile := λ p, if String.eqb p "/src/app/a.go" then Content "package b" else NotExist;
  os_ReadDir := os_ReadDir tree; os_Stat := os_Stat tree; os_Regular := os_Regular tree; os_Lstat := os_Lstat tree |}.
Definition world (r : option string * maps * Bus) : maps := snd (fst r).
Definition told (r : option string * maps * Bus) : option string := fst (fst r).
Definition empty : maps := {| m_rows := ∅; m_held := ∅ |}.

#[global] Instance quiet : Quiet rows_of held_in sources enrich link refine.
Proof.
  split; try done; unfold sources; intros name src; [intros r ps x | intros r x]; destruct (String.eqb name "local");
    by intros [= <-].
Qed.
#[global] Instance laws bad : PassLaws (indexers bad) rows_of held_in.
Proof. by apply demo_laws. Qed.
Lemma listing_fine : listing_ok listing.
Proof. split; [apply (bool_decide_unpack (NoDup _)); vm_compute; exact I | by repeat constructor]. Qed.
Lemma a_readable : readable tree repo "a.go" "package a".
Proof. by vm_compute. Qed.
End Demo.

(** A file indexed by an earlier version of the tree, and one that is gone. *)
Definition demo_before : maps :=
  {| m_rows := <[("app-1", "old.go") := file_row "app-1" "old.go" "#old" "go" 3]>
                 {[("app-1", "a.go") := file_row "app-1" "a.go" "#v0" "go" 9]};
     m_held := list_to_map [(("ast", ("app-1", "old.go")), "#old"); (("bm25", ("app-1", "old.go")), "#old");
                            (("ast", ("app-1", "lost.go")), "#lost"); (("ast", ("lib-1", "a.go")), "#lib")] |}.
Lemma demo_unmarked : ¬ marked rows_of demo_before ("app-1", "a.go") (Demo.hash "package a").
Proof.
  intros (row & E & Eh & _). assert (f_Hash <$> rows_of demo_before !! ("app-1", "a.go") = Some "#v0") as H by (vm_compute; reflexivity).
  rewrite E in H. cbn [fmap option_fmap option_map] in H. rewrite Eh in H. discriminate H.
Qed.
Lemma demo_unlisted p : p = "old.go" ∨ p = "lost.go" → p ∉ map wf_Path Demo.listing.
Proof. intros Hp. apply (bool_decide_unpack (p ∉ _)). destruct Hp as [-> | ->]; vm_compute; exact I. Qed.
Lemma pass_in_step_witness :
  let r := Demo.pass ∅ false demo_before in
  Demo.told r = None ∧
  in_step (Demo.indexers ∅) rows_of held_in (Demo.world r) ("app-1", "a.go") (Demo.hash "package a") ∧
  rows_of (Demo.world r) !! ("app-1", "old.go") = None ∧ held_in (Demo.world r) "ast" ("app-1", "old.go") = None ∧
  held_in (Demo.world r) "ast" ("app-1", "lost.go") = held_in demo_before "ast" ("app-1", "lost.go") ∧
  held_in (Demo.world r) "ast" ("lib-1", "a.go") = held_in demo_before "ast" ("lib-1", "a.go").
Proof.
  pose proof (pass_in_step (Demo.indexers ∅) rows_of held_in reverse (reverse_Permutation _) Demo.sources Demo.hash Demo.no_manifest
    Demo.no_compose map_to_list map_to_list [] Demo.enrich Demo.link Demo.refine Demo.tree Demo.repo false 1 1 2 3 demo_before (NewBus 0 0)
    Demo.source Demo.listing demo_before eq_refl eq_refl Demo.listing_fine) as H.
  assert (Demo.told (Demo.pass ∅ false demo_before) = None) as He by (vm_compute; reflexivity).
  assert (∃ row, rows_of demo_before !! ("app-1", "old.go") = Some row) as Hrow by (eexists; vm_compute; reflexivity).
  assert (rows_of demo_before !! ("app-1", "lost.go") = None) as Hlost by (vm_compute; reflexivity).
  cbv zeta. unfold Demo.told, Demo.world, Demo.pass, Demo.pass_over in *.
  destruct (doIndex _ _ _ _ _ _ _ _ _ _ _ _ _ _ _ _ _ _ _ _ _) as [[err x'] b']. cbn [fst snd] in *.
  destruct H as [Hother H]. specialize (H He). split; [exact He |].
  destruct (H "a.go") as [Ha _]. destruct (H "old.go") as [_ Hold]. destruct (H "lost.go") as [_ Hnew].
  destruct (Ha ltac:(left)) as [Ha' _]. destruct (Ha' "package a" Demo.a_readable) as [[_ Hstep] _].
  split; [exact (Hstep (or_intror (or_introl demo_unmarked))) |].
  destruct (Hold (demo_unlisted "old.go" (or_introl eq_refl))) as (H1 & H2 & _).
  destruct (Hnew (demo_unlisted "lost.go" (or_intror eq_refl))) as (_ & _ & H3).
  split; [exact H1 |]. split; [exact (H2 Hrow (failing "ast" ∅) ltac:(right; left)) |].
  split; [exact (proj2 (H3 Hlost) "ast") |]. refine (proj2 (Hother ("lib-1", "a.go") _) "ast"). discriminate.
Defined.

(** The index of syntax trees cannot take what [a.go] is edited to hold: the file is
    indexed, a pass over the edited tree fails on it, and one over the tree as it was
    follows. *)
Definition demo_pass (d : disk) (x : maps) : option string * maps * Bus := Demo.pass_over d {["package b"]} false x.
Definition demo_run (d : disk) (err : option string) : run :=
  {| rn_repo := Demo.repo; rn_disk := d; rn_force := false; rn_files := Demo.listing; rn_err := err |}.
Definition demo_told : string := "1 of 1 files could not be indexed (see logs); they stay unindexed and will be retried".
Definition demo_runs : list run := [demo_run Demo.tree None; demo_run Demo.edited (Some demo_told); demo_run Demo.tree None].
Definition demo_first : maps := Demo.world (demo_pass Demo.tree Demo.empty).
Definition demo_second : maps := Demo.world (demo_pass Demo.edited demo_first).
Definition demo_third : maps := Demo.world (demo_pass Demo.tree demo_second).

Abbreviation demo_passes :=
  (passes (Demo.indexers {["package b"]}) rows_of held_in reverse Demo.sources Demo.hash Demo.no_manifest Demo.no_compose
    map_to_list map_to_list [] Demo.enrich Demo.link Demo.refine "app-1" Demo.empty).
Lemma demo_step d rs x err :
  demo_passes rs x → Demo.told (demo_pass d x) = err → demo_passes (demo_run d err :: rs) (Demo.world (demo_pass d x)).
Proof.
  intros Hps <-. destruct (demo_pass d x) as [[e x'] b'] eqn:E.
  exact (passes_pass _ _ _ _ _ _ _ _ _ _ _ _ _ _ _ _ rs x d Demo.repo false 1 1 2 3 (NewBus 0 0) Demo.source Demo.listing x e x' b'
    Hps eq_refl eq_refl eq_refl Demo.listing_fine E).
Qed.
Lemma demo_history : demo_passes demo_runs demo_third.
Proof. do 3 (apply demo_step; [|vm_compute; reflexivity]). apply passes_none. Qed.

Lemma passes_keep_truth_witness :
  doubtful Demo.hash demo_runs "a.go" (Demo.hash "package a") ∧
  (∀ p row, rows_of demo_third !! ("app-1", p) = Some row → f_Indexed row = true →
     all_hold (Demo.indexers {["package b"]}) held_in demo_third ("app-1", p) (f_Hash row) ∨ doubtful Demo.hash demo_runs p (f_Hash row)) ∧
  (in_step (Demo.indexers {["package b"]}) rows_of held_in demo_third ("app-1", "a.go") (Demo.hash "package a") ∨
   (false = false ∧ doubtful Demo.hash (tail demo_runs) "a.go" (Demo.hash "package a"))).
Proof.
  pose proof (passes_keep_truth (Demo.indexers {["package b"]}) rows_of held_in reverse (reverse_Permutation _) Demo.sources Demo.hash
    Demo.no_manifest Demo.no_compose map_to_list map_to_list [] Demo.enrich Demo.link Demo.refine "app-1" Demo.empty demo_runs demo_third
    demo_history ltac:(intros p row [=])) as [H1 H2].
  split; [|split; [exact H1 |]].
  - exists [demo_run Demo.tree None], (demo_run Demo.edited (Some demo_told)), [demo_run Demo.tree None].
    split; [reflexivity |]. split; [discriminate |]. split.
    + right. exists "package b". split; [vm_compute; auto |]. right. discriminate.
    + intros r ->%list_elem_of_singleton _ [Hp|(c & Hc & [[=]|Hne])]; [apply Hp; left |].
      by rewrite (readable_fun _ _ _ _ _ Hc Demo.a_readable) in Hne.
  - exact (H2 _ _ eq_refl eq_refl "a.go" "package a" ltac:(left) Demo.a_readable).
Defined.

(** ** What a failed pass leaves open, when the file is put back

    The doubt is real.  The failed pass had put the edited file in one index and lost
    it from the other, and kept the row of what the file held before.  Once the file
    holds that again, a pass takes it for unchanged: it reports no error, one index is
    at the edited content and the other holds nothing. *)
Lemma reverted_edit_not_retried :
  let r := demo_pass Demo.tree demo_second in
  Demo.told (demo_pass Demo.edited demo_first) = Some demo_told ∧ Demo.told r = None ∧
  f_Indexed <$> rows_of demo_third !! ("app-1", "a.go") = Some true ∧
  f_Hash <$> rows_of demo_third !! ("app-1", "a.go") = Some (Demo.hash "package a") ∧
  held_in demo_third "bm25" ("app-1", "a.go") = Some (Demo.hash "package b") ∧ held_in demo_third "ast" ("app-1", "a.go") = None.
Proof. vm_compute. done. Qed.

(** ** What a forced pass leaves open

    A file that is in the index and that an indexer fails on when the pass is forced
    keeps its row: its index entry is gone, the pass says that the file stays
    unindexed and will be retried, and the next pass takes it for unchanged. *)
Lemma forced_failure_not_retried :
  let '(_, x1, _) := Demo.pass ∅ false Demo.empty in
  let '(err2, x2, _) := Demo.pass {["a.go"]} true x1 in
  let '(err3, x3, _) := Demo.pass ∅ false x2 in
  err2 = Some "1 of 1 files could not be indexed (see logs); they stay unindexed and will be retried" ∧ err3 = None ∧
  f_Indexed <$> rows_of x3 !! ("app-1", "a.go") = Some true ∧
  held_in x3 "bm25" ("app-1", "a.go") = Some (Demo.hash "package a") ∧ held_in x3 "ast" ("app-1", "a.go") = None.
Proof. vm_compute. done. Qed.

Section Plan.
  Context {X : Type} `{PassStore X} (indexers : list (Indexer X)).
  Context (files_of : X → gmap (string * string) File) (held : X → string → string * string → option string).
  Context `{!PassLaws indexers files_of held}.
  Context (schedule : list (Indexer X) → list (Indexer X)) (Hsched : schedule indexers ≡ₚ indexers).
  Context (sources : string → option (RepoSource X)) (HashContent : string → string).
  Context (unmarshal_manifest : string → string + (list ManifestService * list string)).
  Context (unmarshal_compose : string → string + gmap string any).
  Context (range_builds : gmap string any → list (string * any)) (range_roots : gmap string Service → list (string * Service)).
  Context (enrich : Enrichment X) (link : Repo → X → option string * X) (refine : Repo → X → X).
  Context `{!Quiet files_of held sources enrich link refine}.
  Context (d : disk) (ignored : string → bool) (repo : Repo).

  Abbreviation untouched := (untouched files_of held).
  Abbreviation in_step := (in_step indexers files_of held).
  Abbreviation plan_entry := (plan_entry HashContent d repo ignored).
  Abbreviation applyPlan := (applyPlan indexers schedule sources HashContent unmarshal_manifest unmarshal_compose range_builds range_roots
    enrich link refine d ignored repo).

(** What an entry asks to be indexed at a path. *)
Definition asks (path : string) (entry : commitPlanEntry) (content : string) : Prop :=
  pe_delete entry = false ∧ ignored path = false ∧ DetectLanguage path ≠ "" ∧
  (if String.eqb (pe_content entry) "" then os_ReadFile d (JoinPath [r_Path repo; path]) = Content content else content = pe_content entry).

Lemma plan_entry_index path entry f row :
  plan_entry (path, entry) = PlanIndex f row ↔
  ∃ content, asks path entry content ∧
    f = {| fi_Path := path; fi_Hash := HashContent content; fi_Language := DetectLanguage path; fi_Content := content |} ∧
    row = file_row (r_ID repo) path (HashContent content) (DetectLanguage path) (Z.of_nat (String.length content)).
Proof.
  unfold Indexing.plan_entry, asks. destruct (pe_delete entry), (ignored path); simpl;
    try (split; [done | by intros (? & (? & ? & _) & _)]).
  destruct (String.eqb_spec (DetectLanguage path) "") as [El|El]; [split; [done | by intros (? & (_ & _ & ? & _) & _)] |].
  destruct (String.eqb (pe_content entry) "").
  - destruct (os_ReadFile _ _) as [c| |]; (split; [|intros (c' & (_ & _ & _ & E) & -> & ->)]); try done; [|by injection E as ->].
    intros [= <- <-]. by exists c.
  - split; [intros [= <- <-]; by eexists | by intros (c & (_ & _ & _ & ->) & -> & ->)].
Qed.

Lemma plan_entry_unreadable path entry q : plan_entry (path, entry) = PlanUnreadable q → q = path ∧ ∀ content, ¬ asks path entry content.
Proof.
  unfold Indexing.plan_entry, asks. destruct (pe_delete entry), (ignored path); simpl; try done.
  destruct (String.eqb_spec (DetectLanguage path) "") as [El|El]; [done |]. destruct (String.eqb (pe_content entry) ""); [|done].
  destruct (os_ReadFile _ _) as [c| |]; try done; intros [= <-]; (split; [done |]); intros c (_ & _ & _ & ?); done.
Qed.


Lemma planned_files entries f :
  f ∈ omap index_of (map plan_entry entries) ↔ ∃ path entry content, (path, entry) ∈ entries ∧ asks path entry content ∧
    fi_Path f = path ∧ fi_Hash f = HashContent content ∧ ∃ row, plan_entry (path, entry) = PlanIndex f row.
Proof.
  rewrite list_elem_of_omap. split.
  - intros (p & ([path entry] & -> & Hin)%list_elem_of_fmap & E). destruct (plan_entry (path, entry)) as [|q|g row] eqn:Ep; try done.
    injection E as ->. pose proof (proj1 (plan_entry_index _ _ _ _) Ep) as (content & Ha & -> & ->).
    exists path, entry, content. split_and!; try done. by eexists.
  - intros (path & entry & content & Hin & _ & _ & _ & row & Ep). exists (PlanIndex f row). split; [|done].
    rewrite <- Ep. apply list_elem_of_fmap. by exists (path, entry).
Qed.

Lemma planned_batch entries :
  NoDup (map fst entries) → Forall plain_path (map fst entries) →
  batch_ok repo (omap index_of (map plan_entry entries)) (omap row_of (map plan_entry entries)).
Proof.
  unfold batch_ok. induction entries as [|[path entry] entries IH]; [intros _ _; split_and!; constructor |].
  intros [Hp Hnd]%NoDup_cons [Hpl Hpls]%Forall_cons. simpl in Hp, Hpl. destruct (IH Hnd Hpls) as (H1 & H2 & H3).
  cbn [map]. change (omap index_of (?a :: ?l)) with (match index_of a with Some b => b :: omap index_of l | None => omap index_of l end).
  change (omap row_of (?a :: ?l)) with (match row_of a with Some b => b :: omap row_of l | None => omap row_of l end).
  destruct (plan_entry (path, entry)) as [|q|f row] eqn:Ep; simpl; [by split_and!.. |].
  apply plan_entry_index in Ep as (content & _ & -> & ->). split_and!; constructor; try done.
  simpl. intros (g & E & (path' & entry' & content' & Hin & _ & E' & _)%planned_files)%list_elem_of_fmap.
  apply Hp, list_elem_of_fmap. exists (path', entry'). split; [|done]. simpl. congruence.
Qed.

Lemma deletes_elem entries path : path ∈ plan_deletes ignored entries ↔ ∃ entry, (path, entry) ∈ entries ∧ pe_delete entry || ignored path = true.
Proof.
  unfold plan_deletes. rewrite list_elem_of_omap. split.
  - intros ([p e] & Hin & E). destruct (pe_delete e || ignored p) eqn:Ed; [|done]. injection E as ->. by exists e.
  - intros (e & Hin & Ed). exists (path, e). split; [done |]. by rewrite Ed.
Qed.

Lemma entry_unique (entries : list (string * commitPlanEntry)) path e1 e2 : NoDup (map fst entries) → (path, e1) ∈ entries → (path, e2) ∈ entries → e1 = e2.
Proof.
  intros Hnd [i Hi]%list_elem_of_lookup [j Hj]%list_elem_of_lookup.
  assert (i = j) as ->; [|congruence]. eapply (NoDup_lookup (map fst entries)); [done | |]; by rewrite list_lookup_fmap, ?Hi, ?Hj.
Qed.

(** C12: An incremental pass does what its plan says.  When it reports no error, a
    path the plan deletes or the patterns ignore has no row and is in no index; a
    path it is to index — at the pushed content, or at what is on disk where none
    was pushed — is in step at that content, or reported as left unindexed with its
    row as it was; a path whose file cannot be read is reported and not touched; a
    path of no known language is not touched, and neither is anything the plan does
    not name. *)
Theorem plan_applied entries x unapplied x' :
  NoDup (map fst entries) → Forall plain_path (map fst entries) →
  applyPlan entries x = (inr unapplied, x') →
  (∀ k, fst k ≠ r_ID repo ∨ snd k ∉ map fst entries → untouched x x' k) ∧
  ∀ path entry, (path, entry) ∈ entries →
    (pe_delete entry || ignored path = true →
       files_of x' !! (r_ID repo, path) = None ∧ ∀ ix, ix ∈ indexers → held x' (ix_Type ix) (r_ID repo, path) = None) ∧
    (∀ content, asks path entry content →
       in_step x' (r_ID repo, path) (HashContent content) ∨
       (path ∈ unapplied ∧ files_of x' !! (r_ID repo, path) = files_of x !! (r_ID repo, path))) ∧
    (pe_delete entry || ignored path = false → (∀ content, ¬ asks path entry content) →
       untouched x x' (r_ID repo, path) ∧ (DetectLanguage path ≠ "" → path ∈ unapplied)).
Proof.
  intros Hnd Hplain. unfold Indexing.applyPlan.
  set (upd := if needs_source ignored entries then _ else _).
  assert (same files_of held x (snd upd)) as S0.
  { unfold upd. destruct (needs_source _ _); [|done]. destruct (sources (r_Source repo)) as [source|] eqn:Es; [|done]. by eapply q_update. }
  destruct upd as [[e|] x0]; [done |]. simpl in S0.
  pose proof (removeIndexedPaths_spec indexers files_of held (r_ID repo) (plan_deletes ignored entries) x0) as H1.
  destruct (removeIndexedPaths indexers (r_ID repo) _ x0) as [[e|] x1]; [done |]. destruct H1 as (U1 & _ & D1). specialize (D1 eq_refl).
  pose proof (indexFileSet_spec indexers files_of held schedule repo _ _ true None x1 Hsched (planned_batch entries Hnd Hplain)) as H2.
  destruct (indexFileSet _ _ _ _ _ _ _ x1) as [[e|[cov failed]] x2]; [done |]. destruct H2 as (U2 & F2 & I2).
  pose proof (detectServices_same indexers files_of held sources unmarshal_manifest unmarshal_compose range_builds range_roots enrich link refine d repo x2) as S3.
  destruct (detectServices _ _ _ _ _ d repo x2) as [[e|] x3]; [done |]. simpl in S3.
  pose proof (linkRepo_same files_of held sources enrich link refine repo x3) as S4.
  destruct (linkRepo _ _ repo x3) as [[e|] x4]; [done |]. simpl in S4. intros [= <- <-].
  pose proof (same_rows_trans _ _ _ _ _ S3 S4) as S34.
  set (T := map fi_Path (omap index_of (map plan_entry entries))) in *.
  assert (∀ path entry, (path, entry) ∈ entries → path ∈ T → ∃ content, asks path entry content) as HT.
  { intros path entry Hin (f & -> & (p & e & content & Hin' & Ha & Ef & _)%planned_files)%list_elem_of_fmap.
    exists content. rewrite Ef in *. by rewrite (entry_unique entries p entry e). }
  assert (∀ path, path ∈ T → path ∈ map fst entries) as HTin.
  { intros path (f & -> & (p & e & content & Hin' & _ & -> & _)%planned_files)%list_elem_of_fmap.
    apply list_elem_of_fmap. by exists (p, e). }
  assert (∀ k, fst k ≠ r_ID repo ∨ snd k ∉ plan_deletes ignored entries → untouched x x1 k) as V1.
  { intros k Hk. eapply untouched_trans; [by apply same_untouched |]. apply U1. intros [? ?]. by destruct Hk. }
  assert (∀ k, fst k ≠ r_ID repo ∨ snd k ∉ T → untouched x1 x4 k) as V2.
  { intros k Hk. eapply untouched_trans; [|by apply same_untouched]. apply U2. intros [? ?]. by destruct Hk. }
  split.
  - intros k Hk. eapply untouched_trans; [apply V1 | apply V2]; destruct Hk as [|Hk]; [by left | right | by left | right].
    + intros (e & Hin & _)%deletes_elem. apply Hk, list_elem_of_fmap. by exists (snd k, e).
    + intros Hin%HTin. done.
  - intros path entry Hin.
    assert (pe_delete entry || ignored path = false → path ∉ plan_deletes ignored entries) as Hkeep.
    { intros Hd (e & Hin' & Hd')%deletes_elem. rewrite (entry_unique entries path entry e) in Hd by done. congruence. }
    split; [|split].
    + intros Hd. assert (path ∉ T) as HnT.
      { intros HinT. destruct (HT path entry Hin HinT) as (c & H1 & H2 & _). by rewrite H1, H2 in Hd. }
      destruct (V2 (r_ID repo, path) (or_intror HnT)) as [Vf Vh].
      destruct (D1 path) as [D1f D1h]; [apply deletes_elem; by exists entry |].
      split; [by rewrite Vf | intros ix Hix; rewrite Vh; by apply D1h].
    + intros content Ha. pose proof Ha as (H1 & H2 & _).
      assert (∃ f, f ∈ omap index_of (map plan_entry entries) ∧ fi_Path f = path ∧ fi_Hash f = HashContent content) as (f & Hf & Ef & Eh).
      { eexists. split; [|split]; [apply planned_files; exists path, entry, content; split_and!; [done | done | | | eexists; apply plan_entry_index; by exists content] | |];
          done. }
      destruct (decide (path ∈ failed)) as [Hfa|Hfa].
      * right. split.
        { unfold SortStrings. rewrite SliceSort_elem, elem_of_app. right. by apply elem_of_elements. }
        rewrite (proj1 S34). rewrite (proj2 (F2 path Hfa)). apply V1. right. apply Hkeep. by rewrite H1, H2.
      * left. eapply untouched_in_step; [by apply same_untouched |]. rewrite <- Ef, <- Eh. apply I2; [done |]. by rewrite Ef.
    + intros Hd Hno. split.
      * eapply untouched_trans; [apply V1; right; by apply Hkeep |]. apply V2. right. intros HinT.
        destruct (HT path entry Hin HinT) as [c Hc]. by apply (Hno c).
      * intros Hl. unfold SortStrings. rewrite SliceSort_elem, elem_of_app. left. apply list_elem_of_omap.
        exists (plan_entry (path, entry)). split; [apply list_elem_of_fmap; by exists (path, entry) |].
        destruct (plan_entry (path, entry)) as [|q|f row] eqn:Ep; simpl.
        -- exfalso. apply orb_false_iff in Hd as [Hd1 Hd2]. revert Ep Hno. unfold Indexing.plan_entry, asks. rewrite Hd1, Hd2. simpl.
           apply String.eqb_neq in Hl. rewrite Hl. destruct (String.eqb (pe_content entry) ""); [|done]. by destruct (os_ReadFile _ _).
        -- by apply plan_entry_unreadable in Ep as [-> _].
        -- apply plan_entry_index in Ep as (c & Hc & _). by destruct (Hno c).
Qed.
End Plan.

(** A push of one file that is on disk, one that is not, and a deletion. *)
Definition demo_entries : list (string * commitPlanEntry) :=
  [("a.go", upsert_entry ""); ("gone.go", upsert_entry ""); ("old.go", delete_entry); ("new.go", upsert_entry "package n")].
Definition demo_apply (x : maps) : (string + list string) * maps :=
  applyPlan (Demo.indexers {["new.go"]}) reverse Demo.sources Demo.hash Demo.no_manifest Demo.no_compose map_to_list map_to_list
    Demo.enrich Demo.link Demo.refine Demo.tree (λ _, false) Demo.repo demo_entries x.
Lemma plan_applied_witness :
  let '(res, x') := demo_apply Demo.empty in
  res = inr ["gone.go"; "new.go"] ∧
  rows_of x' !! ("app-1", "old.go") = None ∧
  in_step (Demo.indexers {["new.go"]}) rows_of held_in x' ("app-1", "a.go") (Demo.hash "package a").
Proof.
  assert (fst (demo_apply Demo.empty) = inr ["gone.go"; "new.go"]) as He by (vm_compute; reflexivity).
  pose proof (plan_applied (Demo.indexers {["new.go"]}) rows_of held_in reverse (reverse_Permutation _) Demo.sources Demo.hash Demo.no_manifest
    Demo.no_compose map_to_list map_to_list Demo.enrich Demo.link Demo.refine Demo.tree (λ _, false) Demo.repo demo_entries Demo.empty
    ["gone.go"; "new.go"] (snd (demo_apply Demo.empty))) as H.
  destruct (demo_apply Demo.empty) as [res x'] eqn:Ed. simpl in He. subst res. split; [reflexivity |].
  destruct H as [_ H]; [apply (bool_decide_unpack (NoDup _)); vm_compute; exact I | by repeat constructor | exact Ed |].
  split.
  - destruct (H "old.go" delete_entry) as (Hd & _ & _); [apply list_elem_of_In; simpl; auto |]. by apply Hd.
  - destruct (H "a.go" (upsert_entry "")) as (_ & Ha & _); [apply list_elem_of_In; simpl; auto |].
    destruct (Ha "package a") as [|[Hin _]]; [split; [reflexivity |]; split; [reflexivity |]; split; [by vm_compute | by vm_compute] | done |].
    apply list_elem_of_In in Hin. simpl in Hin. destruct Hin as [Hin|[Hin|[]]]; discriminate Hin.
Defined.
