(* ===== verification/StoreQueryFacts.v ===== *)
(** * What the composed queries promise

    One statement per lookup, whatever the engine: its text is a list of
    fragments with holes, and the arguments fill the holes in the order they
    come in the text.  Then what a lookup matches and answers: the names and paths
    its patterns match on an engine whose LIKE is SQL's, the ids it excludes, and
    the page [QueryUnits] answers. *)

From S2P Require Import Prelude GoStrings GoStrconv Domain StoreQuery.
From Stdlib Require Import Strings.Ascii.

(** ** Text with holes *)

(** A hole is a placeholder, alone or inside the engine's suffix test. *)
Inductive frag := Lit (s : string) | Hole | SuffixHole (col : string) (n : nat).

Definition frag_holes (f : frag) : nat := match f with Lit _ => 0 | _ => 1 end.
Definition holes (fs : list frag) : nat := sum_list_with frag_holes fs.

(** The text on one engine, its holes numbered from [k]. *)
Fixpoint render (d : Dialect) (k : nat) (fs : list frag) : string :=
  match fs with
  | [] => ""
  | Lit s :: r => s +:+ render d k r
  | Hole :: r => Placeholder d k +:+ render d (S k) r
  | SuffixHole col n :: r => SuffixCond d col (Placeholder d k) n +:+ render d (S k) r
  end.

(** Several texts, numbered one after the other. *)
Fixpoint render_all (d : Dialect) (k : nat) (fss : list (list frag)) : list string :=
  match fss with
  | [] => []
  | fs :: r => render d k fs :: render_all d (k + holes fs) r
  end.

Definition holes_all (fss : list (list frag)) : nat := sum_list_with holes fss.

Fixpoint join_frags (sep : string) (fss : list (list frag)) : list frag :=
  match fss with
  | [] => []
  | [fs] => fs
  | fs :: r => fs ++ Lit sep :: join_frags sep r
  end.

Lemma holes_app a b : holes (a ++ b) = holes a + holes b.
Proof. apply sum_list_with_app. Qed.

Lemma holes_all_app a b : holes_all (a ++ b) = holes_all a + holes_all b.
Proof. apply sum_list_with_app. Qed.

Lemma render_app d k a b : render d k (a ++ b) = render d k a +:+ render d (k + holes a) b.
Proof.
  revert k. induction a as [|f a IH]; intros k; [by rewrite Nat.add_0_r |].
  destruct f; simpl; rewrite IH; unfold holes; simpl; rewrite str_app_assoc;
    do 2 f_equal; f_equal; lia.
Qed.

Lemma render_lit d k s : render d k [Lit s] = s.
Proof. apply str_app_nil_r. Qed.

Lemma render_all_app d k a b :
  render_all d k (a ++ b) = render_all d k a ++ render_all d (k + holes_all a) b.
Proof.
  revert k. induction a as [|fs a IH]; intros k; [by rewrite Nat.add_0_r |].
  simpl. rewrite IH. do 2 f_equal. f_equal. unfold holes_all. simpl. lia.
Qed.

Lemma length_render_all d k fss : length (render_all d k fss) = length fss.
Proof. revert k. induction fss; intros k; simpl; auto. Qed.

Lemma holes_join sep fss : holes (join_frags sep fss) = holes_all fss.
Proof.
  induction fss as [|fs [|fs' r] IH]; [done | unfold holes_all; simpl; lia |].
  change (join_frags sep (fs :: fs' :: r)) with (fs ++ Lit sep :: join_frags sep (fs' :: r)).
  rewrite holes_app.
  change (holes fs + holes (join_frags sep (fs' :: r)) = holes fs + holes_all (fs' :: r)). by rewrite IH.
Qed.

Lemma render_join d k sep fss :
  render d k (join_frags sep fss) = Join (render_all d k fss) sep.
Proof.
  revert k. induction fss as [|fs [|fs' r] IH]; intros k; [done | done |].
  change (join_frags sep (fs :: fs' :: r)) with (fs ++ Lit sep :: join_frags sep (fs' :: r)).
  rewrite render_app. simpl render. rewrite IH. done.
Qed.

(** ** What an operation of the builder emits *)

Definition emit (fss : list (list frag)) (args : list SqlArg) (b : Builder) : Builder := {|
  b_d := b_d b;
  b_conds := b_conds b ++ render_all (b_d b) (S (length (b_args b))) fss;
  b_args := b_args b ++ args
|}.

(** [f] appends the conditions [fss], whose holes the arguments [args] fill. *)
Definition emits (f : Builder → Builder) (fss : list (list frag)) (args : list SqlArg) : Prop :=
  holes_all fss = length args ∧ ∀ b, f b = emit fss args b.

Definition guard {A} (c : bool) (l : list A) : list A := if c then l else [].

Lemma emit_emit fss args fss' args' b :
  holes_all fss = length args →
  emit fss' args' (emit fss args b) = emit (fss ++ fss') (args ++ args') b.
Proof.
  intros H. unfold emit. simpl. rewrite render_all_app, <- !app_assoc, length_app, H. done.
Qed.

Lemma emits_comp f g fss args fss' args' :
  emits f fss args → emits g fss' args' → emits (λ b, g (f b)) (fss ++ fss') (args ++ args').
Proof.
  intros [Hf Ef] [Hg Eg]. split; [by rewrite holes_all_app, length_app, Hf, Hg |].
  intros b. by rewrite Eg, Ef, emit_emit.
Qed.

Lemma emits_nil : emits (λ b, b) [] [].
Proof. split; [done |]. intros [d cs l]. unfold emit. simpl. by rewrite !app_nil_r. Qed.

Lemma emits_when c f fss args :
  emits f fss args → emits (when c f) (guard c fss) (guard c args).
Proof. intros H. destruct c; [done | apply emits_nil]. Qed.

(** A condition with one argument. *)
Lemma emits_next (f : Builder → Builder) fs v :
  holes fs = 1 →
  (∀ b, f b = let '(b', ph) := next b v in
              add_cond b' (render (b_d b) (S (length (b_args b))) fs)) →
  emits f [fs] [v].
Proof.
  intros Hh H. split; [unfold holes_all; simpl; lia |]. intros b. rewrite H. done.
Qed.

(** [emit_next] proves what a one-argument operation emits. *)
Ltac emit_next :=
  apply emits_next; [done |]; intros b; unfold Eq, Lte, Gte, next; simpl;
  rewrite ?length_app, ?Nat.add_1_r; autorewrite with str; done.

Lemma emits_Eq col v : emits (λ b, Eq b col v) [[Lit col; Lit " = "; Hole]] [v].
Proof. emit_next. Qed.

Lemma emits_Lte col v : emits (λ b, Lte b col v) [[Lit col; Lit " <= "; Hole]] [v].
Proof. emit_next. Qed.

Lemma emits_Gte col v : emits (λ b, Gte b col v) [[Lit col; Lit " >= "; Hole]] [v].
Proof. emit_next. Qed.

Lemma emits_Raw cond : emits (λ b, Raw b cond) [[Lit cond]] [].
Proof.
  split; [done |]. intros b. unfold Raw, add_cond, emit. cbn [render_all].
  by rewrite render_lit, app_nil_r.
Qed.

Lemma emits_Suffix col suffix :
  emits (λ b, Suffix b col suffix)
    (guard (given suffix) [[SuffixHole col (RuneCountInString suffix)]])
    (guard (given suffix) [ArgText suffix]).
Proof.
  unfold Suffix, given. destruct (String.eqb suffix ""); [apply emits_nil |].
  simpl. emit_next.
Qed.

(** Conditions one per element, whose arguments come in the elements' order. *)
Definition cond_emits {A} (cond : Builder → A → Builder * string) (fs : A → list frag)
    (arg : A → SqlArg) : Prop :=
  ∀ x, holes (fs x) = 1 ∧
    ∀ b, cond b x = (fst (next b (arg x)), render (b_d b) (S (length (b_args b))) (fs x)).

Lemma conds_of_emits {A} cond fs (arg : A → SqlArg) b l :
  cond_emits cond fs arg →
  conds_of cond b l =
    ({| b_d := b_d b; b_conds := b_conds b; b_args := b_args b ++ map arg l |},
     render_all (b_d b) (S (length (b_args b))) (map fs l)).
Proof.
  intros H. revert b. induction l as [|x l IH]; intros b; simpl.
  - rewrite app_nil_r. by destruct b.
  - destruct (H x) as [Hx ->]. rewrite IH. simpl.
    by rewrite length_app, Hx, <- app_assoc, !Nat.add_1_r.
Qed.

Lemma cond_emits_holes {A} cond fs (arg : A → SqlArg) l :
  cond_emits cond fs arg → holes_all (map fs l) = length (map arg l).
Proof.
  intros H. induction l as [|x l IH]; [done |].
  change (holes (fs x) + holes_all (map fs l) = S (length (map arg l))).
  by rewrite IH, (proj1 (H x)).
Qed.

Definition anyOf_frags {A} (fs : A → list frag) (cols : list A) : list (list frag) :=
  match cols with
  | [] => []
  | [c] => [fs c]
  | _ => [Lit "(" :: join_frags " OR " (map fs cols) ++ [Lit ")"]]
  end.

Lemma emits_anyOf cols cond fs arg :
  cond_emits cond fs arg →
  emits (λ b, anyOf b cols cond) (anyOf_frags fs cols) (map arg cols).
Proof.
  intros H. destruct cols as [|c [|c' r]]; [apply emits_nil | |].
  - split; [rewrite <- (cond_emits_holes cond fs arg [c] H); done |].
    intros b. unfold anyOf. rewrite (conds_of_emits cond fs arg) by done. done.
  - split.
    + rewrite <- (cond_emits_holes cond fs arg (c :: c' :: r) H).
      unfold holes_all at 1, anyOf_frags. cbn [sum_list_with].
      unfold holes at 1. cbn [sum_list_with frag_holes]. fold (holes (join_frags " OR " (map fs (c :: c' :: r)) ++ [Lit ")"])).
      rewrite holes_app, holes_join. unfold holes at 1. simpl. lia.
    + intros b. unfold anyOf. rewrite (conds_of_emits cond fs arg) by done.
      cbn [map render_all]. unfold add_cond, emit, anyOf_frags. cbn [b_d b_conds b_args].
      f_equal. f_equal. cbn [render_all render].
      rewrite render_app, render_join, render_lit. done.
Qed.

Definition eq_fold_frags (col : string) : list frag := [Lit ("LOWER(" +:+ col +:+ ") = LOWER("); Hole; Lit ")"].
Definition contains_frags (col : string) : list frag :=
  [Lit ("LOWER(" +:+ col +:+ ") LIKE LOWER("); Hole; Lit ") ESCAPE '\'"].

Lemma emits_EqFold cols v :
  emits (λ b, EqFold b cols v) (anyOf_frags eq_fold_frags cols) (map (λ _, ArgText v) cols).
Proof.
  apply emits_anyOf. intros col. split; [done |]. intros b. unfold next. simpl.
  rewrite length_app, Nat.add_1_r. by autorewrite with str.
Qed.

Lemma emits_ContainsFold cols v :
  emits (λ b, ContainsFold b cols v) (anyOf_frags contains_frags cols)
        (map (λ _, ArgText (like_pattern v)) cols).
Proof.
  apply emits_anyOf. intros col. split; [done |]. intros b. unfold next. simpl.
  rewrite length_app, Nat.add_1_r. by autorewrite with str.
Qed.

Definition member_frags (col op : string) (vals : list SqlArg) : list (list frag) :=
  match vals with
  | [] => []
  | _ => [Lit col :: Lit op :: join_frags "," (map (λ _, [Hole]) vals) ++ [Lit ")"]]
  end.

Lemma emits_membership col op vals :
  emits (λ b, membership b col op vals) (member_frags col op vals) vals.
Proof.
  assert (cond_emits next (λ _, [Hole]) id) as H.
  { intros x. split; [done |]. intros b. unfold next. simpl.
    by rewrite length_app, Nat.add_1_r, str_app_nil_r. }
  destruct vals as [|v r]; [apply emits_nil |]. split.
  - pose proof (cond_emits_holes next (λ _, [Hole]) id (v :: r) H) as E. rewrite map_id in E. rewrite <- E.
    unfold holes_all at 1, member_frags. cbn [sum_list_with].
    unfold holes at 1. cbn [sum_list_with frag_holes].
    fold (holes (join_frags "," (map (λ _, [Hole]) (v :: r)) ++ [Lit ")"])).
    rewrite holes_app, holes_join. unfold holes at 1. simpl. lia.
  - intros b. unfold membership. rewrite (conds_of_emits next (λ _, [Hole]) id) by done.
    unfold add_cond, emit, member_frags. rewrite map_id. cbn [b_d b_conds b_args].
    f_equal. f_equal. cbn [render_all render].
    rewrite render_app, render_join, render_lit. by autorewrite with str.
Qed.

(** ** The filters *)

(** The conditions and arguments of a name term, of the name terms of a query
    and of its filters, in the order the code adds them. *)
Definition term_frags (tier : UnitTier) (cols : list string) : list (list frag) :=
  anyOf_frags (if substring tier then contains_frags else eq_fold_frags) cols.
Definition term_args (tier : UnitTier) (cols : list string) (v : string) : list SqlArg :=
  map (λ _, ArgText (if substring tier then like_pattern v else v)) cols.

Definition terms_frags (opts : QueryOpts) (tier : UnitTier) : list (list frag) :=
  guard (given (q_Name opts)) (term_frags tier ["name"]) ++
  guard (given (q_Qualified opts)) (term_frags tier ["qualified"]) ++
  guard (given (q_NameOrQualified opts)) (term_frags tier ["name"; "qualified"]).
Definition terms_args (opts : QueryOpts) (tier : UnitTier) : list SqlArg :=
  guard (given (q_Name opts)) (term_args tier ["name"] (q_Name opts)) ++
  guard (given (q_Qualified opts)) (term_args tier ["qualified"] (q_Qualified opts)) ++
  guard (given (q_NameOrQualified opts)) (term_args tier ["name"; "qualified"] (q_NameOrQualified opts)).

Definition eq_args (v : string) : list SqlArg := guard (given v) [ArgText v].

Definition filter_args (opts : QueryOpts) (tier : UnitTier) : list SqlArg :=
  eq_args (q_RepoID opts) ++ map ArgText (q_Repos opts) ++ eq_args (q_FilePath opts) ++
  eq_args (q_Language opts) ++ eq_args (q_Kind opts) ++ map ArgText (q_Kinds opts) ++
  terms_args opts tier ++ eq_args (q_QualifiedSuffix opts) ++
  guard (0 <? q_Line opts)%Z [ArgInt (q_Line opts); ArgInt (q_Line opts)].

Lemma emits_unitTerm tier cols v :
  emits (λ b, unitTerm b tier cols v) (term_frags tier cols) (term_args tier cols v).
Proof.
  unfold unitTerm, term_frags, term_args.
  destruct (substring tier); [apply emits_ContainsFold | apply emits_EqFold].
Qed.

Lemma emits_unitTerms opts tier :
  emits (λ b, unitTerms b opts tier) (terms_frags opts tier) (terms_args opts tier).
Proof.
  unfold terms_frags, terms_args. rewrite !(assoc_L (++)). unfold unitTerms.
  repeat apply emits_comp; apply emits_when, emits_unitTerm.
Qed.

Lemma emits_Eq_when col v :
  emits (when (given v) (λ b, Eq b col (ArgText v))) (guard (given v) [[Lit col; Lit " = "; Hole]]) (eq_args v).
Proof. apply emits_when, emits_Eq. Qed.

(** Equal arguments, whatever shape they were computed in. *)
Lemma emits_eq f fss args args' : emits f fss args → args = args' → emits f fss args'.
Proof. by intros ? <-. Qed.

Lemma emits_UnitFilters opts tier :
  ∃ fss, emits (λ b, UnitFilters b opts tier) fss (filter_args opts tier).
Proof.
  eexists. eapply emits_eq.
  - unfold UnitFilters.
    apply (emits_comp _ (when (bool_decide (tier = TierHandWritten)) _)); [|apply emits_when, emits_Raw].
    apply (emits_comp _ (when (0 <? q_Line opts)%Z _));
      [|apply emits_when, (emits_comp _ (λ b, Gte b _ _)); [apply emits_Lte | apply emits_Gte]].
    apply (emits_comp _ (when (given (q_QualifiedSuffix opts)) _)); [|apply emits_when, emits_Suffix].
    apply (emits_comp _ (λ b, unitTerms b opts tier)); [|apply emits_unitTerms].
    apply (emits_comp _ (λ b, In b _ _)); [|apply emits_membership].
    do 3 (eapply (emits_comp _ (when _ _)); [|apply emits_Eq_when]).
    apply (emits_comp _ (λ b, In b _ _)); [|apply emits_membership].
    apply emits_Eq_when.
  - unfold filter_args.
    change (eq_args (q_QualifiedSuffix opts))
      with (guard (given (q_QualifiedSuffix opts)) [ArgText (q_QualifiedSuffix opts)]).
    unfold guard. rewrite <- !app_assoc.
    destruct (given (q_QualifiedSuffix opts)), (0 <? q_Line opts)%Z, (bool_decide (tier = TierHandWritten));
      simpl; by rewrite ?app_nil_r.
Qed.

(** The ranking of a statement: the text around the exact conditions, whose
    arguments are bound a second time. *)
Definition order_args (opts : QueryOpts) (tier : UnitTier) : list SqlArg :=
  guard (bool_decide (tier = TierRemainder)) (terms_args opts TierExact).

Lemma unitOrderBy_emits opts tier :
  ∃ fs, holes fs = length (order_args opts tier) ∧
    ∀ b, unitOrderBy b opts tier =
      ({| b_d := b_d b; b_conds := b_conds b; b_args := b_args b ++ order_args opts tier |},
       render (b_d b) (S (length (b_args b))) fs).
Proof.
  unfold unitOrderBy, order_args. case_decide as Ht.
  2: { exists [Lit unitOrder]. rewrite bool_decide_eq_false_2 by done. split; [done |].
       intros b. rewrite render_lit, app_nil_r. by destruct b. }
  rewrite bool_decide_eq_true_2 by done.
  destruct (emits_unitTerms opts TierExact) as [Hh He].
  assert (∀ b, unitTermConds b opts TierExact =
    ({| b_d := b_d b; b_conds := b_conds b; b_args := b_args b ++ terms_args opts TierExact |},
     render_all (b_d b) (S (length (b_args b))) (terms_frags opts TierExact))) as E.
  { intros b. unfold unitTermConds. rewrite He. simpl. by rewrite take_app_length, drop_app_length. }
  destruct (terms_frags opts TierExact) as [|fs fss] eqn:Ef.
  - exists [Lit unitOrder]. split; [cbn [guard]; by rewrite <- Hh |]. intros b. rewrite E, render_lit. done.
  - exists ([Lit (" ORDER BY " +:+ penaltyRank +:+ ", CASE WHEN ")] ++
            join_frags " AND " (fs :: fss) ++
            [Lit (" THEN 0 ELSE 1 END" +:+ ", LENGTH(name), " +:+ UnitTieBreak)]).
    split; [cbn [guard]; rewrite !holes_app, holes_join, Hh; unfold holes; simpl; lia |].
    intros b. rewrite E. cbn [guard render_all]. f_equal.
    rewrite render_app, render_lit, render_app, render_join, render_lit.
    change (holes [Lit _]) with 0. rewrite Nat.add_0_r. by autorewrite with str.
Qed.

Lemma Where_emit fss args d :
  Where (emit fss args (NewBuilder d))
  = (render d 1 (match fss with [] => [] | _ => Lit " AND " :: join_frags " AND " fss end), args).
Proof.
  unfold Where. destruct fss as [|fs r]; [done |].
  cbn [emit b_conds b_args NewBuilder b_d app length render_all render]. by rewrite render_join.
Qed.

Definition query_args (opts : QueryOpts) (tier : UnitTier) (limit : Z) (exclude : list SqlArg) : list SqlArg :=
  filter_args opts tier ++ exclude ++ order_args opts tier ++ guard (0 <? limit)%Z [ArgInt limit].

Definition where_frags (fss : list (list frag)) : list frag :=
  match fss with [] => [] | _ => Lit " AND " :: join_frags " AND " fss end.

Lemma holes_where fss : holes (where_frags fss) = holes_all fss.
Proof.
  destruct fss as [|fs r]; [done |].
  change (holes (join_frags " AND " (fs :: r)) = holes_all (fs :: r)). apply holes_join.
Qed.

Lemma Where_builder d fss args :
  Where {| b_d := d; b_conds := render_all d 1 fss; b_args := args |} = (render d 1 (where_frags fss), args).
Proof.
  unfold Where. destruct fss as [|fs r]; [done |].
  cbn [b_conds b_args render_all where_frags render].
  by rewrite render_join.
Qed.

Lemma UnitQuery_text opts tier limit exclude :
  ∃ fs, holes fs = length (query_args opts tier limit exclude) ∧
    ∀ d, UnitQuery d opts tier limit exclude = (render d 1 fs, query_args opts tier limit exclude).
Proof.
  destruct (emits_UnitFilters opts tier) as [fss Hf].
  pose proof (emits_comp _ (λ b, NotIn b "id" exclude) _ _ _ _ Hf (emits_membership _ _ _)) as [Hh He].
  destruct (unitOrderBy_emits opts tier) as (ofs & Ho & Eo).
  set (css := fss ++ member_frags "id" " NOT IN (" exclude) in *.
  exists (Lit ("SELECT " +:+ UnitColumns +:+ " FROM ast_units WHERE 1=1") :: where_frags css ++ ofs ++
          (if (0 <? limit)%Z then [Lit " LIMIT "; Hole] else [])).
  split.
  - change (holes (Lit ?x :: ?r)) with (holes r).
    unfold query_args. rewrite !holes_app, holes_where, Hh, Ho, !length_app. by destruct (0 <? limit)%Z; simpl; lia.
  - intros d. unfold UnitQuery. rewrite He, Eo. cbn [render].
    rewrite !render_app, holes_where, Hh, Ho. unfold query_args.
    destruct (0 <? limit)%Z; unfold Limit, next;
      cbn [emit NewBuilder b_d b_conds b_args app length guard render]; rewrite Where_builder.
    + autorewrite with str. by rewrite !length_app, <- !app_assoc, Nat.add_1_r, Nat.add_assoc.
    + autorewrite with str. by rewrite app_nil_r, <- !app_assoc.
Qed.

(** A unit lookup is one statement, whichever engine runs it. For every
    option, tier and page there is one text with holes of which each engine's
    statement is a rendering: the holes are numbered from one in the order they
    come in the text, there are as many as arguments, and the arguments — the
    same for all engines — are those of the filters, of the excluded ids, of the
    exact conditions the ranking repeats and of the page size, in that order. *)
Theorem UnitQuery_one_text opts tier limit exclude :
  ∃ fs, holes fs = length (query_args opts tier limit exclude) ∧
    ∀ d, UnitQuery d opts tier limit exclude = (render d 1 fs, query_args opts tier limit exclude).
Proof. apply UnitQuery_text. Qed.

(** The arguments of an edge query. *)
Definition edge_args (opts : QueryOpts) (idConv : string → SqlArg) : list SqlArg :=
  eq_args (q_RepoID opts) ++ eq_args (q_FilePath opts) ++ eq_args (q_Kind opts) ++
  map ArgText (q_Kinds opts) ++ eq_args (q_Name opts) ++
  guard (given (q_SrcID opts)) [idConv (q_SrcID opts)] ++
  guard (given (q_DstID opts)) [idConv (q_DstID opts)].

Lemma emits_EdgeFilters opts idConv :
  ∃ fss, emits (λ b, EdgeFilters b opts idConv) fss (edge_args opts idConv).
Proof.
  eexists. eapply emits_eq.
  - unfold EdgeFilters.
    apply (emits_comp _ (when (q_Unresolved opts) _)); [|apply emits_when, emits_Raw].
    do 2 (eapply (emits_comp _ (when _ _)); [|apply emits_when, emits_Eq]).
    eapply (emits_comp _ (when _ _)); [|apply emits_Eq_when].
    apply (emits_comp _ (λ b, In b _ _)); [|apply emits_membership].
    do 2 (eapply (emits_comp _ (when _ _)); [|apply emits_Eq_when]).
    apply emits_Eq_when.
  - unfold edge_args. rewrite <- !app_assoc. by destruct (q_Unresolved opts); simpl; rewrite !app_nil_r.
Qed.

(** The edge filters of the two backends are one condition too: one text
    with holes, which the same arguments fill in its order. *)
Theorem EdgeFilters_one_text opts idConv :
  ∃ fs, holes fs = length (edge_args opts idConv) ∧
    ∀ d, Where (EdgeFilters (NewBuilder d) opts idConv) = (render d 1 fs, edge_args opts idConv).
Proof.
  destruct (emits_EdgeFilters opts idConv) as [fss [Hh He]].
  exists (where_frags fss). split; [by rewrite holes_where |].
  intros d. rewrite He. apply Where_builder.
Qed.

(** ** LIKE patterns *)

Definition like_special (c : ascii) : bool := Ascii.eqb c "\" || Ascii.eqb c "%" || Ascii.eqb c "_".

(** What the patterns rely on of an engine's [LIKE ... ESCAPE '\'], on lower-case
    ASCII text: the engines disagree on letter case and on other text. *)
Class SqlLike (like : string → string → bool) : Prop := {
  like_end t : like "" t = true ↔ t = "";
  like_any p t : like (String "%" p) t = true ↔ ∃ a b, t = a +:+ b ∧ like p b = true;
  like_escaped c p t :
    like_special c = true → ToLower t = t →
    like (String "\" (String c p)) t = true ↔ ∃ r, t = String c r ∧ like p r = true;
  like_plain c p t :
    like_special c = false → lower_byte c = c → ToLower t = t →
    like (String c p) t = true ↔ ∃ r, t = String c r ∧ like p r = true
}.

Lemma ToLower_cons_inv c r : ToLower (String c r) = String c r → lower_byte c = c ∧ ToLower r = r.
Proof. unfold ToLower. simpl. by intros [= H1 H2]. Qed.

Lemma like_special_lower c : like_special (lower_byte c) = like_special c.
Proof. byte_cases c. Qed.

Lemma lower_special c : like_special c = true → lower_byte c = c.
Proof. byte_cases c. Qed.

Lemma EscapeLike_cons c r :
  EscapeLike (String c r) =
    if like_special c then String "\" (String c (EscapeLike r)) else String c (EscapeLike r).
Proof. done. Qed.

Lemma ToLower_EscapeLike v : ToLower (EscapeLike v) = EscapeLike (ToLower v).
Proof.
  induction v as [|c r IH]; [done |].
  change (ToLower (String c r)) with (String (lower_byte c) (ToLower r)).
  rewrite !EscapeLike_cons, like_special_lower, <- IH. by destruct (like_special c).
Qed.

Lemma ToLower_like_pattern v : ToLower (like_pattern v) = like_pattern (ToLower v).
Proof.
  unfold like_pattern. change (ToLower ("%" +:+ ?x)) with (String "%" (ToLower x)).
  unfold ToLower at 1. rewrite str_map_app. fold ToLower. by rewrite ToLower_EscapeLike.
Qed.

Lemma ToLower_app_r a b : ToLower (a +:+ b) = a +:+ b → ToLower b = b.
Proof. induction a as [|c a IH]; [done |]. intros H. apply ToLower_cons_inv in H as [_ H]. auto. Qed.

Section Like.
  Context (like : string → string → bool) `{!SqlLike like}.

(** An escaped term is matched as written: a prefix of the text, here. *)
Lemma like_literal v t :
  ToLower v = v → ToLower t = t →
  like (EscapeLike v +:+ "%") t = true ↔ ∃ r, t = v +:+ r.
Proof.
  revert t. induction v as [|c v IH]; intros t Hv Ht.
  - change (EscapeLike "" +:+ "%") with "%". rewrite like_any. split.
    + intros (a & b & -> & _). by exists (a +:+ b).
    + intros [r ->]. exists r, "". rewrite str_app_nil_r. split; [done |]. by apply like_end.
  - apply ToLower_cons_inv in Hv as [Hc Hv].
    assert (like (EscapeLike (String c v) +:+ "%") t = true
            ↔ ∃ r, t = String c r ∧ like (EscapeLike v +:+ "%") r = true) as ->.
    { rewrite EscapeLike_cons. destruct (like_special c) eqn:E; [by apply like_escaped | by apply like_plain]. }
    split.
    + intros (r & -> & H). apply ToLower_cons_inv in Ht as [_ Ht].
      apply IH in H as [r' ->]; [by exists r' | done | done].
    + intros [r ->]. exists (v +:+ r). split; [done |].
      change (String c v +:+ r) with (String c (v +:+ r)) in Ht.
      apply ToLower_cons_inv in Ht as [_ Ht]. apply IH; eauto.
Qed.

Lemma like_pattern_Contains v t :
  ToLower v = v → ToLower t = t → like (like_pattern v) t = Contains t v.
Proof.
  intros Hv Ht. apply eq_true_iff_eq. rewrite Contains_spec.
  unfold like_pattern. change ("%" +:+ ?x) with (String "%" x). rewrite like_any. split.
  - intros (a & b & -> & H). apply ToLower_app_r in Ht.
    apply like_literal in H as [r ->]; [by exists a, r | done | done].
  - intros (a & b & ->). exists a, (v +:+ b). split; [done |]. apply like_literal; [done | by apply ToLower_app_r in Ht | eauto].
Qed.

End Like.

(** A name term and the path markers match what their Go counterparts do.
    On an engine with SQL's LIKE, the pattern of a term — wildcards in it
    included — matches a column exactly when the column contains the term, both
    lowered; the marker patterns of the ranking hold of exactly the paths
    [domain.IsGeneratedPath] or [domain.IsTestPath] judge so; and quoting leaves
    every marker pattern as it is. *)
Theorem patterns_match like v col path :
  SqlLike like →
  like (ToLower (like_pattern v)) (ToLower col) = Contains (ToLower col) (ToLower v) ∧
  existsb (λ m, like (like_pattern m) (ToLower (String "/" path))) (generatedPathMarkers ++ testPathMarkers)
    = IsGeneratedPath path || IsTestPath path ∧
  Forall (λ m, penalty_cond m =
    "LOWER('/' || file_path) LIKE '" +:+ like_pattern m +:+ "' ESCAPE '\'")
    (generatedPathMarkers ++ testPathMarkers).
Proof.
  intros HL. split_and!.
  - rewrite ToLower_like_pattern. apply like_pattern_Contains; [done | apply ToLower_idemp..].
  - unfold IsGeneratedPath, IsTestPath, matchesMarker. rewrite <- existsb_app.
    assert (Forall (λ m, ToLower m = m) (generatedPathMarkers ++ testPathMarkers)) as Hm
      by (repeat constructor).
    change (ToLower (String "/" path)) with (markerPath path).
    assert (ToLower (markerPath path) = markerPath path) as Hp.
    { unfold markerPath. change (ToLower ("/" +:+ ?x)) with (String "/" (ToLower x)).
      by rewrite ToLower_idemp. }
    induction Hm as [|m ms Hm _ IH]; [done |]. simpl. rewrite IH. f_equal.
    by apply like_pattern_Contains.
  - repeat constructor.
Qed.

(** A LIKE of the kind the engines have, to run the patterns on. *)
Fixpoint like_match (p : string) : string → bool :=
  match p with
  | "" => λ t, String.eqb t ""
  | String c p' =>
      if Ascii.eqb c "%" then
        fix any t := like_match p' t || match t with "" => false | String _ r => any r end
      else if Ascii.eqb c "_" then
        λ t, match t with "" => false | String _ r => like_match p' r end
      else if Ascii.eqb c "\" then
        match p' with
        | "" => λ _, false
        | String c' p'' => λ t, match t with "" => false | String d r => Ascii.eqb c' d && like_match p'' r end
        end
      else λ t, match t with "" => false | String d r => Ascii.eqb c d && like_match p' r end
  end.

Lemma first_byte c (b : string → bool) t :
  match t with "" => false | String d r => Ascii.eqb c d && b r end = true
  ↔ ∃ r, t = String c r ∧ b r = true.
Proof.
  destruct t as [|d t]; [naive_solver |]. rewrite andb_true_iff, Ascii.eqb_eq. naive_solver.
Qed.

#[export] Instance like_match_sql : SqlLike like_match.
Proof.
  split.
  - intros t. apply String.eqb_eq.
  - intros p t. induction t as [|d t IH].
    + change (like_match (String "%" p) "") with (like_match p "" || false).
      rewrite orb_false_r. split; [by exists "", "" |].
      intros (a & b & E & H). symmetry in E. by apply str_app_eq_nil in E as [-> ->].
    + change (like_match (String "%" p) (String d t))
        with (like_match p (String d t) || like_match (String "%" p) t).
      rewrite orb_true_iff, IH. split.
      * intros [H|(a & b & -> & H)]; [by exists "", (String d t) | by exists (String d a), b].
      * intros ([|d' a] & b & E & H); [left; by rewrite E | right]. injection E as -> ->. eauto.
  - intros c p t Hc _. apply (first_byte c (like_match p) t).
  - intros c p t Hc _ _. unfold like_special in Hc. bool_prop. cbn [like_match].
    rewrite H, H0, H1. apply first_byte.
Qed.

Lemma patterns_match_witness :
  like_match (ToLower (like_pattern "100%_A")) (ToLower "is100%_aB") = true ∧
  existsb (λ m, like_match (like_pattern m) (ToLower (String "/" "src/Api_PB2.py")))
    (generatedPathMarkers ++ testPathMarkers) = true.
Proof.
  destruct (patterns_match like_match "100%_A" "is100%_aB" "src/Api_PB2.py" like_match_sql) as (H1 & H2 & _).
  split; [rewrite H1 | rewrite H2]; vm_compute; reflexivity.
Defined.

(** ** The page *)

Definition widens (opts : QueryOpts) : bool := q_Fallback opts && (0 <? q_Limit opts)%Z && hasUnitTerm opts.
Definition first_tier (opts : QueryOpts) : UnitTier := if widens opts then TierHandWritten else TierExact.

(** What a lookup relies on of the engine: a page is no longer than its limit,
    its rows have ids of their own, and none is one the statement excludes. *)
Definition scan_ok {E} (d : Dialect) (opts : QueryOpts) (idConv : string → SqlArg) (scan : UnitScanner E) : Prop :=
  ∀ tier limit exclude us, scan (UnitQuery d opts tier limit exclude) = inr us →
    ((0 < limit)%Z → (Z.of_nat (length us) ≤ limit)%Z) ∧
    NoDup (map u_ID us) ∧ (∀ u, u ∈ us → idConv (u_ID u) ∉ exclude).

(** The statement that fills the rest of a page. *)
Definition rest_query (d : Dialect) (opts : QueryOpts) (idConv : string → SqlArg) (us : list ASTUnit)
    : string * list SqlArg :=
  UnitQuery d opts TierRemainder (q_Limit opts - Z.of_nat (length us)) (map (λ u, idConv (u_ID u)) us).

(** The page of a lookup. A failed statement fails the lookup. Otherwise the
    answer is the rows of the first statement — as written, or hand-written when
    the caller asked to widen a term within a limit — followed, only if that
    statement left a widened page short, by the rows of a second one; it is never
    longer than the limit and never holds a unit twice. *)
Theorem QueryUnits_page {E} d opts idConv (scan : UnitScanner E) :
  scan_ok d opts idConv scan →
  let first := scan (UnitQuery d opts (first_tier opts) (q_Limit opts) []) in
  match QueryUnits d opts idConv scan with
  | inl e => first = inl e ∨
      ∃ us, first = inr us ∧ widens opts = true ∧ (Z.of_nat (length us) < q_Limit opts)%Z ∧
            scan (rest_query d opts idConv us) = inl e
  | inr page => ∃ us more, page = us ++ more ∧ first = inr us ∧
      ((more = [] ∧ (widens opts = false ∨ (q_Limit opts ≤ Z.of_nat (length us))%Z)) ∨
       (widens opts = true ∧ (Z.of_nat (length us) < q_Limit opts)%Z ∧
        scan (rest_query d opts idConv us) = inr more)) ∧
      ((0 < q_Limit opts)%Z → (Z.of_nat (length page) ≤ q_Limit opts)%Z) ∧
      NoDup (map u_ID page)
  end.
Proof.
  intros Hs. simpl. unfold QueryUnits, first_tier. fold (widens opts).
  set (first := if widens opts then TierHandWritten else TierExact).
  replace (if widens opts then (TierHandWritten, TierRemainder) else (TierExact, TierSubstring))
    with (first, if widens opts then TierRemainder else TierSubstring)
    by (unfold first; by destruct (widens opts)).
  destruct (scan (UnitQuery d opts first (q_Limit opts) [])) as [e|us] eqn:E1; [by left |].
  destruct (Hs _ _ _ _ E1) as (Hl & Hd & _).
  case_if.
  { exists us, []. rewrite app_nil_r. split_and!; try done. left. split; [done |].
    apply orb_true_iff in E0 as [H|H]; bool_prop; auto. }
  bool_prop. rewrite H. fold (rest_query d opts idConv us).
  destruct (scan (rest_query d opts idConv us)) as [e|more] eqn:E2; [right; by exists us |].
  destruct (Hs _ _ _ _ E2) as (Hl' & Hd' & Hx).
  exists us, more. split_and!; try done; [by right | rewrite length_app; lia |].
  rewrite map_app. apply NoDup_app. split_and!; [done | | done].
  intros i (u & -> & Hu)%list_elem_of_fmap (w & Ew & Hw)%list_elem_of_fmap.
  apply (Hx w Hw). rewrite <- Ew. by apply (list_elem_of_fmap_2 (λ u, idConv (u_ID u))).
Qed.

(** Unit ids survive the trip to the engine: an id printed from a 64-bit
    integer is bound as that integer, so different units stay different; any
    other text binds some 64-bit integer all the same, and no id at all binds
    zero, the mark of an unresolved edge. *)
Theorem IntOrZero_ids z s :
  in_int64 z = true →
  idConv (Itoa z) = ArgInt z ∧ IntOrZero (Itoa z) = z ∧
  in_int64 (IntOrZero s) = true ∧ IntOrZero "" = 0%Z.
Proof.
  intros Hz.
  assert (IntOrZero (Itoa z) = z) as E.
  { unfold IntOrZero. rewrite (ParseInt64_Itoa z Hz). destruct (String.eqb_spec (Itoa z) "") as [En|]; [|done].
    pose proof (ParseInt64_Itoa z Hz) as H. rewrite En in H. done. }
  split_and!; [unfold idConv; by rewrite E | done | | done].
  unfold IntOrZero. case_if; [done |]. destruct (ParseInt64 s) as [n|] eqn:En; [|done].
  revert En. unfold ParseInt64. repeat case_match; try done; by intros [= <-].
Qed.

Lemma IntOrZero_ids_witness : idConv "-42" = ArgInt (-42).
Proof. exact (proj1 (IntOrZero_ids (-42) "x" eq_refl)). Defined.

(** An engine holding one unit, of id 7, which answers it unless told to leave
    it out. *)
Definition unit7 : ASTUnit := {|
  u_ID := "7"; u_RepoID := "r"; u_FilePath := "a.go"; u_Language := "go"; u_Kind := "function";
  u_Name := "Charge"; u_Qualified := "pay.Charge"; u_ParentID := ""; u_StartLine := 1; u_EndLine := 2;
  u_StartByte := 0; u_EndByte := 9; u_Signature := ""; u_Doc := ""; u_Hash := ""; u_Meta := ""
|}.
Definition engine7 : UnitScanner string :=
  λ q, if bool_decide (ArgInt 7 ∈ snd q) then inr [] else inr [unit7].

Definition opts7 : QueryOpts := {|
  q_RepoID := "r"; q_Repos := []; q_FilePath := ""; q_Language := ""; q_Kind := ""; q_Kinds := [];
  q_Name := "charge"; q_Qualified := ""; q_QualifiedSuffix := ""; q_NameOrQualified := "";
  q_Fallback := true; q_SrcID := ""; q_DstID := ""; q_Unresolved := false; q_Line := 0; q_Limit := 5
|}.

Lemma engine7_ok d opts : scan_ok d opts idConv engine7.
Proof.
  intros tier limit exclude us. unfold engine7.
  destruct (UnitQuery_text opts tier limit exclude) as (fs & _ & ->). simpl.
  case_bool_decide as Hin; intros [= <-]; simpl.
  - split_and!; [lia | constructor | set_solver].
  - split_and!; [lia | apply NoDup_singleton |].
    intros u ->%list_elem_of_singleton Hx. apply Hin. unfold query_args.
    rewrite elem_of_app. right. rewrite elem_of_app. by left.
Qed.

Lemma QueryUnits_page_witness :
  QueryUnits SQLiteDialect opts7 idConv engine7 = inr [unit7] ∧
  NoDup (map u_ID [unit7]).
Proof.
  pose proof (QueryUnits_page SQLiteDialect opts7 idConv engine7 (engine7_ok _ _)) as H.
  assert (QueryUnits SQLiteDialect opts7 idConv engine7 = inr [unit7]) as E by (vm_compute; reflexivity).
  rewrite E in H. split; [exact E |]. by destruct H as (us & more & _ & _ & _ & _ & H).
Defined.
