(* ===== verification/Graph.v ===== *)
(** * Queries on the code graph

    [internal/graph/graph.go] and [context.go]: the per-request loader with its
    caches, the neighbourhood of a unit, paths across services, the context
    around a unit, and the units and services a name, a line or a file is of.
    Every query runs in a monad over the loader's caches; a failed read ends the
    query where the code returns its error, and is caught where it does not. *)

From S2P Require Import Prelude GoStrings GoFloat GoSort GoJson Domain Store Contract.

(** ** Services ([internal/repos/svcdetect.go]) *)

Record RepoService := {
  rs_Name : string;
  rs_Root : string;
  rs_Manifest : string;
  rs_DetectedBy : string
}.

(** The loop of [ServiceFor]: the best name so far and the length of its root. *)
Definition service_step (filePath : string) (best : string * Z) (s : RepoService) : string * Z :=
  let '(name, bestLen) := best in
  if String.eqb (rs_Root s) "" then
    if (bestLen <? 0)%Z then (rs_Name s, 0%Z) else best
  else
    let len := Z.of_nat (String.length (rs_Root s)) in
    if (String.eqb filePath (rs_Root s) || HasPrefix filePath (rs_Root s +:+ "/")) && (bestLen <? len)%Z
    then (rs_Name s, len) else best.

Definition ServiceFor (services : list RepoService) (filePath : string) : string :=
  fst (foldl (service_step filePath) ("", (-1)%Z) services).

(** [serviceUnitInfo] *)
Definition serviceUnitInfo (u : ASTUnit) : string * string :=
  let meta := DecodeUnitMeta (u_Meta u) in
  (if String.eqb (um_Root meta) "" then TrimPrefix (u_Signature u) "root:" else um_Root meta,
   if String.eqb (um_DetectedBy meta) "" then u_Doc u else um_DetectedBy meta).

(** ** The loader *)

(** [None] under an id is the nil of the code: known missing. *)
Record loader := {
  ld_units : gmap string (option ASTUnit);
  ld_services : gmap string (list RepoService)
}.

Definition newLoader : loader := {| ld_units := ∅; ld_services := ∅ |}.

Definition set_units (l : loader) (units : gmap string (option ASTUnit)) : loader :=
  {| ld_units := units; ld_services := ld_services l |}.

(** A computation over the caches, which keeps them when it fails. *)
Definition M (A : Type) : Type := loader → Fallible A * loader.

#[export] Instance M_ret : MRet M := λ A x l, (inr x, l).
#[export] Instance M_bind : MBind M := λ A B k m l,
  match m l with
  | (inr x, l') => k x l'
  | (inl e, l') => (inl e, l')
  end.
Definition lift {A} (r : Fallible A) : M A := λ l, (r, l).
(** The error as a value, for code that looks at it. *)
Definition attempt {A} (m : M A) : M (Fallible A) := λ l, let '(r, l') := m l in (inr r, l').

Section Queries.
  Context {S : Storage}.

(** The ids a batch asks the store for: given, not asked for twice, not cached. *)
Definition missing_step (units : gmap string (option ASTUnit)) (st : gset string * list string) (id : string)
    : gset string * list string :=
  let '(requested, missing) := st in
  if String.eqb id "" || bool_decide (id ∈ requested) then st
  else ({[id]} ∪ requested, match units !! id with Some _ => missing | None => missing ++ [id] end).
Definition missing_ids (units : gmap string (option ASTUnit)) (ids : list string) : list string :=
  snd (foldl (missing_step units) (∅, []) ids).

Definition cache_units (units : gmap string (option ASTUnit)) (us : list ASTUnit) : gmap string (option ASTUnit) :=
  foldl (λ m u, <[u_ID u := Some u]> m) units us.
Definition cache_missing (units : gmap string (option ASTUnit)) (ids : list string) : gmap string (option ASTUnit) :=
  foldl (λ m id, match m !! id with Some _ => m | None => <[id := None]> m end) units ids.

Definition unitsByIDs (ids : list string) : M unit := λ l,
  match missing_ids (ld_units l) ids with
  | [] => (inr tt, l)
  | missing =>
      match GetASTUnitsByIDs missing with
      | inl e => (inl e, l)
      | inr us => (inr tt, set_units l (cache_missing (cache_units (ld_units l) us) missing))
      end
  end.

Definition loader_unit (id : string) : M ASTUnit := λ l,
  match ld_units l !! id with
  | Some (Some u) => (inr u, l)
  | Some None => (inl ErrNotFound, l)
  | None =>
      match GetASTUnitByID id with
      | inr u => (inr u, set_units l (<[id := Some u]> (ld_units l)))
      | inl ErrNotFound => (inl ErrNotFound, set_units l (<[id := None]> (ld_units l)))
      | inl e => (inl e, l)
      end
  end.

(** [cached]: nil when unknown or known missing. *)
Definition cached (id : string) : M (option ASTUnit) := λ l, (inr (mjoin (ld_units l !! id)), l).

Definition service_opts (repoID : string) : QueryOpts := {|
  q_RepoID := repoID; q_Repos := []; q_FilePath := ""; q_Language := ""; q_Kind := KindService;
  q_Kinds := []; q_Name := ""; q_Qualified := ""; q_QualifiedSuffix := ""; q_NameOrQualified := "";
  q_Fallback := false; q_SrcID := ""; q_DstID := ""; q_Unresolved := false; q_Line := 0; q_Limit := 0 |}.

Definition service_of_unit (su : ASTUnit) : RepoService :=
  {| rs_Name := u_Name su; rs_Root := fst (serviceUnitInfo su); rs_Manifest := ""; rs_DetectedBy := "" |}.

Definition servicesOf (repoID : string) : M (list RepoService) := λ l,
  match ld_services l !! repoID with
  | Some svcs => (inr svcs, l)
  | None =>
      let svcs := match GetASTUnits (service_opts repoID) with
                  | inr us => map service_of_unit us
                  | inl _ => []
                  end in
      (inr svcs, {| ld_units := ld_units l; ld_services := <[repoID := svcs]> (ld_services l) |})
  end.

Definition serviceOf (u : ASTUnit) : M string :=
  svcs ← servicesOf (u_RepoID u);
  mret (match svcs with [] => "" | _ => ServiceFor svcs (u_FilePath u) end).

Definition serviceForUnit (u : ASTUnit) : M string :=
  if String.eqb (u_Kind u) KindService then mret (u_Name u)
  else name ← serviceOf u;
       mret (if String.eqb name "" then u_RepoID u else name).

(** ** Edges and the units on their far side *)

Record EdgeWithUnit := { ew_Edge : Edge; ew_Unit : option ASTUnit }.

Definition edge_opts (src dst kind : string) : QueryOpts := {|
  q_RepoID := ""; q_Repos := []; q_FilePath := ""; q_Language := ""; q_Kind := kind;
  q_Kinds := []; q_Name := ""; q_Qualified := ""; q_QualifiedSuffix := ""; q_NameOrQualified := "";
  q_Fallback := false; q_SrcID := src; q_DstID := dst; q_Unresolved := false; q_Line := 0; q_Limit := 0 |}.

(** The edges whose far side [far] is cached, in their order. *)
Fixpoint with_units (far : Edge → string) (edges : list Edge) : M (list EdgeWithUnit) :=
  match edges with
  | [] => mret []
  | e :: r =>
      u ← cached (far e);
      rest ← with_units far r;
      mret (match u with Some u => {| ew_Edge := e; ew_Unit := Some u |} :: rest | None => rest end)
  end.

Definition traversable (e : Edge) : bool :=
  negb (String.eqb (e_DstID e) "" || String.eqb (e_Kind e) EdgeImplementsRPC).

(** The server side of a contract; a failed read here is no implementation. *)
Definition implementations (unitID : string) : M (list EdgeWithUnit) :=
  impls ← attempt (lift (GetEdges (edge_opts "" unitID EdgeImplementsRPC)));
  match impls with
  | inl _ => mret []
  | inr impls =>
      loaded ← attempt (unitsByIDs (map e_SrcID impls));
      match loaded with
      | inl _ => mret []
      | inr _ => with_units e_SrcID impls
      end
  end.

Definition expand (unitID : string) : M (list EdgeWithUnit) :=
  out ← lift (GetEdges (edge_opts unitID "" ""));
  let out := filter (λ e, traversable e = true) out in
  _ ← unitsByIDs (unitID :: map e_DstID out);
  result ← with_units e_DstID out;
  u ← cached unitID;
  match u with
  | None => mret result
  | Some u =>
      if String.eqb (u_Kind u) KindRPCMethod
      then impls ← implementations unitID; mret (result ++ impls)
      else mret result
  end.

(** ** Neighbours *)

Record Node := { n_Unit : ASTUnit; n_Service : string }.
Record NeighborsResult := { nr_Center : Node; nr_Out : list EdgeWithUnit; nr_In : list EdgeWithUnit }.

(** Every edge, with nil for the far side that is not there. *)
Fixpoint with_cached (far : Edge → string) (edges : list Edge) : M (list EdgeWithUnit) :=
  match edges with
  | [] => mret []
  | e :: r =>
      u ← (if String.eqb (far e) "" then mret None else cached (far e));
      rest ← with_cached far r;
      mret ({| ew_Edge := e; ew_Unit := u |} :: rest)
  end.

Definition Neighbors (unitID : string) : M NeighborsResult :=
  u ← loader_unit unitID;
  svc ← serviceOf u;
  out ← lift (GetEdges (edge_opts unitID "" ""));
  inn ← lift (GetEdges (edge_opts "" unitID ""));
  _ ← unitsByIDs (map e_DstID out ++ map e_SrcID inn);
  o ← with_cached e_DstID out;
  i ← with_cached e_SrcID inn;
  mret {| nr_Center := {| n_Unit := u; n_Service := svc |}; nr_Out := o; nr_In := i |}.

(** ** Paths *)

Record PathStep := { ps_Edge : option Edge; ps_Unit : ASTUnit; ps_Via : string }.
Record queueItem := { qi_unitID : string; qi_path : list PathStep }.

Definition path_step (e : Edge) (u : ASTUnit) : PathStep :=
  {| ps_Edge := Some e; ps_Unit := u; ps_Via := e_Kind e |}.

(** The loop over the successors of one item: a path to the target, or what has
    been visited and queued. *)
Fixpoint visit (toID : string) (path : list PathStep) (visited : gset string) (queue : list queueItem)
    (next : list EdgeWithUnit) : list PathStep + (gset string * list queueItem) :=
  match next with
  | [] => inr (visited, queue)
  | n :: r =>
      match ew_Unit n with
      | None => visit toID path visited queue r
      | Some u =>
          if decide (u_ID u ∈ visited) then visit toID path visited queue r
          else
            let path' := path ++ [path_step (ew_Edge n) u] in
            if String.eqb (u_ID u) toID then inl path'
            else visit toID path ({[u_ID u]} ∪ visited)
                   (queue ++ [{| qi_unitID := u_ID u; qi_path := path' |}]) r
      end
  end.

(** The search; [None] is running out of fuel. *)
Fixpoint search (fuel : nat) (toID : string) (maxDepth : nat) (visited : gset string) (queue : list queueItem)
    : M (option (list PathStep)) :=
  match fuel with
  | O => mret None
  | Datatypes.S fuel =>
      match queue with
      | [] => lift (inl ErrNotFound)
      | item :: queue =>
          if maxDepth <? length (qi_path item) then search fuel toID maxDepth visited queue
          else if String.eqb (qi_unitID item) toID then mret (Some (qi_path item))
          else
            next ← expand (qi_unitID item);
            match visit toID (qi_path item) visited queue next with
            | inl path => mret (Some path)
            | inr (visited, queue) => search fuel toID maxDepth visited queue
            end
      end
  end.

Definition path_depth (maxDepth : Z) : nat := Z.to_nat (if (maxDepth <=? 0)%Z then 10 else maxDepth).

Definition Path (fuel : nat) (fromID toID : string) (maxDepth : Z) : M (option (list PathStep)) :=
  start ← loader_unit fromID;
  search fuel toID (path_depth maxDepth) {[fromID]}
    [{| qi_unitID := fromID; qi_path := [{| ps_Edge := None; ps_Unit := start; ps_Via := "" |}] |}].

(** ** Context around a unit ([context.go]) *)

Record RelatedUnit := {
  ru_Unit : ASTUnit;
  ru_Service : string;
  ru_Via : string;
  ru_Direction : string;
  ru_Distance : nat
}.

Definition maxRelated : nat := 24.

(** What has been visited and found, and the next frontier. *)
Record walk_state := { w_visited : gset string; w_out : list RelatedUnit; w_next : list string }.

Fixpoint relate (direction : string) (depth : nat) (next : list EdgeWithUnit) (st : walk_state) : M walk_state :=
  match next with
  | [] => mret st
  | n :: r =>
      match ew_Unit n with
      | None => relate direction depth r st
      | Some u =>
          if decide (u_ID u ∈ w_visited st) then relate direction depth r st
          else
            svc ← serviceForUnit u;
            relate direction depth r {|
              w_visited := {[u_ID u]} ∪ w_visited st;
              w_out := w_out st ++ [{| ru_Unit := u; ru_Service := svc; ru_Via := e_Kind (ew_Edge n);
                                       ru_Direction := direction; ru_Distance := depth |}];
              w_next := w_next st ++ [u_ID u] |}
      end
  end.

Fixpoint expand_frontier (depth : nat) (frontier : list string) (st : walk_state) : M walk_state :=
  match frontier with
  | [] => mret st
  | id :: r =>
      if maxRelated <=? length (w_out st) then mret st
      else
        succ ← expand id;
        st ← relate "out" depth succ st;
        inn ← lift (GetEdges (edge_opts "" id ""));
        _ ← unitsByIDs (map e_SrcID inn);
        callers ← with_units e_SrcID inn;
        st ← relate "in" depth callers st;
        expand_frontier depth r st
  end.

(** [levels] remain, of depth [depth] and on. *)
Fixpoint expand_levels (levels depth : nat) (frontier : list string) (st : walk_state) : M walk_state :=
  match levels with
  | O => mret st
  | Datatypes.S levels =>
      if (length frontier =? 0) || (maxRelated <=? length (w_out st)) then mret st
      else
        st ← expand_frontier depth frontier {| w_visited := w_visited st; w_out := w_out st; w_next := [] |};
        expand_levels levels (Datatypes.S depth) (w_next st) st
  end.

Definition clamp_hops (hops : Z) : nat :=
  Z.to_nat (let hops := if (hops <=? 0)%Z then 1%Z else hops in if (3 <? hops)%Z then 3%Z else hops).

Definition by_distance (a b : RelatedUnit) : bool := ru_Distance a <? ru_Distance b.

Definition Expand (unitID : string) (hops : Z) : M (list RelatedUnit) :=
  st ← expand_levels (clamp_hops hops) 1 [unitID] {| w_visited := {[unitID]}; w_out := []; w_next := [] |};
  mret (SliceSort by_distance (take maxRelated (w_out st))).

(** ** Units by name, line and range *)

Definition find_opts (repoID name qualified : string) : QueryOpts := {|
  q_RepoID := repoID; q_Repos := []; q_FilePath := ""; q_Language := ""; q_Kind := "";
  q_Kinds := []; q_Name := name; q_Qualified := qualified; q_QualifiedSuffix := ""; q_NameOrQualified := "";
  q_Fallback := false; q_SrcID := ""; q_DstID := ""; q_Unresolved := false; q_Line := 0; q_Limit := 10 |}.

Definition callable (u : ASTUnit) : bool := String.eqb (u_Kind u) "function" || String.eqb (u_Kind u) "method".

Definition FindUnit (repoID name : string) : Fallible ASTUnit :=
  match GetASTUnits (find_opts repoID name "") with
  | inl e => inl e
  | inr units =>
      match (match units with [] => GetASTUnits (find_opts repoID "" name) | _ => inr units end) with
      | inl e => inl e
      | inr [] => inl ErrNotFound
      | inr (u0 :: us) => inr (default u0 (List.find callable (u0 :: us)))
      end
  end.

Definition range_opts (repoID filePath : string) : QueryOpts := {|
  q_RepoID := repoID; q_Repos := []; q_FilePath := filePath; q_Language := ""; q_Kind := "";
  q_Kinds := []; q_Name := ""; q_Qualified := ""; q_QualifiedSuffix := ""; q_NameOrQualified := "";
  q_Fallback := false; q_SrcID := ""; q_DstID := ""; q_Unresolved := false; q_Line := 0; q_Limit := 500 |}.

Definition overlap (startLine endLine : Z) (u : ASTUnit) : Z :=
  (Z.min (u_EndLine u) endLine - Z.max (u_StartLine u) startLine + 1)%Z.

Definition range_step (startLine endLine : Z) (st : option ASTUnit * Z) (u : ASTUnit) : option ASTUnit * Z :=
  let '(best, bestOverlap) := st in
  let o := overlap startLine endLine u in
  if (o <=? 0)%Z then st
  else if (bestOverlap <? o)%Z then (Some u, o)
  else match best with
       | Some b => if (o =? bestOverlap)%Z && (u_StartLine b <? u_StartLine u)%Z then (Some u, o) else st
       | None => st
       end.

Definition UnitInRange (repoID filePath : string) (startLine endLine : Z) : Fallible ASTUnit :=
  let endLine := if (endLine <? startLine)%Z then startLine else endLine in
  match GetASTUnits (range_opts repoID filePath) with
  | inl e => inl e
  | inr units =>
      match fst (foldl (range_step startLine endLine) (None, 0%Z) units) with
      | Some u => inr u
      | None => inl ErrNotFound
      end
  end.

Definition UnitAt (repoID filePath : string) (line : Z) : Fallible ASTUnit :=
  UnitInRange repoID filePath line line.

End Queries.
