(* ===== verification/GraphFacts.v ===== *)
(** * What the graph queries promise

    The loader is invisible: whatever it has cached, a query sees the store.
    Paths are shortest paths, and found whenever there is one. *)

From S2P Require Import Prelude GoStrings GoFloat GoSort Domain Store Contract Graph.
From Stdlib Require Import Sorting.Sorted.
From stdpp Require Import sorting.

Section Laws.
  Context {S : Storage} {unit_of : string → option ASTUnit} `{!StorageLaws S unit_of}.

(** ** The loader *)

Definition services_of (repoID : string) : list RepoService :=
  match GetASTUnits (service_opts repoID) with
  | inr us => map service_of_unit us
  | inl _ => []
  end.

Definition units_ok (m : gmap string (option ASTUnit)) : Prop :=
  ∀ id o, m !! id = Some o → o = unit_of id.

Record loader_ok (l : loader) : Prop := {
  ok_units : units_ok (ld_units l);
  ok_services r svcs : ld_services l !! r = Some svcs → svcs = services_of r
}.

Lemma newLoader_ok : loader_ok newLoader.
Proof. split; [intros id o H | intros r svcs H]; simpl in H; by rewrite lookup_empty in H. Qed.

Lemma units_ok_insert m id : units_ok m → units_ok (<[id := unit_of id]> m).
Proof. intros H id' o. rewrite lookup_insert_Some. intros [[-> <-]|[_ Hm]]; [done | by apply H]. Qed.

Lemma cached_ok m id : units_ok m → is_Some (m !! id) → mjoin (m !! id) = unit_of id.
Proof. intros Hm [o Ho]. rewrite Ho. simpl. by apply Hm. Qed.

Lemma missing_step_elem units ids req miss id :
  (id ∈ snd (foldl (missing_step units) (req, miss) ids) : Prop) ↔
  id ∈ miss ∨ (id ∈ ids ∧ id ≠ "" ∧ id ∉ req ∧ units !! id = None).
Proof.
  revert req miss. induction ids as [|x ids IH]; intros req miss; [set_solver |].
  cbn [foldl missing_step]. destruct (String.eqb_spec x "") as [->|Hx]; simpl.
  { rewrite IH. set_solver. }
  case_bool_decide as Hr; [rewrite IH; set_solver |].
  rewrite IH. destruct (units !! x) eqn:E.
  - split; [set_solver |]. intros [H|(Hin & H1 & H2 & H3)]; [by left |]. right.
    rewrite elem_of_cons in Hin. set_solver.
  - rewrite elem_of_app, list_elem_of_singleton, elem_of_cons. split.
    + intros [[H| -> ]|H]; [by left | right; auto | right; set_solver].
    + intros [H|(Hin & H1 & H2 & H3)]; [by left; left |].
      destruct (decide (id = x)) as [->|]; [by left; right |]. right. set_solver.
Qed.

Lemma missing_ids_elem units ids id :
  (id ∈ missing_ids units ids) ↔ id ∈ ids ∧ id ≠ "" ∧ units !! id = None.
Proof. unfold missing_ids. rewrite missing_step_elem. set_solver. Qed.

Lemma cache_units_ok m us :
  units_ok m → (∀ u, u ∈ us → unit_of (u_ID u) = Some u) →
  units_ok (cache_units m us) ∧
  (∀ id, is_Some (cache_units m us !! id) ↔ is_Some (m !! id) ∨ ∃ u, u ∈ us ∧ u_ID u = id).
Proof.
  revert m. induction us as [|u us IH]; intros m Hm Hus; simpl.
  { split; [done |]. set_solver. }
  pose proof (Hus u (list_elem_of_here _ _)) as Hu. rewrite <- Hu.
  destruct (IH (<[u_ID u := unit_of (u_ID u)]> m)) as [H1 H2];
    [by apply units_ok_insert | intros v Hv; apply Hus; by right |].
  split; [done |]. intros id. rewrite H2, lookup_insert_is_Some. split.
  - intros [[<-|[_ H]]|(v & Hv & <-)]; [right; exists u; set_solver | by left | right; exists v; set_solver].
  - intros [H|(v & [ -> |Hv]%elem_of_cons & <-)]; [|by left; left | right; eauto].
    left. destruct (decide (u_ID u = id)); auto.
Qed.

Lemma cache_missing_ok m ids :
  units_ok m → (∀ id, id ∈ ids → m !! id = None → unit_of id = None) →
  units_ok (cache_missing m ids) ∧
  (∀ id, is_Some (cache_missing m ids !! id) ↔ is_Some (m !! id) ∨ id ∈ ids).
Proof.
  revert m. induction ids as [|x ids IH]; intros m Hm Hids; simpl.
  { split; [done |]. set_solver. }
  destruct (m !! x) as [o|] eqn:E.
  - destruct (IH m Hm) as [H1 H2]; [intros id Hid; apply Hids; by right |].
    split; [done |]. intros id. rewrite H2, elem_of_cons. naive_solver.
  - pose proof (Hids x (list_elem_of_here _ _) E) as Hx. rewrite <- Hx.
    destruct (IH (<[x := unit_of x]> m)) as [H1 H2]; [by apply units_ok_insert | |].
    + intros id Hid. rewrite lookup_insert_None. intros [? _]. apply Hids; [by right | done].
    + split; [done |]. intros id. rewrite H2, lookup_insert_is_Some, elem_of_cons.
      destruct (decide (x = id)); naive_solver.
Qed.

(** ** Running a query

    A run keeps the caches true; its result satisfies [Q], and its error is one
    the store reported. *)

Definition store_error (e : StoreError) : Prop :=
  (∃ o, GetEdges o = inl e) ∨ (∃ ids, GetASTUnitsByIDs ids = inl e).

Definition runs {A} (m : M A) (l : loader) (Q : A → loader → Prop) : Prop :=
  let '(r, l') := m l in
  loader_ok l' ∧ match r with inr x => Q x l' | inl e => store_error e end.

Lemma runs_ret {A} (x : A) l (Q : A → loader → Prop) : loader_ok l → Q x l → runs (mret x) l Q.
Proof. by split. Qed.

Lemma runs_mono {A} (m : M A) l (Q Q' : A → loader → Prop) :
  runs m l Q → (∀ x l', loader_ok l' → Q x l' → Q' x l') → runs m l Q'.
Proof. unfold runs. destruct (m l) as [[e|x] l']; intros [H1 H2] HQ; split; auto. Qed.

Lemma runs_bind {A B} (m : M A) (k : A → M B) l (Q : B → loader → Prop) :
  runs m l (λ x l', runs (k x) l' Q) → runs (m ≫= k) l Q.
Proof. unfold runs, mbind, M_bind. by destruct (m l) as [[e|x] l']; intros [H1 H2]. Qed.

(** The usual step: run [m] by its specification, go on from its result. *)
Lemma runs_seq {A B} (m : M A) (k : A → M B) l (P : A → loader → Prop) (Q : B → loader → Prop) :
  runs m l P → (∀ x l', loader_ok l' → P x l' → runs (k x) l' Q) → runs (m ≫= k) l Q.
Proof. intros Hm Hk. apply runs_bind. by eapply runs_mono. Qed.

Lemma runs_edges o l : loader_ok l → runs (lift (GetEdges o)) l (λ es l', GetEdges o = inr es ∧ l' = l).
Proof.
  intros Hl. unfold runs, lift. destruct (GetEdges o) as [e|es] eqn:E; split; [done | left; eauto | done | done].
Qed.

(** The specifications of the loader's operations, and the step of a proof that
    runs the next operation by its specification. *)
Create HintDb runs.
#[local] Hint Resolve newLoader_ok runs_ret runs_edges : runs.
Ltac run_next := eapply runs_seq; [solve [eauto with runs] | cbv beta].

Definition known (l : loader) (ids : list string) : Prop :=
  ∀ id, id ∈ ids → mjoin (ld_units l !! id) = unit_of id.

Definition grows (l l' : loader) : Prop := ∀ id, is_Some (ld_units l !! id) → is_Some (ld_units l' !! id).

Lemma runs_unitsByIDs ids l :
  loader_ok l → runs (unitsByIDs ids) l (λ _ l', known l' ids ∧ grows l l').
Proof.
  intros Hl. unfold runs, unitsByIDs.
  assert (∀ id, id ∈ ids → id ∉ missing_ids (ld_units l) ids → mjoin (ld_units l !! id) = unit_of id) as Hold.
  { intros id Hin Hn. rewrite missing_ids_elem in Hn.
    destruct (ld_units l !! id) as [o|] eqn:E; [by apply (ok_units l Hl) in E |].
    destruct (decide (id = "")) as [->|]; [by rewrite unit_of_empty | tauto]. }
  destruct (missing_ids (ld_units l) ids) as [|m ms] eqn:Em.
  { split; [done |]. split; [|by intros id]. intros id Hid. apply Hold; set_solver. }
  destruct (GetASTUnitsByIDs (m :: ms)) as [e|us] eqn:E; [split; [done | right; eauto] |].
  pose proof (by_ids _ _ E) as Hus.
  destruct (cache_units_ok (ld_units l) us (ok_units l Hl)) as [H1 H2].
  { intros u Hu. apply Hus in Hu as (id & _ & Hu). pose proof (unit_of_id _ _ Hu). by subst. }
  destruct (cache_missing_ok (cache_units (ld_units l) us) (m :: ms) H1) as [H3 H4].
  { intros id Hid Hn. destruct (unit_of id) as [u|] eqn:Eu; [|done]. exfalso.
    assert (is_Some (cache_units (ld_units l) us !! id)) as [? ?]; [|congruence].
    apply H2. right. exists u. split; [apply Hus; eauto | by apply unit_of_id]. }
  split; [split; [done | apply (ok_services l Hl)] |]. split.
  - intros id Hid. destruct (decide (id ∈ m :: ms)) as [Hm|Hm].
    + apply cached_ok; [done |]. apply H4. by right.
    + rewrite <- Hold by done. cbn [ld_units set_units].
      destruct (ld_units l !! id) as [o|] eqn:Eo.
      * rewrite cached_ok; [by rewrite <- (ok_units l Hl id o Eo) | done |]. apply H4. left. apply H2. left. eauto.
      * destruct (cache_missing (cache_units (ld_units l) us) (m :: ms) !! id) as [o|] eqn:E2; [|done].
        rewrite (H3 _ _ E2). pose proof (Hold id Hid Hm) as Hx. by rewrite Eo in Hx.
  - intros id Hid. apply H4. left. apply H2. by left.
Qed.

Lemma runs_cached id l : loader_ok l → runs (cached id) l (λ o l', o = mjoin (ld_units l !! id) ∧ l' = l).
Proof. by split. Qed.
#[local] Hint Resolve runs_unitsByIDs runs_cached : runs.

(** The edges whose far side is in the store. *)
Definition resolved (far : Edge → string) (edges : list Edge) : list EdgeWithUnit :=
  omap (λ e, (λ u, {| ew_Edge := e; ew_Unit := Some u |}) <$> unit_of (far e)) edges.

Lemma runs_with_units far edges l :
  loader_ok l → known l (map far edges) →
  runs (with_units far edges) l (λ r l', r = resolved far edges ∧ l' = l).
Proof.
  revert l. induction edges as [|e edges IH]; intros l Hl Hk; [by split |].
  cbn [with_units]. run_next. intros o l1 _ [-> ->].
  eapply runs_seq; [apply IH; [done | intros id Hid; apply Hk; by right] |]. intros r l2 _ [-> ->].
  apply runs_ret; [done |]. split; [|done].
  rewrite (Hk (far e)) by (by left).
  change (resolved far (e :: edges)) with
    (match (λ u, {| ew_Edge := e; ew_Unit := Some u |}) <$> unit_of (far e) with
     | Some x => x :: resolved far edges | None => resolved far edges end).
  by destruct (unit_of (far e)).
Qed.

Lemma resolved_elem far edges n :
  (n ∈ resolved far edges) ↔ ∃ e u, e ∈ edges ∧ unit_of (far e) = Some u ∧ n = {| ew_Edge := e; ew_Unit := Some u |}.
Proof.
  unfold resolved. rewrite list_elem_of_omap. split.
  - intros (e & He & H). apply fmap_Some in H as (u & Hu & ->). eauto.
  - intros (e & u & He & Hu & ->). exists e. split; [done |]. by rewrite Hu.
Qed.

(** ** The successors of a unit *)

(** An edge a path may follow: a resolved edge out of a unit, or from a contract
    to the method that implements it, against its direction. *)
Inductive step (x : string) (e : Edge) (y : ASTUnit) : Prop :=
  | step_out es :
      GetEdges (edge_opts x "" "") = inr es → e ∈ es → traversable e = true →
      unit_of (e_DstID e) = Some y → step x e y
  | step_impl u es :
      unit_of x = Some u → u_Kind u = KindRPCMethod →
      GetEdges (edge_opts "" x EdgeImplementsRPC) = inr es → e ∈ es →
      unit_of (e_SrcID e) = Some y → step x e y.

(** No read fails. *)
Definition reliable : Prop := ∀ e, ¬ store_error e.

(** [next] lists steps out of [x], and all of them when the store answers. *)
Definition lists_steps (x : string) (next : list EdgeWithUnit) : Prop :=
  (∀ n, n ∈ next → ∃ y, ew_Unit n = Some y ∧ step x (ew_Edge n) y) ∧
  (reliable → ∀ e y, step x e y → {| ew_Edge := e; ew_Unit := Some y |} ∈ next).

Lemma runs_attempt {A} (m : M A) l (Q : Fallible A → loader → Prop) (P : A → loader → Prop) :
  runs m l P → (∀ x l', loader_ok l' → P x l' → Q (inr x) l') →
  (∀ e l', loader_ok l' → store_error e → Q (inl e) l') → runs (attempt m) l Q.
Proof.
  unfold runs, attempt. destruct (m l) as [[e|x] l']; intros [H1 H2] Hr Hl; split; auto.
Qed.

Lemma runs_implementations x u l :
  loader_ok l → unit_of x = Some u → u_Kind u = KindRPCMethod →
  runs (implementations x) l (λ r l',
    (∀ n, n ∈ r → ∃ y, ew_Unit n = Some y ∧ step x (ew_Edge n) y) ∧
    (reliable → ∀ es e y, GetEdges (edge_opts "" x EdgeImplementsRPC) = inr es → e ∈ es →
       unit_of (e_SrcID e) = Some y → {| ew_Edge := e; ew_Unit := Some y |} ∈ r)).
Proof.
  intros Hl Hu Hk. unfold implementations.
  assert (∀ (es : list Edge) n, GetEdges (edge_opts "" x EdgeImplementsRPC) = inr es → n ∈ resolved e_SrcID es →
            ∃ y, ew_Unit n = Some y ∧ step x (ew_Edge n) y) as Hsound.
  { intros es n Hes (e & y & He & Hy & ->)%resolved_elem. exists y. split; [done |]. by eapply step_impl. }
  eapply runs_bind, runs_attempt; [by apply runs_edges | |].
  - intros es l1 Hl1 [Hes ->]. eapply runs_bind, runs_attempt; [by apply runs_unitsByIDs | |].
    + intros _ l2 Hl2 [Hk2 _]. eapply runs_mono; [by apply runs_with_units |]. intros r l3 _ [-> ->].
      split; [intros n; by apply (Hsound es) |]. intros _ es' e y Hes' He Hy. rewrite Hes in Hes'. injection Hes' as <-.
      apply resolved_elem. eauto 6.
    + intros e l2 Hl2 He. apply runs_ret; [done |]. split; [set_solver |]. intros Hr. by apply Hr in He.
  - intros e l1 Hl1 He. apply runs_ret; [done |]. split; [set_solver |]. intros Hr. by apply Hr in He.
Qed.

Lemma runs_expand x l : loader_ok l → runs (expand x) l (λ next _, lists_steps x next).
Proof.
  intros Hl. unfold expand.
  run_next. intros es l1 Hl1 [Hes ->]. cbv zeta.
  set (out := filter (λ e, traversable e = true) es).
  run_next. intros _ l2 Hl2 [Hk _].
  eapply runs_seq; [apply runs_with_units; [done | intros id Hid; apply Hk; by right] |].
  intros r l3 Hl3 [-> ->].
  run_next. intros o l4 Hl4 [-> ->].
  rewrite (Hk x) by (by left).
  assert (∀ n, n ∈ resolved e_DstID out → ∃ y, ew_Unit n = Some y ∧ step x (ew_Edge n) y) as Hs.
  { intros n (e & y & He & Hy & ->)%resolved_elem. apply list_elem_of_filter in He as [Ht He].
    exists y. split; [done |]. by eapply step_out. }
  assert (∀ es' e y, GetEdges (edge_opts x "" "") = inr es' → e ∈ es' → traversable e = true →
            unit_of (e_DstID e) = Some y → {| ew_Edge := e; ew_Unit := Some y |} ∈ resolved e_DstID out) as Hc.
  { intros es' e y He' He Ht Hy. rewrite Hes in He'. injection He' as <-.
    apply resolved_elem. exists e, y. split_and!; try done. by apply list_elem_of_filter. }
  destruct (unit_of x) as [u|] eqn:Eu.
  2: { apply runs_ret; [done |]. split; [done |]. intros _ e y [es' He' He Ht Hy|u' es' Hu' _ _ _ _]; [eauto | congruence]. }
  destruct (String.eqb_spec (u_Kind u) KindRPCMethod) as [Hkind|Hkind].
  - eapply runs_seq; [by eapply runs_implementations |]. intros impls l5 Hl5 [H1 H2].
    apply runs_ret; [done |]. split.
    + intros n [Hn|Hn]%elem_of_app; auto.
    + intros Hr e y [es' He' He Ht Hy|u' es' Hu' _ Hes' He Hy]; rewrite elem_of_app; [left | right]; eauto.
  - apply runs_ret; [done |]. split; [done |].
    intros _ e y [es' He' He Ht Hy|u' es' Hu' Hk' _ _ _]; [eauto | congruence].
Qed.

(** ** Paths *)

Definition start_step (u : ASTUnit) : PathStep := {| ps_Edge := None; ps_Unit := u; ps_Via := "" |}.

(** A path from a unit: each further unit is a step away from the one before. *)
Inductive walk (from : string) : string → list PathStep → Prop :=
  | walk_start u : unit_of from = Some u → walk from from [start_step u]
  | walk_step x e y p : walk from x p → step x e y → walk from (u_ID y) (p ++ [path_step e y]).

Definition path_ids (p : list PathStep) : list string := map (λ s, u_ID (ps_Unit s)) p.

Definition qi_len (it : queueItem) : nat := length (qi_path it).
Definition queue_ids (q : list queueItem) : list string := map qi_unitID q.

(** The item queued for a unit found from [path]. *)
Definition found_item (path : list PathStep) (e : Edge) (u : ASTUnit) : queueItem :=
  {| qi_unitID := u_ID u; qi_path := path ++ [path_step e u] |}.

(** What the loop over successors does, each of them satisfying [P]. *)
Record visited_by (P : EdgeWithUnit → Prop) (toID : string) (path : list PathStep)
    (visited visited' : gset string) (new : list queueItem) : Prop := {
  vb_visited : visited' = list_to_set (queue_ids new) ∪ visited;
  vb_nodup : NoDup (queue_ids new);
  vb_target : toID ∉ queue_ids new;
  vb_new it : it ∈ new → qi_unitID it ∉ visited ∧
    ∃ n u, P n ∧ ew_Unit n = Some u ∧ it = found_item path (ew_Edge n) u
}.

Lemma visit_spec P toID path next visited queue :
  Forall P next →
  match visit toID path visited queue next with
  | inl path' => ∃ n u, P n ∧ ew_Unit n = Some u ∧ u_ID u = toID ∧ u_ID u ∉ visited ∧
                        path' = path ++ [path_step (ew_Edge n) u]
  | inr (visited', queue') => ∃ new, queue' = queue ++ new ∧
      visited_by P toID path visited visited' new ∧
      (∀ n u, n ∈ next → ew_Unit n = Some u → u_ID u ∈ visited')
  end.
Proof.
  intros HP. revert visited queue. induction HP as [|n next Hn _ IH]; intros visited queue; cbn [visit].
  { exists []. rewrite app_nil_r. split_and!; [done | | set_solver].
    split; [set_solver | constructor | set_solver | set_solver]. }
  destruct (ew_Unit n) as [u|] eqn:Eu.
  2: { specialize (IH visited queue). destruct (visit toID path visited queue next) as [p|[v' q']]; [done |].
       destruct IH as (new & H1 & H2 & H3). exists new. split_and!; try done.
       intros n0 u [->|?]%elem_of_cons Hu; [congruence | eauto]. }
  case_decide as Hv.
  { specialize (IH visited queue). destruct (visit toID path visited queue next) as [p|[v' q']]; [done |].
    destruct IH as (new & H1 & H2 & H3). exists new. split_and!; try done.
    intros n0 u0 [->|?]%elem_of_cons Hu; [|eauto]. rewrite (vb_visited _ _ _ _ _ _ H2).
    rewrite Eu in Hu. injection Hu as <-. set_solver. }
  destruct (String.eqb_spec (u_ID u) toID) as [Ht|Ht]; [by exists n, u |].
  specialize (IH ({[u_ID u]} ∪ visited) (queue ++ [found_item path (ew_Edge n) u])).
  unfold found_item in IH at 1.
  destruct (visit _ _ _ _ next) as [p|[v' q']].
  { destruct IH as (n0 & u0 & H1 & H2 & H3 & H4 & H5). exists n0, u0. set_solver. }
  destruct IH as (new & -> & [H2 H3 H4 H5] & H6).
  exists (found_item path (ew_Edge n) u :: new). split_and!.
  - by rewrite <- app_assoc.
  - split; simpl.
    + set_solver.
    + constructor; [|done]. intros (it & E & Hit)%list_elem_of_fmap. apply H5 in Hit as [Hit _]. set_solver.
    + set_solver.
    + intros it [->|Hit]%elem_of_cons; [split; [done |]; by exists n, u |].
      destruct (H5 it Hit) as [Hnot H]. split; [set_solver | done].
  - intros n0 u0 [->|?]%elem_of_cons Hu; [|eauto].
    rewrite Eu in Hu. injection Hu as <-. set_solver.
Qed.

Section Search.
  Context (from toID : string) (maxDepth : nat) (universe : gset string).
  Context (universe_all : ∀ id u, unit_of id = Some u → id ∈ universe).

(** The state of the breadth-first search: [lv] is the length of the path a
    visited unit was found by, and the queue holds two successive lengths, the
    shorter ones first. *)
Record search_inv (visited : gset string) (queue : list queueItem) (lv : string → nat) (L : nat) : Prop := {
  si_sorted : StronglySorted le (map qi_len queue);
  si_window it : it ∈ queue → L ≤ qi_len it ≤ Datatypes.S L;
  si_items it : it ∈ queue → walk from (qi_unitID it) (qi_path it) ∧ qi_len it = lv (qi_unitID it) ∧
    qi_unitID it ∈ visited ∧ NoDup (path_ids (qi_path it)) ∧ (∀ x, x ∈ path_ids (qi_path it) → x ∈ visited);
  si_levels x : x ∈ visited → lv x ≤ Datatypes.S L;
  si_known : visited ⊆ universe;
  si_start : from ∈ visited ∧ lv from ≤ 1;
  si_expanded x e y : reliable → x ∈ visited → x ∉ queue_ids queue → lv x ≤ maxDepth → step x e y →
    u_ID y ∈ visited ∧ lv (u_ID y) ≤ Datatypes.S (lv x);
  si_target : toID ∈ visited → from = toID ∧
    ∃ u, queue = [{| qi_unitID := from; qi_path := [start_step u] |}]
}.

(** Every walk that is not yet explained by a visited unit passes through the
    queue, or is longer than the search goes. *)
Lemma walk_frontier visited queue lv L x p :
  reliable → search_inv visited queue lv L → walk from x p →
  (x ∈ visited ∧ lv x ≤ length p) ∨ (∃ it, it ∈ queue ∧ qi_len it < length p) ∨ Datatypes.S maxDepth < length p.
Proof.
  intros Hr Hi Hw. induction Hw as [u Hu|x e y p Hw IH Hstep].
  { left. apply (si_start _ _ _ _ Hi). }
  rewrite length_app, Nat.add_1_r. destruct IH as [[Hv Hl]|[(it & Hit & Hlt)|Hlong]].
  - destruct (decide (x ∈ queue_ids queue)) as [Hq|Hq].
    + apply list_elem_of_fmap in Hq as (it & -> & Hit). right; left. exists it. split; [done |].
      destruct (si_items _ _ _ _ Hi it Hit) as (_ & -> & _). lia.
    + destruct (decide (lv x ≤ maxDepth)) as [Hd|Hd]; [left | right; right; lia].
      destruct (si_expanded _ _ _ _ Hi x e y Hr Hv Hq Hd Hstep). split; [done | lia].
  - right; left. exists it. split; [done | lia].
  - right; right. lia.
Qed.

(** Away from the start, the target is not visited before it is found. *)
Lemma target_unvisited visited it queue lv L :
  search_inv visited (it :: queue) lv L → qi_unitID it ≠ toID → toID ∉ visited.
Proof.
  intros Hi Hne Hv. destruct (si_target _ _ _ _ Hi Hv) as [<- [u E]]. by injection E as -> _.
Qed.

(** Dropping an item too long to go on from. *)
Lemma inv_drop visited it queue lv L :
  search_inv visited (it :: queue) lv L → maxDepth < qi_len it → 0 < maxDepth →
  search_inv visited queue lv L.
Proof.
  intros [Hs Hw Hit Hlv Hk Hst He Ht] Hd Hpos. split; try done.
  - by apply StronglySorted_inv in Hs as [Hs _].
  - intros it' H. apply Hw. by right.
  - intros it' H. apply Hit. by right.
  - intros x e y Hr Hv Hq Hx Hstep. apply (He x e y); try done.
    unfold queue_ids. simpl. rewrite not_elem_of_cons. split; [|done].
    intros ->. destruct (Hit it (list_elem_of_here _ _)) as (_ & E & _). lia.
  - intros Hv. destruct (Ht Hv) as [_ [u E]]. injection E as -> ->. unfold qi_len in Hd. simpl in Hd. lia.
Qed.

Definition level_after (new : list queueItem) (n : nat) (lv : string → nat) (x : string) : nat :=
  if decide (x ∈ queue_ids new) then n else lv x.

(** One step on from an item of the queue to a unit not visited yet. *)
Lemma extend_item visited it queue lv L e u next :
  search_inv visited queue lv L → it ∈ queue → lists_steps (qi_unitID it) next →
  {| ew_Edge := e; ew_Unit := Some u |} ∈ next → u_ID u ∉ visited →
  let it' := found_item (qi_path it) e u in
  walk from (u_ID u) (qi_path it') ∧ qi_len it' = Datatypes.S (qi_len it) ∧ NoDup (path_ids (qi_path it')) ∧
  (∀ x, x ∈ path_ids (qi_path it') → x = u_ID u ∨ x ∈ visited) ∧ u_ID u ∈ universe.
Proof.
  intros Hi Hin [Hsound _] Hn Hv. destruct (Hsound _ Hn) as (y & Hy & Hstep). injection Hy as <-.
  destruct (si_items _ _ _ _ Hi it Hin) as (Hw & _ & _ & Hnd & Hsub).
  unfold qi_len, path_ids. cbn [found_item qi_path]. rewrite map_app, length_app. cbn [map length ps_Unit path_step].
  split_and!.
  - by apply (walk_step from (qi_unitID it)).
  - lia.
  - apply NoDup_app. split_and!; [done | | apply NoDup_singleton].
    intros x Hx ->%list_elem_of_singleton. by apply Hsub in Hx.
  - intros x [Hx| ->%list_elem_of_singleton]%elem_of_app; [right; by apply Hsub | by left].
  - destruct Hstep as [es _ _ _ Hy|u' es _ _ _ _ Hy]; pose proof (unit_of_id _ _ Hy) as Hid;
      rewrite Hid; by eapply universe_all.
Qed.

(** The lengths of the queue after its front item gives place to new ones. *)
Lemma queue_lengths it queue new L :
  StronglySorted le (map qi_len (it :: queue)) → (∀ it', it' ∈ it :: queue → L ≤ qi_len it' ≤ Datatypes.S L) →
  (∀ it', it' ∈ new → qi_len it' = Datatypes.S (qi_len it)) →
  StronglySorted le (map qi_len (queue ++ new)) ∧
  (∀ it', it' ∈ queue ++ new → qi_len it ≤ qi_len it' ≤ Datatypes.S (qi_len it)).
Proof.
  intros Hs Hw Hnew. apply StronglySorted_inv in Hs as [Hs Hge]. fold (map qi_len queue) in *.
  rewrite Forall_forall in Hge. pose proof (Hw it (list_elem_of_here _ _)) as Hwit. split.
  - rewrite map_app. apply StronglySorted_app_2; [|done|].
    + intros a b (ia & -> & Ha)%list_elem_of_fmap (ib & -> & Hb)%list_elem_of_fmap.
      rewrite (Hnew ib Hb). pose proof (Hw ia ltac:(by right)). lia.
    + clear -Hnew. induction new as [|a new IH]; simpl; constructor.
      * apply IH. intros b Hb. apply Hnew. by right.
      * apply Forall_forall. intros b (ib & -> & Hb)%list_elem_of_fmap.
        rewrite (Hnew a), (Hnew ib); [lia | by right | by left].
  - intros it' [H|H]%elem_of_app; [|rewrite (Hnew it' H); lia].
    pose proof (Hw it' ltac:(by right)). split; [|lia]. apply Hge. by apply list_elem_of_fmap_2.
Qed.

(** Expanding the front item. *)
Lemma inv_expand visited visited' it queue new lv L next :
  search_inv visited (it :: queue) lv L → qi_unitID it ≠ toID → lists_steps (qi_unitID it) next →
  visited_by (λ n, n ∈ next) toID (qi_path it) visited visited' new →
  (∀ n u, n ∈ next → ew_Unit n = Some u → u_ID u ∈ visited') →
  search_inv visited' (queue ++ new) (level_after new (Datatypes.S (qi_len it)) lv) (qi_len it).
Proof.
  intros Hi Hne Hsteps [-> Hnd Htgt Hnew] Hall.
  pose proof (target_unvisited _ _ _ _ _ Hi Hne) as Hto.
  assert (∀ it', it' ∈ new → ∃ e u, it' = found_item (qi_path it) e u ∧ u_ID u ∉ visited ∧
    walk from (u_ID u) (qi_path it') ∧ qi_len it' = Datatypes.S (qi_len it) ∧ NoDup (path_ids (qi_path it')) ∧
    (∀ x, x ∈ path_ids (qi_path it') → x = u_ID u ∨ x ∈ visited) ∧ u_ID u ∈ universe) as Hnew'.
  { intros it' H. destruct (Hnew it' H) as [Hv ([e o] & u & Hn & Hu & ->)]. simpl in Hu, Hv. subst o.
    exists e, u. split_and!; try done; by eapply (extend_item _ it _ _ _ e u next Hi (list_elem_of_here _ _)). }
  assert (∀ it', it' ∈ new → qi_unitID it' ∈ queue_ids new) as Hids by (intros it'; apply list_elem_of_fmap_2).
  destruct Hsteps as [_ Hcomplete]. destruct Hi as [Hs Hw Hit Hlv Hk Hst He Ht].
  destruct (Hit it (list_elem_of_here _ _)) as (_ & Hlen & Hin & _).
  pose proof (Hw it (list_elem_of_here _ _)) as Hwit.
  assert (∀ x, x ∈ visited → level_after new (Datatypes.S (qi_len it)) lv x = lv x) as Hold.
  { intros x Hx. unfold level_after. rewrite decide_False; [done |].
    intros (it' & -> & Hn)%list_elem_of_fmap. by destruct (Hnew it' Hn). }
  destruct (queue_lengths it queue new L Hs Hw) as [Hs' Hw'].
  { intros it' H. by destruct (Hnew' it' H) as (e & u & _ & _ & _ & ? & _). }
  split; [done | done | | | | | |].
  - intros it' [H|H]%elem_of_app.
    + destruct (Hit it' ltac:(by right)) as (H1 & H2 & H3 & H4 & H5). rewrite Hold by done. split_and!; set_solver.
    + destruct (Hnew' it' H) as (e & u & E & Hv & H1 & H2 & H3 & H4 & _). pose proof (Hids it' H) as Hid.
      assert (qi_unitID it' = u_ID u) as Eid by (by rewrite E). rewrite Eid in Hid |- *.
      split_and!; [done | unfold level_after; by rewrite decide_True | set_solver | done |].
      intros x Hx. destruct (H4 x Hx) as [->|?]; set_solver.
  - intros x [Hx%elem_of_list_to_set|Hx]%elem_of_union; [unfold level_after; by rewrite decide_True |].
    rewrite Hold by done. pose proof (Hlv x Hx). lia.
  - apply union_subseteq. split; [|done]. intros x (it' & -> & Hn)%elem_of_list_to_set%list_elem_of_fmap.
    by destruct (Hnew' it' Hn) as (e & u & -> & _ & _ & _ & _ & _ & ?).
  - split; [set_solver |]. rewrite Hold; tauto.
  - intros x e y Hr Hx Hq Hd Hstep. unfold queue_ids in Hq. rewrite map_app, not_elem_of_app in Hq.
    apply elem_of_union in Hx as [Hx%elem_of_list_to_set|Hx]; [by destruct Hq |].
    rewrite (Hold x Hx) in Hd |- *. destruct (decide (x = qi_unitID it)) as [->|Hx'].
    + pose proof (Hall _ y (Hcomplete Hr e y Hstep) eq_refl) as Hy. split; [done |]. rewrite <- Hlen.
      apply elem_of_union in Hy as [Hy%elem_of_list_to_set|Hy]; [unfold level_after; by rewrite decide_True |].
      rewrite Hold by done. pose proof (Hlv _ Hy). lia.
    + destruct (He x e y Hr Hx) as [H1 H2]; try done.
      { unfold queue_ids. simpl. rewrite not_elem_of_cons. by destruct Hq. }
      split; [set_solver |]. by rewrite Hold.
  - intros [Hx%elem_of_list_to_set|Hx]%elem_of_union; done.
Qed.

(** What a search answers. *)
Definition search_answer (r : Fallible (option (list PathStep))) : Prop :=
  match r with
  | inr (Some p) => walk from toID p ∧ length p ≤ Datatypes.S maxDepth ∧ NoDup (path_ids p) ∧
      (reliable → ∀ p', walk from toID p' → length p ≤ length p')
  | inr None => False
  | inl e => store_error e ∨
      (e = ErrNotFound ∧ (reliable → ∀ p, walk from toID p → Datatypes.S maxDepth < length p))
  end.

Lemma walk_nonempty x p : walk from x p → 1 ≤ length p.
Proof. intros []; [done | rewrite length_app; simpl; lia]. Qed.

(** A path found from the front item is a shortest one. *)
Lemma found_answer visited it queue lv L e u next :
  search_inv visited (it :: queue) lv L → lists_steps (qi_unitID it) next →
  qi_len it ≤ maxDepth → {| ew_Edge := e; ew_Unit := Some u |} ∈ next → u_ID u = toID → u_ID u ∉ visited →
  search_answer (inr (Some (qi_path it ++ [path_step e u]))).
Proof.
  intros Hi Hsteps Hd Hn Hu Hv.
  destruct (extend_item _ it _ _ _ e u next Hi (list_elem_of_here _ _) Hsteps Hn Hv) as (Hw & Hl & Hnd & _).
  rewrite Hu in Hw, Hv. unfold qi_len in *. cbn [found_item qi_path] in *. simpl. rewrite Hl. split_and!; [done | lia | done |].
  - intros Hr p' Hp'. destruct (walk_frontier _ _ _ _ _ _ Hr Hi Hp') as [[? _]|[(it' & Hit' & Hlt)|Hlong]];
      [done | | lia].
    pose proof (si_sorted _ _ _ _ Hi) as Hs. apply StronglySorted_inv in Hs as [_ Hge].
    assert (length (qi_path it) ≤ qi_len it').
    { apply elem_of_cons in Hit' as [->|Hit']; [done |]. rewrite Forall_forall in Hge.
      apply Hge. by apply list_elem_of_fmap_2. }
    unfold qi_len in *. lia.
Qed.

Lemma search_correct fuel visited queue lv L l :
  0 < maxDepth → loader_ok l → search_inv visited queue lv L →
  length queue + size (universe ∖ visited) < fuel →
  search_answer (fst (search fuel toID maxDepth visited queue l)).
Proof.
  intros Hpos. revert visited queue lv L l. induction fuel as [|fuel IH]; intros visited queue lv L l Hl Hi Hf; [lia |].
  destruct queue as [|it queue]; cbn [search].
  { right. split; [done |]. intros Hr p Hp.
    destruct (walk_frontier _ _ _ _ _ _ Hr Hi Hp) as [[Hv _]|[(it & Hit & _)|Hlong]]; [ | set_solver | done].
    destruct (si_target _ _ _ _ Hi Hv) as [_ [u E]]. done. }
  fold (qi_len it). destruct (Nat.ltb_spec maxDepth (qi_len it)) as [Hd|Hd].
  { apply (IH visited queue lv L l); [done | by eapply inv_drop | simpl in Hf; lia]. }
  destruct (String.eqb_spec (qi_unitID it) toID) as [Ht|Ht].
  { destruct (si_items _ _ _ _ Hi it (list_elem_of_here _ _)) as (Hw & _ & Hin & Hnd & _).
    destruct (si_target _ _ _ _ Hi ltac:(by rewrite <- Ht)) as [Hft [u E]]. injection E as -> _.
    simpl. simpl in Ht. split_and!; [by rewrite <- Ht | lia | done |]. intros _ p' Hp'. by apply walk_nonempty in Hp'. }
  unfold mbind, M_bind. pose proof (runs_expand (qi_unitID it) l Hl) as Hx. unfold runs in Hx.
  destruct (expand (qi_unitID it) l) as [[e|next] l']; destruct Hx as [Hl' Hnext]; [by left |].
  pose proof (visit_spec (λ n, n ∈ next) toID (qi_path it) next visited queue) as Hvis.
  specialize (Hvis ltac:(by apply Forall_forall)).
  destruct (visit toID (qi_path it) visited queue next) as [p|[visited' queue']].
  - destruct Hvis as ([e o] & u & Hn & Hu & Hid & Hv & ->). simpl in Hu. subst o. by eapply found_answer.
  - destruct Hvis as (new & -> & Hvb & Hall).
    pose proof (inv_expand _ _ _ _ _ _ _ _ Hi Ht Hnext Hvb Hall) as Hi'.
    eapply IH; [done | exact Hi' |].
    assert (size (universe ∖ visited') + length new = size (universe ∖ visited)) as Hsize.
    { destruct Hvb as [-> Hnd _ Hnew].
      assert (size (list_to_set (queue_ids new) : gset string) = length new) as <-
        by (rewrite size_list_to_set by done; apply length_map).
      rewrite Nat.add_comm, <- size_union by set_solver. f_equal.
      apply leibniz_equiv. intros x. pose proof (si_known _ _ _ _ Hi' x) as Hk.
      assert (x ∈ (list_to_set (queue_ids new) : gset string) → x ∉ visited).
      { intros (it' & -> & H)%elem_of_list_to_set%list_elem_of_fmap. by apply Hnew in H as [? _]. }
      destruct (decide (x ∈ (list_to_set (queue_ids new) : gset string))); set_solver. }
    rewrite length_app. simpl in Hf. lia.
Qed.

End Search.

Lemma walk_from from x p : walk from x p → is_Some (unit_of from).
Proof. induction 1; eauto. Qed.

(** One unit through the loader. *)
Lemma loader_unit_ok id l :
  loader_ok l →
  let '(r, l') := loader_unit id l in
  loader_ok l' ∧ match r with
  | inr u => unit_of id = Some u
  | inl e => GetASTUnitByID id = inl e ∨ (e = ErrNotFound ∧ unit_of id = None)
  end.
Proof.
  intros Hl. unfold loader_unit. destruct (ld_units l !! id) as [[u|]|] eqn:E.
  - split; [done |]. symmetry. by apply (ok_units l Hl).
  - split; [done |]. right. split; [done |]. symmetry. by apply (ok_units l Hl).
  - destruct (GetASTUnitByID id) as [[|t]|u] eqn:Eb.
    + split; [|by left]. split; [|apply (ok_services l Hl)]. simpl. rewrite <- (by_id_missing _ Eb).
      by apply units_ok_insert, ok_units.
    + split; [done | by left].
    + split; [|by apply by_id]. split; [|apply (ok_services l Hl)]. simpl. rewrite <- (by_id _ _ Eb).
      by apply units_ok_insert, ok_units.
Qed.

(** The state the search starts in. *)
Lemma start_inv fromID toID maxDepth universe u :
  (∀ id u, unit_of id = Some u → id ∈ (universe : gset string)) → unit_of fromID = Some u →
  search_inv fromID toID maxDepth universe {[fromID]}
    [{| qi_unitID := fromID; qi_path := [start_step u] |}] (λ _, 1) 1.
Proof.
  intros Hu Hf. pose proof (unit_of_id _ _ Hf) as Hid. split; simpl.
  - repeat constructor.
  - intros it ->%list_elem_of_singleton. unfold qi_len. simpl. lia.
  - intros it ->%list_elem_of_singleton. simpl. split_and!; [by apply walk_start | done | set_solver | apply NoDup_singleton |].
    intros x ->%list_elem_of_singleton. simpl. rewrite Hid. set_solver.
  - lia.
  - intros x ->%elem_of_singleton. by eapply Hu.
  - split; [set_solver | lia].
  - intros x e y _ ->%elem_of_singleton Hx. set_solver.
  - intros ->%elem_of_singleton. split; [done |]. by exists u.
Qed.

(** C18: a path query finds a shortest path across services. Whatever the caches
    hold and with fuel for the units there are, it answers a path of successive
    edges — forward, or from a contract to its implementation — from the one unit
    to the other, through no unit twice and of at most [maxDepth] hops, and when
    no read fails no path is shorter; it reports nothing found only when, as far
    as no read fails, no path is that short. *)
Theorem Path_shortest universe fuel fromID toID maxDepth l :
  (∀ id u, unit_of id = Some u → id ∈ (universe : gset string)) → size universe < fuel → loader_ok l →
  match fst (Path fuel fromID toID maxDepth l) with
  | inr (Some p) => walk fromID toID p ∧ length p ≤ Datatypes.S (path_depth maxDepth) ∧ NoDup (path_ids p) ∧
      (reliable → ∀ p', walk fromID toID p' → length p ≤ length p')
  | inr None => False
  | inl e => store_error e ∨ GetASTUnitByID fromID = inl e ∨
      (e = ErrNotFound ∧ (reliable → ∀ p, walk fromID toID p → Datatypes.S (path_depth maxDepth) < length p))
  end.
Proof.
  intros Hu Hf Hl. unfold Path, mbind, M_bind.
  pose proof (loader_unit_ok fromID l Hl) as Hs.
  destruct (loader_unit fromID l) as [[e|u] l']; destruct Hs as [Hl' Hs].
  { destruct Hs as [Hs|[-> Hs]]; [by right; left |]. right; right. split; [done |].
    intros _ p [? ?]%walk_from. congruence. }
  assert (0 < path_depth maxDepth) as Hpos by (unfold path_depth; case_if; bool_prop; lia).
  pose proof (search_correct fromID toID (path_depth maxDepth) universe Hu fuel {[fromID]}
    [{| qi_unitID := fromID; qi_path := [start_step u] |}] (λ _, 1) 1 l' Hpos Hl'
    (start_inv fromID toID _ universe u Hu Hs)) as H.
  assert (fromID ∈ universe) as Hin by by eapply Hu.
  assert (1 + size (universe ∖ {[fromID]}) < fuel) as Hfuel.
  { rewrite size_difference, size_singleton by set_solver.
    assert (size ({[fromID]} : gset string) ≤ size universe) as Hsz by (apply subseteq_size; set_solver).
    rewrite size_singleton in Hsz. lia. }
  specialize (H Hfuel).
  unfold start_step in H. destruct (fst _) as [e|[p|]]; simpl in H; [tauto | done | done].
Qed.

End Laws.

#[export] Hint Resolve newLoader_ok runs_ret runs_edges runs_unitsByIDs runs_cached
  runs_with_units runs_expand : runs.
Ltac run_next := eapply runs_seq; [solve [eauto with runs] | cbv beta].

(** A store in memory never fails. *)
Lemma memory_reliable units edges : @reliable (memory_store units edges).
Proof. intros e [[o H]|[ids H]]; done. Qed.

(** A client of a contract that another service implements. *)
Definition demo_unit (id repo kind name : string) : ASTUnit := {|
  u_ID := id; u_RepoID := repo; u_FilePath := "main.go"; u_Language := "go"; u_Kind := kind; u_Name := name;
  u_Qualified := name; u_ParentID := ""; u_StartLine := 1; u_EndLine := 9; u_StartByte := 0; u_EndByte := 99;
  u_Signature := ""; u_Doc := ""; u_Hash := ""; u_Meta := "" |}.
Definition demo_edge (src dst kind : string) : Edge := {|
  e_ID := ""; e_RepoID := "shop"; e_SrcID := src; e_DstID := dst; e_Kind := kind; e_DstName := "";
  e_FilePath := "main.go"; e_Line := 3; e_DstRepoID := ""; e_Confidence := f32_of_Z 1; e_Meta := "" |}.

Definition demo_units : list ASTUnit := [
  demo_unit "1" "shop" "function" "Checkout"; demo_unit "2" "api" KindRPCMethod "Pay.Charge";
  demo_unit "3" "pay" "method" "Charge" ].
Definition demo_edges : list Edge := [demo_edge "1" "2" EdgeRPCCall; demo_edge "3" "2" EdgeImplementsRPC].
Definition demo_store : Storage := memory_store demo_units demo_edges.

Lemma demo_laws : StorageLaws demo_store (memory_unit demo_units).
Proof. apply memory_store_laws. repeat constructor; done. Qed.

Lemma demo_universe id u : memory_unit demo_units id = Some u → id ∈ (list_to_set ["1"; "2"; "3"] : gset string).
Proof.
  intros H. unfold memory_unit in H. apply head_Some_elem_of, list_elem_of_filter in H as [<- H].
  apply elem_of_list_to_set. change ["1"; "2"; "3"] with (map u_ID demo_units). by apply list_elem_of_fmap_2.
Qed.

Lemma Path_shortest_witness :
  let r := fst (@Path demo_store 4 "1" "3" 0 newLoader) in
  (match r with inr (Some p) => path_ids p = ["1"; "2"; "3"] | _ => False end) ∧
  ∀ p', @walk demo_store (memory_unit demo_units) "1" "3" p' → 3 ≤ length p'.
Proof.
  pose proof (@Path_shortest demo_store (memory_unit demo_units) demo_laws
    (list_to_set ["1"; "2"; "3"]) 4 "1" "3" 0 newLoader demo_universe) as H.
  specialize (H ltac:(vm_compute; lia) (@newLoader_ok demo_store (memory_unit demo_units))).
  destruct (fst (@Path demo_store 4 "1" "3" 0 newLoader)) as [e|[p|]] eqn:E; vm_compute in E; [done | | done].
  injection E as <-. split; [reflexivity |]. destruct H as (_ & _ & _ & H).
  intros p' Hp'. apply (H (memory_reliable _ _) p' Hp').
Defined.
