(* ===== verification/GraphContext.v ===== *)
(** * The context around a unit

    The service a file belongs to, the unit at a range of lines, and the units
    around a unit. *)

From S2P Require Import Prelude GoStrings GoFloat GoSort Domain Store Contract Graph GraphFacts.
From Stdlib Require Import Sorting.Sorted.
From stdpp Require Import sorting.

(** ** The service of a file *)

Definition owns (filePath : string) (s : RepoService) : bool :=
  String.eqb (rs_Root s) "" || String.eqb filePath (rs_Root s) || HasPrefix filePath (rs_Root s +:+ "/").

Definition root_len (s : RepoService) : nat := String.length (rs_Root s).

(** The owner of a file among services: one that owns it, no owner before it has
    as long a root, and no owner after it a longer one. *)
Definition is_owner (filePath : string) (services : list RepoService) (s : RepoService) : Prop :=
  ∃ pre post, services = pre ++ s :: post ∧ owns filePath s = true ∧
    Forall (λ t, owns filePath t = true → root_len t < root_len s) pre ∧
    Forall (λ t, owns filePath t = true → root_len t ≤ root_len s) post.

Lemma str_length_0 s : String.length s = 0 ↔ s = "".
Proof. by destruct s. Qed.

Lemma service_step_owns filePath name len s :
  (-1 ≤ len)%Z →
  service_step filePath (name, len) s =
    if owns filePath s && (len <? Z.of_nat (root_len s))%Z then (rs_Name s, Z.of_nat (root_len s)) else (name, len).
Proof.
  intros Hlen. unfold service_step, owns, root_len.
  destruct (String.eqb_spec (rs_Root s) "") as [E|E]; simpl; [|done]. rewrite E. simpl.
  done.
Qed.

(** A file belongs to the service with the longest root above it, the first
    of them; to none, and the empty name, only when no root is above it. *)
Theorem ServiceFor_longest services filePath :
  (Forall (λ s, owns filePath s = false) services ∧ ServiceFor services filePath = "") ∨
  (∃ s, is_owner filePath services s ∧ ServiceFor services filePath = rs_Name s).
Proof.
  unfold ServiceFor.
  assert (let r := foldl (service_step filePath) ("", (-1)%Z) services in
    (Forall (λ s, owns filePath s = false) services ∧ r = ("", (-1)%Z)) ∨
    (∃ s, is_owner filePath services s ∧ r = (rs_Name s, Z.of_nat (root_len s)))) as H.
  { induction services as [|s services IH] using rev_ind; [by left |]. simpl in IH |- *.
    rewrite foldl_app. simpl. destruct IH as [[Hn ->]|(o & Ho & ->)]; rewrite service_step_owns by lia.
    - rewrite (proj2 (Z.ltb_lt _ _)) by lia. rewrite andb_true_r. destruct (owns filePath s) eqn:E.
      + right. exists s. split; [|done]. exists services, []. split_and!; [done | done | | constructor].
        eapply Forall_impl; [exact Hn |]. simpl. congruence.
      + left. split; [|done]. apply Forall_app. split; [done | by constructor].
    - destruct Ho as (pre & post & -> & Ho & H1 & H2). destruct (owns filePath s) eqn:E; simpl.
      + destruct (Z.ltb_spec (Z.of_nat (root_len o)) (Z.of_nat (root_len s))) as [Hlt|Hge]; right.
        * exists s. split; [|done]. exists (pre ++ o :: post), []. split_and!; [done | done | | constructor].
          apply Forall_app. split; [eapply Forall_impl; [exact H1 |]; simpl; intros t Ht Hot; specialize (Ht Hot); lia |].
          constructor; [lia |]. eapply Forall_impl; [exact H2 |]. simpl. intros t Ht Hot. specialize (Ht Hot). lia.
        * exists o. split; [|done]. exists pre, (post ++ [s]). rewrite <- app_assoc. split_and!; try done.
          apply Forall_app. split; [done |]. constructor; [lia | constructor].
      + right. exists o. split; [|done]. exists pre, (post ++ [s]). rewrite <- app_assoc. split_and!; try done.
        apply Forall_app. split; [done |]. constructor; [congruence | constructor]. }
  simpl in H. destruct H as [[Hn ->]|(s & Hs & ->)]; [by left | right; eauto].
Qed.

(** ** The unit at a range of lines *)

(** The order [UnitInRange] prefers units by: more lines shared, then a later
    start. *)
Definition beats (startLine endLine : Z) (u v : ASTUnit) : Prop :=
  (overlap startLine endLine v < overlap startLine endLine u)%Z ∨
  (overlap startLine endLine v = overlap startLine endLine u ∧ (u_StartLine v < u_StartLine u)%Z).

(** A range of lines names the unit that shares the most lines with it, the
    innermost of those, and the first of the units that tie on both; it names
    nothing exactly when no unit of the file shares a line with it. *)
Theorem UnitInRange_best {S : Storage} repoID filePath startLine endLine units :
  GetASTUnits (range_opts repoID filePath) = inr units →
  let stop := Z.max startLine endLine in
  match UnitInRange repoID filePath startLine endLine with
  | inr u => ∃ pre post, units = pre ++ u :: post ∧ (0 < overlap startLine stop u)%Z ∧
      Forall (λ v, (0 < overlap startLine stop v)%Z → beats startLine stop u v) pre ∧
      Forall (λ v, ¬ beats startLine stop v u) post
  | inl e => e = ErrNotFound ∧ Forall (λ v, (overlap startLine stop v ≤ 0)%Z) units
  end.
Proof.
  intros Hu. simpl. unfold UnitInRange. rewrite Hu.
  replace (if (endLine <? startLine)%Z then startLine else endLine) with (Z.max startLine endLine)
    by (case_if; bool_prop; lia).
  set (stop := Z.max startLine endLine). clear Hu.
  assert (match foldl (range_step startLine stop) (None, 0%Z) units with
    | (Some u, o) => o = overlap startLine stop u ∧ ∃ pre post, units = pre ++ u :: post ∧ (0 < overlap startLine stop u)%Z ∧
      Forall (λ v, (0 < overlap startLine stop v)%Z → beats startLine stop u v) pre ∧
      Forall (λ v, ¬ beats startLine stop v u) post
    | (None, o) => o = 0%Z ∧ Forall (λ v, (overlap startLine stop v ≤ 0)%Z) units
    end) as H.
  { induction units as [|v units IH] using rev_ind; [by split |].
    rewrite foldl_app. simpl. destruct (foldl _ _ units) as [[u|] o].
    - destruct IH as (-> & pre & post & -> & Hpos & H1 & H2). unfold range_step.
      assert (¬ beats startLine stop v u → Forall (λ v, ¬ beats startLine stop v u) (post ++ [v])) as Hkeep
        by (intros; apply Forall_app; split; [done | by constructor]).
      assert (beats startLine stop v u → (0 < overlap startLine stop v)%Z →
        overlap startLine stop v = overlap startLine stop v ∧ ∃ pre0 post0, (pre ++ u :: post) ++ [v] = pre0 ++ v :: post0 ∧
          (0 < overlap startLine stop v)%Z ∧
          Forall (λ w, (0 < overlap startLine stop w)%Z → beats startLine stop v w) pre0 ∧
          Forall (λ w, ¬ beats startLine stop w v) post0) as Hnew.
      { intros Hb Hp. split; [done |]. exists (pre ++ u :: post), []. split_and!; [done | done | | constructor].
        unfold beats in *. apply Forall_app. split.
        - eapply Forall_impl; [exact H1 |]. simpl. intros w Hw Hpw. specialize (Hw Hpw). lia.
        - constructor; [by intros _ |]. eapply Forall_impl; [exact H2 |]. simpl. intros w Hw Hpw. lia. }
      assert (¬ beats startLine stop v u → overlap startLine stop u = overlap startLine stop u ∧
        ∃ pre0 post0, (pre ++ u :: post) ++ [v] = pre0 ++ u :: post0 ∧ (0 < overlap startLine stop u)%Z ∧
          Forall (λ w, (0 < overlap startLine stop w)%Z → beats startLine stop u w) pre0 ∧
          Forall (λ w, ¬ beats startLine stop w u) post0) as Hold.
      { intros Hb. split; [done |]. exists pre, (post ++ [v]). rewrite <- app_assoc. split_and!; auto. }
      unfold beats in Hnew, Hold.
      case_if; [apply Hold; bool_prop; lia |]. case_if; [apply Hnew; bool_prop; lia |].
      case_if; [apply Hnew; bool_prop; lia |]. apply Hold.
      apply andb_false_iff in E1 as [E1|E1]; bool_prop; lia.
    - destruct IH as [-> IH]. unfold range_step. case_if; bool_prop.
      + split; [done |]. apply Forall_app. split; [done |]. by constructor.
      + rewrite (proj2 (Z.ltb_lt _ _)) by lia. split; [done |]. exists units, []. split_and!; [done | lia | | constructor].
        eapply Forall_impl; [exact IH |]. simpl. lia. }
  destruct (foldl _ _ units) as [[u|] o]; simpl; tauto.
Qed.

Definition lined (name : string) (startLine endLine : Z) : ASTUnit := {|
  u_ID := name; u_RepoID := "r"; u_FilePath := "a.go"; u_Language := "go"; u_Kind := "function"; u_Name := name;
  u_Qualified := name; u_ParentID := ""; u_StartLine := startLine; u_EndLine := endLine; u_StartByte := 0;
  u_EndByte := 0; u_Signature := ""; u_Doc := ""; u_Hash := ""; u_Meta := "" |}.

Lemma UnitInRange_best_witness :
  let units := [lined "File" 1 90; lined "Outer" 10 40; lined "Inner" 12 30; lined "Next" 41 60] in
  let S := memory_store units [] in
  (@UnitInRange S "r" "a.go" 14 20 = inr (lined "Inner" 12 30)) ∧ ¬ beats 14 20 (lined "Next" 41 60) (lined "Inner" 12 30).
Proof.
  set (units := [lined "File" 1 90; lined "Outer" 10 40; lined "Inner" 12 30; lined "Next" 41 60]). simpl.
  pose proof (@UnitInRange_best (memory_store units []) "r" "a.go" 14 20 units ltac:(vm_compute; reflexivity)) as H.
  assert (@UnitInRange (memory_store units []) "r" "a.go" 14 20 = inr (lined "Inner" 12 30)) as E
    by (vm_compute; reflexivity).
  cbv zeta in H. rewrite E in H. split; [exact E |].
  destruct H as (pre & post & Hu & _ & _ & H). rewrite Forall_forall in H. apply H.
  destruct pre as [|? [|? [|? [|? pre]]]]; simplify_eq/=; [by left |].
  by destruct pre.
Defined.

(** ** The units around a unit *)

Section Laws.
  Context {S : Storage} {unit_of : string → option ASTUnit} `{!StorageLaws S unit_of}.

(** The name of the service a unit belongs to, as the store has it. *)
Definition service_name (u : ASTUnit) : string :=
  if String.eqb (u_Kind u) KindService then u_Name u
  else
    let name := match services_of (u_RepoID u) with [] => "" | svcs => ServiceFor svcs (u_FilePath u) end in
    if String.eqb name "" then u_RepoID u else name.

Lemma runs_serviceForUnit u l :
  loader_ok (unit_of:=unit_of) l →
  runs (unit_of:=unit_of) (serviceForUnit u) l (λ svc l', svc = service_name u ∧ ld_units l' = ld_units l).
Proof.
  intros Hl. unfold serviceForUnit, service_name.
  destruct (String.eqb (u_Kind u) KindService); [by apply runs_ret |].
  unfold serviceOf, runs, mbind, M_bind, servicesOf.
  destruct (ld_services l !! u_RepoID u) as [svcs|] eqn:E.
  - rewrite (ok_services l Hl _ _ E). simpl. split; [done |].
    by destruct (services_of (u_RepoID u)).
  - fold (services_of (u_RepoID u)). simpl. split; [|by destruct (services_of (u_RepoID u))].
    split; [apply (ok_units l Hl) |]. simpl. intros r svcs. rewrite lookup_insert_Some.
    intros [[<- <-]|[_ H]]; [done | by apply (ok_services l Hl)].
Qed.

(** Two units an edge joins, in either direction, contracts to their
    implementations included. *)
Definition linked (x : string) (y : ASTUnit) : Prop :=
  (∃ e, step (unit_of:=unit_of) x e y) ∨
  (∃ es e, GetEdges (edge_opts "" x "") = inr es ∧ e ∈ es ∧ unit_of (e_SrcID e) = Some y).

Inductive reachable (from : string) : nat → string → Prop :=
  | reachable_start : reachable from 0 from
  | reachable_step d x y : reachable from d x → linked x y → reachable from (Datatypes.S d) (u_ID y).

Section Walk.
  Context (from : string).

Definition found (st : walk_state) : list string := map (λ r, u_ID (ru_Unit r)) (w_out st).

(** The walk at depth [d]: everything found is new, labelled with its service,
    in the store, and as far away as it says. *)
Record walk_inv (d : nat) (st : walk_state) : Prop := {
  wi_visited x : x ∈ w_visited st ↔ x = from ∨ x ∈ found st;
  wi_nodup : NoDup (from :: found st);
  wi_sorted : StronglySorted le (map ru_Distance (w_out st));
  wi_out r : r ∈ w_out st → 1 ≤ ru_Distance r ≤ d ∧ ru_Service r = service_name (ru_Unit r) ∧
    reachable from (ru_Distance r) (u_ID (ru_Unit r)) ∧ (∃ id, unit_of id = Some (ru_Unit r));
  wi_next x : x ∈ w_next st → reachable from d x
}.

Lemma runs_relate direction d x next st l :
  loader_ok (unit_of:=unit_of) l → walk_inv (Datatypes.S d) st → reachable from d x →
  (∀ n, n ∈ next → ∃ y, ew_Unit n = Some y ∧ linked x y ∧ ∃ id, unit_of id = Some y) →
  runs (unit_of:=unit_of) (relate direction (Datatypes.S d) next st) l
    (λ st' l', walk_inv (Datatypes.S d) st' ∧ ld_units l' = ld_units l).
Proof.
  intros Hl Hi Hx. revert st l Hl Hi. induction next as [|n next IH]; intros st l Hl Hi Hn; [by apply runs_ret |].
  cbn [relate]. destruct (Hn n (list_elem_of_here _ _)) as (y & -> & Hlink & Hy).
  assert (∀ n, n ∈ next → ∃ y, ew_Unit n = Some y ∧ linked x y ∧ ∃ id, unit_of id = Some y) as Hn'
    by (intros; apply Hn; by right).
  case_decide as Hv; [by apply IH |].
  eapply runs_seq; [by apply runs_serviceForUnit |]. intros svc l1 Hl1 [-> Hu1].
  eapply runs_mono; [apply IH; [done | | done] | by intros st' l2 _ [? ->]].
  destruct Hi as [H1 H2 H3 H4 H5]. rewrite H1 in Hv. split; cbn [w_visited w_out w_next].
  - intros z. unfold found. simpl. rewrite map_app, elem_of_union, H1, elem_of_app, elem_of_singleton.
    simpl. rewrite list_elem_of_singleton. unfold found. tauto.
  - unfold found. simpl. rewrite map_app. simpl.
    change (NoDup ((from :: found st) ++ [u_ID y])). apply NoDup_app. split_and!; [done | | apply NoDup_singleton].
    intros z Hz ->%list_elem_of_singleton. apply elem_of_cons in Hz. tauto.
  - rewrite map_app. apply StronglySorted_app_2; [|done | repeat constructor].
    intros a b (r & -> & Hr)%list_elem_of_fmap ->%list_elem_of_singleton. simpl. apply H4 in Hr. lia.
  - intros r [Hr| ->%list_elem_of_singleton]%elem_of_app; [by apply H4 |]. simpl.
    split_and!; [lia | lia | done | by eapply reachable_step | done].
  - intros z [Hz| ->%list_elem_of_singleton]%elem_of_app; [by apply H5 | by eapply reachable_step].
Qed.

Lemma step_in_store x e y : step (unit_of:=unit_of) x e y → ∃ id, unit_of id = Some y.
Proof. intros []; eauto. Qed.

Lemma runs_expand_frontier d frontier st l :
  loader_ok (unit_of:=unit_of) l → walk_inv (Datatypes.S d) st → (∀ x, x ∈ frontier → reachable from d x) →
  runs (unit_of:=unit_of) (expand_frontier (Datatypes.S d) frontier st) l (λ st' _, walk_inv (Datatypes.S d) st').
Proof.
  revert st l. induction frontier as [|x frontier IH]; intros st l Hl Hi Hf; [by apply runs_ret |].
  cbn [expand_frontier]. case_if; [by apply runs_ret |].
  pose proof (Hf x (list_elem_of_here _ _)) as Hx.
  run_next. intros next l1 Hl1 [Hnext _].
  eapply runs_seq.
  { eapply runs_relate; [done | done | done |]. intros n Hn. destruct (Hnext n Hn) as (y & Hy & Hs).
    exists y. split_and!; [done | by left; eauto | by eapply step_in_store]. }
  intros st1 l2 Hl2 [Hi1 _].
  run_next. intros es l3 Hl3 [Hes ->].
  run_next. intros _ l4 Hl4 [Hk _].
  run_next. intros callers l5 Hl5 [-> ->].
  eapply runs_seq.
  { eapply runs_relate; [done | done | done |]. intros n (e & y & He & Hy & ->)%resolved_elem.
    exists y. split_and!; [done | right; eauto | eauto]. }
  intros st2 l6 Hl6 [Hi2 _]. apply IH; [done | done |]. intros z Hz. apply Hf. by right.
Qed.

Lemma walk_inv_level d st : walk_inv d st →
  walk_inv (Datatypes.S d) {| w_visited := w_visited st; w_out := w_out st; w_next := [] |}.
Proof.
  intros [H1 H2 H3 H4 H5]. split; try done; [|set_solver].
  intros r Hr. destruct (H4 r Hr) as (? & ?). split; [lia | done].
Qed.

Lemma runs_expand_levels levels d st frontier l :
  loader_ok (unit_of:=unit_of) l → walk_inv d st → (∀ x, x ∈ frontier → reachable from d x) →
  runs (unit_of:=unit_of) (expand_levels levels (Datatypes.S d) frontier st) l
    (λ st' _, ∃ d', d' ≤ d + levels ∧ walk_inv d' st').
Proof.
  revert d st frontier l. induction levels as [|levels IH]; intros d st frontier l Hl Hi Hf.
  { apply runs_ret; [done |]. exists d. split; [lia | done]. }
  cbn [expand_levels]. case_if; [apply runs_ret; [done |]; exists d; split; [lia | done] |].
  eapply runs_seq; [by apply runs_expand_frontier; [done | apply walk_inv_level |] |].
  intros st1 l1 Hl1 Hi1. eapply runs_mono; [apply IH; [done | done | apply Hi1] |].
  intros st2 l2 _ (d' & Hd & H). exists d'. split; [lia | done].
Qed.

End Walk.

Lemma elem_of_take_all {A} (x : A) n l : x ∈ take n l → x ∈ l.
Proof. intros H. rewrite <- (take_drop n l). apply elem_of_app. by left. Qed.

Lemma take_sorted n (rs : list RelatedUnit) :
  StronglySorted le (map ru_Distance rs) → StronglySorted (λ a b, ru_Distance a ≤ ru_Distance b) (take n rs).
Proof.
  revert n. induction rs as [|r rs IH]; intros [|n] Hs; simpl; try constructor.
  - apply StronglySorted_inv in Hs as [Hs _]. by apply IH.
  - apply StronglySorted_inv in Hs as [_ Hs]. rewrite Forall_forall in Hs. apply Forall_forall.
    intros r' Hr'%elem_of_take_all. apply Hs. by apply list_elem_of_fmap_2.
Qed.

Lemma by_distance_sorted rs :
  StronglySorted (λ a b, ru_Distance a ≤ ru_Distance b) rs → sorted_by by_distance rs.
Proof.
  induction 1 as [|r rs _ IH H]; constructor; [done |]. eapply Forall_impl; [exact H |].
  intros r' Hr'. by apply Nat.ltb_ge.
Qed.

(** The context of a unit is its neighbourhood. At most 24 units, none of
    them twice and never the unit itself, nearest first and at most three hops
    away; each is in the store, carries the name of its service, and is reached
    in as many hops as its distance says, along edges in either direction and
    from contracts to their implementations; only a failed read is an error. *)
Theorem Expand_neighbourhood unitID hops l :
  loader_ok (unit_of:=unit_of) l →
  match fst (Expand unitID hops l) with
  | inl e => store_error e
  | inr out =>
      length out ≤ maxRelated ∧ NoDup (unitID :: map (λ r, u_ID (ru_Unit r)) out) ∧
      StronglySorted (λ a b, ru_Distance a ≤ ru_Distance b) out ∧
      ∀ r, r ∈ out →
        1 ≤ ru_Distance r ≤ clamp_hops hops ≤ 3 ∧ ru_Service r = service_name (ru_Unit r) ∧
        reachable unitID (ru_Distance r) (u_ID (ru_Unit r)) ∧ ∃ id, unit_of id = Some (ru_Unit r)
  end.
Proof.
  intros Hl.
  assert (walk_inv unitID 0 {| w_visited := {[unitID]}; w_out := []; w_next := [] |}) as H0.
  { split; cbn [w_visited w_out w_next found map]; [set_solver | apply NoDup_singleton | constructor | set_solver | set_solver]. }
  pose proof (runs_expand_levels unitID (clamp_hops hops) 0 _ [unitID] l Hl H0) as H.
  specialize (H ltac:(intros x ->%list_elem_of_singleton; constructor)).
  unfold Expand, mbind, M_bind. unfold runs in H.
  destruct (expand_levels _ _ _ _ l) as [[e|st] l']; [by destruct H |].
  destruct H as [_ (d & Hd & [_ Hn Hs Ho _])]. simpl.
  pose proof (take_sorted maxRelated _ Hs) as Hs'. rewrite SliceSort_id by by apply by_distance_sorted.
  split_and!; [rewrite length_take; lia | | done |].
  - change (NoDup ([unitID] ++ map (λ r, u_ID (ru_Unit r)) (take maxRelated (w_out st)))).
    unfold found in Hn. rewrite <- (take_drop maxRelated (w_out st)), map_app in Hn.
    change (NoDup ((unitID :: map (λ r, u_ID (ru_Unit r)) (take maxRelated (w_out st)))
                   ++ map (λ r, u_ID (ru_Unit r)) (drop maxRelated (w_out st)))) in Hn.
    by apply NoDup_app in Hn as [Hn _].
  - intros r Hr%elem_of_take_all. destruct (Ho r Hr) as (H1 & H2 & H3 & H4).
    split_and!; try done; try lia. unfold clamp_hops. repeat case_if; bool_prop; lia.
Qed.

End Laws.

Lemma Expand_neighbourhood_witness :
  match fst (@Expand demo_store "2" 5 newLoader) with
  | inr out => map (λ r, u_ID (ru_Unit r)) out = ["3"; "1"] ∧ length out ≤ maxRelated
  | inl _ => False
  end.
Proof.
  pose proof (@Expand_neighbourhood demo_store (memory_unit demo_units) demo_laws "2" 5 newLoader newLoader_ok) as H.
  destruct (fst (@Expand demo_store "2" 5 newLoader)) as [e|out] eqn:E; [by vm_compute in E |].
  destruct H as (H & _). split; [|exact H]. revert E. vm_compute. by intros [= <-].
Defined.
