(* ===== verification/GraphListings.v ===== *)
(** * The listings of services and topics ([internal/graph/graph.go])

    The services of all repositories with the aggregated links between them, and the
    topics with who produces and consumes them.  Both gather their answer in a map
    and sort what they find in it; [visit] is the order Go ranges over the map in,
    and the answers do not depend on it. *)

From stdpp Require Import sorting.
From S2P Require Import Prelude GoStrings GoSort GoFloat Domain Store Contract Graph GraphFacts GraphContext.
From Stdlib Require Import Strings.Ascii.

(** ** Services and links *)

Record ServiceInfo := { si_RepoID : string; si_Name : string; si_Root : string; si_DetectedBy : string; si_UnitID : string }.
Record ServiceLink := {
  sl_SrcRepo : string; sl_SrcService : string; sl_DstRepo : string; sl_DstService : string; sl_Kind : string; sl_Via : string;
  sl_Count : nat; sl_Confidence : f32 }.

Definition service_info (u : ASTUnit) : ServiceInfo :=
  let '(root, detectedBy) := serviceUnitInfo u in
  {| si_RepoID := u_RepoID u; si_Name := u_Name u; si_Root := root; si_DetectedBy := detectedBy; si_UnitID := u_ID u |}.
Definition kinds_opts (kinds : list string) : QueryOpts := {|
  q_RepoID := ""; q_Repos := []; q_FilePath := ""; q_Language := ""; q_Kind := ""; q_Kinds := kinds; q_Name := ""; q_Qualified := "";
  q_QualifiedSuffix := ""; q_NameOrQualified := ""; q_Fallback := false; q_SrcID := ""; q_DstID := ""; q_Unresolved := false; q_Line := 0;
  q_Limit := 0 |}.
Definition link_opts : QueryOpts := kinds_opts [EdgeRPCCall; EdgeHTTPCall; EdgeKafkaFlow; EdgeRuntimeCall].
Definition implements_opts : QueryOpts := kinds_opts [EdgeImplementsRPC].

Definition canonicalVia (dstName : string) : string :=
  match ParseHTTP dstName with Some (method, path) => Contract.HTTP method (ToLower path) | None => dstName end.

(** The loop that picks the implementation of each contract, with its confidence. *)
Definition impl_step (st : gmap string (string * f32) * list string) (ie : Edge) : gmap string (string * f32) * list string :=
  let '(impls, ids) := st in
  match impls !! e_DstID ie with
  | Some (_, conf) =>
      if fle (e_Confidence ie) conf then st else (<[e_DstID ie := (e_SrcID ie, e_Confidence ie)]> impls, ids ++ [e_SrcID ie])
  | None => (<[e_DstID ie := (e_SrcID ie, e_Confidence ie)]> impls, ids ++ [e_SrcID ie])
  end.

(** A link of no edges yet, its key in the map of links, and one more edge of it. *)
Definition blank_link (src dst : ASTUnit) (srcSvc dstSvc : string) (e : Edge) : ServiceLink := {|
  sl_SrcRepo := u_RepoID src; sl_SrcService := srcSvc; sl_DstRepo := u_RepoID dst; sl_DstService := dstSvc; sl_Kind := e_Kind e;
  sl_Via := canonicalVia (e_DstName e); sl_Count := 0; sl_Confidence := S754_zero false |}.
Definition link_key (l : ServiceLink) : string :=
  Join [sl_SrcRepo l; sl_SrcService l; sl_DstRepo l; sl_DstService l; sl_Kind l; sl_Via l] (String "000"%char "").
Definition absorb (e : Edge) (l : ServiceLink) : ServiceLink := {|
  sl_SrcRepo := sl_SrcRepo l; sl_SrcService := sl_SrcService l; sl_DstRepo := sl_DstRepo l; sl_DstService := sl_DstService l;
  sl_Kind := sl_Kind l; sl_Via := sl_Via l; sl_Count := S (sl_Count l);
  sl_Confidence := if flt (sl_Confidence l) (e_Confidence e) then e_Confidence e else sl_Confidence l |}.
Definition add_link (e : Edge) (fresh : ServiceLink) (links : gmap string ServiceLink) : gmap string ServiceLink :=
  <[link_key fresh := absorb e (default fresh (links !! link_key fresh))]> links.
Definition link_less : ServiceLink → ServiceLink → bool :=
  then_by sl_SrcService (then_by sl_DstService (then_by sl_Via (then_by sl_Kind (then_by sl_SrcRepo (then_by sl_DstRepo tie))))).

(** ** Topics *)

Record TopicInfo := {
  ti_Topic : string; ti_Producers : list Node; ti_Consumers : list Node; ti_Description : string; ti_Declared : bool }.
Definition new_topic (topic : string) : TopicInfo :=
  {| ti_Topic := topic; ti_Producers := []; ti_Consumers := []; ti_Description := ""; ti_Declared := false |}.
Definition topic_of_edge (e : Edge) : string := TrimKind (e_DstName e) KindTopic.
Definition add_node (e : Edge) (n : Node) (ti : TopicInfo) : TopicInfo :=
  let produces := String.eqb (e_Kind e) EdgeProduces in {|
  ti_Topic := ti_Topic ti; ti_Producers := if produces then ti_Producers ti ++ [n] else ti_Producers ti;
  ti_Consumers := if produces then ti_Consumers ti else ti_Consumers ti ++ [n]; ti_Description := ti_Description ti; ti_Declared := ti_Declared ti |}.
(** A channel declared in a specification. *)
Definition declare_topic (byTopic : gmap string TopicInfo) (u : ASTUnit) : gmap string TopicInfo :=
  let ti := default (new_topic (u_Name u)) (byTopic !! u_Name u) in
  <[u_Name u := {| ti_Topic := ti_Topic ti; ti_Producers := ti_Producers ti; ti_Consumers := ti_Consumers ti;
                   ti_Description := if String.eqb (ti_Description ti) "" then u_Doc u else ti_Description ti; ti_Declared := true |}]> byTopic.
Definition topicInvolves (ti : TopicInfo) (service : string) : bool :=
  existsb (λ n, String.eqb (n_Service n) service) (ti_Producers ti) || existsb (λ n, String.eqb (n_Service n) service) (ti_Consumers ti).
Definition topic_less : TopicInfo → TopicInfo → bool := then_by ti_Topic tie.
Definition topic_opts : QueryOpts := kinds_opts [EdgeProduces; EdgeConsumes].
Definition channel_opts : QueryOpts := edge_opts "" "" KindTopicChannel.

(** ** The queries *)

Section Listings.
  Context {S : Storage}.

(** [Graph.serviceOf], [serviceForUnit] and [ServiceOfUnit]: the same, read from the store each time. *)
Definition Graph_serviceOf (u : ASTUnit) : string * list RepoService :=
  match GetASTUnits (service_opts (u_RepoID u)) with
  | inl _ | inr [] => ("", [])
  | inr svcUnits => let services := map service_of_unit svcUnits in (ServiceFor services (u_FilePath u), services)
  end.
Definition ServiceOfUnit (u : ASTUnit) : string :=
  if String.eqb (u_Kind u) KindService then u_Name u
  else let name := fst (Graph_serviceOf u) in if String.eqb name "" then u_RepoID u else name.

Definition link_ids (edges : list Edge) : list string :=
  concat (map (λ e, if String.eqb (e_DstID e) "" then [] else [e_SrcID e; e_DstID e]) edges).
Fixpoint has_rpc_dst (edges : list Edge) : M bool :=
  match edges with
  | [] => mret false
  | e :: r =>
      u ← cached (e_DstID e);
      match u with
      | Some u => if String.eqb (u_Kind u) KindRPCMethod then mret true else has_rpc_dst r
      | None => has_rpc_dst r
      end
  end.
Definition implOf (edges : list Edge) : M (gmap string (string * f32)) :=
  hasRPCDst ← has_rpc_dst edges;
  if (hasRPCDst : bool) then
    implEdges ← lift (GetEdges implements_opts);
    let '(impls, ids) := foldl impl_step (∅, []) implEdges in
    _ ← unitsByIDs ids;
    mret impls
  else mret ∅.
(** One edge of the loop over the links. *)
Definition link_edge (impls : gmap string (string * f32)) (links : gmap string ServiceLink) (e : Edge) : M (gmap string ServiceLink) :=
  if String.eqb (e_DstID e) "" then mret links
  else
    src ← cached (e_SrcID e);
    dst ← cached (e_DstID e);
    match src, dst with
    | Some src, Some dst =>
        impl ← (if String.eqb (u_Kind dst) KindRPCMethod then cached (default "" (fst <$> impls !! u_ID dst)) else mret None);
        let dst := default dst impl in
        srcSvc ← serviceForUnit src;
        dstSvc ← serviceForUnit dst;
        mret (if String.eqb srcSvc dstSvc && String.eqb (u_RepoID src) (u_RepoID dst) then links
              else add_link e (blank_link src dst srcSvc dstSvc e) links)
    | _, _ => mret links
    end.
Fixpoint fold_edges {A} (f : A → Edge → M A) (edges : list Edge) (a : A) : M A :=
  match edges with [] => mret a | e :: r => a ← f a e; fold_edges f r a end.

Definition topic_edge (byTopic : gmap string TopicInfo) (e : Edge) : M (gmap string TopicInfo) :=
  let topic := topic_of_edge e in
  let ti := default (new_topic topic) (byTopic !! topic) in
  u ← cached (e_SrcID e);
  match u with
  | None => mret (<[topic := ti]> byTopic)
  | Some u => svc ← serviceForUnit u; mret (<[topic := add_node e {| n_Unit := u; n_Service := svc |} ti]> byTopic)
  end.

Definition links_query : M (gmap string ServiceLink) :=
  edges ← lift (GetEdges link_opts);
  _ ← unitsByIDs (link_ids edges);
  impls ← implOf edges;
  fold_edges (link_edge impls) edges ∅.
Definition ServicesGraph (visit : gmap string ServiceLink → list (string * ServiceLink)) : Fallible (list ServiceInfo * list ServiceLink) :=
  match GetASTUnits (service_opts "") with
  | inl e => inl e
  | inr svcUnits =>
      match fst (links_query newLoader) with
      | inl e => inl e
      | inr links => inr (map service_info svcUnits, SliceSort link_less (map snd (visit links)))
      end
  end.

Definition topics_query : M (gmap string TopicInfo) :=
  edges ← lift (GetEdges topic_opts);
  _ ← unitsByIDs (map e_SrcID edges);
  fold_edges topic_edge edges ∅.
Definition Topics (visit : gmap string TopicInfo → list (string * TopicInfo)) (service : string) : Fallible (list TopicInfo) :=
  match fst (topics_query newLoader) with
  | inl e => inl e
  | inr byTopic =>
      match GetASTUnits channel_opts with
      | inl e => inl e
      | inr declared =>
          inr (SliceSort topic_less
                 (filter (λ ti, String.eqb service "" || topicInvolves ti service = true)
                    (map snd (visit (foldl declare_topic byTopic declared)))))
      end
  end.
End Listings.

(** ** What an edge contributes *)

Section Laws.
  Context {S : Storage} {unit_of : string → option ASTUnit} `{!StorageLaws S unit_of}.

(** The implementation of a contract: the most confident edge, the first of those that tie. *)
Definition better (best : option Edge) (ie : Edge) : option Edge :=
  match best with Some b => if fle (e_Confidence ie) (e_Confidence b) then best else Some ie | None => Some ie end.
Definition implementer (es : list Edge) (contract : string) : option Edge :=
  foldl better None (filter (λ ie, e_DstID ie = contract) es).
Definition implementing : list Edge := match GetEdges implements_opts with inr es => es | inl _ => [] end.
Definition served (u : ASTUnit) : ASTUnit :=
  if String.eqb (u_Kind u) KindRPCMethod
  then default u (implementer implementing (u_ID u) ≫= λ ie, unit_of (e_SrcID ie)) else u.
(** The link an edge belongs to, [None] when it joins no two services. *)
Definition link_of (e : Edge) : option ServiceLink :=
  if String.eqb (e_DstID e) "" then None
  else
    src ← unit_of (e_SrcID e);
    dst ← unit_of (e_DstID e);
    let dst := served dst in
    if String.eqb (service_name src) (service_name dst) && String.eqb (u_RepoID src) (u_RepoID dst) then None
    else Some (blank_link src dst (service_name src) (service_name dst) e).
Definition node_of (e : Edge) : option Node := (λ u, {| n_Unit := u; n_Service := service_name u |}) <$> unit_of (e_SrcID e).

Lemma impl_fold es :
  let '(impls, ids) := foldl impl_step (∅, []) es in
  (∀ c, impls !! c = (λ ie, (e_SrcID ie, e_Confidence ie)) <$> implementer es c) ∧
  (∀ c ie, implementer es c = Some ie → e_SrcID ie ∈ ids).
Proof.
  induction es as [|ie es IH] using rev_ind; [split; [intros c; by rewrite lookup_empty | done] |].
  rewrite foldl_app. cbn [foldl]. destruct (foldl impl_step (∅, []) es) as [impls ids]. destruct IH as [Hm Hi].
  assert (∀ c, implementer (es ++ [ie]) c = if decide (e_DstID ie = c) then better (implementer es c) ie else implementer es c) as Hs.
  { intros c. unfold implementer. rewrite filter_app, filter_cons, filter_nil, foldl_app. by destruct (decide _). }
  unfold impl_step. pose proof (Hm (e_DstID ie)) as Hc.
  assert (∀ out, out = (<[e_DstID ie := (e_SrcID ie, e_Confidence ie)]> impls, ids ++ [e_SrcID ie]) →
    better (implementer es (e_DstID ie)) ie = Some ie →
    (∀ c, out.1 !! c = (λ ie, (e_SrcID ie, e_Confidence ie)) <$> implementer (es ++ [ie]) c) ∧
    (∀ c ie', implementer (es ++ [ie]) c = Some ie' → e_SrcID ie' ∈ out.2)) as Hnew.
  { intros out -> Hb. cbn [fst snd]. split.
    - intros c. rewrite Hs. destruct (decide (e_DstID ie = c)) as [<-|Hne]; [by rewrite lookup_insert_eq, Hb | by rewrite lookup_insert_ne].
    - intros c ie'. rewrite Hs, elem_of_app. destruct (decide (e_DstID ie = c)) as [<-|Hne]; [|by intros ?%Hi; left].
      rewrite Hb. intros [= <-]. right. apply list_elem_of_here. }
  destruct (implementer es (e_DstID ie)) as [b|] eqn:Eb; cbn [fmap option_fmap option_map] in Hc; rewrite Hc.
  - destruct (fle (e_Confidence ie) (e_Confidence b)) eqn:Ef.
    + cbn [fst snd]. assert (∀ c, implementer (es ++ [ie]) c = implementer es c) as Hsame.
      { intros c. rewrite Hs. destruct (decide _) as [<-|]; [|done]. unfold better. by rewrite Eb, Ef. }
      split; intros c; rewrite Hsame; [apply Hm | apply Hi].
    + destruct (Hnew _ eq_refl) as [H1 H2]; [unfold better; by rewrite Ef |]. by split.
  - destruct (Hnew _ eq_refl) as [H1 H2]; [done |]. by split.
Qed.

Lemma ServiceOfUnit_name u : ServiceOfUnit u = service_name u.
Proof.
  unfold ServiceOfUnit, service_name, Graph_serviceOf, services_of. destruct (String.eqb (u_Kind u) KindService); [done |].
  by destruct (GetASTUnits _) as [e|[|su sus]].
Qed.

(** ** Running the loops *)

Definition knows (l : loader) (id : string) : Prop := mjoin (ld_units l !! id) = unit_of id.
Lemma knows_grows l l' id : loader_ok (unit_of:=unit_of) l' → grows l l' → knows l id → knows l' id.
Proof.
  unfold knows. intros Hl Hg H. destruct (ld_units l' !! id) as [o|] eqn:E; [by apply (ok_units l' Hl) in E |].
  destruct (ld_units l !! id) as [o|] eqn:E0; [destruct (Hg id) as [x Hx]; [eauto | congruence] | done].
Qed.
Lemma knows_same l l' id : ld_units l' = ld_units l → knows l id → knows l' id.
Proof. unfold knows. by intros ->. Qed.
Lemma knows_empty l : loader_ok (unit_of:=unit_of) l → knows l "".
Proof.
  intros Hl. unfold knows. destruct (ld_units l !! "") as [o|] eqn:E; [by apply (ok_units l Hl) in E; subst | by rewrite unit_of_empty].
Qed.

Lemma runs_knows id l :
  loader_ok (unit_of:=unit_of) l → knows l id → runs (unit_of:=unit_of) (cached id) l (λ o l', o = unit_of id ∧ l' = l).
Proof. intros Hl Hk. split; [done |]. by rewrite <- Hk. Qed.

Lemma runs_has_rpc_dst edges l :
  loader_ok (unit_of:=unit_of) l → (∀ e, e ∈ edges → knows l (e_DstID e)) →
  runs (unit_of:=unit_of) (has_rpc_dst edges) l (λ b l', l' = l ∧
    (b = false → ∀ e u, e ∈ edges → unit_of (e_DstID e) = Some u → u_Kind u ≠ KindRPCMethod)).
Proof.
  intros Hl. induction edges as [|e edges IH]; intros Hk; cbn [has_rpc_dst]; [apply runs_ret; [done | set_solver] |].
  eapply runs_seq; [apply runs_knows; [done | apply Hk, list_elem_of_here] |]. intros o l1 _ [-> ->].
  assert (runs (unit_of:=unit_of) (has_rpc_dst edges) l (λ b l', l' = l ∧
    (b = false → ∀ e u, e ∈ edges → unit_of (e_DstID e) = Some u → u_Kind u ≠ KindRPCMethod))) as IH' by (apply IH; intros; apply Hk; by right).
  destruct (unit_of (e_DstID e)) as [u|] eqn:Eu; [destruct (String.eqb_spec (u_Kind u) KindRPCMethod) as [Ek|Ek]; [by apply runs_ret |] |];
    (eapply runs_mono; [exact IH' |]; intros b l2 _ [-> H]; split; [done |]; intros Hb e' u' [->|He']%elem_of_cons Hu'; [congruence | by eapply H]).
Qed.

(** The known implementations are those the edges of the contracts name. *)
Lemma runs_implOf edges l :
  loader_ok (unit_of:=unit_of) l → (∀ e, e ∈ edges → knows l (e_DstID e)) →
  runs (unit_of:=unit_of) (implOf edges) l (λ impls l', grows l l' ∧
    ∀ e u, e ∈ edges → unit_of (e_DstID e) = Some u → u_Kind u = KindRPCMethod →
      let impl := default "" (fst <$> impls !! u_ID u) in
      knows l' impl ∧ unit_of impl = implementer implementing (u_ID u) ≫= λ ie, unit_of (e_SrcID ie)).
Proof.
  intros Hl Hk. unfold implOf. eapply runs_seq; [by apply runs_has_rpc_dst |]. intros [] l1 Hl1 [-> Hb].
  - eapply runs_seq; [by apply runs_edges |]. intros es l2 Hl2 [Hes ->]. pose proof (impl_fold es) as Hf.
    destruct (foldl impl_step (∅, []) es) as [impls ids]. destruct Hf as [Hm Hi].
    eapply runs_seq; [by apply runs_unitsByIDs |]. intros _ l3 Hl3 [Hk3 Hg]. apply runs_ret; [done |]. split; [done |].
    intros e u He Hu Hkind. cbn zeta. unfold implementing. rewrite Hes, Hm.
    destruct (implementer es (u_ID u)) as [ie|] eqn:Ei; cbn [fmap option_fmap option_map default mbind option_bind fst].
    + split; [|done]. apply Hk3. by eapply Hi.
    + split; [by apply knows_empty | apply unit_of_empty].
  - apply runs_ret; [done |]. split; [by intros id |]. intros e u He Hu Hkind. by destruct (Hb eq_refl e u He Hu).
Qed.

Lemma runs_fold_edges {A} (f : A → Edge → M A) (g : A → Edge → A) edges a l :
  loader_ok (unit_of:=unit_of) l →
  (∀ a e l', loader_ok (unit_of:=unit_of) l' → ld_units l' = ld_units l → e ∈ edges →
     runs (unit_of:=unit_of) (f a e) l' (λ a' l'', a' = g a e ∧ ld_units l'' = ld_units l)) →
  runs (unit_of:=unit_of) (fold_edges f edges a) l (λ a' _, a' = foldl g a edges).
Proof.
  intros Hl Hf. assert (∀ l', loader_ok (unit_of:=unit_of) l' → ld_units l' = ld_units l →
    runs (unit_of:=unit_of) (fold_edges f edges a) l' (λ a' _, a' = foldl g a edges)) as H; [|by apply H].
  clear Hl. revert a Hf. induction edges as [|e edges IH]; intros a Hf l' Hl' Hu; cbn [fold_edges foldl]; [by apply runs_ret |].
  eapply runs_seq; [apply Hf; [done | done | apply list_elem_of_here] |]. intros a' l2 Hl2 [-> Hu2].
  apply IH; [|done | done]. intros a' e' l3 H1 H2 H3. apply Hf; [done | done | by right].
Qed.

Definition link_step (links : gmap string ServiceLink) (e : Edge) : gmap string ServiceLink :=
  match link_of e with Some fresh => add_link e fresh links | None => links end.
Lemma runs_link_edge impls links e l :
  loader_ok (unit_of:=unit_of) l →
  (e_DstID e ≠ "" → knows l (e_SrcID e) ∧ knows l (e_DstID e)) →
  (∀ u, unit_of (e_DstID e) = Some u → u_Kind u = KindRPCMethod →
     let impl := default "" (fst <$> impls !! u_ID u) in
     knows l impl ∧ unit_of impl = implementer implementing (u_ID u) ≫= λ ie, unit_of (e_SrcID ie)) →
  runs (unit_of:=unit_of) (link_edge impls links e) l (λ r l', r = link_step links e ∧ ld_units l' = ld_units l).
Proof.
  intros Hl Hk Hi. unfold link_edge, link_step, link_of. destruct (String.eqb_spec (e_DstID e) "") as [Ee|Ee]; [by apply runs_ret |].
  destruct (Hk Ee) as [Hs Hd].
  eapply runs_seq; [by apply runs_knows |]. intros o l1 _ [-> ->]. eapply runs_seq; [by apply runs_knows |]. intros o l1 _ [-> ->].
  destruct (unit_of (e_SrcID e)) as [src|]; [|by apply runs_ret]. destruct (unit_of (e_DstID e)) as [dst|]; [|by apply runs_ret].
  cbn [mbind option_bind]. specialize (Hi dst eq_refl).
  apply (runs_seq _ _ _ (λ o l', default dst o = served dst ∧ l' = l)).
  - unfold served. destruct (String.eqb_spec (u_Kind dst) KindRPCMethod) as [Ek|Ek]; [|by apply runs_ret].
    destruct (Hi Ek) as [H1 H2]. eapply runs_mono; [by apply runs_knows |]. intros o l' _ [-> ->]. by rewrite H2.
  - intros o l1 _ [-> ->]. eapply runs_seq; [by apply runs_serviceForUnit |]. intros a l1 Hl1 [-> Hu1].
    eapply runs_seq; [by apply runs_serviceForUnit |]. intros b l2 Hl2 [-> Hu2]. apply runs_ret; [done |].
    split; [by destruct (_ && _) | congruence].
Qed.
Lemma runs_links_query :
  runs (unit_of:=unit_of) links_query newLoader (λ links _, ∃ edges, GetEdges link_opts = inr edges ∧ links = foldl link_step ∅ edges).
Proof.
  unfold links_query. eapply runs_seq; [apply runs_edges, newLoader_ok |]. intros edges l Hl [He ->].
  eapply runs_seq; [by apply runs_unitsByIDs |]. intros _ l1 Hl1 [Hk _].
  assert (∀ e, e ∈ edges → e_DstID e ≠ "" → knows l1 (e_SrcID e) ∧ knows l1 (e_DstID e)) as Hends.
  { intros e Hin Hd. assert (∀ id, id = e_SrcID e ∨ id = e_DstID e → id ∈ link_ids edges) as Hids.
    { intros id Hid. apply list_elem_of_In, in_concat. exists [e_SrcID e; e_DstID e]. split; [|by destruct Hid as [-> | ->]; cbn; auto].
      apply in_map_iff. exists e. split; [|by apply list_elem_of_In]. by destruct (String.eqb_spec (e_DstID e) ""). }
    split; apply Hk, Hids; auto. }
  eapply runs_seq; [apply runs_implOf; [done |] |].
  { intros e Hin. destruct (decide (e_DstID e = "")) as [->|Hd]; [by apply knows_empty | by apply Hends]. }
  intros impls l2 Hl2 [Hg Hi]. eapply runs_mono; [apply (runs_fold_edges _ link_step); [done |] | intros links l3 _ ->; eauto].
  intros links e l3 Hl3 Hu Hin. rewrite <- Hu. apply runs_link_edge; [done | |].
  - intros Hd. destruct (Hends e Hin Hd) as [H1 H2]. split; (eapply knows_same; [exact Hu | by eapply knows_grows]).
  - intros u Hdu Hkind. cbn zeta. destruct (Hi e u Hin Hdu Hkind) as [H1 H2]. split; [by eapply knows_same | done].
Qed.
(** ** The map of links *)

Lemma flt_not_nan x y : flt x y = true → not_nan y.
Proof. intros H ->. revert H. unfold flt, SFltb. by destruct x as [[]|[]| |[]]. Qed.

Definition in_link (k : string) (e : Edge) : Prop := link_key <$> link_of e = Some k.
#[export] Instance in_link_dec k e : Decision (in_link k e).
Proof. unfold in_link. apply _. Defined.
Definition link_edges (edges : list Edge) (k : string) : list Edge := filter (in_link k) edges.

(** A link is what the edges of its key come to, one after another. *)
Definition absorb_all (es : list Edge) (l : ServiceLink) : ServiceLink := foldl (λ l e, absorb e l) l es.
Definition link_at (edges : list Edge) (k : string) : option ServiceLink :=
  let es := link_edges edges k in absorb_all es <$> (head es ≫= link_of).

Lemma links_at edges k : foldl link_step ∅ edges !! k = link_at edges k.
Proof.
  induction edges as [|e edges IH] using rev_ind; [cbn [foldl]; by rewrite lookup_empty |].
  rewrite foldl_app. cbn [foldl]. unfold link_at, link_edges. rewrite filter_app, filter_cons, filter_nil.
  fold (link_edges edges k). unfold link_at in IH. cbn zeta in IH.
  unfold link_step at 1. destruct (link_of e) as [fresh|] eqn:Ee.
  - destruct (decide (in_link k e)) as [Hk|Hk]; unfold in_link in Hk; rewrite Ee in Hk; change (link_key <$> Some fresh) with (Some (link_key fresh)) in Hk.
    + injection Hk as <-. unfold add_link. rewrite lookup_insert_eq. fold (link_edges edges (link_key fresh)) in *.
      rewrite IH. unfold absorb_all. destruct (link_edges edges (link_key fresh)) as [|e0 es] eqn:Es; cbn [app head mbind option_bind fmap option_fmap option_map].
      * rewrite Ee. done.
      * assert (e0 ∈ link_edges edges (link_key fresh)) as H0 by (rewrite Es; apply list_elem_of_here).
        apply list_elem_of_filter in H0 as [H0 _]. unfold in_link in H0. destruct (link_of e0); [|done]. cbn. by rewrite foldl_app.
    + rewrite app_nil_r. unfold add_link. rewrite lookup_insert_ne; [apply IH | congruence].
  - rewrite decide_False; [by rewrite app_nil_r |]. unfold in_link. by rewrite Ee.
Qed.

Lemma absorb_all_fields es l :
  let r := absorb_all es l in
  link_key r = link_key l ∧ sl_Count r = (sl_Count l + length es)%nat ∧
  (not_nan (sl_Confidence l) → not_nan (sl_Confidence r) ∧
     flt (sl_Confidence r) (sl_Confidence l) = false ∧ Forall (λ e, flt (sl_Confidence r) (e_Confidence e) = false) es ∧
     (sl_Confidence r = sl_Confidence l ∨ ∃ e, e ∈ es ∧ sl_Confidence r = e_Confidence e)).
Proof.
  cbn zeta. induction es as [|e es IH] using rev_ind.
  { cbn. split; [done |]. split; [lia |]. intros Hn. split; [done |]. split; [by apply (swo_irrefl (P:=not_nan)) |]. split; [constructor | by left]. }
  unfold absorb_all in *. rewrite foldl_app, length_app. cbn [foldl length]. set (r := foldl _ l es) in *. destruct IH as (Hk & Hc & IH).
  split; [exact Hk |]. split; [cbn [absorb sl_Count]; lia |]. intros Hn. destruct (IH Hn) as (Hr & Hl & Hf & Ho). cbn [absorb sl_Confidence].
  destruct (flt (sl_Confidence r) (e_Confidence e)) eqn:E.
  - assert (not_nan (e_Confidence e)) as He by (by eapply flt_not_nan).
    assert (∀ x, flt (sl_Confidence r) x = false → flt (e_Confidence e) x = false) as Hup.
    { intros x Hx. destruct (flt (e_Confidence e) x) eqn:Ex; [|done].
      assert (not_nan x) as Hnx by (by eapply flt_not_nan).
      by rewrite (swo_trans (P:=not_nan) _ _ _ Hr He Hnx E Ex) in Hx. }
    split; [done |]. split; [by apply Hup |]. split; [|right; exists e; split; [apply elem_of_app; right; apply list_elem_of_here | done]].
    apply Forall_app. split; [by eapply Forall_impl; [exact Hf |]; auto | constructor; [by apply (swo_irrefl (P:=not_nan)) | constructor]].
  - split; [done |]. split; [done |]. split; [apply Forall_app; split; [done | by constructor] |].
    destruct Ho as [Ho|(e' & He' & Ho)]; [by left | right; exists e'; split; [apply elem_of_app; by left | done]].
Qed.

Lemma link_at_Some edges k l :
  link_at edges k = Some l →
  let es := link_edges edges k in
  link_key l = k ∧ sl_Count l = length es ∧ (∃ e es' fresh, es = e :: es' ∧ link_of e = Some fresh ∧ l = absorb_all es fresh) ∧
  Forall (λ e, flt (sl_Confidence l) (e_Confidence e) = false) es ∧
  (sl_Confidence l = S754_zero false ∨ ∃ e, e ∈ es ∧ sl_Confidence l = e_Confidence e).
Proof.
  unfold link_at. cbn zeta. destruct (link_edges edges k) as [|e es] eqn:Es; [done |]. cbn [head mbind option_bind].
  assert (e ∈ link_edges edges k) as He by (rewrite Es; apply list_elem_of_here). apply list_elem_of_filter in He as [He _]. unfold in_link in He.
  destruct (link_of e) as [fresh|] eqn:Ef; [|done]. assert (link_key fresh = k) as Hfk by (by injection He). clear He. intros [= <-].
  assert (sl_Confidence fresh = S754_zero false ∧ sl_Count fresh = 0) as [Hz Hc].
  { revert Ef. unfold link_of. destruct (String.eqb _ ""); [done |]. destruct (unit_of (e_SrcID e)); [|done]. cbn [mbind option_bind].
    destruct (unit_of (e_DstID e)); [|done]. cbn [mbind option_bind]. destruct (_ && _); [done |]. by intros [= <-]. }
  destruct (absorb_all_fields (e :: es) fresh) as (H1 & H2 & H3). destruct H3 as (_ & _ & H4 & H5); [by rewrite Hz |].
  split; [exact (eq_trans H1 Hfk) |]. split; [exact (eq_trans H2 (f_equal (λ n, (n + _)%nat) Hc)) |]. split; [eauto 6 |]. split; [done |]. by rewrite Hz in H5.
Qed.
(** ** The services and their links *)

#[export] Instance link_less_swo : SwoOn (λ _, True) link_less.
Proof. repeat (apply (then_by_swo (λ _, True)); [done |]). apply tie_swo. Qed.
Lemma then_by_text_tie {A} (key : A → string) rest a b :
  then_by key rest a b = false → then_by key rest b a = false → key a = key b ∧ rest a b = false ∧ rest b a = false.
Proof.
  intros H1 H2. destruct (then_by_tie (λ _, True) key rest a b I I H1 H2) as (E & H). split; [by apply String.eqb_eq in E | done].
Qed.
Lemma link_less_tie a b : link_less a b = false → link_less b a = false → link_key a = link_key b.
Proof.
  unfold link_less, link_key. intros H1 H2.
  do 6 (apply then_by_text_tie in H1 as (?E & H1 & ?H); [clear H2; rename H into H2 | exact H2]).
  congruence.
Qed.

(** The values of a map, in whatever order they are visited. *)
Lemma visited_values {A} (visit : gmap string A → list (string * A)) (key : A → string) m :
  visit m ≡ₚ map_to_list m → (∀ k x, m !! k = Some x → key x = k) →
  NoDup (map key (map snd (visit m))) ∧ (∀ x, x ∈ map snd (visit m) ↔ m !! key x = Some x).
Proof.
  intros Hv Hk. assert (map key (map snd (visit m)) = map fst (visit m)) as E.
  { rewrite map_map. apply map_ext_in. intros [k x] Hin%list_elem_of_In. rewrite Hv in Hin. apply elem_of_map_to_list in Hin. by apply Hk. }
  split.
  - rewrite E, Hv. apply NoDup_fst_map_to_list.
  - intros x. rewrite list_elem_of_fmap. split.
    + intros ([k y] & -> & Hin). rewrite Hv in Hin. apply elem_of_map_to_list in Hin. cbn. by rewrite (Hk _ _ Hin).
    + intros H. exists (key x, x). split; [done |]. rewrite Hv. by apply elem_of_map_to_list.
Qed.

Lemma link_at_joined edges e fresh : e ∈ edges → link_of e = Some fresh → is_Some (link_at edges (link_key fresh)).
Proof.
  intros Hin Hf. unfold link_at. cbn zeta.
  assert (e ∈ link_edges edges (link_key fresh)) as Hes by (apply list_elem_of_filter; split; [unfold in_link; by rewrite Hf | done]).
  destruct (link_edges _ _) as [|e0 es] eqn:E0; [by apply not_elem_of_nil in Hes |]. cbn [head mbind option_bind].
  assert (e0 ∈ link_edges edges (link_key fresh)) as H0 by (rewrite E0; apply list_elem_of_here).
  apply list_elem_of_filter in H0 as [H0 _]. unfold in_link in H0. destruct (link_of e0); [by eexists | done].
Qed.

(** ** What a link is *)

(** A link is told by the two services, each in its repository, the kind of the calls
    and the contract they go through. *)
Definition link_id : Type := string * string * string * string * string * string.
Definition id_of (l : ServiceLink) : link_id :=
  (sl_SrcRepo l, sl_SrcService l, sl_DstRepo l, sl_DstService l, sl_Kind l, sl_Via l).
(** The contract of a call: of an HTTP call the method and the path, in lower case. *)
Definition contract_of (e : Edge) : string :=
  match ParseHTTP (e_DstName e) with
  | Some (method, path) => Contract.HTTP method (ToLower path)
  | None => e_DstName e
  end.
(** The link an edge is counted in: both of its ends are known units, and they are in
    different services or repositories; a call of an rpc method goes to the unit that
    implements it. *)
Definition joined (e : Edge) : option link_id :=
  if decide (e_DstID e = "") then None
  else
    src ← unit_of (e_SrcID e);
    dst ← served <$> unit_of (e_DstID e);
    if decide (service_name src = service_name dst ∧ u_RepoID src = u_RepoID dst) then None
    else Some (u_RepoID src, service_name src, u_RepoID dst, service_name dst, e_Kind e, contract_of e).
Definition joining (edges : list Edge) (id : link_id) : list Edge := filter (λ e, joined e = Some id) edges.

Lemma joined_link e : joined e = id_of <$> link_of e.
Proof.
  unfold joined, link_of. destruct (decide (e_DstID e = "")) as [->|Hd]; [done |]. rewrite (proj2 (String.eqb_neq _ _) Hd).
  destruct (unit_of (e_SrcID e)) as [src|]; [|done]. cbn [mbind option_bind]. destruct (unit_of (e_DstID e)) as [dst|]; [|done].
  cbn [mbind option_bind fmap option_fmap option_map].
  destruct (decide _) as [[E1 E2]|Hn]; [by rewrite E1, E2, !String.eqb_refl |].
  destruct (String.eqb_spec (service_name src) (service_name (served dst))) as [E1|]; [|done].
  destruct (String.eqb_spec (u_RepoID src) (u_RepoID (served dst))) as [E2|]; [by destruct Hn | done].
Qed.

(** Parts without the byte that separates them in the key. *)
Definition nul : ascii := "000"%char.
Fixpoint has_nul (s : string) : bool := match s with "" => false | String c s => Ascii.eqb c nul || has_nul s end.
Definition plain_id (id : link_id) : Prop :=
  let '(a, b, c, d, k, v) := id in Forall (λ s, has_nul s = false) [a; b; c; d; k].
Lemma nul_split a a' r r' :
  has_nul a = false → has_nul a' = false → a +:+ String nul r = a' +:+ String nul r' → a = a' ∧ r = r'.
Proof.
  revert a'. induction a as [|c a IH]; intros [|c' a']; simpl; intros Ha Ha' E.
  - split; [done | congruence].
  - injection E as <- _. by rewrite Ascii.eqb_refl in Ha'.
  - injection E as -> _. by rewrite Ascii.eqb_refl in Ha.
  - injection E as <- E. apply orb_false_iff in Ha as [_ Ha], Ha' as [_ Ha']. destruct (IH a' Ha Ha' E) as [-> ->]. done.
Qed.
Lemma link_key_inj l l' : plain_id (id_of l) → plain_id (id_of l') → link_key l = link_key l' → id_of l = id_of l'.
Proof.
  unfold plain_id, id_of, link_key. rewrite !Forall_cons. intros (H1 & H2 & H3 & H4 & H5 & _) (G1 & G2 & G3 & G4 & G5 & _). cbn [Join].
  do 5 (intros [-> E]%nul_split; [revert E | done | done]). by intros ->.
Qed.
Lemma absorb_all_id es l : id_of (absorb_all es l) = id_of l.
Proof. induction es as [|e es IH] using rev_ind; [done |]. unfold absorb_all in *. by rewrite foldl_app. Qed.

(** Among edges whose parts are plain, those of one key are those of one link. *)
Lemma link_edges_joining edges fresh :
  (∀ e id, e ∈ edges → joined e = Some id → plain_id id) → plain_id (id_of fresh) →
  link_edges edges (link_key fresh) = joining edges (id_of fresh).
Proof.
  intros Hp Hf. unfold link_edges, joining. apply filter_impl. intros e He. unfold in_link. rewrite joined_link.
  specialize (Hp e). rewrite joined_link in Hp. destruct (link_of e) as [l|]; [|done]. cbn [fmap option_fmap option_map] in *.
  split; intros [= E]; f_equal; [by apply link_key_inj; [apply Hp | |] |].
  unfold id_of in E. unfold link_key. congruence.
Qed.

(** C31: The listing of services is that of the store, and its links are exactly the calls between services: one link for each
    combination of services, their repositories, kind of call and contract that an edge joins — a call of a contract going to its most
    confident implementation, and paths differing in case being one contract; it counts the edges it joins, all of them, and carries
    the highest of their confidences; and the links come in one order, whatever the order Go visits them in.  The names are taken to
    hold no NUL byte, which separates them in the keys.  A listing fails only when a read of the store does. *)
Theorem ServicesGraph_links visit :
  (∀ m, visit m ≡ₚ map_to_list m) →
  (∀ edges e id, GetEdges link_opts = inr edges → e ∈ edges → joined e = Some id → plain_id id) →
  match ServicesGraph visit with
  | inl e => GetASTUnits (service_opts "") = inl e ∨ store_error e
  | inr (services, links) => ∃ units edges,
      GetASTUnits (service_opts "") = inr units ∧ services = map service_info units ∧ GetEdges link_opts = inr edges ∧
      NoDup (map id_of links) ∧ sorted_by link_less links ∧
      (∀ visit', (∀ m, visit' m ≡ₚ map_to_list m) → ServicesGraph visit' = ServicesGraph visit) ∧
      (∀ e id, e ∈ edges → joined e = Some id → id ∈ map id_of links) ∧
      (∀ l, l ∈ links → let es := joining edges (id_of l) in
         es ≠ [] ∧ sl_Count l = length es ∧ Forall (λ e, flt (sl_Confidence l) (e_Confidence e) = false) es ∧
         (sl_Confidence l = S754_zero false ∨ ∃ e, e ∈ es ∧ sl_Confidence l = e_Confidence e))
  end.
Proof.
  intros Hv Hplain. unfold ServicesGraph. destruct (GetASTUnits (service_opts "")) as [e|units]; [by left |].
  pose proof runs_links_query as H. unfold runs in H. destruct (links_query newLoader) as [[e|links] l'] eqn:Eq; cbn [fst]; [right; by destruct H |].
  destruct H as [_ (edges & He & ->)]. specialize (Hplain edges). exists units, edges. set (m := foldl _ ∅ edges).
  assert (∀ k x, m !! k = Some x → link_key x = k) as Hk by (intros k x Hx; unfold m in Hx; rewrite links_at in Hx; by apply link_at_Some in Hx as [? _]).
  assert (∀ vs, vs m ≡ₚ map_to_list m → separates link_less (map snd (vs m))) as Hsep.
  { intros vs Hvs a b Ha Hb Hab Hba. destruct (visited_values vs link_key m Hvs Hk) as [Hn _].
    eapply (NoDup_map_inj link_key); [exact Hn | done | done | by apply link_less_tie]. }
  destruct (visited_values visit link_key m (Hv m) Hk) as [Hn Hin].
  split_and!; try done.
  - rewrite (SliceSort_perm link_less). clear -Hn. induction (map snd (visit m)) as [|l ls IH]; [constructor |].
    cbn [map] in Hn. apply NoDup_cons in Hn as [Hl Hn]. constructor; [|by apply IH].
    intros (x & E & Hx)%list_elem_of_fmap. apply Hl, list_elem_of_fmap. exists x. split; [|done].
    unfold id_of in E. unfold link_key. congruence.
  - apply (SliceSort_sorted _ (λ _, True)), Forall_true; by intros.
  - intros visit' Hv'. f_equal. f_equal. apply (SliceSort_perm_eq _ (λ _, True)); [by apply Forall_true | by apply Hsep |].
    by rewrite (Hv m), (Hv' m).
  - intros e id Hin_e Hj. rewrite (SliceSort_perm link_less). pose proof Hj as Hf. rewrite joined_link in Hf.
    destruct (link_of e) as [fresh|] eqn:Ef; [|done]. injection Hf as <-.
    destruct (link_at_joined edges e fresh Hin_e Ef) as [x Hx]. rewrite <- links_at in Hx. apply list_elem_of_fmap. exists x.
    assert (x ∈ map snd (visit m)) as Hxv by (apply Hin; by rewrite (Hk _ _ Hx)). split; [|done].
    pose proof (Hk _ _ Hx) as Ek. unfold m in Hx. rewrite links_at in Hx. apply link_at_Some in Hx as (_ & _ & (e0 & es & fresh0 & E0 & Ef0 & ->) & _).
    rewrite absorb_all_id. symmetry. apply link_key_inj; [| by eapply Hplain |].
    + apply (Hplain e0); [done | | by rewrite joined_link, Ef0].
      assert (e0 ∈ link_edges edges (link_key fresh)) as H0 by (rewrite E0; apply list_elem_of_here). by apply list_elem_of_filter in H0 as [_ ?].
    + rewrite <- Ek. by rewrite (proj1 (absorb_all_fields _ _)).
  - intros l Hl%SliceSort_elem. apply Hin in Hl. unfold m in Hl. rewrite links_at in Hl.
    apply link_at_Some in Hl as (_ & H2 & (e0 & es & fresh & E0 & Ef & El) & H4 & H5). cbn zeta.
    assert (id_of l = id_of fresh) as Eid by (rewrite El; apply absorb_all_id).
    assert (link_key l = link_key fresh) as Ekey by (unfold id_of in Eid; unfold link_key; congruence).
    assert (e0 ∈ edges) as He0.
    { assert (e0 ∈ link_edges edges (link_key l)) as H0 by (rewrite E0; apply list_elem_of_here). by apply list_elem_of_filter in H0 as [_ ?]. }
    assert (plain_id (id_of fresh)) as Hpf by (apply (Hplain e0); [done | done | by rewrite joined_link, Ef]).
    rewrite Ekey, (link_edges_joining edges fresh) in H2, H4, H5, E0 by (done || (intros; by eapply Hplain)).
    rewrite Eid. split_and!; [by rewrite E0 | done | done | done].
Qed.
(** ** Topics *)

(** What the edges and the declarations say of a topic. *)
Definition of_topic (topic : string) (e : Edge) : Prop := topic_of_edge e = topic.
#[export] Instance of_topic_dec topic e : Decision (of_topic topic e).
Proof. unfold of_topic. apply _. Defined.
Definition nodes_of (produces : bool) (es : list Edge) : list Node :=
  omap node_of (filter (λ e, String.eqb (e_Kind e) EdgeProduces = produces) es).
Definition described (topic : string) (es : list Edge) (ds : list ASTUnit) : TopicInfo := {|
  ti_Topic := topic; ti_Producers := nodes_of true es; ti_Consumers := nodes_of false es;
  ti_Description := default "" (head (filter (λ d, d ≠ "") (map u_Doc ds))); ti_Declared := negb (bool_decide (ds = [])) |}.
Definition topic_at (edges : list Edge) (declared : list ASTUnit) (topic : string) : option TopicInfo :=
  let es := filter (of_topic topic) edges in
  let ds := filter (λ u, u_Name u = topic) declared in
  if bool_decide (es = []) && bool_decide (ds = []) then None else Some (described topic es ds).

Definition topic_step (byTopic : gmap string TopicInfo) (e : Edge) : gmap string TopicInfo :=
  let topic := topic_of_edge e in
  let ti := default (new_topic topic) (byTopic !! topic) in
  <[topic := match node_of e with Some n => add_node e n ti | None => ti end]> byTopic.
Lemma runs_topics_query :
  runs (unit_of:=unit_of) topics_query newLoader (λ m _, ∃ edges, GetEdges topic_opts = inr edges ∧ m = foldl topic_step ∅ edges).
Proof.
  unfold topics_query. eapply runs_seq; [apply runs_edges, newLoader_ok |]. intros edges l Hl [He ->].
  eapply runs_seq; [by apply runs_unitsByIDs |]. intros _ l1 Hl1 [Hk _].
  eapply runs_mono; [apply (runs_fold_edges _ topic_step); [done |] | intros m l3 _ ->; eauto].
  intros m e l3 Hl3 Hu Hin. unfold topic_edge, topic_step, node_of. cbn zeta.
  eapply runs_seq; [apply runs_knows; [done |] |].
  { eapply knows_same; [exact Hu |]. apply Hk. by apply list_elem_of_fmap_2. }
  intros o l4 Hl4 [-> ->]. destruct (unit_of (e_SrcID e)) as [u|]; cbn [fmap option_fmap option_map]; [|by apply runs_ret].
  eapply runs_seq; [by apply runs_serviceForUnit |]. intros svc l5 Hl5 [-> Hu5]. apply runs_ret; [done |]. split; [done | congruence].
Qed.

Lemma nodes_of_snoc produces es e :
  nodes_of produces (es ++ [e]) =
  nodes_of produces es ++ match node_of e with
                          | Some n => if Bool.eqb (String.eqb (e_Kind e) EdgeProduces) produces then [n] else []
                          | None => []
                          end.
Proof.
  unfold nodes_of. rewrite filter_app, omap_app. f_equal. rewrite filter_cons, filter_nil.
  destruct (decide (String.eqb (e_Kind e) EdgeProduces = produces)) as [->|Hn].
  - rewrite eqb_reflx. cbn. by destruct (node_of e).
  - apply eqb_false_iff in Hn. rewrite Hn. cbn. by destruct (node_of e).
Qed.
Lemma described_snoc topic es e :
  described topic (es ++ [e]) [] = match node_of e with Some n => add_node e n (described topic es []) | None => described topic es [] end.
Proof.
  unfold described. rewrite !nodes_of_snoc. destruct (node_of e) as [n|]; [|by rewrite !app_nil_r].
  unfold add_node. cbn [ti_Topic ti_Producers ti_Consumers ti_Description ti_Declared].
  destruct (String.eqb (e_Kind e) EdgeProduces); cbn [Bool.eqb]; by rewrite app_nil_r.
Qed.
Lemma topics_of_edges edges topic : foldl topic_step ∅ edges !! topic = topic_at edges [] topic.
Proof.
  induction edges as [|e edges IH] using rev_ind; [cbn [foldl]; by rewrite lookup_empty |].
  rewrite foldl_app. cbn [foldl]. unfold topic_at in *. cbn zeta in *. rewrite filter_nil in *. rewrite filter_app, filter_cons, filter_nil.
  rewrite (bool_decide_true (([] : list ASTUnit) = [])), andb_true_r in * by done. unfold topic_step at 1. cbn zeta.
  destruct (decide (of_topic topic e)) as [Ht|Ht].
  - unfold of_topic in Ht. rewrite Ht, lookup_insert_eq. rewrite IH. set (es := filter (of_topic topic) edges).
    rewrite (bool_decide_false (es ++ [e] = [])) by (by destruct es). f_equal. rewrite described_snoc.
    destruct (bool_decide_reflect (es = [])) as [->|]; done.
  - rewrite app_nil_r, lookup_insert_ne by done. exact IH.
Qed.
Lemma topics_declared edges declared topic :
  foldl declare_topic (foldl topic_step ∅ edges) declared !! topic = topic_at edges declared topic.
Proof.
  induction declared as [|u declared IH] using rev_ind; [apply topics_of_edges |].
  rewrite foldl_app. cbn [foldl]. unfold topic_at in *. cbn zeta in *. rewrite filter_app, filter_cons, filter_nil. unfold declare_topic at 1. cbn zeta.
  set (es := filter (of_topic topic) edges) in *. set (ds := filter (λ u, u_Name u = topic) declared) in *.
  destruct (decide (u_Name u = topic)) as [Ht|Ht]; [|rewrite app_nil_r, lookup_insert_ne by done; exact IH].
  rewrite Ht, lookup_insert_eq, IH, (bool_decide_false (ds ++ [u] = [])), andb_false_r by (by destruct ds). f_equal.
  assert (default "" (head (filter (λ d, d ≠ "") (map u_Doc (ds ++ [u])))) =
    let d := default "" (head (filter (λ d, d ≠ "") (map u_Doc ds))) in if String.eqb d "" then u_Doc u else d) as Hdesc.
  { cbn zeta. rewrite map_app, filter_app. destruct (filter (λ d, d ≠ "") (map u_Doc ds)) as [|d dd] eqn:E.
    - cbn [app map]. rewrite filter_cons, filter_nil. by destruct (decide _) as [|?%dec_stable].
    - cbn [app head from_option]. unfold id. assert (d ∈ filter (λ d, d ≠ "") (map u_Doc ds)) as Hd by (rewrite E; apply list_elem_of_here).
      apply list_elem_of_filter in Hd as [Hd _]. apply String.eqb_neq in Hd. rewrite Hd. reflexivity. }
  assert (described topic es (ds ++ [u]) =
    {| ti_Topic := topic; ti_Producers := nodes_of true es; ti_Consumers := nodes_of false es;
       ti_Description := if String.eqb (default "" (head (filter (λ d, d ≠ "") (map u_Doc ds)))) "" then u_Doc u
                         else default "" (head (filter (λ d, d ≠ "") (map u_Doc ds)));
       ti_Declared := true |}) as ->.
  { unfold described. rewrite Hdesc, (bool_decide_false (ds ++ [u] = [])) by (by destruct ds). done. }
  clear Hdesc IH. clearbody es ds. destruct (bool_decide_reflect (es = [])) as [->|He], (bool_decide_reflect (ds = [])) as [->|Hd]; done.
Qed.

#[export] Instance topic_less_swo : SwoOn (λ _, True) topic_less.
Proof. apply (then_by_swo (λ _, True)); [done | apply tie_swo]. Qed.

(** C32: The topics listed are those some producer, consumer or declared channel names, each once and in the order of their names,
    whatever order Go visits them in; each has its producers and consumers in the order of the edges, with their services, is
    marked declared exactly when a channel declares it, and has the first description one gives; and a service asked for leaves
    those it produces or consumes.  A listing fails only when a read of the store does. *)
Theorem Topics_listed visit service :
  (∀ m, visit m ≡ₚ map_to_list m) →
  match Topics visit service with
  | inl e => store_error e ∨ GetASTUnits channel_opts = inl e
  | inr topics => ∃ edges declared, GetEdges topic_opts = inr edges ∧ GetASTUnits channel_opts = inr declared ∧
      NoDup (map ti_Topic topics) ∧ sorted_by topic_less topics ∧
      (∀ visit', (∀ m, visit' m ≡ₚ map_to_list m) → Topics visit' service = Topics visit service) ∧
      (∀ ti, ti ∈ topics ↔
         let es := filter (of_topic (ti_Topic ti)) edges in
         let ds := filter (λ u, u_Name u = ti_Topic ti) declared in
         (es ≠ [] ∨ ds ≠ []) ∧ ti = described (ti_Topic ti) es ds ∧
         (service = "" ∨ ∃ n, (n ∈ ti_Producers ti ∨ n ∈ ti_Consumers ti) ∧ n_Service n = service))
  end.
Proof.
  intros Hv. unfold Topics. pose proof runs_topics_query as H. unfold runs in H.
  destruct (topics_query newLoader) as [[e|m0] l'] eqn:Eq; cbn [fst]; [left; by destruct H |]. destruct H as [_ (edges & He & ->)].
  destruct (GetASTUnits channel_opts) as [e|declared]; [by right |]. exists edges, declared. set (m := foldl declare_topic _ declared).
  assert (∀ k x, m !! k = Some x → ti_Topic x = k) as Hk.
  { intros k x. unfold m. rewrite topics_declared. unfold topic_at. cbn zeta. destruct (_ && _); [done |]. by intros [= <-]. }
  set (kept := λ ti, String.eqb service "" || topicInvolves ti service = true).
  assert (∀ vs, vs m ≡ₚ map_to_list m → separates topic_less (filter kept (map snd (vs m)))) as Hsep.
  { intros vs Hvs a b [_ Ha]%list_elem_of_filter [_ Hb]%list_elem_of_filter Hab Hba.
    destruct (visited_values vs ti_Topic m Hvs Hk) as [Hn _]. eapply (NoDup_map_inj ti_Topic); [exact Hn | done | done |].
    by apply then_by_text_tie in Hab as [? _]. }
  destruct (visited_values visit ti_Topic m (Hv m) Hk) as [Hn Hin]. split_and!; try done.
  - rewrite (SliceSort_perm topic_less). by apply NoDup_map_filter.
  - apply (SliceSort_sorted _ (λ _, True)), Forall_true; by intros.
  - intros visit' Hv'. f_equal. apply (SliceSort_perm_eq _ (λ _, True)); [by apply Forall_true | by apply Hsep |]. by rewrite (Hv m), (Hv' m).
  - intros ti. cbn zeta. rewrite SliceSort_elem, list_elem_of_filter, Hin. unfold m. rewrite topics_declared. unfold topic_at. cbn zeta.
    set (es := filter _ edges). set (ds := filter _ declared). unfold kept, topicInvolves.
    assert (∀ ns, existsb (λ n, String.eqb (n_Service n) service) ns = true ↔ ∃ n, n ∈ ns ∧ n_Service n = service) as Hex.
    { intros ns. rewrite existsb_exists. split; intros (n & H1 & H2); exists n; [by apply list_elem_of_In in H1; apply String.eqb_eq in H2 |].
      split; [by apply list_elem_of_In | by apply String.eqb_eq]. }
    rewrite !orb_true_iff, !Hex, String.eqb_eq.
    assert (∀ (p q : list Node), (∃ n, n ∈ p ∧ n_Service n = service) ∨ (∃ n, n ∈ q ∧ n_Service n = service) ↔
      ∃ n, (n ∈ p ∨ n ∈ q) ∧ n_Service n = service) as -> by (clear; naive_solver).
    assert ((if bool_decide (es = []) && bool_decide (ds = []) then None else Some (described (ti_Topic ti) es ds)) = Some ti ↔
      (es ≠ [] ∨ ds ≠ []) ∧ ti = described (ti_Topic ti) es ds) as ->; [|tauto].
    destruct (bool_decide_reflect (es = [])) as [E1|E1], (bool_decide_reflect (ds = [])) as [E2|E2]; cbn [andb];
      (split; [intros H; try done; injection H; auto | intros [H1 H2]; try (by destruct H1); by rewrite <- H2]).
Qed.
End Laws.

(** ** A shop that pays and mails *)

Definition topic_call (src kind topic : string) : Edge := {|
  e_ID := ""; e_RepoID := "shop"; e_SrcID := src; e_DstID := ""; e_Kind := kind; e_DstName := "topic:" +:+ topic;
  e_FilePath := "main.go"; e_Line := 5; e_DstRepoID := ""; e_Confidence := f32_of_Z 1; e_Meta := "" |}.
Definition http_call (src dst name : string) : Edge := {|
  e_ID := ""; e_RepoID := "shop"; e_SrcID := src; e_DstID := dst; e_Kind := EdgeHTTPCall; e_DstName := name;
  e_FilePath := "main.go"; e_Line := 6; e_DstRepoID := ""; e_Confidence := ConfHigh; e_Meta := "" |}.
Definition landscape_units : list ASTUnit :=
  demo_units ++ [demo_unit "4" "mail" "function" "Send"; demo_unit "5" "pay" KindService "payments"; demo_unit "6" "docs" KindTopicChannel "refunds"].
Definition landscape_edges : list Edge :=
  demo_edges ++ [demo_edge "1" "2" EdgeRPCCall; http_call "1" "3" "http:GET /API/Rates"; http_call "1" "3" "http:GET /api/rates"; topic_call "1" EdgeProduces "orders"; topic_call "4" EdgeConsumes "orders"].
Definition landscape : Storage := memory_store landscape_units landscape_edges.
Lemma landscape_laws : StorageLaws landscape (memory_unit landscape_units).
Proof. apply memory_store_laws. repeat constructor; done. Qed.

(** The two spellings of one path are one link. *)
Lemma ServicesGraph_links_witness :
  match @ServicesGraph landscape map_to_list with
  | inr (services, links) =>
      map si_Name services = ["payments"] ∧
      map (λ l, (id_of l, sl_Count l)) links =
        [(("shop", "shop", "pay", "payments", EdgeRPCCall, ""), 2); (("shop", "shop", "pay", "payments", EdgeHTTPCall, "http:GET /api/rates"), 2)] ∧
      sorted_by link_less links ∧ NoDup (map id_of links)
  | inl _ => False
  end.
Proof.
  pose proof (@ServicesGraph_links landscape (memory_unit landscape_units) landscape_laws map_to_list (λ m, reflexivity _)) as H.
  destruct (@ServicesGraph landscape map_to_list) as [e|[services links]] eqn:E; [by vm_compute in E |].
  assert (map si_Name services = ["payments"] ∧
    map (λ l, (id_of l, sl_Count l)) links =
      [(("shop", "shop", "pay", "payments", EdgeRPCCall, ""), 2); (("shop", "shop", "pay", "payments", EdgeHTTPCall, "http:GET /api/rates"), 2)])
    as [H1 H2].
  { revert E. vm_compute. intros [= <- <-]. done. }
  destruct H as (units & edges & _ & _ & _ & Hn & Hs & _); [|split_and!; [exact H1 | exact H2 | exact Hs | exact Hn]].
  intros edges e id Hg He Hj.
  assert (forallb (λ e, match @joined landscape (memory_unit landscape_units) e with
    | Some (a, b, c, d, k, v) => forallb (λ s, negb (has_nul s)) [a; b; c; d; k] | None => true end) landscape_edges = true) as Hall
    by (vm_compute; reflexivity).
  rewrite forallb_forall in Hall. assert (e ∈ landscape_edges) as Hin%list_elem_of_In.
  { unfold landscape in Hg. cbn [GetEdges memory_store q_Limit link_opts kinds_opts] in Hg. injection Hg as <-. by apply list_elem_of_filter in He as [_ ?]. }
  specialize (Hall e Hin). rewrite Hj in Hall. destruct id as [[[[[a b] c] d] k] v]. unfold plain_id.
  apply Forall_forall. intros s Hs%list_elem_of_In. rewrite forallb_forall in Hall. by apply negb_true_iff, Hall.
Defined.

Lemma Topics_listed_witness :
  match @Topics landscape map_to_list "mail" with
  | inr topics =>
      map (λ ti, (ti_Topic ti, map n_Service (ti_Producers ti), map n_Service (ti_Consumers ti), ti_Declared ti)) topics =
        [("orders", ["shop"], ["mail"], false)] ∧ NoDup (map ti_Topic topics)
  | inl _ => False
  end.
Proof.
  pose proof (@Topics_listed landscape (memory_unit landscape_units) landscape_laws map_to_list "mail" (λ m, reflexivity _)) as H.
  destruct (@Topics landscape map_to_list "mail") as [e|topics] eqn:E; [by vm_compute in E |].
  assert (map (λ ti, (ti_Topic ti, map n_Service (ti_Producers ti), map n_Service (ti_Consumers ti), ti_Declared ti)) topics =
        [("orders", ["shop"], ["mail"], false)]) as H1.
  { revert E. vm_compute. intros [= <-]. done. }
  destruct H as (edges & declared & _ & _ & Hn & _). split; done.
Defined.
(** A declared channel that no code touches is listed too. *)
Example channel_without_code :
  (map (λ ti, (ti_Topic ti, ti_Declared ti)) <$> (match @Topics landscape map_to_list "" with inr ts => Some ts | inl _ => None end)) =
    Some [("orders", false); ("refunds", true)].
Proof. vm_compute. done. Qed.
