(* ===== verification/Trace.v ===== *)
(** * Following a parameter through the graph

    [internal/graph/trace.go]: which expressions mention a tracked identifier,
    the hops a value takes out of a unit, the bounded depth-first search over
    them, and the chains it keeps. *)

From S2P Require Import Prelude GoStrings GoStrconv GoFloat GoSort Domain Store Contract Graph.

(** ** Expressions and identifiers *)

Definition minLooseComponent : nat := 3.

(** Does one tracked identifier, of components [want], occur in an expression of
    tokens [toks]? *)
Definition ident_matches (toks : list (list string)) (want : list string) : bool :=
  match want with
  | [] => false
  | [w] =>
      if String.length w <? minLooseComponent
      then existsb (λ comps, bool_decide (comps = [w])) toks
      else existsb (λ comps, hasComponentSuffix comps want) toks
  | _ => existsb (λ comps, hasComponentSuffix comps want) toks
  end.

Definition exprMatchesDirect (expr : string) (tracked : list string) : bool :=
  let toks := TokenComponents expr in
  match toks with
  | [] => false
  | _ => existsb (λ t, ident_matches toks (WordComponents t)) tracked
  end.

Definition maxAliasDepth : nat := 4.
Definition maxAliasTokens : nat := 32.

(** The state of the alias walk: tokens seen and counted. *)
Record alias_walk := { aw_visited : gset string; aw_considered : nat }.

(** One level of the walk: an answer, or the tokens of the next level. *)
Fixpoint alias_level (tracked : list string) (aliases : gmap string string) (frontier next : list string)
    (st : alias_walk) : bool + (list string * alias_walk) :=
  match frontier with
  | [] => inr (next, st)
  | tok :: r =>
      if bool_decide (tok ∈ aw_visited st) then alias_level tracked aliases r next st
      else
        let st := {| aw_visited := {[tok]} ∪ aw_visited st; aw_considered := S (aw_considered st) |} in
        if maxAliasTokens <? aw_considered st then inl false
        else match aliases !! tok with
             | None => alias_level tracked aliases r next st
             | Some src =>
                 if exprMatchesDirect src tracked then inl true
                 else alias_level tracked aliases r (next ++ IdentTokens src) st
             end
  end.

Fixpoint alias_levels (levels : nat) (tracked : list string) (aliases : gmap string string) (frontier : list string)
    (st : alias_walk) : bool :=
  match levels, frontier with
  | O, _ | _, [] => false
  | S levels, _ =>
      match alias_level tracked aliases frontier [] st with
      | inl answer => answer
      | inr (next, st) => alias_levels levels tracked aliases next st
      end
  end.

Definition exprMatchesAliased (expr : string) (tracked : list string) (aliases : gmap string string) : bool :=
  if exprMatchesDirect expr tracked then true
  else if bool_decide (aliases = ∅) then false
  else alias_levels maxAliasDepth tracked aliases (IdentTokens expr) {| aw_visited := ∅; aw_considered := 0 |}.

Definition exprMatches (expr : string) (tracked : list string) : bool := exprMatchesAliased expr tracked ∅.

(** [matchingArgAliased]: [None] is the code's -1. *)
Fixpoint first_match (f : string → bool) (i : nat) (args : list string) : option nat :=
  match args with
  | [] => None
  | a :: r => if f a then Some i else first_match f (S i) r
  end.
Definition matchingArgAliased (args tracked : list string) (aliases : gmap string string) : option nat :=
  first_match (λ a, exprMatchesAliased a tracked aliases) 0 args.

(** The fields of a map, whatever order it is iterated in: they are sorted. *)
Definition matchingFieldsAliased (fields : gmap string string) (tracked : list string)
    (aliases : gmap string string) : list string :=
  SortStrings (map fst (filter (λ kv, exprMatchesAliased (snd kv) tracked aliases = true) (map_to_list fields))).

Definition normAll (ids : list string) : list string := SortStrings (map NormIdent ids).

(** ** Chains *)

Record TraceStep := {
  ts_Unit : ASTUnit;
  ts_Service : string;
  ts_Tracked : list string;
  ts_Via : string;
  ts_Note : string;
  ts_Line : Z;
  ts_Confidence : f32
}.

Record traceChain := { tc_steps : list TraceStep; tc_truncated : bool }.

Definition crossing (s : TraceStep) : bool :=
  String.eqb (ts_Via s) EdgeRPCCall || String.eqb (ts_Via s) EdgeHTTPCall || String.eqb (ts_Via s) EdgeKafkaFlow.
Definition crossings (path : list TraceStep) : nat := length (filter (λ s, crossing s = true) path).

Definition betterChain (a b : list TraceStep) : bool :=
  match b with
  | [] => true
  | _ => if crossings a =? crossings b then length b <? length a else crossings b <? crossings a
  end.

Definition betterTraceChain (a b : traceChain) : bool :=
  if eqb (tc_truncated a) (tc_truncated b) then betterChain (tc_steps a) (tc_steps b)
  else negb (tc_truncated a).

Definition step_key (s : TraceStep) : string := u_ID (ts_Unit s) +:+ "|" +:+ Join (normAll (ts_Tracked s)) ",".
Definition chainKey (path : list TraceStep) : string := Join (map step_key path) ">".

Definition set_note (s : TraceStep) (note : string) : TraceStep := {|
  ts_Unit := ts_Unit s; ts_Service := ts_Service s; ts_Tracked := ts_Tracked s; ts_Via := ts_Via s;
  ts_Note := note; ts_Line := ts_Line s; ts_Confidence := ts_Confidence s |}.

(** [withNote]: the last step is copied. *)
Fixpoint withNote (path : list TraceStep) (note : string) : list TraceStep :=
  match path with
  | [] => []
  | [s] => [set_note s (if String.eqb (ts_Note s) "" then note else ts_Note s +:+ " (" +:+ note +:+ ")")]
  | s :: r => s :: withNote r note
  end.

Fixpoint isPrefixChain (a b : list TraceStep) : bool :=
  match a, b with
  | [], _ => true
  | _, [] => false
  | x :: a, y :: b =>
      String.eqb (u_ID (ts_Unit x)) (u_ID (ts_Unit y)) &&
      String.eqb (Join (normAll (ts_Tracked x)) ",") (Join (normAll (ts_Tracked y)) ",") &&
      isPrefixChain a b
  end.

(** ** The tracer *)

Definition maxAlternatives : nat := 4.
Definition maxExpansions : nat := 5000.
Definition maxCompletedChains : nat := 64.
Definition noteDepthLimit : string := "truncated: depth limit reached".
Definition noteBudgetLimit : string := "truncated: expansion budget exhausted".

Record tracer := {
  t_ld : loader;
  t_expansions : nat;
  t_onPath : gset string;
  t_seen : gset string;
  t_edges : gmap string (list Edge);
  t_discovered : nat;
  t_completed : list traceChain;
  t_err : option StoreError
}.

Definition new_tracer (ld : loader) : tracer := {|
  t_ld := ld; t_expansions := 0; t_onPath := ∅; t_seen := ∅; t_edges := ∅; t_discovered := 0;
  t_completed := []; t_err := None |}.

(** The updates of the search state, of the store caches, and of the chains. *)
Definition set_search (t : tracer) (expansions : nat) (onPath : gset string) : tracer := {|
  t_ld := t_ld t; t_expansions := expansions; t_onPath := onPath; t_seen := t_seen t; t_edges := t_edges t;
  t_discovered := t_discovered t; t_completed := t_completed t; t_err := t_err t |}.
Definition set_caches (t : tracer) (ld : loader) (edges : gmap string (list Edge)) (err : option StoreError) : tracer := {|
  t_ld := ld; t_expansions := t_expansions t; t_onPath := t_onPath t; t_seen := t_seen t; t_edges := edges;
  t_discovered := t_discovered t; t_completed := t_completed t; t_err := err |}.
Definition set_chains (t : tracer) (seen : gset string) (discovered : nat) (completed : list traceChain) : tracer := {|
  t_ld := t_ld t; t_expansions := t_expansions t; t_onPath := t_onPath t; t_seen := seen; t_edges := t_edges t;
  t_discovered := discovered; t_completed := completed; t_err := t_err t |}.

(** The index of the worst chain, the first of those that tie. *)
Fixpoint worst_from (worst : nat) (w : traceChain) (i : nat) (l : list traceChain) : nat * traceChain :=
  match l with
  | [] => (worst, w)
  | c :: r => if betterTraceChain w c then worst_from i c (S i) r else worst_from worst w (S i) r
  end.

Definition keep_chain (completed : list traceChain) (chain : traceChain) : list traceChain :=
  if length completed <? maxCompletedChains then completed ++ [chain]
  else match completed with
       | [] => completed
       | c0 :: r =>
           let '(worst, w) := worst_from 0 c0 1 r in
           if betterTraceChain chain w then <[worst := chain]> completed else completed
       end.

Definition finish (path : list TraceStep) (limit : string) (t : tracer) : tracer :=
  if length path <=? 1 then t
  else
    let key := chainKey path in
    if bool_decide (key ∈ t_seen t) then t
    else
      let chain :=
        if String.eqb limit "" then {| tc_steps := path; tc_truncated := false |}
        else {| tc_steps := withNote path limit; tc_truncated := true |} in
      set_chains t ({[key]} ∪ t_seen t) (S (t_discovered t)) (keep_chain (t_completed t) chain).

(** ** Hops *)

Record hop := { h_edge : Edge; h_unit : ASTUnit; h_tracked : list string; h_note : string; h_factor : f32 }.

(** A candidate hop: the unit it leads to, by id, and what it carries there. *)
Abbreviation candidate := (string * (ASTUnit → hop))%type.

Definition one_f32 : f32 := f32_of_Z 1.

(** Contracts expand by structure: to their implementations and handlers. *)
Definition impl_hop (u : ASTUnit) (tracked : list string) (e : Edge) : option candidate :=
  Some (e_SrcID e, λ v, {| h_edge := e; h_unit := v; h_tracked := tracked;
    h_note := "server implementation of " +:+ u_Qualified u; h_factor := one_f32 |}).
Definition handler_hop (u : ASTUnit) (tracked : list string) (e : Edge) : option candidate :=
  if String.eqb (e_DstID e) "" then None
  else Some (e_DstID e, λ v, {| h_edge := e; h_unit := v; h_tracked := tracked;
    h_note := "handler for " +:+ u_Qualified u; h_factor := one_f32 |}).
Definition reader_hop (u : ASTUnit) (tracked : list string) (e : Edge) : option candidate :=
  if String.eqb (e_SrcID e) "" then None
  else Some (e_SrcID e, λ v, {| h_edge := e; h_unit := v; h_tracked := tracked;
    h_note := "read from table " +:+ TrimKind (u_Qualified u) KindDB +:+ " column " +:+ Join tracked ", ";
    h_factor := ConfWeak |}).

(** The fields that carry a tracked value over an edge; the tracked identifiers
    themselves, at less confidence, when only an argument does. *)
Definition carried (meta : EdgeMeta) (tracked : list string) (weaker : f32) : option (list string * f32) :=
  match matchingFieldsAliased (em_Fields meta) tracked (em_Aliases meta) with
  | [] =>
      match matchingArgAliased (em_Args meta) tracked (em_Aliases meta) with
      | None => None
      | Some _ => Some (tracked, weaker)
      end
  | fields => Some (fields, one_f32)
  end.

(** The hop an edge out of a code unit offers a tracked value. *)
Definition edge_hop (tracked : list string) (e : Edge) : option candidate :=
  let meta := DecodeEdgeMeta (e_Meta e) in
  if String.eqb (e_DstID e) "" then None
  else if String.eqb (e_Kind e) EdgeCall then
    match matchingArgAliased (em_Args meta) tracked (em_Aliases meta) with
    | None => None
    | Some argIdx =>
        Some (e_DstID e, λ callee,
          let params := ParamNames (u_Language callee) (u_Signature callee) in
          {| h_edge := e; h_unit := callee;
             h_tracked := match params !! argIdx with Some p => [p] | None => tracked end;
             h_note := "passed as argument " +:+ nth argIdx (em_Args meta) "" +:+ " to " +:+ u_Name callee;
             h_factor := one_f32 |})
    end
  else if String.eqb (e_Kind e) EdgeRPCCall || String.eqb (e_Kind e) EdgeHTTPCall then
    match carried meta tracked ConfHeuristic with
    | None => None
    | Some (fields, factor) =>
        Some (e_DstID e, λ dst, {| h_edge := e; h_unit := dst; h_tracked := fields; h_factor := factor;
          h_note := if String.eqb (e_Kind e) EdgeHTTPCall
            then "sent via HTTP " +:+ em_Method meta +:+ " " +:+ em_Path meta +:+ " field " +:+ Join fields ", "
            else "sent via gRPC field " +:+ Join fields ", " |})
    end
  else if String.eqb (e_Kind e) EdgeKafkaFlow then
    let '(fields, factor) :=
      match matchingFieldsAliased (em_Fields meta) tracked (em_Aliases meta) with
      | [] => (tracked, ConfWeak)
      | fields => (fields, one_f32)
      end in
    Some (e_DstID e, λ dst, {| h_edge := e; h_unit := dst; h_tracked := fields; h_factor := factor;
      h_note := "published to Kafka topic " +:+ TrimKind (e_DstName e) KindTopic +:+ " as " +:+ Join fields ", " |})
  else if String.eqb (e_Kind e) EdgeWritesTo then
    match carried meta tracked ConfWeak with
    | None => None
    | Some (columns, factor) =>
        Some (e_DstID e, λ dst, {| h_edge := e; h_unit := dst; h_tracked := columns; h_factor := factor;
          h_note := "written to table " +:+ TrimKind (e_DstName e) KindDB +:+ " column " +:+ Join columns ", " |})
    end
  else None.

(** ** The walk *)

Section Trace.
  Context {S : Storage}.

Definition far_id (opts : QueryOpts) (e : Edge) : string :=
  if String.eqb (q_SrcID opts) "" then e_SrcID e else e_DstID e.

Definition edgesOf (key : string) (opts : QueryOpts) (t : tracer) : list Edge * tracer :=
  match t_edges t !! key with
  | Some edges => (edges, t)
  | None =>
      let '(edges, err) :=
        match GetEdges opts with
        | inr edges => (edges, t_err t)
        | inl e => ([], match t_err t with None => Some e | Some e0 => Some e0 end)
        end in
      let '(loaded, ld) := unitsByIDs (map (far_id opts) edges) (t_ld t) in
      match loaded with
      | inl _ => (edges, set_caches t ld (t_edges t) err)
      | inr _ => (edges, set_caches t ld (<[key := edges]> (t_edges t)) err)
      end
  end.

Definition outEdges (unitID kind : string) : tracer → list Edge * tracer :=
  edgesOf ("out|" +:+ kind +:+ "|" +:+ unitID) (edge_opts unitID "" kind).
Definition reverseEdges (unitID kind : string) : tracer → list Edge * tracer :=
  edgesOf ("in|" +:+ kind +:+ "|" +:+ unitID) (edge_opts "" unitID kind).

Definition unitByID (id : string) (t : tracer) : option ASTUnit * tracer :=
  let '(r, ld) := loader_unit id (t_ld t) in
  (match r with inr u => Some u | inl _ => None end, set_caches t ld (t_edges t) (t_err t)).

(** The hops of the candidates whose unit is there. *)
Fixpoint take_hops (offer : Edge → option candidate) (edges : list Edge) (t : tracer) : list hop * tracer :=
  match edges with
  | [] => ([], t)
  | e :: r =>
      match offer e with
      | None => take_hops offer r t
      | Some (id, mk) =>
          let '(u, t) := unitByID id t in
          let '(hops, t) := take_hops offer r t in
          (match u with Some u => mk u :: hops | None => hops end, t)
      end
  end.

(** [tableReaders]: one hop per reading unit. *)
Fixpoint take_readers (u : ASTUnit) (tracked : list string) (seen : gset string) (edges : list Edge) (t : tracer)
    : list hop * tracer :=
  match edges with
  | [] => ([], t)
  | e :: r =>
      match reader_hop u tracked e with
      | None => take_readers u tracked seen r t
      | Some (id, mk) =>
          if bool_decide (id ∈ seen) then take_readers u tracked seen r t
          else
            let '(v, t) := unitByID id t in
            match v with
            | None => take_readers u tracked seen r t
            | Some v => let '(hops, t) := take_readers u tracked ({[id]} ∪ seen) r t in (mk v :: hops, t)
            end
      end
  end.

Definition tableReaders (u : ASTUnit) (tracked : list string) (t : tracer) : list hop * tracer :=
  let '(edges, t) := reverseEdges (u_ID u) EdgeReadsFrom t in
  take_readers u tracked ∅ edges t.

Definition expand_hops (u : ASTUnit) (tracked : list string) (t : tracer) : list hop * tracer :=
  if String.eqb (u_Kind u) KindRPCMethod then
    let '(edges, t) := reverseEdges (u_ID u) EdgeImplementsRPC t in take_hops (impl_hop u tracked) edges t
  else if String.eqb (u_Kind u) KindHTTPRoute then
    let '(edges, t) := outEdges (u_ID u) EdgeHandledBy t in take_hops (handler_hop u tracked) edges t
  else if String.eqb (u_Kind u) KindDBTable then tableReaders u tracked t
  else let '(edges, t) := outEdges (u_ID u) "" t in take_hops (edge_hop tracked) edges t.

Definition service_label (u : ASTUnit) (t : tracer) : string * tracer :=
  let '(r, ld) := serviceForUnit u (t_ld t) in
  (match r with inr svc => svc | inl _ => "" end, set_caches t ld (t_edges t) (t_err t)).

Definition hop_step (h : hop) (svc : string) (conf : f32) : TraceStep := {|
  ts_Unit := h_unit h; ts_Service := svc; ts_Tracked := h_tracked h; ts_Via := e_Kind (h_edge h);
  ts_Note := h_note h; ts_Line := e_Line (h_edge h);
  ts_Confidence := f32_mul (f32_mul conf (e_Confidence (h_edge h))) (h_factor h) |}.

Definition visit_key (u : ASTUnit) (tracked : list string) : string :=
  u_ID u +:+ "|" +:+ Join (normAll tracked) ",".

(** [dfs], one level of the path for each unit of fuel: the depth limit is
    reached before the fuel is. *)
Fixpoint dfs (fuel maxDepth : nat) (u : ASTUnit) (tracked : list string) (path : list TraceStep) (conf : f32)
    (t : tracer) : tracer :=
  if maxDepth <? length path then finish path noteDepthLimit t
  else
    let key := visit_key u tracked in
    if bool_decide (key ∈ t_onPath t) then finish path "" t
    else if maxExpansions <=? t_expansions t then finish path noteBudgetLimit t
    else
      let t := set_search t (Datatypes.S (t_expansions t)) (t_onPath t) in
      let '(hops, t) := expand_hops u tracked t in
      match hops with
      | [] => finish path "" t
      | _ =>
          match fuel with
          | O => t
          | Datatypes.S fuel =>
              let t := set_search t (t_expansions t) ({[key]} ∪ t_onPath t) in
              let t := foldl (λ t h,
                let '(svc, t) := service_label (h_unit h) t in
                let s := hop_step h svc conf in
                dfs fuel maxDepth (h_unit h) (h_tracked h) (path ++ [s]) (ts_Confidence s) t) t hops in
              set_search t (t_expansions t) (t_onPath t ∖ {[key]})
          end
      end.

(** ** The query *)

Record TraceResult := {
  tr_Param : string;
  tr_Steps : list TraceStep;
  tr_Alternatives : list (list TraceStep);
  tr_Chains : nat
}.

Definition trace_depth (maxDepth : Z) : nat :=
  Z.to_nat (if ((maxDepth <=? 0) || (24 <? maxDepth))%Z then 16 else maxDepth).

Definition start_trace (u : ASTUnit) (svc param : string) : TraceStep := {|
  ts_Unit := u; ts_Service := svc; ts_Tracked := [param]; ts_Via := ""; ts_Note := "start: parameter " +:+ param;
  ts_Line := 0; ts_Confidence := one_f32 |}.

(** The loop over the other chains. *)
Fixpoint alternatives (best : list TraceStep) (kept : list (list TraceStep)) (chains : list traceChain)
    : list (list TraceStep) :=
  match chains with
  | [] => kept
  | c :: r =>
      if maxAlternatives <=? length kept then kept
      else if isPrefixChain (tc_steps c) best then alternatives best kept r
      else alternatives best (kept ++ [tc_steps c]) r
  end.

Definition Trace (repoID symbol param : string) (maxDepth : Z) : Fallible TraceResult :=
  match FindUnit repoID symbol with
  | inl e => inl e
  | inr u =>
      let depth := trace_depth maxDepth in
      let '(svc, t) := service_label u (new_tracer newLoader) in
      let start := start_trace u svc param in
      let t := dfs (Datatypes.S depth) depth u [param] [start] one_f32 t in
      match t_err t with
      | Some e => inl e
      | None =>
          match SliceSort betterTraceChain (t_completed t) with
          | [] => inr {| tr_Param := param; tr_Steps := [start]; tr_Alternatives := []; tr_Chains := t_discovered t |}
          | best :: rest =>
              inr {| tr_Param := param; tr_Steps := tc_steps best;
                     tr_Alternatives := alternatives (tc_steps best) [] rest; tr_Chains := t_discovered t |}
          end
      end
  end.

End Trace.
