(* ===== verification/TraceFacts.v ===== *)
(** * What a trace promises

    The search ends by its depth limit, and visits at most the units it has a
    budget for; every chain it keeps is a sequence of hops the store holds, the
    chain it answers with is the best of all it discovered. *)

From S2P Require Import Prelude GoStrings GoFloat GoSort Domain Store Contract Graph GraphFacts GraphContext Trace.
From Stdlib Require Import Strings.Ascii Sorting.Sorted.

(** ** The depth limit ends the search *)

Lemma foldl_ext_all {A B} (f g : A → B → A) (l : list B) a :
  (∀ a b, f a b = g a b) → foldl f a l = foldl g a l.
Proof. intros H. revert a. induction l as [|b l IH]; intros a; simpl; [done |]. by rewrite H, IH. Qed.

Lemma dfs_enough {S : Storage} fuel maxDepth u tracked path conf t :
  maxDepth < length path + fuel →
  dfs fuel maxDepth u tracked path conf t = dfs (Datatypes.S fuel) maxDepth u tracked path conf t.
Proof.
  revert u tracked path conf t. induction fuel as [|fuel IH]; intros u tracked path conf t Hd.
  { cbn [dfs]. rewrite (proj2 (Nat.ltb_lt _ _)) by lia. done. }
  remember (Datatypes.S fuel) as n eqn:En. rewrite En at 1. cbn [dfs].
  destruct (maxDepth <? length path); [done |].
  destruct (bool_decide _); [done |]. destruct (maxExpansions <=? t_expansions t); [done |].
  destruct (expand_hops _ _ _) as [[|h hops] t']; [done |].
  erewrite foldl_ext_all; [reflexivity |]. intros t0 h0. cbv beta. destruct (service_label _ _) as [svc t1].
  apply IH. rewrite length_app. simpl. lia.
Qed.

(** A trace ends by its own depth limit. No unit of fuel beyond the limit is
    ever used: more of it gives the same walk, chains, errors and caches. *)
Theorem trace_depth_bound {S : Storage} maxDepth extra u tracked s conf t :
  dfs (Datatypes.S maxDepth + extra) maxDepth u tracked [s] conf t
  = dfs (Datatypes.S maxDepth) maxDepth u tracked [s] conf t.
Proof.
  induction extra as [|extra IH]; [by rewrite Nat.add_0_r |].
  rewrite <- IH, <- plus_n_Sm. symmetry. apply dfs_enough. simpl. lia.
Qed.

(** ** Keeping the best chains *)

Definition proper_chain (c : traceChain) : Prop := tc_steps c ≠ [].

(** How good a chain is: reaching a sink, then crossings, then length. *)
Definition chain_rank (c : traceChain) : nat * (nat * nat) :=
  ((if tc_truncated c then 0 else 1), (crossings (tc_steps c), length (tc_steps c))).

Definition rank_lt (a b : nat * (nat * nat)) : Prop :=
  a.1 < b.1 ∨ (a.1 = b.1 ∧ (a.2.1 < b.2.1 ∨ (a.2.1 = b.2.1 ∧ a.2.2 < b.2.2))).

Lemma better_rank a b :
  proper_chain b → betterTraceChain a b = true ↔ rank_lt (chain_rank b) (chain_rank a).
Proof.
  unfold proper_chain, betterTraceChain, betterChain, rank_lt, chain_rank. intros Hb.
  destruct (tc_steps b) as [|s r] eqn:E; [done |]. rewrite <- E. cbn [fst snd].
  destruct (tc_truncated a), (tc_truncated b); simpl; try (split; [by auto with lia | intros; lia]);
    (destruct (Nat.eqb_spec (crossings (tc_steps a)) (crossings (tc_steps b))) as [Hc|Hc];
     rewrite Nat.ltb_lt; lia).
Qed.

Lemma better_swo : SwoOn proper_chain betterTraceChain.
Proof.
  split.
  - intros x Hx. destruct (betterTraceChain x x) eqn:E; [|done]. apply better_rank in E; [|done].
    unfold rank_lt in E. lia.
  - intros x y z Hx Hy Hz H1 H2. apply better_rank; [done |].
    apply better_rank in H1; [|done]. apply better_rank in H2; [|done]. unfold rank_lt in *. lia.
  - intros x y z Hx Hy Hz H. apply better_rank in H; [|done].
    rewrite !better_rank by done. unfold rank_lt in *. lia.
Qed.

Lemma worst_from_spec worst w i l pre :
  proper_chain w → Forall proper_chain l → length pre = i → pre !! worst = Some w →
  Forall (λ c, betterTraceChain w c = false) pre → Forall proper_chain pre →
  let '(k, c) := worst_from worst w i l in
  (pre ++ l) !! k = Some c ∧ Forall (λ d, betterTraceChain c d = false) (pre ++ l).
Proof.
  revert worst w i pre. induction l as [|c l IH]; intros worst w i pre Hw Hl Hi Hlk Hb Hp; cbn [worst_from].
  { by rewrite app_nil_r. }
  inversion Hl as [|? ? Hc Hl']; subst. rewrite cons_middle, app_assoc.
  pose proof better_swo as Hswo.
  destruct (betterTraceChain w c) eqn:E.
  - apply IH; try done.
    + rewrite length_app. simpl. lia.
    + by rewrite lookup_app_r, Nat.sub_diag by lia.
    + apply Forall_app. split; [|constructor; [by apply swo_irrefl | constructor]].
      rewrite Forall_forall in Hb, Hp |- *. intros d Hd. destruct (betterTraceChain c d) eqn:Ed; [|done].
      rewrite <- (Hb d Hd). symmetry. by apply (swo_trans w c d); auto.
    + apply Forall_app. split; [done | by constructor].
  - apply IH; try done.
    + rewrite length_app. simpl. lia.
    + rewrite lookup_app_l; [done | by eapply lookup_lt_Some].
    + apply Forall_app. split; [done | by constructor].
    + apply Forall_app. split; [done | by constructor].
Qed.

(** The chains kept of those discovered. *)
Definition kept (all : list traceChain) : list traceChain := foldl keep_chain [] all.

(** What is kept of [all]: chains of it, no more than the limit, and nothing
    left out is better than anything kept. *)
Record keeps (all completed : list traceChain) : Prop := {
  k_sub c : c ∈ completed → c ∈ all;
  k_len : length completed = Nat.min (length all) maxCompletedChains;
  k_best c : c ∈ all → c ∈ completed ∨
    (length completed = maxCompletedChains ∧ Forall (λ d, betterTraceChain c d = false) completed)
}.

Lemma keeps_nil : keeps [] [].
Proof. split; [done | done | set_solver]. Qed.

Lemma elem_of_insert_cases {A} (l : list A) k (x y : A) :
  y ∈ <[k := x]> l → y = x ∨ y ∈ l.
Proof.
  rewrite !list_elem_of_lookup. intros [j Hj]. apply list_lookup_insert_Some in Hj as [(_ & <- & _)|[_ Hj]]; eauto.
Qed.

Lemma keep_chain_full all completed c :
  Forall proper_chain (c :: all) → keeps all completed → length completed = maxCompletedChains →
  keeps (all ++ [c]) (keep_chain completed c).
Proof.
  intros HP [H1 H2 H3] Hfull. inversion HP as [|? ? Hc Hall]; subst.
  assert (Forall proper_chain completed) as Hcomp by (rewrite Forall_forall in Hall |- *; auto).
  pose proof better_swo as Hswo. rewrite Forall_forall in Hall.
  unfold keep_chain. rewrite Hfull, Nat.ltb_irrefl. destruct completed as [|c0 r]; [done |].
  inversion Hcomp as [|? ? Hc0 Hr]; subst.
  pose proof (worst_from_spec 0 c0 1 r [c0] Hc0 Hr eq_refl eq_refl) as Hw.
  specialize (Hw ltac:(constructor; [by apply swo_irrefl | constructor]) ltac:(by constructor)).
  destruct (worst_from 0 c0 1 r) as [k w]. change ([c0] ++ r) with (c0 :: r) in Hw.
  destruct Hw as [Hk Hworst]. set (completed := c0 :: r) in *.
  assert (w ∈ completed) as Hwin by by eapply list_elem_of_lookup_2.
  rewrite Forall_forall in Hcomp, Hworst.
  destruct (betterTraceChain c w) eqn:E; split.
  - intros d Hd. apply elem_of_app. apply elem_of_insert_cases in Hd as [->|Hd]; [right; by left | left; auto].
  - rewrite length_insert, length_app. cbn [length]. lia.
  - assert (c ∈ <[k:=c]> completed) as Hcin.
    { eapply list_elem_of_lookup_2. apply list_lookup_insert_eq. by eapply lookup_lt_Some. }
    assert (∀ d, proper_chain d → (∀ e, e ∈ completed → betterTraceChain d e = false) → betterTraceChain d c = false →
              Forall (λ e, betterTraceChain d e = false) (<[k:=c]> completed)) as Hf.
    { intros d Hd Hde Hdc. apply Forall_forall. intros e He. apply elem_of_insert_cases in He as [->|He]; auto. }
    intros d [Hd|Hd%list_elem_of_singleton]%elem_of_app; [|subst; by left].
    destruct (H3 d Hd) as [Hin|[_ Hb]].
    + apply list_elem_of_lookup in Hin as [j Hj]. destruct (decide (j = k)) as [->|Hne].
      * right. rewrite length_insert. split; [done |]. assert (d = w) as -> by congruence.
        apply Hf; auto. by apply (swo_asym proper_chain); auto.
      * left. apply (list_elem_of_lookup_2 _ j). by rewrite list_lookup_insert_ne.
    + right. rewrite length_insert. split; [done |]. rewrite Forall_forall in Hb. apply Hf; auto.
      destruct (betterTraceChain d c) eqn:Ed; [|done].
      rewrite <- (Hb w Hwin). symmetry. by apply (swo_trans d c w); auto.
  - intros d Hd. apply elem_of_app. left. auto.
  - rewrite length_app. cbn [length]. lia.
  - intros d [Hd|Hd%list_elem_of_singleton]%elem_of_app; [by apply H3 |]. subst d. right. split; [done |].
    apply Forall_forall. intros e He. destruct (betterTraceChain c e) eqn:Ee; [|done].
    destruct (swo_cotrans c w e Hc (Hcomp w Hwin) (Hcomp e He) Ee) as [Hx|Hx]; [congruence |].
    by rewrite (Hworst e He) in Hx.
Qed.

Lemma keep_chain_keeps all completed c :
  Forall proper_chain (c :: all) → keeps all completed → keeps (all ++ [c]) (keep_chain completed c).
Proof.
  intros HP Hk. destruct (Nat.ltb_spec (length completed) maxCompletedChains) as [Hlt|Hge].
  2: { apply keep_chain_full; [done | done |]. pose proof (k_len _ _ Hk). lia. }
  unfold keep_chain. rewrite (proj2 (Nat.ltb_lt _ _)) by done. destruct Hk as [H1 H2 H3]. split.
  - intros d. rewrite !elem_of_app. set_solver.
  - rewrite !length_app. cbn [length]. lia.
  - intros d Hd. left. rewrite elem_of_app in Hd |- *. destruct Hd as [Hd|Hd]; [|by right].
    left. destruct (H3 d Hd) as [?|[? _]]; [done | lia].
Qed.

Lemma kept_are_best_of all : Forall proper_chain all → keeps all (kept all).
Proof.
  induction all as [|c all IH] using rev_ind; [intros _; apply keeps_nil |].
  intros H. apply Forall_app in H as [Hall Hc]. unfold kept. rewrite foldl_app. simpl.
  apply keep_chain_keeps; [|by apply IH]. constructor; [by inversion Hc | done].
Qed.

(** A highly branched graph cannot bury the answer. Of the chains discovered,
    in whatever order, at most 64 are kept; while there are no more than that all
    are, and afterwards no chain left out is better than any chain kept: a chain
    that reached a sink before a truncated one, then more service boundaries
    crossed, then more hops. *)
Theorem kept_are_best all :
  Forall proper_chain all → keeps all (kept all).
Proof. apply kept_are_best_of. Qed.

(** ** The store behind the walk *)

Section Laws.
  Context {S : Storage} {unit_of : string → option ASTUnit} `{!StorageLaws S unit_of}.

(** What a unit offers a value: the edges that may carry it on and how. *)
Definition offers (u : ASTUnit) (tracked : list string) : (Edge → option candidate) * QueryOpts :=
  if String.eqb (u_Kind u) KindRPCMethod then (impl_hop u tracked, edge_opts "" (u_ID u) EdgeImplementsRPC)
  else if String.eqb (u_Kind u) KindHTTPRoute then (handler_hop u tracked, edge_opts (u_ID u) "" EdgeHandledBy)
  else if String.eqb (u_Kind u) KindDBTable then (reader_hop u tracked, edge_opts "" (u_ID u) EdgeReadsFrom)
  else (edge_hop tracked, edge_opts (u_ID u) "" "").

(** A hop the store holds: an edge of the unit that carries the value, to a unit
    that is there. *)
Definition hop_from (u : ASTUnit) (tracked : list string) (h : hop) : Prop :=
  ∃ es e id mk v, GetEdges (snd (offers u tracked)) = inr es ∧ e ∈ es ∧
    fst (offers u tracked) e = Some (id, mk) ∧ unit_of id = Some v ∧ h = mk v.

(** The store answers every read. *)
Definition answers : Prop :=
  reliable ∧ ∀ id e, GetASTUnitByID id = inl e → e = ErrNotFound.

Definition edges_read (o : QueryOpts) (es : list Edge) : Prop :=
  GetEdges o = inr es ∨ (es = [] ∧ ∃ e, GetEdges o = inl e).

Definition no_bar (s : string) : Prop := ContainsByte "|" s = false.

Record caches_true (t : tracer) : Prop := {
  ct_loader : loader_ok (unit_of:=unit_of) (t_ld t);
  ct_out id kind es : no_bar kind → t_edges t !! ("out|" +:+ kind +:+ "|" +:+ id) = Some es →
    edges_read (edge_opts id "" kind) es;
  ct_in id kind es : no_bar kind → t_edges t !! ("in|" +:+ kind +:+ "|" +:+ id) = Some es →
    edges_read (edge_opts "" id kind) es;
  ct_err e : t_err t = Some e → store_error e
}.

(** What the caches do not touch. *)
Definition search_of (t : tracer) := (t_expansions t, t_onPath t, t_seen t, t_discovered t, t_completed t).

Lemma key_inj k k' i i' : no_bar k → no_bar k' → k +:+ "|" +:+ i = k' +:+ "|" +:+ i' → k = k' ∧ i = i'.
Proof.
  intros Hk Hk' E. unfold no_bar, ContainsByte in *.
  change ("|" +:+ ?x) with (String "|" x) in E.
  assert (∀ k i, ContainsFunc (Ascii.eqb "|") k = false →
            Cut (Ascii.eqb "|") (k +:+ String "|" i) = (k, Some i)) as H.
  { intros k0 i0 H0. apply Cut_app; [by apply ContainsFunc_false | done]. }
  pose proof (H k i Hk) as H1. rewrite E, H in H1 by done. by injection H1 as -> ->.
Qed.

Lemma edgesOf_ok key o t :
  caches_true t → (∀ es, t_edges t !! key = Some es → edges_read o es) →
  (∀ t', t_edges t' = t_edges t → caches_true t' → ∀ es, edges_read o es →
     caches_true (set_caches t' (t_ld t') (<[key := es]> (t_edges t')) (t_err t'))) →
  let '(es, t') := edgesOf key o t in edges_read o es ∧ caches_true t' ∧ search_of t' = search_of t.
Proof.
  intros Ht Hmemo Hins. unfold edgesOf. destruct (t_edges t !! key) as [es|] eqn:E; [by auto |].
  assert (∃ es err, (match GetEdges o with
     | inr edges => (edges, t_err t)
     | inl e => ([], match t_err t with None => Some e | Some e0 => Some e0 end)
     end) = (es, err) ∧ edges_read o es ∧ (∀ e, err = Some e → store_error e)) as (es & err & -> & Hes & Herr).
  { destruct (GetEdges o) as [e|es] eqn:Eo.
    - eexists _, _. split_and!; [done | right; eauto |]. intros e' H. destruct (t_err t) as [e0|] eqn:E0.
      + injection H as <-. by apply (ct_err t Ht).
      + injection H as <-. left. eauto.
    - eexists _, _. split_and!; [done | by left | apply (ct_err t Ht)]. }
  pose proof (runs_unitsByIDs (map (far_id o) es) (t_ld t) (ct_loader t Ht)) as Hl. unfold runs in Hl.
  destruct (unitsByIDs _ _) as [r ld]. destruct Hl as [Hld _].
  assert (caches_true (set_caches t ld (t_edges t) err)) as Ht'
    by (split; [done | apply (ct_out t Ht) | apply (ct_in t Ht) | done]).
  destruct r; split_and!; try done. by apply (Hins (set_caches t ld (t_edges t) err)).
Qed.

Lemma outEdges_ok id kind t :
  caches_true t → no_bar kind →
  let '(es, t') := outEdges id kind t in
  edges_read (edge_opts id "" kind) es ∧ caches_true t' ∧ search_of t' = search_of t.
Proof.
  intros Ht Hk. apply edgesOf_ok; [done | intros es; by apply (ct_out t Ht) |].
  intros t' _ Ht' es Hes. split; [apply Ht' | | | apply Ht']; simpl; intros id' kind' es' Hk' H.
  - apply lookup_insert_Some in H as [[E <-]|[_ H]]; [|by apply (ct_out t' Ht')].
    injection E as E. by apply key_inj in E as [-> ->].
  - apply lookup_insert_Some in H as [[E _]|[_ H]]; [done | by apply (ct_in t' Ht')].
Qed.

Lemma reverseEdges_ok id kind t :
  caches_true t → no_bar kind →
  let '(es, t') := reverseEdges id kind t in
  edges_read (edge_opts "" id kind) es ∧ caches_true t' ∧ search_of t' = search_of t.
Proof.
  intros Ht Hk. apply edgesOf_ok; [done | intros es; by apply (ct_in t Ht) |].
  intros t' _ Ht' es Hes. split; [apply Ht' | | | apply Ht']; simpl; intros id' kind' es' Hk' H.
  - apply lookup_insert_Some in H as [[E _]|[_ H]]; [done | by apply (ct_out t' Ht')].
  - apply lookup_insert_Some in H as [[E <-]|[_ H]]; [|by apply (ct_in t' Ht')].
    injection E as E. by apply key_inj in E as [-> ->].
Qed.

Lemma unitByID_ok id t :
  caches_true t →
  let '(o, t') := unitByID id t in
  caches_true t' ∧ search_of t' = search_of t ∧
  (∀ v, o = Some v → unit_of id = Some v) ∧ (answers → o = unit_of id).
Proof.
  intros Ht. unfold unitByID. pose proof (loader_unit_ok id (t_ld t) (ct_loader t Ht)) as Hl.
  destruct (loader_unit id (t_ld t)) as [r ld]. destruct Hl as [Hld Hr].
  split_and!; [split; [done | apply (ct_out t Ht) | apply (ct_in t Ht) | apply (ct_err t Ht)] | done | |].
  - destruct r; [done |]. by intros v [= <-].
  - intros [_ Ha]. destruct r as [e|u]; [|done]. destruct Hr as [He|[_ ->]]; [|done].
    pose proof (Ha id e He) as ->. by rewrite by_id_missing.
Qed.

(** [hops] are hops of the offers on [edges], and none is missed on a store that
    answers. *)
Definition hops_of (offer : Edge → option candidate) (edges : list Edge) (hops : list hop) : Prop :=
  (∀ h, h ∈ hops → ∃ e id mk v, e ∈ edges ∧ offer e = Some (id, mk) ∧ unit_of id = Some v ∧ h = mk v) ∧
  (answers → hops = [] → ∀ e id mk, e ∈ edges → offer e = Some (id, mk) → unit_of id = None).

Lemma take_hops_ok offer edges t :
  caches_true t →
  let '(hops, t') := take_hops offer edges t in
  caches_true t' ∧ search_of t' = search_of t ∧ hops_of offer edges hops.
Proof.
  revert t. induction edges as [|e edges IH]; intros t Ht; cbn [take_hops].
  { split_and!; [done | done |]. split; set_solver. }
  destruct (offer e) as [[id mk]|] eqn:Eo.
  - pose proof (unitByID_ok id t Ht) as Hu. destruct (unitByID id t) as [o t1].
    destruct Hu as (Ht1 & Hs1 & Ho & Hans). specialize (IH t1 Ht1).
    destruct (take_hops offer edges t1) as [hops t2]. destruct IH as (Ht2 & Hs2 & H1 & H2).
    split_and!; [done | by rewrite Hs2 |]. split.
    + intros h Hh. assert (h ∈ hops ∨ ∃ v, o = Some v ∧ h = mk v) as [Hh'|(v & -> & ->)].
      { destruct o as [v|]; [apply elem_of_cons in Hh as [->|?]; eauto | by left]. }
      * destruct (H1 h Hh') as (e' & id' & mk' & v & He' & H). exists e', id', mk', v. split; [by right | done].
      * exists e, id, mk, v. split_and!; [by left | done | by apply Ho | done].
    + intros Ha Hh e' id' mk' [->|He']%elem_of_cons Hoff.
      * rewrite Eo in Hoff. injection Hoff as <- <-. rewrite <- (Hans Ha). by destruct o.
      * destruct o as [v|]; [done |]. by eapply H2.
  - specialize (IH t Ht). destruct (take_hops offer edges t) as [hops t2]. destruct IH as (Ht2 & Hs2 & H1 & H2).
    split_and!; [done | done |]. split.
    + intros h Hh. destruct (H1 h Hh) as (e' & id' & mk' & v & He' & H). exists e', id', mk', v. split; [by right | done].
    + intros Ha Hh e' id' mk' [->|He']%elem_of_cons Hoff; [congruence | by eapply H2].
Qed.

Lemma take_readers_ok u tracked seen edges t :
  caches_true t →
  let '(hops, t') := take_readers u tracked seen edges t in
  caches_true t' ∧ search_of t' = search_of t ∧
  (∀ h, h ∈ hops → ∃ e id mk v, e ∈ edges ∧ reader_hop u tracked e = Some (id, mk) ∧ unit_of id = Some v ∧ h = mk v) ∧
  (answers → hops = [] → ∀ e id mk, e ∈ edges → reader_hop u tracked e = Some (id, mk) → id ∈ seen ∨ unit_of id = None).
Proof.
  revert seen t. induction edges as [|e edges IH]; intros seen t Ht; cbn [take_readers].
  { split_and!; [done | done | set_solver | set_solver]. }
  assert (∀ hops : list hop, (∀ h, h ∈ hops → ∃ e id mk v, e ∈ edges ∧ reader_hop u tracked e = Some (id, mk) ∧
            unit_of id = Some v ∧ h = mk v) →
          ∀ h, h ∈ hops → ∃ e' id mk v, e' ∈ e :: edges ∧ reader_hop u tracked e' = Some (id, mk) ∧
            unit_of id = Some v ∧ h = mk v) as Hweak.
  { intros hops H h Hh. destruct (H h Hh) as (e' & id' & mk' & v & He' & H').
    exists e', id', mk', v. split; [by right | done]. }
  destruct (reader_hop u tracked e) as [[id mk]|] eqn:Eo.
  2: { specialize (IH seen t Ht). destruct (take_readers u tracked seen edges t) as [hops t2].
       destruct IH as (Ht2 & Hs2 & H1 & H2). split_and!; [done | done | by apply Hweak |].
       intros Ha Hh e' id' mk' [->|He']%elem_of_cons Hoff; [congruence | by eapply H2]. }
  case_bool_decide as Hseen.
  { specialize (IH seen t Ht). destruct (take_readers u tracked seen edges t) as [hops t2].
    destruct IH as (Ht2 & Hs2 & H1 & H2). split_and!; [done | done | by apply Hweak |].
    intros Ha Hh e' id' mk' [->|He']%elem_of_cons Hoff; [|by eapply H2].
    rewrite Eo in Hoff. injection Hoff as <- <-. by left. }
  pose proof (unitByID_ok id t Ht) as Hu. destruct (unitByID id t) as [[v|] t1];
    destruct Hu as (Ht1 & Hs1 & Ho & Hans).
  - specialize (IH ({[id]} ∪ seen) t1 Ht1).
    destruct (take_readers u tracked ({[id]} ∪ seen) edges t1) as [hops t2]. destruct IH as (Ht2 & Hs2 & H1 & H2).
    split_and!; [done | by rewrite Hs2 | | done].
    intros h [->|Hh]%elem_of_cons; [|by eapply Hweak]. exists e, id, mk, v. split_and!; [by left | done | by apply Ho | done].
  - specialize (IH seen t1 Ht1). destruct (take_readers u tracked seen edges t1) as [hops t2].
    destruct IH as (Ht2 & Hs2 & H1 & H2). split_and!; [done | by rewrite Hs2 | by apply Hweak |].
    intros Ha Hh e' id' mk' [->|He']%elem_of_cons Hoff; [|by eapply H2].
    rewrite Eo in Hoff. injection Hoff as <- <-. right. symmetry. auto.
Qed.

Lemma hop_from_read u tracked es h e id mk v :
  edges_read (snd (offers u tracked)) es → e ∈ es → fst (offers u tracked) e = Some (id, mk) →
  unit_of id = Some v → h = mk v → hop_from u tracked h.
Proof. intros [Hr|[-> _]] He Ho Hv Hh; [|set_solver]. exists es, e, id, mk, v. auto. Qed.

Lemma no_hop_read u tracked es :
  edges_read (snd (offers u tracked)) es → answers →
  (∀ e id mk, e ∈ es → fst (offers u tracked) e = Some (id, mk) → unit_of id = None) →
  ∀ h, ¬ hop_from u tracked h.
Proof.
  intros [Hr|[_ [e He]]] [Ha _] Hn h (es' & e' & id & mk & v & Hr' & He' & Ho & Hv & _).
  - rewrite Hr in Hr'. injection Hr' as <-. by rewrite (Hn e' id mk He' Ho) in Hv.
  - apply (Ha e). left. eauto.
Qed.

Lemma expand_hops_ok u tracked t :
  caches_true t →
  let '(hops, t') := expand_hops u tracked t in
  caches_true t' ∧ search_of t' = search_of t ∧
  (∀ h, h ∈ hops → hop_from u tracked h) ∧ (answers → hops = [] → ∀ h, ¬ hop_from u tracked h).
Proof.
  intros Ht. unfold expand_hops, tableReaders.
  assert (∀ offer o (r : list Edge * tracer), offers u tracked = (offer, o) →
    (let '(es, t') := r in edges_read o es ∧ caches_true t' ∧ search_of t' = search_of t) →
    let '(hops, t') := (let '(es, t) := r in take_hops offer es t) in
    caches_true t' ∧ search_of t' = search_of t ∧
    (∀ h, h ∈ hops → hop_from u tracked h) ∧ (answers → hops = [] → ∀ h, ¬ hop_from u tracked h)) as Htake.
  { intros offer o [es t1] E (Hes & Ht1 & Hs1). pose proof (take_hops_ok offer es t1 Ht1) as H.
    destruct (take_hops offer es t1) as [hops t2]. destruct H as (Ht2 & Hs2 & H1 & H2).
    split_and!; [done | by rewrite Hs2 | |].
    - intros h Hh. destruct (H1 h Hh) as (e & id & mk & v & He & Ho & Hv & Hh').
      apply (hop_from_read u tracked es h e id mk v); rewrite ?E; done.
    - intros Ha Hh. apply (no_hop_read u tracked es); rewrite ?E; [done | done |]. simpl. intros. by eapply H2. }
  destruct (String.eqb (u_Kind u) KindRPCMethod) eqn:E1.
  { eapply Htake; [unfold offers; by rewrite E1 | by apply reverseEdges_ok]. }
  destruct (String.eqb (u_Kind u) KindHTTPRoute) eqn:E2.
  { eapply Htake; [unfold offers; by rewrite E1, E2 | by apply outEdges_ok]. }
  destruct (String.eqb (u_Kind u) KindDBTable) eqn:E3.
  2: { eapply Htake; [unfold offers; by rewrite E1, E2, E3 | by apply outEdges_ok]. }
  pose proof (reverseEdges_ok (u_ID u) EdgeReadsFrom t Ht eq_refl) as Hr.
  destruct (reverseEdges _ _ t) as [es t1]. destruct Hr as (Hes & Ht1 & Hs1).
  pose proof (take_readers_ok u tracked ∅ es t1 Ht1) as H.
  destruct (take_readers u tracked ∅ es t1) as [hops t2]. destruct H as (Ht2 & Hs2 & H1 & H2).
  assert (offers u tracked = (reader_hop u tracked, edge_opts "" (u_ID u) EdgeReadsFrom)) as E
    by (unfold offers; by rewrite E1, E2, E3).
  split_and!; [done | by rewrite Hs2 | |].
  - intros h Hh. destruct (H1 h Hh) as (e & id & mk & v & He & Ho & Hv & Hh').
    apply (hop_from_read u tracked es h e id mk v); rewrite ?E; done.
  - intros Ha Hh. apply (no_hop_read u tracked es); rewrite ?E; [done | done |]. simpl.
    intros e id mk He Ho. destruct (H2 Ha Hh e id mk He Ho); [set_solver | done].
Qed.

Lemma service_label_ok u t :
  caches_true t →
  let '(svc, t') := service_label u t in
  svc = service_name u ∧ caches_true t' ∧ search_of t' = search_of t.
Proof.
  intros Ht. unfold service_label. pose proof (runs_serviceForUnit u (t_ld t) (ct_loader t Ht)) as H.
  unfold runs in H. assert (∀ e l', serviceForUnit u (t_ld t) ≠ (inl e, l')) as Hne.
  { intros e l'. unfold serviceForUnit. case_if; [done |].
    unfold serviceOf, servicesOf, mbind, M_bind. by destruct (ld_services (t_ld t) !! u_RepoID u). }
  destruct (serviceForUnit u (t_ld t)) as [[e|svc] ld]; [by destruct (Hne e ld) |].
  destruct H as [Hld [-> _]]. split_and!; [done | | done].
  split; [done | apply (ct_out t Ht) | apply (ct_in t Ht) | apply (ct_err t Ht)].
Qed.

(** ** The chains of a walk *)

(** A walk from its start: every step is a hop the store holds out of the step
    before, carrying on its confidence, in the service of its unit. *)
Inductive flow (start : TraceStep) : list TraceStep → Prop :=
  | flow_start : flow start [start]
  | flow_hop p s h :
      flow start (p ++ [s]) → hop_from (ts_Unit s) (ts_Tracked s) h →
      flow start ((p ++ [s]) ++ [hop_step h (service_name (h_unit h)) (ts_Confidence s)]).

(** How a chain came to its end. *)
Inductive chain_end (maxDepth : nat) (p : list TraceStep) (s : TraceStep) : traceChain → Prop :=
  | end_cycle : step_key s ∈ map step_key p → chain_end maxDepth p s {| tc_steps := p ++ [s]; tc_truncated := false |}
  | end_sink : (answers → ∀ h, ¬ hop_from (ts_Unit s) (ts_Tracked s) h) →
      chain_end maxDepth p s {| tc_steps := p ++ [s]; tc_truncated := false |}
  | end_depth : length (p ++ [s]) = Datatypes.S maxDepth →
      chain_end maxDepth p s {| tc_steps := withNote (p ++ [s]) noteDepthLimit; tc_truncated := true |}
  | end_budget : chain_end maxDepth p s {| tc_steps := withNote (p ++ [s]) noteBudgetLimit; tc_truncated := true |}.

(** A discovered chain: a walk that passes through no step twice, of at most the
    depth limit in hops, with its end. *)
Definition chain_of (start : TraceStep) (maxDepth : nat) (c : traceChain) : Prop :=
  ∃ p s, flow start (p ++ [s]) ∧ p ≠ [] ∧ length p ≤ maxDepth ∧ NoDup (map step_key p) ∧ chain_end maxDepth p s c.

Lemma withNote_app p s note : ∃ s', withNote (p ++ [s]) note = p ++ [s'] ∧ step_key s' = step_key s.
Proof.
  induction p as [|x p (s' & IH & Hs')]; [eexists; by split |].
  exists s'. split; [|done]. simpl. rewrite IH. by destruct p.
Qed.

Lemma chain_end_key maxDepth p s c :
  chain_end maxDepth p s c → map step_key (tc_steps c) = map step_key (p ++ [s]).
Proof.
  destruct 1; try done; simpl;
    [destruct (withNote_app p s noteDepthLimit) as (s' & -> & H')
    |destruct (withNote_app p s noteBudgetLimit) as (s' & -> & H')];
    by rewrite !map_app; simpl; rewrite H'.
Qed.

Lemma chain_end_proper maxDepth p s c : chain_end maxDepth p s c → proper_chain c.
Proof.
  intros H%chain_end_key. unfold proper_chain. intros E. rewrite E, map_app in H.
  by destruct (map step_key p).
Qed.

(** The chains discovered so far, in order, and what the tracer keeps of them. *)
Record chains_ok (start : TraceStep) (maxDepth : nat) (t : tracer) (all : list traceChain) : Prop := {
  co_count : t_discovered t = length all;
  co_kept : t_completed t = kept all;
  co_seen : t_seen t = list_to_set (map (λ c, chainKey (tc_steps c)) all);
  co_nodup : NoDup (map (λ c, chainKey (tc_steps c)) all);
  co_chains : Forall (λ c, chain_of start maxDepth c) all;
  co_budget : t_expansions t ≤ maxExpansions
}.

Lemma chains_ok_search start maxDepth t t' all :
  search_of t' = search_of t → chains_ok start maxDepth t all → chains_ok start maxDepth t' all.
Proof. intros [= E1 E2 E3 E4 E5] [H1 H2 H3 H4 H5 H6]. split; congruence || done. Qed.

Lemma finish_ok start maxDepth p s limit t all :
  flow start (p ++ [s]) → length p ≤ maxDepth → NoDup (map step_key p) →
  chain_end maxDepth p s (if String.eqb limit "" then {| tc_steps := p ++ [s]; tc_truncated := false |}
                          else {| tc_steps := withNote (p ++ [s]) limit; tc_truncated := true |}) →
  caches_true t → chains_ok start maxDepth t all →
  let t' := finish (p ++ [s]) limit t in
  caches_true t' ∧ t_onPath t' = t_onPath t ∧ ∃ new, chains_ok start maxDepth t' (all ++ new).
Proof.
  intros Hf Hlen Hnd Hend Ht Hall. unfold finish.
  assert (∃ new, chains_ok start maxDepth t (all ++ new)) as Hsame by (exists []; by rewrite app_nil_r).
  destruct p as [|x p]; [by split_and! |].
  rewrite (proj2 (Nat.leb_gt _ _)) by (rewrite length_app; simpl; lia).
  case_bool_decide as Hseen; [by split_and! |]. cbv zeta.
  set (c := if String.eqb limit "" then _ else _) in *.
  split_and!; [split; apply Ht | done |]. exists [c].
  destruct Hall as [H1 H2 H3 H4 H5 H6].
  assert (chainKey (tc_steps c) = chainKey ((x :: p) ++ [s])) as Hkey
    by (unfold chainKey; by rewrite (chain_end_key _ _ _ _ Hend)).
  split; cbn [set_chains t_discovered t_completed t_seen t_expansions].
  - rewrite length_app, H1. simpl. lia.
  - unfold kept. rewrite foldl_app, H2. done.
  - rewrite map_app, list_to_set_app_L, H3, <- Hkey. simpl. set_solver.
  - rewrite map_app. apply NoDup_app. split_and!; [done | | apply NoDup_singleton].
    intros k Hk ->%list_elem_of_singleton. apply Hseen. rewrite H3, <- Hkey. by apply elem_of_list_to_set.
  - apply Forall_app. split; [done |]. constructor; [|constructor]. exists (x :: p), s. split_and!; done.
  - done.
Qed.

(** What [dfs] does from a path: the caches stay true, the path is as it was, and
    the chains are those there were and new ones. *)
Definition dfs_spec (start : TraceStep) (maxDepth : nat) (t : tracer) (all : list traceChain) (t' : tracer) : Prop :=
  caches_true t' ∧ t_onPath t' = t_onPath t ∧ ∃ new, chains_ok start maxDepth t' (all ++ new).

(** The loop over the hops of a unit, each of them explored by [f]. *)
Lemma loop_ok start maxDepth (f : tracer → hop → tracer) hs t all :
  (∀ h ta all', h ∈ hs → caches_true ta → t_onPath ta = t_onPath t → chains_ok start maxDepth ta all' →
     dfs_spec start maxDepth ta all' (f ta h)) →
  caches_true t → chains_ok start maxDepth t all → dfs_spec start maxDepth t all (foldl f t hs).
Proof.
  intros Hf Ht Hall.
  assert (∀ ta all', caches_true ta → t_onPath ta = t_onPath t → chains_ok start maxDepth ta all' →
            dfs_spec start maxDepth t all' (foldl f ta hs)) as H; [|by apply H].
  clear Ht Hall. induction hs as [|h hs IH]; intros ta all' Hta Hona Halla; cbn [foldl].
  { split_and!; [done | done |]. exists []. by rewrite app_nil_r. }
  destruct (Hf h ta all' (list_elem_of_here _ _) Hta Hona Halla) as (H1 & H2 & new & H3).
  destruct (IH (λ h' tb all'' Hh', Hf h' tb all'' (list_elem_of_further _ _ _ Hh')) (f ta h) (all' ++ new)
    H1 ltac:(congruence) H3) as (H4 & H5 & new' & H6).
  split_and!; [done | done |]. exists (new ++ new'). by rewrite app_assoc.
Qed.

(** The keys on the path: entering a unit adds its key, leaving it takes it off. *)
Lemma keys_enter (ks : list string) k : k ∉ (list_to_set ks : gset string) → NoDup ks →
  NoDup (ks ++ [k]) ∧ (list_to_set (ks ++ [k]) : gset string) ∖ {[k]} = list_to_set ks.
Proof.
  intros Hk%not_elem_of_list_to_set Hnd. split.
  - apply NoDup_app. split_and!; [done | | apply NoDup_singleton].
    intros x Hx ->%list_elem_of_singleton. by apply Hk.
  - apply leibniz_equiv. intros x. rewrite list_to_set_app_L, elem_of_difference, elem_of_union, !elem_of_list_to_set.
    set_solver.
Qed.

Lemma dfs_ok start fuel maxDepth p s t all :
  maxDepth < length p + 1 + fuel → flow start (p ++ [s]) → length p ≤ maxDepth →
  t_onPath t = list_to_set (map step_key p) → NoDup (map step_key p) →
  caches_true t → chains_ok start maxDepth t all →
  dfs_spec start maxDepth t all
    (dfs fuel maxDepth (ts_Unit s) (ts_Tracked s) (p ++ [s]) (ts_Confidence s) t).
Proof.
  revert p s t all. induction fuel as [|fuel IH]; intros p s t all Hd Hf Hlen Hon Hnd Ht Hall.
  { destruct (Nat.ltb_spec maxDepth (length (p ++ [s]))) as [Hlt|Hge];
      [|rewrite length_app in Hge; simpl in Hge; lia].
    cbn [dfs]. rewrite (proj2 (Nat.ltb_lt _ _)) by done. apply finish_ok; try done.
    apply end_depth. rewrite length_app in *. simpl in *. lia. }
  cbn [dfs]. destruct (Nat.ltb_spec maxDepth (length (p ++ [s]))) as [Hlt|Hge].
  { apply finish_ok; try done. apply end_depth. rewrite length_app in *. simpl in *. lia. }
  change (visit_key (ts_Unit s) (ts_Tracked s)) with (step_key s).
  case_bool_decide as Hcyc.
  { apply finish_ok; try done. apply end_cycle. rewrite Hon in Hcyc. by apply elem_of_list_to_set in Hcyc. }
  destruct (Nat.leb_spec maxExpansions (t_expansions t)) as [Hb|Hb].
  { apply finish_ok; try done. apply end_budget. }
  set (t0 := set_search t (Datatypes.S (t_expansions t)) (t_onPath t)).
  assert (caches_true t0) as Ht0 by (split; apply Ht).
  assert (chains_ok start maxDepth t0 all) as Hall0 by (destruct Hall; split; done || (simpl; lia)).
  pose proof (expand_hops_ok (ts_Unit s) (ts_Tracked s) t0 Ht0) as He.
  destruct (expand_hops (ts_Unit s) (ts_Tracked s) t0) as [hops t1]. destruct He as (Ht1 & Hs1 & Hhops & Hnone).
  pose proof (chains_ok_search _ _ _ _ _ Hs1 Hall0) as Hall1.
  assert (t_onPath t1 = t_onPath t) as Hon1 by (by injection Hs1).
  destruct hops as [|h hops].
  { pose proof (finish_ok start maxDepth p s "" t1 all Hf Hlen Hnd) as H.
    destruct (H ltac:(apply end_sink; auto) Ht1 Hall1) as (? & ? & ?). split_and!; [done | congruence | done]. }
  set (t2 := set_search t1 _ _).
  assert (caches_true t2) as Ht2 by (split; apply Ht1).
  assert (chains_ok start maxDepth t2 all) as Hall2 by (destruct Hall1; by split).
  assert (t_onPath t2 = list_to_set (map step_key (p ++ [s]))) as Hon2.
  { unfold t2. simpl. rewrite Hon1, Hon, map_app, list_to_set_app_L. simpl. set_solver. }
  rewrite Hon in Hcyc. destruct (keys_enter _ _ Hcyc Hnd) as [Hnd2 Hleave].
  match goal with |- context [foldl ?f t2 _] => destruct (loop_ok start maxDepth f (h :: hops) t2 all) as (H1 & H2 & new & H3) end.
  { intros h0 ta all' Hh0 Hta Hona Halla. pose proof (service_label_ok (h_unit h0) ta Hta) as Hsvc.
    destruct (service_label (h_unit h0) ta) as [svc tb]. destruct Hsvc as (-> & Htb & Hsb).
    injection Hsb as E1 E2 E3 E4 E5. unfold dfs_spec. rewrite <- E2.
    apply (IH (p ++ [s]) (hop_step h0 (service_name (h_unit h0)) (ts_Confidence s)) tb all');
      [rewrite length_app; simpl; lia | by apply flow_hop; auto | done | congruence | by rewrite map_app | done |].
    apply (chains_ok_search _ _ ta); [|done]. unfold search_of. congruence. }
  { done. }
  { done. }
  cbv zeta. set (t3 := foldl _ t2 (h :: hops)) in *.
  split_and!; [split; apply H1 | | exists new; by destruct H3].
  simpl. rewrite H2, Hon2, Hon, map_app. apply Hleave.
Qed.

(** ** The answer *)

Lemma kept_proper start maxDepth all : Forall (λ c, chain_of start maxDepth c) all → Forall proper_chain all.
Proof. intros H. eapply Forall_impl; [exact H |]. intros c (p & s & _ & _ & _ & _ & He). by eapply chain_end_proper. Qed.

Lemma alternatives_spec best kept chains :
  length kept ≤ maxAlternatives →
  let out := alternatives best kept chains in
  length out ≤ maxAlternatives ∧
  ∀ a, a ∈ out → a ∈ kept ∨ (isPrefixChain a best = false ∧ ∃ c, c ∈ chains ∧ a = tc_steps c).
Proof.
  revert kept. induction chains as [|c r IH]; intros kept Hk; cbn [alternatives]; [by split; auto |].
  destruct (Nat.leb_spec maxAlternatives (length kept)) as [Hle|Hlt]; [by split; auto |].
  destruct (isPrefixChain (tc_steps c) best) eqn:E.
  - destruct (IH kept Hk) as [H1 H2]. split; [done |]. intros a Ha.
    destruct (H2 a Ha) as [?|(? & d & ? & ?)]; [by left | right; split; [done |]; exists d; split; [by right | done]].
  - destruct (IH (kept ++ [tc_steps c])) as [H1 H2]; [rewrite length_app; simpl; lia |].
    split; [done |]. intros a Ha. destruct (H2 a Ha) as [Hin|(? & d & ? & ?)].
    + apply elem_of_app in Hin as [?| ->%list_elem_of_singleton]; [by left |].
      right. split; [done |]. exists c. split; [by left | done].
    + right. split; [done |]. exists d. split; [by right | done].
Qed.

(** The head of the sorted chains is beaten by none discovered. *)
Lemma sorted_best all best rest :
  Forall proper_chain all → SliceSort betterTraceChain (kept all) = best :: rest →
  best ∈ all ∧ ∀ c, c ∈ all → betterTraceChain c best = false.
Proof.
  intros HP E. destruct (kept_are_best_of all HP) as [H1 _ H3].
  assert (∀ c, c ∈ best :: rest → c ∈ kept all) as Hin by (intros c; rewrite <- E; apply SliceSort_elem).
  pose proof better_swo as Hswo.
  assert (Forall proper_chain (kept all)) as HPk by (rewrite Forall_forall in HP |- *; auto).
  pose proof (SliceSort_sorted betterTraceChain proper_chain (kept all) HPk) as Hs. rewrite E in Hs.
  apply StronglySorted_inv in Hs as [_ Hs]. rewrite Forall_forall in Hs, HP.
  assert (best ∈ all) as Hbest by (apply H1, Hin; by left). split; [done |].
  intros c Hc. destruct (H3 c Hc) as [Hk|[_ Hk]].
  - apply (SliceSort_elem betterTraceChain) in Hk. rewrite E in Hk.
    apply elem_of_cons in Hk as [->|Hk]; [by apply swo_irrefl; auto | by apply Hs].
  - rewrite Forall_forall in Hk. apply Hk, Hin. by left.
Qed.

(** C17: a trace answers with the best way the parameter flows. Its chains are as
    many as it discovered, all different; each is a sequence of hops the store
    holds from the symbol, through no unit with the same identifiers twice and
    within the depth limit, that ends in a cycle, in a unit with nowhere to go on
    — on a store that answers — or marked as cut off; the answer is one that no
    other beats, or the start alone when there is none; at most four others, not
    prefixes of it, are given beside it. A trace fails only with its symbol
    unresolved or on a failed read. *)
Theorem Trace_best_flow repoID symbol param maxDepth :
  match Trace repoID symbol param maxDepth with
  | inl e => FindUnit repoID symbol = inl e ∨ store_error e
  | inr r => ∃ u all,
      FindUnit repoID symbol = inr u ∧
      let start := start_trace u (service_name u) param in
      tr_Chains r = length all ∧ NoDup (map (λ c, chainKey (tc_steps c)) all) ∧
      Forall (λ c, chain_of start (trace_depth maxDepth) c) all ∧
      ((all = [] ∧ tr_Steps r = [start] ∧ tr_Alternatives r = []) ∨
       (∃ best, best ∈ all ∧ tr_Steps r = tc_steps best ∧ ∀ c, c ∈ all → betterTraceChain c best = false)) ∧
      length (tr_Alternatives r) ≤ maxAlternatives ∧
      ∀ a, a ∈ tr_Alternatives r → isPrefixChain a (tr_Steps r) = false ∧ ∃ c, c ∈ all ∧ a = tc_steps c
  end.
Proof.
  unfold Trace. destruct (FindUnit repoID symbol) as [e|u]; [by left |].
  assert (caches_true (new_tracer newLoader)) as H0.
  { split; [apply newLoader_ok | simpl; intros id k es _ H; by rewrite lookup_empty in H.. | done]. }
  pose proof (service_label_ok u _ H0) as Hsvc. destruct (service_label u (new_tracer newLoader)) as [svc t].
  destruct Hsvc as (-> & Ht & Hs). set (start := start_trace u (service_name u) param).
  assert (chains_ok start (trace_depth maxDepth) t []) as Hall.
  { apply (chains_ok_search _ _ (new_tracer newLoader)); [done |].
    split; simpl; try done; [constructor | lia]. }
  pose proof (dfs_ok start (Datatypes.S (trace_depth maxDepth)) (trace_depth maxDepth) [] start t []) as H.
  destruct H as (Ht' & _ & all & Hall'); try done.
  { simpl. lia. }
  { constructor. }
  { simpl. lia. }
  { injection Hs as _ -> _ _ _. done. }
  { constructor. }
  change (dfs _ _ (ts_Unit start) _ _ _ t) with
    (dfs (Datatypes.S (trace_depth maxDepth)) (trace_depth maxDepth) u [param] [start] one_f32 t) in *.
  set (t' := dfs _ _ u _ _ _ t) in *. cbv zeta. simpl in Hall'.
  destruct (t_err t') as [e|] eqn:Ee; [right; by apply (ct_err t' Ht') |].
  destruct Hall' as [Hc Hk _ Hnd Hch _]. rewrite Hk.
  pose proof (kept_proper _ _ _ Hch) as HP. destruct (SliceSort betterTraceChain (kept all)) as [|best rest] eqn:E.
  - exists u, all. assert (all = []) as ->.
    { apply SliceSort_nil in E. pose proof (k_len _ _ (kept_are_best_of all HP)) as Hl. rewrite E in Hl.
      destruct all as [|c all]; [done |]. simpl in Hl. lia. }
    split_and!; try done; [by left | simpl; lia | set_solver].
  - exists u, all. destruct (sorted_best all best rest HP E) as [Hb1 Hb2].
    destruct (alternatives_spec (tc_steps best) [] rest) as [H1 H2]; [simpl; lia |].
    split_and!; try done; [right; by exists best |].
    intros a Ha. destruct (H2 a Ha) as [?|(Hp & c & Hin & ->)]; [set_solver |].
    split; [done |]. exists c. split; [|done]. apply (k_sub _ _ (kept_are_best_of all HP)).
    apply (SliceSort_elem betterTraceChain). rewrite E. by right.
Qed.

End Laws.

(** JSON text, written with single quotes. *)
Definition quoted (s : string) : string := str_map (λ c, if Ascii.eqb c "'" then "034"%char else c) s.

(** The client of [demo_store], sending its user on to the contract. *)
Definition traced_edge (src dst kind meta : string) : Edge := {|
  e_ID := ""; e_RepoID := "shop"; e_SrcID := src; e_DstID := dst; e_Kind := kind; e_DstName := "";
  e_FilePath := "main.go"; e_Line := 3; e_DstRepoID := ""; e_Confidence := f32_of_Z 1; e_Meta := quoted meta |}.
Definition traced_store : Storage := memory_store demo_units [
  traced_edge "1" "2" EdgeRPCCall "{'args':['ctx'],'fields':{'user_id':'y'},'aliases':{'y':'order.GetUserId()'}}";
  demo_edge "3" "2" EdgeImplementsRPC ].

Lemma traced_laws : StorageLaws traced_store (memory_unit demo_units).
Proof. apply memory_store_laws. repeat constructor; done. Qed.

Lemma Trace_best_flow_witness :
  match @Trace traced_store "shop" "checkout" "userID" 0 with
  | inr r => map (λ s, u_ID (ts_Unit s)) (tr_Steps r) = ["1"; "2"; "3"] ∧
             map ts_Tracked (tr_Steps r) = [["userID"]; ["user_id"]; ["user_id"]] ∧
             length (tr_Alternatives r) ≤ maxAlternatives
  | inl _ => False
  end.
Proof.
  pose proof (@Trace_best_flow traced_store (memory_unit demo_units) traced_laws "shop" "checkout" "userID" 0) as H.
  destruct (@Trace traced_store "shop" "checkout" "userID" 0) as [e|r] eqn:E; [by vm_compute in E |].
  destruct H as (u & all & _ & _ & _ & _ & _ & H & _).
  assert (map (λ s, (u_ID (ts_Unit s), ts_Tracked s)) (tr_Steps r)
          = [("1", ["userID"]); ("2", ["user_id"]); ("3", ["user_id"])]) as Hs.
  { revert E. vm_compute. by intros [= <-]. }
  split_and!; [| |exact H].
  - change (map (λ s, u_ID (ts_Unit s)) (tr_Steps r)) with (map (λ s, fst ((λ s, (u_ID (ts_Unit s), ts_Tracked s)) s)) (tr_Steps r)).
    rewrite <- (map_map (λ s, (u_ID (ts_Unit s), ts_Tracked s)) fst), Hs. done.
  - change (map ts_Tracked (tr_Steps r)) with (map (λ s, snd ((λ s, (u_ID (ts_Unit s), ts_Tracked s)) s)) (tr_Steps r)).
    rewrite <- (map_map (λ s, (u_ID (ts_Unit s), ts_Tracked s)) snd), Hs. done.
Defined.

Lemma kept_are_best_witness :
  let s := start_trace (demo_unit "1" "shop" "function" "Checkout") "shop" "id" in
  let cut := {| tc_steps := [s; s; s]; tc_truncated := true |} in
  let sink := {| tc_steps := [s; s]; tc_truncated := false |} in
  keeps [cut; sink] (kept [cut; sink]) ∧ betterTraceChain sink cut = true.
Proof. split; [apply (kept_are_best [_; _]); repeat constructor; done | reflexivity]. Defined.
