(* ===== verification/TraceMatch.v ===== *)
(** * Which expressions mention an identifier

    The comparison across naming conventions, and the walk through the local
    aliases of a call site. *)

From S2P Require Import Prelude GoStrings GoFloat GoSort Domain Store Contract ContractIdent Graph Trace.
From Stdlib Require Import Strings.Ascii.

(** ** One expression *)

Lemma TokenComponents_spell k ws :
  ws ≠ [] → Forall is_word ws → TokenComponents (spell k ws) = [ws].
Proof.
  intros Hn Hw. unfold TokenComponents. rewrite IdentTokens_word.
  - simpl. rewrite splitComponents_spell by done. by rewrite filter_cons_True.
  - intros E. by apply spell_empty in E.
  - pose proof (spell_ident k ws Hw) as Hb. revert Hb. apply str_forallb_impl.
    intros c Hc. by apply ident_byte_plain.
Qed.

(** Short one-word identifiers fill a token; the others end one. *)
Definition loose (ws : list string) : bool :=
  match ws with [w] => minLooseComponent <=? String.length w | _ => true end.

Lemma ident_matches_spec toks want :
  ident_matches toks want = true ↔
  want ≠ [] ∧ ∃ comps, comps ∈ toks ∧ (comps = want ∨ (loose want = true ∧ ∃ p, comps = p ++ want)).
Proof.
  assert (∀ f, existsb f toks = true ↔ ∃ comps, comps ∈ toks ∧ f comps = true) as Hex.
  { intros f. rewrite existsb_exists. split; intros (c & H1 & H2); exists c; split; try done; by apply list_elem_of_In. }
  assert (∀ w ws, loose (w :: ws) = true →
    existsb (λ comps, hasComponentSuffix comps (w :: ws)) toks = true ↔
    w :: ws ≠ [] ∧ ∃ comps, comps ∈ toks ∧ (comps = w :: ws ∨ (loose (w :: ws) = true ∧ ∃ p, comps = p ++ w :: ws))) as Hloose.
  { intros w ws Hl. rewrite Hex. split.
    - intros (c & Hc & [Hn [p ->]]%hasComponentSuffix_spec). split; [done |]. eauto 7.
    - intros [_ (c & Hc & H)]. exists c. split; [done |]. apply hasComponentSuffix_spec. split; [done |].
      destruct H as [->|[_ [p ->]]]; [by exists [] | by exists p]. }
  destruct want as [|w [|w' ws]]; cbn [ident_matches]; [naive_solver | | by apply Hloose].
  destruct (Nat.ltb_spec (String.length w) minLooseComponent) as [Hs|Hs].
  - rewrite Hex. assert (loose [w] = false) as -> by (unfold loose; by apply Nat.leb_gt).
    split.
    + intros (c & Hc & E%bool_decide_eq_true). split; [done |]. eauto.
    + intros [_ (c & Hc & [->|[? _]])]; [|done]. exists [w]. split; [done |]. by apply bool_decide_eq_true_2.
  - apply Hloose. unfold loose. by apply Nat.leb_le.
Qed.

(** An expression mentions a parameter in whatever convention either is
    spelled. An identifier of words [us] matches a tracked one of words [ws]
    exactly when it is those words, or ends in them; a single word under three
    letters has to be the whole identifier: [getUserId] mentions [user_id], and
    neither [id] nor [user] alone. *)
Theorem exprMatchesDirect_convention k k' us ws :
  us ≠ [] → ws ≠ [] → Forall is_word us → Forall is_word ws →
  exprMatchesDirect (spell k us) [spell k' ws] = true ↔
  us = ws ∨ (loose ws = true ∧ ∃ p, us = p ++ ws).
Proof.
  intros Hu Hw Hus Hws. unfold exprMatchesDirect.
  rewrite TokenComponents_spell by done. cbn [existsb].
  rewrite WordComponents_spell, orb_false_r, ident_matches_spec by done. split.
  - intros [_ (c & ->%list_elem_of_singleton & H)]. done.
  - intros H. split; [done |]. exists us. split; [by left | done].
Qed.

Lemma is_word_letters w : str_forallb is_lower_byte w = true → 2 ≤ String.length w → is_word w.
Proof. intros. exists w, "". by rewrite str_app_nil_r. Qed.

Lemma exprMatchesDirect_convention_witness :
  exprMatchesDirect "getUserId" ["user_id"] = true ∧ exprMatchesDirect "getUserId" ["user"] ≠ true.
Proof.
  assert (∀ ws, forallb (λ w, str_forallb is_lower_byte w && (2 <=? String.length w)) ws = true → Forall is_word ws) as Hw.
  { intros ws H%forallb_Forall. eapply Forall_impl; [exact H |]. intros w Hx. cbv beta in Hx.
    bool_prop. by apply is_word_letters. }
  split.
  - apply (proj2 (exprMatchesDirect_convention Camel Snake ["get"; "user"; "id"] ["user"; "id"] ltac:(done) ltac:(done)
             (Hw ["get"; "user"; "id"] eq_refl) (Hw ["user"; "id"] eq_refl))). right. split; [reflexivity |]. by exists ["get"].
  - intros H. apply (proj1 (exprMatchesDirect_convention Camel Snake ["get"; "user"; "id"] ["user"] ltac:(done) ltac:(done)
             (Hw ["get"; "user"; "id"] eq_refl) (Hw ["user"] eq_refl))) in H. destruct H as [H|[_ [p H]]]; [done |].
    by destruct p as [|? [|? [|? [|? p]]]]; simplify_eq/=.
Defined.

(** ** Aliases *)

Section Alias.
  Context (tracked : list string) (aliases : gmap string string).

(** An identifier that is an alias for an expression that mentions one tracked. *)
Definition matching_alias (tok : string) : Prop :=
  ∃ src, aliases !! tok = Some src ∧ exprMatchesDirect src tracked = true.

(** What the alias [t] stands for mentions [tok]. *)
Definition leads_to (t tok : string) : Prop := ∃ src, aliases !! t = Some src ∧ tok ∈ IdentTokens src.

(** One level of the walk over [frontier] with [visited] behind: it answers yes
    only for a matching alias, no only out of budget; otherwise none of its new
    tokens is a matching alias, and what they stand for is the next level. *)
Definition level_spec (frontier next : list string) (visited : gset string)
    (result : bool + (list string * alias_walk)) : Prop :=
  match result with
  | inl true => ∃ tok, tok ∈ frontier ∧ matching_alias tok
  | inl false => maxAliasTokens < size (list_to_set frontier ∪ visited)
  | inr (next', st') =>
      aw_considered st' = size (aw_visited st') ∧ aw_visited st' = list_to_set frontier ∪ visited ∧
      (∀ tok, tok ∈ frontier → tok ∉ visited → ¬ matching_alias tok) ∧
      (∀ tok, tok ∈ next' → tok ∈ next ∨ ∃ t, t ∈ frontier ∧ leads_to t tok) ∧
      (∀ tok, tok ∈ next → tok ∈ next') ∧
      (∀ t tok, t ∈ frontier → t ∉ visited → leads_to t tok → tok ∈ next')
  end.

(** Reading one token more: either seen before, or no matching alias, with what
    it stands for in [next1]. *)
Lemma level_cons tok frontier next next1 visited result :
  level_spec frontier next1 ({[tok]} ∪ visited) result →
  tok ∈ visited ∨ (¬ matching_alias tok ∧ ∀ t, leads_to tok t → t ∈ next1) →
  (∀ t, t ∈ next → t ∈ next1) → (∀ t, t ∈ next1 → t ∈ next ∨ leads_to tok t) →
  level_spec (tok :: frontier) next visited result.
Proof.
  assert (list_to_set frontier ∪ ({[tok]} ∪ visited) = list_to_set (tok :: frontier) ∪ visited) as E by set_solver.
  unfold level_spec. destruct result as [[|]|[next' st']]; rewrite ?E; intros H Htok Hn1 Hn2; [set_solver | done |].
  destruct H as (H1 & H2 & H3 & H4 & H5 & H6). split_and!; try done.
  - intros t Ht Hv. apply elem_of_cons in Ht as [->|Ht]; [tauto |].
    destruct (decide (t = tok)) as [->|]; [tauto |]. apply H3; set_solver.
  - intros t Ht. destruct (H4 t Ht) as [Hin|(t' & Ht' & Hl)]; [|right; exists t'; split; [by right | done]].
    destruct (Hn2 t Hin) as [?|?]; [by left | right; exists tok; split; [by left | done]].
  - auto.
  - intros t t' Ht Hv Hl.
    destruct (decide (t = tok)) as [->|Hne]; [apply H5; naive_solver |].
    apply (H6 t); set_solver.
Qed.

Lemma alias_level_spec frontier next st :
  aw_considered st = size (aw_visited st) →
  level_spec frontier next (aw_visited st) (alias_level tracked aliases frontier next st).
Proof.
  revert next st. induction frontier as [|tok r IH]; intros next st Hc; cbn [alias_level].
  { unfold level_spec. split_and!; set_solver. }
  case_bool_decide as Hv.
  { apply (level_cons _ _ _ next); [|by left | done | by left].
    replace ({[tok]} ∪ aw_visited st) with (aw_visited st) by set_solver. by apply IH. }
  cbv zeta. set (st1 := {| aw_visited := {[tok]} ∪ aw_visited st; aw_considered := S (aw_considered st) |}).
  assert (aw_considered st1 = size (aw_visited st1)) as Hc1.
  { simpl. rewrite size_union, size_singleton, Hc by set_solver. lia. }
  destruct (Nat.ltb_spec maxAliasTokens (aw_considered st1)) as [Hb|Hb].
  { rewrite Hc1 in Hb. eapply Nat.lt_le_trans; [exact Hb |]. apply subseteq_size. simpl. set_solver. }
  destruct (aliases !! tok) as [src|] eqn:Ea.
  - destruct (exprMatchesDirect src tracked) eqn:Em; [exists tok; split; [by left | by exists src] |].
    apply (level_cons _ _ _ (next ++ IdentTokens src)); [by apply (IH _ st1) | right; split | |].
    + intros (src' & Ha & Hm). congruence.
    + intros t (src' & Ha & Ht). apply elem_of_app. right. congruence.
    + intros t Ht. apply elem_of_app. by left.
    + intros t [?|?]%elem_of_app; [by left | right; by exists src].
  - apply (level_cons _ _ _ next); [by apply (IH _ st1) | right; split | done | by left].
    + intros (src' & Ha & _). congruence.
    + intros t (src' & Ha & _). congruence.
Qed.

(** The tokens of a level lead, alias by alias, to those of the levels below. *)
Inductive chain : nat → string → string → Prop :=
  | chain_here tok : chain 0 tok tok
  | chain_next n t t' tok : leads_to t t' → chain n t' tok → chain (S n) t tok.

(** A chain to a matching alias, from visited tokens that are none, leaves them
    through the frontier. *)
Lemma chain_leaves (V : gset string) (frontier : list string) n t tok :
  (∀ t, t ∈ V → ¬ matching_alias t ∧ ∀ t', leads_to t t' → t' ∈ V ∨ t' ∈ frontier) →
  chain n t tok → t ∈ V → matching_alias tok →
  ∃ n' t', n' < n ∧ t' ∈ frontier ∧ chain n' t' tok.
Proof.
  intros HV Hch. induction Hch as [tok|n t t' tok Hl Hch IH]; intros Ht Hm; [by destruct (HV tok Ht) |].
  destruct (HV t Ht) as [_ Hl']. destruct (Hl' t' Hl) as [Hv|Hf]; [|exists n, t'; split_and!; [lia | done | done]].
  destruct (IH Hv Hm) as (n' & t'' & Hn & H). exists n', t''. split; [lia | done].
Qed.

(** The walk from a frontier: the visited tokens lead nowhere that was not
    visited or is not in the frontier, and none of them is a matching alias. *)
Lemma alias_levels_spec levels frontier st :
  aw_considered st = size (aw_visited st) →
  (∀ t, t ∈ aw_visited st → ¬ matching_alias t ∧ ∀ t', leads_to t t' → t' ∈ aw_visited st ∨ t' ∈ frontier) →
  (alias_levels levels tracked aliases frontier st = true →
     ∃ n t tok, n < levels ∧ t ∈ frontier ∧ chain n t tok ∧ matching_alias tok) ∧
  ((∃ n t tok, n < levels ∧ t ∈ frontier ∧ chain n t tok ∧ matching_alias tok) →
     (∀ T : gset string, (∀ tok, tok ∈ T → tok ∈ aw_visited st ∨ ∃ n t, n < levels ∧ t ∈ frontier ∧ chain n t tok) →
        size T ≤ maxAliasTokens) →
     alias_levels levels tracked aliases frontier st = true).
Proof.
  revert frontier st. induction levels as [|levels IH]; intros frontier st Hc HV.
  { split; [done |]. intros (n & t & tok & Hn & _). lia. }
  destruct frontier as [|f0 fr] eqn:Ef; [split; [done | set_solver] |]. rewrite <- Ef in *.
  pose proof (alias_level_spec frontier [] st Hc) as Hl.
  replace (alias_levels (S levels) tracked aliases frontier st) with
    (match alias_level tracked aliases frontier [] st with
     | inl answer => answer | inr (next, st) => alias_levels levels tracked aliases next st end) by (by rewrite Ef).
  destruct (alias_level tracked aliases frontier [] st) as [[|]|[next' st']]; simpl in Hl.
  { destruct Hl as (tok & Ht & Hm). split; [|done]. intros _. exists 0, tok, tok. split_and!; [lia | done | constructor | done]. }
  { split; [done |]. intros _ HT. exfalso.
    enough (size (list_to_set frontier ∪ aw_visited st) ≤ maxAliasTokens) by lia.
    apply HT. intros tok [Ht|Ht]%elem_of_union; [right | by left]. apply elem_of_list_to_set in Ht.
    exists 0, tok. split_and!; [lia | done | constructor]. }
  destruct Hl as (H1 & H2 & H3 & H4 & _ & H6).
  assert (∀ t, t ∈ aw_visited st' → ¬ matching_alias t ∧ ∀ t', leads_to t t' → t' ∈ aw_visited st' ∨ t' ∈ next') as HV'.
  { intros t Ht. rewrite H2 in Ht |- *. destruct (decide (t ∈ aw_visited st)) as [Hv|Hv].
    - destruct (HV t Hv) as [Hm Hl]. split; [done |]. intros t' Hl'. left. destruct (Hl t' Hl'); set_solver.
    - assert (t ∈ frontier) as Hf by set_solver. split; [by apply H3 |]. intros t' Hl'. right. by apply (H6 t). }
  assert (∀ t, t ∈ next' → ∃ t0, t0 ∈ frontier ∧ leads_to t0 t) as Hnext
    by (intros t Ht; destruct (H4 t Ht) as [?|?]; [set_solver | done]).
  destruct (IH next' st' H1 HV') as [IH1 IH2]. split.
  - intros H. destruct (IH1 H) as (n & t & tok & Hn & Ht & Hch & Hm).
    destruct (Hnext t Ht) as (t0 & Ht0 & Hl). exists (S n), t0, tok.
    split_and!; [lia | done | by eapply chain_next | done].
  - intros (n & t & tok & Hn & Ht & Hch & Hm) HT. apply IH2.
    + destruct (chain_leaves (aw_visited st') next' n t tok HV' Hch) as (n' & t' & Hn' & Ht' & Hch');
        [rewrite H2; set_solver | done |].
      exists n', t', tok. split_and!; [lia | done | done | done].
    + intros T HT'. apply HT. intros x Hx. destruct (HT' x Hx) as [Hv|(n' & t' & Hn' & Ht' & Hch')].
      * rewrite H2 in Hv. apply elem_of_union in Hv as [Hv|Hv]; [right | by left].
        apply elem_of_list_to_set in Hv. exists 0, x. split_and!; [lia | done | constructor].
      * right. destruct (Hnext t' Ht') as (t0 & Ht0 & Hl). exists (S n'), t0.
        split_and!; [lia | done | by eapply chain_next].
Qed.

(** Aliases are followed as far as they are allowed to, in cycles too. An
    expression is said to mention a tracked identifier only if it does itself or
    through at most four aliases, one inside another; and it always is when the
    identifiers met on the way, within those levels, are at most 32. *)
Theorem exprMatchesAliased_walk expr :
  (exprMatchesAliased expr tracked aliases = true →
     exprMatchesDirect expr tracked = true ∨
     ∃ n t tok, n < maxAliasDepth ∧ t ∈ IdentTokens expr ∧ chain n t tok ∧ matching_alias tok) ∧
  (exprMatchesDirect expr tracked = true → exprMatchesAliased expr tracked aliases = true) ∧
  ((∃ n t tok, n < maxAliasDepth ∧ t ∈ IdentTokens expr ∧ chain n t tok ∧ matching_alias tok) →
   (∀ T : gset string, (∀ tok, tok ∈ T → ∃ n t, n < maxAliasDepth ∧ t ∈ IdentTokens expr ∧ chain n t tok) →
      size T ≤ maxAliasTokens) →
   exprMatchesAliased expr tracked aliases = true).
Proof.
  set (st := {| aw_visited := ∅; aw_considered := 0 |}).
  destruct (alias_levels_spec maxAliasDepth (IdentTokens expr) st) as [H1 H2]; [done | set_solver |].
  unfold exprMatchesAliased. fold st. destruct (exprMatchesDirect expr tracked); [split_and!; auto |].
  destruct (decide (aliases = ∅)) as [E|E].
  - rewrite bool_decide_eq_true_2 by done. split_and!; [done | done |].
    intros (n & t & tok & _ & _ & _ & src & Hsrc & _). by rewrite E, lookup_empty in Hsrc.
  - rewrite bool_decide_eq_false_2 by done. split_and!; [by right; auto | done |].
    intros Hm HT. apply H2; [done |]. intros T HT'. apply HT. intros tok Ht.
    destruct (HT' tok Ht) as [?|?]; [set_solver | done].
Qed.

End Alias.

Lemma exprMatchesAliased_walk_witness :
  exprMatchesAliased "x.ID" ["order_id"] (<["y" := "req.OrderID"]> (<["x" := "y"]> ∅)) = true.
Proof.
  destruct (exprMatchesAliased_walk ["order_id"] (<["y" := "req.OrderID"]> (<["x" := "y"]> ∅)) "x.ID") as (_ & _ & H).
  apply H.
  - exists 1, "x", "y". split_and!; [vm_compute; lia | vm_compute; left | | exists "req.OrderID"; by vm_compute].
    eapply (chain_next _ 0 "x" "y"); [exists "y"; split; [by vm_compute | vm_compute; left] | constructor].
  - intros T HT. transitivity (size ({["x"; "ID"; "y"; "req"; "OrderID"]} : gset string)); [|by vm_compute; lia].
    apply subseteq_size. intros tok Ht. destruct (HT tok Ht) as (n & t & _ & Hin & Hch).
    set (ids := {["x"; "ID"; "y"; "req"; "OrderID"]} : gset string) in *.
    assert (t ∈ ids) as Hids.
    { change (IdentTokens "x.ID") with ["x"; "ID"] in Hin. unfold ids. set_solver. }
    clear -Hids Hch. induction Hch as [tok|n t t' tok (src & Ha & Hin) _ IH]; [done |]. apply IH.
    apply lookup_insert_Some in Ha as [[<- <-]|[_ Ha]].
    + change (IdentTokens "req.OrderID") with ["req"; "OrderID"] in Hin. unfold ids. set_solver.
    + apply lookup_insert_Some in Ha as [[<- <-]|[_ Ha]]; [|by rewrite lookup_empty in Ha].
      change (IdentTokens "y") with ["y"] in Hin. unfold ids. set_solver.
Defined.
