(* ===== verification/GoRegexp.v ===== *)
(** * The Go [regexp] package, as far as ragota uses it

    A pattern is compiled from its text, as [regexp.MustCompile] does, and matched
    leftmost first: of the matches at the first position that has one, the one a
    backtracking search that prefers the left alternative and the greedier count
    finds.  The syntax is what the patterns of ragota are written in: literals,
    [.], classes, [\s], [\S], [\d], [\b], [^], [$], groups, alternatives, counted
    and lazy repetition, the flag [(?i)], which folds the case of Latin and Cyrillic
    letters as Unicode does, and the flag [(?m)], under which [^] and [$] match at
    the ends of lines. *)

From S2P Require Import Prelude GoStrings GoStrconv.
From Stdlib Require Import Strings.Ascii.
Local Open Scope Z_scope.

(** ** Runes *)

(** A rune of a text: its code point, and the bytes it is written with. *)
Definition rune : Type := Z * string.
Definition code_of (c : ascii) : Z := Z.of_nat (nat_of_ascii c).

(** The code point of a rune of [k] bytes after its first one. *)
Definition rune_code (k : nat) (s : string) : Z :=
  match k, s with
  | 0%nat, String a _ => code_of a
  | 1%nat, String a (String b _) => (code_of a - 192) * 64 + (code_of b - 128)
  | 2%nat, String a (String b (String c _)) => (code_of a - 224) * 4096 + (code_of b - 128) * 64 + (code_of c - 128)
  | 3%nat, String a (String b (String c (String d _))) =>
      (code_of a - 240) * 262144 + (code_of b - 128) * 4096 + (code_of c - 128) * 64 + (code_of d - 128)
  | _, _ => 65533
  end.

(** The runes of a text; an invalid byte is U+FFFD, one byte wide. *)
Fixpoint decode (skip : nat) (s : string) : list rune :=
  match s with
  | "" => []
  | String c r =>
      match skip with
      | S k => decode k r
      | O =>
          let '(k, range) := rune_tail c in
          let k := if tail_ok k range r then k else O in
          (match k with
           | O => (if code_of c <? 128 then code_of c else 65533, String c "")
           | S _ => (rune_code k s, String.substring 0 (S k) s)
           end) :: decode k r
      end
  end.
Definition runes : string → list rune := decode 0.
Definition text_of (rs : list rune) : string := Join (map snd rs) "".

(** The runes that differ from one at most in case: the orbits of the letters the
    patterns are written in. *)
Definition orbits : list (list Z) :=
  [[107; 75; 8490]; [115; 83; 383]; [1105; 1025]; [1074; 1042; 7296]; [1076; 1044; 7297]; [1086; 1054; 7298];
   [1089; 1057; 7299]; [1090; 1058; 7300; 7301]; [1098; 1066; 7302]].
Definition orbit (c : Z) : list Z :=
  match List.find (existsb (Z.eqb c)) orbits with
  | Some o => o
  | None =>
      if (97 <=? c) && (c <=? 122) || (1072 <=? c) && (c <=? 1103) then [c; c - 32]
      else if (65 <=? c) && (c <=? 90) || (1040 <=? c) && (c <=? 1071) then [c + 32; c]
      else [c]
  end.

(** ** Expressions *)

Inductive re :=
  | Eps
  | Class (p : Z → bool)
  | Cat (a b : re)
  | Or (a b : re)
  | Rep (greedy : bool) (min : nat) (max : option nat) (r : re)
  | Group (n : nat) (r : re)
  | Bol | Eol | WordB
  | LineStart | LineEnd.

(** What a match has found: the groups closed last come first. *)
Definition caps : Type := list (nat * string).
Definition at_word (c : option Z) : bool :=
  match c with
  | Some c => (c =? 95) || (48 <=? c) && (c <=? 57) || (65 <=? c) && (c <=? 90) || (97 <=? c) && (c <=? 122)
  | None => false
  end.
Definition next_code (s : list rune) : option Z := fst <$> head s.
Definition between (from upto : list rune) : string := text_of (take (length from - length upto) from).

Section Match.
  Context {R : Type}.
  Abbreviation cont := (option Z → list rune → caps → option R).

(** The repetition of a body, at most [fuel] times, which a body that consumes
    runes does not notice. *)
Fixpoint repeat_match (body : cont → cont) (greedy : bool) (fuel min : nat) (max : option nat) (k : cont) : cont :=
  λ prev s cs,
  match fuel with
  | O => None
  | S fuel =>
      let more :=
        match max with
        | Some O => λ _, None
        | _ => λ _ : (), body (repeat_match body greedy fuel (Nat.pred min) (Nat.pred <$> max) k) prev s cs
        end in
      let stop := match min with O => λ _, k prev s cs | S _ => λ _ : (), None end in
      if greedy then match more () with Some r => Some r | None => stop () end
      else match stop () with Some r => Some r | None => more () end
  end.

(** The backtracking match of an expression at a position, which then goes on
    with [k]. *)
Fixpoint match_re (r : re) (k : cont) : cont := λ prev s cs,
  match r with
  | Eps => k prev s cs
  | Class p => match s with c :: s' => if p (fst c) then k (Some (fst c)) s' cs else None | [] => None end
  | Cat a b => match_re a (match_re b k) prev s cs
  | Or a b => match match_re a k prev s cs with Some r => Some r | None => match_re b k prev s cs end
  | Rep greedy min max r => repeat_match (match_re r) greedy (S (length s)) min max k prev s cs
  | Group n r => match_re r (λ prev' s' cs', k prev' s' ((n, between s s') :: cs')) prev s cs
  | Bol => match prev with None => k prev s cs | Some _ => None end
  | Eol => match s with [] => k prev s cs | _ => None end
  | WordB => if xorb (at_word prev) (at_word (next_code s)) then k prev s cs else None
  | LineStart => match prev with Some c => if c =? 10 then k prev s cs else None | None => k prev s cs end
  | LineEnd => match s with c :: _ => if fst c =? 10 then k prev s cs else None | [] => k prev s cs end
  end.
End Match.

(** A match: the rune before what is left, what is left, and the groups. *)
Definition found : Type := option Z * list rune * caps.
Fixpoint search_re (r : re) (prev : option Z) (s : list rune) : option found :=
  match match_re r (λ prev' s' cs, Some (prev', s', (O, between s s') :: cs)) prev s [] with
  | Some f => Some f
  | None => match s with [] => None | c :: s' => search_re r (Some (fst c)) s' end
  end.

(** ** Patterns *)

Definition any_rune (c : Z) : bool := negb (c =? 10).
Definition space_rune (c : Z) : bool := (c =? 32) || (c =? 9) || (c =? 10) || (c =? 12) || (c =? 13).
Definition digit_rune (c : Z) : bool := (48 <=? c) && (c <=? 57).
Definition folded (fold : bool) (p : Z → bool) : Z → bool := if fold then λ c, existsb p (orbit c) else p.

(** The class after an escape that names one. *)
Definition escape_class (c : Z) : option (Z → bool) :=
  match c with
  | 115 => Some space_rune
  | 83 => Some (λ x, negb (space_rune x))
  | 100 => Some digit_rune
  | _ => None
  end.

(** A class, up to its bracket. *)
Fixpoint class_items (ts : list Z) : option ((Z → bool) * list Z) :=
  match ts with
  | [] => None
  | 93 :: ts => Some (λ _, false, ts)
  | 92 :: e :: ts =>
      '(p, ts) ← class_items ts;
      Some (λ x, match escape_class e with Some q => q x | None => x =? e end || p x, ts)
  | a :: 45 :: b :: ts' =>
      if b =? 93 then Some (λ x, (x =? a) || (x =? 45), ts')
      else '(p, ts) ← class_items ts'; Some (λ x, (a <=? x) && (x <=? b) || p x, ts)
  | a :: ts => '(p, ts) ← class_items ts; Some (λ x, (x =? a) || p x, ts)
  end.

(** A number, and a count in braces. *)
Fixpoint count_digits (acc : option nat) (ts : list Z) : option nat * list Z :=
  match ts with
  | c :: ts' => if digit_rune c then count_digits (Some (default O acc * 10 + Z.to_nat (c - 48))%nat) ts' else (acc, ts)
  | [] => (acc, ts)
  end.
Definition braces (ts : list Z) : option (nat * option nat * list Z) :=
  match count_digits None ts with
  | (Some min, 125 :: ts) => Some (min, Some min, ts)
  | (Some min, 44 :: ts) => match count_digits None ts with (max, 125 :: ts) => Some (min, max, ts) | _ => None end
  | _ => None
  end.
(** The counts that may follow an atom: the bounds, and what is left. *)
Definition counted (ts : list Z) : option (nat * option nat * list Z) :=
  match ts with
  | 63 :: ts => Some (O, Some 1%nat, ts)
  | 42 :: ts => Some (O, None, ts)
  | 43 :: ts => Some (1%nat, None, ts)
  | 123 :: ts => braces ts
  | _ => None
  end.
Definition postfix (r : re) (ts : list Z) : re * list Z :=
  match counted ts with
  | None => (r, ts)
  | Some (min, max, 63 :: ts) => (Rep false min max r, ts)
  | Some (min, max, ts) => (Rep true min max r, ts)
  end.

(** An expression, up to a parenthesis that closes it; [g] is the number of the
    last group opened. *)
Fixpoint parse_alt (fuel : nat) (fold : bool) (g : nat) (ts : list Z) : option (re * nat * list Z) :=
  match fuel with
  | O => None
  | S fuel =>
      '(a, g, ts) ← parse_cat fuel fold g ts;
      match ts with
      | 124 :: ts => '(b, g, ts) ← parse_alt fuel fold g ts; Some (Or a b, g, ts)
      | _ => Some (a, g, ts)
      end
  end
with parse_cat (fuel : nat) (fold : bool) (g : nat) (ts : list Z) : option (re * nat * list Z) :=
  match fuel with
  | O => None
  | S fuel =>
      match ts with
      | [] | 124 :: _ | 41 :: _ => Some (Eps, g, ts)
      | _ =>
          '(a, g, ts) ← parse_atom fuel fold g ts;
          let '(a, ts) := postfix a ts in
          '(b, g, ts) ← parse_cat fuel fold g ts;
          Some (Cat a b, g, ts)
      end
  end
with parse_atom (fuel : nat) (fold : bool) (g : nat) (ts : list Z) : option (re * nat * list Z) :=
  match fuel with
  | O => None
  | S fuel =>
      match ts with
      | [] => None
      | 40 :: 63 :: 58 :: ts =>
          '(r, g, ts) ← parse_alt fuel fold g ts;
          match ts with 41 :: ts => Some (r, g, ts) | _ => None end
      | 40 :: ts =>
          let n := S g in
          '(r, g, ts) ← parse_alt fuel fold n ts;
          match ts with 41 :: ts => Some (Group n r, g, ts) | _ => None end
      | 91 :: 94 :: ts => '(p, ts) ← class_items ts; Some (Class (λ x, negb (folded fold p x)), g, ts)
      | 91 :: ts => '(p, ts) ← class_items ts; Some (Class (folded fold p), g, ts)
      | 92 :: 98 :: ts => Some (WordB, g, ts)
      | 92 :: e :: ts =>
          Some (Class (match escape_class e with Some p => p | None => folded fold (Z.eqb e) end), g, ts)
      | 94 :: ts => Some (Bol, g, ts)
      | 36 :: ts => Some (Eol, g, ts)
      | 46 :: ts => Some (Class any_rune, g, ts)
      | c :: ts => Some (Class (folded fold (Z.eqb c)), g, ts)
      end
  end.

(** An expression under the flag [(?m)]. *)
Fixpoint multiline (r : re) : re :=
  match r with
  | Cat a b => Cat (multiline a) (multiline b)
  | Or a b => Or (multiline a) (multiline b)
  | Rep greedy min max r => Rep greedy min max (multiline r)
  | Group n r => Group n (multiline r)
  | Bol => LineStart
  | Eol => LineEnd
  | r => r
  end.
(** [regexp.Compile]: the expression and the number of its groups. *)
Definition Regexp : Type := re * nat.
Definition Compile (pattern : string) : option Regexp :=
  let ts := map fst (runes pattern) in
  let '(fold, ts) := match ts with 40 :: 63 :: 105 :: 41 :: ts => (true, ts) | _ => (false, ts) end in
  let '(lines, ts) := match ts with 40 :: 63 :: 109 :: 41 :: ts => (true, ts) | _ => (false, ts) end in
  match parse_alt (S (3 * length ts)) fold O ts with
  | Some (r, g, []) => Some (if lines : bool then multiline r else r, g)
  | _ => None
  end.
Definition compiles (pattern : string) : bool := match Compile pattern with Some _ => true | None => false end.
(** [regexp.MustCompile], of patterns that compile. *)
Definition MustCompile (pattern : string) : Regexp := default (Class (λ _, false), O) (Compile pattern).

(** ** Finding *)

(** The text of a match and of each group; a group that took no part is empty. *)
Definition group_of (cs : caps) (n : nat) : string :=
  match List.find (λ c, Nat.eqb (fst c) n) cs with Some (_, t) => t | None => "" end.
Definition submatches (x : Regexp) (f : found) : list string := map (group_of (snd f)) (seq 0 (S (snd x))).

(** [MatchString] *)
Definition MatchString (x : Regexp) (s : string) : bool :=
  match search_re (fst x) None (runes s) with Some _ => true | None => false end.

(** [FindStringSubmatch] *)
Definition FindStringSubmatch (x : Regexp) (s : string) : option (list string) :=
  submatches x <$> search_re (fst x) None (runes s).

(** [FindAllStringSubmatch] of a pattern that matches no empty text. *)
Fixpoint find_all (fuel : nat) (x : Regexp) (prev : option Z) (s : list rune) : list (list string) :=
  match fuel with
  | O => []
  | S fuel =>
      match search_re (fst x) prev s with
      | Some (prev', s', cs) => submatches x (prev', s', cs) :: find_all fuel x prev' s'
      | None => []
      end
  end.
Definition FindAllStringSubmatch (x : Regexp) (s : string) : list (list string) :=
  find_all (S (length (runes s))) x None (runes s).

(** [ReplaceAllStringFunc] of a pattern that matches no empty text; with a constant
    replacement, [ReplaceAllString] of one that names no group. *)
Fixpoint replace_found (fuel : nat) (x : Regexp) (repl : string → string) (prev : option Z) (s : list rune) : string :=
  match fuel with
  | O => ""
  | S fuel =>
      match match_re (fst x) (λ prev' s' cs, Some (prev', s', (O, between s s') :: cs)) prev s [] with
      | Some (prev', s', cs) => repl (group_of cs O) +:+ replace_found fuel x repl prev' s'
      | None => match s with [] => "" | c :: s' => snd c +:+ replace_found fuel x repl (Some (fst c)) s' end
      end
  end.
Definition ReplaceAllStringFunc (x : Regexp) (s : string) (repl : string → string) : string :=
  replace_found (S (length (runes s))) x repl None (runes s).
Definition ReplaceAllString (x : Regexp) (s repl : string) : string := ReplaceAllStringFunc x s (λ _, repl).
