(* ===== verification/Intent.v ===== *)
(** * What a question asks for ([internal/app/promote/promote.go], [intent.go], [internal/app/enrich/assist.go])

    The intent of a search request: named by the client, or detected from the
    phrasing of the question, with the description of the thing asked about.  Then
    the rewriting of a question: the assistant's answer is made into a search query,
    with reasoning blocks, fences, labels and quotes taken off and what is left
    bounded. *)

From S2P Require Import Prelude GoStrings GoStrconv GoSort GoFloat Domain Store Hits Search GoRegexp.
From Stdlib Require Import Strings.Ascii.

(** ** The promoter *)

(** [Promoter]: the store may be nil; a graph reads the same store. *)
Record Promoter := { pr_store : option Storage; pr_graph : bool; pr_intentOff : bool }.

(** [New] *)
Definition NewPromoter (stor : option Storage) (g : bool) (intentMode : string) : Promoter :=
  {| pr_store := stor; pr_graph := g; pr_intentOff := EqualFold (TrimSpace intentMode) "off" |}.

(** ** Patterns of questions *)

Definition IntentAuto : string := "auto".
Definition IntentCallers : string := "callers".
Definition IntentNone : string := "none".

Definition actionVerbs : string :=
  "calls?|invokes?|uses?|reads?|consumes?|creates?|instantiates?|constructs?|registers?|triggers?|asks?|schedules?|" +:+
  "starts?|launches?|opens?|closes?|deletes?|updates?|queries|fetches?|loads?|saves?|emits?|dispatches?|sends?|" +:+
  "publishes?|produces?|writes?(?:\s+to)?|wires?\s*(?:up)?|listens?\s+to|subscribes?\s+to".

Definition callersTexts : list string := [
  "(?i)^\s*(?:what|who|which)(?:\s+[a-z]+)?\s+(?:" +:+ actionVerbs +:+ ")\s+(.{3,})$";
  "(?i)\b(?:callers?|call\s*sites?|usages?|users?|consumers?)\s+of\s+(.{3,})$";
  "(?i)^\s*where\s+(?:is|are)\s+(.{3,}?)\s+(?:called|used|invoked|referenced|instantiated|created|constructed|" +:+
    "registered|read|written|consumed|wired\s*(?:up)?)\b";
  "(?i)^\s*where\s+(?:do|does)\s+(?:[a-z0-9_.-]+\s+){1,3}(?:" +:+ actionVerbs +:+ ")\s+(.{3,})$";
  "(?i)^\s*how\s+do(?:es)?\s+.{3,}?\s+(?:calls?|checks?|verif(?:y|ies)|validates?|reach(?:es)?|talks?\s+to|queries|" +:+
    "fetch(?:es)?|reads?|uses?|invokes?)\s+(.{3,})$";
  "(?i)^\s*(?:кто|что|какой\s+\S+|какая\s+\S+|какие\s+\S+)\s+(?:вызывает|вызывают|использует|используют|читает|" +:+
    "создает|создаёт|регистрирует|запускает|публикует|потребляет|шлет|шлёт)\s+(.{3,})$";
  "(?i)^\s*где\s+(?:вызывается|используется|читается|создается|создаётся|регистрируется|запускается)\s+(.{3,})$"
].
Definition callersPatterns : list Regexp := map MustCompile callersTexts.

(** Every pattern compiles. *)
Example callers_patterns_compile : forallb compiles callersTexts = true.
Proof. vm_compute. reflexivity. Qed.

(** ** Detection *)

(** The first word of a list that a text begins with, in any case, is cut off. *)
Fixpoint strip_one (heads : list string) (s : string) : string :=
  match heads with
  | [] => s
  | h :: heads =>
      if (String.length h <? String.length s) && EqualFold (String.substring 0 (String.length h) s) h
      then TrimSpace (String.substring (String.length h) (String.length s - String.length h) s)
      else strip_one heads s
  end.

(** [cleanCallee] *)
Definition cleanCallee (s : string) : string :=
  let s := strip_one ["that "; "if "; "whether "] (TrimSpace s) in
  let s := strip_one ["the "; "a "; "an "] s in
  if String.length s <? 3 then "" else s.

(** [detectCallersIntent]; the loop over the patterns. *)
Fixpoint first_callee (patterns : list Regexp) (q : string) : option string :=
  match patterns with
  | [] => None
  | re :: patterns =>
      match FindStringSubmatch re q with
      | None => first_callee patterns q
      | Some m =>
          let callee := cleanCallee (List.last m "") in
          if String.eqb callee "" then first_callee patterns q else Some callee
      end
  end.
Definition detectCallersIntent (query : string) : option string :=
  first_callee callersPatterns (TrimSpace (TrimSuffix (TrimSpace query) "?")).

(** [IntentEnabled] *)
Definition IntentEnabled (p : Promoter) (q : SearchQuery) : bool :=
  let intent := ToLower (TrimSpace (sq_Intent q)) in
  if String.eqb intent IntentNone then false
  else if String.eqb intent "" || String.eqb intent IntentAuto then negb (pr_intentOff p)
  else true.

(** [ResolveIntent]: the intent and the callee, or an error; [Quote] is [strconv.Quote]. *)
Definition ResolveIntent (Quote : string → string) (p : Promoter) (q : SearchQuery) : string + string * string :=
  let intent := ToLower (TrimSpace (sq_Intent q)) in
  if String.eqb intent "" || String.eqb intent IntentAuto then
    if pr_intentOff p then inr ("", "")
    else match detectCallersIntent (sq_Query q) with
         | Some callee => inr (IntentCallers, callee)
         | None => inr ("", "")
         end
  else if String.eqb intent IntentCallers then
    match detectCallersIntent (sq_Query q) with
    | Some callee => inr (IntentCallers, callee)
    | None => inr (IntentCallers, TrimSpace (sq_Query q))
    end
  else if String.eqb intent IntentNone then inr ("", "")
  else inl ("unknown intent " +:+ Quote (sq_Intent q) +:+ " (want auto, callers or none)").

(** The questions of [intent_test.go]. *)
Example detect_positives :
  map detectCallersIntent [
    "what calls the shipping service ShipOrder rpc";
    "what code reads the per-run log filename template off a dag run";
    "where does grafana wire up the panel screenshot service during app startup";
    "callers of ParseFilters"; "where is blendRerankScores called"; "What calls validateAndNormalizeApp?";
    "кто вызывает функцию promoteCallers";
    "how does the ratings service check that a product sku exists in the catalogue"]
  = [Some "shipping service ShipOrder rpc"; Some "per-run log filename template off a dag run";
     Some "panel screenshot service during app startup"; Some "ParseFilters"; Some "blendRerankScores";
     Some "validateAndNormalizeApp"; Some "функцию promoteCallers"; Some "product sku exists in the catalogue"].
Proof. vm_compute. reflexivity. Qed.
Example detect_negatives :
  map detectCallersIntent [
    "where is the retry logic implemented"; "what is the expand search phase";
    "where does POST /api/orders/cancel go"; "how does the reranker work";
    "blendRerankScores"; "error reading frequency"; "what calls it"]
  = repeat None 7.
Proof. vm_compute. reflexivity. Qed.

Definition maxRewrittenQueryLen : nat := 200.
Definition newline : ascii := "010"%char.
Definition quote : ascii := "034"%char.
Definition queryRewritePrompt : string :=
  "Rewrite this natural-language question about a codebase into a short keyword-style search query (identifiers, code terms). " +:+
  "Reply with the query only.".
Definition rewritePrefixes : list string :=
  ["query:"; "search query:"; "rewritten query:"; "rewrite:"; "keywords:"; "search:"; "answer:"; "output:"; "result:"].

(** What follows the first occurrence of [tag] in a text, in any case, and what comes
    before it. *)
Fixpoint cut_fold (tag s : string) : option (string * string) :=
  if EqualFold (String.substring 0 (String.length tag) s) tag
  then Some ("", String.substring (String.length tag) (String.length s - String.length tag) s)
  else match s with "" => None | String c s => prod_map (String c) id <$> cut_fold tag s end.

(** [stripThinkBlocks], at most [fuel] blocks. *)
Fixpoint strip_blocks (fuel : nat) (s : string) : string :=
  match fuel with
  | O => s
  | S fuel =>
      match cut_fold "<think>" s with
      | None => s
      | Some (before, rest) =>
          match cut_fold "</think>" rest with
          | None => before
          | Some (_, after) => strip_blocks fuel (before +:+ after)
          end
      end
  end.
Definition stripThinkBlocks (s : string) : string := strip_blocks (S (String.length s)) s.

(** [stripLabel] *)
Definition stripLabel (line : string) : string :=
  match List.find (HasPrefix (ToLower line)) rewritePrefixes with
  | Some prefix => TrimSpace (String.substring (String.length prefix) (String.length line - String.length prefix) line)
  | None => line
  end.

(** [stripWrappingQuotes]; a wrapped text without its first and last byte, when
    quotes wrap the whole of it. *)
Definition drop_last_byte (s : string) : string := String.substring 0 (String.length s - 1) s.
Definition last_byte (s : string) : option ascii := String.get (String.length s - 1) s.
Definition quote_byte (c : ascii) : bool := Ascii.eqb c quote || Ascii.eqb c "'" || Ascii.eqb c "`".
Definition unwrap (line : string) : option string :=
  match line with
  | "" => None
  | String first rest =>
      match last_byte rest with
      | None => None
      | Some last =>
          if Ascii.eqb first last && quote_byte first && negb (ContainsByte first (drop_last_byte rest))
          then Some (TrimSpace (drop_last_byte rest)) else None
      end
  end.
Fixpoint unwrap_all (fuel : nat) (line : string) : string :=
  match fuel with
  | O => line
  | S fuel => match unwrap line with Some line => unwrap_all fuel line | None => line end
  end.
Definition bullet_byte (c : ascii) : bool := space_byte c || Ascii.eqb c "*" || Ascii.eqb c "#" || Ascii.eqb c "-".
Definition stripWrappingQuotes (line : string) : string := TrimLeftFunc bullet_byte (unwrap_all (String.length line) line).

(** [sanitizeRewrittenQuery] *)
Definition query_line (out : string) : string :=
  default "" (List.find (λ line, negb (String.eqb line "") && negb (HasPrefix line "```")) (map TrimSpace (SplitByte out newline))).
Definition blank_quotes (line : string) : string := str_map (λ c, if Ascii.eqb c quote || Ascii.eqb c "`" then " "%char else c) line.
Definition cut_query (line : string) : string :=
  if maxRewrittenQueryLen <? String.length line then
    let line := String.substring 0 maxRewrittenQueryLen line in
    match CutLast (Ascii.eqb " ") line with
    | Some (before, _) => if String.eqb before "" then line else before
    | None => line
    end
  else line.
Definition sanitizeRewrittenQuery (out : string) : string :=
  let line := query_line (stripThinkBlocks out) in
  if String.eqb line "" then ""
  else
    let line := stripLabel (stripWrappingQuotes (stripLabel line)) in
    TrimSpace (cut_query (Join (Fields (blank_quotes line)) " ")).

(** The assistant of an [Enricher]: a generator, and whether it may rewrite. *)
Record Assistant := { ai_generate : option (string → string + string); ai_rewrite : bool }.

(** [RewriteQuery] *)
Definition RewriteQuery (e : Assistant) (query : string) : string * bool :=
  match ai_generate e with
  | None => (query, false)
  | Some generate =>
      if negb (ai_rewrite e) || String.eqb (TrimSpace query) "" then (query, false)
      else
        match generate (queryRewritePrompt +:+ String newline (String newline query)) with
        | inl _ => (query, false)
        | inr out =>
            let rewritten := sanitizeRewrittenQuery out in
            if String.eqb rewritten "" || String.eqb rewritten query then (query, false) else (rewritten, true)
        end
  end.

Example sanitize_examples :
  map sanitizeRewrittenQuery [
    "<think>hm</think>Query: 'retry backoff'";
    "```" +:+ String newline (String quote ("order service" +:+ String quote ""));
    "<THINK>never closed"; "- kafka consumer"]
  = ["retry backoff"; "order service"; ""; "kafka consumer"].
Proof. vm_compute. reflexivity. Qed.
