(* ===== verification/Callers.v ===== *)
(** * What calls it ([internal/app/promote/callers.go])

    The answer to "what calls X" from the graph: the callees a description means,
    their incoming edges, and a hit at each call site, placed ahead of the ranked
    text hits.  The vocabulary of questions — identifiers, described names, test
    paths — and the placing are shared with the contract passes.  The call sites
    promoted are the first different places of the callees' edges, taken in turns. *)

From S2P Require Import Prelude GoStrings GoStrconv GoSort GoFloat Domain Store Contract Hits Search Graph GoRegexp Intent.
From Stdlib Require Import Strings.Ascii.

Definition calleeFromHits : nat := 6.
Definition calleeRankGate : nat := 2.
Definition calleeMaxUnits : nat := 8.
Definition calleeNameLookup : Z := 60.
Definition calleeIDsPerGroup : nat := 25.
Definition callerEdgeLimit : nat := 50.
Definition maxPromotedCallers : nat := 10.
Definition promotedScoreStep : f32 := f32_lit 1 1000.

(** ** Kinds of edges *)

Definition structuralEdgeKinds : list string := [EdgeImport; EdgeImplementsRPC; EdgeRuntimeCall].
Definition structural (kind : string) : bool := existsb (String.eqb kind) structuralEdgeKinds.

(** A Go map literal: the entry of a key. *)
Definition entry {A} (table : list (string * A)) (key : string) : option A :=
  snd <$> List.find (λ e, String.eqb (fst e) key) table.

Definition callerKindRank : list (string * Z) := [
  (EdgeCall, 0%Z); (EdgeRPCCall, 1%Z); (EdgeHTTPCall, 2%Z); (EdgeHandledBy, 3%Z); (EdgeProduces, 4%Z);
  (EdgeConsumes, 5%Z); (EdgeWritesTo, 6%Z); (EdgeReadsFrom, 7%Z); (EdgeRPCRequest, 8%Z); (EdgeRPCResponse, 9%Z);
  (EdgeKafkaFlow, 10%Z)].
Definition callerKindVerb : list (string * string) := [
  (EdgeCall, "calls"); (EdgeRPCCall, "rpc call to"); (EdgeHTTPCall, "http call to"); (EdgeHandledBy, "routes to");
  (EdgeProduces, "publishes to"); (EdgeConsumes, "consumes"); (EdgeWritesTo, "writes"); (EdgeReadsFrom, "reads");
  (EdgeRPCRequest, "uses message"); (EdgeRPCResponse, "uses message"); (EdgeKafkaFlow, "feeds")].

(** [kindRank], and the verb of a kind. *)
Definition kindRank (kind : string) : Z := default (Z.of_nat (length callerKindRank)) (entry callerKindRank kind).
Definition kindVerb (table : list (string * string)) (kind : string) : string := default "uses" (entry table kind).

(** [testishPath], [resolvedEdge] *)
Definition testishPath (path : string) : bool := IsTestPath path.
Definition resolvedEdge (e : Edge) : bool := negb (String.eqb (e_DstID e) "") && negb (String.eqb (e_DstID e) "0").

(** The comparator of [sortEdgesBy]: a resolved edge before one that is not. *)
Definition edge_before (rank : string → Z) : Edge → Edge → bool :=
  then_by (rank ∘ e_Kind) (then_by (testishPath ∘ e_FilePath) (then_by_desc resolvedEdge
    (then_by_desc e_Confidence (then_by e_FilePath (then_by e_Line tie))))).
Definition sortEdgesBy (rank : string → Z) : list Edge → list Edge := SliceSort (edge_before rank).
Definition sortCallerEdges : list Edge → list Edge := sortEdgesBy kindRank.

(** ** Small helpers *)

(** [repoAllowed] *)
Definition repoAllowed (repos : list string) (repoID : string) : bool :=
  match repos with [] => true | _ => existsb (String.eqb repoID) repos end.

(** [dedupStrings] *)
Fixpoint dedup_from (seen : gset string) (l : list string) : list string :=
  match l with
  | [] => []
  | s :: l => if String.eqb s "" || bool_decide (s ∈ seen) then dedup_from seen l else s :: dedup_from ({[s]} ∪ seen) l
  end.
Definition dedupStrings : list string → list string := dedup_from ∅.

(** [identifierShaped]: what its loop has seen. *)
Record shape := { sh_lower : bool; sh_upper : bool; sh_digit : bool; sh_change : bool; sh_prev : bool }.
Fixpoint scan_shape (first : bool) (st : shape) (tok : string) : shape :=
  match tok with
  | "" => st
  | String c tok =>
      let lower := is_lower_byte c in
      let upper := negb lower && is_upper_byte c in
      scan_shape false {|
        sh_lower := sh_lower st || lower; sh_upper := sh_upper st || upper;
        sh_digit := sh_digit st || is_digit_byte c;
        sh_change := sh_change st || (upper && negb first && sh_prev st); sh_prev := lower |} tok
  end.
Definition identifierShaped (tok : string) : bool :=
  if ContainsByte "_" tok then true
  else
    let st := scan_shape true {| sh_lower := false; sh_upper := false; sh_digit := false; sh_change := false; sh_prev := false |} tok in
    sh_change st || (sh_digit st && (sh_lower st || sh_upper st)).

(** [identifierTokens] *)
Definition token_byte (c : ascii) : bool := Ascii.eqb c "_" || is_lower_byte c || is_upper_byte c || is_digit_byte c.
Definition identifierTokens (s : string) : list string :=
  dedupStrings (filter (λ tok, (3 <=? String.length tok) && identifierShaped tok = true) (FieldsFunc (λ c, negb (token_byte c)) s)).

(** [wordSet], [nameDescribed] *)
Definition wordSet (words : list string) : gset string := list_to_set words.
Definition nameDescribed (name : string) (words : gset string) : bool :=
  match WordComponents name with
  | [] => false
  | comps => forallb (λ c, bool_decide (c ∈ words)) comps && (4 <=? list_sum (map String.length comps))
  end.

(** [rankGateKind] *)
Definition rankGateKind (kind : string) : bool := negb (String.eqb kind KindConfigKey) && negb (String.eqb kind KindSummary).

(** [firstDocLine], [firstNonEmpty] of two *)
Definition newline : ascii := "010"%char.
Definition firstDocLine (doc : string) : string :=
  default "" (List.find (λ line, negb (String.eqb line "")) (map TrimSpace (SplitByte doc newline))).
Definition firstNonEmpty (a b : string) : string := if String.eqb a "" then b else a.

(** [writeUnitHead] of [contracts.go] *)
Definition unit_head (u : ASTUnit) : string :=
  (if String.eqb (u_Kind u) "" then "" else u_Kind u +:+ " ") +:+ firstNonEmpty (u_Qualified u) (u_Name u) +:+ u_Signature u +:+
  (let doc := firstDocLine (u_Doc u) in if String.eqb doc "" then "" else String newline doc).
Definition head_line (src : option ASTUnit) : string :=
  match src with Some u => unit_head u +:+ String newline "" | None => "" end.

(** ** Hits *)

(** [callerSnippet] *)
Definition callerSnippet (e : Edge) (src : option ASTUnit) (callee : ASTUnit) (verb : string) : string :=
  head_line src +:+ verb +:+ " " +:+ firstNonEmpty (u_Qualified callee) (u_Name callee) +:+
  " at " +:+ e_FilePath e +:+ ":" +:+ Itoa (e_Line e).

(** A hit at the line of an edge, of the unit it starts in. *)
Definition edge_hit (e : Edge) (src : option ASTUnit) (reason snippet : string) : Hit := {|
  h_RepoID := e_RepoID e; h_FilePath := e_FilePath e; h_Path := e_FilePath e; h_Line := e_Line e; h_EndLine := e_Line e;
  h_Symbol := from_option u_Name "" src; h_Kind := from_option u_Kind "" src; h_Language := from_option u_Language "" src;
  h_Score := f32_of_Z 0; h_Snippet := snippet; h_Reason := reason |}.

(** [callerHit] *)
Definition callerHit (e : Edge) (src : option ASTUnit) (callee : ASTUnit) : Hit :=
  let verb := kindVerb callerKindVerb (e_Kind e) in
  edge_hit e src (verb +:+ " " +:+ u_Name callee) (callerSnippet e src callee verb).

(** The place of a hit: its repository, file and line, as the keys of [seen] spell it. *)
Definition zero : string := String (ascii_of_nat 0) "".
Definition place_key (repoID path : string) (line : Z) : string := repoID +:+ zero +:+ path +:+ zero +:+ Itoa line.
Definition edge_place (e : Edge) : string := place_key (e_RepoID e) (e_FilePath e) (e_Line e).
Definition hit_place (h : Hit) : string := place_key (h_RepoID h) (h_FilePath h) (h_Line h).

(** [overlapsAny] *)
Definition overlapsAny (h : Hit) (l : list Hit) : bool := existsb (λ p, Overlaps p h) l.

(** [prependPromoted] *)
Definition top_score (hits : list Hit) : f32 :=
  match hits with h :: _ => if fpos (h_Score h) then h_Score h else f32_of_Z 1 | [] => f32_of_Z 1 end.
Definition promoted_score (top : f32) (n i : nat) : f32 :=
  f32_add top (f32_mul promotedScoreStep (f32_of_Z (Z.of_nat (n - i)))).
Definition rescore (top : f32) (promoted : list Hit) : list Hit :=
  imap (λ i h, set_score h (promoted_score top (length promoted) i)) promoted.
Definition prependPromoted (promoted hits : list Hit) : list Hit :=
  let promoted := rescore (top_score hits) promoted in
  promoted ++ filter (λ h, overlapsAny h promoted = false) hits.

(** ** Callees *)

(** [calleeGroup]: a callee, by one of the units that declare it, and their ids. *)
Record calleeGroup := { cg_repr : ASTUnit; cg_ids : list string }.

(** The identity of a callee: its qualified name, or its kind and name. *)
Definition callee_key (u : ASTUnit) : string :=
  if String.eqb (u_Qualified u) "" then u_Kind u +:+ zero +:+ u_Name u else u_Qualified u.

(** The groups made so far, and [byKey], which says where the group of a key is. *)
Record callees := { ca_out : list calleeGroup; ca_byKey : gmap string nat }.
Definition add_id (id : string) (g : calleeGroup) : calleeGroup :=
  if length (cg_ids g) <? calleeIDsPerGroup then {| cg_repr := cg_repr g; cg_ids := cg_ids g ++ [id] |} else g.
Definition add_callee (st : callees) (u : ASTUnit) : callees :=
  if String.eqb (u_ID u) "" then st
  else
    let key := callee_key u in
    match ca_byKey st !! key with
    | Some i => {| ca_out := alter (add_id (u_ID u)) i (ca_out st); ca_byKey := ca_byKey st |}
    | None =>
        if calleeMaxUnits <=? length (ca_out st) then st
        else {| ca_out := ca_out st ++ [{| cg_repr := u; cg_ids := [u_ID u] |}];
                ca_byKey := <[key := length (ca_out st)]> (ca_byKey st) |}
    end.

Section Callers.
  Context {S : Storage}.

(** The units an identifier of the question names. *)
Definition single_repo (repos : list string) : string := match repos with [r] => r | _ => "" end.
Definition name_opts (repos : list string) (tok : string) : QueryOpts := {|
  q_RepoID := single_repo repos; q_Repos := []; q_FilePath := ""; q_Language := ""; q_Kind := ""; q_Kinds := [];
  q_Name := tok; q_Qualified := ""; q_QualifiedSuffix := ""; q_NameOrQualified := ""; q_Fallback := false;
  q_SrcID := ""; q_DstID := ""; q_Unresolved := false; q_Line := 0; q_Limit := calleeNameLookup |}.
Definition named_units (repos : list string) (tok : string) : list ASTUnit :=
  match GetASTUnits (name_opts repos tok) with
  | inl _ => []
  | inr units => filter (λ u, repoAllowed repos (u_RepoID u) = true) units
  end.

(** The loop over the leading hits. *)
Fixpoint callees_of_hits (words : gset string) (i : nat) (hits : list Hit) (st : callees) : callees :=
  match hits with
  | [] => st
  | h :: hits =>
      if (calleeFromHits <=? i) || (calleeMaxUnits <=? length (ca_out st)) then st
      else
        let st :=
          match UnitInRange (h_RepoID h) (h_FilePath h) (h_Line h) (h_EndLine h) with
          | inl _ => st
          | inr unit =>
              let gated := (i <? calleeRankGate) && negb (testishPath (h_FilePath h)) && rankGateKind (u_Kind unit) in
              if gated || nameDescribed (u_Name unit) words then add_callee st unit else st
          end in
        callees_of_hits words (Datatypes.S i) hits st
  end.

(** [calleeUnits] *)
Definition calleeUnits (q : SearchQuery) (callee : string) (hits : list Hit) : list calleeGroup :=
  let st := foldl (λ st tok, foldl add_callee st (named_units (sq_Repos q) tok))
                  {| ca_out := []; ca_byKey := ∅ |} (identifierTokens callee) in
  ca_out (callees_of_hits (wordSet (WordComponents callee)) 0 hits st).

(** ** Callers *)

Definition dst_opts (id : string) (limit : Z) : QueryOpts := {|
  q_RepoID := ""; q_Repos := []; q_FilePath := ""; q_Language := ""; q_Kind := ""; q_Kinds := [];
  q_Name := ""; q_Qualified := ""; q_QualifiedSuffix := ""; q_NameOrQualified := ""; q_Fallback := false;
  q_SrcID := ""; q_DstID := id; q_Unresolved := false; q_Line := 0; q_Limit := limit |}.
Definition unresolved_opts (repoID name : string) (limit : Z) : QueryOpts := {|
  q_RepoID := repoID; q_Repos := []; q_FilePath := ""; q_Language := ""; q_Kind := ""; q_Kinds := [];
  q_Name := name; q_Qualified := ""; q_QualifiedSuffix := ""; q_NameOrQualified := ""; q_Fallback := false;
  q_SrcID := ""; q_DstID := ""; q_Unresolved := true; q_Line := 0; q_Limit := limit |}.
Definition room (edges : list Edge) : Z := (Z.of_nat callerEdgeLimit - Z.of_nat (length edges))%Z.

(** [incomingEdges]: the loop over the ids, and the whole. *)
Fixpoint resolved_edges (ids : list string) (edges : list Edge) : list Edge :=
  match ids with
  | [] => edges
  | id :: ids =>
      if callerEdgeLimit <=? length edges then edges
      else resolved_edges ids (match GetEdges (dst_opts id (room edges)) with inl _ => edges | inr found => edges ++ found end)
  end.
Definition uses_callee (ids : list string) (e : Edge) : bool :=
  negb (structural (e_Kind e)) && negb (existsb (String.eqb (e_SrcID e)) ids).
Definition incomingEdges (g : calleeGroup) : list Edge :=
  let edges := resolved_edges (cg_ids g) [] in
  let edges :=
    if length edges <? callerEdgeLimit then
      match GetEdges (unresolved_opts (u_RepoID (cg_repr g)) (u_Name (cg_repr g)) (room edges)) with
      | inl _ => edges
      | inr unresolved => edges ++ unresolved
      end
    else edges in
  filter (λ e, uses_callee (cg_ids g) e = true) edges.

(** [unitsByID] *)
Definition unitsByID (ids : list string) : gmap string ASTUnit :=
  match ids with
  | [] => ∅
  | _ =>
      match GetASTUnitsByIDs (dedupStrings ids) with
      | inl _ => ∅
      | inr units => foldl (λ m u, <[u_ID u := u]> m) ∅ units
      end
  end.

(** [callerHits].  One round takes the next edge of every callee; [co_out] are the
    hits so far and [co_seen] their places. *)
Record collected := { co_out : list Hit; co_seen : gset string }.
Definition take_edge (repos : list string) (filters : Filters) (units : gmap string ASTUnit) (repr : ASTUnit) (e : Edge)
    (st : collected) : collected :=
  if negb (repoAllowed repos (e_RepoID e)) then st
  else if bool_decide (edge_place e ∈ co_seen st) then st
  else
    let hit := callerHit e (units !! e_SrcID e) repr in
    if negb (Filters_Empty filters) && negb (Filters_Match filters (h_Language hit) (h_Kind hit) (h_FilePath hit)) then st
    else {| co_out := co_out st ++ [hit]; co_seen := {[edge_place e]} ∪ co_seen st |}.
Definition round_step (take : ASTUnit → Edge → collected → collected) (round : nat) (acc : bool * collected)
    (c : ASTUnit * list Edge) : bool * collected :=
  let '(advanced, st) := acc in
  match snd c !! round with
  | None => acc
  | Some e => if maxPromotedCallers <=? length (co_out st) then acc else (true, take (fst c) e st)
  end.
Fixpoint rounds (take : ASTUnit → Edge → collected → collected) (perCallee : list (ASTUnit * list Edge)) (fuel round : nat)
    (st : collected) : collected :=
  match fuel with
  | O => st
  | Datatypes.S fuel =>
      if maxPromotedCallers <=? length (co_out st) then st
      else
        let '(advanced, st) := foldl (round_step take round) (false, st) perCallee in
        if advanced then rounds take perCallee fuel (Datatypes.S round) st else st
  end.
Definition source_ids (edges : list Edge) : list string :=
  filter (λ id, id ≠ "" ∧ id ≠ "0") (map e_SrcID edges).
Definition callerHits (q : SearchQuery) (callees : list calleeGroup) : list Hit :=
  let filters := ParseFilters (sq_Filter q) in
  let perCallee := map (λ g, (cg_repr g, sortCallerEdges (incomingEdges g))) callees in
  let units := unitsByID (source_ids (concat (map snd perCallee))) in
  co_out (rounds (take_edge (sq_Repos q) filters units) perCallee
            (Datatypes.S (list_max (map (length ∘ snd) perCallee))) 0 {| co_out := []; co_seen := ∅ |}).
End Callers.

(** [PromoteCallers] *)
Definition PromoteCallers (p : Promoter) (q : SearchQuery) (callee : string) (hits : list Hit) (meta : Meta) : list Hit * Meta :=
  match pr_store p with
  | Some stor =>
      if negb (pr_graph p) then (hits, meta)
      else
        let meta := <["intent" := MString IntentCallers]> meta in
        match @calleeUnits stor q callee hits with
        | [] => (hits, meta)
        | callees =>
            let meta := <["intent_callees" := MStrings (map (u_Name ∘ cg_repr) callees)]> meta in
            match @callerHits stor q callees with
            | [] => (hits, meta)
            | promoted =>
                (prependPromoted promoted hits, <["intent_promoted" := MInt (Z.of_nat (length promoted))]> meta)
            end
        end
  | None => (hits, meta)
  end.

(** ** Placing *)

Lemma set_score_place h s : hit_place (set_score h s) = hit_place h.
Proof. done. Qed.
Lemma rescore_fmap {B} (f : Hit → B) top l : (∀ h s, f (set_score h s) = f h) → map f (rescore top l) = map f l.
Proof.
  intros Hf. unfold rescore. generalize (promoted_score top (length l)). intros score.
  revert score. induction l as [|h l IH]; intros score; simpl; [done |]. rewrite Hf. f_equal. apply (IH (score ∘ Datatypes.S)).
Qed.
Lemma rescore_length top l : length (rescore top l) = length l.
Proof. unfold rescore. apply length_imap. Qed.

(** Scores do not decide whether hits overlap. *)
Lemma overlapsAny_rescore h top l : overlapsAny h (rescore top l) = overlapsAny h l.
Proof.
  unfold overlapsAny. pose proof (rescore_fmap (λ p, Overlaps p h) top l ltac:(done)) as E.
  transitivity (existsb id (map (λ p, Overlaps p h) (rescore top l))); [|rewrite E];
    clear; [generalize (rescore top l); intros l' | generalize l; intros l']; induction l' as [|x l' IH]; simpl; try done; by rewrite ?IH, <- ?IH.
Qed.

(** What is served: the promoted hits, then the ranked ones that point at none of
    their lines, in their order. *)
Lemma prependPromoted_spec promoted hits :
  prependPromoted promoted hits = rescore (top_score hits) promoted ++ filter (λ h, overlapsAny h promoted = false) hits.
Proof.
  unfold prependPromoted. f_equal. apply list_filter_iff. intros h. by rewrite overlapsAny_rescore.
Qed.

(** Nothing is placed when nothing was promoted. *)
Definition placed (promoted hits : list Hit) : list Hit :=
  match promoted with [] => hits | _ => prependPromoted promoted hits end.
Lemma placed_spec promoted hits :
  placed promoted hits =
  match promoted with
  | [] => hits
  | _ => rescore (top_score hits) promoted ++ filter (λ h, overlapsAny h promoted = false) hits
  end.
Proof. destruct promoted; [done |]. apply prependPromoted_spec. Qed.

(** ** The first of every place

    What every promotion does with its candidates: those that are admitted, the
    first at every place, up to a cap. *)

Section Places.
  Context {A : Type} (place : A → string).

Fixpoint first_places (seen : gset string) (l : list A) : list A :=
  match l with
  | [] => []
  | a :: l =>
      if bool_decide (place a ∈ seen) then first_places seen l else a :: first_places ({[place a]} ∪ seen) l
  end.

Lemma first_places_elem seen l a : a ∈ first_places seen l → a ∈ l.
Proof.
  revert seen. induction l as [|x l IH]; intros seen; simpl; [done |]. destruct (bool_decide _).
  - intros H%IH. by right.
  - intros [->|H%IH]%elem_of_cons; [by left | by right].
Qed.
Lemma first_places_nodup seen l :
  NoDup (map place (first_places seen l)) ∧ ∀ a, a ∈ first_places seen l → place a ∉ seen.
Proof.
  revert seen. induction l as [|x l IH]; intros seen; simpl; [split; [apply NoDup_nil_2 | by intros ? ?%elem_of_nil] |].
  destruct (bool_decide_reflect (place x ∈ seen)); [apply IH |].
  destruct (IH ({[place x]} ∪ seen)) as [H1 H2]. split.
  - simpl. constructor; [|done]. intros (a & E & Hin)%list_elem_of_fmap. apply H2 in Hin. set_solver.
  - intros a [->|Hin%H2]%elem_of_cons; [done | set_solver].
Qed.
Lemma first_places_covers seen l a : a ∈ l → place a ∈ seen ∨ place a ∈ map place (first_places seen l).
Proof.
  revert seen. induction l as [|x l IH]; intros seen; simpl; [by intros ?%elem_of_nil |].
  intros [->|Hin]%elem_of_cons.
  - destruct (bool_decide_reflect (place x ∈ seen)); [by left |]. right. simpl. left.
  - destruct (bool_decide_reflect (place x ∈ seen)); [by apply IH |].
    destruct (IH ({[place x]} ∪ seen) Hin) as [H|H]; [|right; by right].
    apply elem_of_union in H as [->%elem_of_singleton|H]; [right; left | by left].
Qed.

Context (hit : A → Hit) (ok : A → bool) (cap : nat).
Definition place_step (st : list Hit * gset string) (a : A) : list Hit * gset string :=
  if cap <=? length (fst st) then st
  else if ok a && negb (bool_decide (place a ∈ snd st)) then (fst st ++ [hit a], {[place a]} ∪ snd st) else st.
Lemma place_step_full st l : cap ≤ length (fst st) → foldl place_step st l = st.
Proof.
  intros H. induction l as [|a l IH]; simpl; [done |]. unfold place_step at 2. by rewrite (proj2 (Nat.leb_le _ _) H).
Qed.
Lemma place_step_out l st :
  length (fst st) ≤ cap →
  fst (foldl place_step st l) = take cap (fst st ++ map hit (first_places (snd st) (filter (λ a, ok a = true) l))).
Proof.
  revert st. induction l as [|a l IH]; intros st Hl.
  { simpl. by rewrite app_nil_r, take_ge. }
  destruct (decide (cap ≤ length (fst st))) as [Hf|Hf].
  { rewrite place_step_full by done. rewrite take_app_le by lia. by rewrite take_ge. }
  cbn [foldl]. unfold place_step at 2. rewrite (proj2 (Nat.leb_gt _ _)) by lia.
  rewrite filter_cons. destruct (ok a) eqn:Ea; simpl; [|by apply IH].
  destruct (bool_decide _); simpl; [by apply IH |].
  rewrite IH by (simpl; rewrite length_app; simpl; lia). simpl. by rewrite <- app_assoc.
Qed.
End Places.

(** ** Taking in turns *)

(** One round takes an edge of every callee that has one left. *)
Definition turn (perCallee : list (ASTUnit * list Edge)) (round : nat) : list (ASTUnit * Edge) :=
  omap (λ c, pair (fst c) <$> snd c !! round) perCallee.
Definition turns (perCallee : list (ASTUnit * list Edge)) : list (ASTUnit * Edge) :=
  concat (map (turn perCallee) (seq 0 (list_max (map (length ∘ snd) perCallee)))).

(** An edge a callee is used by stands at its line. *)
Definition site_place (ce : ASTUnit * Edge) : string := edge_place (snd ce).

Section Turns.
  Context (repos : list string) (filters : Filters) (units : gmap string ASTUnit).

Definition site (ce : ASTUnit * Edge) : Hit := callerHit (snd ce) (units !! e_SrcID (snd ce)) (fst ce).
Definition admitted (ce : ASTUnit * Edge) : bool :=
  repoAllowed repos (e_RepoID (snd ce)) &&
  (Filters_Empty filters || Filters_Match filters (h_Language (site ce)) (h_Kind (site ce)) (h_FilePath (site ce))).
Definition take_site (st : collected) (ce : ASTUnit * Edge) : collected := take_edge repos filters units (fst ce) (snd ce) st.

Lemma take_site_cases st ce :
  take_site st ce =
  if admitted ce && negb (bool_decide (edge_place (snd ce) ∈ co_seen st))
  then {| co_out := co_out st ++ [site ce]; co_seen := {[edge_place (snd ce)]} ∪ co_seen st |} else st.
Proof.
  unfold take_site, take_edge, admitted. fold (site ce).
  destruct (repoAllowed _ _); simpl; [|done]. destruct (bool_decide _); simpl; [by rewrite andb_false_r |].
  destruct (Filters_Empty filters); simpl; [done |]. by destruct (Filters_Match _ _ _ _).
Qed.

(** Taking up to the cap, one edge at a time. *)
Definition capped (st : collected) (ce : ASTUnit * Edge) : collected :=
  if maxPromotedCallers <=? length (co_out st) then st else take_site st ce.
Lemma capped_step st ce :
  (co_out (capped st ce), co_seen (capped st ce)) = place_step site_place site admitted maxPromotedCallers (co_out st, co_seen st) ce.
Proof.
  unfold capped, place_step. cbn [fst snd]. destruct (_ <=? _); [done |]. rewrite take_site_cases. unfold site_place. by destruct (_ && _).
Qed.
Lemma capped_steps l st :
  (co_out (foldl capped st l), co_seen (foldl capped st l)) =
  foldl (place_step site_place site admitted maxPromotedCallers) (co_out st, co_seen st) l.
Proof. revert st. induction l as [|ce l IH]; intros st; simpl; [done |]. by rewrite IH, capped_step. Qed.
Lemma capped_full st l : maxPromotedCallers ≤ length (co_out st) → foldl capped st l = st.
Proof.
  intros H. induction l as [|ce l IH]; simpl; [done |]. unfold capped at 2. by rewrite (proj2 (Nat.leb_le _ _) H).
Qed.
Lemma capped_out l st :
  length (co_out st) ≤ maxPromotedCallers →
  co_out (foldl capped st l) =
  take maxPromotedCallers (co_out st ++ map site (first_places site_place (co_seen st) (filter (λ ce, admitted ce = true) l))).
Proof. intros H. pose proof (f_equal fst (capped_steps l st)) as E. cbn [fst] in E. rewrite E. by apply place_step_out. Qed.

Lemma turn_cons repr edges perCallee round :
  turn ((repr, edges) :: perCallee) round = option_list (pair repr <$> edges !! round) ++ turn perCallee round.
Proof. unfold turn. simpl. by destruct (edges !! round). Qed.

(** A round is its turn. *)
Lemma round_turn perCallee round adv st :
  let '(adv', st') := foldl (round_step (λ repr e st, take_site st (repr, e)) round) (adv, st) perCallee in
  st' = foldl capped st (turn perCallee round) ∧
  (adv' = false → adv = false ∧ (maxPromotedCallers ≤ length (co_out st') ∨ turn perCallee round = [])).
Proof.
  revert adv st. induction perCallee as [|[repr edges] perCallee IH]; intros adv st; [simpl; auto |].
  cbn [foldl]. unfold round_step at 2. cbn [snd fst]. rewrite turn_cons, foldl_app.
  destruct (edges !! round) as [e|]; [|apply IH].
  change (option_list _) with [(repr, e)]. cbn [foldl].
  assert (capped st (repr, e) = if maxPromotedCallers <=? length (co_out st) then st else take_site st (repr, e)) as -> by done.
  destruct (Nat.leb_spec maxPromotedCallers (length (co_out st))) as [Hf|Hf].
  - specialize (IH adv st). destruct (foldl _ (adv, st) perCallee) as [adv' st']. destruct IH as [-> IH]. split; [done |].
    intros Ha. destruct (IH Ha) as [? _]. split; [done |]. left. by rewrite capped_full.
  - specialize (IH true (take_site st (repr, e))). destruct (foldl _ (true, _) perCallee) as [adv' st']. destruct IH as [-> IH].
    split; [done |]. intros Ha. by destruct (IH Ha).
Qed.

Lemma turn_nil_later perCallee round later : turn perCallee round = [] → round ≤ later → turn perCallee later = [].
Proof.
  intros H Hle. induction perCallee as [|[repr edges] perCallee IH]; [done |]. unfold turn in *. simpl in *.
  destruct (edges !! round) as [e|] eqn:He; [done |]. simpl in H. apply lookup_ge_None in He.
  rewrite (proj2 (lookup_ge_None _ _)) by lia. by apply IH.
Qed.
Lemma turn_past perCallee round : list_max (map (length ∘ snd) perCallee) ≤ round → turn perCallee round = [].
Proof.
  intros Hm. unfold turn. induction perCallee as [|[repr edges] perCallee IH]; [done |]. simpl in *.
  by rewrite (proj2 (lookup_ge_None _ _)) by lia; simpl; apply IH; lia.
Qed.

(** The rounds go on as long as a callee has edges and there is room. *)
Lemma rounds_turns perCallee fuel round st :
  list_max (map (length ∘ snd) perCallee) < round + fuel →
  rounds (λ repr e st, take_site st (repr, e)) perCallee fuel round st =
  foldl capped st (concat (map (turn perCallee) (seq round (list_max (map (length ∘ snd) perCallee) - round)))).
Proof.
  set (m := list_max _). revert round st. induction fuel as [|fuel IH]; intros round st Hm.
  { replace (m - round) with 0 by lia. done. }
  cbn [rounds]. destruct (Nat.leb_spec maxPromotedCallers (length (co_out st))) as [Hf|Hf]; [by rewrite capped_full |].
  pose proof (round_turn perCallee round false st) as H.
  destruct (foldl _ (false, st) perCallee) as [adv st']. destruct H as [-> H].
  assert (concat (map (turn perCallee) (seq round (m - round))) =
          turn perCallee round ++ concat (map (turn perCallee) (seq (Datatypes.S round) (m - Datatypes.S round)))) as ->.
  { destruct (decide (round < m)).
    - replace (m - round) with (Datatypes.S (m - Datatypes.S round)) by lia. done.
    - replace (m - round) with 0 by lia. replace (m - Datatypes.S round) with 0 by lia.
      by rewrite turn_past by (fold m; lia). }
  rewrite foldl_app. destruct adv; [apply IH; lia |].
  destruct (H eq_refl) as [_ [Hfull|Hnil]]; [symmetry; by apply capped_full |].
  rewrite Hnil. simpl. assert (∀ n k, round ≤ k → concat (map (turn perCallee) (seq k n)) = []) as ->; [|done | lia].
  intros n. induction n as [|n IHn]; intros k Hk; simpl; [done |].
  rewrite (turn_nil_later _ _ k Hnil) by lia. apply IHn. lia.
Qed.
End Turns.

(** ** The callees *)

(** What the groups are: of different things, at most eight, each by ids that are
    there, at most 25. *)
Record groups_ok (st : callees) : Prop := {
  go_max : length (ca_out st) ≤ calleeMaxUnits;
  go_at i g : ca_out st !! i = Some g → ca_byKey st !! callee_key (cg_repr g) = Some i;
  go_key key i : ca_byKey st !! key = Some i → i < length (ca_out st);
  go_ids : Forall (λ g, cg_ids g ≠ [] ∧ length (cg_ids g) ≤ calleeIDsPerGroup ∧ "" ∉ cg_ids g) (ca_out st)
}.
Lemma no_groups_ok : groups_ok {| ca_out := []; ca_byKey := ∅ |}.
Proof. split; simpl; [lia | done | by intros key i [=] | constructor]. Qed.

Lemma add_id_repr id g : cg_repr (add_id id g) = cg_repr g.
Proof. unfold add_id. by destruct (_ <? _). Qed.
Lemma add_id_ok id g :
  id ≠ "" → cg_ids g ≠ [] ∧ length (cg_ids g) ≤ calleeIDsPerGroup ∧ "" ∉ cg_ids g →
  cg_ids (add_id id g) ≠ [] ∧ length (cg_ids (add_id id g)) ≤ calleeIDsPerGroup ∧ "" ∉ cg_ids (add_id id g).
Proof.
  intros Hid (H1 & H2 & H3). unfold add_id. destruct (Nat.ltb_spec (length (cg_ids g)) calleeIDsPerGroup); [|done]. cbn [cg_ids].
  split; [by intros [? ?]%app_eq_nil |]. rewrite length_app, elem_of_app, list_elem_of_singleton. split; [simpl; lia |].
  intros [?|?]; congruence.
Qed.

Lemma add_callee_ok st u : groups_ok st → groups_ok (add_callee st u).
Proof.
  intros [H1 H2 H3 H4]. unfold add_callee. destruct (String.eqb_spec (u_ID u) ""); [by split |].
  destruct (ca_byKey st !! callee_key u) as [i|] eqn:Ek.
  - assert (∀ j g, alter (add_id (u_ID u)) i (ca_out st) !! j = Some g →
              ∃ g', ca_out st !! j = Some g' ∧ cg_repr g = cg_repr g' ∧ (g = g' ∨ g = add_id (u_ID u) g')) as Halt.
    { intros j g. destruct (decide (i = j)) as [->|].
      - rewrite list_lookup_alter_eq. intros (g' & Hg & ->)%fmap_Some. exists g'. rewrite add_id_repr. auto.
      - rewrite list_lookup_alter_ne by done. eauto. }
    split; cbn [ca_out ca_byKey]; rewrite ?length_alter; [done | | done |].
    + intros j g (g' & Hg & -> & _)%Halt. by apply H2.
    + apply Forall_lookup. intros j g (g' & Hg & _ & [->| ->])%Halt; [|apply add_id_ok; [done |]]; exact (Forall_lookup_1 _ _ _ _ H4 Hg).
  - destruct (Nat.leb_spec calleeMaxUnits (length (ca_out st))); [by split |].
    split; cbn [ca_out ca_byKey]; rewrite ?length_app; [simpl; lia | | |].
    + intros i g [Hg|[Hi Hg]]%lookup_app_Some.
      * rewrite lookup_insert_ne; [by apply H2 |]. intros E. rewrite E, (H2 _ _ Hg) in Ek. done.
      * destruct (i - length (ca_out st)) as [|k] eqn:Ed; [|by destruct k]. injection Hg as <-. rewrite lookup_insert_eq. f_equal. lia.
    + intros key i. destruct (decide (key = callee_key u)) as [->|].
      * rewrite lookup_insert_eq. intros [= <-]. simpl. lia.
      * rewrite lookup_insert_ne by done. intros Hi%H3. lia.
    + apply Forall_app. split; [done |]. constructor; [|constructor]. cbn [cg_ids].
      split; [done |]. rewrite list_elem_of_singleton. split; [simpl; unfold calleeIDsPerGroup; lia | congruence].
Qed.
Lemma add_callees_ok us st : groups_ok st → groups_ok (foldl add_callee st us).
Proof. revert st. induction us as [|u us IH]; intros st H; simpl; [done |]. by apply IH, add_callee_ok. Qed.

Section Answers.
  Context {stor : Storage}.

Lemma callees_of_hits_ok words i hits st : groups_ok st → groups_ok (callees_of_hits words i hits st).
Proof.
  revert i st. induction hits as [|h hits IH]; intros i st H; simpl; [done |].
  destruct (_ || _); [done |]. apply IH. destruct (UnitInRange _ _ _ _) as [|u]; [done |].
  destruct (_ || _); [by apply add_callee_ok | done].
Qed.
Lemma calleeUnits_ok q callee hits : ∃ st, groups_ok st ∧ calleeUnits q callee hits = ca_out st.
Proof.
  unfold calleeUnits. eexists. split; [|done]. apply callees_of_hits_ok.
  generalize no_groups_ok. generalize {| ca_out := []; ca_byKey := ∅ |}.
  induction (identifierTokens callee) as [|tok toks IH]; intros st H; simpl; [done |]. by apply IH, add_callees_ok.
Qed.
Lemma groups_distinct st : groups_ok st → NoDup (map (callee_key ∘ cg_repr) (ca_out st)).
Proof.
  intros H. apply NoDup_alt. intros i j k Hi Hj. rewrite list_lookup_fmap in Hi, Hj.
  apply fmap_Some in Hi as (g1 & Hg1 & ->), Hj as (g2 & Hg2 & E). simpl in E.
  pose proof (go_at _ H _ _ Hg1) as E1. pose proof (go_at _ H _ _ Hg2) as E2. rewrite E in E1. congruence.
Qed.

(** ** The edges of a callee *)

(** What is read of the store: the edges found are those asked for. *)
Definition edges_found : Prop := ∀ o es, GetEdges o = inr es → Forall (λ e, edge_matches o e = true) es.

Lemma edge_matches_spec o e :
  edge_matches o e = true →
  (q_RepoID o = "" ∨ q_RepoID o = e_RepoID e) ∧ (q_Kind o = "" ∨ q_Kind o = e_Kind e) ∧ (q_Kinds o = [] ∨ e_Kind e ∈ q_Kinds o) ∧
  (q_Name o = "" ∨ q_Name o = e_DstName e) ∧ (q_SrcID o = "" ∨ q_SrcID o = e_SrcID e) ∧ (q_DstID o = "" ∨ q_DstID o = e_DstID e).
Proof.
  unfold edge_matches, or_empty. rewrite !andb_true_iff, !orb_true_iff, !String.eqb_eq. intros (((((((? & ?) & ?) & Hk) & ?) & ?) & ?) & ?).
  split_and!; try done. unfold one_of in Hk. destruct (q_Kinds o) as [|k ks]; [by left | right].
  apply existsb_exists in Hk as (x & Hx & ->%String.eqb_eq). by apply list_elem_of_In.
Qed.

(** An edge into a callee: resolved to one of its ids, or unresolved and of its name. *)
Definition into (g : calleeGroup) (e : Edge) : Prop :=
  e_DstID e ∈ cg_ids g ∨
  e_DstID e = "" ∧ or_empty (u_RepoID (cg_repr g)) (e_RepoID e) = true ∧ or_empty (u_Name (cg_repr g)) (e_DstName e) = true.

Lemma resolved_edges_into (P : Edge → Prop) ids edges :
  edges_found → "" ∉ ids → (∀ e, e_DstID e ∈ ids → P e) → Forall P edges → Forall P (resolved_edges ids edges).
Proof.
  intros He. revert edges. induction ids as [|id ids IH]; intros edges Hids HP Hed; [done |]. cbn [resolved_edges].
  destruct (callerEdgeLimit <=? length edges); [done |].
  apply not_elem_of_cons in Hids as [Hid Hids].
  apply IH; [done | intros e ?; apply HP; by right |].
  destruct (GetEdges _) as [|es] eqn:Eg; [done |]. apply Forall_app. split; [done |].
  eapply Forall_impl; [by apply (He _ _ Eg) |]. intros e. unfold edge_matches. simpl.
  rewrite andb_true_r. unfold or_empty. intros [?%String.eqb_eq|E%String.eqb_eq]%orb_true_iff; [congruence |].
  apply HP. rewrite <- E. left.
Qed.

Lemma incomingEdges_into g :
  edges_found → "" ∉ cg_ids g → Forall (λ e, into g e ∧ structural (e_Kind e) = false ∧ e_SrcID e ∉ cg_ids g) (incomingEdges g).
Proof.
  intros He Hids. unfold incomingEdges. set (res := resolved_edges _ _).
  assert (Forall (into g) res) as Hres by (apply resolved_edges_into; [done | done | by left | done]).
  match goal with |- Forall _ (filter _ ?l) => set (all := l) end.
  assert (Forall (into g) all) as Hall.
  { unfold all. destruct (_ <? _); [|done]. destruct (GetEdges _) as [|es] eqn:Eg; [done |]. apply Forall_app. split; [done |].
    eapply Forall_impl; [by apply (He _ _ Eg) |]. intros e. unfold edge_matches. simpl. rewrite !andb_true_iff.
    intros H. right. rewrite <- (String.eqb_eq (e_DstID e)). tauto. }
  apply Forall_forall. intros e [Hu Hin]%list_elem_of_filter. rewrite Forall_forall in Hall. split; [by apply Hall |].
  unfold uses_callee in Hu. apply andb_true_iff in Hu as [H1%negb_true_iff H2%negb_true_iff]. split; [done |].
  intros Hin'. rewrite (proj2 (existsb_exists _ _)) in H2; [done |]. exists (e_SrcID e). split; [by apply list_elem_of_In | apply String.eqb_refl].
Qed.
End Answers.

(** ** The call sites *)

Lemma turns_elem perCallee repr e :
  (repr, e) ∈ turns perCallee ↔ ∃ edges, (repr, edges) ∈ perCallee ∧ e ∈ edges.
Proof.
  unfold turns. rewrite list_elem_of_In, in_concat. split.
  - intros (l & (r & <- & _)%in_map_iff & Hin%list_elem_of_In). unfold turn in Hin.
    apply list_elem_of_omap in Hin as ([repr' edges] & Hc & (e' & He & [= -> ->])%fmap_Some). exists edges. split; [done |].
    by eapply list_elem_of_lookup_2.
  - intros (edges & Hc & [r Hr]%list_elem_of_lookup). exists (turn perCallee r). split.
    + apply in_map, in_seq. split; [lia |]. apply lookup_lt_Some in Hr.
      assert (length edges ≤ list_max (map (length ∘ snd) perCallee)); [|lia].
      pose proof (proj1 (list_max_le (map (length ∘ snd) perCallee) _) (le_n _)) as Hm. rewrite Forall_forall in Hm.
      apply Hm. apply list_elem_of_fmap. by exists (repr, edges).
    + apply list_elem_of_In, list_elem_of_omap. exists (repr, edges). split; [done |]. simpl. by rewrite Hr.
Qed.
Section CallSites.
  Context {stor : Storage} (q : SearchQuery) (groups : list calleeGroup).

Definition ranked_edges : list (ASTUnit * list Edge) := map (λ g, (cg_repr g, sortCallerEdges (incomingEdges g))) groups.
Definition caller_units : gmap string ASTUnit := unitsByID (source_ids (concat (map snd ranked_edges))).
Definition wanted_site : ASTUnit * Edge → bool := admitted (sq_Repos q) (ParseFilters (sq_Filter q)) caller_units.
Definition call_sites : list (ASTUnit * Edge) :=
  take maxPromotedCallers (first_places site_place ∅ (filter (λ ce, wanted_site ce = true) (turns ranked_edges))).

Lemma callerHits_sites : callerHits q groups = map (site caller_units) call_sites.
Proof.
  unfold callerHits. fold ranked_edges caller_units.
  pose proof (rounds_turns (sq_Repos q) (ParseFilters (sq_Filter q)) caller_units ranked_edges
    (Datatypes.S (list_max (map (length ∘ snd) ranked_edges))) 0 {| co_out := []; co_seen := ∅ |}) as E.
  refine (eq_trans (f_equal co_out (E ltac:(lia))) _). rewrite Nat.sub_0_r. fold (turns ranked_edges).
  rewrite capped_out by (simpl; lia). cbn [co_out co_seen app]. by rewrite firstn_map.
Qed.

Lemma call_sites_elem repr e : (repr, e) ∈ call_sites → ∃ g, g ∈ groups ∧ repr = cg_repr g ∧ e ∈ incomingEdges g ∧ wanted_site (repr, e) = true.
Proof.
  intros Hin. apply (subseteq_take maxPromotedCallers), first_places_elem in Hin.
  apply list_elem_of_filter in Hin as [Hw (edges & (g & [= -> ->] & Hg)%list_elem_of_fmap & He)%turns_elem].
  exists g. split_and!; [done | done | by apply SliceSort_elem in He | done].
Qed.
Lemma call_sites_covers g e :
  length call_sites < maxPromotedCallers → g ∈ groups → e ∈ incomingEdges g → wanted_site (cg_repr g, e) = true →
  edge_place e ∈ map (site_place) call_sites.
Proof.
  unfold call_sites. rewrite length_take. intros Hlen Hg He Hw. rewrite take_ge by lia.
  assert ((cg_repr g, e) ∈ filter (λ ce, wanted_site ce = true) (turns ranked_edges)) as Hin.
  { apply list_elem_of_filter. split; [done |]. apply turns_elem. exists (sortCallerEdges (incomingEdges g)).
    split; [|by apply SliceSort_elem]. apply list_elem_of_fmap. by exists g. }
  destruct (first_places_covers site_place ∅ _ _ Hin) as [H|H]; [set_solver | done].
Qed.
End CallSites.

Lemma PromoteCallers_sites stor p q callee hits meta :
  pr_store p = Some stor → pr_graph p = true →
  fst (PromoteCallers p q callee hits meta) =
  let groups := @calleeUnits stor q callee hits in
  placed (map (site (@caller_units stor groups)) (@call_sites stor q groups)) hits.
Proof.
  intros Hp Hg. unfold PromoteCallers. rewrite Hp, Hg. cbn [negb].
  destruct (calleeUnits q callee hits) as [|g gs]; [done |]. rewrite callerHits_sites. by destruct (map _ _).
Qed.

(** ** Properties *)

(** C14: A question about callers is answered by the call sites of the callees.  A
    description is resolved to at most eight different callees; the promoted hits
    are the edges of the callees, taken in turns, each callee's best edge first, the
    first at every line, those outside the scope and the filters left out, cut at
    ten.  Each comes from an edge into a callee — resolved to one of the units that
    declare it, or unresolved with its name — of a kind that uses it, and not from
    the callee itself; when there are fewer than ten, no such edge is left out; and
    they stand in front of the ranked hits, which stay in their order less those
    that point at the same lines. *)
Theorem callers_answered stor p q callee hits meta :
  pr_store p = Some stor → pr_graph p = true → @edges_found stor →
  let groups := @calleeUnits stor q callee hits in
  let sites := @call_sites stor q groups in
  let promoted := map (site (@caller_units stor groups)) sites in
  (length groups ≤ calleeMaxUnits ∧ NoDup (map (callee_key ∘ cg_repr) groups)) ∧
  (length promoted ≤ maxPromotedCallers ∧ NoDup (map hit_place promoted)) ∧
  fst (PromoteCallers p q callee hits meta) =
    (match promoted with
     | [] => hits
     | _ => rescore (top_score hits) promoted ++ filter (λ h, overlapsAny h promoted = false) hits
     end) ∧
  (∀ repr e, (repr, e) ∈ sites → ∃ g, g ∈ groups ∧ repr = cg_repr g ∧
     into g e ∧ structural (e_Kind e) = false ∧ e_SrcID e ∉ cg_ids g ∧ repoAllowed (sq_Repos q) (e_RepoID e) = true) ∧
  (length sites < maxPromotedCallers → ∀ g e, g ∈ groups → e ∈ @incomingEdges stor g →
     @wanted_site stor q groups (cg_repr g, e) = true → edge_place e ∈ map hit_place promoted).
Proof.
  intros Hp Hg He groups sites promoted.
  destruct (@calleeUnits_ok stor q callee hits) as (st & Hok & Est). fold groups in Est.
  assert (map hit_place promoted = map (site_place) sites) as Hpl.
  { unfold promoted. rewrite map_map. by apply map_ext. }
  split_and!.
  - rewrite Est. apply Hok.
  - rewrite Est. by apply groups_distinct.
  - unfold promoted, sites, call_sites. rewrite length_map, length_take. lia.
  - rewrite Hpl. unfold sites, call_sites. rewrite <- firstn_map. eapply sublist_NoDup; [|apply sublist_take].
    apply first_places_nodup.
  - rewrite (PromoteCallers_sites stor) by done. cbv zeta. fold groups sites promoted. apply placed_spec.
  - intros repr e (g & Hgin & -> & Hein & Hw)%call_sites_elem. exists g. split; [done |]. split; [done |].
    assert ("" ∉ cg_ids g) as Hids.
    { pose proof (go_ids _ Hok) as Hf. rewrite <- Est, Forall_forall in Hf. by apply Hf. }
    pose proof (incomingEdges_into g He Hids) as Hf. rewrite Forall_forall in Hf. destruct (Hf _ Hein) as (H1 & H2 & H3).
    split_and!; [done | done | done |]. unfold wanted_site, admitted in Hw. simpl in Hw. by apply andb_true_iff in Hw as [? _].
  - intros Hlen g e Hgin Hein Hw. rewrite Hpl. by apply call_sites_covers with g.
Qed.

(** A store in memory finds the edges it is asked for. *)
Lemma memory_edges_found units edges : @edges_found (memory_store units edges).
Proof.
  intros o es. simpl. intros [= <-]. apply Forall_forall. intros e Hin.
  assert (e ∈ filter (λ e, edge_matches o e = true) edges) as [? _]%list_elem_of_filter; [|done].
  unfold first_n in Hin. destruct (0 <? q_Limit o)%Z; [|done]. by apply subseteq_take in Hin.
Qed.

(** A function declared in two copies, called from code, from a test and from itself. *)
Module Demo.
Definition fn (id path name : string) (line : Z) : ASTUnit := {|
  u_ID := id; u_RepoID := "r"; u_FilePath := path; u_Language := "go"; u_Kind := "function"; u_Name := name; u_Qualified := "pkg." +:+ name;
  u_ParentID := ""; u_StartLine := line; u_EndLine := line + 9; u_StartByte := 0; u_EndByte := 0; u_Signature := "()"; u_Doc := "";
  u_Hash := ""; u_Meta := "" |}.
Definition call (id src dst name path : string) (line : Z) : Edge := {|
  e_ID := id; e_RepoID := "r"; e_SrcID := src; e_DstID := dst; e_Kind := EdgeCall; e_DstName := name; e_FilePath := path; e_Line := line;
  e_DstRepoID := ""; e_Confidence := ConfHigh; e_Meta := "" |}.
Definition units : list ASTUnit := [fn "u1" "a/sync.go" "SyncMsg" 1; fn "u2" "b/sync.go" "SyncMsg" 1; fn "u3" "a/main.go" "main" 1].
Definition edges : list Edge := [
  call "e1" "u9" "u1" "SyncMsg" "a/sync_test.go" 4; call "e2" "u3" "u2" "SyncMsg" "a/main.go" 5; call "e3" "u1" "u1" "SyncMsg" "a/sync.go" 3;
  call "e4" "u8" "" "SyncMsg" "c/other.go" 7].
Definition promoter : Promoter := NewPromoter (Some (memory_store units edges)) true "".
Definition query : SearchQuery :=
  {| sq_Query := "who uses SyncMsg"; sq_RepoID := ""; sq_Repos := []; sq_Limit := 10; sq_Filter := []; sq_Intent := "" |}.
End Demo.
Lemma callers_answered_witness :
  let hits := fst (PromoteCallers Demo.promoter Demo.query "SyncMsg" [] ∅) in
  map (λ h, (h_FilePath h, h_Line h, h_Reason h)) hits =
    [("a/main.go", 5%Z, "calls SyncMsg"); ("c/other.go", 7%Z, "calls SyncMsg"); ("a/sync_test.go", 4%Z, "calls SyncMsg")] ∧
  length hits ≤ maxPromotedCallers ∧ NoDup (map hit_place hits).
Proof.
  set (stor := memory_store Demo.units Demo.edges).
  pose proof (callers_answered stor Demo.promoter Demo.query "SyncMsg" [] ∅ eq_refl eq_refl (memory_edges_found _ _)) as (_ & (H1 & H2) & E & _).
  cbv zeta. split; [vm_compute; reflexivity |].
  set (hits := fst _) in *. assert (map hit_place hits = map hit_place (map (site (@caller_units stor (@calleeUnits stor Demo.query "SyncMsg" [])))
    (@call_sites stor Demo.query (@calleeUnits stor Demo.query "SyncMsg" [])))) as Ep by (vm_compute; reflexivity).
  rewrite <- (length_map hit_place hits), Ep, length_map. split; [exact H1 | exact H2].
Defined.

(** A unit found by its name and again behind a hit is in its group twice, so its
    callers are read twice and use up the limit of edges.  With 30 calls from tests
    the production call that could not be resolved leads the answer when retrieval
    finds nothing, and is not in it at all when retrieval finds the definition. *)
Definition many_tests : list Edge :=
  map (λ i, Demo.call "e" "s" "u1" "SyncMsg" "a/sync_test.go" (Z.of_nat i)) (seq 1 30) ++ [Demo.call "f" "s" "" "SyncMsg" "c/other.go" 7].
Definition definition_hit : Hit := {|
  h_RepoID := "r"; h_FilePath := "a/sync.go"; h_Path := "a/sync.go"; h_Line := 1; h_EndLine := 10; h_Symbol := "SyncMsg"; h_Kind := "function";
  h_Language := "go"; h_Score := f32_of_Z 1; h_Snippet := ""; h_Reason := "" |}.
Lemma repeated_id_crowds_out :
  let p := NewPromoter (Some (memory_store Demo.units many_tests)) true "" in
  let answer hits := map h_FilePath (fst (PromoteCallers p Demo.query "SyncMsg" hits ∅)) in
  head (answer []) = Some "c/other.go" ∧ "c/other.go" ∉ answer [definition_hit].
Proof. split; [vm_compute; reflexivity |]. apply (bool_decide_unpack (_ ∉ _)). vm_compute. exact I. Qed.
