(* ===== verification/ContractAnswers.v ===== *)
(** * Where a contract lives ([internal/app/promote/contracts.go])

    The contract keys a question spells out, the declarations, handlers and serving
    edges the graph has for each, and the implementations of a described rpc. *)

From S2P Require Import Prelude GoStrings GoStrconv GoRegexp GoSort GoFloat Domain Store Contract Hits Search Graph Intent Callers.
From Stdlib Require Import Strings.Ascii.

Definition maxPromotedContracts : nat := 10.
Definition contractEdgeLimit : Z := 50.
Definition maxContractKeys : nat := 4.
Definition rpcImplScanLimit : Z := 2000.

(** [contractRef] *)
Record contractRef := { cr_kind : Kind; cr_key : string }.

(** ** Patterns of keys *)

Definition quote_mark : string := String "034" "".
Definition httpKeyText : string :=
  "(?i)\b(GET|POST|PUT|PATCH|DELETE|HEAD|OPTIONS)\s+(/[^\s,;)" +:+ quote_mark +:+ "']*)".
Definition tableAfterText : string :=
  "(?i)\btables?\s+(named\s+|called\s+)?([" +:+ quote_mark +:+ "'`])?([A-Za-z_][A-Za-z0-9_]*)".
Definition tableBeforeText : string := "(?i)\b([A-Za-z_][A-Za-z0-9_]*)\s+tables?\b".
Definition topicAfterText : string :=
  "(?i)\b(?:topic|queue|channel|subject|stream)s?\s+(named\s+|called\s+)?([" +:+ quote_mark +:+ "'`])?([A-Za-z_][A-Za-z0-9_.\-]*)".
Definition topicBeforeText : string := "(?i)\b([A-Za-z_][A-Za-z0-9_.\-]*)\s+(?:topic|queue|channel|subject|stream)s?\b".
Definition grpcPairText : string := "\b([A-Za-z_][A-Za-z0-9_.]*)/([A-Z][A-Za-z0-9_]*)\b".
Definition grpcMethodText : string := "(?i)\b(?:grpc|rpc)\s+(?:method\s+|call\s+)?([A-Z][A-Za-z0-9_]*)\b".
Definition rpcMentionText : string := "(?i)\b(?:grpc|rpc)\b".
Example key_patterns_compile :
  forallb compiles [httpKeyText; tableAfterText; tableBeforeText; topicAfterText; topicBeforeText; grpcPairText;
                    grpcMethodText; rpcMentionText] = true.
Proof. vm_compute. reflexivity. Qed.

Definition httpKeyRe : Regexp := MustCompile httpKeyText.
Definition tableAfterRe : Regexp := MustCompile tableAfterText.
Definition tableBeforeRe : Regexp := MustCompile tableBeforeText.
Definition topicAfterRe : Regexp := MustCompile topicAfterText.
Definition topicBeforeRe : Regexp := MustCompile topicBeforeText.
Definition grpcPairRe : Regexp := MustCompile grpcPairText.
Definition grpcMethodRe : Regexp := MustCompile grpcMethodText.
Definition rpcMentionRe : Regexp := MustCompile rpcMentionText.

Definition contractNoise : gset string := list_to_set [
  "a"; "an"; "the"; "this"; "that"; "its"; "database"; "db"; "sql"; "message"; "event"; "kafka"; "rabbitmq"; "nats"; "sqs";
  "pubsub"; "same"; "which"; "what"; "one"; "each"].

(** [entityShaped]: the loop, with whether a byte came before and was lower case. *)
Fixpoint entity_from (first prevLower : bool) (name : string) : bool :=
  match name with
  | "" => false
  | String c name =>
      if Ascii.eqb c "_" || Ascii.eqb c "." || Ascii.eqb c "-" || is_digit_byte c then true
      else if is_upper_byte c && negb first && prevLower then true
      else entity_from false (is_lower_byte c) name
  end.
Definition entityShaped (name : string) : bool := entity_from true false name.

(** The [n]-th group of a match. *)
Definition nth_group (m : list string) (n : nat) : string := nth n m "".

(** [namedEntities] *)
Definition named_after (m : list string) : option string :=
  if negb (String.eqb (nth_group m 1) "") || negb (String.eqb (nth_group m 2) "") || entityShaped (nth_group m 3)
  then Some (nth_group m 3) else None.
Definition name_marks : string := "`'" +:+ quote_mark.
Definition keeps_name (name : string) : bool :=
  (3 <=? String.length name) && negb (bool_decide (ToLower name ∈ contractNoise)).
Definition namedEntities (query : string) (after before : Regexp) : list string :=
  let out := omap named_after (FindAllStringSubmatch after query) ++
             map (λ m, nth_group m 1) (FindAllStringSubmatch before query) in
  dedupStrings (filter (λ name, keeps_name name = true) (map (λ name, Trim name name_marks) out)).

(** [contractKeys]: the closure [add], and the keys in the order of the families. *)
Definition add_key (acc : list contractRef * gset string) (ref : contractRef) : list contractRef * gset string :=
  let '(out, seen) := acc in
  if String.eqb (cr_key ref) "" || bool_decide (cr_key ref ∈ seen) || (maxContractKeys <=? length out) then acc
  else (out ++ [ref], {[cr_key ref]} ∪ seen).
Definition spelled_keys (query : string) : list contractRef :=
  map (λ m, {| cr_kind := KindHTTP; cr_key := HTTP (nth_group m 1) (nth_group m 2) |}) (FindAllStringSubmatch httpKeyRe query) ++
  map (λ name, {| cr_kind := KindDB; cr_key := DB (ToLower name) |}) (namedEntities query tableAfterRe tableBeforeRe) ++
  map (λ name, {| cr_kind := KindTopic; cr_key := Topic name |}) (namedEntities query topicAfterRe topicBeforeRe) ++
  map (λ m, {| cr_kind := KindGRPC; cr_key := GRPC (nth_group m 1) (nth_group m 2) |}) (FindAllStringSubmatch grpcPairRe query) ++
  map (λ m, {| cr_kind := KindGRPC; cr_key := GRPC "" (nth_group m 1) |}) (FindAllStringSubmatch grpcMethodRe query).
Definition contractKeys (query : string) : list contractRef := fst (foldl add_key ([], ∅) (spelled_keys query)).

(** The questions of [contracts_test.go]. *)
Example contract_keys_named :
  map (λ q, map cr_key (contractKeys q)) [
    "where does POST /admin/draft-orders/:id/convert-to-order go"; "which handler serves get /api/v1/pets/";
    "a route with a query string GET /api/orders?status=new"; "where do rows get inserted into the login_attempt table";
    "which model maps to the database table named image"; "which service consumes the orders queue";
    "who publishes to topic orders.created"; "where is CustomersService/GetOwner implemented";
    "where is the grpc method AddItem implemented"]
  = [["http:POST /admin/draft-orders/{}/convert-to-order"]; ["http:GET /api/v1/pets"]; ["http:GET /api/orders"];
     ["db:login_attempt"]; ["db:image"]; ["topic:orders"]; ["topic:orders.created"];
     ["grpc:CustomersService/GetOwner"]; ["grpc:/AddItem"]].
Proof. vm_compute. reflexivity. Qed.
Example contract_keys_none :
  map contractKeys [
    "how does the service write to the database table"; "which endpoint returns the list of veterinarians";
    "where is the message queue configured"; "how does retry work"] = repeat [] 4.
Proof. vm_compute. reflexivity. Qed.

(** ** Kinds of edges *)

Definition contractEdgeRank : list (string * Z) := [
  (EdgeHandledBy, 0%Z); (EdgeImplementsRPC, 0%Z); (EdgeProduces, 1%Z); (EdgeWritesTo, 1%Z); (EdgeConsumes, 2%Z); (EdgeReadsFrom, 2%Z)].
Definition contractClientEdges : list string := [EdgeHTTPCall; EdgeRPCCall].
Definition client_edge (kind : string) : bool := existsb (String.eqb kind) contractClientEdges.
Definition contractEdgeVerb : list (string * string) := [
  (EdgeHandledBy, "handles"); (EdgeImplementsRPC, "implements"); (EdgeProduces, "publishes to"); (EdgeWritesTo, "writes");
  (EdgeConsumes, "consumes"); (EdgeReadsFrom, "reads")].

(** [sortContractEdges] *)
Definition contract_rank (kind : string) : Z := default (Z.of_nat (length contractEdgeRank)) (entry contractEdgeRank kind).
Definition sortContractEdges : list Edge → list Edge := sortEdgesBy contract_rank.

(** [contractDeclares] *)
Definition contractDeclares (kind : string) : string :=
  if String.eqb kind KindHTTPRoute then "declares the route"
  else if String.eqb kind KindDBTable then "declares the table"
  else if String.eqb kind KindRPCMethod then "declares the rpc method"
  else if String.eqb kind KindTopicChannel then "declares the channel"
  else "declares the contract".

(** ** Hits *)

(** [unitSnippet], [unitHit], [contractEdgeHit] *)
Definition unitSnippet (u : ASTUnit) (reason : string) : string :=
  unit_head u +:+ (if String.eqb reason "" then "" else String newline reason).
Definition unitHit (u : ASTUnit) (reason : string) : Hit := {|
  h_RepoID := u_RepoID u; h_FilePath := u_FilePath u; h_Path := u_FilePath u; h_Line := u_StartLine u; h_EndLine := u_EndLine u;
  h_Symbol := u_Name u; h_Kind := u_Kind u; h_Language := u_Language u; h_Score := f32_of_Z 0;
  h_Snippet := unitSnippet u reason; h_Reason := reason |}.
Definition contractEdgeHit (e : Edge) (src : option ASTUnit) (key verb : string) : Hit :=
  edge_hit e src (verb +:+ " " +:+ key)
    (head_line src +:+ verb +:+ " " +:+ key +:+ " at " +:+ e_FilePath e +:+ ":" +:+ Itoa (e_Line e)).

(** The closure [push] of [contractHits]. *)
Definition push_hit (acc : list Hit * gset string) (h : Hit) : list Hit * gset string :=
  let '(out, seen) := acc in
  if bool_decide (hit_place h ∈ seen) || (maxPromotedContracts <=? length out) then acc
  else (out ++ [h], {[hit_place h]} ∪ seen).

(** [slices] of edges that are cut at a cap. *)
Definition distinct_places (l : list Edge) : list Edge :=
  fst (foldl (λ '(out, seen) e, if bool_decide (edge_place e ∈ seen) then (out, seen) else (out ++ [e], {[edge_place e]} ∪ seen))
         ([], ∅ : gset string) l).

Section ContractAnswers.
  Context {stor : Storage}.

(** [unitsByKey] *)
Definition key_opts (repos : list string) (qualified suffix : string) : QueryOpts := {|
  q_RepoID := single_repo repos; q_Repos := []; q_FilePath := ""; q_Language := ""; q_Kind := ""; q_Kinds := [];
  q_Name := ""; q_Qualified := qualified; q_QualifiedSuffix := suffix; q_NameOrQualified := ""; q_Fallback := false;
  q_SrcID := ""; q_DstID := ""; q_Unresolved := false; q_Line := 0; q_Limit := 5 |}.
Definition unitsByKey (q : SearchQuery) (key : string) : list ASTUnit :=
  match GetASTUnits (key_opts (sq_Repos q) key "") with
  | inl _ => []
  | inr units =>
      match (match units with [] => GetASTUnits (key_opts (sq_Repos q) "" key) | _ => inr units end) with
      | inl _ => []
      | inr units => filter (λ u, repoAllowed (sq_Repos q) (u_RepoID u) = true) units
      end
  end.

(** [handlersOf] *)
Definition handler_opts (id : string) : QueryOpts := {|
  q_RepoID := ""; q_Repos := []; q_FilePath := ""; q_Language := ""; q_Kind := EdgeHandledBy; q_Kinds := [];
  q_Name := ""; q_Qualified := ""; q_QualifiedSuffix := ""; q_NameOrQualified := ""; q_Fallback := false;
  q_SrcID := id; q_DstID := ""; q_Unresolved := false; q_Line := 0; q_Limit := 10 |}.
Definition handlersOf (route : ASTUnit) : list Hit :=
  match GetEdges (handler_opts (u_ID route)) with
  | inl _ => []
  | inr edges =>
      let byID := unitsByID (map e_DstID edges) in
      omap (λ e, (λ u, unitHit u ("handles " +:+ u_Name route)) <$> byID !! e_DstID e) edges
  end.

(** The edges of a key that serve it: what the loop of [contractHits] keeps. *)
Definition name_only_opts (key : string) (limit : Z) : QueryOpts := {|
  q_RepoID := ""; q_Repos := []; q_FilePath := ""; q_Language := ""; q_Kind := ""; q_Kinds := [];
  q_Name := key; q_Qualified := ""; q_QualifiedSuffix := ""; q_NameOrQualified := ""; q_Fallback := false;
  q_SrcID := ""; q_DstID := ""; q_Unresolved := false; q_Line := 0; q_Limit := limit |}.
Definition serves (repos : list string) (e : Edge) : bool :=
  negb (String.eqb (e_Kind e) EdgeCall) && repoAllowed repos (e_RepoID e) && negb (client_edge (e_Kind e)) &&
  negb (testishPath (e_FilePath e)).

(** [contractHits]; a failed read of the edges ends it before the filters. *)
Definition declared_hits (units : list ASTUnit) : list Hit :=
  concat (map handlersOf (filter (λ u, u_Kind u = KindHTTPRoute) units)) ++ map (λ u, unitHit u (contractDeclares (u_Kind u))) units.
Definition serving_hits (key : string) (kept : list Edge) : list Hit :=
  let units := unitsByID (map e_SrcID kept) in
  map (λ e, contractEdgeHit e (units !! e_SrcID e) key (kindVerb contractEdgeVerb (e_Kind e))) kept.
Definition contractHits (q : SearchQuery) (ref : contractRef) : list Hit :=
  let acc := foldl push_hit ([], ∅) (declared_hits (unitsByKey q (cr_key ref))) in
  match GetEdges (name_only_opts (cr_key ref) contractEdgeLimit) with
  | inl _ => fst acc
  | inr edges =>
      let kept := sortContractEdges (filter (λ e, serves (sq_Repos q) e = true) edges) in
      let out := fst (foldl push_hit acc (serving_hits (cr_key ref) kept)) in
      let filters := ParseFilters (sq_Filter q) in
      if Filters_Empty filters then out
      else filter (λ h, Filters_Match filters (h_Language h) (h_Kind h) (h_FilePath h) = true) out
  end.

(** The loop of [PromoteContracts] over the keys. *)
Fixpoint promote_keys (q : SearchQuery) (refs : list contractRef) (resolved : list string) (promoted : list Hit)
    : list string * list Hit :=
  match refs with
  | [] => (resolved, promoted)
  | ref :: refs =>
      match contractHits q ref with
      | [] => promote_keys q refs resolved promoted
      | found =>
          let promoted := promoted ++ found in
          let resolved := resolved ++ [cr_key ref] in
          if maxPromotedContracts <=? length promoted then (resolved, take maxPromotedContracts promoted)
          else promote_keys q refs resolved promoted
      end
  end.

(** ** Implementations *)

Definition rpcStopWords : gset string := list_to_set [
  "grpc"; "rpc"; "method"; "service"; "server"; "where"; "is"; "are"; "the"; "a"; "an"; "implemented"; "implementation";
  "implements"; "handler"; "in"; "of"; "for"; "which"; "what"; "does"; "api"; "client"; "call"; "calls"].

(** [componentsDescribed], [rpcKeyDescribed] *)
Definition content_words (name : string) : list string := filter (λ c, c ∉ rpcStopWords) (WordComponents name).
Definition componentsDescribed (name : string) (words : gset string) : bool :=
  match content_words name with [] => false | cs => forallb (λ c, bool_decide (c ∈ words)) cs end.
Definition rpcKeyDescribed (key : string) (words : gset string) : bool :=
  let '(service, method, ok) := ParseGRPC key in
  ok && (componentsDescribed method words || componentsDescribed service words).

Definition implements_opts (repoID : string) : QueryOpts := {|
  q_RepoID := repoID; q_Repos := []; q_FilePath := ""; q_Language := ""; q_Kind := EdgeImplementsRPC; q_Kinds := [];
  q_Name := ""; q_Qualified := ""; q_QualifiedSuffix := ""; q_NameOrQualified := ""; q_Fallback := false;
  q_SrcID := ""; q_DstID := ""; q_Unresolved := false; q_Line := 0; q_Limit := rpcImplScanLimit |}.
Definition or_everywhere (repos : list string) : list string := match repos with [] => [""] | _ => repos end.
Definition implementations_in (words : gset string) (repoID : string) : list Edge :=
  match GetEdges (implements_opts repoID) with
  | inl _ => []
  | inr edges => filter (λ e, negb (testishPath (e_FilePath e)) && rpcKeyDescribed (e_DstName e) words = true) edges
  end.
Definition rpc_hits (words : gset string) (repos : list string) : list Hit :=
  let matched := take maxPromotedContracts (sortContractEdges (concat (map (implementations_in words) (or_everywhere repos)))) in
  let units := unitsByID (map e_SrcID matched) in
  map (λ e, contractEdgeHit e (units !! e_SrcID e) (e_DstName e) "implements") (distinct_places matched).
End ContractAnswers.

(** [PromoteContracts] *)
Definition PromoteContracts (p : Promoter) (q : SearchQuery) (hits : list Hit) (meta : Meta) : list Hit * Meta :=
  match pr_store p with
  | None => (hits, meta)
  | Some stor =>
      match contractKeys (sq_Query q) with
      | [] => (hits, meta)
      | refs =>
          match @promote_keys stor q refs [] [] with
          | (_, []) => (hits, meta)
          | (resolved, promoted) =>
              (prependPromoted promoted hits,
               <["contract_promoted" := MInt (Z.of_nat (length promoted))]> (<["contract_keys" := MStrings resolved]> meta))
          end
      end
  end.

(** [PromoteRPCImplementations] *)
Definition PromoteRPCImplementations (p : Promoter) (q : SearchQuery) (hits : list Hit) (meta : Meta) : list Hit * Meta :=
  match pr_store p with
  | None => (hits, meta)
  | Some stor =>
      if negb (MatchString rpcMentionRe (sq_Query q)) then (hits, meta)
      else
        match content_words (sq_Query q) with
        | [] => (hits, meta)
        | words =>
            match @rpc_hits stor (wordSet words) (sq_Repos q) with
            | [] => (hits, meta)
            | promoted => (prependPromoted promoted hits, <["rpc_implementations" := MInt (Z.of_nat (length promoted))]> meta)
            end
        end
  end.
