(* ===== verification/ContractUses.v ===== *)
(** * Who uses a contract ([internal/app/promote/contractusers.go])

    The client side of the contracts a question describes without spelling out
    their keys: the vocabulary of the question and of a key, when the one describes
    the other, and the edges promoted for it.  Vocabulary is then read as sets of
    stems, and a description in those terms; which edges are promoted for a
    question, in which order, and how, follows. *)

From stdpp Require Import sorting.
From S2P Require Import Prelude GoStrings GoStrconv GoSort GoFloat Domain Store Contract Hits Search Graph GoRegexp Intent Callers ContractAnswers.
From Stdlib Require Import Strings.Ascii.

Definition contractUseScanLimit : Z := 2000.
Definition maxPromotedContractUses : nat := 10.

(** ** The side of a contract *)

Definition consumeVerbText : string :=
  "(?i)\b(?:consumes?|consumers?|subscribes?|subscribers?|listens?|receives?|reacts?|handles?|processes)\b".
Definition produceVerbText : string :=
  "(?i)\b(?:publishes?|publishers?|produces?|producers?|emits?|dispatches?|raises?|fires?)\b".
Definition apiVersionText : string := "(?i)^v\d+$".
Definition httpVerbText : string := "(?i)\b(GET|POST|PUT|PATCH|DELETE|HEAD|OPTIONS)s?\b".
Example use_patterns_compile : forallb compiles [consumeVerbText; produceVerbText; apiVersionText; httpVerbText] = true.
Proof. vm_compute. reflexivity. Qed.
Definition consumeVerbRe : Regexp := MustCompile consumeVerbText.
Definition produceVerbRe : Regexp := MustCompile produceVerbText.
Definition apiVersionRe : Regexp := MustCompile apiVersionText.
Definition httpVerbRe : Regexp := MustCompile httpVerbText.

(** [contractUseKinds] *)
Definition contractUseKinds (query : string) (callers : bool) : list string :=
  (if callers then [EdgeRPCCall; EdgeHTTPCall] else []) ++
  (if MatchString consumeVerbRe query then [EdgeConsumes] else []) ++
  (if MatchString produceVerbRe query then [EdgeProduces] else []).

(** ** Words *)

(** [stemWord] *)
Definition drop_last (n : nat) (s : string) : string := String.substring 0 (String.length s - n) s.
Definition stemWord (w : string) : string :=
  if String.length w <? 5 then w
  else
    let stem :=
      if HasSuffix w "ies" then drop_last 3 w +:+ "y"
      else if HasSuffix w "ing" then drop_last 3 w
      else if HasSuffix w "ed" then drop_last 2 w
      else if HasSuffix w "ss" then w
      else if HasSuffix w "es" then drop_last 2 w
      else if HasSuffix w "s" then drop_last 1 w
      else w in
    let stem := TrimSuffix stem "e" in
    if String.length stem <? 4 then w else stem.

(** [stemSet], and the words that say nothing of which contract is meant. *)
Definition stemSet (words : list string) : gset string := list_to_set (map stemWord words).
Definition contractScaffolding : gset string := stemSet [
  "grpc"; "rpc"; "http"; "api"; "service"; "server"; "client"; "method"; "handler"; "call"; "endpoint"; "route"; "topic"; "queue";
  "channel"; "message"; "event"; "integration"; "command"; "request"; "response";
  "code"; "class"; "project"; "module"; "package"; "function";
  "the"; "a"; "an"; "which"; "what"; "who"; "where"; "when"; "how"; "is"; "are"; "do"; "does"; "did"; "to"; "from"; "in"; "of"; "for";
  "and"; "or"; "its"; "it"; "this"; "that"; "with"; "on"; "at"; "by"].

(** [contentComponent] *)
Definition contentComponent (w : string) : option string :=
  let stem := stemWord (ToLower w) in
  if bool_decide (stem ∈ contractScaffolding) || MatchString apiVersionRe w then None else Some stem.

(** [questionWords], [httpVerbsNamed] *)
Definition questionWords (query : string) : gset string := list_to_set (omap contentComponent (WordComponents query)).
Definition httpVerbsNamed (query : string) : gset string :=
  list_to_set (map (λ m, ToUpper (nth_group m 1)) (FindAllStringSubmatch httpVerbRe query)).

(** [trimPathParams] *)
Definition param_segment (seg : string) : bool :=
  String.eqb seg "" || HasPrefix seg "{" || HasPrefix seg ":" || HasPrefix seg "*".
Definition trimPathParams (path : string) : string :=
  Join (map (λ seg, "/" +:+ seg) (filter (λ seg, param_segment seg = false) (SplitByte path "/"))) "".

(** [fullyDescribed]: its loop, over the components of a name. *)
Fixpoint described_from (words seen : gset string) (components : list string) : nat * nat :=
  match components with
  | [] => (0, 0)
  | raw :: components =>
      match contentComponent raw with
      | None => described_from words seen components
      | Some c =>
          if bool_decide (c ∈ seen) then described_from words seen components
          else
            let '(described, content) := described_from words ({[c]} ∪ seen) components in
            ((if bool_decide (c ∈ words) then Datatypes.S described else described), Datatypes.S content)
      end
  end.
Definition fullyDescribed (name : string) (words : gset string) : nat * bool :=
  let '(described, content) := described_from words ∅ (WordComponents name) in
  (described, (0 <? content) && (described =? content)).

(** What follows the last dot of a service, its package cut off. *)
Definition after_last_dot (service : string) : string :=
  match CutLast (Ascii.eqb ".") service with Some (_, name) => name | None => service end.

(** [keyDescribed] *)
Definition keyDescribed (key : string) (words httpVerbs : gset string) : option nat :=
  if IsKind key KindGRPC then
    let '(service, method, ok) := ParseGRPC key in
    if negb ok then None
    else
      let '(n, all) := fullyDescribed method words in
      if negb all then None
      else
        let '(svc, svcAll) := fullyDescribed (after_last_dot service) words in
        if (n <? 2) && negb svcAll then None else Some (n + svc)
  else if IsKind key KindHTTP then
    match ParseHTTP key with
    | None => None
    | Some (method, path) =>
        if negb (bool_decide (httpVerbs = ∅)) && negb (bool_decide (ToUpper method ∈ httpVerbs)) then None
        else
          let '(n, all) := fullyDescribed (trimPathParams path) words in
          if negb all || (n <? 2) then None else Some n
    end
  else if IsKind key KindTopic then
    match ParseTopicRef key with
    | Some _ => None
    | None =>
        let '(n, all) := fullyDescribed (default "" (ParseTopic key)) words in
        if all then Some n else None
    end
  else None.

(** The questions and words of [contractusers_test.go]. *)
Definition describes (query key : string) : bool :=
  match keyDescribed key (questionWords query) (httpVerbsNamed query) with Some _ => true | None => false end.
Example keys_described :
  map (λ t : string * string, describes (fst t) (snd t)) [
    ("which service calls the payment service Charge rpc", "grpc:PaymentService/Charge");
    ("what calls the shipping service ShipOrder rpc", "grpc:ShippingService/ShipOrder");
    ("which service calls the payment service Charge rpc", "grpc:hipstershop.PaymentService/Charge");
    ("what calls the annotation store Create rpc", "grpc:AnnotationStore/Create");
    ("which service subscribes to catalog product price changes", "topic:ProductPriceChangedIntegrationEvent");
    ("which service reacts to the event saying an order's stock was confirmed", "topic:OrderStockConfirmedIntegrationEvent");
    ("which service posts a completed order to the user order history", "http:POST /api/user/order/{id}")]
  = repeat true 7.
Proof. vm_compute. reflexivity. Qed.
Example keys_not_described :
  map (λ t : string * string, describes (fst t) (snd t)) [
    ("what calls the shipping service ShipOrder rpc", "grpc:ShippingService/GetQuote");
    ("what calls the created-snapshot handler", "grpc:AnnotationStore/Create");
    ("which service reacts to the event saying an order's stock was confirmed",
     "topic:OrderStatusChangedToStockConfirmedIntegrationEvent");
    ("which service consumes the integration events", "topic:IntegrationEvent");
    ("which service consumes the orders topic", "topic:${ORDERS_TOPIC}");
    ("what calls the owners endpoint", "http:GET /owners");
    ("which endpoint reads a shopping cart by its id", "http:DELETE /cart/{id}");
    ("which service posts an order to the user order history", "http:GET /api/user/order/{id}")]
  = repeat false 8.
Proof. vm_compute. reflexivity. Qed.

(** [syntheticTrafficPath] *)
Definition trafficMarkers : list string := [
  "locustfile"; "loadgen"; "load-gen"; "load_gen"; "loadtest"; "load-test"; "load_test"; "/benchmarks/"; "/gatling/"; "/jmeter/"].
Definition syntheticTrafficPath (path : string) : bool := existsb (Contains (ToLower path)) trafficMarkers.

(** ** Uses *)

(** The edges a question is asking about, each with how much of its key is described. *)
Section Uses.
  Context {stor : Storage}.

Definition use_opts (repoID : string) (kinds : list string) : QueryOpts := {|
  q_RepoID := repoID; q_Repos := []; q_FilePath := ""; q_Language := ""; q_Kind := ""; q_Kinds := kinds;
  q_Name := ""; q_Qualified := ""; q_QualifiedSuffix := ""; q_NameOrQualified := ""; q_Fallback := false;
  q_SrcID := ""; q_DstID := ""; q_Unresolved := false; q_Line := 0; q_Limit := contractUseScanLimit |}.
Definition scored_edge (repos : list string) (words verbs : gset string) (e : Edge) : option (Edge * nat) :=
  if testishPath (e_FilePath e) || syntheticTrafficPath (e_FilePath e) then None
  else if negb (repoAllowed repos (e_RepoID e)) then None
  else pair e <$> keyDescribed (e_DstName e) words verbs.
Definition uses_in (repos kinds : list string) (words verbs : gset string) (repoID : string) : list (Edge * nat) :=
  match GetEdges (use_opts repoID kinds) with
  | inl _ => []
  | inr found => omap (scored_edge repos words verbs) found
  end.

(** The order of [sortEdgesBy], then, keeping it, the most described first. *)
Definition sort_uses (uses : list (Edge * nat)) : list (Edge * nat) :=
  SliceSort (then_by_desc (λ u : Edge * nat, Z.of_nat (snd u)) tie) (SliceSort (λ a b, edge_before kindRank (fst a) (fst b)) uses).

(** The loop that makes the hits: the hits, their places and their keys. *)
Record used := { us_out : list Hit; us_seen : gset string; us_keys : gset string }.
Definition use_edge (filters : Filters) (units : gmap string ASTUnit) (st : used) (e : Edge) : used :=
  if maxPromotedContractUses <=? length (us_out st) then st
  else if bool_decide (edge_place e ∈ us_seen st) then st
  else
    let hit := contractEdgeHit e (units !! e_SrcID e) (e_DstName e) (kindVerb callerKindVerb (e_Kind e)) in
    if negb (Filters_Empty filters) && negb (Filters_Match filters (h_Language hit) (h_Kind hit) (h_FilePath hit)) then st
    else {| us_out := us_out st ++ [hit]; us_seen := {[edge_place e]} ∪ us_seen st; us_keys := {[e_DstName e]} ∪ us_keys st |}.
Definition used_edges (q : SearchQuery) (kinds : list string) (words verbs : gset string) : list Edge :=
  map fst (sort_uses (concat (map (uses_in (sq_Repos q) kinds words verbs) (or_everywhere (sq_Repos q))))).
Definition use_hits (q : SearchQuery) (edges : list Edge) : used :=
  foldl (use_edge (ParseFilters (sq_Filter q)) (unitsByID (map e_SrcID edges)))
        {| us_out := []; us_seen := ∅; us_keys := ∅ |} edges.
End Uses.

(** [PromoteContractUses] *)
Definition PromoteContractUses (p : Promoter) (q : SearchQuery) (intent : string) (hits : list Hit) (meta : Meta)
    : list Hit * Meta :=
  match pr_store p with
  | None => (hits, meta)
  | Some stor =>
      match contractUseKinds (sq_Query q) (String.eqb intent IntentCallers) with
      | [] => (hits, meta)
      | kinds =>
          let words := questionWords (sq_Query q) in
          if bool_decide (words = ∅) then (hits, meta)
          else
            let st := @use_hits stor q (@used_edges stor q kinds words (httpVerbsNamed (sq_Query q))) in
            match us_out st with
            | [] => (hits, meta)
            | promoted =>
                (prependPromoted promoted hits,
                 <["contract_uses" := MInt (Z.of_nat (length promoted))]>
                   (<["contract_use_keys" := MStrings (SortStrings (elements (us_keys st)))]> meta))
            end
      end
  end.

(** ** Vocabulary *)

(** A question and a name are reduced in the same way. *)
Abbreviation vocabulary := questionWords.
Definition described (words v : gset string) : Prop := v ≠ ∅ ∧ v ⊆ words.
#[export] Instance described_dec words v : Decision (described words v).
Proof. apply _. Defined.

Lemma described_from_spec words seen comps :
  let v := (list_to_set (omap contentComponent comps) : gset string) ∖ seen in
  described_from words seen comps = (size (v ∩ words), size v).
Proof.
  revert seen. induction comps as [|raw comps IH]; intros seen; cbv zeta in *.
  { simpl. assert ((∅ : gset string) ∖ seen = ∅) as -> by set_solver. assert (∅ ∩ words = ∅) as -> by set_solver. by rewrite size_empty. }
  assert (omap contentComponent (raw :: comps) =
    match contentComponent raw with Some c => c :: omap contentComponent comps | None => omap contentComponent comps end) as -> by done.
  cbn [described_from]. destruct (contentComponent raw) as [c|]; [|apply IH]. rewrite list_to_set_cons.
  set (rest := list_to_set (omap contentComponent comps) : gset string) in *.
  destruct (bool_decide_reflect (c ∈ seen)) as [Hc|Hc].
  { rewrite IH. assert (({[c]} ∪ rest) ∖ seen = rest ∖ seen) as ->; [|done].
    apply set_eq. intros x. rewrite !elem_of_difference, elem_of_union, elem_of_singleton. naive_solver. }
  rewrite IH. assert (({[c]} ∪ rest) ∖ seen = {[c]} ∪ rest ∖ ({[c]} ∪ seen)) as ->.
  { apply set_eq. intros x. rewrite !elem_of_union, !elem_of_difference, !elem_of_union, !elem_of_singleton. destruct (decide (x = c)); naive_solver. }
  assert (c ∉ rest ∖ ({[c]} ∪ seen)) as Hn by set_solver. generalize dependent (rest ∖ ({[c]} ∪ seen)). clear. intros v Hn.
  rewrite (size_union {[c]} v), size_singleton by set_solver. f_equal.
  destruct (bool_decide_reflect (c ∈ words)) as [Hw|Hw].
  - assert (({[c]} ∪ v) ∩ words = {[c]} ∪ v ∩ words) as -> by set_solver.
    rewrite (size_union {[c]} (v ∩ words)), size_singleton by set_solver. done.
  - f_equal. set_solver.
Qed.

Lemma fullyDescribed_spec name words :
  let v := vocabulary name in
  fullyDescribed name words = (size (v ∩ words), bool_decide (described words v)).
Proof.
  unfold fullyDescribed. rewrite described_from_spec. fold (vocabulary name). set (v := vocabulary name).
  clearbody v. clear name. assert (v ∖ ∅ = v) as -> by set_solver.
  f_equal. unfold described. destruct (decide (v = ∅)) as [->|Hv].
  { rewrite size_empty. symmetry. apply bool_decide_eq_false. by intros [? _]. }
  assert (0 < size v) as Hs by (destruct (size v) eqn:E; [apply size_empty_iff in E; set_solver | lia]).
  rewrite (proj2 (Nat.ltb_lt _ _) Hs). simpl. destruct (Nat.eqb_spec (size (v ∩ words)) (size v)) as [E|E]; symmetry.
  - apply bool_decide_eq_true. split; [done |]. assert (v ∩ words = v); [|set_solver].
    apply set_subseteq_size_eq; [set_solver | lia].
  - apply bool_decide_eq_false. intros [_ H]. apply E. f_equal. set_solver.
Qed.

(** Words put side by side. *)
Lemma Split_cut f a c b : f c = true → Split f (a +:+ String c b) = Split f a ++ Split f b.
Proof.
  intros Hc. induction a as [|x a IH]; simpl; [by rewrite Hc |]. rewrite IH. destruct (f x); [done |].
  pose proof (Split_not_nil f a). by destruct (Split f a).
Qed.

Lemma WordComponents_cut a c b : IsWordByte c = false → WordComponents (a +:+ String c b) = WordComponents a ++ WordComponents b.
Proof.
  intros Hc. unfold WordComponents, TokenComponents, IdentTokens, FieldsFunc. rewrite Split_cut by (by rewrite Hc).
  by rewrite filter_app, map_app, filter_app, concat_app.
Qed.
Lemma vocabulary_cut a c b : IsWordByte c = false → vocabulary (a +:+ String c b) = vocabulary a ∪ vocabulary b.
Proof. intros Hc. unfold questionWords. by rewrite WordComponents_cut, omap_app, list_to_set_app_L. Qed.

Lemma IsKind_cut key k r : cutPrefix key k = Some r → IsKind key k = true.
Proof. unfold cutPrefix, IsKind. intros ->%CutPrefix_Some. apply HasPrefix_app. Qed.

(** ** Properties *)

(** A question describes a key exactly when it describes what tells it from its
    siblings.  Reduced to sets of stems, without the words contracts are talked
    about in: an rpc is described when every word of its method is in the question
    and, if the method is a single word, every word of its service is too; a route,
    when every word of its path but the parameters is there, of which there are at
    least two, and the question names no other verb; a topic, when every word of its
    name is; a reference and a table never are.  The score is the number of words
    described, and a question that contains a name, set apart, has all its words. *)
Theorem keyDescribed_spec words verbs :
  (∀ key service method, ParseGRPC key = (service, method, true) →
     let m := vocabulary method in let s := vocabulary (after_last_dot service) in
     keyDescribed key words verbs =
     if bool_decide (described words m ∧ (2 ≤ size m ∨ described words s)) then Some (size m + size (s ∩ words)) else None) ∧
  (∀ key method path, ParseHTTP key = Some (method, path) →
     let v := vocabulary (trimPathParams path) in
     keyDescribed key words verbs =
     if bool_decide ((verbs = ∅ ∨ ToUpper method ∈ verbs) ∧ described words v ∧ 2 ≤ size v) then Some (size v) else None) ∧
  (∀ name, ParseTopicRef (Topic name) = None →
     keyDescribed (Topic name) words verbs = if bool_decide (described words (vocabulary name)) then Some (size (vocabulary name)) else None) ∧
  (∀ ref, keyDescribed (TopicRef ref) words verbs = None) ∧ (∀ table, keyDescribed (DB table) words verbs = None) ∧
  (∀ before c name d after, IsWordByte c = false → IsWordByte d = false →
     vocabulary name ⊆ vocabulary (before +:+ String c (name +:+ String d after))).
Proof.
  assert (∀ v, described words v → v ∩ words = v) as Hall by (unfold described; clear; set_solver).
  split_and!.
  - intros key service method Hp m s.
    assert (IsKind key KindGRPC = true) as Hk.
    { unfold ParseGRPC in Hp. destruct (cutPrefix key KindGRPC) eqn:E; [by eapply IsKind_cut | done]. }
    unfold keyDescribed. rewrite Hk, Hp. simpl. rewrite !fullyDescribed_spec. cbv zeta.
    change (vocabulary method) with m. change (vocabulary (after_last_dot service)) with s. clearbody m s.
    destruct (decide (described words m)) as [Hm|Hm].
    + rewrite (bool_decide_eq_true_2 (described words m) Hm), (Hall m Hm). simpl.
      destruct (Nat.ltb_spec (size m) 2); repeat case_bool_decide; simpl; try done; exfalso; intuition lia.
    + rewrite (bool_decide_eq_false_2 (described words m) Hm). simpl. case_bool_decide; [tauto | done].
  - intros key method path Hp v.
    assert (IsKind key KindHTTP = true) as Hk.
    { unfold ParseHTTP in Hp. destruct (cutPrefix key KindHTTP) eqn:E; [by eapply IsKind_cut | done]. }
    assert (IsKind key KindGRPC = false) as Hg.
    { unfold ParseHTTP in Hp. destruct (cutPrefix key KindHTTP) eqn:E; [|done]. apply CutPrefix_Some in E as ->. done. }
    unfold keyDescribed. rewrite Hg, Hk, Hp. rewrite fullyDescribed_spec. cbv zeta.
    change (vocabulary (trimPathParams path)) with v. clearbody v.
    destruct (decide (described words v)) as [Hd|Hd].
    + rewrite (bool_decide_eq_true_2 (described words v) Hd), (Hall v Hd). simpl.
      destruct (Nat.ltb_spec (size v) 2); repeat case_bool_decide; simpl; try done; exfalso; intuition lia.
    + rewrite (bool_decide_eq_false_2 (described words v) Hd). simpl. rewrite (bool_decide_eq_false_2 (_ ∧ described words v ∧ _)) by tauto.
      by destruct (_ && _).
  - intros name Hr. unfold keyDescribed. change (IsKind (Topic name) KindGRPC) with false. change (IsKind (Topic name) KindHTTP) with false.
    assert (IsKind (Topic name) KindTopic = true) as -> by apply (HasPrefix_app (kind_prefix KindTopic) name). rewrite Hr.
    assert (ParseTopic (Topic name) = Some name) as -> by apply (CutPrefix_app (kind_prefix KindTopic) name). simpl.
    rewrite fullyDescribed_spec. destruct (decide (described words (vocabulary name))); [by rewrite !bool_decide_eq_true_2, Hall by done | by rewrite !bool_decide_eq_false_2 by done].
  - intros ref. unfold keyDescribed. change (IsKind (TopicRef ref) KindGRPC) with false. change (IsKind (TopicRef ref) KindHTTP) with false.
    change (IsKind (TopicRef ref) KindTopic) with true. destruct (ParseTopicRef (TopicRef ref)) eqn:E; [done |].
    exfalso. revert E. unfold ParseTopicRef, TopicRef. rewrite HasPrefix_app, <- str_app_assoc, HasSuffix_app. done.
  - intros table. done.
  - intros before c name d after Hc Hd. rewrite !vocabulary_cut by done. set_solver.
Qed.

Lemma keyDescribed_spec_witness :
  let words := questionWords "which service calls the payment service Charge rpc" in
  keyDescribed "grpc:shop.PaymentService/Charge" words ∅ = Some 2 ∧ keyDescribed (Topic "orders") words ∅ = None.
Proof.
  cbv zeta. set (words := questionWords _). destruct (keyDescribed_spec words ∅) as (H & _ & Ht & _). split.
  - rewrite (H "grpc:shop.PaymentService/Charge" "shop.PaymentService" "Charge" ltac:(vm_compute; reflexivity)). vm_compute. reflexivity.
  - rewrite (Ht "orders" ltac:(vm_compute; reflexivity)). vm_compute. reflexivity.
Defined.

(** What is sorted stays so when elements are left out. *)
Lemma sublist_sorted {A} (R : A → A → Prop) l k : l `sublist_of` k → StronglySorted R k → StronglySorted R l.
Proof.
  intros Hs. induction Hs as [|x l k Hs IH|x l k Hs IH]; intros Hk; [done | |]; apply StronglySorted_cons in Hk as [Hx Hk].
  - constructor; [by apply IH |]. eapply Forall_forall. intros y Hy. rewrite Forall_forall in Hx. apply Hx. by eapply elem_of_submseteq, sublist_submseteq.
  - by apply IH.
Qed.
Lemma first_places_sublist {A} (place : A → string) seen l : first_places place seen l `sublist_of` l.
Proof.
  revert seen. induction l as [|a l IH]; intros seen; simpl; [done |]. destruct (bool_decide _); [by apply sublist_cons | by apply sublist_skip].
Qed.

Section Uses.
  Context {stor : Storage} (q : SearchQuery) (kinds : list string) (words verbs : gset string).

(** How much of the key of an edge the question describes. *)
Definition use_score (e : Edge) : Z := Z.of_nat (default 0 (keyDescribed (e_DstName e) words verbs)).
Definition use_site (units : gmap string ASTUnit) (e : Edge) : Hit :=
  contractEdgeHit e (units !! e_SrcID e) (e_DstName e) (kindVerb callerKindVerb (e_Kind e)).
Definition use_admitted (units : gmap string ASTUnit) (e : Edge) : bool :=
  let filters := ParseFilters (sq_Filter q) in let hit := use_site units e in
  Filters_Empty filters || Filters_Match filters (h_Language hit) (h_Kind hit) (h_FilePath hit).
(** An edge the question may be asking about. *)
Definition asked_edge (e : Edge) : Prop :=
  e_Kind e ∈ kinds ∧ testishPath (e_FilePath e) = false ∧ syntheticTrafficPath (e_FilePath e) = false ∧
  repoAllowed (sq_Repos q) (e_RepoID e) = true ∧ is_Some (keyDescribed (e_DstName e) words verbs).

Lemma uses_in_asked repoID :
  edges_found → kinds ≠ [] → Forall (λ u, asked_edge (fst u) ∧ Z.of_nat (snd u) = use_score (fst u)) (uses_in (sq_Repos q) kinds words verbs repoID).
Proof.
  intros Hf Hk. unfold uses_in. destruct (GetEdges _) as [|es] eqn:E; [done |]. pose proof (Hf _ _ E) as Hes. rewrite Forall_forall in Hes.
  apply Forall_forall. intros u (e & He & Hs)%list_elem_of_omap. unfold scored_edge in Hs.
  destruct (testishPath (e_FilePath e)) eqn:E1; [done |]. destruct (syntheticTrafficPath (e_FilePath e)) eqn:E2; [done |]. simpl in Hs.
  destruct (repoAllowed _ _) eqn:E3; [|done]. simpl in Hs. apply fmap_Some in Hs as (n & En & ->). cbn [fst snd].
  unfold asked_edge, use_score. rewrite En. split; [|done]. split_and!; [|done | done | done | by eexists].
  by destruct (edge_matches_spec _ _ (Hes _ He)) as (_ & _ & [H|H] & _).
Qed.

Lemma used_edges_asked :
  edges_found → kinds ≠ [] → Forall asked_edge (used_edges q kinds words verbs) ∧
  StronglySorted (λ a b, use_score b ≤ use_score a)%Z (used_edges q kinds words verbs).
Proof.
  intros Hf Hk. unfold used_edges. set (all := concat _).
  assert (Forall (λ u : Edge * nat, asked_edge (fst u) ∧ Z.of_nat (snd u) = use_score (fst u)) (sort_uses all)) as Hall.
  { unfold sort_uses. do 2 apply SliceSort_Forall. apply Forall_concat, Forall_forall. intros l (r & <- & _)%list_elem_of_In%in_map_iff. by apply uses_in_asked. }
  assert (sorted_by (then_by_desc (λ u : Edge * nat, Z.of_nat (snd u)) tie) (sort_uses all)) as Hs.
  { assert (SwoOn (λ _ : Edge * nat, True) (then_by_desc (λ u : Edge * nat, Z.of_nat (snd u)) tie)) as Hswo
      by (apply (then_by_desc_swo (λ _, True)); [done | apply tie_swo]).
    apply (SliceSort_sorted _ (λ _, True)). by apply Forall_true. }
  split.
  - apply Forall_fmap. eapply Forall_impl; [exact Hall |]. by intros u [? _].
  - clear -Hall Hs. induction Hs as [|u l Hs IH Hu]; [constructor |]. apply Forall_cons in Hall as [[_ Eu] Hall]. simpl. constructor; [by apply IH |].
    apply Forall_forall. intros e (v & -> & Hv)%list_elem_of_fmap. rewrite Forall_forall in Hu, Hall. specialize (Hu _ Hv). destruct (Hall _ Hv) as [_ Ev].
    rewrite <- Eu, <- Ev. unfold then_by_desc, tie in Hu. cbn [key_eqb key_ltb Z_ops] in Hu. destruct (Z.eqb_spec (Z.of_nat (snd v)) (Z.of_nat (snd u))); cbn [negb] in Hu; [lia |].
    by apply Z.ltb_ge in Hu.
Qed.

(** The edges promoted: the first at every line, up to the cap. *)
Definition use_units : gmap string ASTUnit := unitsByID (map e_SrcID (used_edges q kinds words verbs)).
Definition use_sites : list Edge :=
  take maxPromotedContractUses (first_places edge_place ∅ (filter (λ e, use_admitted use_units e = true) (used_edges q kinds words verbs))).

Lemma use_edge_step units st e :
  (us_out (use_edge (ParseFilters (sq_Filter q)) units st e), us_seen (use_edge (ParseFilters (sq_Filter q)) units st e)) =
  place_step edge_place (use_site units) (use_admitted units) maxPromotedContractUses (us_out st, us_seen st) e.
Proof.
  unfold use_edge, place_step. cbn [fst snd]. destruct (_ <=? _); [done |]. unfold use_admitted. fold (use_site units e).
  destruct (bool_decide _); cbn [negb]; [by rewrite andb_false_r |]. rewrite andb_true_r.
  destruct (Filters_Empty _); cbn [negb andb orb]; [done |]. by destruct (Filters_Match _ _ _ _).
Qed.
Lemma use_hits_sites : us_out (use_hits q (used_edges q kinds words verbs)) = map (use_site use_units) use_sites.
Proof.
  unfold use_hits. fold use_units. set (step := use_edge _ _).
  assert (∀ l st, (us_out (foldl step st l), us_seen (foldl step st l)) =
    foldl (place_step edge_place (use_site use_units) (use_admitted use_units) maxPromotedContractUses) (us_out st, us_seen st) l) as H.
  { induction l as [|e l IH]; intros st; simpl; [done |]. rewrite IH. unfold step at 1 2. by rewrite use_edge_step. }
  pose proof (f_equal fst (H (used_edges q kinds words verbs) {| us_out := []; us_seen := ∅; us_keys := ∅ |})) as E. cbn [fst us_out us_seen] in E.
  rewrite E, place_step_out by (simpl; unfold maxPromotedContractUses; lia). cbn [fst snd app]. by rewrite firstn_map.
Qed.
End Uses.

(** ** Properties *)

Lemma PromoteContractUses_sites stor p q intent hits meta :
  pr_store p = Some stor →
  let kinds := contractUseKinds (sq_Query q) (String.eqb intent IntentCallers) in
  let words := questionWords (sq_Query q) in
  let verbs := httpVerbsNamed (sq_Query q) in
  fst (PromoteContractUses p q intent hits meta) =
  if bool_decide (kinds = [] ∨ words = ∅) then hits
  else
    placed (map (@use_site (@use_units stor q kinds words verbs)) (@use_sites stor q kinds words verbs)) hits.
Proof.
  intros Hp kinds words verbs. unfold PromoteContractUses. rewrite Hp. fold kinds words verbs.
  destruct kinds as [|k ks] eqn:Ek; [by rewrite bool_decide_eq_true_2 by auto |]. rewrite <- Ek.
  destruct (bool_decide_reflect (words = ∅)) as [Hw|Hw]; [by rewrite bool_decide_eq_true_2 by auto |].
  rewrite bool_decide_eq_false_2 by (rewrite Ek; naive_solver). rewrite use_hits_sites. by destruct (map _ _).
Qed.

(** C16: A question about one side of a contract is answered by the code on that side.
    What is promoted are the edges of the kinds the question's phrasing asks for
    whose key it describes, in repositories it may read, and not in a test or a load
    generator; the most completely described key comes first, the first edge at
    every line that passes the filters, at most ten; when there are fewer, none that
    passes is left out; and the ranked hits follow in their order, less those at the
    same lines.  A question that asks for no side, or has no word of its own, changes
    nothing. *)
Theorem uses_answered stor p q intent hits meta :
  pr_store p = Some stor → @edges_found stor →
  let kinds := contractUseKinds (sq_Query q) (String.eqb intent IntentCallers) in
  let words := questionWords (sq_Query q) in
  let verbs := httpVerbsNamed (sq_Query q) in
  let units := @use_units stor q kinds words verbs in
  let sites := @use_sites stor q kinds words verbs in
  let promoted := map (use_site units) sites in
  (kinds = [] ∨ words = ∅ → fst (PromoteContractUses p q intent hits meta) = hits) ∧
  (kinds ≠ [] → words ≠ ∅ →
   fst (PromoteContractUses p q intent hits meta) =
     (match promoted with
      | [] => hits
      | _ => rescore (top_score hits) promoted ++ filter (λ h, overlapsAny h promoted = false) hits
      end) ∧
   length promoted ≤ maxPromotedContractUses ∧ NoDup (map hit_place promoted) ∧
   Forall (asked_edge q kinds words verbs) sites ∧ StronglySorted (λ a b, use_score words verbs b ≤ use_score words verbs a)%Z sites ∧
   (length sites < maxPromotedContractUses → ∀ e, e ∈ @used_edges stor q kinds words verbs → use_admitted q units e = true →
      edge_place e ∈ map hit_place promoted)).
Proof.
  intros Hp Hf kinds words verbs units sites promoted.
  pose proof (PromoteContractUses_sites stor p q intent hits meta Hp) as E. cbv zeta in E. fold kinds words verbs units sites promoted in E.
  split; [intros H; rewrite E; by rewrite bool_decide_eq_true_2 |]. intros Hk Hw. rewrite bool_decide_eq_false_2 in E by tauto.
  assert (map hit_place promoted = map edge_place sites) as Hpl by (unfold promoted; rewrite map_map; by apply map_ext).
  destruct (used_edges_asked q kinds words verbs Hf Hk) as [Ha Hs].
  assert (sites `sublist_of` used_edges q kinds words verbs) as Hsub.
  { etrans; [apply sublist_take |]. etrans; [apply first_places_sublist | apply sublist_filter]. }
  split_and!.
  - rewrite E. apply placed_spec.
  - unfold promoted, sites, use_sites. rewrite length_map, length_take. lia.
  - rewrite Hpl. unfold sites, use_sites. rewrite <- firstn_map. eapply sublist_NoDup; [|apply sublist_take]. apply first_places_nodup.
  - rewrite Forall_forall in *. intros e He. apply Ha. by eapply elem_of_submseteq, sublist_submseteq.
  - by eapply sublist_sorted.
  - intros Hl e He Hok. rewrite Hpl. unfold sites, use_sites in *. rewrite length_take in Hl. rewrite take_ge by lia.
    assert (e ∈ filter (λ e, use_admitted q units e = true) (used_edges q kinds words verbs)) as Hin by by apply list_elem_of_filter.
    by destruct (first_places_covers edge_place ∅ _ _ Hin) as [?%elem_of_empty|?].
Qed.

(** A service that calls the rpc of a question, a load generator that does, and a
    sibling rpc. *)
Module UsesDemo.
Definition edge (kind name path : string) (line : Z) : Edge := {|
  e_ID := "e"; e_RepoID := "r"; e_SrcID := "u1"; e_DstID := ""; e_Kind := kind; e_DstName := name; e_FilePath := path; e_Line := line;
  e_DstRepoID := ""; e_Confidence := ConfHigh; e_Meta := "" |}.
Definition stor : Storage := memory_store [] [
  edge EdgeRPCCall "grpc:PaymentService/Refund" "shop/refund.go" 3; edge EdgeRPCCall "grpc:PaymentService/Charge" "loadgen/main.go" 8;
  edge EdgeRPCCall "grpc:PaymentService/Charge" "shop/checkout.go" 12; edge EdgeConsumes "topic:payment-charge" "shop/events.go" 5].
Definition query : SearchQuery := {|
  sq_Query := "which service calls the payment service Charge rpc"; sq_RepoID := ""; sq_Repos := ["r"]; sq_Limit := 10; sq_Filter := [];
  sq_Intent := "" |}.
End UsesDemo.
Lemma uses_answered_witness :
  let hits := fst (PromoteContractUses (NewPromoter (Some UsesDemo.stor) true "") UsesDemo.query IntentCallers [] ∅) in
  map (λ h, (h_FilePath h, h_Line h, h_Reason h)) hits = [("shop/checkout.go", 12%Z, "rpc call to grpc:PaymentService/Charge")] ∧
  NoDup (map hit_place hits).
Proof.
  cbv zeta. set (hits := fst _).
  destruct (uses_answered UsesDemo.stor (NewPromoter (Some UsesDemo.stor) true "") UsesDemo.query IntentCallers [] ∅ eq_refl (memory_edges_found _ _))
    as [_ H].
  destruct H as (_ & _ & Hn & _); [vm_compute; discriminate | apply (bool_decide_unpack (_ ≠ _)); vm_compute; exact I |].
  split; [vm_compute; reflexivity |].
  match type of Hn with NoDup ?l => assert (map hit_place hits = l) as -> by (vm_compute; reflexivity) end. exact Hn.
Defined.
