(* ===== verification/ContractAnswersFacts.v ===== *)
(** * The answers to a spelled-out contract key

    Which keys a question gives, what the hits promoted for a key are, and how they
    are placed. *)

From S2P Require Import Prelude GoStrings GoSort GoFloat Domain Store Contract Hits Search Graph Intent Callers ContractAnswers.

(** ** Keys *)

Record keys_ok (acc : list contractRef * gset string) : Prop := {
  ko_max : length (fst acc) ≤ maxContractKeys;
  ko_seen : list_to_set (map cr_key (fst acc)) = snd acc;
  ko_nodup : NoDup (map cr_key (fst acc));
  ko_named : "" ∉ map cr_key (fst acc)
}.
Lemma add_key_ok acc ref : keys_ok acc → keys_ok (add_key acc ref).
Proof.
  destruct acc as [out seen]. intros [H1 H2 H3 H4]. cbn [fst snd] in *. unfold add_key.
  destruct (String.eqb_spec (cr_key ref) ""); [by split |]. cbn [orb].
  destruct (bool_decide_reflect (cr_key ref ∈ seen)) as [|Hs]; [by split |]. cbn [orb].
  destruct (Nat.leb_spec maxContractKeys (length out)). { by split. }
  assert (cr_key ref ∉ map cr_key out) as Hn by (rewrite <- (elem_of_list_to_set (C:=gset string)), H2; done).
  split; cbn [fst snd]; rewrite ?length_app, ?map_app; simpl; [lia | | |].
  - rewrite list_to_set_app_L, H2. simpl. set_solver.
  - apply NoDup_app. split_and!; [done | | apply NoDup_singleton]. intros x Hx ->%list_elem_of_singleton. done.
  - rewrite elem_of_app, list_elem_of_singleton. intros [?|?]; congruence.
Qed.
Lemma contractKeys_ok query :
  length (contractKeys query) ≤ maxContractKeys ∧ NoDup (map cr_key (contractKeys query)) ∧ "" ∉ map cr_key (contractKeys query).
Proof.
  assert (∀ refs acc, keys_ok acc → keys_ok (foldl add_key acc refs)) as H.
  { induction refs as [|ref refs IH]; intros acc Hacc; simpl; [done |]. by apply IH, add_key_ok. }
  destruct (H (spelled_keys query) ([], ∅)) as [H1 _ H3 H4]; [|done].
  split; simpl; [lia | done | apply NoDup_nil_2 | by intros ?%elem_of_nil].
Qed.

Lemma distinct_places_elem l e : e ∈ distinct_places l → e ∈ l.
Proof.
  unfold distinct_places. match goal with |- e ∈ fst (foldl ?f _ _) → _ => set (step := f) end.
  assert (∀ l st, e ∈ fst (foldl step st l) → e ∈ fst st ∨ e ∈ l) as H.
  { clear l. induction l as [|x l IH]; intros [out seen]; simpl; [by left |]. destruct (bool_decide _); intros [H|H]%IH; simpl in *; auto.
    - right. by right.
    - apply elem_of_app in H as [H| ->%list_elem_of_singleton]; [by left | right; by left].
    - right. by right. }
  intros [Hin|Hin]%H; [by apply elem_of_nil in Hin | done].
Qed.

(** ** Hits of a key *)

(** [push] keeps the first hit of every place, up to the cap. *)
Lemma push_hit_step acc h : push_hit acc h = place_step hit_place id (λ _, true) maxPromotedContracts acc h.
Proof. destruct acc as [out seen]. unfold push_hit, place_step. cbn [fst snd id]. by destruct (bool_decide _), (maxPromotedContracts <=? length out). Qed.
Lemma push_hits l acc : foldl push_hit acc l = foldl (place_step hit_place id (λ _, true) maxPromotedContracts) acc l.
Proof. revert acc. induction l as [|h l IH]; intros acc; simpl; [done |]. by rewrite IH, push_hit_step. Qed.

Lemma push_hits_out l :
  fst (foldl push_hit ([], ∅) l) = take maxPromotedContracts (first_places hit_place ∅ l).
Proof.
  rewrite push_hits, place_step_out by (simpl; unfold maxPromotedContracts; lia). simpl. rewrite map_id. do 2 f_equal.
  induction l as [|h l IH]; [done |]. rewrite filter_cons_True by done. by f_equal.
Qed.

Section ContractFacts.
  Context {stor : Storage}.

Lemma unitsByID_id ids id u : unitsByID ids !! id = Some u → u_ID u = id.
Proof.
  unfold unitsByID. destruct ids as [|i ids]; [done |]. destruct (GetASTUnitsByIDs _) as [|units]; [done |].
  assert (∀ m : gmap string ASTUnit, (∀ k v, m !! k = Some v → u_ID v = k) →
    ∀ k v, foldl (λ m u, <[u_ID u := u]> m) m units !! k = Some v → u_ID v = k) as H.
  { clear. induction units as [|x units IH]; intros m Hm; simpl; [done |]. apply IH. intros k v.
    destruct (decide (u_ID x = k)) as [<-|]; [rewrite lookup_insert_eq; by intros [= <-] | rewrite lookup_insert_ne by done; apply Hm]. }
  intros Hu. eapply H; [|exact Hu]. done.
Qed.
Lemma unitsByKey_allowed q key u : u ∈ unitsByKey q key → repoAllowed (sq_Repos q) (u_RepoID u) = true.
Proof.
  unfold unitsByKey. destruct (GetASTUnits _) as [|units]; [by intros ?%elem_of_nil |].
  destruct (match units with [] => _ | _ => _ end) as [|us]; [by intros ?%elem_of_nil |]. by intros [? _]%list_elem_of_filter.
Qed.
Lemma unitsByKey_read q key u : u ∈ unitsByKey q key → ∃ o us, GetASTUnits o = inr us ∧ u ∈ us.
Proof.
  unfold unitsByKey. destruct (GetASTUnits _) as [|units] eqn:E; [by intros ?%elem_of_nil |].
  destruct units as [|v vs].
  - destruct (GetASTUnits (key_opts _ "" key)) as [|us] eqn:E'; [by intros ?%elem_of_nil |]. intros [_ Hu]%list_elem_of_filter. eauto.
  - intros [_ Hu]%list_elem_of_filter. eauto.
Qed.

(** The store holds the units [held], and answers a query with as many of those it
    matches as its limit allows, in an order of its own. *)
Definition units_read (held : list ASTUnit) : Prop :=
  ∀ o us, q_Fallback o = false → GetASTUnits o = inr us →
    ∃ matching, matching ≡ₚ filter (λ u, unit_matches o u = true) held ∧ us = first_n (q_Limit o) matching.

(** The units that declare a key, in the repository of the request if it names one:
    those it qualifies, letters of either case alike, else those whose qualified name
    ends in it. *)
Definition in_request (q : SearchQuery) (u : ASTUnit) : Prop := match sq_Repos q with [r] => r = "" ∨ u_RepoID u = r | _ => True end.
#[export] Instance in_request_dec q u : Decision (in_request q u).
Proof. unfold in_request. destruct (sq_Repos q) as [|r [|]]; apply _. Defined.
Definition named_exactly (q : SearchQuery) (key : string) (u : ASTUnit) : Prop := in_request q u ∧ EqualFold key (u_Qualified u) = true.
Definition named_at_the_end (q : SearchQuery) (key : string) (u : ASTUnit) : Prop := in_request q u ∧ HasSuffix (u_Qualified u) key = true.
Definition declaring (held : list ASTUnit) (q : SearchQuery) (key : string) : list ASTUnit :=
  match filter (named_exactly q key) held with [] => filter (named_at_the_end q key) held | us => us end.
Definition declares (held : list ASTUnit) (q : SearchQuery) (key : string) (u : ASTUnit) : Prop :=
  u ∈ declaring held q key ∧ repoAllowed (sq_Repos q) (u_RepoID u) = true.

Lemma HasSuffix_empty s : HasSuffix s "" = true.
Proof. induction s as [|c s IH]; [done |]. cbn [HasSuffix]. by rewrite IH, orb_true_r. Qed.
Lemma in_request_read q u : or_empty (single_repo (sq_Repos q)) (u_RepoID u) = true ↔ in_request q u.
Proof.
  unfold in_request, single_repo, or_empty. rewrite orb_true_iff, !String.eqb_eq. destruct (sq_Repos q) as [|r [|]]; [tauto | | tauto].
  split; intros [H|H]; auto.
Qed.
Lemma key_opts_exact q key u : key ≠ "" → unit_matches (key_opts (sq_Repos q) key "") u = true ↔ named_exactly q key u.
Proof.
  intros Hk. unfold unit_matches, named_exactly. cbn. rewrite HasSuffix_empty, (proj2 (String.eqb_neq _ _) Hk), !andb_true_r. cbn.
  by rewrite andb_true_iff, in_request_read.
Qed.
Lemma key_opts_suffix q key u : unit_matches (key_opts (sq_Repos q) "" key) u = true ↔ named_at_the_end q key u.
Proof. unfold unit_matches, named_at_the_end. cbn. rewrite !andb_true_r. by rewrite andb_true_iff, in_request_read. Qed.

Lemma first_five (l : list ASTUnit) : first_n 5 l = take 5 l.
Proof. done. Qed.
Lemma unitsByKey_declares held q key u : units_read held → key ≠ "" → u ∈ unitsByKey q key → declares held q key u.
Proof.
  intros Hread Hk. unfold unitsByKey, declares, declaring.
  destruct (GetASTUnits (key_opts _ key "")) as [|us] eqn:E1; [by intros ?%elem_of_nil |].
  destruct (Hread (key_opts (sq_Repos q) key "") us eq_refl E1) as (m1 & P1 & E1'). cbn [q_Limit key_opts] in E1'. rewrite first_five in E1'.
  rewrite (filter_impl _ (named_exactly q key)) in P1 by (intros; by apply key_opts_exact).
  destruct us as [|v vs].
  - destruct (GetASTUnits (key_opts _ "" key)) as [|us] eqn:E2; [by intros ?%elem_of_nil |].
    destruct (Hread (key_opts (sq_Repos q) "" key) us eq_refl E2) as (m2 & P2 & ->). cbn [q_Limit key_opts]. rewrite first_five.
    rewrite (filter_impl _ (named_at_the_end q key)) in P2 by (intros; apply key_opts_suffix).
    intros [Ha Hu]%list_elem_of_filter. apply subseteq_take in Hu. split; [|done].
    assert (m1 = []) as -> by (by destruct m1). apply Permutation_nil in P1. by rewrite P1, <- P2.
  - intros [Ha Hu]%list_elem_of_filter. split; [|done]. rewrite E1' in Hu. apply subseteq_take in Hu. rewrite P1 in Hu.
    destruct (filter (named_exactly q key) held); [by apply elem_of_nil in Hu | done].
Qed.
(** As long as they fit in the limit of the query, none is left out. *)
Lemma unitsByKey_all held q key u :
  units_read held → key ≠ "" → (∀ o, ∃ us, GetASTUnits o = inr us) → length (declaring held q key) ≤ 5 →
  declares held q key u → u ∈ unitsByKey q key.
Proof.
  intros Hread Hk Hok. unfold unitsByKey, declares, declaring.
  destruct (Hok (key_opts (sq_Repos q) key "")) as [us E1]. rewrite E1. destruct (Hread (key_opts (sq_Repos q) key "") us eq_refl E1) as (m1 & P1 & E1').
  cbn [q_Limit key_opts] in E1'. rewrite first_five in E1'.
  rewrite (filter_impl _ (named_exactly q key)) in P1 by (intros; by apply key_opts_exact).
  destruct (filter (named_exactly q key) held) as [|e es].
  - symmetry in P1. apply Permutation_nil in P1 as ->. subst us. cbn [take].
    destruct (Hok (key_opts (sq_Repos q) "" key)) as [us E2]. rewrite E2. destruct (Hread (key_opts (sq_Repos q) "" key) us eq_refl E2) as (m2 & P2 & ->).
    cbn [q_Limit key_opts]. rewrite first_five.
    rewrite (filter_impl _ (named_at_the_end q key)) in P2 by (intros; apply key_opts_suffix).
    intros Hl [Hu Ha]. apply list_elem_of_filter. split; [done |]. rewrite take_ge by (by rewrite P2). by rewrite P2.
  - intros Hl [Hu Ha]. rewrite take_ge in E1' by (by rewrite P1). subst us.
    destruct m1 as [|v vs]; [by apply Permutation_nil_l in P1 |]. apply list_elem_of_filter. split; [done |]. by rewrite P1.
Qed.

(** What a hit promoted for a key is. *)
Inductive contract_answer (held : list ASTUnit) (q : SearchQuery) (key : string) : Hit → Prop :=
  | AnswerHandler route e u :
      declares held q key route → u_Kind route = KindHTTPRoute →
      e_Kind e = EdgeHandledBy → e_SrcID e = u_ID route ∨ u_ID route = "" → u_ID u = e_DstID e →
      contract_answer held q key (unitHit u ("handles " +:+ u_Name route))
  | AnswerDeclaration u :
      declares held q key u → contract_answer held q key (unitHit u (contractDeclares (u_Kind u)))
  | AnswerEdge e src :
      e_DstName e = key → e_Kind e ∉ [EdgeCall; EdgeHTTPCall; EdgeRPCCall] → IsTestPath (e_FilePath e) = false →
      repoAllowed (sq_Repos q) (e_RepoID e) = true →
      contract_answer held q key (contractEdgeHit e src key (kindVerb contractEdgeVerb (e_Kind e))).

Lemma serves_spec repos e :
  serves repos e = true →
  e_Kind e ∉ [EdgeCall; EdgeHTTPCall; EdgeRPCCall] ∧ IsTestPath (e_FilePath e) = false ∧ repoAllowed repos (e_RepoID e) = true.
Proof.
  unfold serves, testishPath, client_edge, contractClientEdges. simpl existsb.
  rewrite !andb_true_iff, !negb_true_iff, !orb_false_iff, !String.eqb_neq. set_solver.
Qed.

Context (found : edges_found) (held : list ASTUnit) (Hread : units_read held).

Lemma handlersOf_answers q key route :
  key ≠ "" → route ∈ unitsByKey q key → u_Kind route = KindHTTPRoute → Forall (contract_answer held q key) (handlersOf route).
Proof.
  intros Hkey Hr Hk. unfold handlersOf. destruct (GetEdges _) as [|edges] eqn:E; [done |]. apply Forall_forall. intros h Hin.
  apply list_elem_of_omap in Hin as (e & He & (u & Hu & ->)%fmap_Some).
  pose proof (found _ _ E) as Hf. rewrite Forall_forall in Hf. specialize (Hf _ He).
  apply edge_matches_spec in Hf as (_ & [Hk'|Hk'] & _ & _ & Hs & _); simpl in *; [done |].
  apply (AnswerHandler held q key route e u); [by apply unitsByKey_declares | done | done | | by eapply unitsByID_id]. destruct Hs; auto.
Qed.
Lemma declared_answers q key : key ≠ "" → Forall (contract_answer held q key) (declared_hits (unitsByKey q key)).
Proof.
  intros Hkey. unfold declared_hits. apply Forall_app. split.
  - apply Forall_concat, Forall_forall. intros l (route & <- & Hin)%list_elem_of_In%in_map_iff.
    apply list_elem_of_In, list_elem_of_filter in Hin as [Hk Hin]. by apply handlersOf_answers.
  - apply Forall_forall. intros h (u & -> & Hu)%list_elem_of_fmap. by apply AnswerDeclaration, unitsByKey_declares.
Qed.
Lemma serving_answers q key edges :
  Forall (λ e, e_DstName e = key ∧ serves (sq_Repos q) e = true) edges → Forall (contract_answer held q key) (serving_hits key edges).
Proof.
  intros H. apply Forall_forall. intros h (e & -> & He)%list_elem_of_fmap. rewrite Forall_forall in H.
  destruct (H _ He) as [? (? & ? & ?)%serves_spec]. by apply AnswerEdge.
Qed.

Lemma contractHits_spec q ref :
  cr_key ref ≠ "" →
  Forall (contract_answer held q (cr_key ref)) (contractHits q ref) ∧ NoDup (map hit_place (contractHits q ref)) ∧
  length (contractHits q ref) ≤ maxPromotedContracts.
Proof.
  intros Hkey. unfold contractHits. set (decl := declared_hits _).
  assert (∀ l, Forall (contract_answer held q (cr_key ref)) l →
    let out := fst (foldl push_hit ([], ∅) l) in
    Forall (contract_answer held q (cr_key ref)) out ∧ NoDup (map hit_place out) ∧ length out ≤ maxPromotedContracts) as Hout.
  { intros l Hl out. unfold out. rewrite push_hits_out. split_and!.
    - rewrite Forall_forall in *. intros h Hin. apply Hl. eapply first_places_elem. by eapply subseteq_take.
    - rewrite <- firstn_map. eapply sublist_NoDup; [|apply sublist_take]. apply first_places_nodup.
    - rewrite length_take. lia. }
  pose proof (declared_answers q (cr_key ref) Hkey) as Hd. fold decl in Hd.
  destruct (GetEdges _) as [|edges] eqn:E; [by apply Hout |].
  rewrite <- foldl_app. set (kept := sortContractEdges _).
  assert (Forall (contract_answer held q (cr_key ref)) (decl ++ serving_hits (cr_key ref) kept)) as Hall.
  { apply Forall_app. split; [done |]. apply serving_answers. apply Forall_forall. intros e He.
    apply SliceSort_elem, list_elem_of_filter in He as [Hs He]. split; [|done].
    pose proof (found _ _ E) as Hf. rewrite Forall_forall in Hf.
    by destruct (edge_matches_spec _ _ (Hf _ He)) as (_ & _ & _ & [H|H] & _). }
  destruct (Hout _ Hall) as (H1 & H2 & H3). set (out := fst _) in *.
  destruct (Filters_Empty _); [done |]. split_and!.
  - rewrite Forall_forall in *. intros h [_ Hin]%list_elem_of_filter. by apply H1.
  - by apply NoDup_map_filter.
  - etrans; [apply length_filter | done].
Qed.

(** Each declaration has its place among the hits, unless they are as many as may be. *)
Lemma contractHits_declared q ref u :
  cr_key ref ≠ "" → (∀ o, ∃ us, GetASTUnits o = inr us) → length (declaring held q (cr_key ref)) ≤ 5 →
  Filters_Empty (ParseFilters (sq_Filter q)) = true → declares held q (cr_key ref) u →
  hit_place (unitHit u "") ∈ map hit_place (contractHits q ref) ∨ length (contractHits q ref) = maxPromotedContracts.
Proof.
  intros Hkey Hok Hl Hf Hu.
  assert (∀ l, unitHit u (contractDeclares (u_Kind u)) ∈ l →
    hit_place (unitHit u "") ∈ map hit_place (fst (foldl push_hit ([], ∅) l)) ∨ length (fst (foldl push_hit ([], ∅) l)) = maxPromotedContracts) as Hout.
  { intros l Hin. rewrite push_hits_out. set (fp := first_places _ _ _).
    destruct (decide (length fp ≤ maxPromotedContracts)) as [Hle|Hgt]; [|right; rewrite length_take; lia].
    left. rewrite take_ge by done. destruct (first_places_covers hit_place ∅ l _ Hin) as [?%not_elem_of_empty|H]; [done | exact H]. }
  assert (unitHit u (contractDeclares (u_Kind u)) ∈ declared_hits (unitsByKey q (cr_key ref))) as Hin.
  { unfold declared_hits. apply elem_of_app. right. apply list_elem_of_fmap. exists u. split; [done |]. by eapply unitsByKey_all. }
  unfold contractHits. destruct (GetEdges _) as [|edges]; [by apply Hout |]. rewrite <- foldl_app, Hf. apply Hout, elem_of_app. by left.
Qed.
End ContractFacts.

Lemma promote_keys_spec {stor : Storage} q refs resolved promoted :
  length promoted < maxPromotedContracts →
  snd (promote_keys q refs resolved promoted) = take maxPromotedContracts (promoted ++ concat (map (contractHits q) refs)).
Proof.
  revert resolved promoted. induction refs as [|ref refs IH]; intros resolved promoted Hl; cbn [promote_keys map concat].
  { by rewrite app_nil_r, take_ge by lia. }
  destruct (contractHits q ref) as [|h l] eqn:E; [by apply IH |]. rewrite app_assoc.
  destruct (Nat.leb_spec maxPromotedContracts (length (promoted ++ h :: l))) as [Hf|Hf].
  - cbn [snd]. by rewrite (take_app_le (promoted ++ h :: l)) by lia.
  - by apply IH.
Qed.
Lemma PromoteContracts_hits stor p q hits meta :
  pr_store p = Some stor →
  fst (PromoteContracts p q hits meta) =
  placed (take maxPromotedContracts (concat (map (@contractHits stor q) (contractKeys (sq_Query q))))) hits.
Proof.
  intros Hp. unfold PromoteContracts. rewrite Hp. destruct (contractKeys (sq_Query q)) as [|ref refs] eqn:E; [done |]. rewrite <- E. clear E.
  assert (take maxPromotedContracts (concat (map (@contractHits stor q) (contractKeys (sq_Query q)))) =
          snd (@promote_keys stor q (contractKeys (sq_Query q)) [] [])) as ->.
  { rewrite promote_keys_spec by (simpl; unfold maxPromotedContracts; lia). done. }
  destruct (promote_keys _ _ _ _) as [resolved [|h l]]; done.
Qed.

(** ** Properties *)


(** A route, its handler, a client and a test that exercises it. *)
Module RouteDemo.
Definition unit (id kind name qualified path : string) : ASTUnit := {|
  u_ID := id; u_RepoID := "r"; u_FilePath := path; u_Language := "go"; u_Kind := kind; u_Name := name; u_Qualified := qualified;
  u_ParentID := ""; u_StartLine := 1; u_EndLine := 9; u_StartByte := 0; u_EndByte := 0; u_Signature := ""; u_Doc := ""; u_Hash := "";
  u_Meta := "" |}.
Definition edge (kind src dst name path : string) (line : Z) : Edge := {|
  e_ID := "e"; e_RepoID := "r"; e_SrcID := src; e_DstID := dst; e_Kind := kind; e_DstName := name; e_FilePath := path; e_Line := line;
  e_DstRepoID := ""; e_Confidence := ConfHigh; e_Meta := "" |}.
Definition route (path : string) : ASTUnit := unit "u1" KindHTTPRoute "POST /orders" "http:POST /orders" path.
Definition units (path : string) : list ASTUnit := [route path; unit "u2" "function" "createOrder" "api.createOrder" "api/orders.go"].
Definition edges : list Edge := [
  edge EdgeHandledBy "u1" "u2" "api.createOrder" "api/routes.go" 4; edge EdgeHTTPCall "u3" "u1" "http:POST /orders" "client/c.go" 8;
  edge EdgeConsumes "u4" "" "http:POST /orders" "api/orders_test.go" 12].
Definition query (filter : list (string * RawValue)) : SearchQuery := {|
  sq_Query := "where does POST /orders go"; sq_RepoID := ""; sq_Repos := []; sq_Limit := 10; sq_Filter := filter; sq_Intent := "" |}.
Definition answer (stor : Storage) (q : SearchQuery) : list (string * string) :=
  map (λ h, (h_FilePath h, h_Reason h)) (fst (PromoteContracts (NewPromoter (Some stor) true "") q [] ∅)).
End RouteDemo.
(** A store in memory is read as its lists. *)
Lemma memory_units_read units edges : @units_read (memory_store units edges) units.
Proof. intros o us _ [= <-]. by eexists. Qed.

(** The guard against test scaffolding is on edges alone: a route a test declares is
    promoted as the declaration of the contract. *)
Lemma test_declaration_promoted :
  RouteDemo.answer (memory_store (RouteDemo.units "api/routes_test.go") RouteDemo.edges) (RouteDemo.query [])
  = [("api/orders.go", "handles POST /orders"); ("api/routes_test.go", "declares the route")].
Proof. vm_compute. reflexivity. Qed.

(** When the edges of a key cannot be read the filters of the request are not applied
    to what was found before. *)
Definition no_edges_by_name (s : Storage) : Storage := {|
  GetASTUnits := @GetASTUnits s; GetASTUnitsByIDs := @GetASTUnitsByIDs s; GetASTUnitByID := @GetASTUnitByID s;
  GetEdges o := if String.eqb (q_Name o) "" then @GetEdges s o else inl ErrNotFound |}.
Lemma failed_read_skips_filters :
  let stor := memory_store (RouteDemo.units "api/routes.go") RouteDemo.edges in
  let q := RouteDemo.query [("language", RawString "python")] in
  RouteDemo.answer stor q = [] ∧
  RouteDemo.answer (no_edges_by_name stor) q = [("api/orders.go", "handles POST /orders"); ("api/routes.go", "declares the route")].
Proof. vm_compute. done. Qed.
