(* ===== verification/Answers.v ===== *)
(** * The questions the service answers ([internal/app/service.go], [active.go],
      [context.go] and [nav.go])

    Search from end to end: the intent, the scope of the request, retrieval and
    ranking, and the answers of the graph placed in front of them; the context
    package built on it; and the look-ups of symbols, definitions and references.

    Every stage of a search keeps to the repositories of the request: retrieval,
    fusion, reranking and merging, and each promotion. *)

From S2P Require Import Prelude GoStrings GoSort GoFloat Domain Store Contract Hits Search SearchMerge SearchFuse Commits Graph Intent Callers ContractAnswers ContractUses ContractAnswersFacts.

(** An error of the service: a request it refuses, or a failure. *)
Inductive AnswerError := BadRequest (why : string) | Failure (why : string).

Definition defaultSearchLimit : Z := 10.
Definition maxSearchLimit : Z := 100.
Definition SearchModeSemantic : string := "semantic".
Definition SearchModeKeyword : string := "keyword".
Definition SearchModeHybrid : string := "hybrid".

(** [index.SearchResult] with the mode that ran. *)
Record Answer := { an_Hits : list Hit; an_Total : Z; an_Query : string; an_Mode : string; an_Metadata : Meta }.

(** The parts of [app.Service] a question is answered with; the search service may
    be nil, and [sv_repos] is what listing the repositories answers now. *)
Record AppService := {
  as_search : option Search.Service;
  as_promote : Promoter;
  as_repos : Fallible (list Repo)
}.

(** ** The scope of a request *)

(** [retrievalScope]: the ids, or [None] when nothing is in scope. *)
Definition retrievalScope (s : AppService) (requested : list string) : AnswerError + option (list string) :=
  match requested with
  | _ :: _ => inr (Some requested)
  | [] =>
      match as_repos s with
      | inl e => inl (Failure ("resolve the active repositories: " +:+ store_error_text e))
      | inr all =>
          let active := map r_ID (filter (λ r, r_Active r = true) all) in
          if length active =? length all then inr (Some [])
          else match active with [] => inr None | _ => inr (Some active) end
      end
  end.

(** ** Search *)

Definition with_query (text : string) (q : SearchQuery) : SearchQuery := {|
  sq_Query := text; sq_RepoID := sq_RepoID q; sq_Repos := sq_Repos q; sq_Limit := sq_Limit q; sq_Filter := sq_Filter q;
  sq_Intent := sq_Intent q |}.
Definition with_limit (limit : Z) (q : SearchQuery) : SearchQuery := {|
  sq_Query := sq_Query q; sq_RepoID := sq_RepoID q; sq_Repos := sq_Repos q; sq_Limit := limit; sq_Filter := sq_Filter q;
  sq_Intent := sq_Intent q |}.
Definition with_repos (repos : list string) (q : SearchQuery) : SearchQuery := {|
  sq_Query := sq_Query q; sq_RepoID := sq_RepoID q; sq_Repos := repos; sq_Limit := sq_Limit q; sq_Filter := sq_Filter q;
  sq_Intent := sq_Intent q |}.
Definition clamp (default max limit : Z) : Z := if (limit <=? 0)%Z then default else if (max <? limit)%Z then max else limit.

Section Answers.
  (** [Quote] is [strconv.Quote]; [sched] is the order the searchers finish in. *)
  Context (Quote : string → string) (sched : list nat).

(** The mode decides which searchers are asked. *)
Definition candidates_in (s : Search.Service) (mode : string) (q : SearchQuery) : AnswerError + (list Hit * Meta) :=
  let failed r := match r with inl e => inl (Failure (err_text e)) | inr x => inr x end in
  if String.eqb mode SearchModeSemantic then failed (CandidatesFrom s IndexTypeVector q)
  else if String.eqb mode SearchModeKeyword then failed (CandidatesFrom s IndexTypeBM25 q)
  else if String.eqb mode SearchModeHybrid then failed (Candidates s q sched)
  else inl (BadRequest ("unknown search mode " +:+ Quote mode +:+ " (want semantic, keyword or hybrid)")).

(** The promotions, in the order they run; the last one leads the answer. *)
Definition promote_all (p : Promoter) (q : SearchQuery) (intent callee : string) (hm : list Hit * Meta) : list Hit * Meta :=
  let callers := String.eqb intent IntentCallers in
  let '(hits, meta) := if callers then PromoteCallers p q callee (fst hm) (snd hm) else hm in
  if negb (IntentEnabled p q) then (hits, meta)
  else
    let '(hits, meta) := PromoteContracts p q hits meta in
    let '(hits, meta) := if callers then (hits, meta) else PromoteRPCImplementations p q hits meta in
    PromoteContractUses p q intent hits meta.

(** [Service.Search] of a query that is not nil; [vector] says whether it carries an
    embedding. *)
Definition AppSearch (s : AppService) (vector : bool) (q : SearchQuery) (mode : string) : AnswerError + Answer :=
  if String.eqb (TrimSpace (sq_Query q)) "" && negb vector then inl (BadRequest "query must not be empty")
  else
    let q := with_limit (clamp defaultSearchLimit maxSearchLimit (sq_Limit q)) q in
    let mode := if String.eqb mode "" then SearchModeHybrid else mode in
    match as_search s with
    | None => inl (Failure "search service not available")
    | Some svc =>
        match ResolveIntent Quote (as_promote s) q with
        | inl e => inl (BadRequest e)
        | inr (intent, callee) =>
            match retrievalScope s (sq_Repos q) with
            | inl e => inl e
            | inr None => inr {| an_Hits := []; an_Total := 0; an_Query := sq_Query q; an_Mode := mode; an_Metadata := ∅ |}
            | inr (Some scope) =>
                let q := with_repos scope q in
                let exec :=
                  if String.eqb intent IntentCallers && negb (String.eqb callee "") && negb (String.eqb callee (sq_Query q))
                  then with_query callee q else q in
                match candidates_in svc mode exec with
                | inl e => inl e
                | inr (hits, meta) =>
                    let '(hits, meta) := promote_all (as_promote s) q intent callee (Rank svc (sq_Query q) hits meta (sq_Limit q)) in
                    let hits := truncate hits (sq_Limit q) in
                    inr {| an_Hits := hits; an_Total := Z.of_nat (length hits); an_Query := sq_Query q; an_Mode := mode;
                           an_Metadata := meta |}
                end
            end
        end
    end.

(** ** Context *)

(** [ContextItem], [ContextResult] *)
Record ContextItem := { ci_Hit : Hit; ci_Unit : option ASTUnit; ci_Service : string; ci_Related : list RelatedUnit }.
Record ContextResult := { cx_Query : string; cx_Mode : string; cx_Rewritten : string; cx_Items : list ContextItem }.
Definition contextOverFetch : Z := 4.

Section Context_.
  Context {stor : Storage}.

(** The item of a hit, and the key it is deduplicated by; a failed read of the
    service or of the neighbourhood leaves it out. *)
Definition context_item (hops : Z) (h : Hit) : string * ContextItem :=
  match UnitInRange (h_RepoID h) (h_FilePath h) (h_Line h) (h_EndLine h) with
  | inl _ => (file_key h, {| ci_Hit := h; ci_Unit := None; ci_Service := ""; ci_Related := [] |})
  | inr u =>
      (u_ID u, {| ci_Hit := h; ci_Unit := Some u;
                  ci_Service := match fst (serviceForUnit u newLoader) with inr name => name | inl _ => u_RepoID u end;
                  ci_Related := match fst (Expand (u_ID u) hops newLoader) with inr related => related | inl _ => [] end |})
  end.

(** The loop of [BuildContext] over the hits. *)
Fixpoint context_items (limit : nat) (hops : Z) (seen : gset string) (items : list ContextItem) (hits : list Hit) : list ContextItem :=
  match hits with
  | [] => items
  | h :: hits =>
      if limit <=? length items then items
      else
        let '(key, item) := context_item hops h in
        if bool_decide (key ∈ seen) then context_items limit hops seen items hits
        else context_items limit hops ({[key]} ∪ seen) (items ++ [item]) hits
  end.

(** [searchForContext] *)
Definition context_query (query : string) (repos : list string) (limit : Z) (intent : string) : SearchQuery := {|
  sq_Query := query; sq_RepoID := ""; sq_Repos := repos; sq_Limit := limit * contextOverFetch; sq_Filter := []; sq_Intent := intent |}.
Definition searchForContext (s : AppService) (query : string) (repos : list string) (mode : string) (limit : Z) (intent : string)
    : AnswerError + Answer :=
  AppSearch s false (context_query query repos limit intent) mode.

(** [BuildContext] *)
Definition context_limit (limit : Z) : Z := clamp 5 20 limit.
Definition BuildContext (s : AppService) (e : Assistant) (query : string) (repos : list string) (mode : string) (limit hops : Z)
    (intent : string) : AnswerError + ContextResult :=
  let limit := context_limit limit in
  let mode := if String.eqb mode "" then "keyword" else mode in
  match ResolveIntent Quote (as_promote s) {| sq_Query := query; sq_RepoID := ""; sq_Repos := []; sq_Limit := 0; sq_Filter := [];
                                              sq_Intent := intent |} with
  | inl err => inl (BadRequest err)
  | inr (resolved, _) =>
      let intent := if String.eqb resolved "" then intent else resolved in
      let '(searchQuery, rewritten) := if String.eqb resolved "" then RewriteQuery e query else (query, false) in
      match searchForContext s searchQuery repos mode limit intent with
      | inl err => inl err
      | inr found =>
          let '(found, searchQuery, rewritten) :=
            match rewritten, an_Hits found with
            | true, [] =>
                match searchForContext s query repos mode limit intent with
                | inr original => match an_Hits original with [] => (found, searchQuery, rewritten) | _ => (original, query, false) end
                | inl _ => (found, searchQuery, rewritten)
                end
            | _, _ => (found, searchQuery, rewritten)
            end in
          inr {| cx_Query := query; cx_Mode := mode; cx_Rewritten := if rewritten : bool then searchQuery else "";
                 cx_Items := context_items (Z.to_nat limit) hops ∅ [] (an_Hits found) |}
      end
  end.

(** ** Symbols, definitions and references *)

Definition defaultSymbolLimit : Z := 50.
Definition maxSymbolLimit : Z := 500.
Definition store_failure {A} (r : Fallible A) : AnswerError + A :=
  match r with inl e => inl (Failure (store_error_text e)) | inr x => inr x end.

(** [Symbols] *)
Definition no_selector (o : QueryOpts) : bool :=
  String.eqb (q_RepoID o) "" && String.eqb (q_Name o) "" && String.eqb (q_Kind o) "" && (length (q_Kinds o) =? 0) &&
  String.eqb (q_Qualified o) "" && String.eqb (q_QualifiedSuffix o) "" && String.eqb (q_NameOrQualified o) "" &&
  String.eqb (q_FilePath o) "".
Definition symbol_opts (o : QueryOpts) (repos : list string) : QueryOpts := {|
  q_RepoID := q_RepoID o; q_Repos := repos; q_FilePath := q_FilePath o; q_Language := q_Language o; q_Kind := q_Kind o;
  q_Kinds := q_Kinds o; q_Name := q_Name o; q_Qualified := q_Qualified o; q_QualifiedSuffix := q_QualifiedSuffix o;
  q_NameOrQualified := q_NameOrQualified o; q_Fallback := true; q_SrcID := q_SrcID o; q_DstID := q_DstID o;
  q_Unresolved := q_Unresolved o; q_Line := q_Line o; q_Limit := clamp defaultSymbolLimit maxSymbolLimit (q_Limit o) |}.
Definition requested_repos (o : QueryOpts) : list string := q_Repos o ++ (if String.eqb (q_RepoID o) "" then [] else [q_RepoID o]).
Definition Symbols (s : AppService) (o : QueryOpts) : AnswerError + list ASTUnit :=
  if no_selector o then inl (BadRequest "at least one of repo_id, name, kind or qualified is required")
  else
    match retrievalScope s (requested_repos o) with
    | inl e => inl e
    | inr None => inr []
    | inr (Some scope) =>
        store_failure (GetASTUnits (symbol_opts o (match requested_repos o with [] => scope | _ => q_Repos o end)))
    end.

(** [Definition] and [References]; the unit that starts last on the line wins, the
    first of those. *)
Definition maxUnitsPerLine : Z := 64.
Definition defaultReferenceLimit : Z := 50.
Definition maxReferenceLimit : Z := 500.
Definition line_opts (repoID filePath : string) (line : Z) : QueryOpts := {|
  q_RepoID := repoID; q_Repos := []; q_FilePath := filePath; q_Language := ""; q_Kind := ""; q_Kinds := []; q_Name := "";
  q_Qualified := ""; q_QualifiedSuffix := ""; q_NameOrQualified := ""; q_Fallback := false; q_SrcID := ""; q_DstID := "";
  q_Unresolved := false; q_Line := line; q_Limit := maxUnitsPerLine |}.
Definition innermost (best : option ASTUnit) (u : ASTUnit) : option ASTUnit :=
  match best with
  | None => Some u
  | Some b => if (u_StartLine b <? u_StartLine u)%Z then Some u else best
  end.
Definition DefinitionAt (repoID filePath : string) (line : Z) : AnswerError + option ASTUnit :=
  if (line <=? 0)%Z then inr None
  else
    match store_failure (GetASTUnits (line_opts repoID filePath line)) with
    | inl e => inl e
    | inr units => inr (foldl innermost None units)
    end.
Definition References (repoID filePath : string) (line limit : Z) : AnswerError + list Edge :=
  match DefinitionAt repoID filePath line with
  | inl e => inl e
  | inr None => inr []
  | inr (Some u) =>
      let limit := clamp defaultReferenceLimit maxReferenceLimit limit in
      match store_failure (GetEdges (dst_opts (u_ID u) limit)) with
      | inl e => inl e
      | inr references =>
          let room := (limit - Z.of_nat (length references))%Z in
          if (0 <? room)%Z then
            match store_failure (GetEdges (unresolved_opts repoID (u_Name u) room)) with
            | inl e => inl e
            | inr unresolved => inr (references ++ unresolved)
            end
          else inr references
      end
  end.
End Context_.
End Answers.

(** ** Ranking keeps to the repositories it is given *)

Section Ranking.
  Context (P : string → Prop).
Definition from_repos (hits : list Hit) : Prop := Forall (λ h, P (h_RepoID h)) hits.

Lemma from_repos_ids hits : from_repos hits ↔ Forall P (map h_RepoID hits).
Proof. unfold from_repos. by rewrite Forall_fmap. Qed.
Lemma from_repos_strip hits : from_repos (map strip_rank hits) ↔ from_repos hits.
Proof. unfold from_repos. rewrite Forall_fmap. done. Qed.
Lemma fuse_step_repos contribute source st rank hit :
  Forall (λ c, P (h_RepoID (cl_hit c))) (fs_order st) → P (h_RepoID hit) →
  Forall (λ c, P (h_RepoID (cl_hit c))) (fs_order (fuse_step contribute source st rank hit)).
Proof.
  intros Hst Hh. unfold fuse_step. destruct (match fs_byKey st !! Key hit with Some i => _ | None => _ end) as [i|]; cbn [fs_order].
  - apply Forall_alter; [done |]. intros c _ Hc. cbn. by case_if.
  - apply Forall_app. split; [done |]. by constructor.
Qed.
Lemma fuseBy_repos results contribute :
  Forall (λ r, from_repos (sr_Hits (ir_result r))) results → from_repos (fuseBy results contribute).
Proof.
  intros Hr. unfold fuseBy, from_repos, sortHits. apply SliceSort_Forall, Forall_fmap.
  eapply (Forall_impl (λ c, P (h_RepoID (cl_hit c)))); [|done].
  assert (∀ source hits st rank, Forall (λ c, P (h_RepoID (cl_hit c))) (fs_order st) → from_repos hits →
    Forall (λ c, P (h_RepoID (cl_hit c))) (fs_order (fuse_hits contribute source st rank hits))) as Hhits.
  { intros source. induction hits as [|h hits IH]; intros st rank Hst Hh; simpl; [done |]. apply Forall_cons in Hh as [??].
    apply IH; [|done]. by apply fuse_step_repos. }
  assert (∀ st, Forall (λ c, P (h_RepoID (cl_hit c))) (fs_order st) → Forall (λ c, P (h_RepoID (cl_hit c)))
    (fs_order (foldl (λ st r, fuse_hits contribute (ir_source r) st 0 (sr_Hits (ir_result r))) st results))) as Hall; [|by apply Hall, Forall_nil_2].
  induction Hr as [|r results Hh Hr IH]; intros st Hst; simpl; [done |]. apply IH. by apply Hhits.
Qed.
Lemma fuse_repos s results : Forall (λ r, from_repos (sr_Hits (ir_result r))) results → from_repos (fuse s results).
Proof. intros Hr. unfold fuse, fuseConvex, fuseRRF. destruct (method s); by apply fuseBy_repos. Qed.

Lemma mergeSpans_repos hits meta : from_repos hits → from_repos (fst (mergeSpans hits meta)).
Proof.
  intros Hh. unfold mergeSpans. destruct (_ <? 2); [done |]. cbn [fst].
  assert (∀ st, from_repos (ms_kept st) → from_repos (ms_kept (foldl merge_step st hits))) as H; [|by apply H, Forall_nil_2].
  induction Hh as [|h hits Hp Hh IH]; intros st Hst; simpl; [done |]. apply IH. unfold merge_step.
  destruct (find_overlap _ _ _) as [[i into]|] eqn:E; cbn [ms_kept].
  - apply find_overlap_spec in E as (_ & E & _). apply Forall_insert; [done |]. rewrite (proj1 (widen_file into h)).
    by apply (Forall_lookup_1 _ _ _ _ Hst E).
  - apply Forall_app. split; [done |]. by constructor.
Qed.
Lemma truncate_repos hits limit : from_repos hits → from_repos (truncate hits limit).
Proof. intros Hh. unfold truncate. destruct (_ && _); [by apply Forall_take | done]. Qed.
Lemma Rank_repos s query hits meta limit : from_repos hits → from_repos (fst (Rank s query hits meta limit)).
Proof.
  intros Hh. unfold Rank. pose proof (applyRerank_perm s query hits meta) as Hp.
  destruct (applyRerank s query hits meta) as [ranked meta']. cbn [fst] in Hp.
  assert (from_repos ranked) as Hr by (apply from_repos_strip; unfold from_repos; rewrite Hp; by apply from_repos_strip).
  destruct (cfg_NoMerge _); [by apply truncate_repos |]. pose proof (mergeSpans_repos ranked meta' Hr) as Hm.
  destruct (mergeSpans ranked meta'). by apply truncate_repos.
Qed.

Lemma prepend_repos promoted hits : from_repos promoted → from_repos hits → from_repos (prependPromoted promoted hits).
Proof.
  intros Hp Hh. rewrite prependPromoted_spec. apply Forall_app. split; [|by apply Forall_filter].
  apply from_repos_ids. rewrite (rescore_fmap h_RepoID) by done. by apply from_repos_ids.
Qed.
Lemma placed_repos promoted hits :
  from_repos promoted → from_repos hits → from_repos (placed promoted hits).
Proof. intros Hp Hh. destruct promoted; [done |]. by apply prepend_repos. Qed.
End Ranking.

(** ** Each promotion keeps to the repositories of the request *)

(** The handlers of a route the store holds are in its repository: the linker resolves
    them there. *)
Definition handlers_local (stor : Storage) : Prop :=
  ∀ o us route h, @GetASTUnits stor o = inr us → route ∈ us → u_Kind route = KindHTTPRoute →
    h ∈ @handlersOf stor route → h_RepoID h = u_RepoID route.

Section Promotions.
  Context (stor : Storage) (found : @edges_found stor) (local : handlers_local stor) (p : Promoter) (Hp : pr_store p = Some stor) (q : SearchQuery).
Abbreviation allowed := (λ id, repoAllowed (sq_Repos q) id = true).

Lemma PromoteCallers_repos callee hits meta : from_repos allowed hits → from_repos allowed (fst (PromoteCallers p q callee hits meta)).
Proof.
  intros Hh. destruct (pr_graph p) eqn:Eg; [|unfold PromoteCallers; by rewrite Hp, Eg].
  rewrite (PromoteCallers_sites stor) by done. cbv zeta. apply placed_repos; [|done].
  apply Forall_fmap, Forall_forall. intros [repr e] (g & _ & _ & _ & Hw)%call_sites_elem. simpl.
  unfold wanted_site, admitted in Hw. simpl in Hw. by apply andb_true_iff in Hw as [? _].
Qed.
Lemma contractHits_repos ref : from_repos allowed (@contractHits stor q ref).
Proof.
  assert (from_repos allowed (declared_hits (@unitsByKey stor q (cr_key ref)))) as Hd.
  { unfold declared_hits. apply Forall_app. split.
    - apply Forall_concat, Forall_forall. intros l (route & <- & Hin)%list_elem_of_In%in_map_iff.
      apply list_elem_of_In, list_elem_of_filter in Hin as [Hk Hin]. apply Forall_forall. intros h Hh.
      destruct (unitsByKey_read _ _ _ Hin) as (o & us & Eo & Hus).
      rewrite (local o us route h Eo Hus Hk Hh). by eapply unitsByKey_allowed.
    - apply Forall_forall. intros h (u & -> & Hu)%list_elem_of_fmap. simpl. by eapply unitsByKey_allowed. }
  assert (∀ l, from_repos allowed l → from_repos allowed (fst (foldl push_hit ([], ∅) l))) as Hpush.
  { intros l Hl. rewrite push_hits_out. unfold from_repos in *. rewrite Forall_forall in *. intros h Hin. apply Hl.
    eapply first_places_elem. by eapply subseteq_take. }
  unfold contractHits. destruct (GetEdges _) as [|edges] eqn:E; [by apply Hpush |]. rewrite <- foldl_app.
  set (out := fst _). assert (from_repos allowed out) as Ho.
  { apply Hpush, Forall_app. split; [done |]. apply Forall_forall. intros h (e & -> & He)%list_elem_of_fmap. simpl.
    apply SliceSort_elem, list_elem_of_filter in He as [Hs _]. unfold serves in Hs. rewrite !andb_true_iff in Hs. tauto. }
  destruct (Filters_Empty _); [done |]. by apply Forall_filter.
Qed.
Lemma PromoteContracts_repos hits meta : from_repos allowed hits → from_repos allowed (fst (PromoteContracts p q hits meta)).
Proof.
  intros Hh. rewrite (PromoteContracts_hits stor) by done. apply placed_repos; [|done]. apply Forall_take, Forall_concat, Forall_forall.
  intros l (ref & <- & _)%list_elem_of_In%in_map_iff. apply contractHits_repos.
Qed.

Lemma rpc_hits_repos words : "" ∉ sq_Repos q → from_repos allowed (@rpc_hits stor words (sq_Repos q)).
Proof.
  intros Hq. unfold rpc_hits. apply Forall_fmap, Forall_forall. intros e He. simpl.
  assert (∃ id, id ∈ or_everywhere (sq_Repos q) ∧ e ∈ @implementations_in stor words id) as (id & Hid & Hin).
  { apply distinct_places_elem, subseteq_take, SliceSort_elem, list_elem_of_In, in_concat in He as (l & (id & <- & Hid%list_elem_of_In)%in_map_iff & Hl%list_elem_of_In).
    eauto. }
  unfold implementations_in in Hin. destruct (GetEdges _) as [|edges] eqn:E; [by apply elem_of_nil in Hin |].
  apply list_elem_of_filter in Hin as [_ Hin]. pose proof (found _ _ E) as Hf. rewrite Forall_forall in Hf.
  destruct (edge_matches_spec _ _ (Hf _ Hin)) as ([Hr|Hr] & _); simpl in Hr; unfold repoAllowed, or_everywhere in *; destruct (sq_Repos q) as [|r rs]; try done; subst id; [done |].
  apply existsb_exists. exists (e_RepoID e). split; [by apply list_elem_of_In | apply String.eqb_refl].
Qed.
Lemma PromoteRPC_repos hits meta :
  "" ∉ sq_Repos q → from_repos allowed hits → from_repos allowed (fst (PromoteRPCImplementations p q hits meta)).
Proof.
  intros Hq Hh. unfold PromoteRPCImplementations. rewrite Hp. destruct (negb _); [done |]. destruct (content_words _) as [|w ws]; [done |].
  pose proof (rpc_hits_repos (wordSet (w :: ws)) Hq) as Hr. destruct (rpc_hits _ _) as [|h l]; [done |]. by apply prepend_repos.
Qed.
Lemma PromoteUses_repos intent hits meta : from_repos allowed hits → from_repos allowed (fst (PromoteContractUses p q intent hits meta)).
Proof.
  intros Hh. rewrite (PromoteContractUses_sites stor) by done. destruct (bool_decide_reflect (contractUseKinds (sq_Query q) (String.eqb intent IntentCallers) = [] ∨ questionWords (sq_Query q) = ∅)) as [|Hk]; [done |].
  apply placed_repos; [|done]. apply Forall_fmap, Forall_forall. intros e He. simpl.
  destruct (used_edges_asked q (contractUseKinds (sq_Query q) (String.eqb intent IntentCallers)) (questionWords (sq_Query q)) (httpVerbsNamed (sq_Query q)) found ltac:(tauto)) as [Ha _].
  rewrite Forall_forall in Ha. apply Ha. unfold use_sites in He. apply subseteq_take, first_places_elem, list_elem_of_filter in He. tauto.
Qed.

Lemma promote_all_repos intent callee hm :
  "" ∉ sq_Repos q → from_repos allowed (fst hm) → from_repos allowed (fst (promote_all p q intent callee hm)).
Proof.
  intros Hq Hh. unfold promote_all.
  assert (from_repos allowed (fst (if String.eqb intent IntentCallers then PromoteCallers p q callee (fst hm) (snd hm) else hm))) as H1
    by (destruct (String.eqb _ _); [by apply PromoteCallers_repos | done]).
  destruct (if String.eqb intent IntentCallers then PromoteCallers p q callee (fst hm) (snd hm) else hm) as [hits1 meta1]. destruct (negb _); [done |].
  pose proof (PromoteContracts_repos hits1 meta1 H1) as H2. destruct (PromoteContracts p q hits1 meta1) as [hits2 meta2].
  assert (from_repos allowed (fst (if String.eqb intent IntentCallers then (hits2, meta2) else PromoteRPCImplementations p q hits2 meta2))) as H3
    by (destruct (String.eqb _ _); [done | by apply PromoteRPC_repos]).
  destruct (if String.eqb intent IntentCallers then (hits2, meta2) else PromoteRPCImplementations p q hits2 meta2) as [hits3 meta3]. by apply PromoteUses_repos.
Qed.
End Promotions.

(** ** Retrieval keeps to them when the searchers do *)

(** A searcher answers from the repositories it is asked to search in. *)
Definition searchers_scoped (svc : Search.Service) : Prop :=
  ∀ typ srch q r, sv_searchers svc typ = Some srch → srch q = inr (Some r) → from_repos (λ id, repoAllowed (sq_Repos q) id = true) (sr_Hits r).

Lemma candidateQuery_repos svc q : sq_Repos (candidateQuery svc q) = sq_Repos q.
Proof. unfold candidateQuery. by destruct (_ <=? _)%Z. Qed.
Lemma settle_repos P r : from_repos P (sr_Hits r) → from_repos P (sr_Hits (settleSearcherOrder r)).
Proof. intros H. apply SliceSort_Forall, H. Qed.

Lemma run_searchers_answers svc q sched i r :
  run_searchers svc q sched !! i = Some (inr (Some r)) → ∃ typ srch, sv_searchers svc typ = Some srch ∧ srch q = inr (Some r).
Proof.
  rewrite run_searchers_lookup. destruct (decide _); [|done]. unfold outcome_of. destruct (searchOrder !! i) as [typ|]; [|done].
  destruct (sv_searchers svc typ) as [srch|] eqn:E; [|done]. intros [= Hr]. eauto.
Qed.
Lemma read_outcomes_results svc outcomes P i order :
  (∀ j r, outcomes !! j = Some (inr (Some r)) → from_repos P (sr_Hits r)) →
  Forall (λ r, from_repos P (sr_Hits (ir_result r))) (fst (read_outcomes svc outcomes i order)).
Proof.
  intros H. revert i. induction order as [|typ order IH]; intros i; simpl; [constructor |]. specialize (IH (Datatypes.S i)).
  destruct (read_outcomes svc outcomes (Datatypes.S i) order) as [results failures]. simpl in IH.
  destruct (sv_searchers svc typ); [|done]. destruct (outcomes !! i) as [[err|[r|]]|] eqn:E; try done. simpl.
  constructor; [|done]. eapply settle_repos, H, E.
Qed.

Lemma candidates_in_repos Quote sched svc mode q hits meta :
  searchers_scoped svc → candidates_in Quote sched svc mode q = inr (hits, meta) → from_repos (λ id, repoAllowed (sq_Repos q) id = true) hits.
Proof.
  intros Hs. unfold candidates_in.
  assert (∀ typ h m, CandidatesFrom svc typ q = inr (h, m) → from_repos (λ id, repoAllowed (sq_Repos q) id = true) h) as H1.
  { intros typ h m. unfold CandidatesFrom. destruct (sv_searchers svc typ) as [srch|] eqn:E; [|intros [= <- _]; apply Forall_nil_2].
    destruct (srch _) as [|[r|]] eqn:Er; try done. intros [= <- _]. apply settle_repos.
    pose proof (Hs _ _ _ _ E Er) as H. by rewrite candidateQuery_repos in H. }
  assert (∀ h m, Candidates svc q sched = inr (h, m) → from_repos (λ id, repoAllowed (sq_Repos q) id = true) h) as H2.
  { intros h m. unfold Candidates, collectResults.
    pose proof (read_outcomes_results svc (run_searchers svc (candidateQuery svc q) sched) (λ id, repoAllowed (sq_Repos q) id = true) 0 searchOrder) as Hr.
    destruct (read_outcomes _ _ _ _) as [results failures]. cbn [fst] in Hr.
    assert (Forall (λ r, from_repos (λ id, repoAllowed (sq_Repos q) id = true) (sr_Hits (ir_result r))) results) as Hall.
    { apply Hr. intros j r (typ & srch & E & Er)%run_searchers_answers. pose proof (Hs _ _ _ _ E Er) as H. by rewrite candidateQuery_repos in H. }
    destruct results as [|r rs]; [destruct failures; [intros [= <- _]; apply Forall_nil_2 | done] |]. intros [= <- _]. by apply fuse_repos. }
  destruct (String.eqb mode SearchModeSemantic); [destruct (CandidatesFrom svc IndexTypeVector q) as [|[h m]] eqn:E; [done |]; intros [= <- <-]; by eapply H1 |].
  destruct (String.eqb mode SearchModeKeyword); [destruct (CandidatesFrom svc IndexTypeBM25 q) as [|[h m]] eqn:E; [done |]; intros [= <- <-]; by eapply H1 |].
  destruct (String.eqb mode SearchModeHybrid); [|done]. destruct (Candidates svc q sched) as [|[h m]] eqn:E; [done |]. intros [= <- <-]. by eapply H2.
Qed.

(** ** Properties *)

(** The repositories a request may be answered from: those it names, or else the
    active ones — all of them, when none is inactive. *)
Definition in_scope (s : AppService) (requested : list string) (id : string) : Prop :=
  match requested with
  | _ :: _ => id ∈ requested
  | [] => ∃ all, as_repos s = inr all ∧ (Forall (λ r, r_Active r = true) all ∨ ∃ r, r ∈ all ∧ r_Active r = true ∧ r_ID r = id)
  end.

Lemma retrievalScope_spec s requested scope id :
  retrievalScope s requested = inr (Some scope) → repoAllowed scope id = true → in_scope s requested id.
Proof.
  unfold retrievalScope, in_scope. destruct requested as [|r rs].
  - destruct (as_repos s) as [|all]; [done |]. destruct (Nat.eqb_spec (length (map r_ID (filter (λ r, r_Active r = true) all))) (length all)) as [El|En].
    + intros [= <-] _. exists all. split; [done |]. left. rewrite length_map in El.
      apply Forall_forall. intros r Hr. destruct (decide (r_Active r = true)); [done |].
      exfalso. assert (length (filter (λ r, r_Active r = true) all) < length all); [|lia]. by apply (length_filter_lt _ _ r).
    + destruct (map r_ID _) as [|a l] eqn:Ea; [done |]. intros [= <-] Hid. exists all. split; [done |]. right.
      apply existsb_exists in Hid as (x & Hx%list_elem_of_In & ->%String.eqb_eq). rewrite <- Ea in Hx.
      apply list_elem_of_fmap in Hx as (r & -> & [Ha Hr]%list_elem_of_filter). exists r. by split.
  - intros [= <-] Hid. apply existsb_exists in Hid as (x & Hx%list_elem_of_In & ->%String.eqb_eq). done.
Qed.

(** C2: An answer reads only what its request may.  If the searchers keep to the
    repositories they are asked for, the store finds the edges it is asked for and
    the handlers of each route it returns are in the repository of the route, then
    whatever the intent, the mode, the order the searchers finish in and the
    promotions, every hit answered is from a repository the request names — or, when it names none, from an active
    one, unless none is inactive; and there are at most as many as the limit, which
    is between 1 and 100. *)
Theorem search_in_scope Quote sched stor s svc vector q mode a :
  as_search s = Some svc → pr_store (as_promote s) = Some stor →
  searchers_scoped svc → @edges_found stor → handlers_local stor →
  "" ∉ sq_Repos q → (∀ all, as_repos s = inr all → Forall (λ r, r_ID r ≠ "") all) →
  AppSearch Quote sched s vector q mode = inr a →
  Forall (λ h, in_scope s (sq_Repos q) (h_RepoID h)) (an_Hits a) ∧
  (Z.of_nat (length (an_Hits a)) ≤ clamp defaultSearchLimit maxSearchLimit (sq_Limit q) ∧ an_Total a = Z.of_nat (length (an_Hits a)))%Z ∧
  (1 ≤ clamp defaultSearchLimit maxSearchLimit (sq_Limit q) ≤ 100)%Z.
Proof.
  intros Hsvc Hp Hs Hf Hl Hq Hids. unfold AppSearch. destruct (String.eqb (TrimSpace _) "" && _); [done |].
  assert (1 ≤ clamp defaultSearchLimit maxSearchLimit (sq_Limit q) ≤ 100)%Z as Hclamp.
  { unfold clamp, defaultSearchLimit, maxSearchLimit. destruct (Z.leb_spec (sq_Limit q) 0); [lia |]. destruct (Z.ltb_spec 100 (sq_Limit q)); lia. }
  set (limit := clamp _ _ _) in *. rewrite Hsvc. destruct (ResolveIntent _ _ _) as [|[intent callee]]; [done |]. cbn [sq_Repos with_limit].
  destruct (retrievalScope s (sq_Repos q)) as [|[scope|]] eqn:Esc; [done | | intros [= <-]; simpl; split_and!; [constructor | lia | done | lia | lia]].
  set (q' := with_repos scope (with_limit limit q)).
  assert ("" ∉ scope) as Hscope.
  { unfold retrievalScope in Esc. destruct (sq_Repos q); [|by injection Esc as <-]. destruct (as_repos s) as [|all] eqn:Er; [done |].
    specialize (Hids all eq_refl). destruct (_ =? _); [injection Esc as <-; by intros ?%elem_of_nil |].
    intros Hin. assert (scope = map r_ID (filter (λ r, r_Active r = true) all)) as -> by (destruct (map r_ID _); [done | by injection Esc]).
    apply list_elem_of_fmap in Hin as (r & Er' & [_ Hr]%list_elem_of_filter). rewrite Forall_forall in Hids. by apply (Hids r). }
  set (exec := if _ && _ && _ then _ else _). assert (sq_Repos exec = scope) as Eexec by (unfold exec; by destruct (_ && _ && _)).
  destruct (candidates_in Quote sched svc _ exec) as [|[hits meta]] eqn:Ec; [done |].
  apply candidates_in_repos in Ec; [|done]. rewrite Eexec in Ec.
  pose proof (promote_all_repos stor Hf Hl (as_promote s) Hp q' intent callee (Rank svc (sq_Query q') hits meta (sq_Limit q')) Hscope
    (Rank_repos _ svc (sq_Query q') hits meta (sq_Limit q') Ec)) as Hall.
  destruct (promote_all _ _ _ _ _) as [hits' meta']. intros [= <-]. cbn [an_Hits an_Total fst] in *. change (sq_Limit q') with limit.
  pose proof (truncate_repos (λ id, repoAllowed scope id = true) hits' limit Hall) as Ht.
  split_and!; [| | done | lia | lia].
  - eapply Forall_impl; [exact Ht |]. intros h Hh. by eapply retrievalScope_spec.
  - unfold truncate. destruct (Z.ltb_spec 0 limit); [|lia]. destruct (Z.ltb_spec limit (Z.of_nat (length hits'))); simpl; [|lia].
    rewrite length_take. lia.
Qed.

(** Handlers that are local for each route a store in memory holds are so for those it returns. *)
Lemma memory_handlers_local units edges :
  forallb (λ r, forallb (λ h, String.eqb (h_RepoID h) (u_RepoID r)) (@handlersOf (memory_store units edges) r)) units = true →
  handlers_local (memory_store units edges).
Proof.
  rewrite forallb_forall. intros H o us route h [= <-] Hr _ Hh.
  assert (route ∈ units) as Hin%list_elem_of_In.
  { assert (route ∈ filter (λ u, unit_matches o u = true) units) as Hf
      by (revert Hr; unfold first_n; destruct (0 <? q_Limit o)%Z; [apply subseteq_take | done]).
    by apply list_elem_of_filter in Hf as [_ ?]. }
  specialize (H route Hin). rewrite forallb_forall in H. by apply String.eqb_eq, H, list_elem_of_In.
Qed.

(** Two repositories, one of them put aside, each with a hit and with the route a
    question is about, its handler and an edge that serves it. *)
Module ScopeDemo.
Definition repo (id : string) (active : bool) : Repo := {|
  r_ID := id; r_Name := id; r_Source := "local"; r_URL := ""; r_Path := "/src/" +:+ id; r_Branch := ""; r_IndexedAt := 0; r_Status := "idle";
  r_CreatedAt := 0; r_LastError := ""; r_LastCommit := ""; r_PendingCommit := ""; r_Active := active |}.
Definition hit (repo path : string) : Hit := {|
  h_RepoID := repo; h_FilePath := path; h_Path := path; h_Line := 1; h_EndLine := 9; h_Symbol := ""; h_Kind := ""; h_Language := "go";
  h_Score := f32_of_Z 1; h_Snippet := ""; h_Reason := "" |}.
Definition all_hits : list Hit := [hit "r1" "a.go"; hit "r2" "b.go"].
Definition bm25 : Searcher := λ q,
  inr (Some {| sr_Hits := filter (λ h, repoAllowed (sq_Repos q) (h_RepoID h) = true) all_hits; sr_Total := 0; sr_Query := sq_Query q; sr_Metadata := ∅ |}).
Lemma bm25_scoped q r : bm25 q = inr (Some r) → from_repos (λ id, repoAllowed (sq_Repos q) id = true) (sr_Hits r).
Proof.
  unfold bm25. intros H. assert (r = {| sr_Hits := filter (λ h, repoAllowed (sq_Repos q) (h_RepoID h) = true) all_hits;
    sr_Total := 0; sr_Query := sq_Query q; sr_Metadata := ∅ |}) as -> by congruence.
  cbn [sr_Hits]. generalize all_hits. intros hits. apply Forall_forall. by intros h [? _]%list_elem_of_filter.
Qed.
Definition svc : Search.Service := New (λ t, match t with IndexTypeBM25 => Some bm25 | _ => None end) None.
Definition unit (id repo kind name qualified path : string) : ASTUnit := {|
  u_ID := id; u_RepoID := repo; u_FilePath := path; u_Language := "go"; u_Kind := kind; u_Name := name; u_Qualified := qualified;
  u_ParentID := ""; u_StartLine := 1; u_EndLine := 9; u_StartByte := 0; u_EndByte := 0; u_Signature := ""; u_Doc := ""; u_Hash := "";
  u_Meta := "" |}.
Definition edge (repo kind src dst name path : string) : Edge := {|
  e_ID := "e"; e_RepoID := repo; e_SrcID := src; e_DstID := dst; e_Kind := kind; e_DstName := name; e_FilePath := path; e_Line := 4;
  e_DstRepoID := ""; e_Confidence := ConfHigh; e_Meta := "" |}.
Definition units : list ASTUnit := [
  unit "1" "r1" KindHTTPRoute "POST /orders" "http:POST /orders" "routes.go"; unit "2" "r1" "function" "create" "api.create" "orders.go";
  unit "3" "r2" KindHTTPRoute "POST /orders" "http:POST /orders" "old_routes.go"; unit "4" "r2" "function" "create" "old.create" "old_orders.go"].
Definition edges : list Edge := [
  edge "r1" EdgeHandledBy "1" "2" "api.create" "routes.go"; edge "r2" EdgeHandledBy "3" "4" "old.create" "old_routes.go";
  edge "r1" EdgeConsumes "2" "" "http:POST /orders" "worker.go"; edge "r2" EdgeConsumes "4" "" "http:POST /orders" "old_worker.go"].
Definition stor : Storage := memory_store units edges.
Definition app : AppService :=
  {| as_search := Some svc; as_promote := NewPromoter (Some stor) true ""; as_repos := inr [repo "r1" true; repo "r2" false] |}.
Definition query : SearchQuery := {|
  sq_Query := "where does POST /orders go"; sq_RepoID := ""; sq_Repos := []; sq_Limit := 0; sq_Filter := []; sq_Intent := "" |}.
End ScopeDemo.
Lemma search_in_scope_witness :
  match AppSearch id [0; 1] ScopeDemo.app false ScopeDemo.query "" with
  | inr a => map (λ h, (h_RepoID h, h_FilePath h)) (an_Hits a) = [("r1", "orders.go"); ("r1", "routes.go"); ("r1", "worker.go"); ("r1", "a.go")] ∧
             Forall (λ h, in_scope ScopeDemo.app [] (h_RepoID h)) (an_Hits a)
  | inl _ => False
  end.
Proof.
  destruct (AppSearch id [0; 1] ScopeDemo.app false ScopeDemo.query "") as [e|a] eqn:E; [exfalso; vm_compute in E; discriminate |].
  assert (searchers_scoped ScopeDemo.svc) as Hs.
  { intros typ srch q r Ht Hr. assert (srch = ScopeDemo.bm25) as -> by (destruct typ; cbv [ScopeDemo.svc New sv_searchers] in Ht; congruence).
    by apply ScopeDemo.bm25_scoped. }
  pose proof (search_in_scope id [0; 1] ScopeDemo.stor ScopeDemo.app ScopeDemo.svc false ScopeDemo.query "" a eq_refl eq_refl Hs (memory_edges_found _ _)
    (memory_handlers_local ScopeDemo.units ScopeDemo.edges ltac:(vm_compute; reflexivity))) as H.
  destruct H as [H _]; [by intros ?%elem_of_nil | intros all [= <-]; repeat constructor; discriminate | exact E |].
  split; [|exact H]. revert E. clear. intros E.
  assert (match AppSearch id [0; 1] ScopeDemo.app false ScopeDemo.query "" with inr a => map (λ h, (h_RepoID h, h_FilePath h)) (an_Hits a) | inl _ => [] end
    = [("r1", "orders.go"); ("r1", "routes.go"); ("r1", "worker.go"); ("r1", "a.go")]) as Eh by (vm_compute; reflexivity). by rewrite E in Eh.
Defined.
