(* ===== verification/Chunks.v ===== *)
(** * Chunks and symbols ([internal/index/chunk.go], [internal/index/symbols.go])

    The windows a file without symbols is cut into, and the bounded cache the
    symbols of a parsed file are handed through from one indexer to another. *)

From S2P Require Import Prelude GoStrings Domain.
From Stdlib Require Import Strings.Ascii.

(** ** Windows *)

Record Chunk := {
  ch_ID : string;
  ch_FilePath : string;
  ch_Language : string;
  ch_StartLine : Z;
  ch_EndLine : Z;
  ch_Text : string;
  ch_SymbolName : string;
  ch_SymbolKind : string
}.
Record ChunkInput := { in_Path : string; in_Language : string; in_Content : string }.
Record ChunkConfig := { ck_Method : string; ck_WindowLines : Z; ck_Overlap : Z }.

(** [withDefaults] *)
Definition withDefaults (c : ChunkConfig) : ChunkConfig :=
  let window := if (ck_WindowLines c <=? 0)%Z then 60%Z else ck_WindowLines c in
  {| ck_Method := if String.eqb (ck_Method c) "" then "window" else ck_Method c;
     ck_WindowLines := window;
     ck_Overlap := if (ck_Overlap c <? 0)%Z || (window <=? ck_Overlap c)%Z then 10%Z else ck_Overlap c |}.

Record WindowChunker := { wc_windowLines : Z; wc_overlap : Z }.
Definition NewWindowChunker (cfg : ChunkConfig) : WindowChunker :=
  let cfg := withDefaults cfg in {| wc_windowLines := ck_WindowLines cfg; wc_overlap := ck_Overlap cfg |}.
(** The defaults of a configuration are filled in twice on this way in. *)
Definition ForFile (cfg : ChunkConfig) (language : string) : WindowChunker := NewWindowChunker (withDefaults cfg).

Definition line_feed : ascii := "010"%char.
Definition lines_of (text : string) : list string := SplitByte text line_feed.
Definition of_lines (lines : list string) : string := Join lines (String line_feed "").

Definition window_chunk (f : ChunkInput) (lines : list string) (num startLine endLine : Z) : Chunk := {|
  ch_ID := in_Path f +:+ ":" +:+ Itoa num; ch_FilePath := in_Path f; ch_Language := in_Language f;
  ch_StartLine := startLine + 1; ch_EndLine := endLine;
  ch_Text := of_lines (take (Z.to_nat (endLine - startLine)) (drop (Z.to_nat startLine) lines));
  ch_SymbolName := ""; ch_SymbolKind := "" |}.

(** The loop of [Chunk]: it goes on only while the start of the window advances. *)
Fixpoint windows (w : WindowChunker) (f : ChunkInput) (lines : list string) (fuel : nat) (num startLine : Z) : list Chunk :=
  match fuel with
  | O => []
  | S fuel =>
      let len := Z.of_nat (length lines) in
      if (len <=? startLine)%Z then []
      else
        let endLine := Z.min (startLine + wc_windowLines w) len in
        if (endLine <=? startLine)%Z then []
        else
          window_chunk f lines num startLine endLine ::
          (if (len <=? endLine)%Z then []
           else
             let next := (endLine - wc_overlap w)%Z in
             if (next <=? startLine)%Z || (next <? 0)%Z then [] else windows w f lines fuel (num + 1) next)
  end.
Definition ChunkFile (w : WindowChunker) (f : ChunkInput) : list Chunk :=
  let lines := lines_of (in_Content f) in windows w f lines (length lines) 0 0.

(** ** Symbols *)

Record Symbol := { sy_Name : string; sy_Qualified : string; sy_Kind : string; sy_StartLine : Z; sy_EndLine : Z }.

Definition annotatedLanguages : list string :=
  ["go"; "java"; "kotlin"; "csharp"; "typescript"; "javascript"; "python"; "proto"].
Definition SymbolsAnnotated (language : string) : bool := existsb (String.eqb language) annotatedLanguages.
Definition ProjectSymbols (units : list ASTUnit) : list Symbol :=
  map (λ u, {| sy_Name := u_Name u; sy_Qualified := u_Qualified u; sy_Kind := u_Kind u; sy_StartLine := u_StartLine u;
               sy_EndLine := u_EndLine u |})
      (filter (λ u, u_Name u ≠ "") units).

Definition defaultSymbolCacheCapacity : nat := 4096.

(** [SymbolCache]; [sc_order] may hold keys that are gone, and a key more than once. *)
Record SymbolCache := { sc_byKey : gmap string (list Symbol); sc_order : list string; sc_cap : nat }.
Definition NewSymbolCache (capacity : nat) : SymbolCache := {| sc_byKey := ∅; sc_order := []; sc_cap := max 1 capacity |}.
Definition SharedSymbols : SymbolCache := NewSymbolCache defaultSymbolCacheCapacity.

Definition nul : string := String "000" "".
Definition symbolKey (repoID path hash : string) : string := repoID +:+ nul +:+ path +:+ nul +:+ hash.

(** [evictLocked]: the loop over the oldest keys, then the holes. *)
Fixpoint evict_oldest (cap : nat) (byKey : gmap string (list Symbol)) (order : list string) : gmap string (list Symbol) * list string :=
  match order with
  | [] => (byKey, [])
  | oldest :: rest => if cap <=? size byKey then evict_oldest cap (delete oldest byKey) rest else (byKey, order)
  end.
Definition evictLocked (c : SymbolCache) : SymbolCache :=
  let '(byKey, order) := evict_oldest (sc_cap c) (sc_byKey c) (sc_order c) in
  {| sc_byKey := byKey;
     sc_order := if 2 * sc_cap c <? length order then filter (λ k, is_Some (byKey !! k)) order else order;
     sc_cap := sc_cap c |}.
Definition Put (repoID path hash : string) (syms : list Symbol) (c : SymbolCache) : SymbolCache :=
  let k := symbolKey repoID path hash in
  let c := match sc_byKey c !! k with
           | Some _ => c
           | None => let c := evictLocked c in {| sc_byKey := sc_byKey c; sc_order := sc_order c ++ [k]; sc_cap := sc_cap c |}
           end in
  {| sc_byKey := <[k := syms]> (sc_byKey c); sc_order := sc_order c; sc_cap := sc_cap c |}.
Definition Take (repoID path hash : string) (c : SymbolCache) : option (list Symbol) * SymbolCache :=
  let k := symbolKey repoID path hash in
  (sc_byKey c !! k, {| sc_byKey := delete k (sc_byKey c); sc_order := sc_order c; sc_cap := sc_cap c |}).
Definition Len (c : SymbolCache) : nat := size (sc_byKey c).

(** ** The windows of a file *)

Section Windows.
  Context (w : WindowChunker) (f : ChunkInput) (lines : list string).
  Context (pieces : Forall (λ l, ContainsByte line_feed l = false) lines).
  Context (Ho : (0 <= wc_overlap w < wc_windowLines w)%Z).
Abbreviation len := (Z.of_nat (length lines)).
Abbreviation o := (Z.to_nat (wc_overlap w)).

Lemma window_lines num s e :
  (0 <= s < e)%Z → (e <= len)%Z →
  lines_of (ch_Text (window_chunk f lines num s e)) = take (Z.to_nat (e - s)) (drop (Z.to_nat s) lines).
Proof.
  intros Hs He. unfold lines_of, of_lines, SplitByte. cbn [ch_Text window_chunk]. apply Split_Join.
  - intros E. apply (f_equal length) in E. rewrite length_take, length_drop in E. simpl in E. lia.
  - by apply Forall_take, Forall_drop.
Qed.

(** Where a window ends, and where the next one starts. *)
Lemma windows_step fuel num s :
  (0 <= s < len)%Z →
  let e := Z.min (s + wc_windowLines w) len in
  windows w f lines (S fuel) num s =
  window_chunk f lines num s e :: (if (len <=? e)%Z then [] else windows w f lines fuel (num + 1) (e - wc_overlap w)).
Proof.
  intros Hs e. cbn [windows]. destruct (Z.leb_spec len s); [lia |]. fold e. destruct (Z.leb_spec e s); [lia |]. f_equal.
  destruct (Z.leb_spec len e); [done |]. cbv zeta. destruct (Z.leb_spec (e - wc_overlap w) s); [lia |].
  by destruct (Z.ltb_spec (e - wc_overlap w) 0); [lia |].
Qed.

Lemma windows_rest fuel : ∀ num s,
  (0 <= s)%Z → (s + wc_overlap w < len)%Z → (len - s <= Z.of_nat fuel)%Z →
  concat (map (λ c, drop o (lines_of (ch_Text c))) (windows w f lines fuel num s)) = drop (Z.to_nat (s + wc_overlap w)) lines.
Proof.
  induction fuel as [|fuel IH]; intros num s Hs Hl Hf; [lia |].
  rewrite windows_step by lia. set (e := Z.min _ _). cbn [map concat]. rewrite window_lines by lia.
  rewrite skipn_firstn_comm, drop_drop. replace (Z.to_nat s + o) with (Z.to_nat (s + wc_overlap w)) by lia.
  destruct (Z.leb_spec len e).
  - cbn [map concat]. rewrite app_nil_r. apply take_ge. rewrite length_drop. lia.
  - rewrite IH by lia. replace (Z.to_nat (e - wc_overlap w + wc_overlap w)) with (Z.to_nat (s + wc_overlap w) + (Z.to_nat (e - s) - o)) by lia.
    by rewrite <- drop_drop, take_drop.
Qed.

Lemma windows_shape fuel : ∀ num s,
  (0 <= s < len)%Z → (len - s <= Z.of_nat fuel)%Z →
  let chunks := windows w f lines fuel num s in
  map ch_ID chunks = map (λ i, in_Path f +:+ ":" +:+ Itoa (num + Z.of_nat i)) (seq 0 (length chunks)) ∧
  Forall (λ c, (s < ch_StartLine c <= ch_EndLine c)%Z ∧ (ch_EndLine c <= len)%Z ∧
               (ch_EndLine c - ch_StartLine c < wc_windowLines w)%Z) chunks.
Proof.
  induction fuel as [|fuel IH]; intros num s Hs Hf; [lia |]. cbv zeta. rewrite windows_step by lia. set (e := Z.min _ _).
  destruct (Z.leb_spec len e).
  - cbn [map length seq ch_ID window_chunk]. replace (num + Z.of_nat 0)%Z with num by lia. split; [done |]. apply Forall_singleton.
    cbn [window_chunk ch_StartLine ch_EndLine]. lia.
  - destruct (IH (num + 1)%Z (e - wc_overlap w)%Z) as [Hid Hall]; [lia | lia |].
    set (rest := windows _ _ _ _ _ _) in *. split.
    + cbn [map length seq ch_ID window_chunk]. replace (num + Z.of_nat 0)%Z with num by lia. f_equal. rewrite Hid, <- seq_shift, map_map.
      apply map_ext. intros i. do 2 f_equal. f_equal. lia.
    + constructor; [cbn [window_chunk ch_StartLine ch_EndLine]; lia |]. eapply Forall_impl; [exact Hall |]. intros c. simpl. lia.
Qed.
End Windows.

(** C36: Windows whose overlap is shorter than they are lose nothing.  The lines of the
    first chunk followed by those of every other one but its first [overlap] are the
    lines of the file; a chunk has at most [windowLines] of them and says which; the
    chunks are numbered in order. *)
Theorem ChunkFile_lossless cfg f :
  let w := NewWindowChunker cfg in
  let chunks := ChunkFile w f in
  (wc_overlap w < wc_windowLines w)%Z →
  of_lines (match chunks with
            | [] => []
            | c :: cs => lines_of (ch_Text c) ++ concat (map (λ c, drop (Z.to_nat (wc_overlap w)) (lines_of (ch_Text c))) cs)
            end) = in_Content f ∧
  map ch_ID chunks = map (λ i, in_Path f +:+ ":" +:+ Itoa (Z.of_nat i)) (seq 0 (length chunks)) ∧
  Forall (λ c, (1 <= ch_StartLine c <= ch_EndLine c)%Z ∧ (ch_EndLine c <= Z.of_nat (length (lines_of (in_Content f))))%Z ∧
               (ch_EndLine c - ch_StartLine c < wc_windowLines w)%Z) chunks.
Proof.
  intros w chunks Hw. assert (0 <= wc_overlap w < wc_windowLines w)%Z as Ho.
  { split; [|done]. unfold w, NewWindowChunker, withDefaults. simpl. destruct (_ || _)%bool eqn:E; [lia |].
    apply orb_false_iff in E as [E _]. by apply Z.ltb_ge in E. }
  set (lines := lines_of (in_Content f)).
  assert (0 < length lines) as Hlen.
  { unfold lines, lines_of, SplitByte. pose proof (Split_not_nil (Ascii.eqb line_feed) (in_Content f)). destruct (Split _ _); simpl; [done | lia]. }
  assert (Forall (λ l, ContainsByte line_feed l = false) lines) as Hp by apply SplitByte_pieces.
  destruct (windows_shape w f lines Ho (length lines) 0 0) as [Hid Hall]; [lia | lia |]. fold lines in chunks.
  change (windows w f lines (length lines) 0 0) with chunks in *. split_and!; [|exact Hid | eapply Forall_impl; [exact Hall |]; intros c; cbn; lia].
  transitivity (of_lines lines); [f_equal | apply Join_Split].
  unfold chunks, ChunkFile. fold lines. destruct (length lines) as [|n] eqn:En; [lia |]. rewrite windows_step by (rewrite ?En; lia).
  rewrite En. set (e := Z.min _ _). rewrite (window_lines f lines Hp) by (rewrite ?En; unfold e; lia).
  rewrite Z.sub_0_r. simpl drop. destruct (Z.leb_spec (Z.of_nat (S n)) e).
  - simpl. rewrite app_nil_r. apply take_ge. lia.
  - rewrite (windows_rest w f lines Hp Ho) by (rewrite ?En; lia).
    replace (e - wc_overlap w + wc_overlap w)%Z with e by lia. apply take_drop.
Qed.
Lemma ChunkFile_lossless_witness :
  let cfg := {| ck_Method := ""; ck_WindowLines := 3; ck_Overlap := 1 |} in
  let f := {| in_Path := "a.go"; in_Language := "go"; in_Content := of_lines ["a"; "b"; "c"; "d"; "e"; "f"] |} in
  let chunks := ChunkFile (NewWindowChunker cfg) f in
  map (λ c, (ch_StartLine c, ch_EndLine c)) chunks = [(1, 3); (3, 5); (5, 6)]%Z ∧
  map ch_ID chunks = ["a.go:0"; "a.go:1"; "a.go:2"].
Proof.
  cbv zeta. set (cfg := Build_ChunkConfig _ _ _). set (f := Build_ChunkInput _ _ _).
  pose proof (ChunkFile_lossless cfg f) as H. cbv zeta in H. destruct H as (_ & Hid & _); [vm_compute; reflexivity |].
  split; [vm_compute; reflexivity |]. rewrite Hid. vm_compute. reflexivity.
Defined.

(** A window of at most ten lines with an overlap out of range is given the default
    overlap, which does not fit into it: the loop stops after the first window, and
    the rest of the file is in no chunk. *)
Example short_window_loses_lines :
  let f := {| in_Path := "a.go"; in_Language := "go"; in_Content := of_lines (repeat "x" 40) |} in
  map (λ c, (ch_StartLine c, ch_EndLine c))
      (ChunkFile (NewWindowChunker {| ck_Method := ""; ck_WindowLines := 8; ck_Overlap := -1 |}) f) = [(1, 8)]%Z.
Proof. reflexivity. Qed.

(** ** The cache of symbols *)

(** A use of the cache, and what a cache without a bound would hold after some. *)
Inductive cache_op :=
  | OpPut (repoID path hash : string) (syms : list Symbol)
  | OpTake (repoID path hash : string).
Definition perform_op (c : SymbolCache) (op : cache_op) : SymbolCache :=
  match op with
  | OpPut repoID path hash syms => Put repoID path hash syms c
  | OpTake repoID path hash => snd (Take repoID path hash c)
  end.
Definition publish (m : gmap string (list Symbol)) (op : cache_op) : gmap string (list Symbol) :=
  match op with
  | OpPut repoID path hash syms => <[symbolKey repoID path hash := syms]> m
  | OpTake repoID path hash => delete (symbolKey repoID path hash) m
  end.

(** How many places of a list hold something that comes again. *)
Fixpoint repeats (l : list string) : nat :=
  match l with [] => 0 | k :: l => (if bool_decide (k ∈ l) then 1 else 0) + repeats l end.

Lemma repeats_length l : length l = repeats l + size (list_to_set l : gset string).
Proof.
  induction l as [|k l IH]; [done |]. cbn [length repeats list_to_set]. rewrite IH. destruct (bool_decide_reflect (k ∈ l)).
  - rewrite subseteq_union_1_L; [lia |]. intros x ->%elem_of_singleton. by apply elem_of_list_to_set.
  - rewrite size_union, size_singleton; [lia |]. intros x ->%elem_of_singleton. by rewrite elem_of_list_to_set.
Qed.
Lemma repeats_filter P `{!∀ x, Decision (P x)} l : repeats (filter P l) ≤ repeats l.
Proof.
  induction l as [|k l IH]; [done |]. rewrite filter_cons. destruct (decide (P k)); cbn [repeats]; [|lia].
  destruct (bool_decide_reflect (k ∈ filter P l)) as [Hf|], (bool_decide_reflect (k ∈ l)); try lia.
  by apply list_elem_of_filter in Hf as [_ ?].
Qed.
Lemma repeats_snoc l k : repeats (l ++ [k]) = repeats l + if bool_decide (k ∈ l) then 1 else 0.
Proof.
  induction l as [|x l IH]; [done |]. cbn [app repeats]. rewrite IH.
  destruct (decide (x = k)) as [->|Hn]; repeat case_bool_decide; try lia; exfalso; set_solver.
Qed.

Record cache_ok (c : SymbolCache) : Prop := {
  co_cap : 1 ≤ sc_cap c;
  co_size : size (sc_byKey c) ≤ sc_cap c;
  co_live : dom (sc_byKey c) ⊆ list_to_set (sc_order c);
  co_repeats : repeats (sc_order c) ≤ 2 * sc_cap c;
  co_order : length (sc_order c) ≤ 3 * sc_cap c
}.

Lemma evict_oldest_spec cap byKey order :
  1 ≤ cap → dom byKey ⊆ list_to_set order →
  let '(byKey', order') := evict_oldest cap byKey order in
  size byKey' < cap ∧ byKey' ⊆ byKey ∧ dom byKey' ⊆ list_to_set order' ∧
  repeats order' ≤ repeats order ∧ length order' ≤ length order ∧ (size byKey < cap → byKey' = byKey ∧ order' = order).
Proof.
  intros Hcap. revert byKey. induction order as [|k order IH]; intros byKey Hl; simpl.
  - assert (byKey = ∅) as -> by (apply dom_empty_inv_L; set_solver). rewrite map_size_empty. split_and!; try done; lia.
  - destruct (Nat.leb_spec cap (size byKey)); [|split_and!; try done; lia].
    specialize (IH (delete k byKey)). destruct (evict_oldest cap (delete k byKey) order) as [byKey' order'].
    destruct IH as (H1 & H2 & H3 & H4 & H5 & _); [rewrite dom_delete; set_solver |].
    split_and!; [done | | done | lia | lia | lia]. etrans; [exact H2 | apply delete_subseteq].
Qed.

Lemma evictLocked_ok c :
  cache_ok c →
  let c' := evictLocked c in
  sc_cap c' = sc_cap c ∧ size (sc_byKey c') < sc_cap c ∧ sc_byKey c' ⊆ sc_byKey c ∧ dom (sc_byKey c') ⊆ list_to_set (sc_order c') ∧
  repeats (sc_order c') ≤ 2 * sc_cap c ∧ (size (sc_byKey c) < sc_cap c → sc_byKey c' = sc_byKey c) ∧
  (length (sc_order c') ≤ 2 * sc_cap c ∨ list_to_set (sc_order c') = dom (sc_byKey c')).
Proof.
  intros [H1 H2 H3 H4 H5]. unfold evictLocked. pose proof (evict_oldest_spec _ _ (sc_order c) H1 H3) as Hev.
  destruct (evict_oldest _ _ _) as [byKey order]. destruct Hev as (E1 & E2 & E3 & E4 & E5 & E6). cbn [sc_byKey sc_order sc_cap].
  split_and!; [done | done | done | | | by intros Hl; apply E6 |]; destruct (Nat.ltb_spec (2 * sc_cap c) (length order)); try done; try lia.
  - intros k Hk. rewrite elem_of_list_to_set, list_elem_of_filter. rewrite elem_of_dom in Hk. split; [done |].
    apply elem_of_dom, E3 in Hk. by rewrite elem_of_list_to_set in Hk.
  - etrans; [apply repeats_filter | lia].
  - right. apply set_eq. intros k. rewrite elem_of_list_to_set, list_elem_of_filter, elem_of_dom. split; [tauto |]. intros Hk. split; [done |].
    apply elem_of_dom, E3 in Hk. by rewrite elem_of_list_to_set in Hk.
Qed.

Lemma size_insert_new (m : gmap string (list Symbol)) k v : m !! k = None → size (<[k := v]> m) = S (size m).
Proof. apply map_size_insert_None. Qed.

Lemma Put_ok repoID path hash syms c :
  cache_ok c →
  let c' := Put repoID path hash syms c in let k := symbolKey repoID path hash in
  cache_ok c' ∧ sc_cap c' = sc_cap c ∧
  (∃ kept, kept ⊆ sc_byKey c ∧ sc_byKey c' = <[k := syms]> kept ∧ (sc_byKey c !! k = None → size (sc_byKey c) < sc_cap c → kept = sc_byKey c) ∧
           (is_Some (sc_byKey c !! k) → kept = sc_byKey c)).
Proof.
  intros Hc. unfold Put. set (k := symbolKey _ _ _). cbv zeta. destruct (sc_byKey c !! k) as [old|] eqn:E; cbn [sc_byKey sc_order sc_cap].
  - split_and!; [|done |]. 2: { exists (sc_byKey c). split_and!; try done. }
    destruct Hc as [H1 H2 H3 H4 H5]. split; cbn [sc_byKey sc_order sc_cap]; [done | by rewrite map_size_insert_Some by eauto | | done | done].
    rewrite dom_insert_lookup_L by eauto. done.
  - destruct (evictLocked_ok c Hc) as (E0 & E1 & E2 & E3 & E4 & E5 & E6). set (c1 := evictLocked c) in *.
    assert (sc_byKey c1 !! k = None) as En by (by eapply lookup_weaken_None).
    split_and!; [|done |]. 2: { exists (sc_byKey c1). split_and!; [done | done | by intros _ | by intros []]. }
    pose proof (co_cap c Hc) as H1. split; cbn [sc_byKey sc_order sc_cap]; rewrite ?E0; [done | rewrite size_insert_new by done; lia | | |].
    + rewrite dom_insert_L, list_to_set_app_L. simpl. set_solver.
    + rewrite repeats_snoc. destruct (bool_decide_reflect (k ∈ sc_order c1)) as [Hin|]; [|lia]. destruct E6 as [E6|E6].
      * rewrite repeats_length in E6. assert (size (list_to_set (sc_order c1) : gset string) ≠ 0); [|lia].
        intros Hz%size_empty_inv. apply (elem_of_list_to_set (C:=gset string)) in Hin. set_solver.
      * exfalso. apply (elem_of_list_to_set (C:=gset string)) in Hin. rewrite E6 in Hin. apply elem_of_dom in Hin. by rewrite En in Hin; destruct Hin.
    + rewrite length_app. simpl. destruct E6 as [E6|E6]; [lia |]. rewrite repeats_length, E6, size_dom. lia.
Qed.
Lemma Take_ok repoID path hash c : cache_ok c → cache_ok (snd (Take repoID path hash c)).
Proof.
  intros [H1 H2 H3 H4 H5]. split; cbn [Take snd sc_byKey sc_order sc_cap]; try done.
  - etrans; [|exact H2]. rewrite <- !size_dom. apply subseteq_size. rewrite dom_delete. set_solver.
  - rewrite dom_delete. set_solver.
Qed.

Lemma symbolKey_inj repoID path hash repoID' path' hash' :
  Forall (λ s, ContainsByte "000" s = false) [repoID; path; repoID'; path'] →
  symbolKey repoID path hash = symbolKey repoID' path' hash' → repoID = repoID' ∧ path = path' ∧ hash = hash'.
Proof.
  rewrite !Forall_cons. intros (H1 & H2 & H3 & H4 & _) E. unfold symbolKey, nul in E.
  assert (∀ a b, ContainsByte "000" a = false → Cut (Ascii.eqb "000") (a +:+ String "000" "" +:+ b) = (a, Some b)) as Hcut.
  { intros a b Ha. apply Cut_app; [|apply Ascii.eqb_refl]. by apply ContainsFunc_false. }
  pose proof (Hcut repoID (path +:+ String "000" "" +:+ hash) H1) as C1. rewrite E, Hcut in C1 by done.
  assert (path' +:+ String "000" "" +:+ hash' = path +:+ String "000" "" +:+ hash) as E2 by congruence.
  pose proof (Hcut path hash H2) as C2. rewrite <- E2, Hcut in C2 by done. split_and!; congruence.
Qed.

(** The cache hands over what was published, or nothing.  Whatever is put and taken,
    it holds at most its capacity of entries, each of them the last one published
    under its key and not yet taken; it holds them all as long as there are never
    more than fit; the list it evicts by stays within three times the capacity; and
    files with other repositories, paths or contents have other keys. *)
Theorem symbols_handed_over capacity ops :
  let c := foldl perform_op (NewSymbolCache capacity) ops in
  let published := foldl publish ∅ ops in
  Len c ≤ max 1 capacity ∧ sc_byKey c ⊆ published ∧
  ((∀ n, size (foldl publish ∅ (take n ops)) ≤ max 1 capacity) → sc_byKey c = published) ∧
  length (sc_order c) ≤ 3 * max 1 capacity ∧
  (∀ repoID path hash syms, fst (Take repoID path hash (Put repoID path hash syms c)) = Some syms) ∧
  ∀ repoID path hash repoID' path' hash', Forall (λ s, ContainsByte "000" s = false) [repoID; path; repoID'; path'] →
    symbolKey repoID path hash = symbolKey repoID' path' hash' → repoID = repoID' ∧ path = path' ∧ hash = hash'.
Proof.
  intros c published.
  assert (cache_ok c ∧ sc_cap c = max 1 capacity ∧ sc_byKey c ⊆ published ∧
          ((∀ n, size (foldl publish ∅ (take n ops)) ≤ max 1 capacity) → sc_byKey c = published)) as (Hok & Hcap & Hsub & Hall).
  { unfold c, published. clear c published. induction ops as [|op ops IH] using rev_ind.
    - split_and!; try done. split; cbn [foldl sc_cap sc_byKey sc_order NewSymbolCache repeats length]; rewrite ?map_size_empty; try lia. set_solver.
    - rewrite !foldl_app. cbn [foldl]. destruct IH as (Hok & Hcap & Hsub & Hall). set (c := foldl perform_op _ ops) in *.
      assert ((∀ n, size (foldl publish ∅ (take n (ops ++ [op]))) ≤ max 1 capacity) → sc_byKey c = foldl publish ∅ ops ∧
        size (publish (foldl publish ∅ ops) op) ≤ max 1 capacity) as Hfit.
      { intros Hn. split.
        - apply Hall. intros n. destruct (decide (n ≤ length ops)).
          + specialize (Hn n). by rewrite take_app_le in Hn.
          + specialize (Hn (length ops)). rewrite take_app_le, firstn_all in Hn by lia. by rewrite take_ge by lia.
        - specialize (Hn (length (ops ++ [op]))). by rewrite firstn_all, foldl_app in Hn. }
      destruct op as [repoID path hash syms|repoID path hash].
      + cbn [perform_op publish] in *. destruct (Put_ok repoID path hash syms c Hok) as (P1 & P2 & (kept & P3 & P4 & P5 & P6)).
        split_and!; [done | by rewrite P2 | rewrite P4; apply insert_mono; by etrans |].
        intros Hn. destruct (Hfit Hn) as [He Hsz]. rewrite P4. f_equal. rewrite <- He.
        destruct (sc_byKey c !! symbolKey repoID path hash) eqn:E; [apply P6; eauto |]. apply P5; [done |].
        rewrite <- He, size_insert_new in Hsz by done. lia.
      + cbn [perform_op publish] in *. split_and!; [by apply Take_ok | done | by apply delete_mono |].
        intros Hn. destruct (Hfit Hn) as [He _]. cbn [Take snd sc_byKey]. by rewrite He. }
  pose proof (co_size c Hok) as Hs. pose proof (co_order c Hok) as Ho. rewrite Hcap in Hs, Ho.
  split_and!; [done | done | done | done | | apply symbolKey_inj].
  intros repoID path hash syms. destruct (Put_ok repoID path hash syms c Hok) as (_ & _ & (kept & _ & P4 & _)). unfold Take. cbn [fst].
  rewrite P4. apply lookup_insert_eq.
Qed.
Lemma symbols_handed_over_witness :
  let ops := [OpPut "r" "a.go" "1" []; OpPut "r" "b.go" "2" []; OpTake "r" "a.go" "1"] in
  sc_byKey (foldl perform_op (NewSymbolCache 2) ops) = foldl publish ∅ ops ∧ size (foldl publish ∅ ops) = 1.
Proof.
  cbv zeta. set (ops := [_; _; _]). destruct (symbols_handed_over 2 ops) as (_ & _ & H & _). split; [|vm_compute; reflexivity].
  apply H. intros n. destruct n as [|[|[|n]]]; [vm_compute; lia .. |]. change (take (S (S (S n))) ops) with (take (S (S (S n))) ops).
  rewrite take_ge by (simpl; lia). vm_compute. lia.
Defined.

(** The oldest entry is not always the one dropped: a key that was taken keeps its
    old place in the order, so an entry published again under it goes first. *)
Example republished_goes_first :
  let put path := Put "r" path "" [] in
  let c := put "a.go" (put "b.go" (snd (Take "r" "a.go" "" (put "a.go" (NewSymbolCache 2))))) in
  dom (sc_byKey (put "c.go" c)) = {[symbolKey "r" "b.go" ""; symbolKey "r" "c.go" ""]}.
Proof. vm_compute. reflexivity. Qed.
