(* ===== verification/Catalog.v ===== *)
(** * The repository catalog ([internal/app/repos.go], [ingest.go], [internal/repos/local/local.go])

    What is registered and how it is found again: registering from a source,
    forgetting, the working set, references typed by a user, the hints of a webhook,
    and the runtime graph of a tracing backend.  The working directory, the home
    directory and whether a path exists are what the operating system answers. *)

From S2P Require Import Prelude GoStrings GoStrconv GoSort GoFloat Domain Store Contract Paths LinkStore SqlDriver SqlEdges SqlEdgesFacts SqlUnits SqlRepos Commits.
From Stdlib Require Import Strings.Ascii.

(** ** Paths a user writes *)

Section Paths.
  Context (home cwd : string + string).

(** [config.ExpandPathErr], [config.ExpandPath] *)
Definition ExpandPathErr (path : string) : string * bool :=
  if negb (String.eqb path "~") && negb (HasPrefix path "~/") then (path, true)
  else match home with
       | inl _ => (path, false)
       | inr h => if String.eqb h "" then (path, false)
                  else if String.eqb path "~" then (h, true)
                  else (JoinPath [h; default "" (CutPrefix path "~/")], true)
       end.
Definition ExpandPath (path : string) : string := fst (ExpandPathErr path).

(** [filepath.Abs] *)
Definition Abs (path : string) : option string :=
  if IsAbs path then Some (Clean path)
  else match cwd with inl _ => None | inr wd => Some (JoinPath [wd; path]) end.

(** ** The local source *)

Record AddRequest := { ar_Name : string; ar_URL : string; ar_Path : string; ar_Branch : string }.
Record LocalSource := { ls_paths : list string }.
Definition Init (paths : option (list string)) : LocalSource := {| ls_paths := default [] paths |}.

(** One root of the allowlist. *)
Definition root_allows (abs root : string) : bool :=
  match Abs (ExpandPath root) with
  | None => false
  | Some root =>
      String.eqb abs root ||
      match Rel root abs with
      | None => false
      | Some rel => negb (String.eqb rel "..") && negb (HasPrefix rel "../")
      end
  end.
Definition pathAllowed (s : LocalSource) (abs : string) : bool :=
  match ls_paths s with [] => true | roots => existsb (root_allows abs) roots end.

(** [Source.Add]; [GenerateID] is a digest of the name and the path. *)
Definition LocalAdd (GenerateID : string → string → string) (stat : string → option string) (s : LocalSource) (req : AddRequest)
    : string + Repo :=
  if String.eqb (ar_Path req) "" then inl "path is required for local source"
  else match Abs (ar_Path req) with
       | None => inl ("resolve path: " +:+ match cwd with inl e => e | inr _ => "" end)
       | Some path =>
           if negb (pathAllowed s path) then inl ("path " +:+ path +:+ " is outside the configured local.paths allowlist")
           else match stat path with
                | Some e => inl ("path does not exist: " +:+ e)
                | None =>
                    let name := if String.eqb (ar_Name req) "" then Base path else ar_Name req in
                    inr {| r_ID := GenerateID name path; r_Name := name; r_Source := SourceTypeLocal; r_URL := ""; r_Path := path;
                           r_Branch := ""; r_IndexedAt := 0; r_Status := StatusIdle; r_CreatedAt := 0; r_LastError := "";
                           r_LastCommit := ""; r_PendingCommit := ""; r_Active := false |}
                end
       end.

(** ** References typed by a user *)

(** [resolveRepoRef]; [Quote] is [strconv.Quote]. *)
Definition resolveRepoRef (Quote : string → string) (all : list Repo) (ref : string) : AppError + Repo :=
  match List.find (λ r, String.eqb (r_ID r) ref) all with
  | Some r => inr r
  | None =>
      match filter (λ r, r_Name r ≠ "" ∧ r_Name r = ref) all with
      | [r] => inr r
      | _ :: _ as named =>
          inl (OtherError (Itoa (Z.of_nat (length named)) +:+ " repositories are named " +:+ Quote ref +:+
                           "; name one by its id: " +:+ Join (map r_ID named) " "))
      | [] =>
          let none := inl (FromStore ("no repository matches " +:+ Quote ref +:+ ": ") ErrNotFound) in
          match Abs (ExpandPath ref) with
          | None => none
          | Some abs => match List.find (λ r, String.eqb (r_Path r) abs) all with Some r => inr r | None => none end
          end
      end
  end.
End Paths.

(** ** Registering *)

Section Registry.
  Context (fault : nat → option StoreError) (by_creation : list RepoRow → list RepoRow).
  Context (sources : string → option (AddRequest → string + Repo)).

(** The repository a source found, and the same one as it is already registered. *)
Definition registered_now (now : Z) (r : Repo) : Repo := {|
  r_ID := r_ID r; r_Name := r_Name r; r_Source := r_Source r; r_URL := r_URL r; r_Path := r_Path r; r_Branch := r_Branch r;
  r_IndexedAt := r_IndexedAt r; r_Status := StatusIdle; r_CreatedAt := now; r_LastError := r_LastError r;
  r_LastCommit := r_LastCommit r; r_PendingCommit := r_PendingCommit r; r_Active := true |}.
Definition as_existing (existing r : Repo) : Repo := {|
  r_ID := r_ID r; r_Name := r_Name r; r_Source := r_Source r; r_URL := r_URL r; r_Path := r_Path r; r_Branch := r_Branch r;
  r_IndexedAt := r_IndexedAt existing; r_Status := r_Status existing; r_CreatedAt := r_CreatedAt existing;
  r_LastError := r_LastError existing; r_LastCommit := r_LastCommit existing; r_PendingCommit := r_PendingCommit existing;
  r_Active := r_Active existing |}.

(** [AddRepo] *)
Definition AddRepo (sourceType : string) (req : AddRequest) (now : Z) (d : conn repos_db) : (AppError + Repo) * conn repos_db :=
  match sources sourceType with
  | None => (inl (ErrBadRequest ("source type " +:+ sourceType +:+ " not supported")), d)
  | Some add =>
      match add req with
      | inl e => (inl (OtherError ("add repo: " +:+ e)), d)
      | inr found =>
          let repo := registered_now now found in
          let store repo d :=
            match StoreRepo fault repo d with
            | (Some e, d) => (inl (FromStore "store repo: " e), d)
            | (None, d) => (inr repo, d)
            end in
          match GetRepo fault (r_ID repo) d with
          | (inr existing, d) => store (as_existing existing repo) d
          | (inl ErrNotFound, d) => store repo d
          | (inl e, d) => (inl (FromStore "get repo: " e), d)
          end
      end
  end.

(** [ResetRepo] *)
Definition ResetRepo (repoID : string) (d : conn repos_db) : Fallible Repo * conn repos_db :=
  match GetRepo fault repoID d with
  | (inl e, d) => (inl e, d)
  | (inr repo, d) =>
      match UpdateRepoStatus fault repoID StatusIdle "" (r_IndexedAt repo) d with
      | (Some e, d) => (inl e, d)
      | (None, d) => GetRepo fault repoID d
      end
  end.

(** [ResolveRepo] *)
Definition ResolveRepo (home cwd : string + string) (Quote : string → string) (ref : string) (d : conn repos_db)
    : (AppError + Repo) * conn repos_db :=
  match ListRepos fault by_creation d with
  | (inl e, d) => (inl (FromStore "cannot list the repositories: " e), d)
  | (inr all, d) => (resolveRepoRef home cwd Quote all ref, d)
  end.

(** [SetRepoActive]: how many are active now, of how many. *)
Definition SetRepoActive (id : string) (active : bool) (d : conn repos_db) : (AppError + (nat * nat)) * conn repos_db :=
  match ListRepos fault by_creation d with
  | (inl e, d) => (inl (FromStore "cannot list the repositories: " e), d)
  | (inr all, d) =>
      let ids := map r_ID (filter (λ r, (if String.eqb (r_ID r) id then active else r_Active r) = true) all) in
      match SetActiveRepos fault ids d with
      | (Some e, d) => (inl (FromStore "" e), d)
      | (None, d) => (inr (length ids, length all), d)
      end
  end.
End Registry.

(** ** Forgetting *)

(** One thing a repository is removed from, and how the failure is reported. *)
Section Forgetting.
  Context {X : Type}.
Definition step : Type := string * (X → option string * X).

(** [DeleteRepo] after the repository was read: the source it came from, the
    indexers, the tables of the store and the row of the repository, each tried
    whatever became of the others; then the indexes are compacted. *)
Definition forget_all (steps : list step) (x : X) : list string * X :=
  foldl (λ '(errs, x) '(label, remove), let '(err, x) := remove x in
           (match err with Some e => errs ++ [label +:+ e] | None => errs end, x)) ([], x) steps.
Definition DeleteRepo (GetRepo : string → X → Fallible Repo * X) (source_remove : string → option (string → X → option string * X))
    (indexers : list (string * (string → X → option string * X)))
    (DeleteFilesByRepo DeleteASTUnitsByRepo DeleteEdgesByRepo DeleteRepoCoverage DeleteRepoRow : string → X → option string * X)
    (compactIndexes : X → X) (repoID : string) (x : X) : option string * X :=
  match GetRepo repoID x with
  | (inl e, x) => (Some (store_error_text e), x)
  | (inr repo, x) =>
      let steps :=
        match source_remove (r_Source repo) with Some remove => [("remove from source: ", remove repoID)] | None => [] end ++
        map (λ '(name, remove), ("remove from indexer " +:+ name +:+ ": ", remove repoID)) indexers ++
        [("delete files: ", DeleteFilesByRepo repoID); ("delete ast units: ", DeleteASTUnitsByRepo repoID);
         ("delete edges: ", DeleteEdgesByRepo repoID); ("delete coverage: ", DeleteRepoCoverage repoID);
         ("delete repo: ", DeleteRepoRow repoID)] in
      let '(errs, x) := forget_all steps x in
      (match errs with [] => None | _ => Some (Join errs (String "010" "")) end, compactIndexes x)
  end.
End Forgetting.

(** ** Hints of a webhook *)

(** [normalizeRepoRef] *)
Definition after_scheme (v : string) : string :=
  match CutStr v "://" with Some (_, rest) => rest | None => v end.
Definition normalizeRepoRef (v : string) : string :=
  let v := after_scheme (ToLower (TrimSpace v)) in
  let v := TrimPrefix v "git@" in
  let v := match Cut (Ascii.eqb "@") v with (_, Some rest) => rest | (_, None) => v end in
  TrimSuffix (TrimSuffix v "/") ".git".

(** [FindRepoByHints]: the addresses, then the names, then the last segments. *)
Definition by_url (all : list Repo) : gmap string Repo :=
  foldl (λ m r, if String.eqb (r_URL r) "" then m else <[normalizeRepoRef (r_URL r) := r]> m) ∅ all.
Definition hint_url (all : list Repo) (hint : string) : option Repo :=
  if String.eqb hint "" then None else by_url all !! normalizeRepoRef hint.
Definition hint_name (all : list Repo) (hint : string) : option Repo :=
  List.find (λ r, negb (String.eqb (r_Name r) "") && String.eqb (r_Name r) hint) all.
Definition hint_tail (all : list Repo) (hint : string) : option Repo :=
  match CutLast (Ascii.eqb "/") (normalizeRepoRef hint) with
  | None => None
  | Some (_, tail) => List.find (λ r, negb (String.eqb (r_Name r) "") && EqualFold (r_Name r) tail) all
  end.
Fixpoint first_hint (rule : string → option Repo) (hints : list string) : option Repo :=
  match hints with
  | [] => None
  | hint :: hints => match rule hint with Some r => Some r | None => first_hint rule hints end
  end.
Definition FindRepoByHints (list_repos : Fallible (list Repo)) (hints : list string) : Fallible Repo :=
  match list_repos with
  | inl e => inl e
  | inr all =>
      match first_hint (hint_url all) hints with
      | Some r => inr r
      | None =>
          match first_hint (hint_name all) hints with
          | Some r => inr r
          | None => match first_hint (hint_tail all) hints with Some r => inr r | None => inl ErrNotFound end
          end
      end
  end.

(** ** The runtime graph *)

Record RuntimeServiceEdge := { rt_Client : string; rt_Server : string; rt_Calls : Z }.
Record RuntimeIngestResult := { ri_Received : nat; ri_Stored : nat; ri_Unmatched : list string; ri_Known : list string }.

Definition serviceNameKey (name : string) : string := Join (WordComponents name) "".

(** The services by the key of their name; of two with one key the later one. *)
Definition services_by_name (units : list ASTUnit) : gmap string ASTUnit :=
  foldl (λ m u, <[serviceNameKey (u_Name u) := u]> m) ∅ units.
Definition service_of (byName : gmap string ASTUnit) (name : string) : option ASTUnit := byName !! serviceNameKey name.
Definition placed_ends (byName : gmap string ASTUnit) (e : RuntimeServiceEdge) : option (ASTUnit * ASTUnit) :=
  match service_of byName (rt_Client e), service_of byName (rt_Server e) with
  | Some client, Some server => Some (client, server)
  | _, _ => None
  end.
Definition unmatched_names (byName : gmap string ASTUnit) (edges : list RuntimeServiceEdge) : gset string :=
  list_to_set (filter (λ n, service_of byName n = None) (concat (map (λ e, [rt_Client e; rt_Server e]) edges))).
Definition runtime_edge (e : RuntimeServiceEdge) (client server : ASTUnit) : Edge := {|
  e_ID := ""; e_RepoID := u_RepoID client; e_SrcID := u_ID client; e_DstID := u_ID server; e_Kind := EdgeRuntimeCall;
  e_DstName := "runtime:" +:+ rt_Server e; e_FilePath := u_FilePath client; e_Line := 0; e_DstRepoID := u_RepoID server;
  e_Confidence := f32_of_Z 1; e_Meta := "{" +:+ String "034" ("calls" +:+ String "034" (":" +:+ Itoa (rt_Calls e) +:+ "}")) |}.

Section Runtime.
  Context {St : Type} {L : LinkStore St}.

(** [IngestRuntimeServiceGraph]; edges are stored one after the other. *)
Fixpoint store_runtime (es : list Edge) (st : St) : option StoreError * St :=
  match es with
  | [] => (None, st)
  | e :: es => match store_edge e st with (Some err, st) => (Some err, st) | (None, st) => store_runtime es st end
  end.
Definition IngestRuntimeServiceGraph (edges : list RuntimeServiceEdge) (st : St) : Fallible RuntimeIngestResult * St :=
  match read_units (link_query "" KindService []) st with
  | (inl e, st) => (inl e, st)
  | (inr units, st) =>
      let byName := services_by_name units in
      let matched := omap (λ e, (λ '(c, s), runtime_edge e c s) <$> placed_ends byName e) edges in
      let result n known := {| ri_Received := length edges; ri_Stored := n;
                               ri_Unmatched := SortStrings (elements (unmatched_names byName edges)); ri_Known := known |} in
      match matched with
      | [] => (inr (result 0 (SortStrings (map u_Name units))), st)
      | _ =>
          match delete_by_kind "" EdgeRuntimeCall st with
          | (Some e, st) => (inl e, st)
          | (None, st) =>
              match store_runtime matched st with
              | (Some e, st) => (inl e, st)
              | (None, st) => (inr (result (length matched) []), st)
              end
          end
      end
  end.
End Runtime.

(** ** Keeping up with the source *)

(** [SyncRepo] with [IndexRepo] as an argument; the source of the repository may be
    one this process does not serve. *)
Definition SyncRepo {X} (GetRepo : string → X → Fallible Repo * X) (source_update : string → option (Repo → X → option string * X))
    (IndexRepo : string → bool → X → option AppError * X) (repoID : string) (force : bool) (x : X) : option AppError * X :=
  match GetRepo repoID x with
  | (inl e, x) => (Some (FromStore "" e), x)
  | (inr repo, x) =>
      match source_update (r_Source repo) with
      | None => IndexRepo repoID force x
      | Some update =>
          match update repo x with
          | (Some e, x) => (Some (OtherError ("update source: " +:+ e)), x)
          | (None, x) => IndexRepo repoID force x
          end
      end
  end.

(** [SyncRepoAsync]: the claim, then what runs in the background. *)
Section Sync.
  Context (fault : nat → option StoreError).
Definition claim_sync (owner repoID : string) (now : Z) (d : conn repos_db) : (AppError + Repo) * conn repos_db :=
  match GetRepo fault repoID d with
  | (inl e, d) => (inl (FromStore "" e), d)
  | (inr repo, d) =>
      match ClaimRepoForIndexing fault repoID owner DefaultRepoClaimTTLSeconds now d with
      | (inl e, d) => (inl (FromStore "" e), d)
      | (inr false, d) => (inl (ErrRepoBusy repoID), d)
      | (inr true, d) => (inr repo, d)
      end
  end.
Definition run_sync (update : option (Repo → option string)) (runIndex : Repo → conn repos_db → conn repos_db) (repo : Repo)
    (d : conn repos_db) : conn repos_db :=
  match update with
  | Some pull =>
      match pull repo with
      | Some e => snd (UpdateRepoStatus fault (r_ID repo) StatusError ("update source: " +:+ e) (r_IndexedAt repo) d)
      | None => runIndex repo d
      end
  | None => runIndex repo d
  end.
End Sync.

(** ** What a registration changes *)

Section RegistryFacts.
  Context (fault : nat → option StoreError) (sources : string → option (AddRequest → string + Repo)).

Lemma repoFromRow_definition existing found row :
  r_ID found = repo_id row → existing = repoFromRow row →
  as_existing existing found = repoFromRow (set_definition (as_existing existing found) row).
Proof. intros H ->. destruct row, found. simpl in *. by subst. Qed.
Lemma storeRepo_known d t row :
  repos_ok t → row ∈ t → repo_id row = r_ID d →
  storeRepo d t = inr (tt, map (λ r, if is_repo (r_ID d) r then set_definition d r else r) t).
Proof.
  intros Ht Hr Hi. unfold storeRepo. replace (existsb _ t) with true; [done |]. symmetry. apply existsb_repo.
  rewrite <- Hi. by apply list_elem_of_fmap_2.
Qed.
Lemma storeRepo_new d t : r_ID d ∉ map repo_id t → storeRepo d t = inr (tt, t ++ [new_repo d]).
Proof.
  intros H. unfold storeRepo. destruct (existsb _ t) eqn:E; [by apply existsb_repo in E | done].
Qed.
Lemma StoreRepo_cases d c e c' :
  StoreRepo fault d c = (e, c') →
  match e with Some _ => tables c' = tables c | None => storeRepo d (tables c) = inr (tt, tables c') end.
Proof. intros H. apply report_cases in H. destruct e; [done |]. by destruct H as [[] H]. Qed.
Lemma GetRepo_answers id c r c' :
  (∀ n, fault n ≠ Some ErrNotFound) → repos_ok (tables c) → GetRepo fault id c = (r, c') →
  tables c' = tables c ∧
  match r with
  | inl ErrNotFound => id ∉ map repo_id (tables c)
  | inl _ => True
  | inr repo => ∃ row, row ∈ tables c ∧ repo_id row = id ∧ repo = repoFromRow row
  end.
Proof.
  intros Hf Ht. unfold GetRepo, call. pose proof (find_repo id _ Ht) as Hr. pose proof (Hf (calls c)) as Hc.
  destruct (fault _) as [e|]; [intros [= <- <-]; split; [done |]; by destruct e |].
  unfold getRepo. destruct (List.find _ _) as [row|]; intros [= <- <-]; (split; [done |]); [|done].
  exists row. by destruct Hr as (H1 & H2 & _).
Qed.

(** A known repository was refreshed, or a new one joined. *)
Definition added (found : Repo) (now : Z) (d : conn repos_db) (repo : Repo) (d' : conn repos_db) : Prop :=
  (∃ row, row ∈ tables d ∧ repo_id row = r_ID found ∧ repo = as_existing (repoFromRow row) (registered_now now found) ∧
     (tables d' : repos_db) = map (λ x, if is_repo (r_ID repo) x then set_definition repo x else x) (tables d)) ∨
  ((r_ID found ∉ map repo_id (tables d)) ∧ repo = registered_now now found ∧
     (tables d' : repos_db) = tables d ++ [new_repo repo]).

Lemma added_twice found now now' d d' d'' repo repo' :
  added found now d repo d' → added found now' d' repo' d'' → tables d'' = tables d'.
Proof.
  intros Hc [(row & Hr & Hi & -> & ->)|(Hn & -> & _)].
  + destruct Hc as [(row0 & _ & _ & -> & ->)|(Hn & -> & ->)].
    * rewrite map_map. apply map_ext. intros x. cbn [as_existing registered_now r_ID].
      destruct (is_repo (r_ID found) x) eqn:E; [|by rewrite E]. unfold is_repo in *. cbn [set_definition repo_id]. by rewrite E.
    * rewrite map_app. f_equal.
      -- rewrite <- (map_id (tables d)) at 2. apply map_ext_in. intros x Hx%list_elem_of_In.
         destruct (is_repo _ x) eqn:E; [|done]. apply is_repo_spec in E. destruct Hn.
         change (r_ID found) with (r_ID (as_existing (repoFromRow row) (registered_now now' found))). rewrite <- E. by apply list_elem_of_fmap_2.
      -- simpl. unfold is_repo. simpl. by rewrite String.eqb_refl.
  + destruct Hn. destruct Hc as [(row0 & Hr0 & Hi0 & -> & ->)|(_ & -> & ->)].
    * rewrite <- Hi0. apply list_elem_of_fmap.
      exists (set_definition (as_existing (repoFromRow row0) (registered_now now found)) row0). split; [done |].
      apply list_elem_of_fmap. exists row0. split; [|done]. pose proof (proj2 (is_repo_spec (r_ID found) row0) Hi0) as E.
      change (r_ID (as_existing ?a (registered_now now ?b))) with (r_ID b). by rewrite E.
    * rewrite map_app. apply elem_of_app. right. by left.
Qed.

(** What a successful registration did. *)
Lemma AddRepo_cases ty req now d r d' :
  (∀ n, fault n ≠ Some ErrNotFound) → repos_ok (tables d) → AddRepo fault sources ty req now d = (r, d') →
  match r with
  | inl _ => tables d' = tables d
  | inr repo =>
      ∃ add found, sources ty = Some add ∧ add req = inr found ∧
      added found now d repo d'
  end.
Proof.
  intros Hf Ht. unfold AddRepo. destruct (sources ty) as [add|]; [|by intros [= <- <-]].
  destruct (add req) as [e|found] eqn:Ea; [by intros [= <- <-] |].
  destruct (GetRepo fault _ d) as [[e|ex] d1] eqn:Eg; apply (GetRepo_answers _ _ _ _ Hf Ht) in Eg as [Ht1 Hg].
  - destruct (bool_decide (e = ErrNotFound)) eqn:Ee.
    + apply bool_decide_eq_true in Ee as ->. destruct (StoreRepo fault _ d1) as [[e|] d2] eqn:Es; apply StoreRepo_cases in Es;
        intros [= <- <-]; [by rewrite Es |].
      rewrite Ht1, storeRepo_new in Es by done. injection Es as Es. exists add, found. split_and!; [done..|]. right. by rewrite Es.
    + apply bool_decide_eq_false in Ee. destruct e; try done; by intros [= <- <-].
  - destruct Hg as (row & Hr & Hi & ->). destruct (StoreRepo fault _ d1) as [[e|] d2] eqn:Es; apply StoreRepo_cases in Es;
      intros [= <- <-]; [by rewrite Es |].
    rewrite Ht1, (storeRepo_known _ _ row) in Es by done. injection Es as Es. exists add, found. split_and!; [done..|]. left.
    exists row. split_and!; [done..|]. exact (eq_sym Es).
Qed.

(** Registering a repository again only refreshes what defines it: where it is, what it
    is called.  What a pass left on it (its state, its last error, the commits, the
    claim) and its place in the working set stay, and no other repository is touched;
    a new repository joins idle and active.  The repository answered for a known id is the row that was
    stored.  When the registration fails nothing has changed, and doing it a second
    time at any later time changes nothing. *)
Theorem registration_keeps_state ty req now d r d' :
  (∀ n, fault n ≠ Some ErrNotFound) → repos_ok (tables d) → AddRepo fault sources ty req now d = (r, d') →
  repos_ok (tables d') ∧
  match r with
  | inl _ => tables d' = tables d
  | inr repo =>
      (∀ row, row ∈ tables d →
         ∃ row', row' ∈ tables d' ∧
           (if bool_decide (repo_id row = r_ID repo) then row' = set_definition repo row ∧ repo = repoFromRow row' else row' = row)) ∧
      (r_ID repo ∈ map repo_id (tables d) → map repo_id (tables d') = map repo_id (tables d)) ∧
      (r_ID repo ∉ map repo_id (tables d) →
         tables d' = tables d ++ [new_repo repo] ∧ r_Status repo = StatusIdle ∧ r_CreatedAt repo = now) ∧
      (∀ now' r' d'', AddRepo fault sources ty req now' d' = (r', d'') → tables d'' = tables d')
  end.
Proof.
  intros Hf Ht H. destruct r as [e|repo]; [by pose proof (AddRepo_cases _ _ _ _ _ _ Hf Ht H) as Hd; simpl in Hd; rewrite Hd |].
  assert (repos_ok (tables d')) as Ht'.
  { pose proof (AddRepo_cases _ _ _ _ _ _ Hf Ht H) as (add & found & _ & _ & [(row & Hr & Hi & -> & Hd)|(Hn & -> & Hd)]); rewrite Hd.
    - eapply storeRepo_ids; [exact Ht | by apply storeRepo_known with row].
    - eapply storeRepo_ids; [exact Ht | by apply storeRepo_new]. }
  split; [done |]. pose proof (AddRepo_cases _ _ _ _ _ _ Hf Ht H) as (add & found & Ha & Hq & Hc).
  assert (r_ID repo = r_ID found) as Hid by (by destruct Hc as [(? & _ & _ & -> & _)|(_ & -> & _)]).
  split_and!.
  - intros row Hr. destruct Hc as [(row0 & Hr0 & Hi & -> & ->)|(Hn & -> & ->)].
    + case_bool_decide as E.
      * exists (set_definition (as_existing (repoFromRow row0) (registered_now now found)) row). split.
        { apply list_elem_of_fmap. exists row. apply is_repo_spec in E. by rewrite E. }
        split; [done |]. assert (row = row0) as ->; [|by apply repoFromRow_definition].
        apply (NoDup_map_inj repo_id (tables d)); [done.. |]. by rewrite Hi.
      * exists row. split; [|done]. apply list_elem_of_fmap. exists row. split; [|done]. rewrite <- is_repo_spec in E. by destruct (is_repo _ row).
    + exists row. rewrite bool_decide_eq_false_2.
      * split; [|done]. apply elem_of_app. by left.
      * intros E. apply Hn. change (r_ID found) with (r_ID (registered_now now found)). rewrite <- E. by apply list_elem_of_fmap_2.
  - intros Hin. destruct Hc as [(row & _ & _ & -> & ->)|(Hn & -> & _)]; [|done].
    rewrite map_map. apply map_ext. intros x. by destruct (is_repo _ x).
  - intros Hn. destruct Hc as [(row & Hr & Hi & -> & _)|(_ & -> & ->)]; [|done].
    destruct Hn. cbn [as_existing registered_now r_ID]. rewrite <- Hi. by apply list_elem_of_fmap_2.
  - intros now' r' d'' H2. apply AddRepo_cases in H2; [|done..]. destruct r' as [e|repo']; [done |].
    destruct H2 as (add' & found' & Ha' & Hq' & Hc'). assert (found' = found) as -> by congruence.
    by eapply added_twice.
Qed.
End RegistryFacts.

Lemma registration_keeps_state_witness :
  let found := {| r_ID := "web"; r_Name := "storefront"; r_Source := SourceTypeGit; r_URL := "https://git.acme/web"; r_Path := "/mirrors/web";
                  r_Branch := "main"; r_IndexedAt := 0; r_Status := ""; r_CreatedAt := 0; r_LastError := ""; r_LastCommit := "";
                  r_PendingCommit := ""; r_Active := false |} in
  let sources ty := if String.eqb ty SourceTypeGit then Some (λ _ : AddRequest, inr found) else None in
  let d := run no_fault [(OpClaim "web" "me" 60, 200%Z); (OpActive ["api"], 201%Z)] sample_repos in
  let req := {| ar_Name := ""; ar_URL := "https://git.acme/web"; ar_Path := ""; ar_Branch := "" |} in
  let '(r, d') := AddRepo no_fault sources SourceTypeGit req 300 d in
  map (λ x, (repo_name x, repo_status x, repo_claimed_by x, repo_active x)) (tables d') =
    [("api", StatusIdle, "", true); ("storefront", StatusIndexing, "me", false)] ∧
  repos_ok (tables d').
Proof.
  intros found sources d req. destruct (AddRepo _ _ _ _ _ _) as [r d'] eqn:E.
  assert (d' = snd (AddRepo no_fault sources SourceTypeGit req 300 d)) as Hd by by rewrite E.
  split; [rewrite Hd; vm_compute; reflexivity |].
  apply (registration_keeps_state no_fault sources SourceTypeGit req 300 d r d' (λ _, ltac:(done)));
    [apply run_ok, sample_repos_ok | exact E].
Defined.

(** ** Where a local repository may be *)

Lemma Clean_join_abs wd p : IsAbs wd = true → ∃ rs, Forall component rs ∧ JoinPath [wd; p] = root_path rs.
Proof.
  intros Hw. unfold JoinPath. assert (wd ≠ "") as Hne by (intros ->; discriminate Hw).
  rewrite (filter_cons_True (λ e, e ≠ "") wd [p]) by done. cbv iota. apply Clean_abs. unfold IsAbs in *. apply HasPrefix_inv in Hw as [r ->].
  rewrite Join_cons. destruct (filter _ [p]); [| rewrite str_app_assoc]; apply HasPrefix_app.
Qed.
Lemma Abs_rooted cwd p a :
  (∀ wd, cwd = inr wd → IsAbs wd = true) → Abs cwd p = Some a → ∃ rs, Forall component rs ∧ a = root_path rs.
Proof.
  unfold Abs. intros Hw. destruct (IsAbs p) eqn:E.
  - intros [= <-]. by apply Clean_abs.
  - destruct cwd as [e|wd]; intros [= <-]. by apply Clean_join_abs, Hw.
Qed.

Lemma root_allows_spec home cwd root ts :
  (∀ wd, cwd = inr wd → IsAbs wd = true) → Forall component ts →
  root_allows home cwd (root_path ts) root = true ↔
  ∃ rs ws, Forall component rs ∧ Abs cwd (ExpandPath home root) = Some (root_path rs) ∧ ts = rs ++ ws.
Proof.
  intros Hw Ht. unfold root_allows. destruct (Abs _ _) as [a|] eqn:E; [|by naive_solver].
  destruct (Abs_rooted _ _ _ Hw E) as (rs & Hr & ->).
  destruct (Rel (root_path rs) (root_path ts)) as [rel|] eqn:HR; [|by rewrite Rel_root_path in HR].
  apply Rel_inside_path in HR; [|done..].
  assert (negb (String.eqb rel "..") && negb (HasPrefix rel "../") = negb (leads_out rel)) as ->.
  { unfold leads_out. by rewrite negb_orb. }
  rewrite orb_true_iff, negb_true_iff, HR. split.
  - intros [->%String.eqb_eq%root_path_inj'|[ws ->]]; [|done..|].
    + exists rs, []. by rewrite app_nil_r.
    + by exists rs, ws.
  - intros (rs' & ws & Hr' & E'%(inj Some) & ->). right. exists ws. f_equal. by apply root_path_inj'.
Qed.

(** A local repository lies inside one of the directories the configuration allows, when
    it allows any: its path is absolute and clean, it is there, and below an allowed
    directory component by component: a link up ([..]) or a sibling with
    the same beginning of its name does not pass.  A path that exists and is inside is
    never refused. *)
Theorem local_paths_inside home cwd GenerateID stat paths req :
  (∀ wd, cwd = inr wd → IsAbs wd = true) →
  let s := Init paths in
  let inside ts := default [] paths = [] ∨
    ∃ root rs ws, root ∈ default [] paths ∧ Forall component rs ∧
      Abs cwd (ExpandPath home root) = Some (root_path rs) ∧ ts = rs ++ ws in
  match LocalAdd home cwd GenerateID stat s req with
  | inr r => ∃ ts, Forall component ts ∧ Abs cwd (ar_Path req) = Some (root_path ts) ∧ r_Path r = root_path ts ∧
               stat (r_Path r) = None ∧ inside ts
  | inl e => ar_Path req = "" ∨ Abs cwd (ar_Path req) = None ∨
      ∃ ts, Forall component ts ∧ Abs cwd (ar_Path req) = Some (root_path ts) ∧ (¬ inside ts ∨ is_Some (stat (root_path ts)))
  end.
Proof.
  intros Hw s inside. unfold LocalAdd. destruct (String.eqb_spec (ar_Path req) "") as [E|E]; [by left |].
  destruct (Abs cwd (ar_Path req)) as [a|] eqn:Ea; [|by right; left].
  destruct (Abs_rooted _ _ _ Hw Ea) as (ts & Ht & ->).
  assert (pathAllowed home cwd s (root_path ts) = true ↔ inside ts) as Hin.
  { unfold pathAllowed, inside, s, Init. cbn [ls_paths]. destruct (default [] paths) as [|p ps]; [naive_solver |].
    rewrite existsb_exists. split.
    - intros (root & Hr%list_elem_of_In & H). apply root_allows_spec in H as (rs & ws & H1 & H2 & H3); [|done..]. right. by exists root, rs, ws.
    - intros [[=]|(root & rs & ws & Hr & H1 & H2 & H3)]. exists root. rewrite <- list_elem_of_In. split; [done |].
      apply root_allows_spec; [done..|]. by exists rs, ws. }
  destruct (pathAllowed _ _ _ _) eqn:Ep; simpl negb; cbv iota.
  - destruct (stat (root_path ts)) eqn:Es.
    + right. right. exists ts. rewrite Es. eauto.
    + exists ts. cbn [r_Path]. split_and!; [done..|]. by apply Hin.
  - right. right. exists ts. split_and!; [done..|]. left. intros H. by apply Hin in H.
Qed.

Lemma local_paths_inside_witness :
  let add p := LocalAdd (inr "/home/dev") (inr "/home/dev/src") (λ n p, n +:+ "@" +:+ p) (λ _, None) (Init (Some ["~/src"; "/srv/repos/"]))
                 {| ar_Name := ""; ar_URL := ""; ar_Path := p; ar_Branch := "" |} in
  let path r := match r with inr r => Some (r_Path r) | inl _ => None end in
  map (λ p, path (add p)) ["/srv/repos"; "api"; "../src/./web/"; "/srv/repos-evil"; "/srv/repos/../../etc"; "~/src"] =
    [Some "/srv/repos"; Some "/home/dev/src/api"; Some "/home/dev/src/web"; None; None; Some "/home/dev/src/~/src"] ∧
  ∃ ts, Forall component ts ∧ "/home/dev/src/web" = root_path ts.
Proof.
  intros add path. split; [vm_compute; reflexivity |].
  pose proof (local_paths_inside (inr "/home/dev") (inr "/home/dev/src") (λ n p, n +:+ "@" +:+ p) (λ _, None) (Some ["~/src"; "/srv/repos/"])
    {| ar_Name := ""; ar_URL := ""; ar_Path := "../src/./web/"; ar_Branch := "" |} ltac:(by intros wd [= <-])) as H.
  destruct H as (ts & H1 & _ & H2 & _). exists ts. split; [exact H1 |]. rewrite <- H2. vm_compute. reflexivity.
Defined.

(** ** Forgetting everything that can be forgotten *)

Section ForgettingFacts.
  Context {X : Type}.

(** [holds part x] says that the repository is still in a part; a removal that reports no error has
    taken it out, and no removal puts it back anywhere. *)
Context (holds : string → X → Prop).
Definition removes (s : @step X) : Prop := ∀ x e x', snd s x = (e, x') →
  (e = None → ¬ holds (fst s) x') ∧ ∀ part, ¬ holds part x → ¬ holds part x'.

Lemma forget_all_snoc steps label (remove : X → option string * X) x :
  forget_all (steps ++ [(label, remove)]) x =
  let '(errs, x1) := forget_all steps x in let '(err, x2) := remove x1 in
  (match err with Some e => errs ++ [label +:+ e] | None => errs end, x2).
Proof. unfold forget_all. rewrite foldl_app. by destruct (foldl _ _ steps). Qed.
Lemma forget_all_spec steps x errs x' :
  Forall removes steps → forget_all steps x = (errs, x') →
  ∃ failed : list (string * string), errs = map (λ '(part, e), part +:+ e) failed ∧ map fst failed `sublist_of` map fst steps ∧
    (∀ part, part ∈ map fst steps → part ∉ map fst failed → ¬ holds part x') ∧
    (∀ part, ¬ holds part x → ¬ holds part x').
Proof.
  revert x errs x'. induction steps as [|[label remove] steps IH] using rev_ind; intros x errs x' Hs H.
  - injection H as <- <-. exists []. split_and!; [done | done | set_solver | done].
  - apply Forall_app in Hs as [Hs Hl]. rewrite Forall_singleton in Hl. rewrite forget_all_snoc in H.
    destruct (forget_all steps x) as [errs1 x1] eqn:E1. destruct (IH x errs1 x1 Hs E1) as (failed & -> & Hsub & Hd & Hk).
    destruct (remove x1) as [err x2] eqn:Er. injection H as <- <-. destruct (Hl x1 err x2 Er) as [Hn Hk2]. simpl in Hn.
    destruct err as [e|].
    + exists (failed ++ [(label, e)]). rewrite !map_app. split_and!; [done | by apply sublist_app | | by eauto].
      intros part [Hp|Hp]%elem_of_app Hf; rewrite not_elem_of_app in Hf; destruct Hf as [Hf Hf']; [by apply Hk2, Hd | by destruct Hf'].
    + exists failed. rewrite map_app. split_and!; [done | by apply sublist_inserts_r | | by eauto].
      intros part [Hp|Hp%list_elem_of_singleton]%elem_of_app Hf; [by apply Hk2, Hd|]. subst part. by apply Hn.
Qed.
End ForgettingFacts.

(** Deleting a repository tries every part whatever became of the others: when it reports
    success the repository is in none of them, and otherwise the report names, one to a line and in the order
    of the parts, those that failed, and it is gone from every part not named. *)
Theorem forgets_or_reports {X} (GetRepo : string → X → Fallible Repo * X) source_remove indexers
    (files units edges coverage row : string → X → option string * X) (compact : X → X) (holds : string → X → Prop) id x :
  let parts repo :=
    match source_remove (r_Source repo) with Some remove => [("remove from source: ", remove id)] | None => [] end ++
    map (λ '(name, remove), ("remove from indexer " +:+ name +:+ ": ", remove id)) indexers ++
    [("delete files: ", files id); ("delete ast units: ", units id); ("delete edges: ", edges id); ("delete coverage: ", coverage id);
     ("delete repo: ", row id)] in
  (∀ repo, Forall (removes holds) (parts repo)) → (∀ part x, ¬ holds part x → ¬ holds part (compact x)) →
  let '(r, x') := DeleteRepo GetRepo source_remove indexers files units edges coverage row compact id x in
  match GetRepo id x with
  | (inl e, x1) => r = Some (store_error_text e) ∧ x' = x1
  | (inr repo, _) =>
      ∃ failed : list (string * string),
        r = match failed with [] => None | _ => Some (Join (map (λ '(part, e), part +:+ e) failed) (String "010" "")) end ∧
        map fst failed `sublist_of` map fst (parts repo) ∧
        ∀ part, part ∈ map fst (parts repo) → part ∉ map fst failed → ¬ holds part x'
  end.
Proof.
  intros parts Hr Hc. unfold DeleteRepo. destruct (GetRepo id x) as [[e|repo] x1]; [done |]. fold (parts repo).
  destruct (forget_all (parts repo) x1) as [errs x2] eqn:E. destruct (forget_all_spec holds _ _ _ _ (Hr repo) E) as (failed & -> & Hs & Hd & _).
  exists failed. split_and!; [by destruct failed | done |]. intros part Hp Hf. by apply Hc, Hd.
Qed.

Lemma forgets_or_reports_witness :
  let all : gset string := {["delete files: "; "delete ast units: "; "delete repo: "]} in
  let remove part (fails : bool) (id : string) (x : gset string) : option string * gset string := if fails then (Some "locked", x) else (None, x ∖ {[part]}) in
  let del := DeleteRepo (λ id x, (inr (some_repo id 1), x)) (λ _, Some (remove "remove from source: " false))
     [("ast", remove "remove from indexer ast: " true); ("bm25", remove "remove from indexer bm25: " false)]
     (remove "delete files: " false) (remove "delete ast units: " true) (remove "delete edges: " false) (remove "delete coverage: " false)
     (remove "delete repo: " false) (λ x, x) "web" in
  fst (del all) = Some ("remove from indexer ast: locked" +:+ String "010" "delete ast units: locked") ∧
  ∃ failed : list (string * string), ∀ part, part ∈ ["delete repo: "] → part ∉ map fst failed → part ∉ snd (del all).
Proof.
  intros all remove del. split; [vm_compute; reflexivity |].
  pose proof (forgets_or_reports (λ id x, (inr (some_repo id 1), x)) (λ _, Some (remove "remove from source: " false))
     [("ast", remove "remove from indexer ast: " true); ("bm25", remove "remove from indexer bm25: " false)]
     (remove "delete files: " false) (remove "delete ast units: " true) (remove "delete edges: " false) (remove "delete coverage: " false)
     (remove "delete repo: " false) (λ x, x) (λ part x, part ∈ x) "web" all) as H.
  lapply H; [clear H; intros H; lapply H; [clear H; intros H | intros part x Hp; exact Hp] |].
  2:{ intros repo. assert (∀ label b, removes (λ part x, part ∈ x) (label, remove label b "web")) as Hr.
      { intros label [] x e x' E; cbn in E; injection E as <- <-; split; [discriminate | auto | intros _; cbn; set_solver | set_solver]. }
      repeat first [apply List.Forall_cons; [apply Hr |] | apply List.Forall_nil]. }
  fold del in H. destruct (del all) as [r x'] eqn:E. destruct H as (failed & _ & _ & Hd). exists failed. intros part Hp Hf.
  apply Hd; [|done]. apply list_elem_of_singleton in Hp as ->. cbn. set_solver.
Defined.

(** ** What a runtime graph changes *)

Section RuntimeFacts.
  Context {St : Type} {L : LinkStore St} {ok : St → Prop} {edges_of : St → list Edge} {units_of : St → list ASTUnit}.
  Context {Laws : LinkStoreLaws L ok edges_of units_of}.

Lemma services_by_name_spec us name u :
  services_by_name us !! name = Some u → u ∈ us ∧ serviceNameKey (u_Name u) = name.
Proof.
  unfold services_by_name. induction us as [|x us IH] using rev_ind; [done |]. rewrite foldl_app. simpl. intros [[<- <-]|[_ H]]%lookup_insert_Some.
  - split; [|done]. apply elem_of_app. right. by left.
  - apply IH in H as [H1 H2]. split; [|done]. apply elem_of_app. by left.
Qed.
Lemma services_by_name_None us name :
  services_by_name us !! name = None ↔ ∀ u, u ∈ us → serviceNameKey (u_Name u) ≠ name.
Proof.
  unfold services_by_name. induction us as [|x us IH] using rev_ind; [split; [intros _ u Hu; by apply not_elem_of_nil in Hu | done] |].
  rewrite foldl_app. simpl. rewrite lookup_insert_None, IH. split.
  - intros [H1 H2] u [Hu| ->%list_elem_of_singleton]%elem_of_app; eauto.
  - intros H. split; [intros u Hu|]; apply H, elem_of_app; [by left | right; by left].
Qed.
Lemma placed_ends_units us e c s :
  placed_ends (services_by_name us) e = Some (c, s) → c ∈ us ∧ s ∈ us.
Proof.
  unfold placed_ends, service_of. destruct (services_by_name us !! serviceNameKey (rt_Client e)) eqn:E1, (services_by_name us !! serviceNameKey (rt_Server e)) eqn:E2; intros [= <- <-].
  apply services_by_name_spec in E1 as [H1 _], E2 as [H2 _]. done.
Qed.
Lemma unmatched_names_spec us edges n :
  n ∈ unmatched_names (services_by_name us) edges ↔
  (∃ e, e ∈ edges ∧ (n = rt_Client e ∨ n = rt_Server e)) ∧ ∀ u, u ∈ us → serviceNameKey (u_Name u) ≠ serviceNameKey n.
Proof.
  unfold unmatched_names. rewrite elem_of_list_to_set, list_elem_of_filter, <- services_by_name_None.
  assert (n ∈ concat (map (λ e, [rt_Client e; rt_Server e]) edges) ↔ ∃ e, e ∈ edges ∧ (n = rt_Client e ∨ n = rt_Server e)) as ->; [|by unfold service_of; tauto].
  induction edges as [|x edges IH]; cbn [map concat app].
  - split; [by intros ?%not_elem_of_nil | by intros (e & ?%not_elem_of_nil & _)].
  - rewrite !elem_of_cons, IH. setoid_rewrite elem_of_cons. split; [intros [->|[->|(e & He & Hn)]] | intros (e & [->|He] & Hn)]; eauto 6.
    by destruct Hn as [->| ->]; auto.
Qed.

(** The edges are stored in order, up to the first that cannot be. *)
Lemma store_runtime_spec es st e st' :
  ok st → Forall storable es → store_runtime es st = (e, st') →
  ∃ done_ rest ids, es = done_ ++ rest ∧ (e = None → rest = []) ∧ length ids = length done_ ∧
    stays ok edges_of units_of st st' (edges_of st ++ zip_with with_id ids done_).
Proof.
  revert st. induction es as [|x es IH]; intros st Hok Hs; simpl.
  - intros [= <- <-]. exists [], [], []. split_and!; [done..|]. rewrite app_nil_r. by split.
  - apply Forall_cons in Hs as [Hx Hs]. destruct (store_edge x st) as [o st1] eqn:E. apply store_edge_ok in E; [|done..]. destruct o as [err|].
    + intros [= <- <-]. exists [], (x :: es), []. split_and!; [done..|]. by rewrite app_nil_r.
    + destruct E as [id K]. intros H. apply IH in H as (dn & rest & ids & -> & Hr & Hl & K2); [|apply K|done].
      exists (x :: dn), rest, (id :: ids). split_and!; [done | done | simpl; lia |].
      destruct K as [K1 K3 K4], K2 as [L1 L2 L3]. split; [done | congruence |]. rewrite L3, K4. by rewrite <- app_assoc.
Qed.
End RuntimeFacts.

Lemma unmatched_sorted us edges :
  let names := SortStrings (elements (unmatched_names (services_by_name us) edges)) in
  (∀ n, n ∈ names ↔ (∃ e, e ∈ edges ∧ (n = rt_Client e ∨ n = rt_Server e)) ∧ ∀ u, u ∈ us → serviceNameKey (u_Name u) ≠ serviceNameKey n) ∧
  NoDup names.
Proof.
  intros names. unfold names, SortStrings. split.
  - intros n. rewrite SliceSort_elem, elem_of_elements. apply unmatched_names_spec.
  - rewrite SliceSort_perm. apply NoDup_elements.
Qed.
Definition ends_of (us : list ASTUnit) (edges : list RuntimeServiceEdge) : list (RuntimeServiceEdge * (ASTUnit * ASTUnit)) :=
  omap (λ e, (e,.) <$> placed_ends (services_by_name us) e) edges.
Definition edge_between (p : RuntimeServiceEdge * (ASTUnit * ASTUnit)) : Edge := runtime_edge (fst p) (fst (snd p)) (snd (snd p)).
Lemma matched_ends us edges :
  omap (λ e, (λ '(c, s), runtime_edge e c s) <$> placed_ends (services_by_name us) e) edges = map edge_between (ends_of us edges).
Proof.
  unfold ends_of. induction edges as [|e edges IH]; [done |]. cbn [omap list_omap]. destruct (placed_ends _ e) as [[c s]|]; cbn [fmap option_fmap option_map map]; by rewrite IH.
Qed.
Lemma ends_of_placed us edges :
  Forall (λ p, fst (snd p) ∈ us ∧ snd (snd p) ∈ us ∧ serviceNameKey (u_Name (fst (snd p))) = serviceNameKey (rt_Client (fst p)) ∧
               serviceNameKey (u_Name (snd (snd p))) = serviceNameKey (rt_Server (fst p))) (ends_of us edges).
Proof.
  apply Forall_forall. intros [e [c s]] (x & _ & Hx)%list_elem_of_omap. unfold placed_ends, service_of in Hx.
  destruct (services_by_name us !! serviceNameKey (rt_Client x)) eqn:E1, (services_by_name us !! serviceNameKey (rt_Server x)) eqn:E2; try done.
  injection Hx as <- <- <-. apply services_by_name_spec in E1 as [H1 H2], E2 as [H3 H4]. done.
Qed.
Lemma edge_between_storable us edges :
  Forall (λ u, u_ID u ≠ "" ∧ is_id (u_ID u)) us → Forall storable (map edge_between (ends_of us edges)).
Proof.
  intros Hu. apply Forall_map. eapply Forall_impl; [apply ends_of_placed |]. intros [e [c s]] (Hc & Hs & _).
  rewrite Forall_forall in Hu. apply Hu in Hc as [Hc1 Hc2], Hs as [Hs1 Hs2]. split; [done |].
  destruct Hc2 as [Hc2|[_ Hc2]]; done.
Qed.
Lemma zip_with_runtime ids us edges :
  let es := map edge_between (ends_of us edges) in
  ∀ l, l `prefix_of` es → Forall (λ e, e_Kind e = EdgeRuntimeCall) (zip_with with_id ids l).
Proof.
  intros es l [k Hk]. apply Forall_forall. intros e He. apply elem_of_lookup_zip_with in He as (i & x & y & -> & _ & Hy).
  cbn [with_id e_Kind]. assert (y ∈ es) as Hin by (rewrite Hk; apply elem_of_app; left; by apply list_elem_of_lookup_2 in Hy).
  by apply list_elem_of_fmap in Hin as ([e [c s]] & -> & _).
Qed.
Lemma strip_zip ids es : length ids = length es → Forall (λ e, with_id "" e = e) es → map (with_id "") (zip_with with_id ids es) = es.
Proof.
  revert ids. induction es as [|e es IH]; intros [|id ids]; try done. intros [= Hl] [He Hes]%Forall_cons. simpl. rewrite IH by done.
  f_equal. exact He.
Qed.


Section RuntimeTheorem.
  Context {St : Type} {L : LinkStore St} {ok : St → Prop} {edges_of : St → list Edge} {units_of : St → list ASTUnit}.
  Context {Laws : LinkStoreLaws L ok edges_of units_of}.

(** A pushed runtime graph replaces the one before it, and nothing else: no unit and no edge of
    another kind changes, whatever fails.  An edge is stored for every pushed edge both of whose
    ends are services the store knows, whatever the separators and the case of their names; the
    names of the others are reported, sorted and once each; and a graph none of
    whose edges can be placed leaves the last one as it was and is answered with the names that are known. *)
Theorem runtime_graph_replaced edges st r st' :
  ok st → IngestRuntimeServiceGraph edges st = (r, st') →
  let runtime e := e_Kind e = EdgeRuntimeCall in
  ok st' ∧ units_of st' = units_of st ∧
  filter (λ e, ¬ runtime e) (edges_of st') = filter (λ e, ¬ runtime e) (edges_of st) ∧
  ∀ res, r = inr res → ∃ us,
    us ≡ₚ filter (λ u, unit_matches (link_query "" KindService []) u = true) (units_of st) ∧
    let ends := ends_of us edges in
    (∀ e c s, (e, (c, s)) ∈ ends → c ∈ us ∧ s ∈ us ∧ serviceNameKey (u_Name c) = serviceNameKey (rt_Client e) ∧
                                     serviceNameKey (u_Name s) = serviceNameKey (rt_Server e)) ∧
    ri_Received res = length edges ∧ ri_Stored res = length ends ∧
    (∀ n, n ∈ ri_Unmatched res ↔
       (∃ e, e ∈ edges ∧ (n = rt_Client e ∨ n = rt_Server e)) ∧ ∀ u, u ∈ us → serviceNameKey (u_Name u) ≠ serviceNameKey n) ∧
    NoDup (ri_Unmatched res) ∧
    (if decide (ends = []) then edges_of st' = edges_of st ∧ ri_Known res ≡ₚ map u_Name us
     else ri_Known res = [] ∧
       map (with_id "") (filter runtime (edges_of st')) = map edge_between ends).
Proof.
  intros Hok H runtime. unfold IngestRuntimeServiceGraph in H. destruct (read_units _ st) as [ru st1] eqn:Er.
  apply read_units_ok in Er as [[K1 K2 K3] Hus]; [|done].
  destruct ru as [e|us]; [injection H as <- <-; split_and!; [done | done | by rewrite K3 | done] |].
  specialize (Hus us eq_refl). rewrite matched_ends in H. set (es := map edge_between (ends_of us edges)) in H.
  assert (∀ e c s, (e, (c, s)) ∈ ends_of us edges → c ∈ us ∧ s ∈ us ∧ serviceNameKey (u_Name c) = serviceNameKey (rt_Client e) ∧
     serviceNameKey (u_Name s) = serviceNameKey (rt_Server e)) as Hends.
  { intros e c s Hin. by apply (proj1 (Forall_forall _ _) (ends_of_placed us edges)) in Hin. }
  assert (Forall (λ u, u_ID u ≠ "" ∧ is_id (u_ID u)) us) as Hids.
  { rewrite Hus. apply Forall_filter. by rewrite <- K2; apply unit_ids. }
  destruct (unmatched_sorted us edges) as [Hun Hnd].
  destruct (decide (ends_of us edges = [])) as [En|En].
  - assert (es = []) as Hes by (unfold es; by rewrite En). rewrite Hes in H. injection H as <- <-.
    split_and!; [done | done | by rewrite K3 |]. intros res [= <-]. exists us. split; [done |]. cbv zeta. rewrite En in *.
    rewrite decide_True by done. split_and!; try done. unfold SortStrings. cbn [ri_Known]. by rewrite SliceSort_perm.
  - destruct es as [|e0 es0] eqn:Hes; [destruct En; unfold es in Hes; by apply map_eq_nil in Hes |]. rewrite <- Hes in H.
    destruct (delete_by_kind "" EdgeRuntimeCall st1) as [[e|] st2] eqn:Ed; apply delete_by_kind_ok in Ed as [D1 D2 D3]; [|done| |done].
    { injection H as <- <-. split_and!; [done | congruence | by rewrite D3, K3 | done]. }
    assert (edges_of st2 = filter (λ e, ¬ runtime e) (edges_of st)) as D4.
    { rewrite D3, K3. apply list_filter_iff. intros x. unfold runtime. simpl. tauto. }
    destruct (store_runtime es st2) as [o st3] eqn:Es.
    apply store_runtime_spec in Es as (dn & rest & ids & Hsplit & Hrest & Hl & [S1 S2 S3]); [|done | by apply edge_between_storable].
    assert (Forall runtime (zip_with with_id ids dn)) as Hrt by (eapply zip_with_runtime; exists rest; exact Hsplit).
    assert (filter (λ e, ¬ runtime e) (edges_of st3) = filter (λ e, ¬ runtime e) (edges_of st)) as Hkeep.
    { rewrite S3, D4, filter_app, (filter_nothing _ (zip_with _ _ _)), (filter_everything _ (filter _ _)), app_nil_r; [done | |].
      - by intros x [Hx _]%list_elem_of_filter.
      - intros x Hx Hn. rewrite Forall_forall in Hrt. by apply Hn, Hrt. }
    destruct o as [e|]; injection H as <- <-; (split_and!; [done | congruence | done |]); [done |].
    intros res [= <-]. exists us. cbv zeta. rewrite decide_False by done. rewrite Hrest, app_nil_r in Hsplit by done. subst dn.
    split_and!; try done.
    + unfold es. cbn [ri_Stored]. by rewrite length_map.
    + rewrite S3, D4, filter_app, (filter_nothing _ (filter _ _)), (filter_everything _ (zip_with _ _ _)); simpl app.
      * apply strip_zip; [done |]. apply Forall_map, Forall_forall. by intros [e [c s]] _.
      * intros x Hx. rewrite Forall_forall in Hrt. by apply Hrt in Hx.
      * by intros x [Hx _]%list_elem_of_filter.
Qed.
End RuntimeTheorem.

(** Two services in a store, and an earlier graph between them. *)
Definition sample_service (repo name : string) : ASTUnit :=
  sample_unit repo ("src/" +:+ name) KindService name ("service:" +:+ name) "" 1.
Definition sample_services : conn db := Eval vm_compute in
  snd (BatchStoreEdges no_fault [sample_edge "a" "1" EdgeRuntimeCall "runtime:old" "src/checkoutservice" 0;
                                 sample_edge "a" "1" EdgeCall "ship" "src/checkoutservice" 7]
    (snd (BatchStoreASTUnits no_fault [sample_service "a" "checkoutservice"; sample_service "b" "shippingservice"] empty_db))).
Lemma sample_services_ok : db_ok (tables sample_services).
Proof.
  split.
  - apply (bool_decide_unpack _). vm_compute. exact I.
  - eapply Forall_impl; [|apply row_ok_check]. by_forallb.
  - vm_compute. reflexivity.
  - apply (bool_decide_unpack _). vm_compute. exact I.
  - repeat apply Forall_cons_2; try apply Forall_nil_2; split; vm_compute; (split; reflexivity) || reflexivity.
  - vm_compute. reflexivity.
  - by_forallb.
  - repeat apply Forall_cons_2; try apply Forall_nil_2; done.
Qed.

Lemma runtime_graph_replaced_witness :
  let push edges := IngestRuntimeServiceGraph (L := sample_store) edges sample_services in
  let '(r, d) := push [{| rt_Client := "checkout-service"; rt_Server := "Shipping_Service"; rt_Calls := 42 |};
                       {| rt_Client := "frontend"; rt_Server := "shippingservice"; rt_Calls := 1 |}] in
  let '(r', d') := push [{| rt_Client := "frontend"; rt_Server := "cart"; rt_Calls := 3 |}] in
  r = inr {| ri_Received := 2; ri_Stored := 1; ri_Unmatched := ["frontend"]; ri_Known := [] |} ∧
  map (λ e, (e_Kind e, e_SrcID e, e_DstID e, e_DstName e)) (edges_of (tables d)) =
    [(EdgeCall, "1", "", "ship"); (EdgeRuntimeCall, "1", "2", "runtime:Shipping_Service")] ∧
  r' = inr {| ri_Received := 1; ri_Stored := 0; ri_Unmatched := ["cart"; "frontend"]; ri_Known := ["checkoutservice"; "shippingservice"] |} ∧
  edges_of (tables d') = edges_of (tables sample_services) ∧
  units_of (tables d) = units_of (tables sample_services).
Proof.
  intros push. set (pushed := [_; _]). destruct (push pushed) as [r d] eqn:E.
  pose proof (runtime_graph_replaced (Laws := sample_laws) pushed sample_services r d sample_services_ok E) as (_ & Hu & _).
  assert (r = fst (push pushed) ∧ d = snd (push pushed)) as [-> ->] by (rewrite E; done). clear E.
  destruct (push [_]) as [r' d'] eqn:E'. assert (r' = fst (push [{| rt_Client := "frontend"; rt_Server := "cart"; rt_Calls := 3 |}]) ∧
    d' = snd (push [{| rt_Client := "frontend"; rt_Server := "cart"; rt_Calls := 3 |}])) as [-> ->] by (rewrite E'; done). clear E'.
  split_and!; [vm_compute; reflexivity.. | exact Hu].
Defined.

(** ** Of two organisations' repositories *)

Definition repo_at (id url name path : string) : Repo := {|
  r_ID := id; r_Name := name; r_Source := SourceTypeGit; r_URL := url; r_Path := path; r_Branch := ""; r_IndexedAt := 0;
  r_Status := StatusIdle; r_CreatedAt := 0; r_LastError := ""; r_LastCommit := ""; r_PendingCommit := ""; r_Active := true |}.

(** A hint that spells out the namespace is matched by its last segment alone, whatever the namespace of
    the repository: a webhook of [b/gateway] starts a pass over [a]'s. *)
Lemma namespace_of_a_hint_is_ignored :
  let all := [repo_at "1" "https://git.acme/a/gateway.git" "Gateway" ""; repo_at "2" "git@git.acme:b/other.git" "other" ""] in
  FindRepoByHints (inr all) [""; "git@git.acme:b/gateway"; "b/gateway"] = inr (List.hd (repo_at "" "" "" "") all) ∧
  FindRepoByHints (inr all) ["gateway"] = inl ErrNotFound ∧
  FindRepoByHints (inr all) ["HTTPS://git.acme/a/gateway/"] = inr (List.hd (repo_at "" "" "" "") all).
Proof. vm_compute. split_and!; reflexivity. Qed.

(** What a user types at a shell. *)
Example references :
  let all := [repo_at "alpha-01" "" "alpha" "/home/dev/alpha"; repo_at "beta-02" "" "beta" "/home/dev/beta";
              repo_at "beta-03" "" "beta" "/srv/beta"; repo_at "here-04" "" "here" "/work"] in
  let resolve ref := match resolveRepoRef (inr "/home/dev") (inr "/work") (λ s, s) all ref with inr r => r_ID r | inl e => "" end in
  map resolve ["alpha-01"; "alpha"; "~/alpha"; "."; "beta"; "beta-03"; "alph"; "gamma"; "../srv/./beta/"] =
    ["alpha-01"; "alpha-01"; "alpha-01"; "here-04"; ""; "beta-03"; ""; ""; "beta-03"].
Proof. vm_compute. reflexivity. Qed.
