(* ===== verification/MetaCodec.v ===== *)
(** * The metadata of an edge as text ([internal/store/types.go])

    What a parser records of a call site goes into the store as JSON and comes out of
    it in the linker and the tracer.  [EncodeEdgeMeta] is [json.Marshal] of the
    struct: members in the order of its fields, those left empty omitted, maps by
    their sorted keys. *)

From S2P Require Import Prelude GoStrings GoStrconv GoSort GoFloat GoJson GoJsonEncode Domain Store Contract.
From Stdlib Require Import Strings.Ascii.

(** A member that is left out when it is empty. *)
Definition text_member (key value : string) : list (string * json) :=
  if String.eqb value "" then [] else [(key, JString value)].
Definition list_member (key : string) (vs : list string) : list (string * json) :=
  match vs with [] => [] | _ => [(key, JArray (map JString vs))] end.
Definition map_json (m : gmap string string) : json :=
  JObject (SliceSort member_less (map (λ kv, (fst kv, JString (snd kv))) (map_to_list m))).
Definition map_member (key : string) (m : gmap string string) : list (string * json) :=
  if decide (m = ∅) then [] else [(key, map_json m)].
Definition number_member (key : string) (x : f32) : list (string * json) :=
  if feq x (S754_zero false) then [] else [(key, JNumber (format_number32 x))].

Definition edge_meta_json (m : EdgeMeta) : json := JObject (
  list_member "args" (em_Args m) ++ map_member "fields" (em_Fields m) ++ map_member "aliases" (em_Aliases m) ++
  text_member "topic" (em_Topic m) ++ text_member "path" (em_Path m) ++ text_member "method" (em_Method m) ++
  text_member "host" (em_Host m) ++ text_member "receiver" (em_Receiver m) ++ text_member "recv_type" (em_RecvType m) ++
  text_member "topic_ref" (em_TopicRef m) ++ text_member "source" (em_Source m) ++ number_member "base_conf" (em_BaseConf m)).

(** [EncodeEdgeMeta]; a number that is not finite is an error of the encoder. *)
Definition EncodeEdgeMeta (m : option EdgeMeta) : string :=
  match m with
  | None => ""
  | Some m => match em_BaseConf m with
              | S754_infinity _ | S754_nan => ""
              | _ => print (edge_meta_json m)
              end
  end.

(** ** What was recorded is what is read *)

Definition meta_texts (m : EdgeMeta) : list string :=
  em_Args m ++ map fst (map_to_list (em_Fields m)) ++ map snd (map_to_list (em_Fields m)) ++
  map fst (map_to_list (em_Aliases m)) ++ map snd (map_to_list (em_Aliases m)) ++
  [em_Topic m; em_Path m; em_Method m; em_Host m; em_Receiver m; em_RecvType m; em_TopicRef m; em_Source m].
(** The confidences a parser records. *)
Definition tiers : list f32 := [S754_zero false; ConfWeak; ConfHeuristic; ConfCrossFile; ConfHigh; ConfExact].

Lemma tier_reads x :
  x ∈ tiers → feq x (S754_zero false) = false →
  number_text (format_number32 x) = true ∧ number_value (format_number32 x) = x ∧
  match x with S754_infinity _ | S754_nan => False | _ => True end.
Proof.
  intros Hx Hz. unfold tiers in Hx.
  assert (format_number32 ConfWeak = "0.6") as H1 by (vm_compute; reflexivity).
  assert (format_number32 ConfHeuristic = "0.7") as H2 by (vm_compute; reflexivity).
  assert (format_number32 ConfCrossFile = "0.8") as H3 by (vm_compute; reflexivity).
  assert (format_number32 ConfHigh = "0.9") as H4 by (vm_compute; reflexivity).
  assert (format_number32 ConfExact = "0.95") as H5 by (vm_compute; reflexivity).
  rewrite !elem_of_cons, elem_of_nil in Hx.
  destruct Hx as [->|[->|[->|[->|[->|[->|[]]]]]]]; [discriminate Hz | rewrite H1 | rewrite H2 | rewrite H3 | rewrite H4 | rewrite H5];
    (split_and!; [vm_compute; reflexivity | vm_compute; reflexivity | exact I]).
Qed.

Abbreviation step := (struct_step edge_meta_field).

Lemma text_member_step key get m v :
  edge_meta_field (ToLower key) = Some (λ m v, let '(s, ok) := decode_string (get m) v in (set_edge_text key m s, ok)) →
  to_valid O key = key → set_edge_text key m "" = m → to_valid O v = v →
  foldl step (m, true) (map valid_member (text_member key v)) = (set_edge_text key m v, true).
Proof.
  intros Hf Hkey Hm Hv. unfold text_member. destruct (String.eqb_spec v "") as [->|_]; [by rewrite Hm |].
  cbn [map foldl valid_member fst snd valid_json struct_step]. by rewrite Hkey, Hf, Hv.
Qed.

Lemma decode_strings_valid vs : Forall (λ v, to_valid O v = v) vs → decode_strings [] (map valid_json (map JString vs)) = (vs, true).
Proof. induction 1 as [|v vs Hv _ IH]; [done |]. cbn [map decode_strings valid_json decode_string head tail]. by rewrite IH, Hv. Qed.

Lemma foldl_insert (l : list (string * string)) (acc : gmap string string) :
  NoDup (map fst l) → foldl (λ (m : gmap string string) kv, <[kv.1 := kv.2]> m) acc l = list_to_map l ∪ acc.
Proof.
  revert acc. induction l as [|[k v] l IH]; intros acc Hn; cbn [foldl list_to_map fst snd map] in *; [symmetry; apply (left_id_L ∅ (∪)) |].
  inversion Hn as [|? ? Hk Hl]; subst. change (list_to_map ((k, v) :: l)) with (<[k := v]> (list_to_map l : gmap string string)).
  rewrite IH by done. rewrite <- insert_union_l, insert_union_r; [done |]. by apply not_elem_of_list_to_map_1.
Qed.
Lemma decode_map_json m :
  Forall (λ v, to_valid O v = v) (map fst (map_to_list m) ++ map snd (map_to_list m)) →
  decode_string_map ∅ (valid_json (map_json m)) = (m, true).
Proof.
  intros Hv. unfold map_json. set (f := λ kv : string * string, (fst kv, JString (snd kv))).
  assert (SliceSort member_less (map f (map_to_list m)) ≡ₚ map f (map_to_list m)) as Hp by apply SliceSort_perm.
  apply Permutation_map_inv in Hp as (l & -> & Hp).
  assert (foldl (λ (m : gmap string string) kv, <[kv.1 := kv.2]> m) ∅ l = m) as <-.
  { rewrite foldl_insert; [rewrite (right_id_L ∅ (∪)) |].
    - transitivity (list_to_map (map_to_list m) : gmap string string); [|apply list_to_map_to_list].
      symmetry. apply list_to_map_proper; [apply NoDup_fst_map_to_list | done].
    - rewrite <- Hp. apply NoDup_fst_map_to_list. }
  assert (Forall (λ kv, to_valid O kv.1 = kv.1 ∧ to_valid O kv.2 = kv.2) l) as Hl.
  { rewrite <- Hp. apply Forall_app in Hv as [H1 H2]. rewrite Forall_map in H1, H2. rewrite Forall_forall in *. naive_solver. }
  clear Hp Hv. cbn [valid_json decode_string_map]. generalize (∅ : gmap string string). induction Hl as [|[k v] l [Hk Hv] _ IH]; intros acc; [done |].
  cbn [map foldl f fst snd valid_json decode_string andb] in *. rewrite Hk, Hv. apply IH.
Qed.

Lemma list_member_step m vs :
  em_Args m = [] → Forall (λ v, to_valid O v = v) vs →
  foldl step (m, true) (map valid_member (list_member "args" vs)) = (set_edge_rest m vs (em_Fields m) (em_Aliases m) (em_BaseConf m), true).
Proof.
  intros Hm Hv. destruct vs as [|v vs]; [destruct m; simpl in Hm; by subst |].
  unfold list_member. cbn [map foldl valid_member fst snd valid_json struct_step].
  change (edge_meta_field (ToLower (to_valid 0 "args"))) with (edge_meta_field "args"). unfold edge_meta_field.
  rewrite String.eqb_refl, Hm. unfold decode_string_slice. pose proof (decode_strings_valid (v :: vs) Hv) as H.
  cbn [map valid_json] in *. by rewrite H.
Qed.
Lemma map_member_step key get set m x :
  edge_meta_field (ToLower key) = Some (λ m v, let '(x, ok) := decode_string_map (get m) v in (set m x, ok)) →
  to_valid O key = key → get m = ∅ → set m ∅ = m →
  Forall (λ v, to_valid O v = v) (map fst (map_to_list x) ++ map snd (map_to_list x)) →
  foldl step (m, true) (map valid_member (map_member key x)) = (set m x, true).
Proof.
  intros Hf Hkey Hg Hs Hv. unfold map_member. case_decide as E; [subst x; by rewrite Hs |].
  cbn [map foldl valid_member fst snd struct_step]. by rewrite Hkey, Hf, Hg, decode_map_json.
Qed.
Lemma number_member_step m x :
  em_BaseConf m = S754_zero false → x ∈ tiers →
  foldl step (m, true) (map valid_member (number_member "base_conf" x)) = (set_edge_rest m (em_Args m) (em_Fields m) (em_Aliases m) x, true).
Proof.
  intros Hm Hx. unfold number_member. destruct (feq x (S754_zero false)) eqn:E.
  - assert (x = S754_zero false) as -> by (unfold tiers in Hx; rewrite !elem_of_cons, elem_of_nil in Hx;
      destruct Hx as [->|[->|[->|[->|[->|[->|[]]]]]]]; [done | discriminate E..]).
    destruct m. simpl in *. by subst.
  - destruct (tier_reads x Hx E) as (_ & Hn & Hf). cbn [map foldl valid_member fst snd valid_json struct_step].
    change (edge_meta_field (ToLower (to_valid 0 "base_conf"))) with (edge_meta_field "base_conf").
    change (edge_meta_field "base_conf") with (Some (λ m v, let '(x, ok) := decode_float32 (em_BaseConf m) v in
                 (set_edge_rest m (em_Args m) (em_Fields m) (em_Aliases m) x, ok))).
    cbv beta iota. unfold decode_float32. rewrite Hn. by destruct x.
Qed.

(** The metadata printed is a value whose numbers are numbers. *)
Lemma edge_meta_plain m : em_BaseConf m ∈ tiers → plain (edge_meta_json m) = true.
Proof.
  intros Hb. unfold edge_meta_json. cbn [plain].
  assert (∀ k v, forallb (λ kv, plain (snd kv)) (text_member k v) = true) as Ht by (intros k v; unfold text_member; by destruct (String.eqb v "")).
  assert (∀ k v, forallb (λ kv, plain (snd kv)) (map_member k v) = true) as Hm.
  { intros k v. unfold map_member. case_decide; [done |]. cbn [forallb snd]. rewrite andb_true_r. unfold map_json. cbn [plain].
    apply forallb_forall. intros kv Hkv. apply list_elem_of_In in Hkv. rewrite SliceSort_elem in Hkv.
    by apply list_elem_of_fmap in Hkv as (x & -> & _). }
  assert (∀ k v, forallb (λ kv, plain (snd kv)) (list_member k v) = true) as Hl.
  { intros k [|v vs]; [done |]. unfold list_member. cbn [forallb snd]. rewrite andb_true_r. cbn [plain map forallb andb]. by induction vs. }
  rewrite !forallb_app, !Ht, !Hm, Hl. cbn [andb]. unfold number_member. destruct (feq _ _) eqn:E; [done |].
  cbn [forallb snd]. rewrite andb_true_r. cbn [plain]. by apply tier_reads.
Qed.

Lemma text_step_valid m l : meta_texts m = l → Forall (λ v, to_valid O v = v) l →
  Forall (λ v, to_valid O v = v) (em_Args m) ∧
  Forall (λ v, to_valid O v = v) (map fst (map_to_list (em_Fields m)) ++ map snd (map_to_list (em_Fields m))) ∧
  Forall (λ v, to_valid O v = v) (map fst (map_to_list (em_Aliases m)) ++ map snd (map_to_list (em_Aliases m))) ∧
  Forall (λ v, to_valid O v = v) [em_Topic m; em_Path m; em_Method m; em_Host m; em_Receiver m; em_RecvType m; em_TopicRef m; em_Source m].
Proof. intros <-. unfold meta_texts. rewrite !Forall_app. tauto. Qed.

(** C30: What a parser records of a call is what the linker and the tracer read: arguments in
    order, fields, aliases, texts and the confidence all come back as they were,
    whatever characters the texts are made of, as long as they are
    UTF-8 and the confidence is one of the tiers. *)
Theorem edge_meta_roundtrip m :
  Forall (λ v, to_valid O v = v) (meta_texts m) → em_BaseConf m ∈ tiers →
  DecodeEdgeMeta (EncodeEdgeMeta (Some m)) = m ∧ DecodeEdgeMeta (EncodeEdgeMeta None) = no_edge_meta.
Proof.
  intros Hv Hb. split; [|done]. destruct (text_step_valid m _ eq_refl Hv) as (Ha & Hf & Hl & Ht). rewrite !Forall_cons in Ht.
  destruct Ht as (T1 & T2 & T3 & T4 & T5 & T6 & T7 & T8 & _).
  assert (EncodeEdgeMeta (Some m) = print (edge_meta_json m)) as ->.
  { unfold EncodeEdgeMeta. unfold tiers in Hb. rewrite !elem_of_cons, elem_of_nil in Hb.
    destruct Hb as [->|[->|[->|[->|[->|[->|[]]]]]]]; reflexivity. }
  unfold DecodeEdgeMeta, Unmarshal. rewrite jparse_print by by apply edge_meta_plain. unfold edge_meta_json.
  cbn [print String.eqb valid_json]. change (String.eqb ("{" +:+ ?x) "") with false. cbv iota.
  change (decode_struct edge_meta_field no_edge_meta (JObject ?ms)) with (foldl step (no_edge_meta, true) ms).
  change (λ kv : string * json, (to_valid 0 kv.1, valid_json kv.2)) with valid_member. rewrite !map_app, !foldl_app.
  rewrite list_member_step by done.
  rewrite (map_member_step "fields" em_Fields (λ m x, set_edge_rest m (em_Args m) x (em_Aliases m) (em_BaseConf m))) by done.
  rewrite (map_member_step "aliases" em_Aliases (λ m x, set_edge_rest m (em_Args m) (em_Fields m) x (em_BaseConf m))) by done.
  rewrite (text_member_step "topic" em_Topic), (text_member_step "path" em_Path), (text_member_step "method" em_Method),
    (text_member_step "host" em_Host), (text_member_step "receiver" em_Receiver), (text_member_step "recv_type" em_RecvType),
    (text_member_step "topic_ref" em_TopicRef), (text_member_step "source" em_Source) by done.
  rewrite number_member_step by done. by destruct m.
Qed.

Lemma edge_meta_roundtrip_witness :
  let m := {| em_Args := ["order.id"; String "034" ("a<b" +:+ String "034" "")]; em_Fields := {["user_id" := "req.UserID"; "amount" := ""]};
              em_Aliases := ∅; em_Topic := ""; em_Path := "/v1/orders/{}"; em_Method := "POST"; em_Host := ""; em_Receiver := "s.client";
              em_RecvType := "*http.Client"; em_TopicRef := ""; em_Source := ""; em_BaseConf := ConfHeuristic |} in
  HasSuffix (EncodeEdgeMeta (Some m)) ("base_conf" +:+ String "034" ":0.7}") = true ∧ DecodeEdgeMeta (EncodeEdgeMeta (Some m)) = m.
Proof.
  intros m. split; [vm_compute; reflexivity |].
  refine (proj1 (edge_meta_roundtrip m (bool_decide_unpack _ _) (bool_decide_unpack _ _))); vm_compute; exact I.
Defined.
