(* ===== verification/Extract.v ===== *)
(** * What every extractor writes into ([internal/index/ast/strings.go], [filectx.go], [aliases.go])

    The texts an extractor reads (literals, URLs, placeholders, type names), the state of one
    file that it fills, and the local names that a call site can be traced through.
    A node of the syntax tree is seen here by its place alone. *)

From S2P Require Import Prelude GoStrings GoStrconv GoSort GoFloat GoRegexp Domain Store Contract MetaCodec Indexing.
From Stdlib Require Import Strings.Ascii.

(** ** Literals and type names *)

Definition quote_byte (c : ascii) : bool := Ascii.eqb c "034" || Ascii.eqb c "'" || Ascii.eqb c "`".

(** A text without its last byte, and that byte. *)
Fixpoint but_last (s : string) : option (string * ascii) :=
  match s with
  | "" => None
  | String c r => match but_last r with None => Some ("", c) | Some (b, l) => Some (String c b, l) end
  end.

(** [unquote] *)
Definition unquote (s : string) : option string :=
  match TrimPrefix (TrimSpace s) "@" with
  | "" => None
  | String first rest =>
      match but_last rest with
      | None => None
      | Some (body, last) =>
          if negb (Ascii.eqb first last) || negb (quote_byte first) then None
          else if ContainsByte first body then None else Some body
      end
  end.

Definition lastComponent : string → string := LastComponent.
Definition trimGenericArgs (typ : string) : string := TrimSpace (fst (Cut (Ascii.eqb "<") typ)).

(** The loop of [genericArgs]: [cur] is the argument under way. *)
Definition opening (c : ascii) : bool := Ascii.eqb c "<" || Ascii.eqb c "[" || Ascii.eqb c "(".
Definition closing (c : ascii) : bool := Ascii.eqb c ">" || Ascii.eqb c "]" || Ascii.eqb c ")".
Fixpoint generic_args (depth : Z) (cur body : string) : list string :=
  match body with
  | "" => let s := TrimSpace cur in if String.eqb s "" then [] else [s]
  | String c r =>
      if opening c then generic_args (depth + 1) (cur +:+ String c "") r
      else if closing c then generic_args (depth - 1) (cur +:+ String c "") r
      else if Ascii.eqb c "," && (depth =? 0)%Z then TrimSpace cur :: generic_args depth "" r
      else generic_args depth (cur +:+ String c "") r
  end.
Definition genericArgs (typ : string) : list string :=
  match Cut (Ascii.eqb "<") typ with
  | (_, Some after) => match CutLast (Ascii.eqb ">") after with Some (body, _) => generic_args 0 "" body | None => [] end
  | (_, None) => []
  end.

Definition hasSuffixFold (s suffix : string) : bool := HasSuffix (ToLower s) (ToLower suffix).
Definition capitalizeFirst (s : string) : string :=
  match s with "" => "" | String c r => if is_lower_byte c then String (upper_byte c) r else s end.

(** ** URLs and templates *)

(** [splitURL] *)
Fixpoint split_scheme (schemes : list string) (u : string) : string * string :=
  match schemes with
  | [] => ("", if HasPrefix u "/" then u else "/" +:+ u)
  | scheme :: schemes =>
      match CutPrefix u scheme with
      | Some rest => match Cut (Ascii.eqb "/") rest with (host, Some path) => (host, "/" +:+ path) | (host, None) => (host, "/") end
      | None => split_scheme schemes u
      end
  end.
Definition splitURL : string → string * string := split_scheme ["http://"; "https://"; "grpc://"].

Definition printfVerb : Regexp := MustCompile "%[-+# 0]*[0-9*]*(?:\.[0-9*]+)?[a-zA-Z]".
Definition braceInterp : Regexp := MustCompile "\$\{[^}]*\}".

Definition placeholderize (lit : string) : string :=
  ReplaceAll (ReplaceAllString printfVerb (ReplaceAllString braceInterp lit "{}") "{}") "%%" "%".

Definition hasLiteralSegment (t : string) : bool :=
  existsb (λ seg, negb (String.eqb seg "") && negb (ContainsAny "{}" seg)) (SplitByte (Trim (snd (splitURL t)) "/") "/").

(** The loop of [interpolatedTemplate]; [lit] is the literal under way, with its quote. *)
Fixpoint template_of (gap : bool) (b : string) (lit : option (ascii * string)) (expr : string) : option (string * bool) :=
  match expr with
  | "" => match lit with Some _ => None | None => Some (b, gap) end
  | String c r =>
      match lit with
      | Some (q, t) =>
          if Ascii.eqb c q then template_of false (b +:+ (if gap && negb (String.eqb b "") then "{}" else "") +:+ placeholderize t) None r
          else template_of gap b (Some (q, t +:+ String c "")) r
      | None => if quote_byte c then template_of gap b (Some (c, "")) r else template_of (gap || IsWordByte c) b None r
      end
  end.

(** A template that opens on no slash is rooted or loses what precedes its first one. *)
Definition rooted_template (relative : bool) (t : string) : string :=
  if Contains t "://" || HasPrefix t "/" then t
  else match Cut (Ascii.eqb "/") t with
       | (head, Some rest) =>
           if relative && negb (ContainsAny "{}" head) then "/" +:+ t
           else if String.eqb head "" then t else "/" +:+ rest
       | (_, None) => t
       end.
Definition blank_byte (c : ascii) : bool := Ascii.eqb c " " || Ascii.eqb c "009" || Ascii.eqb c "010".
Definition interpolatedTemplate (expr : string) (relative : bool) : option string :=
  match template_of false "" None expr with
  | None => None
  | Some (t, gap) =>
      let t := if gap && HasSuffix t "/" then t +:+ "{}" else t in
      let t := rooted_template relative (fst (Cut (λ c, Ascii.eqb c "?" || Ascii.eqb c "#") t)) in
      if ContainsFunc blank_byte t then None
      else if negb (HasPrefix t "/") && negb (Contains t "://") then None
      else if negb (hasLiteralSegment t) then None
      else Some t
  end.
Definition interpolatedPath (expr : string) : option string := interpolatedTemplate expr false.

(** [splitPlaceholderDefault]: the key and the default, of a placeholder that has one. *)
Definition splitPlaceholderDefault (s : string) : option (string * string) :=
  let s := TrimSpace s in
  if negb (HasPrefix s "${") || negb (HasSuffix s "}") then None
  else match Cut (Ascii.eqb ":") (TrimSuffix (TrimPrefix s "${") "}") with
       | (key, Some def) => Some (key, TrimPrefix def "-")
       | (_, None) => None
       end.
Definition applyPlaceholderDefaults (v : string) : string :=
  ReplaceAllStringFunc braceInterp v (λ m, match splitPlaceholderDefault m with Some (_, def) => def | None => m end).

Definition tableName : string → string := TableName.

(** [snakeCase]: the loop, with the byte before. *)
Definition isLowerOrDigit (b : ascii) : bool := is_lower_byte b || is_digit_byte b.
Fixpoint snake_case (prev : option ascii) (s : string) : string :=
  match s with
  | "" => ""
  | String c r =>
      (if is_upper_byte c then
         match prev with
         | Some p => if isLowerOrDigit p || next_is_lower r then "_" else ""
         | None => ""
         end +:+ String (lower_byte c) ""
       else String c "") +:+ snake_case (Some c) r
  end.
Definition snakeCase (s : string) : string := Trim (snake_case None s) "_".

Definition routeKey : string → string → string := HTTP.
Definition topicKey : string → string := Topic.
Definition grpcKey : string → string → string := GRPC.

(** [joinPath] ([lang_java.go]) *)
Definition joinPath (base sub : string) : string :=
  let base := Trim base "/" in
  let sub := Trim sub "/" in
  if String.eqb base "" && String.eqb sub "" then "/"
  else if String.eqb base "" then "/" +:+ sub
  else if String.eqb sub "" then "/" +:+ base
  else "/" +:+ base +:+ "/" +:+ sub.

(** [isIdentLike] ([lang_go.go]) *)
Definition isIdentLike (s : string) : bool := str_forallb IsWordByte s && negb (String.eqb s "").

(** [extractLineComments]: up to ten lines above the row, blank ones skipped. *)
Fixpoint comment_lines (lines : list string) (prefix : string) (fuel row : nat) : list string :=
  match fuel, row with
  | S fuel, S i =>
      match lines !! i with
      | None => []
      | Some line =>
          let line := TrimSpace line in
          if HasPrefix line prefix then comment_lines lines prefix fuel i ++ [TrimPrefix (TrimPrefix line prefix) " "]
          else if String.eqb line "" then comment_lines lines prefix fuel i
          else []
      end
  | _, _ => []
  end.
Definition extractLineComments (content : string) (row : nat) (prefix : string) : string :=
  Join (comment_lines (SplitByte content "010") prefix 10 row) (String "010" "").

(** ** The state of one file *)

Definition KindDBColumn : string := "db_column".
Definition KindProtoService : string := "proto_service".
Definition KindProtoMessage : string := "proto_message".
Definition KindProtoField : string := "proto_field".
Definition ContractKindHTTP : string := "http".
Definition ContractKindRPC : string := "rpc".
Definition ContractKindMessaging : string := "messaging".
Definition ContractKindDB : string := "db".

(** A reference to a unit by its place in the slice of the file. *)
Definition srcMarkPrefix : string := "#".
Definition srcMark (i : nat) : string := srcMarkPrefix +:+ Itoa (Z.of_nat i).
(** [resolveMark]; [Sscanf] reads the digits at the start, after blanks and a sign. *)
Fixpoint leading_digits (s : string) : string :=
  match s with String c r => if is_digit_byte c then String c (leading_digits r) else "" | "" => "" end.
Definition scan_int (s : string) : option Z :=
  let s := TrimLeft s " " in
  let '(neg, s) := match s with String c r => if Ascii.eqb c "-" then (true, r) else if Ascii.eqb c "+" then (false, r) else (false, s) | "" => (false, s) end in
  match leading_digits s with
  | "" => None
  | ds => let n := default 0%Z (read_digits 0 ds) in
          let n := if neg then (- n)%Z else n in if in_int64 n then Some n else None
  end.
Definition resolveMark (s : string) : Z :=
  match CutPrefix s srcMarkPrefix with
  | None => -1
  | Some r => default (-1)%Z (scan_int r)
  end.

Record httpSite := { hs_unit : Z; hs_method : string; hs_path : string; hs_host : string; hs_urlExpr : string; hs_methodExpr : string }.
Record pendingTable := { pt_Src : string; pt_Ident : string; pt_Kind : string; pt_Line : Z; pt_Args : list string }.

(** [fileCtx]; whether a source names a library is computed from the source, which the code does once
    and remembers. *)
Record fileCtx := {
  fc_path : string; fc_lang : string; fc_src : string;
  fc_units : list ASTUnit; fc_edges : list Edge;
  fc_cov : option (gmap string CoverageCounts);
  fc_https : list httpSite; fc_tables : list pendingTable; fc_consts : gmap string string }.

Definition with_units (us : list ASTUnit) (fc : fileCtx) : fileCtx := {|
  fc_path := fc_path fc; fc_lang := fc_lang fc; fc_src := fc_src fc; fc_units := us; fc_edges := fc_edges fc; fc_cov := fc_cov fc;
  fc_https := fc_https fc; fc_tables := fc_tables fc; fc_consts := fc_consts fc |}.
Definition with_edges (es : list Edge) (fc : fileCtx) : fileCtx := {|
  fc_path := fc_path fc; fc_lang := fc_lang fc; fc_src := fc_src fc; fc_units := fc_units fc; fc_edges := es; fc_cov := fc_cov fc;
  fc_https := fc_https fc; fc_tables := fc_tables fc; fc_consts := fc_consts fc |}.
Definition with_cov (cov : option (gmap string CoverageCounts)) (fc : fileCtx) : fileCtx := {|
  fc_path := fc_path fc; fc_lang := fc_lang fc; fc_src := fc_src fc; fc_units := fc_units fc; fc_edges := fc_edges fc; fc_cov := cov;
  fc_https := fc_https fc; fc_tables := fc_tables fc; fc_consts := fc_consts fc |}.
Definition with_https (hs : list httpSite) (fc : fileCtx) : fileCtx := {|
  fc_path := fc_path fc; fc_lang := fc_lang fc; fc_src := fc_src fc; fc_units := fc_units fc; fc_edges := fc_edges fc; fc_cov := fc_cov fc;
  fc_https := hs; fc_tables := fc_tables fc; fc_consts := fc_consts fc |}.
Definition with_tables (ts : list pendingTable) (fc : fileCtx) : fileCtx := {|
  fc_path := fc_path fc; fc_lang := fc_lang fc; fc_src := fc_src fc; fc_units := fc_units fc; fc_edges := fc_edges fc; fc_cov := fc_cov fc;
  fc_https := fc_https fc; fc_tables := ts; fc_consts := fc_consts fc |}.
Definition with_consts (cs : gmap string string) (fc : fileCtx) : fileCtx := {|
  fc_path := fc_path fc; fc_lang := fc_lang fc; fc_src := fc_src fc; fc_units := fc_units fc; fc_edges := fc_edges fc; fc_cov := fc_cov fc;
  fc_https := fc_https fc; fc_tables := fc_tables fc; fc_consts := cs |}.
Definition new_file (path lang src : string) (cov : option (gmap string CoverageCounts)) : fileCtx := {|
  fc_path := path; fc_lang := lang; fc_src := src; fc_units := []; fc_edges := []; fc_cov := cov;
  fc_https := []; fc_tables := []; fc_consts := ∅ |}.

Definition newCoverage : gmap string CoverageCounts := list_to_map (map (λ k, (k, no_counts)) ContractKinds).
Definition counts_of (kind : string) (cov : option (gmap string CoverageCounts)) : CoverageCounts :=
  default no_counts (default newCoverage cov !! kind).
(** [contractSite] *)
Definition contractSite (kind : string) (emitted : bool) (fc : fileCtx) : fileCtx :=
  let c := counts_of kind (fc_cov fc) in
  with_cov (Some (<[kind := {| cc_Candidates := cc_Candidates c + 1; cc_Edges := cc_Edges c + if emitted then 1 else 0 |}]>
                    (default newCoverage (fc_cov fc)))) fc.

Definition httpCandidate (unit : Z) (urlExpr methodExpr : string) (fc : fileCtx) : fileCtx :=
  if (unit <? 0)%Z then fc
  else with_https (fc_https fc ++ [{| hs_unit := unit; hs_method := ""; hs_path := ""; hs_host := ""; hs_urlExpr := urlExpr;
                                      hs_methodExpr := methodExpr |}]) fc.

Definition maxPendingTables : nat := 512.
Definition maxPackageConsts : nat := 256.
Definition letter (c : ascii) : bool := is_lower_byte c || is_upper_byte c.
Fixpoint count_letters (s : string) : nat := match s with "" => 0 | String c r => (if letter c then 1 else 0) + count_letters r end.
Definition isTableNameLike (v : string) : bool :=
  (2 <=? String.length v) && (String.length v <=? 64) &&
  str_forallb (λ c, letter c || is_digit_byte c || Ascii.eqb c "_" || Ascii.eqb c "-" || Ascii.eqb c ".") v && (2 <=? count_letters v).
Definition tableCandidate (unit : Z) (ident kind : string) (line : Z) (args : list string) (fc : fileCtx) : fileCtx :=
  if (unit <? 0)%Z || (maxPendingTables <=? length (fc_tables fc)) then fc
  else with_tables (fc_tables fc ++ [{| pt_Src := srcMark (Z.to_nat unit); pt_Ident := ident; pt_Kind := kind; pt_Line := line; pt_Args := args |}]) fc.
Definition publishConst (name value : string) (fc : fileCtx) : fileCtx :=
  if negb (isTableNameLike value) || (maxPackageConsts <=? size (fc_consts fc)) then fc
  else with_consts (<[name := value]> (fc_consts fc)) fc.

Definition memdbMarker : string := "go-memdb".
Definition alchemyMarker : string := "sqlalchemy".
Definition hasMemdb (fc : fileCtx) : bool := Contains (fc_src fc) memdbMarker.
Definition hasSQLAlchemy (fc : fileCtx) : bool := Contains (fc_src fc) alchemyMarker.

(** The place of a node: its rows, from zero, and its bytes. *)
Record Span := { sp_StartRow : Z; sp_EndRow : Z; sp_StartByte : Z; sp_EndByte : Z }.

(** [addUnit]: the file with the unit, and its index. *)
Definition unit_at (n : Span) (kind name qualified signature doc : string) : ASTUnit := {|
  u_ID := ""; u_RepoID := ""; u_FilePath := ""; u_Language := ""; u_Kind := kind; u_Name := name; u_Qualified := qualified; u_ParentID := "";
  u_StartLine := sp_StartRow n + 1; u_EndLine := sp_EndRow n + 1; u_StartByte := sp_StartByte n; u_EndByte := sp_EndByte n;
  u_Signature := signature; u_Doc := doc; u_Hash := ""; u_Meta := "" |}.
Definition push_unit (u : ASTUnit) (fc : fileCtx) : nat * fileCtx := (length (fc_units fc), with_units (fc_units fc ++ [u]) fc).
Definition addUnit (n : Span) (kind name qualified signature doc : string) (fc : fileCtx) : nat * fileCtx :=
  push_unit (unit_at n kind name qualified signature doc) fc.

(** [addEdge] *)
Definition edgeNeedsBaseConf (kind : string) : bool :=
  bool_decide (kind ∈ [EdgeCall; EdgeHandledBy; EdgeRPCCall; EdgeImplementsRPC; EdgeHTTPCall; EdgeWritesTo; EdgeReadsFrom]).
Definition with_base_conf (conf : f32) (m : EdgeMeta) : EdgeMeta := set_edge_rest m (em_Args m) (em_Fields m) (em_Aliases m) conf.
Definition based (kind : string) (conf : f32) (meta : option EdgeMeta) : option EdgeMeta :=
  if edgeNeedsBaseConf kind then Some (with_base_conf conf (default no_edge_meta meta)) else meta.
Definition edge_from (src kind dstName : string) (line : Z) (conf : f32) (meta : option EdgeMeta) : Edge := {|
  e_ID := ""; e_RepoID := ""; e_SrcID := src; e_DstID := ""; e_Kind := kind; e_DstName := dstName; e_FilePath := "";
  e_Line := line; e_DstRepoID := ""; e_Confidence := conf; e_Meta := EncodeEdgeMeta meta |}.
Definition addEdge (src : Z) (kind dstName : string) (line : Z) (conf : f32) (meta : option EdgeMeta) (fc : fileCtx) : fileCtx :=
  if (src <? 0)%Z then fc
  else
    let fc := match meta with
              | Some m => if String.eqb kind EdgeHTTPCall
                          then with_https (fc_https fc ++ [{| hs_unit := src; hs_method := em_Method m; hs_path := em_Path m; hs_host := em_Host m;
                                                              hs_urlExpr := ""; hs_methodExpr := "" |}]) fc
                          else fc
              | None => fc
              end in
    with_edges (fc_edges fc ++ [edge_from (srcMark (Z.to_nat src)) kind dstName line conf (based kind conf meta)]) fc.

(** [addRoute] *)
Definition with_meta_text (meta : string) (u : ASTUnit) : ASTUnit := {|
  u_ID := u_ID u; u_RepoID := u_RepoID u; u_FilePath := u_FilePath u; u_Language := u_Language u; u_Kind := u_Kind u; u_Name := u_Name u;
  u_Qualified := u_Qualified u; u_ParentID := u_ParentID u; u_StartLine := u_StartLine u; u_EndLine := u_EndLine u;
  u_StartByte := u_StartByte u; u_EndByte := u_EndByte u; u_Signature := u_Signature u; u_Doc := u_Doc u; u_Hash := u_Hash u; u_Meta := meta |}.
Definition addRoute (n : Span) (method path handler : string) (line : Z) (conf : f32) (detectedBy : string) (fc : fileCtx) : nat * fileCtx :=
  let u := unit_at n KindHTTPRoute (method +:+ " " +:+ path) (routeKey method path) ("path:" +:+ path) "" in
  let u := if String.eqb detectedBy "" then u
           else with_meta_text (EncodeUnitMeta {| um_Root := ""; um_DetectedBy := detectedBy; um_Scope := ""; um_Path := ""; um_Summary := "" |}) u in
  let '(idx, fc) := push_unit u fc in
  (idx, if String.eqb handler "" then fc else addEdge (Z.of_nat idx) EdgeHandledBy (lastComponent handler) line conf None fc).

(** [enclosingUnit]: the index of the smallest unit around a byte, the first of several. *)
Definition callableKinds : list string := ["function"; "method"; KindHTTPRoute].
Fixpoint enclosing (pos : Z) (kinds : list string) (i : nat) (best : Z * Z) (us : list ASTUnit) : Z :=
  match us with
  | [] => fst best
  | u :: us =>
      let span := (u_EndByte u - u_StartByte u)%Z in
      let inside := (u_StartByte u <=? pos)%Z && (pos <? u_EndByte u)%Z && (match kinds with [] => true | _ => existsb (String.eqb (u_Kind u)) kinds end) in
      enclosing pos kinds (S i) (if inside && (span <? snd best)%Z then (Z.of_nat i, span) else best) us
  end.
Definition enclosingUnit (pos : Z) (kinds : list string) (fc : fileCtx) : Z := enclosing pos kinds 0 (-1, 2 ^ 62)%Z (fc_units fc).

(** [hasRoute] ([route_generic.go]) *)
Definition hasRoute (method path : string) (fc : fileCtx) : bool :=
  existsb (λ u, String.eqb (u_Kind u) KindHTTPRoute && String.eqb (u_Qualified u) (routeKey method path)) (fc_units fc).

(** ** Local names *)

(** [constResolver.resolve] *)
Definition const_resolve (consts : gmap string string) (expr : string) : option string :=
  match unquote expr with Some v => Some v | None => consts !! TrimSpace expr end.

Definition maxFileAliases : nat := 64.
Definition maxEdgeAliases : nat := 8.
Definition aliasLiterals : list string := ["true"; "false"; "nil"; "null"; "None"; "True"; "False"; "undefined"; "this"].
Definition aliasScopeTypes : list string :=
  ["function_declaration"; "method_declaration"; "func_literal"; "function_definition"; "lambda"; "generator_function_declaration";
   "function_expression"; "arrow_function"; "function"; "method_definition"; "constructor_declaration"; "lambda_expression";
   "anonymous_function"; "lambda_literal"; "local_function_statement"].

Record aliasEntry := { al_name : string; al_expr : string; al_start : Z; al_end : Z }.
Abbreviation aliasTable := (list aliasEntry).

(** [aliasScope]: a node and its ancestors, innermost first, by type and place. *)
Definition aliasScope (chain : list (string * Span)) : Z * Z :=
  match List.find (λ p, existsb (String.eqb (fst p)) aliasScopeTypes) chain with
  | Some (_, n) => (sp_StartByte n, sp_EndByte n)
  | None => (0, 2 ^ 62)%Z
  end.
(** [record] *)
Definition record_alias (chain : list (string * Span)) (name expr : string) (t : aliasTable) : aliasTable :=
  let name := TrimSpace name in
  let expr := TrimSpace expr in
  if String.eqb name "" || String.eqb expr "" || String.eqb name expr || existsb (String.eqb expr) aliasLiterals then t
  else if maxFileAliases <=? length t then t
  else let '(start, end_) := aliasScope chain in t ++ [{| al_name := name; al_expr := expr; al_start := start; al_end := end_ |}].

(** [at]: the aliases visible at a byte, with the width of the scope each was taken from. *)
Definition visible (pos : Z) (e : aliasEntry) : bool := (al_start e <=? pos)%Z && (pos <? al_end e)%Z.
Definition see_alias (pos : Z) (seen : gmap string (string * Z)) (e : aliasEntry) : gmap string (string * Z) :=
  let w := (al_end e - al_start e)%Z in
  if negb (visible pos e) then seen
  else match seen !! al_name e with
       | Some (_, prev) => if (prev <? w)%Z then seen else <[al_name e := (al_expr e, w)]> seen
       | None => <[al_name e := (al_expr e, w)]> seen
       end.
Definition aliases_at (t : aliasTable) (pos : Z) : gmap string string := fst <$> foldl (see_alias pos) ∅ t.

(** [isAliasExpr] *)
Definition isAliasExpr (s : string) : bool :=
  let s := TrimSpace s in
  match s with
  | "" => false
  | String c _ => negb (is_digit_byte c || Ascii.eqb c ".") && str_forallb (λ c, IsWordByte c || Ascii.eqb c ".") s
  end.

(** [relevantAliases]: the names taken so far, those taken directly, in order. *)
Definition scan_token (aliases : gmap string string) (st : gmap string string * list string) (tok : string) : gmap string string * list string :=
  let '(out, direct) := st in
  if maxEdgeAliases <=? size out then st
  else match aliases !! tok with
       | Some v => (<[tok := v]> out, if out !! tok then direct else direct ++ [tok])
       | None => st
       end.
Definition scan_expr (aliases : gmap string string) (st : gmap string string * list string) (expr : string) : gmap string string * list string :=
  foldl (scan_token aliases) st (IdentTokens expr).
Definition sorted_values (fields : gmap string string) : list string :=
  omap (λ k, fields !! k) (SortStrings (map fst (map_to_list fields))).
Definition relevantAliases (aliases : gmap string string) (args : list string) (fields : gmap string string) : gmap string string :=
  let '(out, direct) := foldl (scan_expr aliases) (∅, []) (args ++ sorted_values fields) in
  fst (foldl (λ st name, scan_expr aliases st (default "" (fst st !! name))) (out, direct) (SortStrings direct)).
Definition relevant (t : aliasTable) (pos : Z) (args : list string) (fields : gmap string string) : gmap string string :=
  relevantAliases (aliases_at t pos) args fields.
