(* ===== verification/Detect.v ===== *)
(** * Declarative detection ([internal/index/ast/frameworks.go], [messaging.go], [route_generic.go])

    A call site as every language describes it, the rules that recognize outbound
    requests and messages in it, and the engine that runs them; the rules of the
    brokers beyond Kafka, by language; contracts named by the type of an event or by
    a type argument; and the routes a service registers through a function of its
    own.  The order in which Go visits the fields of a call is an argument. *)

From S2P Require Import Prelude GoStrings GoStrconv GoFloat Domain Store Contract GoRegexp MetaCodec Extract.
From Stdlib Require Import Strings.Ascii.

(** [callSite] *)
Record callSite := {
  cs_Callee : string; cs_Name : string; cs_Object : string; cs_RecvType : string; cs_Args : list string;
  cs_Kwargs : gmap string string; cs_Fields : gmap string string; cs_Aliases : gmap string string; cs_Line : Z; cs_Src : Z }.
Abbreviation resolver := (string → option string).
Abbreviation listResolver := (string → list string).

(** ** Receivers *)

Record objectMatch := { om_Exact : list string; om_Suffix : list string; om_Contains : list string; om_Fold : bool }.
Definition any_object : objectMatch := {| om_Exact := []; om_Suffix := []; om_Contains := []; om_Fold := false |}.
Definition no_criteria (m : objectMatch) : bool :=
  match om_Exact m, om_Suffix m, om_Contains m with [], [], [] => true | _, _, _ => false end.
Definition object_matches (m : objectMatch) (object : string) : bool :=
  if no_criteria m then true
  else
    let object := if om_Fold m then ToLower object else object in
    existsb (String.eqb object) (om_Exact m) || existsb (HasSuffix object) (om_Suffix m) || existsb (Contains object) (om_Contains m).
(** [matchReceiver], [matchBrokerReceiver] *)
Definition matchBrokerReceiver (obj recv : objectMatch) (cs : callSite) : bool :=
  if no_criteria obj && no_criteria recv then true
  else if negb (no_criteria obj) && object_matches obj (cs_Object cs) then true
  else negb (no_criteria recv) && negb (String.eqb (cs_RecvType cs) "") && object_matches recv (lastComponent (TrimSpace (cs_RecvType cs))).

(** ** Request targets *)

Definition startsWithLetter (s : string) : bool := match s with String c _ => letter c | "" => false end.
Definition isRouteSegment (seg : string) : bool :=
  negb (String.eqb seg "" || String.eqb seg "." || String.eqb seg "..") &&
  str_forallb (λ c, IsWordByte c || ContainsByte c "-.~%{}+") seg.
Definition isRelativeRoute (s : string) : bool :=
  let s := TrimSpace s in
  if negb (startsWithLetter s) then false
  else if Contains s "://" || ContainsFunc (λ c, blank_byte c || Ascii.eqb c "034" || Ascii.eqb c "'" || Ascii.eqb c "\") s then false
  else
    let segs := SplitByte (TrimSuffix (TrimQuery s) "/") "/" in
    if length segs <? 2 then false else forallb isRouteSegment segs.
Definition isContextExpr (expr : string) : bool :=
  let e := TrimSpace expr in
  if String.eqb e "ctx" then true
  else match CutPrefix e "context." with
       | Some rest => HasSuffix rest "()" && negb (ContainsFunc (λ c, Ascii.eqb c " " || Ascii.eqb c "009" || Ascii.eqb c ".") rest)
       | None => HasSuffix e ".Context()"
       end.
Definition isURLShaped (s : string) : bool :=
  let s := TrimSpace s in
  if ContainsFunc blank_byte s then false else HasPrefix s "/" || Contains s "://".

Definition resolveRequestURL (expr : string) (res : resolver) (conf : f32) (relative : bool) : option (string * f32) :=
  let template := match interpolatedTemplate expr relative with Some v => Some (v, ConfHeuristic) | None => None end in
  match res expr with
  | Some v =>
      let conf := if Contains v "{}" then ConfHeuristic else conf in
      if isURLShaped v then Some (v, conf)
      else if relative && isRelativeRoute v then Some ("/" +:+ TrimSpace v, conf)
      else if negb (Contains v "${") && negb (MatchString printfVerb v) then None
      else template
  | None => template
  end.
Definition resolveURL (expr : string) (res : resolver) (conf : f32) : option (string * f32) := resolveRequestURL expr res conf false.

Definition httpMethodFromArg (expr : string) (res : resolver) : string :=
  match res expr with
  | Some v => ToUpper (TrimSpace v)
  | None => ToUpper (TrimPrefix (lastComponent (TrimSpace expr)) "Method")
  end.
Definition httpMethodNames : list string := ["GET"; "POST"; "PUT"; "DELETE"; "PATCH"; "HEAD"; "OPTIONS"; "TRACE"; "CONNECT"].
Definition is_http_method (m : string) : bool := existsb (String.eqb m) httpMethodNames.

(** ** Generated gRPC clients *)

Definition nonGRPCClientTypes : list string :=
  ["Client"; "HttpClient"; "HTTPClient"; "WebClient"; "RestClient"; "ApiClient"; "APIClient"; "GraphQLClient"; "RedisClient";
   "MongoClient"; "S3Client"; "SqsClient"; "SnsClient"; "DynamoDbClient"; "ElasticClient"; "KafkaClient"; "AdminClient"; "SchemaRegistryClient"].
Definition CutSuffix (s suffix : string) : option string := if HasSuffix s suffix then Some (TrimSuffix s suffix) else None.
Definition grpcServiceFromType (typ : string) : string :=
  let t := TrimLeft (lastComponent (TrimRight (TrimSpace typ) "?*&")) "*&" in
  if existsb (String.eqb t) nonGRPCClientTypes then ""
  else default "" (head (omap (λ suffix, match CutSuffix t suffix with Some "" | None => None | s => s end)
                              ["BlockingStub"; "FutureStub"; "Stub"; "Client"])).
Definition isGeneratedStubType (typ : string) : bool :=
  let t := Trim (TrimSpace typ) "*&?" in
  let name := lastComponent t in
  if HasSuffix name "Stub" then true
  else if negb (HasSuffix name "Client") then false
  else Contains t "." || HasSuffix name "ServiceClient".
Definition grpcStubService (typ : string) (fileHasGRPC : bool) : string :=
  let svc := grpcServiceFromType typ in
  if String.eqb svc "" || (negb fileHasGRPC && negb (isGeneratedStubType typ)) then "" else svc.

(** [callHead] *)
Definition callHead (expr : string) : option string :=
  let expr := TrimSpace expr in
  if negb (HasSuffix expr ")") then None
  else match Cut (Ascii.eqb "(") expr with
       | (_, None) => None
       | (before, Some _) =>
           let head := Join (Fields before) " " in
           if String.eqb before "" || String.eqb head "" || ContainsFunc (λ c, quote_byte c || ContainsByte c "{}[]") head then None else Some head
       end.
Definition first_byte (f : ascii → bool) (s : string) : bool := match s with String c _ => f c | "" => false end.
(** [javaStubFactories] ([lang_java.go]) *)
Definition javaStubFactories : list string := ["newBlockingStub"; "newStub"; "newFutureStub"].
Definition constructed_type (head : string) : string :=
  let name := lastComponent head in
  let qualifier := TrimSuffix head name in
  if existsb (String.eqb name) javaStubFactories then
    match CutSuffix (lastComponent (TrimSuffix qualifier ".")) "Grpc" with
    | Some svc => if String.eqb svc "" then "" else svc +:+ "Stub"
    | None => ""
    end
  else
    let made := default "" (CutPrefix name "New") in
    if first_byte is_upper_byte made then qualifier +:+ made
    else if negb (first_byte is_upper_byte name) || (negb (HasSuffix name "Client") && negb (HasSuffix name "Stub")) then ""
    else head.
Definition inlineConstructedType (object : string) : string :=
  match callHead object with
  | None => ""
  | Some head =>
      let rest := default "" (CutPrefix head "new") in
      if first_byte (λ c, negb (IsWordByte c)) rest then TrimSpace rest else constructed_type head
  end.
Definition inlineStubService (object : string) (fileHasGRPC : bool) : string :=
  let typ := inlineConstructedType object in
  if String.eqb typ "" then "" else grpcStubService typ fileHasGRPC.

Definition grpcSourceMarkers : list string :=
  ["io.grpc"; "google.golang.org/grpc"; "@grpc/"; "grpc-js"; "grpc-web"; "grpc.core"; "grpc.net.client"; "grpc.aspnetcore";
   "servercallcontext"; "grpc.health.v1"; "import grpc"; "from grpc"; "_pb2_grpc"; "_grpc_pb"; "grpc_pb"; "_grpc.pb.go";
   "grpc.newblockingstub"; "grpc.newstub"; "grpc.newfuturestub"].
Definition containsAnyFold (s : string) (markers : list string) : bool :=
  if String.eqb s "" then false else existsb (Contains (ToLower s)) markers.
Definition hasGRPCImport (src : string) : bool := existsb (Contains (ToLower src)) grpcSourceMarkers.
Definition hasGRPC (fc : fileCtx) : bool := hasGRPCImport (fc_src fc).

(** ** Brokers *)

Definition brokerVendorMarkers : list string :=
  ["kafka"; "rabbit"; "amqp"; "sqs"; "sns"; "nats"; "jetstream"; "pubsub"; "pub_sub"; "servicebus"; "service_bus"; "eventhub"; "event_hub";
   "eventbridge"; "kinesis"; "pulsar"; "mqtt"; "stomp"; "jmstemplate"; "streambridge"; "redis"].
Definition brokerRoleMarkers : list string :=
  ["eventbus"; "messagebus"; "messagebroker"; "broker"; "publisher"; "subscriber"; "producer"; "consumer"].
Definition brokerMarkers : list string := brokerVendorMarkers ++ brokerRoleMarkers.
(** [brokerSourceMarkers], [hasBrokerImport] ([messaging.go]) *)
Definition brokerSourceMarkers : list string := brokerVendorMarkers ++
  ["sarama"; "pika"; "kombu"; "amqplib"; "amqp091"; "streadway"; "aio_pika"; "easynetq"; "masstransit"; "nservicebus"; "rebus";
   "javax.jms"; "jakarta.jms"; "activemq"; "rocketmq"; "org.springframework.jms"; "ibmmq"; "ibm.mq"; "pymqi"; "azure.messaging";
   "cloud.pubsub"; "eventstore"; "solace"; "paho"; "celery"; "bullmq"; "ioredis"; "zeromq"; "pyzmq"].
Definition hasBrokerImport (src : string) : bool := existsb (Contains (ToLower src)) brokerSourceMarkers.
Definition hasBroker (fc : fileCtx) : bool := hasBrokerImport (fc_src fc).
Definition brokerPublishVerbs : list string :=
  ["publish"; "publishasync"; "publishmessage"; "send"; "sendasync"; "sendmessage"; "sendmessageasync"; "sendtoqueue"; "produce";
   "produceasync"; "emit"; "enqueue"; "convertandsend"; "basicpublish"; "basicpublishasync"; "basic_publish"; "publish_message"; "send_message"].
Definition brokerSubscribeVerbs : list string :=
  ["subscribe"; "subscribeasync"; "consume"; "consumeasync"; "receive"; "receivemessage"; "receivemessages"; "basicconsume";
   "basicconsumeasync"; "basic_consume"; "receive_message"; "receive_messages"; "listen"; "pull"; "createprocessor"; "createreceiver"].
Definition brokerDestFields : list string :=
  ["routing_key"; "routingkey"; "queue"; "queueurl"; "queue_url"; "queuename"; "queue_name"; "topic"; "topicarn"; "topic_arn"; "topicname";
   "topic_name"; "subject"; "channel"; "stream"; "destination"; "exchange"; "subscription"].
Definition hasBrokerMarker (s : string) : bool := containsAnyFold s brokerMarkers.
Definition hasBrokerVendor (s : string) : bool := containsAnyFold s brokerVendorMarkers.
Definition brokerEvidence (fc : fileCtx) (cs : callSite) : bool :=
  if hasBrokerVendor (cs_Object cs) || hasBrokerVendor (cs_RecvType cs) then true else hasBroker fc.
Definition brokerHandle (fc : fileCtx) (cs : callSite) : bool :=
  hasBrokerMarker (cs_Object cs) || hasBrokerMarker (cs_RecvType cs) || hasBroker fc.
Definition queueNameLike (s : string) : bool :=
  let s := TrimSpace s in
  if (String.length s <? 3) || (96 <? String.length s) then false
  else if ContainsFunc (λ c, blank_byte c || quote_byte c && negb (Ascii.eqb c "`") || ContainsByte c "{}()<>,;=") s || HasPrefix s "/" then false
  else if Contains s "://" then false
  else str_forallb (λ c, letter c || is_digit_byte c || ContainsByte c ".-_:/*$") s && (3 <=? count_letters s).

(** The name behind a queue URL, an ARN or a path. *)
Definition brokerName (v : string) (ref : bool) : string :=
  if negb ref then v
  else
    let v := TrimSpace v in
    if HasPrefix v "${" then v
    else match CutLast (λ c, Ascii.eqb c "/" || Ascii.eqb c ":") v with
         | Some (_, name) => if String.eqb name "" then v else name
         | None => v
         end.
Definition topicEdgeKey (topic : string) : string * string :=
  match splitPlaceholderDefault topic with
  | Some (ref, def) => (topicKey ("${" +:+ ref +:+ "}"), def)
  | None => (topicKey topic, topic)
  end.

(** ** Rules *)

Record httpClientRule := {
  hr_Object : objectMatch; hr_Methods : list (string * string); hr_URLArg : nat; hr_RecvType : objectMatch; hr_MethodArg : nat;
  hr_MethodFromField : string; hr_Loose : bool; hr_URLFromFields : bool; hr_RelativeURL : bool; hr_Conf : f32 }.
Record topicSpec := {
  ts_Args : list Z; ts_ByArity : list (nat * Z); ts_Kwargs : list string; ts_Fields : list string; ts_List : bool; ts_Ref : bool }.
Record kafkaProduceRule := {
  pr_Object : objectMatch; pr_Methods : list string; pr_TopicArg : Z; pr_TopicFromField : string; pr_Topic : topicSpec;
  pr_RecvType : objectMatch; pr_OmitArgs : bool; pr_Loose : bool; pr_NeedsBroker : bool; pr_Conf : f32 }.
Record kafkaConsumeRule := {
  cr_Object : objectMatch; cr_Methods : list string; cr_TopicArg : Z; cr_TopicArgList : bool; cr_TopicsFromFields : list string;
  cr_Topic : topicSpec; cr_RecvType : objectMatch; cr_Loose : bool; cr_NeedsBroker : bool; cr_Conf : f32 }.
Record detectorSet := { ds_HTTP : list httpClientRule; ds_Produce : list kafkaProduceRule; ds_Consume : list kafkaConsumeRule; ds_Broker : bool }.

Definition matchReceiver (r : httpClientRule) (cs : callSite) : bool := matchBrokerReceiver (hr_Object r) (hr_RecvType r) cs.
Definition httpURLFields : list string := ["url"; "uri"; "endpoint"; "baseurl"; "base_url"].
Definition no_topic : topicSpec := {| ts_Args := []; ts_ByArity := []; ts_Kwargs := []; ts_Fields := []; ts_List := false; ts_Ref := false |}.
Definition no_source (s : topicSpec) : bool :=
  match ts_Args s, ts_ByArity s, ts_Kwargs s, ts_Fields s with [], [], [], [] => true | _, _, _, _ => false end.
Definition produce_spec (r : kafkaProduceRule) : topicSpec :=
  if negb (no_source (pr_Topic r)) then pr_Topic r
  else if negb (String.eqb (pr_TopicFromField r) "")
  then {| ts_Args := []; ts_ByArity := []; ts_Kwargs := []; ts_Fields := [pr_TopicFromField r]; ts_List := false; ts_Ref := false |}
  else {| ts_Args := [pr_TopicArg r]; ts_ByArity := []; ts_Kwargs := []; ts_Fields := []; ts_List := false; ts_Ref := false |}.
Definition consume_spec (r : kafkaConsumeRule) : topicSpec :=
  if negb (no_source (cr_Topic r)) then cr_Topic r
  else match cr_TopicsFromFields r with
       | [] => {| ts_Args := [cr_TopicArg r]; ts_ByArity := []; ts_Kwargs := []; ts_Fields := []; ts_List := cr_TopicArgList r; ts_Ref := false |}
       | fs => {| ts_Args := []; ts_ByArity := []; ts_Kwargs := []; ts_Fields := fs; ts_List := true; ts_Ref := false |}
       end.
Definition arg_at (args : list string) (i : Z) : option string := if (0 <=? i)%Z then args !! Z.to_nat i else None.

Section Rules.
  Context (visit : gmap string string → list (string * string)).

(** [fieldFold]: the exact name, or the first field visited whose name matches in another case. *)
Definition fieldFold (fields : gmap string string) (name : string) : option string :=
  match fields !! name with
  | Some v => Some v
  | None => snd <$> List.find (λ kv, EqualFold (fst kv) name) (visit fields)
  end.

(** [urlFromFields]: the expression read, and the target when it resolved. *)
Definition joined_base (fields : gmap string string) (res : resolver) (conf : f32) (u : string) : string :=
  if Contains u "://" then u
  else match fieldFold fields "baseurl" with
       | Some base => match resolveURL base res conf with
                      | Some (b, _) => if Contains b "://" then TrimSuffix b "/" +:+ u else u
                      | None => u
                      end
       | None => u
       end.
Fixpoint url_from_fields (fields : gmap string string) (res : resolver) (rule_conf : f32) (expr : string) (names : list string)
    : string * option (string * f32) :=
  match names with
  | [] => (expr, None)
  | name :: names =>
      match fieldFold fields name with
      | None => url_from_fields fields res rule_conf expr names
      | Some e =>
          match resolveURL e res rule_conf with
          | Some (u, conf) => (e, Some (joined_base fields res rule_conf u, conf))
          | None => url_from_fields fields res rule_conf (if String.eqb expr "" then e else expr) names
          end
      end
  end.
Definition urlFromFields (r : httpClientRule) (fields : gmap string string) (res : resolver) : string * option (string * f32) :=
  if negb (hr_URLFromFields r) || bool_decide (fields = ∅) then ("", None) else url_from_fields fields res (hr_Conf r) "" httpURLFields.

(** [httpClientRule.apply]: whether the site is claimed, whether an edge was added, and the file. *)
Definition http_method (r : httpClientRule) (cs : callSite) (res : resolver) (m : string) : string * string :=
  let '(m, methodExpr) :=
    if String.eqb m "ANY" && negb (hr_MethodArg r =? hr_URLArg r)
    then match cs_Args cs !! hr_MethodArg r with Some e => (httpMethodFromArg e res, e) | None => (m, "") end
    else (m, "") in
  if String.eqb (hr_MethodFromField r) "" then (m, methodExpr)
  else match fieldFold (cs_Fields cs) (hr_MethodFromField r) with
       | Some e => (match unquote e with Some v => ToUpper v | None => m end, e)
       | None => (m, methodExpr)
       end.
Definition http_target (r : httpClientRule) (cs : callSite) (res : resolver) (positional : option string) : string * option (string * f32) :=
  let '(urlExpr, found) :=
    match positional with Some e => (e, resolveRequestURL e res (hr_Conf r) (hr_RelativeURL r)) | None => ("", None) end in
  match found with
  | Some _ => (urlExpr, found)
  | None => let '(fieldExpr, found) := urlFromFields r (cs_Fields cs) res in (if String.eqb fieldExpr "" then urlExpr else fieldExpr, found)
  end.
Definition apply_http (r : httpClientRule) (cs : callSite) (res : resolver) (fc : fileCtx) : (bool * bool) * fileCtx :=
  match (list_to_map (hr_Methods r) : gmap string string) !! cs_Name cs with
  | None => ((false, false), fc)
  | Some m =>
      if negb (matchReceiver r cs) then ((false, false), fc)
      else
        let positional := match cs_Args cs !! hr_URLArg r with
                          | Some e => if HasPrefix (TrimSpace e) "{" then None else Some e
                          | None => None
                          end in
        if bool_decide (positional = None) && negb (hr_URLFromFields r) then ((false, false), fc)
        else if match positional with Some e => isContextExpr e | None => false end then ((false, false), fc)
        else
          let '(urlExpr, found) := http_target r cs res positional in
          let '(m, methodExpr) := http_method r cs res m in
          match found with
          | None => if hr_Loose r then ((false, false), fc) else ((true, false), httpCandidate (cs_Src cs) urlExpr methodExpr fc)
          | Some (u, conf) =>
              let '(host, path) := splitURL u in
              ((true, true),
               addEdge (cs_Src cs) EdgeHTTPCall (routeKey m path) (cs_Line cs) conf
                 (Some {| em_Args := cs_Args cs; em_Fields := cs_Fields cs; em_Aliases := cs_Aliases cs; em_Topic := ""; em_Path := path;
                          em_Method := m; em_Host := host; em_Receiver := ""; em_RecvType := ""; em_TopicRef := ""; em_Source := "";
                          em_BaseConf := S754_zero false |}) fc)
          end
  end.

(** [topicSpec.exprs], [resolve], [resolveList] *)
Definition topic_exprs (s : topicSpec) (cs : callSite) : list string :=
  (match (list_to_map (ts_ByArity s) : gmap nat Z) !! length (cs_Args cs) with Some i => option_list (arg_at (cs_Args cs) i) | None => [] end) ++
  omap (fieldFold (cs_Kwargs cs)) (ts_Kwargs s) ++ omap (fieldFold (cs_Fields cs)) (ts_Fields s) ++ omap (arg_at (cs_Args cs)) (ts_Args s).
Definition named (res : resolver) (ref : bool) (expr : string) : option string :=
  match res expr with Some v => if String.eqb v "" then None else Some (brokerName v ref) | None => None end.
Definition resolve_topic (s : topicSpec) (cs : callSite) (res : resolver) : string * bool :=
  let es := topic_exprs s cs in
  (default "" (head (omap (named res (ts_Ref s)) es)), negb (bool_decide (es = []))).
Definition resolve_topics (s : topicSpec) (cs : callSite) (lst : listResolver) : option (list string) :=
  match topic_exprs s cs with
  | [] => None
  | e :: _ => Some (map (λ v, brokerName v (ts_Ref s)) (filter (λ v, v ≠ "") (lst e)))
  end.

Definition topic_meta (topic : string) (args : list string) (fields aliases : gmap string string) : EdgeMeta := {|
  em_Args := args; em_Fields := fields; em_Aliases := aliases; em_Topic := topic; em_Path := ""; em_Method := ""; em_Host := "";
  em_Receiver := ""; em_RecvType := ""; em_TopicRef := ""; em_Source := ""; em_BaseConf := S754_zero false |}.

(** [kafkaProduceRule.apply] *)
Definition apply_produce (r : kafkaProduceRule) (cs : callSite) (res : resolver) (fc : fileCtx) : (bool * bool) * fileCtx :=
  if negb (existsb (String.eqb (cs_Name cs)) (pr_Methods r)) || negb (matchBrokerReceiver (pr_Object r) (pr_RecvType r) cs) then ((false, false), fc)
  else if pr_NeedsBroker r && negb (brokerHandle fc cs) then ((false, false), fc)
  else
    let '(topic, found) := resolve_topic (produce_spec r) cs res in
    if negb found || String.eqb topic "" then ((negb (pr_Loose r), false), fc)
    else
      let '(key, name) := topicEdgeKey topic in
      ((true, true), addEdge (cs_Src cs) EdgeProduces key (cs_Line cs) (pr_Conf r)
                       (Some (topic_meta name (if pr_OmitArgs r then [] else cs_Args cs) (cs_Fields cs) (cs_Aliases cs))) fc).

(** [kafkaConsumeRule.apply] *)
Definition emit_consume (r : kafkaConsumeRule) (cs : callSite) (fc : fileCtx) (topic : string) : fileCtx :=
  let '(key, name) := topicEdgeKey topic in
  addEdge (cs_Src cs) EdgeConsumes key (cs_Line cs) (cr_Conf r) (Some (topic_meta name [] ∅ ∅)) fc.
Definition apply_consume (r : kafkaConsumeRule) (cs : callSite) (res : resolver) (lst : listResolver) (fc : fileCtx)
    : (bool * bool * bool) * fileCtx :=
  if negb (existsb (String.eqb (cs_Name cs)) (cr_Methods r)) || negb (matchBrokerReceiver (cr_Object r) (cr_RecvType r) cs)
  then ((false, false, false), fc)
  else if cr_NeedsBroker r && negb (brokerHandle fc cs) then ((false, false, false), fc)
  else
    let spec := consume_spec r in
    if ts_List spec then
      match resolve_topics spec cs lst with
      | None => ((negb (cr_Loose r), false, false), fc)
      | Some topics => ((true, negb (bool_decide (topics = [])), true), foldl (emit_consume r cs) fc topics)
      end
    else
      let '(topic, found) := resolve_topic spec cs res in
      if negb found || String.eqb topic "" then ((negb (cr_Loose r), false, false), fc)
      else ((true, true, true), emit_consume r cs fc topic).

(** [brokerFallback] *)
Definition brokerDestNamed (cs : callSite) : bool :=
  existsb (λ f, bool_decide (fieldFold (cs_Fields cs) f ≠ None) || bool_decide (fieldFold (cs_Kwargs cs) f ≠ None)) brokerDestFields.
Definition brokerFallbackExprs (cs : callSite) : list string :=
  concat (map (λ f, option_list (fieldFold (cs_Fields cs) f) ++ option_list (fieldFold (cs_Kwargs cs) f)) brokerDestFields) ++ take 2 (cs_Args cs).
Definition brokerFallback (cs : callSite) (res : resolver) (fc : fileCtx) : (bool * bool) * fileCtx :=
  let name := ToLower (cs_Name cs) in
  let go kind :=
    if negb (hasBrokerMarker (cs_Object cs)) && negb (hasBrokerMarker (cs_RecvType cs)) then ((false, false), fc)
    else
      let read := omap res (brokerFallbackExprs cs) in
      match List.find queueNameLike read with
      | Some v =>
          let '(key, topic) := topicEdgeKey (brokerName v true) in
          ((true, true), addEdge (cs_Src cs) kind key (cs_Line cs) ConfWeak (Some (topic_meta topic (cs_Args cs) (cs_Fields cs) (cs_Aliases cs))) fc)
      | None => (((negb (bool_decide (read = [])) || brokerDestNamed cs) && brokerEvidence fc cs, false), fc)
      end in
  if existsb (String.eqb name) brokerPublishVerbs then go EdgeProduces
  else if existsb (String.eqb name) brokerSubscribeVerbs then go EdgeConsumes
  else ((false, false), fc).

(** [fluentChainHTTP] *)
Definition fluentHTTPVerbs : list string := ["get"; "post"; "put"; "delete"; "patch"].
Definition fluentChainHTTP (name object : string) (args : list string) (res : resolver) : option (string * string * f32) :=
  match args with
  | a :: _ =>
      if negb (String.eqb name "uri") || String.eqb object "" then None
      else match resolveRequestURL a res ConfCrossFile true with
           | None => None
           | Some (u, conf) =>
               match List.find (λ v, Contains (ToLower object) ("." +:+ v +:+ "()")) fluentHTTPVerbs with
               | Some v => Some (ToUpper v, u, conf)
               | None => None
               end
           end
  | [] => None
  end.

(** ** The engine

    [runDetectors]: the rules of each class in order, a site counted once per kind. *)
Definition record_site (kind : string) (claimed emitted : bool) (counted : list string) (fc : fileCtx) : list string * fileCtx :=
  if claimed && negb (existsb (String.eqb kind) counted) then (kind :: counted, contractSite kind emitted fc) else (counted, fc).
Fixpoint run_produce (rs : list kafkaProduceRule) (cs : callSite) (res : resolver) (st : list string * fileCtx) : bool * (list string * fileCtx) :=
  match rs with
  | [] => (false, st)
  | r :: rs =>
      let '((claimed, emitted), fc) := apply_produce r cs res (snd st) in
      let st := record_site ContractKindMessaging claimed emitted (fst st) fc in
      if emitted then (true, st) else run_produce rs cs res st
  end.
Fixpoint run_consume (rs : list kafkaConsumeRule) (cs : callSite) (res : resolver) (lst : listResolver) (st : list string * fileCtx)
    : bool * (list string * fileCtx) :=
  match rs with
  | [] => (false, st)
  | r :: rs =>
      let '((claimed, emitted, handled), fc) := apply_consume r cs res lst (snd st) in
      let st := record_site ContractKindMessaging claimed emitted (fst st) fc in
      if handled then (true, st) else run_consume rs cs res lst st
  end.
Fixpoint run_http (rs : list httpClientRule) (cs : callSite) (res : resolver) (st : list string * fileCtx) : bool * (list string * fileCtx) :=
  match rs with
  | [] => (false, st)
  | r :: rs =>
      let '((claimed, emitted), fc) := apply_http r cs res (snd st) in
      let st := record_site ContractKindHTTP claimed emitted (fst st) fc in
      if emitted then (true, st) else run_http rs cs res st
  end.
Definition run_broker (ds : detectorSet) (cs : callSite) (res : resolver) (st : list string * fileCtx) : bool * (list string * fileCtx) :=
  if ds_Broker ds && negb (existsb (String.eqb ContractKindMessaging) (fst st)) then
    let '((claimed, emitted), fc) := brokerFallback cs res (snd st) in
    if claimed then (emitted, record_site ContractKindMessaging true emitted (fst st) fc) else (false, st)
  else (false, st).
Definition runDetectors (ds : detectorSet) (cs : callSite) (res : resolver) (lst : option listResolver) (fc : fileCtx) : bool * fileCtx :=
  let lst := default (λ e, option_list (res e)) lst in
  let '(stop, st) := run_produce (ds_Produce ds) cs res ([], fc) in
  if stop then (true, snd st)
  else
    let '(stop, st) := run_consume (ds_Consume ds) cs res lst st in
    if stop then (true, snd st)
    else
      let '(stop, st) := run_broker ds cs res st in
      if stop then (true, snd st)
      else let '(stop, st) := run_http (ds_HTTP ds) cs res st in (stop, snd st).
End Rules.

(** ** The rules *)

Definition object_by (exact suffix contains : list string) (fold : bool) : objectMatch :=
  {| om_Exact := exact; om_Suffix := suffix; om_Contains := contains; om_Fold := fold |}.
Definition topic_at (args : list Z) (by_arity : list (nat * Z)) (kwargs fields : list string) (lst ref : bool) : topicSpec :=
  {| ts_Args := args; ts_ByArity := by_arity; ts_Kwargs := kwargs; ts_Fields := fields; ts_List := lst; ts_Ref := ref |}.
Definition produce_rule (obj : objectMatch) (methods : list string) (topic : topicSpec) (recv : objectMatch) (loose needs : bool) (conf : f32)
    : kafkaProduceRule := {|
  pr_Object := obj; pr_Methods := methods; pr_TopicArg := 0; pr_TopicFromField := ""; pr_Topic := topic; pr_RecvType := recv;
  pr_OmitArgs := false; pr_Loose := loose; pr_NeedsBroker := needs; pr_Conf := conf |}.
Definition consume_rule (obj : objectMatch) (methods : list string) (topic : topicSpec) (recv : objectMatch) (loose needs : bool) (conf : f32)
    : kafkaConsumeRule := {|
  cr_Object := obj; cr_Methods := methods; cr_TopicArg := 0; cr_TopicArgList := false; cr_TopicsFromFields := []; cr_Topic := topic;
  cr_RecvType := recv; cr_Loose := loose; cr_NeedsBroker := needs; cr_Conf := conf |}.

Definition goMessageFieldMethods : list string :=
  ["SendMessage"; "SendMessageBatch"; "SendMessageWithContext"; "Publish"; "PublishWithContext"; "PublishBatch"; "XAdd"; "XReadGroup";
   "XRead"; "ReceiveMessage"; "ReceiveMessageWithContext"].
Definition goAMQPRecv : objectMatch :=
  object_by [] ["Chan"; "Channel"; "chan"; "channel"] ["rabbit"; "amqp"; "broker"] false.
Definition goNATSRecv : objectMatch :=
  object_by ["nc"; "js"; "nc1"; "nc2"] [] ["nats"; "jetstream"; "Nats"; "JetStream"] false.
Definition pyBrokerRecv : objectMatch :=
  object_by [] [] ["channel"; "rabbit"; "amqp"; "sqs"; "sns"; "nats"; "nc"; "publisher"; "subscriber"; "producer"; "broker"; "bus"; "redis"; "pubsub"] true.
Definition jvmAMQPRecv : objectMatch :=
  object_by [] [] ["channel"; "rabbit"; "amqp"; "jms"; "broker"; "bus"; "template"] true.
Definition csBrokerRecv : objectMatch :=
  object_by [] [] ["channel"; "rabbit"; "amqp"; "bus"; "broker"; "sqs"; "sns"; "queue"; "topic"; "publisher"; "producer"; "sender"; "servicebus"] true.
Definition tsBrokerRecv : objectMatch :=
  object_by [] [] ["channel"; "rabbit"; "amqp"; "sqs"; "sns"; "nats"; "redis"; "pubsub"; "broker"; "bus"; "client"; "publisher"; "producer"] true.
Definition goBrokerProduce : list kafkaProduceRule :=
  [produce_rule goAMQPRecv ["Publish"; "PublishMsg"] (topic_at [1; 0]%Z [] [] [] false false) any_object false false ConfHigh;
   produce_rule goAMQPRecv ["PublishWithContext"] (topic_at [2; 1]%Z [] [] [] false false) any_object false false ConfHigh;
   produce_rule goNATSRecv ["Publish"; "PublishMsg"; "PublishAsync"] (topic_at [0; 1]%Z [] [] [] false false) any_object true false ConfHigh;
   produce_rule any_object ["SendMessage"; "SendMessageBatch"; "SendMessageWithContext"] (topic_at [] [] [] ["QueueUrl"; "QueueName"] false true) any_object true false ConfHigh;
   produce_rule (object_by [] [] ["sns"; "SNS"; "Sns"] false) ["Publish"; "PublishWithContext"; "PublishBatch"] (topic_at [] [] [] ["TopicArn"; "TargetArn"] false true) any_object false false ConfHigh;
   produce_rule any_object ["XAdd"] (topic_at [] [] [] ["Stream"] false false) any_object true false ConfHigh].
Definition goBrokerConsume : list kafkaConsumeRule :=
  [consume_rule goAMQPRecv ["Consume"; "ConsumeWithContext"] (topic_at [0]%Z [] [] [] false false) any_object false false ConfHigh;
   consume_rule goNATSRecv ["Subscribe"; "SubscribeSync"; "QueueSubscribe"; "QueueSubscribeSync"; "ChanSubscribe"] (topic_at [0]%Z [] [] [] false false) any_object true false ConfHigh;
   consume_rule any_object ["ReceiveMessage"; "ReceiveMessageWithContext"] (topic_at [] [] [] ["QueueUrl"; "QueueName"] false true) any_object true false ConfHigh;
   consume_rule any_object ["XReadGroup"; "XRead"] (topic_at [] [] [] ["Stream"; "Streams"] true false) any_object true false ConfHeuristic].
Definition pyBrokerProduce : list kafkaProduceRule :=
  [produce_rule any_object ["basic_publish"] (topic_at [1; 0]%Z [] ["routing_key"; "exchange"] [] false false) any_object false false ConfHigh;
   produce_rule any_object ["send_message"; "send_message_batch"] (topic_at [0]%Z [] ["QueueUrl"; "QueueName"] [] false true) any_object false true ConfHigh;
   produce_rule pyBrokerRecv ["publish"; "publish_message"; "xadd"] (topic_at [0]%Z [] ["TopicArn"; "TargetArn"; "topic"; "channel"; "stream"] [] false true) any_object true false ConfHeuristic].
Definition pyBrokerConsume : list kafkaConsumeRule :=
  [consume_rule any_object ["basic_consume"; "basic_get"] (topic_at [0]%Z [] ["queue"] [] false false) any_object false false ConfHigh;
   consume_rule any_object ["receive_message"; "receive_messages"] (topic_at [0]%Z [] ["QueueUrl"; "QueueName"] [] false true) any_object false true ConfHigh;
   consume_rule pyBrokerRecv ["xreadgroup"; "xread"] (topic_at [2; 0]%Z [] [] [] true false) any_object true false ConfHeuristic].
Definition jvmBrokerProduce : list kafkaProduceRule :=
  [produce_rule any_object ["basicPublish"] (topic_at [1; 0]%Z [] [] [] false false) any_object false false ConfHigh;
   produce_rule jvmAMQPRecv ["convertAndSend"; "convertSendAndReceive"; "send"] (topic_at [] [(2, 0%Z); (3, 1%Z); (4, 1%Z)] [] [] false false) jvmAMQPRecv true false ConfHigh;
   produce_rule (object_by [] [] ["streambridge"] true) ["send"] (topic_at [0]%Z [] [] [] false false) any_object false false ConfHigh;
   produce_rule (object_by [] [] ["nats"; "connection"; "publisher"] true) ["publish"] (topic_at [0]%Z [] [] [] false false) any_object true false ConfHeuristic].
Definition jvmBrokerConsume : list kafkaConsumeRule :=
  [consume_rule any_object ["basicConsume"; "basicGet"] (topic_at [0]%Z [] [] [] false false) any_object false false ConfHigh;
   consume_rule jvmAMQPRecv ["receive"; "receiveAndConvert"] (topic_at [0]%Z [] [] [] false false) jvmAMQPRecv true false ConfHigh;
   consume_rule (object_by [] [] ["nats"; "connection"; "dispatcher"] true) ["subscribe"] (topic_at [0]%Z [] [] [] false false) any_object true false ConfHeuristic].
Definition csBrokerProduce : list kafkaProduceRule :=
  [produce_rule any_object ["BasicPublish"; "BasicPublishAsync"] (topic_at [1; 0]%Z [] ["routingKey"; "exchange"] [] false false) any_object false false ConfHigh;
   produce_rule (object_by [] [] ["sqs"; "sns"] true) ["SendMessageAsync"; "SendMessage"; "PublishAsync"; "Publish"] (topic_at [0]%Z [] ["QueueUrl"; "TopicArn"] [] false true) any_object false false ConfHigh;
   produce_rule csBrokerRecv ["CreateSender"] (topic_at [0]%Z [] [] [] false false) any_object false false ConfHeuristic].
Definition csBrokerConsume : list kafkaConsumeRule :=
  [consume_rule any_object ["BasicConsume"; "BasicConsumeAsync"] (topic_at [0]%Z [] ["queue"] [] false false) any_object false false ConfHigh;
   consume_rule (object_by [] [] ["sqs"] true) ["ReceiveMessageAsync"; "ReceiveMessage"] (topic_at [0]%Z [] ["QueueUrl"] [] false true) any_object false false ConfHigh;
   consume_rule csBrokerRecv ["CreateProcessor"; "CreateReceiver"] (topic_at [0]%Z [] [] [] false false) any_object false false ConfHeuristic].
Definition tsBrokerProduce : list kafkaProduceRule :=
  [produce_rule tsBrokerRecv ["publish"] (topic_at [1; 0]%Z [] [] [] false false) any_object true false ConfHigh;
   produce_rule any_object ["sendToQueue"] (topic_at [0]%Z [] [] [] false false) any_object false false ConfHigh;
   produce_rule any_object ["sendMessage"; "sendMessageBatch"] (topic_at [] [] [] ["QueueUrl"; "QueueName"] false true) any_object true false ConfHigh;
   produce_rule (object_by [] [] ["pubsub"] true) ["topic"] (topic_at [0]%Z [] [] [] false false) any_object true false ConfHeuristic;
   produce_rule tsBrokerRecv ["emit"] (topic_at [0]%Z [] [] [] false false) any_object true false ConfHeuristic;
   produce_rule (object_by [] [] ["redis"] true) ["xadd"] (topic_at [0]%Z [] [] [] false false) any_object false false ConfHigh].
Definition tsBrokerConsume : list kafkaConsumeRule :=
  [consume_rule tsBrokerRecv ["consume"] (topic_at [0]%Z [] [] [] false false) any_object true false ConfHigh;
   consume_rule any_object ["receiveMessage"] (topic_at [] [] [] ["QueueUrl"; "QueueName"] false true) any_object true false ConfHigh;
   consume_rule (object_by [] [] ["pubsub"] true) ["subscription"] (topic_at [0]%Z [] [] [] false true) any_object true false ConfHeuristic;
   consume_rule (object_by [] [] ["redis"] true) ["xreadgroup"; "xread"] (topic_at [4; 0]%Z [] [] [] false false) any_object true false ConfHeuristic].
Definition jvmListenerAnnotations : list (string * list string) :=
  [("KafkaListener", ["topics"; "topicPattern"]); ("RabbitListener", ["queues"; "queuesToDeclare"]); ("StreamListener", []);
   ("JmsListener", ["destination"]); ("SqsListener", ["value"; "queueNames"]); ("ServiceActivator", ["inputChannel"]);
   ("NatsListener", ["subject"; "subjects"]); ("PulsarListener", ["topics"])].

(** ** Contracts named by a type *)

Definition eventPublishVerbs : list string :=
  ["Publish"; "PublishAsync"; "PublishThroughEventBusAsync"; "Send"; "SendAsync"; "Dispatch"; "DispatchAsync"; "AddAndSaveEventAsync"].
Definition eventSendVerbs : list string := ["Send"; "SendAsync"].
Definition eventDispatcherMarkers : list string :=
  ["mediator"; "messenger"; "bus"; "broker"; "publisher"; "dispatcher"; "queue"; "eventservice"; "integrationevent"].
Definition eventPublishReceiverOK (name object recvType : string) : bool :=
  if negb (existsb (String.eqb name) eventSendVerbs) then true
  else containsAnyFold object eventDispatcherMarkers || containsAnyFold recvType eventDispatcherMarkers.
Definition eventHandlerInterfaces : list string :=
  ["IIntegrationEventHandler"; "IEventHandler"; "IConsumer"; "IMessageHandler"; "IHandleMessages"; "IMessageConsumer"].
Definition eventTypeSuffixes : list string := ["IntegrationEvent"; "Event"; "Message"; "Command"; "Notification"].
Definition eventBaseTypes : list string :=
  ["IntegrationEvent"; "Event"; "Message"; "Command"; "Notification"; "DomainEvent"; "IEvent"; "IMessage"; "INotification"; "object"].
Definition hasAnySuffixFold (s : string) (suffixes : list string) : bool :=
  existsb (λ suffix, (String.length suffix <? String.length s) && hasSuffixFold s suffix) suffixes.
Definition eventTopicName (typ : string) : string :=
  let t := lastComponent (trimGenericArgs typ) in
  if String.eqb t "" || existsb (String.eqb t) eventBaseTypes then ""
  else if hasAnySuffixFold t eventTypeSuffixes then t else "".

Definition genericTopicVerbs : list (string * string) :=
  [("addsubscription", EdgeConsumes); ("addconsumer", EdgeConsumes); ("addsubscriber", EdgeConsumes); ("addeventhandler", EdgeConsumes);
   ("addmessagehandler", EdgeConsumes); ("addhandler", EdgeConsumes); ("subscribe", EdgeConsumes); ("subscribeasync", EdgeConsumes);
   ("consume", EdgeConsumes); ("consumeasync", EdgeConsumes); ("register", EdgeConsumes); ("registerhandler", EdgeConsumes);
   ("registerconsumer", EdgeConsumes); ("handle", EdgeConsumes);
   ("publish", EdgeProduces); ("publishasync", EdgeProduces); ("send", EdgeProduces); ("sendasync", EdgeProduces);
   ("dispatch", EdgeProduces); ("dispatchasync", EdgeProduces); ("enqueue", EdgeProduces)].
Definition genericHandlerSuffixes : list string := ["Handler"; "Consumer"; "Listener"; "Subscriber"; "Receiver"; "Worker"].
(** The loop of [genericTopicContract]: the topic and the handler found so far. *)
Definition generic_arg (found : string * string) (arg : string) : string * string :=
  let '(topic, handler) := found in
  let t := if String.eqb topic "" then eventTopicName arg else "" in
  if negb (String.eqb t "") then (t, handler)
  else
    let name := lastComponent (trimGenericArgs arg) in
    (topic, if String.eqb handler "" && hasAnySuffixFold name genericHandlerSuffixes then name else handler).
Definition genericTopicContract (name : string) (typeArgs : list string) : option (string * string * string) :=
  match List.find (λ v, String.eqb (fst v) (ToLower name)) genericTopicVerbs with
  | None => None
  | Some (_, kind) =>
      let '(topic, handler) := foldl generic_arg ("", "") typeArgs in
      if String.eqb topic "" then None else Some (kind, topic, handler)
  end.

(** ** Routes *)

Definition routeNameHints : list string := ["route"; "endpoint"; "handler"; "handle"; "register"; "mapping"].
Definition routeAntiHints : list string := ["request"; "response"; "options"; "config"; "client"; "param"].
Definition genericRouteDetector : string := "generic-route".
Definition routeNameHint (callee : string) : bool :=
  let name := ToLower (lastComponent (TrimSpace callee)) in
  negb (existsb (Contains name) routeAntiHints) && existsb (Contains name) routeNameHints.

Definition httpMethodsIn (expr : string) (res : resolver) (lst : option listResolver) : list string :=
  match res expr with
  | Some v => let m := ToUpper (TrimSpace v) in if is_http_method m then [m] else []
  | None =>
      match filter (λ m, is_http_method m = true) (map (λ v, ToUpper (TrimSpace v)) (match lst with Some f => f expr | None => [] end)) with
      | [] => let m := ToUpper (TrimPrefix (lastComponent (TrimSpace expr)) "Method") in if is_http_method m then [m] else []
      | out => out
      end
  end.
Definition isFuncRefExpr (expr : string) : bool :=
  let s := TrimSpace expr in
  match (if HasPrefix s "(" then option_map snd (CutStr s ").") else Some s) with
  | None => false
  | Some s =>
      negb (String.eqb s "") && negb (ContainsFunc (λ c, blank_byte c || quote_byte c || ContainsByte c "(){}[]") s) &&
      str_forallb (λ c, IsWordByte c || Ascii.eqb c "." || Ascii.eqb c ":") s &&
      ContainsFunc (λ c, IsWordByte c && negb (is_digit_byte c)) s && first_byte (λ c, Ascii.eqb c "_" || letter c) s
  end.

(** [genericRoute]: the methods, the path and the handler. *)
Definition route_path (res : resolver) (a : string) : option string :=
  match res a with Some v => if HasPrefix v "/" && isURLShaped v then Some v else None | None => None end.
Fixpoint path_arg (res : resolver) (i : nat) (args : list string) : option (nat * string) :=
  match args with
  | [] => None
  | a :: args => match route_path res a with Some v => Some (i, v) | None => path_arg res (S i) args end
  end.
Definition route_arg (res : resolver) (lst : option listResolver) (found : list string * string) (a : string) : list string * string :=
  let '(methods, handler) := found in
  match httpMethodsIn a res lst with
  | [] => (methods, if String.eqb handler "" && isFuncRefExpr a then a else handler)
  | ms => (methods ++ ms, handler)
  end.
Definition genericRoute (callee : string) (args : list string) (res : resolver) (lst : option listResolver)
    : option (list string * string * string) :=
  if (length args <? 2) || negb (routeNameHint callee) then None
  else match path_arg res O args with
       | None => None
       | Some (i, path) =>
           let '(methods, handler) := foldl (route_arg res lst) ([], "") (take i args ++ drop (S i) args) in
           if String.eqb handler "" && bool_decide (methods = []) then None
           else Some (match methods with [] => ["ANY"] | _ => methods end, path, handler)
       end.
(** [applyGenericRoute] *)
Definition add_generic (n : Span) (path handler : string) (fc : fileCtx) (m : string) : fileCtx :=
  if hasRoute m path fc then fc
  else snd (addRoute n m path handler (sp_StartRow n + 1) ConfHeuristic genericRouteDetector fc).
Definition applyGenericRoute (n : Span) (callee : string) (args : list string) (res : resolver) (lst : option listResolver) (prefix : string)
    (fc : fileCtx) : bool * fileCtx :=
  match genericRoute callee args res lst with
  | None => (false, fc)
  | Some (methods, path, handler) => (true, foldl (add_generic n (joinPath prefix path) handler) fc methods)
  end.
