(* ===== verification/Wrappers.v ===== *)
(** * Helpers that call for their callers, and the index pass ([internal/index/ast/wrappers.go], [parser.go], [indexer.go])

    A function that forwards its arguments to a client is followed one level: the
    call sites of the helper get the request.  Then what one file's parse gives, how
    the files of a directory complete each other, and how a batch goes into the
    store.  The parser of a language is an argument, and so are the digest of a
    text, the operations of the store and the reading of a file. *)

From S2P Require Import Prelude GoStrings GoStrconv GoSort GoFloat GoJson Domain Store Contract Paths MetaCodec Indexing Extract Detect Chunks.
From Stdlib Require Import Strings.Ascii.

(** ** Wrappers *)

Record wrapper := {
  wr_Name : string; wr_Dir : string; wr_Method : string; wr_Path : string; wr_Host : string; wr_MethodParam : Z; wr_URLParam : Z }.
#[export] Instance wrapper_eq_dec : EqDecision wrapper.
Proof. solve_decision. Defined.

Definition minWrapperName : nat := 3.
Definition followable (w : wrapper) (name : string) : bool := (0 <=? wr_URLParam w)%Z || negb (is_http_method (ToUpper name)).

(** [paramIndex]: the last token that is a parameter; of two parameters with one name the later. *)
Fixpoint last_index (params : list string) (tok : string) (i : Z) (found : Z) : Z :=
  match params with [] => found | p :: params => last_index params tok (i + 1) (if String.eqb p tok then i else found) end.
Definition paramIndex (params : list string) (expr : string) : Z :=
  if String.eqb expr "" || bool_decide (params = []) then -1
  else foldl (λ found tok, last_index params tok 0 found) (-1)%Z (IdentTokens expr).

(** [stringLiterals]: [lit] is the literal under way, with its quote. *)
Fixpoint string_literals (lit : option (ascii * string)) (expr : string) : list string :=
  match expr with
  | "" => []
  | String c r =>
      match lit with
      | Some (q, t) => if Ascii.eqb c q then t :: string_literals None r else string_literals (Some (q, t +:+ String c "")) r
      | None => string_literals (if quote_byte c then Some (c, "") else None) r
      end
  end.
Definition stringLiterals : string → list string := string_literals None.

Definition urlTemplatePrefix (expr : string) : string * string :=
  match List.find isURLShaped (map (λ l, fst (Cut (Ascii.eqb "{") (placeholderize l))) (stringLiterals expr)) with
  | Some lit => let '(host, prefix) := splitURL lit in (host, TrimSuffix (if String.eqb prefix "/" then "" else prefix) "/")
  | None => ("", "")
  end.

(** [newWrapper]; the name and the directory are the caller's. *)
Definition newWrapper (lang : string) (u : ASTUnit) (site : httpSite) : option wrapper :=
  if negb (String.eqb (hs_path site) "") then
    Some {| wr_Name := ""; wr_Dir := ""; wr_Method := hs_method site; wr_Path := hs_path site; wr_Host := hs_host site;
            wr_MethodParam := -1; wr_URLParam := -1 |}
  else
    let params := ParamNames lang (u_Signature u) in
    let url := paramIndex params (hs_urlExpr site) in
    if (url <? 0)%Z then None
    else
      let method := match unquote (TrimSpace (hs_methodExpr site)) with
                    | Some v => if is_http_method (ToUpper v) then ToUpper v else ""
                    | None => "" end in
      let '(host, path) := urlTemplatePrefix (hs_urlExpr site) in
      Some {| wr_Name := ""; wr_Dir := ""; wr_Method := method; wr_Path := path; wr_Host := host;
              wr_MethodParam := paramIndex params (hs_methodExpr site); wr_URLParam := url |}.
Definition named_in (name dir : string) (w : wrapper) : wrapper := {|
  wr_Name := name; wr_Dir := dir; wr_Method := wr_Method w; wr_Path := wr_Path w; wr_Host := wr_Host w;
  wr_MethodParam := wr_MethodParam w; wr_URLParam := wr_URLParam w |}.

(** [wrappers]: one for each name, from the first site that makes one. *)
Definition site_wrapper (fc : fileCtx) (site : httpSite) : option wrapper :=
  if (hs_unit site <? 0)%Z then None
  else match fc_units fc !! Z.to_nat (hs_unit site) with
       | None => None
       | Some u =>
           if negb (String.eqb (u_Kind u) "function") && negb (String.eqb (u_Kind u) "method") then None
           else if String.length (u_Name u) <? minWrapperName then None
           else match newWrapper (fc_lang fc) u site with
                | Some w => if followable w (u_Name u) then Some (named_in (u_Name u) (Dir (fc_path fc)) w) else None
                | None => None
                end
       end.
Definition add_wrapper (ws : list wrapper) (w : wrapper) : list wrapper :=
  if existsb (λ x, String.eqb (wr_Name x) (wr_Name w)) ws then ws else ws ++ [w].
Definition wrappers (fc : fileCtx) : list wrapper := foldl add_wrapper [] (omap (site_wrapper fc) (fc_https fc)).

(** [target]: the method, the route and the host a call reaches. *)
Definition literalOnly : resolver := unquote.
Definition orAnyMethod (m : string) : string := if String.eqb m "" then "ANY" else m.
Definition target (w : wrapper) (args : list string) : option (string * string * string) :=
  if (wr_URLParam w <? 0)%Z then
    if String.eqb (wr_Path w) "" then None else Some (orAnyMethod (wr_Method w), wr_Path w, wr_Host w)
  else
    u ← args !! Z.to_nat (wr_URLParam w);
    '(u, _) ← resolveURL u literalOnly ConfWeak;
    let '(host, path) := splitURL u in
    let method :=
      match (if (0 <=? wr_MethodParam w)%Z then args !! Z.to_nat (wr_MethodParam w) else None) with
      | Some a => let m := httpMethodFromArg a literalOnly in if is_http_method m then m else wr_Method w
      | None => wr_Method w
      end in
    Some (orAnyMethod method, if String.eqb (wr_Path w) "" then path else joinPath (wr_Path w) path, if String.eqb host "" then wr_Host w else host).

(** [linkWrapperCalls]: the requests found at call sites that have none on their line. *)
Definition site_of (e : Edge) : string * Z := (e_SrcID e, e_Line e).
Definition wrapper_call (byName : gmap string wrapper) (e : Edge) : option Edge :=
  if negb (String.eqb (e_Kind e) EdgeCall) then None
  else
    w ← byName !! e_DstName e;
    let meta := DecodeEdgeMeta (e_Meta e) in
    '(method, route, host) ← target w (em_Args meta);
    Some (edge_from (e_SrcID e) EdgeHTTPCall (routeKey method route) (e_Line e) ConfWeak
      (Some {| em_Args := em_Args meta; em_Fields := ∅; em_Aliases := em_Aliases meta; em_Topic := ""; em_Path := route; em_Method := method;
               em_Host := host; em_Receiver := ""; em_RecvType := ""; em_TopicRef := ""; em_Source := "wrapper:" +:+ wr_Name w;
               em_BaseConf := ConfWeak |})).
Definition link_call (byName : gmap string wrapper) (st : gset (string * Z) * list Edge) (e : Edge) : gset (string * Z) * list Edge :=
  let '(resolved, added) := st in
  if bool_decide (site_of e ∈ resolved) then st
  else match wrapper_call byName e with
       | Some h => ({[site_of e]} ∪ resolved, added ++ [h])
       | None => st
       end.
Definition resolved_sites (edges : list Edge) : gset (string * Z) :=
  list_to_set (map site_of (filter (λ e, e_Kind e = EdgeHTTPCall) edges)).
Definition linkWrapperCalls (edges : list Edge) (byName : gmap string wrapper) : nat * list Edge :=
  if bool_decide (byName = ∅) then (O, edges)
  else let '(_, added) := foldl (link_call byName) (resolved_sites edges, []) edges in (length added, edges ++ added).

(** The first wrapper of a name. *)
Definition by_name (ws : list wrapper) : gmap string wrapper :=
  foldl (λ m w, match m !! wr_Name w with Some _ => m | None => <[wr_Name w := w]> m end) ∅ ws.
(** [linkWrappers] *)
Definition linkWrappers (ws : list wrapper) (fc : fileCtx) : fileCtx :=
  match ws with
  | [] => fc
  | _ => let '(added, edges) := linkWrapperCalls (fc_edges fc) (by_name ws) in
         Nat.iter added (contractSite ContractKindHTTP true) (with_edges edges fc)
  end.

(** ** The facts of a file *)

Record fileFacts := {
  ff_Units : list ASTUnit; ff_Edges : list Edge; ff_Wrappers : list wrapper; ff_Coverage : option (gmap string CoverageCounts);
  ff_Tables : list pendingTable; ff_Consts : gmap string string }.

Section Facts.
  Context (hashString : string → string).

(** The end of [ParseFacts], after a language's extractor has filled the file. *)
Definition with_hash (h : string) (u : ASTUnit) : ASTUnit := {|
  u_ID := u_ID u; u_RepoID := u_RepoID u; u_FilePath := u_FilePath u; u_Language := u_Language u; u_Kind := u_Kind u; u_Name := u_Name u;
  u_Qualified := u_Qualified u; u_ParentID := u_ParentID u; u_StartLine := u_StartLine u; u_EndLine := u_EndLine u;
  u_StartByte := u_StartByte u; u_EndByte := u_EndByte u; u_Signature := u_Signature u; u_Doc := u_Doc u; u_Hash := h; u_Meta := u_Meta u |}.
Definition hashed (content : string) (u : ASTUnit) : ASTUnit :=
  if String.eqb (u_Hash u) "" && (0 <=? u_StartByte u)%Z && (u_EndByte u <=? Z.of_nat (String.length content))%Z && (u_StartByte u <? u_EndByte u)%Z
  then with_hash (hashString (String.substring (Z.to_nat (u_StartByte u)) (Z.to_nat (u_EndByte u - u_StartByte u)) content)) u else u.
Definition ParseFacts (extract : fileCtx → fileCtx) (lang filePath content : string) : fileFacts :=
  let fc := extract (new_file filePath lang content (Some newCoverage)) in
  let ws := wrappers fc in
  let fc := linkWrappers ws fc in
  {| ff_Units := map (hashed content) (fc_units fc); ff_Edges := fc_edges fc; ff_Wrappers := ws; ff_Coverage := fc_cov fc;
     ff_Tables := fc_tables fc; ff_Consts := fc_consts fc |}.
End Facts.

(** ** A batch of files *)

Record parseResult := {
  pr_units : list ASTUnit; pr_edges : list Edge; pr_wrappers : list wrapper; pr_coverage : option (gmap string CoverageCounts);
  pr_tables : list pendingTable; pr_consts : gmap string string; pr_err : option string }.
Definition failed_parse (e : string) : parseResult := {|
  pr_units := []; pr_edges := []; pr_wrappers := []; pr_coverage := None; pr_tables := []; pr_consts := ∅; pr_err := Some e |}.
Definition parsed_facts (f : fileFacts) : parseResult := {|
  pr_units := ff_Units f; pr_edges := ff_Edges f; pr_wrappers := ff_Wrappers f; pr_coverage := ff_Coverage f; pr_tables := ff_Tables f;
  pr_consts := ff_Consts f; pr_err := None |}.
Definition parsed_plain (p : list ASTUnit * list Edge) : parseResult := {|
  pr_units := fst p; pr_edges := snd p; pr_wrappers := []; pr_coverage := None; pr_tables := []; pr_consts := ∅; pr_err := None |}.
Definition with_links (edges : list Edge) (cov : option (gmap string CoverageCounts)) (p : parseResult) : parseResult := {|
  pr_units := pr_units p; pr_edges := edges; pr_wrappers := pr_wrappers p; pr_coverage := cov; pr_tables := pr_tables p;
  pr_consts := pr_consts p; pr_err := pr_err p |}.

(** A parser of a language: one that gives facts, or one that gives units and edges. *)
Inductive Parser :=
  | FactsParser (parse : string → string → string + fileFacts)
  | PlainParser (parse : string → string → string + (list ASTUnit * list Edge)).

Definition maxParseWorkers : Z := 32.
Definition parseWorkers (NumCPU n : Z) : Z :=
  let n := if (n <=? 0)%Z then NumCPU else n in
  let n := if (maxParseWorkers <? n)%Z then maxParseWorkers else n in
  if (n <? 1)%Z then 1 else n.

(** [parseFiles]: every file on its own; the symbols are published in the order the workers finish. *)
Definition parse_file (parser : Parser) (content : string + string) (file : FileToIndex) : parseResult :=
  match content with
  | inl e => failed_parse e
  | inr text =>
      match parser with
      | FactsParser parse => match parse (fi_Path file) text with inl e => failed_parse ("parse: " +:+ e) | inr f => parsed_facts f end
      | PlainParser parse => match parse (fi_Path file) text with inl e => failed_parse ("parse: " +:+ e) | inr p => parsed_plain p end
      end
  end.
Definition publish_symbols (repoID language : string) (cache : SymbolCache) (p : FileToIndex * parseResult) : SymbolCache :=
  if SymbolsAnnotated language && bool_decide (pr_err (snd p) = None)
  then Put repoID (fi_Path (fst p)) (fi_Hash (fst p)) (ProjectSymbols (pr_units (snd p))) cache else cache.
Definition parseFiles (read : FileToIndex → string + string) (repoID language : string) (parser : Parser) (files : list FileToIndex)
    (finished : list (FileToIndex * parseResult) → list (FileToIndex * parseResult)) (cache : SymbolCache) : list parseResult * SymbolCache :=
  let results := map (λ f, parse_file parser (read f) f) files in
  (results, foldl (publish_symbols repoID language) cache (finished (zip files results))).

(** [linkPackageWrappers] *)
Definition plus_at (kind : string) (candidates edges : nat) (cov : option (gmap string CoverageCounts)) : option (gmap string CoverageCounts) :=
  let c := counts_of kind cov in
  Some (<[kind := {| cc_Candidates := cc_Candidates c + Z.of_nat candidates; cc_Edges := cc_Edges c + Z.of_nat edges |}]> (default newCoverage cov)).
Definition add_to_dir (byDir : gmap string (gmap string wrapper)) (w : wrapper) : gmap string (gmap string wrapper) :=
  let table := default ∅ (byDir !! wr_Dir w) in
  <[wr_Dir w := match table !! wr_Name w with Some _ => table | None => <[wr_Name w := w]> table end]> byDir.
Definition wrappers_by_dir (parsed : list parseResult) : gmap string (gmap string wrapper) :=
  foldl add_to_dir ∅ (concat (map pr_wrappers parsed)).
Definition link_package_file (byDir : gmap string (gmap string wrapper)) (file : FileToIndex) (p : parseResult) : parseResult :=
  let table := default ∅ (byDir !! Dir (fi_Path file)) in
  if bool_decide (table = ∅) || bool_decide (pr_err p ≠ None) then p
  else match linkWrapperCalls (pr_edges p) table with
       | (O, edges) => with_links edges (pr_coverage p) p
       | (added, edges) => with_links edges (plus_at ContractKindHTTP added added (pr_coverage p)) p
       end.
Definition linkPackageWrappers (files : list FileToIndex) (parsed : list parseResult) : list parseResult :=
  zip_with (link_package_file (wrappers_by_dir parsed)) files parsed.

(** [sqlTableName] ([lang_sql.go]) *)
Definition bracket_byte (c : ascii) : bool := quote_byte c || Ascii.eqb c "[" || Ascii.eqb c "]".
Definition sqlTableName (raw : string) : string :=
  Join (filter (λ p, p ≠ "") (map (λ p, ToLower (TrimSpace (TrimFunc bracket_byte p))) (SplitByte raw "."))) ".".

(** [linkPackageTables] *)
Definition consts_by_dir (files : list FileToIndex) (parsed : list parseResult) : gmap string (gmap string string) :=
  foldl (λ byDir '(file, p),
    if bool_decide (pr_consts p = ∅) then byDir
    else let dir := Dir (fi_Path file) in <[dir := default ∅ (byDir !! dir) ∪ pr_consts p]> byDir) ∅ (zip files parsed).
Definition table_edge (names : gmap string string) (t : pendingTable) : option Edge :=
  let tbl := sqlTableName (default "" (names !! pt_Ident t)) in
  if String.eqb tbl "" then None
  else Some (edge_from (pt_Src t) (pt_Kind t) (DB tbl) (pt_Line t) ConfCrossFile
               (Some (with_base_conf ConfCrossFile (topic_meta "" (pt_Args t) ∅ ∅)))).
Definition link_package_tables (byDir : gmap string (gmap string string)) (file : FileToIndex) (p : parseResult) : parseResult :=
  if bool_decide (pr_err p ≠ None) then p
  else match omap (table_edge (default ∅ (byDir !! Dir (fi_Path file)))) (pr_tables p) with
       | [] => p
       | added => with_links (pr_edges p ++ added) (plus_at ContractKindDB 0 (length added) (pr_coverage p)) p
       end.
Definition linkPackageTables (files : list FileToIndex) (parsed : list parseResult) : list parseResult :=
  let byDir := consts_by_dir files parsed in
  if bool_decide (byDir = ∅) then parsed else zip_with (link_package_tables byDir) files parsed.

(** [addCoverage] *)
Definition addCoverage (counts : option (gmap string CoverageCounts)) (acc : option (gmap string CoverageCounts))
    : option (gmap string CoverageCounts) :=
  match counts with
  | None => acc
  | Some cs => if bool_decide (cs = ∅) then acc
               else Some (union_with (λ a b, Some (plus_counts a b)) (default ∅ acc) cs)
  end.

(** [resolveEdgeSources] *)
Definition with_src (src : string) (e : Edge) : Edge := {|
  e_ID := e_ID e; e_RepoID := e_RepoID e; e_SrcID := src; e_DstID := e_DstID e; e_Kind := e_Kind e; e_DstName := e_DstName e;
  e_FilePath := e_FilePath e; e_Line := e_Line e; e_DstRepoID := e_DstRepoID e; e_Confidence := e_Confidence e; e_Meta := e_Meta e |}.
Definition resolve_source (units : list ASTUnit) (e : Edge) : option Edge :=
  let idx := resolveMark (e_SrcID e) in
  let e := if (0 <=? idx)%Z then (λ u, with_src (u_ID u) e) <$> (units !! Z.to_nat idx) else Some e in
  match e with Some e => if String.eqb (e_SrcID e) "" then None else Some e | None => None end.
Definition resolveEdgeSources (edges : list Edge) (units : list ASTUnit) : list Edge := omap (resolve_source units) edges.

(** ** Into the store *)

Class AstStore (X : Type) := {
  del_units : string → list string → X → option string * X;
  del_edges : string → list string → X → option string * X;
  (** the units with the ids they were given *)
  put_units : list ASTUnit → X → (string + list ASTUnit) * X;
  put_edges : list Edge → X → option string * X;
  del_repo_units : string → X → option string * X;
  del_repo_edges : string → X → option string * X
}.

Definition storeWindow : nat := 256.
Definition unit_of_file (repoID path language : string) (u : ASTUnit) : ASTUnit := {|
  u_ID := u_ID u; u_RepoID := repoID; u_FilePath := path; u_Language := language; u_Kind := u_Kind u; u_Name := u_Name u;
  u_Qualified := u_Qualified u; u_ParentID := u_ParentID u; u_StartLine := u_StartLine u; u_EndLine := u_EndLine u;
  u_StartByte := u_StartByte u; u_EndByte := u_EndByte u; u_Signature := u_Signature u; u_Doc := u_Doc u; u_Hash := u_Hash u; u_Meta := u_Meta u |}.
Definition edge_of_file (repoID path : string) (e : Edge) : Edge := {|
  e_ID := e_ID e; e_RepoID := repoID; e_SrcID := e_SrcID e; e_DstID := e_DstID e; e_Kind := e_Kind e; e_DstName := e_DstName e;
  e_FilePath := path; e_Line := e_Line e; e_DstRepoID := e_DstRepoID e; e_Confidence := e_Confidence e; e_Meta := e_Meta e |}.

(** One file of a window: what it parsed to, and whether it still goes in. *)
Record windowFile := { wf_path : string; wf_units : list ASTUnit; wf_edges : list Edge; wf_failure : option string }.
Definition window_file (repoID language : string) (file : FileToIndex) (p : parseResult) : windowFile := {|
  wf_path := fi_Path file;
  wf_units := map (unit_of_file repoID (fi_Path file) language) (pr_units p);
  wf_edges := map (edge_of_file repoID (fi_Path file)) (pr_edges p);
  wf_failure := (λ e, fi_Path file +:+ ": " +:+ e) <$> pr_err p |}.
Definition goes_in (f : windowFile) : bool := bool_decide (wf_failure f = None).
Definition fail_file (what e : string) (f : windowFile) : windowFile := {|
  wf_path := wf_path f; wf_units := wf_units f; wf_edges := wf_edges f; wf_failure := Some (wf_path f +:+ ": " +:+ what +:+ e) |}.
Definition with_stored (us : list ASTUnit) (f : windowFile) : windowFile := {|
  wf_path := wf_path f; wf_units := us; wf_edges := wf_edges f; wf_failure := wf_failure f |}.

Section Store.
  Context {X : Type} `{AstStore X}.

(** [deleteWindow] *)
Definition deleteWindow (repoID : string) (paths : list string) (x : X) : option string * X :=
  match paths with
  | [] => (None, x)
  | _ => match del_units repoID paths x with
         | (Some e, x) => (Some e, x)
         | (None, x) => del_edges repoID paths x
         end
  end.

(** Each file of the window that still goes in, one after the other. *)
Fixpoint each_file (f : windowFile → X → windowFile * X) (files : list windowFile) (x : X) : list windowFile * X :=
  match files with
  | [] => ([], x)
  | w :: files =>
      let '(w, x) := if goes_in w then f w x else (w, x) in
      let '(files, x) := each_file f files x in (w :: files, x)
  end.
Definition delete_one (repoID : string) (w : windowFile) (x : X) : windowFile * X :=
  match deleteWindow repoID [wf_path w] x with
  | (Some e, x) => (fail_file "delete old data: " e w, x)
  | (None, x) => (w, x)
  end.
Definition delete_stale (repoID : string) (files : list windowFile) (x : X) : list windowFile * X :=
  match deleteWindow repoID (map wf_path (filter (λ w, goes_in w = true) files)) x with
  | (None, x) => (files, x)
  | (Some _, x) => each_file (delete_one repoID) files x
  end.

(** The units of the window in one batch, or of each file in its own. *)
Fixpoint hand_out (us : list ASTUnit) (files : list windowFile) : list windowFile :=
  match files with
  | [] => []
  | w :: files => if goes_in w then with_stored (take (length (wf_units w)) us) w :: hand_out (drop (length (wf_units w)) us) files
                  else w :: hand_out us files
  end.
Definition store_one (w : windowFile) (x : X) : windowFile * X :=
  match put_units (wf_units w) x with
  | (inl e, x) => (fail_file "store units: " e w, x)
  | (inr us, x) => (with_stored us w, x)
  end.
Definition store_units (files : list windowFile) (x : X) : list windowFile * X :=
  match put_units (concat (map wf_units (filter (λ w, goes_in w = true) files))) x with
  | (inr us, x) => (hand_out us files, x)
  | (inl _, x) => each_file store_one files x
  end.

(** The edges, under the ids of their units; a file whose edges are lost is not failed. *)
Definition with_sources (w : windowFile) : windowFile := {|
  wf_path := wf_path w; wf_units := wf_units w; wf_edges := resolveEdgeSources (wf_edges w) (wf_units w); wf_failure := wf_failure w |}.
Definition store_edges_one (w : windowFile) (x : X) : windowFile * X := let '(_, x) := put_edges (wf_edges w) x in (w, x).
Definition store_window_edges (files : list windowFile) (x : X) : list windowFile * X :=
  let files := map (λ w, if goes_in w then with_sources w else w) files in
  match put_edges (concat (map wf_edges (filter (λ w, goes_in w = true) files))) x with
  | (None, x) => (files, x)
  | (Some _, x) => each_file store_edges_one files x
  end.

(** [storeFiles]: the window and what it adds to the result; the failures in the order they were met. *)
Definition window_result (before_delete before_units after : list windowFile) (r : IndexResult) : IndexResult :=
  let failures l := omap wf_failure l in
  let met l l' := omap (λ '(w, w'), if goes_in w then wf_failure w' else None) (zip l l') in
  let errs := failures before_delete ++ met before_delete before_units ++ met before_units after in
  {| ir_FilesIndexed := ir_FilesIndexed r + Z.of_nat (length (filter (λ w, goes_in w = true) after));
     ir_FilesSkipped := ir_FilesSkipped r; ir_FilesFailed := ir_FilesFailed r + Z.of_nat (length errs);
     ir_Errors := ir_Errors r ++ errs; ir_Coverage := ir_Coverage r |}.
Definition storeFiles (repoID language : string) (files : list FileToIndex) (parsed : list parseResult) (r : IndexResult) (x : X)
    : list windowFile * IndexResult * X :=
  let w0 := zip_with (window_file repoID language) files parsed in
  let '(w1, x) := delete_stale repoID w0 x in
  let '(w2, x) := store_units w1 x in
  let '(w3, x) := store_window_edges w2 x in
  (w3, window_result w0 w1 w2 r, x).

(** [Index]; the languages come in the order of a map. *)
Fixpoint windows_of {A} (fuel : nat) (l : list A) : list (list A) :=
  match fuel, l with
  | S fuel, _ :: _ => take storeWindow l :: windows_of fuel (drop storeWindow l)
  | _, _ => []
  end.
Fixpoint store_windows (repoID language : string) (ws : list (list (FileToIndex * parseResult))) (r : IndexResult) (x : X) : IndexResult * X :=
  match ws with
  | [] => (r, x)
  | w :: ws => let '(_, r, x) := storeFiles repoID language (map fst w) (map snd w) r x in store_windows repoID language ws r x
  end.
Definition add_coverages (parsed : list parseResult) (r : IndexResult) : IndexResult := {|
  ir_FilesIndexed := ir_FilesIndexed r; ir_FilesSkipped := ir_FilesSkipped r; ir_FilesFailed := ir_FilesFailed r; ir_Errors := ir_Errors r;
  ir_Coverage := foldl (λ acc p, addCoverage (pr_coverage p) acc) (ir_Coverage r) parsed |}.
Definition skip_files (n : nat) (r : IndexResult) : IndexResult := {|
  ir_FilesIndexed := ir_FilesIndexed r; ir_FilesSkipped := ir_FilesSkipped r + Z.of_nat n; ir_FilesFailed := ir_FilesFailed r;
  ir_Errors := ir_Errors r; ir_Coverage := ir_Coverage r |}.
Definition groupByLanguage (files : list FileToIndex) (language : string) : list FileToIndex :=
  filter (λ f, fi_Language f = language) files.
Section Index.
  Context (parsers : gmap string Parser) (read : FileToIndex → string + string)
          (finished : list (FileToIndex * parseResult) → list (FileToIndex * parseResult)).
Definition index_language (repoID : string) (files : list FileToIndex) (st : IndexResult * SymbolCache * X) (language : string)
    : IndexResult * SymbolCache * X :=
  let '(r, cache, x) := st in
  let files := groupByLanguage files language in
  match parsers !! language with
  | None => (skip_files (length files) r, cache, x)
  | Some parser =>
      let '(parsed, cache) := parseFiles read repoID language parser files finished cache in
      let parsed := linkPackageTables files (linkPackageWrappers files parsed) in
      let r := add_coverages parsed r in
      let '(r, x) := store_windows repoID language (windows_of (length files) (zip files parsed)) r x in
      (r, cache, x)
  end.
Definition Index (languages : list string) (repoID : string) (files : list FileToIndex) (cache : SymbolCache) (x : X)
    : IndexResult * SymbolCache * X :=
  foldl (index_language repoID files) ({| ir_FilesIndexed := 0; ir_FilesSkipped := 0; ir_FilesFailed := 0; ir_Errors := []; ir_Coverage := None |}, cache, x) languages.
End Index.

(** [Remove] *)
Definition Remove (repoID : string) (paths : list string) (x : X) : option string * X :=
  match paths with
  | [] => match del_repo_units repoID x with (Some e, x) => (Some e, x) | (None, x) => del_repo_edges repoID x end
  | _ => deleteWindow repoID paths x
  end.
End Store.
