(* ===== verification/Schemas.v ===== *)
(** * Schema and configuration files ([internal/index/ast/lang_sql.go], [lang_proto.go], [lang_config.go])

    The parsers that read text line by line: migrations into tables and columns, and
    the statements found inside application code; contracts of gRPC into services,
    methods, messages and fields; configuration into keys.  The digest of a text and
    the YAML decoder are arguments. *)

From S2P Require Import Prelude GoStrings GoStrconv GoSort GoFloat GoJson GoJsonEncode GoRegexp Domain Store Contract MetaCodec Indexing Extract Detect Wrappers.
From Stdlib Require Import Strings.Ascii.

Section Schemas.
  Context (hashString : string → string).

(** ** SQL *)

Definition reCreateTable : Regexp :=
  MustCompile ("(?i)^\s*CREATE\s+TABLE\s+(?:IF\s+NOT\s+EXISTS\s+)?[" +:+ quote +:+ "'`]?([A-Za-z_][A-Za-z0-9_.]*)").
Definition reAlterAdd : Regexp :=
  MustCompile ("(?i)^\s*ALTER\s+TABLE\s+[" +:+ quote +:+ "'`]?([A-Za-z_][A-Za-z0-9_.]*)[" +:+ quote +:+ "'`]?\s+ADD\s+(?:COLUMN\s+)?[" +:+ quote +:+
               "'`]?([A-Za-z_][A-Za-z0-9_]*)[" +:+ quote +:+ "'`]?\s*(\S*)").
Definition sqlConstraintKeywords : list string :=
  ["PRIMARY"; "FOREIGN"; "UNIQUE"; "CONSTRAINT"; "KEY"; "INDEX"; "CHECK"; "LIKE"].

(** A unit of one line, numbered from zero. *)
Definition line_unit (lineNo : nat) (kind name qualified signature : string) : ASTUnit := {|
  u_ID := ""; u_RepoID := ""; u_FilePath := ""; u_Language := ""; u_Kind := kind; u_Name := name; u_Qualified := qualified; u_ParentID := "";
  u_StartLine := Z.of_nat lineNo + 1; u_EndLine := Z.of_nat lineNo + 1; u_StartByte := 0; u_EndByte := 0; u_Signature := signature; u_Doc := "";
  u_Hash := hashString (qualified +:+ signature); u_Meta := "" |}.
Definition with_end (endLine : Z) (u : ASTUnit) : ASTUnit := {|
  u_ID := u_ID u; u_RepoID := u_RepoID u; u_FilePath := u_FilePath u; u_Language := u_Language u; u_Kind := u_Kind u; u_Name := u_Name u;
  u_Qualified := u_Qualified u; u_ParentID := u_ParentID u; u_StartLine := u_StartLine u; u_EndLine := endLine;
  u_StartByte := u_StartByte u; u_EndByte := u_EndByte u; u_Signature := u_Signature u; u_Doc := u_Doc u; u_Hash := u_Hash u; u_Meta := u_Meta u |}.

(** A line without its comment and the blanks around it. *)
Definition uncommented (mark raw : string) : string :=
  let line := TrimSpace raw in
  match CutStr line mark with Some (before, _) => TrimSpace before | None => line end.

(** The state of [sqlParser.Parse]: the units, and the table open since a line. *)
Record sqlState := { sq_units : list ASTUnit; sq_table : string; sq_start : nat }.
Definition sql_group (m : list string) (n : nat) : string := default "" (m !! n).
Definition sql_line (i : nat) (raw : string) (st : sqlState) : sqlState :=
  let line := uncommented "--" raw in
  let push u := {| sq_units := sq_units st ++ [u]; sq_table := sq_table st; sq_start := sq_start st |} in
  if String.eqb line "" then st
  else match FindStringSubmatch reCreateTable line with
  | Some m =>
      let table := sqlTableName (sql_group m 1) in
      {| sq_units := sq_units st ++ [line_unit i KindDBTable table ("db:" +:+ table) ""]; sq_table := table; sq_start := i |}
  | None =>
  match FindStringSubmatch reAlterAdd line with
  | Some m =>
      let table := sqlTableName (sql_group m 1) in
      let col := ToLower (sql_group m 2) in
      push (line_unit i KindDBColumn col ("db:" +:+ table +:+ "." +:+ col) (sql_group m 3))
  | None =>
      if String.eqb (sq_table st) "" then st
      else if HasPrefix line ")" then
        {| sq_units := map (λ u, if String.eqb (u_Kind u) KindDBTable && String.eqb (u_Name u) (sq_table st) &&
                                    (u_StartLine u =? Z.of_nat (sq_start st) + 1)%Z
                                 then with_end (Z.of_nat i + 1) u else u) (sq_units st);
           sq_table := ""; sq_start := sq_start st |}
      else match Fields (TrimSuffix line ",") with
           | [] => st
           | f :: fs =>
               let name := TrimFunc quote_byte f in
               if existsb (String.eqb (ToUpper name)) sqlConstraintKeywords || HasPrefix name "(" then st
               else if negb (isIdentLike name) then st
               else push (line_unit i KindDBColumn (ToLower name) ("db:" +:+ sq_table st +:+ "." +:+ ToLower name) (default "" (head fs)))
           end
  end end.
Fixpoint sql_lines (i : nat) (lines : list string) (st : sqlState) : sqlState :=
  match lines with [] => st | l :: lines => sql_lines (S i) lines (sql_line i l st) end.
Definition ParseSQL (content : string) : list ASTUnit * list Edge :=
  (sq_units (sql_lines 0 (SplitByte content "010") {| sq_units := []; sq_table := ""; sq_start := 0 |}), []).

(** Statements inside application code *)
Definition reInsert : Regexp :=
  MustCompile ("(?i)INSERT\s+INTO\s+[" +:+ quote +:+ "'`]?([A-Za-z_][A-Za-z0-9_.]*)[" +:+ quote +:+ "'`]?\s*(?:\(([^)]*)\))?").
Definition reUpdate : Regexp :=
  MustCompile ("(?i)UPDATE\s+[" +:+ quote +:+ "'`]?([A-Za-z_][A-Za-z0-9_.]*)[" +:+ quote +:+ "'`]?\s+SET\s+([^;]*)").
Definition reDelete : Regexp := MustCompile ("(?i)DELETE\s+FROM\s+[" +:+ quote +:+ "'`]?([A-Za-z_][A-Za-z0-9_.]*)").
Definition reSelect : Regexp := MustCompile ("(?i)(?:FROM|JOIN)\s+[" +:+ quote +:+ "'`]?([A-Za-z_][A-Za-z0-9_.]*)").

Definition sqlStatements : list (string * string) :=
  [("INSERT ", " INTO "); ("UPDATE ", " SET "); ("DELETE ", " FROM "); ("SELECT ", " FROM "); ("WITH ", " AS (")].
Definition sqlStatementStart (upper : string) : bool :=
  let s := Join (Fields (TrimLeftFunc (λ c, blank_byte c || Ascii.eqb c "013" || Ascii.eqb c "(") upper)) " " in
  match List.find (λ st, HasPrefix s (fst st)) sqlStatements with Some (_, needs) => Contains s needs | None => false end.

Definition sql_col (s : string) : string := ToLower (TrimSpace (TrimFunc quote_byte s)).
Definition field_set (cols : list string) : gmap string string := list_to_map (map (λ c, (c, c)) cols).
Definition insert_cols (list_ : string) : gmap string string :=
  field_set (filter (λ c, isIdentLike c = true) (map sql_col (SplitByte list_ ","))).
Definition update_cols (list_ : string) : gmap string string :=
  field_set (omap (λ a, match Cut (Ascii.eqb "=") a with
                        | (before, Some _) => if negb (String.eqb before "") && isIdentLike (sql_col before) then Some (sql_col before) else None
                        | (_, None) => None
                        end) (SplitByte list_ ",")).

(** The edges of one literal. *)
Definition sql_literal (src line : Z) (args : list string) (lit : string) (fc : fileCtx) : bool * fileCtx :=
  let write table fields := (true, addEdge src EdgeWritesTo (DB (sqlTableName table)) line ConfHigh (Some (topic_meta "" args fields ∅)) fc) in
  match FindStringSubmatch reInsert lit with
  | Some m => write (sql_group m 1) (insert_cols (sql_group m 2))
  | None =>
  match FindStringSubmatch reUpdate lit with
  | Some m => write (sql_group m 1) (update_cols (sql_group m 2))
  | None =>
  match FindStringSubmatch reDelete lit with
  | Some m => write (sql_group m 1) ∅
  | None =>
      if Contains (ToUpper lit) "SELECT" then
        let ms := FindAllStringSubmatch reSelect lit in
        (negb (bool_decide (ms = [])),
         foldl (λ fc m, addEdge src EdgeReadsFrom (DB (sqlTableName (sql_group m 1))) line ConfHigh (Some (topic_meta "" args ∅ ∅)) fc) fc ms)
      else (false, fc)
  end end end.
(** [sqlEdgesFromArgs] *)
Definition sql_arg (src line : Z) (args : list string) (st : bool * bool * fileCtx) (arg : string) : bool * bool * fileCtx :=
  let '(candidate, emitted, fc) := st in
  match unquote arg with
  | None => st
  | Some lit =>
      let upper := ToUpper lit in
      if negb (existsb (Contains upper) ["INSERT"; "UPDATE"; "DELETE"; "SELECT"]) then st
      else let '(e, fc) := sql_literal src line args lit fc in (candidate || sqlStatementStart upper, emitted || e, fc)
  end.
Definition sqlEdgesFromArgs (src line : Z) (args : list string) (fc : fileCtx) : bool * fileCtx :=
  if (src <? 0)%Z then (false, fc)
  else
    let '(candidate, emitted, fc) := foldl (sql_arg src line args) (false, false, fc) args in
    (emitted, if candidate || emitted then contractSite ContractKindDB emitted fc else fc).
(** ** gRPC contracts *)

(** A scope of [protoParser.Parse]: the unit that opened it and the depth of its block. *)
Inductive scopeKind := ServiceScope | MessageScope | EnumScope | RPCScope.
Record protoScope := { sc_kind : scopeKind; sc_name : string; sc_idx : option nat; sc_depth : Z }.
(** The state of the loop; the scopes are innermost first. *)
Record protoState := {
  pr_file : fileCtx; pr_pkg : string; pr_stack : list protoScope; pr_depth : Z; pr_httpRPC : option nat; pr_httpDepth : Z }.

Definition prefixed (pkg name : string) : string := if String.eqb pkg "" then name else pkg +:+ "." +:+ name.
Definition qualifiedMsg (pkg name : string) : string := if String.eqb pkg "" then "proto:" +:+ name else "proto:" +:+ pkg +:+ "." +:+ name.
Definition isIdentByte (b : ascii) : bool := Ascii.eqb b "_" || is_lower_byte b || is_upper_byte b || is_digit_byte b.
Definition identAfter (line prefix : string) : string :=
  fst (Cut (λ b, negb (isIdentByte b || Ascii.eqb b ".")) (TrimSpace (TrimPrefix line prefix))).

(** [parseRPC]: the type in the first parentheses, and what follows them. *)
Definition extract_type (s : string) : option (string * string) :=
  match Cut (Ascii.eqb "(") s with
  | (_, Some inner) =>
      match Cut (Ascii.eqb ")") inner with
      | (val, Some rest) => Some (TrimSpace (TrimPrefix (TrimSpace val) "stream "), rest)
      | _ => None
      end
  | _ => None
  end.
Definition parseRPC (line : string) : string * string * string :=
  let rest := TrimSpace (TrimPrefix line "rpc ") in
  match Cut (λ c, Ascii.eqb c " " || Ascii.eqb c "(") rest with
  | (_, None) => ("", "", "")
  | (name, Some _) =>
      match extract_type (TrimPrefix rest name) with
      | None => (name, "", "")
      | Some (req, rest) => (name, req, match extract_type rest with Some (resp, _) => resp | None => "" end)
      end
  end.

(** [parseField] *)
Definition protoLabels : list string := ["repeated"; "optional"; "required"].
Definition parseField (line : string) : option (string * string) :=
  if existsb (HasPrefix line) ["option "; "reserved "; "oneof "] then None
  else match Cut (Ascii.eqb "=") line with
  | (_, None) => None
  | (decl, Some _) =>
      match Fields (TrimSpace decl) with
      | [] | [_] => None
      | f :: fs =>
          let fields := if existsb (String.eqb f) protoLabels then fs else f :: fs in
          if length fields <? 2 then None
          else let name := default "" (last fields) in
               if isIdentLike name then Some (Join (removelast fields) " ", name) else None
      end
  end.

(** [addGatewayRoutes], for the rpc of an index *)
Definition reGatewayBinding : Regexp :=
  MustCompile ("\b(get|put|post|delete|patch)\s*:\s*" +:+ quote +:+ "([^" +:+ quote +:+ "]+)" +:+ quote).
Definition gateway_unit (lineNo : nat) (method path : string) : ASTUnit := {|
  u_ID := ""; u_RepoID := ""; u_FilePath := ""; u_Language := ""; u_Kind := KindHTTPRoute; u_Name := method +:+ " " +:+ path;
  u_Qualified := routeKey method path; u_ParentID := ""; u_StartLine := Z.of_nat lineNo + 1; u_EndLine := Z.of_nat lineNo + 1;
  u_StartByte := 0; u_EndByte := 0; u_Signature := "path:" +:+ path; u_Doc := "";
  u_Hash := hashString ("gateway:" +:+ method +:+ " " +:+ path); u_Meta := "" |}.
Definition gateway_route (lineNo : nat) (rpc : ASTUnit) (fc : fileCtx) (m : list string) : fileCtx :=
  let '(idx, fc) := push_unit (gateway_unit lineNo (ToUpper (sql_group m 1)) (sql_group m 2)) fc in
  addEdge (Z.of_nat idx) EdgeHandledBy (u_Name rpc) (Z.of_nat lineNo + 1) ConfHigh None fc.
Definition addGatewayRoutes (line : string) (lineNo rpcIdx : nat) (fc : fileCtx) : fileCtx :=
  match fc_units fc !! rpcIdx with
  | None => fc
  | Some rpc => foldl (gateway_route lineNo rpc) fc (FindAllStringSubmatch reGatewayBinding line)
  end.

Definition with_file (fc : fileCtx) (st : protoState) : protoState := {|
  pr_file := fc; pr_pkg := pr_pkg st; pr_stack := pr_stack st; pr_depth := pr_depth st;
  pr_httpRPC := pr_httpRPC st; pr_httpDepth := pr_httpDepth st |}.
Definition with_scope (kind : scopeKind) (name : string) (idx : option nat) (st : protoState) : protoState := {|
  pr_file := pr_file st; pr_pkg := pr_pkg st;
  pr_stack := {| sc_kind := kind; sc_name := name; sc_idx := idx; sc_depth := pr_depth st + 1 |} :: pr_stack st;
  pr_depth := pr_depth st; pr_httpRPC := pr_httpRPC st; pr_httpDepth := pr_httpDepth st |}.

(** The bindings of a line: an option block opens on it, or is open. *)
Definition rpc_scope (sc : protoScope) : bool := match sc_kind sc with RPCScope => true | _ => false end.
Definition proto_bindings (i : nat) (line : string) (st : protoState) : protoState :=
  let st := if Contains line "google.api.http" || Contains line "additional_bindings"
            then {| pr_file := pr_file st; pr_pkg := pr_pkg st; pr_stack := pr_stack st; pr_depth := pr_depth st;
                    pr_httpRPC := List.find rpc_scope (pr_stack st) ≫= sc_idx; pr_httpDepth := pr_depth st |}
            else st in
  match pr_httpRPC st with Some rpc => with_file (addGatewayRoutes line i rpc (pr_file st)) st | None => st end.

(** A declaration, and the scope it opens. *)
Definition proto_unit (i : nat) (kind name qualified signature : string) (st : protoState) : nat * protoState :=
  let '(idx, fc) := push_unit (line_unit i kind name qualified signature) (pr_file st) in (idx, with_file fc st).
Definition proto_rpc (i : nat) (line : string) (svc : protoScope) (st : protoState) : protoState :=
  let '(name, req, resp) := parseRPC line in
  if String.eqb name "" then st
  else
    let '(idx, st) := proto_unit i KindRPCMethod name ("grpc:" +:+ prefixed (pr_pkg st) (sc_name svc) +:+ "/" +:+ name)
                        ("rpc " +:+ name +:+ "(" +:+ req +:+ ") returns (" +:+ resp +:+ ")") st in
    let edge kind typ fc := if String.eqb typ "" then fc
                            else addEdge (Z.of_nat idx) kind (qualifiedMsg (pr_pkg st) typ) (Z.of_nat i + 1) ConfExact None fc in
    let st := with_file (edge EdgeRPCResponse resp (edge EdgeRPCRequest req (pr_file st))) st in
    if ContainsByte "{" line then with_scope RPCScope name (Some idx) st else st.
Definition proto_message (i : nat) (name : string) (st : protoState) : protoState :=
  let full := match pr_stack st with
              | {| sc_kind := MessageScope; sc_name := outer |} :: _ => outer +:+ "." +:+ name
              | _ => name
              end in
  let '(idx, st) := proto_unit i KindProtoMessage name (qualifiedMsg (pr_pkg st) full) "" st in
  with_scope MessageScope full (Some idx) st.
Definition proto_service (i : nat) (name : string) (st : protoState) : protoState :=
  let '(idx, st) := proto_unit i KindProtoService name ("grpc:" +:+ prefixed (pr_pkg st) name) "" st in
  with_scope ServiceScope name (Some idx) st.
Definition proto_field (i : nat) (line : string) (msg : protoScope) (st : protoState) : protoState :=
  match parseField line with
  | None => st
  | Some (fieldType, fieldName) =>
      snd (proto_unit i KindProtoField fieldName (qualifiedMsg (pr_pkg st) (sc_name msg) +:+ "." +:+ fieldName) fieldType st)
  end.
Definition proto_decl (i : nat) (line : string) (st : protoState) : protoState :=
  if HasPrefix line "package " then {|
    pr_file := pr_file st; pr_pkg := TrimSuffix (TrimSpace (TrimPrefix line "package ")) ";"; pr_stack := pr_stack st;
    pr_depth := pr_depth st; pr_httpRPC := pr_httpRPC st; pr_httpDepth := pr_httpDepth st |}
  else if HasPrefix line "service " then
    match identAfter line "service " with "" => st | name => proto_service i name st end
  else if HasPrefix line "message " then
    match identAfter line "message " with "" => st | name => proto_message i name st end
  else if HasPrefix line "enum " then
    match identAfter line "enum " with "" => st | name => with_scope EnumScope name None st end
  else if HasPrefix line "rpc " then
    match pr_stack st with
    | sc :: _ => match sc_kind sc with ServiceScope => proto_rpc i line sc st | _ => st end
    | [] => st
    end
  else if HasPrefix line "}" then st
  else
    match pr_stack st with
    | sc :: _ => match sc_kind sc with MessageScope => proto_field i line sc st | _ => st end
    | [] => st
    end.

(** The scopes whose block ended, and their units' last lines. *)
Fixpoint proto_pop (i : nat) (depth : Z) (stack : list protoScope) (us : list ASTUnit) : list protoScope * list ASTUnit :=
  match stack with
  | sc :: rest =>
      if (depth <? sc_depth sc)%Z
      then proto_pop i depth rest (match sc_idx sc with Some k => alter (with_end (Z.of_nat i + 1)) k us | None => us end)
      else (stack, us)
  | [] => ([], us)
  end.
Definition proto_balance (i : nat) (line : string) (st : protoState) : protoState :=
  let opens := CountByte "{" line in
  let closes := CountByte "}" line in
  if (opens =? 0) && (closes =? 0) then st
  else
    let depth := (pr_depth st + (Z.of_nat opens - Z.of_nat closes))%Z in
    let '(stack, us) := proto_pop i depth (pr_stack st) (fc_units (pr_file st)) in
    {| pr_file := with_units us (pr_file st); pr_pkg := pr_pkg st; pr_stack := stack; pr_depth := depth;
       pr_httpRPC := if (depth <=? pr_httpDepth st)%Z then None else pr_httpRPC st; pr_httpDepth := pr_httpDepth st |}.
Definition proto_line (i : nat) (raw : string) (st : protoState) : protoState :=
  let line := uncommented "//" raw in
  if String.eqb line "" then st else proto_balance i line (proto_decl i line (proto_bindings i line st)).
Fixpoint proto_lines (i : nat) (lines : list string) (st : protoState) : protoState :=
  match lines with [] => st | l :: lines => proto_lines (S i) lines (proto_line i l st) end.
Definition proto_start (filePath content : string) : protoState := {|
  pr_file := new_file filePath "" content None; pr_pkg := ""; pr_stack := []; pr_depth := 0; pr_httpRPC := None; pr_httpDepth := 0 |}.
Definition ParseProto (filePath content : string) : list ASTUnit * list Edge :=
  let fc := pr_file (proto_lines 0 (SplitByte content "010") (proto_start filePath content)) in (fc_units fc, fc_edges fc).
End Schemas.

(** ** Configuration *)

(** A decoded document: text, any other scalar by what [fmt.Sprint] prints of it, and maps by their keys as
    they print, in the order a range visits them. *)
Inductive any :=
  | ANil
  | AText (s : string)
  | AScalar (printed : string)
  | ASeq (items : list any)
  | AMap (members : list (string * any)).

(** [fmt.Sprint] of a [float64]: an exponent has two digits. *)
Definition two_digits (s : string) : string :=
  match Cut (Ascii.eqb "e") s with
  | (m, Some (String sign (String d ""))) => m +:+ "e" +:+ String sign (String "0" (String d ""))
  | _ => s
  end.
Definition sprint_float (x : f64) : string := two_digits (format_float 53 1024 17 x (f64_lit 1 10000) (f64_of_Z (10 ^ 6))).

(** The document [json.Unmarshal] stores in an [any]; a range visits the members in the order [visit] puts them. *)
Section FromJson.
  Context (visit : list (string * any) → list (string * any)).

Fixpoint any_of_json (v : json) : any :=
  match v with
  | JNull => ANil
  | JBool b => AScalar (if b then "true" else "false")
  | JNumber t => AScalar (sprint_float (float_of_text 53 1024 t))
  | JString s => AText s
  | JArray vs => ASeq (map any_of_json vs)
  | JObject ms => AMap (visit (last_wins (map (λ kv, (fst kv, any_of_json (snd kv))) ms)))
  end.
Definition unmarshal_any (content : string) : option any :=
  match jparse content with Some v => if fits v then Some (any_of_json v) else None | None => None end.
End FromJson.

Definition maxConfigKeys : nat := 500.
Definition joinKey (prefix key : string) : string := if String.eqb prefix "" then key else prefix +:+ "." +:+ key.

Definition asStringMap (v : any) : option (list (string * any)) :=
  match v with AMap ms => Some (last_wins ms) | _ => None end.
(** [m[key]], nil when there is none. *)
Definition entry (m : list (string * any)) (key : string) : any :=
  match List.find (λ kv, String.eqb key (fst kv)) m with Some (_, v) => v | None => ANil end.
Definition is_nil (v : any) : bool := match v with ANil => true | _ => false end.
Definition text_or_empty (v : any) : string := match v with AText s => s | _ => "" end.

(** [flatten] *)
Fixpoint flatten (prefix : string) (v : any) (out : gmap string string) : gmap string string :=
  if maxConfigKeys <? size out then out
  else match v with
  | AMap ms => foldl (λ out kv, flatten (joinKey prefix (fst kv)) (snd kv) out) out ms
  | ASeq vs =>
      (fix items (i : nat) (vs : list any) (out : gmap string string) : gmap string string :=
         match vs with
         | [] => out
         | c :: vs => items (S i) vs (flatten (joinKey prefix (Itoa (Z.of_nat i))) c out)
         end) O vs out
  | ANil => out
  | AText s | AScalar s => if String.eqb prefix "" then out else <[prefix := s]> out
  end.

Section Config.
  Context (hashString : string → string).

(** A unit of a document, which has no line of its own. *)
Definition doc_unit (kind name qualified signature doc hashed : string) : ASTUnit := {|
  u_ID := ""; u_RepoID := ""; u_FilePath := ""; u_Language := ""; u_Kind := kind; u_Name := name; u_Qualified := qualified; u_ParentID := "";
  u_StartLine := 1; u_EndLine := 1; u_StartByte := 0; u_EndByte := 0; u_Signature := signature; u_Doc := doc;
  u_Hash := hashString hashed; u_Meta := "" |}.

(** [openAPIBasePath] *)
Fixpoint server_base (servers : list any) : string :=
  match servers with
  | [] => ""
  | s :: servers =>
      let raw := match asStringMap s with Some m => text_or_empty (entry m "url") | None => "" end in
      if String.eqb raw "" then server_base servers
      else
        let path := snd (splitURL (applyPlaceholderDefaults raw)) in
        if Contains path "{" then server_base servers
        else match Trim path "/" with "" => server_base servers | p => p end
  end.
Definition openAPIBasePath (root : list (string * any)) : string :=
  match entry root "servers" with
  | ASeq servers => server_base servers
  | _ => Trim (text_or_empty (entry root "basePath")) "/"
  end.

(** [openAPIRoutes]; no route is nil. *)
Definition openAPIMethods : list string := ["get"; "post"; "put"; "delete"; "patch"; "head"; "options"].
Definition openapi_route (path : string) (ops : list (string * any)) (method : string) : option ASTUnit :=
  match asStringMap (entry ops method) with
  | None => None
  | Some op =>
      let m := ToUpper method in
      Some (doc_unit KindHTTPRoute (m +:+ " " +:+ path) (routeKey m path) ("path:" +:+ path) (text_or_empty (entry op "summary"))
              ("openapi:" +:+ m +:+ " " +:+ path))
  end.
Definition openapi_path (base : string) (paths : list (string * any)) (key : string) : list ASTUnit :=
  match asStringMap (entry paths key) with
  | None => []
  | Some ops => omap (openapi_route (joinPath base key) ops) openAPIMethods
  end.
Definition openAPIRoutes (doc : any) : list ASTUnit :=
  match asStringMap doc with
  | None => []
  | Some root =>
      if is_nil (entry root "openapi") && is_nil (entry root "swagger") then []
      else match asStringMap (entry root "paths") with
           | None => []
           | Some paths => concat (map (openapi_path (openAPIBasePath root) paths) (SortStrings (map fst paths)))
           end
  end.

(** [asyncAPIChannels] *)
Record channelInfo := { ch_name : string; ch_description : string; ch_ops : list string }.
Definition channel_of (kv : string * any) : option channelInfo :=
  match asStringMap (snd kv) with
  | None => None
  | Some ch => Some {|
      ch_name := match text_or_empty (entry ch "address") with "" => fst kv | addr => addr end;
      ch_description := text_or_empty (entry ch "description");
      ch_ops := filter (λ op, negb (is_nil (entry ch op))) ["publish"; "subscribe"] |}
  end.
Definition channel_unit (ci : channelInfo) : ASTUnit :=
  doc_unit KindTopicChannel (ch_name ci) (Topic (ch_name ci)) (match ch_ops ci with [] => "" | ops => "ops:" +:+ Join ops "," end)
    (ch_description ci) ("asyncapi:" +:+ ch_name ci).
Definition asyncAPIChannels (doc : any) : option (list ASTUnit) :=
  match asStringMap doc with
  | None => None
  | Some root =>
      match entry root "asyncapi" with
      | ANil | AText "" => None
      | _ => Some (map channel_unit (SliceSort (λ a b, String.ltb (ch_name a) (ch_name b))
                                       (omap channel_of (default [] (asStringMap (entry root "channels"))))))
      end
  end.

(** The keys of a file, gathered in the order Go visits the flattened map, [visit], then
    sorted and cut. *)
Definition config_unit (values : gmap string string) (key : string) : ASTUnit :=
  let value := applyPlaceholderDefaults (default "" (values !! key)) in
  doc_unit KindConfigKey (lastComponent key) (Config key) value "" (key +:+ "=" +:+ value).
Abbreviation key_visit := (gmap string string → list (string * string)).
Definition config_units (visit : key_visit) (values : gmap string string) : list ASTUnit :=
  map (config_unit values) (take maxConfigKeys (SortStrings (map fst (visit values)))).
Definition parse_document (visit : key_visit) (doc : option any) : list ASTUnit :=
  match doc with
  | None => []
  | Some doc =>
      match openAPIRoutes doc with
      | [] => match asyncAPIChannels doc with Some channels => channels | None => config_units visit (flatten "" doc ∅) end
      | routes => routes
      end
  end.
Definition property_line (values : gmap string string) (line : string) : gmap string string :=
  let line := TrimSpace line in
  if String.eqb line "" || HasPrefix line "#" || HasPrefix line "!" then values
  else match Cut (λ c, Ascii.eqb c "=" || Ascii.eqb c ":") line with
       | (_, None) | ("", _) => values
       | (key, Some val) =>
           let key := TrimSpace key in
           let val := TrimSpace val in
           if String.eqb key "" || String.eqb val "" then values else <[key := val]> values
       end.
Definition ParseConfig (unmarshal_yaml : string → option any) (visit : list (string * any) → list (string * any)) (visit_keys : key_visit)
    (lang content : string) : string + (list ASTUnit * list Edge) :=
  if String.eqb lang "yaml" then inr (parse_document visit_keys (unmarshal_yaml content), [])
  else if String.eqb lang "json" then inr (parse_document visit_keys (unmarshal_any visit content), [])
  else if String.eqb lang "properties" then inr (config_units visit_keys (foldl property_line ∅ (SplitByte content "010")), [])
  else inl ("unsupported config language: " +:+ lang).
End Config.

Example config_file :
  let q := λ s, quote +:+ s +:+ quote in
  match ParseConfig (λ s, s) (λ _, None) (λ ms, ms) map_to_list "json"
    ("{" +:+ q "kafka" +:+ ": {" +:+ q "topics" +:+ ": [" +:+ q "${T:orders}" +:+ ", 12, 1e6, null]}, " +:+ q "debug" +:+ ": true}") with
  | inr (us, _) => map (λ u, (u_Qualified u, u_Signature u)) us
  | inl _ => []
  end = [("config:debug", "true"); ("config:kafka.topics.0", "orders"); ("config:kafka.topics.1", "12"); ("config:kafka.topics.2", "1e+06")].
Proof. vm_compute. reflexivity. Qed.

Example api_file :
  let root := AMap [("swagger", AText "2.0"); ("basePath", AText "/api/");
                    ("paths", AMap [("/orders/{id}", AMap [("post", AMap []); ("get", AMap [("summary", AText "One order")])]); ("/health", ANil)])] in
  map (λ u, (u_Name u, u_Doc u)) (parse_document (λ s, s) map_to_list (Some root)) = [("GET /api/orders/{id}", "One order"); ("POST /api/orders/{id}", "")].
Proof. vm_compute. reflexivity. Qed.

(** A table created on one line is never closed: the statements that follow are read as its columns. *)
Example one_line_table_stays_open :
  map u_Qualified (fst (ParseSQL (λ s, s) (Join ["CREATE TABLE t (id INT);"; "INSERT INTO audit VALUES (1);"; "DROP VIEW v;"] (String "010" ""))))
  = ["db:t"; "db:t.insert"; "db:t.drop"].
Proof. vm_compute. reflexivity. Qed.

Example migration :
  map (λ u, (u_Qualified u, u_Signature u, u_StartLine u, u_EndLine u)) (fst (ParseSQL (λ s, s) (Join
    ["-- orders"; "create table if not exists shop.Orders ("; "  id BIGINT PRIMARY KEY, -- the key"; "  `user_id` TEXT NOT NULL,";
     "  PRIMARY KEY (id)"; ");"; "ALTER TABLE shop.orders ADD COLUMN Total numeric(10,2);"] (String "010" ""))))
  = [("db:shop.orders", "", 2, 6); ("db:shop.orders.id", "BIGINT", 3, 3); ("db:shop.orders.user_id", "TEXT", 4, 4);
     ("db:shop.orders.total", "numeric(10,2);", 7, 7)]%Z.
Proof. vm_compute. reflexivity. Qed.

Example contract_file :
  let lines := ["syntax = 'proto3';"; "package shop.v1;"; "message Order { // an order"; "  string id = 1;"; "  repeated Item items = 2;";
                "  message Item { string sku = 1; }"; "}"; "service Orders {"; "  rpc Get (GetRequest) returns (stream Order) {";
                "    option (google.api.http) = {"; "      get: " +:+ quote +:+ "/v1/orders/{id}" +:+ quote; "    };"; "  }";
                "  rpc Put(shop.v1.Order) returns (Empty);"; "}"] in
  let '(us, es) := ParseProto (λ s, s) "orders.proto" (Join lines (String "010" "")) in
  map (λ u, (u_Qualified u, u_StartLine u, u_EndLine u)) us
  = [("proto:shop.v1.Order", 3, 7); ("proto:shop.v1.Order.id", 4, 4); ("proto:shop.v1.Order.items", 5, 5);
     ("proto:shop.v1.Order.Item", 6, 6); ("grpc:shop.v1.Orders", 8, 15); ("grpc:shop.v1.Orders/Get", 9, 13);
     (routeKey "GET" "/v1/orders/{id}", 11, 11); ("grpc:shop.v1.Orders/Put", 14, 14)]%Z ∧
  map (λ e, (e_SrcID e, e_Kind e, e_DstName e)) es
  = [("#5", EdgeRPCRequest, "proto:shop.v1.GetRequest"); ("#5", EdgeRPCResponse, "proto:shop.v1.Order"); ("#6", EdgeHandledBy, "Get");
     ("#7", EdgeRPCRequest, "proto:shop.v1.shop.v1.Order"); ("#7", EdgeRPCResponse, "proto:shop.v1.Empty")].
Proof. vm_compute. split; reflexivity. Qed.
