(* ===== verification/ExtractGo.v ===== *)
(** * Units and edges of Go source ([internal/index/ast/lang_go.go])

    The extractor reads the syntax tree the Go grammar of tree-sitter makes of a
    file, twice: once for the declarations and what they bind names to, once for the
    calls.  The tree is an argument: nodes by their type and place, with their
    children in order, each with the name of its field and whether it is a named
    one. *)

From S2P Require Import Prelude GoStrings GoStrconv GoSort GoFloat GoRegexp GoJsonEncode Domain Store Contract MetaCodec Indexing Extract Detect Wrappers Schemas.
From Stdlib Require Import Strings.Ascii.

(** ** Syntax trees *)

Inductive Node := SyntaxNode (type : string) (place : Span) (children : list (string * bool * Node)).
Definition Type_ (n : Node) : string := let '(SyntaxNode t _ _) := n in t.
Definition Place (n : Node) : Span := let '(SyntaxNode _ p _) := n in p.
Definition Children (n : Node) : list Node := let '(SyntaxNode _ _ cs) := n in map snd cs.
Definition NamedChildren (n : Node) : list Node := let '(SyntaxNode _ _ cs) := n in map snd (filter (λ c, c.1.2 = true) cs).
Definition ChildByFieldName (n : Node) (field : string) : option Node :=
  let '(SyntaxNode _ _ cs) := n in snd <$> List.find (λ c, String.eqb c.1.1 field) cs.
Definition is_type (t : string) (n : Node) : bool := String.eqb (Type_ n) t.
(** A node and its ancestors, innermost first, as [aliasScope] climbs them. *)
Abbreviation lineage := (list (string * Span)).
Definition self (n : Node) : string * Span := (Type_ n, Place n).

(** [fileCtx.text], of a node or of nil *)
Definition text (fc : fileCtx) (n : Node) : string :=
  String.substring (Z.to_nat (sp_StartByte (Place n))) (Z.to_nat (sp_EndByte (Place n) - sp_StartByte (Place n))) (fc_src fc).
Definition text_of (fc : fileCtx) (n : option Node) : string := default "" (text fc <$> n).
Definition field_text (fc : fileCtx) (n : Node) (field : string) : string := text_of fc (ChildByFieldName n field).

(** [namedChildTexts], [argNodes], [literalElements], [firstChildOfType] *)
Definition namedChildTexts (fc : fileCtx) (n : option Node) : list string :=
  match n with Some n => map (text fc) (NamedChildren n) | None => [] end.
Definition argNodes (call : Node) (field : string) : list Node :=
  match ChildByFieldName call field with Some n => NamedChildren n | None => [] end.
Definition element_text (fc : fileCtx) (keyedType : string) (el : Node) : string :=
  match NamedChildren el with
  | _ :: v :: _ => if is_type keyedType el then text fc v else text fc el
  | _ => text fc el
  end.
Definition literalElements (fc : fileCtx) (body : Node) (keyedType : string) : list string :=
  map (element_text fc keyedType) (NamedChildren body).
Definition firstChildOfType (n : Node) (typ : string) : option Node := List.find (is_type typ) (Children n).

(** ** The state of the extractor *)

Record routeScope := { rs_start : Z; rs_end : Z; rs_prefix : string }.
Record goExtractor := {
  go_pkg : string; go_consts : gmap string string; go_aliases : aliasTable;
  go_writers : gmap string string; go_readers : gmap string string; go_clients : gmap string string;
  go_types : gmap string string; go_prefixes : gmap string string; go_scopes : list routeScope; go_regSvcs : list string;
  go_svcTypes : gmap string string; go_methodRecv : gmap nat string }.
Definition newGoExtractor : goExtractor := {|
  go_pkg := ""; go_consts := ∅; go_aliases := []; go_writers := ∅; go_readers := ∅; go_clients := ∅; go_types := ∅; go_prefixes := ∅;
  go_scopes := []; go_regSvcs := []; go_svcTypes := ∅; go_methodRecv := ∅ |}.

(** The tables of bindings, and a write to one of them. *)
Inductive binding :=
  | Const (name value : string) | Writer (name topic : string) | Reader (name topic : string) | Client (name service : string)
  | Typed (name typ : string) | Prefix (name path : string) | SvcType (name service : string) | MethodRecv (idx : nat) (typ : string)
  | Package (name : string) | Scope (s : routeScope) | RegSvc (service : string) | Alias (chain : lineage) (name expr : string).
Definition bind_ (b : binding) (g : goExtractor) : goExtractor := {|
  go_pkg := match b with Package p => p | _ => go_pkg g end;
  go_consts := match b with Const n v => <[n := v]> (go_consts g) | _ => go_consts g end;
  go_aliases := match b with Alias chain n e => record_alias chain n e (go_aliases g) | _ => go_aliases g end;
  go_writers := match b with Writer n t => <[n := t]> (go_writers g) | _ => go_writers g end;
  go_readers := match b with Reader n t => <[n := t]> (go_readers g) | _ => go_readers g end;
  go_clients := match b with Client n s => <[n := s]> (go_clients g) | _ => go_clients g end;
  go_types := match b with Typed n t => <[n := t]> (go_types g) | _ => go_types g end;
  go_prefixes := match b with Prefix n p => <[n := p]> (go_prefixes g) | _ => go_prefixes g end;
  go_scopes := match b with Scope s => go_scopes g ++ [s] | _ => go_scopes g end;
  go_regSvcs := match b with RegSvc s => go_regSvcs g ++ [s] | _ => go_regSvcs g end;
  go_svcTypes := match b with SvcType n s => <[n := s]> (go_svcTypes g) | _ => go_svcTypes g end;
  go_methodRecv := match b with MethodRecv i t => <[i := t]> (go_methodRecv g) | _ => go_methodRecv g end |}.
Definition binds (bs : list binding) (g : goExtractor) : goExtractor := foldl (λ g b, bind_ b g) g bs.

Definition consts_of (g : goExtractor) : resolver := const_resolve (go_consts g).
Definition qualify (g : goExtractor) (name : string) : string :=
  if String.eqb (go_pkg g) "" then name else go_pkg g +:+ "." +:+ name.

(** ** Collecting *)

(** [receiverType], [goEmbeddedServer] *)
Definition receiverType (fc : fileCtx) (n : Node) : string :=
  match ChildByFieldName n "receiver" with
  | None => ""
  | Some recv => match last (Fields (Trim (text fc recv) "()")) with Some t => TrimPrefix t "*" | None => "" end
  end.
Definition reGoUnimplemented : Regexp :=
  MustCompile "(?m)^\s*(?:[A-Za-z_][A-Za-z0-9_]*\.)?Unimplemented([A-Za-z0-9_]+)Server\s*$".
Definition goEmbeddedServer (decl : string) : string :=
  match FindStringSubmatch reGoUnimplemented decl with Some m => sql_group m 1 | None => "" end.

(** [findTopicField]: the first Topic below the node, in [None] that of one that has none. *)
Section Topic.
  Context (fc : fileCtx) (consts : gmap string string).
Definition topic_key (n : Node) : option (option string) :=
  match NamedChildren n with
  | k :: v :: _ =>
      if is_type "keyed_element" n && String.eqb (text fc k) "Topic"
      then Some (const_resolve consts (TrimLeft (TrimSpace (text fc v)) "&*")) else None
  | _ => None
  end.
Fixpoint findTopicField (n : Node) : option string :=
  match topic_key n with
  | Some topic => topic
  | None =>
      let '(SyntaxNode _ _ cs) := n in
      (fix below (cs : list (string * bool * Node)) : option string :=
         match cs with
         | [] => None
         | (_, named, c) :: cs => match (if named : bool then findTopicField c else None) with Some v => Some v | None => below cs end
         end) cs
  end.
End Topic.

(** [recordStringBinding], [recordTypedNames] *)
Definition recordStringBinding (nameNode valueNode : option Node) (st : goExtractor * fileCtx) : goExtractor * fileCtx :=
  let '(g, fc) := st in
  match nameNode, valueNode with
  | Some nameNode, Some valueNode =>
      match unquote (text fc valueNode) with
      | Some v => let name := text fc nameNode in (bind_ (Const name v) g, if hasMemdb fc then publishConst name v fc else fc)
      | None => st
      end
  | _, _ => st
  end.
Definition recordTypedNames (fc : fileCtx) (n : Node) (g : goExtractor) : goExtractor :=
  let typ := field_text fc n "type" in
  if String.eqb typ "" then g
  else binds (map (λ c, Typed (text fc c) typ) (filter (λ c, is_type "field_identifier" c || is_type "identifier" c) (NamedChildren n))) g.

(** [prefixAt] *)
Definition nearer_scope (pos : Z) (best : string * Z) (s : routeScope) : string * Z :=
  if ((rs_start s <=? pos) && (pos <? rs_end s) && (rs_end s - rs_start s <? snd best))%Z
  then (rs_prefix s, rs_end s - rs_start s)%Z else best.
Definition prefixAt (g : goExtractor) (object : string) (pos : Z) : string :=
  match go_prefixes g !! object with
  | Some p => p
  | None => fst (foldl (nearer_scope pos) ("", 2 ^ 62)%Z (go_scopes g))
  end.
(** The receiver of a call, when its function is a selector. *)
Definition operand_of (fc : fileCtx) (fn : option Node) : string :=
  match fn with Some fn => if is_type "selector_expression" fn then field_text fc fn "operand" else "" | None => "" end.

(** [recordRouterScope] *)
Definition rooted_literal (s : string) : option string :=
  match unquote s with Some p => if HasPrefix p "/" then Some p else None | None => None end.
Definition recordRouterScope (fc : fileCtx) (call : Node) (g : goExtractor) : goExtractor :=
  match ChildByFieldName call "function" with
  | None => g
  | Some fn =>
      if negb (existsb (String.eqb (lastComponent (text fc fn))) ["Route"; "Mount"; "Group"]) then g
      else match argNodes call "arguments" with
      | path :: (_ :: _) as rest =>
          match rooted_literal (text fc path) with
          | None => g
          | Some prefix =>
              let full := joinPath (prefixAt g (operand_of fc (Some fn)) (sp_StartByte (Place call))) prefix in
              binds (map (λ a, Scope {| rs_start := sp_StartByte (Place a); rs_end := sp_EndByte (Place a); rs_prefix := full |})
                         (filter (is_type "func_literal") (drop 1 rest))) g
          end
      | _ => g
      end
  end.

(** [recordAssignment], for the first name and the first value of a statement. *)
Definition literal_type (fc : fileCtx) (n : option Node) : option string :=
  match n with Some n => if is_type "composite_literal" n then text fc <$> ChildByFieldName n "type" else None | None => None end.
Definition assigned_alias (fc : fileCtx) (chain : lineage) (name : string) (val : Node) : list binding :=
  if is_type "identifier" val || is_type "selector_expression" val then [Alias chain name (text fc val)]
  else if is_type "composite_literal" val then match literal_type fc (Some val) with Some t => [Typed name t] | None => [] end
  else if is_type "unary_expression" val then match literal_type fc (ChildByFieldName val "operand") with Some t => [Typed name t] | None => [] end
  else [].
Definition assigned_topic (fc : fileCtx) (g : goExtractor) (name : string) (val : Node) : list binding :=
  let valText := text fc val in
  match findTopicField fc (go_consts g) val with
  | None => []
  | Some topic =>
      if Contains valText "Writer" || Contains valText "Producer" then [Writer name topic]
      else if Contains valText "Reader" || Contains valText "Consumer" then [Reader name topic] else []
  end.
Definition generated (prefix suffix fn : string) : option string :=
  if HasPrefix fn prefix && HasSuffix fn suffix && (String.length prefix + String.length suffix <? String.length fn)
  then Some (TrimSuffix (TrimPrefix fn prefix) suffix) else None.
(** What a call binds its result to: an environment variable, the prefix of a router, or the call itself. *)
Definition assigned_call (fc : fileCtx) (chain : lineage) (g : goExtractor) (name : string) (val : Node) : list binding :=
  let fn := lastComponent (field_text fc val "function") in
  match generated "New" "Client" fn with Some svc => [Client name svc] | None => [] end ++
  match (if String.eqb fn "Getenv"
         then match namedChildTexts fc (ChildByFieldName val "arguments") with [a] => unquote a | _ => None end else None) with
  | Some lit => [Const name ("${" +:+ lit +:+ "}")]
  | None =>
      match (if String.eqb fn "Group" || String.eqb fn "Route"
             then match argNodes val "arguments" with a :: _ => rooted_literal (text fc a) | [] => None end else None) with
      | Some p => [Prefix name (joinPath (prefixAt g (operand_of fc (ChildByFieldName val "function")) (sp_StartByte (Place val))) p)]
      | None => [Alias chain name (text fc val)]
      end
  end.
Definition recordAssignment (fc : fileCtx) (chain : lineage) (n : Node) (g : goExtractor) : goExtractor :=
  match NamedChildren <$> ChildByFieldName n "left", NamedChildren <$> ChildByFieldName n "right" with
  | Some (l :: _), Some (val :: _) =>
      let name := TrimPrefix (text fc l) "*" in
      match unquote (text fc val) with
      | Some v => bind_ (Const name v) g
      | None =>
          let g := match (if is_type "identifier" val then go_consts g !! text fc val else None) with
                   | Some v => bind_ (Const name v) g
                   | None => g
                   end in
          let g := binds (assigned_alias fc chain name val ++ assigned_topic fc g name val) g in
          if is_type "call_expression" val then binds (assigned_call fc chain g name val) g else g
      end
  | _, _ => g
  end.

(** [collect]: what one node declares. *)
Definition declare (n : Node) (kind name qualified sig : string) (fc : fileCtx) : nat * fileCtx :=
  addUnit (Place n) kind name qualified sig (extractLineComments (fc_src fc) (Z.to_nat (sp_StartRow (Place n))) "//") fc.
Definition collect_type (n : Node) (name : string) (st : goExtractor * fileCtx) : goExtractor * fileCtx :=
  let '(g, fc) := st in
  let '(_, fc) := declare n "type" name (qualify g name) "" fc in
  let g := match goEmbeddedServer (text fc n) with "" => g | svc => bind_ (SvcType name svc) g end in
  let tbl := tableName name in
  (g, if Contains (text fc n) ("gorm:" +:+ quote) && negb (String.eqb tbl "")
      then snd (declare n KindDBTable tbl (DB tbl) ("entity:" +:+ name) fc) else fc).
Definition collect_node (chain : lineage) (n : Node) (st : goExtractor * fileCtx) : goExtractor * fileCtx :=
  let '(g, fc) := st in
  let isa t := is_type t n in
  let name := field_text fc n "name" in
  if isa "package_clause" then
    (match firstChildOfType n "package_identifier" with Some id => bind_ (Package (text fc id)) g | None => g end, fc)
  else if isa "function_declaration" then
    (g, if String.eqb name "" then fc else snd (declare n "function" name (qualify g name) (field_text fc n "parameters") fc))
  else if isa "method_declaration" then
    if String.eqb name "" then st
    else
      let recv := receiverType fc n in
      let qualified := if String.eqb recv "" then qualify g name else qualify g (recv +:+ "." +:+ name) in
      let '(idx, fc) := declare n "method" name qualified (field_text fc n "parameters") fc in
      (if String.eqb recv "" then g else bind_ (MethodRecv idx recv) g, fc)
  else if isa "type_spec" then (if String.eqb name "" then st else collect_type n name st)
  else if isa "field_declaration" || isa "parameter_declaration" then (recordTypedNames fc n g, fc)
  else if isa "const_spec" || isa "var_spec" then recordStringBinding (ChildByFieldName n "name") (ChildByFieldName n "value") st
  else if isa "short_var_declaration" || isa "assignment_statement" then (recordAssignment fc chain n g, fc)
  else if isa "call_expression" then (recordRouterScope fc n g, fc)
  else st.
Fixpoint collect (above : lineage) (n : Node) (st : goExtractor * fileCtx) : goExtractor * fileCtx :=
  let chain := self n :: above in
  let '(SyntaxNode _ _ cs) := n in
  (fix below (cs : list (string * bool * Node)) (st : goExtractor * fileCtx) : goExtractor * fileCtx :=
     match cs with [] => st | (_, _, c) :: cs => below cs (collect chain c st) end) cs (collect_node chain n st).

(** ** Tables *)

Definition goRouteMethods : gmap string string := list_to_map
  [("Get", "GET"); ("Post", "POST"); ("Put", "PUT"); ("Delete", "DELETE"); ("Patch", "PATCH"); ("Head", "HEAD"); ("Options", "OPTIONS");
   ("GET", "GET"); ("POST", "POST"); ("PUT", "PUT"); ("DELETE", "DELETE"); ("PATCH", "PATCH")].
Definition goHTTPRule : httpClientRule := {|
  hr_Object := object_by ["http"; "client"] ["Client"] [] false;
  hr_Methods := [("Get", "GET"); ("Post", "POST"); ("Head", "HEAD"); ("PostForm", "POST")]; hr_URLArg := 0; hr_RecvType := any_object;
  hr_MethodArg := 0; hr_MethodFromField := ""; hr_Loose := false; hr_URLFromFields := false; hr_RelativeURL := false; hr_Conf := ConfCrossFile |}.
Definition goSubscribeTopics : kafkaConsumeRule := {|
  cr_Object := any_object; cr_Methods := ["SubscribeTopics"]; cr_TopicArg := 0; cr_TopicArgList := true; cr_TopicsFromFields := [];
  cr_Topic := no_topic; cr_RecvType := any_object; cr_Loose := false; cr_NeedsBroker := false; cr_Conf := ConfHigh |}.
Definition goDetectors : detectorSet := {|
  ds_HTTP := [goHTTPRule]; ds_Produce := goBrokerProduce; ds_Consume := goSubscribeTopics :: goBrokerConsume; ds_Broker := true |}.
Definition goKafkaProduceMethods : list string := ["WriteMessages"; "SendMessage"; "SendMessages"; "Produce"; "Publish"].
Definition goKafkaConsumeMethods : list string := ["ReadMessage"; "FetchMessage"; "Consume"; "ConsumeClaim"; "ReadMessages"].
Definition goGormWriteMethods : list string := ["Create"; "CreateInBatches"; "Save"; "Update"; "Updates"; "Delete"; "FirstOrCreate"].
Definition goGormReadMethods : list string := ["Find"; "First"; "Last"; "Take"; "Scan"; "Pluck"; "Count"; "FindInBatches"].
Definition memdbReadMethods : list string :=
  ["First"; "FirstWatch"; "Last"; "LastWatch"; "Get"; "GetReverse"; "LongestPrefix"; "LowerBound"; "ReverseLowerBound"].
Definition memdbWriteMethods : list string := ["Insert"; "Delete"; "DeleteAll"; "DeletePrefix"].
Definition one_of (names : list string) (name : string) : bool := existsb (String.eqb name) names.

(** ** Entities and receivers *)

Definition reGormTable : Regexp := MustCompile ("\bTable\(\s*" +:+ quote +:+ "([^" +:+ quote +:+ "]+)" +:+ quote).
Definition reGormModel : Regexp := MustCompile "\bModel\(\s*([&*]?[A-Za-z_][A-Za-z0-9_.\[\]]*)".
Definition entityTable (g : goExtractor) (expr : string) : string :=
  let e := TrimLeft (TrimSpace expr) "&*" in
  let e := match Cut (Ascii.eqb "{") e with
           | (String c r, Some _) => String c r
           | _ => default e (go_types g !! e)
           end in
  let e := lastComponent (TrimLeft (TrimSpace e) "*&[]") in
  if negb (first_byte is_upper_byte e) || negb (isIdentLike e) then "" else tableName e.
Definition gormTable (g : goExtractor) (object : string) (args : list string) : string :=
  match FindStringSubmatch reGormTable object with
  | Some m => ToLower (sql_group m 1)
  | None =>
      match (match FindStringSubmatch reGormModel object with Some m => entityTable g (sql_group m 1) | None => "" end) with
      | "" => match args with a :: _ => entityTable g a | [] => "" end
      | t => t
      end
  end.
Definition goTxnReceiver (object : string) : bool :=
  let name := TrimRight (lastComponent object) "0123456789" in
  one_of ["tx"; "txn"; "Tx"; "Txn"] name || HasSuffix name "Tx" || HasSuffix name "Txn".
Definition dbReceiverHints : list string := ["db"; "gorm"; "tx"; "conn"; "session"; "sql"].
Definition isDBReceiver (object : string) : bool := existsb (Contains (ToLower (lastComponent object))) dbReceiverHints.
Definition grpcService (g : goExtractor) (fc : fileCtx) (object : string) : string :=
  default (inlineStubService object (hasGRPC fc)) (go_clients g !! object).

(** ** Arguments *)

Definition goStringsIn (consts : gmap string string) : listResolver := λ expr,
  let expr := match Cut (Ascii.eqb "{") expr with (_, Some after) => TrimSuffix after "}" | (_, None) => expr end in
  omap (λ part, const_resolve consts (TrimSpace part)) (SplitTopLevel expr ",").
Definition singleCallArg (expr : string) : option string :=
  let expr := TrimSpace expr in
  match Cut (Ascii.eqb "(") expr with
  | (String _ _, Some after) =>
      if negb (HasSuffix expr ")") then None
      else let inner := TrimSpace (TrimSuffix after ")") in
           if String.eqb inner "" || negb (length (SplitTopLevel inner ",") =? 1) then None else Some inner
  | _ => None
  end.
Definition routePathArg (g : goExtractor) (arg : string) : option string :=
  match consts_of g arg with
  | Some v => Some v
  | None => singleCallArg arg ≫= consts_of g
  end.
(** [matchRoute]: the method, the path and the handler. *)
Definition matchRoute (g : goExtractor) (name : string) (args : list string) : option (string * string * string) :=
  first ← head args ≫= routePathArg g;
  let handlerArg := match args with _ :: _ :: _ => default "" (last args) | _ => "" end in
  match (if HasPrefix first "/" then goRouteMethods !! name else None) with
  | Some m => Some (m, first, handlerArg)
  | None =>
      if negb (one_of ["HandleFunc"; "Handle"] name) then None
      else if HasPrefix first "/" then Some ("ANY", first, handlerArg)
      else match Cut (Ascii.eqb " ") first with
           | (m, Some path) =>
               if HasPrefix path "/" && (bool_decide (is_Some (goRouteMethods !! m)) || String.eqb m (ToUpper m)) then Some (m, path, handlerArg) else None
           | (_, None) => None
           end
  end.

(** [compositeFields]: the keyed elements below the arguments of a call. *)
Fixpoint keyed_fields (fc : fileCtx) (n : Node) (fields : gmap string string) : gmap string string :=
  let fields := match NamedChildren n with
                | k :: v :: _ => if is_type "keyed_element" n then <[text fc k := text fc v]> fields else fields
                | _ => fields
                end in
  let '(SyntaxNode _ _ cs) := n in
  (fix below (cs : list (string * bool * Node)) (fields : gmap string string) : gmap string string :=
     match cs with [] => fields | (_, named, c) :: cs => below cs (if (named : bool) then keyed_fields fc c fields else fields) end) cs fields.
Definition compositeFields (fc : fileCtx) (call : Node) : gmap string string :=
  match ChildByFieldName call "arguments" with Some n => keyed_fields fc n ∅ | None => ∅ end.

(** [enclosingFields]: the text of the unit, line by line. *)
Definition field_line (line : string) : option (string * string) :=
  let line := TrimSpace (TrimSuffix (TrimSpace line) ",") in
  match Cut (Ascii.eqb ":") line with
  | (key, Some val) =>
      let val := TrimSpace val in
      if ContainsByte " " key || Contains key quote || String.eqb val "" || negb (isIdentLike key) then None else Some (key, val)
  | (_, None) => None
  end.
Definition enclosingFields (fc : fileCtx) (idx : Z) : gmap string string :=
  match (if (idx <? 0)%Z then None else fc_units fc !! Z.to_nat idx) with
  | None => ∅
  | Some u =>
      let body := String.substring (Z.to_nat (u_StartByte u)) (Z.to_nat (u_EndByte u - u_StartByte u)) (fc_src fc) in
      foldl (λ fields line, match field_line line with Some (k, v) => <[k := v]> fields | None => fields end) ∅ (SplitByte body "010")
  end.
Definition anyTopic (m : gmap string string) : string := match map_to_list m with [(_, v)] => v | _ => "" end.

(** ** Calls *)

(** What the steps of [handleCall] share. *)
Record goCall := {
  gc_node : Node; gc_fnText : string; gc_name : string; gc_operand : string; gc_args : list string; gc_line : Z; gc_pos : Z; gc_src : Z }.
Definition call_of (fc : fileCtx) (call fn : Node) : goCall :=
  let pos := sp_StartByte (Place call) in {|
  gc_node := call; gc_fnText := text fc fn; gc_name := lastComponent (text fc fn); gc_operand := operand_of fc (Some fn);
  gc_args := namedChildTexts fc (ChildByFieldName call "arguments"); gc_line := sp_StartRow (Place call) + 1; gc_pos := pos;
  gc_src := enclosingUnit pos callableKinds fc |}.
Definition recv_type (g : goExtractor) (c : goCall) : string := default "" (go_types g !! lastComponent (gc_operand c)).
Definition aliases_for (g : goExtractor) (c : goCall) (fields : gmap string string) : gmap string string :=
  relevant (go_aliases g) (gc_pos c) (gc_args c) fields.
Definition call_meta (g : goExtractor) (c : goCall) (fields : gmap string string) : EdgeMeta :=
  topic_meta "" (gc_args c) fields (aliases_for g c fields).

Section Calls.
  Context (visit : gmap string string → list (string * string)).

(** 1. A route is registered. *)
Definition call_route (g : goExtractor) (c : goCall) (fc : fileCtx) : option fileCtx :=
  '(method, route, handler) ← matchRoute g (gc_name c) (gc_args c);
  let route := joinPath (prefixAt g (gc_operand c) (gc_pos c)) route in
  let '(idx, fc) := addUnit (Place (gc_node c)) KindHTTPRoute (method +:+ " " +:+ route) (routeKey method route) ("path:" +:+ route) "" fc in
  Some (if String.eqb handler "" then fc else addEdge (Z.of_nat idx) EdgeHandledBy (lastComponent handler) (gc_line c) ConfHigh None fc).
Definition call_generic (g : goExtractor) (c : goCall) (fc : fileCtx) : option fileCtx :=
  let '(ok, fc) := applyGenericRoute (Place (gc_node c)) (gc_fnText c) (gc_args c) (consts_of g) (Some (goStringsIn (go_consts g)))
                     (prefixAt g (gc_operand c) (gc_pos c)) fc in
  if ok then Some fc else None.

(** 2. A client of a service is called. *)
Definition rpc_edge (g : goExtractor) (c : goCall) (svc : string) (conf : f32) (fc : fileCtx) : fileCtx :=
  contractSite ContractKindRPC true
    (addEdge (gc_src c) EdgeRPCCall (grpcKey svc (gc_name c)) (gc_line c) conf (Some (call_meta g c (compositeFields fc (gc_node c)))) fc).
Definition call_rpc (g : goExtractor) (c : goCall) (fc : fileCtx) : option fileCtx :=
  let svc := grpcService g fc (gc_operand c) in
  if negb (String.eqb svc "") && negb (String.eqb (gc_name c) "") then Some (rpc_edge g c svc ConfHigh fc) else None.

(** 4. A topic bound to a writer or a reader, in the message, or the only one of the file. *)
Definition bound_topic (g : goExtractor) (bound : gmap string string) (c : goCall) (fc : fileCtx) : string * f32 :=
  match default "" (bound !! gc_operand c) with
  | "" =>
      match default "" (ChildByFieldName (gc_node c) "arguments" ≫= findTopicField fc (go_consts g)) with
      | "" => (anyTopic bound, ConfWeak)
      | t => (t, ConfHigh)
      end
  | t => (t, ConfHigh)
  end.
Definition call_produce (g : goExtractor) (c : goCall) (fc : fileCtx) : option fileCtx :=
  if negb (one_of goKafkaProduceMethods (gc_name c)) then None
  else let '(topic, conf) := bound_topic g (go_writers g) c fc in
       if String.eqb topic "" then None
       else let fc := contractSite ContractKindMessaging true fc in
            let fields := enclosingFields fc (gc_src c) in
            let '(key, name) := topicEdgeKey topic in
            Some (addEdge (gc_src c) EdgeProduces key (gc_line c) conf (Some (topic_meta name [] fields (aliases_for g c fields))) fc).
Definition call_consume (g : goExtractor) (c : goCall) (fc : fileCtx) : option fileCtx :=
  if negb (one_of goKafkaConsumeMethods (gc_name c)) then None
  else let '(topic, conf) := bound_topic g (go_readers g) c fc in
       if String.eqb topic "" then None
       else let '(key, name) := topicEdgeKey topic in
            Some (addEdge (gc_src c) EdgeConsumes key (gc_line c) conf (Some (topic_meta name [] ∅ ∅)) (contractSite ContractKindMessaging true fc)).
Definition messaging_name (c : goCall) : bool := one_of goKafkaProduceMethods (gc_name c) || one_of goKafkaConsumeMethods (gc_name c).

(** 5. The declared rules; a site that only its name makes one of messaging counts when there is a broker. *)
Definition go_site (g : goExtractor) (c : goCall) (fc : fileCtx) : callSite := {|
  cs_Callee := gc_fnText c; cs_Name := gc_name c; cs_Object := gc_operand c; cs_RecvType := recv_type g c; cs_Args := gc_args c;
  cs_Kwargs := ∅; cs_Fields := if one_of goMessageFieldMethods (gc_name c) then compositeFields fc (gc_node c) else ∅;
  cs_Aliases := aliases_for g c ∅; cs_Line := gc_line c; cs_Src := gc_src c |}.
Definition messaging_candidates (fc : fileCtx) : Z := cc_Candidates (counts_of ContractKindMessaging (fc_cov fc)).
Definition call_detected (g : goExtractor) (c : goCall) (fc : fileCtx) : bool * fileCtx :=
  let cs := go_site g c fc in
  let before := messaging_candidates fc in
  let '(done, fc) := runDetectors visit goDetectors cs (consts_of g) (Some (goStringsIn (go_consts g))) fc in
  (done, if negb done && messaging_name c && (messaging_candidates fc =? before)%Z && brokerEvidence fc cs
         then contractSite ContractKindMessaging false fc else fc).
Definition call_stub (g : goExtractor) (c : goCall) (fc : fileCtx) : option fileCtx :=
  if (gc_src c <? 0)%Z || negb (first_byte is_upper_byte (gc_name c)) then None
  else match grpcStubService (recv_type g c) (hasGRPC fc) with "" => None | svc => Some (rpc_edge g c svc ConfCrossFile fc) end.

(** 5b. A request made from a method and a URL. *)
Definition http_meta (g : goExtractor) (c : goCall) (m path host : string) : EdgeMeta := {|
  em_Args := gc_args c; em_Fields := ∅; em_Aliases := aliases_for g c ∅; em_Topic := ""; em_Path := path; em_Method := m; em_Host := host;
  em_Receiver := ""; em_RecvType := ""; em_TopicRef := ""; em_Source := ""; em_BaseConf := S754_zero false |}.
Definition call_request (g : goExtractor) (c : goCall) (fc : fileCtx) : bool * fileCtx :=
  match (if String.eqb (gc_name c) "NewRequest" then Some O else if String.eqb (gc_name c) "NewRequestWithContext" then Some 1 else None) with
  | None => (false, fc)
  | Some mi =>
      match drop mi (gc_args c) with
      | ma :: ua :: _ =>
          let m := httpMethodFromArg ma (consts_of g) in
          match resolveURL ua (consts_of g) ConfCrossFile with
          | Some (u, conf) =>
              let '(host, path) := splitURL u in
              (true, addEdge (gc_src c) EdgeHTTPCall (routeKey m path) (gc_line c) conf (Some (http_meta g c m path host))
                       (contractSite ContractKindHTTP true fc))
          | None => (false, httpCandidate (gc_src c) ua ma (contractSite ContractKindHTTP false fc))
          end
      | _ => (false, fc)
      end
  end.

(** 5c. Data access. *)
Definition memdbAccess (g : goExtractor) (c : goCall) (fc : fileCtx) : bool * fileCtx :=
  match (if one_of memdbReadMethods (gc_name c) then Some EdgeReadsFrom else if one_of memdbWriteMethods (gc_name c) then Some EdgeWritesTo else None),
        gc_args c with
  | Some kind, a :: _ =>
      if (gc_src c <? 0)%Z || negb (goTxnReceiver (gc_operand c)) || negb (hasMemdb fc) then (false, fc)
      else match consts_of g a with
      | Some v =>
          let tbl := sqlTableName v in
          let fc := contractSite ContractKindDB (negb (String.eqb tbl "")) fc in
          (true, if String.eqb tbl "" then fc else addEdge (gc_src c) kind (DB tbl) (gc_line c) ConfHigh (Some (call_meta g c ∅)) fc)
      | None =>
          let fc := contractSite ContractKindDB false fc in
          let ident := TrimSpace a in
          (true, if isAliasExpr ident then tableCandidate (gc_src c) ident kind (gc_line c) (gc_args c) fc else fc)
      end
  | _, _ => (false, fc)
  end.
Definition gormAccess (g : goExtractor) (c : goCall) (fc : fileCtx) : fileCtx :=
  let writes := one_of goGormWriteMethods (gc_name c) in
  if (gc_src c <? 0)%Z || negb (writes || one_of goGormReadMethods (gc_name c)) then fc
  else
    let tbl := gormTable g (gc_operand c) (gc_args c) in
    let named := negb (String.eqb tbl "") in
    let fc := if named || isDBReceiver (gc_operand c) then contractSite ContractKindDB named fc else fc in
    if named then addEdge (gc_src c) (if writes then EdgeWritesTo else EdgeReadsFrom) (DB tbl) (gc_line c) ConfCrossFile (Some (call_meta g c ∅)) fc else fc.

(** 7. The call itself. *)
Definition plain_meta (g : goExtractor) (c : goCall) : EdgeMeta := {|
  em_Args := gc_args c; em_Fields := ∅; em_Aliases := aliases_for g c ∅; em_Topic := ""; em_Path := ""; em_Method := ""; em_Host := "";
  em_Receiver := gc_operand c; em_RecvType := recv_type g c; em_TopicRef := ""; em_Source := ""; em_BaseConf := S754_zero false |}.
Definition call_plain (g : goExtractor) (c : goCall) (fc : fileCtx) : fileCtx :=
  let '(claimed, fc) := memdbAccess g c fc in
  let fc := if claimed then fc else gormAccess g c fc in
  let fc := snd (sqlEdgesFromArgs (gc_src c) (gc_line c) (gc_args c) fc) in
  if negb (String.eqb (gc_name c) "") && (0 <=? gc_src c)%Z
  then addEdge (gc_src c) EdgeCall (gc_name c) (gc_line c) ConfHeuristic (Some (plain_meta g c)) fc else fc.

(** [handleCall] *)
Definition first_of (steps : list (fileCtx → option fileCtx)) (fc : fileCtx) : option fileCtx := head (omap (λ f, f fc) steps).
Definition call_rest (g : goExtractor) (c : goCall) (fc : fileCtx) : fileCtx :=
  match first_of [call_produce g c; call_consume g c] fc with
  | Some fc => fc
  | None =>
      let '(done, fc) := call_detected g c fc in
      if done then fc
      else match call_stub g c fc with
      | Some fc => fc
      | None => let '(done, fc) := call_request g c fc in if done then fc else call_plain g c fc
      end
  end.
Definition handleCall (call : Node) (st : goExtractor * fileCtx) : goExtractor * fileCtx :=
  let '(g, fc) := st in
  match ChildByFieldName call "function" with
  | None => st
  | Some fn =>
      let c := call_of fc call fn in
      match first_of [call_route g c; call_generic g c; call_rpc g c] fc with
      | Some fc => (g, fc)
      | None =>
          match generated "Register" "Server" (gc_name c) with
          | Some svc => (bind_ (RegSvc svc) g, fc)
          | None => (g, call_rest g c fc)
          end
      end
  end.

(** [handleRouteLiteral] *)
Definition route_element (el : Node) : Node :=
  match NamedChildren el with [inner] => if is_type "literal_element" el then inner else el | _ => el end.
Definition handleRouteLiteral (n : Node) (st : goExtractor * fileCtx) : goExtractor * fileCtx :=
  let '(g, fc) := st in
  let typ := Trim (field_text fc n "type") "[]*&" in
  match (if routeNameHint typ then ChildByFieldName n "body" else None) with
  | None => st
  | Some body =>
      let register (place body : Node) fc :=
        snd (applyGenericRoute (Place place) typ (literalElements fc body "keyed_element") (consts_of g) (Some (goStringsIn (go_consts g))) "" fc) in
      match filter (λ el, is_type "literal_value" el = true) (map route_element (NamedChildren body)) with
      | [] => (g, register n body fc)
      | els => (g, foldl (λ fc el, register el el fc) fc els)
      end
  end.

(** [walkCalls] *)
Definition walk_node (n : Node) (st : goExtractor * fileCtx) : goExtractor * fileCtx :=
  if is_type "call_expression" n then handleCall n st else if is_type "composite_literal" n then handleRouteLiteral n st else st.
Fixpoint walkCalls (n : Node) (st : goExtractor * fileCtx) : goExtractor * fileCtx :=
  let '(SyntaxNode _ _ cs) := n in
  (fix below (cs : list (string * bool * Node)) (st : goExtractor * fileCtx) : goExtractor * fileCtx :=
     match cs with [] => st | (_, _, c) :: cs => below cs (walkCalls c st) end) cs (walk_node n st).

(** [markRPCImplementations] *)
Definition implements (i : nat) (u : ASTUnit) (conf : f32) (fc : fileCtx) (svc : string) : fileCtx :=
  addEdge (Z.of_nat i) EdgeImplementsRPC (grpcKey svc (u_Name u)) (u_StartLine u) conf None fc.
Definition mark_unit (g : goExtractor) (fc : fileCtx) (iu : nat * ASTUnit) : fileCtx :=
  let '(i, u) := iu in
  if negb (String.eqb (u_Kind u) "method") || negb (first_byte is_upper_byte (u_Name u)) then fc
  else match default "" (go_svcTypes g !! default "" (go_methodRecv g !! i)) with
  | "" =>
      match go_regSvcs g with
      | [] => if Contains (u_Signature u) "Request" && Contains (u_Signature u) "context.Context" then implements i u ConfWeak fc "" else fc
      | svcs => foldl (implements i u ConfCrossFile) fc svcs
      end
  | svc => implements i u ConfHigh fc svc
  end.
Definition markRPCImplementations (g : goExtractor) (fc : fileCtx) : fileCtx := foldl (mark_unit g) fc (imap pair (fc_units fc)).

(** [extract] *)
Definition extract (root : Node) (fc : fileCtx) : fileCtx :=
  let st := collect [] root (newGoExtractor, fc) in
  let '(g, fc) := walkCalls root st in
  markRPCImplementations g fc.
End Calls.
