(* ===== verification/ExtractPython.v ===== *)
(** * Units and edges of Python source ([internal/index/ast/lang_python.go])

    The extractor reads the syntax tree four times over its named nodes: for the
    constants and aliases, for the prefixes of routers, for the declarations with
    their decorators, models and servicers, and for the calls. *)

From S2P Require Import Prelude GoStrings GoStrconv GoSort GoFloat GoRegexp GoJsonEncode Domain Store Contract MetaCodec Indexing Extract Detect Wrappers Schemas ExtractGo.
From Stdlib Require Import Strings.Ascii.

(** ** Over the named children of a node *)

Abbreviation children := (list (string * bool * Node)).
Definition each_named {S} (f : Node → S → S) : children → S → S :=
  fix go cs s := match cs with [] => s | (_, named, c) :: cs => go cs (if (named : bool) then f c s else s) end.
(** The first child in a field, with what to do there and what to do without one. *)
Definition on_field {S} (field : string) (f : Node → S → S) (none : S → S) : children → S → S :=
  fix go cs s := match cs with [] => none s | (fd, _, c) :: cs => if String.eqb fd field then f c s else go cs s end.
(** The last named child of one of some types. *)
Definition on_last {S} (types : list string) (f : Node → S → S) : children → (S → S) → S → S :=
  fix go cs k s := match cs with
                   | [] => k s
                   | (_, named, c) :: cs => go cs (if (named : bool) && one_of types (Type_ c) then f c else k) s
                   end.
Definition firstNamedOfType (n : Node) (typ : string) : option Node := List.find (is_type typ) (NamedChildren n).

(** ** The rules *)

Definition pyHTTPMethods : gmap string string := list_to_map
  [("get", "GET"); ("post", "POST"); ("put", "PUT"); ("delete", "DELETE"); ("patch", "PATCH"); ("head", "HEAD"); ("options", "OPTIONS")].
Definition pyProduceMethods : list string := ["send"; "produce"; "send_and_wait"; "publish"].
Definition pyHTTPClientObject : objectMatch := object_by ["requests"; "httpx"] [] ["client"; "session"] true.
Definition pyHTTPClientNoSession : objectMatch := object_by ["requests"; "httpx"] [] ["client"] true.
Definition pyHTTPRule (object : objectMatch) : httpClientRule := {|
  hr_Object := object; hr_Methods := map_to_list pyHTTPMethods; hr_URLArg := 0; hr_RecvType := any_object; hr_MethodArg := 0;
  hr_MethodFromField := ""; hr_Loose := false; hr_URLFromFields := false; hr_RelativeURL := true; hr_Conf := ConfCrossFile |}.
Definition pyProduce : list kafkaProduceRule := {|
  pr_Object := any_object; pr_Methods := ["send"; "produce"; "send_and_wait"]; pr_TopicArg := 0; pr_TopicFromField := ""; pr_Topic := no_topic;
  pr_RecvType := any_object; pr_OmitArgs := false; pr_Loose := false; pr_NeedsBroker := true; pr_Conf := ConfHigh |} :: pyBrokerProduce.
Definition py_consume (methods : list string) (lst needs : bool) : kafkaConsumeRule := {|
  cr_Object := any_object; cr_Methods := methods; cr_TopicArg := 0; cr_TopicArgList := lst; cr_TopicsFromFields := []; cr_Topic := no_topic;
  cr_RecvType := any_object; cr_Loose := false; cr_NeedsBroker := needs; cr_Conf := ConfHigh |}.
Definition pyConsume : list kafkaConsumeRule :=
  py_consume ["subscribe"] true true :: py_consume ["KafkaConsumer"; "AIOKafkaConsumer"] false false :: pyBrokerConsume.
Definition pyDetectors : detectorSet :=
  {| ds_HTTP := [pyHTTPRule pyHTTPClientObject]; ds_Produce := pyProduce; ds_Consume := pyConsume; ds_Broker := true |}.
Definition pyDetectorsORM : detectorSet :=
  {| ds_HTTP := [pyHTTPRule pyHTTPClientNoSession]; ds_Produce := pyProduce; ds_Consume := pyConsume; ds_Broker := true |}.
Definition pyDetectorsFor (fc : fileCtx) : detectorSet * objectMatch :=
  if hasSQLAlchemy fc then (pyDetectorsORM, pyHTTPClientNoSession) else (pyDetectors, pyHTTPClientObject).
Definition pyPrefixFactories : list string := ["APIRouter"; "Blueprint"].
Definition pyNonTaskReceivers : list string := ["self"; "cls"; "super"; "this"; "pool"; "executor"; "loop"].
Definition pyConsumerDecorators : list string := ["agent"; "on_event"; "subscribe"; "task"; "shared_task"].
Definition pySessionWriteMethods : list string := ["add"; "add_all"; "merge"; "delete"; "bulk_save_objects"].
Definition pySessionReadMethods : list string := ["query"; "get"].

(** ** The state of the extractor *)

Record pyExtractor := {
  py_consts : gmap string string; py_aliases : aliasTable; py_prefixes : gmap string string; py_topics : gmap string string;
  py_models : gmap string string; py_servicers : gmap string string; py_rpcSvc : string }.
Definition newPyExtractor : pyExtractor := {|
  py_consts := ∅; py_aliases := []; py_prefixes := ∅; py_topics := ∅; py_models := ∅; py_servicers := ∅; py_rpcSvc := "" |}.

Inductive py_binding :=
  | PyConst (name value : string) | PyAlias (chain : lineage) (name expr : string) | PyPrefix (name path : string) | PyTopic (name topic : string)
  | PyModel (name table : string) | PyServicer (name service : string) | PyService (service : string).
Definition py_bind (b : py_binding) (p : pyExtractor) : pyExtractor := {|
  py_consts := match b with PyConst n v => <[n := v]> (py_consts p) | _ => py_consts p end;
  py_aliases := match b with PyAlias chain n e => record_alias chain n e (py_aliases p) | _ => py_aliases p end;
  py_prefixes := match b with PyPrefix n v => <[n := v]> (py_prefixes p) | _ => py_prefixes p end;
  py_topics := match b with PyTopic n v => <[n := v]> (py_topics p) | _ => py_topics p end;
  py_models := match b with PyModel n v => <[n := v]> (py_models p) | _ => py_models p end;
  py_servicers := match b with PyServicer n v => <[n := v]> (py_servicers p) | _ => py_servicers p end;
  py_rpcSvc := match b with PyService v => v | _ => py_rpcSvc p end |}.

(** ** Expressions *)

(** [resolveString] *)
Definition env_reference (expr prefix : string) : option string :=
  match CutPrefix expr prefix with
  | Some rest =>
      match Cut (λ c, ContainsByte c ")],") rest with
      | (String c r, Some _) => (λ lit, "${" +:+ lit +:+ "}") <$> unquote (String c r)
      | _ => None
      end
  | None => None
  end.
Definition resolveString (consts : gmap string string) (expr : string) : option string :=
  let expr := TrimSpace expr in
  match unquote (TrimPrefix expr "f") with
  | Some v => if Contains v "{" then None else Some v
  | None =>
      head (option_list (consts !! expr) ++
            omap (λ prefix, CutPrefix expr prefix ≫= λ attr, consts !! attr) ["self."; "cls."] ++
            omap (env_reference expr) ["os.getenv("; "os.environ.get("; "os.environ["])
  end.
Definition resolve_kwarg (consts kwargs : gmap string string) (key : string) : option string :=
  resolveString consts (default "" (kwargs !! key)).

(** [qualify] *)
Definition py_qualify (scope name : string) : string := if String.eqb scope "" then name else scope +:+ "." +:+ name.

(** [pyCallArgs] *)
Definition pyCallArgs (fc : fileCtx) (call : Node) : list string * gmap string string :=
  let nodes := argNodes call "arguments" in
  (map (text fc) (filter (λ c, is_type "keyword_argument" c = false) nodes),
   foldl (λ kwargs c, if is_type "keyword_argument" c then <[field_text fc c "name" := field_text fc c "value"]> kwargs else kwargs) ∅ nodes).

(** [pyDictFields], [pyDictPairs], [pyHTTPKwargFields], [pyStringsIn].  A text of one opening brace, which
    a broken source can have for a value, is sliced out of its range by the code; it has no pairs here. *)
Definition unquoted (key : string) : string := default key (unquote key).
Fixpoint dict_fields (fc : fileCtx) (n : Node) (fields : gmap string string) : gmap string string :=
  let fields := if is_type "pair" n then <[unquoted (field_text fc n "key") := field_text fc n "value"]> fields else fields in
  let '(SyntaxNode _ _ cs) := n in each_named (dict_fields fc) cs fields.
Definition pyDictFields (fc : fileCtx) (call : Node) : gmap string string :=
  match ChildByFieldName call "arguments" with Some n => dict_fields fc n ∅ | None => ∅ end.
Definition pyDictPairs (expr : string) : gmap string string :=
  let expr := TrimSpace expr in
  match expr with
  | String "{"%char rest =>
      match but_last rest with
      | Some (body, "}"%char) =>
          foldl (λ out part, match SplitTopLevel part ":" with
                             | [k; v] => <[unquoted (TrimSpace k) := TrimSpace v]> out
                             | _ => out
                             end) ∅ (SplitTopLevel body ",")
      | _ => ∅
      end
  | _ => ∅
  end.
Definition pyHTTPKwargFields (kwargs : gmap string string) : gmap string string :=
  foldl (λ fields key, match kwargs !! key with Some v => pyDictPairs v ∪ fields | None => fields end) ∅ ["json"; "data"; "params"].
Definition pyStringsIn (consts : gmap string string) (expr : string) : list string :=
  omap (λ part, let part := TrimSpace part in match unquote part with Some v => Some v | None => consts !! part end)
       (SplitByte (Trim (TrimSpace expr) "[]()") ",").

(** What precedes the last component of a callee, when something does. *)
Definition callee_object (callee : string) : string :=
  match CutLast (Ascii.eqb ".") callee with Some (before, _) => before | None => "" end.

(** ** Constants and routers *)

(** [collectConsts] *)
Definition const_node (fc : fileCtx) (chain : lineage) (n : Node) (p : pyExtractor) : pyExtractor :=
  if negb (is_type "assignment" n) then p
  else match ChildByFieldName n "left", ChildByFieldName n "right" with
  | Some lhs, Some rhs =>
      if negb (is_type "identifier" lhs) then p
      else match resolveString (py_consts p) (text fc rhs) with
      | Some v => py_bind (PyConst (text fc lhs) v) p
      | None => if one_of ["identifier"; "attribute"; "call"] (Type_ rhs) then py_bind (PyAlias chain (text fc lhs) (text fc rhs)) p else p
      end
  | _, _ => p
  end.
Fixpoint collectConsts (fc : fileCtx) (above : lineage) (n : Node) (p : pyExtractor) : pyExtractor :=
  let chain := self n :: above in
  let '(SyntaxNode _ _ cs) := n in each_named (collectConsts fc chain) cs (const_node fc chain n p).

(** [collectRouters] *)
Definition rooted (v : option string) : option string := match v with Some v => if HasPrefix v "/" then Some v else None | None => None end.
Definition router_assignment (fc : fileCtx) (lhs rhs : Node) (p : pyExtractor) : pyExtractor :=
  let name := text fc lhs in
  let callee := lastComponent (field_text fc rhs "function") in
  let '(args, kwargs) := pyCallArgs fc rhs in
  let p := if one_of pyPrefixFactories callee
           then foldl (λ p key, match rooted (resolve_kwarg (py_consts p) kwargs key) with Some v => py_bind (PyPrefix name v) p | None => p end)
                      p ["prefix"; "url_prefix"] else p in
  if String.eqb callee "topic"
  then match head args ≫= resolveString (py_consts p) with Some v => py_bind (PyTopic name v) p | None => p end else p.
Definition included_router (fc : fileCtx) (call : Node) (p : pyExtractor) : pyExtractor :=
  if negb (String.eqb (lastComponent (field_text fc call "function")) "include_router") then p
  else
    let '(args, kwargs) := pyCallArgs fc call in
    match rooted (resolve_kwarg (py_consts p) kwargs "prefix"), args with
    | Some v, a :: _ =>
        let router := lastComponent (TrimSpace a) in
        py_bind (PyPrefix router (joinPath v (default "" (py_prefixes p !! router)))) p
    | _, _ => p
    end.
Definition router_node (fc : fileCtx) (n : Node) (p : pyExtractor) : pyExtractor :=
  if is_type "assignment" n then
    match ChildByFieldName n "left", ChildByFieldName n "right" with
    | Some lhs, Some rhs => if is_type "call" rhs && is_type "identifier" lhs then router_assignment fc lhs rhs p else p
    | _, _ => p
    end
  else if is_type "call" n then included_router fc n p else p.
Fixpoint collectRouters (fc : fileCtx) (n : Node) (p : pyExtractor) : pyExtractor :=
  let '(SyntaxNode _ _ cs) := n in each_named (collectRouters fc) cs (router_node fc n p).

(** ** Declarations *)

Abbreviation pyState := (pyExtractor * fileCtx)%type.

(** [recordServicer], for a class with bases: the service, and the class known to serve it. *)
Definition servicer_base (p : pyExtractor) (base : string) : option string :=
  match CutSuffix base "Servicer" with
  | Some (String c r) => Some (String c r)
  | _ => py_servicers p !! base
  end.
Definition recordServicer (fc : fileCtx) (def : Node) (name : string) (p : pyExtractor) : string * pyExtractor :=
  match firstChildOfType def "argument_list" with
  | None => ("", p)
  | Some bases =>
      let svc := default "" (head (omap (λ b, servicer_base p (lastComponent (TrimSpace (text fc b)))) (NamedChildren bases))) in
      (svc, if String.eqb svc "" then p else py_bind (PyServicer name svc) p)
  end.
Definition pyIsRPCImpl (name sig : string) : bool := first_byte is_upper_byte name && Contains sig "request" && Contains sig "context".

(** [addDefinition] *)
Definition py_declare (n : Node) (kind name qualified sig : string) (fc : fileCtx) : nat * fileCtx :=
  addUnit (Place n) kind name qualified sig (extractLineComments (fc_src fc) (Z.to_nat (sp_StartRow (Place n))) "#") fc.
Definition addDefinition (def : Node) (scope : string) (st : pyState) : option nat * fileCtx :=
  let '(p, fc) := st in
  let name := field_text fc def "name" in
  if String.eqb name "" then (None, fc)
  else if is_type "function_definition" def then
    let sig := field_text fc def "parameters" in
    let '(idx, fc) := py_declare def (if String.eqb scope "" then "function" else "method") name (py_qualify scope name) sig fc in
    (Some idx,
     if negb (String.eqb (py_rpcSvc p) "") && pyIsRPCImpl name sig
     then addEdge (Z.of_nat idx) EdgeImplementsRPC (grpcKey (py_rpcSvc p) name) (sp_StartRow (Place def) + 1) ConfCrossFile None fc else fc)
  else if is_type "class_definition" def then
    let '(idx, fc) := py_declare def "class" name (py_qualify scope name) "" fc in (Some idx, fc)
  else (None, fc).

(** [recordModel] *)
Definition declared_table (body : string) : string :=
  match CutStr body "__tablename__" with
  | Some (_, rest) =>
      match Cut (Ascii.eqb "=") rest with
      | (_, Some line) => default "" (unquote (TrimSpace (fst (Cut (Ascii.eqb "010") line))))
      | (_, None) => ""
      end
  | None => ""
  end.
Definition recordModel (def : Node) (idx : nat) (st : pyState) : pyState :=
  let '(p, fc) := st in
  let name := field_text fc def "name" in
  match (if String.eqb name "" then None else ChildByFieldName def "body") with
  | None => st
  | Some body =>
      let body := text fc body in
      let tbl := declared_table body in
      let tbl := if negb (String.eqb tbl "") then tbl
                 else if Contains body "Column(" || Contains body "mapped_column(" then tableName name else "" in
      if String.eqb tbl "" then st
      else (py_bind (PyModel name tbl) p,
            snd (addUnit (Place def) KindDBTable tbl (DB tbl) ("entity:" +:+ name) (default "" (u_Doc <$> fc_units fc !! idx)) fc))
  end.

(** [applyDecorators]: what one decorator adds for the function [fn], the unit [idx]. *)
Definition py_route (call : Node) (method path : string) (fn : ASTUnit) (fc : fileCtx) : fileCtx :=
  let '(ridx, fc) := addUnit (Place call) KindHTTPRoute (method +:+ " " +:+ path) (routeKey method path) ("path:" +:+ path) "" fc in
  addEdge (Z.of_nat ridx) EdgeHandledBy (u_Name fn) (u_StartLine fn) ConfHigh None fc.
Definition py_consumer (idx : nat) (fn : ASTUnit) (key name : string) (fc : fileCtx) : fileCtx :=
  addEdge (Z.of_nat idx) EdgeConsumes key (u_StartLine fn) ConfHeuristic (Some (topic_meta name [] ∅ ∅)) fc.
Definition decorator_route (p : pyExtractor) (object : string) (args : list string) (k : string → fileCtx) (fc : fileCtx) : fileCtx :=
  match rooted (head args ≫= resolveString (py_consts p)) with
  | Some path => k (joinPath (default "" (py_prefixes p !! lastComponent object)) path)
  | None => fc
  end.
Definition decorator_topic (p : pyExtractor) (args : list string) (kwargs : gmap string string) : string :=
  let topic := match args with
               | a :: _ => match resolveString (py_consts p) a with
                           | Some v => v
                           | None => default "" (py_topics p !! lastComponent (TrimSpace a))
                           end
               | [] => ""
               end in
  default topic (resolve_kwarg (py_consts p) kwargs "name").
Definition called_decorator (p : pyExtractor) (idx : nat) (fn : ASTUnit) (call : Node) (fc : fileCtx) : fileCtx :=
  let callee := field_text fc call "function" in
  let name := lastComponent callee in
  let object := callee_object callee in
  let '(args, kwargs) := pyCallArgs fc call in
  match pyHTTPMethods !! name, args with
  | Some m, _ :: _ => decorator_route p object args (λ path, py_route call m path fn fc) fc
  | _, _ =>
      if String.eqb name "route" && negb (bool_decide (args = [])) then
        let method := match kwargs !! "methods" with
                      | Some mv => default "ANY" (ToUpper <$> head (pyStringsIn (py_consts p) mv))
                      | None => "ANY"
                      end in
        decorator_route p object args (λ path, py_route call method path fn fc) fc
      else if one_of pyConsumerDecorators name then
        match decorator_topic p args kwargs with
        | "" => if hasBroker fc then let '(key, tn) := topicEdgeKey (u_Name fn) in py_consumer idx fn key tn fc else fc
        | topic => let '(key, tn) := topicEdgeKey topic in py_consumer idx fn key tn fc
        end
      else fc
  end.
Definition apply_decorator (p : pyExtractor) (idx : nat) (fn : ASTUnit) (fc : fileCtx) (d : Node) : fileCtx :=
  if negb (is_type "decorator" d) then fc
  else match firstNamedOfType d "call" with
  | None =>
      if one_of pyConsumerDecorators (lastComponent (TrimPrefix (text fc d) "@")) && hasBroker fc
      then py_consumer idx fn (topicKey (u_Name fn)) (u_Name fn) fc else fc
  | Some call => called_decorator p idx fn call fc
  end.
Definition applyDecorators (decorated : Node) (idx : nat) (st : pyState) : pyState :=
  let '(p, fc) := st in
  match fc_units fc !! idx with
  | Some fn => (p, foldl (apply_decorator p idx fn) fc (NamedChildren decorated))
  | None => st
  end.

(** A definition, with the decorators around it when it has any. *)
Definition define (decorated : option Node) (def : Node) (scope : string) (st : pyState) : pyState :=
  let '(idx, fc) := addDefinition def scope st in
  let st := (fst st, fc) in
  match idx with
  | None => st
  | Some idx =>
      let st := match decorated with Some d => if is_type "function_definition" def then applyDecorators d idx st else st | None => st end in
      if is_type "class_definition" def then recordModel def idx st else st
  end.

(** [walkInto] on entering a definition: the scope of its body, and the service of a class. *)
Definition entered (def : Node) (scope : string) (st : pyState) : string * pyState :=
  let '(p, fc) := st in
  let name := field_text fc def "name" in
  if is_type "class_definition" def && negb (String.eqb name "") then
    let '(svc, p) := recordServicer fc def name p in (py_qualify scope name, (py_bind (PyService svc) p, fc))
  else (scope, st).
Definition left_ (svc : string) (st : pyState) : pyState := (py_bind (PyService svc) (fst st), snd st).

(** [walkDecls] of a node, [walkInto] of a definition, and the children of its body. *)
Inductive py_walk := WalkDecls | WalkInto | WalkBody.
Fixpoint walkDecls (w : py_walk) (scope : string) (n : Node) (st : pyState) : pyState :=
  let '(SyntaxNode _ _ cs) := n in
  let into (st : pyState) :=
    let '(inner, st') := entered n scope st in
    left_ (py_rpcSvc (fst st)) (on_field "body" (walkDecls WalkBody inner) id cs st') in
  match w with
  | WalkBody => each_named (walkDecls WalkDecls scope) cs st
  | WalkInto => into st
  | WalkDecls =>
      if is_type "decorated_definition" n then
        match ChildByFieldName n "definition" with
        | Some _ => on_field "definition" (λ def st, walkDecls WalkInto scope def (define (Some n) def scope st)) id cs st
        | None => on_last ["function_definition"; "class_definition"] (λ def st, walkDecls WalkInto scope def (define (Some n) def scope st)) cs id st
        end
      else if is_type "function_definition" n || is_type "class_definition" n then into (define None n scope st)
      else each_named (walkDecls WalkDecls scope) cs st
  end.

(** ** Calls *)

(** [sqlAlchemyTable] *)
Definition sqlAlchemyTable (p : pyExtractor) (name : string) (args : list string) : string :=
  match args with
  | a :: _ =>
      if one_of pySessionWriteMethods name || one_of pySessionReadMethods name then
        let arg := TrimSpace a in
        let arg := match Cut (λ c, Ascii.eqb c "(" || Ascii.eqb c ".") arg with (String c r, Some _) => String c r | _ => arg end in
        default "" (py_models p !! arg)
      else ""
  | [] => ""
  end.

(** What the steps of [handleCall] share. *)
Record pyCall := {
  pc_callee : string; pc_name : string; pc_object : string; pc_args : list string; pc_kwargs : gmap string string; pc_fields : gmap string string;
  pc_aliases : gmap string string; pc_line : Z; pc_src : Z }.
Definition py_call_of (p : pyExtractor) (fc : fileCtx) (call : Node) : pyCall :=
  let callee := field_text fc call "function" in
  let name := lastComponent callee in
  let '(args, kwargs) := pyCallArgs fc call in
  let pos := sp_StartByte (Place call) in
  let fields := if one_of pyProduceMethods name then pyDictFields fc call
                else if bool_decide (is_Some (pyHTTPMethods !! name)) then pyHTTPKwargFields kwargs else ∅ in {|
  pc_callee := callee; pc_name := name; pc_object := callee_object callee; pc_args := args; pc_kwargs := kwargs; pc_fields := fields;
  pc_aliases := relevant (py_aliases p) pos args fields; pc_line := sp_StartRow (Place call) + 1;
  pc_src := enclosingUnit pos callableKinds fc |}.
Definition py_site (c : pyCall) : callSite := {|
  cs_Callee := pc_callee c; cs_Name := pc_name c; cs_Object := pc_object c; cs_RecvType := ""; cs_Args := pc_args c;
  cs_Kwargs := pc_kwargs c; cs_Fields := pc_fields c; cs_Aliases := pc_aliases c; cs_Line := pc_line c; cs_Src := pc_src c |}.
Definition py_meta (c : pyCall) (topic : string) (fields : gmap string string) : EdgeMeta := topic_meta topic (pc_args c) fields (pc_aliases c).

(** A stub constructed in the call. *)
Definition py_rpc (c : pyCall) (fc : fileCtx) : option fileCtx :=
  match inlineStubService (pc_object c) (hasGRPC fc) with
  | "" => None
  | svc =>
      if String.eqb (pc_name c) "" then None
      else Some (contractSite ContractKindRPC true
                   (addEdge (pc_src c) EdgeRPCCall (grpcKey svc (capitalizeFirst (pc_name c))) (pc_line c) ConfHigh
                      (Some (py_meta c "" (pc_fields c))) fc))
  end.

(** [requests.request(method, url)] *)
Definition py_request (p : pyExtractor) (client : objectMatch) (c : pyCall) (fc : fileCtx) : bool * fileCtx :=
  match pc_args c with
  | ma :: ua :: _ =>
      if String.eqb (pc_name c) "request" && object_matches client (ToLower (pc_object c)) then
        match resolveRequestURL ua (resolveString (py_consts p)) ConfCrossFile true with
        | Some (u, conf) =>
            let m := httpMethodFromArg ma (resolveString (py_consts p)) in
            let '(host, path) := splitURL u in
            (true, addEdge (pc_src c) EdgeHTTPCall (routeKey m path) (pc_line c) conf
                     (Some {| em_Args := pc_args c; em_Fields := pyHTTPKwargFields (pc_kwargs c); em_Aliases := pc_aliases c; em_Topic := "";
                              em_Path := path; em_Method := m; em_Host := host; em_Receiver := ""; em_RecvType := ""; em_TopicRef := "";
                              em_Source := ""; em_BaseConf := S754_zero false |})
                     (contractSite ContractKindHTTP true fc))
        | None => (false, httpCandidate (pc_src c) ua ma (contractSite ContractKindHTTP false fc))
        end
      else (false, fc)
  | _ => (false, fc)
  end.

(** A task that is dispatched. *)
Definition py_task (c : pyCall) (fc : fileCtx) : bool * fileCtx :=
  let task := lastComponent (pc_object c) in
  if (String.eqb (pc_name c) "delay" || String.eqb (pc_name c) "apply_async") && negb (one_of pyNonTaskReceivers task) then
    if String.eqb task "" then (false, contractSite ContractKindMessaging false fc)
    else (true, addEdge (pc_src c) EdgeProduces (topicKey task) (pc_line c) ConfHeuristic (Some (py_meta c task ∅))
                  (contractSite ContractKindMessaging true fc))
  else (false, fc).

(** Rows, statements and the call itself. *)
Definition py_rows (p : pyExtractor) (c : pyCall) (fc : fileCtx) : fileCtx :=
  match sqlAlchemyTable p (pc_name c) (pc_args c) with
  | "" => fc
  | tbl => addEdge (pc_src c) (if one_of pySessionWriteMethods (pc_name c) then EdgeWritesTo else EdgeReadsFrom) (DB tbl) (pc_line c) ConfHeuristic
             (Some (py_meta c "" ∅)) (contractSite ContractKindDB true fc)
  end.
Definition py_plain (p : pyExtractor) (c : pyCall) (fc : fileCtx) : fileCtx :=
  let fc := snd (sqlEdgesFromArgs (pc_src c) (pc_line c) (pc_args c) (py_rows p c fc)) in
  if String.eqb (pc_name c) "" then fc
  else addEdge (pc_src c) EdgeCall (pc_name c) (pc_line c) ConfHeuristic
         (Some {| em_Args := pc_args c; em_Fields := ∅; em_Aliases := pc_aliases c; em_Topic := ""; em_Path := ""; em_Method := ""; em_Host := "";
                  em_Receiver := pc_object c; em_RecvType := ""; em_TopicRef := ""; em_Source := ""; em_BaseConf := S754_zero false |}) fc.

Section Calls.
  Context (visit : gmap string string → list (string * string)).

(** [handleCall] *)
Definition handleCall (p : pyExtractor) (call : Node) (fc : fileCtx) : fileCtx :=
  let c := py_call_of p fc call in
  if (pc_src c <? 0)%Z then fc
  else match py_rpc c fc with
  | Some fc => fc
  | None =>
      let '(detectors, client) := pyDetectorsFor fc in
      let '(done, fc) := runDetectors visit detectors (py_site c) (resolveString (py_consts p)) (Some (pyStringsIn (py_consts p))) fc in
      if done then fc
      else
        let '(done, fc) := py_request p client c fc in
        if done then fc
        else let '(done, fc) := py_task c fc in if done then fc else py_plain p c fc
  end.
(** [walkCalls] *)
Fixpoint walkCalls (p : pyExtractor) (n : Node) (fc : fileCtx) : fileCtx :=
  let '(SyntaxNode _ _ cs) := n in each_named (walkCalls p) cs (if is_type "call" n then handleCall p n fc else fc).

(** [extract] *)
Definition extract (root : Node) (fc : fileCtx) : fileCtx :=
  let p := collectRouters fc root (collectConsts fc [] root newPyExtractor) in
  let '(p, fc) := walkDecls WalkDecls "" root (p, fc) in
  walkCalls p root fc.
End Calls.
