(* ===== verification/ExtractJvm.v ===== *)
(** * Units and edges of Java and Kotlin source ([internal/index/ast/lang_java.go], [lang_kotlin.go])

    Both extractors read the syntax tree over its named nodes three times: for the
    constants, aliases and declared types, for the declarations with their
    annotations, and for the calls, which both take for the same frameworks. *)

From S2P Require Import Prelude GoStrings GoStrconv GoSort GoFloat GoRegexp GoJsonEncode Domain Store Contract MetaCodec Indexing Extract Detect Wrappers Schemas ExtractGo ExtractPython.
From Stdlib Require Import Strings.Ascii.

(** ** The rules *)

Definition javaGRPCServiceFromBase (superclass : string) : string :=
  let base := trimGenericArgs (TrimSpace (TrimPrefix (TrimSpace superclass) "extends")) in
  let name := lastComponent base in
  match CutSuffix name "ImplBase" with
  | None | Some "" => ""
  | Some stem =>
      let qualifier := lastComponent (TrimSuffix base ("." +:+ name)) in
      match (if String.eqb qualifier base then None else CutSuffix qualifier "Grpc") with
      | None | Some "" => stem
      | Some svc => svc
      end
  end.
Definition javaMappingMethods : gmap string string := list_to_map
  [("GetMapping", "GET"); ("PostMapping", "POST"); ("PutMapping", "PUT"); ("DeleteMapping", "DELETE"); ("PatchMapping", "PATCH");
   ("RequestMapping", "ANY")].
Definition javaHTTPClientMatch : objectMatch :=
  object_by [] [] ["resttemplate"; "restoperations"; "restclient"; "webclient"; "httpclient"] true.
Definition http_rule (object recvType : objectMatch) (methods : list (string * string)) (methodArg : nat) (loose relative : bool) : httpClientRule := {|
  hr_Object := object; hr_Methods := methods; hr_URLArg := 0; hr_RecvType := recvType; hr_MethodArg := methodArg; hr_MethodFromField := "";
  hr_Loose := loose; hr_URLFromFields := false; hr_RelativeURL := relative; hr_Conf := ConfCrossFile |}.
Definition javaDetectors : detectorSet := {|
  ds_HTTP :=
    [http_rule any_object any_object
       [("getForObject", "GET"); ("getForEntity", "GET"); ("postForObject", "POST"); ("postForEntity", "POST"); ("postForLocation", "POST")] 0 false true;
     http_rule any_object any_object [("exchange", "ANY"); ("execute", "ANY")] 1 true false;
     http_rule javaHTTPClientMatch javaHTTPClientMatch [("put", "PUT"); ("delete", "DELETE")] 0 false false];
  ds_Produce := {|
    pr_Object := object_by [] [] ["kafka"] true; pr_Methods := ["send"]; pr_TopicArg := 0; pr_TopicFromField := ""; pr_Topic := no_topic;
    pr_RecvType := any_object; pr_OmitArgs := false; pr_Loose := false; pr_NeedsBroker := false; pr_Conf := ConfHigh |} :: jvmBrokerProduce;
  ds_Consume := jvmBrokerConsume; ds_Broker := true |}.
Definition ktDetectors : detectorSet := javaDetectors.
Definition jpaWriteMethods : list string :=
  ["save"; "saveAll"; "saveAndFlush"; "saveAllAndFlush"; "delete"; "deleteAll"; "deleteById"; "deleteAllById"; "insert"; "update"; "persist";
   "merge"; "remove"].
Definition repositoryTable (typ object : string) : string :=
  let name := lastComponent (TrimSpace typ) in
  let name := if String.eqb name "" then lastComponent object else name in
  let name := match Cut (Ascii.eqb "<") name with (String c r, Some _) => String c r | _ => name end in
  default "" (head (omap (λ suffix, match CutSuffix name suffix with
                                    | None | Some "" => None
                                    | Some entity => Some (tableName entity)
                                    end) ["Repository"; "Repo"; "DAO"; "Dao"])).

(** ** The state of an extractor *)

Record jvmExtractor := {
  jv_pkg : string; jv_consts : gmap string string; jv_aliases : aliasTable; jv_clients : gmap string string; jv_types : gmap string string;
  jv_rpcSvc : string }.
Definition newJvmExtractor : jvmExtractor :=
  {| jv_pkg := ""; jv_consts := ∅; jv_aliases := []; jv_clients := ∅; jv_types := ∅; jv_rpcSvc := "" |}.
Inductive jvm_binding :=
  | JvConst (name value : string) | JvAlias (chain : lineage) (name expr : string) | JvClient (name service : string) | JvType (name typ : string)
  | JvPackage (name : string) | JvService (service : string).
Definition jv_bind (b : jvm_binding) (j : jvmExtractor) : jvmExtractor := {|
  jv_pkg := match b with JvPackage n => n | _ => jv_pkg j end;
  jv_consts := match b with JvConst n v => <[n := v]> (jv_consts j) | _ => jv_consts j end;
  jv_aliases := match b with JvAlias chain n e => record_alias chain n e (jv_aliases j) | _ => jv_aliases j end;
  jv_clients := match b with JvClient n v => <[n := v]> (jv_clients j) | _ => jv_clients j end;
  jv_types := match b with JvType n v => <[n := v]> (jv_types j) | _ => jv_types j end;
  jv_rpcSvc := match b with JvService v => v | _ => jv_rpcSvc j end |}.
Definition jv_binds (bs : list jvm_binding) (j : jvmExtractor) : jvmExtractor := foldl (λ j b, jv_bind b j) j bs.
Abbreviation jvmState := (jvmExtractor * fileCtx)%type.
Definition jv_resolve (j : jvmExtractor) : resolver := const_resolve (jv_consts j).

(** [qualify] *)
Definition jv_qualify (j : jvmExtractor) (scope name : string) : string :=
  if negb (String.eqb scope "") then scope +:+ "." +:+ name
  else if negb (String.eqb (jv_pkg j) "") then jv_pkg j +:+ "." +:+ name else name.

(** ** Java: constants and types *)

(** [collectConsts] *)
Definition java_stub (fc : fileCtx) (name : string) (value : Node) : list jvm_binding :=
  if is_type "method_invocation" value && one_of javaStubFactories (field_text fc value "name") then
    match CutSuffix (lastComponent (field_text fc value "object")) "Grpc" with
    | None | Some "" => []
    | Some svc => [JvClient name svc]
    end
  else [].
Definition java_variable (fc : fileCtx) (chain : lineage) (n : Node) (j : jvmExtractor) : jvmExtractor :=
  let name := field_text fc n "name" in
  match (if String.eqb name "" then None else ChildByFieldName n "value") with
  | None => j
  | Some value =>
      match unquote (text fc value) with
      | Some v => jv_bind (JvConst name v) j
      | None =>
          jv_binds (java_stub fc name value ++
                    if one_of ["identifier"; "field_access"; "method_invocation"] (Type_ value) then [JvAlias chain name (text fc value)] else []) j
      end
  end.
(** [recordDeclaredType] *)
Definition recordDeclaredType (fc : fileCtx) (n : Node) : list jvm_binding :=
  let typ := field_text fc n "type" in
  if String.eqb typ "" then []
  else
    let names := match field_text fc n "name" with
                 | "" => map (λ c, field_text fc c "name") (filter (λ c, is_type "variable_declarator" c = true) (NamedChildren n))
                 | name => [name]
                 end in
    map (λ name, JvType name typ) (filter (λ name, name ≠ "") names).
Definition java_const_node (fc : fileCtx) (chain : lineage) (n : Node) (j : jvmExtractor) : jvmExtractor :=
  let j := if is_type "variable_declarator" n then java_variable fc chain n j else j in
  if one_of ["field_declaration"; "formal_parameter"] (Type_ n) then jv_binds (recordDeclaredType fc n) j else j.
Fixpoint java_collectConsts (fc : fileCtx) (above : lineage) (n : Node) (j : jvmExtractor) : jvmExtractor :=
  let chain := self n :: above in
  let '(SyntaxNode _ _ cs) := n in each_named (java_collectConsts fc chain) cs (java_const_node fc chain n j).

(** ** Java: annotations *)

Definition annotations (fc : fileCtx) (decl : Node) : list (string * Node) :=
  map (λ a, (field_text fc a "name", a))
      (filter (λ a, one_of ["annotation"; "marker_annotation"] (Type_ a) = true)
              (concat (map NamedChildren (filter (λ c, is_type "modifiers" c = true) (Children decl))))).
Definition pair_key (fc : fileCtx) (c : Node) : string := field_text fc c "key".
(** [annotationNamed] *)
Definition annotationNamed (fc : fileCtx) (j : jvmExtractor) (ann : Node) (key : string) : string :=
  default "" (head (omap (λ c, if is_type "element_value_pair" c && String.eqb (pair_key fc c) key then jv_resolve j (field_text fc c "value") else None)
                         (argNodes ann "arguments"))).
(** [annotationValue] *)
Definition annotationValue (fc : fileCtx) (j : jvmExtractor) (ann : Node) : string :=
  default "" (head (omap (λ c, if is_type "element_value_pair" c
                               then if one_of ["value"; "path"] (pair_key fc c) then jv_resolve j (field_text fc c "value") else None
                               else jv_resolve j (text fc c)) (argNodes ann "arguments"))).
(** [annotationPath] *)
Definition annotationPath (fc : fileCtx) (j : jvmExtractor) (decl : Node) (annName : string) : string :=
  match List.find (λ a, String.eqb (fst a) annName) (annotations fc decl) with
  | Some (_, a) => annotationValue fc j a
  | None => ""
  end.
(** [annotationTopics] *)
Fixpoint topic_literals (fc : fileCtx) (j : jvmExtractor) (n : Node) : list string :=
  match (if is_type "string_literal" n then jv_resolve j (text fc n) else None) with
  | Some v => [v]
  | None =>
      if is_type "identifier" n then option_list (jv_consts j !! text fc n)
      else let '(SyntaxNode _ _ cs) := n in
           (fix below (cs : children) : list string :=
              match cs with [] => [] | (_, named, c) :: cs => (if (named : bool) then topic_literals fc j c else []) ++ below cs end) cs
  end.
Definition annotationTopics (fc : fileCtx) (j : jvmExtractor) (ann : Node) (keys : list string) : list string :=
  concat (map (λ c, if is_type "element_value_pair" c
                    then if one_of ("value" :: keys) (pair_key fc c)
                         then match ChildByFieldName c "value" with Some v => topic_literals fc j v | None => [] end else []
                    else topic_literals fc j c) (argNodes ann "arguments")).

(** ** Java: declarations *)

(** [entityTable]: the first annotation that names the table, or the name of the class. *)
Definition java_entityTable (fc : fileCtx) (j : jvmExtractor) (decl : Node) (className : string) : string :=
  let anns := annotations fc decl in
  match head (omap (λ '(name, a), if String.eqb name "Table"
                                  then match annotationNamed fc j a "name" with "" => None | v => Some (ToLower v) end else None) anns) with
  | Some tbl => tbl
  | None => if existsb (λ a, one_of ["Entity"; "Table"] (fst a)) anns then tableName className else ""
  end.
Definition jvm_declare (n : Node) (kind name qualified sig : string) (fc : fileCtx) : nat * fileCtx :=
  addUnit (Place n) kind name qualified sig (extractLineComments (fc_src fc) (Z.to_nat (sp_StartRow (Place n))) "//") fc.
(** A route of an annotated method. *)
Definition jvm_route (n : Node) (basePath value method name : string) (fc : fileCtx) : fileCtx :=
  let path := joinPath basePath value in
  let '(ridx, fc) := addUnit (Place n) KindHTTPRoute (method +:+ " " +:+ path) (routeKey method path) ("path:" +:+ path) "" fc in
  addEdge (Z.of_nat ridx) EdgeHandledBy name (sp_StartRow (Place n) + 1) ConfHigh None fc.
Definition listen (idx : nat) (line : Z) (fc : fileCtx) (topic : string) : fileCtx :=
  let '(key, name) := topicEdgeKey topic in addEdge (Z.of_nat idx) EdgeConsumes key line ConfHigh (Some (topic_meta name [] ∅ ∅)) fc.
Definition java_annotated (j : jvmExtractor) (n : Node) (idx : nat) (basePath name : string) (fc : fileCtx) (ann : string * Node) : fileCtx :=
  let fc := match javaMappingMethods !! fst ann with
            | Some method => jvm_route n basePath (annotationValue fc j (snd ann)) method name fc
            | None => fc
            end in
  match (list_to_map jvmListenerAnnotations : gmap string (list string)) !! fst ann with
  | Some keys =>
      let topics := annotationTopics fc j (snd ann) keys in
      foldl (listen idx (sp_StartRow (Place n) + 1)) (contractSite ContractKindMessaging (negb (bool_decide (topics = []))) fc) topics
  | None => fc
  end.
(** [handleMethod] *)
Definition java_handleMethod (j : jvmExtractor) (n : Node) (scope basePath : string) (fc : fileCtx) : fileCtx :=
  let name := field_text fc n "name" in
  if String.eqb name "" then fc
  else
    let sig := field_text fc n "parameters" in
    let '(idx, fc) := jvm_declare n "method" name (jv_qualify j scope name) sig fc in
    let fc := if negb (String.eqb (jv_rpcSvc j) "") && Contains sig "StreamObserver"
              then addEdge (Z.of_nat idx) EdgeImplementsRPC (grpcKey (jv_rpcSvc j) (capitalizeFirst name)) (sp_StartRow (Place n) + 1) ConfCrossFile None fc
              else fc in
    foldl (java_annotated j n idx basePath name) fc (annotations fc n).

(** [walk] of a node and of the children of a body. *)
Definition java_class (n : Node) (name qualified : string) (st : jvmState) : jvmState :=
  let '(j, fc) := st in
  let doc := extractLineComments (fc_src fc) (Z.to_nat (sp_StartRow (Place n))) "//" in
  let '(_, fc) := addUnit (Place n) (if is_type "interface_declaration" n then "interface" else "class") name qualified "" doc fc in
  let tbl := java_entityTable fc j n name in
  (jv_bind (JvService (javaGRPCServiceFromBase (field_text fc n "superclass"))) j,
   if String.eqb tbl "" then fc else snd (addUnit (Place n) KindDBTable tbl (DB tbl) ("entity:" +:+ name) doc fc)).
Definition java_package (fc : fileCtx) (n : Node) : string :=
  TrimSpace (TrimPrefix (TrimSuffix (TrimSpace (text fc n)) ";") "package").
Fixpoint java_walk (body : bool) (scope basePath : string) (n : Node) (st : jvmState) : jvmState :=
  let '(SyntaxNode _ _ cs) := n in
  let '(j, fc) := st in
  let name := field_text fc n "name" in
  if body then each_named (java_walk false scope basePath) cs st
  else if is_type "package_declaration" n then each_named (java_walk false scope basePath) cs (jv_bind (JvPackage (java_package fc n)) j, fc)
  else if one_of ["class_declaration"; "interface_declaration"; "enum_declaration"; "record_declaration"] (Type_ n) && negb (String.eqb name "") then
    let qualified := jv_qualify j scope name in
    let st := on_field "body" (java_walk true qualified (joinPath basePath (annotationPath fc j n "RequestMapping"))) id cs (java_class n name qualified st) in
    (jv_bind (JvService (jv_rpcSvc j)) (fst st), snd st)
  else if is_type "method_declaration" n then (j, java_handleMethod j n scope basePath fc)
  else each_named (java_walk false scope basePath) cs st.

(** ** Calls of both languages *)

Record jvmCall := {
  jc_node : Node; jc_callee : string; jc_name : string; jc_object : string; jc_args : list string; jc_line : Z; jc_src : Z;
  jc_aliases : gmap string string; jc_recvType : string }.
Definition jvm_call (j : jvmExtractor) (fc : fileCtx) (n : Node) (callee name object : string) (args : list string) : jvmCall :=
  let pos := sp_StartByte (Place n) in {|
  jc_node := n; jc_callee := callee; jc_name := name; jc_object := object; jc_args := args; jc_line := sp_StartRow (Place n) + 1;
  jc_src := enclosingUnit pos callableKinds fc; jc_aliases := relevant (jv_aliases j) pos args ∅;
  jc_recvType := default "" (jv_types j !! lastComponent object) |}.
Definition jvm_meta (c : jvmCall) : EdgeMeta := topic_meta "" (jc_args c) ∅ (jc_aliases c).
Definition jvm_site (c : jvmCall) : callSite := {|
  cs_Callee := jc_callee c; cs_Name := jc_name c; cs_Object := jc_object c; cs_RecvType := jc_recvType c; cs_Args := jc_args c; cs_Kwargs := ∅;
  cs_Fields := ∅; cs_Aliases := jc_aliases c; cs_Line := jc_line c; cs_Src := jc_src c |}.
Definition jvm_generic (j : jvmExtractor) (c : jvmCall) (fc : fileCtx) : option fileCtx :=
  let '(ok, fc) := applyGenericRoute (Place (jc_node c)) (jc_callee c) (jc_args c) (jv_resolve j) None "" fc in if ok then Some fc else None.
Definition jvm_rpc (c : jvmCall) (svc : string) (conf : f32) (fc : fileCtx) : option fileCtx :=
  if String.eqb svc "" || String.eqb (jc_name c) "" then None
  else Some (contractSite ContractKindRPC true
               (addEdge (jc_src c) EdgeRPCCall (grpcKey svc (capitalizeFirst (jc_name c))) (jc_line c) conf (Some (jvm_meta c)) fc)).
Definition fluent_meta (c : jvmCall) (m path host : string) : EdgeMeta := {|
  em_Args := jc_args c; em_Fields := ∅; em_Aliases := jc_aliases c; em_Topic := ""; em_Path := path; em_Method := m; em_Host := host;
  em_Receiver := ""; em_RecvType := ""; em_TopicRef := ""; em_Source := ""; em_BaseConf := S754_zero false |}.
Definition jvm_fluent (j : jvmExtractor) (c : jvmCall) (fc : fileCtx) : option fileCtx :=
  '(m, u, conf) ← fluentChainHTTP (jc_name c) (jc_object c) (jc_args c) (jv_resolve j);
  let '(host, path) := splitURL u in
  Some (contractSite ContractKindHTTP true
          (addEdge (jc_src c) EdgeHTTPCall (routeKey m path) (jc_line c) conf (Some (fluent_meta c m path host)) fc)).
Definition jvm_rows (c : jvmCall) (fc : fileCtx) : fileCtx :=
  match repositoryTable (jc_recvType c) (jc_object c) with
  | "" => fc
  | tbl => addEdge (jc_src c) (if one_of jpaWriteMethods (jc_name c) then EdgeWritesTo else EdgeReadsFrom) (DB tbl) (jc_line c) ConfHeuristic
             (Some (jvm_meta c)) (contractSite ContractKindDB true fc)
  end.
Definition jvm_plain_meta (c : jvmCall) : EdgeMeta := {|
  em_Args := jc_args c; em_Fields := ∅; em_Aliases := jc_aliases c; em_Topic := ""; em_Path := ""; em_Method := ""; em_Host := "";
  em_Receiver := jc_object c; em_RecvType := jc_recvType c; em_TopicRef := ""; em_Source := ""; em_BaseConf := S754_zero false |}.
Definition jvm_plain (c : jvmCall) (fc : fileCtx) : fileCtx :=
  addEdge (jc_src c) EdgeCall (jc_name c) (jc_line c) ConfHeuristic (Some (jvm_plain_meta c))
    (snd (sqlEdgesFromArgs (jc_src c) (jc_line c) (jc_args c) (jvm_rows c fc))).

Section Calls.
  Context (visit : gmap string string → list (string * string)).

(** What follows the steps a language tries first: the rules, an injected stub, a repository, and the call itself. *)
Definition jvm_rest (j : jvmExtractor) (c : jvmCall) (fc : fileCtx) : fileCtx :=
  let '(done, fc) := runDetectors visit javaDetectors (jvm_site c) (jv_resolve j) None fc in
  if done then fc
  else match jvm_rpc c (grpcStubService (jc_recvType c) (hasGRPC fc || negb (bool_decide (jv_clients j = ∅)))) ConfCrossFile fc with
  | Some fc => fc
  | None => jvm_plain c fc
  end.

(** [handleInvocation], [handleObjectCreation] *)
Definition java_handleInvocation (j : jvmExtractor) (n : Node) (fc : fileCtx) : fileCtx :=
  let name := field_text fc n "name" in
  let object := field_text fc n "object" in
  let callee := if String.eqb object "" then name else object +:+ "." +:+ name in
  let c := jvm_call j fc n callee name object (namedChildTexts fc (ChildByFieldName n "arguments")) in
  if (jc_src c <? 0)%Z then fc
  else
    let svc := default (inlineStubService object (hasGRPC fc)) (jv_clients j !! object) in
    default (jvm_rest j c fc) (first_of [jvm_generic j c; jvm_rpc c svc ConfHigh; jvm_fluent j c] fc).
Definition java_handleObjectCreation (j : jvmExtractor) (n : Node) (fc : fileCtx) : fileCtx :=
  let typ := field_text fc n "type" in
  if String.eqb typ "" then fc
  else snd (applyGenericRoute (Place n) typ (namedChildTexts fc (ChildByFieldName n "arguments")) (jv_resolve j) None "" fc).
Definition java_call_node (j : jvmExtractor) (n : Node) (fc : fileCtx) : fileCtx :=
  if is_type "method_invocation" n then java_handleInvocation j n fc
  else if is_type "object_creation_expression" n then java_handleObjectCreation j n fc else fc.
Fixpoint java_walkCalls (j : jvmExtractor) (n : Node) (fc : fileCtx) : fileCtx :=
  let '(SyntaxNode _ _ cs) := n in each_named (java_walkCalls j) cs (java_call_node j n fc).
(** [extract] *)
Definition java_extract (root : Node) (fc : fileCtx) : fileCtx :=
  let '(j, fc) := java_walk false "" "" root (java_collectConsts fc [] root newJvmExtractor, fc) in java_walkCalls j root fc.
End Calls.

(** ** Kotlin *)

(** The named children of a node, each with the named siblings before it, nearest first. *)
Definition each_after {S} (f : list Node → Node → S → S) : list Node → children → S → S :=
  fix go before cs s :=
    match cs with
    | [] => s
    | (_, named, c) :: cs => if (named : bool) then go (c :: before) cs (f before c s) else go before cs s
    end.

(** [ktFirstDescendant] *)
Fixpoint ktFirstDescendant (typ : string) (n : Node) : option Node :=
  if is_type typ n then Some n
  else let '(SyntaxNode _ _ cs) := n in
       (fix below (cs : children) : option Node :=
          match cs with
          | [] => None
          | (_, named, c) :: cs => match (if (named : bool) then ktFirstDescendant typ c else None) with Some d => Some d | None => below cs end
          end) cs.
Definition child_text (fc : fileCtx) (n : Node) (typ : string) : string := text_of fc (firstChildOfType n typ).

(** [collectConsts] *)
Definition kt_property (fc : fileCtx) (chain : lineage) (n : Node) (j : jvmExtractor) : jvmExtractor :=
  let name := match firstChildOfType n "variable_declaration" with Some vd => child_text fc vd "simple_identifier" | None => "" end in
  match (if String.eqb name "" then None else last (NamedChildren n)) with
  | None => j
  | Some value =>
      if is_type "variable_declaration" value then j
      else match unquote (text fc value) with
      | Some v => jv_bind (JvConst name v) j
      | None => if one_of ["simple_identifier"; "navigation_expression"; "call_expression"] (Type_ value)
                then jv_bind (JvAlias chain name (text fc value)) j else j
      end
  end.
Definition kt_typed (fc : fileCtx) (n : Node) (j : jvmExtractor) : jvmExtractor :=
  let name := child_text fc n "simple_identifier" in
  match firstChildOfType n "user_type" with
  | Some t => if String.eqb name "" then j else jv_bind (JvType name (text fc t)) j
  | None => j
  end.
Definition kt_const_node (fc : fileCtx) (chain : lineage) (n : Node) (j : jvmExtractor) : jvmExtractor :=
  let j := if is_type "property_declaration" n then kt_property fc chain n j else j in
  if one_of ["class_parameter"; "variable_declaration"] (Type_ n) then kt_typed fc n j else j.
Fixpoint kt_collectConsts (fc : fileCtx) (above : lineage) (n : Node) (j : jvmExtractor) : jvmExtractor :=
  let chain := self n :: above in
  let '(SyntaxNode _ _ cs) := n in each_named (kt_collectConsts fc chain) cs (kt_const_node fc chain n j).

(** [ktAnnotations], [ktAnnotationValue] *)
Definition ktAnnotations (fc : fileCtx) (decl : Node) : list (string * Node) :=
  match firstChildOfType decl "modifiers" with
  | Some mods => omap (λ a, if is_type "annotation" a then (λ ut, (text fc ut, a)) <$> ktFirstDescendant "user_type" a else None) (NamedChildren mods)
  | None => []
  end.
Definition ktAnnotationValue (fc : fileCtx) (j : jvmExtractor) (ann : Node) : string :=
  match ktFirstDescendant "value_arguments" ann with
  | Some va => default "" (head (omap (λ c, jv_resolve j (text fc c)) (NamedChildren va)))
  | None => ""
  end.

(** [annotationPathFromText], [ktClassBasePath] *)
Definition annotationPathFromText (txt ann : string) : string :=
  match CutStr txt ann with
  | None => ""
  | Some (_, rest) =>
      match Cut (Ascii.eqb "034") (fst (Cut (Ascii.eqb "@") rest)) with
      | (_, Some rest) => match Cut (Ascii.eqb "034") rest with (path, Some _) => path | (_, None) => "" end
      | (_, None) => ""
      end
  end.
Fixpoint prefix_siblings (before : list Node) : list Node :=
  match before with p :: before => if is_type "prefix_expression" p then p :: prefix_siblings before else [] | [] => [] end.
Definition ktClassBasePath (fc : fileCtx) (before : list Node) (n : Node) : string :=
  annotationPathFromText
    (foldl (λ txt p, txt +:+ String "010" (text fc p)) (child_text fc n "modifiers") (prefix_siblings before)) "RequestMapping".

(** [handleFunction] *)
Definition kt_handleFunction (j : jvmExtractor) (n : Node) (scope basePath : string) (fc : fileCtx) : fileCtx :=
  let name := child_text fc n "simple_identifier" in
  if String.eqb name "" then fc
  else
    let '(idx, fc) := jvm_declare n (if String.eqb scope "" then "function" else "method") name (jv_qualify j scope name)
                        (child_text fc n "function_value_parameters") fc in
    foldl (λ fc ann, match javaMappingMethods !! fst ann with
                     | Some method => jvm_route n basePath (ktAnnotationValue fc j (snd ann)) method name fc
                     | None => fc
                     end) fc (ktAnnotations fc n).

(** [walk] of a node and of the children of a class body. *)
Definition on_type {S} (typ : string) (f : Node → S → S) : children → S → S :=
  fix go cs s := match cs with [] => s | (_, _, c) :: cs => if is_type typ c then f c s else go cs s end.
Fixpoint kt_walk (body : bool) (scope basePath : string) (before : list Node) (n : Node) (st : jvmState) : jvmState :=
  let '(SyntaxNode _ _ cs) := n in
  let '(j, fc) := st in
  let name := child_text fc n "type_identifier" in
  if body then each_after (kt_walk false scope basePath) [] cs st
  else if is_type "package_header" n then
    each_after (kt_walk false scope basePath) [] cs
      (match firstChildOfType n "identifier" with Some id => jv_bind (JvPackage (text fc id)) j | None => j end, fc)
  else if one_of ["class_declaration"; "object_declaration"] (Type_ n) && negb (String.eqb name "") then
    let qualified := jv_qualify j scope name in
    let '(_, fc') := jvm_declare n "class" name qualified "" fc in
    on_type "class_body" (kt_walk true qualified (joinPath basePath (ktClassBasePath fc before n)) []) cs (j, fc')
  else if is_type "function_declaration" n then (j, kt_handleFunction j n scope basePath fc)
  else each_after (kt_walk false scope basePath) [] cs st.

Section KotlinCalls.
  Context (visit : gmap string string → list (string * string)).

(** [handleCall] *)
Definition kt_args (fc : fileCtx) (n : Node) : list string :=
  match firstChildOfType n "call_suffix" with Some suffix => namedChildTexts fc (firstChildOfType suffix "value_arguments") | None => [] end.
Definition kt_handleCall (j : jvmExtractor) (n : Node) (fc : fileCtx) : fileCtx :=
  match NamedChildren n with
  | [] => fc
  | callee :: _ =>
      let fnText := text fc callee in
      let object := callee_object fnText in
      let c := jvm_call j fc n fnText (lastComponent fnText) object (kt_args fc n) in
      if (jc_src c <? 0)%Z then fc
      else default (jvm_rest visit j c fc)
             (first_of [jvm_fluent j c; jvm_generic j c; jvm_rpc c (inlineStubService object (hasGRPC fc)) ConfHigh] fc)
  end.
Fixpoint kt_walkCalls (j : jvmExtractor) (n : Node) (fc : fileCtx) : fileCtx :=
  let '(SyntaxNode _ _ cs) := n in each_named (kt_walkCalls j) cs (if is_type "call_expression" n then kt_handleCall j n fc else fc).
(** [extract] *)
Definition kt_extract (root : Node) (fc : fileCtx) : fileCtx :=
  let '(j, fc) := kt_walk false "" "" [] root (kt_collectConsts fc [] root newJvmExtractor, fc) in kt_walkCalls j root fc.
End KotlinCalls.
