(* ===== verification/ExtractTypeScript.v ===== *)
(** * Units and edges of TypeScript and JavaScript source ([internal/index/ast/lang_typescript.go])

    The extractor reads the syntax tree over its named nodes four times: for the
    constants and the clients, queues and objects bound to names, for the mounts of
    routers, for the declarations with their decorators, and for the calls. *)

From S2P Require Import Prelude GoStrings GoStrconv GoSort GoFloat GoRegexp GoJsonEncode Domain Store Contract MetaCodec Indexing Extract Detect Wrappers Schemas ExtractGo ExtractPython ExtractJvm.
From Stdlib Require Import Strings.Ascii.

(** ** The rules *)

Definition tsHTTPMethods : gmap string string := list_to_map
  [("get", "GET"); ("post", "POST"); ("put", "PUT"); ("delete", "DELETE"); ("patch", "PATCH"); ("head", "HEAD"); ("options", "OPTIONS");
   ("all", "ANY")].
Definition ts_rule (object : objectMatch) (methods : list (string * string)) (methodField : string) (fromFields : bool) : httpClientRule := {|
  hr_Object := object; hr_Methods := methods; hr_URLArg := 0; hr_RecvType := any_object; hr_MethodArg := 0; hr_MethodFromField := methodField;
  hr_Loose := false; hr_URLFromFields := fromFields; hr_RelativeURL := false; hr_Conf := ConfCrossFile |}.
Definition tsDetectors : detectorSet := {|
  ds_HTTP :=
    [ts_rule (object_by [] [] ["axios"; "http"] false) (map_to_list tsHTTPMethods) "" false;
     ts_rule (object_by ["ky"; "got"; "superagent"] [] [] false) (map_to_list tsHTTPMethods) "" false;
     ts_rule any_object [("fetch", "GET")] "method" false;
     ts_rule (object_by [""] [] ["axios"; "http"; "helpers"; "client"] true)
       [("axios", "GET"); ("request", "GET"); ("httpRequest", "GET"); ("requestWithAuthentication", "GET");
        ("httpRequestWithAuthentication", "GET"); ("requestOAuth1", "GET"); ("requestOAuth2", "GET")] "method" true];
  ds_Produce := {|
    pr_Object := any_object; pr_Methods := ["send"]; pr_TopicArg := 0; pr_TopicFromField := "topic"; pr_Topic := no_topic;
    pr_RecvType := any_object; pr_OmitArgs := true; pr_Loose := true; pr_NeedsBroker := false; pr_Conf := ConfHigh |} :: tsBrokerProduce;
  ds_Consume := {|
    cr_Object := any_object; cr_Methods := ["subscribe"]; cr_TopicArg := 0; cr_TopicArgList := false; cr_TopicsFromFields := ["topic"; "topics"];
    cr_Topic := no_topic; cr_RecvType := any_object; cr_Loose := true; cr_NeedsBroker := false; cr_Conf := ConfHigh |} :: tsBrokerConsume;
  ds_Broker := true |}.
Definition tsORMWriteMethods : list string :=
  ["save"; "insert"; "update"; "upsert"; "delete"; "remove"; "softDelete"; "softRemove"; "restore"; "increment"; "decrement"; "persist";
   "persistAndFlush"; "removeAndFlush"; "nativeInsert"; "nativeUpdate"; "nativeDelete"; "upsertMany"; "insertMany"; "nativeUpdateMany"].
Definition tsORMReadMethods : list string :=
  ["find"; "findAll"; "findOne"; "findOneBy"; "findBy"; "findAndCount"; "findOneOrFail"; "findOneByOrFail"; "findByIds"; "count"; "countBy";
   "exist"; "exists"; "createQueryBuilder"; "qb"].
Definition tsORMRecv : objectMatch :=
  object_by ["em"; "this.em"; "orm.em"] [] ["repository"; "repo"; "manager"; "datasource"; "entitymanager"] true.
Definition prismaWriteMethods : list string := ["create"; "createMany"; "update"; "updateMany"; "upsert"; "delete"; "deleteMany"].
Definition prismaReadMethods : list string :=
  ["findMany"; "findUnique"; "findFirst"; "findUniqueOrThrow"; "findFirstOrThrow"; "count"; "aggregate"].
Definition tsClientObjects : objectMatch := object_by ["ky"; "got"; "superagent"] [] ["axios"; "http"] false.
Definition tsDecoratorSkip : list string :=
  ["export"; "default"; "abstract"; "declare"; "comment"; "async"; "static"; "readonly"; "accessibility_modifier"; "override_modifier"].

(** ** The state of the extractor *)

Record tsExtractor := {
  ts_consts : gmap string string; ts_aliases : aliasTable; ts_clients : gmap string string; ts_types : gmap string string;
  ts_prefixes : gmap string string; ts_queues : gmap string string; ts_objects : gmap string (gmap string string) }.
Definition newTsExtractor : tsExtractor :=
  {| ts_consts := ∅; ts_aliases := []; ts_clients := ∅; ts_types := ∅; ts_prefixes := ∅; ts_queues := ∅; ts_objects := ∅ |}.
Inductive ts_binding :=
  | TsConst (name value : string) | TsAlias (chain : lineage) (name expr : string) | TsClient (name service : string) | TsType (name typ : string)
  | TsPrefix (name path : string) | TsQueue (name queue : string) | TsObject (name : string) (fields : gmap string string).
Definition ts_bind (b : ts_binding) (t : tsExtractor) : tsExtractor := {|
  ts_consts := match b with TsConst n v => <[n := v]> (ts_consts t) | _ => ts_consts t end;
  ts_aliases := match b with TsAlias chain n e => record_alias chain n e (ts_aliases t) | _ => ts_aliases t end;
  ts_clients := match b with TsClient n v => <[n := v]> (ts_clients t) | _ => ts_clients t end;
  ts_types := match b with TsType n v => <[n := v]> (ts_types t) | _ => ts_types t end;
  ts_prefixes := match b with TsPrefix n v => <[n := v]> (ts_prefixes t) | _ => ts_prefixes t end;
  ts_queues := match b with TsQueue n v => <[n := v]> (ts_queues t) | _ => ts_queues t end;
  ts_objects := match b with TsObject n f => <[n := f]> (ts_objects t) | _ => ts_objects t end |}.
Definition ts_binds (bs : list ts_binding) (t : tsExtractor) : tsExtractor := foldl (λ t b, ts_bind b t) t bs.
Abbreviation tsState := (tsExtractor * fileCtx)%type.

(** ** Expressions *)

(** [resolveString], [stringsInExpr] *)
Definition ts_resolveString (consts : gmap string string) (expr : string) : option string :=
  let expr := TrimSpace expr in
  match (match expr with String "`"%char rest => but_last rest | _ => None end) with
  | Some (body, "`"%char) => if Contains expr "${" then None else Some body
  | _ => const_resolve consts expr
  end.
Definition stringsInExpr (consts : gmap string string) (expr : string) : list string :=
  omap (ts_resolveString consts) (SplitByte (Trim (TrimSpace expr) "[]") ",").

(** [tsObjectFields], [optionsFields] *)
Definition object_field (fc : fileCtx) (fields : gmap string string) (pair : Node) : gmap string string :=
  if is_type "pair" pair then <[unquoted (field_text fc pair "key") := field_text fc pair "value"]> fields
  else if is_type "shorthand_property_identifier" pair then <[text fc pair := text fc pair]> fields else fields.
Definition tsObjectFields (fc : fileCtx) (n : Node) : option (gmap string string) :=
  if negb (is_type "object" n) then None
  else let fields := foldl (object_field fc) ∅ (NamedChildren n) in if bool_decide (fields = ∅) then None else Some fields.
Definition optionsFields (fc : fileCtx) (t : tsExtractor) (nodes : list Node) : gmap string string :=
  default ∅ (head (omap (λ n, match tsObjectFields fc n with
                              | Some f => Some f
                              | None => if is_type "identifier" n then ts_objects t !! text fc n else None
                              end) nodes)).

(** [tsEntityArg]: one of its two unwrappings, and the name left. *)
Definition unwrap_call (e : string) : option string :=
  match callHead e with
  | Some head =>
      let inner := TrimSuffix (TrimPrefix (TrimSpace (String.substring (String.length head) (String.length e) e)) "(") ")" in
      if ContainsFunc (λ c, ContainsByte c ",{}[]'" || Ascii.eqb c "034") inner then None else Some (TrimSpace inner)
  | None => Some e
  end.
Definition tsEntityArg (expr : string) : string :=
  match unwrap_call (TrimSpace expr) ≫= unwrap_call with
  | Some e => let name := lastComponent (trimGenericArgs e) in if first_byte is_upper_byte name && isIdentLike name then name else ""
  | None => ""
  end.
Definition reGetRepository : Regexp := MustCompile "getRepository\s*\(\s*([^),]*)\)".
Definition tsRepositoryEntity (object recvType : string) : string :=
  match (if hasSuffixFold (trimGenericArgs recvType) "repository" then match genericArgs recvType with a :: _ => tsEntityArg a | [] => "" end else "") with
  | "" => match FindStringSubmatch reGetRepository object with Some m => tsEntityArg (sql_group m 1) | None => "" end
  | e => e
  end.

(** ** Constants and mounts *)

Definition constructor_of (fc : fileCtx) (value : Node) : string :=
  lastComponent (match ChildByFieldName value "constructor" with Some c => text fc c | None => text_of fc (head (NamedChildren value)) end).
Definition ts_new (fc : fileCtx) (t : tsExtractor) (name : string) (value : Node) : list ts_binding :=
  if negb (is_type "new_expression" value) then []
  else
    let cn := constructor_of fc value in
    match grpcServiceFromType cn with "" => [] | svc => [TsClient name svc] end ++
    match (if one_of ["Queue"; "Worker"; "QueueScheduler"] cn then head (argNodes value "arguments") else None) ≫= λ a, ts_resolveString (ts_consts t) (text fc a) with
    | Some q => [TsQueue name q]
    | None => []
    end.
Definition ts_local (fc : fileCtx) (chain : lineage) (name : string) (value : Node) : list ts_binding :=
  if one_of ["identifier"; "member_expression"; "call_expression"] (Type_ value) then
    TsAlias chain name (text fc value) ::
    match tsRepositoryEntity (text fc value) "" with "" => [] | e => [TsType name ("Repository<" +:+ e +:+ ">")] end
  else if is_type "object" value then match tsObjectFields fc value with Some f => [TsObject name f] | None => [] end
  else [].
Definition ts_const_node (fc : fileCtx) (chain : lineage) (n : Node) (t : tsExtractor) : tsExtractor :=
  let name := field_text fc n "name" in
  if negb (is_type "variable_declarator" n) || String.eqb name "" then t
  else match ChildByFieldName n "value" with
  | None => t
  | Some value =>
      match unquote (text fc value) with
      | Some v => ts_bind (TsConst name v) t
      | None => ts_binds (ts_new fc t name value ++ ts_local fc chain name value) t
      end
  end.
Fixpoint ts_collectConsts (fc : fileCtx) (above : lineage) (n : Node) (t : tsExtractor) : tsExtractor :=
  let chain := self n :: above in
  let '(SyntaxNode _ _ cs) := n in each_named (ts_collectConsts fc chain) cs (ts_const_node fc chain n t).

(** [collectMounts] *)
Definition mount_under (fc : fileCtx) (prefix : string) (t : tsExtractor) (a : Node) : tsExtractor :=
  if is_type "identifier" a
  then ts_bind (TsPrefix (text fc a) (joinPath prefix (default "" (ts_prefixes t !! text fc a)))) t else t.
Definition mount_node (fc : fileCtx) (n : Node) (t : tsExtractor) : tsExtractor :=
  match (if is_type "call_expression" n then ChildByFieldName n "function" else None) with
  | None => t
  | Some fn =>
      match (if String.eqb (lastComponent (text fc fn)) "use" then argNodes n "arguments" else []) with
      | path :: (_ :: _) as nodes =>
          match rooted (ts_resolveString (ts_consts t) (text fc path)) with
          | Some prefix => foldl (mount_under fc prefix) t (drop 1 nodes)
          | None => t
          end
      | _ => t
      end
  end.
Fixpoint collectMounts (fc : fileCtx) (n : Node) (t : tsExtractor) : tsExtractor :=
  let '(SyntaxNode _ _ cs) := n in each_named (collectMounts fc) cs (mount_node fc n t).

(** ** Decorators *)

Record tsDecorator := { de_name : string; de_args : list string; de_raws : list string }.
Definition de_arg (d : tsDecorator) (i : nat) : string := default "" (de_args d !! i).
Definition de_rawArg (d : tsDecorator) (i : nat) : string := default "" (de_raws d !! i).
Definition decorator_of (fc : fileCtx) (d : Node) : option tsDecorator :=
  match NamedChildren d with
  | [] => None
  | body :: _ =>
      Some (if is_type "call_expression" body then
              let raws := map (text fc) (argNodes body "arguments") in
              {| de_name := lastComponent (field_text fc body "function"); de_args := map (λ raw, default "" (unquote raw)) raws; de_raws := raws |}
            else {| de_name := lastComponent (text fc body); de_args := []; de_raws := [] |})
  end.
(** The decorators before a declaration, among its siblings nearest first. *)
Fixpoint decorators_before (before : list Node) : list Node :=
  match before with
  | [] => []
  | p :: before =>
      if is_type "decorator" p then p :: decorators_before before
      else if one_of tsDecoratorSkip (Type_ p) then decorators_before before else []
  end.
Definition tsDecorators (fc : fileCtx) (before : list Node) (decl : Node) : list tsDecorator :=
  omap (decorator_of fc) (filter (λ c, is_type "decorator" c = true) (Children decl) ++ decorators_before before).
Definition reTSEntityTable : Regexp :=
  MustCompile ("\b(?:tableName|name)\s*:\s*[" +:+ quote +:+ "'`]([^" +:+ quote +:+ "'`]+)").
Definition tsEntityTable (d : tsDecorator) (class : string) : string :=
  let name := match de_arg d 0 with
              | "" => match FindStringSubmatch reTSEntityTable (de_rawArg d 0) with Some m => sql_group m 1 | None => "" end
              | name => name
              end in
  if String.eqb name "" then tableName class else sqlTableName name.

Example names_in_patterns :
  tsEntityTable {| de_name := "Entity"; de_args := [""]; de_raws := ["{ tableName: 'Orders' }"] |} "Order" = "orders" ∧
  tsRepositoryEntity "this.ds.getRepository( Order )" "" = "Order".
Proof. vm_compute. done. Qed.

(** [applyMethodDecorators] *)
Definition ts_decorated (n : Node) (idx : nat) (u : ASTUnit) (basePath : string) (fc : fileCtx) (d : tsDecorator) : fileCtx :=
  let lower := ToLower (de_name d) in
  match (if String.eqb (de_name d) lower then None else tsHTTPMethods !! lower) with
  | Some m =>
      let path := joinPath basePath (de_arg d 0) in
      let '(ridx, fc) := addUnit (Place n) KindHTTPRoute (m +:+ " " +:+ path) (routeKey m path) ("path:" +:+ path) "" fc in
      addEdge (Z.of_nat ridx) EdgeHandledBy (u_Name u) (u_StartLine u) ConfHigh None fc
  | None =>
      match (if one_of ["EventPattern"; "MessagePattern"; "OnEvent"; "Process"; "SubscribeMessage"] (de_name d) then de_arg d 0 else "") with
      | "" => fc
      | topic => let '(key, name) := topicEdgeKey topic in
                 addEdge (Z.of_nat idx) EdgeConsumes key (u_StartLine u) ConfHigh (Some (topic_meta name [] ∅ ∅)) fc
      end
  end.

(** ** Declarations *)

(** The named children of a node, each with all the siblings before it, nearest first. *)
Definition each_sibling {S} (f : list Node → Node → S → S) : list Node → children → S → S :=
  fix go before cs s :=
    match cs with [] => s | (_, named, c) :: cs => go (c :: before) cs (if (named : bool) then f before c s else s) end.

(** [recordParamTypes], [recordFieldType] *)
Definition trim_annotation (typ : string) : string := TrimPrefix (TrimSpace typ) ":".
Definition tsFirstOfType : string → Node → option Node := ktFirstDescendant.
Definition param_type (fc : fileCtx) (p : Node) : option ts_binding :=
  let '(pat, typ) := match ChildByFieldName p "pattern", ChildByFieldName p "type" with
                     | Some pat, Some typ => (Some pat, Some typ)
                     | _, _ => (tsFirstOfType "identifier" p, tsFirstOfType "type_annotation" p)
                     end in
  match pat, typ with
  | Some pat, Some typ => Some (TsType (text fc pat) (trim_annotation (text fc typ)))
  | _, _ => None
  end.
Definition recordParamTypes (fc : fileCtx) (params : option Node) : list ts_binding :=
  match params with Some params => omap (param_type fc) (NamedChildren params) | None => [] end.
Definition recordFieldType (fc : fileCtx) (n : Node) : list ts_binding :=
  let name := field_text fc n "name" in
  let typ := field_text fc n "type" in
  if String.eqb name "" || String.eqb typ "" then [] else [TsType name (trim_annotation typ)].

(** [walkDeclsIn]: what a node other than a class declares. *)
Definition ts_method (n : Node) (scope basePath : string) (before : list Node) (st : tsState) : tsState :=
  let '(t, fc) := st in
  let name := field_text fc n "name" in
  if String.eqb name "constructor" then (ts_binds (recordParamTypes fc (ChildByFieldName n "parameters")) t, fc)
  else if String.eqb name "" then st
  else
    let u := unit_at (Place n) "method" name (py_qualify scope name) (field_text fc n "parameters") "" in
    let '(idx, fc) := push_unit u fc in
    (t, foldl (ts_decorated n idx u basePath) fc (tsDecorators fc before n)).
Definition ts_variable (n : Node) (scope : string) (fc : fileCtx) : fileCtx :=
  let name := field_text fc n "name" in
  match (if String.eqb name "" then None else ChildByFieldName n "value") with
  | Some value =>
      if one_of ["arrow_function"; "function"; "function_expression"] (Type_ value)
      then snd (jvm_declare n "function" name (py_qualify scope name) (field_text fc value "parameters") fc) else fc
  | None => fc
  end.
Definition ts_declaration (n : Node) (scope basePath : string) (before : list Node) (st : tsState) : tsState :=
  let '(t, fc) := st in
  let name := field_text fc n "name" in
  if one_of ["function_declaration"; "generator_function_declaration"] (Type_ n) then
    (t, if String.eqb name "" then fc
        else snd (jvm_declare n "function" name (py_qualify scope name) (field_text fc n "parameters") fc))
  else if is_type "method_definition" n then ts_method n scope basePath before st
  else if is_type "public_field_definition" n then (ts_binds (recordFieldType fc n) t, fc)
  else if is_type "variable_declarator" n then (t, ts_variable n scope fc)
  else st.
(** A class: its unit, and for each of its decorators the base of its routes or its table. *)
Definition class_decorator (n : Node) (name basePath doc : string) (st : string * fileCtx) (d : tsDecorator) : string * fileCtx :=
  let '(classBase, fc) := st in
  if String.eqb (de_name d) "Controller" then (joinPath basePath (de_arg d 0), fc)
  else if String.eqb (de_name d) "Entity" then
    let tbl := tsEntityTable d name in
    (classBase, if String.eqb tbl "" then fc else snd (addUnit (Place n) KindDBTable tbl (DB tbl) ("entity:" +:+ name) doc fc))
  else st.
Definition ts_class (n : Node) (name scope basePath : string) (before : list Node) (fc : fileCtx) : string * fileCtx :=
  let doc := extractLineComments (fc_src fc) (Z.to_nat (sp_StartRow (Place n))) "//" in
  let '(_, fc) := addUnit (Place n) "class" name (py_qualify scope name) "" doc fc in
  foldl (class_decorator n name basePath doc) (basePath, fc) (tsDecorators fc before n).
Fixpoint walkDeclsIn (body : bool) (scope basePath : string) (before : list Node) (n : Node) (st : tsState) : tsState :=
  let '(SyntaxNode _ _ cs) := n in
  let '(t, fc) := st in
  let name := field_text fc n "name" in
  if body then each_sibling (walkDeclsIn false scope basePath) [] cs st
  else if is_type "class_declaration" n && negb (String.eqb name "") then
    let '(classBase, fc) := ts_class n name scope basePath before fc in
    on_field "body" (walkDeclsIn true (py_qualify scope name) classBase []) id cs (t, fc)
  else each_sibling (walkDeclsIn false scope basePath) [] cs (ts_declaration n scope basePath before st).

(** ** Calls *)

Definition tsHandlerLike (n : Node) : bool :=
  one_of ["arrow_function"; "function"; "function_expression"; "generator_function"; "identifier"; "member_expression"; "call_expression"; "array"]
    (Type_ n).
Definition isTSIdentifier (s : string) : bool :=
  str_forallb (λ c, IsWordByte c || Ascii.eqb c "$" || Ascii.eqb c ".") s && negb (String.eqb s "").

(** [prismaAccess], [ormAccess]: the table, the kind of the edge and its confidence. *)
Definition prismaAccess (object method : string) : option (string * string) :=
  let write := one_of prismaWriteMethods method in
  if negb (write || one_of prismaReadMethods method) then None
  else match CutLast (Ascii.eqb ".") object with
  | None => None
  | Some (before, model) =>
      let receiver := ToLower before in
      if negb (HasSuffix receiver "prisma" || HasSuffix receiver "db") || negb (isIdentLike model) then None
      else Some (snakeCase model, if write then EdgeWritesTo else EdgeReadsFrom)
  end.
Definition entity_table (entity : string) (conf : f32) : option (string * f32) :=
  if String.eqb entity "" then None else match tableName entity with "" => None | tbl => Some (tbl, conf) end.
Definition ormAccess (t : tsExtractor) (object name : string) (args : list string) : option (string * string * f32) :=
  let write := one_of tsORMWriteMethods name in
  if negb (write || one_of tsORMReadMethods name) then None
  else
    let kind := if write then EdgeWritesTo else EdgeReadsFrom in
    let named := match args with
                 | a :: _ => if object_matches tsORMRecv object then entity_table (tsEntityArg a) ConfHeuristic else None
                 | [] => None
                 end in
    match entity_table (tsRepositoryEntity object (default "" (ts_types t !! lastComponent object))) ConfCrossFile with
    | Some (tbl, conf) => Some (tbl, kind, conf)
    | None => match named with Some (tbl, conf) => Some (tbl, kind, conf) | None => None end
    end.

(** [grpcServiceFromDefinition], [trimCallSuffix], [unitNamed] *)
Definition grpcServiceFromDefinition (expr : string) : string :=
  match CutSuffix (TrimSpace expr) ".service" with
  | Some rest => let svc := lastComponent rest in if first_byte is_upper_byte svc then svc else ""
  | None => ""
  end.
Definition trimCallSuffix (expr : string) : string :=
  match callHead (TrimSpace expr) with
  | Some head => default head (CutSuffix head ".bind")
  | None => TrimSpace expr
  end.
Definition unitNamed (fc : fileCtx) (name : string) : option nat :=
  if String.eqb name "" then None
  else fst <$> list_find (λ u, String.eqb (u_Name u) name && one_of ["function"; "method"] (u_Kind u) = true) (fc_units fc).

(** What the steps of [handleCall] share; [helper.call(this, ...)] is a call of the helper. *)
Record tsCall := {
  tc_node : Node; tc_fnText : string; tc_name : string; tc_object : string; tc_nodes : list Node; tc_args : list string; tc_line : Z; tc_pos : Z;
  tc_src : Z }.
Definition ts_call_of (fc : fileCtx) (call fn : Node) : tsCall :=
  let fnText := text fc fn in
  let nodes := argNodes call "arguments" in
  let fnText := if String.eqb (lastComponent fnText) "call" && negb (String.eqb (callee_object fnText) "") && negb (bool_decide (nodes = []))
                then callee_object fnText else fnText in
  let pos := sp_StartByte (Place call) in {|
  tc_node := call; tc_fnText := fnText; tc_name := lastComponent fnText; tc_object := callee_object fnText; tc_nodes := nodes;
  tc_args := map (text fc) nodes; tc_line := sp_StartRow (Place call) + 1; tc_pos := pos; tc_src := enclosingUnit pos callableKinds fc |}.
Definition ts_aliases_for (t : tsExtractor) (c : tsCall) (fields : gmap string string) : gmap string string :=
  relevant (ts_aliases t) (tc_pos c) (tc_args c) fields.
Definition ts_meta (t : tsExtractor) (c : tsCall) (topic : string) (fields : gmap string string) : EdgeMeta :=
  topic_meta topic (tc_args c) fields (ts_aliases_for t c fields).
Definition ts_recvType (t : tsExtractor) (c : tsCall) : string := default "" (ts_types t !! lastComponent (tc_object c)).
Definition ts_grpc (t : tsExtractor) (fc : fileCtx) : bool := hasGRPC fc || negb (bool_decide (ts_clients t = ∅)).

(** A route is registered. *)
Definition ts_route (t : tsExtractor) (c : tsCall) (fc : fileCtx) : option fileCtx :=
  match tsHTTPMethods !! tc_name c, tc_nodes c, last (tc_nodes c) with
  | Some m, path :: _ :: _, Some handler =>
      if String.eqb (tc_object c) "" || object_matches tsClientObjects (tc_object c) || negb (tsHandlerLike handler) then None
      else match rooted (ts_resolveString (ts_consts t) (text fc path)) with
      | None => None
      | Some path =>
          let path := joinPath (default "" (ts_prefixes t !! lastComponent (tc_object c))) path in
          let '(idx, fc) := addUnit (Place (tc_node c)) KindHTTPRoute (m +:+ " " +:+ path) (routeKey m path) ("path:" +:+ path) "" fc in
          let handler := text fc handler in
          Some (if isTSIdentifier handler then addEdge (Z.of_nat idx) EdgeHandledBy handler (tc_line c) ConfHigh None fc else fc)
      end
  | _, _, _ => None
  end.

(** One rpc of a registered service, for the function that handles it. *)
Definition handle_rpc (svc : string) (line : Z) (fc : fileCtx) (kv : string * string) : fileCtx :=
  let '(key, value) := kv in
  match (match unitNamed fc (lastComponent (TrimSuffix (trimCallSuffix value) "()")) with Some i => Some i | None => unitNamed fc key end) with
  | Some i => addEdge (Z.of_nat i) EdgeImplementsRPC (grpcKey svc (capitalizeFirst key)) line ConfCrossFile None fc
  | None => fc
  end.

(** A client is called. *)
Definition ts_rpc_edge (t : tsExtractor) (c : tsCall) (svc : string) (conf : f32) (fields : gmap string string) (fc : fileCtx) : option fileCtx :=
  if String.eqb svc "" || String.eqb (tc_name c) "" then None
  else Some (contractSite ContractKindRPC true
               (addEdge (tc_src c) EdgeRPCCall (grpcKey svc (capitalizeFirst (tc_name c))) (tc_line c) conf (Some (ts_meta t c "" fields)) fc)).
Definition ts_rpc (t : tsExtractor) (c : tsCall) (fc : fileCtx) : option fileCtx :=
  let svc := default (inlineStubService (tc_object c) (ts_grpc t fc)) (ts_clients t !! tc_object c) in
  ts_rpc_edge t c svc ConfHigh (default ∅ (head (tc_nodes c) ≫= tsObjectFields fc)) fc.
Definition ts_site (t : tsExtractor) (c : tsCall) (fields : gmap string string) : callSite := {|
  cs_Callee := tc_fnText c; cs_Name := tc_name c; cs_Object := tc_object c; cs_RecvType := ts_recvType t c; cs_Args := tc_args c; cs_Kwargs := ∅;
  cs_Fields := fields; cs_Aliases := ts_aliases_for t c fields; cs_Line := tc_line c; cs_Src := tc_src c |}.
(** A queue is filled. *)
Definition ts_queue (t : tsExtractor) (c : tsCall) (fields : gmap string string) (fc : fileCtx) : option fileCtx :=
  match (if one_of ["add"; "addBulk"] (tc_name c) then ts_queues t !! lastComponent (tc_object c) else None) with
  | Some q =>
      let '(key, topic) := topicEdgeKey q in
      Some (contractSite ContractKindMessaging true
              (addEdge (tc_src c) EdgeProduces key (tc_line c) ConfHigh (Some (ts_meta t c topic fields)) fc))
  | None => None
  end.
Definition ts_rows (t : tsExtractor) (c : tsCall) (fields : gmap string string) (fc : fileCtx) : fileCtx :=
  match (match prismaAccess (tc_object c) (tc_name c) with
         | Some (tbl, kind) => Some (tbl, kind, ConfCrossFile)
         | None => ormAccess t (tc_object c) (tc_name c) (tc_args c)
         end) with
  | Some (tbl, kind, conf) =>
      addEdge (tc_src c) kind (DB tbl) (tc_line c) conf (Some (ts_meta t c "" fields)) (contractSite ContractKindDB true fc)
  | None => fc
  end.
Definition ts_plain (t : tsExtractor) (c : tsCall) (fields : gmap string string) (fc : fileCtx) : fileCtx :=
  let fc := snd (sqlEdgesFromArgs (tc_src c) (tc_line c) (tc_args c) (ts_rows t c fields fc)) in
  if String.eqb (tc_name c) "" then fc
  else addEdge (tc_src c) EdgeCall (tc_name c) (tc_line c) ConfHeuristic
         (Some {| em_Args := tc_args c; em_Fields := ∅; em_Aliases := ts_aliases_for t c fields; em_Topic := ""; em_Path := ""; em_Method := "";
                  em_Host := ""; em_Receiver := tc_object c; em_RecvType := ts_recvType t c; em_TopicRef := ""; em_Source := "";
                  em_BaseConf := S754_zero false |}) fc.

Section Calls.
  Context (visit : gmap string string → list (string * string)).

(** [markRPCHandlers], the fields in the order the map is visited in. *)
Definition markRPCHandlers (c : tsCall) (fc : fileCtx) : option fileCtx :=
  match tc_args c, tc_nodes c with
  | def :: _, _ :: handlers :: _ =>
      let svc := if String.eqb (tc_name c) "addService" then grpcServiceFromDefinition def else "" in
      match (if String.eqb svc "" then None else tsObjectFields fc handlers) with
      | Some fields => Some (foldl (handle_rpc svc (tc_line c)) fc (visit fields))
      | None => None
      end
  | _, _ => None
  end.

(** [handleCall] *)
Definition ts_rest (t : tsExtractor) (c : tsCall) (fc : fileCtx) : fileCtx :=
  let fields := optionsFields fc t (tc_nodes c) in
  let '(done, fc) := runDetectors visit tsDetectors (ts_site t c fields) (ts_resolveString (ts_consts t)) (Some (stringsInExpr (ts_consts t))) fc in
  if done then fc
  else default (ts_plain t c fields fc)
         (first_of [ts_rpc_edge t c (grpcStubService (ts_recvType t c) (ts_grpc t fc)) ConfCrossFile fields; ts_queue t c fields] fc).
Definition ts_handleCall (t : tsExtractor) (call : Node) (fc : fileCtx) : fileCtx :=
  match ChildByFieldName call "function" with
  | None => fc
  | Some fn =>
      let c := ts_call_of fc call fn in
      match first_of [ts_route t c; markRPCHandlers c] fc with
      | Some fc => fc
      | None => if (tc_src c <? 0)%Z then fc else default (ts_rest t c fc) (ts_rpc t c fc)
      end
  end.
(** [handleNew] *)
Definition ts_handleNew (t : tsExtractor) (n : Node) (fc : fileCtx) : fileCtx :=
  let src := enclosingUnit (sp_StartByte (Place n)) callableKinds fc in
  match (if String.eqb (constructor_of fc n) "Worker" then head (argNodes n "arguments") else None) ≫= λ a, ts_resolveString (ts_consts t) (text fc a) with
  | Some q =>
      let '(key, topic) := topicEdgeKey q in
      if (src <? 0)%Z then fc
      else addEdge src EdgeConsumes key (sp_StartRow (Place n) + 1) ConfHigh (Some (topic_meta topic [] ∅ ∅)) fc
  | None => fc
  end.
(** [walkCalls] *)
Definition ts_call_node (t : tsExtractor) (n : Node) (fc : fileCtx) : fileCtx :=
  if is_type "call_expression" n then ts_handleCall t n fc else if is_type "new_expression" n then ts_handleNew t n fc else fc.
Fixpoint ts_walkCalls (t : tsExtractor) (n : Node) (fc : fileCtx) : fileCtx :=
  let '(SyntaxNode _ _ cs) := n in each_named (ts_walkCalls t) cs (ts_call_node t n fc).
(** [extract] *)
Definition ts_extract (root : Node) (fc : fileCtx) : fileCtx :=
  let t := collectMounts fc root (ts_collectConsts fc [] root newTsExtractor) in
  let '(t, fc) := walkDeclsIn false "" "" [] root (t, fc) in ts_walkCalls t root fc.
End Calls.
