(* ===== verification/ExtractCSharp.v ===== *)
(** * Units and edges of C# source ([internal/index/ast/lang_csharp.go])

    The extractor reads the syntax tree over its named nodes four times: for the
    constants, the locals requests are assembled in and the declared types, for the
    declarations with their attributes and bases, for the tables a mapping names,
    and for the calls. *)

From S2P Require Import Prelude GoStrings GoStrconv GoSort GoFloat GoRegexp GoJsonEncode Domain Store Contract MetaCodec Indexing Extract Detect Wrappers Schemas ExtractGo ExtractPython ExtractJvm.
From Stdlib Require Import Strings.Ascii.

(** ** The rules *)

Definition csharpHTTPAttrs : gmap string string := list_to_map
  [("HttpGet", "GET"); ("HttpPost", "POST"); ("HttpPut", "PUT"); ("HttpDelete", "DELETE"); ("HttpPatch", "PATCH"); ("HttpHead", "HEAD")].
Definition csharpDetectors : detectorSet := {|
  ds_HTTP :=
    [http_rule (object_by [] [] ["client"; "http"] true) any_object
       [("GetAsync", "GET"); ("GetStringAsync", "GET"); ("GetFromJsonAsync", "GET"); ("GetByteArrayAsync", "GET"); ("GetStreamAsync", "GET");
        ("PostAsync", "POST"); ("PostAsJsonAsync", "POST"); ("PutAsync", "PUT"); ("PutAsJsonAsync", "PUT"); ("DeleteAsync", "DELETE");
        ("DeleteFromJsonAsync", "DELETE"); ("PatchAsync", "PATCH"); ("PatchAsJsonAsync", "PATCH")] 0 false true];
  ds_Produce := {|
    pr_Object := any_object; pr_Methods := ["Produce"; "ProduceAsync"]; pr_TopicArg := 0; pr_TopicFromField := ""; pr_Topic := no_topic;
    pr_RecvType := any_object; pr_OmitArgs := false; pr_Loose := false; pr_NeedsBroker := false; pr_Conf := ConfHigh |} :: csBrokerProduce;
  ds_Consume := {|
    cr_Object := any_object; cr_Methods := ["Subscribe"]; cr_TopicArg := 0; cr_TopicArgList := false; cr_TopicsFromFields := [];
    cr_Topic := no_topic; cr_RecvType := any_object; cr_Loose := true; cr_NeedsBroker := false; cr_Conf := ConfHigh |} :: csBrokerConsume;
  ds_Broker := true |}.
Definition csharpEventHandlerMethods : list string := ["Handle"; "HandleAsync"; "Consume"; "ConsumeAsync"].
(** The places of the URL and of the method. *)
Definition csharpRequestCtors (name : string) : option (nat * nat) :=
  if String.eqb name "RestRequest" then Some (0, 1) else if String.eqb name "HttpRequestMessage" then Some (1, 0) else None.
Definition nonEFContexts : list string :=
  ["httpcontext"; "testcontext"; "servercallcontext"; "actioncontext"; "validationcontext"; "modelbindingcontext"; "authorizationhandlercontext";
   "synchronizationcontext"; "executioncontext"; "activitycontext"; "operationcontext"].
Definition efCoreWriteMethods : list string :=
  ["Add"; "AddAsync"; "AddRange"; "AddRangeAsync"; "Update"; "UpdateRange"; "Remove"; "RemoveRange"; "ExecuteDelete"; "ExecuteUpdate";
   "ExecuteDeleteAsync"; "ExecuteUpdateAsync"].
Definition efCoreReadMethods : list string :=
  ["Where"; "Select"; "SelectMany"; "Include"; "ThenInclude"; "Find"; "FindAsync"; "First"; "FirstAsync"; "FirstOrDefault"; "FirstOrDefaultAsync";
   "Single"; "SingleAsync"; "SingleOrDefault"; "SingleOrDefaultAsync"; "Any"; "AnyAsync"; "All"; "AllAsync"; "Count"; "CountAsync"; "LongCount";
   "LongCountAsync"; "ToList"; "ToListAsync"; "ToArray"; "ToArrayAsync"; "ToDictionary"; "ToDictionaryAsync"; "OrderBy"; "OrderByDescending";
   "GroupBy"; "Skip"; "Take"; "AsNoTracking"; "AsQueryable"; "AsEnumerable"; "Sum"; "SumAsync"; "Max"; "MaxAsync"; "Min"; "MinAsync";
   "FromSqlRaw"; "FromSqlInterpolated"; "FromSql"].
Definition reDbSet : Regexp := MustCompile "\bDbSet\s*<\s*([A-Za-z_][A-Za-z0-9_.]*)".
Definition reEFCoreSet : Regexp := MustCompile "\bSet\s*<\s*([A-Za-z_][A-Za-z0-9_.]*)\s*>\s*\(\s*\)\s*$".
Definition reEFEntity : Regexp := MustCompile
  "\b(?:IEntityTypeConfiguration|EntityTypeBuilder|OwnedNavigationBuilder|Entity)\s*<\s*([A-Za-z_][A-Za-z0-9_.]*)\s*>".

Example entities_in_generics :
  FindStringSubmatch reDbSet "IQueryable<DbSet < Models.Order >>" = Some ["DbSet < Models.Order"; "Models.Order"] ∧
  FindStringSubmatch reEFCoreSet "_context.Set<Order>()" = Some ["Set<Order>()"; "Order"] ∧
  FindStringSubmatch reEFEntity "modelBuilder.Entity<Item>" = Some ["Entity<Item>"; "Item"].
Proof. vm_compute. done. Qed.

(** ** The state of the extractor *)

Record csharpExtractor := {
  cs_ns : string; cs_consts : gmap string string; cs_aliasTable : aliasTable; cs_locals : aliasTable; cs_clients : gmap string string;
  cs_types : gmap string string; cs_dbSets : gmap string string; cs_rpcSvc : string; cs_eventTopic : string }.
Definition newCsharpExtractor : csharpExtractor := {|
  cs_ns := ""; cs_consts := ∅; cs_aliasTable := []; cs_locals := []; cs_clients := ∅; cs_types := ∅; cs_dbSets := ∅; cs_rpcSvc := "";
  cs_eventTopic := "" |}.
Inductive cs_binding :=
  | CsNamespace (name : string) | CsConst (name value : string) | CsAlias (chain : lineage) (name expr : string)
  | CsLocal (chain : lineage) (name expr : string) | CsClient (name service : string) | CsType (name typ : string) | CsDbSet (name table : string)
  | CsContracts (service topic : string).
Definition cs_bind (b : cs_binding) (c : csharpExtractor) : csharpExtractor := {|
  cs_ns := match b with CsNamespace n => n | _ => cs_ns c end;
  cs_consts := match b with CsConst n v => <[n := v]> (cs_consts c) | _ => cs_consts c end;
  cs_aliasTable := match b with CsAlias chain n e => record_alias chain n e (cs_aliasTable c) | _ => cs_aliasTable c end;
  cs_locals := match b with CsLocal chain n e => record_alias chain n e (cs_locals c) | _ => cs_locals c end;
  cs_clients := match b with CsClient n v => <[n := v]> (cs_clients c) | _ => cs_clients c end;
  cs_types := match b with CsType n v => <[n := v]> (cs_types c) | _ => cs_types c end;
  cs_dbSets := match b with CsDbSet n v => <[n := v]> (cs_dbSets c) | _ => cs_dbSets c end;
  cs_rpcSvc := match b with CsContracts svc _ => svc | _ => cs_rpcSvc c end;
  cs_eventTopic := match b with CsContracts _ topic => topic | _ => cs_eventTopic c end |}.
Definition cs_binds (bs : list cs_binding) (c : csharpExtractor) : csharpExtractor := foldl (λ c b, cs_bind b c) c bs.
Abbreviation csState := (csharpExtractor * fileCtx)%type.
Definition cs_qualify (c : csharpExtractor) (scope name : string) : string :=
  if negb (String.eqb scope "") then scope +:+ "." +:+ name
  else if negb (String.eqb (cs_ns c) "") then cs_ns c +:+ "." +:+ name else name.

(** ** Expressions *)

(** [csharpInterpolatedBody] *)
Definition csharpInterpolatedBody (expr : string) : option string :=
  match head (omap (CutPrefix (TrimSpace expr)) ["$@" +:+ quote; "@$" +:+ quote; "$" +:+ quote +:+ quote +:+ quote; "$" +:+ quote]) with
  | Some rest => match Cut (Ascii.eqb "034") rest with (body, Some _) => Some body | (_, None) => None end
  | None => None
  end.
(** The loop of [interpolatedRoute]; [hole] is the hole under way. *)
Definition fill_hole (consts : gmap string string) (hole : string) : string :=
  match const_resolve consts (fst (Cut (Ascii.eqb ":") hole)) with
  | Some v => if ContainsFunc (λ c, ContainsByte c "{} " || Ascii.eqb c "009") v then "{}" else v
  | None => "{}"
  end.
Fixpoint interpolate (consts : gmap string string) (hole : option string) (body : string) : option string :=
  match body with
  | "" => match hole with None => Some "" | Some _ => None end
  | String b r =>
      match hole with
      | Some h => if Ascii.eqb b "}" then String.append (fill_hole consts h) <$> interpolate consts None r
                  else interpolate consts (Some (h +:+ String b "")) r
      | None =>
          if Ascii.eqb b "{" then
            match r with
            | String d r' => if Ascii.eqb d "{" then String "{" <$> interpolate consts None r' else interpolate consts (Some "") r
            | "" => None
            end
          else if Ascii.eqb b "}" then
            match r with
            | String d r' => String "}" <$> (if Ascii.eqb d "}" then interpolate consts None r' else interpolate consts None r)
            | "" => Some "}"
            end
          else String b <$> interpolate consts None r
      end
  end.
Definition interpolatedRoute (consts : gmap string string) (expr : string) : option string :=
  match csharpInterpolatedBody expr ≫= interpolate consts None with
  | Some s => if (negb (isRelativeRoute s) && negb (isURLShaped s)) || negb (hasLiteralSegment s) then None else Some s
  | None => None
  end.
(** [resolve], [resolveAt] *)
Definition cs_resolve (c : csharpExtractor) (expr : string) : option string :=
  match const_resolve (cs_consts c) expr with Some v => Some v | None => interpolatedRoute (cs_consts c) expr end.
Definition resolveAt (c : csharpExtractor) (pos : Z) (expr : string) : option string :=
  match cs_resolve c expr with
  | Some v => Some v
  | None => aliases_at (cs_locals c) pos !! TrimSpace expr ≫= interpolatedRoute (cs_consts c)
  end.
(** [argType] *)
Definition argType (c : csharpExtractor) (expr : string) : string :=
  let expr := TrimSpace expr in
  match CutPrefix expr "new " with
  | Some rest =>
      match callHead ("new " +:+ rest) with
      | Some head => TrimSpace (TrimPrefix head "new")
      | None => match Cut (λ b, ContainsByte b "({ ") rest with
                | (String b r, Some _) => TrimSpace (String b r)
                | _ => TrimSpace rest
                end
      end
  | None => default "" (cs_types c !! lastComponent expr)
  end.

(** ** Constants and types *)

(** The constructed type of a local, and the client it makes of it. *)
Definition cs_constructed (c : csharpExtractor) (name typ : string) : list cs_binding :=
  match rev (SplitByte typ ".") with
  | last :: outer :: _ => if String.eqb last (outer +:+ "Client") then [CsClient name (TrimSuffix last "Client")] else []
  | _ => []
  end ++ match cs_types c !! name with Some _ => [] | None => [CsType name typ] end.
Definition cs_variable (fc : fileCtx) (chain : lineage) (n : Node) (c : csharpExtractor) : list cs_binding :=
  let name := default "" (head (filter (λ t, t ≠ "") (map (text fc) (filter (λ d, is_type "identifier" d = true) (NamedChildren n))))) in
  let valueNode := match firstChildOfType n "=" with Some _ => last (NamedChildren n) | None => None end in
  match (if String.eqb name "" then None else valueNode) with
  | None => []
  | Some v =>
      let value := text fc v in
      match unquote value with
      | Some lit => [CsConst name lit]
      | None =>
          if is_type "interpolated_string_expression" v then [CsLocal chain name (TrimSpace value)]
          else if isAliasExpr value || is_type "invocation_expression" v then [CsAlias chain name (TrimSpace value)]
          else if is_type "object_creation_expression" v
               then match NamedChildren v with tn :: _ => cs_constructed c name (text fc tn) | [] => [] end
          else []
      end
  end.
(** [recordDeclaredType] *)
Definition cs_declared (fc : fileCtx) (n : Node) : list cs_binding :=
  let ds := filter (λ d, is_type "variable_declaration" d = true) (NamedChildren n) in
  let typ := default "" (head (filter (λ t, t ≠ "") (field_text fc n "type" :: map (λ d, field_text fc d "type") ds))) in
  let names := field_text fc n "name" ::
    concat (map (λ d, map (λ v, text_of fc (head (NamedChildren v))) (filter (λ v, is_type "variable_declarator" v = true) (NamedChildren d))) ds) in
  if String.eqb typ "" then []
  else
    let tbl := match FindStringSubmatch reDbSet typ with Some m => tableName (sql_group m 1) | None => "" end in
    concat (map (λ name, CsType name typ :: if String.eqb tbl "" then [] else [CsDbSet name tbl]) (filter (λ name, name ≠ "") names)).
Definition cs_const_node (fc : fileCtx) (chain : lineage) (n : Node) (c : csharpExtractor) : csharpExtractor :=
  let c := if is_type "variable_declarator" n then cs_binds (cs_variable fc chain n c) c else c in
  if one_of ["field_declaration"; "property_declaration"; "parameter"] (Type_ n) then cs_binds (cs_declared fc n) c else c.
Fixpoint cs_collectConsts (fc : fileCtx) (above : lineage) (n : Node) (c : csharpExtractor) : csharpExtractor :=
  let chain := self n :: above in
  let '(SyntaxNode _ _ cs) := n in each_named (cs_collectConsts fc chain) cs (cs_const_node fc chain n c).

(** ** Attributes and bases *)

Definition csharpAttributes (fc : fileCtx) (decl : Node) : list (string * Node) :=
  map (λ a, (field_text fc a "name", a))
      (filter (λ a, is_type "attribute" a = true) (concat (map NamedChildren (filter (λ l, is_type "attribute_list" l = true) (Children decl))))).
Definition attrValue (fc : fileCtx) (c : csharpExtractor) (attr : Node) : string :=
  match firstChildOfType attr "attribute_argument_list" with
  | Some args => default "" (head (omap (λ a, cs_resolve c (text fc a)) (NamedChildren args)))
  | None => ""
  end.
Definition attrRoutePath (fc : fileCtx) (c : csharpExtractor) (decl : Node) (className : string) : string :=
  match List.find (λ a, String.eqb (fst a) "Route") (csharpAttributes fc decl) with
  | Some (_, attr) => ReplaceAll (attrValue fc c attr) "[controller]" (ToLower (TrimSuffix className "Controller"))
  | None => ""
  end.
Definition csharpGRPCServiceFromBase (base : string) (fileHasGRPC : bool) : string :=
  let name := lastComponent (trimGenericArgs base) in
  match CutSuffix name "Base" with
  | None | Some "" => ""
  | Some stem =>
      let qualifier := TrimSuffix base ("." +:+ name) in
      if negb (String.eqb qualifier base) && String.eqb (lastComponent qualifier) stem then stem
      else if fileHasGRPC then stem else ""
  end.
(** [baseContracts] *)
Definition base_contract (fc : fileCtx) (found : string * string) (b : Node) : string * string :=
  let '(svc, topic) := found in
  let base := TrimSpace (text fc b) in
  (if String.eqb svc "" then csharpGRPCServiceFromBase base (hasGRPC fc) else svc,
   if String.eqb topic "" && one_of eventHandlerInterfaces (lastComponent (trimGenericArgs base))
   then match genericArgs base with [a] => eventTopicName a | _ => topic end else topic).
Definition baseContracts (fc : fileCtx) (decl : Node) : string * string :=
  match firstChildOfType decl "base_list" with
  | Some bases => foldl (base_contract fc) ("", "") (NamedChildren bases)
  | None => ("", "")
  end.
Definition csharpIsRPCImpl (fc : fileCtx) (n : Node) (sig : string) : bool :=
  Contains sig "ServerCallContext" && existsb (λ ch, is_type "modifier" ch && String.eqb (text fc ch) "override") (Children n).

(** ** Declarations *)

(** [handleMethod] *)
Definition cs_handles (c : csharpExtractor) (idx : nat) (line : Z) (name : string) (fc : fileCtx) : fileCtx :=
  if String.eqb (cs_eventTopic c) "" || negb (one_of csharpEventHandlerMethods name) then fc
  else let '(key, topic) := topicEdgeKey (cs_eventTopic c) in
       contractSite ContractKindMessaging true (addEdge (Z.of_nat idx) EdgeConsumes key line ConfCrossFile (Some (topic_meta topic [] ∅ ∅)) fc).
Definition cs_handleMethod (c : csharpExtractor) (n : Node) (scope basePath : string) (fc : fileCtx) : fileCtx :=
  let name := field_text fc n "name" in
  if String.eqb name "" then fc
  else
    let sig := field_text fc n "parameters" in
    let line := (sp_StartRow (Place n) + 1)%Z in
    let '(idx, fc) := jvm_declare n "method" name (cs_qualify c scope name) sig fc in
    let fc := if negb (String.eqb (cs_rpcSvc c) "") && csharpIsRPCImpl fc n sig
              then addEdge (Z.of_nat idx) EdgeImplementsRPC (grpcKey (cs_rpcSvc c) name) line ConfCrossFile None fc else fc in
    let fc := cs_handles c idx line name fc in
    foldl (λ fc attr, match csharpHTTPAttrs !! fst attr with
                      | Some method => jvm_route n basePath (attrValue fc c (snd attr)) method name fc
                      | None => fc
                      end) fc (csharpAttributes fc n).

(** [walk] of a node and of the children of a body. *)
Definition cs_class (n : Node) (name qualified : string) (st : csState) : csState :=
  let '(c, fc) := st in
  let '(_, fc) := jvm_declare n (if is_type "interface_declaration" n then "interface" else "class") name qualified "" fc in
  let '(svc, topic) := baseContracts fc n in (cs_bind (CsContracts svc topic) c, fc).
Fixpoint cs_walk (body : bool) (scope basePath : string) (n : Node) (st : csState) : csState :=
  let '(SyntaxNode _ _ cs) := n in
  let '(c, fc) := st in
  let name := field_text fc n "name" in
  if body then each_named (cs_walk false scope basePath) cs st
  else if one_of ["namespace_declaration"; "file_scoped_namespace_declaration"] (Type_ n) then
    each_named (cs_walk false scope basePath) cs (if String.eqb name "" then c else cs_bind (CsNamespace name) c, fc)
  else if one_of ["class_declaration"; "interface_declaration"; "record_declaration"; "struct_declaration"] (Type_ n) && negb (String.eqb name "") then
    let qualified := cs_qualify c scope name in
    let st := on_field "body" (cs_walk true qualified (joinPath basePath (attrRoutePath fc c n name))) id cs (cs_class n name qualified st) in
    (cs_bind (CsContracts (cs_rpcSvc c) (cs_eventTopic c)) (fst st), snd st)
  else if one_of ["method_declaration"; "constructor_declaration"; "local_function_statement"] (Type_ n) then (c, cs_handleMethod c n scope basePath fc)
  else each_named (cs_walk false scope basePath) cs st.

(** ** Mapped tables *)

(** [csharpCallArgs] *)
Definition call_arg (fc : fileCtx) (a : Node) : string :=
  let t := TrimSpace (text fc a) in
  if String.eqb (field_text fc a "name") "" then t
  else match Cut (Ascii.eqb ":") t with (_, Some expr) => TrimSpace expr | (_, None) => t end.
Definition csharpCallArgs (fc : fileCtx) (argList : option Node) : list string * gmap string string :=
  match argList with
  | None => ([], ∅)
  | Some l =>
      (map (call_arg fc) (NamedChildren l),
       foldl (λ named a, let key := field_text fc a "name" in if String.eqb key "" then named else <[key := call_arg fc a]> named) ∅ (NamedChildren l))
  end.
Definition efEntityArg (text : string) : string :=
  match FindStringSubmatch reEFEntity text with Some m => lastComponent (sql_group m 1) | None => "" end.
(** [addEFTable] *)
Definition ef_table (fc : fileCtx) (c : csharpExtractor) (n : Node) : string :=
  match fst (csharpCallArgs fc (ChildByFieldName n "arguments")) with
  | [] => ""
  | a :: rest =>
      match default "" (const_resolve (cs_consts c) a) with
      | "" => ""
      | name =>
          match default "" (head rest ≫= const_resolve (cs_consts c)) with
          | "" => sqlTableName name
          | schema => sqlTableName (schema +:+ "." +:+ name)
          end
      end
  end.
Definition addEFTable (c : csharpExtractor) (n : Node) (entity : string) (fc : fileCtx) : fileCtx :=
  let tbl := if String.eqb entity "" then "" else ef_table fc c n in
  if String.eqb tbl "" then fc else snd (jvm_declare n KindDBTable tbl (DB tbl) ("entity:" +:+ entity) fc).
(** The entity the subtree of a node configures, and the text it is read from. *)
Definition ef_text (fc : fileCtx) (n : Node) : string :=
  if one_of ["class_declaration"; "record_declaration"; "struct_declaration"] (Type_ n) then child_text fc n "base_list"
  else if is_type "method_declaration" n then field_text fc n "parameters"
  else if is_type "invocation_expression" n then field_text fc n "function" else "".
Definition ef_entity (fc : fileCtx) (n : Node) (entity : string) : string :=
  match efEntityArg (ef_text fc n) with "" => entity | e => e end.
Fixpoint collectEFTables (c : csharpExtractor) (entity : string) (n : Node) (fc : fileCtx) : fileCtx :=
  let entity := ef_entity fc n entity in
  let '(SyntaxNode _ _ cs) := n in
  each_named (collectEFTables c entity) cs
    (if is_type "invocation_expression" n && String.eqb (lastComponent (field_text fc n "function")) "ToTable" then addEFTable c n entity fc else fc).

(** ** Calls *)

(** [csharpCallee], [csharpMemberName], [csharpTypeArgs] *)
Definition csharpMemberName (fc : fileCtx) (n : option Node) : string :=
  match n with
  | None => ""
  | Some n => if is_type "generic_name" n then TrimSpace (text_of fc (head (NamedChildren n))) else lastComponent (text fc n)
  end.
Definition csharpCallee (fc : fileCtx) (fn : Node) : string * string :=
  if is_type "member_access_expression" fn then (TrimSpace (field_text fc fn "expression"), csharpMemberName fc (ChildByFieldName fn "name"))
  else if is_type "generic_name" fn then ("", csharpMemberName fc (Some fn))
  else (callee_object (text fc fn), lastComponent (text fc fn)).
Definition csharpTypeArgs (fc : fileCtx) (fn : Node) : list string :=
  let name := if is_type "member_access_expression" fn then ChildByFieldName fn "name" else Some fn in
  match name ≫= λ n, if is_type "generic_name" n then firstChildOfType n "type_argument_list" else None with
  | Some l => filter (λ arg, arg ≠ "") (map (λ a, TrimSpace (text fc a)) (NamedChildren l))
  | None => []
  end.

(** [isDbContextName], [dbSetTable], [efCoreTable] *)
Definition isDbContextName (s : string) : bool :=
  if String.eqb s "" || negb (hasSuffixFold s "context") then false else negb (one_of nonEFContexts (ToLower s)).
Definition dbSetTable (prop : string) : string :=
  let s := snakeCase prop in
  if String.eqb s "" then "" else if HasSuffix s "s" then s else tableName s.
Definition efCoreTable (c : csharpExtractor) (object method : string) : string * f32 :=
  let prop := lastComponent object in
  match default "" (cs_dbSets c !! prop), default "" ((λ m, tableName (sql_group m 1)) <$> FindStringSubmatch reEFCoreSet object) with
  | "", "" =>
      if negb (one_of efCoreWriteMethods method) && negb (one_of efCoreReadMethods method) then ("", S754_zero false)
      else match CutLast (Ascii.eqb ".") object with
      | None | Some ("", _) => ("", S754_zero false)
      | Some (before, _) =>
          let owner := lastComponent before in
          if negb (isDbContextName owner) && negb (isDbContextName (lastComponent (default "" (cs_types c !! owner)))) then ("", S754_zero false)
          else (dbSetTable prop, ConfHeuristic)
      end
  | "", tbl => (tbl, ConfCrossFile)
  | tbl, _ => (tbl, ConfCrossFile)
  end.

(** The call under way, of the record the calls of the JVM share. *)
Definition cs_call_of (c : csharpExtractor) (fc : fileCtx) (n : Node) (callee : string) (object name : string) (args : list string) : jvmCall :=
  let pos := sp_StartByte (Place n) in {|
  jc_node := n; jc_callee := callee; jc_name := name; jc_object := object; jc_args := args; jc_line := sp_StartRow (Place n) + 1;
  jc_src := enclosingUnit pos callableKinds fc; jc_aliases := relevant (cs_aliasTable c) pos args ∅;
  jc_recvType := default "" (cs_types c !! lastComponent object) |}.
Definition cs_generic (c : csharpExtractor) (k : jvmCall) (fc : fileCtx) : option fileCtx :=
  let '(ok, fc) := applyGenericRoute (Place (jc_node k)) (jc_callee k) (jc_args k) (cs_resolve c) None "" fc in if ok then Some fc else None.
Definition cs_rpc (k : jvmCall) (svc : string) (conf : f32) (fc : fileCtx) : option fileCtx :=
  let method := TrimSuffix (jc_name k) "Async" in
  if String.eqb svc "" || String.eqb method "" then None
  else Some (contractSite ContractKindRPC true
               (addEdge (jc_src k) EdgeRPCCall (grpcKey svc (capitalizeFirst method)) (jc_line k) conf (Some (jvm_meta k)) fc)).
Definition cs_topic (k : jvmCall) (kind topic receiver : string) (fields : gmap string string) (fc : fileCtx) : fileCtx :=
  let '(key, t) := topicEdgeKey topic in
  contractSite ContractKindMessaging true
    (addEdge (jc_src k) kind key (jc_line k) ConfCrossFile
       (Some {| em_Args := jc_args k; em_Fields := fields; em_Aliases := jc_aliases k; em_Topic := t; em_Path := ""; em_Method := ""; em_Host := "";
                em_Receiver := receiver; em_RecvType := ""; em_TopicRef := ""; em_Source := ""; em_BaseConf := S754_zero false |}) fc).
(** A message is published under its own type. *)
Definition cs_publish (c : csharpExtractor) (k : jvmCall) (fc : fileCtx) : option fileCtx :=
  match jc_args k with
  | a :: _ =>
      if one_of eventPublishVerbs (jc_name k) && eventPublishReceiverOK (jc_name k) (jc_object k) (jc_recvType k) then
        match eventTopicName (argType c a) with "" => None | topic => Some (cs_topic k EdgeProduces topic "" ∅ fc) end
      else None
  | [] => None
  end.
Definition cs_site (k : jvmCall) (named : gmap string string) : callSite := {|
  cs_Callee := jc_callee k; cs_Name := jc_name k; cs_Object := jc_object k; cs_RecvType := jc_recvType k; cs_Args := jc_args k; cs_Kwargs := named;
  cs_Fields := ∅; cs_Aliases := jc_aliases k; cs_Line := jc_line k; cs_Src := jc_src k |}.
(** The types of a generic call name the contract. *)
Definition cs_typed (k : jvmCall) (fn : Node) (named : gmap string string) (fc : fileCtx) : option fileCtx :=
  match genericTopicContract (jc_name k) (csharpTypeArgs fc fn) with
  | Some (kind, topic, handler) =>
      if brokerHandle fc (cs_site k named)
      then Some (cs_topic k kind topic (jc_object k) (if String.eqb handler "" then ∅ else {["handler" := handler]}) fc) else None
  | None => None
  end.
Definition cs_rows (c : csharpExtractor) (k : jvmCall) (fc : fileCtx) : fileCtx :=
  let '(tbl, conf) := efCoreTable c (jc_object k) (jc_name k) in
  if String.eqb tbl "" then fc
  else addEdge (jc_src k) (if one_of efCoreWriteMethods (jc_name k) then EdgeWritesTo else EdgeReadsFrom) (DB tbl) (jc_line k) conf
         (Some (jvm_meta k)) (contractSite ContractKindDB true fc).
Definition cs_plain (c : csharpExtractor) (k : jvmCall) (fc : fileCtx) : fileCtx :=
  addEdge (jc_src k) EdgeCall (jc_name k) (jc_line k) ConfHeuristic (Some (jvm_plain_meta k))
    (snd (sqlEdgesFromArgs (jc_src k) (jc_line k) (jc_args k) (cs_rows c k fc))).

(** [handleObjectCreation]: a request built as an object, at the places its constructor has the URL and the method. *)
Definition cs_request (c : csharpExtractor) (k : jvmCall) (urlArg methodArg : nat) (fc : fileCtx) : fileCtx :=
  match (if (jc_src k <? 0)%Z then None else jc_args k !! urlArg) with
  | None => fc
  | Some url =>
      match resolveRequestURL url (resolveAt c (sp_StartByte (Place (jc_node k)))) ConfCrossFile true with
      | None => httpCandidate (jc_src k) url "" (contractSite ContractKindHTTP false fc)
      | Some (u, conf) =>
          let method := match jc_args k !! methodArg ≫= λ a, Some (httpMethodsIn a (const_resolve (cs_consts c)) None) with
                        | Some [m] => m
                        | _ => "GET"
                        end in
          let '(host, path) := splitURL u in
          addEdge (jc_src k) EdgeHTTPCall (routeKey method path) (jc_line k) conf (Some (fluent_meta k method path host))
            (contractSite ContractKindHTTP true fc)
      end
  end.
Definition cs_handleObjectCreation (c : csharpExtractor) (n : Node) (fc : fileCtx) : fileCtx :=
  match NamedChildren n with
  | [] => fc
  | tn :: _ =>
      let typ := text fc tn in
      let args := namedChildTexts fc (firstChildOfType n "argument_list") in
      match csharpRequestCtors (lastComponent typ) with
      | None => snd (applyGenericRoute (Place n) typ args (cs_resolve c) None "" fc)
      | Some (urlArg, methodArg) => cs_request c (cs_call_of c fc n typ "" "" args) urlArg methodArg fc
      end
  end.

Section Calls.
  Context (visit : gmap string string → list (string * string)).

(** [handleInvocation] *)
Definition cs_rest (c : csharpExtractor) (k : jvmCall) (named : gmap string string) (fc : fileCtx) : fileCtx :=
  let '(done, fc) := runDetectors visit csharpDetectors (cs_site k named) (resolveAt c (sp_StartByte (Place (jc_node k)))) None fc in
  if done then fc
  else match cs_rpc k (grpcStubService (jc_recvType k) (hasGRPC fc || negb (bool_decide (cs_clients c = ∅)))) ConfCrossFile fc with
  | Some fc => fc
  | None => cs_plain c k fc
  end.
Definition cs_handleInvocation (c : csharpExtractor) (n : Node) (fc : fileCtx) : fileCtx :=
  match ChildByFieldName n "function" with
  | None => fc
  | Some fn =>
      let '(object, name) := csharpCallee fc fn in
      let '(args, named) := csharpCallArgs fc (ChildByFieldName n "arguments") in
      let k := cs_call_of c fc n (text fc fn) object name args in
      if (jc_src k <? 0)%Z then fc
      else
        let svc := default (inlineStubService object (hasGRPC fc)) (cs_clients c !! object) in
        default (cs_rest c k named fc) (first_of [cs_generic c k; cs_rpc k svc ConfHigh; cs_publish c k; cs_typed k fn named] fc)
  end.
(** [walkCalls] *)
Definition cs_call_node (c : csharpExtractor) (n : Node) (fc : fileCtx) : fileCtx :=
  if is_type "invocation_expression" n then cs_handleInvocation c n fc
  else if is_type "object_creation_expression" n then cs_handleObjectCreation c n fc else fc.
Fixpoint cs_walkCalls (c : csharpExtractor) (n : Node) (fc : fileCtx) : fileCtx :=
  let '(SyntaxNode _ _ cs) := n in each_named (cs_walkCalls c) cs (cs_call_node c n fc).
(** [extract] *)
Definition cs_extract (root : Node) (fc : fileCtx) : fileCtx :=
  let '(c, fc) := cs_walk false "" "" root (cs_collectConsts fc [] root newCsharpExtractor, fc) in
  cs_walkCalls c root (collectEFTables c "" root fc).
End Calls.
