(* ===== verification/SchemasFacts.v ===== *)
(** * What schema and configuration files become

    Go visits the members of a map in an order of its own choosing each time.  The
    units of a document do not depend on it as long as its dotted keys are distinct
    and within the limit of a file, and its channels have distinct names. *)

From S2P Require Import Prelude GoStrings GoStrconv GoSort GoFloat GoJson GoJsonEncode GoRegexp Domain Store Contract MetaCodec Indexing Extract Detect Wrappers Schemas.
From Stdlib Require Import Sorting.Permutation.

(** ** Documents up to the order of their members *)

Section AnyInd.
  Context (P : any → Prop).
  Hypothesis Hnil : P ANil.
  Hypothesis Htext : ∀ s, P (AText s).
  Hypothesis Hscalar : ∀ s, P (AScalar s).
  Hypothesis Hseq : ∀ vs, Forall P vs → P (ASeq vs).
  Hypothesis Hmap : ∀ ms, Forall (λ kv, P (snd kv)) ms → P (AMap ms).

Fixpoint any_induction (v : any) : P v :=
  match v with
  | ANil => Hnil
  | AText s => Htext s
  | AScalar s => Hscalar s
  | ASeq vs =>
      Hseq vs ((fix go vs : Forall P vs :=
                  match vs with [] => List.Forall_nil _ | v :: vs => @List.Forall_cons _ P v vs (any_induction v) (go vs) end) vs)
  | AMap ms =>
      Hmap ms ((fix go ms : Forall (λ kv : string * any, P (snd kv)) ms :=
                  match ms with
                  | [] => List.Forall_nil _
                  | kv :: ms => @List.Forall_cons _ (λ kv, P (snd kv)) kv ms (any_induction (snd kv)) (go ms)
                  end) ms)
  end.
End AnyInd.

(** The same document: the members of each map in any order. *)
Inductive same_doc : any → any → Prop :=
  | same_nil : same_doc ANil ANil
  | same_text s : same_doc (AText s) (AText s)
  | same_scalar s : same_doc (AScalar s) (AScalar s)
  | same_seq vs vs' : Forall2 same_doc vs vs' → same_doc (ASeq vs) (ASeq vs')
  | same_map ms mid ms' :
      NoDup (map fst ms) → Forall2 (λ a b, fst a = fst b ∧ same_doc (snd a) (snd b)) ms mid → mid ≡ₚ ms' →
      same_doc (AMap ms) (AMap ms').
Definition same_members (ms ms' : list (string * any)) : Prop := same_doc (AMap ms) (AMap ms').

Lemma same_members_keys ms ms' : same_members ms ms' → NoDup (map fst ms) ∧ map fst ms ≡ₚ map fst ms'.
Proof.
  inversion 1 as [| | | |? mid ? HN HF HP]; subst. split; [done |]. rewrite <- (Permutation_map fst HP).
  clear -HF. induction HF as [|a b ms mid [E _] _ IH]; simpl; [done |]. by rewrite E, IH.
Qed.

Lemma last_wins_NoDup {A} (ms : list (string * A)) : NoDup (map fst ms) → last_wins ms = ms.
Proof.
  induction ms as [|[k v] ms IH]; simpl; [done |]. rewrite NoDup_cons. intros [Hk HN]. rewrite IH by done.
  destruct (existsb _ ms) eqn:E; [|done]. apply existsb_exists in E as ([k' v'] & Hin & Ek). apply String.eqb_eq in Ek. simpl in Ek. subst k'.
  destruct Hk. apply list_elem_of_In. apply in_map_iff. by exists (k, v').
Qed.

(** ** Reading a map by its keys *)

Lemma entry_elem ms k v : NoDup (map fst ms) → (k, v) ∈ ms → entry ms k = v.
Proof.
  unfold entry. induction ms as [|[k' v'] ms IH]; simpl; intros HN Hin; [by apply elem_of_nil in Hin |].
  apply NoDup_cons in HN as [Hk HN]. apply elem_of_cons in Hin as [Hin|Hin].
  - injection Hin as -> ->. by rewrite String.eqb_refl.
  - destruct (String.eqb_spec k k') as [->|_]; [|by apply IH].
    destruct Hk. apply list_elem_of_In, in_map_iff. exists (k', v). by rewrite <- list_elem_of_In.
Qed.

Lemma entry_none ms k : k ∉ map fst ms → entry ms k = ANil.
Proof.
  unfold entry. induction ms as [|[k' v'] ms IH]; simpl; [done |]. rewrite not_elem_of_cons. intros [Hne Hin].
  destruct (String.eqb_spec k k') as [->|_]; [done | by apply IH].
Qed.

Lemma entry_same ms ms' k : same_members ms ms' → same_doc (entry ms k) (entry ms' k).
Proof.
  intros H. pose proof (same_members_keys _ _ H) as [HN HK]. assert (NoDup (map fst ms')) as HN' by by rewrite <- HK.
  inversion H as [| | | |? mid ? _ HF HP]; subst.
  destruct (decide (k ∈ map fst ms)) as [Hin|Hin].
  - apply list_elem_of_In, in_map_iff in Hin as ([k0 v] & E & Hin). simpl in E. subst k0.
    apply list_elem_of_In, list_elem_of_lookup in Hin as [i Hi].
    destruct (Forall2_lookup_l _ _ _ _ _ HF Hi) as ([k' v'] & Hi' & E & Hv). simpl in *. subst k'.
    apply list_elem_of_lookup_2 in Hi, Hi'. rewrite HP in Hi'. by rewrite (entry_elem ms k v), (entry_elem ms' k v').
  - rewrite (entry_none ms), (entry_none ms'); [constructor | by rewrite <- HK | done].
Qed.

Lemma asStringMap_same v v' :
  same_doc v v' →
  match asStringMap v, asStringMap v' with Some ms, Some ms' => same_members ms ms' | None, None => True | _, _ => False end.
Proof.
  intros H. destruct H as [| | | |ms mid ms' HN HF HP] eqn:E; try exact I. clear E. simpl.
  assert (same_members ms ms') as Hs by (by eapply same_map). pose proof (same_members_keys _ _ Hs) as [_ HK].
  rewrite !last_wins_NoDup by (done || by rewrite <- HK). done.
Qed.

Lemma is_nil_same v v' : same_doc v v' → is_nil v = is_nil v'.
Proof. by destruct 1. Qed.
Lemma text_or_empty_same v v' : same_doc v v' → text_or_empty v = text_or_empty v'.
Proof. by destruct 1. Qed.
Lemma entry_text_same ms ms' k : same_members ms ms' → text_or_empty (entry ms k) = text_or_empty (entry ms' k).
Proof. intros H. by apply text_or_empty_same, entry_same. Qed.
#[local] Hint Resolve entry_same : core.

(** ** API descriptions *)

Lemma server_base_same vs vs' : Forall2 same_doc vs vs' → server_base vs = server_base vs'.
Proof.
  induction 1 as [|v v' vs vs' Hv _ IH]; [done |]. cbn [server_base]. rewrite IH. pose proof (asStringMap_same _ _ Hv) as Hm.
  destruct (asStringMap v), (asStringMap v'); try done. by rewrite (entry_text_same _ _ "url" Hm).
Qed.

Lemma openAPIBasePath_same ms ms' : same_members ms ms' → openAPIBasePath ms = openAPIBasePath ms'.
Proof.
  intros H. unfold openAPIBasePath. rewrite (entry_text_same _ _ "basePath" H).
  destruct (entry_same _ _ "servers" H); try done. by apply server_base_same.
Qed.

Section Units.
  Context (hashString : string → string).

Lemma openapi_path_same base ms ms' key : same_members ms ms' → openapi_path hashString base ms key = openapi_path hashString base ms' key.
Proof.
  intros H. unfold openapi_path. pose proof (asStringMap_same _ _ (entry_same _ _ key H)) as Hm.
  destruct (asStringMap (entry ms key)) as [ops|], (asStringMap (entry ms' key)) as [ops'|]; try done.
  apply list_omap_ext, Forall_Forall2_diag, Forall_true. intros method. unfold openapi_route.
  pose proof (asStringMap_same _ _ (entry_same _ _ method Hm)) as Ho.
  destruct (asStringMap (entry ops method)), (asStringMap (entry ops' method)); try done. by rewrite (entry_text_same _ _ "summary" Ho).
Qed.

Lemma openAPIRoutes_same doc doc' : same_doc doc doc' → openAPIRoutes hashString doc = openAPIRoutes hashString doc'.
Proof.
  intros H. unfold openAPIRoutes. pose proof (asStringMap_same _ _ H) as Hm.
  destruct (asStringMap doc) as [root|], (asStringMap doc') as [root'|]; try done.
  rewrite (is_nil_same _ _ (entry_same _ _ "openapi" Hm)), (is_nil_same _ _ (entry_same _ _ "swagger" Hm)).
  destruct (_ && _); [done |]. pose proof (asStringMap_same _ _ (entry_same _ _ "paths" Hm)) as Hp.
  destruct (asStringMap (entry root "paths")) as [paths|], (asStringMap (entry root' "paths")) as [paths'|]; try done.
  rewrite (openAPIBasePath_same _ _ Hm), (SortStrings_perm_eq _ _ (proj2 (same_members_keys _ _ Hp))). f_equal. apply map_ext.
  intros key. by apply openapi_path_same.
Qed.

(** ** Channels *)

Definition channels_of (doc : any) : list channelInfo :=
  match asStringMap doc with Some root => omap channel_of (default [] (asStringMap (entry root "channels"))) | None => [] end.

Lemma channel_of_same kv kv' : fst kv = fst kv' → same_doc (snd kv) (snd kv') → channel_of kv = channel_of kv'.
Proof.
  intros Ek H. unfold channel_of. pose proof (asStringMap_same _ _ H) as Hm.
  destruct (asStringMap (snd kv)) as [ch|], (asStringMap (snd kv')) as [ch'|]; try done.
  rewrite Ek, (entry_text_same _ _ "address" Hm), (entry_text_same _ _ "description" Hm). do 2 f_equal.
  apply list_filter_iff. intros op. by rewrite (is_nil_same _ _ (entry_same _ _ op Hm)).
Qed.

Lemma channels_members_same ms ms' : same_members ms ms' → omap channel_of ms ≡ₚ omap channel_of ms'.
Proof.
  inversion 1 as [| | | |? mid ? _ HF HP]; subst. rewrite <- HP. clear -HF.
  induction HF as [|kv kv' ms mid [Ek Hv] _ IH]; simpl; [done |]. rewrite (channel_of_same _ _ Ek Hv). by destruct (channel_of kv'); rewrite IH.
Qed.

Lemma channels_of_same doc doc' : same_doc doc doc' → channels_of doc ≡ₚ channels_of doc'.
Proof.
  intros H. unfold channels_of. pose proof (asStringMap_same _ _ H) as Hm.
  destruct (asStringMap doc) as [root|], (asStringMap doc') as [root'|]; try done.
  pose proof (asStringMap_same _ _ (entry_same _ _ "channels" Hm)) as Hc.
  destruct (asStringMap (entry root "channels")), (asStringMap (entry root' "channels")); try done. by apply channels_members_same.
Qed.

Lemma channels_sorted l l' :
  NoDup (map ch_name l) → l ≡ₚ l' →
  SliceSort (λ a b, String.ltb (ch_name a) (ch_name b)) l = SliceSort (λ a b, String.ltb (ch_name a) (ch_name b)) l'.
Proof.
  intros HN HP. symmetry. apply (SliceSort_perm_eq _ (λ _, True)); [by apply Forall_true | | done].
  intros a b Ha Hb H1 H2. pose proof (lawful_eqb (ops:=string_ops) (ch_name a) (ch_name b) I I) as E.
  simpl in E. rewrite H1, H2 in E. apply String.eqb_eq in E. by eapply NoDup_map_inj.
Qed.

Lemma asyncAPIChannels_same doc doc' :
  same_doc doc doc' → NoDup (map ch_name (channels_of doc)) → asyncAPIChannels hashString doc = asyncAPIChannels hashString doc'.
Proof.
  intros H HN. pose proof (channels_of_same _ _ H) as HP. unfold asyncAPIChannels, channels_of in *. pose proof (asStringMap_same _ _ H) as Hm.
  destruct (asStringMap doc) as [root|], (asStringMap doc') as [root'|]; try done. rewrite (channels_sorted _ _ HN HP).
  destruct (entry_same _ _ "asyncapi" Hm); done.
Qed.
End Units.

(** ** Dotted keys *)

(** The scalars of a document with their dotted keys, in the order they are visited. *)
Fixpoint leaves (prefix : string) (v : any) : list (string * string) :=
  match v with
  | AMap ms => concat (map (λ kv, leaves (joinKey prefix (fst kv)) (snd kv)) ms)
  | ASeq vs =>
      (fix items (i : nat) (vs : list any) : list (string * string) :=
         match vs with [] => [] | c :: vs => leaves (joinKey prefix (Itoa (Z.of_nat i))) c ++ items (S i) vs end) O vs
  | ANil => []
  | AText s | AScalar s => if String.eqb prefix "" then [] else [(prefix, s)]
  end.
Definition set_all : gmap string string → list (string * string) → gmap string string := foldl (λ out kv, <[fst kv := snd kv]> out).

Lemma set_all_app out l l' : set_all out (l ++ l') = set_all (set_all out l) l'.
Proof. apply foldl_app. Qed.

Lemma set_all_size out l : size out ≤ size (set_all out l).
Proof.
  revert out. induction l as [|[k v] l IH]; intros out; simpl; [done |]. etrans; [|apply IH].
  simpl. rewrite map_size_insert. destruct (out !! k); simpl; lia.
Qed.

Lemma set_all_map l : NoDup (map fst l) → set_all ∅ l = list_to_map l.
Proof.
  intros HN. transitivity (list_to_map (reverse l) : gmap string string).
  - clear HN. induction l as [|[k v] l IH] using rev_ind; [done |]. rewrite set_all_app, reverse_snoc. simpl. by rewrite IH.
  - apply list_to_map_proper; [|apply reverse_Permutation]. rewrite reverse_Permutation. done.
Qed.

Lemma set_all_length l : size (set_all ∅ l) ≤ length l.
Proof.
  induction l as [|[k v] l IH] using rev_ind; [cbn; rewrite map_size_empty; lia |]. rewrite set_all_app, length_app. simpl.
  rewrite map_size_insert. destruct (set_all ∅ l !! k); simpl; lia.
Qed.

Lemma limit_not_reached (out : gmap string string) : size out ≤ maxConfigKeys → (maxConfigKeys <? size out) = false.
Proof. intros H. by apply Nat.ltb_ge. Qed.

(** Within the limit a walk sets every scalar. *)
Lemma flatten_leaves v prefix out :
  size (set_all out (leaves prefix v)) ≤ maxConfigKeys → flatten prefix v out = set_all out (leaves prefix v).
Proof.
  revert prefix out. induction v as [|s|s|vs IH|ms IH] using any_induction; intros prefix out Hs;
    cbn [flatten leaves] in *; (rewrite limit_not_reached by (etrans; [apply set_all_size | exact Hs])); try done.
  - by destruct (String.eqb prefix "").
  - by destruct (String.eqb prefix "").
  - revert Hs. generalize O. revert out. induction IH as [|c vs Hc _ IH]; intros out i; [done |].
    cbn [set_all]. rewrite set_all_app. intros Hs. rewrite Hc by (etrans; [apply set_all_size | exact Hs]). by apply IH.
  - revert out Hs. induction IH as [|[k c] ms Hc _ IH]; intros out Hs; [done |].
    cbn [map concat foldl] in *. rewrite set_all_app in *. simpl in Hc. cbn [fst snd].
    rewrite Hc by (etrans; [apply set_all_size | exact Hs]). by apply IH.
Qed.

Lemma leaves_same v v' : same_doc v v' → ∀ prefix, leaves prefix v ≡ₚ leaves prefix v'.
Proof.
  revert v'. induction v as [|s|s|vs IH|ms IH] using any_induction; intros v' H prefix; inversion H as [| | |? vs' HF|? mid ms' _ HF HP]; subst; try done.
  - clear H. cbn [leaves]. generalize O. revert vs' HF.
    induction IH as [|c vs Hc _ IH]; intros vs' HF i; inversion HF as [|? c' ? ? Hcc]; subst; [done |]. apply Permutation_app; [by apply Hc | by apply IH].
  - clear H. cbn [leaves]. transitivity (concat (map (λ kv, leaves (joinKey prefix (fst kv)) (snd kv)) mid)); [|by rewrite HP].
    clear HP. revert mid HF. induction IH as [|kv ms Hc _ IH]; intros mid HF; inversion HF as [|? kv' ? ? [Ek Hv]]; subst; [done |].
    cbn [map concat]. rewrite <- Ek. apply Permutation_app; [by apply Hc | by apply IH].
Qed.

(** The keys of a file do not depend on the order its maps are visited in. *)
Lemma flatten_same v v' :
  same_doc v v' → NoDup (map fst (leaves "" v)) → length (leaves "" v) ≤ maxConfigKeys → flatten "" v ∅ = flatten "" v' ∅.
Proof.
  intros H HN HL. pose proof (leaves_same _ _ H "") as HP.
  assert (NoDup (map fst (leaves "" v'))) as HN' by by rewrite <- HP.
  rewrite !flatten_leaves, !set_all_map by (done || (etrans; [apply set_all_length | by rewrite <- ?HP])).
  by apply list_to_map_proper.
Qed.

Section Order.
  Context (hashString : string → string).

(** The keys are sorted before they are cut, so the order they are gathered in is lost. *)
Lemma config_units_order visit visit' values :
  (∀ m, visit m ≡ₚ map_to_list m) → (∀ m, visit' m ≡ₚ map_to_list m) →
  config_units hashString visit values = config_units hashString visit' values.
Proof.
  intros H H'. unfold config_units. do 2 f_equal. apply SortStrings_perm_eq. by rewrite (Permutation_map fst (H values)), (Permutation_map fst (H' values)).
Qed.

(** C27: What a document becomes does not depend on the order Go visits its maps in — those of the document, and the map of
    dotted keys it is flattened to.  The routes of an API description never do; the channels of an event description do not when
    their names differ; the keys of any other document do not when its dotted keys differ and are no more than a file may have. *)
Theorem parse_document_map_order visit visit' doc doc' :
  (∀ m, visit m ≡ₚ map_to_list m) → (∀ m, visit' m ≡ₚ map_to_list m) → same_doc doc doc' →
  (openAPIRoutes hashString doc = [] →
     NoDup (map ch_name (channels_of doc)) ∧
     (asyncAPIChannels hashString doc = None → NoDup (map fst (leaves "" doc)) ∧ length (leaves "" doc) ≤ maxConfigKeys)) →
  parse_document hashString visit (Some doc) = parse_document hashString visit' (Some doc').
Proof.
  intros Hv Hv' H Hd. unfold parse_document. rewrite <- (openAPIRoutes_same _ _ _ H).
  destruct (openAPIRoutes hashString doc) as [|r rs]; [|done]. destruct (Hd eq_refl) as [HC HK].
  rewrite <- (asyncAPIChannels_same _ _ _ H HC). destruct (asyncAPIChannels hashString doc); [done |].
  destruct (HK eq_refl) as [HN HL]. rewrite <- (flatten_same _ _ H HN HL). by apply config_units_order.
Qed.
End Order.

Definition sample_doc (swap : bool) : any :=
  let kafka := ("kafka", AMap [("topic", AText "${T:orders}"); ("acks", AScalar "1")]) in
  let port := ("port", AScalar "8080") in
  AMap (if swap then [port; kafka] else [kafka; port]).

Lemma parse_document_map_order_witness :
  let backwards := λ m : gmap string string, reverse (map_to_list m) in
  parse_document (λ s, s) map_to_list (Some (sample_doc false)) = parse_document (λ s, s) backwards (Some (sample_doc true)) ∧
  map u_Qualified (parse_document (λ s, s) backwards (Some (sample_doc true))) = ["config:kafka.acks"; "config:kafka.topic"; "config:port"].
Proof.
  split; [|vm_compute; reflexivity].
  apply (parse_document_map_order (λ s, s) map_to_list (λ m, reverse (map_to_list m)) (sample_doc false) (sample_doc true)).
  - intros m. reflexivity.
  - intros m. apply reverse_Permutation.
  - eapply same_map; [refine (bool_decide_unpack _ _); vm_compute; exact I | | apply Permutation_swap].
    repeat constructor. eapply same_map; [refine (bool_decide_unpack _ _); vm_compute; exact I | | reflexivity]. repeat constructor.
  - intros _. split; [refine (bool_decide_unpack _ _); vm_compute; exact I |]. intros _.
    split; [refine (bool_decide_unpack _ _); vm_compute; exact I | apply Nat.leb_le; vm_compute; reflexivity].
Defined.

(** Two paths to one dotted key: the value is that of the path visited last. *)
Example one_key_two_paths :
  let nested := ("a", AMap [("b", AText "1")]) in
  let dotted := ("a.b", AText "2") in
  map u_Signature (parse_document (λ s, s) map_to_list (Some (AMap [nested; dotted]))) = ["2"] ∧
  map u_Signature (parse_document (λ s, s) map_to_list (Some (AMap [dotted; nested]))) = ["1"].
Proof. vm_compute. split; reflexivity. Qed.

(** Past the limit, which keys a file keeps depends on the order: the walk stops at the 501st. *)
Example keys_past_the_limit :
  let ms := map (λ n, (Itoa (Z.of_nat n), AText "v")) (seq 1000 502) in
  let kept := λ ms, map u_Name (parse_document (λ s, s) map_to_list (Some (AMap ms))) in
  last (kept ms) = Some "1499" ∧ last (kept (rev ms)) = Some "1500".
Proof. vm_compute. split; reflexivity. Qed.
