(* ===== verification/DetectFacts.v ===== *)
(** * What the detection engine adds to a file

    A call site adds edges under its own mark and line and nothing else; it is
    counted once for each kind of contract a rule claims it as, and as resolved at
    most once; a site that no rule finishes adds no edge. *)

From S2P Require Import Prelude GoStrings GoStrconv GoFloat GoRegexp Domain Store Contract MetaCodec Extract Detect.
From Stdlib Require Import Strings.Ascii.

(** ** Frames *)

(** The parts of a file no rule touches. *)
Definition same_file (fc fc' : fileCtx) : Prop :=
  fc_path fc' = fc_path fc ∧ fc_lang fc' = fc_lang fc ∧ fc_src fc' = fc_src fc ∧ fc_units fc' = fc_units fc ∧
  fc_tables fc' = fc_tables fc ∧ fc_consts fc' = fc_consts fc.
Definition of_site (cs : callSite) (e : Edge) : Prop := e_SrcID e = srcMark (Z.to_nat (cs_Src cs)) ∧ e_Line e = cs_Line cs.
Definition adds (cs : callSite) (added : list Edge) (fc fc' : fileCtx) : Prop :=
  same_file fc fc' ∧ fc_edges fc' = fc_edges fc ++ added ∧ Forall (of_site cs) added.

#[export] Instance same_file_preorder : PreOrder same_file.
Proof. split; [repeat split | intros ??? (?&?&?&?&?&?) (?&?&?&?&?&?); repeat split; congruence]. Qed.

Lemma adds_nothing cs fc : adds cs [] fc fc.
Proof. split; [done |]. by rewrite app_nil_r. Qed.
Lemma adds_app cs a b fc fc' fc'' : adds cs a fc fc' → adds cs b fc' fc'' → adds cs (a ++ b) fc fc''.
Proof.
  intros (S1 & E1 & F1) (S2 & E2 & F2). split; [by trans fc' |]. split; [by rewrite E2, E1, app_assoc | by apply Forall_app].
Qed.

(** What an edge of the site does to the file. *)
Lemma addEdge_adds cs kind dst conf meta fc :
  (0 ≤ cs_Src cs)%Z →
  ∃ e, adds cs [e] fc (addEdge (cs_Src cs) kind dst (cs_Line cs) conf meta fc) ∧ e_Kind e = kind ∧ e_DstName e = dst ∧
       fc_cov (addEdge (cs_Src cs) kind dst (cs_Line cs) conf meta fc) = fc_cov fc.
Proof.
  intros Hs. unfold addEdge. rewrite (proj2 (Z.ltb_ge _ _) Hs).
  exists (edge_from (srcMark (Z.to_nat (cs_Src cs))) kind dst (cs_Line cs) conf (based kind conf meta)).
  destruct meta as [m|]; [destruct (String.eqb kind EdgeHTTPCall)|]; repeat split; repeat constructor.
Qed.

Lemma httpCandidate_adds cs u m fc : adds cs [] fc (httpCandidate (cs_Src cs) u m fc) ∧ fc_cov (httpCandidate (cs_Src cs) u m fc) = fc_cov fc.
Proof.
  unfold httpCandidate. destruct (_ <? 0)%Z; [split; [apply adds_nothing | done] |].
  repeat split; [by rewrite app_nil_r | constructor].
Qed.

(** ** Counting *)

(** Between two states of the engine a kind is counted at most once, and as resolved at most once. *)
Definition counts_site (counted counted' : list string) (cov cov' : option (gmap string CoverageCounts)) : Prop :=
  ∀ k,
    (k ∈ counted → k ∈ counted') ∧
    (k ∈ counted ∨ k ∉ counted' → counts_of k cov' = counts_of k cov) ∧
    (k ∉ counted → k ∈ counted' →
     cc_Candidates (counts_of k cov') = cc_Candidates (counts_of k cov) + 1 ∧
     cc_Edges (counts_of k cov) ≤ cc_Edges (counts_of k cov') ≤ cc_Edges (counts_of k cov) + 1)%Z.

Lemma counts_site_refl c cov : counts_site c c cov cov.
Proof. intros k. split; [done |]. split; [done |]. by intros ??. Qed.
Lemma counts_site_trans c1 c2 c3 v1 v2 v3 : counts_site c1 c2 v1 v2 → counts_site c2 c3 v2 v3 → counts_site c1 c3 v1 v3.
Proof.
  intros H1 H2 k. destruct (H1 k) as (A1 & B1 & C1), (H2 k) as (A2 & B2 & C2). split; [by auto |]. split.
  - intros Hk. rewrite B2, B1; [done | |]; destruct Hk as [Hk|Hk]; auto.
  - intros N1 Y3. destruct (decide (k ∈ c2)) as [Y2|N2].
    + rewrite B2 by by left. by apply C1.
    + rewrite <- (B1 (or_intror N2)). by apply C2.
Qed.

Lemma counts_of_insert k k' c cov :
  counts_of k (Some (<[k' := c]> (default newCoverage cov))) = if decide (k' = k) then c else counts_of k cov.
Proof. unfold counts_of. cbn [from_option id]. destruct (decide (k' = k)) as [->|Hne]; [by rewrite lookup_insert_eq | by rewrite lookup_insert_ne]. Qed.

Lemma contractSite_adds cs kind emitted fc : adds cs [] fc (contractSite kind emitted fc).
Proof. repeat split; [by rewrite app_nil_r | constructor]. Qed.

Lemma record_site_counts kind claimed emitted counted fc counted' fc' :
  record_site kind claimed emitted counted fc = (counted', fc') →
  counts_site counted counted' (fc_cov fc) (fc_cov fc') ∧ (∀ cs, adds cs [] fc fc') ∧ (claimed = true → kind ∈ counted').
Proof.
  unfold record_site. destruct claimed; cbn [andb]; [|intros [= <- <-]; split_and!; [apply counts_site_refl | intros; apply adds_nothing | done]].
  destruct (existsb (String.eqb kind) counted) eqn:E; cbn [negb]; intros [= <- <-].
  - split_and!; [apply counts_site_refl | intros; apply adds_nothing |]. intros _. apply existsb_exists in E as (x & Hx & E).
    apply String.eqb_eq in E. subst x. by apply list_elem_of_In.
  - assert (kind ∉ counted) as Hn.
    { intros Hin. apply not_true_iff_false in E. apply E, existsb_exists. exists kind. rewrite String.eqb_refl. split; [by apply list_elem_of_In | done]. }
    split_and!; [| intros; apply contractSite_adds | by left]. intros k. unfold contractSite. cbn [fc_cov with_cov]. rewrite counts_of_insert.
    rewrite elem_of_cons. split; [by right |]. split.
    + intros Hk. rewrite decide_False; [done |]. intros ->. destruct Hk as [Hk|Hk]; [done |]. apply Hk. by left.
    + intros N [->|Hk]; [|done]. rewrite decide_True by done. destruct emitted; simpl; lia.
Qed.

(** ** Rules

    A rule adds edges of the site, and none unless it says so; it counts nothing. *)
Definition rule_ok (cs : callSite) (emitted : bool) (fc fc' : fileCtx) : Prop :=
  fc_cov fc' = fc_cov fc ∧ ∃ added, adds cs added fc fc' ∧ (emitted = false → added = []).

Lemma rule_idle cs emitted fc : rule_ok cs emitted fc fc.
Proof. split; [done |]. exists []. split; [apply adds_nothing | done]. Qed.
Lemma rule_edge cs kind dst conf meta fc : (0 ≤ cs_Src cs)%Z → rule_ok cs true fc (addEdge (cs_Src cs) kind dst (cs_Line cs) conf meta fc).
Proof. intros Hs. destruct (addEdge_adds cs kind dst conf meta fc Hs) as (e & H & _ & _ & Hc). split; [done |]. exists [e]. by split. Qed.
#[local] Hint Resolve rule_idle rule_edge : core.

Section Engine.
  Context (visit : gmap string string → list (string * string)) (cs : callSite) (Hs : (0 ≤ cs_Src cs)%Z).

Lemma apply_http_ok r res fc claimed emitted fc' :
  apply_http visit r cs res fc = ((claimed, emitted), fc') → rule_ok cs emitted fc fc' ∧ (emitted = true → claimed = true).
Proof.
  unfold apply_http. destruct (_ !! cs_Name cs) as [m|]; [|intros [= <- <- <-]; by auto].
  destruct (negb _); [intros [= <- <- <-]; by auto |].
  destruct (bool_decide _ && _); [intros [= <- <- <-]; by auto |].
  destruct (match _ with Some e => isContextExpr e | None => false end); [intros [= <- <- <-]; by auto |].
  destruct (http_target _ _ _ _ _) as [urlExpr [[u conf]|]]; destruct (http_method _ _ _ _ _) as [m' methodExpr].
  - destruct (splitURL u) as [host path]. intros [= <- <- <-]. by auto.
  - destruct (hr_Loose r); intros [= <- <- <-]; [by auto |]. split; [|done].
    destruct (httpCandidate_adds cs urlExpr methodExpr fc) as [H Hc]. split; [done |]. exists []. by split.
Qed.

Lemma apply_produce_ok r res fc claimed emitted fc' :
  apply_produce visit r cs res fc = ((claimed, emitted), fc') → rule_ok cs emitted fc fc' ∧ (emitted = true → claimed = true).
Proof.
  unfold apply_produce. destruct (_ || _); [intros [= <- <- <-]; by auto |]. destruct (_ && _); [intros [= <- <- <-]; by auto |].
  destruct (resolve_topic _ _ _ _) as [topic found]. destruct (_ || _); [intros [= <- <- <-]; by auto |].
  destruct (topicEdgeKey topic) as [key name]. intros [= <- <- <-]. by auto.
Qed.

Lemma emit_consume_adds r topic fc :
  fc_cov (emit_consume r cs fc topic) = fc_cov fc ∧ ∃ e, adds cs [e] fc (emit_consume r cs fc topic).
Proof.
  unfold emit_consume. destruct (topicEdgeKey topic) as [key name].
  destruct (addEdge_adds cs EdgeConsumes key (cr_Conf r) (Some (topic_meta name [] ∅ ∅)) fc Hs) as (e & He & _ & _ & Hc). eauto.
Qed.

Lemma emit_consume_ok r topics fc :
  fc_cov (foldl (emit_consume r cs) fc topics) = fc_cov fc ∧
  ∃ added, adds cs added fc (foldl (emit_consume r cs) fc topics) ∧ length added = length topics.
Proof.
  revert fc. induction topics as [|t topics IH]; intros fc; cbn [foldl]; [split; [done |]; exists []; split; [apply adds_nothing | done] |].
  destruct (emit_consume_adds r t fc) as (Hc1 & e & He), (IH (emit_consume r cs fc t)) as (Hc & added & Ha & Hl).
  split; [by rewrite Hc |]. exists (e :: added). split; [exact (adds_app _ [e] _ _ _ _ He Ha) | simpl; by rewrite Hl].
Qed.

Lemma apply_consume_ok r res lst fc claimed emitted handled fc' :
  apply_consume visit r cs res lst fc = ((claimed, emitted, handled), fc') →
  rule_ok cs handled fc fc' ∧ rule_ok cs emitted fc fc' ∧ (handled = true → claimed = true).
Proof.
  unfold apply_consume. destruct (_ || _); [intros [= <- <- <- <-]; by auto |]. destruct (_ && _); [intros [= <- <- <- <-]; by auto |].
  destruct (ts_List _).
  - destruct (resolve_topics _ _ _ _) as [topics|]; intros [= <- <- <- <-]; [|by auto].
    destruct (emit_consume_ok r topics fc) as (Hc & added & Ha & Hl).
    split_and!; [split; [done | by exists added] | split; [done |]; exists added; split; [done |] | done].
    intros E. apply negb_false_iff, bool_decide_eq_true in E. subst. by apply nil_length_inv.
  - destruct (resolve_topic _ _ _ _) as [topic found]. destruct (_ || _); intros [= <- <- <- <-]; [by auto |].
    unfold emit_consume. destruct (topicEdgeKey topic) as [key name]. by auto.
Qed.

Lemma brokerFallback_ok res fc claimed emitted fc' :
  brokerFallback visit cs res fc = ((claimed, emitted), fc') → rule_ok cs emitted fc fc' ∧ (emitted = true → claimed = true).
Proof.
  unfold brokerFallback. destruct (existsb _ brokerPublishVerbs); [|destruct (existsb _ brokerSubscribeVerbs); [|intros [= <- <- <-]; by auto]];
    (destruct (_ && _); [intros [= <- <- <-]; by auto |]; destruct (List.find _ _) as [v|]; [|intros [= <- <- <-]; by auto];
     destruct (topicEdgeKey _) as [key topic]; intros [= <- <- <-]; by auto).
Qed.

(** ** Runs of rules *)

(** What a run of rules of a kind leaves. *)
Definition run_ok (kind : string) (stop : bool) (st st' : list string * fileCtx) : Prop :=
  counts_site (fst st) (fst st') (fc_cov (snd st)) (fc_cov (snd st')) ∧
  (∀ k, k ∈ fst st' → k ∈ fst st ∨ k = kind) ∧
  ∃ added, adds cs added (snd st) (snd st') ∧ (stop = false → added = []) ∧ (added ≠ [] → kind ∈ fst st').

Lemma run_idle kind stop st : run_ok kind stop st st.
Proof. split; [apply counts_site_refl |]. split; [by left |]. exists []. split; [apply adds_nothing | done]. Qed.

Lemma record_site_keys kind claimed emitted counted fc k :
  k ∈ fst (record_site kind claimed emitted counted fc) → k ∈ counted ∨ k = kind.
Proof. unfold record_site. destruct (_ && _); [|by left]. simpl. rewrite elem_of_cons. naive_solver. Qed.

(** One rule, and the count of the site. *)
Lemma run_rule kind claimed counting emitted counted fc fc1 :
  rule_ok cs emitted fc fc1 → (emitted = true → claimed = true) →
  run_ok kind emitted (counted, fc) (record_site kind claimed counting counted fc1).
Proof.
  intros (Hc & added & Ha & He) Himp. destruct (record_site kind claimed counting counted fc1) as [counted' fc'] eqn:E.
  pose proof (record_site_keys kind claimed counting counted fc1) as Hk. rewrite E in Hk.
  apply record_site_counts in E as (HC & HA & HK). rewrite Hc in HC. split; [done |]. split; [done |]. exists added. split_and!; [|done |].
  - pose proof (adds_app _ _ _ _ _ _ Ha (HA cs)) as H. by rewrite app_nil_r in H.
  - intros Hne. apply HK, Himp. destruct emitted; [done |]. by rewrite He in Hne.
Qed.

Lemma run_then kind stop stop' st1 st2 st3 :
  run_ok kind stop st1 st2 → stop = false → run_ok kind stop' st2 st3 → run_ok kind stop' st1 st3.
Proof.
  intros (C1 & K1 & a & A1 & N1 & _) -> (C2 & K2 & b & A2 & N2 & Y2). specialize (N1 eq_refl) as ->. split; [by eapply counts_site_trans |].
  split; [intros k Hk; destruct (K2 k Hk) as [Hk'| ->]; [by apply K1 | by right] |].
  exists b. split_and!; [exact (adds_app _ [] b _ _ _ A1 A2) | done | done].
Qed.

Lemma run_produce_ok rs res st stop st' :
  run_produce visit rs cs res st = (stop, st') → run_ok ContractKindMessaging stop st st'.
Proof.
  revert st. induction rs as [|r rs IH]; intros [counted fc]; cbn [run_produce]; [intros [= <- <-]; apply run_idle |]. cbn [fst snd].
  destruct (apply_produce visit r cs res fc) as [[claimed emitted] fc1] eqn:E. apply apply_produce_ok in E as [Hr Hi].
  pose proof (run_rule ContractKindMessaging claimed emitted emitted counted fc fc1 Hr Hi) as H.
  destruct emitted; [intros [= <- <-]; exact H |]. intros Hrun. eapply run_then; [exact H | done | by apply IH].
Qed.

Lemma run_consume_ok rs res lst st stop st' :
  run_consume visit rs cs res lst st = (stop, st') → run_ok ContractKindMessaging stop st st'.
Proof.
  revert st. induction rs as [|r rs IH]; intros [counted fc]; cbn [run_consume]; [intros [= <- <-]; apply run_idle |]. cbn [fst snd].
  destruct (apply_consume visit r cs res lst fc) as [[[claimed emitted] handled] fc1] eqn:E. apply apply_consume_ok in E as (Hr & _ & Hi).
  pose proof (run_rule ContractKindMessaging claimed emitted handled counted fc fc1 Hr Hi) as H.
  destruct handled; [intros [= <- <-]; exact H |]. intros Hrun. eapply run_then; [exact H | done | by apply IH].
Qed.

Lemma run_http_ok rs res st stop st' :
  run_http visit rs cs res st = (stop, st') → run_ok ContractKindHTTP stop st st'.
Proof.
  revert st. induction rs as [|r rs IH]; intros [counted fc]; cbn [run_http]; [intros [= <- <-]; apply run_idle |]. cbn [fst snd].
  destruct (apply_http visit r cs res fc) as [[claimed emitted] fc1] eqn:E. apply apply_http_ok in E as [Hr Hi].
  pose proof (run_rule ContractKindHTTP claimed emitted emitted counted fc fc1 Hr Hi) as H.
  destruct emitted; [intros [= <- <-]; exact H |]. intros Hrun. eapply run_then; [exact H | done | by apply IH].
Qed.

Lemma run_broker_ok ds res st stop st' :
  run_broker visit ds cs res st = (stop, st') → run_ok ContractKindMessaging stop st st'.
Proof.
  destruct st as [counted fc]. unfold run_broker. destruct (_ && _); [|intros [= <- <-]; apply run_idle]. cbn [fst snd].
  destruct (brokerFallback visit cs res fc) as [[claimed emitted] fc1] eqn:E. apply brokerFallback_ok in E as [Hr Hi].
  destruct claimed; intros [= <- <-]; [by apply (run_rule _ true) | apply run_idle].
Qed.
End Engine.

(** ** The whole site *)

Section Site.
  Context (visit : gmap string string → list (string * string)).

(** Runs of one kind after those of another. *)
Lemma run_join cs k1 k2 stop stop' st1 st2 st3 :
  run_ok cs k1 stop st1 st2 → stop = false → run_ok cs k2 stop' st2 st3 →
  counts_site (fst st1) (fst st3) (fc_cov (snd st1)) (fc_cov (snd st3)) ∧
  (∀ k, k ∈ fst st3 → k ∈ fst st1 ∨ k = k1 ∨ k = k2) ∧
  ∃ added, adds cs added (snd st1) (snd st3) ∧ (stop' = false → added = []) ∧ (added ≠ [] → k2 ∈ fst st3).
Proof.
  intros (C1 & K1 & a & A1 & N1 & _) -> (C2 & K2 & b & A2 & N2 & Y2). specialize (N1 eq_refl) as ->.
  split; [by eapply counts_site_trans |]. split; [intros k Hk; destruct (K2 k Hk) as [Hk'| ->]; [destruct (K1 k Hk'); auto | auto] |].
  exists b. split_and!; [exact (adds_app _ [] b _ _ _ A1 A2) | done | done].
Qed.

(** The state of the engine when it is done with a site. *)
Definition site_ok (cs : callSite) (stop : bool) (fc fc' : fileCtx) : Prop :=
  ∃ counted added,
    adds cs added fc fc' ∧ (stop = false → added = []) ∧
    counts_site [] counted (fc_cov fc) (fc_cov fc') ∧
    (∀ k, k ∈ counted → k = ContractKindMessaging ∨ k = ContractKindHTTP) ∧ (added ≠ [] → counted ≠ []).

Lemma run_ok_site cs kind stop fc st :
  kind = ContractKindMessaging ∨ kind = ContractKindHTTP → run_ok cs kind stop ([], fc) st → site_ok cs stop fc (snd st).
Proof.
  intros Hkind (C & K & added & A & N & Y). exists (fst st), added. split_and!; [done.. | |].
  - intros k Hk. destruct (K k Hk) as [Hk'| ->]; [by apply elem_of_nil in Hk' | done].
  - intros Hne E. specialize (Y Hne). rewrite E in Y. by apply elem_of_nil in Y.
Qed.

Lemma runDetectors_site ds cs res lst fc stop fc' :
  (0 ≤ cs_Src cs)%Z → runDetectors visit ds cs res lst fc = (stop, fc') → site_ok cs stop fc fc'.
Proof.
  intros Hs. unfold runDetectors. destruct (run_produce _ _ _ _ _) as [s1 st1] eqn:E1. apply (run_produce_ok _ _ Hs) in E1.
  destruct s1; [intros [= <- <-]; eapply run_ok_site; [by left | exact E1] |].
  destruct (run_consume _ _ _ _ _ _) as [s2 st2] eqn:E2. apply (run_consume_ok _ _ Hs) in E2.
  pose proof (run_then _ _ _ _ _ _ _ E1 eq_refl E2) as E12.
  destruct s2; [intros [= <- <-]; eapply run_ok_site; [by left | exact E12] |].
  destruct (run_broker _ _ _ _ _) as [s3 st3] eqn:E3. apply (run_broker_ok _ _ Hs) in E3.
  pose proof (run_then _ _ _ _ _ _ _ E12 eq_refl E3) as E123.
  destruct s3; [intros [= <- <-]; eapply run_ok_site; [by left | exact E123] |].
  destruct (run_http _ _ _ _ _) as [s4 st4] eqn:E4. apply (run_http_ok _ _ Hs) in E4. intros [= <- <-].
  destruct (run_join _ _ _ _ _ _ _ _ E123 eq_refl E4) as (C & K & added & A & N & Y). exists (fst st4), added. split_and!; [done.. | |].
  - intros k Hk. destruct (K k Hk) as [Hk'|Hk']; [by apply elem_of_nil in Hk' | naive_solver].
  - intros Hne E. specialize (Y Hne). rewrite E in Y. by apply elem_of_nil in Y.
Qed.

(** C11: A call site adds only edges of its own mark and line, and none when the engine reports that no rule finished it; each
    kind of contract counts it at most once, and as resolved at most as often as it counts it; no other kind than requests
    and messages counts it; and a site that adds an edge is counted. *)
Theorem detectors_account ds cs res lst fc stop fc' :
  (0 ≤ cs_Src cs)%Z → runDetectors visit ds cs res lst fc = (stop, fc') →
  same_file fc fc' ∧
  ∃ added,
    fc_edges fc' = fc_edges fc ++ added ∧ Forall (of_site cs) added ∧ (stop = false → added = []) ∧
    (∀ k, let c := counts_of k (fc_cov fc) in
          let c' := counts_of k (fc_cov fc') in
          (0 ≤ cc_Edges c' - cc_Edges c ≤ cc_Candidates c' - cc_Candidates c ∧ cc_Candidates c' - cc_Candidates c ≤ 1)%Z ∧
          (k ≠ ContractKindMessaging → k ≠ ContractKindHTTP → c' = c)) ∧
    (added ≠ [] → ∃ k, k ∈ [ContractKindMessaging; ContractKindHTTP] ∧
                        cc_Candidates (counts_of k (fc_cov fc')) = cc_Candidates (counts_of k (fc_cov fc)) + 1)%Z.
Proof.
  intros Hs Hrun. destruct (runDetectors_site _ _ _ _ _ _ _ Hs Hrun) as (counted & added & (Hf & He & Hm) & Hstop & HC & HK & HY).
  split; [done |]. exists added. split_and!; [done.. | |].
  - intros k. destruct (HC k) as (_ & B & D). cbn zeta. destruct (decide (k ∈ counted)) as [Hin|Hout].
    + destruct (D (not_elem_of_nil k) Hin) as [H1 H2]. split; [lia |]. intros N1 N2. by destruct (HK k Hin).
    + rewrite B by by right. split; [lia | done].
  - intros Hne. specialize (HY Hne). destruct counted as [|k counted]; [done |]. exists k.
    destruct (HC k) as (_ & _ & D). destruct (D (not_elem_of_nil k) (list_elem_of_here _ _)) as [H1 _]. split; [|done].
    destruct (HK k (list_elem_of_here _ _)) as [-> | ->]; [by left | by right; left].
Qed.
End Site.

(** ** A site of a program *)

Definition sample_visit (m : gmap string string) : list (string * string) := map_to_list m.
Definition publish_site : callSite := {|
  cs_Callee := "snsbroker.Publish"; cs_Name := "Publish"; cs_Object := "snsbroker"; cs_RecvType := ""; cs_Args := ["ctx"; "in"];
  cs_Kwargs := ∅; cs_Fields := {["TopicArn" := String "034" "arn:aws:sns:eu:1:orders" +:+ String "034" ""]}; cs_Aliases := ∅; cs_Line := 7; cs_Src := 0 |}.
Definition go_brokers : detectorSet := {| ds_HTTP := []; ds_Produce := goBrokerProduce; ds_Consume := goBrokerConsume; ds_Broker := true |}.
Definition sample_file : fileCtx := new_file "bus.go" "go" "import sns" (Some newCoverage).

Lemma detectors_account_witness :
  ∃ fc', runDetectors sample_visit go_brokers publish_site (const_resolve ∅) None sample_file = (true, fc') ∧
         map e_DstName (fc_edges fc') = ["topic:orders"] ∧ same_file sample_file fc' ∧
         (∀ k, cc_Edges (counts_of k (fc_cov fc')) - cc_Edges (counts_of k (fc_cov sample_file))
               ≤ cc_Candidates (counts_of k (fc_cov fc')) - cc_Candidates (counts_of k (fc_cov sample_file)))%Z.
Proof.
  pose (run := runDetectors sample_visit go_brokers publish_site (const_resolve ∅) None sample_file).
  assert ((fst run, map e_DstName (fc_edges (snd run))) = (true, ["topic:orders"])) as H by (vm_compute; reflexivity).
  subst run. destruct (runDetectors _ _ _ _ _ _) as [stop fc'] eqn:E. cbn [fst snd] in H. injection H as -> Hd.
  exists fc'. split; [done |]. split; [done |].
  destruct (detectors_account sample_visit go_brokers publish_site (const_resolve ∅) None sample_file true fc' ltac:(done) E)
    as (Hf & added & _ & _ & _ & Hc & _). split; [done |]. intros k. destruct (Hc k) as [H _]. cbn zeta in H. lia.
Defined.

(** The rule that comes first claims the site and names no topic, a later one does: the site has its edge, and counts as a gap. *)
Example resolved_site_counted_as_gap :
  let fc := snd (runDetectors sample_visit go_brokers publish_site (const_resolve ∅) None sample_file) in
  map e_DstName (fc_edges fc) = ["topic:orders"] ∧
  counts_of ContractKindMessaging (fc_cov fc) = {| cc_Candidates := 1; cc_Edges := 0 |}.
Proof. vm_compute. split; reflexivity. Qed.

(** Two fields that differ in case only: which one is read depends on the order of the map. *)
Example folded_fields :
  let fields : gmap string string := {["Url" := "a"; "URL" := "b"]} in
  fieldFold (λ m, map_to_list m) fields "url" ≠ fieldFold (λ m, rev (map_to_list m)) fields "url".
Proof. vm_compute. done. Qed.
