(* ===== verification/WrapperFacts.v ===== *)
(** * What linking a package and storing a window leave

    The requests of helpers are added once, one to a call site, however often the
    files are linked; coverage never counts more edges than candidates; and a window
    of files is stored whole files at a time. *)

From S2P Require Import Prelude GoStrings GoStrconv GoSort GoFloat GoJson Domain Store Contract Paths MetaCodec Indexing Extract Detect Chunks Wrappers.
From Stdlib Require Import Strings.Ascii.

(** ** The calls of helpers *)

Section Calls.
  Context (m : gmap string wrapper).

Lemma wrapper_call_request e h : wrapper_call m e = Some h → e_Kind h = EdgeHTTPCall ∧ site_of h = site_of e.
Proof.
  unfold wrapper_call. destruct (negb _); [done |]. destruct (m !! e_DstName e) as [w|]; [|done]. cbn [mbind option_bind].
  destruct (target w _) as [[[method route] host]|]; [|done]. cbn [mbind option_bind]. by intros [= <-].
Qed.

(** The requests [new] that a pass adds to the sites of [resolved]. *)
Definition linked (es : list Edge) (resolved resolved' : gset (string * Z)) (new : list Edge) : Prop :=
  resolved' = resolved ∪ list_to_set (map site_of new) ∧ NoDup (map site_of new) ∧
  Forall (λ h, (site_of h ∉ resolved) ∧ (∃ e, e ∈ es ∧ wrapper_call m e = Some h)) new ∧
  (∀ e, e ∈ es → wrapper_call m e ≠ None → site_of e ∈ resolved').

Lemma link_fold es resolved added :
  ∃ resolved' new, foldl (link_call m) (resolved, added) es = (resolved', added ++ new) ∧ linked es resolved resolved' new.
Proof.
  revert resolved added. induction es as [|e es IH]; intros resolved added; cbn [foldl].
  - exists resolved, []. rewrite app_nil_r. split; [done |]. split_and!; [set_solver | constructor | constructor |]. by intros ? ?%elem_of_nil.
  - unfold link_call at 2. destruct (bool_decide (site_of e ∈ resolved)) eqn:Eb.
    + apply bool_decide_eq_true in Eb. destruct (IH resolved added) as (r' & new & -> & (-> & Hnd & Hf & Hc)). exists (resolved ∪ list_to_set (map site_of new)), new.
      split; [done |]. split_and!; [done | done | |].
      * eapply Forall_impl; [exact Hf |]. intros h (Hs & e' & He' & Hw). split; [done |]. exists e'. split; [by right | done].
      * intros e' [->|He']%elem_of_cons Hw; [set_solver | by apply Hc].
    + apply bool_decide_eq_false in Eb. destruct (wrapper_call m e) as [h|] eqn:Ew.
      * destruct (wrapper_call_request _ _ Ew) as [_ Hsite].
        destruct (IH ({[site_of e]} ∪ resolved) (added ++ [h])) as (r' & new & -> & (-> & Hnd & Hf & Hc)).
        exists ({[site_of e]} ∪ resolved ∪ list_to_set (map site_of new)), (h :: new). rewrite <- app_assoc. split; [done |].
        split_and!; [cbn [map list_to_set]; rewrite Hsite; set_solver | | |].
        -- cbn [map]. constructor; [|done]. intros (h' & Hh & Hin)%list_elem_of_fmap. rewrite Forall_forall in Hf.
           destruct (Hf h' Hin) as [Hn _]. apply Hn. rewrite <- Hh, Hsite. set_solver.
        -- constructor; [rewrite Hsite; split; [done |]; exists e; split; [by left | done] |].
           eapply Forall_impl; [exact Hf |]. intros h' (Hs & e' & He' & Hw). split; [set_solver |]. exists e'. split; [by right | done].
        -- intros e' [->|He']%elem_of_cons Hw; [set_solver | by apply Hc].
      * destruct (IH resolved added) as (r' & new & -> & (-> & Hnd & Hf & Hc)). exists (resolved ∪ list_to_set (map site_of new)), new.
        split; [done |]. split_and!; [done | done | |].
        -- eapply Forall_impl; [exact Hf |]. intros h (Hs & e' & He' & Hw). split; [done |]. exists e'. split; [by right | done].
        -- intros e' [->|He']%elem_of_cons Hw; [done | by apply Hc].
Qed.

Lemma resolved_sites_elem es s : s ∈ resolved_sites es ↔ ∃ e, e ∈ es ∧ e_Kind e = EdgeHTTPCall ∧ site_of e = s.
Proof.
  unfold resolved_sites. rewrite elem_of_list_to_set, list_elem_of_fmap. setoid_rewrite list_elem_of_filter. naive_solver.
Qed.

(** A pass over edges whose calls are all resolved adds nothing. *)
Lemma link_fold_done es resolved :
  (∀ e, e ∈ es → wrapper_call m e ≠ None → site_of e ∈ resolved) → foldl (link_call m) (resolved, []) es = (resolved, []).
Proof.
  induction es as [|e es IH]; intros H; [done |]. cbn [foldl]. unfold link_call at 2.
  destruct (bool_decide (site_of e ∈ resolved)) eqn:Eb; [apply IH; intros e' He'; apply H; by right |].
  apply bool_decide_eq_false in Eb. destruct (wrapper_call m e) as [h|] eqn:Ew; [|apply IH; intros e' He'; apply H; by right].
  destruct Eb. apply H; [by left | by rewrite Ew].
Qed.

(** C29: Linking the calls of helpers adds one request to each call site that reaches a helper with a target and has none, names
    the helper's target at that site, adds none elsewhere, and adds nothing when it is done again. *)
Theorem helper_calls_linked_once es :
  let '(n, es') := linkWrapperCalls es m in
  ∃ new,
    es' = es ++ new ∧ n = length new ∧ NoDup (map site_of new) ∧
    Forall (λ h, (site_of h ∉ resolved_sites es) ∧ (∃ e, e ∈ es ∧ wrapper_call m e = Some h)) new ∧
    (∀ e, e ∈ es → wrapper_call m e ≠ None → site_of e ∈ resolved_sites es') ∧
    linkWrapperCalls es' m = (O, es').
Proof.
  unfold linkWrapperCalls. destruct (bool_decide (m = ∅)) eqn:Em.
  - apply bool_decide_eq_true in Em. exists []. rewrite app_nil_r. split_and!; [done.. | constructor | constructor | | done].
    intros e _ Hw. destruct Hw. unfold wrapper_call. rewrite Em, lookup_empty. by destruct (negb _).
  - destruct (link_fold es (resolved_sites es) []) as (r' & new & -> & (-> & Hnd & Hf & Hc)). exists new. cbn [app].
    assert (Hreq : Forall (λ h, e_Kind h = EdgeHTTPCall) new).
    { eapply Forall_impl; [exact Hf |]. intros h (_ & e & _ & Hw). by apply wrapper_call_request in Hw as [? _]. }
    assert (Hsites : ∀ e, e ∈ es → wrapper_call m e ≠ None → site_of e ∈ resolved_sites (es ++ new)).
    { intros e He Hw. apply resolved_sites_elem. pose proof (Hc e He Hw) as Hin. apply elem_of_union in Hin as [Hin|Hin].
      - apply resolved_sites_elem in Hin as (e' & He' & Hk). exists e'. split; [apply elem_of_app; by left | done].
      - apply elem_of_list_to_set, list_elem_of_fmap in Hin as (h & Hh & Hin). exists h. rewrite Forall_forall in Hreq. split; [apply elem_of_app; by right | by split; [apply Hreq | rewrite Hh]]. }
    split_and!; [done.. |]. rewrite link_fold_done; [by rewrite app_nil_r |]. intros e He Hw. apply elem_of_app in He as [He|He]; [by apply Hsites |].
    destruct Hw. unfold wrapper_call. rewrite Forall_forall in Hreq. by rewrite (Hreq e He).
Qed.
End Calls.

(** ** Marks *)

Lemma leading_digits_all acc s n : read_digits acc s = Some n → leading_digits s = s.
Proof. revert acc. induction s as [|c s IH]; intros acc; simpl; [done |]. destruct (is_digit_byte c); [|done]. intros H. f_equal. by eapply IH. Qed.

Lemma scan_int_digits s n : read_digits 0 s = Some n → s ≠ "" → in_int64 n = true → scan_int s = Some n.
Proof.
  intros H Hne Hn. destruct s as [|c r]; [done |]. assert (is_digit_byte c = true) as Hc by (simpl in H; by case_match).
  unfold scan_int, TrimLeft. rewrite TrimLeftFunc_cons by (by destruct c as [[] [] [] [] [] [] [] []]).
  assert (Ascii.eqb c "-" = false) as -> by (by destruct c as [[] [] [] [] [] [] [] []]).
  assert (Ascii.eqb c "+" = false) as -> by (by destruct c as [[] [] [] [] [] [] [] []]).
  rewrite (leading_digits_all _ _ _ H), H. cbn [from_option id]. by rewrite Hn.
Qed.

Lemma resolveMark_srcMark n : in_int64 (Z.of_nat n) = true → resolveMark (srcMark n) = Z.of_nat n.
Proof.
  intros Hn. unfold resolveMark, srcMark. rewrite CutPrefix_app.
  destruct n as [|n]; [done |]. pose proof (read_digits_pos (Pos.of_succ_nat n)) as H.
  rewrite (scan_int_digits _ (Z.of_nat (S n))); [done | exact H | | done].
  intros E. change (pretty.pretty (N.pos (Pos.of_succ_nat n)) = "") in E. by rewrite E in H.
Qed.

Lemma resolve_source_mark units e n u :
  e_SrcID e = srcMark n → units !! n = Some u → in_int64 (Z.of_nat n) = true → u_ID u ≠ "" →
  resolve_source units e = Some (with_src (u_ID u) e).
Proof.
  intros He Hu Hn Hid. unfold resolve_source. rewrite He, resolveMark_srcMark by done.
  rewrite (proj2 (Z.leb_le _ _)) by lia. rewrite Nat2Z.id, Hu. cbn. by destruct (String.eqb_spec (u_ID u) "").
Qed.

(** ** Coverage *)

(** No more edges than candidates, for any kind. *)
Definition accounted (cov : option (gmap string CoverageCounts)) : Prop :=
  ∀ k, (0 ≤ cc_Edges (counts_of k cov) ≤ cc_Candidates (counts_of k cov))%Z.

Lemma counts_of_set k k' c cov :
  counts_of k (Some (<[k' := c]> (default newCoverage cov))) = if decide (k' = k) then c else counts_of k cov.
Proof. unfold counts_of. cbn [from_option id]. destruct (decide (k' = k)) as [->|Hne]; [by rewrite lookup_insert_eq | by rewrite lookup_insert_ne]. Qed.

Lemma counts_of_none k : counts_of k None = no_counts.
Proof.
  unfold counts_of. cbn [from_option id]. destruct (newCoverage !! k) as [c|] eqn:E; [|done]. unfold newCoverage in E.
  apply elem_of_list_to_map_2, list_elem_of_fmap in E as (k' & E & _). by injection E as _ ->.
Qed.

Lemma plus_at_accounted k c e cov :
  (Z.of_nat e ≤ Z.of_nat c + (cc_Candidates (counts_of k cov) - cc_Edges (counts_of k cov)))%Z → accounted cov → accounted (plus_at k c e cov).
Proof.
  intros He H k'. unfold plus_at. rewrite counts_of_set. destruct (decide (k = k')) as [->|_]; [|apply H]. specialize (H k'). simpl. lia.
Qed.

Lemma contractSite_accounted k emitted fc : accounted (fc_cov fc) → accounted (fc_cov (contractSite k emitted fc)).
Proof.
  intros H k'. unfold contractSite. cbn [fc_cov with_cov]. rewrite counts_of_set. destruct (decide (k = k')) as [->|_]; [|apply H].
  specialize (H k'). destruct emitted; simpl; lia.
Qed.

Lemma linkWrappers_accounted ws fc : accounted (fc_cov fc) → accounted (fc_cov (linkWrappers ws fc)).
Proof.
  intros H. unfold linkWrappers. destruct ws as [|w ws]; [done |]. destruct (linkWrapperCalls _ _) as [n es]. induction n as [|n IH]; [done |].
  cbn [Nat.iter nat_rect]. by apply contractSite_accounted.
Qed.

Lemma plus_counts_accounted a b :
  (0 ≤ cc_Edges a ≤ cc_Candidates a)%Z → (0 ≤ cc_Edges b ≤ cc_Candidates b)%Z → (0 ≤ cc_Edges (plus_counts a b) ≤ cc_Candidates (plus_counts a b))%Z.
Proof. unfold plus_counts. simpl. lia. Qed.

(** Each kind of a report, [∅] where there is none. *)
Lemma accounted_map cs : accounted (Some cs) ↔ ∀ k c, cs !! k = Some c → (0 ≤ cc_Edges c ≤ cc_Candidates c)%Z.
Proof.
  unfold accounted, counts_of. cbn [from_option id]. split.
  - intros H k c Hc. specialize (H k). by rewrite Hc in H.
  - intros H k. destruct (cs !! k) as [c|] eqn:E; [by apply (H k) | simpl; lia].
Qed.

Lemma addCoverage_accounted counts acc : accounted counts → accounted acc → accounted (addCoverage counts acc).
Proof.
  intros Hc Ha. unfold addCoverage. destruct counts as [cs|]; [|done]. destruct (bool_decide (cs = ∅)); [done |].
  rewrite accounted_map in Hc. apply accounted_map. intros k c. rewrite lookup_union_with.
  assert (∀ c, default ∅ acc !! k = Some c → (0 ≤ cc_Edges c ≤ cc_Candidates c)%Z) as Ha'.
  { destruct acc as [a|]; [|done]. rewrite accounted_map in Ha. apply Ha. }
  destruct (default ∅ acc !! k) as [a|] eqn:E1, (cs !! k) as [b|] eqn:E2; intros E; simpl in E; try done; injection E as <-;
    [apply plus_counts_accounted; eauto | eauto..].
Qed.

Lemma length_omap_le {A B} (f : A → option B) l : length (omap f l) ≤ length l.
Proof. induction l as [|x l IH]; simpl; [done |]. destruct (f x); [by apply le_n_S | by apply le_S]. Qed.

Lemma Forall_zip_with_r {A B C} (f : A → B → C) (P : B → Prop) (Q : C → Prop) xs ys :
  (∀ x y, P y → Q (f x y)) → Forall P ys → Forall Q (zip_with f xs ys).
Proof. intros Hf H. revert xs. induction H as [|y ys Hy _ IH]; intros [|x xs]; constructor; auto. Qed.

(** What a file's facts promise: the tables it leaves pending are sites it has counted and not resolved. *)
Definition facts_accounted (p : parseResult) : Prop :=
  accounted (pr_coverage p) ∧
  (Z.of_nat (length (pr_tables p)) ≤ cc_Candidates (counts_of ContractKindDB (pr_coverage p)) - cc_Edges (counts_of ContractKindDB (pr_coverage p)))%Z.

Lemma link_package_file_accounted byDir file p : facts_accounted p → facts_accounted (link_package_file byDir file p).
Proof.
  intros [H Ht]. unfold link_package_file. destruct (_ || _); [done |]. destruct (linkWrapperCalls _ _) as [[|n] es]; [done |].
  split; cbn [pr_coverage pr_tables with_links]; [apply plus_at_accounted; [|done]; specialize (H ContractKindHTTP); lia |].
  unfold plus_at. rewrite counts_of_set, decide_False by done. done.
Qed.

Lemma link_package_tables_accounted byDir file p : facts_accounted p → accounted (pr_coverage (link_package_tables byDir file p)).
Proof.
  intros [H Ht]. unfold link_package_tables. destruct (bool_decide _); [done |].
  pose proof (length_omap_le (table_edge (default ∅ (byDir !! Dir (fi_Path file)))) (pr_tables p)) as Hl.
  destruct (omap _ _) as [|e es]; [done |]. cbn [pr_coverage with_links]. apply plus_at_accounted; [|done]. lia.
Qed.

(** C26: Coverage never counts more edges than candidates: not after linking the helpers and the tables of a package, and not in
    what the files of a pass add up to. *)
Theorem package_coverage_accounted files parsed acc :
  Forall facts_accounted parsed → accounted acc →
  accounted (foldl (λ acc p, addCoverage (pr_coverage p) acc) acc (linkPackageTables files (linkPackageWrappers files parsed))).
Proof.
  intros Hp Ha.
  assert (Forall (λ p, accounted (pr_coverage p)) (linkPackageTables files (linkPackageWrappers files parsed))) as H.
  { assert (Forall facts_accounted (linkPackageWrappers files parsed)) as Hw.
    { unfold linkPackageWrappers. eapply Forall_zip_with_r; [|exact Hp]. intros file p. apply link_package_file_accounted. }
    unfold linkPackageTables. destruct (bool_decide _); [eapply Forall_impl; [exact Hw |]; by intros p [? _] |].
    eapply Forall_zip_with_r; [|exact Hw]. intros file p. apply link_package_tables_accounted. }
  revert acc Ha. induction H as [|p ps Hp1 _ IH]; intros acc Ha; simpl; [done |]. apply IH. by apply addCoverage_accounted.
Qed.

(** ** Storing a window

    What the code relies on: a failed call of the store adds nothing, and deletes the units of a file together or not at all.
    With units the store deletes the edges that start at them, and takes the destination from the edges that lead to them. *)

Definition under_id (id : string) (u : ASTUnit) : ASTUnit := {|
  u_ID := id; u_RepoID := u_RepoID u; u_FilePath := u_FilePath u; u_Language := u_Language u; u_Kind := u_Kind u; u_Name := u_Name u;
  u_Qualified := u_Qualified u; u_ParentID := u_ParentID u; u_StartLine := u_StartLine u; u_EndLine := u_EndLine u;
  u_StartByte := u_StartByte u; u_EndByte := u_EndByte u; u_Signature := u_Signature u; u_Doc := u_Doc u; u_Hash := u_Hash u; u_Meta := u_Meta u |}.
Definition same_but_id (u v : ASTUnit) : Prop := ∃ id, v = under_id id u.
Definition edge_under (id : string) (e : Edge) : Edge := {|
  e_ID := id; e_RepoID := e_RepoID e; e_SrcID := e_SrcID e; e_DstID := e_DstID e; e_Kind := e_Kind e; e_DstName := e_DstName e;
  e_FilePath := e_FilePath e; e_Line := e_Line e; e_DstRepoID := e_DstRepoID e; e_Confidence := e_Confidence e; e_Meta := e_Meta e |}.
Definition edge_but_id (e f : Edge) : Prop := ∃ id, f = edge_under id e.
Definition without_dst (e : Edge) : Edge := {|
  e_ID := e_ID e; e_RepoID := e_RepoID e; e_SrcID := e_SrcID e; e_DstID := ""; e_Kind := e_Kind e; e_DstName := e_DstName e;
  e_FilePath := e_FilePath e; e_Line := e_Line e; e_DstRepoID := ""; e_Confidence := e_Confidence e; e_Meta := e_Meta e |}.
(** What is left of an edge when units are gone. *)
Definition forget (gone : list string) (e : Edge) : option Edge :=
  if bool_decide (e_SrcID e ∈ gone) then None
  else Some (if bool_decide (e_DstID e ≠ "" ∧ e_DstID e ∈ gone) then without_dst e else e).
Class AstStoreLaws (X : Type) `{AstStore X} := {
  units_of : X → string → string → list ASTUnit;
  edges_of : X → string → string → list Edge;
  del_units_law repo paths x :
    let '(e, x') := del_units repo paths x in
    (∀ r p, if decide (r = repo ∧ p ∈ paths)
            then units_of x' r p = [] ∨ (e ≠ None ∧ units_of x' r p = units_of x r p) else units_of x' r p = units_of x r p) ∧
    ∃ gone, (∀ id, id ∈ gone ↔ ∃ q, q ∈ paths ∧ units_of x' repo q = [] ∧ id ∈ map u_ID (units_of x repo q)) ∧
      ∀ r p, edges_of x' r p = omap (forget gone) (edges_of x r p);
  del_edges_law repo paths x :
    let '(e, x') := del_edges repo paths x in
    (∀ r p, units_of x' r p = units_of x r p) ∧
    ∀ r p, if decide (r = repo ∧ p ∈ paths)
           then edges_of x' r p = [] ∨ (e ≠ None ∧ edges_of x' r p = edges_of x r p) else edges_of x' r p = edges_of x r p;
  put_edges_law es x :
    let '(e, x') := put_edges es x in
    (∀ r p, units_of x' r p = units_of x r p) ∧
    match e with
    | Some _ => ∀ r p, edges_of x' r p = edges_of x r p
    | None => ∃ es', Forall2 edge_but_id es es' ∧
        ∀ r p, edges_of x' r p = edges_of x r p ++ filter (λ e, e_RepoID e = r ∧ e_FilePath e = p) es'
    end;
  put_units_law us x :
    match put_units us x with
    | (inl _, x') => (∀ r p, units_of x' r p = units_of x r p) ∧ ∀ r p, edges_of x' r p = edges_of x r p
    | (inr us', x') =>
        Forall2 same_but_id us us' ∧
        (∀ r p, units_of x' r p = units_of x r p ++ filter (λ u, u_RepoID u = r ∧ u_FilePath u = p) us') ∧
        ∀ r p, edges_of x' r p = edges_of x r p
    end
}.

Section Window.
  Context {X : Type} `{AstStoreLaws X} (repo : string).
  Implicit Types (w : windowFile) (x : X).

Abbreviation held x w := (units_of x repo (wf_path w)).
(** No units but those of the files of the paths are touched. *)
Definition frame (paths : list string) (x x' : X) : Prop :=
  ∀ r p, ¬ (r = repo ∧ p ∈ paths) → units_of x' r p = units_of x r p.

Lemma frame_refl paths x : frame paths x x.
Proof. by intros r p _. Qed.
Lemma frame_trans paths x1 x2 x3 : frame paths x1 x2 → frame paths x2 x3 → frame paths x1 x3.
Proof. intros H1 H2 r p Hp. by rewrite H2, H1. Qed.
Lemma frame_weaken paths paths' x x' : paths ⊆ paths' → frame paths x x' → frame paths' x x'.
Proof. intros Hs Hf r p Hp. apply Hf. intros [-> Hin]. apply Hp. split; [done | by apply Hs]. Qed.

Lemma deleteWindow_ok paths x :
  let '(e, x') := deleteWindow repo paths x in
  frame paths x x' ∧
  ∀ p, p ∈ paths → units_of x' repo p = [] ∨ (e ≠ None ∧ units_of x' repo p = units_of x repo p).
Proof.
  unfold deleteWindow. destruct paths as [|p0 paths]; [split; [apply frame_refl | by intros p ?%elem_of_nil] |].
  pose proof (del_units_law repo (p0 :: paths) x) as Hd. destruct (del_units repo (p0 :: paths) x) as [[e|] x1]; destruct Hd as [Hd _].
  - split; [intros r p Hp; specialize (Hd r p); by rewrite decide_False in Hd |]. intros p Hp. specialize (Hd repo p). by rewrite decide_True in Hd.
  - pose proof (del_edges_law repo (p0 :: paths) x1) as He. destruct (del_edges repo (p0 :: paths) x1) as [e x2]. destruct He as [He _].
    split; [intros r p Hp; rewrite He; specialize (Hd r p); by rewrite decide_False in Hd |].
    intros p Hp. specialize (Hd repo p). rewrite decide_True in Hd by done. rewrite He. destruct Hd as [Hd|[Hd _]]; [by left | done].
Qed.

(** What deleting the data of paths does: their units go together or not at all, with the edges that led to the units that went;
    the edges of a path may go with them. *)
Definition went (paths : list string) (x x' : X) (gone : list string) : Prop :=
  ∀ id, id ∈ gone ↔ ∃ q, q ∈ paths ∧ units_of x' repo q = [] ∧ id ∈ map u_ID (units_of x repo q).
Definition emptied (paths : list string) (x x' : X) : Prop :=
  (∀ r q, units_of x' r q = units_of x r q ∨ (r = repo ∧ q ∈ paths ∧ units_of x' r q = [])) ∧
  ∃ gone, went paths x x' gone ∧
    ∀ r p, edges_of x' r p = omap (forget gone) (edges_of x r p) ∨ (r = repo ∧ p ∈ paths ∧ edges_of x' r p = []).

Lemma forget_app g1 g2 (es : list Edge) : omap (forget g2) (omap (forget g1) es) = omap (forget (g1 ++ g2)) es.
Proof.
  assert (∀ e, forget (g1 ++ g2) e = forget g1 e ≫= forget g2) as Hf.
  { intros e. unfold forget. destruct (decide (e_SrcID e ∈ g1)) as [H1|H1]; [rewrite !bool_decide_eq_true_2; set_solver |].
    rewrite (bool_decide_eq_false_2 (e_SrcID e ∈ g1)) by done. cbn [mbind option_bind].
    destruct (decide (e_DstID e ≠ "" ∧ e_DstID e ∈ g1)) as [H2|H2].
    - rewrite (bool_decide_eq_true_2 (e_DstID e ≠ "" ∧ e_DstID e ∈ g1)), (bool_decide_eq_true_2 (e_DstID e ≠ "" ∧ e_DstID e ∈ g1 ++ g2))
        by set_solver. cbn [e_SrcID e_DstID without_dst].
      rewrite (bool_decide_eq_false_2 ("" ≠ "" ∧ _)) by (by intros [? _]). destruct (decide (e_SrcID e ∈ g2)).
      + rewrite !bool_decide_eq_true_2; set_solver.
      + rewrite !bool_decide_eq_false_2; set_solver.
    - rewrite (bool_decide_eq_false_2 (e_DstID e ≠ "" ∧ e_DstID e ∈ g1)) by done.
      rewrite (bool_decide_ext (e_SrcID e ∈ g1 ++ g2) (e_SrcID e ∈ g2)) by set_solver.
      by rewrite (bool_decide_ext (e_DstID e ≠ "" ∧ e_DstID e ∈ g1 ++ g2) (e_DstID e ≠ "" ∧ e_DstID e ∈ g2)) by set_solver. }
  induction es as [|e es IH]; [done |]. cbn [omap list_omap]. rewrite Hf. destruct (forget g1 e) as [e'|]; cbn [mbind option_bind]; [|exact IH].
  cbn [omap list_omap]. by rewrite <- IH.
Qed.

Lemma forget_nothing (es : list Edge) : omap (forget []) es = es.
Proof.
  induction es as [|e es IH]; [done |]. cbn [omap list_omap]. unfold forget at 1.
  rewrite !bool_decide_eq_false_2 by (intros H1; try destruct H1 as [_ H1]; by apply elem_of_nil in H1). f_equal. exact IH.
Qed.

Lemma emptied_refl paths x : emptied paths x x.
Proof.
  split; [by left |]. exists []. split; [|intros r p; left; by rewrite forget_nothing]. intros id. split; [by intros ?%elem_of_nil |].
  intros (q & _ & E & Hin). rewrite E in Hin. by apply elem_of_nil in Hin.
Qed.
Lemma emptied_trans paths x y z : emptied paths x y → emptied paths y z → emptied paths x z.
Proof.
  intros (U1 & g1 & W1 & E1) (U2 & g2 & W2 & E2). split.
  { intros r q. destruct (U2 r q) as [->|?]; [|by right]. apply U1. }
  exists (g1 ++ g2). split.
  - intros id. rewrite elem_of_app, (W1 id), (W2 id). split.
    + intros [(q & Hq & Hy & Hin)|(q & Hq & Hz & Hin)]; exists q.
      * split_and!; [done | | done]. destruct (U2 repo q) as [->|(_ & _ & ->)]; done.
      * split_and!; [done | done |]. destruct (U1 repo q) as [<-|(_ & _ & Hy)]; [done |]. rewrite Hy in Hin. by apply elem_of_nil in Hin.
    + intros (q & Hq & Hz & Hin). destruct (U1 repo q) as [Hy|(_ & _ & Hy)]; [right | left]; exists q; [by rewrite Hy | done].
  - intros r p. destruct (E2 r p) as [->|?]; [|by right]. destruct (E1 r p) as [->|(Hr & Hp & ->)]; [left; apply forget_app | by right].
Qed.
Lemma emptied_weaken paths paths' x x' : paths ⊆ paths' → emptied paths x x' → emptied paths' x x'.
Proof.
  intros Hs (U & g & W & E). split; [intros r q; destruct (U r q) as [|(? & ? & ?)]; [by left | right; split_and!; auto] |].
  exists g. split; [|intros r p; destruct (E r p) as [|(? & ? & ?)]; [by left | right; split_and!; auto]].
  intros id. rewrite (W id). split; intros (q & Hq & Hx & Hin); exists q; [split_and!; auto |]. split_and!; [|done..].
  destruct (U repo q) as [Hu|(_ & ? & _)]; [|done]. rewrite <- Hu, Hx in Hin. by apply elem_of_nil in Hin.
Qed.
Lemma emptied_nil paths x x' r p : emptied paths x x' → edges_of x r p = [] → edges_of x' r p = [].
Proof. intros (_ & g & _ & E) Hn. destruct (E r p) as [->|(_ & _ & ?)]; [by rewrite Hn | done]. Qed.

Lemma del_units_emptied paths x : emptied paths x (snd (del_units repo paths x)).
Proof.
  pose proof (del_units_law repo paths x) as Hd. destruct (del_units repo paths x) as [e x1]. destruct Hd as (Hd & g & Hw & He). split.
  - intros r q. specialize (Hd r q). destruct (decide _) as [[-> Hq]|_]; [destruct Hd as [Hd|[_ Hd]] |]; [right; by split_and! | by left | by left].
  - exists g. split; [exact Hw |]. by left.
Qed.
Lemma del_edges_emptied paths x : emptied paths x (snd (del_edges repo paths x)).
Proof.
  pose proof (del_edges_law repo paths x) as Hd. destruct (del_edges repo paths x) as [e x1]. destruct Hd as [Hu He]. cbn [snd].
  split; [intros r q; left; apply Hu |]. exists []. split.
  - intros id. split; [by intros ?%elem_of_nil |]. intros (q & _ & E & Hin). rewrite Hu in E. rewrite E in Hin. by apply elem_of_nil in Hin.
  - intros r p. rewrite forget_nothing. specialize (He r p). destruct (decide _) as [[-> Hp]|_]; [destruct He as [He|[_ He]] |];
      [right; by split_and! | by left | by left].
Qed.
Lemma deleteWindow_emptied paths x :
  let '(e, x') := deleteWindow repo paths x in emptied paths x x' ∧ (e = None → ∀ p, p ∈ paths → edges_of x' repo p = []).
Proof.
  unfold deleteWindow. destruct paths as [|p0 ps] eqn:Ep; [split; [apply emptied_refl | by intros _ p ?%elem_of_nil] |]. rewrite <- Ep. clear p0 ps Ep.
  pose proof (del_units_emptied paths x) as E1. destruct (del_units repo paths x) as [[e|] x1]; [done |]. cbn [snd] in E1.
  pose proof (del_edges_emptied paths x1) as E2. pose proof (del_edges_law repo paths x1) as L2.
  destruct (del_edges repo paths x1) as [e x2]. destruct L2 as [_ L2]. split; [by eapply emptied_trans |].
  intros -> p Hp. specialize (L2 repo p). rewrite decide_True in L2 by done. by destruct L2 as [|[]].
Qed.

(** *** One file after the other *)

(** A step of a file: what it was and its units, what it becomes and its units; a file that does not go in is left alone. *)
Definition step_of (S : windowFile → list ASTUnit → windowFile → list ASTUnit → Prop) (x x' : X) w w' : Prop :=
  wf_path w' = wf_path w ∧ if goes_in w then S w (held x w) w' (held x' w) else w' = w ∧ held x' w = held x w.

Lemma each_file_ok S (Q : windowFile → Prop) f :
  (∀ w x, Q w → goes_in w = true →
     let '(w', x') := f w x in wf_path w' = wf_path w ∧ frame [wf_path w] x x' ∧ S w (held x w) w' (held x' w)) →
  ∀ files x, Forall Q files → NoDup (map wf_path files) →
    let '(files', x') := each_file f files x in
    Forall2 (step_of S x x') files files' ∧ frame (map wf_path files) x x'.
Proof.
  intros Hf. induction files as [|w files IH]; intros x HQ HN; cbn [each_file]; [split; [constructor | apply frame_refl] |].
  cbn [map] in HN. apply NoDup_cons in HN as [Hw HN]. apply Forall_cons in HQ as [HQw HQ].
  assert (∃ w1 x1, (if goes_in w then f w x else (w, x)) = (w1, x1) ∧ step_of S x x1 w w1 ∧ frame [wf_path w] x x1) as (w1 & x1 & -> & Hs & Hfr).
  { unfold step_of. pose proof (Hf w x HQw) as Hfw. destruct (goes_in w) eqn:E.
    - destruct (f w x) as [w1 x1]. exists w1, x1. destruct (Hfw eq_refl) as (Hp & Hfr & HS). by split_and!.
    - exists w, x. by split_and!. }
  specialize (IH x1 HQ HN). destruct (each_file f files x1) as [files' x']. destruct IH as [IH Hfr'].
  split.
  - constructor.
    + destruct Hs as [Hp Hs]. split; [done |]. rewrite (Hfr' repo (wf_path w)) by (intros [_ Hin]; by apply Hw). done.
    + apply Forall2_same_length_lookup in IH as [Hl IH]. apply Forall2_same_length_lookup. split; [done |]. intros i v v' Hv Hv'.
      specialize (IH i v v' Hv Hv') as [Hp Hs']. split; [done |]. rewrite (Hfr repo (wf_path v)) in Hs'; [done |].
      intros [_ Hin]. apply list_elem_of_singleton in Hin. apply Hw. rewrite <- Hin. apply list_elem_of_fmap_2. by eapply list_elem_of_lookup_2.
  - eapply frame_trans; [eapply frame_weaken; [|exact Hfr] | eapply frame_weaken; [|exact Hfr']]; set_solver.
Qed.

(** *** Deleting what was stored *)

Definition deleted w (us : list ASTUnit) w' (us' : list ASTUnit) : Prop :=
  wf_units w' = wf_units w ∧ if goes_in w' then us' = [] else us' = us ∨ us' = [].

Lemma fail_file_out what e w : goes_in (fail_file what e w) = false.
Proof. done. Qed.

Lemma delete_one_ok w x :
  goes_in w = true →
  let '(w', x') := delete_one repo w x in wf_path w' = wf_path w ∧ frame [wf_path w] x x' ∧ deleted w (held x w) w' (held x' w).
Proof.
  intros Hg. unfold delete_one. pose proof (deleteWindow_ok [wf_path w] x) as Hd. destruct (deleteWindow repo [wf_path w] x) as [[e|] x1];
    destruct Hd as [Hf Hd]; specialize (Hd (wf_path w) (list_elem_of_here _ _)).
  - split_and!; [done.. |]. split; [done |]. rewrite fail_file_out. destruct Hd as [Hd|[_ Hd]]; auto.
  - split_and!; [done.. |]. split; [done |]. rewrite Hg. by destruct Hd as [Hd|[Hd _]].
Qed.

Lemma going_paths files w : NoDup (map wf_path files) → w ∈ files →
  wf_path w ∈ map wf_path (filter (λ w, goes_in w = true) files) ↔ goes_in w = true.
Proof.
  intros HN Hw. rewrite list_elem_of_fmap. split.
  - intros (v & Hp & Hv). apply list_elem_of_filter in Hv as [Hg Hv]. by rewrite (NoDup_map_inj wf_path files w v HN Hw Hv Hp).
  - intros Hg. exists w. split; [done |]. by apply list_elem_of_filter.
Qed.

Lemma Forall2_self {A} (R : A → A → Prop) l : (∀ a, a ∈ l → R a a) → Forall2 R l l.
Proof. intros HR. induction l as [|a l IH]; constructor; [apply HR; by left | apply IH; intros b Hb; apply HR; by right]. Qed.

Lemma delete_stale_ok files x :
  NoDup (map wf_path files) →
  let '(files', x') := delete_stale repo files x in
  Forall2 (step_of deleted x x') files files' ∧ frame (map wf_path files) x x'.
Proof.
  intros HN. unfold delete_stale. set (going := map wf_path (filter (λ w, goes_in w = true) files)).
  assert (going ⊆ map wf_path files) as Hsub.
  { intros p Hp. subst going. apply list_elem_of_fmap in Hp as (w & -> & Hw). apply list_elem_of_filter in Hw as [_ Hw]. by apply list_elem_of_fmap_2. }
  pose proof (deleteWindow_ok going x) as Hd. destruct (deleteWindow repo going x) as [[e|] x1]; destruct Hd as [Hf Hd].
  - pose proof (each_file_ok deleted (λ _, True) (delete_one repo) (λ w x _, delete_one_ok w x) files x1 (Forall_true _ _ (λ _, I)) HN) as He.
    destruct (each_file (delete_one repo) files x1) as [files' x2]. destruct He as [He Hf']. split.
    + apply Forall2_same_length_lookup in He as [Hl He]. apply Forall2_same_length_lookup. split; [done |]. intros i w w' Hw Hw'.
      destruct (He i w w' Hw Hw') as [Hp Hs]. split; [done |]. pose proof (list_elem_of_lookup_2 _ _ _ Hw) as Hin.
      pose proof (going_paths files w HN Hin) as Hgo. destruct (goes_in w).
      * destruct Hs as [Hu Hs]. split; [done |]. destruct (Hd (wf_path w) (proj2 Hgo eq_refl)) as [E|[_ E]]; rewrite E in Hs; [|done].
        destruct (goes_in w'); [done | naive_solver].
      * destruct Hs as [-> Hs]. split; [done |]. rewrite Hs. apply Hf. intros [_ Hin']. by apply Hgo in Hin'.
    + eapply frame_trans; [by eapply frame_weaken | done].
  - split; [|by eapply frame_weaken]. apply Forall2_self. intros w Hw. split; [done |]. pose proof (going_paths files w HN Hw) as Hgo.
    destruct (goes_in w) eqn:Eg.
    + split; [done |]. rewrite Eg. by destruct (Hd (wf_path w) (proj2 Hgo eq_refl)) as [E|[E _]].
    + split; [done |]. apply Hf. intros [_ Hin]. by apply Hgo in Hin.
Qed.

(** What goes on from there has no edges left. *)
Definition bare (x : X) w : Prop := goes_in w = true → edges_of x repo (wf_path w) = [].
Lemma each_delete_emptied files x :
  let '(files', x') := each_file (delete_one repo) files x in
  emptied (map wf_path (filter (λ w, goes_in w = true) files)) x x' ∧ Forall (bare x') files'.
Proof.
  revert x. induction files as [|w files IH]; intros x; cbn [each_file]; [split; [apply emptied_refl | constructor] |].
  destruct (goes_in w) eqn:Eg.
  - rewrite filter_cons_True by done. cbn [map]. unfold delete_one at 1.
    pose proof (deleteWindow_emptied [wf_path w] x) as Hd.
    assert (∃ w1 x1, match deleteWindow repo [wf_path w] x with (Some e, x) => (fail_file "delete old data: " e w, x) | (None, x) => (w, x) end = (w1, x1) ∧
      emptied [wf_path w] x x1 ∧ bare x1 w1) as (w1 & x1 & -> & E1 & B1).
    { destruct (deleteWindow repo [wf_path w] x) as [[e|] x1]; destruct Hd as [E1 B1]; eexists _, _; (split; [done |]); (split; [done |]); [done |].
      intros _. apply B1; [done | by left]. }
    specialize (IH x1). destruct (each_file (delete_one repo) files x1) as [files' x']. destruct IH as [E2 B2]. split.
    + eapply emptied_trans; (eapply emptied_weaken; [|eassumption]); set_solver.
    + constructor; [|done]. intros Hg. eapply emptied_nil; [exact E2 | by apply B1].
  - rewrite filter_cons_False by congruence. specialize (IH x). destruct (each_file (delete_one repo) files x) as [files' x'].
    destruct IH as [E2 B2]. split; [done |]. constructor; [|done]. unfold bare. congruence.
Qed.
Lemma delete_stale_emptied files x :
  let '(files', x') := delete_stale repo files x in
  emptied (map wf_path (filter (λ w, goes_in w = true) files)) x x' ∧ Forall (bare x') files'.
Proof.
  unfold delete_stale. set (going := map wf_path _). pose proof (deleteWindow_emptied going x) as Hd.
  destruct (deleteWindow repo going x) as [[e|] x1]; destruct Hd as [E1 B1].
  - pose proof (each_delete_emptied files x1) as H1. destruct (each_file (delete_one repo) files x1) as [files' x'].
    destruct H1 as [E2 B2]. split; [by eapply emptied_trans | done].
  - split; [done |]. apply Forall_forall. intros w Hw Hg. apply B1; [done |]. apply list_elem_of_fmap. exists w. split; [done |].
    by apply list_elem_of_filter.
Qed.

(** *** Storing what was parsed *)

(** The units of a file are its own. *)
Definition own_unit w (u : ASTUnit) : Prop := u_RepoID u = repo ∧ u_FilePath u = wf_path w.
Definition own w : Prop := Forall (own_unit w) (wf_units w).
Definition stored w (us : list ASTUnit) w' (us' : list ASTUnit) : Prop :=
  if goes_in w' then Forall2 same_but_id (wf_units w) (wf_units w') ∧ us' = us ++ wf_units w' else us' = us.

Lemma own_renamed w us : own w → Forall2 same_but_id (wf_units w) us → Forall (own_unit w) us.
Proof. unfold own. intros Ho HF. induction HF as [|u v us vs [id ->] _ IH]; [constructor |]. apply Forall_cons in Ho as [Hu Ho]. constructor; auto. Qed.

Lemma filter_own_all w us : Forall (own_unit w) us → filter (λ u, u_RepoID u = repo ∧ u_FilePath u = wf_path w) us = us.
Proof. intros Ho. apply filter_everything. by apply Forall_forall. Qed.

Lemma store_one_ok w x :
  own w → goes_in w = true →
  let '(w', x') := store_one w x in wf_path w' = wf_path w ∧ frame [wf_path w] x x' ∧ stored w (held x w) w' (held x' w).
Proof.
  intros Ho Hg. unfold store_one. pose proof (put_units_law (wf_units w) x) as Hp. destruct (put_units (wf_units w) x) as [[e|us'] x'].
  - destruct Hp as [Hp _]. split_and!; [done | by intros r p _ | apply Hp].
  - destruct Hp as (HF & Hp & _). pose proof (own_renamed w us' Ho HF) as Ho'. split_and!; [done | |].
    + intros r p Hn. rewrite Hp, (filter_nothing _ us'); [by rewrite app_nil_r |]. intros u Hu [Hr' Hq'].
      rewrite Forall_forall in Ho'. destruct (Ho' u Hu) as [Hr Hq]. apply Hn. rewrite <- Hr', <- Hq', Hr, Hq. split; [done | by left].
    + unfold stored. change (goes_in (with_stored us' w)) with (goes_in w). rewrite Hg. split; [done |]. by rewrite Hp, filter_own_all.
Qed.

Lemma hand_out_ok us' files :
  Forall2 same_but_id (concat (map wf_units (filter (λ w, goes_in w = true) files))) us' →
  Forall2 (λ w w', wf_path w' = wf_path w ∧ goes_in w' = goes_in w ∧
                   if goes_in w then Forall2 same_but_id (wf_units w) (wf_units w') else w' = w) files (hand_out us' files) ∧
  us' = concat (map wf_units (filter (λ w, goes_in w = true) (hand_out us' files))).
Proof.
  revert us'. induction files as [|w files IH]; intros us' HF; [by inversion HF |]. cbn [hand_out]. destruct (goes_in w) eqn:Eg.
  - rewrite filter_cons_True in HF by done. cbn [map concat] in HF. apply Forall2_app_inv_l in HF as (us1 & us2 & H1 & H2 & ->).
    pose proof (Forall2_length _ _ _ H1) as Hl. rewrite Hl, take_app_length, drop_app_length. destruct (IH us2 H2) as [IH1 IH2].
    split; [constructor; [split_and!; [done.. | by rewrite Eg] | done] |].
    rewrite filter_cons_True by done. cbn [map concat]. by rewrite <- IH2.
  - rewrite filter_cons_False in HF by congruence. destruct (IH us' HF) as [IH1 IH2].
    split; [constructor; [split_and!; [done.. | by rewrite Eg] | done] |]. by rewrite filter_cons_False by congruence.
Qed.

(** Of what the files of a window have together, what belongs to a path is what the file of the path has. *)
Section Parts.
  Context {A : Type} (repo_of path_of : A → string) (part : windowFile → list A).
  Implicit Types files : list windowFile.

Definition mine w (a : A) : Prop := repo_of a = repo ∧ path_of a = wf_path w.
Abbreviation all_parts files := (concat (map part (filter (λ w, goes_in w = true) files))).
Abbreviation of_path r p := (filter (λ a, repo_of a = r ∧ path_of a = p)).

Lemma window_parts files r p :
  NoDup (map wf_path files) → Forall (λ w, goes_in w = true → Forall (mine w) (part w)) files →
  (∀ w, w ∈ files → wf_path w = p → r = repo → of_path r p (all_parts files) = if goes_in w then part w else []) ∧
  (¬ (r = repo ∧ p ∈ map wf_path files) → of_path r p (all_parts files) = []).
Proof.
  induction files as [|w files IH]; intros HN Ho; [split; [by intros w ?%elem_of_nil | done] |].
  cbn [map] in HN. apply NoDup_cons in HN as [Hw HN]. apply Forall_cons in Ho as [Hw_own Ho]. destruct (IH HN Ho) as [IH1 IH2].
  assert (Hhead : all_parts (w :: files) = (if goes_in w then part w else []) ++ all_parts files).
  { destruct (goes_in w) eqn:Eg; [by rewrite filter_cons_True | by rewrite filter_cons_False by congruence]. }
  rewrite Hhead, filter_app.
  assert (Hmine : r = repo → wf_path w = p → of_path r p (if goes_in w then part w else []) = if goes_in w then part w else []).
  { intros -> <-. destruct (goes_in w); [|done]. apply filter_everything. apply Forall_forall. by apply Hw_own. }
  assert (Hother : ¬ (r = repo ∧ wf_path w = p) → of_path r p (if goes_in w then part w else []) = []).
  { intros Hne. destruct (goes_in w) eqn:Eg; [|done]. apply filter_nothing. intros a Ha [Hr' Hq'].
    pose proof (Hw_own eq_refl) as Hown. rewrite Forall_forall in Hown. destruct (Hown a Ha) as [Hr Hq]. apply Hne. by rewrite <- Hr', <- Hq', Hr, Hq. }
  split.
  - intros v Hv Hp Hr. apply elem_of_cons in Hv as [->|Hv].
    + rewrite Hmine, IH2 by (done || (intros [_ Hin]; apply Hw; by rewrite Hp)). by rewrite app_nil_r.
    + rewrite Hother, (IH1 v Hv Hp Hr); [done |]. intros [_ Hp']. apply Hw. rewrite Hp', <- Hp. by apply list_elem_of_fmap_2.
  - intros Hne. rewrite Hother, IH2; [done | |]; intros [Hr Hin]; apply Hne; (split; [done |]); cbn [map]; [by right | rewrite <- Hin; by left].
Qed.
End Parts.
Abbreviation window_units files r p := (window_parts u_RepoID u_FilePath wf_units files r p).

Lemma store_units_ok files x :
  NoDup (map wf_path files) → Forall own files →
  let '(files', x') := store_units files x in
  Forall2 (step_of stored x x') files files' ∧ frame (map wf_path files) x x'.
Proof.
  intros HN Ho. unfold store_units. set (all := concat _). pose proof (put_units_law all x) as Hp. destruct (put_units all x) as [[e|us'] x1].
  - pose proof (each_file_ok stored own store_one (λ w x Ho Hg, store_one_ok w x Ho Hg) files x1 Ho HN) as He.
    destruct (each_file store_one files x1) as [files' x2]. destruct He as [He Hf]. split.
    + eapply Forall2_impl; [exact He |]. intros w w' [Hq Hs]. split; [done |]. by rewrite (proj1 Hp repo (wf_path w)) in Hs.
    + intros r p Hn. by rewrite Hf, (proj1 Hp).
  - destruct Hp as (HF & Hp & _). destruct (hand_out_ok us' files HF) as [HH Hus]. set (files' := hand_out us' files) in *.
    assert (map wf_path files' = map wf_path files) as Hpaths.
    { clear -HH. induction HH as [|w w' ws ws' [E _] _ IH]; [done |]. cbn [map]. by rewrite E, IH. }
    assert (Forall (λ w, goes_in w = true → own w) files') as Ho'.
    { clear -HH Ho. induction HH as [|w w' ws ws' (Ep & Eg & Hm) _ IH]; [constructor |]. apply Forall_cons in Ho as [Hw Ho]. constructor; [|by apply IH].
      intros Hg. rewrite <- Eg, Hg in Hm. unfold own, own_unit. rewrite Ep. by apply own_renamed. }
    split.
    + apply Forall2_same_length_lookup in HH as [Hl HH]. apply Forall2_same_length_lookup. split; [done |]. intros i w w' Hw Hw'.
      destruct (HH i w w' Hw Hw') as (Ep & Eg & Hm). split; [done |].
      destruct (window_units files' repo (wf_path w)) as [Hu _]; [by rewrite Hpaths | done |].
      specialize (Hu w' (list_elem_of_lookup_2 _ _ _ Hw') Ep eq_refl). rewrite <- Hus in Hu.
      destruct (goes_in w).
      * unfold stored. rewrite Eg in *. split; [done |]. by rewrite Hp, Hu.
      * split; [done |]. rewrite Eg in Hu. by rewrite Hp, Hu, app_nil_r.
    + intros r p Hn. rewrite Hp, Hus. destruct (window_units files' r p) as [_ Hu]; [by rewrite Hpaths | done |].
      rewrite Hu, app_nil_r; [done |]. by rewrite Hpaths.
Qed.

Lemma each_store_edges files x r p : edges_of (snd (each_file store_one files x)) r p = edges_of x r p.
Proof.
  revert x. induction files as [|w files IH]; intros x; cbn [each_file]; [done |].
  assert (∃ w1 x1, (if goes_in w then store_one w x else (w, x)) = (w1, x1) ∧ edges_of x1 r p = edges_of x r p) as (w1 & x1 & -> & E1).
  { destruct (goes_in w); [|by eexists _, _]. unfold store_one. pose proof (put_units_law (wf_units w) x) as Hp.
    destruct (put_units (wf_units w) x) as [[e|us'] x']; eexists _, _; (split; [done |]); apply Hp. }
  specialize (IH x1). destruct (each_file store_one files x1) as [files' x']. cbn [snd] in *. congruence.
Qed.
Lemma store_units_edges files x r p : edges_of (snd (store_units files x)) r p = edges_of x r p.
Proof.
  unfold store_units. set (all := concat _). pose proof (put_units_law all x) as Hp. destruct (put_units all x) as [[e|us'] x1]; [|apply Hp].
  rewrite each_store_edges. apply Hp.
Qed.

(** *** Storing the edges *)

Definition unmoved w w' : Prop := wf_path w' = wf_path w ∧ wf_units w' = wf_units w ∧ wf_failure w' = wf_failure w.

Lemma unmoved_goes_in w w' : unmoved w w' → goes_in w' = goes_in w.
Proof. intros (_ & _ & E). unfold goes_in. by rewrite E. Qed.

(** What the store has of the edges of a file after it was given them: all or none, besides what it had. *)
Definition given (x x' : X) w : Prop :=
  ∃ es, edges_of x' repo (wf_path w) = edges_of x repo (wf_path w) ++ es ∧
    if goes_in w then es = [] ∨ Forall2 edge_but_id (wf_edges w) es else es = [].
Definition own_edges w : Prop := goes_in w = true → Forall (mine e_RepoID e_FilePath w) (wf_edges w).
Definition edges_frame (paths : list string) (x x' : X) : Prop :=
  ∀ r p, ¬ (r = repo ∧ p ∈ paths) → edges_of x' r p = edges_of x r p.

Lemma mine_renamed w es es' : Forall (mine e_RepoID e_FilePath w) es → Forall2 edge_but_id es es' → Forall (mine e_RepoID e_FilePath w) es'.
Proof. intros Ho HF. induction HF as [|e f es fs [id ->] _ IH]; [constructor |]. apply Forall_cons in Ho as [He Ho]. constructor; auto. Qed.

Lemma put_own_edges w x :
  Forall (mine e_RepoID e_FilePath w) (wf_edges w) →
  let '(e, x') := put_edges (wf_edges w) x in (∀ r p, units_of x' r p = units_of x r p) ∧ edges_frame [wf_path w] x x' ∧
    ∃ es, edges_of x' repo (wf_path w) = edges_of x repo (wf_path w) ++ es ∧ (es = [] ∨ Forall2 edge_but_id (wf_edges w) es).
Proof.
  intros Ho. pose proof (put_edges_law (wf_edges w) x) as Hp. destruct (put_edges (wf_edges w) x) as [[e|] x']; destruct Hp as [Hu Hp].
  - split_and!; [done | by intros r p _ |]. exists []. rewrite app_nil_r. split; [apply Hp | by left].
  - destruct Hp as (es & HF & Hp). pose proof (mine_renamed w _ _ Ho HF) as Ho'. rewrite Forall_forall in Ho'. split_and!; [done | |].
    + intros r p Hn. rewrite Hp, (filter_nothing _ es), app_nil_r; [done |]. intros e He [Hr Hq]. destruct (Ho' e He) as [Hr' Hq'].
      apply Hn. rewrite <- Hr, <- Hq, Hr', Hq'. split; [done | by left].
    + exists es. split; [|by right]. rewrite Hp. f_equal. by apply filter_everything.
Qed.

Lemma each_edges files x :
  NoDup (map wf_path files) → Forall own_edges files →
  let '(files', x') := each_file store_edges_one files x in
  files' = files ∧ (∀ r p, units_of x' r p = units_of x r p) ∧ Forall (given x x') files ∧ edges_frame (map wf_path files) x x'.
Proof.
  revert x. induction files as [|w files IH]; intros x HN Ho; cbn [each_file]; [by split_and!; [| | constructor | intros r p _] |].
  cbn [map] in HN. apply NoDup_cons in HN as [Hw HN]. apply Forall_cons in Ho as [Hwo Ho].
  assert (∃ x1, (if goes_in w then store_edges_one w x else (w, x)) = (w, x1) ∧ (∀ r p, units_of x1 r p = units_of x r p) ∧
    given x x1 w ∧ edges_frame [wf_path w] x x1) as (x1 & -> & U1 & G1 & F1).
  { unfold given. destruct (goes_in w) eqn:Eg.
    - unfold store_edges_one. pose proof (put_own_edges w x (Hwo Eg)) as Hp. destruct (put_edges (wf_edges w) x) as [e x1]. exists x1.
      destruct Hp as (? & ? & ?). by split_and!.
    - exists x. split_and!; [done | done | | by intros r p _]. exists []. by rewrite app_nil_r. }
  specialize (IH x1 HN Ho). destruct (each_file store_edges_one files x1) as [files' x']. destruct IH as (-> & U2 & G2 & F2).
  split_and!; [done | intros r p; by rewrite U2 | |].
  - constructor.
    + destruct G1 as (es & E & Hes). exists es. split; [|done]. rewrite <- E. apply F2. by intros [_ ?].
    + rewrite Forall_forall in G2 |- *. intros v Hv. destruct (G2 v Hv) as (es & E & Hes). exists es. split; [|done]. rewrite E. f_equal.
      apply F1. intros [_ Hin%list_elem_of_singleton]. apply Hw. rewrite <- Hin. by apply list_elem_of_fmap_2.
  - intros r p Hn. rewrite F2, F1; [done | |]; intros [Hr Hp]; apply Hn; (split; [done |]); cbn [map]; set_solver.
Qed.

(** The files with the sources of their edges, as the store is given them. *)
Definition sourced (files : list windowFile) : list windowFile := map (λ w, if goes_in w then with_sources w else w) files.
Definition own_parsed w : Prop := Forall (λ e, e_RepoID e = repo ∧ e_FilePath e = wf_path w) (wf_edges w).
Lemma sourced_own files : Forall own_parsed files → Forall own_edges (sourced files).
Proof.
  intros Ho. apply Forall_map. eapply Forall_impl; [exact Ho |]. intros w Hw. unfold own_edges. destruct (goes_in w) eqn:Eg; [|congruence].
  intros _. change (wf_edges (with_sources w)) with (resolveEdgeSources (wf_edges w) (wf_units w)). apply Forall_forall.
  intros f (e & He & Hf)%list_elem_of_omap. unfold own_parsed in Hw. rewrite Forall_forall in Hw. destruct (Hw e He) as [Hr Hp]. revert Hf. unfold resolve_source.
  destruct (0 <=? resolveMark (e_SrcID e))%Z; [destruct (wf_units w !! _) as [u|]; [|done] |]; cbn [fmap option_fmap option_map];
    destruct (String.eqb _ ""); try done; intros [= <-]; done.
Qed.

Lemma filter_stored r p es fs :
  Forall2 edge_but_id es fs →
  Forall2 edge_but_id (filter (λ e, e_RepoID e = r ∧ e_FilePath e = p) es) (filter (λ e, e_RepoID e = r ∧ e_FilePath e = p) fs).
Proof.
  intros HF. induction HF as [|e f es fs [id ->] _ IH]; [constructor |]. rewrite !filter_cons. cbn [e_RepoID e_FilePath edge_under].
  destruct (decide _); [constructor; [by exists id | done] | done].
Qed.

Lemma store_window_edges_ok files x :
  NoDup (map wf_path files) → Forall own_parsed files →
  let '(files', x') := store_window_edges files x in
  files' = sourced files ∧ Forall2 unmoved files files' ∧ (∀ r p, units_of x' r p = units_of x r p) ∧
  Forall (given x x') files' ∧ edges_frame (map wf_path files) x x'.
Proof.
  intros HN Ho. unfold store_window_edges. fold (sourced files). pose proof (sourced_own files Ho) as Ho1. set (files1 := sourced files) in *.
  assert (Forall2 unmoved files files1) as HF.
  { subst files1. clear. induction files as [|w files IH]; [constructor |]. constructor; [|done]. by destruct (goes_in w). }
  assert (map wf_path files1 = map wf_path files) as Hpaths.
  { clear -HF. induction HF as [|w w' ws ws' [E _] _ IH]; [done |]. cbn [map]. by rewrite E, IH. }
  rewrite <- Hpaths in HN |- *.
  set (all := concat _). pose proof (put_edges_law all x) as Hp. destruct (put_edges all x) as [[e|] x1]; destruct Hp as [Hu Hp].
  - pose proof (each_edges files1 x1 HN Ho1) as He. destruct (each_file store_edges_one files1 x1) as [files2 x2]. destruct He as (-> & U2 & G2 & F2).
    split_and!; [done | done | intros r p; by rewrite U2 | |].
    + eapply Forall_impl; [exact G2 |]. intros w (es & E & Hes). exists es. by rewrite <- Hp.
    + intros r p Hn. by rewrite F2.
  - destruct Hp as (es & HE & Hp). split_and!; [done..| |].
    + apply Forall_forall. intros w Hw. destruct (window_parts e_RepoID e_FilePath wf_edges files1 repo (wf_path w) HN Ho1) as [Hin _].
      specialize (Hin w Hw eq_refl eq_refl). eexists. split; [apply Hp |].
      pose proof (filter_stored repo (wf_path w) all es HE) as Hf. unfold all in Hf. rewrite Hin in Hf.
      destruct (goes_in w); [by right | by inversion Hf].
    + intros r p Hn. destruct (window_parts e_RepoID e_FilePath wf_edges files1 r p HN Ho1) as [_ Hout]. rewrite Hp.
      pose proof (filter_stored r p all es HE) as Hf. unfold all in Hf. rewrite (Hout Hn) in Hf. inversion Hf. by rewrite app_nil_r.
Qed.

(** *** The counts of a window *)

Definition still_out w w' : Prop := goes_in w = false → w' = w.
Definition met (l l' : list windowFile) : list string := omap (λ '(w, w'), if goes_in w then wf_failure w' else None) (zip l l').

Lemma failed_or_in w : wf_failure w = None ∧ goes_in w = true ∨ (∃ e, wf_failure w = Some e) ∧ goes_in w = false.
Proof. unfold goes_in. destruct (wf_failure w) as [e|]; [right | left]; split; try done. by exists e. Qed.

Lemma failures_counted (w0 w1 w2 : list windowFile) :
  Forall2 still_out w0 w1 → Forall2 still_out w1 w2 →
  length (filter (λ w, goes_in w = true) w2) + length (omap wf_failure w0 ++ met w0 w1 ++ met w1 w2) = length w0.
Proof.
  rewrite !length_app. intros H01. revert w2. unfold met. induction H01 as [|a b w0 w1 Hab _ IH]; intros w2 H12; inversion H12 as [|? c ? w2' Hbc H12']; subst; [done |].
  specialize (IH w2' H12'). unfold still_out in Hab, Hbc. cbn [zip zip_with omap list_omap length].
  destruct (failed_or_in a) as [[Ea Ga]|[[ea Ea] Ga]]; rewrite Ea, Ga; rewrite ?Ga in Hab.
  - destruct (failed_or_in b) as [[Eb Gb]|[[eb Eb] Gb]]; rewrite Eb, Gb; rewrite ?Gb in Hbc.
    + destruct (failed_or_in c) as [[Ec Gc]|[[ec Ec] Gc]]; rewrite Ec;
        [rewrite filter_cons_True by done | rewrite filter_cons_False by congruence]; cbn [length]; unfold omap in *; lia.
    + rewrite (Hbc eq_refl), filter_cons_False by congruence. cbn [length]. unfold omap in *; lia.
  - rewrite (Hab eq_refl) in *. rewrite Ga. rewrite Ga in Hbc. rewrite (Hbc eq_refl), filter_cons_False by congruence. cbn [length]. unfold omap in *; lia.
Qed.

(** The files of a window, as they start out and after a step. *)
Lemma window_paths language files parsed :
  length files = length parsed → map wf_path (zip_with (window_file repo language) files parsed) = map fi_Path files.
Proof. revert parsed. induction files as [|f files IH]; intros [|p parsed] Hl; simplify_eq/=; f_equal; auto. Qed.

Lemma window_own language files parsed : Forall own (zip_with (window_file repo language) files parsed).
Proof.
  revert parsed. induction files as [|f files IH]; intros [|p parsed]; constructor; [|apply IH].
  apply Forall_forall. intros u Hu. apply list_elem_of_fmap in Hu as (v & -> & _). done.
Qed.

Lemma step_paths S x x' ws ws' : Forall2 (step_of S x x') ws ws' → map wf_path ws' = map wf_path ws.
Proof. intros HF. induction HF as [|w w' ws ws' [E _] _ IH]; [done |]. cbn [map]. by rewrite E, IH. Qed.

Lemma step_still_out S x x' ws ws' : Forall2 (step_of S x x') ws ws' → Forall2 still_out ws ws'.
Proof. intros HF. eapply Forall2_impl; [exact HF |]. intros w w' [_ Hs] Hg. rewrite Hg in Hs. by destruct Hs. Qed.

Lemma deleted_own x x' ws ws' : Forall2 (step_of deleted x x') ws ws' → Forall own ws → Forall own ws'.
Proof.
  intros HF Ho. induction HF as [|w w' ws ws' [E Hs] _ IH]; [constructor |]. apply Forall_cons in Ho as [Hw Ho]. constructor; [|by apply IH].
  destruct (goes_in w); [|by destruct Hs as [-> _]]. destruct Hs as [Hu _]. unfold own, own_unit. by rewrite Hu, E.
Qed.

(** The steps before the edges leave what a file parsed to. *)
Definition keeps_edges w w' : Prop := wf_path w' = wf_path w ∧ wf_edges w' = wf_edges w.
Lemma each_file_keeps f files x : (∀ w x, keeps_edges w (fst (f w x))) → Forall2 keeps_edges files (fst (each_file f files x)).
Proof.
  intros Hf. revert x. induction files as [|w files IH]; intros x; cbn [each_file]; [constructor |].
  pose proof (Hf w x) as H1. destruct (if goes_in w then f w x else (w, x)) as [w1 x1] eqn:E.
  specialize (IH x1). destruct (each_file f files x1) as [files' x']. constructor; [|done].
  destruct (goes_in w); [by rewrite E in H1 | by injection E as <- _].
Qed.
Lemma delete_stale_keeps files x : Forall2 keeps_edges files (fst (delete_stale repo files x)).
Proof.
  unfold delete_stale. destruct (deleteWindow _ _ _) as [[e|] x1]; [|by apply Forall2_self].
  apply each_file_keeps. intros w y. unfold delete_one. by destruct (deleteWindow _ _ _) as [[e'|] y1].
Qed.
Lemma store_units_keeps files x : Forall2 keeps_edges files (fst (store_units files x)).
Proof.
  unfold store_units. destruct (put_units _ _) as [[e|us'] x1].
  - apply each_file_keeps. intros w y. unfold store_one. by destruct (put_units _ _) as [[e'|us'] y1].
  - cbn [fst]. revert us'. induction files as [|w files IH]; intros us'; cbn [hand_out]; [constructor |]. by destruct (goes_in w); constructor.
Qed.

Lemma window_own_parsed language files parsed : Forall own_parsed (zip_with (window_file repo language) files parsed).
Proof.
  revert parsed. induction files as [|f files IH]; intros [|p parsed]; constructor; [|apply IH].
  apply Forall_forall. intros e He. apply list_elem_of_fmap in He as (v & -> & _). done.
Qed.
Lemma kept_own_parsed ws ws' : Forall2 keeps_edges ws ws' → Forall own_parsed ws → Forall own_parsed ws'.
Proof.
  intros HF Ho. induction HF as [|w w' ws ws' [Ep Ee] _ IH]; [constructor |]. apply Forall_cons in Ho as [Hw Ho]. constructor; [|by apply IH].
  unfold own_parsed. by rewrite Ee, Ep.
Qed.

(** One file through the steps: the old data are deleted from [x] to [x1], and the units and then the edges stored from there. *)
Definition file_after language (x x1 x' : X) (file : FileToIndex) (p : parseResult) w : Prop :=
  let path := fi_Path file in
  wf_path w = path ∧ (units_of x1 repo path = units_of x repo path ∨ units_of x1 repo path = []) ∧
  if goes_in w then
    pr_err p = None ∧ units_of x1 repo path = [] ∧ units_of x' repo path = wf_units w ∧
    Forall2 same_but_id (map (unit_of_file repo path language) (pr_units p)) (wf_units w) ∧
    (edges_of x' repo path = [] ∨
     Forall2 edge_but_id (resolveEdgeSources (map (edge_of_file repo path) (pr_edges p)) (wf_units w)) (edges_of x' repo path))
  else units_of x' repo path = units_of x1 repo path ∧ edges_of x' repo path = edges_of x1 repo path.

Lemma file_through language file p v0 v1 v2 v3 x x1 x2 x3 :
  v0 = window_file repo language file p → step_of deleted x x1 v0 v1 → keeps_edges v0 v1 → bare x1 v1 →
  step_of stored x1 x2 v1 v2 → keeps_edges v1 v2 → (∀ q, edges_of x2 repo q = edges_of x1 repo q) →
  v3 = (if goes_in v2 then with_sources v2 else v2) → (∀ q, units_of x3 repo q = units_of x2 repo q) → given x2 x3 v3 →
  file_after language x x1 x3 file p v3.
Proof.
  intros E0 [P1 S1] [_ K1] B1 [P2 S2] [_ K2] E2 E3 F3 G3. unfold file_after.
  assert (wf_path v0 = fi_Path file) as Q0 by by rewrite E0. rewrite Q0 in *. rewrite P1 in *.
  assert (wf_path v3 = fi_Path file ∧ goes_in v3 = goes_in v2 ∧ wf_units v3 = wf_units v2) as (Q3 & Gv & U3).
  { rewrite E3. by destruct (goes_in v2) eqn:G; split_and!; cbn; try congruence. }
  rewrite F3, U3, Gv. split; [done |]. destruct G3 as (es & G3 & Hes). rewrite Q3, E2, Gv in *. rewrite G3.
  assert (wf_failure v0 = (λ e, fi_Path file +:+ ": " +:+ e) <$> pr_err p) as Ev0 by by rewrite E0.
  assert (wf_units v0 = map (unit_of_file repo (fi_Path file) language) (pr_units p)) as Eu0 by by rewrite E0.
  destruct (failed_or_in v0) as [[Ef0 G0]|[_ G0]]; rewrite G0 in S1.
  - destruct S1 as [Hu1 S1]. unfold bare in B1. rewrite P1 in B1. destruct (goes_in v1) eqn:G1.
    + rewrite S1 in *. rewrite (B1 eq_refl), app_nil_l. split; [by right |]. unfold stored in S2. destruct (goes_in v2) eqn:G2.
      * destruct S2 as [HF S2]. rewrite Hu1, Eu0 in HF. rewrite S2, app_nil_l. split_and!; [|done..|].
        -- rewrite Ef0 in Ev0. by destruct (pr_err p).
        -- destruct Hes as [->|Hes]; [by left | right]. rewrite E3 in Hes. cbn [wf_edges with_sources] in Hes.
           rewrite K2, K1, E0 in Hes. exact Hes.
      * rewrite S2, Hes. done.
    + destruct S2 as [-> S2]. rewrite G1 in *. rewrite S2, Hes, app_nil_r. split; [|done]. destruct S1 as [S1|S1]; auto.
  - destruct S1 as [-> S1]. rewrite G0 in *. destruct S2 as [-> S2]. rewrite G0 in *. rewrite S2, Hes, app_nil_r. split; [by left | done].
Qed.

End Window.

(** ** A store in memory

    It takes at most so many units or edges, and deletes at most so many paths, in one call: what [Index] falls back to is tried. *)

Record memory_ast := { ma_units : list ASTUnit; ma_edges : list Edge; ma_next : nat; ma_room : nat }.
Definition ma_with (us : list ASTUnit) (es : list Edge) (next : nat) (x : memory_ast) : memory_ast :=
  {| ma_units := us; ma_edges := es; ma_next := next; ma_room := ma_room x |}.
Definition numbered {A} (put : string → A → A) (next : nat) (l : list A) : list A := imap (λ i a, put (Itoa (Z.of_nat (next + i))) a) l.
Definition in_paths (repo : string) (paths : list string) (u : ASTUnit) : Prop := u_RepoID u = repo ∧ u_FilePath u ∈ paths.
#[export] Instance in_paths_dec repo paths u : Decision (in_paths repo paths u).
Proof. apply _. Defined.
Definition ma_gone (repo : string) (paths : list string) (x : memory_ast) : list string := map u_ID (filter (in_paths repo paths) (ma_units x)).
#[export] Instance memory_ast_store : AstStore memory_ast := {
  del_units repo paths x :=
    if ma_room x <? length paths then (Some "too many paths", x)
    else (None, ma_with (filter (λ u, ¬ in_paths repo paths u) (ma_units x)) (omap (forget (ma_gone repo paths x)) (ma_edges x)) (ma_next x) x);
  del_edges repo paths x :=
    (None, ma_with (ma_units x) (filter (λ e, ¬ (e_RepoID e = repo ∧ e_FilePath e ∈ paths)) (ma_edges x)) (ma_next x) x);
  put_units us x :=
    if ma_room x <? length us then (inl "too many units", x)
    else (inr (numbered under_id (ma_next x) us), ma_with (ma_units x ++ numbered under_id (ma_next x) us) (ma_edges x) (ma_next x + length us) x);
  put_edges es x :=
    if ma_room x <? length es then (Some "too many edges", x)
    else (None, ma_with (ma_units x) (ma_edges x ++ numbered edge_under (ma_next x) es) (ma_next x + length es) x);
  del_repo_units repo x :=
    let gone := map u_ID (filter (λ u, u_RepoID u = repo) (ma_units x)) in
    (None, ma_with (filter (λ u, u_RepoID u ≠ repo) (ma_units x)) (omap (forget gone) (ma_edges x)) (ma_next x) x);
  del_repo_edges repo x := (None, ma_with (ma_units x) (filter (λ e, e_RepoID e ≠ repo) (ma_edges x)) (ma_next x) x) }.

Definition ma_units_of (x : memory_ast) (r p : string) : list ASTUnit := filter (λ u, u_RepoID u = r ∧ u_FilePath u = p) (ma_units x).
Definition ma_edges_of (x : memory_ast) (r p : string) : list Edge := filter (λ e, e_RepoID e = r ∧ e_FilePath e = p) (ma_edges x).

Lemma numbered_same {A} (put : string → A → A) n l : Forall2 (λ a b, ∃ id, b = put id a) l (numbered put n l).
Proof.
  apply Forall2_same_length_lookup. unfold numbered. rewrite length_imap. split; [done |].
  intros i a b Ha Hb. rewrite list_lookup_imap, Ha in Hb. injection Hb as <-. by eexists.
Qed.
Lemma forget_of_path gone r p (es : list Edge) :
  filter (λ e, e_RepoID e = r ∧ e_FilePath e = p) (omap (forget gone) es) = omap (forget gone) (filter (λ e, e_RepoID e = r ∧ e_FilePath e = p) es).
Proof.
  induction es as [|e es IH]; [done |]. cbn [omap list_omap].
  assert (∀ f, forget gone e = Some f → e_RepoID f = e_RepoID e ∧ e_FilePath f = e_FilePath e) as Hf.
  { intros f. unfold forget. destruct (bool_decide (e_SrcID e ∈ gone)); [done |]. intros [= <-]. by case_bool_decide. }
  rewrite (filter_cons _ e). destruct (forget gone e) as [f|] eqn:E.
  - destruct (Hf f eq_refl) as [E1 E2]. rewrite filter_cons, E1, E2. destruct (decide _); [|exact IH]. cbn [omap list_omap]. rewrite E. f_equal. exact IH.
  - destruct (decide _); [|exact IH]. cbn [omap list_omap]. by rewrite E.
Qed.
Lemma ma_emptied repo paths es next x r p :
  ma_units_of (ma_with (filter (λ u, ¬ in_paths repo paths u) (ma_units x)) es next x) r p =
  if decide (r = repo ∧ p ∈ paths) then [] else ma_units_of x r p.
Proof.
  unfold ma_units_of. cbn [ma_units ma_with]. rewrite list_filter_filter. destruct (decide (r = repo ∧ p ∈ paths)) as [[-> Hp]|Hn].
  - apply filter_nothing. intros u _ [[Hr Hq] Hu]. apply Hu. unfold in_paths. by rewrite Hq.
  - apply list_filter_iff. intros u. split; [by intros [? _] |]. intros [<- <-]. split; [done |]. intros [Hr Hq]. apply Hn. by split.
Qed.

#[export] Instance memory_ast_laws : AstStoreLaws memory_ast.
Proof.
  apply (Build_AstStoreLaws _ _ ma_units_of ma_edges_of).
  - intros repo paths x. cbn [del_units memory_ast_store]. destruct (_ <? _).
    + split; [intros r p; destruct (decide _); [by right | done] |]. exists []. split; [|intros r p; by rewrite forget_nothing].
      intros id. split; [by intros ?%elem_of_nil |]. intros (q & _ & E & Hin). rewrite E in Hin. by apply elem_of_nil in Hin.
    + split; [intros r p; rewrite ma_emptied; destruct (decide _); [by left | done] |].
      exists (ma_gone repo paths x). split; [|intros r p; apply forget_of_path]. intros id. unfold ma_gone. split.
      * intros (u & -> & [[Hr Hq] Hu]%list_elem_of_filter)%list_elem_of_fmap. exists (u_FilePath u). split_and!; [done | |].
        -- by rewrite ma_emptied, decide_True.
        -- apply list_elem_of_fmap. exists u. split; [done |]. by apply list_elem_of_filter.
      * intros (q & Hq & _ & (u & -> & [[Hr Hp] Hu]%list_elem_of_filter)%list_elem_of_fmap). apply list_elem_of_fmap. exists u. split; [done |].
        apply list_elem_of_filter. split; [|done]. unfold in_paths. by rewrite Hp.
  - intros repo paths x. cbn [del_edges memory_ast_store]. split; [done |]. intros r p. unfold ma_edges_of. cbn [ma_edges ma_with].
    rewrite list_filter_filter. destruct (decide (r = repo ∧ p ∈ paths)) as [[-> Hp]|Hn].
    + left. apply filter_nothing. intros e _ [[Hr Hq] He]. apply He. by rewrite Hq.
    + apply list_filter_iff. intros e. split; [by intros [? _] |]. intros [<- <-]. split; [done |]. intros [Hr Hq]. apply Hn. by split.
  - intros es x. cbn [put_edges memory_ast_store]. destruct (_ <? _); [done |]. split; [done |].
    exists (numbered edge_under (ma_next x) es). split; [apply numbered_same |]. intros r p. unfold ma_edges_of. cbn [ma_edges ma_with]. by rewrite filter_app.
  - intros us x. cbn [put_units memory_ast_store]. destruct (_ <? _); [done |]. split; [apply numbered_same |]. split; [|done].
    intros r p. unfold ma_units_of. cbn [ma_units ma_with]. by rewrite filter_app.
Defined.

(** ** A package *)

Definition sample_path (path : string) : FileToIndex := {| fi_Path := path; fi_Language := "go"; fi_Hash := ""; fi_Content := "" |}.
Definition sample_unit (name : string) : ASTUnit := unit_at {| sp_StartRow := 0; sp_EndRow := 1; sp_StartByte := 0; sp_EndByte := 9 |} "function" name name "" "".
Definition sample_result (us : list ASTUnit) : parseResult := parsed_plain (us, []).
Definition sample_window : list FileToIndex := [sample_path "a.go"; sample_path "b.go"; sample_path "c.go"].
Definition sample_parsed : list parseResult := [sample_result [sample_unit "f"]; sample_result [sample_unit "g"; sample_unit "h"]; failed_parse "no such file"].
Definition empty_result : IndexResult := {| ir_FilesIndexed := 0; ir_FilesSkipped := 0; ir_FilesFailed := 0; ir_Errors := []; ir_Coverage := None |}.
(** Old units of four files, and an edge from [d.go] to the old unit of each. *)
Definition old_unit (path : string) : ASTUnit := under_id ("old " +:+ path) (unit_of_file "r" path "go" (sample_unit "old")).
Definition old_edge (path : string) : Edge := {|
  e_ID := path; e_RepoID := "r"; e_SrcID := "old d.go"; e_DstID := "old " +:+ path; e_Kind := EdgeCall; e_DstName := "old"; e_FilePath := "d.go";
  e_Line := 1; e_DstRepoID := "r"; e_Confidence := ConfHigh; e_Meta := "" |}.
Definition stored_before : memory_ast := {|
  ma_units := map old_unit ["a.go"; "b.go"; "c.go"; "d.go"]; ma_edges := map old_edge ["a.go"; "b.go"; "c.go"]; ma_next := 7; ma_room := 1 |}.
Definition units_and_edges (x : memory_ast) : list (list (string * string)) * list (string * string) :=
  (map (λ p, map (λ u, (u_Name u, u_ID u)) (units_of x "r" p)) ["a.go"; "b.go"; "c.go"; "d.go"], map (λ e, (e_SrcID e, e_DstID e)) (edges_of x "r" "d.go")).


Definition pending_file : parseResult := {|
  pr_units := []; pr_edges := []; pr_wrappers := []; pr_coverage := Some (<[ContractKindDB := {| cc_Candidates := 2; cc_Edges := 1 |}]> newCoverage);
  pr_tables := [{| pt_Src := "#0"; pt_Ident := "ordersTable"; pt_Kind := EdgeReadsFrom; pt_Line := 3; pt_Args := [] |}];
  pr_consts := {["ordersTable" := "orders"]}; pr_err := None |}.

Lemma package_coverage_accounted_witness :
  let cov := foldl (λ acc p, addCoverage (pr_coverage p) acc) None (linkPackageTables [sample_path "a.go"] (linkPackageWrappers [sample_path "a.go"] [pending_file])) in
  accounted cov ∧ counts_of ContractKindDB cov = {| cc_Candidates := 2; cc_Edges := 2 |}.
Proof.
  split; [|vm_compute; reflexivity]. apply (package_coverage_accounted [sample_path "a.go"] [pending_file] None).
  - constructor; [|constructor]. split; [|vm_compute; discriminate]. apply accounted_map. intros k c Hc.
    unfold newCoverage in Hc. apply lookup_insert_Some in Hc as [[_ <-]|[_ Hc]]; [simpl; lia |].
    apply elem_of_list_to_map_2, list_elem_of_fmap in Hc as (k' & E & _). injection E as _ ->. simpl. lia.
  - intros k. rewrite counts_of_none. simpl. lia.
Defined.

(** The helper of a package, called from two lines, and a line that already has its request. *)
Example helper_calls :
  let w := {| wr_Name := "getJSON"; wr_Dir := "client"; wr_Method := "GET"; wr_Path := "/v1"; wr_Host := ""; wr_MethodParam := -1; wr_URLParam := 1 |} in
  let call line arg := edge_from "#0" EdgeCall "getJSON" line ConfHigh (Some (topic_meta "" ["ctx"; String "034" arg +:+ String "034" ""] ∅ ∅)) in
  let '(n, es) := linkWrapperCalls [call 3%Z "/orders"; call 4%Z "/users"; edge_from "#0" EdgeHTTPCall "http:GET /x" 4 ConfHigh None] (by_name [w]) in
  n = 1 ∧ map (λ e, (e_DstName e, e_Line e)) (drop 3 es) = [("http:GET /v1/orders", 3%Z)].
Proof. vm_compute. split; reflexivity. Qed.
