(* ===== verification/ExtractFacts.v ===== *)
(** * What an extractor leaves in a file

    Whatever tree it reads, the extractor of a language leaves a file whose every
    edge, request and pending table names a unit of that file, whose coverage never
    counts more edges than candidates and keeps the gap its pending tables may
    close, and whose facts stay within their bounds.  It follows that no edge of a
    file is dropped when its units have been stored. *)

From S2P Require Import Prelude GoStrings GoStrconv GoSort GoFloat GoRegexp GoJsonEncode Domain Store Contract Paths MetaCodec Indexing Extract Detect Wrappers Schemas ExtractPython ExtractJvm ExtractTypeScript ExtractCSharp ExtractGo WrapperFacts.
From Stdlib Require Import Strings.Ascii.

(** ** The invariant of a file under extraction *)

Definition unit_mark (n : nat) (s : string) : Prop := ∃ i, s = srcMark i ∧ i < n.
Record sound (fc : fileCtx) : Prop := {
  so_edges : Forall (λ e, unit_mark (length (fc_units fc)) (e_SrcID e)) (fc_edges fc);
  so_https : Forall (λ h, (0 ≤ hs_unit h < Z.of_nat (length (fc_units fc)))%Z) (fc_https fc);
  so_tables : Forall (λ t, unit_mark (length (fc_units fc)) (pt_Src t)) (fc_tables fc);
  so_pending : length (fc_tables fc) ≤ maxPendingTables;
  so_consts : size (fc_consts fc) ≤ maxPackageConsts;
  so_names : map_Forall (λ _ v, isTableNameLike v = true) (fc_consts fc);
  so_cov : accounted (fc_cov fc);
  so_gap : (Z.of_nat (length (fc_tables fc)) ≤ cc_Candidates (counts_of ContractKindDB (fc_cov fc)) - cc_Edges (counts_of ContractKindDB (fc_cov fc)))%Z
}.

(** A step never loses a unit, and keeps the invariant. *)
Definition keeps (fc fc' : fileCtx) : Prop := length (fc_units fc) ≤ length (fc_units fc') ∧ (sound fc → sound fc').
#[export] Instance keeps_preorder : PreOrder keeps.
Proof. split; [by intros fc; split | intros a b c [L1 S1] [L2 S2]; split; [lia | auto]]. Qed.

Definition within (s : Z) (fc : fileCtx) : Prop := (s < Z.of_nat (length (fc_units fc)))%Z.
Lemma within_keeps s fc fc' : keeps fc fc' → within s fc → within s fc'.
Proof. unfold within. intros [L _] H. lia. Qed.

Lemma unit_mark_mono n m s : n ≤ m → unit_mark n s → unit_mark m s.
Proof. intros L (i & E & H). exists i. split; [done | lia]. Qed.

(** ** The writes *)

Lemma addEdge_keeps s kind dst line conf meta fc : within s fc → keeps fc (addEdge s kind dst line conf meta fc).
Proof.
  unfold within, addEdge. intros Hs. destruct (s <? 0)%Z eqn:Ez; [done |]. apply Z.ltb_ge in Ez.
  assert (Forall (λ e, unit_mark (length (fc_units fc)) (e_SrcID e)) [edge_from (srcMark (Z.to_nat s)) kind dst line conf (based kind conf meta)]) as He.
  { constructor; [|constructor]. exists (Z.to_nat s). split; [done | lia]. }
  split; [by destruct meta as [m|]; [destruct (String.eqb kind EdgeHTTPCall)|] |]. intros [].
  destruct meta as [m|]; [destruct (String.eqb kind EdgeHTTPCall)|]; split; cbn [fc_units fc_edges fc_https fc_tables fc_consts fc_cov with_edges with_https];
    try done; apply Forall_app; split; try done.
  constructor; [cbn; lia | constructor].
Qed.
Lemma httpCandidate_keeps s u m fc : within s fc → keeps fc (httpCandidate s u m fc).
Proof.
  unfold within, httpCandidate. intros Hs. destruct (s <? 0)%Z eqn:Ez; [done |]. apply Z.ltb_ge in Ez. split; [done |]. intros [].
  split; try done. cbn [fc_units fc_https with_https]. apply Forall_app. split; [done |]. constructor; [cbn; lia | constructor].
Qed.
Lemma push_unit_keeps u fc : keeps fc (snd (push_unit u fc)).
Proof.
  split; cbn; rewrite ?length_app; [lia |]. intros []. split; cbn [fc_units fc_edges fc_https fc_tables fc_consts fc_cov with_units]; rewrite ?length_app; try done.
  - eapply Forall_impl; [done |]. intros e. apply unit_mark_mono. lia.
  - eapply Forall_impl; [done |]. cbn. intros h. lia.
  - eapply Forall_impl; [done |]. intros e. apply unit_mark_mono. lia.
Qed.
Lemma contractSite_gap k emitted fc :
  let gap fc := (cc_Candidates (counts_of ContractKindDB (fc_cov fc)) - cc_Edges (counts_of ContractKindDB (fc_cov fc)))%Z in
  gap (contractSite k emitted fc) = (gap fc + if bool_decide (k = ContractKindDB) && negb emitted then 1 else 0)%Z.
Proof.
  cbn zeta. unfold contractSite. cbn [fc_cov with_cov]. rewrite counts_of_set. case_bool_decide; [subst k; rewrite decide_True by done | rewrite decide_False by done; cbn [andb]; lia].
  destruct emitted; cbn; lia.
Qed.
Lemma contractSite_keeps k emitted fc : keeps fc (contractSite k emitted fc).
Proof.
  split; [done |]. intros []. split; try done; [by apply contractSite_accounted |]. rewrite contractSite_gap.
  change (fc_tables (contractSite k emitted fc)) with (fc_tables fc). case_match; lia.
Qed.
(** A table left pending is a site counted without its edge. *)
Lemma pending_keeps s ident kind line args fc :
  within s fc → keeps fc (tableCandidate s ident kind line args (contractSite ContractKindDB false fc)).
Proof.
  intros Hs. unfold tableCandidate. change (fc_tables (contractSite ContractKindDB false fc)) with (fc_tables fc).
  destruct (_ || _) eqn:E; [apply contractSite_keeps |]. apply orb_false_iff in E as [E1 E2]. apply Z.ltb_ge in E1. apply Nat.leb_gt in E2.
  unfold within in Hs. split; [done |]. intros H. pose proof (contractSite_gap ContractKindDB false fc) as Hg. cbn zeta in Hg.
  rewrite bool_decide_true in Hg by done. cbn [andb negb] in Hg.
  destruct (proj2 (contractSite_keeps ContractKindDB false fc) H). destruct H as [].
  split; cbn [fc_units fc_edges fc_https fc_tables fc_consts fc_cov with_tables]; try done; rewrite ?length_app; cbn [length].
  - apply Forall_app. split; [done |]. constructor; [|constructor]. exists (Z.to_nat s). split; [done |]. cbn. lia.
  - lia.
  - lia.
Qed.
Lemma publishConst_keeps name v fc : keeps fc (publishConst name v fc).
Proof.
  unfold publishConst. destruct (_ || _) eqn:E; [done |]. apply orb_false_iff in E as [E1 E2]. apply negb_false_iff in E1. apply Nat.leb_gt in E2.
  split; [done |]. intros []. split; try done; cbn [fc_consts with_consts].
  - destruct (fc_consts fc !! name) as [o|] eqn:Eo; [rewrite map_size_insert_Some by eauto; lia | rewrite map_size_insert_None by done; lia].
  - by apply map_Forall_insert_2.
Qed.
Create HintDb keeps.
#[local] Hint Resolve addEdge_keeps httpCandidate_keeps push_unit_keeps contractSite_keeps publishConst_keeps pending_keeps : keeps.
#[local] Hint Extern 0 (keeps ?x ?x) => reflexivity : keeps.

Lemma enclosing_lt pos kinds us : ∀ i best, (fst best < Z.of_nat (i + length us))%Z → (fst best < Z.of_nat i)%Z →
  (enclosing pos kinds i best us < Z.of_nat (i + length us))%Z.
Proof.
  induction us as [|u us IH]; intros i best H1 H2; cbn [enclosing length] in *; [done |].
  replace (i + S (length us)) with (S i + length us) by lia. apply IH; case_match; cbn [fst]; lia.
Qed.
Lemma enclosingUnit_within pos kinds fc : within (enclosingUnit pos kinds fc) fc.
Proof. apply (enclosing_lt pos kinds (fc_units fc) 0); cbn; lia. Qed.

Lemma foldl_keeps {A} (f : fileCtx → A → fileCtx) xs fc :
  (∀ fc' x, keeps fc fc' → keeps fc' (f fc' x)) → keeps fc (foldl f fc xs).
Proof.
  intros H. assert (∀ fc', keeps fc fc' → keeps fc (foldl f fc' xs)) as G; [|by apply G].
  induction xs as [|x xs IH]; intros fc' Hk; [done |]. apply IH. trans fc'; [done | by apply H].
Qed.

(** ** The engine and the shared recognizers *)

(** Each branch of a rule is a write under the mark of the site, or none. *)
Ltac by_branches :=
  repeat first
    [ progress cbn [fst snd]
    | solve [auto with keeps]
    | case_match ].

Section Engine.
  Context (visit : gmap string string → list (string * string)) (cs : callSite) (res : resolver) (lst : listResolver).

Lemma apply_produce_keeps r fc : within (cs_Src cs) fc → keeps fc (snd (apply_produce visit r cs res fc)).
Proof. intros Hs. unfold apply_produce. by_branches. Qed.
Lemma apply_http_keeps r fc : within (cs_Src cs) fc → keeps fc (snd (apply_http visit r cs res fc)).
Proof. intros Hs. unfold apply_http. by_branches. Qed.
Lemma emit_consume_keeps r topic fc : within (cs_Src cs) fc → keeps fc (emit_consume r cs fc topic).
Proof. intros Hs. unfold emit_consume. by_branches. Qed.
Lemma apply_consume_keeps r fc : within (cs_Src cs) fc → keeps fc (snd (apply_consume visit r cs res lst fc)).
Proof.
  intros Hs. pose proof emit_consume_keeps. unfold apply_consume. by_branches.
  apply foldl_keeps. intros fc' topic Hk. apply emit_consume_keeps. by eapply within_keeps.
Qed.
Lemma brokerFallback_keeps fc : within (cs_Src cs) fc → keeps fc (snd (brokerFallback visit cs res fc)).
Proof. intros Hs. unfold brokerFallback. by_branches. Qed.
Lemma record_site_keeps kind claimed emitted counted fc : keeps fc (snd (record_site kind claimed emitted counted fc)).
Proof. unfold record_site. by_branches. Qed.

(** A rule, the count of its site, and the rules after it. *)
Lemma rule_then kind claimed emitted counted fc fc1 fc' :
  keeps fc fc1 → (keeps fc (snd (record_site kind claimed emitted counted fc1)) → keeps (snd (record_site kind claimed emitted counted fc1)) fc') → keeps fc fc'.
Proof.
  intros H1 H2. assert (keeps fc (snd (record_site kind claimed emitted counted fc1))) as H3 by (trans fc1; [done | apply record_site_keeps]).
  trans (snd (record_site kind claimed emitted counted fc1)); [done | by apply H2].
Qed.
Lemma run_produce_keeps rs : ∀ st, within (cs_Src cs) (snd st) → keeps (snd st) (snd (snd (run_produce visit rs cs res st))).
Proof.
  induction rs as [|r rs IH]; intros st Hs; cbn [run_produce]; [done |]. pose proof (apply_produce_keeps r _ Hs) as H.
  destruct (apply_produce visit r cs res (snd st)) as [[claimed emitted] fc1]. cbn [snd] in H. apply (rule_then ContractKindMessaging claimed emitted (fst st) _ fc1); [exact H |]. intros Hk.
  case_match; [reflexivity |]. apply IH. by eapply within_keeps.
Qed.
Lemma run_consume_keeps rs : ∀ st, within (cs_Src cs) (snd st) → keeps (snd st) (snd (snd (run_consume visit rs cs res lst st))).
Proof.
  induction rs as [|r rs IH]; intros st Hs; cbn [run_consume]; [done |]. pose proof (apply_consume_keeps r _ Hs) as H.
  destruct (apply_consume visit r cs res lst (snd st)) as [[[claimed emitted] handled] fc1]. cbn [snd] in H. apply (rule_then ContractKindMessaging claimed emitted (fst st) _ fc1); [exact H |]. intros Hk.
  case_match; [reflexivity |]. apply IH. by eapply within_keeps.
Qed.
Lemma run_http_keeps rs : ∀ st, within (cs_Src cs) (snd st) → keeps (snd st) (snd (snd (run_http visit rs cs res st))).
Proof.
  induction rs as [|r rs IH]; intros st Hs; cbn [run_http]; [done |]. pose proof (apply_http_keeps r _ Hs) as H.
  destruct (apply_http visit r cs res (snd st)) as [[claimed emitted] fc1]. cbn [snd] in H. apply (rule_then ContractKindHTTP claimed emitted (fst st) _ fc1); [exact H |]. intros Hk.
  case_match; [reflexivity |]. apply IH. by eapply within_keeps.
Qed.
Lemma run_broker_keeps ds st : within (cs_Src cs) (snd st) → keeps (snd st) (snd (snd (run_broker visit ds cs res st))).
Proof.
  intros Hs. unfold run_broker. destruct (_ && _); [|done]. pose proof (brokerFallback_keeps _ Hs) as H.
  destruct (brokerFallback visit cs res (snd st)) as [[claimed emitted] fc1]. cbn [snd] in H. destruct claimed; [|done]. cbn [snd].
  trans fc1; [done | apply record_site_keeps].
Qed.
End Engine.

Lemma runDetectors_keeps visit ds cs res lst fc : within (cs_Src cs) fc → keeps fc (snd (runDetectors visit ds cs res lst fc)).
Proof.
  intros Hs. unfold runDetectors. set (l := default _ lst).
  pose proof (run_produce_keeps visit cs res (ds_Produce ds) ([], fc) Hs) as H1. destruct (run_produce _ _ _ _ _) as [[|] st1]; cbn [snd] in H1 |- *; [done |].
  assert (within (cs_Src cs) (snd st1)) as Hs1 by by eapply within_keeps.
  pose proof (run_consume_keeps visit cs res l (ds_Consume ds) st1 Hs1) as H2. destruct (run_consume _ _ _ _ _ _) as [[|] st2]; cbn [snd] in H2 |- *; [by trans (snd st1) |].
  assert (within (cs_Src cs) (snd st2)) as Hs2 by by eapply within_keeps.
  pose proof (run_broker_keeps visit cs res ds st2 Hs2) as H3. destruct (run_broker _ _ _ _ _) as [[|] st3]; cbn [snd] in H3 |- *; [by trans (snd st1); [|trans (snd st2)] |].
  assert (within (cs_Src cs) (snd st3)) as Hs3 by by eapply within_keeps.
  pose proof (run_http_keeps visit cs res (ds_HTTP ds) st3 Hs3) as H4. destruct (run_http _ _ _ _ _) as [stop st4]; cbn [snd] in H4 |- *.
  trans (snd st1); [done |]. trans (snd st2); [done |]. by trans (snd st3).
Qed.

(** A unit and its handler. *)
Lemma unit_edge_keeps u kind dst line conf fc :
  keeps fc (addEdge (Z.of_nat (length (fc_units fc))) kind dst line conf None (snd (push_unit u fc))).
Proof. trans (snd (push_unit u fc)); [auto with keeps |]. apply addEdge_keeps. unfold within. cbn. rewrite length_app. cbn. lia. Qed.
Lemma addRoute_keeps n method path handler line conf by_ fc : keeps fc (snd (addRoute n method path handler line conf by_ fc)).
Proof. unfold addRoute. cbn [push_unit]. case_match; cbn [snd]; [apply push_unit_keeps | apply unit_edge_keeps]. Qed.
Lemma applyGenericRoute_keeps n callee args res lst prefix fc : keeps fc (snd (applyGenericRoute n callee args res lst prefix fc)).
Proof.
  unfold applyGenericRoute. destruct (genericRoute _ _ _ _) as [[[methods path] handler]|]; [|done]. cbn [snd]. apply foldl_keeps. intros fc' m _.
  unfold add_generic. case_match; [done | apply addRoute_keeps].
Qed.
Lemma sql_literal_keeps s line args lit fc : within s fc → keeps fc (snd (sql_literal s line args lit fc)).
Proof.
  intros Hs. unfold sql_literal. by_branches. apply foldl_keeps. intros fc' m Hk. apply addEdge_keeps. by eapply within_keeps.
Qed.
Lemma sqlEdgesFromArgs_keeps s line args fc : within s fc → keeps fc (snd (sqlEdgesFromArgs s line args fc)).
Proof.
  intros Hs. unfold sqlEdgesFromArgs. destruct (s <? 0)%Z; [done |].
  assert (∀ st, keeps fc (snd st) → keeps fc (snd (foldl (sql_arg s line args) st args))) as H.
  { generalize args at 2. intros l. induction l as [|a l IH]; intros st Hk; [done |]. apply IH. destruct st as [[candidate emitted] fc1]. unfold sql_arg. cbn [snd] in Hk.
    pose proof (sql_literal_keeps s line args) as Hl. case_match; [|done]. case_match; [done |].
    specialize (Hl s0 fc1 (within_keeps _ _ _ Hk Hs)). destruct (sql_literal _ _ _ _ _) as [e fc2]. cbn [snd] in *. by trans fc1. }
  specialize (H (false, false, fc)). cbn [snd] in H. specialize (H (reflexivity fc)).
  destruct (foldl _ _ _) as [[candidate emitted] fc1]. cbn [snd] in *. case_match; [|done]. trans fc1; [done | apply contractSite_keeps].
Qed.
#[local] Hint Resolve runDetectors_keeps addRoute_keeps applyGenericRoute_keeps sqlEdgesFromArgs_keeps unit_edge_keeps : keeps.

(** ** The Go extractor *)

Lemma declare_keeps n kind name qualified sig fc : keeps fc (snd (declare n kind name qualified sig fc)).
Proof. apply push_unit_keeps. Qed.
#[local] Hint Resolve declare_keeps : keeps.

Lemma collect_type_keeps n name st : keeps (snd st) (snd (collect_type n name st)).
Proof.
  destruct st as [g fc]. unfold collect_type. pose proof (declare_keeps n "type" name (qualify g name) "" fc) as H.
  destruct (declare _ _ _ _ _ _) as [i fc1]. cbn [snd] in *. case_match; [|done]. trans fc1; [done | apply declare_keeps].
Qed.
Lemma collect_node_keeps chain n st : keeps (snd st) (snd (collect_node chain n st)).
Proof.
  pose proof (λ name, collect_type_keeps n name st) as Ht. destruct st as [g fc]. unfold collect_node. cbn zeta. set (name := field_text fc n "name").
  destruct (is_type "package_clause" n); [reflexivity |].
  destruct (is_type "function_declaration" n); [cbn [snd]; case_match; auto with keeps |].
  destruct (is_type "method_declaration" n).
  { destruct (String.eqb name ""); [reflexivity |]. set (q := if String.eqb (receiverType fc n) "" then _ else _).
    pose proof (declare_keeps n "method" name q (field_text fc n "parameters") fc) as H. by destruct (declare _ _ _ _ _ _). }
  destruct (is_type "type_spec" n); [case_match; [reflexivity | apply Ht] |].
  destruct (_ || _); [reflexivity |].
  destruct (_ || _); [unfold recordStringBinding; by_branches |].
  destruct (_ || _); [reflexivity |]. by destruct (is_type "call_expression" n).
Qed.
(** A traversal keeps what each of its visits keeps. *)
Lemma collect_keeps : ∀ n above st, keeps (snd st) (snd (collect above n st)).
Proof.
  fix IH 1. intros [t p cs] above st. cbn [collect]. set (chain := self _ :: above).
  trans (snd (collect_node chain (SyntaxNode t p cs) st)); [apply collect_node_keeps |]. generalize (collect_node chain (SyntaxNode t p cs) st).
  clearbody chain. induction cs as [|[[f b] c] cs IHc]; intros st'; [reflexivity |]. trans (snd (collect chain c st')); [apply IH | apply IHc].
Qed.

Section Calls.
  Context (visit : gmap string string → list (string * string)).

Lemma edge_site_keeps s kind dst line conf meta k emitted fc :
  within s fc → keeps fc (addEdge s kind dst line conf meta (contractSite k emitted fc)).
Proof. intros Hs. trans (contractSite k emitted fc); [apply contractSite_keeps | by apply addEdge_keeps]. Qed.
Lemma site_edge_keeps s kind dst line conf meta k emitted fc :
  within s fc → keeps fc (contractSite k emitted (addEdge s kind dst line conf meta fc)).
Proof. intros Hs. trans (addEdge s kind dst line conf meta fc); [by apply addEdge_keeps | apply contractSite_keeps]. Qed.
Lemma candidate_site_keeps s u m k emitted fc : within s fc → keeps fc (httpCandidate s u m (contractSite k emitted fc)).
Proof. intros Hs. trans (contractSite k emitted fc); [apply contractSite_keeps | by apply httpCandidate_keeps]. Qed.
Hint Resolve edge_site_keeps site_edge_keeps candidate_site_keeps : keeps.

Context (g : goExtractor) (c : goCall).

Lemma call_route_keeps fc fc' : call_route g c fc = Some fc' → keeps fc fc'.
Proof.
  unfold call_route. destruct (matchRoute _ _ _) as [[[method route] handler]|]; [|done]. cbn [mbind option_bind addUnit push_unit].
  intros [= <-]. case_match; [apply push_unit_keeps | apply unit_edge_keeps].
Qed.
Lemma call_generic_keeps fc fc' : call_generic g c fc = Some fc' → keeps fc fc'.
Proof.
  unfold call_generic. pose proof (applyGenericRoute_keeps (Place (gc_node c)) (gc_fnText c) (gc_args c) (consts_of g)
    (Some (goStringsIn (go_consts g))) (prefixAt g (gc_operand c) (gc_pos c)) fc) as H.
  destruct (applyGenericRoute _ _ _ _ _ _ _) as [ok fc1]. destruct ok; [|done]. by intros [= <-].
Qed.
Lemma call_rpc_keeps fc fc' : within (gc_src c) fc → call_rpc g c fc = Some fc' → keeps fc fc'.
Proof. intros Hs. unfold call_rpc, rpc_edge. case_match; [|done]. intros [= <-]. auto with keeps. Qed.
Lemma call_stub_keeps fc fc' : within (gc_src c) fc → call_stub g c fc = Some fc' → keeps fc fc'.
Proof. intros Hs. unfold call_stub, rpc_edge. case_match; [done |]. case_match; [done |]. intros [= <-]. auto with keeps. Qed.
Lemma call_produce_keeps fc fc' : within (gc_src c) fc → call_produce g c fc = Some fc' → keeps fc fc'.
Proof.
  intros Hs. unfold call_produce. case_match; [done |]. destruct (bound_topic _ _ _ _) as [topic conf]. case_match; [done |].
  destruct (topicEdgeKey topic) as [key name]. intros [= <-]. auto with keeps.
Qed.
Lemma call_consume_keeps fc fc' : within (gc_src c) fc → call_consume g c fc = Some fc' → keeps fc fc'.
Proof.
  intros Hs. unfold call_consume. case_match; [done |]. destruct (bound_topic _ _ _ _) as [topic conf]. case_match; [done |].
  destruct (topicEdgeKey topic) as [key name]. intros [= <-]. auto with keeps.
Qed.
Lemma call_detected_keeps fc : within (gc_src c) fc → keeps fc (snd (call_detected visit g c fc)).
Proof.
  intros Hs. unfold call_detected. pose proof (runDetectors_keeps visit goDetectors (go_site g c fc) (consts_of g) (Some (goStringsIn (go_consts g))) fc Hs) as H.
  destruct (runDetectors _ _ _ _ _ _) as [done_ fc1]. cbn [snd] in *. case_match; [|done]. trans fc1; [done | apply contractSite_keeps].
Qed.
Lemma call_request_keeps fc : within (gc_src c) fc → keeps fc (snd (call_request g c fc)).
Proof. intros Hs. unfold call_request. by_branches. Qed.
Lemma memdbAccess_keeps fc : within (gc_src c) fc → keeps fc (snd (memdbAccess g c fc)).
Proof. intros Hs. unfold memdbAccess. by_branches. Qed.
Lemma gormAccess_keeps fc : within (gc_src c) fc → keeps fc (gormAccess g c fc).
Proof. intros Hs. unfold gormAccess. by_branches. Qed.
Lemma call_plain_keeps fc : within (gc_src c) fc → keeps fc (call_plain g c fc).
Proof.
  intros Hs. unfold call_plain. pose proof (memdbAccess_keeps fc Hs) as H1. destruct (memdbAccess g c fc) as [claimed fc1]. cbn [snd] in H1.
  assert (keeps fc (if claimed then fc1 else gormAccess g c fc1)) as H2.
  { destruct claimed; [done |]. trans fc1; [done | apply gormAccess_keeps; by eapply within_keeps]. }
  revert H2. generalize (if claimed then fc1 else gormAccess g c fc1). intros fc2 H2.
  assert (keeps fc (snd (sqlEdgesFromArgs (gc_src c) (gc_line c) (gc_args c) fc2))) as H3.
  { trans fc2; [done | apply sqlEdgesFromArgs_keeps; by eapply within_keeps]. }
  case_match; [|done]. trans (snd (sqlEdgesFromArgs (gc_src c) (gc_line c) (gc_args c) fc2)); [done | apply addEdge_keeps; by eapply within_keeps].
Qed.

Lemma first_of_keeps steps fc fc' :
  Forall (λ f, ∀ fc', f fc = Some fc' → keeps fc fc') steps → first_of steps fc = Some fc' → keeps fc fc'.
Proof.
  unfold first_of. induction 1 as [|f steps Hf _ IH]; cbn; [done |]. destruct (f fc) as [fc1|] eqn:E; cbn; [|exact IH]. intros [= <-]. by apply Hf.
Qed.
Lemma call_rest_keeps fc : within (gc_src c) fc → keeps fc (call_rest visit g c fc).
Proof.
  intros Hs. unfold call_rest. destruct (first_of _ fc) as [fc1|] eqn:E.
  { eapply first_of_keeps; [|exact E]. constructor; [|constructor; [|constructor]]; intros fc' H; [by eapply call_produce_keeps | by eapply call_consume_keeps]. }
  pose proof (call_detected_keeps fc Hs) as H1. destruct (call_detected visit g c fc) as [[|] fc1]; cbn [snd] in H1; [done |].
  assert (within (gc_src c) fc1) as Hs1 by by eapply within_keeps. trans fc1; [done |].
  destruct (call_stub g c fc1) as [fc2|] eqn:E2; [by apply call_stub_keeps |].
  pose proof (call_request_keeps fc1 Hs1) as H3. destruct (call_request g c fc1) as [[|] fc3]; cbn [snd] in H3; [done |].
  trans fc3; [done |]. apply call_plain_keeps. by eapply within_keeps.
Qed.
End Calls.

Section Walk.
  Context (visit : gmap string string → list (string * string)).

Lemma handleCall_keeps call st : keeps (snd st) (snd (handleCall visit call st)).
Proof.
  destruct st as [g fc]. unfold handleCall. destruct (ChildByFieldName call "function") as [fn|]; [|reflexivity].
  set (c := call_of fc call fn). assert (within (gc_src c) fc) as Hs by apply enclosingUnit_within.
  destruct (first_of _ fc) as [fc1|] eqn:E; cbn [snd].
  { eapply first_of_keeps; [|exact E]. constructor; [|constructor; [|constructor; [|constructor]]]; intros fc' H;
      [by eapply call_route_keeps | by eapply call_generic_keeps | by eapply call_rpc_keeps]. }
  case_match; [reflexivity |]. cbn [snd]. by apply call_rest_keeps.
Qed.
Lemma handleRouteLiteral_keeps n st : keeps (snd st) (snd (handleRouteLiteral n st)).
Proof.
  destruct st as [g fc]. unfold handleRouteLiteral. case_match; [|reflexivity].
  destruct (filter _ _) as [|el els]; cbn [snd]; [apply applyGenericRoute_keeps |].
  apply foldl_keeps. intros. apply applyGenericRoute_keeps.
Qed.
Lemma walkCalls_keeps : ∀ n st, keeps (snd st) (snd (walkCalls visit n st)).
Proof.
  fix IH 1. intros [t p cs] st. cbn [walkCalls]. trans (snd (walk_node visit (SyntaxNode t p cs) st)).
  { unfold walk_node. case_match; [apply handleCall_keeps | case_match; [apply handleRouteLiteral_keeps | reflexivity]]. }
  generalize (walk_node visit (SyntaxNode t p cs) st).
  induction cs as [|[[f b] c] cs IHc]; intros st'; [reflexivity |]. trans (snd (walkCalls visit c st')); [apply IH | apply IHc].
Qed.
Lemma mark_unit_keeps g fc i u : within (Z.of_nat i) fc → keeps fc (mark_unit g fc (i, u)).
Proof.
  intros Hi. assert (∀ conf fc' svc, keeps fc fc' → keeps fc' (implements i u conf fc' svc)) as H.
  { intros conf fc' svc Hk. apply addEdge_keeps. by eapply within_keeps. }
  unfold mark_unit. case_match; [reflexivity |]. case_match; [|by apply H].
  case_match; [case_match; [by apply H | reflexivity] |]. apply foldl_keeps. intros. by apply H.
Qed.
Lemma markRPCImplementations_keeps g fc : keeps fc (markRPCImplementations g fc).
Proof.
  unfold markRPCImplementations. assert (Forall (λ iu, within (Z.of_nat iu.1) fc) (imap pair (fc_units fc))) as H.
  { apply Forall_forall. intros [i u] (j & u' & [= -> ->] & Hj)%elem_of_lookup_imap_1. apply lookup_lt_Some in Hj. unfold within. cbn. lia. }
  revert H. generalize (imap pair (fc_units fc)). intros l Hl. assert (∀ fc', keeps fc fc' → keeps fc (foldl (mark_unit g) fc' l)) as G; [|by apply G].
  induction Hl as [|[i u] l Hi _ IH]; intros fc' Hk; [done |]. apply IH. trans fc'; [done |]. apply mark_unit_keeps. by eapply within_keeps.
Qed.

Lemma extract_keeps root fc : keeps fc (extract visit root fc).
Proof.
  unfold extract. pose proof (collect_keeps root [] (newGoExtractor, fc)) as H1. destruct (collect [] root _) as [g1 fc1]. cbn [snd] in H1.
  pose proof (walkCalls_keeps root (g1, fc1)) as H2. destruct (walkCalls visit root (g1, fc1)) as [g2 fc2]. cbn [snd] in H2.
  trans fc1; [done |]. trans fc2; [done |]. apply markRPCImplementations_keeps.
Qed.
End Walk.

(** ** The Python extractor *)

Lemma Node_nested_ind (P : Node → Prop) :
  (∀ t p cs, Forall (λ c, P c.2) cs → P (SyntaxNode t p cs)) → ∀ n, P n.
Proof.
  intros H. fix IH 1. intros [t p cs]. apply H. induction cs as [|[[f b] c] cs IHc]; constructor; [apply IH | exact IHc].
Qed.

(** Traversals keep what they do at each child. *)
Section Children.
  Context {S : Type} (R : S → S → Prop) `{!PreOrder R} (f : Node → S → S).
Lemma each_named_rel cs s : Forall (λ c, ∀ s, R s (f c.2 s)) cs → R s (each_named f cs s).
Proof.
  intros H. revert s. induction H as [|[[fd named] c] cs Hc _ IH]; intros s; cbn; [reflexivity |]. destruct named; [|apply IH].
  trans (f c s); [apply Hc | apply IH].
Qed.
Lemma on_field_rel field none cs s : Forall (λ c, ∀ s, R s (f c.2 s)) cs → (∀ s, R s (none s)) → R s (on_field field f none cs s).
Proof.
  intros H Hn. induction H as [|[[fd named] c] cs Hc _ IH]; cbn; [apply Hn |]. case_match; [apply Hc | exact IH].
Qed.
Lemma on_last_rel types cs k s : Forall (λ c, ∀ s, R s (f c.2 s)) cs → (∀ s, R s (k s)) → R s (on_last types f cs k s).
Proof.
  intros H. revert k. induction H as [|[[fd named] c] cs Hc _ IH]; intros k Hk; cbn; [apply Hk |]. apply IH. intros s'. case_match; [apply Hc | apply Hk].
Qed.
Lemma on_type_rel typ cs s : Forall (λ c, ∀ s, R s (f c.2 s)) cs → R s (on_type typ f cs s).
Proof. intros H. induction H as [|[[fd named] c] cs Hc _ IH]; cbn; [reflexivity |]. case_match; [apply Hc | exact IH]. Qed.
Lemma each_after_rel (g : list Node → Node → S → S) cs before s :
  Forall (λ c, ∀ before s, R s (g before c.2 s)) cs → R s (each_after g before cs s).
Proof.
  intros H. revert before s. induction H as [|[[fd named] c] cs Hc _ IH]; intros before s; cbn; [reflexivity |]. destruct named; [|apply IH].
  trans (g before c s); [apply Hc | apply IH].
Qed.
Lemma each_sibling_rel (g : list Node → Node → S → S) cs before s :
  Forall (λ c, ∀ before s, R s (g before c.2 s)) cs → R s (each_sibling g before cs s).
Proof.
  intros H. revert before s. induction H as [|[[fd named] c] cs Hc _ IH]; intros before s; cbn; [reflexivity |]. destruct named; [|apply IH].
  trans (g before c s); [apply Hc | apply IH].
Qed.
End Children.

Definition keeps_st {A} (st st' : A * fileCtx) : Prop := keeps (snd st) (snd st').
#[export] Instance keeps_st_preorder {A} : PreOrder (@keeps_st A).
Proof. split; [intros [a fc]; unfold keeps_st; reflexivity | intros [a x] [b y] [c z]; unfold keeps_st; cbn; apply transitivity]. Qed.

Lemma addDefinition_keeps def scope st : keeps (snd st) (snd (addDefinition def scope st)).
Proof.
  destruct st as [p fc]. unfold addDefinition, py_declare, addUnit. cbn [push_unit snd].
  case_match; [reflexivity |]. case_match; cbn [snd]; [case_match; [apply unit_edge_keeps | apply push_unit_keeps] |].
  case_match; [apply push_unit_keeps | reflexivity].
Qed.
Lemma addDefinition_within def scope st idx : fst (addDefinition def scope st) = Some idx → within (Z.of_nat idx) (snd (addDefinition def scope st)).
Proof.
  destruct st as [p fc]. unfold addDefinition, py_declare, addUnit. destruct (String.eqb _ ""); [done |].
  assert (∀ u, within (Z.of_nat (length (fc_units fc))) (with_units (fc_units fc ++ [u]) fc)) as Hu by (intros u; unfold within; cbn; rewrite length_app; cbn; lia).
  destruct (is_type "function_definition" def); cbn [push_unit fst snd].
  - intros [= <-]. destruct (_ && _); [|apply Hu]. eapply within_keeps; [apply addEdge_keeps, Hu | apply Hu].
  - destruct (is_type "class_definition" def); [|done]. cbn [fst snd]. intros [= <-]. apply Hu.
Qed.
Lemma recordModel_keeps def idx st : keeps (snd st) (snd (recordModel def idx st)).
Proof.
  destruct st as [p fc]. unfold recordModel. destruct (if String.eqb _ "" then _ else _) as [body|]; [|reflexivity]. cbn zeta.
  destruct (String.eqb (if negb _ then _ else _) ""); [reflexivity | apply push_unit_keeps].
Qed.

Lemma py_route_keeps call method path fn fc : keeps fc (py_route call method path fn fc).
Proof. apply unit_edge_keeps. Qed.
Lemma py_consumer_keeps idx fn key name fc : within (Z.of_nat idx) fc → keeps fc (py_consumer idx fn key name fc).
Proof. apply addEdge_keeps. Qed.
Lemma called_decorator_keeps p idx fn call fc : within (Z.of_nat idx) fc → keeps fc (called_decorator p idx fn call fc).
Proof.
  intros Hi. assert (∀ object args m, keeps fc (decorator_route p object args (λ path, py_route call m path fn fc) fc)) as Hr.
  { intros. unfold decorator_route. case_match; [apply py_route_keeps | reflexivity]. }
  assert (∀ topic, keeps fc (let '(key, tn) := topicEdgeKey topic in py_consumer idx fn key tn fc)) as Hu.
  { intros topic. destruct (topicEdgeKey topic). by apply py_consumer_keeps. }
  unfold called_decorator. destruct (pyCallArgs fc call) as [args kwargs].
  assert (keeps fc (if String.eqb (lastComponent (field_text fc call "function")) "route" && negb (bool_decide (args = [])) then
      decorator_route p (callee_object (field_text fc call "function")) args
        (λ path, py_route call (match kwargs !! "methods" with Some mv => default "ANY" (ToUpper <$> head (pyStringsIn (py_consts p) mv)) | None => "ANY" end) path fn fc) fc
    else if one_of pyConsumerDecorators (lastComponent (field_text fc call "function")) then
      match decorator_topic p args kwargs with
      | "" => if hasBroker fc then let '(key, tn) := topicEdgeKey (u_Name fn) in py_consumer idx fn key tn fc else fc
      | topic => let '(key, tn) := topicEdgeKey topic in py_consumer idx fn key tn fc
      end else fc)) as Ho.
  { destruct (_ && _); [apply Hr |]. destruct (one_of _ _); [|reflexivity]. destruct (decorator_topic _ _ _) as [|a r]; [destruct (hasBroker fc); [apply Hu | reflexivity] | apply Hu]. }
  destruct (pyHTTPMethods !! _) as [m|]; [|exact Ho]. destruct args; [exact Ho | apply Hr].
Qed.
Lemma apply_decorator_keeps p idx fn fc d : within (Z.of_nat idx) fc → keeps fc (apply_decorator p idx fn fc d).
Proof.
  intros Hi. unfold apply_decorator. case_match; [reflexivity |]. destruct (firstNamedOfType d "call") as [call|]; [by apply called_decorator_keeps |].
  case_match; [by apply py_consumer_keeps | reflexivity].
Qed.
Lemma applyDecorators_keeps d idx st : within (Z.of_nat idx) (snd st) → keeps (snd st) (snd (applyDecorators d idx st)).
Proof.
  destruct st as [p fc]. unfold applyDecorators. intros Hi. case_match; [|reflexivity]. cbn [snd] in *. apply foldl_keeps.
  intros fc' d' Hk. apply apply_decorator_keeps. by eapply within_keeps.
Qed.
Lemma define_keeps decorated def scope st : keeps (snd st) (snd (define decorated def scope st)).
Proof.
  unfold define. pose proof (addDefinition_keeps def scope st) as H1. pose proof (addDefinition_within def scope st) as H2.
  destruct (addDefinition def scope st) as [[idx|] fc]; cbn [fst snd] in *; [|exact H1]. specialize (H2 idx eq_refl).
  assert (keeps fc (snd (match decorated with Some d => if is_type "function_definition" def then applyDecorators d idx (fst st, fc) else (fst st, fc) | None => (fst st, fc) end))) as H3.
  { destruct decorated; [|reflexivity]. case_match; [by apply (applyDecorators_keeps _ _ (fst st, fc)) | reflexivity]. }
  revert H3. generalize (match decorated with Some d => if is_type "function_definition" def then applyDecorators d idx (fst st, fc) else (fst st, fc) | None => (fst st, fc) end).
  intros st1 H3. trans fc; [done |]. case_match; [trans (snd st1); [done | apply recordModel_keeps] | done].
Qed.
Lemma entered_keeps def scope st : keeps (snd st) (snd (snd (entered def scope st))).
Proof. destruct st as [p fc]. unfold entered. case_match; [|reflexivity]. by destruct (recordServicer _ _ _ _). Qed.
Lemma walkDecls_keeps n : ∀ w scope st, keeps_st st (walkDecls w scope n st).
Proof.
  induction n as [t p cs IH] using Node_nested_ind. intros w scope st. cbn [walkDecls]. set (n := SyntaxNode t p cs).
  assert (∀ w scope, Forall (λ c, ∀ st, keeps_st st (walkDecls w scope c.2 st)) cs) as Hc.
  { intros w' scope'. eapply Forall_impl; [exact IH |]. cbn. auto. }
  assert (∀ st, keeps_st st (let '(inner, st') := entered n scope st in
    left_ (py_rpcSvc (fst st)) (on_field "body" (walkDecls WalkBody inner) id cs st'))) as Hinto.
  { intros st0. pose proof (entered_keeps n scope st0) as He. destruct (entered n scope st0) as [inner st1]. cbn [snd] in He.
    trans st1; [exact He |]. change (keeps_st st1 (on_field "body" (walkDecls WalkBody inner) id cs st1)). apply (on_field_rel keeps_st); [apply Hc | reflexivity]. }
  assert (Forall (λ c, ∀ st, keeps_st st (walkDecls WalkInto scope c.2 (define (Some n) c.2 scope st))) cs) as Hdef.
  { eapply Forall_impl; [exact IH |]. cbn. intros c H st0. trans (define (Some n) c.2 scope st0); [apply define_keeps | apply H]. }
  destruct w; [| exact (Hinto st) | apply (each_named_rel keeps_st), Hc].
  destruct (is_type "decorated_definition" n).
  - destruct (ChildByFieldName n "definition"); [apply (on_field_rel keeps_st (λ def st, walkDecls WalkInto scope def (define (Some n) def scope st)))
      | apply (on_last_rel keeps_st (λ def st, walkDecls WalkInto scope def (define (Some n) def scope st)))]; solve [exact Hdef | reflexivity].
  - case_match; [|apply (each_named_rel keeps_st), Hc]. trans (define None n scope st); [apply define_keeps | apply Hinto].
Qed.

Section PythonCalls.
  Context (visit : gmap string string → list (string * string)) (p : pyExtractor) (c : pyCall).
Lemma py_rpc_keeps fc fc' : within (pc_src c) fc → py_rpc c fc = Some fc' → keeps fc fc'.
Proof. intros Hs. unfold py_rpc. case_match; [done |]. case_match; [done |]. intros [= <-]. by apply site_edge_keeps. Qed.
Lemma py_request_keeps client fc : within (pc_src c) fc → keeps fc (snd (py_request p client c fc)).
Proof.
  intros Hs. unfold py_request. destruct (pc_args c) as [|ma [|ua args]]; [reflexivity.. |]. case_match; [|reflexivity].
  destruct (resolveRequestURL _ _ _ _) as [[u conf]|]; [|by apply candidate_site_keeps]. destruct (splitURL u). by apply edge_site_keeps.
Qed.
Lemma py_task_keeps fc : within (pc_src c) fc → keeps fc (snd (py_task c fc)).
Proof. intros Hs. unfold py_task. case_match; [|reflexivity]. case_match; [apply contractSite_keeps | by apply edge_site_keeps]. Qed.
Lemma py_rows_keeps fc : within (pc_src c) fc → keeps fc (py_rows p c fc).
Proof. intros Hs. unfold py_rows. case_match; [reflexivity | by apply edge_site_keeps]. Qed.
Lemma py_plain_keeps fc : within (pc_src c) fc → keeps fc (py_plain p c fc).
Proof.
  intros Hs. unfold py_plain. assert (keeps fc (snd (sqlEdgesFromArgs (pc_src c) (pc_line c) (pc_args c) (py_rows p c fc)))) as H.
  { pose proof (py_rows_keeps fc Hs) as Hr. trans (py_rows p c fc); [done | apply sqlEdgesFromArgs_keeps; by eapply within_keeps]. }
  case_match; [done |]. trans (snd (sqlEdgesFromArgs (pc_src c) (pc_line c) (pc_args c) (py_rows p c fc))); [done | apply addEdge_keeps; by eapply within_keeps].
Qed.
End PythonCalls.

Lemma py_handleCall_keeps visit p call fc : keeps fc (ExtractPython.handleCall visit p call fc).
Proof.
  unfold ExtractPython.handleCall. set (c := py_call_of p fc call). case_match; [reflexivity |].
  assert (within (pc_src c) fc) as Hs.
  { unfold c, py_call_of. destruct (pyCallArgs fc call). apply enclosingUnit_within. }
  destruct (py_rpc c fc) as [fc1|] eqn:E; [by eapply py_rpc_keeps |]. destruct (pyDetectorsFor fc) as [detectors client].
  pose proof (runDetectors_keeps visit detectors (py_site c) (resolveString (py_consts p)) (Some (pyStringsIn (py_consts p))) fc Hs) as H1.
  destruct (runDetectors _ _ _ _ _ _) as [[|] fc1]; cbn [snd] in H1; [done |]. trans fc1; [done |].
  assert (within (pc_src c) fc1) as Hs1 by by eapply within_keeps.
  pose proof (py_request_keeps p c client fc1 Hs1) as H2. destruct (py_request p client c fc1) as [[|] fc2]; cbn [snd] in H2; [done |]. trans fc2; [done |].
  assert (within (pc_src c) fc2) as Hs2 by by eapply within_keeps.
  pose proof (py_task_keeps c fc2 Hs2) as H3. destruct (py_task c fc2) as [[|] fc3]; cbn [snd] in H3; [done |]. trans fc3; [done |].
  apply py_plain_keeps. by eapply within_keeps.
Qed.
Lemma py_extract_keeps visit root fc : keeps fc (ExtractPython.extract visit root fc).
Proof.
  unfold ExtractPython.extract. set (p0 := collectRouters _ _ _). pose proof (walkDecls_keeps root WalkDecls "" (p0, fc)) as H1.
  destruct (walkDecls WalkDecls "" root (p0, fc)) as [p fc1]. unfold keeps_st in H1. cbn [snd] in H1. trans fc1; [done |]. clear H1. revert fc1.
  induction root as [t pl cs IH] using Node_nested_ind. intros fc1. cbn [ExtractPython.walkCalls].
  trans (if is_type "call" (SyntaxNode t pl cs) then ExtractPython.handleCall visit p (SyntaxNode t pl cs) fc1 else fc1).
  { case_match; [apply py_handleCall_keeps | reflexivity]. }
  by apply (each_named_rel keeps).
Qed.

(** ** The extractors of the JVM *)

Lemma jvm_route_keeps n basePath value method name fc : keeps fc (jvm_route n basePath value method name fc).
Proof. apply unit_edge_keeps. Qed.
Lemma listen_keeps idx line fc topic : within (Z.of_nat idx) fc → keeps fc (listen idx line fc topic).
Proof. intros Hi. unfold listen. destruct (topicEdgeKey topic). by apply addEdge_keeps. Qed.
Lemma java_annotated_keeps j n idx basePath name fc ann : within (Z.of_nat idx) fc → keeps fc (java_annotated j n idx basePath name fc ann).
Proof.
  intros Hi. unfold java_annotated. set (fc1 := match javaMappingMethods !! _ with Some _ => _ | None => _ end).
  assert (keeps fc fc1) as H1 by (unfold fc1; destruct (javaMappingMethods !! _); [apply jvm_route_keeps | reflexivity]).
  destruct ((list_to_map jvmListenerAnnotations : gmap string (list string)) !! ann.1) as [keys|]; [|done]. cbn zeta.
  set (fc2 := contractSite _ _ fc1). assert (keeps fc fc2) as H2 by (trans fc1; [done | apply contractSite_keeps]). trans fc2; [done |].
  apply foldl_keeps. intros fc' topic Hk. apply listen_keeps. eapply within_keeps; [exact Hk |]. by eapply within_keeps.
Qed.
Lemma java_handleMethod_keeps j n scope basePath fc : keeps fc (java_handleMethod j n scope basePath fc).
Proof.
  unfold java_handleMethod, jvm_declare, addUnit. destruct (String.eqb _ ""); [reflexivity |]. set (u := unit_at _ _ _ _ _ _). cbn [push_unit].
  set (idx := length (fc_units fc)). set (fc1 := if _ && _ then _ else _).
  assert (within (Z.of_nat idx) (snd (push_unit u fc))) as Hu by (unfold within; cbn; rewrite length_app; cbn; lia).
  assert (keeps (snd (push_unit u fc)) fc1) as H1 by (unfold fc1; destruct (_ && _); [by apply addEdge_keeps | reflexivity]).
  trans (snd (push_unit u fc)); [apply push_unit_keeps |]. trans fc1; [done |]. apply foldl_keeps. intros fc' ann Hk. apply java_annotated_keeps.
  eapply within_keeps; [exact Hk |]. by eapply within_keeps.
Qed.
Lemma java_class_keeps n name qualified st : keeps_st st (java_class n name qualified st).
Proof.
  destruct st as [j fc]. unfold java_class, addUnit, keeps_st. set (u := unit_at _ _ _ _ _ _). cbn [push_unit snd].
  trans (snd (push_unit u fc)); [apply push_unit_keeps |]. destruct (String.eqb _ ""); [reflexivity |]. apply push_unit_keeps.
Qed.
Lemma java_walk_keeps n : ∀ body scope basePath st, keeps_st st (java_walk body scope basePath n st).
Proof.
  induction n as [t p cs IH] using Node_nested_ind. intros body scope basePath [j fc]. cbn [java_walk]. set (n := SyntaxNode t p cs).
  assert (∀ body scope basePath, Forall (λ c, ∀ st, keeps_st st (java_walk body scope basePath c.2 st)) cs) as Hc.
  { intros. eapply Forall_impl; [exact IH |]. cbn. auto. }
  destruct body; [apply (each_named_rel keeps_st), Hc |]. destruct (is_type "package_declaration" n).
  { exact (each_named_rel keeps_st _ cs (jv_bind (JvPackage (java_package fc n)) j, fc) (Hc false scope basePath)). }
  destruct (_ && _).
  { set (q := jv_qualify j scope _). set (st := on_field _ _ _ _ _). assert (keeps_st (j, fc) st) as H; [|exact H].
    trans (java_class n (field_text fc n "name") q (j, fc)); [apply java_class_keeps |]. apply (on_field_rel keeps_st); [apply Hc | reflexivity]. }
  destruct (is_type "method_declaration" n); [apply java_handleMethod_keeps | apply (each_named_rel keeps_st), Hc].
Qed.

Section JvmCalls.
  Context (visit : gmap string string → list (string * string)) (j : jvmExtractor) (c : jvmCall).
Lemma jvm_generic_keeps fc fc' : jvm_generic j c fc = Some fc' → keeps fc fc'.
Proof.
  unfold jvm_generic. pose proof (applyGenericRoute_keeps (Place (jc_node c)) (jc_callee c) (jc_args c) (jv_resolve j) None "" fc) as H.
  destruct (applyGenericRoute _ _ _ _ _ _ _) as [ok fc1]. destruct ok; [|done]. by intros [= <-].
Qed.
Lemma jvm_rpc_keeps svc conf fc fc' : within (jc_src c) fc → jvm_rpc c svc conf fc = Some fc' → keeps fc fc'.
Proof. intros Hs. unfold jvm_rpc. case_match; [done |]. intros [= <-]. by apply site_edge_keeps. Qed.
Lemma jvm_fluent_keeps fc fc' : within (jc_src c) fc → jvm_fluent j c fc = Some fc' → keeps fc fc'.
Proof.
  intros Hs. unfold jvm_fluent. destruct (fluentChainHTTP _ _ _ _) as [[[m u] conf]|]; [|done]. cbn [mbind option_bind].
  destruct (splitURL u) as [host path]. intros [= <-]. by apply site_edge_keeps.
Qed.
Lemma jvm_plain_keeps fc : within (jc_src c) fc → keeps fc (jvm_plain c fc).
Proof.
  intros Hs. unfold jvm_plain. assert (keeps fc (jvm_rows c fc)) as Hr.
  { unfold jvm_rows. case_match; [reflexivity | by apply edge_site_keeps]. }
  assert (keeps fc (snd (sqlEdgesFromArgs (jc_src c) (jc_line c) (jc_args c) (jvm_rows c fc)))) as H.
  { trans (jvm_rows c fc); [done | apply sqlEdgesFromArgs_keeps; by eapply within_keeps]. }
  trans (snd (sqlEdgesFromArgs (jc_src c) (jc_line c) (jc_args c) (jvm_rows c fc))); [done | apply addEdge_keeps; by eapply within_keeps].
Qed.
Lemma jvm_rest_keeps fc : within (jc_src c) fc → keeps fc (jvm_rest visit j c fc).
Proof.
  intros Hs. unfold jvm_rest. pose proof (runDetectors_keeps visit javaDetectors (jvm_site c) (jv_resolve j) None fc Hs) as H1.
  destruct (runDetectors _ _ _ _ _ _) as [[|] fc1]; cbn [snd] in H1; [done |]. trans fc1; [done |].
  assert (within (jc_src c) fc1) as Hs1 by by eapply within_keeps.
  destruct (jvm_rpc c _ _ fc1) as [fc2|] eqn:E; [by eapply jvm_rpc_keeps | by apply jvm_plain_keeps].
Qed.
End JvmCalls.
Lemma jvm_steps_keeps visit j c steps fc :
  within (jc_src c) fc → Forall (λ f, ∀ fc', f fc = Some fc' → keeps fc fc') steps → keeps fc (default (jvm_rest visit j c fc) (first_of steps fc)).
Proof.
  intros Hs H. destruct (first_of steps fc) as [fc1|] eqn:E; [by eapply first_of_keeps | by apply jvm_rest_keeps].
Qed.
Lemma java_extract_keeps visit root fc : keeps fc (java_extract visit root fc).
Proof.
  unfold java_extract. pose proof (java_walk_keeps root false "" "" (java_collectConsts fc [] root newJvmExtractor, fc)) as H1.
  destruct (java_walk _ _ _ _ _) as [j fc1]. trans fc1; [exact H1 |]. clear H1. revert fc1.
  induction root as [t p cs IH] using Node_nested_ind. intros fc1. cbn [java_walkCalls]. set (n := SyntaxNode t p cs).
  trans (java_call_node visit j n fc1); [|by apply (each_named_rel keeps)]. unfold java_call_node.
  destruct (is_type "method_invocation" n).
  - unfold java_handleInvocation. set (c := jvm_call _ _ _ _ _ _ _). destruct (_ <? 0)%Z; [reflexivity |].
    assert (within (jc_src c) fc1) as Hs by apply enclosingUnit_within. apply jvm_steps_keeps; [done |].
    repeat (apply Forall_cons_2; [|]); [intros fc' H; by eapply jvm_generic_keeps | intros fc' H; by eapply jvm_rpc_keeps
      | intros fc' H; by eapply jvm_fluent_keeps | constructor].
  - case_match; [|reflexivity]. unfold java_handleObjectCreation. case_match; [reflexivity | apply applyGenericRoute_keeps].
Qed.

Lemma kt_handleFunction_keeps j n scope basePath fc : keeps fc (kt_handleFunction j n scope basePath fc).
Proof.
  unfold kt_handleFunction, jvm_declare, addUnit. destruct (String.eqb (child_text fc n "simple_identifier") ""); [reflexivity |].
  set (u := unit_at _ _ _ _ _ _). cbn [push_unit].
  trans (snd (push_unit u fc)); [apply push_unit_keeps |]. apply foldl_keeps. intros fc' ann _.
  destruct (javaMappingMethods !! _); [apply jvm_route_keeps | reflexivity].
Qed.
Lemma kt_walk_keeps n : ∀ body scope basePath before st, keeps_st st (kt_walk body scope basePath before n st).
Proof.
  induction n as [t p cs IH] using Node_nested_ind. intros body scope basePath before [j fc]. cbn [kt_walk]. set (n := SyntaxNode t p cs).
  assert (∀ body scope basePath, Forall (λ c, ∀ before st, keeps_st st (kt_walk body scope basePath before c.2 st)) cs) as Hc.
  { intros. eapply Forall_impl; [exact IH |]. cbn. auto. }
  destruct body; [apply (each_after_rel keeps_st), Hc |]. destruct (is_type "package_header" n).
  { set (j' := match firstChildOfType n "identifier" with Some _ => _ | None => _ end).
    exact (each_after_rel keeps_st (kt_walk false scope basePath) cs [] (j', fc) (Hc false scope basePath)). }
  destruct (_ && _).
  { unfold jvm_declare, addUnit. set (u := unit_at _ _ _ _ _ _). cbn [push_unit].
    trans (j, snd (push_unit u fc)); [apply push_unit_keeps |]. apply (on_type_rel keeps_st). eapply Forall_impl; [apply Hc |]. cbn. intros c H st. apply H. }
  destruct (is_type "function_declaration" n); [apply kt_handleFunction_keeps | apply (each_after_rel keeps_st), Hc].
Qed.
Lemma kt_extract_keeps visit root fc : keeps fc (kt_extract visit root fc).
Proof.
  unfold kt_extract. pose proof (kt_walk_keeps root false "" "" [] (kt_collectConsts fc [] root newJvmExtractor, fc)) as H1.
  destruct (kt_walk _ _ _ _ _ _) as [j fc1]. trans fc1; [exact H1 |]. clear H1. revert fc1.
  induction root as [t p cs IH] using Node_nested_ind. intros fc1. cbn [kt_walkCalls]. set (n := SyntaxNode t p cs).
  trans (if is_type "call_expression" n then kt_handleCall visit j n fc1 else fc1); [|by apply (each_named_rel keeps)].
  case_match; [|reflexivity]. unfold kt_handleCall. destruct (NamedChildren n) as [|callee l]; [reflexivity |]. set (c := jvm_call _ _ _ _ _ _ _).
  destruct (_ <? 0)%Z; [reflexivity |]. assert (within (jc_src c) fc1) as Hs by apply enclosingUnit_within. apply jvm_steps_keeps; [done |].
  repeat (apply Forall_cons_2; [|]); [intros fc' H'; by eapply jvm_fluent_keeps | intros fc' H'; by eapply jvm_generic_keeps
    | intros fc' H'; by eapply jvm_rpc_keeps | constructor].
Qed.

(** ** The extractor of TypeScript *)

Lemma pushed_within u fc : within (Z.of_nat (length (fc_units fc))) (snd (push_unit u fc)).
Proof. unfold within. cbn. rewrite length_app. cbn. lia. Qed.
Lemma ts_decorated_keeps n idx u basePath fc d : within (Z.of_nat idx) fc → keeps fc (ts_decorated n idx u basePath fc d).
Proof.
  intros Hi. unfold ts_decorated. destruct (if String.eqb _ _ then _ else _) as [m|]; [apply unit_edge_keeps |].
  destruct (if one_of _ _ then _ else _) as [|a r]; [reflexivity |]. destruct (topicEdgeKey _). by apply addEdge_keeps.
Qed.
Lemma ts_declaration_keeps n scope basePath before st : keeps_st st (ts_declaration n scope basePath before st).
Proof.
  destruct st as [t fc]. unfold ts_declaration, keeps_st. cbn [snd].
  destruct (one_of _ _); [cbn [snd]; case_match; [reflexivity | apply push_unit_keeps] |].
  destruct (is_type "method_definition" n).
  { unfold ts_method. destruct (String.eqb _ "constructor"); [reflexivity |]. destruct (String.eqb _ ""); [reflexivity |].
    set (u := unit_at _ _ _ _ _ _). cbn zeta. change (push_unit u fc) with (length (fc_units fc), snd (push_unit u fc)). cbn iota beta zeta. cbn [snd].
    trans (snd (push_unit u fc)); [apply push_unit_keeps |]. apply foldl_keeps. intros fc' d Hk. apply ts_decorated_keeps.
    eapply within_keeps; [exact Hk | apply pushed_within]. }
  destruct (is_type "public_field_definition" n); [reflexivity |]. destruct (is_type "variable_declarator" n); [|reflexivity].
  cbn [snd]. unfold ts_variable. destruct (if String.eqb _ "" then _ else _); [|reflexivity]. case_match; [apply push_unit_keeps | reflexivity].
Qed.
Lemma ts_class_keeps n name scope basePath before fc : keeps fc (snd (ts_class n name scope basePath before fc)).
Proof.
  unfold ts_class, addUnit. set (u := unit_at _ _ _ _ _ _). cbn [push_unit]. set (doc := extractLineComments _ _ _).
  trans (snd (push_unit u fc)); [apply push_unit_keeps |]. change (with_units (fc_units fc ++ [u]) fc) with (snd (push_unit u fc)).
  generalize (tsDecorators (snd (push_unit u fc)) before n) as ds. intros ds. generalize basePath at 2 as base, (snd (push_unit u fc)) as fc1.
  induction ds as [|d ds IH]; intros base fc1; [reflexivity |].
  cbn [foldl]. unfold class_decorator at 2. destruct (String.eqb (de_name d) "Controller"); [apply IH |].
  destruct (String.eqb (de_name d) "Entity"); [|apply IH]. cbn zeta. destruct (String.eqb (tsEntityTable d name) ""); [apply IH |].
  etransitivity; [|apply IH]. apply push_unit_keeps.
Qed.
Lemma walkDeclsIn_keeps n : ∀ body scope basePath before st, keeps_st st (walkDeclsIn body scope basePath before n st).
Proof.
  induction n as [ty p cs IH] using Node_nested_ind. intros body scope basePath before [t fc]. cbn [walkDeclsIn]. set (n := SyntaxNode ty p cs).
  assert (∀ body scope basePath, Forall (λ c, ∀ before st, keeps_st st (walkDeclsIn body scope basePath before c.2 st)) cs) as Hc.
  { intros. eapply Forall_impl; [exact IH |]. cbn. auto. }
  destruct body; [apply (each_sibling_rel keeps_st), Hc |]. destruct (_ && _).
  - pose proof (ts_class_keeps n (field_text fc n "name") scope basePath before fc) as H1.
    destruct (ts_class _ _ _ _ _ _) as [classBase fc1]. cbn [snd] in H1. trans (t, fc1); [exact H1 |].
    apply (on_field_rel keeps_st); [|reflexivity]. eapply Forall_impl; [apply Hc |]. cbn. intros c H st. apply H.
  - trans (ts_declaration n scope basePath before (t, fc)); [apply ts_declaration_keeps | apply (each_sibling_rel keeps_st), Hc].
Qed.

Lemma unitNamed_within fc name i : unitNamed fc name = Some i → within (Z.of_nat i) fc.
Proof.
  unfold unitNamed. destruct (String.eqb name ""); [done |]. destruct (list_find _ _) as [[j u]|] eqn:E; [|done]. cbn. intros [= ->].
  destruct (proj1 (list_find_Some _ _ _ _) E) as [H _]. apply lookup_lt_Some in H. unfold within. lia.
Qed.
Lemma handle_rpc_keeps svc line fc kv : keeps fc (handle_rpc svc line fc kv).
Proof.
  destruct kv as [key value]. unfold handle_rpc. destruct (unitNamed fc (lastComponent _)) as [i|] eqn:E1;
    [by apply addEdge_keeps, (unitNamed_within _ _ _ E1) |].
  destruct (unitNamed fc key) as [i|] eqn:E2; [by apply addEdge_keeps, (unitNamed_within _ _ _ E2) | reflexivity].
Qed.

Section TypeScriptCalls.
  Context (visit : gmap string string → list (string * string)) (t : tsExtractor) (c : tsCall).
Lemma ts_route_keeps fc fc' : ts_route t c fc = Some fc' → keeps fc fc'.
Proof.
  unfold ts_route, addUnit. destruct (tsHTTPMethods !! _) as [m|]; [|done]. destruct (tc_nodes c) as [|path [|b l]]; [done.. |].
  destruct (last _) as [handler|]; [|done]. destruct (_ || _); [done |]. destruct (rooted _) as [p|]; [|done].
  cbn [push_unit]. intros [= <-]. case_match; [apply unit_edge_keeps | apply push_unit_keeps].
Qed.
Lemma markRPCHandlers_keeps fc fc' : markRPCHandlers visit c fc = Some fc' → keeps fc fc'.
Proof.
  unfold markRPCHandlers. destruct (tc_args c) as [|d l]; [done |]. destruct (tc_nodes c) as [|a [|handlers l']]; [done.. |].
  destruct (if String.eqb _ "" then _ else _) as [fields|]; [|done]. intros [= <-]. apply foldl_keeps. intros. apply handle_rpc_keeps.
Qed.
Lemma ts_rpc_edge_keeps svc conf fields fc fc' : within (tc_src c) fc → ts_rpc_edge t c svc conf fields fc = Some fc' → keeps fc fc'.
Proof. intros Hs. unfold ts_rpc_edge. case_match; [done |]. intros [= <-]. by apply site_edge_keeps. Qed.
Lemma ts_queue_keeps fields fc fc' : within (tc_src c) fc → ts_queue t c fields fc = Some fc' → keeps fc fc'.
Proof.
  intros Hs. unfold ts_queue. destruct (if one_of _ _ then _ else _) as [q|]; [|done]. destruct (topicEdgeKey q). intros [= <-]. by apply site_edge_keeps.
Qed.
Lemma ts_plain_keeps fields fc : within (tc_src c) fc → keeps fc (ts_plain t c fields fc).
Proof.
  intros Hs. unfold ts_plain. assert (keeps fc (ts_rows t c fields fc)) as Hr.
  { unfold ts_rows. destruct (match prismaAccess _ _ with Some _ => _ | None => _ end) as [[[tbl kind] conf]|]; [by apply edge_site_keeps | reflexivity]. }
  assert (keeps fc (snd (sqlEdgesFromArgs (tc_src c) (tc_line c) (tc_args c) (ts_rows t c fields fc)))) as H.
  { trans (ts_rows t c fields fc); [done | apply sqlEdgesFromArgs_keeps; by eapply within_keeps]. }
  case_match; [done |]. trans (snd (sqlEdgesFromArgs (tc_src c) (tc_line c) (tc_args c) (ts_rows t c fields fc))); [done |].
  apply addEdge_keeps. by eapply within_keeps.
Qed.
Lemma ts_rest_keeps fc : within (tc_src c) fc → keeps fc (ts_rest visit t c fc).
Proof.
  intros Hs. unfold ts_rest. set (fields := optionsFields _ _ _).
  pose proof (runDetectors_keeps visit tsDetectors (ts_site t c fields) (ts_resolveString (ts_consts t)) (Some (stringsInExpr (ts_consts t))) fc Hs) as H1.
  destruct (runDetectors _ _ _ _ _ _) as [[|] fc1]; cbn [snd] in H1; [done |]. trans fc1; [done |].
  assert (within (tc_src c) fc1) as Hs1 by by eapply within_keeps. destruct (first_of _ fc1) as [fc2|] eqn:E; [|by apply ts_plain_keeps].
  eapply first_of_keeps; [|exact E]. constructor; [|constructor; [|constructor]]; intros fc' H; [by eapply ts_rpc_edge_keeps | by eapply ts_queue_keeps].
Qed.
End TypeScriptCalls.
Lemma ts_call_node_keeps visit t n fc : keeps fc (ts_call_node visit t n fc).
Proof.
  unfold ts_call_node. destruct (is_type "call_expression" n).
  - unfold ts_handleCall. destruct (ChildByFieldName n "function") as [fn|]; [|reflexivity]. set (c := ts_call_of fc n fn).
    assert (within (tc_src c) fc) as Hs by apply enclosingUnit_within. destruct (first_of _ fc) as [fc1|] eqn:E.
    { eapply first_of_keeps; [|exact E]. constructor; [|constructor; [|constructor]]; intros fc' H; [by eapply ts_route_keeps | by eapply markRPCHandlers_keeps]. }
    destruct (_ <? 0)%Z; [reflexivity |]. destruct (ts_rpc t c fc) as [fc1|] eqn:E1; [by eapply ts_rpc_edge_keeps | by apply ts_rest_keeps].
  - destruct (is_type "new_expression" n); [|reflexivity]. unfold ts_handleNew. destruct (_ ≫= _) as [q|]; [|reflexivity].
    destruct (topicEdgeKey q). case_match; [reflexivity | apply addEdge_keeps, enclosingUnit_within].
Qed.
Lemma ts_extract_keeps visit root fc : keeps fc (ts_extract visit root fc).
Proof.
  unfold ts_extract. set (t0 := collectMounts _ _ _). pose proof (walkDeclsIn_keeps root false "" "" [] (t0, fc)) as H1.
  destruct (walkDeclsIn _ _ _ _ _ _) as [t fc1]. trans fc1; [exact H1 |]. clear H1. revert fc1.
  induction root as [ty p cs IH] using Node_nested_ind. intros fc1. cbn [ts_walkCalls].
  trans (ts_call_node visit t (SyntaxNode ty p cs) fc1); [apply ts_call_node_keeps | by apply (each_named_rel keeps)].
Qed.

(** ** The extractor of C# *)

Lemma cs_handles_keeps c idx line name fc : within (Z.of_nat idx) fc → keeps fc (cs_handles c idx line name fc).
Proof. intros Hi. unfold cs_handles. case_match; [reflexivity |]. destruct (topicEdgeKey _). by apply site_edge_keeps. Qed.
Lemma cs_handleMethod_keeps c n scope basePath fc : keeps fc (cs_handleMethod c n scope basePath fc).
Proof.
  unfold cs_handleMethod, jvm_declare, addUnit. destruct (String.eqb (field_text fc n "name") ""); [reflexivity |].
  set (u := unit_at _ _ _ _ _ _). cbn [push_unit]. set (idx := length (fc_units fc)). set (fc1 := if _ && _ then _ else _). cbn zeta.
  set (line := (_ + 1)%Z). set (name := field_text fc n "name").
  pose proof (pushed_within u fc) as Hu.
  assert (keeps (snd (push_unit u fc)) fc1) as H1 by (unfold fc1; destruct (_ && _); [by apply addEdge_keeps | reflexivity]).
  trans (snd (push_unit u fc)); [apply push_unit_keeps |]. trans fc1; [done |]. trans (cs_handles c idx line name fc1).
  { apply cs_handles_keeps. by eapply within_keeps. }
  apply foldl_keeps. intros fc' attr _. destruct (csharpHTTPAttrs !! _); [apply jvm_route_keeps | reflexivity].
Qed.
Lemma cs_class_keeps n name qualified st : keeps_st st (cs_class n name qualified st).
Proof.
  destruct st as [c fc]. unfold cs_class, jvm_declare, addUnit, keeps_st. set (u := unit_at _ _ _ _ _ _). cbn [push_unit].
  destruct (baseContracts _ _) as [svc topic]. apply push_unit_keeps.
Qed.
Lemma cs_walk_keeps n : ∀ body scope basePath st, keeps_st st (cs_walk body scope basePath n st).
Proof.
  induction n as [t p cs IH] using Node_nested_ind. intros body scope basePath [c fc]. cbn [cs_walk]. set (n := SyntaxNode t p cs).
  assert (∀ body scope basePath, Forall (λ c, ∀ st, keeps_st st (cs_walk body scope basePath c.2 st)) cs) as Hc.
  { intros. eapply Forall_impl; [exact IH |]. cbn. auto. }
  destruct body; [apply (each_named_rel keeps_st), Hc |]. destruct (one_of ["namespace_declaration"; _] _).
  { set (c' := if String.eqb _ "" then c else _). exact (each_named_rel keeps_st _ cs (c', fc) (Hc false scope basePath)). }
  destruct (_ && _).
  { set (q := cs_qualify c scope _). set (st := on_field _ _ _ _ _). assert (keeps_st (c, fc) st) as H; [|exact H].
    trans (cs_class n (field_text fc n "name") q (c, fc)); [apply cs_class_keeps |]. apply (on_field_rel keeps_st); [apply Hc | reflexivity]. }
  destruct (one_of _ _); [apply cs_handleMethod_keeps | apply (each_named_rel keeps_st), Hc].
Qed.
Lemma collectEFTables_keeps c n : ∀ entity fc, keeps fc (collectEFTables c entity n fc).
Proof.
  induction n as [t p cs IH] using Node_nested_ind. intros entity fc. cbn [collectEFTables]. set (n := SyntaxNode t p cs).
  set (e := ef_entity fc n entity). set (fc1 := if _ && _ then _ else _).
  assert (keeps fc fc1) as H1.
  { unfold fc1. destruct (_ && _); [|reflexivity]. unfold addEFTable, jvm_declare, addUnit. set (tbl := if String.eqb e "" then _ else _). cbn zeta. destruct (String.eqb tbl ""); [reflexivity | apply push_unit_keeps]. }
  trans fc1; [done |]. apply (each_named_rel keeps). eapply Forall_impl; [exact IH |]. cbn. auto.
Qed.

Section CSharpCalls.
  Context (visit : gmap string string → list (string * string)) (c : csharpExtractor) (k : jvmCall).
Lemma cs_generic_keeps fc fc' : cs_generic c k fc = Some fc' → keeps fc fc'.
Proof.
  unfold cs_generic. pose proof (applyGenericRoute_keeps (Place (jc_node k)) (jc_callee k) (jc_args k) (cs_resolve c) None "" fc) as H.
  destruct (applyGenericRoute _ _ _ _ _ _ _) as [ok fc1]. destruct ok; [|done]. by intros [= <-].
Qed.
Lemma cs_rpc_keeps svc conf fc fc' : within (jc_src k) fc → cs_rpc k svc conf fc = Some fc' → keeps fc fc'.
Proof. intros Hs. unfold cs_rpc. case_match; [done |]. intros [= <-]. by apply site_edge_keeps. Qed.
Lemma cs_topic_keeps kind topic receiver fields fc : within (jc_src k) fc → keeps fc (cs_topic k kind topic receiver fields fc).
Proof. intros Hs. unfold cs_topic. destruct (topicEdgeKey topic). by apply site_edge_keeps. Qed.
Lemma cs_publish_keeps fc fc' : within (jc_src k) fc → cs_publish c k fc = Some fc' → keeps fc fc'.
Proof.
  intros Hs. unfold cs_publish. destruct (jc_args k) as [|a l]; [done |]. destruct (_ && _); [|done].
  destruct (eventTopicName _); [done |]. intros [= <-]. by apply cs_topic_keeps.
Qed.
Lemma cs_typed_keeps fn named fc fc' : within (jc_src k) fc → cs_typed k fn named fc = Some fc' → keeps fc fc'.
Proof.
  intros Hs. unfold cs_typed. destruct (genericTopicContract _ _) as [[[kind topic] handler]|]; [|done]. case_match; [|done].
  intros [= <-]. by apply cs_topic_keeps.
Qed.
Lemma cs_plain_keeps fc : within (jc_src k) fc → keeps fc (cs_plain c k fc).
Proof.
  intros Hs. unfold cs_plain. assert (keeps fc (cs_rows c k fc)) as Hr.
  { unfold cs_rows. destruct (efCoreTable _ _ _) as [tbl conf]. case_match; [reflexivity | by apply edge_site_keeps]. }
  assert (keeps fc (snd (sqlEdgesFromArgs (jc_src k) (jc_line k) (jc_args k) (cs_rows c k fc)))) as H.
  { trans (cs_rows c k fc); [done | apply sqlEdgesFromArgs_keeps; by eapply within_keeps]. }
  trans (snd (sqlEdgesFromArgs (jc_src k) (jc_line k) (jc_args k) (cs_rows c k fc))); [done | apply addEdge_keeps; by eapply within_keeps].
Qed.
Lemma cs_rest_keeps named fc : within (jc_src k) fc → keeps fc (cs_rest visit c k named fc).
Proof.
  intros Hs. unfold cs_rest. set (res := resolveAt _ _). pose proof (runDetectors_keeps visit csharpDetectors (cs_site k named) res None fc Hs) as H1.
  destruct (runDetectors _ _ _ _ _ _) as [[|] fc1]; cbn [snd] in H1; [done |]. trans fc1; [done |].
  assert (within (jc_src k) fc1) as Hs1 by by eapply within_keeps.
  destruct (cs_rpc k _ _ fc1) as [fc2|] eqn:E; [by eapply cs_rpc_keeps | by apply cs_plain_keeps].
Qed.
Lemma cs_request_keeps urlArg methodArg fc : within (jc_src k) fc → keeps fc (cs_request c k urlArg methodArg fc).
Proof.
  intros Hs. unfold cs_request. destruct (if (_ <? 0)%Z then _ else _) as [url|]; [|reflexivity].
  destruct (resolveRequestURL _ _ _ _) as [[u conf]|]; [|by apply candidate_site_keeps]. destruct (splitURL u). by apply edge_site_keeps.
Qed.
End CSharpCalls.
Lemma cs_call_node_keeps visit c n fc : keeps fc (cs_call_node visit c n fc).
Proof.
  unfold cs_call_node. destruct (is_type "invocation_expression" n).
  - unfold cs_handleInvocation. destruct (ChildByFieldName n "function") as [fn|]; [|reflexivity]. destruct (csharpCallee fc fn) as [object name].
    destruct (csharpCallArgs _ _) as [args named]. set (k := cs_call_of _ _ _ _ _ _ _). destruct (_ <? 0)%Z; [reflexivity |].
    assert (within (jc_src k) fc) as Hs by apply enclosingUnit_within. destruct (first_of _ fc) as [fc1|] eqn:E; [|by apply cs_rest_keeps].
    eapply first_of_keeps; [|exact E]. repeat (apply Forall_cons_2; [|]); [intros fc' H; by eapply cs_generic_keeps
      | intros fc' H; by eapply cs_rpc_keeps | intros fc' H; by eapply cs_publish_keeps | intros fc' H; by eapply cs_typed_keeps | constructor].
  - destruct (is_type "object_creation_expression" n); [|reflexivity]. unfold cs_handleObjectCreation. destruct (NamedChildren n) as [|tn l]; [reflexivity |].
    destruct (csharpRequestCtors _) as [[urlArg methodArg]|]; [apply cs_request_keeps, enclosingUnit_within | apply applyGenericRoute_keeps].
Qed.
Lemma cs_extract_keeps visit root fc : keeps fc (cs_extract visit root fc).
Proof.
  unfold cs_extract. pose proof (cs_walk_keeps root false "" "" (cs_collectConsts fc [] root newCsharpExtractor, fc)) as H1.
  destruct (cs_walk _ _ _ _ _) as [c fc1]. trans fc1; [exact H1 |]. clear H1. trans (collectEFTables c "" root fc1); [apply collectEFTables_keeps |].
  generalize (collectEFTables c "" root fc1). clear fc1. induction root as [t p cs IH] using Node_nested_ind. intros fc1. cbn [cs_walkCalls].
  trans (cs_call_node visit c (SyntaxNode t p cs) fc1); [apply cs_call_node_keeps | by apply (each_named_rel keeps)].
Qed.

(** ** A parsed file *)

Lemma new_file_sound path lang content : sound (new_file path lang content (Some newCoverage)).
Proof.
  assert (∀ k, counts_of k (Some newCoverage) = no_counts) as H by (intros k; exact (counts_of_none k)).
  split; cbn [fc_edges fc_https fc_tables fc_units fc_consts fc_cov new_file length]; [constructor | constructor | constructor | lia | | apply map_Forall_empty | |].
  - rewrite map_size_empty. apply Nat.le_0_l.
  - intros k. rewrite H. cbn. lia.
  - rewrite H. cbn. lia.
Qed.

(** The requests of helpers are linked under the marks of the calls that reach them. *)
Lemma linkWrappers_sound ws fc : sound fc → sound (linkWrappers ws fc).
Proof.
  intros H. unfold linkWrappers. destruct ws as [|w ws]; [done |]. unfold linkWrapperCalls. set (m := by_name _).
  assert (∀ n fc, sound fc → sound (Nat.iter n (contractSite ContractKindHTTP true) fc)) as Hn.
  { intros n fc' Hf. induction n as [|n IH]; [done |]. cbn [Nat.iter nat_rect]. by apply contractSite_keeps. }
  destruct (bool_decide (m = ∅)); [apply Hn; by destruct H |].
  destruct (link_fold m (fc_edges fc) (resolved_sites (fc_edges fc)) []) as (r' & new & -> & (_ & _ & Hnew & _)). apply Hn.
  destruct H. split; try done. cbn [fc_edges fc_units with_edges]. apply Forall_app. split; [done |].
  eapply Forall_impl; [exact Hnew |]. intros h (_ & e & He & Hw). apply wrapper_call_request in Hw as [_ Hsite].
  unfold site_of in Hsite. injection Hsite as -> _. rewrite Forall_forall in so_edges0. by apply so_edges0.
Qed.

(** What the rest of the index relies on in the facts of a file. *)
Record sound_facts (f : fileFacts) : Prop := {
  sf_edges : Forall (λ e, unit_mark (length (ff_Units f)) (e_SrcID e)) (ff_Edges f);
  sf_tables : Forall (λ t, unit_mark (length (ff_Units f)) (pt_Src t)) (ff_Tables f);
  sf_pending : length (ff_Tables f) ≤ maxPendingTables;
  sf_consts : size (ff_Consts f) ≤ maxPackageConsts;
  sf_names : map_Forall (λ _ v, isTableNameLike v = true) (ff_Consts f);
  sf_accounted : facts_accounted (parsed_facts f)
}.
Lemma ParseFacts_sound hash ext lang path content :
  keeps (new_file path lang content (Some newCoverage)) (ext (new_file path lang content (Some newCoverage))) →
  sound_facts (ParseFacts hash ext lang path content).
Proof.
  intros [_ H]. specialize (H (new_file_sound _ _ _)). unfold ParseFacts. set (fc := ext _) in *.
  destruct (linkWrappers_sound (wrappers fc) fc H). split; cbn; rewrite ?length_map; done.
Qed.

(** ** The extractors of the tree-sitter languages *)

(** [newExtractor]: the languages read from a syntax tree of their own. *)
Definition extractors (visit : gmap string string → list (string * string)) : list (string * (Node → fileCtx → fileCtx)) :=
  [("go", ExtractGo.extract visit); ("java", java_extract visit); ("kotlin", kt_extract visit); ("python", ExtractPython.extract visit);
   ("javascript", ts_extract visit); ("typescript", ts_extract visit); ("tsx", ts_extract visit); ("csharp", cs_extract visit)].
Lemma extractors_keep visit lang ext root fc : (lang, ext) ∈ extractors visit → keeps fc (ext root fc).
Proof.
  unfold extractors. rewrite !elem_of_cons. rewrite elem_of_nil. intros H. repeat destruct H as [H|H]; try done; injection H as -> ->;
    first [apply extract_keeps | apply java_extract_keeps | apply kt_extract_keeps | apply py_extract_keeps | apply ts_extract_keeps | apply cs_extract_keeps].
Qed.

Section Parsed.
  Context (hash : string → string) (visit : gmap string string → list (string * string)) (root : Node) (lang path content : string).
Definition parsed_tree (ext : Node → fileCtx → fileCtx) : fileFacts := ParseFacts hash (ext root) lang path content.

(** C9: Whatever the syntax tree, the facts of a file of a language with an extractor are sound: every edge and every pending
    table names one of its units, coverage counts no more edges than candidates and keeps one open candidate for each pending
    table, of which there are 512 at most, and the constants it publishes are 256 at most, each a name a table can have. *)
Theorem parsed_facts_sound ext : (lang, ext) ∈ extractors visit → sound_facts (parsed_tree ext).
Proof. intros H. apply ParseFacts_sound. by eapply extractors_keep. Qed.

(** C10: Once the units of a parsed file are stored under ids of their own, every edge the file was parsed to is stored as well,
    from one of these units, and otherwise as it was. *)
Theorem parsed_edges_reach_the_store ext stored :
  (lang, ext) ∈ extractors visit →
  length stored = length (ff_Units (parsed_tree ext)) → in_int64 (Z.of_nat (length stored)) = true → Forall (λ u, u_ID u ≠ "") stored →
  Forall2 (λ e r, ∃ u, u ∈ stored ∧ r = with_src (u_ID u) e) (ff_Edges (parsed_tree ext)) (resolveEdgeSources (ff_Edges (parsed_tree ext)) stored).
Proof.
  intros Hext Hl H64 Hids. pose proof (sf_edges _ (ParseFacts_sound hash (ext root) lang path content (extractors_keep _ _ _ _ _ Hext))) as H.
  fold (parsed_tree ext) in H. rewrite <- Hl in H. unfold resolveEdgeSources. induction H as [|e es (i & Hi & Hlt) _ IH]; cbn; [constructor |].
  destruct (lookup_lt_is_Some_2 stored i Hlt) as [u Hu]. rewrite (resolve_source_mark stored e i u Hi Hu).
  - constructor; [|exact IH]. exists u. split; [by eapply list_elem_of_lookup_2 | done].
  - unfold in_int64 in *. lia.
  - rewrite Forall_lookup in Hids. by eapply Hids.
Qed.
End Parsed.

(** ** A file of a program *)

Definition sample_node (type : string) (first last : Z) (children : list (string * bool * Node)) : Node :=
  SyntaxNode type {| sp_StartRow := 0; sp_EndRow := 0; sp_StartByte := first; sp_EndByte := last |} children.
Definition sample_source : string := "func F(){http.Get(" +:+ quote +:+ "http://s/v1/a" +:+ quote +:+ ")}".
Definition sample_root : Node :=
  sample_node "source_file" 0 35 [("", true, sample_node "function_declaration" 0 35
    [("name", true, sample_node "identifier" 5 6 []); ("parameters", true, sample_node "parameter_list" 6 8 []);
     ("body", true, sample_node "block" 8 35 [("", true, sample_node "call_expression" 9 34
       [("function", true, sample_node "selector_expression" 9 17
           [("operand", true, sample_node "identifier" 9 13 []); ("field", true, sample_node "field_identifier" 14 17 [])]);
        ("arguments", true, sample_node "argument_list" 17 34 [("", true, sample_node "interpreted_string_literal" 18 33 [])])])])])].
Definition sample_visit : gmap string string → list (string * string) := λ m, map_to_list m.
Definition go_facts (root : Node) (source : string) : fileFacts := parsed_tree (λ t, t) root "go" "a.go" source (ExtractGo.extract sample_visit).
Definition sample_facts : fileFacts := go_facts sample_root sample_source.
Definition stored_sample : list ASTUnit := map (λ u, unit_of_file "shop" "a.go" "go" (with_hash "h" u)) (ff_Units sample_facts).
Definition stored_with_ids (us : list ASTUnit) : list ASTUnit := imap (λ i u, {|
  u_ID := "u" +:+ Itoa (Z.of_nat i); u_RepoID := u_RepoID u; u_FilePath := u_FilePath u; u_Language := u_Language u; u_Kind := u_Kind u;
  u_Name := u_Name u; u_Qualified := u_Qualified u; u_ParentID := u_ParentID u; u_StartLine := u_StartLine u; u_EndLine := u_EndLine u;
  u_StartByte := u_StartByte u; u_EndByte := u_EndByte u; u_Signature := u_Signature u; u_Doc := u_Doc u; u_Hash := u_Hash u; u_Meta := u_Meta u |}) us.

Example sample_file_facts :
  map (λ u, (u_Kind u, u_Name u)) (ff_Units sample_facts) = [("function", "F")] ∧
  map (λ e, (e_SrcID e, e_Kind e, e_DstName e)) (ff_Edges sample_facts) = [("#0", EdgeHTTPCall, "http:GET /v1/a")] ∧
  counts_of ContractKindHTTP (ff_Coverage sample_facts) = {| cc_Candidates := 1; cc_Edges := 1 |}.
Proof. vm_compute. done. Qed.

(** A call outside every function counts as an edge, and adds none. *)
Example counted_outside_functions :
  let root := sample_node "source_file" 0 29 [("", true, sample_node "call_expression" 6 29
    [("function", true, sample_node "selector_expression" 6 26
        [("operand", true, sample_node "call_expression" 6 22 []); ("field", true, sample_node "field_identifier" 23 26 [])]);
     ("arguments", true, sample_node "argument_list" 26 29 [("", true, sample_node "identifier" 27 28 [])])])] in
  let f := go_facts root "var v=pb.NewAClient(c).Get(x)" in
  ff_Edges f = [] ∧ counts_of ContractKindRPC (ff_Coverage f) = {| cc_Candidates := 1; cc_Edges := 1 |}.
Proof. vm_compute. done. Qed.

(** ** Files of the other languages *)

Definition ts_source : string := "app.get('/v1/a',show);function f(){fetch('http://s/v1/b');}".
Definition ts_root : Node :=
  sample_node "program" 0 59 [("", true, sample_node "expression_statement" 0 22 [("", true, sample_node "call_expression" 0 21 [("function",
    true, sample_node "member_expression" 0 7 []); ("arguments", true, sample_node "arguments" 7 21 [("", true, sample_node "string" 8 15 []);
    ("", true, sample_node "identifier" 16 20 [])])])]); ("", true, sample_node "function_declaration" 22 59 [("name", true, sample_node
    "identifier" 22 23 []); ("parameters", true, sample_node "formal_parameters" 32 34 []); ("body", true, sample_node "statement_block" 34 59
    [("", true, sample_node "call_expression" 35 57 [("function", true, sample_node "identifier" 35 40 []); ("arguments", true, sample_node
    "arguments" 40 57 [("", true, sample_node "string" 41 56 [])])])])])].
Definition py_source : string := "@app.get(" +:+ quote +:+ "/v1/a" +:+ quote +:+ ")" +:+ String "010" "def f():" +:+ String "010" " requests.get(" +:+ quote +:+ "http://s/v1/b" +:+ quote +:+ ")".
Definition py_root : Node :=
  sample_node "module" 0 57 [("", true, sample_node "decorated_definition" 0 57 [("", true, sample_node "decorator" 0 17 [("", true, sample_node
    "call" 1 17 [("function", true, sample_node "attribute" 1 8 []); ("arguments", true, sample_node "argument_list" 8 17 [("", true, sample_node
    "string" 9 16 [])])])]); ("definition", true, sample_node "function_definition" 18 57 [("name", true, sample_node "identifier" 20 21 []);
    ("parameters", true, sample_node "parameters" 23 25 []); ("body", true, sample_node "block" 28 57 [("", true, sample_node "call" 28 57
    [("function", true, sample_node "attribute" 28 40 []); ("arguments", true, sample_node "argument_list" 40 57 [("", true, sample_node "string"
    41 56 [])])])])])])].
Definition cs_source : string := "class A{void F(){var r=$" +:+ quote +:+ "api/v1/{id}" +:+ quote +:+ ";http.GetAsync(r);}}".
Definition cs_root : Node :=
  sample_node "compilation_unit" 0 57 [("", true, sample_node "class_declaration" 0 57 [("name", true, sample_node "identifier" 6 7 []); ("body",
    true, sample_node "declaration_list" 7 57 [("", true, sample_node "method_declaration" 8 56 [("name", true, sample_node "identifier" 13 14
    []); ("parameters", true, sample_node "parameter_list" 14 16 []); ("body", true, sample_node "block" 16 56 [("", true, sample_node
    "variable_declarator" 21 37 [("", true, sample_node "identifier" 21 22 []); ("", false, sample_node "=" 22 23 []); ("", true, sample_node
    "interpolated_string_expression" 23 37 [])]); ("", true, sample_node "invocation_expression" 38 54 [("function", true, sample_node
    "member_access_expression" 38 51 [("expression", true, sample_node "identifier" 38 42 []); ("name", true, sample_node "identifier" 43 51
    [])]); ("arguments", true, sample_node "argument_list" 51 54 [("", true, sample_node "argument" 52 53 [])])])])])])])].
Definition java_source : string := "class A{@GetMapping(" +:+ quote +:+ "/v1/a" +:+ quote +:+ ") void f(){users.save(u);}}".
Definition java_root : Node :=
  sample_node "program" 0 54 [("", true, sample_node "class_declaration" 0 54 [("name", true, sample_node "identifier" 6 7 []); ("body", true,
    sample_node "class_body" 7 54 [("", true, sample_node "method_declaration" 8 53 [("", true, sample_node "modifiers" 8 28 [("", true,
    sample_node "annotation" 8 28 [("name", true, sample_node "identifier" 9 19 []); ("arguments", true, sample_node "annotation_argument_list"
    19 28 [("", true, sample_node "string_literal" 20 27 [])])])]); ("name", true, sample_node "identifier" 34 35 []); ("parameters", true,
    sample_node "formal_parameters" 35 37 []); ("body", true, sample_node "block" 37 53 [("", true, sample_node "method_invocation" 38 51
    [("object", true, sample_node "identifier" 38 43 []); ("name", true, sample_node "identifier" 44 48 []); ("arguments", true, sample_node
    "argument_list" 48 51 [("", true, sample_node "identifier" 49 50 [])])])])])])])].
Definition seen (lang path source : string) (ext : Node → fileCtx → fileCtx) (root : Node) : list (string * string) * list (string * string * string) :=
  let f := parsed_tree (λ t, t) root lang path source ext in
  (map (λ u, (u_Kind u, u_Qualified u)) (ff_Units f), map (λ e, (e_SrcID e, e_Kind e, e_DstName e)) (ff_Edges f)).
Example ts_file_facts : seen "typescript" "a.ts" ts_source (ts_extract sample_visit) ts_root =
  ([("function", "f"); ("http_route", "http:GET /v1/a")], [("#1", "handled_by", "show"); ("#0", "http_call", "http:GET /v1/b")]).
Proof. vm_compute. reflexivity. Qed.
(** The decorator is itself a call, made in the route it declares. *)
Example py_file_facts : seen "python" "a.py" py_source (ExtractPython.extract sample_visit) py_root =
  ([("function", "f"); ("http_route", "http:GET /v1/a")], [("#1", "handled_by", "f"); ("#1", "call", "get"); ("#0", "http_call", "http:GET /v1/b")]).
Proof. vm_compute. reflexivity. Qed.
(** The route is assembled in a local, its hole left a parameter. *)
Example cs_file_facts : seen "csharp" "a.cs" cs_source (cs_extract sample_visit) cs_root =
  ([("class", "A"); ("method", "A.F")], [("#1", "http_call", "http:GET /api/v1/{}")]).
Proof. vm_compute. reflexivity. Qed.
Example java_file_facts : seen "java" "A.java" java_source (java_extract sample_visit) java_root =
  ([("class", "A"); ("method", "A.f"); ("http_route", "http:GET /v1/a")], [("#2", "handled_by", "f"); ("#1", "call", "save")]).
Proof. vm_compute. reflexivity. Qed.

Lemma parsed_facts_sound_witness :
  length (ff_Units sample_facts) = 1 ∧ length (ff_Edges sample_facts) = 1 ∧ sound_facts sample_facts.
Proof.
  split; [vm_compute; reflexivity |]. split; [vm_compute; reflexivity |].
  apply (parsed_facts_sound (λ t, t) sample_visit sample_root "go" "a.go" sample_source). apply list_elem_of_here.
Defined.

Lemma parsed_edges_reach_the_store_witness :
  map (λ e, (e_SrcID e, e_DstName e)) (resolveEdgeSources (ff_Edges sample_facts) (stored_with_ids stored_sample)) = [("u0", "http:GET /v1/a")] ∧
  Forall2 (λ e r, ∃ u, u ∈ stored_with_ids stored_sample ∧ r = with_src (u_ID u) e) (ff_Edges sample_facts)
    (resolveEdgeSources (ff_Edges sample_facts) (stored_with_ids stored_sample)).
Proof.
  split; [vm_compute; reflexivity |]. apply (parsed_edges_reach_the_store (λ t, t) sample_visit sample_root "go" "a.go" sample_source).
  - apply list_elem_of_here.
  - vm_compute. reflexivity.
  - vm_compute. reflexivity.
  - apply (proj1 (Forall_fmap u_ID (λ s, s ≠ "") _)). refine (bool_decide_unpack _ _). vm_compute. exact I.
Defined.
